(* ===== verification/_CoqProject ===== *)
-Q . S2P
Prelude.v
GoNum.v
Json.v
Value.v
GoTime.v
Store.v
Filter.v
Wire.v
Codec.v
Segment.v
Index.v
SecondaryIndex.v
Collection.v
Keyed.v
Batch.v
CollInv.v
CollStep.v
CollOps.v
CollThm.v
Unique.v
BatchInv.v
BatchThm.v
Compactor.v
CompactInv.v
CompactWrite.v
CompactThm.v
Manifest.v
ManifestThm.v
Base64.v
Encryption.v
EncryptionThm.v
Heap.v
Scan.v
ScanThm.v
QueryThm.v
OrderThm.v
Sha256.v
Journal.v
JournalThm.v
JournalInv.v
JournalOps.v
JournalSafe.v
Salvage.v
Names.v
XTx.v
XTxInv.v
XTxRecover.v
XTxPrep.v
XTxAtomic.v
XTxCommit.v
XTxSample.v
XSpec.v
XSpecThm.v
Format.v
UnixTime.v
Envelope.v
EnvelopeThm.v
Replication.v
ReplicationThm.v
ReplFeed.v
ReplSample.v
ReplApply.v
ReplConverge.v
IndexFile.v
IndexFileThm.v
IndexRecover.v
IndexRecoverThm.v
SidxFile.v
SidxFileThm.v
SidxSample.v
Verify.v
VerifyThm.v
VerifyIndex.v
Reopen.v
Auth.v
Server.v
XDb.v
XDbThm.v
XHandle.v
XHandleThm.v
