(* ===== verification/Prelude.v ===== *)
(** * ScrivaDB storage engine: a verification development

    ScrivaDB (the Go module under [src/]) is an append-only document store.  A
    collection is a directory of NDJSON segment files; every write appends one
    checksummed line to the active segment, a primary index maps each record id
    to the place of its latest line, secondary indexes map field values to ids,
    and everything in memory can be rebuilt from the lines.  This development
    models the engine of one collection, from bytes to operations, the commit
    and the recovery of transactions across collections, the replication of a
    leader's writes to its followers, and who may call what, and proves that what they acknowledge is
    what their files hold.

    ** Files, and the code they model

    - [Prelude]: results, bytes, machine integers, binary search, stable sort.
    - [GoNum], [Json], [Value], [GoTime]: what the engine uses of Go's standard
      library: decimal printing and parsing of float64 and of integers,
      encoding/json (escaping, whitespace, duplicate members, key order, bytes
      that are not UTF-8 replaced by U+FFFD in both directions), [any] values with
      [fmt.Sprint], time.Time in UTC with RFC 3339.  A string of the model is any
      sequence of bytes; the well-formedness predicates ([value_wf], [data_wf],
      [entry_wf], [stamped_wf], [fits]) ask for UTF-8 where a value has to survive
      a line.
    - [Store]: [store/ndjson.go].  [Entry], its CRC-32C over the printed
      fields, [Encode] and [Decode] on the exact bytes of a line.
    - [Filter]: [query/filter.go].  [Compare], [equal], field predicates, trees.
      The regular expression engine is a parameter.
    - [Wire]: [engine/xtx_wire.go].  The stamped lines of transactions.
    - [Codec]: the class [LineCodec] the segment code is proved against, with
      an instance for plain and one for stamped lines.
    - [Segment]: [engine/segment.go].  A segment is its file's bytes, the
      committed size and the handle; the outcome of each file call is read from
      a list of faults, and a failed write may leave any prefix of its bytes.
    - [Index]: [engine/index.go].  The primary index and its rebuild.
    - [SecondaryIndex]: [engine/secondary_index.go].  Buckets, reverse map, the
      sorted view of a homogeneous field, lookups, rebuild.
    - [Collection]: the record operations of [engine/collection.go], with
      [ttl.go], [fence.go], [quota.go] and the emit side of watchers, as state
      passing functions ([M]) that keep the state reached at an early return.
    - [Keyed]: index management, string keys ([engine/keys.go]), compare and
      swap.
    - [Batch]: [InsertMany], [CommitTx], routing ([engine/batch_atomic.go]), the
      reaper, the staging buffers ([engine/txmanager.go]).
    - [CollInv], [CollStep], [CollOps], [CollThm]: the invariant [cinv c L] (the
      segments of [c] hold exactly the lines [L], the primary index is the
      replay of [L]), a weakest-precondition calculus for [M], the
      specification of each write, and the theorems on sequences of operations.
    - [Unique]: secondary indexes follow the log; unique indexes stay unique.
    - [BatchInv], [BatchThm]: batches and transactions are all or nothing.
    - [Compactor]: [engine/compactor.go].  A whole compaction pass: resolving the
      sealed segments, migrating encryption, writing and rebalancing the output,
      the swap, with each file call failing or not.  [CompactInv],
      [CompactWrite], [CompactThm] carry its proof.
    - [Manifest]: [engine/compact_manifest.go].  The swap as a list of atomic
      directory steps, the manifest file, recovery; [ManifestThm] its proof.
    - [Base64], [Encryption]: [crypto/envelope.go], [crypto/keyring.go],
      [crypto/keycheck.go], [engine/encryption.go],
      [engine/encryption_admin.go].  Envelopes, key rings, field and record
      mode, policy changes.  The cipher is a parameter.  [EncryptionThm] proves
      that this encryptor is what the class-like record [encryptor] of
      [Collection] promises to the rest of the engine.
    - [Heap], [Scan]: [engine/scan.go] and [engine/count.go].  The bounded heap,
      views, both query plans, ordered and unordered scans, page tokens,
      counts.  [ScanThm] (what a plan visits), [QueryThm] (unordered scans and
      counts) and [OrderThm] (ordered pages and tokens) carry the proofs.
    - [Sha256], [Journal]: [engine/xtx_journal.go].  The journal in which the
      coordinator of cross-collection transactions decides: its lines byte for
      byte, the decision table, commits, aborts, retirements, checkpoints and
      opening, with each file call failing or not.  [JournalThm] (lines and
      table), [JournalInv] (the invariant of the file and each operation),
      [JournalOps] (runs) and [JournalSafe] (runs, crashes and reopening).
    - [Salvage]: [engine/salvage.go].  The scan that reads every intact line of a
      damaged segment.  [Names]: [engine/names.go], the names of collections.
    - [XTx]: [engine/xtx_prepare.go] and [engine/xtx_recovery.go].  A transaction
      across collections: stamped runs in the active segments, their syncs, the
      decision, the undoing; and the recovery of a root directory, from the
      version gate to the truth table and the cutting of dead runs.  [XTxInv] and
      [XTxRecover] prove what recovery does on a root; [XTxPrep] what the steps
      of the protocol do to the participants under every fault; [XTxAtomic] what
      a crash leaves of the decision; [XTxCommit] puts them together;
      [XTxSample] evaluates a commit over two collections.
    - [XSpec]: [internal/xtxspec], the repository's pure statement of the decision
      rules, the recovery truth table and the checklist of crash points;
      [XSpecThm] proves that the engine refines it.
    - [Format]: [engine/xtx_format.go], the format file of a root and its order
      with the journal at first use.
    - [UnixTime], [Envelope]: [engine/replication_envelope.go].  The envelope in
      which a transaction is shipped: canonical data, validation, the digest's
      input byte for byte, the JSON form; [EnvelopeThm] its proof.
    - [Replication]: [engine/replication.go].  The broker (numbering, the ring
      bounded by weight, subscribers and back-pressure, reserved blocks of
      numbers), the watermark file, promotion.  [ReplicationThm] proves the
      broker's steps, [ReplFeed] runs of a node with its streams and restarts (a
      promotion is the three steps of the code: the flip of the role, the
      reseeding of the counter, the watermark write), [ReplSample] evaluates some.
    - [ReplApply]: [applyEntry] of [engine/replication.go] with the key check of
      [engine/keys.go]; [ReplConverge] follows a leader's feed on a follower.
    - [IndexFile]: the snapshot file of [engine/index.go], byte for byte, with the
      coverage of every segment; [IndexFileThm] its round trip.  [IndexRecover]:
      [engine/index_recovery.go], which decides at open how far the file is
      trusted; [IndexRecoverThm] its proof and samples.
      [SidxFile]: the same for secondary indexes ([engine/secondary_index.go]),
      with [SidxFileThm] and [SidxSample].
    - [Verify]: [engine/verify.go], [engine/verify_checks.go] and the gate of
      [engine/integrity_policy.go].  The checks of a collection and their findings.
      [VerifyThm] proves what the gate decides, [VerifyIndex] what the comparison of
      the primary index reports, [Reopen] that a collection reopens with its index,
      with samples of all three.
    - [Auth]: [internal/auth] (keys, principals, the policy matrix, the unary and
      the stream interceptor, client certificates), both interceptors proved
      against the capability model.  [Server]: the owners of transaction handles
      ([server/handle_owner.go]) with the handlers that use them, and
      [ListCollections], with their proofs.
    - [XDb]: [engine/xtx_commit.go], the whole commit of a transaction over several
      collections of one database; [XDbThm] its effect on what readers see and
      where each operation is stored.
      [XHandle]: [engine/xtx_handle.go], the handles that stage and read before a
      commit, their registry and expiry; [XHandleThm] their isolation, with samples of both.

    ** What the theorems show

    - Bytes: decoding inverts encoding; a line has one newline, at its end; one
      changed byte never decodes to a different entry; a stamped line is
      accepted only with its own checksum.
    - Segments: an append adds its whole line or nothing, for every fault; a
      crash in the middle of an append loses that append only.
    - Indexes: replay keeps the last visible write of each id, in segment order
      whatever order the files are listed in; the secondary index is its
      abstract map; equality and range lookups return exactly the ids whose
      value satisfies the predicate.
    - Collections: each write appends its line and updates the index, or is
      refused and changes nothing, or leaves the collection fenced; over any
      sequence of operations and faults the acknowledged writes are in the log;
      a read returns the record the log holds; an expired record never comes
      back; quotas and unique indexes hold.
    - Batches: all lines or none, with the index restored.
    - Compaction: a finished pass answers every read as before it; a crash
      between any two steps of the swap is repaired by recovery to the old or
      the new set of segments, never a mixture.
    - Encryption: what was sealed is read back under every later policy of the
      collection, and the stored form does not hold an encrypted field in the
      clear.
    - Queries: a scan visits exactly the live matching records, each once, by
      either plan and while others append; an ordered page is the slice of the
      sorted matches; tokens tile them; a count is the number of matches.
    - Journal: an acknowledged decision survives any later failure and crash,
      no decision is made up, ids are not reissued, and a line is accepted only
      as the exact encoding of a record.
    - Transactions across collections: whatever file calls fail and wherever the
      process crashes, recovery succeeds and every participant shows the whole
      run or none does, as was reported; recovery decides each transaction as the
      truth table of the specification does, and changes nothing readers see.  In
      a running database a commit applies all of its operations at one instant at
      which every read it depends on holds, or changes nothing, and each of its
      operations is stored with its data where its index entry points;
      transactions by handle are serializable over point reads (by presence and
      revision) and writes.
    - Access: a call, unary or streaming, reaches its handler exactly when its key's
      principal holds what the policy asks for; a key with an allow-list never gets past it; a handle is
      used only by the credential that began it.
    - Replication: a stream that is not cut off hands out every record published
      after its start, in order, once; in orderly runs numbers are not reissued
      across restarts and promotions; a commit that was reserved last and could not
      be published makes every follower resynchronise; publishing terminates and keeps ring and queues within
      their bounds; a follower that is fed the leader's log, with any overlap,
      ends with the leader's records; an envelope whose contents were changed
      keeps its digest only at a SHA-256 collision.
    - Index files: an index recovered at open is the index a full replay of the
      segments gives, wherever the directory was moved, whatever was appended
      since the file was written, and whichever file call fails; so is a
      secondary index; a collection reopens with the index it had in memory.
    - Verification: the gate of an open accepts exactly the segments that read back
      with one writer's history; the check of the primary index reports a difference
      exactly when there is one.
    - Damaged files: the tolerant scan reports an entry if and only if its line is
      intact, and accounts for every byte once.

    ** Bounds and fuel

    Integers are [Z] with Go's wrap-around written where the code computes
    ([u64], [i64]); theorems that need no overflow say so ([room]).  Parsers
    take fuel equal to the length of their input plus one and are proved to
    have enough; the recovery loop takes the file length, which bounds its
    512-byte steps; the heap's sift loops take the number of levels they can
    climb and are proved to restore the heap with it; the eviction loop of the
    replication ring takes the number of records in it.  Runs of a replication
    node have a ring, watermark writes that succeed (failing ones are modelled,
    and the effect of a damaged file is a finding) and fewer than 2^64 numbers;
    they are orderly ([orderly]): no record is numbered between the flip of a
    promotion and its watermark write, and the applied watermark moves on a
    follower only, which the code does not enforce (findings).
    A point read of a handle makes four attempts and is proved to need no more.
    Concurrency: every modelled operation runs under the
    collection's lock, so callers interleave as sequences of operations; a
    commit over several collections is one step from its last lock on, and
    between the operations of a handle the database may change in any way; a scan
    reads outside it, and its segments are replaced, between the capture and
    the reads, by segments to which any whole lines were appended.  A crash keeps
    of each file at least what was last forced to disk and cuts the rest at any
    byte; a truncation is taken to be kept.

    ** Findings

    [Store.empty_data_unreadable], [Filter.Compare_cycle],
    [SecondaryIndex.eq_bucket_misses_negative_zero], [Unique.resurrected_key],
    [Unique.expired_holder_blocks_keyed_operations],
    [CompactThm.undecided_evidence_reordered],
    [EncryptionThm.disabled_record_mode_loses_field],
    [EncryptionThm.migrated_empty_record], [EncryptionThm.mode_switch_refused],
    [OrderThm.mixed_kinds_pages_differ], [OrderThm.negative_offset_panics],
    [XTxSample.failed_commit_blocks_open], [XSpecThm.set_digest_differs],
    [JournalSafe.bad_key_unreadable], [ReplSample.reserved_number_taken_skips],
    [ReplSample.late_apply_reissues], [ReplSample.promotion_window_reissues],
    [ReplSample.promotion_without_ring_reissues],
    [ReplSample.damaged_watermark_restarts],
    [IndexRecoverThm.late_commit_missed],
    [IndexRecoverThm.tolerant_rebuild_forgets_deadlines],
    [Reopen.undecided_run_reported], [Server.sweep_forgets_live_handle],
    [XHandleThm.read_lock_twice_deadlocks],
    [XHandleThm.insert_over_existing] and
    [XHandleThm.rejected_stage_conflicts] exhibit inputs on which the code does not do what its comments say.

    ** Not modelled

    Aggregates (sums of IEEE doubles), opening a directory, the atomic form of the
    batches of one collection (an interface of [Batch]), applying a replicated
    transaction and the transport of the feed, the check of the transaction
    graph and the repair tool, the conversion of requests at the server, the
    command line and generated code. *)
From Stdlib Require Import Ascii Lia ZArith.
From stdpp Require Import prelude gmap strings sorting.

(** ** Results of fallible Go code

    A Go function returning [(T, error)] is a function returning [res E T]. *)

Inductive res (E A : Type) : Type :=
| Ok (a : A)
| Err (e : E).
Arguments Ok {E A} _.
Arguments Err {E A} _.

Definition res_bind {E A B} (m : res E A) (k : A → res E B) : res E B :=
  match m with
  | Ok a => k a
  | Err e => Err e
  end.

Definition is_ok {E A} (m : res E A) : bool :=
  match m with Ok _ => true | Err _ => false end.

Declare Scope scriva_scope.
Delimit Scope scriva_scope with scriva.
Notation "'let*' x ':=' m 'in' k" := (res_bind m (λ x, k))
  (at level 10, x pattern, m at level 100, k at level 200) : scriva_scope.
Open Scope scriva_scope.

(** Byte slices are lists of [ascii]; Go strings (map keys, field values) are
    Stdlib strings. *)

Abbreviation bytes := (list ascii).

Definition b_of_s (s : string) : bytes := String.list_ascii_of_string s.
Definition s_of_b (b : bytes) : string := String.string_of_list_ascii b.

Definition newline : ascii := "010"%char.
Definition carriage_return : ascii := "013"%char.

(** ** Machine integers *)

Definition two63 : Z := 9223372036854775808.
Definition two64 : Z := 18446744073709551616.

(** Conversion to [uint64] and [int64] with Go's wrap-around. *)
Definition u64 (z : Z) : Z := z mod two64.
Definition i64 (z : Z) : Z := (z + two63) mod two64 - two63.

Definition in_u64 (z : Z) : Prop := (0 ≤ z < two64)%Z.
Definition in_i64 (z : Z) : Prop := (- two63 ≤ z < two63)%Z.

(** ** Sorting and searching, as the [sort] package does *)

(** [sort.SliceStable] with the comparison [less]. *)
Fixpoint sinsert {A} (less : A → A → bool) (x : A) (l : list A) : list A :=
  match l with
  | [] => [x]
  | y :: l' => if less y x then y :: sinsert less x l' else x :: y :: l'
  end.

Fixpoint ssort {A} (less : A → A → bool) (l : list A) : list A :=
  match l with
  | [] => []
  | x :: l' => sinsert less x (ssort less l')
  end.

(** [sort.Search lo hi f]: the binary search loop of the standard library,
    [for i < j { h := (i+j)/2; if !f(h) { i = h+1 } else { j = h } }]. *)
Fixpoint search_loop (fuel : nat) (f : nat → bool) (i j : nat) : nat :=
  match fuel with
  | 0 => i
  | S fuel' =>
      if i <? j then
        let h := (i + j) / 2 in
        if f h then search_loop fuel' f i h else search_loop fuel' f (S h) j
      else i
  end.

Definition search (n : nat) (f : nat → bool) : nat := search_loop n f 0 n.

(** ** Automation *)

Create HintDb scriva.

(** Case analysis on the scrutinee of a [match] or [if] in the goal or in a
    hypothesis, keeping the equation. *)
Ltac dest_match :=
  match goal with
  | |- context [match ?x with _ => _ end] =>
      lazymatch x with context [match _ with _ => _ end] => fail | _ => destruct x eqn:? end
  end.

Ltac dest_match_in H :=
  match type of H with
  | context [match ?x with _ => _ end] =>
      lazymatch x with context [match _ with _ => _ end] => fail | _ => destruct x eqn:? end
  end.

Ltac invc H := inversion H; subst; clear H.

(** [Forall] over a literal list, each element by [lia]. *)
Ltac forall_lia :=
  repeat first [apply List.Forall_nil | apply List.Forall_cons; [lia|]].

(** ** Lemmas on integers *)

Lemma u64_range z : in_u64 (u64 z).
Proof. unfold in_u64, u64, two64. apply Z.mod_pos_bound. lia. Qed.

Lemma u64_id z : in_u64 z → u64 z = z.
Proof. unfold in_u64, u64, two64. intros. by apply Z.mod_small. Qed.

Lemma i64_range z : in_i64 (i64 z).
Proof.
  unfold in_i64, i64, two64, two63.
  pose proof (Z.mod_pos_bound (z + 9223372036854775808) 18446744073709551616). lia.
Qed.

Lemma i64_id z : in_i64 z → i64 z = z.
Proof.
  unfold in_i64, i64, two64, two63. intros.
  rewrite Z.mod_small; lia.
Qed.

#[export] Hint Resolve u64_range i64_range : scriva.

(** ** Lemmas on sorting *)

Section sorting.
Context {A : Type} (less : A → A → bool).

(** [less] is the strict part of a total preorder: what Go's sort package
    requires of the comparison it is given. *)
Record strict_weak : Prop := {
  sw_irrefl : ∀ x, less x x = false;
  sw_trans : ∀ x y z, less x y = true → less y z = true → less x z = true;
  sw_incomp : ∀ x y z, less x y = false → less y z = false → less x z = false
}.

Definition not_after (x y : A) : Prop := less y x = false.

Lemma sinsert_perm x l : sinsert less x l ≡ₚ x :: l.
Proof.
  induction l as [|y l IH]; simpl; [done|].
  destruct (less y x); [|done]. rewrite IH. apply Permutation_swap.
Qed.

Lemma ssort_perm l : ssort less l ≡ₚ l.
Proof.
  induction l as [|x l IH]; simpl; [done|]. by rewrite sinsert_perm, IH.
Qed.

Lemma ssort_length l : length (ssort less l) = length l.
Proof. apply Permutation_length, ssort_perm. Qed.

Lemma elem_of_ssort x l : x ∈ ssort less l ↔ x ∈ l.
Proof. by rewrite ssort_perm. Qed.

Hypothesis Hsw : strict_weak.

Lemma sw_asym x y : less x y = true → less y x = false.
Proof.
  intros H. destruct (less y x) eqn:E; [|done].
  pose proof (sw_trans Hsw _ _ _ H E) as Hxx. by rewrite (sw_irrefl Hsw) in Hxx.
Qed.

Lemma sinsert_sorted x l :
  StronglySorted not_after l → StronglySorted not_after (sinsert less x l).
Proof.
  induction 1 as [|y l Hl IH Hy]; simpl.
  { repeat constructor. }
  destruct (less y x) eqn:E.
  - constructor; [done|]. rewrite sinsert_perm. constructor; [|done].
    unfold not_after. by apply sw_asym.
  - constructor; [by constructor|]. constructor; [done|].
    eapply List.Forall_impl; [|exact Hy]. unfold not_after. intros z Hz.
    by eapply (sw_incomp Hsw).
Qed.

Lemma ssort_sorted l : StronglySorted not_after (ssort less l).
Proof. induction l; simpl; [constructor|]. by apply sinsert_sorted. Qed.

(** Sorting a sorted list changes nothing. *)
Lemma ssort_fixed l : StronglySorted not_after l → ssort less l = l.
Proof.
  induction 1 as [|x l _ IH Hall]; [done|]. cbn [ssort]. rewrite IH. destruct l as [|y l]; [done|].
  apply Forall_cons in Hall as [Hxy _]. cbn [sinsert]. unfold not_after in Hxy. by rewrite Hxy.
Qed.

(** When ties never occur between distinct elements, a sorted permutation is
    unique: every correct sort gives the same list. *)
Lemma sorted_unique l1 l2 :
  (∀ x y, x ∈ l1 → y ∈ l1 → less x y = false → less y x = false → x = y) →
  StronglySorted not_after l1 → StronglySorted not_after l2 → l1 ≡ₚ l2 → l1 = l2.
Proof.
  intros Htot H1 H2 Hp. eapply (StronglySorted_unique_strong not_after); try done.
  intros x y Hx Hy Hxy Hyx. apply Htot; try done. by rewrite Hp.
Qed.

Lemma ssort_unique l1 l2 :
  (∀ x y, x ∈ l1 → y ∈ l1 → less x y = false → less y x = false → x = y) →
  l1 ≡ₚ l2 → ssort less l1 = ssort less l2.
Proof.
  intros Htot Hp. apply sorted_unique; [|apply ssort_sorted..|].
  - intros x y. rewrite !elem_of_ssort. apply Htot.
  - by rewrite !ssort_perm.
Qed.

End sorting.

(** ** Lemmas on binary search *)

(** [search] returns the least index at which a monotone predicate holds. *)
Lemma search_loop_spec fuel f i j :
  j - i ≤ fuel → i ≤ j →
  (∀ a b, a ≤ b → b < j → f a = true → f b = true) →
  (∀ a, a < i → f a = false) →
  let r := search_loop fuel f i j in
  i ≤ r ∧ r ≤ j ∧ (∀ a, a < r → f a = false) ∧ (∀ b, r ≤ b → b < j → f b = true).
Proof.
  revert i j. induction fuel as [|fuel IH]; intros i j Hf Hij Hmono Hlow; cbn [search_loop].
  { assert (i = j) by lia. subst. cbv zeta. split_and!; auto; lia. }
  destruct (Nat.ltb_spec i j) as [Hlt|Hge].
  2:{ assert (i = j) by lia. subst. cbv zeta. split_and!; auto; lia. }
  cbv zeta. set (h := (i + j) / 2).
  assert (Hh : i ≤ h < j).
  { subst h. split; [apply Nat.div_le_lower_bound|apply Nat.Div0.div_lt_upper_bound]; lia. }
  destruct (f h) eqn:Efh.
  - destruct (IH i h) as (H1 & H2 & H3 & H4); [lia..| |done|].
    { intros a b Hab Hb Ha. apply (Hmono a b); [lia|lia|done]. }
    split_and!; [done|lia|done|].
    intros b Hb Hbj. destruct (decide (b < h)); [by apply H4|].
    apply (Hmono h b); [lia|done|done].
  - destruct (IH (S h) j) as (H1 & H2 & H3 & H4); [lia..|done| |].
    { intros a Ha. destruct (f a) eqn:Efa; [|done].
      assert (f h = true) by (apply (Hmono a h); [lia|lia|done]). congruence. }
    split_and!; [lia|done|done|done].
Qed.

Lemma search_spec n f :
  (∀ a b, a ≤ b → b < n → f a = true → f b = true) →
  let r := search n f in
  r ≤ n ∧ (∀ a, a < r → f a = false) ∧ (∀ b, r ≤ b → b < n → f b = true).
Proof.
  intros Hmono. destruct (search_loop_spec n f 0 n) as (_ & H); [lia..|done|lia|done].
Qed.

(** ** Lemmas on lists *)

Lemma filter_all {A} (P : A → Prop) `{∀ x, Decision (P x)} l : Forall P l → filter P l = l.
Proof.
  induction 1 as [|x l Hx _ IH]; [done|]. rewrite filter_cons_True by done. by rewrite IH.
Qed.

Lemma filter_none {A} (P : A → Prop) `{∀ x, Decision (P x)} l : Forall (λ x, ¬ P x) l → filter P l = [].
Proof.
  induction 1 as [|x l Hx _ IH]; [done|]. by rewrite filter_cons_False.
Qed.

(** ** Binary search in a sorted list *)

Section search_list.
Context {A : Type} `{Inhabited A}.

(** [sort.Search(len(l), func(i) { return p(l[i]) })]. *)
Definition search_list (l : list A) (p : A → bool) : nat := search (length l) (λ i, p (l !!! i)).

(** When [p] is monotone along [l], the search splits [l] at its boundary. *)
Lemma search_list_split l (p : A → bool) :
  (∀ i j x y, i ≤ j → l !! i = Some x → l !! j = Some y → p x = true → p y = true) →
  let k := search_list l p in
  k ≤ length l ∧ Forall (λ x, p x = false) (take k l) ∧ Forall (λ x, p x = true) (drop k l).
Proof.
  intros Hm. unfold search_list.
  destruct (search_spec (length l) (λ i, p (l !!! i))) as (Hk & Hlo & Hhi).
  { intros a b Hab Hb Ha. simpl in *.
    destruct (lookup_lt_is_Some_2 l a) as [x Hx]; [lia|].
    destruct (lookup_lt_is_Some_2 l b) as [y Hy]; [lia|].
    rewrite (list_lookup_total_correct _ _ _ Hx) in Ha.
    rewrite (list_lookup_total_correct _ _ _ Hy). by eapply (Hm a b). }
  set (k := search _ _) in *. cbv zeta. split_and!; [done|..]; apply Forall_lookup; intros i x Hi.
  - apply lookup_take_Some in Hi as [Hi Hlt]. specialize (Hlo i Hlt). simpl in Hlo.
    by rewrite (list_lookup_total_correct _ _ _ Hi) in Hlo.
  - rewrite lookup_drop in Hi. pose proof (lookup_lt_Some _ _ _ Hi) as Hlt.
    specialize (Hhi (k + i) ltac:(lia) Hlt). simpl in Hhi.
    by rewrite (list_lookup_total_correct _ _ _ Hi) in Hhi.
Qed.

Lemma StronglySorted_lookup (R : A → A → Prop) l i j x y :
  StronglySorted R l → i < j → l !! i = Some x → l !! j = Some y → R x y.
Proof.
  intros Hs. revert i j. induction Hs as [|a l Hs IH Ha]; intros i j Hij Hi Hj; [done|].
  destruct j as [|j]; [lia|]. destruct i as [|i]; simpl in *.
  - simplify_eq. rewrite Forall_lookup in Ha. by eapply Ha.
  - by eapply (IH i j); [lia|..].
Qed.

(** The split of a sorted list, in terms of [filter]. *)
Lemma search_list_filter l (p : A → bool) :
  (∀ i j x y, i ≤ j → l !! i = Some x → l !! j = Some y → p x = true → p y = true) →
  drop (search_list l p) l = filter (λ x, p x = true) l ∧
  take (search_list l p) l = filter (λ x, p x = false) l.
Proof.
  intros Hm. destruct (search_list_split l p Hm) as (Hk & Ht & Hd).
  set (k := search_list l p) in *.
  assert (Hdt : ∀ (P : A → Prop) `{∀ x, Decision (P x)}, filter P l = filter P (take k l) ++ filter P (drop k l))
    by (intros; by rewrite <- filter_app, take_drop).
  split; rewrite Hdt.
  - rewrite (filter_none _ (take k l)), (filter_all _ (drop k l)); [done|done|].
    eapply List.Forall_impl; [|exact Ht]. simpl. intros x ->. done.
  - rewrite (filter_all _ (take k l)), (filter_none _ (drop k l)); [by rewrite app_nil_r| |done].
    eapply List.Forall_impl; [|exact Hd]. simpl. intros x ->. done.
Qed.

(** Insertion at the position found by the search keeps the list sorted. *)
Lemma search_insert_sorted (less : A → A → bool) l x :
  (∀ a b c, a ∈ x :: l → b ∈ x :: l → c ∈ x :: l → not_after less a b → not_after less b c → not_after less a c) →
  (∀ y, y ∈ l → less y x = true → less x y = false) →
  StronglySorted (not_after less) l →
  let i := search_list l (λ y, negb (less y x)) in
  StronglySorted (not_after less) (take i l ++ x :: drop i l).
Proof.
  intros Htrans Hasym Hs i. subst i.
  destruct (search_list_split l (λ y, negb (less y x))) as (Hk & Ht & Hd).
  { intros i j y z Hij Hi Hj Hy. rewrite negb_true_iff in *.
    destruct (decide (i = j)) as [->|]; [congruence|].
    assert (Hyz : not_after less y z) by (eapply StronglySorted_lookup; [exact Hs| |exact Hi|exact Hj]; lia).
    apply (Htrans x y z); try done; try by left.
    - right. by eapply list_elem_of_lookup_2.
    - right. by eapply list_elem_of_lookup_2. }
  set (k := search_list l (λ y, negb (less y x))) in *.
  rewrite <- (take_drop k l) in Hs. apply StronglySorted_app in Hs as (Hcross & Hs1 & Hs2).
  apply StronglySorted_app. split_and!; [|done|].
  - intros a b Ha [->|Hb]%elem_of_cons.
    + rewrite Forall_forall in Ht. specialize (Ht a Ha). apply negb_false_iff in Ht.
      unfold not_after. apply Hasym; [|done]. rewrite <- (take_drop k l). apply elem_of_app. by left.
    + by apply Hcross.
  - constructor; [done|]. apply Forall_forall. intros b Hb. unfold not_after.
    rewrite Forall_forall in Hd. specialize (Hd b Hb). by apply negb_true_iff in Hd.
Qed.

(** The search for an element of a sorted list finds it. *)
Lemma search_find (less : A → A → bool) l x :
  x ∈ l → less x x = false →
  (∀ a b c, a ∈ l → b ∈ l → c ∈ l → not_after less a b → not_after less b c → not_after less a c) →
  (∀ y, y ∈ l → less y x = false → less x y = false → y = x) →
  StronglySorted (not_after less) l →
  l !! search_list l (λ y, negb (less y x)) = Some x.
Proof.
  intros Hx Hirr Htrans Htie Hs.
  destruct (search_list_split l (λ y, negb (less y x))) as (Hk & Ht & Hd).
  { intros i j y z Hij Hi Hj Hy. rewrite negb_true_iff in *.
    destruct (decide (i = j)) as [->|]; [congruence|].
    assert (Hyz : not_after less y z) by (eapply StronglySorted_lookup; [exact Hs| |exact Hi|exact Hj]; lia).
    apply (Htrans x y z); try done; by eapply list_elem_of_lookup_2. }
  set (k := search_list l (λ y, negb (less y x))) in *.
  assert (Hin : x ∈ drop k l).
  { rewrite <- (take_drop k l) in Hx. apply elem_of_app in Hx as [Hx|Hx]; [|done].
    rewrite Forall_forall in Ht. specialize (Ht x Hx). simpl in Ht. by rewrite Hirr in Ht. }
  apply list_elem_of_lookup in Hin as [j Hj]. rewrite lookup_drop in Hj.
  destruct j as [|j]; [by rewrite Nat.add_0_r in Hj|].
  destruct (lookup_lt_is_Some_2 l k) as [z Hz]; [apply lookup_lt_Some in Hj; lia|].
  rewrite Hz. f_equal. apply Htie.
  - by eapply list_elem_of_lookup_2.
  - rewrite Forall_forall in Hd. assert (Hzd : z ∈ drop k l).
    { apply (list_elem_of_lookup_2 _ 0). by rewrite lookup_drop, Nat.add_0_r. }
    specialize (Hd z Hzd). by apply negb_true_iff in Hd.
  - apply (StronglySorted_lookup (not_after less) l k (k + S j) z x); [done|lia|done|done].
Qed.

End search_list.

Lemma ssort_map {A B} (f : A → B) (less : B → B → bool) l :
  ssort less (map f l) = map f (ssort (λ x y, less (f x) (f y)) l).
Proof.
  induction l as [|x l IH]; [done|]. cbn [map ssort]. rewrite IH. clear IH.
  induction (ssort (λ x y, less (f x) (f y)) l) as [|y l' IH]; [done|]. cbn [map sinsert].
  destruct (less (f y) (f x)); [|done]. cbn [map]. by rewrite IH.
Qed.

Lemma StronglySorted_map {A B} (f : A → B) (R : B → B → Prop) l :
  StronglySorted (λ x y, R (f x) (f y)) l → StronglySorted R (map f l).
Proof.
  induction 1 as [|x l _ IH Hx]; [constructor|]. cbn [map]. constructor; [done|].
  by apply Forall_map.
Qed.
