(* ===== verification/GoNum.v ===== *)
(** * Go's [float64] values: comparison, formatting and parsing

    A finite [float64] is represented by its shortest decimal representation,
    as the [decimalSlice] of Go's [strconv] does: a sign, the significant
    digits and the position of the decimal point ([0.d1d2...dn * 10^dp]).
    Distinct floats have distinct shortest decimals and the order of two floats
    is the order of their shortest decimals, so comparison, [fmt]'s [%v] and
    [encoding/json]'s number format are exact on this representation; what is
    not represented is the rounding of a literal with more significant digits
    than its nearest float needs.  Infinities and NaN do not occur: JSON has no
    literal for them. *)
From Stdlib Require Import Ascii Lia ZArith.
From stdpp Require Import prelude gmap strings sorting.
From S2P Require Import Prelude.

Record float64 : Type := MkF {
  f_neg : bool;
  f_digs : list nat;
  f_dp : Z
}.

#[global] Instance float64_eq_dec : EqDecision float64.
Proof. solve_decision. Defined.

(** The digits of a shortest decimal: no leading and no trailing zero; zero has
    no digit; the decimal exponent is in the range of the double format. *)
Definition canonical (f : float64) : Prop :=
  Forall (λ d, d < 10) (f_digs f) ∧
  f_digs f !! 0 ≠ Some 0 ∧ last (f_digs f) ≠ Some 0 ∧
  (f_digs f = [] → f_dp f = 0%Z) ∧
  (-323 ≤ f_dp f ≤ 309)%Z.

(** ** Comparison *)

Definition mant (ds : list nat) : Z :=
  foldl (λ a d, (10 * a + Z.of_nat d)%Z) 0%Z ds.

Definition f_exp (f : float64) : Z := (f_dp f - Z.of_nat (length (f_digs f)))%Z.

Definition smant (f : float64) : Z :=
  if f_neg f then (- mant (f_digs f))%Z else mant (f_digs f).

(** The value of [f] in units of [10^e], for [e <= f_exp f]. *)
Definition scaled (f : float64) (e : Z) : Z := (smant f * 10 ^ (f_exp f - e))%Z.

Definition float_cmp (f g : float64) : comparison :=
  let e := Z.min (f_exp f) (f_exp g) in
  Z.compare (scaled f e) (scaled g e).

Definition float_eqb (f g : float64) : bool :=
  match float_cmp f g with Eq => true | _ => false end.

Definition float_ltb (f g : float64) : bool :=
  match float_cmp f g with Lt => true | _ => false end.

(** ** Formatting *)

Definition digit_char (d : nat) : ascii := ascii_of_nat (48 + d).

Definition char_digit (c : ascii) : option nat :=
  let n := nat_of_ascii c in
  if decide (48 ≤ n ∧ n < 58) then Some (n - 48) else None.

Arguments digit_char : simpl never.
Arguments char_digit : simpl never.

Definition zeros (n : nat) : bytes := replicate n "0"%char.

Definition sign_of (neg : bool) : bytes := if neg then ["-"%char] else [].

(** [fmtE]'s exponent: at least two digits; [encoding/json] shortens a
    one-digit exponent to one digit ([short]). *)
Definition fmt_exponent (short : bool) (e : Z) : bytes :=
  let a := Z.to_nat (Z.abs e) in
  (if (e <? 0)%Z then "-"%char else "+"%char) ::
  (if decide (a < 10) then (if short then [] else ["0"%char]) ++ [digit_char a]
   else if decide (a < 100) then [digit_char (a / 10); digit_char (a mod 10)]
   else [digit_char (a / 100); digit_char (a / 10 mod 10); digit_char (a mod 10)]).

Definition fmt_e (short : bool) (f : float64) : bytes :=
  match f_digs f with
  | [] => []
  | d :: ds =>
      digit_char d :: (match ds with [] => [] | _ => "."%char :: map digit_char ds end) ++
      "e"%char :: fmt_exponent short (f_dp f - 1)
  end.

Definition fmt_f (f : float64) : bytes :=
  let ds := map digit_char (f_digs f) in
  let nd := length ds in
  if (f_dp f <=? 0)%Z then
    "0"%char :: match ds with
                | [] => []
                | _ => "."%char :: zeros (Z.to_nat (- f_dp f)) ++ ds
                end
  else
    let dp := Z.to_nat (f_dp f) in
    if nd <=? dp then ds ++ zeros (dp - nd)
    else take dp ds ++ "."%char :: drop dp ds.

(** [strconv.FormatFloat(f, 'g', -1, 64)], the [%v] of [fmt]: scientific
    notation for a decimal exponent below -4 or at least 6. *)
Definition fmt_g (f : float64) : bytes :=
  let e := (f_dp f - 1)%Z in
  sign_of (f_neg f) ++
  (if bool_decide (f_digs f ≠ [] ∧ (e < -4 ∨ 6 ≤ e)%Z) then fmt_e false f else fmt_f f).

(** [encoding/json]: scientific notation below 1e-6 and from 1e21. *)
Definition fmt_json (f : float64) : bytes :=
  let e := (f_dp f - 1)%Z in
  sign_of (f_neg f) ++
  (if bool_decide (f_digs f ≠ [] ∧ (e < -6 ∨ 21 ≤ e)%Z) then fmt_e true f else fmt_f f).

(** ** Parsing *)

Fixpoint span_digits (s : bytes) : list nat * bytes :=
  match s with
  | [] => ([], [])
  | c :: s' =>
      match char_digit c with
      | Some d => let '(ds, r) := span_digits s' in (d :: ds, r)
      | None => ([], s)
      end
  end.

Fixpoint strip_leading (ds : list nat) (p : Z) : list nat * Z :=
  match ds with
  | 0 :: ds' => strip_leading ds' (p - 1)
  | _ => (ds, p)
  end.

Fixpoint strip_trailing (ds : list nat) : list nat :=
  match ds with
  | [] => []
  | d :: ds' =>
      match strip_trailing ds' with
      | [] => match d with 0 => [] | _ => [d] end
      | r => d :: r
      end
  end.

Definition normalize (neg : bool) (ds : list nat) (p : Z) : float64 :=
  let '(ds1, p1) := strip_leading ds p in
  match strip_trailing ds1 with
  | [] => MkF neg [] 0
  | ds2 => MkF neg ds2 p1
  end.

Definition split_sign (s : bytes) : bool * bytes :=
  match s with
  | c :: s' =>
      if decide (c = "-"%char) then (true, s')
      else if decide (c = "+"%char) then (false, s')
      else (false, s)
  | [] => (false, [])
  end.

Definition parse_exponent (s : bytes) : option Z :=
  match s with
  | [] => Some 0%Z
  | c :: s' =>
      if decide (c = "e"%char ∨ c = "E"%char) then
        let '(neg, s1) := split_sign s' in
        match span_digits s1 with
        | (d :: ds, []) => Some (if neg then (- mant (d :: ds))%Z else mant (d :: ds))
        | _ => None
        end
      else None
  end.

(** [strconv.ParseFloat(s, 64)] on the decimal grammar. *)
Definition parse_unsigned (neg : bool) (s1 : bytes) : option float64 :=
  let '(ip, s2) := span_digits s1 in
  let '(fp, s3) :=
    match s2 with
    | c :: s2' => if decide (c = "."%char) then span_digits s2' else ([], s2)
    | [] => ([], [])
    end in
  if decide (ip ++ fp = []) then None
  else match parse_exponent s3 with
       | Some e => Some (normalize neg (ip ++ fp) (Z.of_nat (length ip) + e))
       | None => None
       end.

Definition parse_float (s : bytes) : option float64 :=
  let '(neg, s1) := split_sign s in parse_unsigned neg s1.

(** ** Comparison is a total preorder *)

Lemma pow10_pos k : (0 ≤ k → 0 < 10 ^ k)%Z.
Proof. intros. apply Z.pow_pos_nonneg; lia. Qed.

Lemma scaled_shift f e e' :
  (e' ≤ e)%Z → (e ≤ f_exp f)%Z → scaled f e' = (scaled f e * 10 ^ (e - e'))%Z.
Proof.
  intros H1 H2. unfold scaled. rewrite <- Z.mul_assoc, <- Z.pow_add_r by lia.
  f_equal. f_equal. lia.
Qed.

Lemma float_cmp_at f g e :
  (e ≤ f_exp f)%Z → (e ≤ f_exp g)%Z → float_cmp f g = Z.compare (scaled f e) (scaled g e).
Proof.
  intros Hf Hg. unfold float_cmp.
  set (m := Z.min (f_exp f) (f_exp g)).
  rewrite (scaled_shift f m e), (scaled_shift g m e) by lia.
  apply Zmult_compare_compat_r. pose proof (pow10_pos (m - e)). lia.
Qed.

Lemma float_cmp_refl f : float_cmp f f = Eq.
Proof. apply Z.compare_refl. Qed.

Lemma float_cmp_antisym f g : float_cmp f g = CompOpp (float_cmp g f).
Proof. unfold float_cmp. rewrite (Z.min_comm (f_exp g)). apply Z.compare_antisym. Qed.

Lemma float_cmp_le_trans f g h :
  float_cmp f g ≠ Gt → float_cmp g h ≠ Gt → float_cmp f h ≠ Gt.
Proof.
  set (e := Z.min (f_exp f) (Z.min (f_exp g) (f_exp h))).
  rewrite (float_cmp_at f g e), (float_cmp_at g h e), (float_cmp_at f h e) by lia.
  rewrite !Z.compare_le_iff. lia.
Qed.

Lemma float_cmp_lt_trans f g h :
  float_cmp f g = Lt → float_cmp g h ≠ Gt → float_cmp f h = Lt.
Proof.
  set (e := Z.min (f_exp f) (Z.min (f_exp g) (f_exp h))).
  rewrite (float_cmp_at f g e), (float_cmp_at g h e), (float_cmp_at f h e) by lia.
  rewrite !Z.compare_le_iff, !Z.compare_lt_iff. lia.
Qed.

(** ** Formatting and parsing round trip *)

Lemma char_digit_char d : d < 10 → char_digit (digit_char d) = Some d.
Proof.
  intros H. unfold char_digit, digit_char.
  rewrite nat_ascii_embedding by lia. rewrite decide_True by lia. f_equal. lia.
Qed.

(** [s] does not begin with a digit. *)
Definition no_digit (s : bytes) : Prop :=
  match s with [] => True | c :: _ => char_digit c = None end.

Lemma span_digits_app ds s :
  Forall (λ d, d < 10) ds → no_digit s → span_digits (map digit_char ds ++ s) = (ds, s).
Proof.
  intros Hd Hs. induction Hd as [|d ds Hd _ IH].
  - destruct s as [|c s]; [done|]. cbn [map app span_digits]. by rewrite Hs.
  - cbn [map app span_digits]. by rewrite char_digit_char, IH.
Qed.

Lemma zeros_map n : zeros n = map digit_char (replicate n 0).
Proof. unfold zeros. rewrite fmap_replicate. reflexivity. Qed.

Lemma Forall_lt10_replicate n : Forall (λ d, d < 10) (replicate n 0).
Proof. apply Forall_replicate. lia. Qed.

Lemma strip_leading_zeros k ds p :
  strip_leading (replicate k 0 ++ ds) p = strip_leading ds (p - Z.of_nat k).
Proof.
  revert p. induction k as [|k IH]; intros p; simpl; [f_equal; lia|].
  rewrite IH. f_equal. lia.
Qed.

Lemma strip_leading_id ds p : ds !! 0 ≠ Some 0 → strip_leading ds p = (ds, p).
Proof. destruct ds as [|[|d] ds]; simpl; done. Qed.

Lemma strip_trailing_zeros j : strip_trailing (replicate j 0) = [].
Proof. induction j as [|j IH]; simpl; [done|]. by rewrite IH. Qed.

Lemma strip_trailing_app ds j :
  last ds ≠ Some 0 → strip_trailing (ds ++ replicate j 0) = ds.
Proof.
  induction ds as [|d ds IH]; intros Hl; simpl; [apply strip_trailing_zeros|].
  destruct ds as [|d' ds].
  - simpl. rewrite strip_trailing_zeros. destruct d; [by simpl in Hl|done].
  - rewrite IH by done. done.
Qed.

Lemma normalize_canonical f k j :
  canonical f →
  normalize (f_neg f) (replicate k 0 ++ f_digs f ++ replicate j 0) (f_dp f + Z.of_nat k) = f.
Proof.
  intros (_ & Hh & Hl & Hz & _). destruct f as [neg ds dp]; simpl in *. unfold normalize.
  rewrite strip_leading_zeros.
  destruct ds as [|d ds].
  - simpl. replace (replicate j 0) with (replicate j 0 ++ []) by apply app_nil_r.
    rewrite strip_leading_zeros. simpl. by rewrite (Hz eq_refl).
  - rewrite strip_leading_id by (destruct d; done).
    rewrite strip_trailing_app by done. f_equal. lia.
Qed.

Lemma mant_2 d : d < 100 → mant [d / 10; d mod 10] = Z.of_nat d.
Proof.
  intros H. unfold mant. cbn [foldl].
  pose proof (Nat.div_mod_eq d 10). lia.
Qed.

Lemma mant_3 d : d < 1000 → mant [d / 100; d / 10 mod 10; d mod 10] = Z.of_nat d.
Proof.
  intros H. unfold mant. cbn [foldl].
  pose proof (Nat.div_mod_eq d 10). pose proof (Nat.div_mod_eq (d / 10) 10).
  replace (d / 100) with (d / 10 / 10) by (rewrite Nat.Div0.div_div; done). lia.
Qed.

Lemma split_sign_minus s : split_sign ("-"%char :: s) = (true, s).
Proof. reflexivity. Qed.

Lemma split_sign_plus s : split_sign ("+"%char :: s) = (false, s).
Proof. reflexivity. Qed.

Lemma split_sign_digit d s : d < 10 → split_sign (digit_char d :: s) = (false, digit_char d :: s).
Proof. do 10 (destruct d as [|d]; [reflexivity|]). lia. Qed.

Lemma parse_fmt_exponent short e :
  (Z.abs e < 1000)%Z → parse_exponent ("e"%char :: fmt_exponent short e) = Some e.
Proof.
  intros He. unfold parse_exponent, fmt_exponent. rewrite decide_True by auto.
  set (a := Z.to_nat (Z.abs e)).
  assert (Ha : a < 1000) by lia.
  assert (Hsgn : ∀ (l : list nat) t,
     Forall (λ d, d < 10) l → l ≠ [] → mant l = Z.of_nat a → t = map digit_char l →
     (let '(neg, s1) := split_sign ((if (e <? 0)%Z then "-"%char else "+"%char) :: t) in
      match span_digits s1 with
      | (d :: ds, []) => Some (if neg then (- mant (d :: ds))%Z else mant (d :: ds))
      | _ => None
      end) = Some e).
  { intros l t Hl Hne Hm ->.
    destruct (e <? 0)%Z eqn:Es; rewrite ?split_sign_minus, ?split_sign_plus;
      rewrite <- (app_nil_r (map digit_char l)), span_digits_app by done;
      destruct l as [|d l]; try done; f_equal; rewrite Hm; lia. }
  assert (Hd10 : a / 10 mod 10 < 10) by (apply Nat.mod_upper_bound; lia).
  assert (Hm10 : a mod 10 < 10) by (apply Nat.mod_upper_bound; lia).
  assert (Hd100 : a / 100 < 10) by (apply Nat.Div0.div_lt_upper_bound; lia).
  repeat case_decide.
  - destruct short.
    + apply (Hsgn [a]); [forall_lia|done|unfold mant; cbn [foldl]; lia|done].
    + apply (Hsgn [0; a]); [forall_lia|done|unfold mant; cbn [foldl]; lia|done].
  - apply (Hsgn [a / 10; a mod 10]); [|done|by apply mant_2|done].
    assert (a / 10 < 10) by (apply Nat.Div0.div_lt_upper_bound; lia). forall_lia.
  - apply (Hsgn [a / 100; a / 10 mod 10; a mod 10]); [forall_lia|done|by apply mant_3|done].
Qed.

Definition dotted (dot : bool) (fp : list nat) : bytes :=
  if dot then "."%char :: map digit_char fp else [].

(** [s] can follow a number: it starts with neither a digit nor a point. *)
Definition ends_number (s : bytes) : Prop :=
  no_digit s ∧ match s with c :: _ => c ≠ "."%char | [] => True end.

Lemma parse_unsigned_spec neg ip fp dot s ex :
  Forall (λ d, d < 10) ip → Forall (λ d, d < 10) fp → ip ≠ [] →
  (dot = false → fp = []) → ends_number s → parse_exponent s = Some ex →
  parse_unsigned neg (map digit_char ip ++ dotted dot fp ++ s) =
    Some (normalize neg (ip ++ fp) (Z.of_nat (length ip) + ex)).
Proof.
  intros Hip Hfp Hne Hdot [Hs Hpt] Hex. unfold parse_unsigned, dotted.
  rewrite span_digits_app; [|done|destruct dot; [done|by simpl]].
  destruct dot; cbn [app].
  - rewrite decide_True by done. rewrite span_digits_app by done.
    rewrite decide_False by (by destruct ip). by rewrite Hex.
  - rewrite Hdot by done.
    assert ((match s with
             | [] => ([], [])
             | c :: s2' => if decide (c = "."%char) then span_digits s2' else ([], s)
             end) = ([], s)) as ->.
    { destruct s; [done|]. by rewrite decide_False. }
    rewrite decide_False by (by destruct ip). by rewrite Hex.
Qed.

Lemma parse_fmt_f neg f :
  canonical f → parse_unsigned neg (fmt_f f) = Some (MkF neg (f_digs f) (f_dp f)).
Proof.
  intros Hc. pose proof Hc as (Hd & Hh & Hl & Hz & Hr).
  destruct f as [neg' ds dp]; simpl in *.
  assert (Hc' : canonical (MkF neg ds dp)) by done.
  assert (Hfin : ends_number []) by done.
  assert (Hex : parse_exponent [] = Some 0%Z) by done.
  unfold fmt_f; simpl. destruct (Z.leb_spec dp 0) as [Hdp|Hdp].
  - destruct ds as [|d ds].
    { simpl in Hz. rewrite Hz by done. done. }
    set (k := Z.to_nat (- dp)).
    rewrite zeros_map, <- map_app.
    replace ("0"%char :: _) with
      (map digit_char [0] ++ dotted true (replicate k 0 ++ d :: ds) ++ [])
      by (unfold dotted; rewrite app_nil_r; reflexivity).
    rewrite (parse_unsigned_spec neg _ _ true [] 0);
      [|forall_lia| |done|done|done|done].
    2:{ apply Forall_app; split; [apply Forall_lt10_replicate|done]. }
    f_equal. pose proof (normalize_canonical _ (S k) 0 Hc') as HN. simpl in HN.
    rewrite app_nil_r in HN. etransitivity; [|exact HN]. simpl. f_equal. lia.
  - rewrite length_map. destruct (Nat.leb_spec (length ds) (Z.to_nat dp)) as [Hle|Hgt].
    + assert (Hne : ds ≠ []) by (intros ->; specialize (Hz eq_refl); lia).
      rewrite zeros_map, <- map_app.
      replace (map digit_char (ds ++ _)) with
        (map digit_char (ds ++ replicate (Z.to_nat dp - length ds) 0) ++ dotted false [] ++ [])
        by (unfold dotted; rewrite !app_nil_r; reflexivity).
      rewrite (parse_unsigned_spec neg _ [] false [] 0); [|..|done|done|done].
      * f_equal. pose proof (normalize_canonical _ 0 (Z.to_nat dp - length ds) Hc') as HN.
        simpl in HN. rewrite app_nil_r. etransitivity; [|exact HN]. f_equal.
        rewrite length_app, length_replicate. lia.
      * apply Forall_app; split; [done|apply Forall_lt10_replicate].
      * done.
      * by destruct ds.
    + rewrite firstn_map, skipn_map.
      replace (map digit_char (take _ ds) ++ _) with
        (map digit_char (take (Z.to_nat dp) ds) ++ dotted true (drop (Z.to_nat dp) ds) ++ [])
        by (unfold dotted; rewrite !app_nil_r; reflexivity).
      rewrite (parse_unsigned_spec neg _ _ true [] 0); [|..|done|done|done].
      * f_equal. pose proof (normalize_canonical _ 0 0 Hc') as HN. simpl in HN.
        rewrite take_drop. etransitivity; [|exact HN]. rewrite app_nil_r. f_equal.
        rewrite length_take. lia.
      * by apply Forall_take.
      * by apply Forall_drop.
      * intros He. apply (f_equal length) in He. rewrite length_take in He. simpl in He. lia.
Qed.

Lemma parse_fmt_e neg short f :
  canonical f → f_digs f ≠ [] →
  parse_unsigned neg (fmt_e short f) = Some (MkF neg (f_digs f) (f_dp f)).
Proof.
  intros Hc Hne. pose proof Hc as (Hd & Hh & Hl & Hz & Hr).
  destruct f as [neg' ds dp]; simpl in *.
  assert (Hc' : canonical (MkF neg ds dp)) by done.
  destruct ds as [|d ds]; [done|]. unfold fmt_e; simpl f_digs; simpl f_dp.
  apply Forall_cons in Hd as [Hd Hds].
  set (ex := "e"%char :: fmt_exponent short (dp - 1)).
  replace (digit_char d :: _) with
    (map digit_char [d] ++ dotted (bool_decide (ds ≠ [])) ds ++ ex) by (by destruct ds).
  rewrite (parse_unsigned_spec neg [d] ds (bool_decide (ds ≠ [])) ex (dp - 1)).
  - f_equal. pose proof (normalize_canonical _ 0 0 Hc') as HN. simpl in HN.
    etransitivity; [|exact HN]. rewrite app_nil_r. simpl. f_equal. lia.
  - by forall_lia.
  - done.
  - done.
  - intros Hb. apply bool_decide_eq_false in Hb. destruct ds; [done|]. by destruct Hb.
  - done.
  - apply parse_fmt_exponent. lia.
Qed.

Lemma split_sign_fmt neg s d t :
  d < 10 → s = digit_char d :: t → split_sign (sign_of neg ++ s) = (neg, s).
Proof.
  intros Hd ->. destruct neg; cbn [sign_of app]; [apply split_sign_minus|by apply split_sign_digit].
Qed.

Lemma fmt_f_head f : canonical f → ∃ d t, d < 10 ∧ fmt_f f = digit_char d :: t.
Proof.
  intros (Hd & _ & _ & Hz & _). destruct f as [neg ds dp]; simpl in *. unfold fmt_f; simpl.
  destruct (Z.leb_spec dp 0).
  { eexists 0, _. split; [lia|reflexivity]. }
  destruct ds as [|d ds]; [specialize (Hz eq_refl); lia|].
  apply Forall_cons in Hd as [Hd _].
  destruct (Nat.leb_spec (length (map digit_char (d :: ds))) (Z.to_nat dp)).
  { eexists d, _. split; [done|reflexivity]. }
  destruct (Z.to_nat dp) as [|n] eqn:E; [lia|].
  eexists d, _. split; [done|reflexivity].
Qed.

Lemma fmt_e_head short f :
  canonical f → f_digs f ≠ [] → ∃ d t, d < 10 ∧ fmt_e short f = digit_char d :: t.
Proof.
  intros (Hd & _) Hne. unfold fmt_e. destruct (f_digs f) as [|d ds]; [done|].
  apply Forall_cons in Hd as [Hd _]. by eexists d, _.
Qed.

Lemma parse_fmt_body f (sci : bool) short :
  canonical f → (sci = true → f_digs f ≠ []) →
  parse_float (sign_of (f_neg f) ++ if sci then fmt_e short f else fmt_f f) = Some f.
Proof.
  intros Hc Hs. unfold parse_float.
  assert (∃ d t, d < 10 ∧ (if sci then fmt_e short f else fmt_f f) = digit_char d :: t)
    as (d & t & Hd & Ht).
  { destruct sci; [apply fmt_e_head|apply fmt_f_head]; auto. }
  rewrite (split_sign_fmt _ _ d t Hd Ht).
  destruct sci; [rewrite parse_fmt_e by auto|rewrite parse_fmt_f by auto]; by destruct f.
Qed.

Lemma parse_fmt_g f : canonical f → parse_float (fmt_g f) = Some f.
Proof.
  intros Hc. unfold fmt_g. set (P := f_digs f ≠ [] ∧ _).
  apply (parse_fmt_body f (bool_decide P) false); [done|].
  rewrite bool_decide_eq_true. by intros [? _].
Qed.

Lemma parse_fmt_json f : canonical f → parse_float (fmt_json f) = Some f.
Proof.
  intros Hc. unfold fmt_json. set (P := f_digs f ≠ [] ∧ _).
  apply (parse_fmt_body f (bool_decide P) true); [done|].
  rewrite bool_decide_eq_true. by intros [? _].
Qed.

(** The [%v] text of a float determines it. *)
Lemma fmt_g_inj f g : canonical f → canonical g → fmt_g f = fmt_g g → f = g.
Proof.
  intros Hf Hg H. apply parse_fmt_g in Hf, Hg. rewrite H in Hf. congruence.
Qed.

(** ** Integers as floats *)

Fixpoint N_digits_loop (fuel : nat) (n : N) (acc : list nat) : list nat :=
  match fuel with
  | 0 => acc
  | S fuel' =>
      if (n =? 0)%N then acc
      else N_digits_loop fuel' (n / 10)%N (N.to_nat (n mod 10)%N :: acc)
  end.

(** Decimal digits of [n], most significant first; none for zero. *)
Definition N_digits (n : N) : list nat := N_digits_loop (S (N.to_nat (N.log2 n))) n [].

Definition float_of_Z (z : Z) : float64 :=
  let ds := N_digits (Z.abs_N z) in
  normalize (z <? 0)%Z ds (Z.of_nat (length ds)).

(** Decimal text of a natural number, ["0"] for zero ([strconv.FormatUint]). *)
Definition fmt_N (n : N) : bytes :=
  match N_digits n with [] => ["0"%char] | ds => map digit_char ds end.

Definition fmt_Z (z : Z) : bytes :=
  (if (z <? 0)%Z then ["-"%char] else []) ++ fmt_N (Z.abs_N z).

Definition mantN (ds : list nat) : N := foldl (λ a d, (10 * a + N.of_nat d)%N) 0%N ds.

(** [strconv.ParseUint(s, 10, 64)] without the range check. *)
Definition parse_N (s : bytes) : option N :=
  match span_digits s with
  | (d :: ds, []) => Some (mantN (d :: ds))
  | _ => None
  end.

(** [strconv.ParseInt(s, 10, 64)] without the range check. *)
Definition parse_Z (s : bytes) : option Z :=
  let '(neg, s1) := split_sign s in
  match parse_N s1 with
  | Some n => Some (if neg then (- Z.of_N n)%Z else Z.of_N n)
  | None => None
  end.

Lemma N_digits_loop_spec fuel n acc :
  (n < 2 ^ N.of_nat fuel)%N →
  ∃ ds, N_digits_loop fuel n acc = ds ++ acc ∧ mantN ds = n ∧
        Forall (λ d, d < 10) ds ∧ ds !! 0%nat ≠ Some 0%nat.
Proof.
  revert n acc. induction fuel as [|fuel IH]; intros n acc Hn; cbn [N_digits_loop].
  { exists []. rewrite N.pow_0_r in Hn. by split_and!; [|unfold mantN; simpl; lia| |]. }
  destruct (N.eqb_spec n 0) as [->|Hnz].
  { exists []. by split_and!. }
  pose proof (N.mod_lt n 10 ltac:(done)) as Hm.
  destruct (IH (n / 10)%N (N.to_nat (n mod 10) :: acc)) as (ds & Heq & Hmant & Hall & Hhd).
  { apply N.Div0.div_lt_upper_bound. rewrite Nat2N.inj_succ, N.pow_succ_r' in Hn. lia. }
  exists (ds ++ [N.to_nat (n mod 10)]). split_and!.
  - by rewrite Heq, <- app_assoc.
  - unfold mantN in *. rewrite foldl_app, Hmant. cbn [foldl]. rewrite N2Nat.id.
    symmetry. apply N.Div0.div_mod.
  - apply Forall_app; split; [done|]. apply List.Forall_cons; [lia|done].
  - destruct ds as [|d ds]; [|done]. simpl. intros [= H0].
    unfold mantN in Hmant; simpl in Hmant.
    pose proof (N.Div0.div_mod n 10). lia.
Qed.

Lemma N_digits_spec n :
  mantN (N_digits n) = n ∧ Forall (λ d, d < 10) (N_digits n) ∧ N_digits n !! 0%nat ≠ Some 0%nat.
Proof.
  unfold N_digits.
  destruct (N_digits_loop_spec (S (N.to_nat (N.log2 n))) n []) as (ds & -> & H).
  - rewrite Nat2N.inj_succ, N2Nat.id. destruct (N.eq_dec n 0%N) as [->|Hn]; [done|].
    apply N.log2_spec. lia.
  - by rewrite app_nil_r.
Qed.

Lemma fmt_N_digits n :
  ∃ d ds, fmt_N n = map digit_char (d :: ds) ∧ Forall (λ x, x < 10) (d :: ds) ∧
          mantN (d :: ds) = n ∧ (d = 0 → ds = []).
Proof.
  destruct (N_digits_spec n) as (Hm & Hall & Hhd). unfold fmt_N.
  destruct (N_digits n) as [|d ds].
  - exists 0, []. split_and!; [reflexivity|forall_lia|by rewrite <- Hm|done].
  - exists d, ds. split_and!; [done|done|done|]. intros ->. by destruct Hhd.
Qed.

Lemma parse_fmt_N n : parse_N (fmt_N n) = Some n.
Proof.
  destruct (fmt_N_digits n) as (d & ds & -> & Hall & Hm & _). unfold parse_N.
  rewrite <- (app_nil_r (map _ _)), span_digits_app by done. by rewrite Hm.
Qed.

Lemma fmt_N_inj n m : fmt_N n = fmt_N m → n = m.
Proof. intros H. pose proof (parse_fmt_N n) as Hn. rewrite H, parse_fmt_N in Hn. congruence. Qed.

Lemma parse_fmt_Z z : parse_Z (fmt_Z z) = Some z.
Proof.
  unfold parse_Z, fmt_Z.
  destruct (fmt_N_digits (Z.abs_N z)) as (d & ds & Hf & Hall & Hm & _).
  destruct (Z.ltb_spec z 0) as [Hz|Hz]; cbn [app].
  - rewrite split_sign_minus, parse_fmt_N. f_equal. lia.
  - rewrite Hf. cbn [map].
    rewrite split_sign_digit by (by apply Forall_cons in Hall as [? _]).
    change (digit_char d :: map digit_char ds) with (map digit_char (d :: ds)).
    rewrite <- Hf, parse_fmt_N. f_equal. lia.
Qed.

(** ** Equal floats have equal decimals *)

Lemma mant_snoc ds d : mant (ds ++ [d]) = (10 * mant ds + Z.of_nat d)%Z.
Proof. unfold mant. by rewrite foldl_app. Qed.

Lemma mant_nonneg ds : (0 ≤ mant ds)%Z.
Proof. induction ds as [|d ds IH] using rev_ind; [done|]. rewrite mant_snoc. lia. Qed.

Lemma mant_pos ds : ds ≠ [] → ds !! 0 ≠ Some 0 → (0 < mant ds)%Z.
Proof.
  induction ds as [|d ds IH] using rev_ind; [done|]. intros _ Hh. rewrite mant_snoc.
  destruct ds as [|d0 ds].
  - simpl in Hh. unfold mant. cbn [foldl]. destruct d; [done|lia].
  - assert (0 < mant (d0 :: ds))%Z by (by apply IH). lia.
Qed.

Lemma mant_inj ds ds' :
  Forall (λ d, d < 10) ds → Forall (λ d, d < 10) ds' → ds !! 0 ≠ Some 0 → ds' !! 0 ≠ Some 0 →
  mant ds = mant ds' → ds = ds'.
Proof.
  revert ds'. induction ds as [|d ds IH] using rev_ind; intros ds' H1 H2 Hh1 Hh2 Heq.
  - destruct (decide (ds' = [])) as [->|Hne]; [done|].
    pose proof (mant_pos ds' Hne Hh2). unfold mant in Heq at 1. cbn [foldl] in Heq. lia.
  - destruct ds' as [|d' ds' _] using rev_ind.
    { assert (0 < mant (ds ++ [d]))%Z by (apply mant_pos; [by destruct ds|done]).
      unfold mant in Heq at 2. cbn [foldl] in Heq. lia. }
    rewrite !mant_snoc in Heq. apply Forall_app in H1 as [H1 Hd]; apply Forall_cons in Hd as [Hd _].
    apply Forall_app in H2 as [H2 Hd']; apply Forall_cons in Hd' as [Hd' _].
    cbv beta in Hd, Hd'. assert (d = d') as -> by lia. f_equal. apply IH; [done|done| | |lia].
    + by destruct ds.
    + by destruct ds'.
Qed.

(** A canonical mantissa does not end in zero. *)
Lemma mant_mod10 f : canonical f → f_digs f ≠ [] → (mant (f_digs f) mod 10 ≠ 0)%Z.
Proof.
  intros (Hd & _ & Hl & _) Hne. destruct (f_digs f) as [|d ds _] using rev_ind; [done|].
  rewrite mant_snoc. rewrite last_snoc in Hl.
  apply Forall_app in Hd as [_ Hd]; apply Forall_cons in Hd as [Hd _]. cbv beta in Hd.
  rewrite Z.add_comm, Z.mul_comm, Z_mod_plus_full, Z.mod_small by lia.
  destruct d; [done|lia].
Qed.

Lemma mant_shift_neq f g k :
  canonical f → f_digs f ≠ [] → (0 < k)%Z → mant (f_digs f) ≠ (mant (f_digs g) * 10 ^ k)%Z.
Proof.
  intros Hc Hne Hk Heq. apply (mant_mod10 f Hc Hne). rewrite Heq.
  replace k with (Z.succ (k - 1)) by lia. rewrite Z.pow_succ_r by lia.
  rewrite (Z.mul_comm 10), Z.mul_assoc. apply Z_mod_mult.
Qed.

Lemma float_cmp_Eq f g :
  canonical f → canonical g → f_digs f ≠ [] → f_digs g ≠ [] → float_cmp f g = Eq → f = g.
Proof.
  intros Hf Hg Hnf Hng. unfold float_cmp. rewrite Z.compare_eq_iff.
  set (e := Z.min (f_exp f) (f_exp g)).
  pose proof (mant_pos (f_digs f) Hnf ltac:(apply Hf)) as Hpf.
  pose proof (mant_pos (f_digs g) Hng ltac:(apply Hg)) as Hpg.
  pose proof (pow10_pos (f_exp f - e) ltac:(lia)) as Hqf.
  pose proof (pow10_pos (f_exp g - e) ltac:(lia)) as Hqg.
  unfold scaled, smant. intros Heq.
  assert (Hs : f_neg f = f_neg g) by (destruct (f_neg f), (f_neg g); try done; nia).
  assert (Hm : (mant (f_digs f) * 10 ^ (f_exp f - e) = mant (f_digs g) * 10 ^ (f_exp g - e))%Z)
    by (rewrite Hs in Heq; destruct (f_neg g); lia).
  clear Heq. destruct (Z.lt_trichotomy (f_exp f) (f_exp g)) as [Hlt|[He|Hgt]].
  - exfalso. replace (f_exp f - e)%Z with 0%Z in Hm by lia. rewrite Z.pow_0_r, Z.mul_1_r in Hm.
    by apply (mant_shift_neq f g (f_exp g - e) Hf Hnf) in Hm; [|lia].
  - replace (f_exp f - e)%Z with 0%Z in Hm by lia. replace (f_exp g - e)%Z with 0%Z in Hm by lia.
    rewrite Z.pow_0_r, !Z.mul_1_r in Hm.
    assert (f_digs f = f_digs g) as Hd.
    { destruct Hf as (?&?&_), Hg as (?&?&_). by apply mant_inj. }
    destruct f as [nf df pf], g as [ng dg pg]; simpl in *. unfold f_exp in He. simpl in He. subst.
    f_equal. lia.
  - exfalso. replace (f_exp g - e)%Z with 0%Z in Hm by lia. rewrite Z.pow_0_r, Z.mul_1_r in Hm.
    symmetry in Hm. by apply (mant_shift_neq g f (f_exp f - e) Hg Hng) in Hm; [|lia].
Qed.

Lemma float_cmp_zero f g :
  canonical f → canonical g → f_digs f = [] → f_digs g ≠ [] → float_cmp f g ≠ Eq.
Proof.
  intros Hf Hg Hzf Hng. unfold float_cmp. rewrite Z.compare_eq_iff.
  set (e := Z.min (f_exp f) (f_exp g)).
  pose proof (mant_pos (f_digs g) Hng ltac:(apply Hg)) as Hpg.
  pose proof (pow10_pos (f_exp g - e) ltac:(lia)) as Hqg.
  unfold scaled, smant. rewrite Hzf. unfold mant at 1 2. cbn [foldl].
  destruct (f_neg f), (f_neg g); nia.
Qed.
