(* ===== verification/Json.v ===== *)
(** * JSON text, as [encoding/json] writes and reads it

    The NDJSON lines of a segment are JSON objects.  This file models the part
    of [encoding/json] the engine relies on at the level of bytes: the printer
    (compact form, HTML-safe escapes) and the parser (whitespace, escapes, the
    number grammar), and proves that parsing inverts printing and that the
    printed form holds no line break.  Strings are Go strings, any bytes: what is
    not UTF-8 is written as the escape of U+FFFD and read as U+FFFD, so that
    parsing inverts printing on the documents whose strings are UTF-8
    ([json_utf8]); the line separators U+2028 and U+2029 are escaped. *)
From Stdlib Require Import Ascii Lia ZArith.
From stdpp Require Import prelude gmap strings sorting.
From S2P Require Import Prelude GoNum.

(** A parsed document; a number keeps its literal. *)
Inductive json : Type :=
| JNull
| JBool (b : bool)
| JNum (lit : bytes)
| JStr (s : bytes)
| JArr (l : list json)
| JObj (l : list (bytes * json)).

Section json_ind.
Variable P : json → Prop.
Hypothesis HNull : P JNull.
Hypothesis HBool : ∀ b, P (JBool b).
Hypothesis HNum : ∀ l, P (JNum l).
Hypothesis HStr : ∀ s, P (JStr s).
Hypothesis HArr : ∀ l, Forall P l → P (JArr l).
Hypothesis HObj : ∀ l, Forall (λ kv, P kv.2) l → P (JObj l).

Fixpoint json_ind' (j : json) : P j :=
  match j with
  | JNull => HNull
  | JBool b => HBool b
  | JNum l => HNum l
  | JStr s => HStr s
  | JArr l =>
      HArr l ((fix go l := match l return Forall P l with
                           | [] => List.Forall_nil _
                           | x :: l' => @List.Forall_cons _ P x l' (json_ind' x) (go l')
                           end) l)
  | JObj l =>
      HObj l ((fix go l := match l return Forall (λ kv, P kv.2) l with
                           | [] => List.Forall_nil _
                           | x :: l' => @List.Forall_cons _ (λ kv, P kv.2) x l' (json_ind' x.2) (go l')
                           end) l)
  end.
End json_ind.

(** ** Characters *)

Definition dquote : ascii := "034"%char.
Definition backslash : ascii := "092"%char.

Definition is_ws (c : ascii) : bool :=
  bool_decide (c = " "%char ∨ c = "009"%char ∨ c = newline ∨ c = carriage_return).

Definition is_control (c : ascii) : bool := nat_of_ascii c <? 32.

Definition hex_digit (n : nat) : ascii :=
  if n <? 10 then digit_char n else ascii_of_nat (87 + n).

Definition hex_value (c : ascii) : option N :=
  let n := N_of_ascii c in
  if ((48 <=? n) && (n <? 58))%N then Some (n - 48)%N
  else if ((97 <=? n) && (n <? 103))%N then Some (n - 87)%N
  else if ((65 <=? n) && (n <? 71))%N then Some (n - 55)%N
  else None.

(** ** Printing *)

(** One byte below 0x80, or part of a longer UTF-8 sequence, inside a string. *)
Definition esc_char (c : ascii) : bytes :=
  if decide (c = dquote ∨ c = backslash) then [backslash; c]
  else if decide (c = "008"%char) then [backslash; "b"%char]
  else if decide (c = "012"%char) then [backslash; "f"%char]
  else if decide (c = newline) then [backslash; "n"%char]
  else if decide (c = carriage_return) then [backslash; "r"%char]
  else if decide (c = "009"%char) then [backslash; "t"%char]
  else if is_control c || bool_decide (c = "<"%char ∨ c = ">"%char ∨ c = "&"%char) then
    let n := nat_of_ascii c in
    [backslash; "u"%char; "0"%char; "0"%char; hex_digit (n / 16); hex_digit (n mod 16)]
  else [c].

(** ** UTF-8 *)

Definition in_range (lo hi : N) (c : ascii) : bool := (lo <=? N_of_ascii c)%N && (N_of_ascii c <=? hi)%N.

Definition cont (c : ascii) : bool := in_range 128 191 c.

(** The sequences of two, three and four bytes that [utf8.DecodeRune] accepts. *)
Definition rune2 (c0 c1 : ascii) : bool := in_range 194 223 c0 && cont c1.
Definition rune3 (c0 c1 c2 : ascii) : bool :=
  ((in_range 224 224 c0 && in_range 160 191 c1) ||
   ((in_range 225 236 c0 || in_range 238 239 c0) && cont c1) ||
   (in_range 237 237 c0 && in_range 128 159 c1)) && cont c2.
Definition rune4 (c0 c1 c2 c3 : ascii) : bool :=
  ((in_range 240 240 c0 && in_range 144 191 c1) ||
   (in_range 241 243 c0 && cont c1) ||
   (in_range 244 244 c0 && in_range 128 143 c1)) && cont c2 && cont c3.

(** The first character of a string with its bytes, and the rest; [None] when the
    string does not begin with a character. *)
Definition split_rune (s : bytes) : option (bytes * bytes) :=
  match s with
  | [] => None
  | c0 :: b1 =>
      if in_range 0 127 c0 then Some ([c0], b1)
      else match b1 with
           | [] => None
           | c1 :: b2 =>
               if rune2 c0 c1 then Some ([c0; c1], b2)
               else match b2 with
                    | [] => None
                    | c2 :: b3 =>
                        if rune3 c0 c1 c2 then Some ([c0; c1; c2], b3)
                        else match b3 with
                             | [] => None
                             | c3 :: b4 => if rune4 c0 c1 c2 c3 then Some ([c0; c1; c2; c3], b4) else None
                             end
                    end
           end
  end.

(** U+2028 and U+2029 in UTF-8: E2 80 A8 and E2 80 A9. *)
Definition line_sep (c c1 c2 : ascii) : option ascii :=
  if decide (c = "226"%char ∧ c1 = "128"%char) then
    if decide (c2 = "168"%char) then Some "8"%char
    else if decide (c2 = "169"%char) then Some "9"%char else None
  else None.

(** What is written for a character, and for a byte that begins none. *)
Definition esc_rune (r : bytes) : bytes :=
  match r with
  | [c] => esc_char c
  | [c; c1; c2] =>
      match line_sep c c1 c2 with
      | Some d => [backslash; "u"%char; "2"%char; "0"%char; "2"%char; d]
      | None => r
      end
  | _ => r
  end.

Definition esc_bad : bytes := [backslash; "u"%char; "f"%char; "f"%char; "f"%char; "d"%char].

(** U+FFFD, which a byte that begins no character is read as. *)
Definition rune_error : bytes := ["239"%char; "191"%char; "189"%char].

(** A string is consumed character by character, a byte at a time where there is
    none; it has at most as many of them as bytes. *)
Fixpoint quote_loop (fuel : nat) (s : bytes) : bytes :=
  match fuel, s with
  | S fuel, c :: t =>
      match split_rune s with
      | Some (r, s') => esc_rune r ++ quote_loop fuel s'
      | None => esc_bad ++ quote_loop fuel t
      end
  | _, _ => []
  end.

Definition quote_body (s : bytes) : bytes := quote_loop (length s) s.

(** [utf8.Valid]. *)
Fixpoint utf8_loop (fuel : nat) (s : bytes) : bool :=
  match fuel, s with
  | S fuel, _ :: _ => match split_rune s with Some (_, s') => utf8_loop fuel s' | None => false end
  | _, [] => true
  | O, _ :: _ => false
  end.

Definition utf8_valid (s : bytes) : bool := utf8_loop (length s) s.

Definition quote (s : bytes) : bytes := dquote :: quote_body s ++ [dquote].

Fixpoint sep_by (sep : ascii) (l : list bytes) : bytes :=
  match l with
  | [] => []
  | [x] => x
  | x :: l' => x ++ sep :: sep_by sep l'
  end.

(** [json.Marshal] on a document. *)
Fixpoint print (j : json) : bytes :=
  match j with
  | JNull => b_of_s "null"
  | JBool true => b_of_s "true"
  | JBool false => b_of_s "false"
  | JNum lit => lit
  | JStr s => quote s
  | JArr l => "["%char :: sep_by ","%char (map print l) ++ ["]"%char]
  | JObj l =>
      "{"%char :: sep_by ","%char (map (λ kv, quote kv.1 ++ ":"%char :: print kv.2) l) ++ ["}"%char]
  end.

(** ** Parsing *)

Fixpoint skip_ws (s : bytes) : bytes :=
  match s with
  | c :: s' => if is_ws c then skip_ws s' else s
  | [] => []
  end.

Definition hex4 (a b c d : ascii) : option N :=
  match hex_value a, hex_value b, hex_value c, hex_value d with
  | Some a, Some b, Some c, Some d => Some (((a * 16 + b) * 16 + c) * 16 + d)%N
  | _, _, _, _ => None
  end.

Definition is_high (n : N) : bool := ((55296 <=? n) && (n <? 56320))%N.
Definition is_low (n : N) : bool := ((56320 <=? n) && (n <? 57344))%N.
Definition is_surrogate (n : N) : bool := is_high n || is_low n.

(** [utf8.EncodeRune] for a code point of the basic plane; a surrogate becomes
    the replacement character U+FFFD. *)
Definition utf8_encode (n : N) : bytes :=
  (if n <? 128 then [ascii_of_N n]
   else if n <? 2048 then [ascii_of_N (192 + n / 64); ascii_of_N (128 + n mod 64)]
   else
     let n := if is_surrogate n then 65533 else n in
     [ascii_of_N (224 + n / 4096); ascii_of_N (128 + n / 64 mod 64); ascii_of_N (128 + n mod 64)])%N.

(** A supplementary code point from its surrogate pair. *)
Definition utf8_pair (hi lo : N) : bytes :=
  (let n := 65536 + (hi - 55296) * 1024 + (lo - 56320) in
   [ascii_of_N (240 + n / 262144); ascii_of_N (128 + n / 4096 mod 64);
    ascii_of_N (128 + n / 64 mod 64); ascii_of_N (128 + n mod 64)])%N.

Definition unescape (c : ascii) : option ascii :=
  if decide (c = dquote ∨ c = backslash ∨ c = "/"%char) then Some c
  else if decide (c = "b"%char) then Some "008"%char
  else if decide (c = "f"%char) then Some "012"%char
  else if decide (c = "n"%char) then Some newline
  else if decide (c = "r"%char) then Some carriage_return
  else if decide (c = "t"%char) then Some "009"%char
  else None.

(** The second half of a surrogate pair, when [s] begins with one. *)
Definition low_surrogate (s : bytes) : option (N * bytes) :=
  match s with
  | b :: u :: h1 :: h2 :: h3 :: h4 :: r =>
      if decide (b = backslash ∧ u = "u"%char) then
        match hex4 h1 h2 h3 h4 with
        | Some lo => if is_low lo then Some (lo, r) else None
        | None => None
        end
      else None
  | _ => None
  end.

(** The body of a string after its opening quote. *)
Fixpoint parse_string (fuel : nat) (s : bytes) : option (bytes * bytes) :=
  match fuel with
  | 0 => None
  | S fuel =>
      match s with
      | [] => None
      | c :: r =>
          if decide (c = dquote) then Some ([], r)
          else if decide (c = backslash) then
            match r with
            | [] => None
            | e :: r1 =>
                if decide (e = "u"%char) then
                  match r1 with
                  | h1 :: h2 :: h3 :: h4 :: r2 =>
                      match hex4 h1 h2 h3 h4 with
                      | None => None
                      | Some n =>
                          match (if is_high n then low_surrogate r2 else None) with
                          | Some (lo, r3) =>
                              match parse_string fuel r3 with
                              | Some (b, rest) => Some (utf8_pair n lo ++ b, rest)
                              | None => None
                              end
                          | None =>
                              match parse_string fuel r2 with
                              | Some (b, rest) => Some (utf8_encode n ++ b, rest)
                              | None => None
                              end
                          end
                      end
                  | _ => None
                  end
                else
                  match unescape e, parse_string fuel r1 with
                  | Some d, Some (b, rest) => Some (d :: b, rest)
                  | _, _ => None
                  end
            end
          else if is_control c then None
          else
            let '(u, r) := match split_rune s with Some ur => ur | None => (rune_error, r) end in
            match parse_string fuel r with
            | Some (b, rest) => Some (u ++ b, rest)
            | None => None
            end
      end
  end.

Definition num_char (c : ascii) : bool :=
  bool_decide (is_Some (char_digit c)) ||
  bool_decide (c = "-"%char ∨ c = "+"%char ∨ c = "."%char ∨ c = "e"%char ∨ c = "E"%char).

Fixpoint num_span (s : bytes) : bytes * bytes :=
  match s with
  | c :: s' => if num_char c then let '(a, r) := num_span s' in (c :: a, r) else ([], s)
  | [] => ([], [])
  end.

(** The JSON number grammar. *)
Definition valid_exponent (s : bytes) : bool :=
  match s with
  | [] => true
  | c :: s' =>
      bool_decide (c = "e"%char ∨ c = "E"%char) &&
      match span_digits (split_sign s').2 with (_ :: _, []) => true | _ => false end
  end.

Definition valid_fraction (s : bytes) : bool :=
  match s with
  | c :: s' =>
      if decide (c = "."%char) then
        match span_digits s' with (_ :: _, r) => valid_exponent r | _ => false end
      else valid_exponent s
  | [] => true
  end.

Definition valid_number (s : bytes) : bool :=
  let s1 := match s with c :: t => if decide (c = "-"%char) then t else s | [] => [] end in
  match span_digits s1 with
  | ([], _) => false
  | ([_], r) => valid_fraction r
  | (0 :: _, _) => false
  | (_, r) => valid_fraction r
  end.

Fixpoint strip_prefix (p s : bytes) : option bytes :=
  match p, s with
  | [], _ => Some s
  | c :: p', d :: s' => if decide (c = d) then strip_prefix p' s' else None
  | _ :: _, [] => None
  end.

Fixpoint parse_value (fuel : nat) (s : bytes) : option (json * bytes) :=
  match fuel with
  | 0 => None
  | S fuel =>
      let s := skip_ws s in
      match s with
      | [] => None
      | c :: r =>
          if decide (c = dquote) then
            match parse_string (S (length r)) r with
            | Some (b, rest) => Some (JStr b, rest)
            | None => None
            end
          else if decide (c = "["%char) then
            match skip_ws r with
            | d :: r' => if decide (d = "]"%char) then Some (JArr [], r')
                         else match parse_elems fuel r with
                              | Some (l, rest) => Some (JArr l, rest)
                              | None => None
                              end
            | [] => None
            end
          else if decide (c = "{"%char) then
            match skip_ws r with
            | d :: r' => if decide (d = "}"%char) then Some (JObj [], r')
                         else match parse_members fuel r with
                              | Some (l, rest) => Some (JObj l, rest)
                              | None => None
                              end
            | [] => None
            end
          else if decide (c = "n"%char) then
            match strip_prefix (b_of_s "null") s with Some r' => Some (JNull, r') | None => None end
          else if decide (c = "t"%char) then
            match strip_prefix (b_of_s "true") s with Some r' => Some (JBool true, r') | None => None end
          else if decide (c = "f"%char) then
            match strip_prefix (b_of_s "false") s with Some r' => Some (JBool false, r') | None => None end
          else
            let '(lit, r') := num_span s in
            if valid_number lit then Some (JNum lit, r') else None
      end
  end
with parse_elems (fuel : nat) (s : bytes) : option (list json * bytes) :=
  match fuel with
  | 0 => None
  | S fuel =>
      match parse_value fuel s with
      | None => None
      | Some (x, r) =>
          match skip_ws r with
          | c :: r' =>
              if decide (c = ","%char) then
                match parse_elems fuel r' with
                | Some (l, rest) => Some (x :: l, rest)
                | None => None
                end
              else if decide (c = "]"%char) then Some ([x], r') else None
          | [] => None
          end
      end
  end
with parse_members (fuel : nat) (s : bytes) : option (list (bytes * json) * bytes) :=
  match fuel with
  | 0 => None
  | S fuel =>
      match skip_ws s with
      | [] => None
      | q :: s1 =>
          if decide (q = dquote) then
            match parse_string (S (length s1)) s1 with
            | None => None
            | Some (k, r) =>
                match skip_ws r with
                | [] => None
                | col :: r1 =>
                    if decide (col = ":"%char) then
                      match parse_value fuel r1 with
                      | None => None
                      | Some (x, r2) =>
                          match skip_ws r2 with
                          | c :: r' =>
                              if decide (c = ","%char) then
                                match parse_members fuel r' with
                                | Some (l, rest) => Some ((k, x) :: l, rest)
                                | None => None
                                end
                              else if decide (c = "}"%char) then Some ([(k, x)], r') else None
                          | [] => None
                          end
                      end
                    else None
                end
            end
          else None
      end
  end.

(** The syntax check of [json.Unmarshal]: one value, then only white space. *)
Definition unmarshal (s : bytes) : option json :=
  match parse_value (S (length s)) s with
  | Some (j, r) => match skip_ws r with [] => Some j | _ => None end
  | None => None
  end.

(** ** Strings: parsing inverts quoting *)

Definition ascii_all (f : ascii → bool) : bool :=
  forallb f (map ascii_of_nat (seq 0 256)).

(** A boolean fact about every byte, by evaluation. *)
Lemma ascii_forall (f : ascii → bool) : ascii_all f = true → ∀ c, f c = true.
Proof.
  unfold ascii_all. rewrite forallb_forall. intros H c. apply H.
  rewrite <- (ascii_nat_embedding c). apply in_map, in_seq.
  split; [apply Nat.le_0_l|]. apply nat_ascii_bounded.
Qed.

Arguments esc_char : simpl never.
Arguments hex4 : simpl never.
Arguments utf8_encode : simpl never.
Arguments unescape : simpl never.
Arguments is_control : simpl never.
Arguments is_ws : simpl never.
Arguments num_char : simpl never.
Arguments line_sep : simpl never.
Arguments in_range : simpl never.
Arguments rune2 : simpl never.
Arguments rune3 : simpl never.
Arguments rune4 : simpl never.

(** What [esc_char] can produce, and that each form reads back as [c]. *)
Inductive esc_form (c : ascii) : bytes → Prop :=
| esc_plain : c ≠ dquote → c ≠ backslash → is_control c = false → esc_form c [c]
| esc_short e : e ≠ "u"%char → unescape e = Some c → esc_form c [backslash; e]
| esc_hex a b n : hex4 "0" "0" a b = Some n → (n < 128)%N → utf8_encode n = [c] →
    esc_form c [backslash; "u"%char; "0"%char; "0"%char; a; b].

Definition esc_formb (c : ascii) (l : bytes) : bool :=
  match l with
  | [x] => bool_decide (x = c) && bool_decide (c ≠ dquote) && bool_decide (c ≠ backslash) &&
           negb (is_control c)
  | [b; e] => bool_decide (b = backslash) && bool_decide (e ≠ "u"%char) &&
              bool_decide (unescape e = Some c)
  | [b; u; z1; z2; x; y] =>
      bool_decide (b = backslash) && bool_decide (u = "u"%char) && bool_decide (z1 = "0"%char) &&
      bool_decide (z2 = "0"%char) &&
      match hex4 "0" "0" x y with
      | Some n => (n <? 128)%N && bool_decide (utf8_encode n = [c])
      | None => false
      end
  | _ => false
  end.

Lemma esc_formb_ok c l : esc_formb c l = true → esc_form c l.
Proof.
  unfold esc_formb. intros H.
  destruct l as [|x [|y [|z [|w [|v [|u [|? ?]]]]]]]; try done;
    rewrite ?andb_true_iff, ?bool_decide_eq_true, ?negb_true_iff in H.
  - destruct H as [[[-> H1] H2] H3]. by apply esc_plain.
  - destruct H as [[-> H1] H2]. by apply esc_short.
  - destruct H as [[[[-> ->] ->] ->] H]. destruct (hex4 _ _ _ _) as [n|] eqn:E; [|done].
    rewrite andb_true_iff, bool_decide_eq_true, N.ltb_lt in H. destruct H.
    by eapply esc_hex.
Qed.

Lemma esc_char_form c : esc_form c (esc_char c).
Proof.
  apply esc_formb_ok. revert c.
  apply (ascii_forall (λ c, esc_formb c (esc_char c))). vm_compute. reflexivity.
Qed.

(** A character, as its bytes, and a string of characters. *)
Inductive is_rune : bytes → Prop :=
| rune_one c : in_range 0 127 c = true → is_rune [c]
| rune_two c0 c1 : rune2 c0 c1 = true → is_rune [c0; c1]
| rune_three c0 c1 c2 : rune3 c0 c1 c2 = true → is_rune [c0; c1; c2]
| rune_four c0 c1 c2 c3 : rune4 c0 c1 c2 c3 = true → is_rune [c0; c1; c2; c3].

Inductive utf8 : bytes → Prop :=
| utf8_nil : utf8 []
| utf8_cons r s : is_rune r → utf8 s → utf8 (r ++ s).

Ltac ranges :=
  repeat match goal with
  | |- _ = false => apply not_true_is_false; intro
  | H : _ = true |- _ =>
      unfold rune4, rune3, rune2, cont, in_range in H;
      repeat first [rewrite andb_true_iff in H|rewrite orb_true_iff in H|rewrite N.leb_le in H]
  end; lia.

Lemma rune_disjoint c0 c1 c2 c3 :
  (rune2 c0 c1 = true → in_range 0 127 c0 = false) ∧
  (rune3 c0 c1 c2 = true → in_range 0 127 c0 = false ∧ rune2 c0 c1 = false) ∧
  (rune4 c0 c1 c2 c3 = true → in_range 0 127 c0 = false ∧ rune2 c0 c1 = false ∧ rune3 c0 c1 c2 = false).
Proof. split_and!; intros H; split_and?; ranges. Qed.

Lemma split_rune_app r s : is_rune r → split_rune (r ++ s) = Some (r, s).
Proof.
  intros [c H|c0 c1 H|c0 c1 c2 H|c0 c1 c2 c3 H]; cbn [app split_rune].
  - by rewrite H.
  - destruct (rune_disjoint c0 c1 c1 c1) as (H1 & _). by rewrite H1, H.
  - destruct (rune_disjoint c0 c1 c2 c2) as (_ & H1 & _). destruct (H1 H) as [-> ->]. by rewrite H.
  - destruct (rune_disjoint c0 c1 c2 c3) as (_ & _ & H1). destruct (H1 H) as (-> & -> & ->). by rewrite H.
Qed.

Lemma split_rune_inv s r s' : split_rune s = Some (r, s') → s = r ++ s' ∧ is_rune r.
Proof.
  unfold split_rune. intros H.
  repeat match type of H with
  | match ?l with [] => _ | _ :: _ => _ end = _ => destruct l as [|? ?]; [done|]
  | (if ?b then _ else _) = _ => destruct b eqn:?
  end; try done; injection H as <- <-; (split; [done|by constructor]).
Qed.

Lemma is_rune_length r : is_rune r → 1 ≤ length r.
Proof. destruct 1; simpl; lia. Qed.

Lemma utf8_loop_spec n s : length s ≤ n → utf8_loop n s = true ↔ utf8 s.
Proof.
  revert s. induction n as [|n IH]; intros s Hn.
  { destruct s; [|simpl in Hn; lia]. split; [constructor|done]. }
  destruct s as [|c t]; [split; [constructor|done]|]. cbn [utf8_loop].
  destruct (split_rune (c :: t)) as [[r s']|] eqn:E.
  - apply split_rune_inv in E as [E Hr]. pose proof (is_rune_length r Hr). rewrite E in *. rewrite length_app in Hn.
    rewrite IH by lia. split; [by constructor|]. inversion 1 as [Hx|r' s'' Hr' Hs Hx].
    { symmetry in Hx. apply app_nil in Hx as [-> _]. simpl in *. lia. }
    pose proof (split_rune_app r' s'' Hr') as H1. rewrite Hx, split_rune_app in H1 by done. by injection H1 as _ ->.
  - split; [done|]. inversion 1 as [|r' s'' Hr' Hs Hx]. by rewrite <- Hx, split_rune_app in E.
Qed.

Lemma utf8_valid_spec s : utf8_valid s = true ↔ utf8 s.
Proof. by apply utf8_loop_spec. Qed.

Lemma utf8_app s t : utf8 s → utf8 t → utf8 (s ++ t).
Proof. induction 1; intros Ht; [done|]. rewrite <- app_assoc. constructor; auto. Qed.

Lemma utf8_ascii s : Forall (λ c, in_range 0 127 c = true) s → utf8 s.
Proof. induction 1; [constructor|]. apply (utf8_cons [_]); [by constructor|done]. Qed.

Lemma quote_loop_fuel n s : length s ≤ n → quote_loop n s = quote_body s.
Proof.
  unfold quote_body. revert s. assert (∀ n m s, length s ≤ n → length s ≤ m → quote_loop n s = quote_loop m s) as H; [|intros s Hs; by apply H].
  clear. induction n as [|n IH]; intros m s Hn Hm; [destruct s; [by destruct m|simpl in Hn; lia]|].
  destruct s as [|c t]; [by destruct m|]. destruct m as [|m]; [simpl in Hm; lia|]. cbn [quote_loop].
  destruct (split_rune (c :: t)) as [[r s']|] eqn:E; f_equal; [|apply IH; simpl in *; lia].
  apply split_rune_inv in E as [E Hr]. pose proof (is_rune_length r Hr). apply (f_equal length) in E. rewrite length_app in E.
  simpl in *. apply IH; lia.
Qed.

Lemma quote_body_rune r s : is_rune r → quote_body (r ++ s) = esc_rune r ++ quote_body s.
Proof.
  intros Hr. pose proof (is_rune_length r Hr) as Hl. pose proof (split_rune_app r s Hr) as E.
  unfold quote_body at 1. destruct (r ++ s) as [|c t] eqn:Hrs.
  { apply app_nil in Hrs as [-> _]. simpl in Hl. lia. }
  cbn [quote_loop length]. rewrite E. f_equal. apply quote_loop_fuel.
  apply (f_equal length) in Hrs. rewrite length_app in Hrs. simpl in Hrs. lia.
Qed.

Lemma quote_body_bad c t : split_rune (c :: t) = None → quote_body (c :: t) = esc_bad ++ quote_body t.
Proof. intros E. unfold quote_body at 1. cbn [quote_loop length]. by rewrite E. Qed.

(** Any string, by its characters and the bytes that begin none. *)
Lemma rune_ind (P : bytes → Prop) :
  P [] → (∀ r s, is_rune r → P s → P (r ++ s)) → (∀ c t, split_rune (c :: t) = None → P t → P (c :: t)) → ∀ s, P s.
Proof.
  intros H0 H1 H2 s. induction s as [s IH] using (induction_ltof1 _ (@length ascii)). unfold ltof in IH.
  destruct s as [|c t]; [done|]. destruct (split_rune (c :: t)) as [[r s']|] eqn:E.
  - apply split_rune_inv in E as [E Hr]. rewrite E in IH |- *. apply H1; [done|]. apply IH.
    pose proof (is_rune_length r Hr). rewrite length_app. lia.
  - apply H2; [done|]. apply IH. simpl. lia.
Qed.

Lemma line_sep_Some c c1 c2 d :
  line_sep c c1 c2 = Some d →
  ∃ n, hex4 "2" "0" "2" d = Some n ∧ utf8_encode n = [c; c1; c2] ∧
       is_high n = false.
Proof.
  unfold line_sep. intros H. destruct (decide _) as [[-> ->]|]; [|done].
  destruct (decide (c2 = _)) as [->|]; [|destruct (decide (c2 = _)) as [->|]; [|done]];
    invc H; eexists; (split_and!; [vm_compute; reflexivity..]).
Qed.

Lemma parse_string_hex fuel h1 h2 h3 h4 n s :
  hex4 h1 h2 h3 h4 = Some n → is_high n = false →
  parse_string (S fuel) (backslash :: "u"%char :: h1 :: h2 :: h3 :: h4 :: s) =
  match parse_string fuel s with
  | Some (b, rest) => Some (utf8_encode n ++ b, rest)
  | None => None
  end.
Proof.
  intros H1 H2. cbn [parse_string].
  destruct (decide (backslash = dquote)) as [Hd|]; [by vm_compute in Hd|].
  rewrite decide_True by done. rewrite decide_True by done. by rewrite H1, H2.
Qed.

Lemma parse_string_esc c fuel s : in_range 0 127 c = true →
  parse_string (S fuel) (esc_char c ++ s) =
  match parse_string fuel s with
  | Some (b, rest) => Some (c :: b, rest)
  | None => None
  end.
Proof.
  intros Hr. destruct (esc_char_form c) as [Hq Hb Hc|e He Hu|a b n Hn Hlt Hu]; cbn [app].
  - cbn [parse_string]. rewrite !decide_False by done. rewrite Hc. cbn [split_rune]. by rewrite Hr.
  - cbn [parse_string].
    destruct (decide (backslash = dquote)) as [Hd|]; [by vm_compute in Hd|].
    rewrite decide_True by done. rewrite decide_False by done. rewrite Hu. done.
  - erewrite parse_string_hex; [by rewrite Hu|done|].
    unfold is_high. apply andb_false_iff. left. apply N.leb_gt. lia.
Qed.

Lemma high_plain c : in_range 0 127 c = false → c ≠ dquote ∧ c ≠ backslash ∧ is_control c = false.
Proof.
  intros H. pose proof (ascii_forall (λ c, in_range 0 127 c ||
    bool_decide (c ≠ dquote) && bool_decide (c ≠ backslash) && negb (is_control c))) as Hall.
  specialize (Hall ltac:(vm_compute; reflexivity) c). simpl in Hall. rewrite H in Hall. simpl in Hall.
  rewrite !andb_true_iff, !bool_decide_eq_true, negb_true_iff in Hall. tauto.
Qed.

(** A character of several bytes is read as it is. *)
Lemma parse_string_plain r c t fuel s : is_rune r → r = c :: t → in_range 0 127 c = false →
  parse_string (S fuel) (r ++ s) =
  match parse_string fuel s with Some (b, rest) => Some (r ++ b, rest) | None => None end.
Proof.
  intros Hr Er Hc. pose proof (split_rune_app r s Hr) as E. destruct (high_plain c Hc) as (H1 & H2 & H3).
  rewrite Er in E |- *. cbn [app] in E |- *. cbn [parse_string]. rewrite !decide_False by done. rewrite H3.
  cbn [app]. rewrite E. done.
Qed.

Lemma parse_string_rune r fuel s : is_rune r →
  parse_string (S fuel) (esc_rune r ++ s) =
  match parse_string fuel s with Some (b, rest) => Some (r ++ b, rest) | None => None end.
Proof.
  intros Hr. pose proof Hr as [c H|c0 c1 H|c0 c1 c2 H|c0 c1 c2 c3 H]; cbn [esc_rune].
  - by apply parse_string_esc.
  - eapply parse_string_plain; [by constructor|reflexivity|]. destruct (rune_disjoint c0 c1 c1 c1) as (H1 & _). auto.
  - destruct (line_sep c0 c1 c2) as [d|] eqn:Hsep.
    + destruct (line_sep_Some _ _ _ _ Hsep) as (n & Hn & Hu & Hh). cbn [app]. erewrite parse_string_hex by done. by rewrite Hu.
    + eapply parse_string_plain; [by constructor|reflexivity|]. destruct (rune_disjoint c0 c1 c2 c2) as (_ & H1 & _). apply H1, H.
  - eapply parse_string_plain; [by constructor|reflexivity|]. destruct (rune_disjoint c0 c1 c2 c3) as (_ & _ & H1). apply H1, H.
Qed.

Lemma parse_quote_body s : utf8 s → ∀ fuel rest,
  length s < fuel →
  parse_string fuel (quote_body s ++ dquote :: rest) = Some (s, rest).
Proof.
  induction 1 as [|r s Hr Hs IH]; intros fuel rest Hf; (destruct fuel as [|fuel]; [lia|]).
  { change (quote_body []) with (@nil ascii). cbn [app parse_string]. by rewrite decide_True. }
  rewrite quote_body_rune, <- app_assoc, parse_string_rune by done. pose proof (is_rune_length r Hr).
  rewrite length_app in Hf. by rewrite IH by lia.
Qed.

Lemma esc_rune_length r : is_rune r → length r ≤ length (esc_rune r).
Proof.
  intros [c H|c0 c1 H|c0 c1 c2 H|c0 c1 c2 c3 H]; cbn [esc_rune]; try done.
  - destruct (esc_char_form c); simpl; lia.
  - destruct (line_sep c0 c1 c2); simpl; lia.
Qed.

Lemma quote_body_length s : length s ≤ length (quote_body s).
Proof.
  induction s as [|r s Hr IH|c t E IH] using rune_ind; [done|..].
  - rewrite quote_body_rune, !length_app by done. pose proof (esc_rune_length r Hr). lia.
  - rewrite quote_body_bad by done. simpl. lia.
Qed.

Lemma parse_string_quote s rest : utf8 s →
  let r := quote_body s ++ dquote :: rest in
  parse_string (S (length r)) r = Some (s, rest).
Proof.
  intros Hs. apply parse_quote_body; [done|]. rewrite length_app. pose proof (quote_body_length s). lia.
Qed.

(** ** Documents: parsing inverts printing *)

Definition num_ok (lit : bytes) : bool := valid_number lit && forallb num_char lit.

(** Every number of the document is a JSON number literal. *)
Fixpoint json_ok (j : json) : bool :=
  match j with
  | JNum lit => num_ok lit
  | JArr l => forallb json_ok l
  | JObj l => forallb (λ kv, json_ok kv.2) l
  | _ => true
  end.

(** Every string of the document, member names included, is UTF-8. *)
Fixpoint json_utf8 (j : json) : bool :=
  match j with
  | JStr s => utf8_valid s
  | JArr l => forallb json_utf8 l
  | JObj l => forallb (λ kv, utf8_valid kv.1 && json_utf8 kv.2) l
  | _ => true
  end.

Fixpoint jsize (j : json) : nat :=
  match j with
  | JArr l => 1 + sum_list_with (λ x, 1 + jsize x) l
  | JObj l => 1 + sum_list_with (λ kv, 1 + jsize kv.2) l
  | _ => 1
  end.

(** What may follow a value: nothing that would extend a number. *)
Definition stops (rest : bytes) : Prop :=
  match rest with [] => True | c :: _ => num_char c = false end.

Lemma num_span_app lit rest :
  forallb num_char lit = true → stops rest → num_span (lit ++ rest) = (lit, rest).
Proof.
  intros H Hr. induction lit as [|c lit IH].
  - destruct rest as [|c rest]; [done|]. cbn [app num_span]. simpl in Hr. by rewrite Hr.
  - cbn [forallb] in H. apply andb_true_iff in H as [Hc H].
    cbn [app num_span]. by rewrite Hc, IH.
Qed.

(** The characters that start a structured value. *)
Definition starts_other (c : ascii) : bool :=
  bool_decide (c = dquote ∨ c = "["%char ∨ c = "{"%char ∨ c = "n"%char ∨ c = "t"%char ∨ c = "f"%char).

Definition closes (c : ascii) : bool := bool_decide (c = "]"%char ∨ c = "}"%char).

Lemma num_char_class c :
  num_char c = true → starts_other c = false ∧ is_ws c = false ∧ closes c = false.
Proof.
  intros H.
  pose proof (ascii_forall (λ c, negb (num_char c) ||
    negb (starts_other c) && negb (is_ws c) && negb (closes c))) as Hall.
  specialize (Hall ltac:(vm_compute; reflexivity) c). simpl in Hall. rewrite H in Hall. simpl in Hall.
  rewrite !andb_true_iff, !negb_true_iff in Hall. tauto.
Qed.

Lemma num_ok_hd lit : num_ok lit = true → ∃ c t, lit = c :: t ∧ num_char c = true.
Proof.
  unfold num_ok. intros [H1 H2]%andb_true_iff. destruct lit as [|c t]; [done|].
  cbn [forallb] in H2. apply andb_true_iff in H2 as [H2 _]. eauto.
Qed.

Lemma print_hd j :
  json_ok j = true → ∃ c t, print j = c :: t ∧ is_ws c = false ∧ closes c = false.
Proof.
  destruct j as [|[]|lit|s|l|l]; intros Hok; try (by eexists _, _; split_and!; [reflexivity|..]).
  apply num_ok_hd in Hok as (c & t & -> & Hc).
  apply num_char_class in Hc as (_ & ? & ?). by eexists _, _.
Qed.

Lemma skip_ws_print j rest :
  json_ok j = true → skip_ws (print j ++ rest) = print j ++ rest.
Proof.
  intros (c & t & -> & Hws & _)%print_hd. cbn [app skip_ws]. by rewrite Hws.
Qed.

Lemma skip_ws_nws c s : is_ws c = false → skip_ws (c :: s) = c :: s.
Proof. intros H. cbn [skip_ws]. by rewrite H. Qed.

Lemma parse_number lit fuel rest :
  num_ok lit = true → stops rest →
  parse_value (S fuel) (lit ++ rest) = Some (JNum lit, rest).
Proof.
  intros Hok Hr. destruct (num_ok_hd _ Hok) as (c & t & -> & Hc).
  destruct (num_char_class c Hc) as (Hs & Hw & _).
  unfold num_ok in Hok. apply andb_true_iff in Hok as [Hv Hall].
  cbn [parse_value app]. rewrite skip_ws_nws by done.
  unfold starts_other in Hs. rewrite bool_decide_eq_false in Hs.
  rewrite !decide_False by naive_solver.
  change (c :: t ++ rest) with ((c :: t) ++ rest). rewrite num_span_app by done. by rewrite Hv.
Qed.

(** The statement of the round trip for one document, used as the induction
    hypothesis over lists of documents. *)
Definition parses (j : json) : Prop :=
  ∀ fuel rest, jsize j ≤ fuel → stops rest → parse_value fuel (print j ++ rest) = Some (j, rest).

Lemma parse_elems_print l fuel rest :
  l ≠ [] → Forall parses l → forallb json_ok l = true →
  sum_list_with (λ x, 1 + jsize x) l ≤ fuel →
  parse_elems fuel (sep_by ","%char (map print l) ++ "]"%char :: rest) = Some (l, rest).
Proof.
  revert fuel. induction l as [|x l IH]; intros fuel Hne Hp Hok Hf; [done|].
  apply Forall_cons in Hp as [Hx Hp]. cbn [forallb] in Hok. apply andb_true_iff in Hok as [Hox Hok].
  destruct fuel as [|fuel]; [simpl in Hf; lia|]. simpl in Hf.
  destruct l as [|y l].
  - cbn [map sep_by parse_elems]. rewrite Hx; [|lia|reflexivity].
    rewrite skip_ws_nws by reflexivity. by rewrite decide_False, decide_True.
  - change (sep_by "," (map print (x :: y :: l)))
      with (print x ++ ","%char :: sep_by "," (map print (y :: l))).
    rewrite <- app_assoc. cbn [app parse_elems]. rewrite Hx; [|lia|reflexivity].
    rewrite skip_ws_nws by reflexivity. rewrite decide_True by done.
    rewrite IH; [done|done|done|done|simpl in *; lia].
Qed.

Definition print_member (kv : bytes * json) : bytes := quote kv.1 ++ ":"%char :: print kv.2.

Lemma parse_members_print l fuel rest :
  l ≠ [] → Forall (λ kv, parses kv.2) l → forallb (λ kv, json_ok kv.2) l = true → Forall (λ kv, utf8 kv.1) l →
  sum_list_with (λ kv, 1 + jsize kv.2) l ≤ fuel →
  parse_members fuel (sep_by ","%char (map print_member l) ++ "}"%char :: rest) = Some (l, rest).
Proof.
  revert fuel. induction l as [|[k x] l IH]; intros fuel Hne Hp Hok Hu Hf; [done|].
  apply Forall_cons in Hp as [Hx Hp]. apply Forall_cons in Hu as [Hk Hu]. cbn [forallb] in Hok. apply andb_true_iff in Hok as [Hox Hok].
  simpl in Hx, Hox.
  destruct fuel as [|fuel]; [simpl in Hf; lia|]. simpl in Hf.
  assert (Hstep : ∀ tail, stops tail →
    parse_members (S fuel) (print_member (k, x) ++ tail) =
    match skip_ws tail with
    | c :: r' =>
        if decide (c = ","%char) then
          match parse_members fuel r' with Some (l, rest) => Some ((k, x) :: l, rest) | None => None end
        else if decide (c = "}"%char) then Some ([(k, x)], r') else None
    | [] => None
    end).
  { intros tail Ht. unfold print_member, quote. cbn [fst snd app parse_members].
    rewrite skip_ws_nws by reflexivity. rewrite decide_True by done.
    rewrite <- !app_assoc. cbn [app]. rewrite parse_string_quote by done.
    rewrite skip_ws_nws by reflexivity. rewrite decide_True by done.
    rewrite Hx; [done|lia|done]. }
  destruct l as [|y l].
  - cbn [map sep_by]. rewrite Hstep by done.
    rewrite skip_ws_nws by reflexivity. by rewrite decide_False, decide_True.
  - change (sep_by "," (map print_member ((k, x) :: y :: l)))
      with (print_member (k, x) ++ ","%char :: sep_by "," (map print_member (y :: l))).
    rewrite <- app_assoc. cbn [app]. rewrite Hstep by done.
    rewrite skip_ws_nws by reflexivity. rewrite decide_True by done.
    rewrite IH; [done|done|done|done|done|simpl in *; lia].
Qed.

Lemma parse_print j : json_ok j = true → json_utf8 j = true → parses j.
Proof.
  induction j as [|[]|lit|s|l IH|l IH] using json_ind'; intros Hok Hu fuel rest Hf Hr;
    (destruct fuel as [|fuel]; [simpl in Hf; lia|]); try reflexivity.
  - by apply parse_number.
  - cbn [print]. unfold quote. cbn [app parse_value]. rewrite skip_ws_nws by reflexivity.
    rewrite decide_True by done. rewrite <- app_assoc. cbn [app].
    by rewrite parse_string_quote by (by apply utf8_valid_spec).
  - cbn [print app parse_value]. rewrite skip_ws_nws by reflexivity.
    rewrite decide_False, decide_True by done.
    cbn [json_ok] in Hok. rewrite <- app_assoc. cbn [app].
    destruct l as [|x l]; [done|].
    assert (Hhd : ∃ c t, sep_by "," (map print (x :: l)) = c :: t ∧ is_ws c = false ∧ closes c = false).
    { destruct (print_hd x) as (c & t & E & ?); [cbn [forallb] in Hok; by apply andb_true_iff in Hok as [? _]|].
      destruct l; cbn [map sep_by]; rewrite E; eexists _, _; (split; [reflexivity|done]). }
    assert (Hp : Forall parses (x :: l)).
    { cbn [json_utf8] in Hu. rewrite forallb_forall in Hok, Hu. rewrite Forall_forall in *. intros y Hy.
      apply IH; [done|..]; [apply Hok|apply Hu]; by apply list_elem_of_In. }
    assert (He := parse_elems_print (x :: l) fuel rest ltac:(done) Hp Hok ltac:(simpl in *; lia)).
    destruct Hhd as (c & t & E & Hws & Hcl). rewrite E in *. cbn [app] in *.
    rewrite skip_ws_nws by done. unfold closes in Hcl. rewrite bool_decide_eq_false in Hcl.
    rewrite decide_False by naive_solver. by rewrite He.
  - cbn [print app parse_value]. rewrite skip_ws_nws by reflexivity.
    rewrite !decide_False, decide_True by done.
    cbn [json_ok] in Hok. rewrite <- app_assoc. cbn [app]. fold print_member.
    destruct l as [|[k x] l]; [done|].
    assert (Hhd : ∃ t, sep_by "," (map print_member ((k, x) :: l)) = dquote :: t).
    { destruct l; cbn [map sep_by]; eexists; reflexivity. }
    assert (Hp : Forall (λ kv, parses kv.2) ((k, x) :: l)).
    { cbn [json_utf8] in Hu. rewrite forallb_forall in Hok, Hu. rewrite Forall_forall in *. intros y Hy.
      apply list_elem_of_In in Hy as Hin. specialize (Hu y Hin). apply andb_true_iff in Hu as [_ Hu].
      apply IH; [done|by apply (Hok y)|done]. }
    assert (Hk : Forall (λ kv, utf8 kv.1) ((k, x) :: l)).
    { cbn [json_utf8] in Hu. rewrite forallb_forall in Hu. apply Forall_forall. intros y Hy%list_elem_of_In.
      specialize (Hu y Hy). apply andb_true_iff in Hu as [Hu _]. by apply utf8_valid_spec. }
    assert (He := parse_members_print ((k, x) :: l) fuel rest ltac:(done) Hp Hok Hk ltac:(simpl in *; lia)).
    destruct Hhd as (t & E).
    change (λ kv : bytes * json, quote kv.1 ++ ":"%char :: print kv.2) with print_member.
    rewrite E in *. cbn [app] in *.
    rewrite skip_ws_nws by reflexivity. rewrite decide_False by done. by rewrite He.
Qed.

Lemma sep_by_length_ge sep (l : list bytes) :
  sum_list_with length l + pred (length l) ≤ length (sep_by sep l).
Proof.
  induction l as [|x [|y l] IH]; [simpl; lia..|].
  change (sep_by sep (x :: y :: l)) with (x ++ sep :: sep_by sep (y :: l)).
  rewrite length_app. simpl in *. lia.
Qed.

Lemma jsize_length j : json_ok j = true → jsize j ≤ length (print j).
Proof.
  induction j as [|[]|lit|s|l IH|l IH] using json_ind'; intros Hok; cbn [jsize]; try (simpl; lia).
  - apply num_ok_hd in Hok as (c & t & -> & _). simpl. lia.
  - cbn [print length]. rewrite length_app. cbn [length].
    pose proof (sep_by_length_ge "," (map print l)) as Hge. rewrite length_map in Hge.
    assert (sum_list_with (λ x, 1 + jsize x) l ≤ length l + sum_list_with length (map print l)).
    { clear Hge. cbn [json_ok] in Hok. induction IH as [|x l Hx IH IHl]; [done|].
      cbn [forallb] in Hok. apply andb_true_iff in Hok as [Ho1 Ho2].
      specialize (Hx Ho1). specialize (IHl Ho2). simpl in *. lia. }
    destruct l; simpl in *; lia.
  - cbn [print length]. rewrite length_app. cbn [length].
    change (λ kv : bytes * json, quote kv.1 ++ ":"%char :: print kv.2) with print_member.
    pose proof (sep_by_length_ge "," (map print_member l)) as Hge. rewrite length_map in Hge.
    assert (sum_list_with (λ kv, 1 + jsize kv.2) l ≤ sum_list_with length (map print_member l)).
    { clear Hge. cbn [json_ok] in Hok. induction IH as [|[k x] l Hx IH IHl]; [done|].
      cbn [forallb] in Hok. apply andb_true_iff in Hok as [Ho1 Ho2].
      specialize (Hx Ho1). specialize (IHl Ho2).
      cbn [sum_list_with map]. unfold print_member at 1. rewrite length_app.
      cbn [fst snd length] in *. lia. }
    destruct l; simpl in *; lia.
Qed.

(** [json.Unmarshal] inverts [json.Marshal] on documents. *)
Lemma unmarshal_print j : json_ok j = true → json_utf8 j = true → unmarshal (print j) = Some j.
Proof.
  intros Hok Hu. unfold unmarshal. pose proof (jsize_length j Hok) as Hs.
  pose proof (parse_print j Hok Hu (S (length (print j))) [] ltac:(lia) I) as H.
  rewrite app_nil_r in H. by rewrite H.
Qed.

(** White space around the line, such as its newline, is ignored. *)
Lemma unmarshal_print_newline j :
  json_ok j = true → json_utf8 j = true → unmarshal (print j ++ [newline]) = Some j.
Proof.
  intros Hok Hu. unfold unmarshal. pose proof (jsize_length j Hok) as Hs.
  rewrite (parse_print j Hok Hu); [done| |reflexivity]. rewrite length_app. simpl. lia.
Qed.

(** ** The printed form has no control character *)

Definition clean (s : bytes) : Prop := Forall (λ c, is_control c = false) s.

Lemma clean_app s t : clean s → clean t → clean (s ++ t).
Proof. intros. by apply Forall_app. Qed.

Lemma clean_cons c s : is_control c = false → clean s → clean (c :: s).
Proof. by constructor. Qed.

Lemma clean_nil : clean [].
Proof. constructor. Qed.

#[export] Hint Resolve clean_app clean_cons clean_nil : scriva.

Lemma esc_char_clean c : clean (esc_char c).
Proof.
  unfold clean. apply Forall_forall. intros x Hx%list_elem_of_In.
  pose proof (ascii_forall (λ c, forallb (λ x, negb (is_control x)) (esc_char c))) as H.
  specialize (H ltac:(vm_compute; reflexivity) c). simpl in H. rewrite forallb_forall in H.
  apply negb_true_iff. by apply H.
Qed.

Lemma line_sep_clean c c1 c2 d : line_sep c c1 c2 = Some d → is_control d = false.
Proof. unfold line_sep. intros H. repeat case_decide; by invc H. Qed.

Lemma esc_rune_clean r : is_rune r → clean (esc_rune r).
Proof.
  assert (∀ c, in_range 0 127 c = false → is_control c = false) as Hhi by (intros c Hc; by apply high_plain).
  intros [c H|c0 c1 H|c0 c1 c2 H|c0 c1 c2 c3 H]; cbn [esc_rune].
  - apply esc_char_clean.
  - repeat apply clean_cons; try apply clean_nil; apply Hhi; ranges.
  - destruct (line_sep c0 c1 c2) as [d|] eqn:Hsep.
    + apply line_sep_clean in Hsep. repeat (apply clean_cons; [done|]). apply clean_nil.
    + repeat apply clean_cons; try apply clean_nil; apply Hhi; ranges.
  - repeat apply clean_cons; try apply clean_nil; apply Hhi; ranges.
Qed.

Lemma quote_clean s : clean (quote s).
Proof.
  unfold quote. apply clean_cons; [done|]. apply clean_app; [|by apply clean_cons; auto with scriva].
  induction s as [|r s Hr IH|c t E IH] using rune_ind; [constructor|..].
  - rewrite quote_body_rune by done. apply clean_app; [by apply esc_rune_clean|done].
  - rewrite quote_body_bad by done. apply clean_app; [by unfold esc_bad; repeat constructor|done].
Qed.

Lemma sep_by_clean l : Forall clean l → clean (sep_by ","%char l).
Proof.
  induction 1 as [|x l Hx Hl IH]; [constructor|].
  destruct l as [|y l]; [done|]. cbn [sep_by]. auto with scriva.
Qed.

Lemma num_clean lit : num_ok lit = true → clean lit.
Proof.
  unfold num_ok. intros [_ H]%andb_true_iff. rewrite forallb_forall in H.
  apply Forall_forall. intros c Hc%list_elem_of_In. specialize (H c Hc).
  pose proof (ascii_forall (λ c, negb (num_char c) || negb (is_control c))) as Hall.
  specialize (Hall ltac:(vm_compute; reflexivity) c). simpl in Hall. rewrite H in Hall.
  by apply negb_true_iff.
Qed.

Lemma print_clean j : json_ok j = true → clean (print j).
Proof.
  induction j as [|[]|lit|s|l IH|l IH] using json_ind'; intros Hok;
    try (repeat constructor; fail).
  - by apply num_clean.
  - apply quote_clean.
  - cbn [print]. apply clean_cons; [done|]. apply clean_app; [|repeat constructor].
    apply sep_by_clean. cbn [json_ok] in Hok. rewrite Forall_map.
    rewrite forallb_forall in Hok. rewrite Forall_forall in *. intros x Hx. apply IH; [done|].
    apply Hok. by apply list_elem_of_In.
  - cbn [print]. apply clean_cons; [done|]. apply clean_app; [|repeat constructor].
    apply sep_by_clean. cbn [json_ok] in Hok. rewrite Forall_map.
    rewrite forallb_forall in Hok. rewrite Forall_forall in *. intros x Hx. cbn beta.
    apply clean_app; [apply quote_clean|]. apply clean_cons; [done|]. apply IH; [done|].
    apply (Hok x). by apply list_elem_of_In.
Qed.

Lemma clean_no_newline s : clean s → newline ∉ s.
Proof. intros H Hin. unfold clean in H. rewrite Forall_forall in H. by specialize (H _ Hin). Qed.

(** ** The printed form is UTF-8, whatever its strings are *)

Lemma utf8_one c s : in_range 0 127 c = true → utf8 s → utf8 (c :: s).
Proof. intros Hc Hs. apply (utf8_cons [c]); [by constructor|done]. Qed.

Lemma esc_rune_utf8 r : is_rune r → utf8 (esc_rune r).
Proof.
  intros Hr. pose proof Hr as [c H|c0 c1 H|c0 c1 c2 H|c0 c1 c2 c3 H]; cbn [esc_rune].
  - apply utf8_ascii, Forall_forall. intros x Hx%list_elem_of_In.
    pose proof (ascii_forall (λ c, negb (in_range 0 127 c) || forallb (in_range 0 127) (esc_char c))) as Hall.
    specialize (Hall ltac:(vm_compute; reflexivity) c). cbn beta in Hall. rewrite H in Hall. cbn [negb orb] in Hall.
    rewrite forallb_forall in Hall. by apply Hall.
  - apply (utf8_cons [_; _] []); [by constructor|constructor].
  - destruct (line_sep c0 c1 c2) as [d|] eqn:Hsep; [|apply (utf8_cons [_; _; _] []); [by constructor|constructor]].
    unfold line_sep in Hsep. repeat case_decide; invc Hsep; apply utf8_ascii; by repeat constructor.
  - apply (utf8_cons [_; _; _; _] []); [by constructor|constructor].
Qed.

Lemma quote_utf8 s : utf8 (quote s).
Proof.
  unfold quote. apply utf8_one; [done|]. apply utf8_app; [|by apply utf8_one; [|constructor]].
  induction s as [|r s Hr IH|c t E IH] using rune_ind; [constructor|..].
  - rewrite quote_body_rune by done. apply utf8_app; [by apply esc_rune_utf8|done].
  - rewrite quote_body_bad by done. apply utf8_app; [by apply utf8_ascii; unfold esc_bad; repeat constructor|done].
Qed.

Lemma sep_by_utf8 l : Forall utf8 l → utf8 (sep_by ","%char l).
Proof.
  induction 1 as [|x l Hx Hl IH]; [constructor|]. destruct l as [|y l]; [done|]. cbn [sep_by].
  apply utf8_app; [done|]. by apply utf8_one.
Qed.

Lemma num_utf8 lit : num_ok lit = true → utf8 lit.
Proof.
  unfold num_ok. intros [_ H]%andb_true_iff. rewrite forallb_forall in H.
  apply utf8_ascii, Forall_forall. intros c Hc%list_elem_of_In. specialize (H c Hc).
  pose proof (ascii_forall (λ c, negb (num_char c) || in_range 0 127 c)) as Hall.
  specialize (Hall ltac:(vm_compute; reflexivity) c). cbn beta in Hall. by rewrite H in Hall.
Qed.

Lemma print_utf8 j : json_ok j = true → utf8 (print j).
Proof.
  induction j as [|[]|lit|s|l IH|l IH] using json_ind'; intros Hok;
    try (apply utf8_ascii; repeat constructor; fail).
  - by apply num_utf8.
  - apply quote_utf8.
  - cbn [print]. apply utf8_one; [done|]. apply utf8_app; [|apply utf8_one; [done|constructor]].
    apply sep_by_utf8. cbn [json_ok] in Hok. rewrite Forall_map.
    rewrite forallb_forall in Hok. rewrite Forall_forall in *. intros x Hx. apply IH; [done|].
    apply Hok. by apply list_elem_of_In.
  - cbn [print]. apply utf8_one; [done|]. apply utf8_app; [|apply utf8_one; [done|constructor]].
    apply sep_by_utf8. cbn [json_ok] in Hok. rewrite Forall_map.
    rewrite forallb_forall in Hok. rewrite Forall_forall in *. intros x Hx. cbn beta.
    apply utf8_app; [apply quote_utf8|]. apply utf8_one; [done|]. apply IH; [done|].
    apply (Hok x). by apply list_elem_of_In.
Qed.

(** ** What parsing yields is UTF-8, whatever the input *)

Lemma hex_value_lt c n : hex_value c = Some n → (n < 16)%N.
Proof.
  unfold hex_value. cbv zeta. intros H.
  repeat match type of H with (if ?b then _ else _) = _ => destruct b eqn:? end; invc H;
    repeat match goal with
    | E : (_ && _)%N = true |- _ => rewrite andb_true_iff, N.leb_le, N.ltb_lt in E
    end; lia.
Qed.

Lemma hex4_lt a b c d n : hex4 a b c d = Some n → (n < 65536)%N.
Proof.
  unfold hex4. intros H.
  destruct (hex_value a) eqn:Ea, (hex_value b) eqn:Eb, (hex_value c) eqn:Ec, (hex_value d) eqn:Ed; invc H.
  apply hex_value_lt in Ea, Eb, Ec, Ed. lia.
Qed.

Lemma in_range_of_N lo hi m : (m < 256)%N → (lo ≤ m)%N → (m ≤ hi)%N → in_range lo hi (ascii_of_N m) = true.
Proof.
  intros Hm Hlo Hhi. unfold in_range. rewrite N_ascii_embedding by done.
  apply andb_true_iff. by rewrite !N.leb_le.
Qed.

Ltac rune_solve :=
  unfold in_range; rewrite !N_ascii_embedding by lia;
  repeat first [rewrite andb_true_iff|rewrite orb_true_iff|rewrite N.leb_le]; lia.

Lemma div_mod_64 m : ∃ q r, (m / 64 = q ∧ m mod 64 = r ∧ m = 64 * q + r ∧ r < 64)%N.
Proof. eexists _, _. split_and!; [done|done|by apply N.div_mod|by apply N.mod_lt]. Qed.

Lemma utf8_encode_utf8 n : (n < 65536)%N → utf8 (utf8_encode n).
Proof.
  intros Hn. rewrite <- (app_nil_r (utf8_encode n)). constructor; [|constructor]. unfold utf8_encode.
  destruct (N.ltb_spec n 128).
  { constructor. apply in_range_of_N; lia. }
  destruct (N.ltb_spec n 2048).
  { constructor. destruct (div_mod_64 n) as (q & r & -> & -> & ? & ?). unfold rune2, cont. rune_solve. }
  cbv zeta. set (m := if is_surrogate n then 65533%N else n).
  assert (2048 ≤ m < 65536 ∧ (m < 55296 ∨ 57344 ≤ m))%N as [Hm1 Hm2].
  { subst m. unfold is_surrogate, is_high, is_low. destruct (_ || _) eqn:E; [lia|].
    rewrite orb_false_iff, !andb_false_iff, !N.leb_gt, !N.ltb_ge in E. lia. }
  clearbody m.
  change 4096%N with (64 * 64)%N. rewrite <- N.Div0.div_div.
  destruct (div_mod_64 m) as (q & r & -> & -> & ? & ?), (div_mod_64 q) as (q' & r' & -> & -> & ? & ?).
  constructor. unfold rune3, cont. rune_solve.
Qed.

Lemma utf8_pair_utf8 hi lo : is_high hi = true → is_low lo = true → utf8 (utf8_pair hi lo).
Proof.
  unfold is_high, is_low. rewrite !andb_true_iff, !N.leb_le, !N.ltb_lt. intros Hh Hl.
  rewrite <- (app_nil_r (utf8_pair _ _)). constructor; [|constructor]. unfold utf8_pair. cbv zeta.
  set (m := (65536 + (hi - 55296) * 1024 + (lo - 56320))%N). assert (65536 ≤ m < 1114112)%N by lia. clearbody m.
  change 262144%N with (64 * 64 * 64)%N. change 4096%N with (64 * 64)%N. rewrite <- !N.Div0.div_div.
  destruct (div_mod_64 m) as (q & r & -> & -> & ? & ?), (div_mod_64 q) as (q' & r' & -> & -> & ? & ?),
    (div_mod_64 q') as (q'' & r'' & -> & -> & ? & ?).
  constructor. unfold rune4, cont. rune_solve.
Qed.

Lemma unescape_ascii e d : unescape e = Some d → in_range 0 127 d = true.
Proof. unfold unescape. intros H. repeat case_decide; invc H; try done. by destruct_or!; subst. Qed.

Lemma low_surrogate_low s lo r : low_surrogate s = Some (lo, r) → is_low lo = true.
Proof.
  unfold low_surrogate. intros H. do 6 (destruct s as [|? s]; [done|]). case_decide; [|done].
  destruct (hex4 _ _ _ _) as [n|]; [|done]. destruct (is_low n) eqn:E; invc H. done.
Qed.

Lemma parse_string_utf8 fuel s b rest : parse_string fuel s = Some (b, rest) → utf8 b.
Proof.
  revert s b rest. induction fuel as [|fuel IH]; intros s b rest; [done|]. cbn [parse_string].
  destruct s as [|c r]; [done|]. case_decide; [intros [= <- <-]; constructor|]. case_decide.
  - destruct r as [|e r1]; [done|]. case_decide.
    + do 4 (destruct r1 as [|? r1]; [done|]). destruct (hex4 _ _ _ _) as [n|] eqn:En; [|done].
      apply hex4_lt in En. destruct (if is_high n then low_surrogate r1 else None) as [[lo r3]|] eqn:El.
      * destruct (parse_string fuel r3) as [[b' rest']|] eqn:E; [|done]. intros [= <- <-].
        destruct (is_high n) eqn:Eh; [|done]. apply low_surrogate_low in El.
        apply (utf8_app (utf8_pair n lo)); [by apply utf8_pair_utf8|by eapply IH].
      * destruct (parse_string fuel r1) as [[b' rest']|] eqn:E; [|done]. intros [= <- <-].
        apply (utf8_app (utf8_encode n)); [by apply utf8_encode_utf8|by eapply IH].
    + destruct (unescape e) as [d|] eqn:Ed; [|done]. destruct (parse_string fuel r1) as [[b' rest']|] eqn:E; [|done].
      intros [= <- <-]. apply utf8_one; [by eapply unescape_ascii|by eapply IH].
  - destruct (is_control c); [done|]. destruct (split_rune (c :: r)) as [[u r']|] eqn:Es.
    + destruct (parse_string fuel r') as [[b' rest']|] eqn:E; [|done]. intros [= <- <-].
      apply split_rune_inv in Es as [_ Hr]. constructor; [done|by eapply IH].
    + destruct (parse_string fuel r) as [[b' rest']|] eqn:E; [|done]. intros [= <- <-].
      apply (utf8_cons rune_error); [by constructor|by eapply IH].
Qed.

Lemma parse_utf8 fuel :
  (∀ s j r, parse_value fuel s = Some (j, r) → json_utf8 j = true) ∧
  (∀ s l r, parse_elems fuel s = Some (l, r) → forallb json_utf8 l = true) ∧
  (∀ s l r, parse_members fuel s = Some (l, r) → forallb (λ kv, utf8_valid kv.1 && json_utf8 kv.2) l = true).
Proof.
  induction fuel as [|fuel (IHv & IHe & IHm)]; [done|]. split_and!.
  - intros s j r. cbn [parse_value]. destruct (skip_ws s) as [|c t]; [done|].
    case_decide.
    { destruct (parse_string _ t) as [[b rest]|] eqn:E; [|done]. intros [= <- <-]. cbn [json_utf8].
      by eapply utf8_valid_spec, parse_string_utf8. }
    case_decide.
    { destruct (skip_ws t) as [|d r']; [done|]. case_decide; [by intros [= <- <-]|].
      destruct (parse_elems fuel t) as [[l rest]|] eqn:E; [|done]. intros [= <- <-]. by eapply IHe. }
    case_decide.
    { destruct (skip_ws t) as [|d r']; [done|]. case_decide; [by intros [= <- <-]|].
      destruct (parse_members fuel t) as [[l rest]|] eqn:E; [|done]. intros [= <- <-]. by eapply IHm. }
    repeat (case_decide; [destruct (strip_prefix _ _); [by intros [= <- <-]|done]|]).
    destruct (num_span (c :: t)) as [lit r']. destruct (valid_number lit); [by intros [= <- <-]|done].
  - intros s l r. cbn [parse_elems]. destruct (parse_value fuel s) as [[x r0]|] eqn:E; [|done]. apply IHv in E.
    destruct (skip_ws r0) as [|c r']; [done|]. case_decide.
    + destruct (parse_elems fuel r') as [[l' rest]|] eqn:E'; [|done]. intros [= <- <-]. cbn [forallb]. rewrite E. by eapply IHe.
    + case_decide; [|done]. intros [= <- <-]. cbn [forallb]. by rewrite E.
  - intros s l r. cbn [parse_members]. destruct (skip_ws s) as [|q s1]; [done|]. case_decide; [|done].
    destruct (parse_string _ s1) as [[k r0]|] eqn:Ek; [|done]. apply parse_string_utf8, utf8_valid_spec in Ek.
    destruct (skip_ws r0) as [|col r1]; [done|]. case_decide; [|done].
    destruct (parse_value fuel r1) as [[x r2]|] eqn:E; [|done]. apply IHv in E. destruct (skip_ws r2) as [|c r']; [done|].
    case_decide.
    + destruct (parse_members fuel r') as [[l' rest]|] eqn:E'; [|done]. intros [= <- <-]. cbn [forallb fst snd].
      rewrite Ek, E. by eapply IHm.
    + case_decide; [|done]. intros [= <- <-]. cbn [forallb fst snd]. by rewrite Ek, E.
Qed.

Lemma unmarshal_utf8 s j : unmarshal s = Some j → json_utf8 j = true.
Proof.
  unfold unmarshal. destruct (parse_value _ s) as [[j' r]|] eqn:E; [|done]. destruct (skip_ws r); [|done].
  intros [= <-]. by eapply parse_utf8.
Qed.

(** ** Number literals the encoder writes *)

Lemma forallb_num_digits ds : Forall (λ d, d < 10) ds → forallb num_char (map digit_char ds) = true.
Proof.
  induction 1 as [|d ds Hd _ IH]; [done|]. cbn [map forallb]. rewrite IH, andb_true_r.
  unfold num_char. by rewrite char_digit_char.
Qed.

Lemma num_ok_fmt_N n : num_ok (fmt_N n) = true.
Proof.
  destruct (fmt_N_digits n) as (d & ds & -> & Hall & _ & Hz).
  unfold num_ok. apply andb_true_iff. split; [|by apply forallb_num_digits].
  pose proof Hall as [Hd _]%Forall_cons.
  unfold valid_number. cbn [map].
  rewrite decide_False by (intros E; apply (f_equal char_digit) in E; by rewrite char_digit_char in E).
  change (digit_char d :: map digit_char ds) with (map digit_char (d :: ds)).
  rewrite <- (app_nil_r (map _ _)), span_digits_app by done.
  destruct ds as [|d' ds]; [by destruct d|]. destruct d; [by discriminate (Hz eq_refl)|done].
Qed.

(** A number written with integer digits [ip], an optional fraction and an
    optional exponent. *)
Definition int_part_ok (ip : list nat) : Prop :=
  ip ≠ [] ∧ Forall (λ d, d < 10) ip ∧ (length ip = 1 ∨ ip !! 0 ≠ Some 0).

Definition exp_ok (s : bytes) : Prop :=
  s = [] ∨ ∃ sg l, (sg = "-"%char ∨ sg = "+"%char) ∧ l ≠ [] ∧ Forall (λ d, d < 10) l ∧
                   s = "e"%char :: sg :: map digit_char l.

Lemma exp_ok_valid s : exp_ok s → valid_exponent s = true ∧ ends_number s ∧ forallb num_char s = true.
Proof.
  intros [-> | (sg & l & Hsg & Hne & Hl & ->)]; [done|]. split_and!.
  - cbn [valid_exponent]. rewrite bool_decide_true by auto. cbn [andb].
    assert (split_sign (sg :: map digit_char l) = (bool_decide (sg = "-"%char), map digit_char l)) as ->
      by (by destruct Hsg as [-> | ->]).
    cbn [snd]. rewrite <- (app_nil_r (map _ _)), span_digits_app by done. by destruct l.
  - done.
  - cbn [forallb]. rewrite forallb_num_digits by done. by destruct Hsg as [-> | ->].
Qed.

Lemma valid_number_shape neg ip fp s :
  int_part_ok ip → Forall (λ d, d < 10) fp → exp_ok s →
  num_ok (sign_of neg ++ map digit_char ip ++ dotted (bool_decide (fp ≠ [])) fp ++ s) = true.
Proof.
  intros (Hne & Hip & Hhd) Hfp Hs. destruct (exp_ok_valid s Hs) as (Hv & [Hnd Hpt] & Hn).
  unfold num_ok. apply andb_true_iff. split.
  - unfold valid_number.
    assert ((match sign_of neg ++ map digit_char ip ++ dotted (bool_decide (fp ≠ [])) fp ++ s with
             | [] => [] | c :: t => if decide (c = "-"%char) then t else
               sign_of neg ++ map digit_char ip ++ dotted (bool_decide (fp ≠ [])) fp ++ s end) =
            map digit_char ip ++ dotted (bool_decide (fp ≠ [])) fp ++ s) as ->.
    { destruct neg; [done|]. destruct ip as [|d ip]; [done|]. cbn [sign_of app map].
      rewrite decide_False; [done|]. apply Forall_cons in Hip as [Hd _].
      intros E. apply (f_equal char_digit) in E. by rewrite char_digit_char in E. }
    rewrite span_digits_app; [|done|].
    2:{ unfold dotted. case_bool_decide; [done|by simpl]. }
    assert (valid_fraction (dotted (bool_decide (fp ≠ [])) fp ++ s) = true) as Hf.
    { unfold dotted. case_bool_decide as Hb.
      - cbn [app valid_fraction]. rewrite decide_True by done. rewrite span_digits_app by done.
        by destruct fp.
      - cbn [app]. destruct s as [|c s]; [done|]. unfold valid_fraction. by rewrite decide_False. }
    destruct ip as [|d [|d' ip]]; [done|by destruct d|]. destruct d; [|done].
    destruct Hhd as [?|[]]; done.
  - rewrite !forallb_app, Hn, forallb_num_digits by done.
    assert (forallb num_char (dotted (bool_decide (fp ≠ [])) fp) = true) as ->.
    { unfold dotted. case_bool_decide; [|done]. cbn [forallb]. by rewrite forallb_num_digits. }
    by destruct neg.
Qed.

Lemma fmt_f_shape f :
  canonical f → ∃ ip fp, int_part_ok ip ∧ Forall (λ d, d < 10) fp ∧
    fmt_f f = map digit_char ip ++ dotted (bool_decide (fp ≠ [])) fp ++ [].
Proof.
  unfold int_part_ok.
  intros (Hd & Hh & _ & Hz & _). destruct f as [neg ds dp]; simpl in *. unfold fmt_f; simpl.
  destruct (Z.leb_spec dp 0) as [Hdp|Hdp].
  - destruct ds as [|d ds].
    { exists [0], []. split_and!; [done|forall_lia|by left|done|done]. }
    exists [0], (replicate (Z.to_nat (- dp)) 0 ++ d :: ds). split_and!; [done|forall_lia|by left| |].
    { apply Forall_app; split; [apply Forall_lt10_replicate|done]. }
    rewrite bool_decide_true by (by destruct (replicate (Z.to_nat (- dp)) 0)).
    unfold dotted. rewrite app_nil_r, map_app, zeros_map. done.
  - assert (Hne : ds ≠ []) by (intros ->; specialize (Hz eq_refl); lia).
    rewrite length_map. destruct (Nat.leb_spec (length ds) (Z.to_nat dp)) as [Hle|Hgt].
    + exists (ds ++ replicate (Z.to_nat dp - length ds) 0), []. split_and!.
      * by destruct ds.
      * apply Forall_app; split; [done|apply Forall_lt10_replicate].
      * right. by destruct ds.
      * done.
      * rewrite map_app, zeros_map, bool_decide_false by (intros H; by apply H).
        unfold dotted. by rewrite !app_nil_r.
    + exists (take (Z.to_nat dp) ds), (drop (Z.to_nat dp) ds). split_and!.
      * intros E. apply (f_equal length) in E. rewrite length_take in E. simpl in E. lia.
      * by apply Forall_take.
      * right. by rewrite lookup_take_lt by lia.
      * by apply Forall_drop.
      * rewrite bool_decide_true, firstn_map, skipn_map.
        { unfold dotted. by rewrite app_nil_r. }
        intros E. apply (f_equal length) in E. rewrite length_drop in E. simpl in E. lia.
Qed.

Lemma fmt_exponent_shape short e :
  (Z.abs e < 1000)%Z → exp_ok ("e"%char :: fmt_exponent short e).
Proof.
  intros He. right. unfold fmt_exponent. set (a := Z.to_nat (Z.abs e)).
  assert (Ha : a < 1000) by lia.
  assert (a / 10 mod 10 < 10) by (apply Nat.mod_upper_bound; lia).
  assert (a mod 10 < 10) by (apply Nat.mod_upper_bound; lia).
  assert (a / 100 < 10) by (apply Nat.Div0.div_lt_upper_bound; lia).
  assert (Hsg : ∃ sg, (if (e <? 0)%Z then "-"%char else "+"%char) = sg ∧ (sg = "-"%char ∨ sg = "+"%char)).
  { eexists; split; [done|]. destruct (e <? 0)%Z; auto. }
  destruct Hsg as (sg & -> & Hsg). exists sg.
  repeat case_decide.
  - destruct short; [exists [a]|exists [0; a]]; (split_and!; [done|done|forall_lia|done]).
  - assert (a / 10 < 10) by (apply Nat.Div0.div_lt_upper_bound; lia).
    exists [a / 10; a mod 10]; (split_and!; [done|done|forall_lia|done]).
  - exists [a / 100; a / 10 mod 10; a mod 10]; (split_and!; [done|done|forall_lia|done]).
Qed.

(** A float is written as a JSON number. *)
Lemma num_ok_fmt_json f : canonical f → num_ok (fmt_json f) = true.
Proof.
  intros Hc. unfold fmt_json. case_bool_decide as Hb.
  - destruct Hb as [Hne _]. pose proof Hc as (Hd & Hh & Hl & Hz & Hr).
    unfold fmt_e. destruct (f_digs f) as [|d ds] eqn:E; [done|].
    apply Forall_cons in Hd as [Hd Hds].
    replace (digit_char d :: _) with
      (map digit_char [d] ++ dotted (bool_decide (ds ≠ [])) ds ++ "e"%char :: fmt_exponent true (f_dp f - 1))
      by (by destruct ds).
    apply valid_number_shape; [|done|apply fmt_exponent_shape; lia].
    split_and!; [done|forall_lia|by left].
  - destruct (fmt_f_shape f Hc) as (ip & fp & Hip & Hfp & ->).
    apply valid_number_shape; [done|done|by left].
Qed.

Lemma num_ok_fmt_Z z : num_ok (fmt_Z z) = true.
Proof.
  unfold fmt_Z. destruct (fmt_N_digits (Z.abs_N z)) as (d & ds & -> & Hall & _ & Hz).
  pose proof (valid_number_shape (z <? 0)%Z (d :: ds) [] []) as H.
  unfold sign_of in H. unfold dotted in H. simpl in H. rewrite app_nil_r in H. apply H; [|done|by left].
  split_and!; [done|done|]. destruct d; [left; by rewrite Hz|by right].
Qed.

#[export] Hint Resolve num_ok_fmt_N num_ok_fmt_Z num_ok_fmt_json : scriva.
