(* ===== verification/Value.v ===== *)
(** * Decoded JSON values and record data

    The [any] values a decoded line holds ([nil], [bool], [float64], [string],
    [[]any], [map[string]any]), their [fmt] text ([%v]) and their conversion to
    and from JSON documents.  A nested map is a list of its entries in key
    order, so that equality of values is equality of Go's maps; a record's data
    is a [gmap]. *)
From Stdlib Require Import Ascii Lia ZArith.
From stdpp Require Import prelude gmap strings sorting.
From S2P Require Import Prelude GoNum Json.

(** ** Byte order of strings ([strings.Compare]) *)

Fixpoint bytes_cmp (a b : bytes) : comparison :=
  match a, b with
  | [], [] => Eq
  | [], _ :: _ => Lt
  | _ :: _, [] => Gt
  | x :: a', y :: b' =>
      match N.compare (N_of_ascii x) (N_of_ascii y) with
      | Eq => bytes_cmp a' b'
      | c => c
      end
  end.

Definition str_cmp (a b : string) : comparison := bytes_cmp (b_of_s a) (b_of_s b).
Definition str_ltb (a b : string) : bool := match str_cmp a b with Lt => true | _ => false end.

Lemma s_of_b_of_s s : s_of_b (b_of_s s) = s.
Proof. apply String.string_of_list_ascii_of_string. Qed.

Lemma b_of_s_of_b b : b_of_s (s_of_b b) = b.
Proof. apply String.list_ascii_of_string_of_list_ascii. Qed.

Lemma b_of_s_inj s t : b_of_s s = b_of_s t → s = t.
Proof. intros H. by rewrite <- (s_of_b_of_s s), H, s_of_b_of_s. Qed.

Lemma bytes_cmp_refl a : bytes_cmp a a = Eq.
Proof. induction a; simpl; [done|]. by rewrite N.compare_refl. Qed.

Lemma bytes_cmp_eq a b : bytes_cmp a b = Eq → a = b.
Proof.
  revert b. induction a as [|x a IH]; intros [|y b]; simpl; try done.
  destruct (N.compare_spec (N_of_ascii x) (N_of_ascii y)) as [E| |]; try done.
  intros H. f_equal; [|by apply IH].
  by rewrite <- (ascii_N_embedding x), E, ascii_N_embedding.
Qed.

Lemma bytes_cmp_antisym a b : bytes_cmp a b = CompOpp (bytes_cmp b a).
Proof.
  revert b. induction a as [|x a IH]; intros [|y b]; simpl; try done.
  rewrite (N.compare_antisym (N_of_ascii y)). destruct (N.compare _ _); simpl; auto.
Qed.

Lemma bytes_cmp_lt_trans a b c : bytes_cmp a b = Lt → bytes_cmp b c = Lt → bytes_cmp a c = Lt.
Proof.
  revert b c. induction a as [|x a IH]; intros [|y b] [|z c]; simpl; try done.
  destruct (N.compare_spec (N_of_ascii x) (N_of_ascii y)) as [E1|E1|E1];
  destruct (N.compare_spec (N_of_ascii y) (N_of_ascii z)) as [E2|E2|E2]; intros H1 H2; try done;
  destruct (N.compare_spec (N_of_ascii x) (N_of_ascii z)); try done; try lia.
  by eapply IH.
Qed.

Lemma str_cmp_refl a : str_cmp a a = Eq.
Proof. apply bytes_cmp_refl. Qed.

Lemma str_cmp_eq a b : str_cmp a b = Eq → a = b.
Proof. intros H. by apply b_of_s_inj, bytes_cmp_eq. Qed.

Lemma str_cmp_antisym a b : str_cmp a b = CompOpp (str_cmp b a).
Proof. apply bytes_cmp_antisym. Qed.

Lemma str_cmp_lt_trans a b c : str_cmp a b = Lt → str_cmp b c = Lt → str_cmp a c = Lt.
Proof. apply bytes_cmp_lt_trans. Qed.

Lemma str_ltb_total a b : str_ltb a b = false → str_ltb b a = false → a = b.
Proof.
  unfold str_ltb. rewrite (str_cmp_antisym b a).
  destruct (str_cmp a b) eqn:E; simpl; try done. intros. by apply str_cmp_eq.
Qed.

Lemma str_ltb_trans a b c : str_ltb a b = true → str_ltb b c = true → str_ltb a c = true.
Proof.
  unfold str_ltb. destruct (str_cmp a b) eqn:E1, (str_cmp b c) eqn:E2; try done.
  intros _ _. by rewrite (str_cmp_lt_trans a b c).
Qed.

Lemma str_ltb_irrefl a : str_ltb a a = false.
Proof. unfold str_ltb. by rewrite str_cmp_refl. Qed.

Lemma str_ltb_asym a b : str_ltb a b = true → str_ltb b a = false.
Proof.
  intros H. destruct (str_ltb b a) eqn:E; [|done].
  pose proof (str_ltb_trans _ _ _ H E) as Hc. by rewrite str_ltb_irrefl in Hc.
Qed.

Lemma str_ltb_strict_weak : strict_weak str_ltb.
Proof.
  split; [apply str_ltb_irrefl|apply str_ltb_trans|].
  intros a b c Hab Hbc. destruct (str_ltb a c) eqn:E; [|done].
  destruct (str_ltb b a) eqn:Eba.
  - pose proof (str_ltb_trans _ _ _ Eba E). congruence.
  - pose proof (str_ltb_total _ _ Hab Eba). congruence.
Qed.

(** ** Substrings *)

Fixpoint is_prefix (p s : bytes) : bool :=
  match p, s with
  | [], _ => true
  | c :: p', d :: s' => bool_decide (c = d) && is_prefix p' s'
  | _ :: _, [] => false
  end.

(** [strings.Contains] and [bytes.Contains]. *)
Fixpoint contains (s sub : bytes) : bool :=
  is_prefix sub s || match s with [] => false | _ :: s' => contains s' sub end.

Lemma is_prefix_app p s : is_prefix p (p ++ s) = true.
Proof. induction p as [|c p IH]; simpl; [done|]. by rewrite bool_decide_true. Qed.

Lemma contains_app p sub q : contains (p ++ sub ++ q) sub = true.
Proof.
  induction p as [|c p IH].
  - cbn [app]. destruct (sub ++ q) eqn:E; cbn [contains]; rewrite <- E, is_prefix_app; done.
  - cbn [app contains]. rewrite IH. apply orb_true_r.
Qed.

(** ** Values *)

(** Numbers are [float64], as decoding JSON yields them; an [int64] beyond 2^53 handed
    to the embedded API is not one. *)
Inductive value : Type :=
| VNull
| VBool (b : bool)
| VNum (f : float64)
| VStr (s : string)
| VArr (l : list value)
| VObj (l : list (string * value)).

Section value_ind.
Variable P : value → Prop.
Hypothesis HNull : P VNull.
Hypothesis HBool : ∀ b, P (VBool b).
Hypothesis HNum : ∀ f, P (VNum f).
Hypothesis HStr : ∀ s, P (VStr s).
Hypothesis HArr : ∀ l, Forall P l → P (VArr l).
Hypothesis HObj : ∀ l, Forall (λ kv, P kv.2) l → P (VObj l).

Fixpoint value_ind' (v : value) : P v :=
  match v with
  | VNull => HNull
  | VBool b => HBool b
  | VNum f => HNum f
  | VStr s => HStr s
  | VArr l =>
      HArr l ((fix go l := match l return Forall P l with
                           | [] => List.Forall_nil _
                           | x :: l' => @List.Forall_cons _ P x l' (value_ind' x) (go l')
                           end) l)
  | VObj l =>
      HObj l ((fix go l := match l return Forall (λ kv, P kv.2) l with
                           | [] => List.Forall_nil _
                           | x :: l' => @List.Forall_cons _ (λ kv, P kv.2) x l' (value_ind' x.2) (go l')
                           end) l)
  end.
End value_ind.

Abbreviation vdata := (gmap string value).

(** [fmt.Sprintf("%v", v)]. *)
Fixpoint fmt_v (v : value) : bytes :=
  match v with
  | VNull => b_of_s "<nil>"
  | VBool true => b_of_s "true"
  | VBool false => b_of_s "false"
  | VNum f => fmt_g f
  | VStr s => b_of_s s
  | VArr l => "["%char :: sep_by " "%char (map fmt_v l) ++ ["]"%char]
  | VObj l =>
      b_of_s "map[" ++ sep_by " "%char (map (λ kv, b_of_s kv.1 ++ ":"%char :: fmt_v kv.2) l) ++ ["]"%char]
  end.

(** ** Conversion to and from documents *)

Fixpoint value_to_json (v : value) : json :=
  match v with
  | VNull => JNull
  | VBool b => JBool b
  | VNum f => JNum (fmt_json f)
  | VStr s => JStr (b_of_s s)
  | VArr l => JArr (map value_to_json l)
  | VObj l => JObj (map (λ kv, (b_of_s kv.1, value_to_json kv.2)) l)
  end.

(** Assignment to a key of a nested map. *)
Fixpoint obj_set (k : string) (v : value) (l : list (string * value)) : list (string * value) :=
  match l with
  | [] => [(k, v)]
  | (k', v') :: l' =>
      match str_cmp k k' with
      | Lt => (k, v) :: l
      | Eq => (k, v) :: l'
      | Gt => (k', v') :: obj_set k v l'
      end
  end.

(** [ParseFloat]'s range: an overflow is an error, an underflow is zero. *)
Definition float_of_literal (lit : bytes) : option float64 :=
  match parse_float lit with
  | Some f =>
      if (309 <? f_dp f)%Z then None
      else if (f_dp f <? -323)%Z then Some (MkF (f_neg f) [] 0) else Some f
  | None => None
  end.

Fixpoint value_of_json (j : json) : option value :=
  match j with
  | JNull => Some VNull
  | JBool b => Some (VBool b)
  | JNum lit => VNum <$> float_of_literal lit
  | JStr s => Some (VStr (s_of_b s))
  | JArr l => VArr <$> mapM value_of_json l
  | JObj l =>
      (λ kvs, VObj (foldl (λ acc kv, obj_set kv.1 kv.2 acc) [] kvs)) <$>
      mapM (λ kv, pair (s_of_b kv.1) <$> value_of_json kv.2) l
  end.

Definition key_ltb {A} (x y : string * A) : bool := str_ltb x.1 y.1.

(** A map's entries in key order, as [json.Marshal] writes them. *)
Definition sorted_items (m : vdata) : list (string * value) := ssort key_ltb (map_to_list m).

Definition data_to_json (m : vdata) : json :=
  JObj (map (λ kv, (b_of_s kv.1, value_to_json kv.2)) (sorted_items m)).

(** Decoding an object into a [map[string]any] that may already have entries. *)
Definition data_of_members (m : vdata) (l : list (bytes * json)) : option vdata :=
  foldl (λ m kv, <[kv.1 := kv.2]> m) m <$> mapM (λ kv, pair (s_of_b kv.1) <$> value_of_json kv.2) l.

(** ** Well-formed values *)

Fixpoint strictly_sorted (l : list (string * value)) : bool :=
  match l with
  | [] => true
  | (k, _) :: l' => forallb (λ kv, str_ltb k kv.1) l' && strictly_sorted l'
  end.

(** A Go string that is UTF-8: [encoding/json] writes and reads it unchanged. *)
Definition str_utf8 (s : string) : Prop := utf8_valid (b_of_s s) = true.

(** Values as decoding yields them: numbers are float64 in their shortest form,
    the members of an object are sorted, strings and names are UTF-8. *)
Fixpoint value_wf (v : value) : Prop :=
  match v with
  | VNum f => canonical f
  | VStr s => str_utf8 s
  | VArr l => foldr (λ x P, value_wf x ∧ P) True l
  | VObj l => strictly_sorted l = true ∧ foldr (λ kv P, (str_utf8 kv.1 ∧ value_wf kv.2) ∧ P) True l
  | _ => True
  end.

Definition data_wf (m : vdata) : Prop := map_Forall (λ k v, str_utf8 k ∧ value_wf v) m.

Lemma value_wf_arr l : value_wf (VArr l) ↔ Forall value_wf l.
Proof.
  simpl. induction l as [|x l IH]; simpl; [done|]. by rewrite IH, Forall_cons.
Qed.

Lemma value_wf_obj l :
  value_wf (VObj l) ↔ strictly_sorted l = true ∧ Forall (λ kv, str_utf8 kv.1 ∧ value_wf kv.2) l.
Proof.
  simpl. f_equiv. induction l as [|x l IH]; simpl; [done|]. by rewrite IH, Forall_cons.
Qed.

Lemma float_of_fmt_json f : canonical f → float_of_literal (fmt_json f) = Some f.
Proof.
  intros Hc. unfold float_of_literal. rewrite parse_fmt_json by done.
  destruct Hc as (_ & _ & _ & _ & Hr).
  destruct (Z.ltb_spec 309 (f_dp f)); [lia|]. by destruct (Z.ltb_spec (f_dp f) (-323)); [lia|].
Qed.

Lemma obj_set_snoc k v l :
  Forall (λ kv, str_ltb kv.1 k = true) l → obj_set k v l = l ++ [(k, v)].
Proof.
  induction 1 as [|[k' v'] l Hk _ IH]; simpl; [done|]. unfold str_ltb in Hk. simpl in Hk.
  rewrite str_cmp_antisym. destruct (str_cmp k' k); try done. simpl. by rewrite IH.
Qed.

Lemma obj_set_sorted l1 l2 :
  strictly_sorted (l1 ++ l2) = true →
  foldl (λ acc kv, obj_set kv.1 kv.2 acc) l1 l2 = l1 ++ l2.
Proof.
  revert l1. induction l2 as [|[k v] l2 IH]; intros l1 Hs; simpl; [by rewrite app_nil_r|].
  rewrite obj_set_snoc.
  - rewrite IH; by rewrite <- app_assoc.
  - clear IH. induction l1 as [|[k' v'] l1 IH]; [constructor|]. simpl in Hs.
    apply andb_true_iff in Hs as [Hall Hs]. rewrite forallb_app in Hall.
    apply andb_true_iff in Hall as [_ Hall]. simpl in Hall. apply andb_true_iff in Hall as [Hk _].
    constructor; [done|]. by apply IH.
Qed.

Lemma mapM_members_spec (l : list (string * value)) :
  Forall (λ kv, value_of_json (value_to_json kv.2) = Some kv.2) l →
  mapM (λ kv : bytes * json, pair (s_of_b kv.1) <$> value_of_json kv.2)
    (map (λ kv, (b_of_s kv.1, value_to_json kv.2)) l) = Some l.
Proof.
  intros H. apply mapM_Some_2. induction H as [|[k v] l Hv _ IH]; simpl; constructor; [|done].
  simpl in *. by rewrite Hv, s_of_b_of_s.
Qed.

(** A value written to JSON and decoded again is the same value. *)
Lemma value_json_roundtrip v : value_wf v → value_of_json (value_to_json v) = Some v.
Proof.
  induction v as [|b|f|s|l IH|l IH] using value_ind'; intros Hwf; cbn [value_to_json value_of_json].
  - done.
  - done.
  - by rewrite float_of_fmt_json.
  - by rewrite s_of_b_of_s.
  - rewrite value_wf_arr in Hwf.
    rewrite (mapM_Some_2 _ _ l); [done|].
    induction IH as [|x l Hx _ IHl]; simpl; [constructor|]. apply Forall_cons in Hwf as [? ?].
    constructor; auto.
  - rewrite value_wf_obj in Hwf. destruct Hwf as [Hs Hwf].
    rewrite mapM_members_spec.
    + simpl. by rewrite (obj_set_sorted []).
    + rewrite Forall_forall in *. intros kv Hkv. apply IH; [done|by apply Hwf].
Qed.

Lemma sorted_items_perm m : sorted_items m ≡ₚ map_to_list m.
Proof. apply ssort_perm. Qed.

Lemma foldl_insert_list_to_map (l : list (string * value)) (m : vdata) :
  NoDup l.*1 → foldl (λ m kv, <[kv.1 := kv.2]> m) m l = list_to_map l ∪ m.
Proof.
  revert m. induction l as [|[k v] l IH]; intros m Hnd; simpl; [by rewrite (left_id_L ∅ _)|].
  apply NoDup_cons in Hnd as [Hk Hnd]. rewrite IH by done.
  rewrite <- insert_union_l, <- insert_union_r; [done|]. by apply not_elem_of_list_to_map.
Qed.

(** A record's data written to JSON and decoded into a fresh map. *)
Lemma data_json_roundtrip m :
  data_wf m →
  data_of_members ∅ (map (λ kv, (b_of_s kv.1, value_to_json kv.2)) (sorted_items m)) = Some m.
Proof.
  intros Hwf. unfold data_of_members. rewrite mapM_members_spec.
  - simpl. f_equal. rewrite foldl_insert_list_to_map.
    + rewrite (right_id_L ∅ _). rewrite (list_to_map_proper _ (map_to_list m)).
      * apply list_to_map_to_list.
      * rewrite sorted_items_perm. apply NoDup_fst_map_to_list.
      * apply sorted_items_perm.
    + rewrite sorted_items_perm. apply NoDup_fst_map_to_list.
  - rewrite sorted_items_perm. apply Forall_forall. intros [k v] Hin%elem_of_map_to_list.
    apply value_json_roundtrip. by apply (Hwf k v).
Qed.

Lemma value_to_json_ok v : value_wf v → json_ok (value_to_json v) = true.
Proof.
  induction v as [|b|f|s|l IH|l IH] using value_ind'; intros Hwf; cbn [value_to_json json_ok]; try done.
  - by apply num_ok_fmt_json.
  - rewrite value_wf_arr in Hwf. rewrite forallb_forall. intros x (v & <- & Hin)%in_map_iff.
    apply list_elem_of_In in Hin. rewrite Forall_forall in *. auto.
  - rewrite value_wf_obj in Hwf. destruct Hwf as [_ Hwf].
    rewrite forallb_forall. intros x (v & <- & Hin)%in_map_iff.
    apply list_elem_of_In in Hin. rewrite Forall_forall in *. simpl. apply IH; [done|by apply Hwf].
Qed.

Lemma data_to_json_ok m : data_wf m → json_ok (data_to_json m) = true.
Proof.
  intros Hwf. cbn [data_to_json json_ok]. rewrite forallb_forall.
  intros x ([k v] & <- & Hin)%in_map_iff. apply list_elem_of_In in Hin.
  rewrite sorted_items_perm in Hin. apply elem_of_map_to_list in Hin.
  apply value_to_json_ok. by apply (Hwf k v).
Qed.

Lemma value_to_json_utf8 v : value_wf v → json_utf8 (value_to_json v) = true.
Proof.
  induction v as [|b|f|s|l IH|l IH] using value_ind'; intros Hwf; cbn [value_to_json json_utf8]; try done.
  - rewrite value_wf_arr in Hwf. rewrite forallb_forall. intros x (v & <- & Hin)%in_map_iff.
    apply list_elem_of_In in Hin. rewrite Forall_forall in *. auto.
  - rewrite value_wf_obj in Hwf. destruct Hwf as [_ Hwf].
    rewrite forallb_forall. intros x (v & <- & Hin)%in_map_iff.
    apply list_elem_of_In in Hin. rewrite Forall_forall in *. cbn [fst snd].
    destruct (Hwf _ Hin) as [H1 H2]. apply andb_true_iff. split; [exact H1|by apply IH].
Qed.

Lemma data_to_json_utf8 m : data_wf m → json_utf8 (data_to_json m) = true.
Proof.
  intros Hwf. cbn [data_to_json json_utf8]. rewrite forallb_forall.
  intros x ([k v] & <- & Hin)%in_map_iff. apply list_elem_of_In in Hin.
  rewrite sorted_items_perm in Hin. apply elem_of_map_to_list in Hin.
  destruct (Hwf k v Hin) as [H1 H2]. apply andb_true_iff. split; [exact H1|by apply value_to_json_utf8].
Qed.

#[export] Hint Resolve value_to_json_ok data_to_json_ok value_to_json_utf8 data_to_json_utf8 : scriva.
