(* ===== verification/GoTime.v ===== *)
(** * Timestamps: [time.Time] and its RFC 3339 text

    A [time.Time] is represented by the calendar fields [MarshalJSON] writes:
    date, time of day, the significant digits of the nanoseconds and the zone
    offset in minutes.  The engine never computes with the timestamp of an
    entry; it only carries it between the line and the watchers. *)
From Stdlib Require Import Ascii Lia ZArith.
From stdpp Require Import prelude gmap strings sorting.
From S2P Require Import Prelude GoNum Json.

Record time : Type := MkTime {
  tm_year : nat; tm_month : nat; tm_day : nat;
  tm_hour : nat; tm_min : nat; tm_sec : nat;
  tm_frac : list nat;   (* nanosecond digits, trailing zeros dropped *)
  tm_off : Z            (* zone offset in minutes; 0 is UTC *)
}.

#[global] Instance time_eq_dec : EqDecision time.
Proof. solve_decision. Defined.

(** The zero [time.Time]: 0001-01-01T00:00:00Z. *)
Definition zero_time : time := MkTime 1 1 1 0 0 0 [] 0.

Definition leap (y : nat) : bool :=
  bool_decide (y mod 4 = 0 ∧ (y mod 100 ≠ 0 ∨ y mod 400 = 0)).

Definition days_in (m y : nat) : nat :=
  if decide (m = 2) then if leap y then 29 else 28
  else if decide (m = 4 ∨ m = 6 ∨ m = 9 ∨ m = 11) then 30 else 31.

Definition time_wf (t : time) : Prop :=
  tm_year t < 100 * 100 ∧ 1 ≤ tm_month t ≤ 12 ∧ 1 ≤ tm_day t ≤ days_in (tm_month t) (tm_year t) ∧
  tm_hour t < 24 ∧ tm_min t < 60 ∧ tm_sec t < 60 ∧
  Forall (λ d, d < 10) (tm_frac t) ∧ length (tm_frac t) ≤ 9 ∧ last (tm_frac t) ≠ Some 0 ∧
  (Z.abs (tm_off t) < 24 * 60)%Z.

Definition two (n : nat) : bytes := [digit_char (n / 10); digit_char (n mod 10)].

Definition fmt_zone (off : Z) : bytes :=
  if (off =? 0)%Z then ["Z"%char]
  else let a := Z.to_nat (Z.abs off) in
       (if (off <? 0)%Z then "-"%char else "+"%char) :: two (a / 60) ++ ":"%char :: two (a mod 60).

Definition fmt_frac (ds : list nat) : bytes :=
  match ds with [] => [] | _ => "."%char :: map digit_char ds end.

(** [t.Format(time.RFC3339Nano)]. *)
Definition fmt_time (t : time) : bytes :=
  two (tm_year t / 100) ++ two (tm_year t mod 100) ++ "-"%char ::
  two (tm_month t) ++ "-"%char :: two (tm_day t) ++ "T"%char ::
  two (tm_hour t) ++ ":"%char :: two (tm_min t) ++ ":"%char :: two (tm_sec t) ++
  fmt_frac (tm_frac t) ++
  fmt_zone (tm_off t).

(** [parseUint(s, lo, hi)] on two digits, and the byte expected after it. *)
Definition get2 (s : bytes) : option (nat * bytes) :=
  match s with
  | a :: b :: r =>
      match char_digit a, char_digit b with
      | Some x, Some y => Some (10 * x + y, r)
      | _, _ => None
      end
  | _ => None
  end.

Definition expect (c : ascii) (s : bytes) : option bytes :=
  match s with
  | d :: r => if decide (d = c) then Some r else None
  | [] => None
  end.

Definition parse_offset (sg : ascii) (r : bytes) : option Z :=
  h ← get2 r; r2 ← expect ":" h.2; m ← get2 r2;
  if decide (m.2 = [] ∧ h.1 < 24 ∧ m.1 < 60) then
    let o := Z.of_nat (h.1 * 60 + m.1) in
    if decide (sg = "-"%char) then Some (- o)%Z
    else if decide (sg = "+"%char) then Some o else None
  else None.

Definition parse_zone (s : bytes) : option Z :=
  match s with
  | [] => None
  | [c] => if decide (c = "Z"%char) then Some 0%Z else None
  | sg :: r => parse_offset sg r
  end.

Definition parse_frac (s : bytes) : list nat * bytes :=
  match s with
  | c :: r =>
      if decide (c = "."%char) then
        match span_digits r with
        | ([], _) => ([], s)
        | (ds, r') => (strip_trailing (take 9 ds), r')
        end
      else ([], s)
  | [] => ([], [])
  end.

(** [parseRFC3339], the strict form [Time.UnmarshalJSON] tries first. *)
Definition parse_time (s : bytes) : option time :=
  y1 ← get2 s; y2 ← get2 y1.2; r1 ← expect "-" y2.2;
  mo ← get2 r1; r2 ← expect "-" mo.2;
  d ← get2 r2; r3 ← expect "T" d.2;
  h ← get2 r3; r4 ← expect ":" h.2;
  mi ← get2 r4; r5 ← expect ":" mi.2;
  se ← get2 r5;
  let fr := parse_frac se.2 in
  off ← parse_zone fr.2;
  let y := 100 * y1.1 + y2.1 in
  if decide (1 ≤ mo.1 ≤ 12 ∧ 1 ≤ d.1 ≤ days_in mo.1 y ∧ h.1 < 24 ∧ mi.1 < 60 ∧ se.1 < 60)
  then Some (MkTime y mo.1 d.1 h.1 mi.1 se.1 fr.1 off) else None.

Arguments get2 : simpl never.
Arguments expect : simpl never.
Arguments parse_zone : simpl never.
Arguments two : simpl never.
Arguments days_in : simpl never.

Lemma get2_two n s : n < 100 → get2 (two n ++ s) = Some (n, s).
Proof.
  intros Hn. unfold two, get2. cbn [app].
  rewrite !char_digit_char; [|apply Nat.mod_upper_bound; lia|apply Nat.Div0.div_lt_upper_bound; lia].
  f_equal. f_equal. symmetry. apply Nat.div_mod. lia.
Qed.

Lemma expect_same c s : expect c (c :: s) = Some s.
Proof. unfold expect. by rewrite decide_True. Qed.

Lemma parse_fmt_zone off : (Z.abs off < 24 * 60)%Z → parse_zone (fmt_zone off) = Some off.
Proof.
  intros Ho. unfold fmt_zone. destruct (Z.eqb_spec off 0) as [->|Hnz]; [done|].
  set (a := Z.to_nat (Z.abs off)).
  assert (Ha : a / 60 < 24) by (apply Nat.Div0.div_lt_upper_bound; lia).
  assert (Hm : a mod 60 < 60) by (apply Nat.mod_upper_bound; lia).
  assert (Hlen : ∀ sg, parse_zone (sg :: two (a / 60) ++ ":"%char :: two (a mod 60)) =
     if decide (sg = "-"%char) then Some (- Z.of_nat a)%Z
     else if decide (sg = "+"%char) then Some (Z.of_nat a) else None).
  { intros sg. transitivity (parse_offset sg (two (a / 60) ++ ":"%char :: two (a mod 60))); [done|].
    unfold parse_offset. rewrite get2_two by lia. cbn [mbind option_bind fst snd].
    rewrite expect_same. cbn [mbind option_bind].
    rewrite <- (app_nil_r (two (a mod 60))), get2_two by lia. cbn [mbind option_bind fst snd].
    rewrite decide_True by done.
    replace (a / 60 * 60 + a mod 60) with a
      by (pose proof (Nat.div_mod a 60 ltac:(lia)); lia).
    done. }
  rewrite Hlen. subst a.
  destruct (Z.ltb_spec off 0); [rewrite decide_True by done|rewrite decide_False, decide_True by done];
    f_equal; lia.
Qed.

Lemma strip_trailing_last ds : last ds ≠ Some 0 → strip_trailing ds = ds.
Proof.
  induction ds as [|d ds IH]; intros Hl; [done|]. cbn [strip_trailing].
  destruct ds as [|d' ds].
  - simpl in *. by destruct d.
  - rewrite IH by done. done.
Qed.

Lemma fmt_zone_head off : ∃ c t, fmt_zone off = c :: t ∧ char_digit c = None ∧ c ≠ "."%char.
Proof.
  unfold fmt_zone. destruct (off =? 0)%Z; [by eexists _, _|].
  destruct (off <? 0)%Z; by eexists _, _.
Qed.

Lemma parse_fmt_frac ds off :
  Forall (λ d, d < 10) ds → length ds ≤ 9 → last ds ≠ Some 0 →
  parse_frac (fmt_frac ds ++ fmt_zone off) = (ds, fmt_zone off).
Proof.
  intros Hd Hlen Hl. destruct (fmt_zone_head off) as (c & t & Hz & Hc & Hp).
  destruct ds as [|d ds].
  - cbn [fmt_frac app]. rewrite Hz. unfold parse_frac. by rewrite decide_False.
  - cbn [fmt_frac app parse_frac]. rewrite decide_True by done.
    rewrite span_digits_app; [|done|by rewrite Hz].
    rewrite take_ge by done. by rewrite strip_trailing_last.
Qed.

(** The text of a timestamp is ASCII. *)
Lemma digit_ascii d : d < 10 → in_range 0 127 (digit_char d) = true.
Proof. do 10 (destruct d as [|d]; [done|]). lia. Qed.

Lemma two_utf8 n s : n < 100 → utf8 s → utf8 (two n ++ s).
Proof.
  intros Hn Hs. unfold two. cbn [app]. apply utf8_one; [apply digit_ascii, Nat.Div0.div_lt_upper_bound; lia|].
  apply utf8_one; [apply digit_ascii, Nat.mod_upper_bound; lia|done].
Qed.

Lemma fmt_zone_utf8 off : (Z.abs off < 24 * 60)%Z → utf8 (fmt_zone off).
Proof.
  intros Ho. unfold fmt_zone. destruct (off =? 0)%Z; [apply utf8_one; [done|constructor]|].
  set (a := Z.to_nat (Z.abs off)).
  apply utf8_one; [by destruct (off <? 0)%Z|]. apply two_utf8; [apply Nat.Div0.div_lt_upper_bound; lia|].
  apply utf8_one; [done|]. rewrite <- (app_nil_r (two _)). apply two_utf8; [|constructor].
  pose proof (Nat.mod_upper_bound a 60 ltac:(lia)). lia.
Qed.

Lemma fmt_time_utf8 t : time_wf t → utf8_valid (fmt_time t) = true.
Proof.
  intros (Hy & Hmo & Hd & Hh & Hmi & Hs & Hf1 & Hf2 & Hf3 & Ho). apply utf8_valid_spec.
  assert (Hd31 : tm_day t ≤ 31) by (revert Hd; unfold days_in; repeat case_decide; try destruct (leap (tm_year t)); lia).
  pose proof (Nat.mod_upper_bound (tm_year t) 100 ltac:(lia)).
  assert (tm_year t / 100 < 100) by (apply Nat.Div0.div_lt_upper_bound; lia).
  unfold fmt_time. do 2 (apply two_utf8; [lia|]). do 2 (apply utf8_one; [done|]; apply two_utf8; [lia|]).
  do 3 (apply utf8_one; [done|]; apply two_utf8; [lia|]).
  apply utf8_app; [|by apply fmt_zone_utf8]. unfold fmt_frac. destruct (tm_frac t) as [|d ds]; [constructor|].
  apply utf8_one; [done|]. apply utf8_ascii. rewrite Forall_map. eapply Forall_impl; [exact Hf1|]. apply digit_ascii.
Qed.

(** The timestamp of an entry survives the line. *)
Lemma parse_fmt_time t : time_wf t → parse_time (fmt_time t) = Some t.
Proof.
  intros (Hy & Hmo & Hd & Hh & Hmi & Hs & Hf1 & Hf2 & Hf3 & Ho).
  destruct t as [y mo d h mi s fr off]; simpl in *.
  assert (Hd31 : d ≤ 31) by (revert Hd; unfold days_in; repeat case_decide; destruct (leap y); lia).
  assert (y / 100 < 100) by (apply Nat.Div0.div_lt_upper_bound; lia).
  assert (y mod 100 < 100) by (apply Nat.mod_upper_bound; lia).
  assert (Ey : 100 * (y / 100) + y mod 100 = y) by (symmetry; apply Nat.div_mod; lia).
  unfold parse_time, fmt_time. cbn [tm_year tm_month tm_day tm_hour tm_min tm_sec tm_frac tm_off].
  rewrite get2_two by lia. cbn [mbind option_bind fst snd].
  do 5 (rewrite get2_two by lia; cbn [mbind option_bind fst snd];
        rewrite expect_same; cbn [mbind option_bind]).
  rewrite get2_two by lia. cbn [mbind option_bind fst snd].
  rewrite parse_fmt_frac by done. cbn [fst snd]. rewrite parse_fmt_zone by done. cbn [mbind option_bind].
  rewrite Ey. by rewrite decide_True.
Qed.

Lemma zero_time_wf : time_wf zero_time.
Proof. unfold time_wf; simpl; split_and!; try (vm_compute; lia); try done; by constructor. Qed.

(** ** The calendar time of a clock reading

    [time.Unix(0, n).UTC()] for a non-negative reading [n] in nanoseconds: the
    years from 1970 and then the months are counted off. *)

Definition year_days (y : nat) : Z := if leap y then 366 else 365.

Fixpoint find_year (fuel : nat) (y : nat) (d : Z) : nat * Z :=
  match fuel with
  | 0 => (y, d)
  | S fuel' => if (d <? year_days y)%Z then (y, d) else find_year fuel' (S y) (d - year_days y)
  end.

Fixpoint find_month (fuel : nat) (y m : nat) (d : Z) : nat * Z :=
  match fuel with
  | 0 => (m, d)
  | S fuel' =>
      let n := Z.of_nat (days_in m y) in
      if (d <? n)%Z then (m, d) else find_month fuel' y (S m) (d - n)
  end.

Definition nano_digits (n : Z) : list nat :=
  map (λ k, Z.to_nat ((n / 10 ^ Z.of_nat (8 - k)) mod 10)) (seq 0 9).

Definition time_of_nanos (n : Z) : time :=
  let secs := (n / 1000000000)%Z in
  let '(y, d) := find_year 300 1970 (secs / 86400) in
  let '(m, d) := find_month 11 y 1 d in
  let s := (secs mod 86400)%Z in
  MkTime y m (Z.to_nat d + 1) (Z.to_nat (s / 3600)) (Z.to_nat (s / 60 mod 60)) (Z.to_nat (s mod 60))
    (strip_trailing (nano_digits (n mod 1000000000))) 0.

Lemma year_days_bounds y : (365 ≤ year_days y ≤ 366)%Z.
Proof. unfold year_days. destruct (leap y); lia. Qed.

Lemma find_year_spec fuel y d :
  (0 ≤ d < 365 * Z.of_nat fuel)%Z →
  let r := find_year fuel y d in (0 ≤ r.2 < year_days r.1)%Z ∧ r.1 < y + fuel.
Proof.
  revert y d. induction fuel as [|fuel IH]; intros y d Hd; [lia|]. cbn [find_year].
  destruct (Z.ltb_spec d (year_days y)); simpl; [lia|].
  pose proof (year_days_bounds y). destruct (IH (S y) (d - year_days y)%Z) as [H1 H2]; [lia|].
  split; [done|]. lia.
Qed.

Fixpoint month_sum (fuel : nat) (y m : nat) : nat :=
  match fuel with
  | 0 => days_in m y
  | S fuel' => days_in m y + month_sum fuel' y (S m)
  end.

Lemma find_month_gen fuel y m d :
  (0 ≤ d < Z.of_nat (month_sum fuel y m))%Z →
  let r := find_month fuel y m d in
  (0 ≤ r.2 < Z.of_nat (days_in r.1 y))%Z ∧ m ≤ r.1 ≤ m + fuel.
Proof.
  revert m d. induction fuel as [|fuel IH]; intros m d Hd; cbn [find_month month_sum] in *.
  { cbn [fst snd]. split; [done|lia]. }
  destruct (Z.ltb_spec d (Z.of_nat (days_in m y))); cbn [fst snd]; [split; lia|].
  destruct (IH (S m) (d - Z.of_nat (days_in m y))%Z) as [H1 H2]; [lia|]. split; [done|lia].
Qed.

Lemma month_sum_year y : Z.of_nat (month_sum 11 y 1) = year_days y.
Proof. cbn [month_sum]. unfold days_in, year_days. by destruct (leap y). Qed.

Lemma find_month_spec y d :
  (0 ≤ d < year_days y)%Z →
  let r := find_month 11 y 1 d in (0 ≤ r.2 < Z.of_nat (days_in r.1 y))%Z ∧ 1 ≤ r.1 ≤ 12.
Proof. rewrite <- month_sum_year. apply find_month_gen. Qed.

Lemma strip_trailing_spec ds :
  length (strip_trailing ds) ≤ length ds ∧ last (strip_trailing ds) ≠ Some 0 ∧
  (∀ P : nat → Prop, Forall P ds → Forall P (strip_trailing ds)).
Proof.
  induction ds as [|d ds (IH1 & IH2 & IH3)]; [done|]. cbn [strip_trailing].
  destruct (strip_trailing ds) as [|d' ds'] eqn:E.
  - destruct d; simpl; (split_and!; [lia|done|]); intros P [H1 H2]%Forall_cons; [constructor|].
    by repeat constructor.
  - split_and!; [simpl in *; lia|done|]. intros P [H1 H2]%Forall_cons. constructor; auto.
Qed.

Lemma nano_digits_lt n : Forall (λ d, d < 10) (nano_digits n).
Proof.
  unfold nano_digits. apply Forall_map, Forall_forall. intros k _. simpl.
  pose proof (Z.mod_pos_bound (n / 10 ^ Z.of_nat (8 - k)) 10). lia.
Qed.

(** A reading of an [int64] nanosecond clock is a time the encoder accepts. *)
Lemma time_of_nanos_wf n : (0 ≤ n < two63)%Z → time_wf (time_of_nanos n).
Proof.
  unfold two63. intros Hn. unfold time_of_nanos.
  set (secs := (n / 1000000000)%Z).
  assert (0 ≤ secs < 9223372037)%Z.
  { subst secs. split; [apply Z.div_pos; lia|apply Z.div_lt_upper_bound; lia]. }
  assert (0 ≤ secs / 86400 < 365 * Z.of_nat 300)%Z as Hd.
  { split; [apply Z.div_pos; lia|apply Z.div_lt_upper_bound; lia]. }
  destruct (find_year_spec 300 1970 (secs / 86400) Hd) as [Hy1 Hy2].
  destruct (find_year 300 1970 (secs / 86400)) as [y d]. cbn [fst snd] in *.
  destruct (find_month_spec y d Hy1) as [Hm1 Hm2].
  destruct (find_month 11 y 1 d) as [m d']. cbn [fst snd] in *.
  pose proof (Z.mod_pos_bound secs 86400 ltac:(lia)).
  assert (0 ≤ secs mod 86400 / 3600 < 24)%Z
    by (split; [apply Z.div_pos; lia|apply Z.div_lt_upper_bound; lia]).
  pose proof (Z.mod_pos_bound (secs mod 86400 / 60) 60 ltac:(lia)).
  pose proof (Z.mod_pos_bound (secs mod 86400) 60 ltac:(lia)).
  pose proof (strip_trailing_spec (nano_digits (n mod 1000000000))) as (Hl & Hz & HP).
  unfold time_wf.
  cbn [tm_year tm_month tm_day tm_hour tm_min tm_sec tm_frac tm_off].
  split_and!; try lia.
  - apply HP, nano_digits_lt.
  - etransitivity; [exact Hl|]. unfold nano_digits. by rewrite length_map.
  - done.
Qed.

(** Examples: the epoch, a leap day, and the last reading of the clock. *)
Example time_epoch : time_of_nanos 0 = MkTime 1970 1 1 0 0 0 [] 0.
Proof. reflexivity. Qed.
Example time_leap_day : time_of_nanos 1709251199500000000 = MkTime 2024 2 29 23 59 59 [5] 0.
Proof. vm_compute. reflexivity. Qed.
