(* ===== verification/Store.v ===== *)
(** * Segment lines: [store/ndjson.go]

    The entry of a segment line, its CRC32C checksum, [Encode] and [Decode] at
    the level of bytes. *)
From Stdlib Require Import Ascii Lia ZArith.
From stdpp Require Import prelude gmap strings sorting.
From S2P Require Import Prelude GoNum Json Value GoTime.

(** ** CRC32C ([hash/crc32], Castagnoli polynomial, reflected) *)

Definition castagnoli : N := 2197175160.
Definition mask32 : N := 4294967295.

Definition crc_bit (c : N) : N :=
  if N.odd c then N.lxor (N.shiftr c 1) castagnoli else N.shiftr c 1.

Definition crc_byte (c : N) (b : ascii) : N :=
  Nat.iter 8 crc_bit (N.lxor c (N_of_ascii b)).

Definition crc_update (c : N) (s : bytes) : N := foldl crc_byte c s.

Definition crc32c (s : bytes) : N := N.lxor (crc_update mask32 s) mask32.

(** ** Entries *)

Definition OpInsert : string := "insert".
Definition OpUpdate : string := "update".
Definition OpDelete : string := "delete".

Record Entry : Type := MkEntry {
  ID : Z;
  Op : string;
  Ts : time;
  Rev : Z;
  Data : option vdata;     (* None is Go's nil map *)
  Epoch : Z;
  ExpiresAt : Z;
  CRC : option N
}.

Definition zero_entry : Entry := MkEntry 0 "" zero_time 0 None 0 0 None.

Inductive store_err : Type :=
| ErrSyntax                    (* the error of json.Unmarshal *)
| ErrCorruptEntry (id : Z).

(** [binary.LittleEndian.PutUint64]. *)
Definition le64 (z : Z) : bytes :=
  map (λ k, ascii_of_N (Z.to_N ((u64 z / 2 ^ (8 * Z.of_nat k)) mod 256))) (seq 0 8).

Definition checksum_input (e : Entry) : bytes :=
  le64 (ID e) ++ b_of_s (Op e) ++
  (if (Rev e =? 0)%Z then [] else le64 (Rev e)) ++
  (if (ExpiresAt e =? 0)%Z then [] else le64 (ExpiresAt e)) ++
  (if (Epoch e =? 0)%Z then [] else le64 (Epoch e)) ++
  (match Data e with None => [] | Some m => print (data_to_json m) end).

Definition checksum (e : Entry) : N := crc32c (checksum_input e).

(** ** Encoding *)

Definition member (k : string) (j : json) : bytes * json := (b_of_s k, j).

Definition num_u (z : Z) : json := JNum (fmt_N (Z.to_N z)).
Definition num_i (z : Z) : json := JNum (fmt_Z z).

Definition omit_zero (k : string) (z : Z) (j : json) : list (bytes * json) :=
  if (z =? 0)%Z then [] else [member k j].

(** [omitempty] on a map drops a nil map and an empty one. *)
Definition omit_empty (m : option vdata) : list (bytes * json) :=
  match m with
  | None => []
  | Some m => if decide (m = ∅) then [] else [member "data" (data_to_json m)]
  end.

Definition entry_members (e : Entry) : list (bytes * json) :=
  [member "id" (num_u (ID e)); member "op" (JStr (b_of_s (Op e)));
   member "ts" (JStr (fmt_time (Ts e)))] ++
  omit_zero "rev" (Rev e) (num_u (Rev e)) ++ omit_empty (Data e) ++
  omit_zero "epoch" (Epoch e) (num_u (Epoch e)) ++
  omit_zero "expires_at" (ExpiresAt e) (num_i (ExpiresAt e)) ++
  match CRC e with None => [] | Some c => [member "crc" (JNum (fmt_N c))] end.

Definition set_crc (e : Entry) (c : N) : Entry :=
  MkEntry (ID e) (Op e) (Ts e) (Rev e) (Data e) (Epoch e) (ExpiresAt e) (Some c).

Definition Encode (e : Entry) : bytes :=
  print (JObj (entry_members (set_crc e (checksum e)))) ++ [newline].

(** ** Decoding *)

(** Struct field names are matched without regard to case: of ASCII letters here; the
    long s and the Kelvin sign, which [encoding/json] takes for s and k, are other
    characters. *)
Definition to_lower (c : ascii) : ascii :=
  let n := nat_of_ascii c in if (65 <=? n) && (n <=? 90) then ascii_of_nat (n + 32) else c.

Definition dec_u64 (old : Z) (j : json) : option Z :=
  match j with
  | JNull => Some old
  | JNum lit =>
      n ← parse_N lit;
      if decide (Z.of_N n < two64)%Z then Some (Z.of_N n) else None
  | _ => None
  end.

Definition dec_i64 (old : Z) (j : json) : option Z :=
  match j with
  | JNull => Some old
  | JNum lit =>
      z ← parse_Z lit;
      if decide (- two63 ≤ z < two63)%Z then Some z else None
  | _ => None
  end.

Definition dec_string (old : string) (j : json) : option string :=
  match j with
  | JNull => Some old
  | JStr s => Some (s_of_b s)
  | _ => None
  end.

Definition dec_time (old : time) (j : json) : option time :=
  match j with
  | JNull => Some old
  | JStr s => parse_time s
  | _ => None
  end.

Definition dec_data (old : option vdata) (j : json) : option (option vdata) :=
  match j with
  | JNull => Some None
  | JObj l => Some <$> data_of_members (default ∅ old) l
  | _ => None
  end.

Definition dec_u32 (j : json) : option N :=
  match j with
  | JNum lit =>
      n ← parse_N lit;
      if decide (n < 4294967296)%N then Some n else None
  | _ => None
  end.

Definition dec_crc (j : json) : option (option N) :=
  match j with
  | JNull => Some None
  | _ => Some <$> dec_u32 j
  end.

(** One member of the object: an unknown name is ignored. *)
Definition set_field (e : Entry) (kv : bytes * json) : option Entry :=
  let k := map to_lower kv.1 in
  let j := kv.2 in
  let '(MkEntry id op ts rev data epoch exp crc) := e in
  if decide (k = b_of_s "id") then
    v ← dec_u64 id j; Some (MkEntry v op ts rev data epoch exp crc)
  else if decide (k = b_of_s "op") then
    v ← dec_string op j; Some (MkEntry id v ts rev data epoch exp crc)
  else if decide (k = b_of_s "ts") then
    v ← dec_time ts j; Some (MkEntry id op v rev data epoch exp crc)
  else if decide (k = b_of_s "rev") then
    v ← dec_u64 rev j; Some (MkEntry id op ts v data epoch exp crc)
  else if decide (k = b_of_s "data") then
    v ← dec_data data j; Some (MkEntry id op ts rev v epoch exp crc)
  else if decide (k = b_of_s "epoch") then
    v ← dec_u64 epoch j; Some (MkEntry id op ts rev data v exp crc)
  else if decide (k = b_of_s "expires_at") then
    v ← dec_i64 exp j; Some (MkEntry id op ts rev data epoch v crc)
  else if decide (k = b_of_s "crc") then
    v ← dec_crc j; Some (MkEntry id op ts rev data epoch exp v)
  else Some e.

Definition set_fields (e : Entry) (l : list (bytes * json)) : option Entry :=
  foldl (λ acc kv, e ← acc; set_field e kv) (Some e) l.

Definition unmarshal_entry (line : bytes) : option Entry :=
  match unmarshal line with
  | Some (JObj l) => set_fields zero_entry l
  | Some JNull => Some zero_entry
  | _ => None
  end.

Definition Decode (line : bytes) : res store_err Entry :=
  match unmarshal_entry line with
  | None => Err ErrSyntax
  | Some e =>
      match CRC e with
      | None => Ok e
      | Some want => if decide (checksum e = want) then Ok e else Err (ErrCorruptEntry (ID e))
      end
  end.

(** The constructors take the current time as an argument. *)
Definition NewInsert (now : time) (id : Z) (data : option vdata) : Entry :=
  MkEntry id OpInsert now 0 data 0 0 None.
Definition NewUpdate (now : time) (id : Z) (data : option vdata) : Entry :=
  MkEntry id OpUpdate now 0 data 0 0 None.
Definition NewDelete (now : time) (id : Z) : Entry :=
  MkEntry id OpDelete now 0 None 0 0 None.

(** ** Well-formed entries: the fields are in the range of their Go types *)

Record entry_wf (e : Entry) : Prop := {
  wf_id : in_u64 (ID e);
  wf_ts : time_wf (Ts e);
  wf_rev : in_u64 (Rev e);
  wf_data : match Data e with None => True | Some m => data_wf m end;
  wf_epoch : in_u64 (Epoch e);
  wf_exp : in_i64 (ExpiresAt e);
  wf_op : str_utf8 (Op e)
}.

(** ** CRC32C lemmas *)

Lemma lxor_lt a b n : (a < 2 ^ n → b < 2 ^ n → N.lxor a b < 2 ^ n)%N.
Proof.
  intros Ha Hb. destruct (N.eq_dec (N.lxor a b) 0%N) as [->|Hnz].
  { apply N.neq_0_lt_0. by apply N.pow_nonzero. }
  apply N.log2_lt_pow2; [lia|]. eapply N.le_lt_trans; [apply N.log2_lxor|].
  destruct (N.eq_dec a 0%N) as [->|Hza], (N.eq_dec b 0%N) as [->|Hzb];
    try (by rewrite N.lxor_nilpotent in Hnz); apply N.max_lub_lt;
    try (apply N.log2_lt_pow2; lia); rewrite N.log2_nonpos by lia;
    destruct n; try lia; rewrite N.pow_0_r in *; lia.
Qed.

Lemma shiftr1_lt c : (c < 2 ^ 32 → N.shiftr c 1 < 2 ^ 31)%N.
Proof.
  intros H. rewrite N.shiftr_div_pow2. apply N.Div0.div_lt_upper_bound.
  change (2 ^ 1 * 2 ^ 31)%N with (2 ^ 32)%N. done.
Qed.

Lemma crc_bit_lt c : (c < 2 ^ 32 → crc_bit c < 2 ^ 32)%N.
Proof.
  intros H%shiftr1_lt. unfold crc_bit.
  assert (N.shiftr c 1 < 2 ^ 32)%N by (eapply N.lt_trans; [exact H|by vm_compute]).
  destruct (N.odd c); [|done]. by apply lxor_lt.
Qed.

Lemma crc_byte_lt c b : (c < 2 ^ 32 → crc_byte c b < 2 ^ 32)%N.
Proof.
  intros H. unfold crc_byte. apply (Nat.iter_invariant 8 _ crc_bit (λ x, x < 2 ^ 32)%N).
  - intros. by apply crc_bit_lt.
  - apply lxor_lt; [done|]. eapply N.lt_trans; [apply N_ascii_bounded|by vm_compute].
Qed.

Lemma crc_update_lt s c : (c < 2 ^ 32 → crc_update c s < 2 ^ 32)%N.
Proof.
  revert c. induction s as [|b s IH]; intros c H; [done|]. apply IH. by apply crc_byte_lt.
Qed.

Lemma crc32c_lt s : (crc32c s < 4294967296)%N.
Proof. apply (lxor_lt _ _ 32); [apply crc_update_lt|]; by vm_compute. Qed.

(** The top bit of a shifted register tells which bit was shifted out. *)
Lemma crc_bit_testbit c : (c < 2 ^ 32)%N → N.testbit (crc_bit c) 31 = N.odd c.
Proof.
  intros H%shiftr1_lt.
  assert (Hs : N.testbit (N.shiftr c 1) 31 = false).
  { destruct (N.eq_dec (N.shiftr c 1) 0%N) as [->|Hnz]; [done|].
    apply N.bits_above_log2. apply N.log2_lt_pow2; [lia|done]. }
  unfold crc_bit. destruct (N.odd c) eqn:E; [|done].
  rewrite N.lxor_spec, Hs. by vm_compute.
Qed.

Lemma crc_bit_inj c d : (c < 2 ^ 32 → d < 2 ^ 32 → crc_bit c = crc_bit d → c = d)%N.
Proof.
  intros Hc Hd H.
  assert (Ho : N.odd c = N.odd d) by (rewrite <- !crc_bit_testbit by done; by rewrite H).
  assert (Hs : N.shiftr c 1 = N.shiftr d 1).
  { unfold crc_bit in H. rewrite Ho in H. destruct (N.odd d); [|done].
    apply (f_equal (λ x, N.lxor x castagnoli)) in H.
    by rewrite !N.lxor_assoc, N.lxor_nilpotent, !N.lxor_0_r in H. }
  rewrite <- !N.div2_spec in Hs. rewrite (N.div2_odd c), (N.div2_odd d). by rewrite Ho, Hs.
Qed.

Lemma crc_bits_inj k c d :
  (c < 2 ^ 32 → d < 2 ^ 32 → Nat.iter k crc_bit c = Nat.iter k crc_bit d → c = d)%N.
Proof.
  intros Hc Hd. induction k as [|k IH]; [done|]. cbn [Nat.iter]. intros H.
  apply IH, crc_bit_inj; [..|done];
    apply (Nat.iter_invariant k _ crc_bit (λ x, x < 2 ^ 32)%N); auto using crc_bit_lt.
Qed.

Lemma crc_byte_inj c d a b :
  (c < 2 ^ 32 → d < 2 ^ 32 → crc_byte c a = crc_byte d b →
   N.lxor c (N_of_ascii a) = N.lxor d (N_of_ascii b))%N.
Proof.
  intros Hc Hd. apply crc_bits_inj; (apply lxor_lt; [done|]);
    (eapply N.lt_trans; [apply N_ascii_bounded|by vm_compute]).
Qed.

Lemma lxor_cancel_l a b c : N.lxor a b = N.lxor a c → b = c.
Proof.
  intros H. apply (f_equal (N.lxor a)) in H.
  by rewrite <- !N.lxor_assoc, N.lxor_nilpotent, !N.lxor_0_l in H.
Qed.

Lemma crc_update_inj s c d :
  (c < 2 ^ 32 → d < 2 ^ 32 → crc_update c s = crc_update d s → c = d)%N.
Proof.
  revert c d. induction s as [|b s IH]; intros c d Hc Hd H; [done|].
  apply IH in H; [|by apply crc_byte_lt..]. apply crc_byte_inj in H; [|done..].
  rewrite !(N.lxor_comm _ (N_of_ascii b)) in H. by apply lxor_cancel_l in H.
Qed.

(** ** Decoding inverts encoding *)

Lemma set_fields_app e l1 l2 :
  set_fields e (l1 ++ l2) = e' ← set_fields e l1; set_fields e' l2.
Proof.
  unfold set_fields. rewrite foldl_app.
  destruct (foldl _ (Some e) l1) as [e'|]; [done|]. simpl. by induction l2.
Qed.

Lemma set_fields_one e kv : set_fields e [kv] = set_field e kv.
Proof. done. Qed.

Lemma dec_num_u old z : in_u64 z → dec_u64 old (num_u z) = Some z.
Proof.
  intros [H1 H2]. unfold dec_u64, num_u. rewrite parse_fmt_N. cbn [mbind option_bind].
  rewrite Z2N.id by done. by rewrite decide_True.
Qed.

Lemma dec_num_i old z : in_i64 z → dec_i64 old (num_i z) = Some z.
Proof.
  intros H. unfold dec_i64, num_i. rewrite parse_fmt_Z. cbn [mbind option_bind].
  by rewrite decide_True.
Qed.

Lemma dec_data_json m : data_wf m → dec_data None (data_to_json m) = Some (Some m).
Proof. intros H. cbn [dec_data data_to_json default]. by rewrite data_json_roundtrip. Qed.

Lemma dec_crc_fmt c : (c < 4294967296)%N → dec_crc (JNum (fmt_N c)) = Some (Some c).
Proof.
  intros H. cbn [dec_crc dec_u32]. rewrite parse_fmt_N. cbn [mbind option_bind].
  by rewrite decide_True.
Qed.

(** Each member sets its field. *)
Section set_field.
Context (id : Z) (op : string) (ts : time) (rev : Z) (data : option vdata) (epoch exp : Z).
Context (crc : option N) (j : json).

Let e0 := MkEntry id op ts rev data epoch exp crc.

Lemma set_id : set_field e0 (member "id" j) =
  v ← dec_u64 id j; Some (MkEntry v op ts rev data epoch exp crc).
Proof. reflexivity. Qed.
Lemma set_op : set_field e0 (member "op" j) =
  v ← dec_string op j; Some (MkEntry id v ts rev data epoch exp crc).
Proof. reflexivity. Qed.
Lemma set_ts : set_field e0 (member "ts" j) =
  v ← dec_time ts j; Some (MkEntry id op v rev data epoch exp crc).
Proof. reflexivity. Qed.
Lemma set_rev : set_field e0 (member "rev" j) =
  v ← dec_u64 rev j; Some (MkEntry id op ts v data epoch exp crc).
Proof. reflexivity. Qed.
Lemma set_data : set_field e0 (member "data" j) =
  v ← dec_data data j; Some (MkEntry id op ts rev v epoch exp crc).
Proof. reflexivity. Qed.
Lemma set_epoch : set_field e0 (member "epoch" j) =
  v ← dec_u64 epoch j; Some (MkEntry id op ts rev data v exp crc).
Proof. reflexivity. Qed.
Lemma set_exp : set_field e0 (member "expires_at" j) =
  v ← dec_i64 exp j; Some (MkEntry id op ts rev data epoch v crc).
Proof. reflexivity. Qed.
Lemma set_crc_field : set_field e0 (member "crc" j) =
  v ← dec_crc j; Some (MkEntry id op ts rev data epoch exp v).
Proof. reflexivity. Qed.
End set_field.

Arguments set_field : simpl never.

(** [omitempty] leaves the zero value of the field. *)
Lemma set_fields_omit_zero e k z j e' :
  (z = 0%Z → e' = e) → set_field e (member k j) = Some e' →
  set_fields e (omit_zero k z j) = Some e'.
Proof.
  intros H0 H1. unfold omit_zero. destruct (Z.eqb_spec z 0); [by rewrite H0|].
  by rewrite set_fields_one.
Qed.

Lemma set_fields_data id op ts rev epoch exp crc d :
  match d with None => True | Some m => data_wf m end → d ≠ Some ∅ →
  set_fields (MkEntry id op ts rev None epoch exp crc) (omit_empty d) =
  Some (MkEntry id op ts rev d epoch exp crc).
Proof.
  intros Hwf Hne. destruct d as [m|]; [|done]. cbn [omit_empty].
  rewrite decide_False by congruence. rewrite set_fields_one, set_data.
  by rewrite dec_data_json.
Qed.

Lemma set_fields_entry e :
  entry_wf e → Data e ≠ Some ∅ → (∀ c, CRC e = Some c → (c < 4294967296)%N) →
  set_fields zero_entry (entry_members e) = Some e.
Proof.
  intros [Hid Hts Hrev Hdata Hep Hexp] Hne Hcrc. destruct e as [id op ts rev data ep exp crc].
  simpl in *. unfold entry_members, zero_entry. cbn [ID Op Ts Rev Data Epoch ExpiresAt CRC].
  set (m1 := member "id" _). set (m2 := member "op" _). set (m3 := member "ts" _).
  change [m1; m2; m3] with ([m1] ++ [m2] ++ [m3]). rewrite <- !app_assoc.
  rewrite set_fields_app, set_fields_one. subst m1. rewrite set_id, dec_num_u by done. cbn [mbind option_bind].
  rewrite set_fields_app, set_fields_one. subst m2. rewrite set_op. cbn [dec_string mbind option_bind].
  rewrite s_of_b_of_s.
  rewrite set_fields_app, set_fields_one. subst m3. rewrite set_ts. cbn [dec_time].
  rewrite parse_fmt_time by done. cbn [mbind option_bind].
  rewrite set_fields_app, (set_fields_omit_zero _ _ _ _ (MkEntry id op ts rev None 0 0 None));
    [|by intros ->|by rewrite set_rev, dec_num_u]. cbn [mbind option_bind].
  rewrite set_fields_app, set_fields_data by done. cbn [mbind option_bind].
  rewrite set_fields_app, (set_fields_omit_zero _ _ _ _ (MkEntry id op ts rev data ep 0 None));
    [|by intros ->|by rewrite set_epoch, dec_num_u]. cbn [mbind option_bind].
  rewrite set_fields_app, (set_fields_omit_zero _ _ _ _ (MkEntry id op ts rev data ep exp None));
    [|by intros ->|by rewrite set_exp, dec_num_i]. cbn [mbind option_bind].
  destruct crc as [c|]; [|done].
  rewrite set_fields_one, set_crc_field, dec_crc_fmt by auto. done.
Qed.

Lemma omit_zero_ok k z j :
  json_ok j = true → forallb (λ kv, json_ok kv.2) (omit_zero k z j) = true.
Proof. intros H. unfold omit_zero. destruct (z =? 0)%Z; [done|]. simpl. by rewrite H. Qed.

Lemma omit_empty_ok d :
  match d with None => True | Some m => data_wf m end →
  forallb (λ kv, json_ok kv.2) (omit_empty d) = true.
Proof.
  intros H. destruct d as [m|]; [|done]. cbn [omit_empty]. case_decide; [done|].
  unfold member. cbn [forallb snd]. rewrite andb_true_r. by apply data_to_json_ok.
Qed.

Lemma num_u_ok z : json_ok (num_u z) = true.
Proof. apply num_ok_fmt_N. Qed.

Lemma num_i_ok z : json_ok (num_i z) = true.
Proof. apply num_ok_fmt_Z. Qed.

#[export] Hint Resolve omit_zero_ok omit_empty_ok num_u_ok num_i_ok : scriva.

Lemma entry_members_ok e : entry_wf e → json_ok (JObj (entry_members e)) = true.
Proof.
  intros [Hid Hts Hrev Hdata Hep Hexp _]. cbn [json_ok]. unfold entry_members.
  rewrite !forallb_app, !andb_true_iff. split_and!; auto with scriva.
  - unfold member. cbn [forallb snd]. by rewrite num_u_ok.
  - destruct (CRC e); [|done]. unfold member. cbn [forallb snd json_ok]. by rewrite num_ok_fmt_N.
Qed.

(** The strings of a list of members are UTF-8. *)
Definition members_utf8 (l : list (bytes * json)) : bool := forallb (λ kv, utf8_valid kv.1 && json_utf8 kv.2) l.

Lemma members_utf8_app l l' : members_utf8 l = true → members_utf8 l' = true → members_utf8 (l ++ l') = true.
Proof. intros H1 H2. unfold members_utf8 in *. by rewrite forallb_app, H1, H2. Qed.

Lemma members_utf8_cons k j l :
  str_utf8 k → json_utf8 j = true → members_utf8 l = true → members_utf8 (member k j :: l) = true.
Proof. intros H1 H2 H3. unfold members_utf8 in *. cbn [forallb member fst snd]. rewrite H2, H3. by rewrite H1. Qed.

Lemma members_utf8_nil : members_utf8 [] = true. Proof. done. Qed.

Lemma omit_zero_utf8 k z j : str_utf8 k → json_utf8 j = true → members_utf8 (omit_zero k z j) = true.
Proof. intros Hk Hj. unfold omit_zero. destruct (z =? 0)%Z; [done|]. by apply members_utf8_cons. Qed.

Lemma omit_empty_utf8 m : match m with None => True | Some m => data_wf m end → members_utf8 (omit_empty m) = true.
Proof.
  intros H. unfold omit_empty. destruct m as [m|]; [|done]. case_decide; [done|].
  apply members_utf8_cons; [done|by apply data_to_json_utf8|done].
Qed.

Create HintDb utf8.
#[export] Hint Resolve members_utf8_app members_utf8_cons members_utf8_nil omit_zero_utf8 omit_empty_utf8 : utf8.
#[export] Hint Extern 1 (str_utf8 _) => reflexivity : utf8.
#[export] Hint Extern 1 (json_utf8 (num_u _) = true) => exact eq_refl : utf8.
#[export] Hint Extern 1 (json_utf8 (num_i _) = true) => exact eq_refl : utf8.
#[export] Hint Extern 1 (json_utf8 (JNum _) = true) => exact eq_refl : utf8.
#[export] Hint Extern 1 (json_utf8 (JBool _) = true) => exact eq_refl : utf8.

Lemma entry_members_utf8 e : entry_wf e → json_utf8 (JObj (entry_members e)) = true.
Proof.
  intros [Hid Hts Hrev Hdata Hep Hexp Hop]. change (members_utf8 (entry_members e) = true). unfold entry_members.
  pose proof (fmt_time_utf8 _ Hts) as Ht.
  assert (members_utf8 (match CRC e with None => [] | Some c => [member "crc" (JNum (fmt_N c))] end) = true)
    by (destruct (CRC e); auto with utf8).
  auto 10 with utf8.
Qed.

Lemma set_crc_wf e c : entry_wf e → entry_wf (set_crc e c).
Proof. by intros []; split. Qed.

Lemma checksum_set_crc e c : checksum (set_crc e c) = checksum e.
Proof. done. Qed.

(** The line without its newline, as a scanner hands it to [Decode]. *)
Definition encode_line (e : Entry) : bytes := print (JObj (entry_members (set_crc e (checksum e)))).

Arguments encode_line : simpl never.
Arguments Encode : simpl never.
Arguments checksum : simpl never.
Arguments Decode : simpl never.

Lemma Encode_line e : Encode e = encode_line e ++ [newline].
Proof. done. Qed.

Lemma unmarshal_encode_line e :
  entry_wf e → unmarshal (encode_line e) = Some (JObj (entry_members (set_crc e (checksum e)))).
Proof. intros H. apply unmarshal_print; [apply entry_members_ok|apply entry_members_utf8]; apply set_crc_wf, H. Qed.

Lemma decode_of_members line e :
  entry_wf e → Data e ≠ Some ∅ →
  unmarshal line = Some (JObj (entry_members (set_crc e (checksum e)))) →
  Decode line = Ok (set_crc e (checksum e)).
Proof.
  intros Hwf Hne Hu. unfold Decode, unmarshal_entry. rewrite Hu.
  rewrite set_fields_entry; [|by apply set_crc_wf|done|].
  - cbn [CRC set_crc]. rewrite decide_True; [done|]. apply (checksum_set_crc e).
  - intros c [= <-]. apply crc32c_lt.
Qed.

Lemma decode_encode_line e :
  entry_wf e → Data e ≠ Some ∅ → Decode (encode_line e) = Ok (set_crc e (checksum e)).
Proof. intros Hwf Hne. apply decode_of_members; [done|done|]. by apply unmarshal_encode_line. Qed.

Lemma encode_line_clean e : entry_wf e → clean (encode_line e).
Proof. intros H. apply print_clean, entry_members_ok, set_crc_wf, H. Qed.

Lemma encode_line_last e : last (encode_line e) = Some "}"%char.
Proof. unfold encode_line. cbn [print]. by rewrite app_comm_cons, last_snoc. Qed.

(** ** Properties *)

(** Claim C39: an entry whose fields are in the range of their Go types, whose strings
    are UTF-8 and whose data is not the empty map survives the line: [Decode] of the
    bytes [Encode] wrote, newline included, is the entry with its checksum filled
    in. *)
Theorem decode_encode e :
  entry_wf e → Data e ≠ Some ∅ → Decode (Encode e) = Ok (set_crc e (checksum e)).
Proof.
  intros Hwf Hne. apply decode_of_members; [done|done|].
  apply unmarshal_print_newline; [apply entry_members_ok|apply entry_members_utf8]; apply set_crc_wf, Hwf.
Qed.

(** [Encode] writes exactly one line: a single newline, at the end,
    no carriage return before it, and at least one byte. *)
Theorem encode_framing e :
  entry_wf e → ∃ l, Encode e = l ++ [newline] ∧ newline ∉ l ∧ last l = Some "}"%char.
Proof.
  intros H. exists (encode_line e). split_and!; [done| |apply encode_line_last].
  by apply clean_no_newline, encode_line_clean.
Qed.

Lemma crc32c_diff_byte p q a b : a ≠ b → crc32c (p ++ a :: q) ≠ crc32c (p ++ b :: q).
Proof.
  intros Hab H. unfold crc32c in H. rewrite !(N.lxor_comm _ mask32) in H.
  apply lxor_cancel_l in H. unfold crc_update in H. rewrite !foldl_app in H. cbn [foldl] in H.
  assert (Hp : (foldl crc_byte mask32 p < 2 ^ 32)%N) by (by apply crc_update_lt).
  apply crc_update_inj in H; [|by apply crc_byte_lt..].
  apply crc_byte_inj in H; [|done..]. apply lxor_cancel_l in H.
  apply Hab. by rewrite <- (ascii_N_embedding a), H, ascii_N_embedding.
Qed.

(** Claim C40: a change confined to one byte of the bytes under the checksum
    (id, op, rev, expiry, epoch or data) is always detected: an entry that
    carries the checksum of another one whose input differs from its own in one
    byte is rejected with [ErrCorruptEntry]. *)
Theorem one_byte_corruption_detected line e e' p q a b :
  unmarshal_entry line = Some e → CRC e = Some (checksum e') →
  checksum_input e' = p ++ a :: q → checksum_input e = p ++ b :: q → a ≠ b →
  Decode line = Err (ErrCorruptEntry (ID e)).
Proof.
  intros Hu Hc He' He Hab. unfold Decode. rewrite Hu, Hc. rewrite decide_False; [done|].
  unfold checksum. rewrite He, He'. apply crc32c_diff_byte. congruence.
Qed.

(** the data map of an insert may be empty, and then the line cannot
    be read back: the checksum covers the two bytes of the empty object while
    [omitempty] drops the [data] member, so [Decode] computes another checksum. *)
Theorem empty_data_unreadable :
  Decode (Encode (NewInsert zero_time 1 (Some ∅))) = Err (ErrCorruptEntry 1).
Proof. vm_compute. reflexivity. Qed.

(** ** Witnesses *)

Definition sample_data : vdata := {[ "n" := VNum (MkF false [4; 2] 2); "s" := VStr "a<b" ]}.

Definition sample_entry : Entry :=
  MkEntry 7 OpInsert (MkTime 2024 2 29 23 59 58 [1; 2; 5] 330) 1 (Some sample_data) 0 (-5) None.

Lemma sample_data_wf : data_wf sample_data.
Proof.
  unfold data_wf, sample_data. apply map_Forall_insert_2; [|by apply map_Forall_singleton].
  split; [done|]. simpl. split_and!; try done; forall_lia.
Qed.

Lemma sample_entry_wf : entry_wf sample_entry.
Proof.
  split; try (unfold in_u64, in_i64, two63, two64; simpl; lia); [|apply sample_data_wf|done].
  unfold time_wf; simpl; split_and!; try (vm_compute; lia); try done; by forall_lia.
Qed.

Lemma sample_data_nonempty : Data sample_entry ≠ Some ∅.
Proof. discriminate. Qed.

Lemma decode_encode_witness :
  entry_wf sample_entry ∧ Data sample_entry ≠ Some ∅ ∧
  Decode (Encode sample_entry) = Ok (set_crc sample_entry (checksum sample_entry)).
Proof.
  split_and!; [apply sample_entry_wf|apply sample_data_nonempty|].
  apply (decode_encode sample_entry); [apply sample_entry_wf|apply sample_data_nonempty].
Defined.

Lemma encode_framing_witness :
  ∃ l, Encode sample_entry = l ++ [newline] ∧ newline ∉ l ∧ last l = Some "}"%char.
Proof. apply (encode_framing sample_entry), sample_entry_wf. Defined.

(** The id byte of a tombstone flipped from 7 to 3, its checksum kept. *)
Definition flipped_entry : Entry := set_crc (NewDelete zero_time 3) (checksum (NewDelete zero_time 7)).

Lemma one_byte_corruption_detected_witness :
  Decode (print (JObj (entry_members flipped_entry))) = Err (ErrCorruptEntry 3).
Proof.
  apply (one_byte_corruption_detected _ flipped_entry (NewDelete zero_time 7) []
           (tl (checksum_input (NewDelete zero_time 7))) "007"%char "003"%char);
    [vm_compute; reflexivity..|done].
Defined.
