(* ===== verification/Filter.v ===== *)
(** * Filters and value comparison: [query/filter.go]

    The filter tree, its evaluation on a record, and the comparison the filter
    operators and the sort of [engine/scan.go] share.  Regular expressions are a
    parameter: [regexp.Compile] and [MatchString] as one function from the
    pattern and the text to the answer, [None] when the pattern does not
    compile. *)
From Stdlib Require Import Ascii Lia ZArith.
From stdpp Require Import prelude gmap strings sorting.
From S2P Require Import Prelude GoNum Json Value.

Inductive FilterOp : Type :=
| OpEq | OpNeq | OpGt | OpGte | OpLt | OpLte | OpContains | OpRegex
| OpUnknown (s : string).

Inductive Filter : Type :=
| MatchAll
| FieldFilter (field : string) (op : FilterOp) (val : string)
| AndFilter (l : list Filter)
| OrFilter (l : list Filter).

Definition asNumber (v : value) : option float64 :=
  match v with VNum f => Some f | _ => None end.

(** The result of [Compare]: [Lt], [Eq], [Gt] stand for -1, 0, 1. *)
Definition Compare (a b : value) : comparison :=
  match asNumber a, asNumber b with
  | Some af, Some bf =>
      if float_ltb af bf then Lt else if float_ltb bf af then Gt else Eq
  | _, _ => bytes_cmp (fmt_v a) (fmt_v b)
  end.

Definition equal (a b : value) : bool :=
  match asNumber a, asNumber b with
  | Some af, Some bf => float_eqb af bf
  | _, _ => bool_decide (fmt_v a = fmt_v b)
  end.

(** The comparison value: decoded JSON, or the text itself when it is not JSON. *)
Definition decode_cmp (v : string) : value :=
  match unmarshal (b_of_s v) ≫= value_of_json with
  | Some c => c
  | None => VStr v
  end.

Section match_.
Context (regexp : bytes → bytes → option bool).

Definition match_field (field : string) (op : FilterOp) (val : string) (record : vdata) : bool :=
  match record !! field with
  | None => false
  | Some fieldVal =>
      let cmp := decode_cmp val in
      match op with
      | OpEq => equal fieldVal cmp
      | OpNeq => negb (equal fieldVal cmp)
      | OpGt => match Compare fieldVal cmp with Gt => true | _ => false end
      | OpGte => match Compare fieldVal cmp with Lt => false | _ => true end
      | OpLt => match Compare fieldVal cmp with Lt => true | _ => false end
      | OpLte => match Compare fieldVal cmp with Gt => false | _ => true end
      | OpContains => contains (fmt_v fieldVal) (fmt_v cmp)
      | OpRegex => match regexp (fmt_v cmp) (fmt_v fieldVal) with Some b => b | None => false end
      | OpUnknown _ => false
      end
  end.

Fixpoint Match (f : Filter) (record : vdata) : bool :=
  match f with
  | MatchAll => true
  | FieldFilter field op val => match_field field op val record
  | AndFilter l =>
      (fix go l := match l with
                   | [] => true
                   | sub :: l' => if Match sub record then go l' else false
                   end) l
  | OrFilter l =>
      (fix go l := match l with
                   | [] => false
                   | sub :: l' => if Match sub record then true else go l'
                   end) l
  end.

Lemma Match_and l r : Match (AndFilter l) r = forallb (λ f, Match f r) l.
Proof. induction l as [|f l IH]; [done|]. simpl in *. rewrite IH. by destruct (Match f r). Qed.

Lemma Match_or l r : Match (OrFilter l) r = existsb (λ f, Match f r) l.
Proof. induction l as [|f l IH]; [done|]. simpl in *. rewrite IH. by destruct (Match f r). Qed.

End match_.

(** ** The comparison *)

Lemma Compare_num f g : Compare (VNum f) (VNum g) = float_cmp f g.
Proof.
  unfold Compare, float_ltb; simpl. rewrite (float_cmp_antisym g f).
  by destruct (float_cmp f g).
Qed.

Definition is_num (v : value) : bool := match v with VNum _ => true | _ => false end.

Lemma Compare_not_num a b :
  is_num a && is_num b = false → Compare a b = bytes_cmp (fmt_v a) (fmt_v b).
Proof. by destruct a, b. Qed.

Lemma Compare_refl a : Compare a a = Eq.
Proof.
  destruct (is_num a) eqn:E.
  - destruct a; try done. rewrite Compare_num. apply float_cmp_refl.
  - rewrite Compare_not_num by (by rewrite E). apply bytes_cmp_refl.
Qed.

Lemma Compare_antisym a b : Compare a b = CompOpp (Compare b a).
Proof.
  destruct (is_num a && is_num b) eqn:E.
  - apply andb_true_iff in E as [Ea Eb]. destruct a, b; try done.
    rewrite !Compare_num. apply float_cmp_antisym.
  - rewrite (Compare_not_num a b), (Compare_not_num b a) by (done || by rewrite andb_comm).
    apply bytes_cmp_antisym.
Qed.

(** Values of one kind: all numbers or no number.  The sort field of a
    collection is homogeneous when its values are of one kind. *)
Definition homogeneous (P : value → Prop) : Prop :=
  (∀ v, P v → is_num v = true) ∨ (∀ v, P v → is_num v = false).

Lemma bytes_cmp_le_trans a b c : bytes_cmp a b ≠ Gt → bytes_cmp b c ≠ Gt → bytes_cmp a c ≠ Gt.
Proof.
  destruct (bytes_cmp a b) eqn:E1; [apply bytes_cmp_eq in E1; by subst| |done].
  destruct (bytes_cmp b c) eqn:E2; [apply bytes_cmp_eq in E2; subst; by rewrite E1| |done].
  by rewrite (bytes_cmp_lt_trans a b c).
Qed.

Lemma Compare_le_trans (P : value → Prop) a b c :
  homogeneous P → P a → P b → P c →
  Compare a b ≠ Gt → Compare b c ≠ Gt → Compare a c ≠ Gt.
Proof.
  intros [H|H] Ha%H Hb%H Hc%H.
  - destruct a, b, c; try done. rewrite !Compare_num. apply float_cmp_le_trans.
  - rewrite !Compare_not_num by (by rewrite ?Ha, ?Hb, ?Hc). apply bytes_cmp_le_trans.
Qed.

Lemma Compare_lt_trans (P : value → Prop) a b c :
  homogeneous P → P a → P b → P c → Compare a b = Lt → Compare b c ≠ Gt → Compare a c = Lt.
Proof.
  intros [H|H] Ha%H Hb%H Hc%H.
  - destruct a, b, c; try done. rewrite !Compare_num. apply float_cmp_lt_trans.
  - rewrite !Compare_not_num by (by rewrite ?Ha, ?Hb, ?Hc). intros H1 H2.
    destruct (bytes_cmp (fmt_v b) (fmt_v c)) eqn:E; [|by eapply bytes_cmp_lt_trans|done].
    apply bytes_cmp_eq in E. by rewrite <- E.
Qed.

Lemma equal_Compare a b :
  equal a b = match Compare a b with Eq => true | _ => false end.
Proof.
  destruct (is_num a && is_num b) eqn:E.
  - apply andb_true_iff in E as [Ea Eb]. destruct a, b; try done. by rewrite Compare_num.
  - rewrite Compare_not_num by done.
    assert (equal a b = bool_decide (fmt_v a = fmt_v b)) as -> by (by destruct a, b).
    case_bool_decide as H; [by rewrite H, bytes_cmp_refl|].
    destruct (bytes_cmp _ _) eqn:E'; [by apply bytes_cmp_eq in E'|done..].
Qed.

(** ** Properties *)

(** the equality of the [eq] and [neq] operators is the zero of the
    comparison of [gt], [gte], [lt] and [lte], for every pair of values. *)
Theorem equal_iff_Compare a b : equal a b = true ↔ Compare a b = Eq.
Proof. rewrite equal_Compare. by destruct (Compare a b). Qed.

(** on values of one kind (all numbers, or none) [Compare] is a
    total preorder: reflexive, antisymmetric in its sign and transitive. *)
Theorem Compare_total_preorder P :
  homogeneous P →
  (∀ a, Compare a a = Eq) ∧
  (∀ a b, Compare a b = CompOpp (Compare b a)) ∧
  (∀ a b c, P a → P b → P c → Compare a b ≠ Gt → Compare b c ≠ Gt → Compare a c ≠ Gt).
Proof.
  intros H. split_and!; [apply Compare_refl|apply Compare_antisym|].
  intros a b c Ha Hb Hc. by apply (Compare_le_trans P).
Qed.

(** on mixed kinds [Compare] is not an ordering: the number 10 is
    below the string 1x, which is below the number 2, which is below 10. *)
Theorem Compare_cycle :
  let ten := VNum (MkF false [1] 2) in let two := VNum (MkF false [2] 1) in
  Compare ten (VStr "1x") = Lt ∧ Compare (VStr "1x") two = Lt ∧ Compare two ten = Lt.
Proof. vm_compute. auto. Qed.

(** the operators partition the records that have the field: [neq],
    [lte] and [gte] are the complements of [eq], [gt] and [lt], [gte] is [gt] or
    [eq], [lte] is [lt] or [eq]; and a record without the field matches no
    operator, [neq] included. *)
Theorem operators_consistent re field val record :
  let m op := Match re (FieldFilter field op val) record in
  match record !! field with
  | None => ∀ op, m op = false
  | Some _ =>
      m OpNeq = negb (m OpEq) ∧ m OpLte = negb (m OpGt) ∧ m OpGte = negb (m OpLt) ∧
      m OpGte = m OpGt || m OpEq ∧ m OpLte = m OpLt || m OpEq
  end.
Proof.
  simpl. unfold match_field. destruct (record !! field) as [v|]; [|done].
  rewrite equal_Compare. by destruct (Compare v (decode_cmp val)).
Qed.

(** a filter tree means what its shape says: a conjunction matches
    exactly when all its parts match, a disjunction when one of them does,
    whatever the nesting; the empty conjunction matches every record and the
    empty disjunction none. *)
Theorem tree_semantics re l r :
  (Match re (AndFilter l) r = true ↔ ∀ f, f ∈ l → Match re f r = true) ∧
  (Match re (OrFilter l) r = true ↔ ∃ f, f ∈ l ∧ Match re f r = true).
Proof.
  rewrite Match_and, Match_or, forallb_forall, existsb_exists.
  setoid_rewrite list_elem_of_In. done.
Qed.

Lemma Compare_total_preorder_witness :
  homogeneous (λ v, is_num v = true) ∧
  Compare (VNum (MkF false [9] 1)) (VNum (MkF false [1] 2)) ≠ Gt ∧
  Compare (VNum (MkF false [9] 1)) (VNum (MkF false [2] 3)) ≠ Gt.
Proof.
  assert (H : homogeneous (λ v, is_num v = true)) by (left; auto).
  split_and!; [exact H|by vm_compute|].
  apply (Compare_total_preorder _ H) with (b := VNum (MkF false [1] 2)); by vm_compute.
Defined.
