(* ===== verification/Wire.v ===== *)
(** * Stamped lines: [engine/xtx_wire.go]

    Entries written inside a cross-collection transaction carry a stamp (the
    transaction id and the position in the participant's run) and a
    domain-separated checksum.  [decodeSegmentLine] reads either kind of line;
    [entryVisible] decides which entries a reader sees. *)
From Stdlib Require Import Ascii Lia ZArith.
From stdpp Require Import prelude gmap strings sorting.
From S2P Require Import Prelude GoNum Json Value GoTime Store.

Record TxStamp : Type := MkStamp { st_t : string; st_i : N; st_n : N }.

#[global] Instance TxStamp_eq_dec : EqDecision TxStamp.
Proof. solve_decision. Defined.

Definition zero_stamp : TxStamp := MkStamp "" 0 0.

Record stampedEntry : Type := MkStamped {
  S_ID : Z;
  S_Op : string;
  S_Ts : string;
  S_Rev : Z;
  S_Data : option vdata;
  S_Epoch : Z;
  S_ExpiresAt : Z;
  S_Tx : TxStamp;
  S_CRC : N
}.

Definition xtxMaxTxIDLen : nat := 64.
Definition xtxKindCommit : string := "commit".

Inductive wire_err : Type :=
| WStore (e : store_err)       (* a plain line's error, or json.Unmarshal's *)
| ErrBadStamp
| ErrMissingCRC
| ErrV1CRCOnStamp.

(** ** Checksums *)

Definition le32 (n : N) : bytes :=
  map (λ k, ascii_of_N ((n / 2 ^ (8 * N.of_nat k)) mod 256)) (seq 0 4).

Definition v1InputBytes (id : Z) (op : string) (rev expires epoch : Z) (data : option vdata) : bytes :=
  le64 id ++ b_of_s op ++
  (if (rev =? 0)%Z then [] else le64 rev) ++
  (if (expires =? 0)%Z then [] else le64 expires) ++
  (if (epoch =? 0)%Z then [] else le64 epoch) ++
  (match data with None => [] | Some m => print (data_to_json m) end).

Definition checksumV1 (id : Z) (op : string) (rev expires epoch : Z) (data : option vdata) : N :=
  crc32c (v1InputBytes id op rev expires epoch data).

Definition v2InputBytes (id : Z) (op : string) (rev expires epoch : Z) (data : option vdata)
    (tx : TxStamp) : bytes :=
  b_of_s "XTX1" ++ ["000"%char] ++ [ascii_of_nat (String.length (st_t tx))] ++ b_of_s (st_t tx) ++
  le32 (st_i tx) ++ le32 (st_n tx) ++ v1InputBytes id op rev expires epoch data.

Definition checksumV2 (id : Z) (op : string) (rev expires epoch : Z) (data : option vdata)
    (tx : TxStamp) : res wire_err N :=
  let l := String.length (st_t tx) in
  if decide (l = 0 ∨ xtxMaxTxIDLen < l) then Err ErrBadStamp
  else Ok (crc32c (v2InputBytes id op rev expires epoch data tx)).

Definition sumV2 (e : stampedEntry) : res wire_err N :=
  checksumV2 (S_ID e) (S_Op e) (S_Rev e) (S_ExpiresAt e) (S_Epoch e) (S_Data e) (S_Tx e).

(** ** Encoding *)

Definition stamp_json (tx : TxStamp) : json :=
  JObj [member "t" (JStr (b_of_s (st_t tx))); member "i" (JNum (fmt_N (st_i tx)));
        member "n" (JNum (fmt_N (st_n tx)))].

Definition stamped_members (e : stampedEntry) : list (bytes * json) :=
  [member "id" (num_u (S_ID e)); member "op" (JStr (b_of_s (S_Op e)));
   member "ts" (JStr (b_of_s (S_Ts e)))] ++
  omit_zero "rev" (S_Rev e) (num_u (S_Rev e)) ++ omit_empty (S_Data e) ++
  omit_zero "epoch" (S_Epoch e) (num_u (S_Epoch e)) ++
  omit_zero "expires_at" (S_ExpiresAt e) (num_i (S_ExpiresAt e)) ++
  [member "tx" (stamp_json (S_Tx e)); member "crc" (JNum (fmt_N (S_CRC e)))].

Definition set_stamped_crc (e : stampedEntry) (c : N) : stampedEntry :=
  MkStamped (S_ID e) (S_Op e) (S_Ts e) (S_Rev e) (S_Data e) (S_Epoch e) (S_ExpiresAt e) (S_Tx e) c.

Definition bad_position (tx : TxStamp) : bool := (st_n tx =? 0)%N || (st_n tx <=? st_i tx)%N.

Definition encodeStamped (e : stampedEntry) : res wire_err bytes :=
  if bad_position (S_Tx e) then Err ErrBadStamp
  else
    let* sum := sumV2 e in
    Ok (print (JObj (stamped_members (set_stamped_crc e sum))) ++ [newline]).

(** ** Decoding *)

Definition dec_u32_field (old : N) (j : json) : option N :=
  match j with JNull => Some old | _ => dec_u32 j end.

Definition set_stamp_field (tx : TxStamp) (kv : bytes * json) : option TxStamp :=
  let k := map to_lower kv.1 in
  let j := kv.2 in
  let '(MkStamp t i n) := tx in
  if decide (k = b_of_s "t") then v ← dec_string t j; Some (MkStamp v i n)
  else if decide (k = b_of_s "i") then v ← dec_u32_field i j; Some (MkStamp t v n)
  else if decide (k = b_of_s "n") then v ← dec_u32_field n j; Some (MkStamp t i v)
  else Some tx.

Definition stamp_fields (tx : TxStamp) (l : list (bytes * json)) : option TxStamp :=
  foldl (λ acc kv, e ← acc; set_stamp_field e kv) (Some tx) l.

Definition dec_stamp (old : TxStamp) (j : json) : option TxStamp :=
  match j with
  | JNull => Some old
  | JObj l => stamp_fields old l
  | _ => None
  end.

(** [raw]: the embedded [stampedEntry] with the checksum shadowed by a pointer. *)
Record raw_stamped : Type := MkRaw { raw_e : stampedEntry; raw_crc : option N }.

Definition zero_raw : raw_stamped :=
  MkRaw (MkStamped 0 "" "" 0 None 0 0 zero_stamp 0) None.

Definition set_sfield (r : raw_stamped) (kv : bytes * json) : option raw_stamped :=
  let k := map to_lower kv.1 in
  let j := kv.2 in
  let '(MkRaw (MkStamped id op ts rev data epoch exp tx c0) crc) := r in
  if decide (k = b_of_s "id") then
    v ← dec_u64 id j; Some (MkRaw (MkStamped v op ts rev data epoch exp tx c0) crc)
  else if decide (k = b_of_s "op") then
    v ← dec_string op j; Some (MkRaw (MkStamped id v ts rev data epoch exp tx c0) crc)
  else if decide (k = b_of_s "ts") then
    v ← dec_string ts j; Some (MkRaw (MkStamped id op v rev data epoch exp tx c0) crc)
  else if decide (k = b_of_s "rev") then
    v ← dec_u64 rev j; Some (MkRaw (MkStamped id op ts v data epoch exp tx c0) crc)
  else if decide (k = b_of_s "data") then
    v ← dec_data data j; Some (MkRaw (MkStamped id op ts rev v epoch exp tx c0) crc)
  else if decide (k = b_of_s "epoch") then
    v ← dec_u64 epoch j; Some (MkRaw (MkStamped id op ts rev data v exp tx c0) crc)
  else if decide (k = b_of_s "expires_at") then
    v ← dec_i64 exp j; Some (MkRaw (MkStamped id op ts rev data epoch v tx c0) crc)
  else if decide (k = b_of_s "tx") then
    v ← dec_stamp tx j; Some (MkRaw (MkStamped id op ts rev data epoch exp v c0) crc)
  else if decide (k = b_of_s "crc") then
    v ← dec_crc j; Some (MkRaw (MkStamped id op ts rev data epoch exp tx c0) v)
  else Some r.

Definition set_sfields (r : raw_stamped) (l : list (bytes * json)) : option raw_stamped :=
  foldl (λ acc kv, e ← acc; set_sfield e kv) (Some r) l.

(** [bytes.TrimRight(line, "\n")]. *)
Fixpoint trim_right (s : bytes) : bytes :=
  match s with
  | [] => []
  | c :: s' =>
      match trim_right s' with
      | [] => if decide (c = newline) then [] else [c]
      | r => c :: r
      end
  end.

Definition unmarshal_raw (line : bytes) : option raw_stamped :=
  match unmarshal line with
  | Some (JObj l) => set_sfields zero_raw l
  | Some JNull => Some zero_raw
  | _ => None
  end.

Definition parseStamped (line : bytes) : res wire_err stampedEntry :=
  match unmarshal_raw (trim_right line) with
  | None => Err (WStore ErrSyntax)
  | Some raw =>
      let e := raw_e raw in
      if decide (st_t (S_Tx e) = "") then Err ErrBadStamp
      else if bad_position (S_Tx e) then Err ErrBadStamp
      else match raw_crc raw with
           | None => Err ErrMissingCRC
           | Some c =>
               let e := set_stamped_crc e c in
               let* v2 := sumV2 e in
               if decide (v2 = c) then Ok e
               else if decide (checksumV1 (S_ID e) (S_Op e) (S_Rev e) (S_ExpiresAt e) (S_Epoch e)
                                 (S_Data e) = c)
               then Err ErrV1CRCOnStamp
               else Err (WStore (ErrCorruptEntry (S_ID e)))
           end
  end.

(** The [probe] struct: only its [tx] pointer. *)
Definition probe_field (acc : option TxStamp) (kv : bytes * json) : option (option TxStamp) :=
  if decide (map to_lower kv.1 = b_of_s "tx") then
    match kv.2 with
    | JNull => Some None
    | JObj l => Some <$> stamp_fields (default zero_stamp acc) l
    | _ => None
    end
  else Some acc.

Definition probe_fields (acc : option TxStamp) (l : list (bytes * json)) : option (option TxStamp) :=
  foldl (λ acc kv, e ← acc; probe_field e kv) (Some acc) l.

Definition probe (line : bytes) : option TxStamp :=
  match unmarshal line with
  | Some (JObj l) => match probe_fields None l with Some tx => tx | None => None end
  | _ => None
  end.

Definition entry_of_stamped (se : stampedEntry) : Entry :=
  MkEntry (S_ID se) (S_Op se) (default zero_time (parse_time (b_of_s (S_Ts se)))) (S_Rev se)
    (S_Data se) (S_Epoch se) (S_ExpiresAt se) (Some (S_CRC se)).

Definition decodePlain (line : bytes) : res wire_err (Entry * option TxStamp) :=
  match Decode line with
  | Ok e => Ok (e, None)
  | Err e => Err (WStore e)
  end.

Definition decodeSegmentLine (line : bytes) : res wire_err (Entry * option TxStamp) :=
  let trimmed := trim_right line in
  if contains trimmed (quote (b_of_s "tx")) then
    match probe trimmed with
    | Some tx =>
        if decide (st_t tx = "") then decodePlain line
        else
          let* se := parseStamped trimmed in
          Ok (entry_of_stamped se, Some (S_Tx se))
    | None => decodePlain line
    end
  else decodePlain line.

Definition decisions : Type := gmap string string.

Definition entryVisible (tx : option TxStamp) (ds : option decisions) : bool :=
  match tx with
  | None => true
  | Some tx =>
      if decide (st_t tx = "") then true
      else match ds with
           | None => false
           | Some ds =>
               let d := default "" (ds !! st_t tx) in
               bool_decide (d = xtxKindCommit ∨ d = "retire-commit")
           end
  end.

Record stamped_wf (e : stampedEntry) : Prop := {
  swf_id : in_u64 (S_ID e);
  swf_rev : in_u64 (S_Rev e);
  swf_data : match S_Data e with None => True | Some m => data_wf m end;
  swf_epoch : in_u64 (S_Epoch e);
  swf_exp : in_i64 (S_ExpiresAt e);
  swf_i : (st_i (S_Tx e) < 4294967296)%N;
  swf_n : (st_n (S_Tx e) < 4294967296)%N;
  swf_op : str_utf8 (S_Op e);
  swf_ts : str_utf8 (S_Ts e);
  swf_tx : str_utf8 (st_t (S_Tx e))
}.

(** ** Line ends *)

Lemma trim_right_id s : last s ≠ Some newline → trim_right s = s.
Proof.
  induction s as [|c s IH]; intros H; [done|]. cbn [trim_right].
  destruct s as [|d s].
  - simpl in *. rewrite decide_False; [done|congruence].
  - by rewrite IH.
Qed.

Lemma trim_right_newline s c : last s = Some c → c ≠ newline → trim_right (s ++ [newline]) = s.
Proof.
  intros Hl Hc. induction s as [|d s IH]; [done|]. cbn [app trim_right].
  destruct s as [|d' s].
  - cbn [app trim_right]. rewrite decide_True by done. simpl in Hl.
    by rewrite decide_False by congruence.
  - by rewrite IH.
Qed.

(** ** Plain lines are never taken for stamped ones *)

Definition not_tx (kv : bytes * json) : bool := bool_decide (map to_lower kv.1 ≠ b_of_s "tx").

Lemma probe_fields_not_tx l : forallb not_tx l = true → probe_fields None l = Some None.
Proof.
  unfold probe_fields. induction l as [|kv l IH]; [done|]. cbn [forallb foldl].
  intros [H1 H2]%andb_true_iff. unfold not_tx in H1. rewrite bool_decide_eq_true in H1.
  cbn [mbind option_bind]. unfold probe_field at 2. rewrite decide_False by done. by apply IH.
Qed.

Lemma entry_members_not_tx e : forallb not_tx (entry_members e) = true.
Proof.
  unfold entry_members, omit_zero, omit_empty. rewrite !forallb_app, !andb_true_iff.
  split_and!; [done|by destruct (_ =? _)%Z| |by destruct (_ =? _)%Z..|by destruct (CRC e)].
  destruct (Data e); [by case_decide|done].
Qed.

Lemma probe_encode_line e : entry_wf e → probe (encode_line e) = None.
Proof.
  intros H. unfold probe. rewrite unmarshal_encode_line by done.
  by rewrite probe_fields_not_tx by apply entry_members_not_tx.
Qed.

Lemma decodeSegmentLine_plain e :
  entry_wf e → decodeSegmentLine (encode_line e) = decodePlain (encode_line e).
Proof.
  intros H. unfold decodeSegmentLine.
  rewrite trim_right_id by (by rewrite encode_line_last).
  rewrite probe_encode_line by done. by destruct (contains _ _).
Qed.

(** ** Stamped lines *)

Section set_sfield.
Context (id : Z) (op ts : string) (rev : Z) (data : option vdata) (epoch exp : Z).
Context (tx : TxStamp) (c0 : N) (crc : option N) (j : json).

Let r0 := MkRaw (MkStamped id op ts rev data epoch exp tx c0) crc.

Lemma sset_id : set_sfield r0 (member "id" j) =
  v ← dec_u64 id j; Some (MkRaw (MkStamped v op ts rev data epoch exp tx c0) crc).
Proof. reflexivity. Qed.
Lemma sset_op : set_sfield r0 (member "op" j) =
  v ← dec_string op j; Some (MkRaw (MkStamped id v ts rev data epoch exp tx c0) crc).
Proof. reflexivity. Qed.
Lemma sset_ts : set_sfield r0 (member "ts" j) =
  v ← dec_string ts j; Some (MkRaw (MkStamped id op v rev data epoch exp tx c0) crc).
Proof. reflexivity. Qed.
Lemma sset_rev : set_sfield r0 (member "rev" j) =
  v ← dec_u64 rev j; Some (MkRaw (MkStamped id op ts v data epoch exp tx c0) crc).
Proof. reflexivity. Qed.
Lemma sset_data : set_sfield r0 (member "data" j) =
  v ← dec_data data j; Some (MkRaw (MkStamped id op ts rev v epoch exp tx c0) crc).
Proof. reflexivity. Qed.
Lemma sset_epoch : set_sfield r0 (member "epoch" j) =
  v ← dec_u64 epoch j; Some (MkRaw (MkStamped id op ts rev data v exp tx c0) crc).
Proof. reflexivity. Qed.
Lemma sset_exp : set_sfield r0 (member "expires_at" j) =
  v ← dec_i64 exp j; Some (MkRaw (MkStamped id op ts rev data epoch v tx c0) crc).
Proof. reflexivity. Qed.
Lemma sset_tx : set_sfield r0 (member "tx" j) =
  v ← dec_stamp tx j; Some (MkRaw (MkStamped id op ts rev data epoch exp v c0) crc).
Proof. reflexivity. Qed.
Lemma sset_crc : set_sfield r0 (member "crc" j) =
  v ← dec_crc j; Some (MkRaw (MkStamped id op ts rev data epoch exp tx c0) v).
Proof. reflexivity. Qed.
End set_sfield.

Arguments set_sfield : simpl never.

Lemma set_sfields_app r l1 l2 :
  set_sfields r (l1 ++ l2) = r' ← set_sfields r l1; set_sfields r' l2.
Proof.
  unfold set_sfields. rewrite foldl_app.
  destruct (foldl _ (Some r) l1) as [e'|]; [done|]. simpl. by induction l2.
Qed.

Lemma set_sfields_omit_zero r k z j r' :
  (z = 0%Z → r' = r) → set_sfield r (member k j) = Some r' →
  set_sfields r (omit_zero k z j) = Some r'.
Proof. intros H0 H1. unfold omit_zero. destruct (Z.eqb_spec z 0); [by rewrite H0|done]. Qed.

Lemma set_sfields_data id op ts rev epoch exp tx c0 crc d :
  match d with None => True | Some m => data_wf m end → d ≠ Some ∅ →
  set_sfields (MkRaw (MkStamped id op ts rev None epoch exp tx c0) crc) (omit_empty d) =
  Some (MkRaw (MkStamped id op ts rev d epoch exp tx c0) crc).
Proof.
  intros Hwf Hne. destruct d as [m|]; [|done]. cbn [omit_empty].
  rewrite decide_False by congruence.
  change (set_sfield (MkRaw (MkStamped id op ts rev None epoch exp tx c0) crc)
            (member "data" (data_to_json m)) =
          Some (MkRaw (MkStamped id op ts rev (Some m) epoch exp tx c0) crc)).
  by rewrite sset_data, dec_data_json.
Qed.

Lemma dec_u32_fmt n : (n < 4294967296)%N → dec_u32 (JNum (fmt_N n)) = Some n.
Proof. intros H. cbn [dec_u32]. rewrite parse_fmt_N. cbn [mbind option_bind]. by rewrite decide_True. Qed.

Lemma stamp_fields_json tx :
  (st_i tx < 4294967296)%N → (st_n tx < 4294967296)%N →
  dec_stamp zero_stamp (stamp_json tx) = Some tx.
Proof.
  intros Hi Hn. destruct tx as [t i n]; simpl in *.
  assert (Ht : ∀ t0 i0 n0 j, set_stamp_field (MkStamp t0 i0 n0) (member "t" j) =
    v ← dec_string t0 j; Some (MkStamp v i0 n0)) by reflexivity.
  assert (Hi' : ∀ t0 i0 n0 j, set_stamp_field (MkStamp t0 i0 n0) (member "i" j) =
    v ← dec_u32_field i0 j; Some (MkStamp t0 v n0)) by reflexivity.
  assert (Hn' : ∀ t0 i0 n0 j, set_stamp_field (MkStamp t0 i0 n0) (member "n" j) =
    v ← dec_u32_field n0 j; Some (MkStamp t0 i0 v)) by reflexivity.
  unfold stamp_json, dec_stamp, stamp_fields. cbn [foldl mbind option_bind]. unfold zero_stamp.
  rewrite Ht. cbn [dec_string mbind option_bind]. rewrite s_of_b_of_s, Hi'. cbn [dec_u32_field].
  rewrite dec_u32_fmt by done. cbn [mbind option_bind]. rewrite Hn'. cbn [dec_u32_field].
  by rewrite dec_u32_fmt.
Qed.

Lemma set_sfields_stamped e :
  stamped_wf e → S_Data e ≠ Some ∅ → (S_CRC e < 4294967296)%N →
  set_sfields zero_raw (stamped_members e) =
  Some (MkRaw (set_stamped_crc e 0) (Some (S_CRC e))).
Proof.
  intros [Hid Hrev Hdata Hep Hexp Hi Hn _ _ _] Hne Hcrc.
  destruct e as [id op ts rev data ep exp tx crc]. simpl in *.
  unfold stamped_members, zero_raw, set_stamped_crc.
  cbn [S_ID S_Op S_Ts S_Rev S_Data S_Epoch S_ExpiresAt S_Tx S_CRC].
  set (m1 := member "id" _). set (m2 := member "op" _). set (m3 := member "ts" _).
  set (m4 := member "tx" _). set (m5 := member "crc" _).
  change [m1; m2; m3] with ([m1] ++ [m2] ++ [m3]). change [m4; m5] with ([m4] ++ [m5]).
  assert (Hone : ∀ r m, set_sfields r [m] = set_sfield r m) by reflexivity.
  rewrite <- !app_assoc.
  rewrite set_sfields_app, Hone. subst m1. rewrite sset_id, dec_num_u by done. cbn [mbind option_bind].
  rewrite set_sfields_app, Hone. subst m2. rewrite sset_op. cbn [dec_string mbind option_bind].
  rewrite s_of_b_of_s.
  rewrite set_sfields_app, Hone. subst m3. rewrite sset_ts. cbn [dec_string mbind option_bind].
  rewrite s_of_b_of_s.
  rewrite set_sfields_app,
    (set_sfields_omit_zero _ _ _ _ (MkRaw (MkStamped id op ts rev None 0 0 zero_stamp 0) None));
    [|by intros ->|by rewrite sset_rev, dec_num_u]. cbn [mbind option_bind].
  rewrite set_sfields_app, set_sfields_data by done. cbn [mbind option_bind].
  rewrite set_sfields_app,
    (set_sfields_omit_zero _ _ _ _ (MkRaw (MkStamped id op ts rev data ep 0 zero_stamp 0) None));
    [|by intros ->|by rewrite sset_epoch, dec_num_u]. cbn [mbind option_bind].
  rewrite set_sfields_app,
    (set_sfields_omit_zero _ _ _ _ (MkRaw (MkStamped id op ts rev data ep exp zero_stamp 0) None));
    [|by intros ->|by rewrite sset_exp, dec_num_i]. cbn [mbind option_bind].
  rewrite set_sfields_app, Hone. subst m4. rewrite sset_tx, stamp_fields_json by done. cbn [mbind option_bind].
  rewrite Hone. subst m5. rewrite sset_crc, dec_crc_fmt by done. done.
Qed.

Lemma stamped_members_ok e : stamped_wf e → json_ok (JObj (stamped_members e)) = true.
Proof.
  intros [Hid Hrev Hdata Hep Hexp Hi Hn _ _ _]. cbn [json_ok]. unfold stamped_members.
  rewrite !forallb_app, !andb_true_iff. split_and!; auto with scriva.
  - unfold member. cbn [forallb snd]. by rewrite num_u_ok.
  - unfold member, stamp_json. cbn [forallb snd json_ok member]. by rewrite !num_ok_fmt_N.
Qed.

Lemma stamped_members_utf8 e : stamped_wf e → json_utf8 (JObj (stamped_members e)) = true.
Proof.
  intros [_ _ Hdata _ _ _ _ Hop Hts Htx]. change (members_utf8 (stamped_members e) = true). unfold stamped_members.
  assert (json_utf8 (stamp_json (S_Tx e)) = true)
    by (apply (members_utf8_cons "t" (JStr (b_of_s (st_t (S_Tx e))))); [done|exact Htx|auto with utf8]).
  auto 10 with utf8.
Qed.

Lemma probe_stamped e :
  stamped_wf e → probe_fields None (stamped_members e) = Some (Some (S_Tx e)).
Proof.
  intros [Hid Hrev Hdata Hep Hexp Hi Hn _ _ _]. unfold stamped_members.
  set (tl := [member "tx" _; member "crc" _]). rewrite !app_assoc.
  unfold probe_fields. rewrite foldl_app. set (hd := _ ++ omit_zero _ _ _).
  assert (Hhd : forallb not_tx hd = true).
  { subst hd. unfold omit_zero, omit_empty. rewrite !forallb_app, !andb_true_iff.
    split_and!; [done|by destruct (_ =? _)%Z| |by destruct (_ =? _)%Z..].
    destruct (S_Data e); [by case_decide|done]. }
  pose proof (probe_fields_not_tx hd Hhd) as Hp. unfold probe_fields in Hp. rewrite Hp.
  subst tl. cbn [foldl mbind option_bind].
  assert (∀ acc j, probe_field acc (member "tx" j) =
    match j with
    | JNull => Some None
    | JObj l => Some <$> stamp_fields (default zero_stamp acc) l
    | _ => None
    end) as -> by reflexivity.
  pose proof (stamp_fields_json (S_Tx e) Hi Hn) as Hs. unfold stamp_json in Hs |- *.
  cbn [dec_stamp default] in Hs |- *. by rewrite Hs.
Qed.

Lemma sep_by_split (l1 l2 : list bytes) x :
  ∃ p q, sep_by ","%char (l1 ++ x :: l2) = p ++ x ++ q.
Proof.
  induction l1 as [|y l1 (p & q & IH)].
  - destruct l2 as [|z l2]; [exists [], []; by rewrite app_nil_r|].
    exists [], (","%char :: sep_by "," (z :: l2)). done.
  - destruct (l1 ++ x :: l2) as [|b l] eqn:E; [by destruct l1|].
    exists (y ++ ","%char :: p), q. cbn [app]. rewrite E.
    change (sep_by "," (y :: b :: l)) with (y ++ ","%char :: sep_by "," (b :: l)).
    rewrite IH. by rewrite <- app_assoc.
Qed.

Lemma contains_member l1 k j l2 :
  contains (print (JObj (l1 ++ member k j :: l2))) (quote (b_of_s k)) = true.
Proof.
  cbn [print]. rewrite map_app. cbn [map].
  destruct (sep_by_split (map (λ kv, quote kv.1 ++ ":"%char :: print kv.2) l1)
    (map (λ kv, quote kv.1 ++ ":"%char :: print kv.2) l2)
    (quote (member k j).1 ++ ":"%char :: print (member k j).2)) as (p & q & ->).
  replace (_ :: _) with (("{"%char :: p) ++ quote (b_of_s k) ++ (":"%char :: print j) ++ q ++ ["}"%char]);
    [apply contains_app|].
  unfold member. cbn [fst snd app]. rewrite <- !app_assoc. done.
Qed.

Lemma stamped_line_last e : last (print (JObj (stamped_members e))) = Some "}"%char.
Proof. cbn [print]. by rewrite app_comm_cons, last_snoc. Qed.

Lemma bad_position_false tx :
  bad_position tx = false → (st_n tx ≠ 0)%N ∧ (st_i tx < st_n tx)%N.
Proof.
  unfold bad_position. intros [H1 H2]%orb_false_iff.
  apply N.eqb_neq in H1. apply N.leb_gt in H2. done.
Qed.

Lemma encodeStamped_inv e b :
  encodeStamped e = Ok b →
  ∃ sum, sumV2 e = Ok sum ∧ bad_position (S_Tx e) = false ∧ st_t (S_Tx e) ≠ "" ∧
         (sum < 4294967296)%N ∧
         b = print (JObj (stamped_members (set_stamped_crc e sum))) ++ [newline].
Proof.
  unfold encodeStamped. destruct (bad_position _) eqn:Eb; [done|].
  unfold sumV2, checksumV2. case_decide as Hl; [done|]. cbn [res_bind]. intros [= <-].
  eexists. split_and!; [done|done| |apply crc32c_lt|done].
  intros E. apply Hl. left. by rewrite E.
Qed.

Lemma parse_stamped_line e sum :
  stamped_wf e → S_Data e ≠ Some ∅ → sumV2 e = Ok sum → bad_position (S_Tx e) = false →
  st_t (S_Tx e) ≠ "" → (sum < 4294967296)%N →
  parseStamped (print (JObj (stamped_members (set_stamped_crc e sum)))) = Ok (set_stamped_crc e sum).
Proof.
  intros Hwf Hne Hs Hb Ht Hlt. unfold parseStamped.
  assert (Hwf' : stamped_wf (set_stamped_crc e sum)) by (by destruct Hwf; split).
  rewrite trim_right_id by (by rewrite stamped_line_last).
  unfold unmarshal_raw. rewrite unmarshal_print by (by try apply stamped_members_ok; try apply stamped_members_utf8).
  rewrite set_sfields_stamped by done. cbn [raw_e raw_crc S_Tx set_stamped_crc].
  rewrite decide_False by done. rewrite Hb.
  change (sumV2 (set_stamped_crc _ _)) with (sumV2 e). rewrite Hs. cbn [res_bind].
  by rewrite decide_True.
Qed.

Lemma stamped_line_exists e b :
  stamped_wf e → S_Data e ≠ Some ∅ → encodeStamped e = Ok b →
  ∃ l sum, b = l ++ [newline] ∧ newline ∉ l ∧ last l = Some "}"%char ∧ sumV2 e = Ok sum ∧
    decodeSegmentLine l = Ok (entry_of_stamped (set_stamped_crc e sum), Some (S_Tx e)).
Proof.
  intros Hwf Hne (sum & Hs & Hb & Ht & Hlt & ->)%encodeStamped_inv.
  assert (Hwf' : stamped_wf (set_stamped_crc e sum)) by (by destruct Hwf; split).
  set (l := print _). exists l, sum.
  assert (Hc : contains l (quote (b_of_s "tx")) = true).
  { subst l. unfold stamped_members. rewrite !app_assoc. apply contains_member. }
  assert (Hp : probe l = Some (S_Tx e)).
  { unfold probe. subst l. rewrite unmarshal_print by (by try apply stamped_members_ok; try apply stamped_members_utf8).
    by rewrite probe_stamped. }
  split_and!; [done| |apply stamped_line_last|done|].
  - apply clean_no_newline, print_clean. by apply stamped_members_ok.
  - unfold decodeSegmentLine. rewrite trim_right_id by (subst l; rewrite stamped_line_last; discriminate).
    rewrite Hc, Hp, decide_False by done.
    unfold l at 1. rewrite parse_stamped_line by done. done.
Qed.

Lemma decodeSegmentLine_newline l d tx :
  last l = Some "}"%char → decodeSegmentLine l = Ok (d, Some tx) →
  decodeSegmentLine (l ++ [newline]) = decodeSegmentLine l.
Proof.
  intros Hl Hd. unfold decodeSegmentLine in *.
  rewrite (trim_right_newline l "}") by done.
  rewrite trim_right_id in Hd |- * by (rewrite Hl; discriminate).
  assert (Hnp : decodePlain l ≠ Ok (d, Some tx)) by (unfold decodePlain; by destruct (Decode l)).
  destruct (contains _ _); [|done]. destruct (probe l) as [tx0|]; [|done]. by case_decide.
Qed.

(** ** Properties *)

(** a stamped entry survives the line: what [encodeStamped] accepts,
    [decodeSegmentLine] reads back as the same entry under the same stamp, with
    or without the trailing newline a scanner strips. *)
Theorem stamped_roundtrip e b :
  stamped_wf e → S_Data e ≠ Some ∅ → encodeStamped e = Ok b →
  ∃ l sum, b = l ++ [newline] ∧ newline ∉ l ∧ sumV2 e = Ok sum ∧
    decodeSegmentLine l = Ok (entry_of_stamped (set_stamped_crc e sum), Some (S_Tx e)) ∧
    decodeSegmentLine b = decodeSegmentLine l.
Proof.
  intros Hwf Hne (l & sum & -> & Hl & Hlast & Hs & Hd)%stamped_line_exists; [|done..].
  exists l, sum. split_and!; try done. by eapply decodeSegmentLine_newline.
Qed.

(** a plain entry is read back as a plain entry, whatever its data
    holds: even a record with a member named tx never passes for a stamped one. *)
Theorem plain_line_roundtrip e :
  entry_wf e → Data e ≠ Some ∅ →
  decodeSegmentLine (encode_line e) = Ok (set_crc e (checksum e), None).
Proof.
  intros Hwf Hne. rewrite decodeSegmentLine_plain by done. unfold decodePlain.
  by rewrite decode_encode_line.
Qed.

(** a line is read under a transaction's stamp only with the
    domain-separated checksum of exactly the fields it is read with; a stamp
    spliced onto a line that keeps its plain checksum is refused. *)
Theorem stamped_line_authentic line e tx :
  decodeSegmentLine line = Ok (e, Some tx) →
  ∃ se, parseStamped (trim_right line) = Ok se ∧ e = entry_of_stamped se ∧ tx = S_Tx se ∧
        st_t tx ≠ "" ∧ (st_i tx < st_n tx)%N ∧ sumV2 se = Ok (S_CRC se).
Proof.
  unfold decodeSegmentLine. intros H.
  assert (Hnp : decodePlain line ≠ Ok (e, Some tx)) by (unfold decodePlain; by destruct (Decode line)).
  destruct (contains _ _); [|done]. destruct (probe _) as [tx0|]; [|done]. case_decide; [done|].
  destruct (parseStamped (trim_right line)) as [se|] eqn:Ep; [|done]. simpl in H. invc H.
  exists se. split; [done|]. unfold parseStamped in Ep.
  destruct (unmarshal_raw _) as [raw|]; [|done].
  case_decide as Ht; [done|]. destruct (bad_position _) eqn:Eb; [done|].
  destruct (raw_crc raw) as [c|]; [|done].
  destruct (sumV2 _) as [v2|] eqn:Es; [|done]. simpl in Ep.
  case_decide as Hv; [|by case_decide]. invc Ep.
  apply bad_position_false in Eb as [_ Hi]. done.
Qed.


(** ** Witnesses *)

Definition sample_stamped : stampedEntry :=
  MkStamped 9 OpUpdate "2024-02-29T23:59:58Z" 3 (Some sample_data) 0 0 (MkStamp "tx-1" 0 2) 0.

Lemma sample_stamped_wf : stamped_wf sample_stamped.
Proof.
  split; try (unfold in_u64, in_i64, two63, two64; simpl; lia); try done. apply sample_data_wf.
Qed.

Lemma stamped_roundtrip_witness :
  ∃ b l sum, encodeStamped sample_stamped = Ok b ∧ b = l ++ [newline] ∧ newline ∉ l ∧
    sumV2 sample_stamped = Ok sum ∧
    decodeSegmentLine l = Ok (entry_of_stamped (set_stamped_crc sample_stamped sum),
                              Some (MkStamp "tx-1" 0 2)) ∧
    decodeSegmentLine b = decodeSegmentLine l.
Proof.
  destruct (encodeStamped sample_stamped) as [b|] eqn:E; [|vm_compute in E; discriminate].
  exists b. destruct (stamped_roundtrip sample_stamped b) as (l & sum & H);
    [apply sample_stamped_wf|discriminate|exact E|].
  exists l, sum. split; [reflexivity|exact H].
Defined.

Lemma plain_line_roundtrip_witness :
  decodeSegmentLine (encode_line sample_entry) =
  Ok (set_crc sample_entry (checksum sample_entry), None).
Proof. apply (plain_line_roundtrip sample_entry); [apply sample_entry_wf|discriminate]. Defined.

Lemma stamped_line_authentic_witness :
  ∃ line e tx se, decodeSegmentLine line = Ok (e, Some tx) ∧
    parseStamped (trim_right line) = Ok se ∧ sumV2 se = Ok (S_CRC se).
Proof.
  destruct (encodeStamped (MkStamped 9 OpDelete "" 3 None 0 0 (MkStamp "tx-1" 0 2) 0))
    as [b|] eqn:E; [|vm_compute in E; discriminate].
  destruct (decodeSegmentLine b) as [[e [tx|]]|] eqn:Ed;
    [|vm_compute in E; injection E as <-; vm_compute in Ed; discriminate..].
  destruct (stamped_line_authentic b e tx Ed) as (se & H1 & _ & _ & _ & _ & H2).
  exists b, e, tx, se. split_and!; [exact Ed|exact H1|exact H2].
Defined.
