(* ===== verification/Codec.v ===== *)
(** * The interface between segments and the line formats

    A segment appends two kinds of entries, plain ([store.Entry]) and stamped
    ([stampedEntry]), through the same steps: encode, check the size, write,
    roll back on a failure.  [LineCodec] states what those steps need of a
    format; the segment's lemmas are proved from it, and the two formats are its
    instances. *)
From Stdlib Require Import Ascii Lia ZArith.
From stdpp Require Import prelude gmap strings sorting.
From S2P Require Import Prelude GoNum Json Value GoTime Store Wire.

(** A line as it stands in a file, without its newline, and what it reads as. *)
Record good_line (l : bytes) (d : Entry * option TxStamp) : Prop := {
  gl_no_newline : newline ∉ l;
  gl_last : last l = Some "}"%char;
  gl_utf8 : utf8_valid l = true;
  gl_decode : decodeSegmentLine l = Ok d
}.

Class LineCodec (E : Type) := {
  lc_encode : E → res wire_err bytes;
  (** What an appended entry reads back as, for the entries that do. *)
  lc_readable : E → Prop;
  lc_decoded : E → Entry * option TxStamp;
  lc_line : ∀ e b, lc_readable e → lc_encode e = Ok b →
    ∃ l, b = l ++ [newline] ∧ good_line l (lc_decoded e)
}.

(** Plain entries. *)
Definition plain_readable (e : Entry) : Prop := entry_wf e ∧ Data e ≠ Some ∅.

Lemma plain_line_good e :
  plain_readable e → good_line (encode_line e) (set_crc e (checksum e), None).
Proof.
  intros [Hwf Hne]. split.
  - by apply clean_no_newline, encode_line_clean.
  - apply encode_line_last.
  - by apply utf8_valid_spec, print_utf8, entry_members_ok, set_crc_wf.
  - rewrite decodeSegmentLine_plain by done. unfold decodePlain. by rewrite decode_encode_line.
Qed.

#[export] Program Instance plain_codec : LineCodec Entry := {|
  lc_encode e := Ok (Encode e);
  lc_readable := plain_readable;
  lc_decoded e := (set_crc e (checksum e), None)
|}.
Next Obligation.
  simpl. intros e b Hr [= <-]. exists (encode_line e). split; [done|]. by apply plain_line_good.
Qed.

(** Stamped entries. *)
Definition stamped_sum (e : stampedEntry) : N :=
  match sumV2 e with Ok s => s | Err _ => 0 end.

Definition stamped_readable (e : stampedEntry) : Prop := stamped_wf e ∧ S_Data e ≠ Some ∅.

Lemma stamped_line_utf8 e l : stamped_wf e → encodeStamped e = Ok (l ++ [newline]) → utf8_valid l = true.
Proof.
  intros Hwf (sum & _ & _ & _ & Hlt & Hl)%encodeStamped_inv. apply app_inj_tail in Hl as [-> _].
  apply utf8_valid_spec, print_utf8, stamped_members_ok. by destruct Hwf; split.
Qed.

Lemma stamped_line_good e b :
  stamped_readable e → encodeStamped e = Ok b →
  ∃ l, b = l ++ [newline] ∧
    good_line l (entry_of_stamped (set_stamped_crc e (stamped_sum e)), Some (S_Tx e)).
Proof.
  intros [Hwf Hne] He. destruct (stamped_line_exists e b Hwf Hne He) as (l & sum & -> & Hl & Hlast & Hs & Hd).
  exists l. split; [done|]. split; [done|done|by eapply stamped_line_utf8|]. unfold stamped_sum. by rewrite Hs.
Qed.

#[export] Program Instance stamped_codec : LineCodec stampedEntry := {|
  lc_encode := encodeStamped;
  lc_readable := stamped_readable;
  lc_decoded e := (entry_of_stamped (set_stamped_crc e (stamped_sum e)), Some (S_Tx e))
|}.
Next Obligation. simpl. intros e b Hr He. by apply stamped_line_good. Qed.
