(* ===== verification/Segment.v ===== *)
(** * Segments: [engine/segment.go]

    One NDJSON file of a collection, at the level of its bytes: crash recovery
    of a torn tail on open, appends with rollback and poisoning, sealing, and
    the three read paths with the scanner's line limit.

    Every call on the file may fail: an operation takes the list of outcomes of
    the file calls it makes, in order ([FOk] when the list is exhausted).  A
    failed write leaves any number of its bytes behind; a failed truncate or
    sync changes nothing.  File offsets are natural numbers: a file never comes
    near the range of [int64]. *)
From Stdlib Require Import Ascii Lia ZArith.
From stdpp Require Import prelude gmap strings sorting.
From S2P Require Import Prelude GoNum Json Value GoTime Store Wire Codec.

Definition maxScanTokenSize : Z := 16 * 1024 * 1024.

(** ** File calls *)

Inductive fault : Type :=
| FOk
| FFail (k : nat).   (* the call fails; a write leaves [k] bytes *)

Definition next_fault (fs : list fault) : fault * list fault :=
  match fs with
  | [] => (FOk, [])
  | f :: fs' => (f, fs')
  end.

Definition f_ok (f : fault) : bool := match f with FOk => true | FFail _ => false end.

(** The handle of a segment: none, open, or closed by [Close] (which keeps it). *)
Inductive handle : Type := HNone | HOpen | HClosed.

Record Segment : Type := MkSeg {
  path : string;
  disk : bytes;         (* the bytes of the file *)
  size : nat;
  sealed : bool;
  file : handle;
  poisoned : bool
}.

Inductive seg_err : Type :=
| ErrIO
| ErrSealed
| ErrEncode (e : wire_err)
| ErrRecordTooLarge
| ErrSegmentPoisoned
| ErrNilFile             (* a nil handle is dereferenced *)
| ErrEmptyAt
| ErrTooLong             (* bufio.ErrTooLong *)
| ErrDecode (e : wire_err).

Definition with_disk (s : Segment) (d : bytes) : Segment :=
  MkSeg (path s) d (size s) (sealed s) (file s) (poisoned s).
Definition with_size (s : Segment) (n : nat) : Segment :=
  MkSeg (path s) (disk s) n (sealed s) (file s) (poisoned s).
Definition with_poison (s : Segment) : Segment :=
  MkSeg (path s) (disk s) (size s) (sealed s) (file s) true.
Definition with_handle (s : Segment) (sl : bool) (h : handle) : Segment :=
  MkSeg (path s) (disk s) (size s) sl h (poisoned s).

(** [Write] on a handle opened with [O_APPEND]: the bytes go to the end. *)
Definition file_write (h : handle) (d b : bytes) (fs : list fault) : bool * bytes * list fault :=
  match h with
  | HOpen =>
      let '(f, fs') := next_fault fs in
      match f with
      | FOk => (true, d ++ b, fs')
      | FFail k => (false, d ++ take k b, fs')
      end
  | _ => (false, d, fs)
  end.

(** [Truncate] to [n] bytes; a longer length extends the file with zero bytes. *)
Definition truncate_bytes (d : bytes) (n : nat) : bytes :=
  take n d ++ replicate (n - length d) "000"%char.

Definition file_truncate (h : handle) (d : bytes) (n : nat) (fs : list fault) : bool * bytes * list fault :=
  match h with
  | HOpen =>
      let '(f, fs') := next_fault fs in
      if f_ok f then (true, truncate_bytes d n, fs') else (false, d, fs')
  | _ => (false, d, fs)
  end.

Definition file_sync (h : handle) (fs : list fault) : bool * list fault :=
  match h with
  | HOpen => let '(f, fs') := next_fault fs in (f_ok f, fs')
  | _ => (false, fs)
  end.

(** ** Crash recovery of the last line *)

(** The scan from the end of the chunk [b]: [for i := len(b)-1; i >= 0; i--]. *)
Fixpoint last_newline (b : bytes) : option nat :=
  match b with
  | [] => None
  | c :: b' =>
      match last_newline b' with
      | Some i => Some (S i)
      | None => if decide (c = newline) then Some 0 else None
      end
  end.

(** The chunk loop: the chunk from [offset] to the end of the file is searched,
    and [offset] moves back by 512 until it is 0. *)
Fixpoint recover_loop (fuel : nat) (d : bytes) (offset : nat) (fs : list fault)
    : res seg_err (option nat) * list fault :=
  match fuel with
  | 0 => (Ok None, fs)
  | S fuel' =>
      let '(f, fs1) := next_fault fs in
      if negb (f_ok f) then (Err ErrIO, fs1)
      else match last_newline (drop offset d) with
           | Some i => (Ok (Some (offset + i + 1)), fs1)
           | None =>
               if decide (offset = 0) then (Ok None, fs1)
               else recover_loop fuel' d (offset - 512) fs1
           end
  end.

Definition recover_truncate (d : bytes) (n : nat) (fs : list fault)
    : bytes * list fault * res seg_err nat :=
  let '(ok, d', fs1) := file_truncate HOpen d n fs in
  if negb ok then (d, fs1, Err ErrIO)
  else let '(f, fs2) := next_fault fs1 in
       if f_ok f then (d', fs2, Ok n) else (d', fs2, Err ErrIO).

Definition recoverPartialLine (d : bytes) (fs : list fault)
    : bytes * list fault * res seg_err nat :=
  let '(f0, fs0) := next_fault fs in
  if negb (f_ok f0) then (d, fs0, Err ErrIO)
  else if decide (d = []) then (d, fs0, Ok 0)
  else
    let '(f1, fs1) := next_fault fs0 in
    if negb (f_ok f1) then (d, fs1, Err ErrIO)
    else if decide (last d = Some newline) then (d, fs1, Ok (length d))
    else
      let '(r, fs2) := recover_loop (S (length d)) d (length d - 512) fs1 in
      match r with
      | Err e => (d, fs2, Err e)
      | Ok (Some n) => recover_truncate d n fs2
      | Ok None => recover_truncate d 0 fs2
      end.

(** [d] is the content of the file, empty when it does not exist. *)
Definition openActiveSegment (p : string) (d : bytes) (fs : list fault)
    : bytes * list fault * res seg_err Segment :=
  let '(f0, fs0) := next_fault fs in
  if negb (f_ok f0) then (d, fs0, Err ErrIO)
  else
    let '(d', fs1, r) := recoverPartialLine d fs0 in
    match r with
    | Err e => (d', fs1, Err e)
    | Ok n => (d', fs1, Ok (MkSeg p d' n false HOpen false))
    end.

Definition openSealedSegment (p : string) (d : bytes) (n : nat) : Segment :=
  MkSeg p d n true HNone false.

(** ** Appending *)

Definition rollbackLocked (s : Segment) (n : nat) (fs : list fault)
    : Segment * list fault * res seg_err unit :=
  if poisoned s then (s, fs, Err ErrSegmentPoisoned)
  else
    let '(ok, d', fs') := file_truncate (file s) (disk s) n fs in
    if ok then (with_size (with_disk s d') n, fs', Ok tt)
    else (with_poison s, fs', Err ErrSegmentPoisoned).

Definition rollback (s : Segment) (n : nat) (fs : list fault)
    : Segment * list fault * res seg_err unit :=
  if sealed s then (s, fs, Err ErrSealed) else rollbackLocked s n fs.

Section append.
Context {E : Type} `{LineCodec E}.

(** [Append] and [AppendStamped] are this function at the two line formats. *)
Definition append_entry (s : Segment) (e : E) (fs : list fault)
    : Segment * list fault * res seg_err nat :=
  if sealed s then (s, fs, Err ErrSealed)
  else
    match lc_encode e with
    | Err err => (s, fs, Err (ErrEncode err))
    | Ok b =>
        if (maxScanTokenSize <? Z.of_nat (length b))%Z then (s, fs, Err ErrRecordTooLarge)
        else if poisoned s then (s, fs, Err ErrSegmentPoisoned)
        else match file s with
             | HNone => (s, fs, Err ErrNilFile)
             | h =>
                 let offset := size s in
                 let '(ok, d', fs1) := file_write h (disk s) b fs in
                 let s1 := with_disk s d' in
                 if ok then (with_size s1 (size s + length b), fs1, Ok offset)
                 else let '(s2, fs2, r) := rollbackLocked s1 (size s) fs1 in
                      match r with
                      | Ok _ => (s2, fs2, Err ErrIO)
                      | Err err => (s2, fs2, Err err)
                      end
             end
    end.

End append.

Definition Append (s : Segment) (e : Entry) (fs : list fault)
    : Segment * list fault * res seg_err nat := append_entry s e fs.
Definition AppendStamped (s : Segment) (e : stampedEntry) (fs : list fault)
    : Segment * list fault * res seg_err nat := append_entry s e fs.

(** ** Sync, seal and close *)

Definition Sync (s : Segment) (fs : list fault) : list fault * res seg_err unit :=
  if sealed s then (fs, Ok tt)
  else match file s with
       | HNone => (fs, Ok tt)
       | h => let '(ok, fs') := file_sync h fs in
              (fs', if ok then Ok tt else Err ErrIO)
       end.

Definition Seal (s : Segment) (fs : list fault) : Segment * list fault * res seg_err unit :=
  if sealed s then (s, fs, Ok tt)
  else match file s with
       | HNone => (with_handle s true HNone, fs, Ok tt)
       | h =>
           let '(ok, fs1) := file_sync h fs in
           if negb ok then (s, fs1, Err ErrIO)
           else let '(f, fs2) := next_fault fs1 in
                (with_handle s true HNone, fs2, if f_ok f then Ok tt else Err ErrIO)
       end.

Definition closeNoSync (s : Segment) (fs : list fault) : Segment * list fault * res seg_err unit :=
  match file s with
  | HNone => (s, fs, Ok tt)
  | _ => let '(f, fs') := next_fault fs in
         (with_handle s (sealed s) HNone, fs', if f_ok f then Ok tt else Err ErrIO)
  end.

Definition Close (s : Segment) (fs : list fault) : Segment * list fault * res seg_err unit :=
  match file s with
  | HNone => (s, fs, Ok tt)
  | h =>
      let '(ok, fs1) := file_sync h fs in
      if negb ok then (s, fs1, Err ErrIO)
      else let '(f, fs2) := next_fault fs1 in
           (with_handle s (sealed s) HClosed, fs2, if f_ok f then Ok tt else Err ErrIO)
  end.

(** ** Reading *)

(** [bufio.ScanLines] under the limit of [newSegmentScanner]. *)
Inductive token : Type :=
| TEOF
| TTooLong
| TLine (line rest : bytes).

Definition drop_cr (l : bytes) : bytes :=
  match last l with
  | Some c => if decide (c = carriage_return) then take (length l - 1) l else l
  | None => l
  end.

Fixpoint split_newline (s : bytes) : option (bytes * bytes) :=
  match s with
  | [] => None
  | c :: s' =>
      if decide (c = newline) then Some ([], s')
      else match split_newline s' with
           | Some (l, r) => Some (c :: l, r)
           | None => None
           end
  end.

Definition scan_token (s : bytes) : token :=
  match split_newline s with
  | Some (l, r) =>
      if (maxScanTokenSize <? Z.of_nat (length l) + 1)%Z then TTooLong else TLine (drop_cr l) r
  | None =>
      match s with
      | [] => TEOF
      | _ => if (maxScanTokenSize <=? Z.of_nat (length s))%Z then TTooLong else TLine (drop_cr s) []
      end
  end.

Definition ReadStampedAt (s : Segment) (offset : nat) : res seg_err (Entry * option TxStamp) :=
  match scan_token (drop offset (disk s)) with
  | TEOF => Err ErrEmptyAt
  | TTooLong => Err ErrTooLong
  | TLine line _ =>
      match decodeSegmentLine line with
      | Ok d => Ok d
      | Err e => Err (ErrDecode e)
      end
  end.

Definition ReadAt (s : Segment) (offset : nat) : res seg_err Entry :=
  let* d := ReadStampedAt s offset in Ok d.1.

(** The scan loop: the entries handed to [yield], in order, and the error that
    ended the loop, if one did.  A [yield] that stops the scan sees a prefix of
    this list. *)
Definition located : Type := nat * (Entry * option TxStamp).

Fixpoint scan_loop (fuel : nat) (off : nat) (s : bytes) : list located * option seg_err :=
  match fuel with
  | 0 => ([], None)
  | S fuel' =>
      match scan_token s with
      | TEOF => ([], None)
      | TTooLong => ([], Some ErrTooLong)
      | TLine line rest =>
          let off' := off + length line + 1 in
          match line with
          | [] => scan_loop fuel' off' rest
          | _ =>
              match decodeSegmentLine line with
              | Err e => ([], Some (ErrDecode e))
              | Ok d => let '(l, r) := scan_loop fuel' off' rest in ((off, d) :: l, r)
              end
          end
      end
  end.

Definition ScanStampedFromOffset (s : Segment) (from : nat) : list located * option seg_err :=
  let t := drop from (disk s) in scan_loop (S (length t)) from t.

Definition ScanFrom (s : Segment) : list (nat * Entry) * option seg_err :=
  let '(l, r) := ScanStampedFromOffset s 0 in (map (λ x, (x.1, x.2.1)) l, r).

Definition ScanAll (s : Segment) : res seg_err (list Entry) :=
  let '(l, r) := ScanStampedFromOffset s 0 in
  match r with
  | Some e => Err e
  | None => Ok (map (λ x, x.2.1) l)
  end.

(** ** The entries a file holds *)

(** [holds d off ents]: the bytes [d], placed at offset [off], are exactly the
    lines of the located entries [ents]. *)
Inductive holds : bytes → nat → list located → Prop :=
| holds_nil off : holds [] off []
| holds_cons l d rest off ents :
    good_line l d → (Z.of_nat (length l) + 1 ≤ maxScanTokenSize)%Z →
    holds rest (off + length l + 1) ents →
    holds (l ++ newline :: rest) off ((off, d) :: ents).

Lemma split_newline_app l r : newline ∉ l → split_newline (l ++ newline :: r) = Some (l, r).
Proof.
  induction l as [|c l IH]; intros Hn; [done|].
  rewrite not_elem_of_cons in Hn. destruct Hn as [Hc Hn].
  cbn [app split_newline]. rewrite decide_False by congruence. by rewrite IH.
Qed.

Lemma drop_cr_good l d : good_line l d → drop_cr l = l.
Proof. intros [_ Hl _]. unfold drop_cr. by rewrite Hl. Qed.

Lemma good_line_nonempty l d : good_line l d → l ≠ [].
Proof. by intros [_ Hl _] ->. Qed.

Lemma scan_token_good l d rest :
  good_line l d → (Z.of_nat (length l) + 1 ≤ maxScanTokenSize)%Z →
  scan_token (l ++ newline :: rest) = TLine l rest.
Proof.
  intros Hg Hlen. unfold scan_token. rewrite split_newline_app by apply Hg.
  destruct (Z.ltb_spec maxScanTokenSize (Z.of_nat (length l) + 1)); [lia|].
  by rewrite (drop_cr_good _ _ Hg).
Qed.

Lemma holds_scan d off ents fuel :
  holds d off ents → length d < fuel → scan_loop fuel off d = (ents, None).
Proof.
  intros Hh. revert fuel. induction Hh as [off|l d rest off ents Hg Hlen Hh IH]; intros fuel Hf.
  - by destruct fuel.
  - destruct fuel as [|fuel]; [lia|]. cbn [scan_loop]. rewrite (scan_token_good _ _ _ Hg Hlen).
    rewrite (gl_decode _ _ Hg).
    rewrite length_app in Hf. cbn [length] in Hf.
    destruct l as [|c l]; [by apply good_line_nonempty in Hg|].
    rewrite IH by lia. done.
Qed.

Lemma holds_snoc d off ents l e :
  holds d off ents → good_line l e → (Z.of_nat (length l) + 1 ≤ maxScanTokenSize)%Z →
  holds (d ++ l ++ [newline]) off (ents ++ [(off + length d, e)]).
Proof.
  intros Hh Hg Hlen. induction Hh as [off|l' d' rest off ents Hg' Hlen' Hh IH].
  - cbn [app length]. rewrite Nat.add_0_r. apply holds_cons; [done|done|constructor].
  - rewrite <- app_assoc. cbn [app]. apply holds_cons; [done|done|].
    rewrite length_app. cbn [length].
    replace (off + (length l' + S (length rest))) with (off + length l' + 1 + length rest) by lia.
    done.
Qed.

Lemma holds_app d1 d2 off e1 e2 :
  holds d1 off e1 → holds d2 (off + length d1) e2 → holds (d1 ++ d2) off (e1 ++ e2).
Proof.
  intros H1 H2. induction H1 as [off|l d rest off ents Hg Hlen Hh IH].
  - by rewrite Nat.add_0_r in H2.
  - rewrite <- app_assoc. cbn [app]. apply holds_cons; [done|done|]. apply IH.
    rewrite length_app in H2. cbn [length] in H2.
    by replace (off + length l + 1 + length rest) with (off + (length l + S (length rest))) by lia.
Qed.

(** Every entry is found at its offset, whatever follows the lines. *)
Lemma holds_token d off ents o e extra :
  holds d off ents → (o, e) ∈ ents →
  off ≤ o ∧ o < off + length d ∧
  ∃ l rest, scan_token (drop (o - off) (d ++ extra)) = TLine l rest ∧ decodeSegmentLine l = Ok e.
Proof.
  intros Hh. induction Hh as [off|l d rest off ents Hg Hlen Hh IH]; intros Hin.
  - by apply not_elem_of_nil in Hin.
  - apply elem_of_cons in Hin as [[= -> ->]|Hin].
    + split_and!; [lia|rewrite length_app; simpl; lia|].
      rewrite Nat.sub_diag. exists l, (rest ++ extra).
      rewrite <- app_assoc. cbn [app drop]. split; [by eapply scan_token_good|apply Hg].
    + destruct (IH Hin) as (Ho & Ho2 & l' & rest' & Ht & Hd).
      rewrite length_app. cbn [length]. split_and!; [lia|lia|].
      exists l', rest'. split; [|done].
      rewrite <- Ht. f_equal. rewrite <- app_assoc. cbn [app].
      replace (l ++ newline :: rest ++ extra) with ((l ++ [newline]) ++ rest ++ extra)
        by (by rewrite <- app_assoc).
      rewrite drop_app_ge by (rewrite length_app; simpl; lia).
      rewrite length_app. f_equal. simpl. lia.
Qed.

Lemma holds_offsets d off ents :
  holds d off ents → Forall (λ x, off ≤ x.1 < off + length d) ents.
Proof.
  intros Hh. apply Forall_forall. intros [o e] Hin.
  destruct (holds_token _ _ _ _ _ [] Hh Hin) as (? & ? & _). simpl. lia.
Qed.

(** The offsets of a file's entries are distinct. *)
Lemma holds_NoDup d off ents : holds d off ents → NoDup ents.*1.
Proof.
  induction 1 as [|l d rest off ents Hg Hlen Hh IH]; [constructor|]. cbn [fmap list_fmap].
  apply NoDup_cons. split; [|done]. intros Hin. apply list_elem_of_fmap in Hin as ([o e] & Heq & Hin). simpl in Heq. subst o.
  pose proof (holds_offsets _ _ _ Hh) as Hall. rewrite Forall_forall in Hall.
  specialize (Hall _ Hin). simpl in Hall. lia.
Qed.

(** ** Crash recovery *)

Definition valid_size (d : bytes) : nat :=
  match last_newline d with Some i => S i | None => 0 end.

Lemma last_newline_app_r d p i : last_newline p = Some i → last_newline (d ++ p) = Some (length d + i).
Proof. induction d as [|c d IH]; intros H; [done|]. cbn [app last_newline]. by rewrite IH. Qed.

Lemma last_newline_None p : newline ∉ p → last_newline p = None.
Proof.
  induction p as [|c p IH]; [done|]. rewrite not_elem_of_cons. intros [Hc Hp]. cbn [last_newline].
  rewrite IH by done. by rewrite decide_False by congruence.
Qed.

Lemma last_newline_torn d p : newline ∉ p → last_newline (d ++ p) = last_newline d.
Proof.
  intros Hp. induction d as [|c d IH]; [by apply last_newline_None|].
  cbn [app last_newline]. by rewrite IH.
Qed.

Lemma last_newline_lt d i : last_newline d = Some i → i < length d.
Proof.
  revert i. induction d as [|c d IH]; intros i; [done|]. cbn [last_newline length].
  destruct (last_newline d) as [j|]; [intros [= <-]; specialize (IH _ eq_refl); lia|].
  case_decide; [|done]. intros [= <-]. lia.
Qed.

Lemma last_newline_inv d :
  match last_newline d with
  | Some i => ∃ a b, d = a ++ newline :: b ∧ length a = i ∧ newline ∉ b
  | None => newline ∉ d
  end.
Proof.
  induction d as [|c d IH]; [by apply not_elem_of_nil|]. cbn [last_newline].
  destruct (last_newline d) as [i|].
  - destruct IH as (a & b & -> & <- & Hb). by exists (c :: a), b.
  - case_decide as Hc; [by subst; exists [], d|]. rewrite not_elem_of_cons. split; [congruence|done].
Qed.

Lemma valid_size_le d : valid_size d ≤ length d.
Proof. unfold valid_size. destruct (last_newline d) eqn:E; [|lia]. by apply last_newline_lt in E. Qed.

Lemma recover_loop_spec fuel d offset fs r fs' :
  offset < fuel → recover_loop fuel d offset fs = (Ok r, fs') →
  r = match last_newline d with Some i => Some (S i) | None => None end.
Proof.
  revert offset fs. induction fuel as [|fuel IH]; intros offset fs Hf H; [lia|].
  cbn [recover_loop] in H. destruct (next_fault fs) as [f fs1]. destruct (f_ok f); [|done]. simpl in H.
  destruct (last_newline (drop offset d)) as [i|] eqn:E.
  - destruct (decide (offset ≤ length d)) as [Hle|Hgt].
    + rewrite <- (take_drop offset d). rewrite (last_newline_app_r _ _ _ E).
      rewrite length_take_le by done. invc H. f_equal. lia.
    + rewrite drop_ge in E by lia. done.
  - destruct (decide (offset = 0)) as [->|Hnz].
    + rewrite drop_0 in E. rewrite E. by invc H.
    + apply (IH (offset - 512) fs1); [lia|done].
Qed.

Arguments recover_loop : simpl never.
Arguments scan_loop : simpl never.

Lemma truncate_bytes_le d n : n ≤ length d → truncate_bytes d n = take n d.
Proof.
  intros H. unfold truncate_bytes. replace (n - length d) with 0 by lia. simpl. by rewrite app_nil_r.
Qed.

Lemma recover_truncate_spec d n fs d' fs' r :
  n ≤ length d → recover_truncate d n fs = (d', fs', r) →
  (d' = d ∨ d' = take n d) ∧ (∀ m, r = Ok m → m = n ∧ d' = take n d).
Proof.
  intros Hn. unfold recover_truncate, file_truncate. destruct (next_fault fs) as [f fs1].
  destruct (f_ok f); simpl.
  - rewrite truncate_bytes_le by done. destruct (next_fault fs1) as [f2 fs2].
    destruct (f_ok f2); intros [= <- <- <-]; (split; [by right|]); intros m Hm; by invc Hm.
  - intros [= <- <- <-]. split; [by left|done].
Qed.

(** Recovery keeps the file or cuts it after its last newline; when it succeeds
    it has cut it. *)
Lemma recoverPartialLine_spec d fs d' fs' r :
  recoverPartialLine d fs = (d', fs', r) →
  (d' = d ∨ d' = take (valid_size d) d) ∧
  (∀ n, r = Ok n → n = valid_size d ∧ d' = take (valid_size d) d).
Proof.
  unfold recoverPartialLine. destruct (next_fault fs) as [f0 fs0].
  destruct (f_ok f0); simpl; [|by intros [= <- <- <-]; split; [left|]].
  case_decide as Hd.
  { intros [= <- <- <-]. subst d. split; [by left|]. intros n [= <-]. done. }
  destruct (next_fault fs0) as [f1 fs1].
  destruct (f_ok f1); simpl; [|by intros [= <- <- <-]; split; [left|]].
  case_decide as Hl.
  { intros [= <- <- <-]. split; [by left|]. intros n [= <-].
    apply last_Some in Hl as [d0 ->].
    assert (valid_size (d0 ++ [newline]) = length (d0 ++ [newline])) as E.
    { unfold valid_size. rewrite (last_newline_app_r _ _ 0) by done. rewrite length_app. simpl. lia. }
    rewrite E. split; [done|]. by rewrite take_ge. }
  destruct (recover_loop _ _ _ _) as [[o|e] fs2] eqn:El; [|by intros [= <- <- <-]; split; [left|]].
  apply recover_loop_spec in El; [|lia].
  assert (Hv : match o with Some n => n | None => 0 end = valid_size d)
    by (unfold valid_size; rewrite El; by destruct (last_newline d)).
  intros H. rewrite <- Hv in *.
  assert (match o with Some n => n | None => 0 end ≤ length d) by (rewrite Hv; apply valid_size_le).
  destruct o; by eapply recover_truncate_spec in H.
Qed.

Lemma holds_valid_size d off ents p : holds d off ents → newline ∉ p → valid_size (d ++ p) = length d.
Proof.
  intros Hh Hp. unfold valid_size. rewrite last_newline_torn by done.
  induction Hh as [|l e rest off ents Hg Hlen Hh IH]; [done|].
  rewrite length_app. cbn [length].
  destruct (last_newline rest) as [i|] eqn:E.
  - rewrite (last_newline_app_r l (newline :: rest) (S i)) by (cbn [last_newline]; by rewrite E). lia.
  - rewrite (last_newline_app_r l (newline :: rest) 0); [lia|].
    cbn [last_newline]. rewrite E. by rewrite decide_True.
Qed.

(** ** The segment invariant *)

(** The file is at least as long as [size], the bytes up to [size] are the lines
    of the entries, and there are no other bytes unless the segment is poisoned. *)
Record seg_inv (s : Segment) (ents : list located) : Prop := {
  si_le : size s ≤ length (disk s);
  si_holds : holds (take (size s) (disk s)) 0 ents;
  si_clean : poisoned s = false → size s = length (disk s)
}.

(** What a failed operation may do to a segment: nothing a reader can see, and
    nothing at all unless it poisons it. *)
Record undone (s s' : Segment) : Prop := {
  un_size : size s' = size s;
  un_prefix : take (size s) (disk s') = take (size s) (disk s);
  un_len : size s ≤ length (disk s');
  un_clean : poisoned s' = false → disk s' = disk s ∧ poisoned s = false;
  un_sealed : sealed s' = sealed s;
  un_path : path s' = path s;
  un_file : file s' = file s
}.

Lemma undone_inv s s' ents : seg_inv s ents → undone s s' → seg_inv s' ents.
Proof.
  intros [Hle Hh Hc] [Hs Hp Hl Hcl _ _ _]. split.
  - lia.
  - by rewrite Hs, Hp.
  - intros Hpo. destruct (Hcl Hpo) as [-> ?]. rewrite Hs. auto.
Qed.

Lemma undone_refl s : size s ≤ length (disk s) → undone s s.
Proof. by split. Qed.

(** A failed write followed by the rollback to [size]. *)
Lemma rollbackLocked_undo s extra fs s' fs' r :
  poisoned s = false → size s = length (disk s) →
  rollbackLocked (with_disk s (disk s ++ extra)) (size s) fs = (s', fs', r) → undone s s'.
Proof.
  intros Hp Hs. unfold rollbackLocked. simpl. rewrite Hp. unfold file_truncate.
  assert (Ht : truncate_bytes (disk s ++ extra) (size s) = disk s).
  { rewrite truncate_bytes_le by (rewrite length_app; lia). rewrite Hs. apply take_app_length. }
  destruct (file s).
  1, 3: intros [= <- <- <-]; split; simpl; try done;
    [by rewrite Hs, take_app_length, take_ge|rewrite length_app; lia].
  destruct (next_fault fs) as [f fs1]. destruct (f_ok f); intros [= <- <- <-]; split; simpl; try done.
  - by rewrite Ht.
  - rewrite Ht. lia.
  - by rewrite Hs, take_app_length, take_ge.
  - rewrite length_app. lia.
Qed.

Section append_lemmas.
Context {E : Type} `{LineCodec E}.

Lemma append_entry_Err s (e : E) fs s' fs' err ents :
  seg_inv s ents → append_entry s e fs = (s', fs', Err err) → undone s s'.
Proof.
  intros [Hle Hh Hc]. unfold append_entry.
  destruct (sealed s) eqn:Es; [intros [= <- <- <-]; by apply undone_refl|].
  destruct (lc_encode e) as [b|we]; [|intros [= <- <- <-]; by apply undone_refl].
  destruct (_ <? _)%Z; [intros [= <- <- <-]; by apply undone_refl|].
  destruct (poisoned s) eqn:Ep; [intros [= <- <- <-]; by apply undone_refl|].
  specialize (Hc eq_refl).
  assert (Hroll : ∀ extra fs1,
    (let '(s2, fs2, r) := rollbackLocked (with_disk s (disk s ++ extra)) (size s) fs1 in
     match r with Ok _ => (s2, fs2, Err ErrIO) | Err err => (s2, fs2, Err err) end) =
    (s', fs', @Err seg_err nat err) → undone s s').
  { intros extra fs1. destruct (rollbackLocked _ _ _) as [[s2 fs2] r] eqn:Er.
    apply rollbackLocked_undo in Er; [|done..]. by destruct r; intros [= <- <- <-]. }
  destruct (file s) eqn:Ef.
  - intros [= <- <- <-]; by apply undone_refl.
  - simpl. destruct (next_fault fs) as [[|k] fs1]; [done|]. apply Hroll.
  - simpl. intros Hr. apply (Hroll [] fs). by rewrite app_nil_r.
Qed.

Lemma append_entry_Ok s (e : E) fs s' fs' o :
  poisoned s = false → size s = length (disk s) → append_entry s e fs = (s', fs', Ok o) →
  ∃ b, lc_encode e = Ok b ∧ (Z.of_nat (length b) ≤ maxScanTokenSize)%Z ∧ sealed s = false ∧
       file s = HOpen ∧ o = size s ∧ s' = with_size (with_disk s (disk s ++ b)) (size s + length b).
Proof.
  intros Hp Hs. unfold append_entry. destruct (sealed s); [done|].
  destruct (lc_encode e) as [b|]; [|done].
  destruct (Z.ltb_spec maxScanTokenSize (Z.of_nat (length b))); [done|].
  rewrite Hp. destruct (file s) eqn:Ef; [done| |].
  - simpl. destruct (next_fault fs) as [[|k] fs1].
    + intros [= <- <- <-]. by exists b.
    + destruct (rollbackLocked _ _ _) as [[s2 fs2] [|]]; done.
  - simpl. destruct (rollbackLocked _ _ _) as [[s2 fs2] [|]]; done.
Qed.

Lemma append_entry_poisoned s (e : E) fs :
  poisoned s = true → ∃ err, append_entry s e fs = (s, fs, Err err).
Proof.
  intros Hp. unfold append_entry. destruct (sealed s); [eauto|].
  destruct (lc_encode e); [|eauto]. destruct (_ <? _)%Z; [eauto|]. rewrite Hp. eauto.
Qed.

(** Only a failed rollback poisons, and it says so. *)
Lemma append_entry_unpoisoned s (e : E) fs s' fs' err :
  poisoned s = false → append_entry s e fs = (s', fs', Err err) → err ≠ ErrSegmentPoisoned →
  poisoned s' = false.
Proof.
  intros Hp. unfold append_entry. rewrite Hp.
  destruct (sealed s); [by intros [= <- <- <-]|].
  destruct (lc_encode e); [|by intros [= <- <- <-]].
  destruct (_ <? _)%Z; [by intros [= <- <- <-]|].
  destruct (file s) eqn:Ef; [by intros [= <- <- <-]|..]; simpl;
    [destruct (next_fault fs) as [[|k] fs1]; [done|]|];
    unfold rollbackLocked, file_truncate; simpl; rewrite Hp, Ef; [|by intros [= <- <- <-]].
  destruct (next_fault fs1) as [f fs2]. destruct (f_ok f); by intros [= <- <- <-].
Qed.

Lemma append_entry_poisons s (e : E) fs s' fs' :
  poisoned s = false → append_entry s e fs = (s', fs', Err ErrSegmentPoisoned) → poisoned s' = true.
Proof.
  intros Hp. unfold append_entry. rewrite Hp.
  destruct (sealed s); [done|]. destruct (lc_encode e); [|done]. destruct (_ <? _)%Z; [done|].
  destruct (file s) eqn:Ef; [done|..]; simpl;
    [destruct (next_fault fs) as [[|k] fs1]; [done|]|];
    unfold rollbackLocked, file_truncate; simpl; rewrite Hp, Ef; [|by intros [= <- <-]].
  destruct (next_fault fs1) as [f fs2]. destruct (f_ok f); by intros [= <- <-].
Qed.

(** The effect of an append on the entries, for every outcome. *)
Lemma append_entry_spec s (e : E) fs s' fs' r ents :
  seg_inv s ents → append_entry s e fs = (s', fs', r) →
  match r with
  | Ok o => o = size s ∧ poisoned s' = false ∧ sealed s' = false ∧ path s' = path s ∧ file s' = HOpen ∧
            (lc_readable e → seg_inv s' (ents ++ [(o, lc_decoded e)]))
  | Err _ => undone s s'
  end.
Proof.
  intros Hi Ha. destruct r as [o|err]; [|by eapply append_entry_Err].
  destruct (poisoned s) eqn:Ep.
  { destruct (append_entry_poisoned s e fs Ep) as [err Herr]. rewrite Ha in Herr. done. }
  destruct Hi as [Hle Hh Hc]. specialize (Hc Ep).
  apply append_entry_Ok in Ha as (b & Hb & Hlen & Hse & Hf & -> & ->); [|done..].
  rewrite Hc, take_ge in Hh by done.
  split_and!; [done|done|done|done|done|].
  intros Hr. destruct (lc_line e b Hr Hb) as (l & -> & Hg).
  rewrite length_app in Hlen. simpl in Hlen. split; simpl.
  - rewrite !length_app. lia.
  - rewrite Hc, take_ge by (rewrite !length_app; lia).
    apply (holds_snoc _ 0); [done|done|lia].
  - intros _. rewrite !length_app. lia.
Qed.

End append_lemmas.

(** ** Reading a segment back *)

Lemma read_entry s ents o d : seg_inv s ents → (o, d) ∈ ents → ReadStampedAt s o = Ok d.
Proof.
  intros [Hle Hh _] Hin.
  destruct (holds_token _ _ _ _ _ (drop (size s) (disk s)) Hh Hin) as (_ & _ & l & rest & Ht & Hd).
  rewrite take_drop, Nat.sub_0_r in Ht. unfold ReadStampedAt. by rewrite Ht, Hd.
Qed.

Lemma scan_entries s ents :
  seg_inv s ents → poisoned s = false → ScanStampedFromOffset s 0 = (ents, None).
Proof.
  intros [Hle Hh Hc] Hp. unfold ScanStampedFromOffset. rewrite drop_0.
  rewrite (Hc Hp), take_ge in Hh by done. apply holds_scan; [done|lia].
Qed.

Lemma Append_step s e fs s' fs' r ents :
  seg_inv s ents → Append s e fs = (s', fs', r) →
  match r with
  | Ok o => o = size s ∧ poisoned s' = false ∧ sealed s' = false ∧ path s' = path s ∧ file s' = HOpen ∧
            (plain_readable e → seg_inv s' (ents ++ [(o, (set_crc e (checksum e), None))]))
  | Err _ => undone s s'
  end.
Proof. intros Hi Ha. exact (append_entry_spec s e fs s' fs' r ents Hi Ha). Qed.

Lemma rollback_spec s n fs s' fs' r :
  n ≤ length (disk s) → rollback s n fs = (s', fs', r) →
  match r with
  | Ok _ => disk s' = take n (disk s) ∧ size s' = n ∧ poisoned s' = false ∧ poisoned s = false ∧
            sealed s' = sealed s ∧ path s' = path s ∧ file s' = file s
  | Err _ => disk s' = disk s ∧ size s' = size s ∧ sealed s' = sealed s ∧ path s' = path s ∧
             (poisoned s' = true ∨ sealed s = true ∧ s' = s)
  end.
Proof.
  intros Hn. unfold rollback. destruct (sealed s) eqn:Es.
  { intros [= <- <- <-]. split_and!; auto. }
  unfold rollbackLocked. destruct (poisoned s) eqn:Ep.
  { intros [= <- <- <-]. split_and!; auto. }
  unfold file_truncate. destruct (file s) eqn:Ef.
  1, 3: intros [= <- <- <-]; simpl; split_and!; auto.
  destruct (next_fault fs) as [f fs1].
  destruct (f_ok f); intros [= <- <- <-]; simpl; rewrite ?truncate_bytes_le by done; split_and!; auto.
Qed.

(** ** Runs of a segment *)

Inductive seg_op : Type :=
| DoAppend (e : Entry)
| DoAppendStamped (e : stampedEntry)
| DoSync
| DoSeal
| DoCloseNoSync
| DoClose.

(** The entries an operation asks to be readable later. *)
Definition op_readable (op : seg_op) : Prop :=
  match op with
  | DoAppend e => plain_readable e
  | DoAppendStamped e => stamped_readable e
  | _ => True
  end.

(** One operation: the new state and the entry it acknowledged, if any. *)
Definition run_op (s : Segment) (op : seg_op) (fs : list fault) : Segment * list fault * list located :=
  match op with
  | DoAppend e =>
      let '(s', fs', r) := Append s e fs in
      (s', fs', match r with Ok o => [(o, lc_decoded e)] | Err _ => [] end)
  | DoAppendStamped e =>
      let '(s', fs', r) := AppendStamped s e fs in
      (s', fs', match r with Ok o => [(o, lc_decoded e)] | Err _ => [] end)
  | DoSync => let '(fs', _) := Sync s fs in (s, fs', [])
  | DoSeal => let '(s', fs', _) := Seal s fs in (s', fs', [])
  | DoCloseNoSync => let '(s', fs', _) := closeNoSync s fs in (s', fs', [])
  | DoClose => let '(s', fs', _) := Close s fs in (s', fs', [])
  end.

Fixpoint run_ops (s : Segment) (ops : list seg_op) (fs : list fault) : Segment * list located :=
  match ops with
  | [] => (s, [])
  | op :: ops' =>
      let '(s1, fs1, acks) := run_op s op fs in
      let '(s2, acks') := run_ops s1 ops' fs1 in
      (s2, acks ++ acks')
  end.

Lemma with_handle_inv s sl h ents : seg_inv s ents → seg_inv (with_handle s sl h) ents.
Proof. by intros []; split. Qed.

Lemma run_op_inv s op fs s' fs' acks ents :
  seg_inv s ents → op_readable op → run_op s op fs = (s', fs', acks) → seg_inv s' (ents ++ acks).
Proof.
  intros Hi Hr. destruct op as [e|e| | | |]; cbn [run_op].
  - destruct (Append s e fs) as [[s1 fs1] r] eqn:Ea. intros [= <- <- <-].
    apply (append_entry_spec s e fs _ _ _ ents Hi) in Ea. destruct r as [o|err].
    + destruct Ea as (_ & _ & _ & _ & _ & Hinv). by apply Hinv.
    + rewrite app_nil_r. by eapply undone_inv.
  - destruct (AppendStamped s e fs) as [[s1 fs1] r] eqn:Ea. intros [= <- <- <-].
    apply (append_entry_spec s e fs _ _ _ ents Hi) in Ea. destruct r as [o|err].
    + destruct Ea as (_ & _ & _ & _ & _ & Hinv). by apply Hinv.
    + rewrite app_nil_r. by eapply undone_inv.
  - destruct (Sync s fs). intros [= <- <- <-]. by rewrite app_nil_r.
  - unfold Seal. intros H. repeat dest_match_in H; simplify_eq; rewrite app_nil_r;
      by repeat apply with_handle_inv.
  - unfold closeNoSync. intros H. repeat dest_match_in H; simplify_eq; rewrite app_nil_r;
      by repeat apply with_handle_inv.
  - unfold Close. intros H. repeat dest_match_in H; simplify_eq; rewrite app_nil_r;
      by repeat apply with_handle_inv.
Qed.

Lemma run_ops_inv ops s fs s' acks ents :
  seg_inv s ents → Forall op_readable ops → run_ops s ops fs = (s', acks) → seg_inv s' (ents ++ acks).
Proof.
  revert s fs acks ents. induction ops as [|op ops IH]; intros s fs acks ents Hi Hr; cbn [run_ops].
  { intros [= <- <-]. by rewrite app_nil_r. }
  apply Forall_cons in Hr as [Hop Hr].
  destruct (run_op s op fs) as [[s1 fs1] a1] eqn:E1.
  destruct (run_ops s1 ops fs1) as [s2 a2] eqn:E2. intros [= <- <-]. rewrite app_assoc.
  eapply IH; [|done|done]. by eapply run_op_inv.
Qed.

(** ** Reopening after a crash *)

Lemma open_spec p d fs d' fs' s :
  openActiveSegment p d fs = (d', fs', Ok s) →
  d' = take (valid_size d) d ∧ s = MkSeg p d' (valid_size d) false HOpen false.
Proof.
  unfold openActiveSegment. destruct (next_fault fs) as [f fs1]. destruct (f_ok f); [|done]. simpl.
  destruct (recoverPartialLine d fs1) as [[d1 fs2] [n|]] eqn:E; [|done].
  apply recoverPartialLine_spec in E as [_ Hn]. destruct (Hn n eq_refl) as [-> ->].
  by intros [= <- <- <-].
Qed.

Lemma open_torn p d ents torn fs d' fs' s :
  holds d 0 ents → newline ∉ torn → openActiveSegment p (d ++ torn) fs = (d', fs', Ok s) →
  d' = d ∧ seg_inv s ents ∧ disk s = d ∧ poisoned s = false ∧ sealed s = false.
Proof.
  intros Hh Ht Ho. apply open_spec in Ho as [-> ->].
  rewrite (holds_valid_size _ _ _ _ Hh Ht), take_app_length. split_and!; try done.
  split; simpl; [done|by rewrite take_ge|done].
Qed.

Lemma no_newline_take k (l : bytes) : newline ∉ l → newline ∉ take k l.
Proof. intros H Hin. apply H. eapply elem_of_take in Hin as (i & Hi & _). by eapply list_elem_of_lookup_2. Qed.

(** ** Properties *)

(** Claim C3: an append of a readable entry (fields in the range of their Go types,
    strings in UTF-8, data that is not the empty map) is all or nothing for every
    outcome of the file calls.  On success the entry starts at the old size, reads
    back there, and every earlier entry still reads back; on an error the size and
    the bytes before it are unchanged, and nothing at all has changed unless the
    segment is poisoned. *)
Theorem append_atomic s e fs s' fs' r ents :
  seg_inv s ents → plain_readable e → Append s e fs = (s', fs', r) →
  match r with
  | Ok o => o = size s ∧ ReadStampedAt s' o = Ok (set_crc e (checksum e), None) ∧
            (∀ o' d, (o', d) ∈ ents → ReadStampedAt s' o' = Ok d) ∧
            ScanStampedFromOffset s' 0 = (ents ++ [(o, (set_crc e (checksum e), None))], None)
  | Err _ => undone s s' ∧ seg_inv s' ents
  end.
Proof.
  intros Hi Hr Ha. pose proof (Append_step _ _ _ _ _ _ _ Hi Ha) as H. destruct r as [o|err].
  - destruct H as (-> & Hp & _ & _ & _ & Hinv). specialize (Hinv Hr). split_and!; [done|..].
    + eapply read_entry; [done|]. apply elem_of_app. right. by apply list_elem_of_singleton.
    + intros o' d Hin. eapply read_entry; [done|]. apply elem_of_app. by left.
    + by apply scan_entries.
  - split; [done|]. by eapply undone_inv.
Qed.

(** after any sequence of operations (appends of both kinds, syncs,
    seals, closes) under any failures of the file calls, the segment holds
    exactly the entries it held before and the ones it acknowledged, in order,
    and each of them reads back at the offset it was acknowledged at. *)
Theorem acknowledged_entries_readable s ops fs s' acks ents :
  seg_inv s ents → Forall op_readable ops → run_ops s ops fs = (s', acks) →
  seg_inv s' (ents ++ acks) ∧ ∀ o d, (o, d) ∈ ents ++ acks → ReadStampedAt s' o = Ok d.
Proof.
  intros Hi Hr Hrun. assert (Hinv : seg_inv s' (ents ++ acks)) by (by eapply run_ops_inv).
  split; [done|]. intros o d. by apply read_entry.
Qed.

(** Claim C4: a crash in the middle of an append of a readable entry (fields in range,
    strings in UTF-8, data that is not the empty map) whose line is within the
    scanner's limit loses nothing that was acknowledged: reopening the file with the
    first [k] bytes of the new line gives the old entries when the line is
    incomplete, and the old entries and the new one when all its bytes reached the
    file. *)
Theorem crash_recovery s e ents k p fs d' fs' s' :
  seg_inv s ents → poisoned s = false → plain_readable e →
  (Z.of_nat (length (Encode e)) ≤ maxScanTokenSize)%Z →
  openActiveSegment p (disk s ++ take k (Encode e)) fs = (d', fs', Ok s') →
  poisoned s' = false ∧
  (k < length (Encode e) → disk s' = disk s ∧ seg_inv s' ents) ∧
  (length (Encode e) ≤ k →
   seg_inv s' (ents ++ [(length (disk s), (set_crc e (checksum e), None))])).
Proof.
  intros [Hle Hh Hc] Hp Hr Hmax Ho. specialize (Hc Hp). rewrite Hc, take_ge in Hh by done.
  pose proof (plain_line_good e Hr) as Hg. rewrite Encode_line in *.
  rewrite length_app in *. cbn [length] in *.
  destruct (decide (k < length (encode_line e) + 1)) as [Hk|Hk].
  - rewrite take_app_le in Ho by lia.
    eapply open_torn in Ho as (-> & Hi & -> & Hpo & _); [|done|by apply no_newline_take, Hg].
    split_and!; [done|done|lia].
  - rewrite (take_ge (_ ++ _)) in Ho by (rewrite length_app; cbn [length]; lia).
    rewrite <- (app_nil_r (disk s ++ _)) in Ho.
    assert (Hh' := holds_snoc _ 0 _ _ _ Hh Hg ltac:(lia)).
    eapply open_torn in Ho as (-> & Hi & _ & Hpo & _); [|exact Hh'|by apply not_elem_of_nil].
    split_and!; [done|lia|done].
Qed.

(** a poisoned segment refuses every later append and leaves its file
    alone; so does a sealed one. *)
Theorem poisoned_refuses s e fs :
  poisoned s = true ∨ sealed s = true → ∃ err, Append s e fs = (s, fs, Err err).
Proof.
  intros [Hp|Hs]; [by apply append_entry_poisoned|]. exists ErrSealed. unfold Append, append_entry.
  by rewrite Hs.
Qed.

(** crash recovery keeps exactly the bytes up to the last newline: it
    never cuts a complete line, whatever the file holds, and running it again
    changes nothing. *)
Theorem recovery_exact d fs d' fs' n :
  recoverPartialLine d fs = (d', fs', Ok n) →
  n = valid_size d ∧ d' = take n d ∧ newline ∉ drop n d ∧
  (d' = [] ∨ last d' = Some newline) ∧ valid_size d' = n.
Proof.
  intros H. apply recoverPartialLine_spec in H as [_ H]. destruct (H n eq_refl) as [-> ->].
  pose proof (last_newline_inv d) as Hl. unfold valid_size. split; [done|].
  destruct (last_newline d) as [i|].
  - destruct Hl as (a & b & -> & <- & Hb).
    assert (Ht : take (S (length a)) (a ++ newline :: b) = a ++ [newline]).
    { rewrite take_app, take_ge by lia. by replace (S (length a) - length a) with 1 by lia. }
    assert (Hd : drop (S (length a)) (a ++ newline :: b) = b).
    { rewrite drop_app, drop_ge by lia. by replace (S (length a) - length a) with 1 by lia. }
    rewrite Ht, Hd. split_and!; [done|done|right; by rewrite last_snoc|].
    rewrite (last_newline_app_r _ _ 0) by done. lia.
  - rewrite drop_0, take_0. split_and!; auto.
Qed.

(** ** Witnesses *)

Definition fresh_segment : Segment := MkSeg "seg_000001.ndjson" [] 0 false HOpen false.

Lemma fresh_inv : seg_inv fresh_segment [].
Proof. split; simpl; [lia|constructor|done]. Qed.

Lemma sample_readable : plain_readable sample_entry.
Proof. split; [apply sample_entry_wf|discriminate]. Qed.

(** The write fails after 5 bytes and the rollback succeeds. *)
Lemma append_atomic_witness :
  ∃ s' fs' err, Append fresh_segment sample_entry [FFail 5; FOk] = (s', fs', Err err) ∧
    undone fresh_segment s' ∧ seg_inv s' [].
Proof.
  destruct (Append fresh_segment sample_entry [FFail 5; FOk]) as [[s' fs'] [o|err]] eqn:E;
    [vm_compute in E; discriminate|].
  exists s', fs', err. split; [reflexivity|].
  exact (append_atomic fresh_segment sample_entry _ s' fs' _ [] fresh_inv sample_readable E).
Defined.

Lemma acknowledged_entries_readable_witness :
  ∃ s' acks, run_ops fresh_segment [DoAppend sample_entry; DoSync; DoSeal] [FOk; FFail 0] = (s', acks) ∧
    length acks = 1 ∧ ∀ o d, (o, d) ∈ [] ++ acks → ReadStampedAt s' o = Ok d.
Proof.
  destruct (run_ops fresh_segment [DoAppend sample_entry; DoSync; DoSeal] [FOk; FFail 0])
    as [s' acks] eqn:E.
  exists s', acks. split_and!; [reflexivity|vm_compute in E; by injection E as <- <-|].
  refine (proj2 (acknowledged_entries_readable _ _ _ s' acks [] fresh_inv _ E)).
  repeat first [apply Forall_cons; split|apply Forall_nil]; apply sample_readable || done.
Defined.

Lemma crash_recovery_witness :
  ∃ d' fs' s', openActiveSegment "seg_000001.ndjson" ([] ++ take 3 (Encode sample_entry)) [] =
    (d', fs', Ok s') ∧ disk s' = [].
Proof.
  destruct (openActiveSegment "seg_000001.ndjson" ([] ++ take 3 (Encode sample_entry)) [])
    as [[d' fs'] [s'|]] eqn:E; [|vm_compute in E; discriminate].
  exists d', fs', s'. split; [reflexivity|].
  destruct (crash_recovery fresh_segment sample_entry [] 3 _ _ d' fs' s'
              fresh_inv eq_refl sample_readable ltac:(by vm_compute) E) as (_ & H & _).
  by destruct (H ltac:(apply Nat.ltb_lt; by vm_compute)).
Defined.

Lemma poisoned_refuses_witness :
  ∃ err, Append (with_poison fresh_segment) sample_entry [] =
         (with_poison fresh_segment, [], Err err).
Proof. apply (poisoned_refuses (with_poison fresh_segment)). by left. Defined.

Lemma recovery_exact_witness :
  ∃ d' fs' n, recoverPartialLine ["a"%char; newline; "b"%char] [] = (d', fs', Ok n) ∧
    d' = take n ["a"%char; newline; "b"%char] ∧ n = valid_size ["a"%char; newline; "b"%char].
Proof.
  destruct (recoverPartialLine ["a"%char; newline; "b"%char] []) as [[d' fs'] [n|]] eqn:E;
    [|vm_compute in E; discriminate].
  exists d', fs', n. split; [reflexivity|].
  destruct (recovery_exact _ _ d' fs' n E) as (H1 & H2 & _). done.
Defined.
