(* ===== verification/Index.v ===== *)
(** * The primary index: [engine/index.go]

    The id to location map of a collection, its replay from the segments, and
    the order of the segments.  Persistence to index.json is not modelled here. *)
From Stdlib Require Import Ascii Lia ZArith.
From stdpp Require Import prelude gmap strings sorting.
From S2P Require Import Prelude GoNum Json Value GoTime Store Wire Codec Segment.

Record IndexEntry : Type := MkIE {
  SegmentPath : string;
  Offset : nat;
  ie_Rev : Z;
  ie_ExpiresAt : Z;
  ie_Epoch : Z
}.

#[global] Instance IndexEntry_eq_dec : EqDecision IndexEntry.
Proof. solve_decision. Defined.

Definition zero_IndexEntry : IndexEntry := MkIE "" 0 0 0 0.

Record Index : Type := MkIndex {
  entries : gmap Z IndexEntry;
  mayExpire : bool
}.

Definition newIndex : Index := MkIndex ∅ false.

(** [expired] of [engine/ttl.go]: a zero deadline never expires. *)
Definition expired (deadline now : Z) : bool :=
  negb (deadline =? 0)%Z && (deadline <=? now)%Z.

Definition has_deadline (e : IndexEntry) : Prop := ie_ExpiresAt e ≠ 0%Z.

#[global] Instance has_deadline_dec e : Decision (has_deadline e).
Proof. unfold has_deadline. apply _. Defined.

Definition noteExpiring (idx : Index) : Index :=
  if mayExpire idx then idx
  else MkIndex (entries idx) (bool_decide (map_Exists (λ _ e, has_deadline e) (entries idx))).

Definition liveCount (idx : Index) (now : Z) : nat :=
  if mayExpire idx then
    length (filter (λ kv, expired (ie_ExpiresAt kv.2) now = false) (map_to_list (entries idx)))
  else base.size (entries idx).

Definition Set_ (idx : Index) (id : Z) (e : IndexEntry) : Index :=
  MkIndex (<[id := e]> (entries idx))
    (if (ie_ExpiresAt e =? 0)%Z then mayExpire idx else true).

Definition Get (idx : Index) (id : Z) : option IndexEntry := entries idx !! id.

Definition Delete (idx : Index) (id : Z) : Index :=
  MkIndex (delete id (entries idx)) (mayExpire idx).

Definition Len (idx : Index) : nat := base.size (entries idx).

Definition countAtEpoch (idx : Index) (epoch : Z) : nat * nat :=
  (base.size (entries idx),
   length (filter (λ kv, ie_Epoch kv.2 = epoch) (map_to_list (entries idx)))).

(** Every entry points inside one of the files of [sizes]. *)
Definition segmentsValid (idx : Index) (sizes : gmap string nat) : bool :=
  forallb (λ kv, match sizes !! SegmentPath kv.2 with
                 | None => false
                 | Some n => Offset kv.2 <? n
                 end) (map_to_list (entries idx)).

(** ** Replay *)

(** [m[e.ID].Rev + 1], never below the revision the line carries. *)
Definition next_rev (m : gmap Z IndexEntry) (e : Entry) : Z :=
  let rev := u64 (match m !! ID e with Some ie => ie_Rev ie | None => 0 end + 1) in
  if (rev <? Rev e)%Z then Rev e else rev.

Definition applyOne (m : gmap Z IndexEntry) (p : string) (off : nat) (e : Entry) : gmap Z IndexEntry :=
  if decide (Op e = OpInsert ∨ Op e = OpUpdate) then
    <[ID e := MkIE p off (next_rev m e) (ExpiresAt e) (Epoch e)]> m
  else if decide (Op e = OpDelete) then delete (ID e) m
  else m.

(** The entries of a scan applied in order; a scan error is reported after the
    entries before it were applied. *)
Definition apply_located (p : string) (ds : option decisions) (m : gmap Z IndexEntry)
    (l : list located) : gmap Z IndexEntry :=
  foldl (λ m x, if entryVisible x.2.2 ds then applyOne m p x.1 x.2.1 else m) m l.

Definition applyEntries (m : gmap Z IndexEntry) (seg : Segment) (from : nat) (ds : option decisions)
    : gmap Z IndexEntry * option seg_err :=
  let '(l, err) := ScanStampedFromOffset seg from in (apply_located (path seg) ds m l, err).

(** ** Segment order *)

(** The base name of a path. *)
Fixpoint base_loop (s acc : bytes) : bytes :=
  match s with
  | [] => rev acc
  | c :: s' => if decide (c = "/"%char) then base_loop s' [] else base_loop s' (c :: acc)
  end.

Definition base_name (p : string) : bytes := base_loop (b_of_s p) [].

(** [fmt.Sscanf(base, "seg_%d.ndjson", &n)]. *)
Definition segmentNum (p : string) : option Z :=
  match strip_prefix (b_of_s "seg_") (base_name p) with
  | None => None
  | Some s =>
      match span_digits s with
      | ([], _) => None
      | (ds, r) =>
          match strip_prefix (b_of_s ".ndjson") r with
          | None => None
          | Some _ => let n := Z.of_N (mantN ds) in if (n <? two64)%Z then Some n else None
          end
      end
  end.

Definition seg_less (a b : Segment) : bool :=
  match segmentNum (path a), segmentNum (path b) with
  | Some na, Some nb => if (na =? nb)%Z then str_ltb (path a) (path b) else (na <? nb)%Z
  | Some _, None => true
  | None, Some _ => false
  | None, None => str_ltb (path a) (path b)
  end.

Definition sortSegments (segs : list Segment) : list Segment := ssort seg_less segs.

Fixpoint rebuild_loop (m : gmap Z IndexEntry) (segs : list Segment) (ds : option decisions)
    : res seg_err (gmap Z IndexEntry) :=
  match segs with
  | [] => Ok m
  | seg :: segs' =>
      match applyEntries m seg 0 ds with
      | (m', None) => rebuild_loop m' segs' ds
      | (_, Some err) => Err err
      end
  end.

Definition Rebuild (idx : Index) (segs : list Segment) (ds : option decisions) : res seg_err Index :=
  let* fresh := rebuild_loop ∅ (sortSegments segs) ds in
  Ok (noteExpiring (MkIndex fresh (mayExpire idx))).

(** ** The log view *)

(** The entries of all segments, in order, each with the path of its file. *)
Definition log_entry : Type := string * located.

Definition replay (ds : option decisions) (m : gmap Z IndexEntry) (log : list log_entry)
    : gmap Z IndexEntry :=
  foldl (λ m x, if entryVisible x.2.2.2 ds then applyOne m x.1 x.2.1 x.2.2.1 else m) m log.

Definition seg_log (p : string) (ents : list located) : list log_entry := map (pair p) ents.

Lemma replay_app ds m l1 l2 : replay ds m (l1 ++ l2) = replay ds (replay ds m l1) l2.
Proof. apply foldl_app. Qed.

Lemma replay_seg_log ds m p ents : replay ds m (seg_log p ents) = apply_located p ds m ents.
Proof.
  unfold replay, seg_log, apply_located. revert m.
  induction ents as [|[o [e tx]] ents IH]; intros m; [done|]. simpl. apply IH.
Qed.

(** The segments and the entries they hold. *)
Definition holds_all (segs : list Segment) (ents : list (list located)) : Prop :=
  Forall2 (λ s es, seg_inv s es ∧ poisoned s = false) segs ents.

Definition full_log (segs : list Segment) (ents : list (list located)) : list log_entry :=
  concat (zip_with (λ s es, seg_log (path s) es) segs ents).

Lemma applyEntries_holds m s es ds :
  seg_inv s es → poisoned s = false →
  applyEntries m s 0 ds = (replay ds m (seg_log (path s) es), None).
Proof.
  intros Hi Hp. unfold applyEntries. rewrite (scan_entries _ _ Hi Hp). by rewrite replay_seg_log.
Qed.

Lemma rebuild_loop_spec segs ents m ds :
  holds_all segs ents → rebuild_loop m segs ds = Ok (replay ds m (full_log segs ents)).
Proof.
  intros H. revert m. induction H as [|s es segs ents [Hi Hp] _ IH]; intros m; [done|].
  cbn [rebuild_loop]. rewrite (applyEntries_holds _ _ _ _ Hi Hp), IH.
  unfold full_log. cbn [zip_with concat]. by rewrite replay_app.
Qed.

(** ** Liveness counting *)

Definition mayExpire_ok (idx : Index) : Prop :=
  mayExpire idx = false → map_Forall (λ _ e, ie_ExpiresAt e = 0%Z) (entries idx).

Lemma mayExpire_ok_Set idx id e : mayExpire_ok idx → mayExpire_ok (Set_ idx id e).
Proof.
  unfold mayExpire_ok, Set_. simpl. intros H. destruct (Z.eqb_spec (ie_ExpiresAt e) 0); [|done].
  intros Hm. apply map_Forall_insert_2; [done|]. auto.
Qed.

Lemma mayExpire_ok_Delete idx id : mayExpire_ok idx → mayExpire_ok (Delete idx id).
Proof.
  unfold mayExpire_ok, Delete. simpl. intros H Hm. apply map_Forall_delete. auto.
Qed.

Lemma mayExpire_ok_noteExpiring idx :
  mayExpire idx = true ∨ mayExpire_ok (noteExpiring idx).
Proof.
  destruct (mayExpire idx) eqn:E; [by left|right]. unfold mayExpire_ok, noteExpiring. rewrite E.
  simpl. rewrite bool_decide_eq_false. intros Hn k e Hk. apply dec_stable. intros Hd. apply Hn.
  exists k, e. done.
Qed.

Lemma expired_zero now : expired 0 now = false.
Proof. done. Qed.

(** The live count is the number of unexpired entries, whichever branch computes it. *)
Lemma liveCount_spec idx now :
  mayExpire_ok idx →
  liveCount idx now =
  length (filter (λ kv, expired (ie_ExpiresAt kv.2) now = false) (map_to_list (entries idx))).
Proof.
  unfold mayExpire_ok, liveCount. destruct (mayExpire idx); [done|]. intros H. specialize (H eq_refl).
  rewrite filter_all; [symmetry; apply length_map_to_list|].
  apply Forall_forall. intros [k e] Hin%elem_of_map_to_list. simpl. by rewrite (H _ _ Hin).
Qed.

(** ** The segment order is total *)

Lemma seg_less_strict_weak : strict_weak seg_less.
Proof.
  pose proof str_ltb_strict_weak as [Hi Ht Hc]. split; unfold seg_less.
  - intros x. destruct (segmentNum (path x)); [rewrite Z.eqb_refl|]; apply Hi.
  - intros x y z.
    destruct (segmentNum (path x)) as [a|], (segmentNum (path y)) as [b|], (segmentNum (path z)) as [c|];
      try done; try apply Ht.
    destruct (Z.eqb_spec a b), (Z.eqb_spec b c), (Z.eqb_spec a c); subst; try lia; try apply Ht;
      rewrite ?Z.ltb_lt; lia.
  - intros x y z.
    destruct (segmentNum (path x)) as [a|], (segmentNum (path y)) as [b|], (segmentNum (path z)) as [c|];
      try done; try apply Hc.
    destruct (Z.eqb_spec a b), (Z.eqb_spec b c), (Z.eqb_spec a c); subst; try lia; try apply Hc;
      rewrite ?Z.ltb_ge; lia.
Qed.

Lemma seg_less_tie x y : seg_less x y = false → seg_less y x = false → path x = path y.
Proof.
  unfold seg_less.
  destruct (segmentNum (path x)) as [a|], (segmentNum (path y)) as [b|]; try done;
    [|apply str_ltb_total].
  destruct (Z.eqb_spec a b) as [->|]; [rewrite Z.eqb_refl; apply str_ltb_total|].
  destruct (Z.eqb_spec b a); [done|]. rewrite !Z.ltb_ge. lia.
Qed.

(** The order of the segments does not depend on the order they are listed in. *)
Lemma sortSegments_perm segs segs' :
  segs ≡ₚ segs' → NoDup (map path segs) → sortSegments segs' = sortSegments segs.
Proof.
  intros Hp Hnd. symmetry. apply ssort_unique; [apply seg_less_strict_weak| |done].
  intros x y Hx Hy H1 H2. pose proof (seg_less_tie _ _ H1 H2) as Heq.
  apply list_elem_of_lookup in Hx as [i Hi], Hy as [j Hj].
  assert (i = j); [|congruence].
  eapply NoDup_lookup; [exact Hnd|..]; rewrite list_lookup_fmap.
  - by rewrite Hi.
  - rewrite Hj. simpl. by rewrite Heq.
Qed.

(** ** Last writer wins *)

(** The entries that decide what the index says about [id]. *)
Definition concerns (ds : option decisions) (id : Z) (x : log_entry) : Prop :=
  entryVisible x.2.2.2 ds = true ∧ ID x.2.2.1 = id ∧
  (Op x.2.2.1 = OpInsert ∨ Op x.2.2.1 = OpUpdate ∨ Op x.2.2.1 = OpDelete).

#[global] Instance concerns_dec ds id x : Decision (concerns ds id x).
Proof. unfold concerns. apply _. Defined.

Lemma applyOne_lookup_ne m p off e id : ID e ≠ id → applyOne m p off e !! id = m !! id.
Proof.
  intros Hne. unfold applyOne. case_decide; [by rewrite lookup_insert_ne|].
  case_decide; [by rewrite lookup_delete_ne|done].
Qed.

Lemma replay_snoc ds m l x :
  replay ds m (l ++ [x]) =
  if entryVisible x.2.2.2 ds then applyOne (replay ds m l) x.1 x.2.1 x.2.2.1 else replay ds m l.
Proof. by rewrite replay_app. Qed.

Lemma next_rev_ge m e : (Rev e ≤ next_rev m e)%Z.
Proof.
  unfold next_rev. set (r := u64 _). cbv zeta. destruct (Z.ltb_spec r (Rev e)); lia.
Qed.

(** ** Properties *)

(** replay is last writer wins: an id is in the index exactly when the
    last visible entry about it is an insert or an update, and then the index
    gives that entry's file, offset, deadline and epoch, with a revision not
    below the one the line carries; entries of undecided or aborted
    transactions do not count. *)
Theorem replay_last_writer ds log id :
  match last (filter (concerns ds id) log) with
  | None => replay ds ∅ log !! id = None
  | Some (p, (off, (e, _))) =>
      if decide (Op e = OpDelete) then replay ds ∅ log !! id = None
      else ∃ ie, replay ds ∅ log !! id = Some ie ∧ SegmentPath ie = p ∧ Offset ie = off ∧
                 ie_ExpiresAt ie = ExpiresAt e ∧ ie_Epoch ie = Epoch e ∧ (Rev e ≤ ie_Rev ie)%Z
  end.
Proof.
  induction log as [|x log IH] using rev_ind; [by rewrite filter_nil|].
  rewrite filter_app, replay_snoc. destruct (decide (concerns ds id x)) as [Hc|Hc].
  - rewrite filter_cons_True, filter_nil, last_snoc by done. destruct x as [p [off [e tx]]].
    destruct Hc as (Hv & Hid & Hop). simpl in *. rewrite Hv. unfold applyOne.
    destruct (decide (Op e = OpDelete)) as [Hd|Hd].
    + rewrite decide_False by (rewrite Hd; intros [H|H]; discriminate H).
      rewrite Hid. apply lookup_delete_eq.
    + rewrite decide_True by (destruct Hop as [?|[?|?]]; auto; done). rewrite Hid. eexists. rewrite lookup_insert_eq.
      split_and!; try reflexivity. apply next_rev_ge.
  - rewrite filter_cons_False, filter_nil, app_nil_r by done.
    destruct x as [p [off [e tx]]]. simpl.
    destruct (entryVisible tx ds) eqn:Ev; [|exact IH].
    assert (applyOne (replay ds ∅ log) p off e !! id = replay ds ∅ log !! id) as ->; [|exact IH].
    destruct (decide (ID e = id)) as [Hid|Hid]; [|by apply applyOne_lookup_ne].
    unfold applyOne. rewrite !decide_False; [done|..]; unfold concerns in Hc; simpl in Hc; naive_solver.
Qed.

(** a rebuild succeeds on intact segments and gives the replay of
    their entries in segment-number order, whatever the order the segments are
    listed in; the expiry flag afterwards is right. *)
Theorem rebuild_is_replay idx segs segs' ents ds :
  segs ≡ₚ segs' → NoDup (map path segs) → holds_all (sortSegments segs) ents →
  ∃ idx', Rebuild idx segs' ds = Ok idx' ∧
          entries idx' = replay ds ∅ (full_log (sortSegments segs) ents) ∧
          (mayExpire idx = false → mayExpire_ok idx').
Proof.
  intros Hp Hnd Hh.
  pose proof (sortSegments_perm _ _ Hp Hnd) as Hs.
  unfold Rebuild. rewrite Hs, (rebuild_loop_spec _ _ _ _ Hh). simpl. eexists. split; [done|].
  unfold noteExpiring. simpl. destruct (mayExpire idx) eqn:Em; [done|]. split; [done|]. intros _.
  pose proof (mayExpire_ok_noteExpiring (MkIndex (replay ds ∅ (full_log (sortSegments segs) ents)) false)) as [H|H];
    [done|exact H].
Qed.

(** ** Witnesses *)

(** A sealed segment of one line. *)
Definition one_line (p : string) (e : Entry) : Segment :=
  openSealedSegment p (Encode e) (length (Encode e)).

Lemma one_line_inv p e :
  plain_readable e → (Z.of_nat (length (Encode e)) ≤ maxScanTokenSize)%Z →
  seg_inv (one_line p e) [(0, (set_crc e (checksum e), None))].
Proof.
  intros Hr Hlen. unfold one_line, openSealedSegment.
  split; cbn [size disk poisoned]; [reflexivity| |reflexivity]. rewrite take_ge by reflexivity. rewrite Encode_line in *. rewrite length_app in Hlen. cbn [length] in Hlen.
  apply (holds_cons _ _ [] 0 []); [by apply plain_line_good|lia|constructor].
Qed.

Lemma rebuild_is_replay_witness :
  ∃ idx', Rebuild newIndex [one_line "d/seg_000010.ndjson" sample_entry; fresh_segment] None = Ok idx' ∧
    entries idx' = {[ 7%Z := MkIE "d/seg_000010.ndjson" 0 1 (-5) 0 ]}.
Proof.
  set (s2 := one_line "d/seg_000010.ndjson" sample_entry).
  assert (Hs : sortSegments [fresh_segment; s2] = [fresh_segment; s2]) by reflexivity.
  destruct (rebuild_is_replay newIndex [fresh_segment; s2] [s2; fresh_segment]
    [[]; [(0, (set_crc sample_entry (checksum sample_entry), None))]] None) as (idx' & H1 & H2 & _).
  - apply Permutation_swap.
  - apply NoDup_cons; split; [|apply NoDup_singleton].
    intros H%list_elem_of_singleton. discriminate H.
  - rewrite Hs. apply List.Forall2_cons; [split; [apply fresh_inv|reflexivity]|].
    apply List.Forall2_cons; [split; [|reflexivity]|apply List.Forall2_nil].
    apply one_line_inv; [apply sample_readable|by vm_compute].
  - exists idx'. split; [exact H1|]. rewrite H2, Hs. reflexivity.
Defined.
