(* ===== verification/SecondaryIndex.v ===== *)
(** * Secondary indexes: [engine/secondary_index.go]

    The inverted index of one field: buckets of ids by value text, the reverse
    map, the duplicate markers, and the ordered view that serves range queries
    while the field is homogeneous.  Persistence to sidx files is not modelled. *)
From Stdlib Require Import Ascii Lia ZArith.
From stdpp Require Import prelude gmap strings sorting.
From S2P Require Import Prelude GoNum Json Value Filter GoTime Store Wire Codec Segment Index.

Definition KeyField : string := "_key".

Inductive indexKind : Type := indexEmpty | indexNumeric | indexString | indexMixed.

#[global] Instance indexKind_eq_dec : EqDecision indexKind.
Proof. solve_decision. Defined.

Record orderedKey : Type := MkOK { ok_key : string; ok_val : value }.

#[global] Instance orderedKey_inhabited : Inhabited orderedKey := populate (MkOK "" VNull).

Record SecondaryIndex : Type := MkSidx {
  field : string;
  unique : bool;
  buckets : gmap string (gset Z);
  reverse : gmap Z string;
  dups : gset string;
  kind : indexKind;
  sorted : list orderedKey
}.

Definition toIndexKey (v : value) : string := s_of_b (fmt_v v).

Definition valKind (v : value) : indexKind * value :=
  match v with
  | VNum f => (indexNumeric, VNum f)
  | VStr s => (indexString, VStr s)
  | _ => (indexString, VStr (toIndexKey v))
  end.

Definition mergeKind (cur next : indexKind) : indexKind :=
  if decide (cur = indexEmpty) then next
  else if decide (cur = next) then cur
  else indexMixed.

Definition valForKind (k : indexKind) (key : string) : value :=
  match k with
  | indexNumeric => VNum (default (MkF false [] 0) (parse_float (b_of_s key)))
  | _ => VStr key
  end.

Definition newSecondaryIndex (f : string) (u : bool) : SecondaryIndex :=
  MkSidx f u ∅ ∅ ∅ indexEmpty [].

(** The reserved key index holds only strings. *)
Definition accepts (s : SecondaryIndex) (v : value) : bool :=
  if decide (field s = KeyField) then match v with VStr _ => true | _ => false end else true.

Definition bucket (s : SecondaryIndex) (key : string) : gset Z := default ∅ (buckets s !! key).

Definition with_dups (s : SecondaryIndex) (d : gset string) : SecondaryIndex :=
  MkSidx (field s) (unique s) (buckets s) (reverse s) d (kind s) (sorted s).
Definition with_sorted (s : SecondaryIndex) (l : list orderedKey) : SecondaryIndex :=
  MkSidx (field s) (unique s) (buckets s) (reverse s) (dups s) (kind s) l.
Definition with_maps (s : SecondaryIndex) (b : gmap string (gset Z)) (r : gmap Z string) : SecondaryIndex :=
  MkSidx (field s) (unique s) b r (dups s) (kind s) (sorted s).

Definition noteLocked (s : SecondaryIndex) (key : string) : SecondaryIndex :=
  if 1 <? base.size (bucket s key) then with_dups s ({[key]} ∪ dups s)
  else with_dups s (dups s ∖ {[key]}).

(** ** The ordered view *)

Definition orderLessKey (a b : orderedKey) : bool :=
  match Compare (ok_val a) (ok_val b) with
  | Lt => true
  | Gt => false
  | Eq => str_ltb (ok_key a) (ok_key b)
  end.

Definition searchSorted (s : SecondaryIndex) (target : orderedKey) : nat :=
  search_list (sorted s) (λ k, negb (orderLessKey k target)).

Definition key_at (l : list orderedKey) (i : nat) (key : string) : bool :=
  match l !! i with Some k => bool_decide (ok_key k = key) | None => false end.

Definition orderedInsert (s : SecondaryIndex) (key : string) (v : value) : SecondaryIndex :=
  if decide (kind s = indexMixed) then s
  else
    let ok := MkOK key v in
    let i := searchSorted s ok in
    if key_at (sorted s) i key then s
    else with_sorted s (take i (sorted s) ++ ok :: drop i (sorted s)).

Definition orderedRemove (s : SecondaryIndex) (key : string) : SecondaryIndex :=
  if decide (kind s = indexMixed) then s
  else
    let i := searchSorted s (MkOK key (valForKind (kind s) key)) in
    if key_at (sorted s) i key
    then with_sorted s (take i (sorted s) ++ drop (S i) (sorted s)) else s.

Definition observe (s : SecondaryIndex) (v : value) : SecondaryIndex :=
  let k := mergeKind (kind s) (valKind v).1 in
  MkSidx (field s) (unique s) (buckets s) (reverse s) (dups s) k
    (if decide (k = indexMixed) then [] else sorted s).

(** ** Mutation *)

(** The shared tail of [add] and [update]: [id] joins the bucket of [v]. *)
Definition put (s : SecondaryIndex) (v : value) (id : Z) : SecondaryIndex :=
  let key := toIndexKey v in
  let newBucket := bool_decide (buckets s !! key = None) in
  let s := with_maps s (<[key := {[id]} ∪ bucket s key]> (buckets s)) (<[id := key]> (reverse s)) in
  let s := observe s v in
  let s := if newBucket then orderedInsert s key (valKind v).2 else s in
  noteLocked s key.

Definition add (s : SecondaryIndex) (v : value) (id : Z) : SecondaryIndex :=
  if accepts s v then put s v id else s.

(** The shared head of [remove] and [update]: [id] leaves the bucket [key]. *)
Definition leave (s : SecondaryIndex) (key : string) (id : Z) : SecondaryIndex :=
  let b := bucket s key ∖ {[id]} in
  let s :=
    if decide (b = ∅) then orderedRemove (with_maps s (delete key (buckets s)) (reverse s)) key
    else with_maps s (<[key := b]> (buckets s)) (reverse s) in
  noteLocked s key.

Definition remove (s : SecondaryIndex) (id : Z) : SecondaryIndex :=
  match reverse s !! id with
  | None => s
  | Some key =>
      let s := leave s key id in
      with_maps s (buckets s) (delete id (reverse s))
  end.

Definition update (s : SecondaryIndex) (id : Z) (v : value) : SecondaryIndex :=
  if accepts s v then
    put (match reverse s !! id with Some key => leave s key id | None => s end) v id
  else remove s id.

(** ** Queries *)

(** The order of a Go map's keys is unspecified; [elements] picks one. *)
Definition Lookup (s : SecondaryIndex) (v : string) : list Z := elements (bucket s v).

Definition range_lookup (s : SecondaryIndex) (op : FilterOp) (q : value) (k : indexKind)
    : option (list Z) :=
  let '(qk, qv) := valKind q in
  if decide (qk = k) then
    let l := sorted s in
    let gt := search_list l (λ e, match Compare (ok_val e) qv with Gt => true | _ => false end) in
    let ge := search_list l (λ e, match Compare (ok_val e) qv with Lt => false | _ => true end) in
    match (match op with
           | OpGt => Some (drop gt l)
           | OpGte => Some (drop ge l)
           | OpLt => Some (take ge l)
           | OpLte => Some (take gt l)
           | _ => None
           end) with
    | None => None
    | Some slice => Some (concat (map (λ e, elements (bucket s (ok_key e))) slice))
    end
  else None.

Definition LookupRange (s : SecondaryIndex) (op : FilterOp) (q : value) : option (list Z) :=
  match kind s with
  | indexEmpty => Some []
  | indexMixed => None
  | k => range_lookup s op q k
  end.

Definition min_key (d : gset string) : string :=
  match ssort str_ltb (elements d) with [] => "" | k :: _ => k end.

Definition firstDuplicate (s : SecondaryIndex) (maxIDs : nat) : option (string * list Z) :=
  if decide (dups s = ∅) then None
  else
    let first := min_key (dups s) in
    Some (first, take maxIDs (ssort Z.ltb (elements (bucket s first)))).

(** ** Rebuild and replay *)

Definition dupsOf (b : gmap string (gset Z)) : gset string :=
  dom (filter (λ kv, 1 < base.size kv.2) b).

Definition buildSorted (b : gmap string (gset Z)) (k : indexKind) : list orderedKey :=
  match k with
  | indexMixed | indexEmpty => []
  | _ => ssort orderLessKey (map (λ key, MkOK key (valForKind k key)) (elements (dom b)))
  end.

(** [scanEntries] without tolerance: the visible entries of a segment. *)
Definition scanEntries (seg : Segment) (ds : option decisions) : res seg_err (list Entry) :=
  let '(l, err) := ScanStampedFromOffset seg 0 in
  match err with
  | Some e => Err e
  | None => Ok (map (λ x, x.2.1) (filter (λ x, entryVisible x.2.2 ds = true) l))
  end.

(** The last data of each id; [None] for a deleted one. *)
Definition latest_step (m : gmap Z (option vdata)) (e : Entry) : gmap Z (option vdata) :=
  if decide (Op e = OpInsert ∨ Op e = OpUpdate) then <[ID e := Some (default ∅ (Data e))]> m
  else if decide (Op e = OpDelete) then <[ID e := None]> m
  else m.

Fixpoint latest_loop (m : gmap Z (option vdata)) (segs : list Segment) (ds : option decisions)
    : res seg_err (gmap Z (option vdata)) :=
  match segs with
  | [] => Ok m
  | seg :: segs' =>
      let* l := scanEntries seg ds in
      latest_loop (foldl latest_step m l) segs' ds
  end.

(** The bucket loop of [rebuild] over the latest records, in some order. *)
Definition fresh_step (s : SecondaryIndex)
    (acc : gmap string (gset Z) * gmap Z string * indexKind) (kv : Z * option vdata) :=
  match kv.2 with
  | None => acc
  | Some data =>
      match data !! field s with
      | Some v =>
          if accepts s v then
            let key := toIndexKey v in
            (<[key := {[kv.1]} ∪ default ∅ (acc.1.1 !! key)]> acc.1.1, <[kv.1 := key]> acc.1.2,
             mergeKind acc.2 (valKind v).1)
          else acc
      | None => acc
      end
  end.

Definition rebuild (s : SecondaryIndex) (segs : list Segment) (ds : option decisions)
    : res seg_err SecondaryIndex :=
  let* latest := latest_loop ∅ segs ds in
  let '(fresh, freshRev, k) := foldl (fresh_step s) (∅, ∅, indexEmpty) (map_to_list latest) in
  Ok (MkSidx (field s) (unique s) fresh freshRev (dupsOf fresh) k (buildSorted fresh k)).

(** One entry of [replay]. *)
Definition replay_one (s : SecondaryIndex) (e : Entry) : SecondaryIndex :=
  if decide (Op e = OpInsert ∨ Op e = OpUpdate) then
    match default ∅ (Data e) !! field s with
    | Some v => update s (ID e) v
    | None => remove s (ID e)
    end
  else if decide (Op e = OpDelete) then remove s (ID e)
  else s.

Definition replay_segment (s : SecondaryIndex) (seg : Segment) (from : nat) (ds : option decisions)
    : SecondaryIndex * option seg_err :=
  let '(l, err) := ScanStampedFromOffset seg from in
  (foldl (λ s x, if entryVisible x.2.2 ds then replay_one s x.2.1 else s) s l, err).

(** ** The order of keys of one kind *)

Definition homog (k : indexKind) : Prop := k = indexNumeric ∨ k = indexString.

Definition mk (k : indexKind) (key : string) : orderedKey := MkOK key (valForKind k key).

Definition kless (k : indexKind) (a b : string) : bool := orderLessKey (mk k a) (mk k b).

(** A lexicographic order on a pair of orders is strict and total. *)
Section lex.
Context {A : Type} (cmp : A → A → comparison) (tie : A → A → bool).
Hypothesis cmp_antisym : ∀ a b, cmp a b = CompOpp (cmp b a).
Hypothesis cmp_trans : ∀ a b c, cmp a b ≠ Gt → cmp b c ≠ Gt → cmp a c ≠ Gt.
Hypothesis tie_sw : strict_weak tie.
Hypothesis tie_total : ∀ a b, tie a b = false → tie b a = false → a = b.

Definition lex (a b : A) : bool :=
  match cmp a b with Lt => true | Gt => false | Eq => tie a b end.

Lemma lex_total a b : lex a b = false → lex b a = false → a = b.
Proof.
  unfold lex. rewrite (cmp_antisym b a). destruct (cmp a b); simpl; try done. apply tie_total.
Qed.

Lemma cmp_lt_trans a b c : cmp a b = Lt → cmp b c ≠ Gt → cmp a c = Lt.
Proof.
  intros H1 H2. destruct (cmp a c) eqn:E; [|done|].
  - exfalso. assert (cmp c b ≠ Gt) as H3.
    { apply (cmp_trans c a b); [by rewrite (cmp_antisym c a), E|by rewrite H1]. }
    assert (cmp b a ≠ Gt) as H4.
    { apply (cmp_trans b c a); [done|by rewrite (cmp_antisym c a), E]. }
    by rewrite (cmp_antisym b a), H1 in H4.
  - exfalso. apply (cmp_trans a b c); [by rewrite H1|done|done].
Qed.

Lemma cmp_lt_trans_r a b c : cmp a b ≠ Gt → cmp b c = Lt → cmp a c = Lt.
Proof.
  intros H1 H2. assert (cmp c a = Gt) as H; [|by rewrite (cmp_antisym a c), H].
  destruct (cmp c a) eqn:E; [| |done]; exfalso.
  - assert (cmp c b ≠ Gt) as H3 by (apply (cmp_trans c a b); [by rewrite E|done]).
    by rewrite (cmp_antisym c b), H2 in H3.
  - assert (cmp c b ≠ Gt) as H3 by (apply (cmp_trans c a b); [by rewrite E|done]).
    by rewrite (cmp_antisym c b), H2 in H3.
Qed.

Lemma lex_strict_weak : strict_weak lex.
Proof.
  assert (Hrefl : ∀ a, cmp a a = Eq).
  { intros a. pose proof (cmp_antisym a a) as H. by destruct (cmp a a). }
  destruct tie_sw as [Hi Ht Hc]. split; unfold lex.
  - intros x. rewrite Hrefl. apply Hi.
  - intros x y z. destruct (cmp x y) eqn:E1, (cmp y z) eqn:E2; try done.
    + assert (cmp x z = Eq) as ->; [|apply Ht].
      destruct (cmp x z) eqn:E; [done| |].
      * exfalso. assert (cmp z x ≠ Gt) as H; [|by rewrite (cmp_antisym z x), E in H].
        apply (cmp_trans z y x); [rewrite (cmp_antisym z y), E2|rewrite (cmp_antisym y x), E1]; done.
      * exfalso. apply (cmp_trans x y z); [by rewrite E1|by rewrite E2|done].
    + by rewrite (cmp_lt_trans_r x y z) by (done || by rewrite E1).
    + by rewrite (cmp_lt_trans x y z) by (done || by rewrite E2).
    + by rewrite (cmp_lt_trans x y z) by (done || by rewrite E2).
  - intros x y z Hxy Hyz. destruct (cmp x z) eqn:E; [|exfalso|done].
    + destruct (cmp x y) eqn:E1; [|done|].
      * destruct (cmp y z) eqn:E2; [by eapply Hc|done|].
        exfalso. assert (cmp y z ≠ Gt) as H; [|by rewrite E2 in H].
        apply (cmp_trans y x z); [rewrite (cmp_antisym y x), E1; done|by rewrite E].
      * exfalso. assert (cmp y z = Lt) as H; [|by rewrite H in Hyz].
        apply (cmp_lt_trans y x z); [by rewrite (cmp_antisym y x), E1|by rewrite E].
    + destruct (cmp x y) eqn:E1; [|done|].
      * assert (cmp y z = Lt) as H; [|by rewrite H in Hyz].
        apply (cmp_lt_trans_r y x z); [rewrite (cmp_antisym y x), E1; done|done].
      * assert (cmp y z = Lt) as H; [|by rewrite H in Hyz].
        apply (cmp_lt_trans y x z); [by rewrite (cmp_antisym y x), E1|by rewrite E].
Qed.

End lex.

Lemma valForKind_homogeneous k :
  homog k → homogeneous (λ v, ∃ key, v = valForKind k key).
Proof. intros [-> | ->]; [left|right]; intros v [key ->]; done. Qed.

Lemma kless_lex k a b :
  kless k a b = lex (λ a b, Compare (valForKind k a) (valForKind k b)) str_ltb a b.
Proof. done. Qed.

Lemma kless_strict_weak k : homog k → strict_weak (kless k).
Proof.
  intros Hk. change (kless k) with (lex (λ a b, Compare (valForKind k a) (valForKind k b)) str_ltb).
  apply lex_strict_weak; [intros; apply Compare_antisym| |apply str_ltb_strict_weak].
  intros a b c. apply (Compare_le_trans _ _ _ _ (valForKind_homogeneous k Hk)); eauto.
Qed.

Lemma kless_total k a b : kless k a b = false → kless k b a = false → a = b.
Proof.
  rewrite !kless_lex. apply lex_total; [intros; apply Compare_antisym|apply str_ltb_total].
Qed.

(** ** The ordered view as a function of the buckets *)

Definition view (k : indexKind) (keys : gset string) : list orderedKey :=
  map (mk k) (ssort (kless k) (elements keys)).

Lemma buildSorted_view b k : homog k → buildSorted b k = view k (dom b).
Proof. intros [-> | ->]; cbn [buildSorted]; unfold view; by rewrite ssort_map. Qed.

Lemma view_sorted k keys : homog k → StronglySorted (not_after orderLessKey) (view k keys).
Proof.
  intros Hk. unfold view. apply StronglySorted_map.
  apply (ssort_sorted (kless k)), kless_strict_weak, Hk.
Qed.

Lemma elem_of_view k keys x : x ∈ view k keys ↔ ∃ key, key ∈ keys ∧ x = mk k key.
Proof.
  unfold view. rewrite list_elem_of_fmap. setoid_rewrite elem_of_ssort.
  setoid_rewrite elem_of_elements. naive_solver.
Qed.

Lemma view_perm k keys : view k keys ≡ₚ map (mk k) (elements keys).
Proof. unfold view. by rewrite ssort_perm. Qed.

(** Sorted lists of the keys' elements are the view. *)
Lemma view_unique k keys l :
  homog k → StronglySorted (not_after orderLessKey) l → l ≡ₚ map (mk k) (elements keys) →
  l = view k keys.
Proof.
  intros Hk Hs Hp. symmetry. apply (sorted_unique orderLessKey).
  - intros x y Hx Hy H1 H2. apply elem_of_view in Hx as (a & _ & ->), Hy as (b & _ & ->).
    by rewrite (kless_total k a b H1 H2).
  - by apply view_sorted.
  - done.
  - by rewrite Hp, view_perm.
Qed.

Lemma mk_trans k a b c :
  homog k → not_after orderLessKey (mk k a) (mk k b) → not_after orderLessKey (mk k b) (mk k c) →
  not_after orderLessKey (mk k a) (mk k c).
Proof. intros Hk H1 H2. by eapply (sw_incomp _ (kless_strict_weak k Hk) c b a). Qed.

Lemma view_insert k keys key :
  homog k → key ∉ keys →
  let l := view k keys in
  let i := search_list l (λ y, negb (orderLessKey y (mk k key))) in
  take i l ++ mk k key :: drop i l = view k ({[key]} ∪ keys).
Proof.
  intros Hk Hn l i. apply view_unique; [done|..].
  - apply search_insert_sorted; [|..|by apply view_sorted].
    + assert (Hmk : ∀ x, x ∈ mk k key :: l → ∃ a, x = mk k a).
      { intros x [->|Hx]%elem_of_cons; [eauto|]. apply elem_of_view in Hx as (a & _ & ->). eauto. }
      intros a b c (a' & ->)%Hmk (b' & ->)%Hmk (c' & ->)%Hmk. by apply mk_trans.
    + intros y Hy. apply elem_of_view in Hy as (a & _ & ->).
      apply (sw_asym (kless k) (kless_strict_weak k Hk)).
  - rewrite <- Permutation_middle, take_drop. unfold l. rewrite view_perm.
    by rewrite elements_union_singleton.
Qed.

Lemma view_find k keys key :
  homog k → key ∈ keys →
  view k keys !! search_list (view k keys) (λ y, negb (orderLessKey y (mk k key))) = Some (mk k key).
Proof.
  intros Hk Hin. apply search_find.
  - apply elem_of_view. eauto.
  - apply (sw_irrefl _ (kless_strict_weak k Hk)).
  - intros a b c Ha Hb Hc. apply elem_of_view in Ha as (? & _ & ->), Hb as (? & _ & ->), Hc as (? & _ & ->).
    by apply mk_trans.
  - intros y Hy H1 H2. apply elem_of_view in Hy as (a & _ & ->). by rewrite (kless_total k a key H1 H2).
  - by apply view_sorted.
Qed.

Lemma view_delete k keys key :
  homog k → key ∈ keys →
  let l := view k keys in
  let i := search_list l (λ y, negb (orderLessKey y (mk k key))) in
  take i l ++ drop (S i) l = view k (keys ∖ {[key]}).
Proof.
  intros Hk Hin l i. pose proof (view_find k keys key Hk Hin) as Hf. fold l in Hf. fold i in Hf.
  pose proof (take_drop_middle l i _ Hf) as Hmid. apply view_unique; [done|..].
  - pose proof (view_sorted k keys Hk) as Hs. fold l in Hs. rewrite <- Hmid in Hs.
    apply StronglySorted_app in Hs as (Hc & Hs1 & Hs2). apply StronglySorted_app. split_and!; [|done|].
    + intros x y Hx Hy. apply Hc; [done|]. by right.
    + by inversion Hs2.
  - apply (Permutation_cons_inv (a := mk k key)). rewrite Permutation_middle, Hmid. unfold l.
    rewrite view_perm. change (mk k key :: map (mk k) (elements (keys ∖ {[key]})))
      with (map (mk k) (key :: elements (keys ∖ {[key]}))). apply Permutation_map.
    rewrite <- elements_union_singleton by set_solver.
    assert ({[key]} ∪ keys ∖ {[key]} = keys) as ->; [|done].
    apply set_eq. intros x. destruct (decide (x = key)); set_solver.
Qed.

(** ** What an index stands for *)

Definition kind_ok (k : indexKind) (m : gmap Z value) : Prop :=
  match k with
  | indexEmpty => m = ∅
  | indexNumeric => map_Forall (λ _ v, is_num v = true) m
  | indexString => map_Forall (λ _ v, is_num v = false) m
  | indexMixed => True
  end.

(** The index of the values [m] (id to field value), apart from the reverse map. *)
Record sidx_core (s : SecondaryIndex) (m : gmap Z value) : Prop := {
  sc_bucket : ∀ key id, id ∈ bucket s key ↔ ∃ v, m !! id = Some v ∧ toIndexKey v = key;
  sc_nonempty : ∀ key b, buckets s !! key = Some b → b ≠ ∅;
  sc_dups : ∀ key, key ∈ dups s ↔ 1 < base.size (bucket s key);
  sc_kind : kind_ok (kind s) m;
  sc_sorted : sorted s = buildSorted (buckets s) (kind s)
}.

Definition sidx_repr (s : SecondaryIndex) (m : gmap Z value) : Prop :=
  sidx_core s m ∧ reverse s = toIndexKey <$> m ∧ map_Forall (λ _ v, value_wf v) m.

Lemma valKind_norm v : value_wf v → (valKind v).2 = valForKind (valKind v).1 (toIndexKey v).
Proof.
  intros Hwf. unfold toIndexKey. destruct v; simpl; try done.
  - rewrite b_of_s_of_b, parse_fmt_g by done. done.
  - by rewrite s_of_b_of_s.
Qed.

Lemma valKind_homog v : homog (valKind v).1.
Proof. destruct v; [right|right|left|right..]; done. Qed.

Lemma dom_buckets s m key :
  sidx_core s m → key ∈ dom (buckets s) ↔ ∃ id v, m !! id = Some v ∧ toIndexKey v = key.
Proof.
  intros [Hb Hn _ _ _]. rewrite elem_of_dom. split.
  - intros [b Hkb]. destruct (set_choose_L b (Hn _ _ Hkb)) as [id Hid].
    exists id. apply Hb. unfold bucket. by rewrite Hkb.
  - intros (id & Hid). apply Hb in Hid. unfold bucket in Hid.
    destruct (buckets s !! key); [done|]. set_solver.
Qed.

Lemma bucket_eq s s' key : buckets s = buckets s' → bucket s key = bucket s' key.
Proof. unfold bucket. by intros ->. Qed.

Lemma bucket_insert s b r key x key' :
  bucket (with_maps s (<[key := x]> b) r) key' =
  if decide (key' = key) then x else default ∅ (b !! key').
Proof.
  unfold bucket. simpl. case_decide; subst; [by rewrite lookup_insert_eq|by rewrite lookup_insert_ne].
Qed.

(** [noteLocked] changes only the markers, and refreshes that of [key]. *)
Lemma noteLocked_field s key : field (noteLocked s key) = field s.
Proof. unfold noteLocked. by destruct (_ <? _). Qed.
Lemma noteLocked_unique s key : unique (noteLocked s key) = unique s.
Proof. unfold noteLocked. by destruct (_ <? _). Qed.
Lemma noteLocked_buckets s key : buckets (noteLocked s key) = buckets s.
Proof. unfold noteLocked. by destruct (_ <? _). Qed.
Lemma noteLocked_reverse s key : reverse (noteLocked s key) = reverse s.
Proof. unfold noteLocked. by destruct (_ <? _). Qed.
Lemma noteLocked_kind s key : kind (noteLocked s key) = kind s.
Proof. unfold noteLocked. by destruct (_ <? _). Qed.
Lemma noteLocked_sorted s key : sorted (noteLocked s key) = sorted s.
Proof. unfold noteLocked. by destruct (_ <? _). Qed.

Lemma noteLocked_dups s key :
  (∀ k, k ≠ key → k ∈ dups s ↔ 1 < base.size (bucket s k)) →
  ∀ k, k ∈ dups (noteLocked s key) ↔ 1 < base.size (bucket s k).
Proof.
  intros H k. unfold noteLocked. destruct (Nat.ltb_spec 1 (base.size (bucket s key))) as [Hlt|Hge];
    simpl; destruct (decide (k = key)) as [->|Hne].
  - set_solver.
  - rewrite <- H by done. set_solver.
  - set_solver by lia.
  - rewrite <- H by done. set_solver.
Qed.

Lemma orderedInsert_field s key v : field (orderedInsert s key v) = field s.
Proof. unfold orderedInsert. case_decide; [done|]. by destruct (key_at _ _ _). Qed.
Lemma orderedInsert_unique s key v : unique (orderedInsert s key v) = unique s.
Proof. unfold orderedInsert. case_decide; [done|]. by destruct (key_at _ _ _). Qed.
Lemma orderedInsert_buckets s key v : buckets (orderedInsert s key v) = buckets s.
Proof. unfold orderedInsert. case_decide; [done|]. by destruct (key_at _ _ _). Qed.
Lemma orderedInsert_reverse s key v : reverse (orderedInsert s key v) = reverse s.
Proof. unfold orderedInsert. case_decide; [done|]. by destruct (key_at _ _ _). Qed.
Lemma orderedInsert_dups s key v : dups (orderedInsert s key v) = dups s.
Proof. unfold orderedInsert. case_decide; [done|]. by destruct (key_at _ _ _). Qed.
Lemma orderedInsert_kind s key v : kind (orderedInsert s key v) = kind s.
Proof. unfold orderedInsert. case_decide; [done|]. by destruct (key_at _ _ _). Qed.

Lemma orderedRemove_field s key : field (orderedRemove s key) = field s.
Proof. unfold orderedRemove. case_decide; [done|]. by destruct (key_at _ _ _). Qed.
Lemma orderedRemove_unique s key : unique (orderedRemove s key) = unique s.
Proof. unfold orderedRemove. case_decide; [done|]. by destruct (key_at _ _ _). Qed.
Lemma orderedRemove_buckets s key : buckets (orderedRemove s key) = buckets s.
Proof. unfold orderedRemove. case_decide; [done|]. by destruct (key_at _ _ _). Qed.
Lemma orderedRemove_reverse s key : reverse (orderedRemove s key) = reverse s.
Proof. unfold orderedRemove. case_decide; [done|]. by destruct (key_at _ _ _). Qed.
Lemma orderedRemove_dups s key : dups (orderedRemove s key) = dups s.
Proof. unfold orderedRemove. case_decide; [done|]. by destruct (key_at _ _ _). Qed.
Lemma orderedRemove_kind s key : kind (orderedRemove s key) = kind s.
Proof. unfold orderedRemove. case_decide; [done|]. by destruct (key_at _ _ _). Qed.

Create HintDb sidx.
#[export] Hint Rewrite noteLocked_field noteLocked_unique noteLocked_buckets noteLocked_reverse
  noteLocked_kind noteLocked_sorted : sidx.
#[export] Hint Rewrite orderedInsert_field orderedInsert_unique orderedInsert_buckets
  orderedInsert_reverse orderedInsert_dups orderedInsert_kind : sidx.
#[export] Hint Rewrite orderedRemove_field orderedRemove_unique orderedRemove_buckets
  orderedRemove_reverse orderedRemove_dups orderedRemove_kind : sidx.

(** Projections of a record built by the mutators. *)
Ltac sidx_simpl := repeat (autorewrite with sidx; cbn [field unique buckets reverse dups kind sorted
  with_maps with_dups with_sorted observe]).

Lemma key_at_view_notin k keys key i : key ∉ keys → key_at (view k keys) i key = false.
Proof.
  intros Hn. unfold key_at. destruct (view k keys !! i) as [x|] eqn:E; [|done].
  apply list_elem_of_lookup_2, elem_of_view in E as (a & Ha & ->). simpl.
  apply bool_decide_eq_false. congruence.
Qed.

Lemma orderedInsert_sorted s key keys :
  homog (kind s) → sorted s = view (kind s) keys → key ∉ keys →
  sorted (orderedInsert s key (valForKind (kind s) key)) = view (kind s) ({[key]} ∪ keys).
Proof.
  intros Hk Hs Hn. unfold orderedInsert, searchSorted.
  rewrite decide_False by (by destruct Hk as [-> | ->]). rewrite Hs.
  rewrite key_at_view_notin by done. simpl. by apply view_insert.
Qed.

Lemma orderedRemove_sorted s key keys :
  homog (kind s) → sorted s = view (kind s) keys → key ∈ keys →
  sorted (orderedRemove s key) = view (kind s) (keys ∖ {[key]}).
Proof.
  intros Hk Hs Hn. unfold orderedRemove, searchSorted.
  rewrite decide_False by (by destruct Hk as [-> | ->]). rewrite Hs.
  unfold key_at. fold (mk (kind s) key). rewrite (view_find (kind s) keys key Hk Hn). simpl.
  rewrite bool_decide_true by done. simpl. by apply view_delete.
Qed.

Lemma orderedRemove_mixed s key : ¬ homog (kind s) → sorted s = [] → sorted (orderedRemove s key) = [].
Proof.
  intros Hk Hs. unfold orderedRemove. case_decide; [done|]. unfold key_at. by rewrite Hs.
Qed.

Lemma buildSorted_not_homog b k : ¬ homog k → buildSorted b k = [].
Proof. unfold homog. destruct k; naive_solver. Qed.

#[global] Instance homog_dec k : Decision (homog k).
Proof. unfold homog. apply _. Defined.

(** The kind after one more value. *)
Lemma mergeKind_ok k m id v :
  kind_ok k m → kind_ok (mergeKind k (valKind v).1) (<[id := v]> m).
Proof.
  intros Hk. unfold mergeKind. case_decide as He.
  - subst k. simpl in Hk. subst m. destruct v; simpl; apply map_Forall_insert_2; try done;
      apply map_Forall_empty.
  - case_decide as Hs; [|done]. destruct k; try done; destruct v; simpl in *; try done;
      apply map_Forall_insert_2; done.
Qed.

(** The fields after [id] joins the bucket of [v]. *)
Section put.
Context (s : SecondaryIndex) (v : value) (id : Z).
Let key := toIndexKey v.

Lemma put_field : field (put s v id) = field s.
Proof. unfold put. case_bool_decide; by sidx_simpl. Qed.
Lemma put_unique : unique (put s v id) = unique s.
Proof. unfold put. case_bool_decide; by sidx_simpl. Qed.
Lemma put_buckets : buckets (put s v id) = <[key := {[id]} ∪ bucket s key]> (buckets s).
Proof. unfold put. case_bool_decide; by sidx_simpl. Qed.
Lemma put_reverse : reverse (put s v id) = <[id := key]> (reverse s).
Proof. unfold put. case_bool_decide; by sidx_simpl. Qed.
Lemma put_kind : kind (put s v id) = mergeKind (kind s) (valKind v).1.
Proof. unfold put. case_bool_decide; by sidx_simpl. Qed.

Lemma put_bucket key' :
  bucket (put s v id) key' = if decide (key' = key) then {[id]} ∪ bucket s key else bucket s key'.
Proof.
  unfold bucket at 1. rewrite put_buckets.
  case_decide; subst; [by rewrite lookup_insert_eq|by rewrite lookup_insert_ne].
Qed.

Lemma put_dups :
  (∀ k, k ∈ dups s ↔ 1 < base.size (bucket s k)) →
  ∀ k, k ∈ dups (put s v id) ↔ 1 < base.size (bucket (put s v id) k).
Proof.
  intros Hd k. unfold put at 1. fold key. set (s1 := if bool_decide _ then _ else _).
  assert (Hb : buckets s1 = buckets (put s v id))
    by (rewrite put_buckets; subst s1; case_bool_decide; by sidx_simpl).
  assert (Hdu : dups s1 = dups s) by (subst s1; case_bool_decide; by sidx_simpl).
  rewrite noteLocked_dups; [by rewrite (bucket_eq s1 (put s v id))|].
  intros k' Hne. rewrite (bucket_eq s1 (put s v id)), put_bucket, decide_False by done.
  by rewrite Hdu, Hd.
Qed.

End put.

(** While the merged kind is not mixed it is the kind of the new value, and the
    view was already that of this kind. *)
Lemma merge_view s m v :
  sidx_core s m → mergeKind (kind s) (valKind v).1 ≠ indexMixed →
  mergeKind (kind s) (valKind v).1 = (valKind v).1 ∧ sorted s = view (valKind v).1 (dom (buckets s)).
Proof.
  intros Hc. pose proof (sc_sorted _ _ Hc) as Hs. unfold mergeKind.
  case_decide as He.
  - intros _. split; [done|]. rewrite Hs, He. simpl.
    assert (dom (buckets s) = ∅) as ->; [|done].
    apply elem_of_equiv_empty_L. intros key. rewrite (dom_buckets s m) by done.
    pose proof (sc_kind _ _ Hc) as Hk. rewrite He in Hk. simpl in Hk. subst m.
    intros (? & ? & H & _). by rewrite lookup_empty in H.
  - case_decide as Heq; [|done]. intros _. split; [done|].
    rewrite Hs, <- Heq. apply buildSorted_view. rewrite Heq. apply valKind_homog.
Qed.

Lemma put_sorted s m v id :
  sidx_core s m → value_wf v →
  sorted (put s v id) = buildSorted (buckets (put s v id)) (kind (put s v id)).
Proof.
  intros Hc Hwf. rewrite put_buckets, put_kind. set (key := toIndexKey v).
  set (k := mergeKind (kind s) (valKind v).1). unfold put. fold key. set (s0 := with_maps _ _ _).
  destruct (decide (k = indexMixed)) as [Hm|Hm].
  - rewrite buildSorted_not_homog by (rewrite Hm; unfold homog; naive_solver).
    assert (Hs1 : sorted (observe s0 v) = []) by (unfold observe; simpl; fold k; by rewrite decide_True).
    case_bool_decide; sidx_simpl; [|done]. unfold orderedInsert. rewrite decide_True; [done|].
    exact Hm.
  - destruct (merge_view s m v Hc Hm) as [Hk Hv]. fold k in Hk.
    rewrite buildSorted_view by (rewrite Hk; apply valKind_homog). rewrite dom_insert_L.
    assert (Hs1 : sorted (observe s0 v) = view k (dom (buckets s))).
    { unfold observe; simpl; fold k. rewrite decide_False by done. by rewrite Hv, Hk. }
    assert (Hk1 : kind (observe s0 v) = k) by done.
    case_bool_decide as Hb; rewrite noteLocked_sorted.
    + rewrite valKind_norm, <- Hk by done. fold key. rewrite <- Hk1 at 1.
      apply not_elem_of_dom in Hb.
      rewrite (orderedInsert_sorted _ _ (dom (buckets s))); rewrite ?Hk1; try done.
      rewrite Hk. apply valKind_homog.
    + rewrite Hs1. f_equal. assert (key ∈ dom (buckets s)); [|set_solver].
      apply elem_of_dom. by apply not_eq_None_Some in Hb.
Qed.

Lemma put_core s m v id :
  sidx_core s m → m !! id = None → value_wf v → sidx_core (put s v id) (<[id := v]> m).
Proof.
  intros Hc Hid Hwf. pose proof Hc as [Hb Hn Hd Hk Hs]. split.
  - intros key id'. rewrite put_bucket. case_decide as Hkey.
    + subst key. rewrite elem_of_union, elem_of_singleton, Hb.
      destruct (decide (id' = id)) as [->|Hne].
      * rewrite lookup_insert_eq. naive_solver.
      * rewrite lookup_insert_ne by done. naive_solver.
    + rewrite Hb. destruct (decide (id' = id)) as [->|Hne].
      * rewrite lookup_insert_eq, Hid. naive_solver.
      * by rewrite lookup_insert_ne.
  - intros key b. rewrite put_buckets. intros [[<- <-]|[_ Hl]]%lookup_insert_Some; [set_solver|].
    by eapply Hn.
  - by apply put_dups.
  - rewrite put_kind. by apply mergeKind_ok.
  - by eapply put_sorted.
Qed.

(** The fields after [id] left the bucket [key]. *)
Section leave.
Context (s : SecondaryIndex) (key : string) (id : Z).

Definition left_buckets : gmap string (gset Z) :=
  let b := bucket s key ∖ {[id]} in
  if decide (b = ∅) then delete key (buckets s) else <[key := b]> (buckets s).

Lemma leave_field : field (leave s key id) = field s.
Proof. unfold leave. case_decide; by sidx_simpl. Qed.
Lemma leave_unique : unique (leave s key id) = unique s.
Proof. unfold leave. case_decide; by sidx_simpl. Qed.
Lemma leave_buckets : buckets (leave s key id) = left_buckets.
Proof. unfold leave, left_buckets. case_decide; by sidx_simpl. Qed.
Lemma leave_reverse : reverse (leave s key id) = reverse s.
Proof. unfold leave. case_decide; by sidx_simpl. Qed.
Lemma leave_kind : kind (leave s key id) = kind s.
Proof. unfold leave. case_decide; by sidx_simpl. Qed.

Lemma leave_bucket key' :
  bucket (leave s key id) key' = if decide (key' = key) then bucket s key ∖ {[id]} else bucket s key'.
Proof.
  unfold bucket at 1. rewrite leave_buckets. unfold left_buckets. case_decide as Hb; case_decide as Hk; subst.
  - rewrite lookup_delete_eq. simpl. done.
  - by rewrite lookup_delete_ne.
  - by rewrite lookup_insert_eq.
  - by rewrite lookup_insert_ne.
Qed.

Lemma leave_dups :
  (∀ k, k ∈ dups s ↔ 1 < base.size (bucket s k)) →
  ∀ k, k ∈ dups (leave s key id) ↔ 1 < base.size (bucket (leave s key id) k).
Proof.
  intros Hd k. unfold leave at 1. set (s1 := if decide _ then _ else _).
  assert (Hb : buckets s1 = buckets (leave s key id))
    by (rewrite leave_buckets; unfold left_buckets; subst s1; case_decide; by sidx_simpl).
  assert (Hdu : dups s1 = dups s) by (subst s1; case_decide; by sidx_simpl).
  rewrite noteLocked_dups; [by rewrite (bucket_eq s1 (leave s key id))|].
  intros k' Hne. rewrite (bucket_eq s1 (leave s key id)), leave_bucket, decide_False by done.
  by rewrite Hdu, Hd.
Qed.

End leave.

Lemma kind_ok_delete k m id : kind_ok k m → kind_ok k (delete id m).
Proof.
  destruct k; simpl; [intros ->; apply delete_empty|apply map_Forall_delete..|done].
Qed.

Lemma leave_sorted s m key id :
  sidx_core s m → key ∈ dom (buckets s) →
  sorted (leave s key id) = buildSorted (buckets (leave s key id)) (kind (leave s key id)).
Proof.
  intros Hc Hin. rewrite leave_buckets, leave_kind. pose proof (sc_sorted _ _ Hc) as Hs.
  unfold leave, left_buckets. destruct (decide (homog (kind s))) as [Hh|Hh].
  - rewrite buildSorted_view in * by done. case_decide; rewrite noteLocked_sorted.
    + rewrite dom_delete_L.
      by apply (orderedRemove_sorted (with_maps s (delete key (buckets s)) (reverse s)) key (dom (buckets s))).
    + simpl. rewrite dom_insert_L, Hs. f_equal. set_solver.
  - rewrite buildSorted_not_homog in * by done. case_decide; rewrite noteLocked_sorted; [|done].
    by apply orderedRemove_mixed.
Qed.

Lemma leave_core s m id v :
  sidx_core s m → m !! id = Some v → sidx_core (leave s (toIndexKey v) id) (delete id m).
Proof.
  intros Hc Hid. pose proof Hc as [Hb Hn Hd Hk Hs]. split.
  - intros key id'. rewrite leave_bucket. case_decide as Hkey.
    + subst key. rewrite elem_of_difference, elem_of_singleton, Hb.
      destruct (decide (id' = id)) as [->|Hne].
      * rewrite lookup_delete_eq. naive_solver.
      * rewrite lookup_delete_ne by done. naive_solver.
    + rewrite Hb. destruct (decide (id' = id)) as [->|Hne].
      * rewrite lookup_delete_eq, Hid. naive_solver.
      * by rewrite lookup_delete_ne.
  - intros key b. rewrite leave_buckets. unfold left_buckets. case_decide as He.
    + intros [_ Hl]%lookup_delete_Some. by eapply Hn.
    + intros [[<- <-]|[_ Hl]]%lookup_insert_Some; [done|]. by eapply Hn.
  - by apply leave_dups.
  - rewrite leave_kind. by apply kind_ok_delete.
  - eapply leave_sorted; [done|]. apply (dom_buckets s m); eauto.
Qed.

(** ** The mutators implement the map operations *)

Lemma newSecondaryIndex_repr f u : sidx_repr (newSecondaryIndex f u) ∅.
Proof.
  split_and!; [|done|apply map_Forall_empty]. split; simpl.
  - intros key id. unfold bucket. simpl. rewrite lookup_empty. simpl. split; [set_solver|].
    intros (v & Hv & _). by rewrite lookup_empty in Hv.
  - intros key b H. by rewrite lookup_empty in H.
  - intros key. split; [set_solver|]. intros H. vm_compute in H. lia.
  - done.
  - done.
Qed.

(** The value [add] and [update] record, if the index takes it. *)
Definition accepted (s : SecondaryIndex) (v : value) (id : Z) (m : gmap Z value) : gmap Z value :=
  if accepts s v then <[id := v]> m else delete id m.

Lemma add_repr s m v id :
  sidx_repr s m → m !! id = None → value_wf v → sidx_repr (add s v id) (accepted s v id m).
Proof.
  intros (Hc & Hr & Hw) Hid Hwf. unfold add, accepted. destruct (accepts s v).
  - split_and!; [by apply put_core| |by apply map_Forall_insert_2].
    by rewrite put_reverse, Hr, fmap_insert.
  - by rewrite delete_id.
Qed.

Lemma remove_repr s m id : sidx_repr s m → sidx_repr (remove s id) (delete id m).
Proof.
  intros (Hc & Hr & Hw). unfold remove. rewrite Hr, lookup_fmap.
  destruct (m !! id) as [v|] eqn:Hid; simpl; [|by rewrite delete_id].
  split_and!; [|simpl; rewrite leave_reverse, Hr; by rewrite fmap_delete|by apply map_Forall_delete].
  pose proof (leave_core s m id v Hc Hid) as [Hb Hn Hd Hk Hs]. split; done.
Qed.

Lemma update_repr s m v id :
  sidx_repr s m → value_wf v → sidx_repr (update s id v) (accepted s v id m).
Proof.
  intros (Hc & Hr & Hw) Hwf. unfold update, accepted. destruct (accepts s v); [|by apply remove_repr].
  rewrite Hr, lookup_fmap. destruct (m !! id) as [v0|] eqn:Hid; simpl.
  - split_and!.
    + rewrite <- insert_delete_eq. apply put_core; [by apply leave_core|apply lookup_delete_eq|done].
    + by rewrite put_reverse, leave_reverse, Hr, fmap_insert.
    + by apply map_Forall_insert_2.
  - split_and!; [by apply put_core| |by apply map_Forall_insert_2].
    by rewrite put_reverse, Hr, fmap_insert.
Qed.

Lemma add_same_field s v id : field (add s v id) = field s ∧ unique (add s v id) = unique s.
Proof. unfold add. destruct (accepts s v); [|done]. by rewrite put_field, put_unique. Qed.

Lemma remove_same_field s id : field (remove s id) = field s ∧ unique (remove s id) = unique s.
Proof.
  unfold remove. destruct (reverse s !! id); [|done]. simpl. by rewrite leave_field, leave_unique.
Qed.

Lemma update_same_field s id v : field (update s id v) = field s ∧ unique (update s id v) = unique s.
Proof.
  unfold update. destruct (accepts s v); [|apply remove_same_field].
  rewrite put_field, put_unique. destruct (reverse s !! id); [|done]. by rewrite leave_field, leave_unique.
Qed.

(** ** Queries *)

Lemma Compare_norm v q :
  (valKind v).1 = (valKind q).1 → Compare (valKind v).2 (valKind q).2 = Compare v q.
Proof.
  intros H.
  destruct (is_num v) eqn:Ev, (is_num q) eqn:Eq; try (by destruct v, q).
  assert (Hn : ∀ w, is_num w = false → is_num (valKind w).2 = false ∧ fmt_v (valKind w).2 = fmt_v w).
  { intros w Hw. destruct w; try done; simpl; by unfold toIndexKey; rewrite ?b_of_s_of_b. }
  destruct (Hn v Ev) as [H1 H2], (Hn q Eq) as [H3 H4].
  rewrite !Compare_not_num by (by rewrite ?H1, ?H3, ?Ev, ?Eq). by rewrite H2, H4.
Qed.

Definition of_kind (k : indexKind) (v : value) : Prop := is_num v = bool_decide (k = indexNumeric).

Lemma of_kind_homogeneous k : homogeneous (of_kind k).
Proof. unfold of_kind. destruct (decide (k = indexNumeric)) as [->|]; [left|right]; intros v ->; [done|]. by apply bool_decide_eq_false. Qed.

Lemma valForKind_of_kind k key : homog k → of_kind k (valForKind k key).
Proof. intros [-> | ->]; done. Qed.

Lemma valKind_of_kind v : of_kind (valKind v).1 (valKind v).2.
Proof. by destruct v. Qed.

(** Along the view the comparison with a fixed value never decreases. *)
Lemma view_monotone k keys q i j x y :
  homog k → of_kind k q → i ≤ j → view k keys !! i = Some x → view k keys !! j = Some y →
  (Compare (ok_val x) q = Gt → Compare (ok_val y) q = Gt) ∧
  (Compare (ok_val x) q ≠ Lt → Compare (ok_val y) q ≠ Lt).
Proof.
  intros Hk Hq Hij Hx Hy. destruct (decide (i = j)) as [->|Hne]; [by simplify_eq|].
  pose proof (view_sorted k keys Hk) as Hs.
  assert (Hxy : not_after orderLessKey x y) by (eapply StronglySorted_lookup; [exact Hs| |exact Hx|exact Hy]; lia).
  apply list_elem_of_lookup_2, elem_of_view in Hx as (a & _ & ->), Hy as (b & _ & ->). simpl.
  unfold not_after, orderLessKey in Hxy. simpl in Hxy.
  assert (Hle : Compare (valForKind k a) (valForKind k b) ≠ Gt).
  { rewrite (Compare_antisym (valForKind k a)). by destruct (Compare (valForKind k b) (valForKind k a)). }
  pose proof (of_kind_homogeneous k) as Hh.
  assert (Ha := valForKind_of_kind k a Hk). assert (Hb := valForKind_of_kind k b Hk).
  rewrite (Compare_antisym (valForKind k a) q), (Compare_antisym (valForKind k b) q). split.
  - intros H. destruct (Compare q (valForKind k a)) eqn:E; try done.
    by rewrite (Compare_lt_trans _ q _ (valForKind k b) Hh Hq Ha Hb E Hle).
  - intros H H'. destruct (Compare q (valForKind k b)) eqn:E; try done.
    assert (Compare q (valForKind k b) ≠ Gt); [|done].
    apply (Compare_le_trans _ q (valForKind k a) _ Hh Hq Ha Hb); [|done].
    by destruct (Compare q (valForKind k a)).
Qed.

Definition is_gt (c : comparison) : bool := match c with Gt => true | _ => false end.
Definition not_lt (c : comparison) : bool := match c with Lt => false | _ => true end.

(** What a range operator asks of the comparison with the query value. *)
Definition range_ok (op : FilterOp) (c : comparison) : option bool :=
  match op with
  | OpGt => Some (is_gt c)
  | OpGte => Some (not_lt c)
  | OpLt => Some (negb (not_lt c))
  | OpLte => Some (negb (is_gt c))
  | _ => None
  end.

(** The slice [LookupRange] takes is the part of the view that satisfies the operator. *)
Lemma range_slice k keys op q slice :
  homog k → of_kind k q →
  (let l := view k keys in
   let gt := search_list l (λ e, is_gt (Compare (ok_val e) q)) in
   let ge := search_list l (λ e, not_lt (Compare (ok_val e) q)) in
   match op with
   | OpGt => Some (drop gt l)
   | OpGte => Some (drop ge l)
   | OpLt => Some (take ge l)
   | OpLte => Some (take gt l)
   | _ => None
   end) = Some slice →
  ∀ x, x ∈ slice ↔ x ∈ view k keys ∧ range_ok op (Compare (ok_val x) q) = Some true.
Proof.
  intros Hk Hq.
  destruct (search_list_filter (view k keys) (λ e, is_gt (Compare (ok_val e) q))) as [Hg1 Hg2].
  { intros i j x y Hij Hx Hy Hp. destruct (view_monotone k keys q i j x y Hk Hq Hij Hx Hy) as [H _].
    destruct (Compare (ok_val x) q); try done. by rewrite H. }
  destruct (search_list_filter (view k keys) (λ e, not_lt (Compare (ok_val e) q))) as [Hl1 Hl2].
  { intros i j x y Hij Hx Hy Hp. destruct (view_monotone k keys q i j x y Hk Hq Hij Hx Hy) as [_ H].
    assert (Compare (ok_val y) q ≠ Lt) by (apply H; by destruct (Compare (ok_val x) q)).
    by destruct (Compare (ok_val y) q). }
  cbv zeta. destruct op; try done; intros [= <-] x;
    rewrite ?Hg1, ?Hg2, ?Hl1, ?Hl2, list_elem_of_filter; cbn [range_ok];
    destruct (Compare (ok_val x) q); simpl; naive_solver.
Qed.

Lemma kind_ok_valKind k m id v : homog k → kind_ok k m → m !! id = Some v → (valKind v).1 = k.
Proof. intros [-> | ->] Hk Hv; specialize (Hk _ _ Hv); simpl in Hk; by destruct v. Qed.

(** ** Properties *)

(** One mutation of the index, as the collection issues them. *)
Inductive sidx_op : Type :=
| SAdd (id : Z) (v : value)
| SUpdate (id : Z) (v : value)
| SRemove (id : Z).

Definition sidx_step (s : SecondaryIndex) (op : sidx_op) : SecondaryIndex :=
  match op with
  | SAdd id v => add s v id
  | SUpdate id v => update s id v
  | SRemove id => remove s id
  end.

(** The same mutation of the map from ids to field values. *)
Definition spec_step (f : string) (m : gmap Z value) (op : sidx_op) : gmap Z value :=
  let acc v := if decide (f = KeyField) then match v with VStr _ => true | _ => false end else true in
  match op with
  | SAdd id v | SUpdate id v => if acc v then <[id := v]> m else delete id m
  | SRemove id => delete id m
  end.

(** Values are well formed and [add] is used for new ids only. *)
Fixpoint ops_ok (f : string) (m : gmap Z value) (ops : list sidx_op) : Prop :=
  match ops with
  | [] => True
  | op :: ops' =>
      match op with
      | SAdd id v => m !! id = None ∧ value_wf v
      | SUpdate id v => value_wf v
      | SRemove id => True
      end ∧ ops_ok f (spec_step f m op) ops'
  end.

(** an index is a faithful inverted index of its field: after any
    sequence of adds of new ids, updates and removals, its buckets, reverse map,
    duplicate markers, value kind and ordered view are exactly those of the map
    from ids to the accepted field values. *)
Theorem sidx_refines_map ops s m :
  sidx_repr s m → ops_ok (field s) m ops →
  sidx_repr (foldl sidx_step s ops) (foldl (spec_step (field s)) m ops).
Proof.
  revert s m. induction ops as [|op ops IH]; intros s m Hr Hok; [done|].
  destruct Hok as [Hop Hok]. cbn [foldl].
  assert (Hf : field (sidx_step s op) = field s).
  { destruct op; simpl; [apply add_same_field|apply update_same_field|apply remove_same_field]. }
  specialize (IH (sidx_step s op) (spec_step (field s) m op)). rewrite Hf in IH.
  apply IH; [|done]. clear IH Hf. destruct op as [id v|id v|id]; simpl in *.
  - destruct Hop. by apply (add_repr s m v id).
  - by apply (update_repr s m v id).
  - by apply remove_repr.
Qed.

Lemma Lookup_elem s m key id :
  sidx_repr s m → id ∈ Lookup s key ↔ ∃ v, m !! id = Some v ∧ toIndexKey v = key.
Proof. intros (Hc & _). unfold Lookup. rewrite elem_of_elements. apply Hc. Qed.

(** [Lookup] returns exactly the ids whose field value has the given
    text, each once. *)
Theorem Lookup_exact s m key :
  sidx_repr s m →
  NoDup (Lookup s key) ∧ ∀ id, id ∈ Lookup s key ↔ ∃ v, m !! id = Some v ∧ toIndexKey v = key.
Proof.
  intros Hr. split; [apply NoDup_elements|]. intros id. by apply Lookup_elem.
Qed.

Lemma LookupRange_elem s m op q ids :
  sidx_repr s m → LookupRange s op q = Some ids → is_Some (range_ok op Eq) →
  ∀ id, id ∈ ids ↔ ∃ v, m !! id = Some v ∧ range_ok op (Compare v q) = Some true.
Proof.
  intros (Hc & _ & Hwf) Hl Hop id. unfold LookupRange in Hl.
  destruct (decide (homog (kind s))) as [Hk|Hk].
  - assert (Hl' : range_lookup s op q (kind s) = Some ids)
      by (destruct Hk as [E|E]; by rewrite E in *).
    clear Hl. rename Hl' into Hl. unfold range_lookup in Hl. pose proof (valKind_of_kind q) as Hqk. destruct (valKind q) as [qk qv] eqn:Eq.
    case_decide as Hqe; [|done]. simpl in Hqk. subst qk.
    rewrite (sc_sorted _ _ Hc), buildSorted_view in Hl by done.
    destruct (match op with OpGt => _ | _ => _ end) as [slice|] eqn:Es; [|done]. invc Hl.
    pose proof (range_slice (kind s) (dom (buckets s)) op qv slice Hk Hqk Es) as Hsl.
    rewrite list_elem_of_In, in_concat. setoid_rewrite in_map_iff.
    setoid_rewrite <- list_elem_of_In.
    assert (Hval : ∀ v i, m !! i = Some v → ok_val (mk (kind s) (toIndexKey v)) = (valKind v).2 ∧
                     Compare (valKind v).2 qv = Compare v q).
    { intros v i Hv. pose proof (kind_ok_valKind _ _ _ _ Hk (sc_kind _ _ Hc) Hv) as Hvk. split.
      - simpl. rewrite <- Hvk. symmetry. apply valKind_norm. by apply (Hwf i).
      - replace qv with (valKind q).2 by (by rewrite Eq). apply Compare_norm. by rewrite Eq. }
    split.
    + intros (x & (e & Hx & He) & Hin). apply Hsl in He as [He Hop'].
      apply elem_of_view in He as (key & _ & He). subst e x. simpl in Hin. rewrite elem_of_elements in Hin.
      apply (sc_bucket _ _ Hc) in Hin as (v & Hv & <-). exists v. split; [done|].
      destruct (Hval v id Hv) as [Hv1 Hv2]. by rewrite Hv1, Hv2 in Hop'.
    + intros (v & Hv & Hr). destruct (Hval v id Hv) as [Hv1 Hv2].
      exists (elements (bucket s (toIndexKey v))). split.
      * exists (mk (kind s) (toIndexKey v)). split; [done|]. apply Hsl. split.
        -- apply elem_of_view. exists (toIndexKey v). split; [|done].
           apply (dom_buckets s m); [done|]. by exists id, v.
        -- by rewrite Hv1, Hv2.
      * apply elem_of_elements, (sc_bucket _ _ Hc). eauto.
  - destruct (kind s) eqn:Ek; try (exfalso; apply Hk; (by left) || (by right)). invc Hl.
    pose proof (sc_kind _ _ Hc) as Hm. rewrite Ek in Hm. simpl in Hm. subst m.
    split; [intros H; by apply not_elem_of_nil in H|].
    intros (v & Hv & _). by rewrite lookup_empty in Hv.
Qed.

Lemma view_keys_NoDup k keys : NoDup (map ok_key (view k keys)).
Proof.
  rewrite view_perm, map_map. cbn [mk ok_key]. rewrite map_id. apply NoDup_elements.
Qed.

Lemma concat_buckets_NoDup s m l :
  sidx_core s m → NoDup (map ok_key l) → NoDup (concat (map (λ e, elements (bucket s (ok_key e))) l)).
Proof.
  intros Hc. induction l as [|x l IH]; intros Hnd; [constructor|]. cbn [map concat] in *. apply NoDup_cons in Hnd as [Hn Hnd].
  apply NoDup_app. split_and!; [apply NoDup_elements| |by apply IH].
  intros id Hid Hin. apply elem_of_elements, (sc_bucket _ _ Hc) in Hid as (v & Hv & Hk).
  apply list_elem_of_In, in_concat in Hin as (b & Hb & Hin). apply in_map_iff in Hb as (y & <- & Hy).
  apply list_elem_of_In, elem_of_elements, (sc_bucket _ _ Hc) in Hin as (v' & Hv' & Hk').
  apply Hn. assert (v' = v) as -> by congruence. rewrite <- Hk, Hk'. apply list_elem_of_fmap.
  exists y. split; [done|]. by apply list_elem_of_In.
Qed.

Lemma LookupRange_NoDup s m op q ids : sidx_repr s m → LookupRange s op q = Some ids → NoDup ids.
Proof.
  intros (Hc & _) Hl. unfold LookupRange in Hl. destruct (decide (homog (kind s))) as [Hk|Hk].
  - assert (Hl' : range_lookup s op q (kind s) = Some ids) by (destruct Hk as [E|E]; by rewrite E in *).
    unfold range_lookup in Hl'. destruct (valKind q) as [qk qv]. case_decide; [|done].
    rewrite (sc_sorted _ _ Hc), buildSorted_view in Hl' by done.
    destruct (match op with OpGt => _ | _ => _ end) as [slice|] eqn:Es; [|done]. injection Hl' as <-.
    apply (concat_buckets_NoDup _ m); [done|]. eapply sublist_NoDup; [apply (view_keys_NoDup (kind s) (dom (buckets s)))|].
    apply fmap_sublist. destruct op; try done; injection Es as <-; apply sublist_drop || apply sublist_take.
  - destruct (kind s); try (exfalso; apply Hk; (by left) || (by right)). injection Hl as <-. constructor.
Qed.

(** when the ordered view serves a range query, it returns exactly the
    ids whose value satisfies the operator under the comparison the filters use,
    each once: the same ids a full scan would keep. *)
Theorem LookupRange_exact s m op q ids :
  sidx_repr s m → LookupRange s op q = Some ids → is_Some (range_ok op Eq) →
  NoDup ids ∧ ∀ id, id ∈ ids ↔ ∃ v, m !! id = Some v ∧ range_ok op (Compare v q) = Some true.
Proof. intros Hr Hl Hop. split; [by eapply LookupRange_NoDup|by apply (LookupRange_elem s)]. Qed.

(** A number equal to zero; it has two representations, with and without sign. *)
Definition is_zero (v : value) : bool :=
  match v with VNum f => bool_decide (f_digs f = []) | _ => false end.

Lemma toIndexKey_eq v c : toIndexKey v = toIndexKey c ↔ fmt_v v = fmt_v c.
Proof.
  unfold toIndexKey. split; [|by intros ->]. intros H. apply (f_equal b_of_s) in H.
  by rewrite !b_of_s_of_b in H.
Qed.

Lemma eq_bucket_iff v c :
  value_wf v → value_wf c → is_zero v && is_zero c = false →
  equal v c = true ↔ toIndexKey v = toIndexKey c.
Proof.
  intros Hv Hc Hz. rewrite toIndexKey_eq, equal_Compare.
  destruct (is_num v && is_num c) eqn:E.
  - apply andb_true_iff in E as [Ev Ec]. destruct v as [| |f| | |], c as [| |g| | |]; try done.
    rewrite Compare_num. simpl in *. split.
    + destruct (float_cmp f g) eqn:Ecmp; try done. intros _. f_equal.
      destruct (decide (f_digs f = [])) as [Hf|Hf], (decide (f_digs g = [])) as [Hg|Hg].
      * by rewrite !bool_decide_true in Hz by done.
      * by apply float_cmp_zero in Ecmp.
      * rewrite float_cmp_antisym in Ecmp.
        destruct (float_cmp g f) eqn:E'; try done. by apply float_cmp_zero in E'.
      * by apply float_cmp_Eq.
    + intros H%fmt_g_inj; [|done..]. subst g. by rewrite float_cmp_refl.
  - rewrite Compare_not_num by done. split.
    + destruct (bytes_cmp _ _) eqn:Eb; try done. intros _. by apply bytes_cmp_eq.
    + intros ->. by rewrite bytes_cmp_refl.
Qed.

(** serving an [eq] filter from the bucket of its value text finds
    exactly the values the filter's equality accepts, for every pair of values
    other than two zeros. *)
Theorem eq_bucket_exact v c :
  value_wf v → value_wf c → is_zero v && is_zero c = false →
  equal v c = true ↔ toIndexKey v = toIndexKey c.
Proof. apply eq_bucket_iff. Qed.

(** zero and negative zero are equal for the [eq] filter but live in
    different buckets, so a query served from the index misses the other one. *)
Theorem eq_bucket_misses_negative_zero :
  let z := VNum (MkF false [] 0) in let nz := VNum (MkF true [] 0) in
  value_wf z ∧ value_wf nz ∧ equal nz z = true ∧ toIndexKey nz ≠ toIndexKey z.
Proof.
  simpl. split_and!; try done; try (by constructor); try lia.
Qed.

(** ** Witnesses *)

Definition num (d : nat) : value := VNum (MkF false [d] 1).

Lemma num_wf d : 0 < d < 10 → value_wf (num d).
Proof.
  intros Hd. simpl. split_and!; try done; [forall_lia|simpl; intros [= ->]; lia..].
Qed.

Definition sample_ops : list sidx_op :=
  [SAdd 1 (num 5); SAdd 2 (num 3); SUpdate 1 (num 7); SAdd 3 (num 3); SRemove 2].

Definition sample_sidx : SecondaryIndex := foldl sidx_step (newSecondaryIndex "age" false) sample_ops.

Lemma sample_ops_ok : ops_ok "age" ∅ sample_ops.
Proof. simpl. split_and!; try (apply num_wf; lia); done. Qed.

Lemma sidx_refines_map_witness :
  sidx_repr sample_sidx (foldl (spec_step "age") ∅ sample_ops).
Proof.
  apply (sidx_refines_map sample_ops (newSecondaryIndex "age" false) ∅);
    [apply newSecondaryIndex_repr|apply sample_ops_ok].
Defined.

Lemma one_value_repr : sidx_repr (add (newSecondaryIndex "age" false) (num 5) 1) {[1%Z := num 5]}.
Proof.
  apply (add_repr (newSecondaryIndex "age" false) ∅ (num 5) 1); [apply newSecondaryIndex_repr|done|].
  apply num_wf. lia.
Qed.

Lemma Lookup_exact_witness :
  let s := add (newSecondaryIndex "age" false) (num 5) 1 in
  NoDup (Lookup s "5") ∧
  ∀ id, id ∈ Lookup s "5" ↔ ∃ v, ({[1%Z := num 5]} : gmap Z value) !! id = Some v ∧ toIndexKey v = "5".
Proof. apply (Lookup_exact _ {[1%Z := num 5]}), one_value_repr. Defined.

Lemma eq_bucket_exact_witness : equal (num 5) (num 5) = true ↔ toIndexKey (num 5) = toIndexKey (num 5).
Proof. apply (eq_bucket_exact (num 5) (num 5)); [apply num_wf; lia..|reflexivity]. Defined.

Lemma LookupRange_exact_witness :
  LookupRange (add (newSecondaryIndex "age" false) (num 5) 1) OpGt (num 3) = Some [1%Z] ∧
  (1%Z ∈ [1%Z] ↔ ∃ v, ({[1%Z := num 5]} : gmap Z value) !! 1%Z = Some v ∧
                      range_ok OpGt (Compare v (num 3)) = Some true).
Proof.
  assert (H : LookupRange (add (newSecondaryIndex "age" false) (num 5) 1) OpGt (num 3) = Some [1%Z])
    by (vm_compute; reflexivity).
  split; [exact H|].
  apply (LookupRange_exact _ _ OpGt (num 3) [1%Z] one_value_repr H). by eexists.
Defined.
