(* ===== verification/Collection.v ===== *)
(** * Collections: [engine/collection.go], [ttl.go], [fence.go], [quota.go], [keys.go]

    The state of a collection and its operations on records.  Each operation is
    the Go method, line by line, in a state and error monad: an error keeps the
    state reached so far, as an early return does.  A method runs with the
    collection lock held from its first read of shared state to its last write,
    so the operations of concurrent callers are a sequence of these steps.

    The outside world is the list of outcomes of the file calls ([io], see
    [Segment]) and the list of readings of the wall clock ([wall]).  The
    encryptor is an interface ([encryptor]), which [Encryption] implements.  Calls that only observe (metrics, logging, test hooks) are left
    out. *)
From Stdlib Require Import Ascii Lia ZArith SpecFloat.
From stdpp Require Import prelude gmap strings sorting.
From S2P Require Import Prelude GoNum Json Value Filter GoTime Store Wire Codec Segment Index SecondaryIndex.

(** ** State *)

Inductive syncMode : Type := SyncModeNone | SyncModeAlways | SyncModeInterval.

#[global] Instance syncMode_eq_dec : EqDecision syncMode.
Proof. solve_decision. Defined.

Record CollectionConfig : Type := MkCfg {
  SegmentMaxSize : Z;
  SyncMode : syncMode;
  DefaultTTL : Z;              (* nanoseconds *)
  MaxRecords : Z;              (* uint64, 0 = unlimited *)
  MaxBytes : Z;                (* uint64, 0 = unlimited *)
  WatchBufferSize : nat;
  AllowNonAtomicBatch : bool;
  CompactDirtyPct : spec_float
}.

Record WatchEvent : Type := MkEvent {
  we_Op : string;
  we_ID : Z;
  we_Data : option vdata;
  we_Ts : time
}.

Definition OpOverflow : string := "overflow".

(** A subscription: the events buffered in its channel, oldest first. *)
Record watcher : Type := MkWatcher { ch : list WatchEvent; overflowed : bool }.

Inductive cerr : Type :=
| ErrCollectionFenced
| ErrWriteOutcomeUnknown
| ErrAppend (e : seg_err)
| ErrRollback (e : seg_err)
| ErrBatchFailed (cause : seg_err) (rollback : option cerr)
| ErrReservedField
| ErrResourceExhausted
| ErrDuplicateKey (field key : string)
| ErrNotFound
| ErrSegmentNotFound
| ErrRead (e : seg_err)
| ErrIntegrity (id found : Z)
| ErrKeyNotFound
| ErrKeyIndexConflict (key : string) (ids : list Z)
| ErrIndexCorrupt
| ErrCrypto
| ErrBatchNotAtomic
| ErrTxTargetDeleted (id : Z)
| ErrScan (e : seg_err)
| ErrPersist
| ErrFieldEncrypted
| ErrIndexNotFound
| ErrRotate
| ErrSwapIncomplete
| ErrCompactionDeferred
| ErrCompact (e : seg_err)
| ErrCompactOverflow
| ErrClosed
| ErrUnknownOp (op : string)   (* a replicated entry with no known operation *).

Record encryptor : Type := MkEnc {
  enc_encrypt : vdata → option vdata;
  enc_materialize : vdata → list string → option vdata;   (* no fields: the full record *)
  enc_epoch : Z;
  enc_isEncryptedField : string → bool
}.

Record Collection : Type := MkColl {
  dir : string;
  cfg : CollectionConfig;
  sealedSegs : list Segment;
  active : Segment;
  index : Index;
  idSeq : Z;
  segSeq : Z;
  fenced : option string;              (* the operation that fenced it *)
  cdecisions : option decisions;
  clockFloor : Z;
  explicitDefaultTTLSecs : Z;
  watchers : gmap Z watcher;
  watcherIDSeq : Z;
  sidxMap : gmap string SecondaryIndex;
  enc : option encryptor;
  broker : option (list Entry);        (* entries published to replication *)
  metaIDCounter : Z;                   (* the id counter meta.json holds *)
  db : option bool;                    (* the database, if any: does its root run batches atomically? *)
  swapFailed : bool;                   (* a compaction swap stopped midway *)
  closeDone : bool
}.

Record St : Type := MkSt { coll : Collection; io : list fault; wall : list Z }.

(** ** The monad *)

Definition M (A : Type) : Type := St → St * res cerr A.

Definition ret {A} (a : A) : M A := λ st, (st, Ok a).
Definition bind {A B} (m : M A) (k : A → M B) : M B :=
  λ st, let '(st', r) := m st in
        match r with
        | Ok a => k a st'
        | Err e => (st', Err e)
        end.
Definition throw {A} (e : cerr) : M A := λ st, (st, Err e).
(** Run [m] and look at its outcome. *)
Definition try_ {A} (m : M A) : M (res cerr A) := λ st, let '(st', r) := m st in (st', Ok r).
Definition get_coll : M Collection := λ st, (st, Ok (coll st)).
Definition modify (f : Collection → Collection) : M unit :=
  λ st, (MkSt (f (coll st)) (io st) (wall st), Ok tt).
Definition guard_err (b : bool) (e : cerr) : M unit := if b then throw e else ret tt.

Notation "x <- m ;; k" := (bind m (λ x, k))
  (at level 100, m at next level, right associativity) : scriva_scope.
Notation "'let!' p := m 'in' k" := (bind m (λ p, k))
  (at level 200, p pattern, m at level 200, k at level 200) : scriva_scope.
Notation "m ;;; k" := (bind m (λ _, k)) (at level 100, right associativity) : scriva_scope.

(** Field updates. *)
Section updates.
Context (c : Collection).
Definition set_sealed (v : list Segment) : Collection :=
  MkColl (dir c) (cfg c) v (active c) (index c) (idSeq c) (segSeq c) (fenced c) (cdecisions c)
    (clockFloor c) (explicitDefaultTTLSecs c) (watchers c) (watcherIDSeq c) (sidxMap c)
    (enc c) (broker c) (metaIDCounter c) (db c) (swapFailed c) (closeDone c).
Definition set_active (v : Segment) : Collection :=
  MkColl (dir c) (cfg c) (sealedSegs c) v (index c) (idSeq c) (segSeq c) (fenced c) (cdecisions c)
    (clockFloor c) (explicitDefaultTTLSecs c) (watchers c) (watcherIDSeq c) (sidxMap c)
    (enc c) (broker c) (metaIDCounter c) (db c) (swapFailed c) (closeDone c).
Definition set_index (v : Index) : Collection :=
  MkColl (dir c) (cfg c) (sealedSegs c) (active c) v (idSeq c) (segSeq c) (fenced c) (cdecisions c)
    (clockFloor c) (explicitDefaultTTLSecs c) (watchers c) (watcherIDSeq c) (sidxMap c)
    (enc c) (broker c) (metaIDCounter c) (db c) (swapFailed c) (closeDone c).
Definition set_idSeq (v : Z) : Collection :=
  MkColl (dir c) (cfg c) (sealedSegs c) (active c) (index c) v (segSeq c) (fenced c) (cdecisions c)
    (clockFloor c) (explicitDefaultTTLSecs c) (watchers c) (watcherIDSeq c) (sidxMap c)
    (enc c) (broker c) (metaIDCounter c) (db c) (swapFailed c) (closeDone c).
Definition set_segSeq (v : Z) : Collection :=
  MkColl (dir c) (cfg c) (sealedSegs c) (active c) (index c) (idSeq c) v (fenced c) (cdecisions c)
    (clockFloor c) (explicitDefaultTTLSecs c) (watchers c) (watcherIDSeq c) (sidxMap c)
    (enc c) (broker c) (metaIDCounter c) (db c) (swapFailed c) (closeDone c).
Definition set_fenced (v : option string) : Collection :=
  MkColl (dir c) (cfg c) (sealedSegs c) (active c) (index c) (idSeq c) (segSeq c) v (cdecisions c)
    (clockFloor c) (explicitDefaultTTLSecs c) (watchers c) (watcherIDSeq c) (sidxMap c)
    (enc c) (broker c) (metaIDCounter c) (db c) (swapFailed c) (closeDone c).
Definition set_clockFloor (v : Z) : Collection :=
  MkColl (dir c) (cfg c) (sealedSegs c) (active c) (index c) (idSeq c) (segSeq c) (fenced c) (cdecisions c)
    v (explicitDefaultTTLSecs c) (watchers c) (watcherIDSeq c) (sidxMap c)
    (enc c) (broker c) (metaIDCounter c) (db c) (swapFailed c) (closeDone c).
Definition set_watchers (v : gmap Z watcher) (n : Z) : Collection :=
  MkColl (dir c) (cfg c) (sealedSegs c) (active c) (index c) (idSeq c) (segSeq c) (fenced c) (cdecisions c)
    (clockFloor c) (explicitDefaultTTLSecs c) v n (sidxMap c)
    (enc c) (broker c) (metaIDCounter c) (db c) (swapFailed c) (closeDone c).
Definition set_sidxMap (v : gmap string SecondaryIndex) : Collection :=
  MkColl (dir c) (cfg c) (sealedSegs c) (active c) (index c) (idSeq c) (segSeq c) (fenced c) (cdecisions c)
    (clockFloor c) (explicitDefaultTTLSecs c) (watchers c) (watcherIDSeq c) v
    (enc c) (broker c) (metaIDCounter c) (db c) (swapFailed c) (closeDone c).
Definition set_broker (v : option (list Entry)) : Collection :=
  MkColl (dir c) (cfg c) (sealedSegs c) (active c) (index c) (idSeq c) (segSeq c) (fenced c) (cdecisions c)
    (clockFloor c) (explicitDefaultTTLSecs c) (watchers c) (watcherIDSeq c) (sidxMap c)
    (enc c) v (metaIDCounter c) (db c) (swapFailed c) (closeDone c).
Definition set_meta (v : Z) : Collection :=
  MkColl (dir c) (cfg c) (sealedSegs c) (active c) (index c) (idSeq c) (segSeq c) (fenced c) (cdecisions c)
    (clockFloor c) (explicitDefaultTTLSecs c) (watchers c) (watcherIDSeq c) (sidxMap c)
    (enc c) (broker c) v (db c) (swapFailed c) (closeDone c).
Definition set_swapFailed : Collection :=
  MkColl (dir c) (cfg c) (sealedSegs c) (active c) (index c) (idSeq c) (segSeq c) (fenced c) (cdecisions c)
    (clockFloor c) (explicitDefaultTTLSecs c) (watchers c) (watcherIDSeq c) (sidxMap c)
    (enc c) (broker c) (metaIDCounter c) (db c) true (closeDone c).
End updates.

(** ** The world *)

(** One outcome of a call outside the segments (directory sync, meta.json). *)
Definition io_call : M bool :=
  λ st, let '(f, fs) := next_fault (io st) in (MkSt (coll st) fs (wall st), Ok (f_ok f)).

(** A reading of the wall clock; it stands still when the list is exhausted. *)
Definition wall_now : M Z :=
  λ st, match wall st with
        | [] => (st, Ok 0%Z)
        | t :: w => (MkSt (coll st) (io st) w, Ok t)
        end.

(** A segment operation on the active segment. *)
Definition on_active {A} (f : Segment → list fault → Segment * list fault * res seg_err A)
    : M (res seg_err A) :=
  λ st, let '(s', fs, r) := f (active (coll st)) (io st) in
        (MkSt (set_active (coll st) s') fs (wall st), Ok r).

(** ** fence.go *)

Definition fence (op : string) : M unit :=
  modify (λ c, match fenced c with None => set_fenced c (Some op) | Some _ => c end).

Definition unknownOutcome {A} (op : string) : M A := fence op ;;; throw ErrWriteOutcomeUnknown.

Definition is_fenced (c : Collection) : bool := bool_decide (is_Some (fenced c)).

Definition checkFenced : M unit :=
  c <- get_coll ;; guard_err (is_fenced c) ErrCollectionFenced.

(** ** ttl.go: the clock *)

(** [now]: the wall clock floored by the highest reading so far. *)
Definition now : M Z :=
  t <- wall_now ;;
  c <- get_coll ;;
  if (t <=? clockFloor c)%Z then ret (clockFloor c)
  else modify (λ c, set_clockFloor c t) ;;; ret t.

(** [explicit] is a caller's deadline in nanoseconds, if it gave one. *)
Definition resolveInsertExpiryAt (c : Collection) (explicit : option Z) (n : Z) : Z :=
  match explicit with
  | Some e => e
  | None =>
      if (0 <? explicitDefaultTTLSecs c)%Z then
        i64 (n + i64 (explicitDefaultTTLSecs c * 1000000000))
      else if (0 <? DefaultTTL (cfg c))%Z then i64 (n + DefaultTTL (cfg c))
      else 0
  end.

Definition resolveInsertExpiry (explicit : option Z) : M Z :=
  n <- now ;; c <- get_coll ;; ret (resolveInsertExpiryAt c explicit n).

Definition isLive (c : Collection) (n : Z) (id : Z) : bool :=
  match Get (index c) id with
  | Some loc => negb (expired (ie_ExpiresAt loc) n)
  | None => false
  end.

Definition liveIDs (c : Collection) (ids : list Z) (n : Z) : list Z :=
  filter (λ id, isLive c n id = true) ids.

(** Another live record holds [value] in the index. *)
Definition sidxConflict (c : Collection) (sidx : SecondaryIndex) (value : string) (id n : Z) : bool :=
  existsb (λ other, if (other =? id)%Z then false else isLive c n other) (Lookup sidx value).

(** ** quota.go *)

Definition quotaEnabled (c : Collection) : bool :=
  (0 <? MaxRecords (cfg c))%Z || (0 <? MaxBytes (cfg c))%Z.

Definition entryQuotaBytes (c : Collection) (e : Entry) : Z :=
  if (MaxBytes (cfg c) =? 0)%Z then 0 else Z.of_nat (length (Encode e)).

Definition sizeBytesLocked (c : Collection) : Z :=
  foldl (λ t s, (t + Z.of_nat (size s))%Z) 0%Z (sealedSegs c) + Z.of_nat (size (active c)).

Definition quota_exceeded (c : Collection) (newRecords newBytes : Z) : bool :=
  ((0 <? MaxRecords (cfg c)) && (MaxRecords (cfg c) <? u64 (Z.of_nat (Len (index c)) + newRecords)) ||
   (0 <? MaxBytes (cfg c)) && (i64 (MaxBytes (cfg c)) <? i64 (sizeBytesLocked c + newBytes)))%Z.

Definition checkQuotaLocked (newRecords newBytes : Z) : M unit :=
  c <- get_coll ;; guard_err (quota_exceeded c newRecords newBytes) ErrResourceExhausted.

(** ** Writing one entry *)

Definition sealEntryData (e : Entry) : M Entry :=
  c <- get_coll ;;
  match enc c with
  | None => ret e
  | Some en =>
      match enc_encrypt en (default ∅ (Data e)) with
      | None => throw ErrCrypto
      | Some stored =>
          ret (MkEntry (ID e) (Op e) (Ts e) (Rev e) (Some stored) (enc_epoch en) (ExpiresAt e) (CRC e))
      end
  end.

(** The poison hook of [observeActive]: a rollback that could not truncate
    fences the collection, whichever path hit it. *)
Definition observe_poison {A} (r : res seg_err A) : M unit :=
  match r with Err ErrSegmentPoisoned => fence "truncate" | _ => ret tt end.

Definition appendLocked (op : string) (e : Entry) : M nat :=
  checkFenced ;;;
  r <- on_active (λ s fs, Append s e fs) ;;
  observe_poison r ;;;
  match r with
  | Ok offset => ret offset
  | Err ErrSegmentPoisoned => unknownOutcome op
  | Err err => throw (ErrAppend err)
  end.

Definition sync_active : M (res seg_err unit) :=
  on_active (λ s fs, let '(fs', r) := Sync s fs in (s, fs', r)).

Definition syncCommitLocked (op : string) : M unit :=
  c <- get_coll ;;
  if decide (SyncMode (cfg c) = SyncModeAlways) then
    r <- sync_active ;;
    match r with
    | Ok _ => ret tt
    | Err _ => unknownOutcome op
    end
  else ret tt.

Definition syncActiveLocked : M (res seg_err unit) :=
  c <- get_coll ;;
  if decide (SyncMode (cfg c) = SyncModeAlways) then sync_active else ret (Ok tt).

(** ** Secondary index helpers *)

Definition map_sidx (c : Collection) (f : string → SecondaryIndex → SecondaryIndex) : Collection :=
  set_sidxMap c (map_imap (λ k s, Some (f k s)) (sidxMap c)).

Definition sidxIndexEntry (id : Z) (data : vdata) : M unit :=
  modify (λ c, map_sidx c (λ k s, match data !! k with Some v => add s v id | None => s end)).

Definition sidxUpdateEntry (id : Z) (data : vdata) : M unit :=
  modify (λ c, map_sidx c (λ k s, match data !! k with
                                  | Some v => update s id v
                                  | None => remove s id
                                  end)).

Definition sidxRemoveEntry (id : Z) : M unit :=
  modify (λ c, map_sidx c (λ _ s, remove s id)).

(** The conflict of [data] with another live record on one unique index. *)
Definition unique_conflict (c : Collection) (id n : Z) (data : vdata) (k : string) (s : SecondaryIndex)
    : option string :=
  if unique s then
    match data !! k with
    | Some v =>
        if accepts s v && sidxConflict c s (toIndexKey v) id n then Some (toIndexKey v) else None
    | None => None
    end
  else None.

Definition first_conflict (c : Collection) (id n : Z) (data : vdata) : option (string * string) :=
  head (omap (λ ks, pair ks.1 <$> unique_conflict c id n data ks.1 ks.2) (map_to_list (sidxMap c))).

Definition sidxCheckUnique (id : Z) (data : vdata) : M unit :=
  n <- now ;;
  c <- get_coll ;;
  match first_conflict c id n data with
  | Some (f, k) => throw (ErrDuplicateKey f k)
  | None => ret tt
  end.

(** ** Watchers *)

(** A send on a channel of capacity [cap] in a [select] with a default. *)
Definition try_send (cap : nat) (w : watcher) (ev : WatchEvent) : option watcher :=
  if length (ch w) <? cap then Some (MkWatcher (ch w ++ [ev]) (overflowed w)) else None.

(** The body of the loop of [emit] for one subscriber. *)
Definition emit_one (cap : nat) (sentinel ev : WatchEvent) (w : watcher) : watcher :=
  let deliver w :=
    match try_send cap w ev with
    | Some w' => w'
    | None => MkWatcher (ch w) true
    end in
  if overflowed w then
    match try_send cap w sentinel with
    | Some w' => deliver (MkWatcher (ch w') false)
    | None => w
    end
  else deliver w.

(** The loop over the subscribers, in the order of the map; the clock is read
    for each sentinel. *)
Fixpoint emit_loop (ev : WatchEvent) (ws : list (Z * watcher)) : M unit :=
  match ws with
  | [] => ret tt
  | (id, w) :: ws' =>
      t <- (if overflowed w then wall_now else ret 0%Z) ;;
      modify (λ c,
        let sentinel := MkEvent OpOverflow 0 None (time_of_nanos t) in
        set_watchers c (<[id := emit_one (WatchBufferSize (cfg c)) sentinel ev w]> (watchers c))
          (watcherIDSeq c)) ;;;
      emit_loop ev ws'
  end.

Definition emit (ev : WatchEvent) : M unit :=
  c <- get_coll ;; emit_loop ev (map_to_list (watchers c)).

Definition Subscribe : M Z :=
  c <- get_coll ;;
  let id := u64 (watcherIDSeq c + 1) in
  modify (λ c, set_watchers c (<[id := MkWatcher [] false]> (watchers c)) id) ;;;
  ret id.

(** The subscriber takes the oldest buffered event. *)
Definition receive (id : Z) : M (option WatchEvent) :=
  c <- get_coll ;;
  match watchers c !! id with
  | Some (MkWatcher (ev :: l) o) =>
      modify (λ c, set_watchers c (<[id := MkWatcher l o]> (watchers c)) (watcherIDSeq c)) ;;;
      ret (Some ev)
  | _ => ret None
  end.

Definition publishCommit (e : Entry) : M unit :=
  modify (λ c, match broker c with
               | Some l => set_broker c (Some (l ++ [e]))
               | None => c
               end).

(** ** Rotation *)

(** [%06d]. *)
Definition pad6 (n : Z) : bytes :=
  let ds := N_digits (Z.to_N n) in
  map digit_char (replicate (6 - length ds) 0 ++ ds).

Definition segmentPath (c : Collection) (n : Z) : string :=
  s_of_b (b_of_s (dir c) ++ b_of_s "/seg_" ++ pad6 n ++ b_of_s ".ndjson").

(** meta.json is written with the id counter; one call that may fail. *)
Definition writeMeta : M bool :=
  ok <- io_call ;;
  (if ok then modify (λ c, set_meta c (idSeq c)) else ret tt) ;;;
  ret ok.

Definition open_segment (p : string) (d : bytes) : M (res seg_err Segment) :=
  λ st, let '(_, fs, r) := openActiveSegment p d (io st) in
        (MkSt (coll st) fs (wall st), Ok r).

(** [rotateSegment]; the result says whether it failed.  The new segment's file
    does not exist before: segment numbers are never reused. *)
Definition rotateSegment : M bool :=
  c <- get_coll ;;
  if is_fenced c then ret false
  else
    r <- on_active Seal ;;
    c <- get_coll ;;
    match r with
    | Err _ =>
        if sealed (active c) then ret tt else fence "seal"
    | Ok _ => ret tt
    end ;;;
    if negb (sealed (active c)) then ret false
    else
      let closeOK := is_ok r in
      let old := active c in
      modify (λ c, set_segSeq c (u64 (segSeq c + 1))) ;;;
      c <- get_coll ;;
      opened <- open_segment (segmentPath c (segSeq c)) [] ;;
      match opened with
      | Err _ =>
          reopened <- open_segment (path old) (disk old) ;;
          match reopened with
          | Err _ => fence "rotate" ;;; ret false
          | Ok s => modify (λ c, set_active c s) ;;; ret false
          end
      | Ok s =>
          modify (λ c, set_active (set_sealed c (sealedSegs c ++ [old])) s) ;;;
          c <- get_coll ;;
          dirOK <- (if decide (SyncMode (cfg c) = SyncModeNone) then ret true else io_call) ;;
          if negb dirOK then fence "rotate" ;;; ret false
          else
            metaOK <- writeMeta ;;
            ret (closeOK && metaOK)
      end.

Definition needRotate (c : Collection) : bool :=
  (SegmentMaxSize (cfg c) <=? Z.of_nat (size (active c)))%Z.

(** [afterCommit]: the event first, then the rotation; [Some] is the
    [PostCommitError] the committed write is returned with. *)
Definition rotate_post (due : bool) : M (option cerr) :=
  if due then
    ok <- rotateSegment ;;
    ret (if ok then None else Some ErrRotate)
  else ret None.

Definition afterCommit (ev : WatchEvent) (due : bool) : M (option cerr) :=
  emit ev ;;; rotate_post due.

(** ** Insert, update, delete *)

Definition has_key (data : vdata) : bool := bool_decide (is_Some (data !! KeyField)).

Definition next_id : M Z :=
  modify (λ c, set_idSeq c (u64 (idSeq c + 1))) ;;;
  c <- get_coll ;; ret (idSeq c).

Definition index_set (id : Z) (offset : nat) (rev exp epoch : Z) : M unit :=
  modify (λ c, set_index c (Set_ (index c) id (MkIE (path (active c)) offset rev exp epoch))).

(** A committed write: its id, timestamp and post-commit error. *)
Record committed : Type := MkCommitted { cm_id : Z; cm_ts : time; cm_post : option cerr }.

Definition insert (data : vdata) (expiresAt : Z) : M committed :=
  id <- next_id ;;
  n <- now ;;
  let ts := time_of_nanos n in
  e <- sealEntryData (MkEntry id OpInsert ts 1 (Some data) 0 expiresAt None) ;;
  c <- get_coll ;;
  let qBytes := entryQuotaBytes c e in
  checkFenced ;;;
  checkQuotaLocked 1 qBytes ;;;
  sidxCheckUnique id data ;;;
  offset <- appendLocked "insert" e ;;
  syncCommitLocked "insert" ;;;
  index_set id offset 1 expiresAt (Epoch e) ;;;
  sidxIndexEntry id data ;;;
  publishCommit e ;;;
  c <- get_coll ;;
  post <- afterCommit (MkEvent OpInsert id (Some data) ts) (needRotate c) ;;
  ret (MkCommitted id ts post).

Definition InsertWithExpiry (data : vdata) (explicit : option Z) : M committed :=
  guard_err (has_key data) ErrReservedField ;;;
  exp <- resolveInsertExpiry explicit ;;
  insert data exp.

Definition Insert (data : vdata) : M committed := InsertWithExpiry data None.

Definition stampKey (data : vdata) (key : string) : vdata := <[KeyField := VStr key]> data.

(** [data] with the record's current key, when the key index has one. *)
Definition preserveReservedLocked (c : Collection) (id : Z) (data : vdata) : vdata :=
  match data !! KeyField with
  | Some _ => data
  | None =>
      match sidxMap c !! KeyField with
      | None => data
      | Some sidx =>
          match reverse sidx !! id with
          | None => data
          | Some key => stampKey data key
          end
      end
  end.

(** The key [kept] carries beyond [data], stamped into the sealed entry. *)
Definition stamp_entry (e : Entry) (data kept : vdata) : Entry :=
  if decide (base.size kept = base.size data) then e
  else match kept !! KeyField with
       | Some (VStr key) =>
           MkEntry (ID e) (Op e) (Ts e) (Rev e) (Some (stampKey (default ∅ (Data e)) key))
             (Epoch e) (ExpiresAt e) (CRC e)
       | _ => e
       end.

Definition set_rev_exp (e : Entry) (rev exp : Z) : Entry :=
  MkEntry (ID e) (Op e) (Ts e) rev (Data e) (Epoch e) exp (CRC e).

Definition update_ (id : Z) (data : vdata) (expiresAt : Z) (keepExpiry : bool) : M committed :=
  n <- now ;;
  let ts := time_of_nanos n in
  e <- sealEntryData (MkEntry id OpUpdate ts 0 (Some data) 0 0 None) ;;
  checkFenced ;;;
  c <- get_coll ;;
  match Get (index c) id with
  | None => throw ErrNotFound
  | Some cur =>
      let kept := preserveReservedLocked c id data in
      let e := stamp_entry e data kept in
      sidxCheckUnique id data ;;;
      let exp := if keepExpiry then ie_ExpiresAt cur else expiresAt in
      let newRev := u64 (ie_Rev cur + 1) in
      let e := set_rev_exp e newRev exp in
      offset <- appendLocked "update" e ;;
      syncCommitLocked "update" ;;;
      index_set id offset newRev exp (Epoch e) ;;;
      sidxUpdateEntry id kept ;;;
      publishCommit e ;;;
      c <- get_coll ;;
      post <- afterCommit (MkEvent OpUpdate id (Some kept) ts) (needRotate c) ;;
      ret (MkCommitted id ts post)
  end.

Definition Update (id : Z) (data : vdata) : M committed :=
  guard_err (has_key data) ErrReservedField ;;;
  update_ id data 0 true.

Definition UpdateWithExpiry (id : Z) (data : vdata) (explicit : option Z) : M committed :=
  guard_err (has_key data) ErrReservedField ;;;
  exp <- resolveInsertExpiry explicit ;;
  update_ id data exp false.

Definition index_delete (id : Z) : M unit :=
  modify (λ c, set_index c (Index.Delete (index c) id)).

Definition Delete (id : Z) : M committed :=
  n <- now ;;
  let e := NewDelete (time_of_nanos n) id in
  checkFenced ;;;
  c <- get_coll ;;
  match Get (index c) id with
  | None => throw ErrNotFound
  | Some _ =>
      appendLocked "delete" e ;;;
      syncCommitLocked "delete" ;;;
      index_delete id ;;;
      sidxRemoveEntry id ;;;
      publishCommit e ;;;
      c <- get_coll ;;
      post <- afterCommit (MkEvent OpDelete id None (Ts e)) (needRotate c) ;;
      ret (MkCommitted id (Ts e) post)
  end.

(** ** Reading *)

Record Record_ : Type := MkRecord {
  rec_ID : Z; rec_Key : string; rec_Rev : Z; rec_Ts : time; rec_Data : vdata
}.

Definition segmentByPathLocked (c : Collection) (p : string) : option Segment :=
  match filter (λ s, path s = p) (sealedSegs c) with
  | s :: _ => Some s
  | [] => if decide (path (active c) = p) then Some (active c) else None
  end.

Definition readLocated (id : Z) (loc : option IndexEntry) (seg : option Segment) (n : Z)
    : res cerr Entry :=
  match loc with
  | None => Err ErrNotFound
  | Some loc =>
      if expired (ie_ExpiresAt loc) n then Err ErrNotFound
      else match seg with
           | None => Err ErrSegmentNotFound
           | Some seg =>
               match ReadAt seg (Offset loc) with
               | Err e => Err (ErrRead e)
               | Ok e => if (ID e =? id)%Z then Ok e else Err (ErrIntegrity id (ID e))
               end
           end
  end.

(** [getStored]; no swap of the layout happens between two of its lock holds
    here, so the first optimistic read is kept. *)
Definition getStored (id : Z) : M (Entry * IndexEntry) :=
  c <- get_coll ;;
  let loc := Get (index c) id in
  let seg := loc ≫= λ l, segmentByPathLocked c (SegmentPath l) in
  n <- now ;;
  match readLocated id loc seg n with
  | Ok e => ret (e, default zero_IndexEntry loc)
  | Err err => throw err
  end.

Definition materialize (c : Collection) (d : option vdata) : option vdata :=
  match enc c with
  | None => Some (default ∅ d)
  | Some en => enc_materialize en (default ∅ d) []
  end.

Definition key_of (data : vdata) : string :=
  match data !! KeyField with Some (VStr k) => k | _ => "" end.

Definition Get_ (id : Z) : M Record_ :=
  checkFenced ;;;
  let! (e, loc) := getStored id in
  c <- get_coll ;;
  match materialize c (Data e) with
  | None => throw ErrCrypto
  | Some data => ret (MkRecord id (key_of data) (ie_Rev loc) (Ts e) data)
  end.

Definition FindByID (id : Z) : M (vdata * time) :=
  r <- Get_ id ;; ret (rec_Data r, rec_Ts r).
