(* ===== verification/Keyed.v ===== *)
(** * Index management, keyed operations and compare-and-swap

    The secondary index API and the conditional updates of
    [engine/collection.go] and the string keys of [engine/keys.go], on top of
    the operations of [Collection]. *)
From Stdlib Require Import Ascii Lia ZArith.
From stdpp Require Import prelude gmap strings sorting.
From S2P Require Import Prelude GoNum Json Value Filter GoTime Store Wire Codec Segment Index SecondaryIndex Collection.

(** ** Secondary index management *)

(** The segments in the order the collection keeps them. *)
Definition all_segments (c : Collection) : list Segment := sealedSegs c ++ [active c].

Definition is_encrypted (c : Collection) (f : string) : bool :=
  match enc c with Some en => enc_isEncryptedField en f | None => false end.

(** [persistSecondary] writes the sidx file; it may fail and changes no memory. *)
Definition persistSecondary : M unit :=
  ok <- io_call ;; guard_err (negb ok) ErrPersist.

Definition ensureIndex (f : string) (u : bool) : M unit :=
  c <- get_coll ;;
  guard_err (is_encrypted c f) ErrFieldEncrypted ;;;
  checkFenced ;;;
  match sidxMap c !! f with
  | Some _ => ret tt
  | None =>
      match rebuild (newSecondaryIndex f u) (all_segments c) (cdecisions c) with
      | Err e => throw (ErrScan e)
      | Ok s =>
          modify (λ c, set_sidxMap c (<[f := s]> (sidxMap c))) ;;;
          persistSecondary
      end
  end.

Definition EnsureIndex (f : string) : M unit := ensureIndex f false.
Definition EnsureUniqueIndex (f : string) : M unit := ensureIndex f true.

Definition DropIndex (f : string) : M unit :=
  checkFenced ;;;
  c <- get_coll ;;
  match sidxMap c !! f with
  | None => throw ErrIndexNotFound
  | Some _ => modify (λ c, set_sidxMap c (delete f (sidxMap c)))
  end.

Definition ListIndexes (c : Collection) : list string := ssort str_ltb (map_to_list (sidxMap c)).*1.

Definition indexLookupRaw (c : Collection) (f v : string) : option (list Z) :=
  s ← sidxMap c !! f; Some (Lookup s v).

(** The clock is read only when the index exists. *)
Definition indexLookup (f v : string) : M (option (list Z)) :=
  c <- get_coll ;;
  match indexLookupRaw c f v with
  | None => ret None
  | Some ids => n <- now ;; c <- get_coll ;; ret (Some (liveIDs c ids n))
  end.

Definition IndexLookup (f v : string) : M (option (list Z)) :=
  c <- get_coll ;;
  if is_fenced c then ret None else indexLookup f v.

Definition indexRangeLookup (c : Collection) (f : string) (op : FilterOp) (v : value)
    : option (list Z) :=
  s ← sidxMap c !! f; LookupRange s op v.

(** ** keys.go *)

Definition maxKeyConflictIDs : nat := 16.

Definition keyConflict : M unit :=
  c <- get_coll ;;
  match sidxMap c !! KeyField with
  | None => ret tt
  | Some s =>
      match firstDuplicate s maxKeyConflictIDs with
      | Some (k, ids) => throw (ErrKeyIndexConflict k ids)
      | None => ret tt
      end
  end.

Definition ensureKeyIndex : M unit := EnsureUniqueIndex KeyField.

Definition resolveKey (key : string) : M Z :=
  checkFenced ;;;
  keyConflict ;;;
  ids <- indexLookup KeyField key ;;
  match ids with
  | Some (id :: _) => ret id
  | _ => throw ErrKeyNotFound
  end.

Definition InsertWithKey (key : string) (data : vdata) : M committed :=
  guard_err (has_key data) ErrReservedField ;;;
  ensureKeyIndex ;;;
  keyConflict ;;;
  exp <- resolveInsertExpiry None ;;
  insert (stampKey data key) exp.

Definition GetByKey (key : string) : M Record_ :=
  id <- resolveKey key ;;
  r <- Get_ id ;;
  guard_err (negb (bool_decide (rec_Key r = "")) && negb (bool_decide (rec_Key r = key))) ErrIndexCorrupt ;;;
  ret r.

Definition FindByKey (key : string) : M (vdata * time) :=
  id <- resolveKey key ;; FindByID id.

Definition UpdateByKey (key : string) (data : vdata) : M committed :=
  guard_err (has_key data) ErrReservedField ;;;
  id <- resolveKey key ;;
  update_ id (stampKey data key) 0 true.

Definition DeleteByKey (key : string) : M committed :=
  id <- resolveKey key ;; Delete id.

(** The present or absent decision of [Upsert]: the entry it will write. *)
Definition upsert_target (key : string) (stamped : vdata) (ts : time) : M Entry :=
  ids <- indexLookup KeyField key ;;
  c <- get_coll ;;
  match ids ≫= head with
  | Some id =>
      match Get (index c) id with
      | Some cur =>
          ret (MkEntry id OpUpdate ts (u64 (ie_Rev cur + 1)) (Some stamped) 0 (ie_ExpiresAt cur) None)
      | None =>
          id <- next_id ;;
          exp <- resolveInsertExpiry None ;;
          ret (MkEntry id OpInsert ts 1 (Some stamped) 0 exp None)
      end
  | None =>
      id <- next_id ;;
      exp <- resolveInsertExpiry None ;;
      ret (MkEntry id OpInsert ts 1 (Some stamped) 0 exp None)
  end.

Definition Upsert (key : string) (data : vdata) : M (Record_ * option cerr) :=
  guard_err (has_key data) ErrReservedField ;;;
  ensureKeyIndex ;;;
  keyConflict ;;;
  let stamped := stampKey data key in
  t <- wall_now ;;
  let ts := time_of_nanos t in
  checkFenced ;;;
  e <- upsert_target key stamped ts ;;
  let id := ID e in
  c <- get_coll ;;
  (if decide (Op e = OpInsert) then checkQuotaLocked 1 (entryQuotaBytes c e) else ret tt) ;;;
  sidxCheckUnique id stamped ;;;
  e <- sealEntryData e ;;
  offset <- appendLocked "upsert" e ;;
  syncCommitLocked "upsert" ;;;
  index_set id offset (Rev e) (ExpiresAt e) (Epoch e) ;;;
  (if decide (Op e = OpInsert) then sidxIndexEntry id stamped else sidxUpdateEntry id stamped) ;;;
  publishCommit e ;;;
  c <- get_coll ;;
  post <- afterCommit (MkEvent (Op e) id (Some stamped) ts) (needRotate c) ;;
  ret (MkRecord id key (Rev e) ts stamped, post).

(** ** Compare and swap *)

(** The current record of [id], read under the write lock: its data in plain
    text and its index entry. *)
Definition cas_read (id : Z) : M (option (vdata * IndexEntry)) :=
  c <- get_coll ;;
  match Get (index c) id with
  | None => ret None
  | Some loc =>
      match segmentByPathLocked c (SegmentPath loc) with
      | None => throw ErrSegmentNotFound
      | Some seg =>
          match ReadAt seg (Offset loc) with
          | Err e => throw (ErrRead e)
          | Ok cur =>
              guard_err (negb (ID cur =? id)%Z) (ErrIntegrity id (ID cur)) ;;;
              match materialize c (Data cur) with
              | None => throw ErrCrypto
              | Some d => ret (Some (d, loc))
              end
          end
      end
  end.

(** The result: was the swap applied, and its post-commit error. *)
Definition compareAndSwap (key : string) (data : vdata) (ok : vdata → Z → bool) : M (bool * option cerr) :=
  n <- now ;;
  let ts := time_of_nanos n in
  checkFenced ;;;
  keyConflict ;;;
  ids <- indexLookup KeyField key ;;
  match ids ≫= head with
  | None => ret (false, None)
  | Some id =>
      cur <- cas_read id ;;
      match cur with
      | None => ret (false, None)
      | Some (curData, loc) =>
          if negb (ok curData (ie_Rev loc)) then ret (false, None)
          else
            let stamped := stampKey data key in
            let newRev := u64 (ie_Rev loc + 1) in
            sidxCheckUnique id stamped ;;;
            e <- sealEntryData (MkEntry id OpUpdate ts newRev (Some stamped) 0 (ie_ExpiresAt loc) None) ;;
            offset <- appendLocked "cas" e ;;
            syncCommitLocked "cas" ;;;
            index_set id offset newRev (ie_ExpiresAt loc) (Epoch e) ;;;
            sidxUpdateEntry id stamped ;;;
            publishCommit e ;;;
            c <- get_coll ;;
            post <- afterCommit (MkEvent OpUpdate id (Some stamped) ts) (needRotate c) ;;
            ret (true, post)
      end
  end.

Definition UpdateIfRev (key : string) (expectedRev : Z) (data : vdata) : M (bool * option cerr) :=
  guard_err (has_key data) ErrReservedField ;;;
  compareAndSwap key data (λ _ curRev, (curRev =? expectedRev)%Z).

Definition UpdateIfMatch (key : string) (pred : vdata → bool) (data : vdata) : M (bool * option cerr) :=
  guard_err (has_key data) ErrReservedField ;;;
  compareAndSwap key data (λ cur _, pred cur).
