(* ===== verification/Batch.v ===== *)
(** * Multi-record writes: batches, transactions and the reaper

    [InsertMany], [CommitTx] and the batch rollback of [engine/collection.go],
    the routing of [engine/batch_atomic.go], [reapExpired] of [engine/ttl.go]
    and the staging buffers of [engine/txmanager.go].  A batch on a database
    root with a transaction journal is handed to the cross-collection commit
    ([commitBatchAtomic], an interface here); the other routes are modelled in
    full. *)
From Stdlib Require Import Ascii Lia ZArith.
From stdpp Require Import prelude gmap strings sorting.
From S2P Require Import Prelude GoNum Json Value Filter GoTime Store Wire Codec Segment Index SecondaryIndex Collection Keyed.

(** ** Staged operations *)

Inductive txOpKind : Type := txOpInsert | txOpUpdate | txOpDelete.

#[global] Instance txOpKind_eq_dec : EqDecision txOpKind.
Proof. solve_decision. Defined.

(** A delete carries no data: its [to_data] is empty. *)
Record txOp : Type := MkTxOp { to_kind : txOpKind; to_id : Z; to_data : vdata; to_ts : time }.

(** ** Routing *)

Inductive batchRoute : Type := batchRouteLegacy | batchRouteAtomic.

Definition atomicBatchWriterReady : bool := true.

Definition routeBatch (c : Collection) (n : nat) : res cerr batchRoute :=
  if (n <? 2) || negb atomicBatchWriterReady then Ok batchRouteLegacy
  else match db c with
       | None => if AllowNonAtomicBatch (cfg c) then Ok batchRouteLegacy else Err ErrBatchNotAtomic
       | Some atomicMode => Ok (if atomicMode then batchRouteAtomic else batchRouteLegacy)
       end.

(** One operation of a cross-collection transaction, and its engine. *)
Record XTxOp : Type := MkXTxOp { x_op : string; x_id : Z; x_data : option vdata; x_expires : Z }.

Class AtomicBatch := commitBatchAtomic : list XTxOp → time → M (option cerr).

Definition txOpsToXTx (ops : list txOp) : list XTxOp :=
  map (λ op, MkXTxOp (match to_kind op with
                      | txOpInsert => OpInsert
                      | txOpUpdate => OpUpdate
                      | txOpDelete => OpDelete
                      end) (to_id op)
               (if decide (to_kind op = txOpDelete) then None else Some (to_data op)) 0) ops.

(** ** Rollback of a batch *)

Fixpoint index_delete_all (ids : list Z) : M unit :=
  match ids with
  | [] => ret tt
  | id :: ids' => index_delete id ;;; index_delete_all ids'
  end.

Fixpoint index_restore (before : list (Z * IndexEntry)) : M unit :=
  match before with
  | [] => ret tt
  | (id, e) :: l =>
      modify (λ c, set_index c (if decide (SegmentPath e = "") then Index.Delete (index c) id
                                else Set_ (index c) id e)) ;;;
      index_restore l
  end.

Fixpoint sidx_rebuild_all (fields : list string) : M unit :=
  match fields with
  | [] => ret tt
  | f :: fields' =>
      c <- get_coll ;;
      match sidxMap c !! f with
      | None => sidx_rebuild_all fields'
      | Some s =>
          match rebuild s (all_segments c) (cdecisions c) with
          | Err e => throw (ErrScan e)
          | Ok s' => modify (λ c, set_sidxMap c (<[f := s']> (sidxMap c))) ;;; sidx_rebuild_all fields'
          end
      end
  end.

Definition rollbackBatchLocked (startSize : nat) (inserted : list Z) (before : gmap Z IndexEntry) : M unit :=
  r <- on_active (λ s fs, rollback s startSize fs) ;;
  observe_poison r ;;;
  match r with
  | Err e => throw (ErrRollback e)
  | Ok _ =>
      index_delete_all inserted ;;;
      index_restore (map_to_list before) ;;;
      c <- get_coll ;;
      sidx_rebuild_all (map_to_list (sidxMap c)).*1
  end.

(** The batch fails with [cause]: roll back and report both errors. *)
Definition batch_fail {A} (startSize : nat) (inserted : list Z) (before : gmap Z IndexEntry)
    (cause : seg_err) : M A :=
  r <- try_ (rollbackBatchLocked startSize inserted before) ;;
  throw (ErrBatchFailed cause (match r with Ok _ => None | Err e => Some e end)).

(** ** Unique indexes over a batch *)

(** One index of the inner loop of [txCheckUnique]. *)
Definition tx_check_one (c : Collection) (n : Z) (op : txOp) (claimed : gmap (string * string) Z)
    (fs : string * SecondaryIndex) : res cerr (gmap (string * string) Z) :=
  let '(f, s) := fs in
  if negb (unique s) then Ok claimed
  else match to_data op !! f with
       | None => Ok claimed
       | Some v =>
           if negb (accepts s v) then Ok claimed
           else
             let key := toIndexKey v in
             if sidxConflict c s key (to_id op) n then Err (ErrDuplicateKey f key)
             else match claimed !! (f, key) with
                  | Some prev =>
                      if (prev =? to_id op)%Z then Ok (<[(f, key) := to_id op]> claimed)
                      else Err (ErrDuplicateKey f key)
                  | None => Ok (<[(f, key) := to_id op]> claimed)
                  end
       end.

Fixpoint tx_check_indexes (c : Collection) (n : Z) (op : txOp) (claimed : gmap (string * string) Z)
    (l : list (string * SecondaryIndex)) : res cerr (gmap (string * string) Z) :=
  match l with
  | [] => Ok claimed
  | fs :: l' => let* claimed' := tx_check_one c n op claimed fs in tx_check_indexes c n op claimed' l'
  end.

Fixpoint tx_check_ops (c : Collection) (n : Z) (claimed : gmap (string * string) Z) (ops : list txOp)
    : res cerr (gmap (string * string) Z) :=
  match ops with
  | [] => Ok claimed
  | op :: ops' =>
      if decide (to_kind op = txOpDelete) then tx_check_ops c n claimed ops'
      else let* claimed' := tx_check_indexes c n op claimed (map_to_list (sidxMap c)) in
           tx_check_ops c n claimed' ops'
  end.

Definition txCheckUnique (ops : list txOp) : M unit :=
  n <- now ;;
  c <- get_coll ;;
  match tx_check_ops c n ∅ ops with
  | Ok _ => ret tt
  | Err e => throw e
  end.

(** ** Shared pieces *)

Definition append_active (e : Entry) : M (res seg_err nat) :=
  r <- on_active (λ s fs, Append s e fs) ;; observe_poison r ;;; ret r.

Fixpoint publish_all (es : list Entry) : M unit :=
  match es with
  | [] => ret tt
  | e :: es' => publishCommit e ;;; publish_all es'
  end.

Fixpoint emit_all (evs : list WatchEvent) : M unit :=
  match evs with
  | [] => ret tt
  | ev :: evs' => emit ev ;;; emit_all evs'
  end.

(** ** InsertMany *)

Record batchResult : Type := MkBatch { br_ids : list Z; br_ts : time; br_post : option cerr }.

(** The entries of the batch, each with a fresh id, sealed and measured. *)
Fixpoint build_batch (records : list vdata) (ts : time) (exp : Z) : M (list (Entry * vdata) * Z) :=
  match records with
  | [] => ret ([], 0%Z)
  | d :: records' =>
      id <- next_id ;;
      e <- sealEntryData (MkEntry id OpInsert ts 1 (Some d) 0 exp None) ;;
      c <- get_coll ;;
      let! (l, b) := build_batch records' ts exp in
      ret ((e, d) :: l, i64 (entryQuotaBytes c e + b))
  end.

Fixpoint append_batch (startSize : nat) (exp : Z) (placed : list Z) (l : list (Entry * vdata)) : M unit :=
  match l with
  | [] => ret tt
  | (e, d) :: l' =>
      r <- append_active e ;;
      match r with
      | Err err => batch_fail startSize placed ∅ err
      | Ok offset =>
          index_set (ID e) offset 1 exp (Epoch e) ;;;
          sidxIndexEntry (ID e) d ;;;
          append_batch startSize exp (placed ++ [ID e]) l'
      end
  end.

Fixpoint reserve_ids (n : nat) : M (list Z) :=
  match n with
  | 0 => ret []
  | S n' => id <- next_id ;; l <- reserve_ids n' ;; ret (id :: l)
  end.

Definition insert_many_legacy (records : list vdata) (ts : time) (exp : Z) : M batchResult :=
  let! (batch, newBytes) := build_batch records ts exp in
  checkFenced ;;;
  c <- get_coll ;;
  let startSize := size (active c) in
  let ids := map (λ x, ID x.1) batch in
  checkQuotaLocked (Z.of_nat (length records)) newBytes ;;;
  txCheckUnique (map (λ x, MkTxOp txOpInsert (ID x.1) x.2 ts) batch) ;;;
  append_batch startSize exp [] batch ;;;
  synced <- syncActiveLocked ;;
  match synced with
  | Err err => batch_fail startSize ids ∅ err
  | Ok _ =>
      publish_all batch.*1 ;;;
      c <- get_coll ;;
      emit_all (map (λ x, MkEvent OpInsert (ID x.1) (Some x.2) ts) batch) ;;;
      post <- rotate_post (needRotate c) ;;
      ret (MkBatch ids ts post)
  end.

Definition InsertMany `{AtomicBatch} (records : list vdata) (explicit : option Z) : M batchResult :=
  match records with
  | [] => ret (MkBatch [] zero_time None)
  | _ =>
      checkFenced ;;;
      guard_err (existsb has_key records) ErrReservedField ;;;
      n <- now ;;
      c <- get_coll ;;
      let exp := resolveInsertExpiryAt c explicit n in
      let ts := time_of_nanos n in
      match routeBatch c (length records) with
      | Err e => throw e
      | Ok batchRouteAtomic =>
          ids <- reserve_ids (length records) ;;
          post <- commitBatchAtomic
                    (zip_with (λ id d, MkXTxOp OpInsert id (Some d) exp) ids records) ts ;;
          ret (MkBatch ids ts post)
      | Ok batchRouteLegacy => insert_many_legacy records ts exp
      end
  end.

(** ** CommitTx *)

(** The first pre-commit state of every id the batch touches. *)
Definition tx_before (c : Collection) (ops : list txOp) : gmap Z IndexEntry :=
  foldl (λ m op, match m !! to_id op with
                 | Some _ => m
                 | None => <[to_id op := default zero_IndexEntry (Get (index c) (to_id op))]> m
                 end) ∅ ops.

(** An update or delete whose target is gone. *)
Definition missing_target (c : Collection) (ops : list txOp) : option Z :=
  head (omap (λ op, if decide (to_kind op ≠ txOpInsert ∧ Get (index c) (to_id op) = None)
                    then Some (to_id op) else None) ops).

Definition preserve_ops (c : Collection) (ops : list txOp) : list txOp :=
  map (λ op, if decide (to_kind op = txOpUpdate)
             then MkTxOp (to_kind op) (to_id op) (preserveReservedLocked c (to_id op) (to_data op)) (to_ts op)
             else op) ops.

(** The quota check over the inserts of the commit. *)
Definition tx_new_records (ops : list txOp) : Z :=
  Z.of_nat (length (filter (λ op, to_kind op = txOpInsert) ops)).

Definition tx_new_bytes (c : Collection) (exp : Z) (ops : list txOp) : Z :=
  if (0 <? MaxBytes (cfg c))%Z then
    foldl (λ b op, i64 (b + entryQuotaBytes c (MkEntry (to_id op) OpInsert (to_ts op) 1 (Some (to_data op)) 0 exp None)))
      0%Z (filter (λ op, to_kind op = txOpInsert) ops)
  else 0%Z.

Definition tx_quota (exp : Z) (ops : list txOp) : M unit :=
  c <- get_coll ;;
  if quotaEnabled c && (0 <? tx_new_records ops)%Z
  then checkQuotaLocked (tx_new_records ops) (tx_new_bytes c exp ops)
  else ret tt.

(** The stored form of every operation's data, before any append. *)
Fixpoint seal_ops (en : option encryptor) (ops : list txOp) : res cerr (list (txOp * option vdata)) :=
  match ops with
  | [] => Ok []
  | op :: ops' =>
      let* sealed :=
        (if decide (to_kind op = txOpDelete) then Ok None
         else match en with
              | None => Ok (Some (to_data op))
              | Some en => match enc_encrypt en (to_data op) with
                           | Some d => Ok (Some d)
                           | None => Err ErrCrypto
                           end
              end) in
      let* l := seal_ops en ops' in
      Ok ((op, sealed) :: l)
  end.

(** One operation of the commit loop: the entry it appends. *)
Definition tx_entry (c : Collection) (exp epoch : Z) (op : txOp) (sealed : option vdata) : Entry :=
  match to_kind op with
  | txOpInsert => MkEntry (to_id op) OpInsert (to_ts op) 1 sealed epoch exp None
  | txOpUpdate =>
      match Get (index c) (to_id op) with
      | Some cur =>
          MkEntry (to_id op) OpUpdate (to_ts op) (u64 (ie_Rev cur + 1)) sealed epoch (ie_ExpiresAt cur) None
      | None => MkEntry (to_id op) OpUpdate (to_ts op) 1 sealed epoch 0 None
      end
  | txOpDelete => NewDelete (to_ts op) (to_id op)
  end.

Definition tx_event (op : txOp) : WatchEvent :=
  match to_kind op with
  | txOpInsert => MkEvent OpInsert (to_id op) (Some (to_data op)) (to_ts op)
  | txOpUpdate => MkEvent OpUpdate (to_id op) (Some (to_data op)) (to_ts op)
  | txOpDelete => MkEvent OpDelete (to_id op) None (to_ts op)
  end.

(** Its effect on the indexes once it is appended at [offset]. *)
Definition tx_apply (op : txOp) (e : Entry) (offset : nat) : M unit :=
  match to_kind op with
  | txOpInsert =>
      index_set (to_id op) offset (Rev e) (ExpiresAt e) (Epoch e) ;;; sidxIndexEntry (to_id op) (to_data op)
  | txOpUpdate =>
      index_set (to_id op) offset (Rev e) (ExpiresAt e) (Epoch e) ;;; sidxUpdateEntry (to_id op) (to_data op)
  | txOpDelete => index_delete (to_id op) ;;; sidxRemoveEntry (to_id op)
  end.

Fixpoint tx_loop (startSize : nat) (before : gmap Z IndexEntry) (exp epoch : Z)
    (l : list (txOp * option vdata)) : M (list Entry) :=
  match l with
  | [] => ret []
  | (op, sealed) :: l' =>
      c <- get_coll ;;
      let e := tx_entry c exp epoch op sealed in
      r <- append_active e ;;
      match r with
      | Err err => batch_fail startSize [] before err
      | Ok offset =>
          tx_apply op e offset ;;;
          es <- tx_loop startSize before exp epoch l' ;;
          ret (e :: es)
      end
  end.

Definition max_insert_id (ops : list txOp) : Z :=
  foldl (λ m op, if decide (to_kind op = txOpInsert) then Z.max m (to_id op) else m) 0%Z ops.

Definition commit_tx_legacy (ops : list txOp) : M (option cerr) :=
  checkFenced ;;;
  c <- get_coll ;;
  let startSize := size (active c) in
  let before := tx_before c ops in
  txNow <- now ;;
  match missing_target c ops with
  | Some id => throw (ErrTxTargetDeleted id)
  | None =>
      txCheckUnique ops ;;;
      c <- get_coll ;;
      let ops := preserve_ops c ops in
      let exp := resolveInsertExpiryAt c None txNow in
      tx_quota exp ops ;;;
      match seal_ops (enc c) ops with
      | Err e => throw e
      | Ok l =>
          let epoch := match enc c with Some en => enc_epoch en | None => 0%Z end in
          es <- tx_loop startSize before exp epoch l ;;
          synced <- syncActiveLocked ;;
          match synced with
          | Err err => batch_fail startSize [] before err
          | Ok _ =>
              publish_all es ;;;
              c <- get_coll ;;
              emit_all (map tx_event ops) ;;;
              metaOK <- (if (0 <? max_insert_id ops)%Z then writeMeta else ret true) ;;
              rot <- rotate_post (needRotate c) ;;
              ret (if metaOK then rot else Some ErrPersist)
          end
      end
  end.

Definition CommitTx `{AtomicBatch} (ops : list txOp) : M (option cerr) :=
  match ops with
  | [] => ret None
  | op0 :: _ =>
      c <- get_coll ;;
      match routeBatch c (length ops) with
      | Err e => throw e
      | Ok batchRouteAtomic => commitBatchAtomic (txOpsToXTx ops) (to_ts op0)
      | Ok batchRouteLegacy => commit_tx_legacy ops
      end
  end.

Definition ReserveID : M Z := next_id.

(** ** The reaper *)

Definition expired_ids (c : Collection) (n : Z) : list Z :=
  (filter (λ kv, expired (ie_ExpiresAt kv.2) n = true) (map_to_list (entries (index c)))).*1.

(** The append loop: the tombstones written, and the error that stopped it.  An
    unknown outcome or a fence ends the pass. *)
Fixpoint reap_loop (n : Z) (ids : list Z) : M (list Entry * option cerr) :=
  match ids with
  | [] => ret ([], None)
  | id :: ids' =>
      c <- get_coll ;;
      if match Get (index c) id with
         | Some loc => negb (expired (ie_ExpiresAt loc) n)
         | None => true
         end
      then reap_loop n ids'
      else
        let e := NewDelete (time_of_nanos n) id in
        r <- try_ (appendLocked "reap" e) ;;
        match r with
        | Err ErrWriteOutcomeUnknown => throw ErrWriteOutcomeUnknown
        | Err ErrCollectionFenced => throw ErrCollectionFenced
        | Err err => ret ([], Some err)
        | Ok _ =>
            let! (l, stop) := reap_loop n ids' in
            ret (e :: l, stop)
        end
  end.

Fixpoint reap_apply (es : list Entry) : M unit :=
  match es with
  | [] => ret tt
  | e :: es' =>
      index_delete (ID e) ;;; sidxRemoveEntry (ID e) ;;; publishCommit e ;;; reap_apply es'
  end.

(** The result is the error returned for a pass whose tombstones are committed. *)
Definition reapExpired : M (option cerr) :=
  checkFenced ;;;
  n <- now ;;
  c <- get_coll ;;
  match expired_ids c n with
  | [] => ret None
  | ids =>
      let! (reaped, stopErr) := reap_loop n ids in
      match reaped with
      | [] => ret stopErr
      | _ =>
          syncCommitLocked "reap" ;;;
          reap_apply reaped ;;;
          c <- get_coll ;;
          emit_all (map (λ e, MkEvent OpDelete (ID e) None (Ts e)) reaped) ;;;
          rot <- rotate_post (needRotate c) ;;
          ret (match rot with Some e => Some e | None => stopErr end)
      end
  end.

Definition backgroundReap : M bool :=
  _ <- try_ reapExpired ;;
  c <- get_coll ;;
  ret (negb (is_fenced c)).

(** ** Staging buffers: txmanager.go *)

(** Times are clock readings in nanoseconds. *)
Record Tx : Type := MkTx {
  tx_ID : string;
  tx_collection : string;
  tx_ops : list txOp;
  createdAt : Z;
  lastUsed : Z
}.

Record TxManager : Type := MkTxM { txs : gmap string Tx; txm_ttl : Z }.

Definition NewTxManager (ttl : Z) : TxManager := MkTxM ∅ ttl.

Definition stage (op : txOp) (n : Z) (t : Tx) : Tx :=
  MkTx (tx_ID t) (tx_collection t) (tx_ops t ++ [op]) (createdAt t) n.

Definition StageInsert (id : Z) (data : vdata) (n n' : Z) : Tx → Tx :=
  stage (MkTxOp txOpInsert id data (time_of_nanos n)) n'.
Definition StageUpdate (id : Z) (data : vdata) (n n' : Z) : Tx → Tx :=
  stage (MkTxOp txOpUpdate id data (time_of_nanos n)) n'.
Definition StageDelete (id : Z) (n n' : Z) : Tx → Tx :=
  stage (MkTxOp txOpDelete id ∅ (time_of_nanos n)) n'.

Definition Snapshot (t : Tx) : list txOp := tx_ops t.

(** The new transaction's id is drawn at random by the caller. *)
Definition Begin (m : TxManager) (id coll_ : string) (n : Z) : TxManager :=
  MkTxM (<[id := MkTx id coll_ [] n n]> (txs m)) (txm_ttl m).

Definition tx_Get (m : TxManager) (id : string) : option Tx := txs m !! id.

Definition tx_Remove (m : TxManager) (id : string) : TxManager :=
  MkTxM (delete id (txs m)) (txm_ttl m).

Definition tx_idle (m : TxManager) (n : Z) (t : Tx) : Prop := (lastUsed t < n - txm_ttl m)%Z.

#[global] Instance tx_idle_dec m n t : Decision (tx_idle m n t).
Proof. unfold tx_idle. apply _. Defined.

Definition tx_reapExpired (m : TxManager) (n : Z) : TxManager * list string :=
  (MkTxM (filter (λ kv, ¬ tx_idle m n kv.2) (txs m)) (txm_ttl m),
   (map_to_list (filter (λ kv, tx_idle m n kv.2) (txs m))).*1).
