(* ===== verification/CollInv.v ===== *)
(** * The collection invariant

    What the segments, the primary index and the counters of a collection say
    to each other, the records a log of entries stands for, and the rules by
    which the steps of an operation keep them in line, for every outcome of the
    file calls. *)
From Stdlib Require Import Ascii Lia ZArith.
From stdpp Require Import prelude gmap strings sorting.
From S2P Require Import Prelude GoNum Json Value Filter GoTime Store Wire Codec Segment Index SecondaryIndex Collection Keyed.

(** ** The records of a log *)

(** An entry as it reads back, with the stamp of its transaction. *)
Definition line : Type := Entry * option TxStamp.

(** A record: the entry that holds it and its revision. *)
Definition rec_step (ds : option decisions) (m : gmap Z (Entry * Z)) (x : line) : gmap Z (Entry * Z) :=
  let e := x.1 in
  if entryVisible x.2 ds then
    if decide (Op e = OpInsert ∨ Op e = OpUpdate) then
      let rev := u64 (match m !! ID e with Some r => r.2 | None => 0 end + 1) in
      <[ID e := (e, if (rev <? Rev e)%Z then Rev e else rev)]> m
    else if decide (Op e = OpDelete) then delete (ID e) m
    else m
  else m.

Definition records (ds : option decisions) (L : list line) : gmap Z (Entry * Z) :=
  foldl (rec_step ds) ∅ L.

Lemma records_snoc ds L x : records ds (L ++ [x]) = rec_step ds (records ds L) x.
Proof. unfold records. by rewrite foldl_app. Qed.

(** The index a replay builds and the records of the same log agree. *)
Lemma replay_records ds log id :
  match records ds (map (λ x : log_entry, x.2.2) log) !! id with
  | None => replay ds ∅ log !! id = None
  | Some (e, rev) =>
      ∃ p off tx, (p, (off, (e, tx))) ∈ log ∧ ID e = id ∧
        replay ds ∅ log !! id = Some (MkIE p off rev (ExpiresAt e) (Epoch e))
  end.
Proof.
  revert id. induction log as [|x log IH] using rev_ind; intros id; [done|].
  rewrite map_app, replay_snoc. cbn [map]. rewrite records_snoc.
  assert (Hstay :
    match records ds (map (λ x : log_entry, x.2.2) log) !! id with
    | None => replay ds ∅ log !! id = None
    | Some (e, rev) =>
        ∃ p off tx, (p, (off, (e, tx))) ∈ log ++ [x] ∧ ID e = id ∧
          replay ds ∅ log !! id = Some (MkIE p off rev (ExpiresAt e) (Epoch e))
    end).
  { specialize (IH id). destruct (_ !! id) as [[e rev]|]; [|done].
    destruct IH as (p & off & tx & Hin & H). exists p, off, tx. split; [|done].
    apply elem_of_app. by left. }
  destruct x as [p [off [e tx]]]. unfold rec_step. cbn [fst snd].
  destruct (entryVisible tx ds); [|exact Hstay]. unfold applyOne.
  assert (Hrev : match replay ds ∅ log !! ID e with Some ie => ie_Rev ie | None => 0%Z end =
                 match records ds (map (λ x : log_entry, x.2.2) log) !! ID e with
                 | Some r => r.2 | None => 0%Z end).
  { specialize (IH (ID e)). destruct (records ds _ !! ID e) as [[e' rev]|].
    - destruct IH as (? & ? & ? & _ & _ & ->). done.
    - by rewrite IH. }
  case_decide.
  - unfold next_rev. rewrite Hrev. destruct (decide (ID e = id)) as [<-|Hne].
    + rewrite !lookup_insert_eq. exists p, off, tx. split_and!; [|done|done].
      apply elem_of_app. right. by apply list_elem_of_singleton.
    + rewrite !lookup_insert_ne by done. exact Hstay.
  - case_decide; [|exact Hstay]. destruct (decide (ID e = id)) as [<-|Hne].
    + by rewrite !lookup_delete_eq.
    + rewrite !lookup_delete_ne by done. exact Hstay.
Qed.

(** ** Segment paths *)

Lemma mantN_zeros k ds : mantN (replicate k 0 ++ ds) = mantN ds.
Proof. unfold mantN. induction k as [|k IH]; [done|]. exact IH. Qed.

Lemma pad6_inj n m :
  (0 ≤ n)%Z → (0 ≤ m)%Z → pad6 n ++ b_of_s ".ndjson" = pad6 m ++ b_of_s ".ndjson" → n = m.
Proof.
  intros Hn Hm H. unfold pad6 in H.
  destruct (N_digits_spec (Z.to_N n)) as (Hn1 & Hn2 & _).
  destruct (N_digits_spec (Z.to_N m)) as (Hm1 & Hm2 & _).
  assert (Hall : ∀ k l, Forall (λ d, d < 10) l → Forall (λ d, d < 10) (replicate k 0 ++ l)).
  { intros k l Hl. apply Forall_app. split; [|done]. apply Forall_replicate. lia. }
  apply (f_equal span_digits) in H.
  rewrite !span_digits_app in H; [|by apply Hall|reflexivity|by apply Hall|reflexivity].
  apply (f_equal (mantN ∘ fst)) in H. simpl in H. rewrite !mantN_zeros, Hn1, Hm1 in H. lia.
Qed.

Lemma segmentPath_inj c n m : (0 ≤ n)%Z → (0 ≤ m)%Z → segmentPath c n = segmentPath c m → n = m.
Proof.
  unfold segmentPath. intros Hn Hm H. apply (f_equal b_of_s) in H. rewrite !b_of_s_of_b in H.
  do 2 apply app_inv_head in H. by apply pad6_inj.
Qed.

(** The number of a segment is read back from its name. *)
Lemma base_loop_plain b acc : "/"%char ∉ b → base_loop b acc = rev acc ++ b.
Proof.
  revert acc. induction b as [|x b IH]; intros acc Hn; cbn [base_loop]; [by rewrite app_nil_r|].
  rewrite not_elem_of_cons in Hn. destruct Hn as [Hx Hn]. rewrite decide_False by congruence.
  rewrite IH by done. simpl. by rewrite <- app_assoc.
Qed.

Lemma base_loop_slash a b acc : "/"%char ∉ b → base_loop (a ++ "/"%char :: b) acc = b.
Proof.
  intros Hn. revert acc. induction a as [|x a IH]; intros acc; cbn [app base_loop].
  - by rewrite decide_True, base_loop_plain.
  - destruct (decide (x = "/"%char)); apply IH.
Qed.

Lemma pad6_digits n : ∃ ds, pad6 n = map digit_char ds ∧ Forall (λ d, d < 10) ds ∧ ds ≠ [] ∧ mantN ds = Z.to_N n.
Proof.
  destruct (N_digits_spec (Z.to_N n)) as (Hm & Hall & _). unfold pad6.
  exists (replicate (6 - length (N_digits (Z.to_N n))) 0 ++ N_digits (Z.to_N n)). split_and!; [done| | |].
  - apply Forall_app. split; [|done]. apply Forall_replicate. lia.
  - destruct (N_digits (Z.to_N n)) as [|d ds]; [done|]. by destruct (replicate _ _).
  - by rewrite mantN_zeros.
Qed.

Lemma digit_char_not_slash d : d < 10 → digit_char d ≠ "/"%char.
Proof. intros H. do 10 (destruct d as [|d]; [done|]). lia. Qed.

(** The base name of a segment file. *)
Definition seg_base (n : Z) : bytes := b_of_s "seg_" ++ pad6 n ++ b_of_s ".ndjson".

Lemma seg_base_no_slash n : "/"%char ∉ seg_base n.
Proof.
  unfold seg_base. destruct (pad6_digits n) as (ds & -> & Hall & _). rewrite !elem_of_app. intros [Hin|[Hin|Hin]].
  - by vm_compute in Hin; set_unfold in Hin; naive_solver.
  - apply list_elem_of_fmap in Hin as (d & Heq & Hin). rewrite Forall_forall in Hall.
    by apply (digit_char_not_slash d); [apply Hall|].
  - by vm_compute in Hin; set_unfold in Hin; naive_solver.
Qed.

Lemma segmentNum_base p n : (0 ≤ n < two64)%Z → base_name p = seg_base n → segmentNum p = Some n.
Proof.
  intros Hn Hp. unfold segmentNum. rewrite Hp. unfold seg_base. destruct (pad6_digits n) as (ds & -> & Hall & Hne & Hm).
  change (b_of_s "seg_") with ["s"%char; "e"%char; "g"%char; "_"%char]. cbn [app strip_prefix].
  rewrite !decide_True by done. rewrite span_digits_app by done.
  destruct ds as [|d ds]; [done|]. rewrite Hm, Z2N.id by lia. cbv zeta.
  destruct (strip_prefix _ _) eqn:E; [|vm_compute in E; discriminate].
  destruct (Z.ltb_spec n two64); [done|lia].
Qed.

Lemma segmentNum_path c n : (0 ≤ n < two64)%Z → segmentNum (segmentPath c n) = Some n.
Proof.
  intros Hn. apply segmentNum_base; [done|]. unfold segmentPath, base_name. rewrite b_of_s_of_b.
  change (b_of_s "/seg_") with ("/"%char :: b_of_s "seg_"). cbn [app]. fold (seg_base n).
  apply base_loop_slash, seg_base_no_slash.
Qed.

(** ** The invariant *)

Definition clog (c : Collection) (es : list (list located)) (ea : list located) : list log_entry :=
  full_log (sealedSegs c) es ++ seg_log (path (active c)) ea.

(** The paths are those of an increasing list of segment numbers. *)
Definition numbered (c : Collection) (paths : list string) : Prop :=
  ∃ nums, paths = map (segmentPath c) nums ∧ StronglySorted Z.lt nums ∧
          Forall (λ n, 0 ≤ n ≤ segSeq c)%Z nums.

Lemma sorted_lt_NoDup nums : StronglySorted Z.lt nums → NoDup nums.
Proof.
  induction 1 as [|n nums _ IH Hall]; [constructor|]. apply NoDup_cons. split; [|done].
  intros Hin. rewrite Forall_forall in Hall. specialize (Hall _ Hin). lia.
Qed.

Lemma numbered_NoDup c paths : numbered c paths → NoDup paths.
Proof.
  intros (nums & -> & Hs & Hall). pose proof (sorted_lt_NoDup _ Hs) as Hnd. clear Hs.
  induction nums as [|n nums IH]; [constructor|]. cbn [map].
  apply Forall_cons in Hall as [Hn Hall]. apply NoDup_cons in Hnd as [Hni Hnd].
  apply NoDup_cons. split; [|by apply IH]. intros Hin.
  apply list_elem_of_fmap in Hin as (m & Heq & Hin). apply Hni.
  rewrite Forall_forall in Hall. specialize (Hall _ Hin).
  apply segmentPath_inj in Heq; [by subst m|lia|lia].
Qed.

Lemma numbered_sorted c segs :
  numbered c (map path segs) → (segSeq c < two64)%Z → sortSegments segs = segs.
Proof.
  intros (nums & Hp & Hs & Hall) Hq. apply ssort_fixed. revert nums Hp Hs Hall.
  induction segs as [|s segs IH]; intros [|n nums] Hp Hs Hall; try done; [constructor|].
  cbn [map] in Hp. injection Hp as Hp1 Hp2. apply Forall_cons in Hall as [Hn Hall].
  inversion Hs as [|? ? Hs' Hlt]; subst. constructor; [by eapply IH|].
  apply Forall_forall. intros s' Hin.
  assert (path s' ∈ map (segmentPath c) nums) as Hin' by (rewrite <- Hp2; apply list_elem_of_fmap; eauto).
  apply list_elem_of_fmap in Hin' as (m & Hm & Hin'). rewrite Forall_forall in Hlt, Hall.
  specialize (Hlt _ Hin'). specialize (Hall _ Hin').
  unfold not_after, seg_less. rewrite Hp1, Hm, !segmentNum_path by lia.
  destruct (Z.eqb_spec m n); [lia|]. apply Z.ltb_ge. lia.
Qed.

(** The collection [c] whose sealed segments hold [es] and whose active segment
    holds [ea]. *)
Record cinv_at (c : Collection) (es : list (list located)) (ea : list located) : Prop := {
  ca_sealed : holds_all (sealedSegs c) es;
  ca_active : seg_inv (active c) ea;
  ca_poison : poisoned (active c) = true → is_Some (fenced c);
  ca_writable : fenced c = None → sealed (active c) = false ∧ file (active c) = HOpen;
  ca_nums : numbered c (map path (all_segments c));
  ca_index : fenced c = None → entries (index c) = replay (cdecisions c) ∅ (clog c es ea);
  ca_expire : fenced c = None → mayExpire_ok (index c);
  ca_ids : Forall (λ x : located, (ID x.2.1 ≤ idSeq c)%Z ∧ in_i64 (ExpiresAt x.2.1)) (concat es ++ ea);
  ca_seq : (0 ≤ idSeq c ∧ 0 ≤ segSeq c)%Z
}.

(** The collection holds exactly the lines [L]. *)
Definition cinv (c : Collection) (L : list line) : Prop :=
  ∃ es ea, cinv_at c es ea ∧ L = map snd (concat es ++ ea).

(** The clock never leaves the range of the timestamps. *)
Definition world (st : St) : Prop :=
  (0 ≤ clockFloor (coll st) < two63)%Z ∧ Forall (λ t, 0 ≤ t < two63)%Z (wall st).

(** The reserved keys an update stamps into the data it is given are UTF-8. *)
Definition keys_utf8 (c : Collection) : Prop :=
  ∀ s id k, sidxMap c !! KeyField = Some s → reverse s !! id = Some k → str_utf8 k.

(** What the next operation needs: its counters do not wrap, the keys it may stamp
    are strings a line can hold. *)
Definition room (c : Collection) : Prop := (idSeq c + 1 < two64 ∧ segSeq c + 1 < two64)%Z ∧ keys_utf8 c.

(** Data that a log line can hold. *)
Definition good_data (d : vdata) : Prop := data_wf d ∧ d ≠ ∅.

(** What the operations need of the encryptor: the stored form of good data is
    good data. *)
Definition enc_good (c : Collection) : Prop :=
  ∀ en, enc c = Some en →
    in_u64 (enc_epoch en) ∧
    ∀ d d', good_data d → enc_encrypt en d = Some d' → good_data d'.

Lemma clog_lines c es ea :
  length (sealedSegs c) = length es →
  map (λ x : log_entry, x.2.2) (clog c es ea) = map snd (concat es ++ ea).
Proof.
  intros Hlen. unfold clog. rewrite !map_app. f_equal.
  - unfold full_log. revert es Hlen. generalize (sealedSegs c).
    induction l as [|s l IH]; intros [|es1 es] Hlen; try done. cbn [zip_with concat].
    rewrite !map_app, IH by (simpl in Hlen; lia). f_equal.
    unfold seg_log. by rewrite map_map.
  - unfold seg_log. by rewrite map_map.
Qed.

Lemma clog_elem c es ea p x :
  length (sealedSegs c) = length es → (p, x) ∈ clog c es ea → x ∈ concat es ++ ea.
Proof.
  intros Hlen Hin. unfold clog in Hin. apply elem_of_app in Hin as [Hin|Hin].
  - apply elem_of_app. left. revert es Hlen Hin. unfold full_log. generalize (sealedSegs c).
    induction l as [|s l IH]; intros [|es1 es] Hlen Hin; try (by apply not_elem_of_nil in Hin); try done.
    cbn [zip_with concat] in *. apply elem_of_app in Hin as [Hin|Hin]; apply elem_of_app.
    + left. by apply list_elem_of_fmap in Hin as (y & [= _ ->] & Hin).
    + right. apply IH; [|done]. simpl in Hlen. lia.
  - apply elem_of_app. right. by apply list_elem_of_fmap in Hin as (y & [= _ ->] & Hin).
Qed.

(** ** Reading through the index *)

Lemma sealed_lookup segs es p off d :
  holds_all segs es → NoDup (map path segs) → (p, (off, d)) ∈ full_log segs es →
  ∃ s, s ∈ segs ∧ path s = p ∧ ReadStampedAt s off = Ok d.
Proof.
  intros Hh. induction Hh as [|s e1 segs es [Hi Hp] Hh IH]; intros Hnd Hin.
  - by apply not_elem_of_nil in Hin.
  - cbn [map] in Hnd. apply NoDup_cons in Hnd as [Hn Hnd]. unfold full_log in Hin. cbn [zip_with concat] in Hin.
    apply elem_of_app in Hin as [Hin|Hin].
    + apply list_elem_of_fmap in Hin as ([o x] & [= -> -> ->] & Hin).
      exists s. split_and!; [by left|done|]. by eapply read_entry.
    + destruct (IH Hnd Hin) as (s' & ? & ? & ?). exists s'. split_and!; [by right|done|done].
Qed.

Lemma segmentByPath_elem c s :
  NoDup (map path (all_segments c)) → s ∈ all_segments c → segmentByPathLocked c (path s) = Some s.
Proof.
  unfold all_segments, segmentByPathLocked. intros Hnd Hin. rewrite map_app in Hnd. cbn [map] in Hnd.
  apply NoDup_app in Hnd as (Hnd & Hdis & _).
  apply elem_of_app in Hin as [Hin|Hin].
  - assert (filter (λ s', path s' = path s) (sealedSegs c) = [s]) as ->; [|done].
    apply list_elem_of_split in Hin as (l1 & l2 & Heq). rewrite Heq in *.
    rewrite map_app in Hnd. cbn [map] in Hnd.
    apply NoDup_app in Hnd as (_ & H12 & [H2 _]%NoDup_cons).
    rewrite filter_app, filter_cons_True by done.
    rewrite (filter_none _ l1), (filter_none _ l2); [done|..]; apply Forall_forall; intros x Hx He.
    + apply H2. rewrite <- He. apply list_elem_of_fmap. eauto.
    + apply (H12 (path x)); [apply list_elem_of_fmap; eauto|]. rewrite He. by left.
  - apply list_elem_of_singleton in Hin as ->.
    rewrite (filter_none _ (sealedSegs c)); [by rewrite decide_True|].
    apply Forall_forall. intros x Hx He. apply (Hdis (path x)); [apply list_elem_of_fmap; eauto|].
    rewrite He. by left.
Qed.

(** The records of an unfenced collection are what its index leads to. *)
Lemma cinv_lookup c L id :
  cinv c L → fenced c = None →
  match records (cdecisions c) L !! id with
  | None => Get (index c) id = None
  | Some (e, rev) =>
      ∃ loc seg, Get (index c) id = Some loc ∧ ie_Rev loc = rev ∧ ie_ExpiresAt loc = ExpiresAt e ∧
        ie_Epoch loc = Epoch e ∧ ID e = id ∧
        segmentByPathLocked c (SegmentPath loc) = Some seg ∧ ReadAt seg (Offset loc) = Ok e
  end.
Proof.
  intros (es & ea & Hc & ->) Hf. destruct Hc as [Hs Ha _ _ Hp%numbered_NoDup Hi _ _ _].
  rewrite <- (clog_lines c) by (by eapply Forall2_length).
  pose proof (replay_records (cdecisions c) (clog c es ea) id) as H.
  unfold Get. rewrite (Hi Hf). destruct (records _ _ !! id) as [[e rev]|]; [|done].
  destruct H as (p & off & tx & Hin & Hid & ->).
  assert (∃ s, s ∈ all_segments c ∧ path s = p ∧ ReadStampedAt s off = Ok (e, tx))
    as (s & Hsin & Hsp & Hr).
  { unfold clog in Hin. unfold all_segments. apply elem_of_app in Hin as [Hin|Hin].
    - eapply sealed_lookup in Hin as (s & ? & ? & ?); [|done|].
      + exists s. split_and!; [|done|done]. apply elem_of_app. by left.
      + unfold all_segments in Hp. rewrite map_app in Hp. by apply NoDup_app in Hp as [? _].
    - apply list_elem_of_fmap in Hin as ([o x] & [= -> -> <-] & Hin). exists (active c).
      split_and!; [apply elem_of_app; right; by apply list_elem_of_singleton|done|]. by eapply read_entry. }
  exists (MkIE p off rev (ExpiresAt e) (Epoch e)), s. split_and!; try done.
  - simpl. subst p. by apply segmentByPath_elem.
  - unfold ReadAt. simpl. by rewrite Hr.
Qed.

(** ** Weakest preconditions *)

Definition wp {A} (m : M A) (st : St) (Q : St → res cerr A → Prop) : Prop :=
  Q (m st).1 (m st).2.

Lemma wp_run {A} (m : M A) st Q st' r : wp m st Q → m st = (st', r) → Q st' r.
Proof. unfold wp. intros H Heq. by rewrite Heq in H. Qed.

Lemma wp_mono {A} (m : M A) st (Q Q' : St → res cerr A → Prop) :
  wp m st Q → (∀ st' r, Q st' r → Q' st' r) → wp m st Q'.
Proof. unfold wp. auto. Qed.

Lemma wp_bind {A B} (m : M A) (k : A → M B) st Q :
  wp m st (λ st' r, match r with Ok a => wp (k a) st' Q | Err e => Q st' (Err e) end) →
  wp (bind m k) st Q.
Proof. unfold wp, bind. destruct (m st) as [st' [a|e]]; done. Qed.

Lemma wp_ret {A} (a : A) st (Q : St → res cerr A → Prop) : Q st (Ok a) → wp (ret a) st Q.
Proof. done. Qed.

Lemma wp_throw {A} e st (Q : St → res cerr A → Prop) : Q st (Err e) → wp (throw e) st Q.
Proof. done. Qed.

(** The steps that never fail. *)
Lemma wp_get {B} (k : Collection → M B) st Q : wp (k (coll st)) st Q → wp (bind get_coll k) st Q.
Proof. intros H. by apply wp_bind. Qed.

Lemma wp_modify {B} f (k : unit → M B) st Q :
  wp (k tt) (MkSt (f (coll st)) (io st) (wall st)) Q → wp (bind (modify f) k) st Q.
Proof. intros H. by apply wp_bind. Qed.

Lemma wp_guard {B} b e (k : unit → M B) st Q :
  (b = true → Q st (Err e)) → (b = false → wp (k tt) st Q) → wp (bind (guard_err b e) k) st Q.
Proof. intros H1 H2. apply wp_bind. destruct b; [by apply H1|by apply H2]. Qed.

Lemma wp_checkFenced {B} (k : unit → M B) st Q :
  (is_Some (fenced (coll st)) → Q st (Err ErrCollectionFenced)) →
  (fenced (coll st) = None → wp (k tt) st Q) →
  wp (bind checkFenced k) st Q.
Proof.
  intros H1 H2. apply wp_bind. unfold checkFenced. apply wp_get. unfold is_fenced.
  destruct (fenced (coll st)) as [x|] eqn:E; [by apply H1|by apply H2].
Qed.

(** ** Steps that leave the store alone *)

(** What the id counter, the clock, the watchers and meta.json may change. *)
Record frame (c c' : Collection) : Prop := {
  fr_dir : dir c' = dir c;
  fr_cfg : cfg c' = cfg c;
  fr_sealed : sealedSegs c' = sealedSegs c;
  fr_active : active c' = active c;
  fr_index : index c' = index c;
  fr_idSeq : (idSeq c ≤ idSeq c')%Z;
  fr_segSeq : segSeq c' = segSeq c;
  fr_fenced : fenced c' = fenced c;
  fr_decisions : cdecisions c' = cdecisions c;
  fr_clock : (clockFloor c ≤ clockFloor c')%Z;
  fr_ttl : explicitDefaultTTLSecs c' = explicitDefaultTTLSecs c;
  fr_sidx : sidxMap c' = sidxMap c;
  fr_enc : enc c' = enc c;
  fr_broker : broker c' = broker c;
  fr_db : db c' = db c
}.

Lemma frame_refl c : frame c c.
Proof. by split. Qed.

Lemma frame_trans a b c : frame a b → frame b c → frame a c.
Proof. intros [] []. split; congruence || lia. Qed.

(** A step that changes nothing of the store and cannot fail. *)
Definition quiet {A} (m : M A) : Prop :=
  ∀ st, world st → wp m st (λ st' r, world st' ∧ frame (coll st) (coll st') ∧ ∃ a, r = Ok a).

Lemma quiet_ret {A} (a : A) : quiet (ret a).
Proof. intros st Hw. apply wp_ret. split_and!; [done|apply frame_refl|eauto]. Qed.

Lemma quiet_bind {A B} (m : M A) (k : A → M B) : quiet m → (∀ a, quiet (k a)) → quiet (bind m k).
Proof.
  intros Hm Hk st Hw. apply wp_bind. eapply wp_mono; [by apply Hm|].
  intros st1 r (Hw1 & Hf1 & a & ->). eapply wp_mono; [by apply Hk|].
  intros st2 r2 (Hw2 & Hf2 & H). split_and!; [done|by eapply frame_trans|done].
Qed.

Lemma quiet_modify f :
  (∀ c, frame c (f c) ∧ clockFloor (f c) = clockFloor c) → quiet (modify f).
Proof.
  intros H st [Hc Hw]. unfold wp, modify. simpl. destruct (H (coll st)) as [Hf Hk].
  split_and!; [|done|eauto]. split; simpl; [by rewrite Hk|done].
Qed.

Lemma quiet_wall_now : quiet wall_now.
Proof.
  intros st [Hc Hw]. unfold wp, wall_now. destruct (wall st) as [|t w] eqn:E; simpl.
  - split_and!; [split; [done|by rewrite E]|apply frame_refl|eauto].
  - apply Forall_cons in Hw as [_ Hw]. split_and!; [by split|apply frame_refl|eauto].
Qed.

Lemma quiet_emit_loop ev ws : quiet (emit_loop ev ws).
Proof.
  induction ws as [|[id w] ws IH]; [apply quiet_ret|]. cbn [emit_loop].
  apply quiet_bind; [destruct (overflowed w); [apply quiet_wall_now|apply quiet_ret]|].
  intros t. apply quiet_bind; [|done]. apply quiet_modify. intros c. by split; [split|].
Qed.

Lemma quiet_emit ev : quiet (emit ev).
Proof. intros st Hw. unfold emit. apply wp_get. by apply quiet_emit_loop. Qed.

(** A quiet step in front of [k]. *)
Lemma wp_quiet {A B} (m : M A) (k : A → M B) st Q :
  quiet m → world st →
  (∀ st' a, world st' → frame (coll st) (coll st') → wp (k a) st' Q) →
  wp (bind m k) st Q.
Proof.
  intros Hm Hw Hk. apply wp_bind. eapply wp_mono; [by apply Hm|].
  intros st' r (Hw' & Hf & a & ->). by apply Hk.
Qed.

(** A reading of the clock is in range, and is the floor from then on. *)
Lemma wp_now {B} (k : Z → M B) st Q :
  world st →
  (∀ st' n, world st' → frame (coll st) (coll st') → idSeq (coll st') = idSeq (coll st) →
            clockFloor (coll st') = n → (0 ≤ n < two63)%Z → wp (k n) st' Q) →
  wp (bind now k) st Q.
Proof.
  intros [Hc Hw] Hk. apply wp_bind. unfold now, wp, bind, wall_now.
  destruct (wall st) as [|t w] eqn:E; cbn [get_coll fst snd].
  - destruct (Z.leb_spec 0 (clockFloor (coll st))); [|lia]. cbn.
    apply Hk; [by split; rewrite ?E|apply frame_refl|done|done|done].
  - apply Forall_cons in Hw as [Ht Hw]. cbn [coll].
    destruct (Z.leb_spec t (clockFloor (coll st))); cbn.
    + apply Hk; [by split|apply frame_refl|done|done|done].
    + apply Hk; [by split|split; simpl; done || lia|done|done|done].
Qed.

Lemma wp_next_id {B} (k : Z → M B) st Q :
  world st → (0 ≤ idSeq (coll st))%Z → (idSeq (coll st) + 1 < two64)%Z →
  (∀ st', world st' → frame (coll st) (coll st') → idSeq (coll st') = (idSeq (coll st) + 1)%Z →
          wp (k (idSeq (coll st) + 1)%Z) st' Q) →
  wp (bind next_id k) st Q.
Proof.
  intros Hw H0 Hroom Hk. apply wp_bind. unfold next_id. apply wp_modify. apply wp_get. apply wp_ret.
  cbn [coll idSeq set_idSeq]. rewrite u64_id by (unfold in_u64; lia).
  apply Hk; [done|split; simpl; done || lia|done].
Qed.

(** ** The invariant under those steps *)

Lemma cinv_frame c c' L : frame c c' → cinv c L → cinv c' L.
Proof.
  intros F (es & ea & Hc & ->). exists es, ea. split; [|done].
  destruct F as [Ed _ Es Ea Ei Eq Eg Ef Edc _ _ _ _ _ _].
  destruct Hc as [H1 H2 H3 H4 H5 H6 H7 H8 H9].
  split; unfold numbered, all_segments, clog, segmentPath in *; rewrite ?Ed, ?Es, ?Ea, ?Ei, ?Eg, ?Ef, ?Edc; try done.
  - eapply List.Forall_impl; [|done]. simpl. intros x [Hx ?]. split; [lia|done].
  - lia.
Qed.

Lemma cinv_sidx c m L : cinv c L → cinv (set_sidxMap c m) L.
Proof. intros (es & ea & [] & ->). exists es, ea. split; [|done]. by split. Qed.

Lemma cinv_fence c op L : cinv c L → cinv (set_fenced c (Some op)) L.
Proof. intros (es & ea & [] & ->). exists es, ea. split; [|done]. by split. Qed.

Lemma cinv_broker c b L : cinv c L → cinv (set_broker c b) L.
Proof. intros (es & ea & [] & ->). exists es, ea. split; [|done]. by split. Qed.

Lemma cinv_meta c v L : cinv c L → cinv (set_meta c v) L.
Proof. intros (es & ea & [] & ->). exists es, ea. split; [|done]. by split. Qed.
