(* ===== verification/CollStep.v ===== *)
(** * The storage steps of a collection

    Appending a line, the durability point, publishing it in the index and
    rotating the active segment, each with its effect on the invariant for every
    outcome of the file calls. *)
From Stdlib Require Import Ascii Lia ZArith.
From stdpp Require Import prelude gmap strings sorting.
From S2P Require Import Prelude GoNum Json Value Filter GoTime Store Wire Codec Segment Index SecondaryIndex Collection Keyed CollInv.

(** The line an appended entry reads back as. *)
Definition stored (e : Entry) : line := (set_crc e (checksum e), None).

(** [s1] is the active segment of [c] with the line of [e] at its end. *)
Record appended (c : Collection) (ea : list located) (e : Entry) (s1 : Segment) : Prop := {
  ap_inv : seg_inv s1 (ea ++ [(size (active c), stored e)]);
  ap_clean : poisoned s1 = false;
  ap_open : sealed s1 = false;
  ap_file : file s1 = HOpen;
  ap_path : path s1 = path (active c)
}.

(** ** Appending *)

Lemma unfenced_clean c es ea : cinv_at c es ea → fenced c = None → poisoned (active c) = false.
Proof.
  intros Hc Hf. destruct (poisoned (active c)) eqn:E; [|done].
  apply (ca_poison _ _ _ Hc) in E. rewrite Hf in E. by destruct E.
Qed.

Lemma on_active_run {A} f st s' fs (r : res seg_err A) :
  f (active (coll st)) (io st) = (s', fs, r) →
  on_active f st = (MkSt (set_active (coll st) s') fs (wall st), Ok r).
Proof. unfold on_active. by intros ->. Qed.

Lemma set_active_same c : set_active c (active c) = c.
Proof. by destruct c. Qed.

Lemma wp_appendLocked {B} op e (k : nat → M B) st es ea Q :
  let c := coll st in
  cinv_at c es ea → fenced c = None → plain_readable e →
  (∀ s1 fs, appended c ea e s1 →
     wp (k (size (active c))) (MkSt (set_active c s1) fs (wall st)) Q) →
  (∀ s1 fs err, undone (active c) s1 → poisoned s1 = false →
     Q (MkSt (set_active c s1) fs (wall st)) (Err (ErrAppend err))) →
  (∀ s1 fs why, undone (active c) s1 →
     Q (MkSt (set_fenced (set_active c s1) (Some why)) fs (wall st)) (Err ErrWriteOutcomeUnknown)) →
  wp (bind (appendLocked op e) k) st Q.
Proof.
  intros c Hc Hf He Hok Herr Hunk. apply wp_bind. unfold appendLocked.
  apply wp_checkFenced; [intros H; fold c in H; rewrite Hf in H; by destruct H|]. intros _.
  apply wp_bind. destruct (Append (active c) e (io st)) as [[s1 fs] r] eqn:Ea.
  pose proof (Append_step _ _ _ _ _ _ _ (ca_active _ _ _ Hc) Ea) as Hs.
  pose proof (unfenced_clean _ _ _ Hc Hf) as Hp.
  unfold wp at 1. rewrite (on_active_run _ st _ _ _ Ea). cbn [fst snd].
  destruct r as [o|err].
  - destruct Hs as (-> & H1 & H2 & H3 & H4 & H5). apply wp_bind. apply wp_ret. apply wp_ret.
    apply Hok. split; [by apply H5|done..].
  - assert (Hcase : err = ErrSegmentPoisoned ∨ err ≠ ErrSegmentPoisoned) by (destruct err; auto).
    destruct Hcase as [->|Hne].
    + specialize (Hunk s1 fs "truncate" Hs). unfold observe_poison, fence, unknownOutcome, wp, bind, modify, throw.
      simpl. fold c. rewrite Hf. simpl. exact Hunk.
    + pose proof (append_entry_unpoisoned _ _ _ _ _ _ Hp Ea Hne) as Hp1.
      specialize (Herr s1 fs err Hs Hp1).
      unfold wp, bind, throw. destruct err; exact Herr || done.
Qed.

(** ** The durability point *)

Lemma Sync_open s fs : sealed s = false → file s = HOpen →
  ∃ fs' b, Sync s fs = (fs', if b : bool then Ok tt else Err ErrIO).
Proof.
  intros Hs Hf. unfold Sync. rewrite Hs, Hf. simpl. destruct (next_fault fs) as [f fs'].
  by exists fs', (f_ok f).
Qed.

Lemma wp_syncCommit {B} op (k : unit → M B) st Q :
  fenced (coll st) = None →
  (∀ fs, wp (k tt) (MkSt (coll st) fs (wall st)) Q) →
  (∀ fs, Q (MkSt (set_fenced (coll st) (Some op)) fs (wall st)) (Err ErrWriteOutcomeUnknown)) →
  wp (bind (syncCommitLocked op) k) st Q.
Proof.
  intros Hf Hok Herr. apply wp_bind. unfold syncCommitLocked. apply wp_get. case_decide.
  - apply wp_bind. unfold sync_active, wp at 1, on_active.
    destruct (Sync (active (coll st)) (io st)) as [fs r]. cbn [fst snd].
    rewrite set_active_same. destruct r as [u|e].
    + apply wp_ret. destruct u. apply Hok.
    + unfold unknownOutcome, fence, wp, bind, modify, throw. simpl. rewrite Hf. apply Herr.
  - apply wp_ret. destruct st. apply Hok.
Qed.

(** ** The invariant after an append *)

Lemma all_segments_set_active c s1 :
  path s1 = path (active c) → map path (all_segments (set_active c s1)) = map path (all_segments c).
Proof. intros H. unfold all_segments. rewrite !map_app. simpl. by rewrite H. Qed.

Lemma clog_snoc c s1 es ea x :
  path s1 = path (active c) →
  clog (set_active c s1) es (ea ++ [x]) = clog c es ea ++ [(path (active c), x)].
Proof. intros H. unfold clog, seg_log. simpl. by rewrite H, map_app, app_assoc. Qed.

(** A failed append leaves the invariant as it was. *)
Lemma cinv_undone c es ea s1 :
  cinv_at c es ea → undone (active c) s1 → poisoned s1 = false → cinv_at (set_active c s1) es ea.
Proof.
  intros [] U Hp. pose proof (un_path _ _ U) as Epath.
  split; try done; unfold clog; simpl; rewrite ?all_segments_set_active, ?Epath by done; try done.
  - by eapply undone_inv.
  - by rewrite Hp.
  - rewrite (un_sealed _ _ U), (un_file _ _ U). done.
Qed.

(** An unknown outcome fences; the file holds the old lines, or those and the new one. *)
Lemma cinv_undone_fenced c es ea s1 op :
  cinv_at c es ea → undone (active c) s1 → cinv_at (set_fenced (set_active c s1) (Some op)) es ea.
Proof.
  intros [] U. pose proof (un_path _ _ U) as Epath.
  split; try done; simpl; unfold all_segments in *; simpl; rewrite ?map_app in *; simpl; rewrite ?Epath; try done.
  by eapply undone_inv.
Qed.

Lemma cinv_append_fenced c es ea e s1 op :
  cinv_at c es ea → appended c ea e s1 → (ID e ≤ idSeq c)%Z → plain_readable e →
  cinv_at (set_fenced (set_active c s1) (Some op)) es (ea ++ [(size (active c), stored e)]).
Proof.
  intros [] [A1 A2 A3 A4 A5] Hid [Hwf _].
  split; try done; simpl; unfold all_segments in *; simpl; rewrite ?map_app in *; simpl; rewrite ?A5; try done.
  rewrite app_assoc. apply Forall_app. split; [done|].
    apply Forall_singleton. split; [done|apply Hwf].
Qed.

(** A committed append. *)
Lemma cinv_commit c es ea e s1 idx' :
  cinv_at c es ea → fenced c = None → appended c ea e s1 → (ID e ≤ idSeq c)%Z → plain_readable e →
  entries idx' = applyOne (entries (index c)) (path (active c)) (size (active c)) e →
  mayExpire_ok idx' →
  cinv_at (set_index (set_active c s1) idx') es (ea ++ [(size (active c), stored e)]).
Proof.
  intros Hc Hf A Hid [Hwf _] He Hm. pose proof A as [A1 A2 A3 A4 A5]. destruct Hc as [B1 B2 B3 B4 B5 B7 B8 B9 B10].
  split; try done; simpl.
  - by rewrite A2.
  - unfold all_segments in *; simpl; rewrite ?map_app in *; simpl; by rewrite A5.
  - intros _. change (entries idx' = replay (cdecisions c) ∅ (clog (set_active c s1) es (ea ++ [(size (active c), stored e)]))).
    rewrite clog_snoc by done. rewrite replay_snoc. simpl. rewrite <- (B7 Hf). by rewrite He.
  - rewrite app_assoc. apply Forall_app. split; [done|].
    apply Forall_singleton. split; [done|apply Hwf].
Qed.

(** ** How a collection evolves *)

(** What no operation changes, and what only grows. *)
Record later (c c' : Collection) : Prop := {
  lt_dir : dir c' = dir c;
  lt_cfg : cfg c' = cfg c;
  lt_decisions : cdecisions c' = cdecisions c;
  lt_enc : enc c' = enc c;
  lt_ttl : explicitDefaultTTLSecs c' = explicitDefaultTTLSecs c;
  lt_db : db c' = db c;
  lt_clock : (clockFloor c ≤ clockFloor c')%Z;
  lt_idSeq : (idSeq c ≤ idSeq c')%Z;
  lt_segSeq : (segSeq c ≤ segSeq c' ≤ segSeq c + 1)%Z;
  lt_fence : is_Some (fenced c) → fenced c' = fenced c
}.

Lemma later_refl c : later c c.
Proof. split; done || lia. Qed.

Lemma frame_later c c' : frame c c' → later c c'.
Proof. intros []. split; congruence || lia || done. Qed.

Lemma later_frame a b c : later a b → frame b c → later a c.
Proof.
  intros [] F. pose proof (fr_fenced _ _ F) as Ef. destruct F.
  split; try congruence; try lia. intros H. rewrite Ef. auto.
Qed.

Lemma frame_then_later a b c : frame a b → later b c → later a c.
Proof.
  intros F T. pose proof (fr_fenced _ _ F) as Ef. pose proof (lt_fence _ _ T) as Hf. destruct F, T.
  split; try congruence; try lia. intros H. rewrite <- Ef in H. rewrite (Hf H). done.
Qed.

(** ** Rotation *)

(** What a rotation leaves as it is. *)
Record rotated (c c' : Collection) : Prop := {
  ro_later : later c c';
  ro_index : index c' = index c;
  ro_idSeq : idSeq c' = idSeq c;
  ro_sidx : sidxMap c' = sidxMap c;
  ro_watchers : watchers c' = watchers c;
  ro_broker : broker c' = broker c
}.

Lemma Seal_spec s fs s' fs' r :
  sealed s = false → Seal s fs = (s', fs', r) →
  (s' = s ∧ ∃ e, r = Err e) ∨ (s' = with_handle s true HNone).
Proof.
  intros Hs. unfold Seal. rewrite Hs. destruct (file s).
  - intros [= <- <- <-]. by right.
  - destruct (file_sync HOpen fs) as [[] fs1]; simpl.
    + destruct (next_fault fs1). intros [= <- <- <-]. by right.
    + intros [= <- <- <-]. left. eauto.
  - simpl. intros [= <- <- <-]. left. eauto.
Qed.

Lemma numbered_grow c n c' paths :
  numbered c paths → (segSeq c ≤ n)%Z → dir c' = dir c → segSeq c' = n → numbered c' paths.
Proof.
  intros (nums & -> & Hs & Hall) Hn Hd <-. exists nums. unfold segmentPath. rewrite Hd. split_and!; [done|done|].
  eapply List.Forall_impl; [|exact Hall]. simpl. lia.
Qed.

(** Sealing the active segment and opening a fresh one after it. *)
Lemma cinv_rotate c es ea old s :
  cinv_at c es ea → fenced c = None → (segSeq c + 1 < two64)%Z → old = with_handle (active c) true HNone →
  s = MkSeg (segmentPath c (segSeq c + 1)) [] 0 false HOpen false →
  cinv_at (set_active (set_sealed (set_segSeq c (segSeq c + 1)) (sealedSegs c ++ [old])) s) (es ++ [ea]) [].
Proof.
  intros Hc Hf Hroom -> ->. pose proof (unfenced_clean _ _ _ Hc Hf) as Hclean.
  destruct Hc as [B1 B2 B3 B4 B5 B7 B8 B9 B10].
  assert (Hpaths : map path (sealedSegs c ++ [with_handle (active c) true HNone]) = map path (all_segments c)).
  { unfold all_segments. by rewrite !map_app. }
  split; simpl; try done.
  - apply Forall2_app; [done|]. apply List.Forall2_cons; [|constructor]. split; [by apply with_handle_inv|done].
  - split; simpl; [done|constructor|done].
  - unfold all_segments at 1. simpl. rewrite map_app, Hpaths. destruct B5 as (nums & -> & Hs & Hall).
    exists (nums ++ [segSeq c + 1]%Z). split_and!.
    + by rewrite map_app.
    + apply StronglySorted_app. split_and!; [|done|repeat constructor].
      intros x y Hx Hy%list_elem_of_singleton. subst y. rewrite Forall_forall in Hall. specialize (Hall _ Hx). lia.
    + simpl. apply Forall_app. split; [|apply Forall_singleton; lia].
      eapply List.Forall_impl; [|exact Hall]. simpl. lia.
  - intros _. rewrite (B7 Hf). f_equal. unfold clog. simpl. rewrite app_nil_r.
    unfold full_log. rewrite zip_with_app by (by eapply Forall2_length). rewrite concat_app. simpl.
    by rewrite app_nil_r.
  - rewrite concat_app. simpl. by rewrite !app_nil_r.
  - lia.
Qed.

(** The sealed tail reopened when the new file could not be created. *)
Lemma cinv_reopen c es ea n d fs d' fs' s :
  cinv_at c es ea → fenced c = None → (segSeq c ≤ n)%Z → d = disk (active c) →
  openActiveSegment (path (active c)) d fs = (d', fs', Ok s) →
  cinv_at (set_active (set_segSeq c n) s) es ea.
Proof.
  intros Hc Hf Hn -> Ho. pose proof (unfenced_clean _ _ _ Hc Hf) as Hclean.
  destruct Hc as [B1 B2 B3 B4 B5 B7 B8 B9 B10]. destruct B2 as [C1 C2 C3]. specialize (C3 Hclean).
  rewrite C3, take_ge in C2 by done.
  pose proof Ho as Ho2. rewrite <- (app_nil_r (disk (active c))) in Ho.
  eapply open_torn in Ho as (-> & Hi & Hd & Hp & Hs); [|done|by apply not_elem_of_nil].
  apply open_spec in Ho2 as [_ Hs2].
  assert (Epath : path s = path (active c)) by (by rewrite Hs2).
  split; simpl; try done.
  - by rewrite Hp.
  - by rewrite Hs2.
  - unfold all_segments in *; simpl; rewrite ?map_app in *; simpl; rewrite Epath. by apply (numbered_grow c n).
  - intros _. unfold clog. simpl. rewrite Epath. by apply B7.
  - lia.
Qed.

Lemma cinv_at_fence c es ea op : cinv_at c es ea → cinv_at (set_fenced c (Some op)) es ea.
Proof. intros []. by split. Qed.

(** The tail left sealed in place: only a fenced collection may stay so. *)
Lemma cinv_sealed_fence c es ea n op :
  cinv_at c es ea → (segSeq c ≤ n)%Z →
  cinv_at (set_fenced (set_segSeq (set_active c (with_handle (active c) true HNone)) n) (Some op)) es ea.
Proof.
  intros Hc Hn.
  assert (Hp : map path (sealedSegs c ++ [with_handle (active c) true HNone]) = map path (all_segments c)).
  { unfold all_segments. by rewrite !map_app. }
  destruct Hc. split; simpl; try done.
  - by apply with_handle_inv.
  - unfold all_segments at 1. simpl. rewrite Hp. by apply (numbered_grow c n).
  - lia.
Qed.

Lemma cinv_at_meta c es ea v : cinv_at c es ea → cinv_at (set_meta c v) es ea.
Proof. intros []. by split. Qed.

Lemma wp_on_active {A B} f (k : res seg_err A → M B) st Q :
  (∀ s' fs r, f (active (coll st)) (io st) = (s', fs, r) →
     wp (k r) (MkSt (set_active (coll st) s') fs (wall st)) Q) →
  wp (bind (on_active f) k) st Q.
Proof.
  intros H. apply wp_bind. destruct (f (active (coll st)) (io st)) as [[s' fs] r] eqn:E.
  unfold wp at 1. rewrite (on_active_run _ st _ _ _ E). by apply H.
Qed.

Lemma wp_open {B} p d (k : res seg_err Segment → M B) st Q :
  (∀ d' fs r, openActiveSegment p d (io st) = (d', fs, r) → wp (k r) (MkSt (coll st) fs (wall st)) Q) →
  wp (bind (open_segment p d) k) st Q.
Proof.
  intros H. apply wp_bind. unfold wp at 1, open_segment.
  destruct (openActiveSegment p d (io st)) as [[d' fs] r]. by eapply H.
Qed.

Lemma wp_io {B} (k : bool → M B) st Q :
  (∀ fs b, wp (k b) (MkSt (coll st) fs (wall st)) Q) → wp (bind io_call k) st Q.
Proof.
  intros H. apply wp_bind. unfold wp at 1, io_call. destruct (next_fault (io st)) as [f fs]. apply H.
Qed.

Lemma wp_fence {B} op (k : unit → M B) st Q :
  fenced (coll st) = None →
  wp (k tt) (MkSt (set_fenced (coll st) (Some op)) (io st) (wall st)) Q → wp (bind (fence op) k) st Q.
Proof. intros Hf H. unfold fence. apply wp_modify. by rewrite Hf. Qed.

(** The end of a rotation: the directory sync and meta.json. *)
Lemma wp_writeMeta {B} (k : bool → M B) st Q :
  (∀ fs v b, wp (k b) (MkSt (set_meta (coll st) v) fs (wall st)) Q) → wp (bind writeMeta k) st Q.
Proof.
  intros H. apply wp_bind. unfold writeMeta. apply wp_io. intros fs [].
  - apply wp_bind. apply H.
  - apply wp_bind. apply wp_ret. apply wp_ret.
    replace (coll st) with (set_meta (coll st) (metaIDCounter (coll st))) by (by destruct (coll st)).
    apply H.
Qed.

Definition rotate_post_ok (st : St) (L : list line) (st' : St) : Prop :=
  world st' ∧ rotated (coll st) (coll st') ∧ cinv (coll st') L.

Lemma world_same st st' :
  world st → clockFloor (coll st') = clockFloor (coll st) → wall st' = wall st → world st'.
Proof. unfold world. by intros H -> ->. Qed.

Lemma rotateSegment_spec st L :
  world st → cinv (coll st) L → (segSeq (coll st) + 1 < two64)%Z →
  wp rotateSegment st (λ st' r, rotate_post_ok st L st' ∧ ∃ b, r = Ok b).
Proof.
  destruct st as [c fs0 w0]. cbn [coll io wall]. intros Hw (es & ea & Hc & ->) Hroom.
  unfold rotateSegment. apply wp_get. cbn [coll].
  assert (Hsame : ∀ st', wall st' = w0 → clockFloor (coll st') = clockFloor c → world st').
  { intros st' H1 H2. by eapply world_same. }
  pose proof (ca_seq _ _ _ Hc) as [Hq1 Hq2].
  unfold is_fenced. destruct (fenced c) as [w|] eqn:Hf.
  { rewrite bool_decide_true by eauto. apply wp_ret. split; [|eauto]. split_and!; [done| |by exists es, ea].
    split; try done. apply later_refl. }
  rewrite bool_decide_false by (by intros [? ?]). apply wp_on_active. intros s1 fs1 r1 E1.
  cbn [coll io wall] in *. destruct (ca_writable _ _ _ Hc Hf) as [Hopen _].
  apply Seal_spec in E1; [|done]. apply wp_get. cbn [coll active set_active].
  destruct E1 as [[-> [e ->]]| ->].
  - rewrite Hopen. cbn [negb]. apply wp_fence; [by rewrite set_active_same|].
    apply wp_ret. rewrite set_active_same. cbn [coll]. split; [|eauto].
    split_and!; [by apply Hsame| |exists es, ea; split; [by apply cinv_at_fence|done]].
    split; try done. split; simpl; try done; try lia. intros [? ?]; congruence.
  - cbn [sealed with_handle negb].
    assert (Hskip : ∀ r : res seg_err unit, ∀ B (k : unit → M B) st0 Q,
      wp (k tt) st0 Q → wp (bind (match r with Err _ => ret tt | Ok _ => ret tt end) k) st0 Q).
    { intros [?|?] B k st0 Q H; by apply wp_bind. }
    apply Hskip. apply wp_modify. apply wp_get. cbn [coll segSeq set_segSeq set_active io wall].
    rewrite u64_id by (unfold in_u64; lia). apply wp_open. intros d2 fs2 r2 E2.
    destruct r2 as [s2|err2].
    + apply open_spec in E2 as [-> E2]. apply wp_modify. apply wp_get.
      assert (Hc' := cinv_rotate c es ea _ s2 Hc Hf Hroom eq_refl E2).
      assert (HL : map snd (concat es ++ ea) = map snd (concat (es ++ [ea]) ++ [])).
      { rewrite concat_app. simpl. by rewrite !app_nil_r. }
      set (c2 := set_active (set_sealed (set_segSeq c (segSeq c + 1)) (sealedSegs c ++ [with_handle (active c) true HNone])) s2) in *.
      assert (Hlater : rotated c c2).
      { split; try done. split; simpl; try done; try lia. }
      assert (Hdone : ∀ b st', wp (if negb b then fence "rotate" ;;; ret false else
                   (metaOK <- writeMeta ;; ret (is_ok r1 && metaOK))) (MkSt c2 st' w0)
                   (λ st' r, rotate_post_ok (MkSt c fs0 w0) (map snd (concat es ++ ea)) st' ∧ ∃ b, r = Ok b)).
      { intros [] st'; cbn [negb].
        - apply wp_writeMeta. intros fs v b. apply wp_ret. split; [|eauto]. cbn [coll wall].
          split_and!; [by apply Hsame|by destruct Hlater as [[] ]; split; try done; split|].
          rewrite HL. eexists _, _. split; [by apply cinv_at_meta|done].
        - apply wp_fence; [done|]. apply wp_ret. split; [|eauto]. cbn [coll wall].
          split_and!; [by apply Hsame|by destruct Hlater as [[] ]; split; try done; split; try done; simpl; intros [? ?]; congruence|].
          rewrite HL. eexists _, _. split; [by apply cinv_at_fence|done]. }
      case_decide.
      * apply wp_bind. apply wp_ret. apply (Hdone true).
      * apply wp_io. intros fs b. apply (Hdone b).
    + apply wp_open. intros d3 fs3 r3 E3. destruct r3 as [s3|err3].
      * apply wp_modify. apply wp_ret. cbn [coll wall]. split; [|eauto].
        eapply (cinv_reopen c es ea (segSeq c + 1)) in E3; [|done|done|lia|done].
        split_and!; [by apply Hsame| |exists es, ea; split; [exact E3|done]].
        split; try done. split; simpl; done || lia.
      * apply wp_fence; [done|]. apply wp_ret. cbn [coll wall]. split; [|eauto].
        split_and!; [by apply Hsame| |exists es, ea; split; [by apply cinv_sealed_fence; [|lia]|done]].
        split; try done. split; simpl; try done; try lia. intros [? ?]; congruence.
Qed.
