(* ===== verification/CollOps.v ===== *)
(** * Inserts, updates, deletes and reads

    The outcome contract of a write (applied, not applied, or unknown and
    fenced), proved for the record operations of a collection under every
    outcome of the file calls, and what a read returns. *)
From Stdlib Require Import Ascii Lia ZArith.
From stdpp Require Import prelude gmap strings sorting.
From S2P Require Import Prelude GoNum Json Value Filter GoTime Store Wire Codec Segment Index SecondaryIndex Collection Keyed CollInv CollStep.

(** ** The outcome contract *)

(** The replication feed of [c] with [e] at its end. *)
Definition fed (c : Collection) (e : Entry) : option (list Entry) := (λ l, l ++ [e]) <$> broker c.

(** A write on the collection [c] with the lines [L] ended in [c'] with [r].
    [P now e] describes the entry it writes, [now] being the clock at the end,
    and [g] its effect on a secondary index. *)
Definition contract {A} (c : Collection) (L : list line) (P : Z → Entry → Prop)
    (g : string → SecondaryIndex → SecondaryIndex) (c' : Collection) (r : res cerr A) : Prop :=
  later c c' ∧
  match r with
  | Ok _ =>
      fenced c = None ∧
      ∃ e, P (clockFloor c') e ∧ cinv c' (L ++ [stored e]) ∧ broker c' = fed c e ∧
           sidxMap c' = map_imap (λ k s, Some (g k s)) (sidxMap c)
  | Err ErrWriteOutcomeUnknown =>
      fenced c = None ∧ is_Some (fenced c') ∧ broker c' = broker c ∧
      (cinv c' L ∨ ∃ e, P (clockFloor c') e ∧ cinv c' (L ++ [stored e]))
  | Err _ =>
      cinv c' L ∧ fenced c' = fenced c ∧ index c' = index c ∧ sidxMap c' = sidxMap c ∧
      broker c' = broker c
  end.

(** ** The common end of a write *)

(** Append, make durable, publish, notify, rotate. *)
Definition commit_tail {A} (op : string) (e : Entry) (im : nat → M unit)
    (g : string → SecondaryIndex → SecondaryIndex) (ev : WatchEvent) (f : option cerr → A) : M A :=
  offset <- appendLocked op e ;;
  syncCommitLocked op ;;;
  im offset ;;;
  modify (λ c, map_sidx c g) ;;;
  publishCommit e ;;;
  c <- get_coll ;;
  post <- afterCommit ev (needRotate c) ;;
  ret (f post).

Lemma publish_fed c e :
  match broker c with Some l => set_broker c (Some (l ++ [e])) | None => c end =
  set_broker c (fed c e).
Proof. unfold fed. destruct c; simpl. by destruct broker. Qed.

Lemma later_trans_rot a b c : later a b → segSeq b = segSeq a → later b c → later a c.
Proof.
  intros T1 Eq T2. pose proof (lt_fence _ _ T1) as F1. pose proof (lt_fence _ _ T2) as F2. destruct T1, T2.
  split; try congruence; try lia. intros H. rewrite <- (F1 H). apply F2. by rewrite (F1 H).
Qed.

(** After the index is published the rest cannot undo the write. *)
Lemma wp_rotate_post {B} due (k : option cerr → M B) st L Q :
  world st → cinv (coll st) L → (segSeq (coll st) + 1 < two64)%Z →
  (∀ st' post, world st' → later (coll st) (coll st') → cinv (coll st') L →
     broker (coll st') = broker (coll st) → sidxMap (coll st') = sidxMap (coll st) → wp (k post) st' Q) →
  wp (bind (rotate_post due) k) st Q.
Proof.
  intros Hw Hc Hroom HQ. apply wp_bind. unfold rotate_post. destruct due.
  - apply wp_bind. eapply wp_mono; [by apply rotateSegment_spec|].
    intros st2 r [(Hw2 & R & Hc2) [b ->]]. apply wp_ret. destruct R. by apply HQ.
  - apply wp_ret. by apply HQ; try apply later_refl.
Qed.

Lemma wp_afterCommit {A} ev due (f : option cerr → A) st L (Q : St → res cerr A → Prop) :
  world st → cinv (coll st) L → (segSeq (coll st) + 1 < two64)%Z →
  (∀ st' post, world st' → later (coll st) (coll st') → cinv (coll st') L →
     broker (coll st') = broker (coll st) → sidxMap (coll st') = sidxMap (coll st) → Q st' (Ok (f post))) →
  wp (post <- afterCommit ev due ;; ret (f post)) st Q.
Proof.
  intros Hw Hc Hroom HQ. apply wp_bind. unfold afterCommit. apply wp_quiet; [apply quiet_emit|done|].
  intros st1 _ Hw1 F.
  assert (Hr : wp (bind (rotate_post due) (λ post, ret post)) st1
    (λ st' r, match r with Ok post => wp (ret (f post)) st' Q | Err e => Q st' (Err e) end)).
  { apply (wp_rotate_post _ _ _ L); [done|by eapply cinv_frame|by rewrite (fr_segSeq _ _ F)|].
    intros st2 post Hw2 T Hc2 Hb Hs. do 2 apply wp_ret. destruct F.
    apply HQ; try congruence. by eapply frame_then_later. }
  unfold wp, bind in Hr |- *. by destruct (rotate_post due st1) as [? []].
Qed.

Lemma wp_commit_tail {A} op e F g ev (f : option cerr → A) st L :
  world st → cinv (coll st) L → fenced (coll st) = None → (segSeq (coll st) + 1 < two64)%Z →
  plain_readable e → (ID e ≤ idSeq (coll st))%Z →
  (∀ p o, entries (F p o (index (coll st))) = applyOne (entries (index (coll st))) p o e) →
  (∀ p o, mayExpire_ok (index (coll st)) → mayExpire_ok (F p o (index (coll st)))) →
  wp (commit_tail op e (λ o, modify (λ c, set_index c (F (path (active c)) o (index c)))) g ev f) st
     (λ st' r, world st' ∧ contract (coll st) L (λ _ e', e' = e) g (coll st') r ∧
        ∀ a, r = Ok a → ∃ post, a = f post).
Proof.
  destruct st as [c fs0 w0]. cbn [coll io wall]. intros Hw (es & ea & Hc & HL) Hf Hroom He Hid HF HM. unfold commit_tail.
  assert (Hsame : ∀ st', wall st' = w0 → clockFloor (coll st') = clockFloor c → world st').
  { intros st' H1 H2. by eapply world_same. }
  assert (HL' : ∀ o, map snd (concat es ++ ea ++ [(o, stored e)]) = L ++ [stored e]).
  { intros o. rewrite HL, app_assoc, (map_app snd (concat es ++ ea)). done. }
  apply (wp_appendLocked _ _ _ _ es ea); [done|done|done|..]; cbn [coll wall].
  - intros s1 fs1 Ap. apply wp_syncCommit; [done|..]; cbn [coll wall].
    + intros fs2. apply wp_modify. apply wp_modify. apply wp_modify. apply wp_get. cbn [coll io wall].
      rewrite publish_fed.
      set (c3 := set_broker _ _).
      assert (Hc3 : cinv c3 (L ++ [stored e])).
      { apply cinv_broker, cinv_sidx. exists es, (ea ++ [(size (active c), stored e)]). split; [|by rewrite HL'].
        apply cinv_commit; try done; simpl; rewrite (ap_path _ _ _ _ Ap); [apply HF|].
        apply HM. by apply (ca_expire _ _ _ Hc). }
      apply (wp_afterCommit _ _ _ _ (L ++ [stored e])); [by apply Hsame|done|done|].
      intros st' post Hw' T Hc' Hb Hs. split; [done|]. split; [|by intros a [= <-]; exists post]. split.
      * apply (later_trans_rot _ c3); [|done|exact T]. split; simpl; done || lia.
      * split; [done|]. exists e. split_and!; [done|done|by rewrite Hb|by rewrite Hs].
    + intros fs2. split; [by apply Hsame|]. split; [|done]. split; [split; simpl; try done; try lia; intros [? ?]; congruence|].
      split_and!; [done|by eexists|done|]. right. exists e. split; [done|].
      eexists _, _. split; [by apply cinv_append_fenced|by rewrite HL'].
  - intros s1 fs1 err U Hp. split; [by apply Hsame|]. split; [|done]. split; [split; simpl; done || lia|].
    split_and!; try done. exists es, ea. split; [by apply cinv_undone|done].
  - intros s1 fs1 why U. split; [by apply Hsame|]. split; [|done]. split; [split; simpl; try done; try lia; intros [? ?]; congruence|].
    split_and!; [done|by eexists|done|]. left. exists es, ea. split; [by apply cinv_undone_fenced|done].
Qed.

(** ** The steps before the commit *)

(** The stored form of [d], with the epoch it is stored under. *)
Definition sealed_as (c : Collection) (d d' : vdata) (ep : Z) : Prop :=
  match enc c with
  | None => d' = d ∧ ep = 0%Z
  | Some en => enc_encrypt en d = Some d' ∧ ep = enc_epoch en
  end.

Lemma sealed_as_good c d d' ep : enc_good c → good_data d → sealed_as c d d' ep → good_data d' ∧ in_u64 ep.
Proof.
  unfold enc_good, sealed_as. intros He Hd. destruct (enc c) as [en|].
  - intros [H ->]. destruct (He en eq_refl) as [Hep Hgood]. eauto.
  - intros [-> ->]. split; [done|]. unfold in_u64, two64. lia.
Qed.

Lemma wp_seal {B} id op ts rev exp d (k : Entry → M B) st Q :
  Q st (Err ErrCrypto) →
  (∀ d' ep, sealed_as (coll st) d d' ep → wp (k (MkEntry id op ts rev (Some d') ep exp None)) st Q) →
  wp (bind (sealEntryData (MkEntry id op ts rev (Some d) 0 exp None)) k) st Q.
Proof.
  intros Herr Hok. apply wp_bind. unfold sealEntryData. apply wp_get. unfold sealed_as in Hok.
  destruct (enc (coll st)) as [en|].
  - simpl. destruct (enc_encrypt en d) as [d'|] eqn:E; [|done]. apply wp_ret. by apply Hok.
  - apply wp_ret. by apply Hok.
Qed.

Lemma later_pre c c1 c' : frame c c1 → later c1 c' → later c c'.
Proof. apply frame_then_later. Qed.

(** The contract of the steps after a frame step is that of the whole. *)
Lemma contract_frame {A} c c1 L P P' g c' (r : res cerr A) :
  frame c c1 → (∀ now e, (clockFloor c1 ≤ now)%Z → P now e → P' now e) →
  contract c1 L P g c' r → contract c L P' g c' r.
Proof.
  intros F HP0 [T H]. pose proof (lt_clock _ _ T) as Hclk.
  assert (HP : ∀ e, P (clockFloor c') e → P' (clockFloor c') e) by (intros e; by apply HP0). split; [by eapply frame_then_later|]. pose proof (fr_fenced _ _ F) as Ef.
  assert (Efed : ∀ e, fed c1 e = fed c e) by (intros e; unfold fed; by rewrite (fr_broker _ _ F)).
  destruct r as [a|[]];
    try (rewrite <- Ef, <- (fr_index _ _ F), <- (fr_sidx _ _ F), <- (fr_broker _ _ F); exact H).
  - destruct H as (Hf & e & He & Hc & Hb & Hs). split; [congruence|]. exists e.
    rewrite <- (fr_sidx _ _ F), <- Efed. auto.
  - destruct H as (Hf & Hf' & Hb & Hc). split_and!; [congruence|done|by rewrite <- (fr_broker _ _ F)|].
    destruct Hc as [Hc|(e & He & Hc)]; [by left|right]. eauto.
Qed.

(** A refusal before anything is written. *)
Lemma contract_refused {A} c c1 L P g e :
  frame c c1 → cinv c1 L → e ≠ ErrWriteOutcomeUnknown → @contract A c L P g c1 (Err e).
Proof.
  intros F Hc Hne. split; [by apply frame_later|]. destruct F. by destruct e.
Qed.

Lemma first_conflict_frame c c' id n d : frame c c' → first_conflict c' id n d = first_conflict c id n d.
Proof.
  intros F. unfold first_conflict, unique_conflict, sidxConflict, isLive.
  by rewrite (fr_sidx _ _ F), (fr_index _ _ F).
Qed.

(** No other record that is live at an instant of the operation holds a value of
    [d] in a unique index. *)
Definition no_conflict (c : Collection) (now id : Z) (d : vdata) : Prop :=
  ∃ n, (clockFloor c ≤ n ≤ now)%Z ∧ first_conflict c id n d = None.

Lemma no_conflict_frame c c' now now' id d :
  frame c c' → (now ≤ now')%Z → no_conflict c' now id d → no_conflict c now' id d.
Proof.
  intros F Hle (n & Hn & H). exists n. split; [|by rewrite <- (first_conflict_frame _ _ _ _ _ F)].
  pose proof (fr_clock _ _ F). lia.
Qed.

Lemma wp_checkUnique {B} id d (k : unit → M B) st Q :
  world st →
  (∀ st' f key, world st' → frame (coll st) (coll st') → Q st' (Err (ErrDuplicateKey f key))) →
  (∀ st', world st' → frame (coll st) (coll st') → no_conflict (coll st) (clockFloor (coll st')) id d →
     wp (k tt) st' Q) →
  wp (bind (sidxCheckUnique id d) k) st Q.
Proof.
  intros Hw Herr Hok. apply wp_bind. unfold sidxCheckUnique. apply wp_now; [done|].
  intros st1 n Hw1 F _ Hcl Hn. apply wp_get. destruct (first_conflict _ _ _ _) as [[f key]|] eqn:E.
  - by apply Herr.
  - apply wp_ret. apply Hok; [done|done|]. exists n. rewrite <- (first_conflict_frame _ _ _ _ _ F).
    split; [|done]. pose proof (fr_clock _ _ F). lia.
Qed.

Lemma quota_frame c c' n b : frame c c' → quota_exceeded c' n b = quota_exceeded c n b.
Proof.
  intros F. unfold quota_exceeded, sizeBytesLocked.
  by rewrite (fr_cfg _ _ F), (fr_index _ _ F), (fr_sealed _ _ F), (fr_active _ _ F).
Qed.

Lemma entryQuotaBytes_frame c c' e : frame c c' → entryQuotaBytes c' e = entryQuotaBytes c e.
Proof. intros F. unfold entryQuotaBytes. by rewrite (fr_cfg _ _ F). Qed.

Lemma sealed_as_frame c c' d d' ep : frame c c' → sealed_as c' d d' ep → sealed_as c d d' ep.
Proof. intros F. unfold sealed_as. by rewrite (fr_enc _ _ F). Qed.

(** The entry an operation writes. *)
Record written (c : Collection) (id : Z) (op : string) (rev exp : Z) (d : vdata) (now : Z) (e : Entry) : Prop := {
  wr_id : ID e = id;
  wr_op : Op e = op;
  wr_rev : Rev e = rev;
  wr_exp : ExpiresAt e = exp;
  wr_ts : ∃ n, (clockFloor c ≤ n ≤ now)%Z ∧ Ts e = time_of_nanos n;
  wr_data : ∃ d', Data e = Some d' ∧ sealed_as c d d' (Epoch e)
}.

Lemma entry_readable id op n rev d ep exp :
  in_u64 id → (0 ≤ n < two63)%Z → in_u64 rev → good_data d → in_u64 ep → in_i64 exp → str_utf8 op →
  plain_readable (MkEntry id op (time_of_nanos n) rev (Some d) ep exp None).
Proof.
  intros Hid Hn Hrev [Hd Hne] Hep Hexp Hop. split; [|simpl; congruence].
  split; simpl; try done. by apply time_of_nanos_wf.
Qed.

(** ** Deadlines *)

Definition deadline_ok (explicit : option Z) : Prop :=
  match explicit with Some e => in_i64 e | None => True end.

Lemma resolve_range c explicit n : deadline_ok explicit → in_i64 (resolveInsertExpiryAt c explicit n).
Proof.
  unfold resolveInsertExpiryAt, deadline_ok. destruct explicit; [done|]. intros _.
  destruct (_ <? _)%Z; [apply i64_range|]. destruct (_ <? _)%Z; [apply i64_range|].
  unfold in_i64, two63. lia.
Qed.

(** ** Insert *)

Definition sidx_insert (id : Z) (d : vdata) (k : string) (s : SecondaryIndex) : SecondaryIndex :=
  match d !! k with Some v => add s v id | None => s end.

Definition inserted (c : Collection) (d : vdata) (exp now : Z) (e : Entry) : Prop :=
  written c (idSeq c + 1) OpInsert 1 exp d now e ∧ no_conflict c now (idSeq c + 1) d ∧
  quota_exceeded c 1 (entryQuotaBytes c e) = false.

Lemma cinv_fresh_id c L id : cinv c L → fenced c = None → (idSeq c < id)%Z → entries (index c) !! id = None.
Proof.
  intros Hc Hf Hid. pose proof (cinv_lookup c L id Hc Hf) as H.
  destruct (records _ L !! id) as [[e rev]|] eqn:E; [exfalso|exact H].
  destruct Hc as (es & ea & Hc & ->).
  pose proof (replay_records (cdecisions c) (clog c es ea) id) as Hr.
  rewrite (clog_lines c) in Hr by (by eapply Forall2_length; apply Hc). rewrite E in Hr.
  destruct Hr as (p & off & tx & Hin & Hide & _).
  apply clog_elem in Hin; [|by eapply Forall2_length; apply Hc].
  pose proof (ca_ids _ _ _ Hc) as Hall. rewrite Forall_forall in Hall. destruct (Hall _ Hin) as [Hle _]. simpl in Hle. lia.
Qed.

Lemma cinv_exp_range c L id cur :
  cinv c L → fenced c = None → Get (index c) id = Some cur → in_i64 (ie_ExpiresAt cur).
Proof.
  intros (es & ea & Hc & _) Hf Hg. unfold Get in Hg. rewrite (ca_index _ _ _ Hc Hf) in Hg.
  pose proof (replay_records (cdecisions c) (clog c es ea) id) as H.
  destruct (records _ _ !! id) as [[e rev]|]; [|congruence].
  destruct H as (p & off & tx & Hin & _ & Hr). rewrite Hr in Hg. injection Hg as <-. cbn [ie_ExpiresAt].
  pose proof (ca_ids _ _ _ Hc) as Hall. rewrite Forall_forall in Hall.
  apply clog_elem in Hin; [|by eapply Forall2_length; apply Hc].
  destruct (Hall _ Hin) as [_ H]. exact H.
Qed.

Lemma insert_spec st L d exp :
  world st → cinv (coll st) L → room (coll st) → enc_good (coll st) → good_data d → in_i64 exp →
  wp (insert d exp) st
     (λ st' r, world st' ∧
        contract (coll st) L (inserted (coll st) d exp) (sidx_insert (idSeq (coll st) + 1) d) (coll st') r ∧
        ∀ cm, r = Ok cm → cm_id cm = (idSeq (coll st) + 1)%Z).
Proof.
  intros Hw Hc [[Hr1 Hr2] Hkeys] He Hd Hexp. unfold insert.
  assert (Hid : (0 ≤ idSeq (coll st))%Z) by (destruct Hc as (es & ea & [] & _); lia).
  set (c := coll st) in *. set (id := (idSeq c + 1)%Z).
  assert (Hidr : in_u64 id) by (unfold in_u64, id; lia).
  apply wp_next_id; [done|done|done|]. intros st1 Hw1 F1 Eid. fold c in F1 |- *. fold id.
  apply wp_now; [done|]. intros st2 n Hw2 F2 _ Hcl Hn.
  pose proof (frame_trans _ _ _ F1 F2) as F12.
  assert (Hcn : (clockFloor c ≤ n)%Z) by (rewrite <- Hcl; apply F12).
  assert (Hrefuse : ∀ st' e, world st' → frame c (coll st') → e ≠ ErrWriteOutcomeUnknown →
    world st' ∧ @contract committed c L (inserted c d exp) (sidx_insert id d) (coll st') (Err e) ∧
    ∀ cm, @Err cerr committed e = Ok cm → cm_id cm = id).
  { intros st' e Hw' F Hne. split_and!; [done| |done]. apply contract_refused; [done|by eapply cinv_frame|done]. }
  apply wp_seal; [by apply Hrefuse|]. intros d' ep Hs. apply sealed_as_frame with (c := c) in Hs; [|done].
  destruct (sealed_as_good _ _ _ _ He Hd Hs) as [Hd' Hep].
  apply wp_get. apply wp_checkFenced; [by intros _; apply Hrefuse|]. intros Hf.
  apply wp_bind. unfold checkQuotaLocked. apply wp_get.
  destruct (quota_exceeded _ _ _) eqn:Eq; [by apply Hrefuse|]. apply wp_ret.
  rewrite (quota_frame _ _ _ _ F12), (entryQuotaBytes_frame _ _ _ F12) in Eq.
  apply wp_checkUnique; [done|..].
  { intros st3 f key Hw3 F3. apply Hrefuse; [done|by eapply frame_trans|done]. }
  intros st3 Hw3 F3 Hnc. pose proof (frame_trans _ _ _ F12 F3) as F. cbn [Epoch].
  set (e := MkEntry id OpInsert (time_of_nanos n) 1 (Some d') ep exp None) in *.
  assert (Hc3 : cinv (coll st3) L) by (by eapply cinv_frame).
  assert (Hf3 : fenced (coll st3) = None) by (by rewrite (fr_fenced _ _ F3)).
  eapply wp_mono.
  - apply (wp_commit_tail "insert" e
      (λ p o idx, Set_ idx id (MkIE p o 1 exp ep)) (sidx_insert id d)
      (MkEvent OpInsert id (Some d) (time_of_nanos n)) (MkCommitted id (time_of_nanos n)) st3 L); try done.
    + by rewrite (fr_segSeq _ _ F).
    + by apply entry_readable.
    + pose proof (fr_idSeq _ _ F2). pose proof (fr_idSeq _ _ F3). simpl. unfold id, c in *. lia.
    + intros p o. unfold applyOne. rewrite decide_True by (by left). simpl. f_equal. unfold next_rev. simpl.
      rewrite (fr_index _ _ F). rewrite (cinv_fresh_id c L id); [done|done| |unfold id; lia].
      by rewrite <- (fr_fenced _ _ F12).
    + intros p o. apply mayExpire_ok_Set.
  - intros st' r (Hw' & Hct & Hr). split_and!; [done| |].
    + eapply contract_frame; [exact F| |exact Hct]. intros now e' Hnow ->. pose proof (fr_clock _ _ F3). split_and!.
      * split; try done; [|by exists d']. exists n. split; [lia|done].
      * exact (no_conflict_frame _ _ _ _ _ _ F12 Hnow Hnc).
      * done.
    + intros cm Hcm. by destruct (Hr cm Hcm) as [post ->].
Qed.

(** ** Update *)

(** The key an update by id carries over. *)
Definition kept_key (c : Collection) (id : Z) (d : vdata) : option string :=
  match d !! KeyField with
  | Some _ => None
  | None => s ← sidxMap c !! KeyField; reverse s !! id
  end.

Definition stamp_opt (k : option string) (d : vdata) : vdata :=
  match k with Some key => stampKey d key | None => d end.

Lemma preserve_kept c id d : preserveReservedLocked c id d = stamp_opt (kept_key c id d) d.
Proof.
  unfold preserveReservedLocked, kept_key. destruct (d !! KeyField); [done|].
  destruct (sidxMap c !! KeyField) as [s|]; [|done]. simpl. by destruct (reverse s !! id).
Qed.

Lemma stampKey_good d k : str_utf8 k → good_data d → good_data (stampKey d k).
Proof.
  intros Hk [Hd _]. unfold stampKey. split; [by apply map_Forall_insert_2|apply insert_non_empty].
Qed.

Lemma kept_key_utf8 c id d k : keys_utf8 c → kept_key c id d = Some k → str_utf8 k.
Proof.
  intros H. unfold kept_key. destruct (d !! KeyField); [done|].
  destruct (sidxMap c !! KeyField) as [s|] eqn:E; [|done]. simpl. by apply H.
Qed.

Lemma stamp_opt_good c id d d' : keys_utf8 c → good_data d' → good_data (stamp_opt (kept_key c id d) d').
Proof.
  intros Hk. destruct (kept_key c id d) as [k|] eqn:E; [|done]. by apply stampKey_good, (kept_key_utf8 c id d).
Qed.

Lemma stamp_entry_kept c id d id' op ts rev d' ep exp :
  stamp_entry (MkEntry id' op ts rev (Some d') ep exp None) d (stamp_opt (kept_key c id d) d) =
  MkEntry id' op ts rev (Some (stamp_opt (kept_key c id d) d')) ep exp None.
Proof.
  unfold stamp_entry. destruct (kept_key c id d) as [k|] eqn:E; simpl; [|by rewrite decide_True].
  unfold kept_key in E. destruct (d !! KeyField) eqn:Ek; [done|].
  unfold stampKey. rewrite map_size_insert_None by done. rewrite decide_False by lia.
  by rewrite lookup_insert_eq.
Qed.

Definition sidx_update (id : Z) (d : vdata) (k : string) (s : SecondaryIndex) : SecondaryIndex :=
  match d !! k with Some v => update s id v | None => remove s id end.

Definition updated (c : Collection) (id : Z) (d : vdata) (exp : Z → Z) (now : Z) (e : Entry) : Prop :=
  ∃ cur d', Get (index c) id = Some cur ∧ ID e = id ∧ Op e = OpUpdate ∧ Rev e = u64 (ie_Rev cur + 1) ∧
    ExpiresAt e = exp (ie_ExpiresAt cur) ∧ Data e = Some (stamp_opt (kept_key c id d) d') ∧
    sealed_as c d d' (Epoch e) ∧ no_conflict c now id d ∧
    ∃ n, (clockFloor c ≤ n ≤ now)%Z ∧ Ts e = time_of_nanos n.

Lemma cinv_known_id c L id e :
  cinv c L → fenced c = None → Get (index c) id = Some e → (id ≤ idSeq c)%Z.
Proof.
  intros Hc Hf Hg. destruct (Z.le_gt_cases id (idSeq c)) as [|Hlt]; [done|].
  unfold Get in Hg. by rewrite (cinv_fresh_id c L id Hc Hf Hlt) in Hg.
Qed.

Lemma next_rev_exact m e cur :
  m !! ID e = Some cur → Rev e = u64 (ie_Rev cur + 1) → next_rev m e = Rev e.
Proof. intros H1 H2. unfold next_rev. rewrite H1, H2. by rewrite Z.ltb_irrefl. Qed.

Lemma update_spec st L id d exp keep :
  world st → cinv (coll st) L → room (coll st) → enc_good (coll st) → good_data d → in_i64 exp →
  in_u64 id →
  let c := coll st in
  wp (update_ id d exp keep) st
     (λ st' r, world st' ∧
        contract c L (updated c id d (λ old, if keep then old else exp))
          (sidx_update id (stamp_opt (kept_key c id d) d)) (coll st') r ∧
        (∀ cm, r = Ok cm → cm_id cm = id) ∧
        (fenced c = None → Get (index c) id = None → r = Err ErrNotFound ∨ r = Err ErrCrypto)).
Proof.
  intros Hw Hc [[Hr1 Hr2] Hkeys] He Hd Hexp Hid c. unfold update_.
  apply wp_now; [done|]. intros st2 n Hw2 F _ Hcl Hn. fold c in F.
  assert (Hcn : (clockFloor c ≤ n)%Z) by (rewrite <- Hcl; apply F).
  assert (Hrefuse : ∀ st' e, world st' → frame c (coll st') → e ≠ ErrWriteOutcomeUnknown →
    @contract committed c L (updated c id d (λ old, if keep then old else exp))
          (sidx_update id (stamp_opt (kept_key c id d) d)) (coll st') (Err e)).
  { intros st' e Hw' F' Hne. apply contract_refused; [done|by eapply cinv_frame|done]. }
  apply wp_seal.
  { split_and!; [done|by apply Hrefuse|done|auto]. }
  intros d' ep Hs. apply sealed_as_frame with (c := c) in Hs; [|done].
  destruct (sealed_as_good _ _ _ _ He Hd Hs) as [Hd' Hep].
  apply wp_checkFenced.
  { intros Hf. split_and!; [done|by apply Hrefuse|done|].
    intros Hf'. rewrite (fr_fenced _ _ F), Hf' in Hf. by destruct Hf. }
  intros Hf. apply wp_get. rewrite (fr_index _ _ F).
  destruct (Get (index c) id) as [cur|] eqn:Eg.
  2:{ apply wp_throw. split_and!; [done|by apply Hrefuse|done|auto]. }
  rewrite preserve_kept.
  assert (Ek : kept_key (coll st2) id d = kept_key c id d) by (unfold kept_key; by rewrite (fr_sidx _ _ F)).
  rewrite Ek, stamp_entry_kept. apply wp_checkUnique; [done|..].
  { intros st3 f key Hw3 F3. split_and!; [done|apply Hrefuse; [done|by eapply frame_trans|done]|done|done]. }
  intros st3 Hw3 F3 Hnc. pose proof (frame_trans _ _ _ F F3) as F'. cbn [Epoch set_rev_exp ID Op Ts Data CRC].
  set (exp' := if keep then ie_ExpiresAt cur else exp). set (kept := stamp_opt (kept_key c id d) d).
  set (e := MkEntry id OpUpdate (time_of_nanos n) (u64 (ie_Rev cur + 1)) (Some (stamp_opt (kept_key c id d) d')) ep exp' None).
  assert (Hf0 : fenced c = None) by (by rewrite <- (fr_fenced _ _ F)).
  eapply wp_mono.
  - apply (wp_commit_tail "update" e
      (λ p o idx, Set_ idx id (MkIE p o (u64 (ie_Rev cur + 1)) exp' ep)) (sidx_update id kept)
      (MkEvent OpUpdate id (Some kept) (time_of_nanos n)) (MkCommitted id (time_of_nanos n)) st3 L); try done.
    + by eapply cinv_frame.
    + by rewrite (fr_fenced _ _ F').
    + by rewrite (fr_segSeq _ _ F').
    + apply entry_readable; try done; [apply u64_range|by apply stamp_opt_good|].
      unfold exp'. destruct keep; [by eapply cinv_exp_range|done].
    + pose proof (cinv_known_id c L id cur Hc Hf0 Eg). pose proof (fr_idSeq _ _ F'). simpl. lia.
    + intros p o. unfold applyOne. rewrite decide_True by (by right). simpl. f_equal.
      rewrite (next_rev_exact _ _ cur); [done| |done]. rewrite (fr_index _ _ F'). exact Eg.
    + intros p o. apply mayExpire_ok_Set.
  - intros st' r (Hw' & Hct & Hr). split_and!; [done| | |done]; [|by intros cm Hcm; destruct (Hr cm Hcm) as [post ->]].
    eapply contract_frame; [exact F'| |exact Hct]. intros now e' Hnow ->. exists cur, d'.
    pose proof (fr_clock _ _ F3). split_and!; try done.
    + exact (no_conflict_frame _ _ _ _ _ _ F Hnow Hnc).
    + exists n. split; [lia|done].
Qed.

(** ** Delete *)

Definition sidx_delete (id : Z) (k : string) (s : SecondaryIndex) : SecondaryIndex := remove s id.

Definition deleted (c : Collection) (id now : Z) (e : Entry) : Prop :=
  is_Some (Get (index c) id) ∧ ID e = id ∧ ∃ n, (clockFloor c ≤ n ≤ now)%Z ∧ e = NewDelete (time_of_nanos n) id.

Lemma delete_readable n id : (0 ≤ n < two63)%Z → in_u64 id → plain_readable (NewDelete (time_of_nanos n) id).
Proof.
  intros Hn Hid. split; [|done]. split; simpl; try done; [by apply time_of_nanos_wf|..];
    unfold in_u64, in_i64, two64, two63; lia.
Qed.

Lemma applyOne_delete m p o ts id : applyOne m p o (NewDelete ts id) = delete id m.
Proof. done. Qed.

Lemma delete_spec st L id :
  world st → cinv (coll st) L → room (coll st) → in_u64 id →
  let c := coll st in
  wp (Delete id) st
     (λ st' r, world st' ∧ contract c L (deleted c id) (sidx_delete id) (coll st') r ∧
        (∀ cm, r = Ok cm → cm_id cm = id) ∧
        (fenced c = None → Get (index c) id = None → r = Err ErrNotFound)).
Proof.
  intros Hw Hc [[Hr1 Hr2] Hkeys] Hid c. unfold Delete.
  apply wp_now; [done|]. intros st2 n Hw2 F _ Hcl Hn. fold c in F.
  assert (Hcn : (clockFloor c ≤ n)%Z) by (rewrite <- Hcl; apply F).
  assert (Hrefuse : ∀ st' e, world st' → frame c (coll st') → e ≠ ErrWriteOutcomeUnknown →
    @contract committed c L (deleted c id) (sidx_delete id) (coll st') (Err e)).
  { intros st' e Hw' F' Hne. apply contract_refused; [done|by eapply cinv_frame|done]. }
  apply wp_checkFenced.
  { intros Hf. split_and!; [done|by apply Hrefuse|done|].
    intros Hf'. rewrite (fr_fenced _ _ F), Hf' in Hf. by destruct Hf. }
  intros Hf. apply wp_get. rewrite (fr_index _ _ F).
  assert (Hf0 : fenced c = None) by (by rewrite <- (fr_fenced _ _ F)).
  destruct (Get (index c) id) as [cur|] eqn:Eg.
  2:{ apply wp_throw. split_and!; [done|by apply Hrefuse|done|auto]. }
  set (e := NewDelete (time_of_nanos n) id).
  eapply wp_mono.
  - apply (wp_commit_tail "delete" e (λ _ _ idx, Index.Delete idx id) (sidx_delete id)
      (MkEvent OpDelete id None (time_of_nanos n)) (MkCommitted id (time_of_nanos n)) st2 L); try done.
    + by eapply cinv_frame.
    + by rewrite (fr_segSeq _ _ F).
    + by apply delete_readable.
    + pose proof (cinv_known_id c L id cur Hc Hf0 Eg). pose proof (fr_idSeq _ _ F). simpl. lia.
    + intros _ _. apply mayExpire_ok_Delete.
  - intros st' r (Hw' & Hct & Hr). split_and!; [done| | |done]; [|by intros cm Hcm; destruct (Hr cm Hcm) as [post ->]].
    eapply contract_frame; [exact F| |exact Hct]. intros now e' Hnow ->. split_and!; try done.
    exists n. split; [lia|done].
Qed.
