(* ===== verification/CollThm.v ===== *)
(** * Properties of the record operations

    The claims about a collection's reads and writes, from the specifications of
    [CollOps]: the outcome contract, what a read returns, read-your-writes, the
    invariant over runs, recovery by a rebuild, fencing, time to live, quotas. *)
From Stdlib Require Import Ascii Lia ZArith.
From stdpp Require Import prelude gmap strings sorting.
From S2P Require Import Prelude GoNum Json Value Filter GoTime Store Wire Codec Segment Index SecondaryIndex Collection Keyed CollInv CollStep CollOps.

(** ** The writes *)

Inductive wop : Type :=
| WInsert (d : vdata) (explicit : option Z)
| WUpdate (id : Z) (d : vdata)
| WUpdateExpiry (id : Z) (d : vdata) (explicit : option Z)
| WDelete (id : Z).

Definition wrun (o : wop) : M committed :=
  match o with
  | WInsert d explicit => InsertWithExpiry d explicit
  | WUpdate id d => Update id d
  | WUpdateExpiry id d explicit => UpdateWithExpiry id d explicit
  | WDelete id => Delete id
  end.

Definition wop_ok (o : wop) : Prop :=
  match o with
  | WInsert d explicit => good_data d ∧ deadline_ok explicit
  | WUpdate id d => in_u64 id ∧ good_data d
  | WUpdateExpiry id d explicit => in_u64 id ∧ good_data d ∧ deadline_ok explicit
  | WDelete id => in_u64 id
  end.

(** The deadline a write stamps, at a reading of the clock during the write. *)
Definition fresh_deadline (c : Collection) (explicit : option Z) (now exp : Z) : Prop :=
  ∃ n, (clockFloor c ≤ n ≤ now)%Z ∧ exp = resolveInsertExpiryAt c explicit n.

(** The entry a write on [c] that ends at [now] puts in the log. *)
Definition wentry (c : Collection) (o : wop) (now : Z) (e : Entry) : Prop :=
  match o with
  | WInsert d explicit => ∃ exp, fresh_deadline c explicit now exp ∧ inserted c d exp now e
  | WUpdate id d => updated c id d (λ old, old) now e
  | WUpdateExpiry id d explicit => ∃ exp, fresh_deadline c explicit now exp ∧ updated c id d (λ _, exp) now e
  | WDelete id => deleted c id now e
  end.

(** Its effect on a secondary index. *)
Definition wsidx (c : Collection) (o : wop) : string → SecondaryIndex → SecondaryIndex :=
  match o with
  | WInsert d _ => sidx_insert (idSeq c + 1) d
  | WUpdate id d | WUpdateExpiry id d _ => sidx_update id (stamp_opt (kept_key c id d) d)
  | WDelete id => sidx_delete id
  end.

Lemma resolve_frame c c' explicit n :
  frame c c' → resolveInsertExpiryAt c' explicit n = resolveInsertExpiryAt c explicit n.
Proof. intros F. unfold resolveInsertExpiryAt. by rewrite (fr_ttl _ _ F), (fr_cfg _ _ F). Qed.

Lemma kept_key_frame c c' id d : frame c c' → kept_key c' id d = kept_key c id d.
Proof. intros F. unfold kept_key. by rewrite (fr_sidx _ _ F). Qed.

Lemma written_frame c c' id op rev exp d now e :
  frame c c' → written c' id op rev exp d now e → written c id op rev exp d now e.
Proof.
  intros F [H1 H2 H3 H4 (n & Hn & Hts) (d' & Hd & Hs)]. pose proof (fr_clock _ _ F). split; try done.
  - exists n. split; [lia|done].
  - exists d'. split; [done|]. by eapply sealed_as_frame.
Qed.

Lemma inserted_frame c c' d exp now e :
  frame c c' → idSeq c' = idSeq c → inserted c' d exp now e → inserted c d exp now e.
Proof.
  intros F E (H1 & H2 & H3). rewrite E in *. split_and!.
  - by eapply written_frame.
  - by eapply no_conflict_frame.
  - by rewrite <- (quota_frame _ _ _ _ F), <- (entryQuotaBytes_frame _ _ _ F).
Qed.

Lemma updated_frame c c' id d f now e : frame c c' → updated c' id d f now e → updated c id d f now e.
Proof.
  intros F (cur & d' & H1 & H2 & H3 & H4 & H5 & H6 & H7 & H8 & n & Hn & H9). pose proof (fr_clock _ _ F).
  exists cur, d'. rewrite (fr_index _ _ F) in H1. rewrite (kept_key_frame _ _ _ _ F) in H6.
  split_and!; try done; [by eapply sealed_as_frame|by eapply no_conflict_frame|].
  exists n. split; [lia|done].
Qed.

Lemma room_frame c c' : frame c c' → idSeq c' = idSeq c → room c → room c'.
Proof.
  intros F E [[H1 H2] H3]. split; [split; [by rewrite E|by rewrite (fr_segSeq _ _ F)]|].
  unfold keys_utf8. by rewrite (fr_sidx _ _ F).
Qed.

Lemma enc_good_frame c c' : frame c c' → enc_good c → enc_good c'.
Proof. intros F H. unfold enc_good. by rewrite (fr_enc _ _ F). Qed.

Lemma fresh_deadline_mono c explicit now now' exp :
  fresh_deadline c explicit now exp → (now ≤ now')%Z → fresh_deadline c explicit now' exp.
Proof. intros (n & Hn & H) Hle. exists n. split; [lia|done]. Qed.

(** A deadline is resolved at one reading of the clock. *)
Lemma wp_resolve {B} explicit (k : Z → M B) st Q :
  world st → deadline_ok explicit →
  (∀ st' exp, world st' → frame (coll st) (coll st') → idSeq (coll st') = idSeq (coll st) →
     fresh_deadline (coll st) explicit (clockFloor (coll st')) exp → in_i64 exp → wp (k exp) st' Q) →
  wp (bind (resolveInsertExpiry explicit) k) st Q.
Proof.
  intros Hw Hd H. apply wp_bind. unfold resolveInsertExpiry. apply wp_now; [done|].
  intros st' n Hw' F Eid Hcl Hn. apply wp_get. apply wp_ret. rewrite (resolve_frame _ _ _ _ F).
  apply H; [done|done|done| |by apply resolve_range]. exists n. split; [|done].
  pose proof (fr_clock _ _ F). lia.
Qed.

(** The id a write is about. *)
Definition wid (c : Collection) (o : wop) : Z :=
  match o with
  | WInsert _ _ => idSeq c + 1
  | WUpdate id _ | WUpdateExpiry id _ _ | WDelete id => id
  end.

Lemma wrun_spec st L o :
  world st → cinv (coll st) L → room (coll st) → enc_good (coll st) → wop_ok o →
  wp (wrun o) st (λ st' r, world st' ∧
    contract (coll st) L (wentry (coll st) o) (wsidx (coll st) o) (coll st') r ∧
    ∀ cm, r = Ok cm → cm_id cm = wid (coll st) o).
Proof.
  intros Hw Hc Hroom He Ho.
  assert (Hres : ∀ P g i, world st ∧ @contract committed (coll st) L P g (coll st) (Err ErrReservedField) ∧
    ∀ cm : committed, Err ErrReservedField = Ok cm → cm_id cm = i).
  { intros P g i. split_and!; [done| |done]. apply contract_refused; [apply frame_refl|done|done]. }
  destruct o as [d ex|id d|id d ex|id]; cbn [wrun wop_ok wentry wsidx wid] in *.
  - destruct Ho as [Hd Hx]. unfold InsertWithExpiry. apply wp_guard; [intros _; apply Hres|intros _].
    apply wp_resolve; [done|done|]. intros st1 exp Hw1 F Eid Hfd Hexp.
    eapply wp_mono; [apply (insert_spec st1 L d exp); eauto using cinv_frame, room_frame, enc_good_frame|].
    intros st' r (Hw' & Hct & Hcm). rewrite Eid in Hct, Hcm. split_and!; [done| |done].
    eapply contract_frame; [exact F| |exact Hct]. intros now e Hnow Hi. exists exp.
    split; [by eapply fresh_deadline_mono|by eapply inserted_frame].
  - destruct Ho as [Hid Hd]. unfold Update. apply wp_guard; [intros _; apply Hres|intros _].
    eapply wp_mono; [apply (update_spec st L id d 0 true); try done; unfold in_i64, two63; lia|].
    by intros st' r (Hw' & Hct & Hcm & _).
  - destruct Ho as (Hid & Hd & Hx). unfold UpdateWithExpiry. apply wp_guard; [intros _; apply Hres|intros _].
    apply wp_resolve; [done|done|]. intros st1 exp Hw1 F Eid Hfd Hexp.
    eapply wp_mono; [apply (update_spec st1 L id d exp false); eauto using cinv_frame, room_frame, enc_good_frame|].
    intros st' r (Hw' & Hct & Hcm & _). split_and!; [done| |done]. rewrite (kept_key_frame _ _ _ _ F) in Hct.
    eapply contract_frame; [exact F| |exact Hct]. intros now e Hnow Hi. exists exp.
    split; [by eapply fresh_deadline_mono|by eapply updated_frame].
  - eapply wp_mono; [by apply delete_spec|]. by intros st' r (Hw' & Hct & Hcm & _).
Qed.

(** ** Reads *)

(** What [Get_] answers at the instant [n] on a collection of lines [L]. *)
Definition get_answer (c : Collection) (L : list line) (id n : Z) : res cerr Record_ :=
  match records (cdecisions c) L !! id with
  | None => Err ErrNotFound
  | Some (e, rev) =>
      if expired (ExpiresAt e) n then Err ErrNotFound
      else match materialize c (Data e) with
           | None => Err ErrCrypto
           | Some d => Ok (MkRecord id (key_of d) rev (Ts e) d)
           end
  end.

Lemma segmentByPath_frame c c' p : frame c c' → segmentByPathLocked c' p = segmentByPathLocked c p.
Proof. intros F. unfold segmentByPathLocked. by rewrite (fr_sealed _ _ F), (fr_active _ _ F). Qed.

Lemma get_spec st L id :
  world st → cinv (coll st) L → fenced (coll st) = None →
  wp (Get_ id) st (λ st' r, world st' ∧ frame (coll st) (coll st') ∧
    idSeq (coll st') = idSeq (coll st) ∧ r = get_answer (coll st) L id (clockFloor (coll st'))).
Proof.
  intros Hw Hc Hf. unfold Get_. apply wp_checkFenced; [rewrite Hf; by intros [? ?]|]. intros _.
  apply wp_bind. unfold getStored. apply wp_get. apply wp_now; [done|].
  intros st1 n Hw1 F Eid Hcl Hn. pose proof (cinv_lookup _ L id Hc Hf) as Hl.
  destruct (records (cdecisions (coll st)) L !! id) as [[e rev]|] eqn:Er.
  - destruct Hl as (loc & seg & -> & <- & Hexp & _ & Hide & Hseg & Hread). cbn [mbind option_bind].
    rewrite Hseg. unfold readLocated. rewrite Hexp, Hread, Hide, Z.eqb_refl.
    destruct (expired (ExpiresAt e) n) eqn:Ex.
    + apply wp_throw. unfold get_answer. by rewrite Hcl, Er, Ex.
    + apply wp_ret. cbn [default]. apply wp_get.
      replace (materialize (coll st1) (Data e)) with (materialize (coll st) (Data e))
        by (unfold materialize; by rewrite (fr_enc _ _ F)).
      destruct (materialize (coll st) (Data e)) eqn:Em; [apply wp_ret|apply wp_throw];
        unfold get_answer; by rewrite Hcl, Er, Ex, Em.
  - rewrite Hl. apply wp_throw. unfold get_answer. by rewrite Er.
Qed.

(** ** Runs *)

Fixpoint wruns (os : list wop) (st : St) : St * list (res cerr committed) :=
  match os with
  | [] => (st, [])
  | o :: os' =>
      let '(st1, r) := wrun o st in
      let '(st2, rs) := wruns os' st1 in
      (st2, r :: rs)
  end.

(** The ids of the acknowledged writes, in order. *)
Definition acked (rs : list (res cerr committed)) : list Z :=
  omap (λ r, match r with Ok cm => Some (cm_id cm) | Err _ => None end) rs.

Definition line_id (x : line) : Z := ID x.1.

Lemma wentry_id c o now e : wentry c o now e → ID e = wid c o.
Proof.
  destruct o; cbn [wentry wid].
  - by intros (? & _ & [] & _).
  - by intros (? & ? & _ & ? & _).
  - by intros (? & _ & ? & ? & _ & ? & _).
  - by intros (_ & ? & _).
Qed.

(** The line of the log that a write which returned [r] accounts for. *)
Definition acked_line (c c' : Collection) (o : wop) (r : res cerr committed) (L : list line) : Prop :=
  match r with
  | Ok cm => ∃ e, L = [stored e] ∧ cm_id cm = ID e ∧ wentry c o (clockFloor c') e
  | Err _ => L = []
  end.

(** The lines of the acknowledged writes of a run: for each of them, in order, the
    entry of that operation on the state it ran in, and none for the others. *)
Fixpoint acked_lines (os : list wop) (st : St) (L : list line) : Prop :=
  match os with
  | [] => L = []
  | o :: os' =>
      let '(st1, r) := wrun o st in
      ∃ L1 L2, L = L1 ++ L2 ∧ acked_line (coll st) (coll st1) o r L1 ∧ acked_lines os' st1 L2
  end.

(** One write adds the line it acknowledges; only a write that fences may leave
    a line it does not acknowledge. *)
Lemma wrun_lines st L o st' r :
  world st → cinv (coll st) L → room (coll st) → enc_good (coll st) → wop_ok o → wrun o st = (st', r) →
  world st' ∧ later (coll st) (coll st') ∧
  ∃ L' extra, cinv (coll st') (L ++ L' ++ extra) ∧ map line_id L' = acked [r] ∧ acked_line (coll st) (coll st') o r L' ∧
    (extra = [] ∨ fenced (coll st) = None ∧ is_Some (fenced (coll st')) ∧ length extra = 1) ∧
    (is_Some (fenced (coll st)) → L' = []).
Proof.
  intros Hw Hc Hr He Ho Hrun.
  destruct (wp_run _ _ _ _ _ (wrun_spec st L o Hw Hc Hr He Ho) Hrun) as (Hw' & [T H] & Hid).
  split_and!; [done|done|].
  assert (Hnone : cinv (coll st') L → acked [r] = [] → (∃ err, r = Err err) → ∃ L' extra,
    cinv (coll st') (L ++ L' ++ extra) ∧ map line_id L' = acked [r] ∧ acked_line (coll st) (coll st') o r L' ∧
    (extra = [] ∨ fenced (coll st) = None ∧ is_Some (fenced (coll st')) ∧ length extra = 1) ∧
    (is_Some (fenced (coll st)) → L' = [])).
  { intros H0 Ha [err ->]. exists [], []. rewrite Ha. simpl. rewrite app_nil_r. split_and!; auto; by left. }
  destruct r as [cm|err].
  - destruct H as (Hf & e & Hwe & Hc' & _). exists [stored e], []. rewrite app_nil_r.
    assert (Hide : cm_id cm = ID e) by (rewrite (Hid cm eq_refl); symmetry; by eapply wentry_id).
    split_and!; [done|by cbn; rewrite Hide|by exists e|by left|rewrite Hf; by intros [? ?]].
  - destruct err; try (apply Hnone; [apply H|done|by eexists]).
    destruct H as (Hf & Hf' & _ & [Hc'|(e & _ & Hc')]); [apply Hnone; [done|done|by eexists]|].
    exists [], [stored e]. split_and!; [done|done|done|right; done|done].
Qed.

(** The counters have room before every write of the run. *)
Fixpoint wruns_room (os : list wop) (st : St) : Prop :=
  match os with
  | [] => True
  | o :: os' => room (coll st) ∧ wruns_room os' (wrun o st).1
  end.

Lemma later_enc_good c c' : later c c' → enc_good c → enc_good c'.
Proof. intros T H. unfold enc_good. by rewrite (lt_enc _ _ T). Qed.

Lemma wruns_lines os st L st' rs :
  world st → cinv (coll st) L → enc_good (coll st) → wruns_room os st → Forall wop_ok os →
  wruns os st = (st', rs) →
  world st' ∧ (is_Some (fenced (coll st)) → is_Some (fenced (coll st')) ∧ acked rs = []) ∧
  ∃ L' extra, cinv (coll st') (L ++ L' ++ extra) ∧ map line_id L' = acked rs ∧ acked_lines os st L' ∧
    (extra = [] ∨ fenced (coll st) = None ∧ is_Some (fenced (coll st')) ∧ length extra = 1).
Proof.
  revert st L rs. induction os as [|o os IH]; intros st L rs Hw Hc He Hroom Ho Hrun; cbn [wruns] in Hrun.
  { injection Hrun as <- <-. split_and!; [done|done|]. exists [], []. rewrite app_nil_r. split_and!; try done; by left. }
  destruct (wrun o st) as [st1 r] eqn:E1. destruct (wruns os st1) as [st2 rs2] eqn:E2.
  injection Hrun as <- <-. apply Forall_cons in Ho as [Ho Hos]. cbn [wruns_room] in Hroom. rewrite E1 in Hroom.
  destruct Hroom as [Hr Hroom].
  destruct (wrun_lines _ _ _ _ _ Hw Hc Hr He Ho E1) as (Hw1 & T & L1 & x1 & Hc1 & Ha1 & Hl1 & Hx1 & Hn1).
  destruct (IH st1 _ rs2 Hw1 Hc1 (later_enc_good _ _ T He) Hroom Hos E2)
    as (Hw2 & Hf2 & L2 & x2 & Hc2 & Ha2 & Hl2 & Hx2).
  assert (Hacked : acked (r :: rs2) = acked [r] ++ acked rs2) by (unfold acked; cbn; by destruct r).
  split_and!; [done| |].
  - intros Hf. rewrite Hacked, <- Ha1, (Hn1 Hf). apply Hf2. by rewrite (lt_fence _ _ T Hf).
  - destruct Hx1 as [->|(Hf0 & Hf1 & Hlen1)].
    + rewrite app_nil_r in Hc1, Hc2. exists (L1 ++ L2), x2. split_and!.
      * by rewrite <- app_assoc in Hc2 |- *.
      * by rewrite map_app, Ha1, Ha2, Hacked.
      * cbn [acked_lines]. rewrite E1. by exists L1, L2.
      * destruct Hx2 as [?|(Hf1 & ? & ?)]; [by left|right]. split_and!; try done.
        destruct (fenced (coll st)) eqn:Ef; [|done].
        rewrite (lt_fence _ _ T) in Hf1 by (by rewrite Ef). by rewrite Ef in Hf1.
    + destruct (Hf2 Hf1) as [Hff Hno]. rewrite Hno in Ha2. apply map_eq_nil in Ha2 as ->.
      destruct Hx2 as [->|(Hf1' & _)]; [|by rewrite Hf1' in Hf1; destruct Hf1].
      exists L1, x1. rewrite app_nil_r in Hc2. split_and!; [done| | |right; done].
      * by rewrite Ha1, Hacked, Hno, app_nil_r.
      * cbn [acked_lines]. rewrite E1. exists L1, []. by rewrite app_nil_r.
Qed.

(** ** The size of the index *)

Lemma cinv_Len c L : cinv c L → fenced c = None → Len (index c) = base.size (records (cdecisions c) L).
Proof.
  intros Hc Hf. unfold Len. rewrite <- !size_dom. f_equal. apply set_eq. intros id.
  rewrite !elem_of_dom. pose proof (cinv_lookup c L id Hc Hf) as H. unfold Get in H.
  destruct (records _ L !! id) as [[e rev]|].
  - destruct H as (loc & seg & -> & _). by split; eauto.
  - rewrite H. done.
Qed.

Lemma cinv_no_record c L id :
  cinv c L → fenced c = None → (idSeq c < id)%Z → records (cdecisions c) L !! id = None.
Proof.
  intros Hc Hf Hid. pose proof (cinv_lookup c L id Hc Hf) as Hl.
  destruct (records _ L !! id) as [[e rev]|]; [|done]. destruct Hl as (loc & seg & Hg & _).
  unfold Get in Hg. by rewrite (cinv_fresh_id c L id) in Hg.
Qed.

(** ** A fenced collection *)

Lemma wrun_fenced st o :
  world st → is_Some (fenced (coll st)) → (0 ≤ idSeq (coll st))%Z → room (coll st) →
  wp (wrun o) st (λ st' r, frame (coll st) (coll st') ∧ ∃ e, r = Err e ∧ e ≠ ErrWriteOutcomeUnknown).
Proof.
  intros Hw Hf H0 Hroom.
  assert (Hins : ∀ st1 d exp, world st1 → frame (coll st) (coll st1) → idSeq (coll st1) = idSeq (coll st) →
    wp (insert d exp) st1 (λ st' r, frame (coll st) (coll st') ∧ ∃ e, r = Err e ∧ e ≠ ErrWriteOutcomeUnknown)).
  { intros st1 d exp Hw1 F1 E1. unfold insert. apply wp_next_id; [done|lia|by rewrite E1; apply Hroom|].
    intros st2 Hw2 F2 _. apply wp_now; [done|]. intros st3 n Hw3 F3 _ _ _.
    pose proof (frame_trans _ _ _ F1 (frame_trans _ _ _ F2 F3)) as F.
    apply wp_seal; [split; [done|eauto]|]. intros d' ep _. apply wp_get.
    apply wp_checkFenced; [intros _; split; [done|eauto]|]. intros Hn.
    rewrite (fr_fenced _ _ F) in Hn. rewrite Hn in Hf. by destruct Hf. }
  assert (Hupd : ∀ st1 id d exp keep, world st1 → frame (coll st) (coll st1) →
    wp (update_ id d exp keep) st1 (λ st' r, frame (coll st) (coll st') ∧ ∃ e, r = Err e ∧ e ≠ ErrWriteOutcomeUnknown)).
  { intros st1 id d exp keep Hw1 F1. unfold update_. apply wp_now; [done|]. intros st3 n Hw3 F3 _ _ _.
    pose proof (frame_trans _ _ _ F1 F3) as F. apply wp_seal; [split; [done|eauto]|]. intros d' ep _.
    apply wp_checkFenced; [intros _; split; [done|eauto]|]. intros Hn.
    rewrite (fr_fenced _ _ F) in Hn. rewrite Hn in Hf. by destruct Hf. }
  assert (Hres : ∀ e, e ≠ ErrWriteOutcomeUnknown → frame (coll st) (coll st) ∧
     ∃ e', @Err cerr committed e = Err e' ∧ e' ≠ ErrWriteOutcomeUnknown).
  { intros e He. split; [apply frame_refl|eauto]. }
  assert (Hresolve : ∀ explicit B (k : Z → M B) Q,
    (∀ st1 exp, world st1 → frame (coll st) (coll st1) → idSeq (coll st1) = idSeq (coll st) → wp (k exp) st1 Q) →
    wp (bind (resolveInsertExpiry explicit) k) st Q).
  { intros explicit B k Q H. apply wp_bind. unfold resolveInsertExpiry. apply wp_now; [done|].
    intros st1 n Hw1 F1 E1 _ _. apply wp_get. apply wp_ret. by apply H. }
  destruct o as [d ex|id d|id d ex|id]; cbn [wrun].
  - unfold InsertWithExpiry. apply wp_guard; intros _; [by apply Hres|]. apply Hresolve. auto.
  - unfold Update. apply wp_guard; intros _; [by apply Hres|]. apply Hupd; [done|apply frame_refl].
  - unfold UpdateWithExpiry. apply wp_guard; intros _; [by apply Hres|]. apply Hresolve. auto.
  - unfold Delete. apply wp_now; [done|]. intros st1 n Hw1 F1 _ _ _.
    apply wp_checkFenced; [intros _; split; [done|eauto]|]. intros Hn.
    rewrite (fr_fenced _ _ F1) in Hn. rewrite Hn in Hf. by destruct Hf.
Qed.

(** ** Properties *)

(** Claim C1: the outcome contract of every record write (insert, update with or
    without a new deadline, delete), for every outcome of the file calls.  A
    write that succeeds has put exactly one line in the log, the entry of the
    operation, and has published it to the index, the secondary indexes and the
    replication feed; a write that fails with anything but an unknown outcome
    has changed none of them; an unknown outcome fences the collection, and the
    log holds the old lines, or those and the one of the write. *)
Theorem write_contract st L o st' r :
  world st → cinv (coll st) L → room (coll st) → enc_good (coll st) → wop_ok o →
  wrun o st = (st', r) →
  contract (coll st) L (wentry (coll st) o) (wsidx (coll st) o) (coll st') r.
Proof.
  intros Hw Hc Hr He Ho Hrun.
  by destruct (wp_run _ _ _ _ _ (wrun_spec st L o Hw Hc Hr He Ho) Hrun) as (_ & H & _).
Qed.

(** Claim C2: over any run of record writes (inserts, updates with or without a new
    deadline, deletes) under any failures of the file calls, the log keeps its
    lines and gains exactly one line for each acknowledged write, in order: the
    entry of that operation on the state it ran in, with the id it returned, its
    op, revision, deadline, timestamp and stored data.  At most one more line may
    be there, and only when the collection ended fenced.  (The data written are
    non-empty maps of values as JSON decoding yields them, with strings in UTF-8,
    and so is what the encryptor makes of them; ids and segment numbers stay below
    2^64.) *)
Theorem runs_keep_acknowledged os st L st' rs :
  world st → cinv (coll st) L → enc_good (coll st) → wruns_room os st → Forall wop_ok os →
  wruns os st = (st', rs) →
  ∃ L' extra, cinv (coll st') (L ++ L' ++ extra) ∧ acked_lines os st L' ∧ map line_id L' = acked rs ∧
    (fenced (coll st') = None → extra = []) ∧ length extra ≤ 1.
Proof.
  intros Hw Hc He Hroom Ho Hrun.
  destruct (wruns_lines _ _ _ _ _ Hw Hc He Hroom Ho Hrun) as (_ & _ & L' & extra & Hc' & Ha & Hal & Hx).
  exists L', extra. split_and!; [done|done|done|..]; destruct Hx as [->|(_ & Hf & Hl)]; simpl; try done; try lia.
  intros Hn. rewrite Hn in Hf. by destruct Hf.
Qed.

(** a read returns the record the log holds: the data, timestamp and
    revision of the last write of the id, or not-found when there is none, it
    was deleted, or its deadline has passed at the clock reading of the read,
    which is never before an earlier one. *)
Theorem get_returns_record st L id st' r :
  world st → cinv (coll st) L → fenced (coll st) = None → Get_ id st = (st', r) →
  (clockFloor (coll st) ≤ clockFloor (coll st'))%Z ∧
  r = get_answer (coll st) L id (clockFloor (coll st')).
Proof.
  intros Hw Hc Hf Hrun.
  destruct (wp_run _ _ _ _ _ (get_spec st L id Hw Hc Hf) Hrun) as (_ & F & _ & ->).
  split; [apply F|done].
Qed.

(** What a round trip through the encryptor promises. *)
Definition enc_roundtrip (c : Collection) (d : vdata) : Prop :=
  ∀ en d', enc c = Some en → enc_encrypt en d = Some d' → enc_materialize en d' [] = Some d.

Lemma sealed_materialize c c' d d' ep :
  enc c' = enc c → enc_roundtrip c d → sealed_as c d d' ep → materialize c' (Some d') = Some d.
Proof.
  unfold enc_roundtrip, sealed_as, materialize. intros -> Hrt. destruct (enc c) as [en|].
  - intros [H _]. simpl. by eapply Hrt.
  - by intros [-> _].
Qed.

Lemma records_inserted c L e id d exp now :
  records (cdecisions c) L !! id = None → written c id OpInsert 1 exp d now e →
  records (cdecisions c) (L ++ [stored e]) =
  <[id := (set_crc e (checksum e), 1%Z)]> (records (cdecisions c) L).
Proof.
  intros Hn [H1 H2 H3 H4 _ _]. rewrite records_snoc. unfold rec_step, stored. cbn [fst snd entryVisible].
  cbn [Op ID Rev set_crc]. rewrite decide_True by (by left). rewrite H1, Hn, H3. done.
Qed.

(** read your writes: after an insert that succeeded and did not leave
    the collection fenced, a read of the returned id gives the data that was
    inserted, at revision 1, unless its deadline has passed. *)
Theorem insert_then_get st L d explicit st1 cm id st2 r :
  world st → cinv (coll st) L → room (coll st) → enc_good (coll st) → enc_roundtrip (coll st) d →
  good_data d → deadline_ok explicit →
  InsertWithExpiry d explicit st = (st1, Ok cm) → fenced (coll st1) = None → id = cm_id cm →
  Get_ id st1 = (st2, r) →
  ∃ exp, fresh_deadline (coll st) explicit (clockFloor (coll st1)) exp ∧
    if expired exp (clockFloor (coll st2)) then r = Err ErrNotFound
    else ∃ ts, r = Ok (MkRecord id (key_of d) 1 ts d).
Proof.
  intros Hw Hc Hr He Hrt Hd Hx Hrun Hf1 -> Hget.
  destruct (wp_run _ _ _ _ _ (wrun_spec st L (WInsert d explicit) Hw Hc Hr He (conj Hd Hx)) Hrun)
    as (Hw1 & [T (Hf & e & (exp & Hfd & Hi) & Hc1 & _)] & Hid).
  destruct (wp_run _ _ _ _ _ (get_spec st1 _ (cm_id cm) Hw1 Hc1 Hf1) Hget) as (_ & _ & _ & ->).
  exists exp. split; [done|]. destruct Hi as (Hwr & _).
  rewrite (Hid cm eq_refl). cbn [wid]. unfold get_answer. rewrite (lt_decisions _ _ T).
  rewrite (records_inserted _ _ _ _ _ _ _ (cinv_no_record _ L (idSeq (coll st) + 1) Hc Hf ltac:(lia)) Hwr), lookup_insert_eq.
  destruct Hwr as [_ _ _ Hexp _ (d' & Hdat & Hs)]. cbn [ExpiresAt set_crc Data]. rewrite Hexp.
  destruct (expired exp _); [done|]. rewrite Hdat.
  rewrite (sealed_materialize (coll st) _ d d' _ (lt_enc _ _ T) Hrt Hs). eauto.
Qed.

(** a record hidden by its deadline stays hidden: once a read has
    answered not-found, the next read of the id does too, even if the wall
    clock steps back in between. *)
Theorem hidden_stays_hidden st L id st1 st2 r :
  world st → cinv (coll st) L → fenced (coll st) = None →
  Get_ id st = (st1, Err ErrNotFound) → Get_ id st1 = (st2, r) → r = Err ErrNotFound.
Proof.
  intros Hw Hc Hf H1 H2.
  destruct (wp_run _ _ _ _ _ (get_spec st L id Hw Hc Hf) H1) as (Hw1 & F & _ & Ha).
  assert (Hf1 : fenced (coll st1) = None) by (by rewrite (fr_fenced _ _ F)).
  destruct (wp_run _ _ _ _ _ (get_spec st1 L id Hw1 (cinv_frame _ _ _ F Hc) Hf1) H2) as (_ & F2 & _ & ->).
  pose proof (fr_clock _ _ F2) as Hclk. unfold get_answer in *. rewrite (fr_decisions _ _ F).
  destruct (records (cdecisions (coll st)) L !! id) as [[e rev]|]; [|done].
  destruct (expired (ExpiresAt e) (clockFloor (coll st1))) eqn:Ex.
  - assert (expired (ExpiresAt e) (clockFloor (coll st2)) = true) as ->; [|done].
    unfold expired in *. apply andb_true_iff in Ex as [-> Ex]. apply Z.leb_le. apply Z.leb_le in Ex. lia.
  - destruct (materialize (coll st) (Data e)); done.
Qed.

(** recovery: replaying the segments of a collection, listed in any
    order, succeeds and gives exactly the index an unfenced collection has in
    memory; after an unknown outcome it gives the index of the lines that
    reached the log. *)
Theorem rebuild_agrees c L segs :
  cinv c L → poisoned (active c) = false → (segSeq c < two64)%Z → segs ≡ₚ all_segments c →
  ∃ idx, Rebuild newIndex segs (cdecisions c) = Ok idx ∧
    (fenced c = None → entries idx = entries (index c)) ∧
    ∀ id, Get idx id = None ↔ records (cdecisions c) L !! id = None.
Proof.
  intros (es & ea & Hc & ->) Hp Hq Hperm.
  pose proof (numbered_sorted c (all_segments c) (ca_nums _ _ _ Hc) Hq) as Hsort.
  assert (Hlen : length (sealedSegs c) = length es) by (by eapply Forall2_length; apply Hc).
  assert (Hall : holds_all (all_segments c) (es ++ [ea])).
  { apply Forall2_app; [apply Hc|]. apply List.Forall2_cons; [|constructor]. split; [apply Hc|done]. }
  assert (Hlog : full_log (all_segments c) (es ++ [ea]) = clog c es ea).
  { unfold full_log, all_segments, clog. rewrite zip_with_app by done. rewrite concat_app. simpl.
    by rewrite app_nil_r. }
  unfold Rebuild. rewrite (sortSegments_perm (all_segments c)), Hsort;
    [|done|by eapply numbered_NoDup, (ca_nums _ _ _ Hc)].
  rewrite (rebuild_loop_spec _ _ _ _ Hall). simpl. eexists. split; [done|].
  assert (He : ∀ m, entries (noteExpiring (MkIndex m false)) = m) by done.
  rewrite He, Hlog. split.
  - intros Hf. symmetry. by apply Hc.
  - intros id. unfold Get. rewrite He, <- (clog_lines c) by done.
    pose proof (replay_records (cdecisions c) (clog c es ea) id) as H.
    destruct (records _ _ !! id) as [[e rev]|]; [|done].
    destruct H as (p & off & tx & _ & _ & ->). done.
Qed.

(** a fenced collection refuses every write and every read: nothing is
    appended, no index changes, and the fence stays. *)
Theorem fenced_refuses st L o id :
  world st → cinv (coll st) L → room (coll st) → is_Some (fenced (coll st)) →
  (∀ st' r, wrun o st = (st', r) → frame (coll st) (coll st') ∧ ∃ e, r = Err e ∧ e ≠ ErrWriteOutcomeUnknown) ∧
  Get_ id st = (st, Err ErrCollectionFenced).
Proof.
  intros Hw Hc Hr Hf. split.
  - intros st' r Hrun. destruct Hc as (es & ea & Hc & _). pose proof (ca_seq _ _ _ Hc).
    exact (wp_run _ _ _ _ _ (wrun_fenced st o Hw Hf ltac:(lia) Hr) Hrun).
  - unfold Get_, checkFenced, bind, get_coll, guard_err, is_fenced. rewrite bool_decide_true by done. done.
Qed.

(** an insert that succeeds under a record quota leaves at most that
    many records. *)
Theorem quota_respected st L d explicit st1 cm :
  world st → cinv (coll st) L → room (coll st) → enc_good (coll st) → good_data d → deadline_ok explicit →
  (Z.of_nat (Len (index (coll st))) + 1 < two64)%Z → (0 < MaxRecords (cfg (coll st)))%Z →
  InsertWithExpiry d explicit st = (st1, Ok cm) → fenced (coll st1) = None →
  (Z.of_nat (Len (index (coll st1))) ≤ MaxRecords (cfg (coll st1)))%Z.
Proof.
  intros Hw Hc Hr He Hd Hx Hlen Hmax Hrun Hf1.
  destruct (wp_run _ _ _ _ _ (wrun_spec st L (WInsert d explicit) Hw Hc Hr He (conj Hd Hx)) Hrun)
    as (Hw1 & [T (Hf & e & (exp & Hfd & Hwr & _ & Hq) & Hc1 & _)] & Hid).
  rewrite (lt_cfg _ _ T).
  assert (Hnew : Len (index (coll st1)) = S (Len (index (coll st)))).
  { rewrite (cinv_Len _ _ Hc1 Hf1), (cinv_Len _ _ Hc Hf), (lt_decisions _ _ T).
    pose proof (cinv_no_record _ L (idSeq (coll st) + 1) Hc Hf ltac:(lia)) as Hno.
    by rewrite (records_inserted _ _ _ _ _ _ _ Hno Hwr), map_size_insert_None. }
  rewrite Hnew. unfold quota_exceeded in Hq. apply orb_false_iff in Hq as [Hq _].
  apply andb_false_iff in Hq as [Hq|Hq]; apply Z.ltb_ge in Hq; [lia|].
  rewrite u64_id in Hq by (unfold in_u64; lia). lia.
Qed.

(** ** Witnesses *)

Definition sample_cfg : CollectionConfig := MkCfg 1000000 SyncModeAlways 0 2 0 4 true (SpecFloat.S754_zero false).

Definition sample_coll : Collection :=
  MkColl "d" sample_cfg [] (MkSeg "d/seg_000001.ndjson" [] 0 false HOpen false) newIndex 0 1 None None
    0 0 ∅ 0 ∅ None (Some []) 0 None false false.

Definition res_value {E A} (r : res E A) : option A := match r with Ok a => Some a | Err _ => None end.

Definition sample_st (fs : list fault) (w : list Z) : St := MkSt sample_coll fs w.

Lemma sample_cinv : cinv sample_coll [].
Proof.
  exists [], []. split; [|done]. split; simpl; try done.
  - constructor.
  - split; simpl; [done|constructor|done].
  - exists [1%Z]. split_and!; [reflexivity|repeat constructor|apply Forall_singleton; simpl; lia].
Qed.

Lemma sample_world fs : world (sample_st fs [5; 3]%Z).
Proof. split; simpl; unfold two63; [lia|]. repeat (constructor; [lia|]). constructor. Qed.

(** A collection without keyed records. *)
Definition room_check (c : Collection) : bool :=
  ((idSeq c + 1 <? two64) && (segSeq c + 1 <? two64))%Z && match sidxMap c !! KeyField with None => true | Some _ => false end.

Lemma room_checked c : room_check c = true → room c.
Proof.
  unfold room_check. rewrite !andb_true_iff, !Z.ltb_lt. intros [H1 H2]. split; [done|].
  intros s id k E. by rewrite E in H2.
Qed.

Lemma sample_room : room sample_coll.
Proof. apply room_checked. vm_compute. reflexivity. Qed.

Lemma sample_enc : enc_good sample_coll.
Proof. done. Qed.

Lemma sample_good : good_data sample_data.
Proof. split; [apply sample_entry_wf|discriminate]. Qed.

(** The write of the line fails after three bytes; the rollback succeeds. *)
Lemma write_contract_witness :
  ∃ st' r, wrun (WInsert sample_data None) (sample_st [FFail 3; FOk] [5; 3]%Z) = (st', Err r) ∧
    index (coll st') = index sample_coll ∧ cinv (coll st') [].
Proof.
  destruct (wrun (WInsert sample_data None) (sample_st [FFail 3; FOk] [5; 3]%Z)) as [st' r] eqn:E.
  pose proof (write_contract _ [] (WInsert sample_data None) _ _ (sample_world _) sample_cinv sample_room sample_enc
                (conj sample_good I) E) as [_ H].
  assert (Hr : (wrun (WInsert sample_data None) (sample_st [FFail 3; FOk] [5; 3]%Z)).2 = Err (ErrAppend ErrIO))
    by (vm_compute; reflexivity).
  rewrite E in Hr. cbn [snd] in Hr. rewrite Hr in H |- *. exists st', (ErrAppend ErrIO).
  destruct H as (H1 & _ & H2 & _). split; [reflexivity|]. split; [exact H2|exact H1].
Defined.

Lemma runs_keep_acknowledged_witness :
  ∃ st' rs, wruns [WInsert sample_data None; WDelete 1] (sample_st [] [5; 3]%Z) = (st', rs) ∧
    acked rs = [1; 1]%Z ∧ ∃ L', cinv (coll st') L' ∧ map line_id L' = [1; 1]%Z.
Proof.
  destruct (wruns [WInsert sample_data None; WDelete 1] (sample_st [] [5; 3]%Z)) as [st' rs] eqn:E.
  exists st', rs.
  assert (Ha : acked (wruns [WInsert sample_data None; WDelete 1] (sample_st [] [5; 3]%Z)).2 = [1; 1]%Z)
    by (vm_compute; reflexivity).
  assert (Hf : fenced (coll (wruns [WInsert sample_data None; WDelete 1] (sample_st [] [5; 3]%Z)).1) = None)
    by (vm_compute; reflexivity).
  rewrite E in Ha, Hf. cbn [fst snd] in Ha, Hf. split_and!; [reflexivity|done|].
  assert (Hroom : wruns_room [WInsert sample_data None; WDelete 1] (sample_st [] [5; 3]%Z)).
  { cbn [wruns_room]. split; [exact sample_room|]. split; [|exact I].
    apply room_checked. vm_compute. reflexivity. }
  assert (Hok : Forall wop_ok [WInsert sample_data None; WDelete 1]).
  { apply Forall_cons. split; [exact (conj sample_good I)|]. apply Forall_singleton.
    split; apply Z.leb_le || apply Z.ltb_lt; reflexivity. }
  destruct (runs_keep_acknowledged _ _ [] st' rs (sample_world _) sample_cinv sample_enc Hroom Hok E)
    as (L' & extra & Hc & _ & Hl & Hx & _).
  exists L'. rewrite (Hx Hf), app_nil_r in Hc. split; [exact Hc|]. rewrite Hl. exact Ha.
Defined.

Lemma get_returns_record_witness :
  ∃ st', Get_ 1 (sample_st [] [5; 3]%Z) = (st', Err ErrNotFound) ∧
    Err ErrNotFound = get_answer sample_coll [] 1 (clockFloor (coll st')).
Proof.
  destruct (Get_ 1 (sample_st [] [5; 3]%Z)) as [st' r] eqn:E.
  destruct (get_returns_record _ [] 1 st' r (sample_world _) sample_cinv eq_refl E) as [_ H].
  assert (Hr : (Get_ 1 (sample_st [] [5; 3]%Z)).2 = Err ErrNotFound) by (vm_compute; reflexivity).
  rewrite E in Hr. cbn [snd] in Hr. exists st'. rewrite Hr in H |- *. split; [reflexivity|exact H].
Defined.

Lemma insert_then_get_witness :
  ∃ st1 cm st2 r, InsertWithExpiry sample_data None (sample_st [] [5; 3]%Z) = (st1, Ok cm) ∧
    Get_ (cm_id cm) st1 = (st2, r) ∧ ∃ ts, r = Ok (MkRecord 1 (key_of sample_data) 1 ts sample_data).
Proof.
  destruct (InsertWithExpiry sample_data None (sample_st [] [5; 3]%Z)) as [st1 r1] eqn:E.
  assert (Hf : fenced (coll (InsertWithExpiry sample_data None (sample_st [] [5; 3]%Z)).1) = None) by (vm_compute; reflexivity).
  assert (Hid : (cm_id <$> res_value (InsertWithExpiry sample_data None (sample_st [] [5; 3]%Z)).2) = Some 1%Z) by (vm_compute; reflexivity).
  rewrite E in Hf, Hid. cbn [fst snd] in Hf, Hid.
  destruct r1 as [cm|]; [|discriminate Hid]. injection Hid as Hid. destruct (Get_ (cm_id cm) st1) as [st2 r] eqn:E2.
  exists st1, cm, st2, r. split_and!; [reflexivity|exact E2|].
  destruct (insert_then_get _ [] sample_data None st1 cm (cm_id cm) st2 r (sample_world _) sample_cinv sample_room
    sample_enc ltac:(by intros ?) sample_good I E Hf eq_refl E2) as (exp & (n & _ & ->) & H).
  rewrite Hid in H. exact H.
Defined.

(** The record expires at 4; the clock reads 5 and then 3. *)
Lemma hidden_stays_hidden_witness :
  ∃ st1 cm st2 st3 r, InsertWithExpiry sample_data (Some 4%Z) (sample_st [] [1; 2; 3; 5; 3]%Z) = (st1, Ok cm) ∧
    Get_ 1 st1 = (st2, Err ErrNotFound) ∧ Get_ 1 st2 = (st3, r) ∧ r = Err ErrNotFound.
Proof.
  destruct (InsertWithExpiry sample_data (Some 4%Z) (sample_st [] [1; 2; 3; 5; 3]%Z)) as [st1 r1] eqn:E.
  set (run := InsertWithExpiry sample_data (Some 4%Z) (sample_st [] [1; 2; 3; 5; 3]%Z)) in E.
  assert (Hf : fenced (coll run.1) = None) by (vm_compute; reflexivity).
  assert (Hid : (cm_id <$> res_value run.2) = Some 1%Z) by (vm_compute; reflexivity).
  assert (Hr2 : (Get_ 1 run.1).2 = Err ErrNotFound) by (vm_compute; reflexivity).
  rewrite E in Hf, Hid, Hr2. cbn [fst snd] in Hf, Hid, Hr2. unfold run in E.
  destruct r1 as [cm|]; [|discriminate Hid]. destruct (Get_ 1 st1) as [st2 r2] eqn:E2.
  cbn [snd] in Hr2. subst r2. destruct (Get_ 1 st2) as [st3 r3] eqn:E3.
  assert (Hw : world (sample_st [] [1; 2; 3; 5; 3]%Z))
    by (split; simpl; unfold two63; [lia|]; repeat (constructor; [lia|]); constructor).
  assert (Hok : wop_ok (WInsert sample_data (Some 4%Z)))
    by (split; [exact sample_good|split; apply Z.leb_le || apply Z.ltb_lt; reflexivity]).
  destruct (wp_run _ _ _ _ _ (wrun_spec _ [] (WInsert sample_data (Some 4%Z)) Hw sample_cinv sample_room sample_enc Hok) E) as (Hw1 & [_ (_ & e & _ & Hc1 & _)] & _).
  exists st1, cm, st2, st3, r3. split_and!; [reflexivity|exact E2|exact E3|].
  exact (hidden_stays_hidden st1 _ 1 st2 st3 r3 Hw1 Hc1 Hf E2 E3).
Defined.

Lemma rebuild_agrees_witness :
  ∃ idx, Rebuild newIndex [active sample_coll] None = Ok idx ∧ entries idx = ∅.
Proof.
  destruct (rebuild_agrees sample_coll [] [active sample_coll] sample_cinv eq_refl
    ltac:(by vm_compute) ltac:(reflexivity)) as (idx & H1 & H2 & _).
  exists idx. split; [exact H1|]. by apply H2.
Defined.

Lemma fenced_refuses_witness :
  ∃ st' e, wrun (WDelete 1) (MkSt (set_fenced sample_coll (Some "seal")) [] []) = (st', Err e) ∧
    frame (set_fenced sample_coll (Some "seal")) (coll st').
Proof.
  set (st := MkSt (set_fenced sample_coll (Some "seal")) [] []).
  destruct (wrun (WDelete 1) st) as [st' r] eqn:E.
  destruct (fenced_refuses st [] (WDelete 1) 1) as [H _].
  - split; simpl; unfold two63; [lia|constructor].
  - apply cinv_fence, sample_cinv.
  - apply sample_room.
  - by eexists.
  - destruct (H st' r E) as [F (e & -> & _)]. by exists st', e.
Defined.

Lemma quota_respected_witness :
  ∃ st1 cm, InsertWithExpiry sample_data None (sample_st [] [5; 3]%Z) = (st1, Ok cm) ∧
    (Z.of_nat (Len (index (coll st1))) ≤ MaxRecords (cfg (coll st1)))%Z.
Proof.
  destruct (InsertWithExpiry sample_data None (sample_st [] [5; 3]%Z)) as [st1 r1] eqn:E.
  assert (Hf : fenced (coll (InsertWithExpiry sample_data None (sample_st [] [5; 3]%Z)).1) = None) by (vm_compute; reflexivity).
  assert (Hok : is_ok (InsertWithExpiry sample_data None (sample_st [] [5; 3]%Z)).2 = true) by (vm_compute; reflexivity).
  rewrite E in Hf, Hok. cbn [fst snd] in Hf, Hok.
  destruct r1 as [cm|]; [|discriminate Hok]. exists st1, cm. split; [reflexivity|].
  apply (quota_respected _ [] sample_data None st1 cm (sample_world _) sample_cinv sample_room sample_enc
    sample_good I ltac:(by vm_compute) ltac:(by vm_compute) E Hf).
Defined.
