(* ===== verification/Unique.v ===== *)
(** * Secondary indexes and the log

    The secondary indexes of a collection without encryption follow its records,
    and a unique index keeps two live records from holding one value. *)
From Stdlib Require Import Ascii Lia ZArith.
From stdpp Require Import prelude gmap strings sorting.
From S2P Require Import Prelude GoNum Json Value Filter GoTime Store Wire Codec Segment Index SecondaryIndex Collection Keyed CollInv CollStep CollOps CollThm.

(** ** The values of a field *)

(** The value an index on [f] takes from a record, if any. *)
Definition indexed (f : string) (d : vdata) : option value :=
  v ← d !! f;
  if decide (f = KeyField) then match v with VStr _ => Some v | _ => None end else Some v.

Definition field_map (f : string) (G : gmap Z vdata) : gmap Z value := omap (indexed f) G.

(** The data of the records of a log. *)
Definition plain (ds : option decisions) (L : list line) : gmap Z vdata :=
  (λ r, default ∅ (Data r.1)) <$> records ds L.

(** Every secondary index is the index of its field over the records [G]. *)
Definition sidx_ok (c : Collection) (G : gmap Z vdata) : Prop :=
  map_Forall (λ f s, field s = f ∧ sidx_repr s (field_map f G)) (sidxMap c).

Lemma indexed_accepts s f d v :
  field s = f → d !! f = Some v → indexed f d = if accepts s v then Some v else None.
Proof. intros <- H. unfold indexed, accepts. rewrite H. simpl. case_decide; [|done]. by destruct v. Qed.

Lemma field_map_lookup f G id : field_map f G !! id = (G !! id) ≫= indexed f.
Proof. unfold field_map. apply lookup_omap. Qed.

Lemma field_map_insert f G id d :
  field_map f (<[id := d]> G) =
  match indexed f d with Some v => <[id := v]> (field_map f G) | None => delete id (field_map f G) end.
Proof.
  apply map_eq. intros i. rewrite field_map_lookup. destruct (decide (i = id)) as [->|Hne].
  - rewrite lookup_insert_eq. simpl. destruct (indexed f d); by rewrite ?lookup_insert_eq, ?lookup_delete_eq.
  - rewrite lookup_insert_ne by done. rewrite <- field_map_lookup.
    destruct (indexed f d); by rewrite ?lookup_insert_ne, ?lookup_delete_ne.
Qed.

Lemma field_map_delete f G id : field_map f (delete id G) = delete id (field_map f G).
Proof.
  apply map_eq. intros i. rewrite field_map_lookup. destruct (decide (i = id)) as [->|Hne].
  - by rewrite !lookup_delete_eq.
  - rewrite !lookup_delete_ne by done. by rewrite field_map_lookup.
Qed.

(** ** One index under one write *)

Lemma accepted_insert s f id d v m :
  field s = f → d !! f = Some v →
  accepted s v id m = match indexed f d with Some v => <[id := v]> m | None => delete id m end.
Proof. intros Hf Hv. unfold accepted. rewrite (indexed_accepts s f d v Hf Hv). by destruct (accepts s v). Qed.

Lemma sidx_insert_ok f s G id d :
  field s = f → sidx_repr s (field_map f G) → G !! id = None → data_wf d →
  field (sidx_insert id d f s) = f ∧ sidx_repr (sidx_insert id d f s) (field_map f (<[id := d]> G)).
Proof.
  intros Hf Hr Hn Hwf. unfold sidx_insert. rewrite field_map_insert.
  assert (Hm : field_map f G !! id = None) by (by rewrite field_map_lookup, Hn).
  destruct (d !! f) as [v|] eqn:Hv.
  - split; [by rewrite (proj1 (add_same_field s v id))|].
    rewrite <- (accepted_insert s f id d v) by done. apply add_repr; [done|done|]. by eapply Hwf.
  - split; [done|]. unfold indexed. rewrite Hv. simpl. by rewrite delete_id.
Qed.

Lemma sidx_update_ok f s G id d :
  field s = f → sidx_repr s (field_map f G) → data_wf d →
  field (sidx_update id d f s) = f ∧ sidx_repr (sidx_update id d f s) (field_map f (<[id := d]> G)).
Proof.
  intros Hf Hr Hwf. unfold sidx_update. rewrite field_map_insert. destruct (d !! f) as [v|] eqn:Hv.
  - split; [by rewrite (proj1 (update_same_field s id v))|].
    rewrite <- (accepted_insert s f id d v) by done. apply update_repr; [done|]. by eapply Hwf.
  - split; [by rewrite (proj1 (remove_same_field s id))|].
    unfold indexed. rewrite Hv. simpl. by apply remove_repr.
Qed.

Lemma sidx_delete_ok f s G id :
  field s = f → sidx_repr s (field_map f G) →
  field (sidx_delete id f s) = f ∧ sidx_repr (sidx_delete id f s) (field_map f (delete id G)).
Proof.
  intros Hf Hr. unfold sidx_delete. rewrite field_map_delete.
  split; [by rewrite (proj1 (remove_same_field s id))|by apply remove_repr].
Qed.

Lemma sidx_map_ok c c' g G G' :
  sidxMap c' = map_imap (λ k s, Some (g k s)) (sidxMap c) → sidx_ok c G →
  (∀ f s, field s = f → sidx_repr s (field_map f G) →
          field (g f s) = f ∧ sidx_repr (g f s) (field_map f G')) →
  sidx_ok c' G'.
Proof.
  intros E Hok Hg f s Hs. rewrite E, map_lookup_imap in Hs.
  destruct (sidxMap c !! f) as [s0|] eqn:E0; [|done]. simpl in Hs. injection Hs as <-.
  destruct (Hok f s0 E0) as [Hf Hr]. by apply Hg.
Qed.

(** ** The records after a write *)

Lemma plain_write ds L e :
  Op e = OpInsert ∨ Op e = OpUpdate →
  plain ds (L ++ [stored e]) = <[ID e := default ∅ (Data e)]> (plain ds L).
Proof.
  intros Hop. unfold plain. rewrite records_snoc. unfold rec_step, stored. cbn [fst snd entryVisible].
  cbn [Op ID Rev set_crc]. rewrite decide_True by done. by rewrite fmap_insert.
Qed.

Lemma plain_delete ds L e : Op e = OpDelete → plain ds (L ++ [stored e]) = delete (ID e) (plain ds L).
Proof.
  intros Hop. unfold plain. rewrite records_snoc. unfold rec_step, stored. cbn [fst snd entryVisible].
  cbn [Op ID Rev set_crc]. rewrite Hop. rewrite decide_False by (intros [H|H]; discriminate H).
  rewrite decide_True by done. by rewrite fmap_delete.
Qed.

(** The data a write leaves in the record it is about. *)
Definition wdata (c : Collection) (o : wop) : vdata :=
  match o with
  | WInsert d _ => d
  | WUpdate id d | WUpdateExpiry id d _ => stamp_opt (kept_key c id d) d
  | WDelete _ => ∅
  end.

Lemma wentry_plain c o now e L :
  enc c = None → wentry c o now e →
  plain (cdecisions c) (L ++ [stored e]) =
  match o with
  | WDelete id => delete id (plain (cdecisions c) L)
  | _ => <[wid c o := wdata c o]> (plain (cdecisions c) L)
  end.
Proof.
  intros Henc Hwe. pose proof (wentry_id _ _ _ _ Hwe) as Hid.
  assert (Hs : ∀ d d' ep, sealed_as c d d' ep → d' = d) by (unfold sealed_as; rewrite Henc; by intros d d' ep [-> _]).
  destruct o as [d ex|id d|id d ex|id]; cbn [wentry wid wdata] in *.
  - destruct Hwe as (exp & _ & [Hi Hop _ _ _ (d' & Hd & Hsd)] & _).
    rewrite plain_write by (by left). by rewrite Hid, Hd, (Hs _ _ _ Hsd).
  - destruct Hwe as (cur & d' & _ & _ & Hop & _ & _ & Hd & Hsd & _).
    rewrite plain_write by (by right). by rewrite Hid, Hd, (Hs _ _ _ Hsd).
  - destruct Hwe as (exp & _ & cur & d' & _ & _ & Hop & _ & _ & Hd & Hsd & _).
    rewrite plain_write by (by right). by rewrite Hid, Hd, (Hs _ _ _ Hsd).
  - destruct Hwe as (_ & _ & n & _ & ->). by rewrite plain_delete.
Qed.

Lemma wdata_wf c o : keys_utf8 c → wop_ok o → data_wf (wdata c o).
Proof.
  intros Hk. destruct o; cbn [wop_ok wdata]; intros H.
  - apply H.
  - apply stamp_opt_good; [done|apply H].
  - apply stamp_opt_good; [done|apply H].
  - apply map_Forall_empty.
Qed.

Lemma plain_no_record c L id :
  cinv c L → fenced c = None → (idSeq c < id)%Z → plain (cdecisions c) L !! id = None.
Proof. intros Hc Hf Hid. unfold plain. by rewrite lookup_fmap, (cinv_no_record c L id). Qed.

(** The secondary indexes stay in step with the records. *)
Lemma wentry_sidx c c' o now e L :
  cinv c L → fenced c = None → enc c = None → keys_utf8 c → wop_ok o → wentry c o now e →
  sidx_ok c (plain (cdecisions c) L) →
  sidxMap c' = map_imap (λ k s, Some (wsidx c o k s)) (sidxMap c) → cdecisions c' = cdecisions c →
  sidx_ok c' (plain (cdecisions c') (L ++ [stored e])).
Proof.
  intros Hc Hf Henc Hku Ho Hwe Hok Hs Hd. rewrite Hd, (wentry_plain c o now e L Henc Hwe).
  pose proof (wdata_wf c o Hku Ho) as Hwf.
  destruct o as [d ex|id d|id d ex|id]; cbn [wid wdata wsidx] in *;
    eapply sidx_map_ok; try done; intros f s Hfs Hr; cbn [wsidx].
  - apply sidx_insert_ok; try done. apply plain_no_record; [done|done|lia].
  - by apply sidx_update_ok.
  - by apply sidx_update_ok.
  - by apply sidx_delete_ok.
Qed.

(** ** Unique indexes *)

(** The record of [id] has passed its deadline. *)
Definition dead (c : Collection) (L : list line) (id : Z) : Prop :=
  ∃ e rev, records (cdecisions c) L !! id = Some (e, rev) ∧ expired (ExpiresAt e) (clockFloor c) = true.

(** No two live records have the same text in a unique index. *)
Definition unique_inv (c : Collection) (L : list line) : Prop :=
  ∀ f s i j v w, sidxMap c !! f = Some s → unique s = true → i ≠ j →
    field_map f (plain (cdecisions c) L) !! i = Some v →
    field_map f (plain (cdecisions c) L) !! j = Some w → toIndexKey v = toIndexKey w →
    dead c L i ∨ dead c L j.

Lemma expired_mono d n n' : expired d n = true → (n ≤ n')%Z → expired d n' = true.
Proof.
  unfold expired. intros [-> H]%andb_true_iff Hle. apply Z.leb_le. apply Z.leb_le in H. lia.
Qed.

(** A uniqueness check that passed: every other holder of the value is dead. *)
Lemma no_conflict_dead c c' L L' id d now f s j v w :
  cinv c L → fenced c = None → sidx_ok c (plain (cdecisions c) L) →
  no_conflict c now id d → (now ≤ clockFloor c')%Z →
  sidxMap c !! f = Some s → unique s = true → indexed f d = Some v →
  j ≠ id → field_map f (plain (cdecisions c) L) !! j = Some w → toIndexKey w = toIndexKey v →
  records (cdecisions c') L' !! j = records (cdecisions c) L !! j → dead c' L' j.
Proof.
  intros Hc Hf Hok (n & Hn & Hnc) Hnow Hs Hu Hv Hji Hw Hkey Hsame.
  destruct (Hok f s Hs) as [Hfs Hr].
  assert (Hj : j ∈ Lookup s (toIndexKey v)) by (apply (Lookup_elem s _ _ _ Hr); eauto).
  assert (Hdv : ∃ v0, d !! f = Some v0) by (unfold indexed in Hv; destruct (d !! f); [eauto|done]).
  destruct Hdv as [v0 Hdv].
  assert (Hacc : accepts s v0 = true ∧ v0 = v).
  { pose proof (indexed_accepts s f d v0 Hfs Hdv) as H. rewrite Hv in H. by destruct (accepts s v0); simplify_eq. }
  destruct Hacc as [Hacc ->].
  assert (Hnone : unique_conflict c id n d f s = None).
  { unfold first_conflict in Hnc. apply (elem_of_map_to_list (sidxMap c)) in Hs.
    destruct (unique_conflict c id n d f s) as [k|] eqn:E; [exfalso|done].
    assert (Hin : (f, k) ∈ omap (λ ks, pair ks.1 <$> unique_conflict c id n d ks.1 ks.2) (map_to_list (sidxMap c))).
    { apply list_elem_of_omap. exists (f, s). split; [done|]. simpl. by rewrite E. }
    destruct (omap _ _); [by apply not_elem_of_nil in Hin|done]. }
  unfold unique_conflict in Hnone. rewrite Hu, Hdv, Hacc in Hnone. simpl in Hnone.
  destruct (sidxConflict c s (toIndexKey v) id n) eqn:Ecf; [done|].
  assert (Hlive : isLive c n j = false).
  { unfold sidxConflict in Ecf. destruct (isLive c n j) eqn:El; [|done].
    assert (existsb (λ other, if (other =? id)%Z then false else isLive c n other) (Lookup s (toIndexKey v)) = true) as Ht.
    { apply existsb_exists. exists j. split; [by apply list_elem_of_In|].
      destruct (Z.eqb_spec j id); [done|]. exact El. }
    by rewrite Ht in Ecf. }
  rewrite field_map_lookup in Hw. unfold plain in Hw. rewrite lookup_fmap in Hw.
  pose proof (cinv_lookup c L j Hc Hf) as Hl.
  destruct (records (cdecisions c) L !! j) as [[e rev]|] eqn:Er; [|done].
  destruct Hl as (loc & seg & Hg & _ & Hexp & _). unfold isLive in Hlive. rewrite Hg, Hexp in Hlive.
  apply negb_false_iff in Hlive. exists e, rev. split; [by rewrite Hsame|].
  eapply expired_mono; [done|lia].
Qed.

Lemma toIndexKey_str k : toIndexKey (VStr k) = k.
Proof. unfold toIndexKey. apply s_of_b_of_s. Qed.

(** The records of other ids do not change. *)
Lemma records_other ds L e id : ID e ≠ id → records ds (L ++ [stored e]) !! id = records ds L !! id.
Proof.
  intros Hne. rewrite records_snoc. unfold rec_step, stored. cbn [fst snd entryVisible]. cbn [Op ID Rev set_crc].
  case_decide; [by rewrite lookup_insert_ne|]. case_decide; [by rewrite lookup_delete_ne|done].
Qed.

Lemma dead_later c c' L e id :
  cdecisions c' = cdecisions c → (clockFloor c ≤ clockFloor c')%Z → ID e ≠ id →
  dead c L id → dead c' (L ++ [stored e]) id.
Proof.
  intros Hd Hclk Hne (e0 & rev & Hr & Hx). exists e0, rev. rewrite Hd, records_other by done.
  split; [done|]. by eapply expired_mono.
Qed.

(** The caller's data of a write, and whether the write keeps the deadline. *)
Definition wcaller (o : wop) : vdata :=
  match o with WInsert d _ | WUpdate _ d | WUpdateExpiry _ d _ => d | WDelete _ => ∅ end.

Lemma wentry_no_conflict c o now e :
  wentry c o now e → (∀ id, o ≠ WDelete id) → no_conflict c now (wid c o) (wcaller o).
Proof.
  intros Hwe Ho. destruct o as [d ex|id d|id d ex|id]; cbn [wentry wid wcaller] in *.
  - destruct Hwe as (exp & _ & _ & H & _). done.
  - destruct Hwe as (cur & d' & _ & _ & _ & _ & _ & _ & _ & H & _). done.
  - destruct Hwe as (exp & _ & cur & d' & _ & _ & _ & _ & _ & _ & _ & H & _). done.
  - by destruct (Ho id).
Qed.

(** The key an update carries over is the one the index already has. *)
Lemma wdata_indexed c L o f s v :
  sidx_ok c (plain (cdecisions c) L) → sidxMap c !! f = Some s → indexed f (wdata c o) = Some v →
  indexed f (wcaller o) = Some v ∨
  (∃ v0, f = KeyField ∧ kept_key c (wid c o) (wcaller o) ≠ None ∧
    field_map f (plain (cdecisions c) L) !! wid c o = Some v0 ∧ toIndexKey v0 = toIndexKey v).
Proof.
  intros Hok Hs Hv.
  assert (Hgen : ∀ id d, indexed f (stamp_opt (kept_key c id d) d) = Some v → indexed f d = Some v ∨
    (∃ v0, f = KeyField ∧ kept_key c id d ≠ None ∧ field_map f (plain (cdecisions c) L) !! id = Some v0 ∧
           toIndexKey v0 = toIndexKey v)).
  { intros id d H. destruct (kept_key c id d) as [k|] eqn:Ek; [|by left]. simpl in H. unfold stampKey in H.
    destruct (decide (f = KeyField)) as [->|Hne].
    - right. unfold indexed in H. rewrite lookup_insert_eq in H. simpl in H.
      assert (v = VStr k) as -> by congruence.
      unfold kept_key in Ek. destruct (d !! KeyField); [done|]. rewrite Hs in Ek. simpl in Ek.
      destruct (Hok _ _ Hs) as [_ (_ & Hrev & _)]. rewrite Hrev, lookup_fmap in Ek.
      destruct (field_map KeyField _ !! id) as [v0|] eqn:Ev; [|done]. simpl in Ek. exists v0.
      split_and!; [done|done|done|]. rewrite toIndexKey_str. congruence.
    - left. unfold indexed in H |- *. by rewrite lookup_insert_ne in H. }
  destruct o; cbn [wdata wcaller wid] in *; auto.
Qed.

(** The deadline of the record a plain update writes is the one it had. *)
Lemma update_keeps_dead c c' L id d now e :
  cinv c L → fenced c = None → cdecisions c' = cdecisions c → (clockFloor c ≤ clockFloor c')%Z →
  updated c id d (λ old, old) now e → dead c L id → dead c' (L ++ [stored e]) id.
Proof.
  intros Hc Hf Hd Hclk (cur & d' & Hg & Hid & Hop & _ & Hexp & _) (e0 & rev & Hr & Hx).
  pose proof (cinv_lookup c L id Hc Hf) as Hl. rewrite Hr in Hl.
  destruct Hl as (loc & seg & Hg' & _ & Hexp0 & _). rewrite Hg in Hg'. injection Hg' as <-.
  unfold dead. rewrite Hd, records_snoc. unfold rec_step, stored. cbn [fst snd entryVisible].
  cbn [Op ID Rev set_crc]. rewrite decide_True by (by right). rewrite Hid, lookup_insert_eq.
  eexists _, _. split; [done|]. cbn [ExpiresAt set_crc]. rewrite Hexp, Hexp0. by eapply expired_mono.
Qed.

Lemma wsidx_unique c o f s : unique (wsidx c o f s) = unique s.
Proof.
  destruct o; cbn [wsidx]; unfold sidx_insert, sidx_update, sidx_delete.
  - destruct (_ !! f); [apply add_same_field|done].
  - destruct (_ !! f); [apply update_same_field|apply remove_same_field].
  - destruct (_ !! f); [apply update_same_field|apply remove_same_field].
  - apply remove_same_field.
Qed.

(** The records after a write, field by field. *)
Definition wplain (c : Collection) (o : wop) (G : gmap Z vdata) : gmap Z vdata :=
  match o with WDelete id => delete id G | _ => <[wid c o := wdata c o]> G end.

Lemma wplain_other c o G f k : k ≠ wid c o → field_map f (wplain c o G) !! k = field_map f G !! k.
Proof.
  intros Hk. rewrite !field_map_lookup. unfold wplain.
  destruct o; cbn [wid] in *; by rewrite ?lookup_insert_ne, ?lookup_delete_ne.
Qed.

Lemma wplain_self c o G f v :
  field_map f (wplain c o G) !! wid c o = Some v → (∀ id, o ≠ WDelete id) ∧ indexed f (wdata c o) = Some v.
Proof.
  rewrite field_map_lookup. unfold wplain. intros H.
  destruct o; cbn [wid] in *; rewrite ?lookup_insert_eq, ?lookup_delete_eq in H; done.
Qed.

(** The record just written and another holder of the same value. *)
Lemma writer_or_holder_dead c c' L o e f s j v w :
  cinv c L → fenced c = None → later c c' → sidx_ok c (plain (cdecisions c) L) → unique_inv c L →
  (∀ id d ex, o = WUpdateExpiry id d ex → kept_key c id d = None) →
  wentry c o (clockFloor c') e → (∀ id, o ≠ WDelete id) →
  sidxMap c !! f = Some s → unique s = true → indexed f (wdata c o) = Some v → j ≠ wid c o →
  field_map f (plain (cdecisions c) L) !! j = Some w → toIndexKey v = toIndexKey w →
  dead c' (L ++ [stored e]) (wid c o) ∨ dead c' (L ++ [stored e]) j.
Proof.
  intros Hc Hf T Hok Hu Hkx Hwe Hnd Hs Hus Hv Hj Hw Hkey.
  pose proof (lt_decisions _ _ T) as Hd. pose proof (lt_clock _ _ T) as Hclk.
  pose proof (wentry_id _ _ _ _ Hwe) as Hid.
  destruct (wdata_indexed c L o f s v Hok Hs Hv) as [Hcall|(v0 & -> & Hkept & Hv0 & Hk0)].
  - right. apply (no_conflict_dead c c' L _ (wid c o) (wcaller o) (clockFloor c') f s j v w); try done.
    + by apply (wentry_no_conflict c o _ e).
    + rewrite Hd. apply records_other. congruence.
  - destruct (Hu KeyField s (wid c o) j v0 w Hs Hus) as [H|H]; try done; [congruence|left|right].
    + destruct o as [d ex|id d|id d ex|id]; cbn [wid wentry wcaller] in *.
      * rewrite field_map_lookup, (plain_no_record c L) in Hv0 by (done || lia). done.
      * by eapply update_keeps_dead.
      * by destruct Hkept; eapply Hkx.
      * by destruct (Hnd id).
    + eapply dead_later; [done|done| |exact H]. congruence.
Qed.

(** ** Properties *)

(** the secondary indexes of a collection without encryption are at
    all times the indexes of their fields over the records of the log: every
    write that succeeds keeps them so, and a write that is refused or fails
    without fencing changes neither. *)
Theorem sidx_follows_log st L o st' r :
  world st → cinv (coll st) L → room (coll st) → enc (coll st) = None → wop_ok o →
  sidx_ok (coll st) (plain (cdecisions (coll st)) L) → wrun o st = (st', r) → fenced (coll st') = None →
  ∃ L', cinv (coll st') L' ∧ (L' = L ∨ ∃ e, L' = L ++ [stored e]) ∧
    sidx_ok (coll st') (plain (cdecisions (coll st')) L').
Proof.
  intros Hw Hc Hr Henc Ho Hok Hrun Hf'.
  assert (He : enc_good (coll st)) by (unfold enc_good; by rewrite Henc).
  destruct (wp_run _ _ _ _ _ (wrun_spec st L o Hw Hc Hr He Ho) Hrun) as (_ & [T H] & _).
  pose proof (lt_decisions _ _ T) as Hd.
  destruct r as [cm|err].
  - destruct H as (Hf & e & Hwe & Hc' & _ & Hs). exists (L ++ [stored e]). split_and!; [done|eauto|].
    exact (wentry_sidx (coll st) (coll st') o _ e L Hc Hf Henc (proj2 Hr) Ho Hwe Hok Hs Hd).
  - assert (Hkeep : cinv (coll st') L → sidxMap (coll st') = sidxMap (coll st) →
      ∃ L', cinv (coll st') L' ∧ (L' = L ∨ ∃ e, L' = L ++ [stored e]) ∧
        sidx_ok (coll st') (plain (cdecisions (coll st')) L')).
    { intros Hc' Hs. exists L. split_and!; [done|by left|]. unfold sidx_ok. by rewrite Hs, Hd. }
    destruct err; try (by apply Hkeep; apply H).
    destruct H as (_ & Hs & _). rewrite Hf' in Hs. by destruct Hs.
Qed.

(** Claim C38: unique indexes are enforced by the record writes: in a collection
    without encryption whose secondary indexes follow its log, an insert, an update,
    an update with a deadline or a delete that succeeds never makes two live records
    hold the same value in a unique index.  An update that sets a new deadline on a
    record whose key it carries over is excluded: see [resurrected_key].  (The data
    written are non-empty maps with strings in UTF-8; ids and segment numbers stay
    below 2^64.) *)
Theorem unique_enforced st L o st' cm :
  world st → cinv (coll st) L → room (coll st) → enc (coll st) = None → wop_ok o →
  sidx_ok (coll st) (plain (cdecisions (coll st)) L) → unique_inv (coll st) L →
  (∀ id d ex, o = WUpdateExpiry id d ex → kept_key (coll st) id d = None) →
  wrun o st = (st', Ok cm) →
  ∃ e, cinv (coll st') (L ++ [stored e]) ∧ unique_inv (coll st') (L ++ [stored e]).
Proof.
  intros Hw Hc Hr Henc Ho Hok Hu Hkx Hrun.
  assert (He : enc_good (coll st)) by (unfold enc_good; by rewrite Henc).
  destruct (wp_run _ _ _ _ _ (wrun_spec st L o Hw Hc Hr He Ho) Hrun)
    as (_ & [T (Hf & e & Hwe & Hc' & _ & Hs)] & _).
  exists e. split; [done|]. set (c := coll st) in *. set (c' := coll st') in *.
  pose proof (lt_decisions _ _ T) as Hd. pose proof (lt_clock _ _ T) as Hclk.
  pose proof (wentry_id _ _ _ _ Hwe) as Hid.
  intros f s' i j v w Hsx Hus Hij Hi Hj Hkey. rewrite Hs, map_lookup_imap in Hsx.
  destruct (sidxMap c !! f) as [s|] eqn:Es; [|done]. simpl in Hsx. injection Hsx as <-.
  assert (Hus0 : unique s = true) by (by rewrite <- Hus, (wsidx_unique c o f s)).
  rewrite Hd, (wentry_plain c o _ e L Henc Hwe) in Hi, Hj. fold (wplain c o (plain (cdecisions c) L)) in Hi, Hj.
  destruct (decide (i = wid c o)) as [->|Hi0]; [|destruct (decide (j = wid c o)) as [->|Hj0]].
  - apply wplain_self in Hi as [Hnd Hv]. rewrite wplain_other in Hj by done.
    by eapply writer_or_holder_dead.
  - apply wplain_self in Hj as [Hnd Hv]. rewrite wplain_other in Hi by done.
    apply or_comm. by eapply writer_or_holder_dead.
  - rewrite wplain_other in Hi, Hj by done.
    destruct (Hu f s i j v w Es Hus0 Hij Hi Hj Hkey) as [H|H];
      [left|right]; (eapply dead_later; [done|done| |exact H]); congruence.
Qed.

(** ** Witnesses *)

Definition sample_unique : Collection :=
  set_sidxMap sample_coll {[ "n" := newSecondaryIndex "n" true ]}.

Lemma sample_unique_ok : sidx_ok sample_unique (plain None []).
Proof.
  intros f s Hs. cbn [sidxMap sample_unique set_sidxMap] in Hs. apply lookup_singleton_Some in Hs as [<- <-]. split; [done|]. apply newSecondaryIndex_repr.
Qed.

Lemma sample_unique_inv : unique_inv sample_unique [].
Proof. intros f s i j v w _ _ _ H. rewrite field_map_lookup in H. done. Qed.

Lemma sample_unique_world : world (MkSt sample_unique [] [5; 3]%Z).
Proof. split; simpl; unfold two63; [lia|]. repeat (constructor; [lia|]). constructor. Qed.

Lemma sidx_follows_log_witness :
  ∃ st' r, wrun (WInsert sample_data None) (MkSt sample_unique [] [5; 3]%Z) = (st', r) ∧
    ∃ L', cinv (coll st') L' ∧ sidx_ok (coll st') (plain (cdecisions (coll st')) L').
Proof.
  destruct (wrun (WInsert sample_data None) (MkSt sample_unique [] [5; 3]%Z)) as [st' r] eqn:E.
  exists st', r. split; [reflexivity|].
  assert (Hf : fenced (coll (wrun (WInsert sample_data None) (MkSt sample_unique [] [5; 3]%Z)).1) = None)
    by (vm_compute; reflexivity).
  rewrite E in Hf. cbn [fst] in Hf.
  destruct (sidx_follows_log _ [] (WInsert sample_data None) st' r sample_unique_world
    (cinv_sidx _ _ _ sample_cinv) sample_room eq_refl (conj sample_good I) sample_unique_ok E Hf)
    as (L' & H1 & _ & H2).
  exists L'. split; [exact H1|exact H2].
Defined.

Lemma unique_enforced_witness :
  ∃ st' cm e, wrun (WInsert sample_data None) (MkSt sample_unique [] [5; 3]%Z) = (st', Ok cm) ∧
    unique_inv (coll st') ([] ++ [stored e]).
Proof.
  destruct (wrun (WInsert sample_data None) (MkSt sample_unique [] [5; 3]%Z)) as [st' r] eqn:E.
  assert (Hok : is_ok (wrun (WInsert sample_data None) (MkSt sample_unique [] [5; 3]%Z)).2 = true)
    by (vm_compute; reflexivity).
  rewrite E in Hok. cbn [snd] in Hok. destruct r as [cm|]; [|discriminate Hok].
  destruct (unique_enforced _ [] (WInsert sample_data None) st' cm sample_unique_world
    (cinv_sidx _ _ _ sample_cinv) sample_room eq_refl (conj sample_good I) sample_unique_ok sample_unique_inv
    ltac:(intros; discriminate) E) as (e & _ & H).
  exists st', cm, e. split; [reflexivity|exact H].
Defined.

(** ** An expired key holder comes back *)

(** Records live ten nanoseconds; the first holder of the key has expired, and is
    not reaped, when the second is inserted and when the first is updated. *)
Definition ttl_coll : Collection :=
  MkColl "d" (MkCfg 1000000 SyncModeAlways 10 0 0 4 true (SpecFloat.S754_zero false)) []
    (MkSeg "d/seg_000001.ndjson" [] 0 false HOpen false) newIndex 0 1 None None 0 0 ∅ 0 ∅ None None 0 None false false.

Definition resurrect : M (string * string * res cerr Z) :=
  InsertWithKey "k" sample_data ;;;
  InsertWithKey "k" sample_data ;;;
  UpdateWithExpiry 1 sample_data (Some 1000%Z) ;;;
  a <- Get_ 1 ;;
  b <- Get_ 2 ;;
  r <- try_ (resolveKey "k") ;;
  ret (rec_Key a, rec_Key b, r).

(** Two live records with one key: an update by id that sets a new deadline
    brings an expired holder back with the key it carries over, which the
    uniqueness check does not look at.  Every keyed operation then fails. *)
Theorem resurrected_key :
  (resurrect (MkSt ttl_coll [] [1; 1; 1; 20]%Z)).2 =
  Ok ("k", "k", Err (ErrKeyIndexConflict "k" [1; 2]%Z)).
Proof. vm_compute. reflexivity. Qed.

(** The same collision without the update: an expired and unreaped holder does
    not block an insert under its key, but the key index then has two holders
    and every keyed operation reports a conflict. *)
Theorem expired_holder_blocks_keyed_operations :
  ((InsertWithKey "k" sample_data ;;;
    InsertWithKey "k" sample_data ;;;
    GetByKey "k") (MkSt ttl_coll [] [1; 1; 1; 20]%Z)).2 =
  Err (ErrKeyIndexConflict "k" [1; 2]%Z).
Proof. vm_compute. reflexivity. Qed.
