(* ===== verification/BatchInv.v ===== *)
(** * Batches are all or nothing

    The batch writers of [Batch] append line by line and roll the active segment
    back when a step fails.  Here: the state in the middle of a batch, what the
    rollback restores, and the atomicity of [InsertMany] and [CommitTx] on the
    direct route, for every outcome of the file calls. *)
From Stdlib Require Import Ascii Lia ZArith.
From stdpp Require Import prelude gmap strings sorting.
From S2P Require Import Prelude GoNum Json Value Filter GoTime Store Wire Codec Segment Index SecondaryIndex Collection Keyed Batch CollInv CollStep CollOps CollThm.

(** ** Rebuilding secondary indexes *)

Lemma latest_loop_ok segs es m ds : holds_all segs es → ∃ m', latest_loop m segs ds = Ok m'.
Proof.
  intros H. revert m. induction H as [|s e segs es [Hi Hp] _ IH]; intros m; [by eexists|].
  cbn [latest_loop]. unfold scanEntries. rewrite (scan_entries _ _ Hi Hp). cbn [res_bind]. apply IH.
Qed.

Lemma rebuild_ok s segs es ds : holds_all segs es → ∃ s', rebuild s segs ds = Ok s'.
Proof.
  intros H. destruct (latest_loop_ok segs es ∅ ds H) as [m Hm]. unfold rebuild. rewrite Hm. cbn [res_bind].
  destruct (foldl _ _ _) as [[fresh rev] k]. by eexists.
Qed.

Lemma cinv_holds_all c es ea : cinv_at c es ea → poisoned (active c) = false → holds_all (all_segments c) (es ++ [ea]).
Proof.
  intros Hc Hp. apply Forall2_app; [apply Hc|]. apply List.Forall2_cons; [|constructor]. split; [apply Hc|done].
Qed.

Lemma set_sidx_same c : set_sidxMap c (sidxMap c) = c.
Proof. by destruct c. Qed.

Lemma wp_sidx_rebuild_all fields st ents Q :
  holds_all (all_segments (coll st)) ents →
  (∀ m, Q (MkSt (set_sidxMap (coll st) m) (io st) (wall st)) (Ok tt)) →
  wp (sidx_rebuild_all fields) st Q.
Proof.
  revert st. induction fields as [|f fields IH]; intros st Hh HQ; cbn [sidx_rebuild_all].
  - apply wp_ret. specialize (HQ (sidxMap (coll st))). rewrite set_sidx_same in HQ. by destruct st.
  - apply wp_get. destruct (sidxMap (coll st) !! f) as [s|]; [|by apply IH].
    destruct (rebuild_ok s _ _ (cdecisions (coll st)) Hh) as [s' ->]. apply wp_modify. apply IH; [done|].
    intros m. exact (HQ m).
Qed.

(** ** Restoring the primary index *)

Definition restore_one (idx : Index) (ie : Z * IndexEntry) : Index :=
  if decide (SegmentPath ie.2 = "") then Index.Delete idx ie.1 else Set_ idx ie.1 ie.2.

Lemma wp_index_delete_all {B} ids (k : unit → M B) st Q :
  wp (k tt) (MkSt (set_index (coll st) (foldl Index.Delete (index (coll st)) ids)) (io st) (wall st)) Q →
  wp (bind (index_delete_all ids) k) st Q.
Proof.
  revert st. induction ids as [|id ids IH]; intros st H; cbn [index_delete_all].
  - apply wp_bind, wp_ret. cbn [foldl] in H. by destruct st as [[] ? ?].
  - apply wp_bind. unfold index_delete. apply wp_modify.
    specialize (IH (MkSt (set_index (coll st) (Index.Delete (index (coll st)) id)) (io st) (wall st)) H). unfold wp, bind in IH |- *.
    by destruct (index_delete_all ids _) as [? []].
Qed.

Lemma wp_index_restore {B} l (k : unit → M B) st Q :
  wp (k tt) (MkSt (set_index (coll st) (foldl restore_one (index (coll st)) l)) (io st) (wall st)) Q →
  wp (bind (index_restore l) k) st Q.
Proof.
  revert st. induction l as [|[id e] l IH]; intros st H; cbn [index_restore].
  - apply wp_bind, wp_ret. cbn [foldl] in H. by destruct st as [[] ? ?].
  - apply wp_bind. apply wp_modify.
    specialize (IH (MkSt (set_index (coll st) (restore_one (index (coll st)) (id, e))) (io st) (wall st)) H). unfold wp, bind in IH |- *.
    by destruct (index_restore l _) as [? []].
Qed.

Lemma delete_all_lookup ids idx id :
  entries (foldl Index.Delete idx ids) !! id = if decide (id ∈ ids) then None else entries idx !! id.
Proof.
  revert idx. induction ids as [|x ids IH]; intros idx; [by rewrite decide_False by apply not_elem_of_nil|].
  cbn [foldl]. rewrite IH. simpl. destruct (decide (id ∈ ids)) as [Hin|Hin].
  - by rewrite decide_True by (by right).
  - destruct (decide (id = x)) as [->|Hne]; [rewrite decide_True by (by left); apply lookup_delete_eq|].
    rewrite decide_False by (rewrite elem_of_cons; naive_solver). by rewrite lookup_delete_ne.
Qed.

Definition restored (e : IndexEntry) : option IndexEntry :=
  if decide (SegmentPath e = "") then None else Some e.

Lemma restore_one_lookup idx x e id :
  entries (restore_one idx (x, e)) !! id = if decide (id = x) then restored e else entries idx !! id.
Proof.
  unfold restore_one, restored. simpl. destruct (decide (SegmentPath e = "")), (decide (id = x)) as [->|Hne]; simpl.
  - apply lookup_delete_eq.
  - by rewrite lookup_delete_ne.
  - apply lookup_insert_eq.
  - by rewrite lookup_insert_ne.
Qed.

Lemma restore_list_lookup l idx id :
  NoDup l.*1 →
  entries (foldl restore_one idx l) !! id =
  match (list_to_map l : gmap Z IndexEntry) !! id with
  | Some e => restored e
  | None => entries idx !! id
  end.
Proof.
  revert idx. induction l as [|[x e] l IH]; intros idx Hnd; [done|]. cbn [fmap list_fmap] in Hnd.
  apply NoDup_cons in Hnd as [Hx Hnd]. cbn [foldl list_to_map foldr]. rewrite IH by done. simpl.
  destruct (decide (id = x)) as [->|Hne].
  - rewrite lookup_insert_eq.
    assert (Hn : (list_to_map l : gmap Z IndexEntry) !! x = None) by (by apply not_elem_of_list_to_map_1).
    rewrite Hn, restore_one_lookup. by rewrite decide_True.
  - rewrite lookup_insert_ne by done. destruct (_ !! id); [done|].
    rewrite restore_one_lookup. by rewrite decide_False.
Qed.

Lemma restore_lookup (before : gmap Z IndexEntry) idx id :
  entries (foldl restore_one idx (map_to_list before)) !! id =
  match before !! id with Some e => restored e | None => entries idx !! id end.
Proof.
  rewrite restore_list_lookup by apply NoDup_fst_map_to_list. by rewrite list_to_map_to_list.
Qed.

Lemma restore_expire (before : list (Z * IndexEntry)) ids idx :
  mayExpire_ok idx → mayExpire_ok (foldl restore_one (foldl Index.Delete idx ids) before).
Proof.
  intros H. assert (H1 : mayExpire_ok (foldl Index.Delete idx ids)).
  { revert idx H. induction ids as [|x ids IH]; intros idx H; [done|]. cbn [foldl]. apply IH.
    by apply mayExpire_ok_Delete. }
  revert H1. generalize (foldl Index.Delete idx ids). induction before as [|[x e] l IH]; intros idx1 H1; [done|].
  cbn [foldl]. apply IH. unfold restore_one. simpl.
  case_decide; [by apply mayExpire_ok_Delete|by apply mayExpire_ok_Set].
Qed.

(** ** In the middle of a batch *)

(** The collection [c] with its active segment, its secondary indexes and its
    primary index replaced. *)
Definition mid (c : Collection) (s : Segment) (m : gmap string SecondaryIndex) (i : Index) : Collection :=
  set_index (set_sidxMap (set_active c s) m) i.

(** The segment [s] of a batch on [c] that has appended the lines [xs]. *)
Record batch_seg (c : Collection) (ea xs : list located) (s : Segment) : Prop := {
  bs_inv : seg_inv s (ea ++ xs);
  bs_clean : poisoned s = false;
  bs_open : sealed s = false;
  bs_file : file s = HOpen;
  bs_path : path s = path (active c);
  bs_size : size (active c) ≤ size s;
  bs_prefix : take (size (active c)) (disk s) = disk (active c)
}.

Lemma batch_seg_start c es ea : cinv_at c es ea → fenced c = None → batch_seg c ea [] (active c).
Proof.
  intros Hc Hf. pose proof (unfenced_clean _ _ _ Hc Hf) as Hp.
  destruct (ca_writable _ _ _ Hc Hf) as [H1 H2]. split; try done.
  - rewrite app_nil_r. apply Hc.
  - rewrite (si_clean _ _ (ca_active _ _ _ Hc) Hp). by rewrite take_ge.
Qed.

(** The invariant of a collection whose active segment is the batch's. *)
Lemma mid_cinv c es ea xs s m i :
  cinv_at c es ea → batch_seg c ea xs s →
  (fenced c = None → entries i = replay (cdecisions c) ∅ (clog (set_active c s) es (ea ++ xs)) ∧ mayExpire_ok i) →
  Forall (λ x : located, (ID x.2.1 ≤ idSeq c)%Z ∧ in_i64 (ExpiresAt x.2.1)) xs →
  cinv_at (mid c s m i) es (ea ++ xs).
Proof.
  intros [] B Hi Hxs. split; try done; simpl.
  - apply B.
  - by rewrite (bs_clean _ _ _ _ B).
  - intros _. split; apply B.
  - unfold all_segments in *; simpl; rewrite ?map_app in *; simpl. by rewrite (bs_path _ _ _ _ B).
  - intros Hf. by apply Hi.
  - intros Hf. by apply Hi.
  - rewrite app_assoc. by apply Forall_app.
Qed.

(** The same, fenced: nothing is asked of the index. *)
Lemma mid_cinv_fenced c es ea xs s m i why :
  cinv_at c es ea → seg_inv s (ea ++ xs) → path s = path (active c) →
  Forall (λ x : located, (ID x.2.1 ≤ idSeq c)%Z ∧ in_i64 (ExpiresAt x.2.1)) xs →
  cinv_at (set_fenced (mid c s m i) (Some why)) es (ea ++ xs).
Proof.
  intros [] Hs Hp Hxs. split; try done; simpl.
  - unfold all_segments in *; simpl; rewrite ?map_app in *; simpl. by rewrite Hp.
  - rewrite app_assoc. by apply Forall_app.
Qed.

(** ** The rollback of a batch *)

(** What the rollback needs to put the primary index back. *)
Definition restorable (c : Collection) (i : Index) (inserted : list Z) (before : gmap Z IndexEntry) : Prop :=
  ∀ id, match before !! id with
        | Some e => restored e = entries (index c) !! id
        | None => if decide (id ∈ inserted) then entries (index c) !! id = None
                  else entries i !! id = entries (index c) !! id
        end.

Lemma restorable_entries c i inserted before :
  restorable c i inserted before →
  entries (foldl restore_one (foldl Index.Delete i inserted) (map_to_list before)) = entries (index c).
Proof.
  intros H. apply map_eq. intros id. rewrite restore_lookup, delete_all_lookup. specialize (H id).
  destruct (before !! id); [done|]. by destruct (decide (id ∈ inserted)).
Qed.

Lemma rollback_start c es ea xs s fs s' fs' r :
  cinv_at c es ea → fenced c = None → batch_seg c ea xs s → rollback s (size (active c)) fs = (s', fs', r) →
  match r with
  | Ok _ => batch_seg c ea [] s'
  | Err e => e = ErrSegmentPoisoned ∧ seg_inv s' (ea ++ xs) ∧ path s' = path (active c)
  end.
Proof.
  intros Hc Hf B Hr. pose proof (unfenced_clean _ _ _ Hc Hf) as Hp. destruct B as [B1 B2 B3 B4 B5 B6 B7].
  pose proof (si_le _ _ B1) as Hle.
  pose proof (rollback_spec s (size (active c)) fs s' fs' r ltac:(lia) Hr) as H. destruct r as [u|e].
  - destruct H as (H1 & H2 & H3 & _ & H5 & H6 & H7).
    assert (Hd : disk s' = disk (active c)) by (by rewrite H1).
    destruct (ca_active _ _ _ Hc) as [C1 C2 C3]. specialize (C3 Hp).
    split; try congruence; rewrite ?app_nil_r.
    + split; rewrite ?H2, ?Hd; try done.
    + rewrite Hd. by rewrite take_ge by lia.
  - destruct H as (H1 & H2 & H3 & H4 & H5).
    assert (He : e = ErrSegmentPoisoned).
    { unfold rollback, rollbackLocked in Hr. rewrite B3, B2 in Hr.
      destruct (file_truncate (file s) (disk s) (size (active c)) fs) as [[[] ?] ?]; by injection Hr. }
    split_and!; [done| |congruence].
    destruct H5 as [H5|[H5 _]]; [|congruence]. split; rewrite ?H1, ?H2; [apply B1|apply B1|congruence].
Qed.

Lemma wp_batch_fail {A} c es ea xs s m i inserted before cause fs w (Q : St → res cerr A → Prop) :
  cinv_at c es ea → fenced c = None → batch_seg c ea xs s → mayExpire_ok i →
  restorable c i inserted before →
  Forall (λ x : located, (ID x.2.1 ≤ idSeq c)%Z ∧ in_i64 (ExpiresAt x.2.1)) xs →
  (∀ s' m' i' fs', cinv_at (mid c s' m' i') es ea → entries i' = entries (index c) →
     Q (MkSt (mid c s' m' i') fs' w) (Err (ErrBatchFailed cause None))) →
  (∀ s' fs' rb, cinv_at (set_fenced (mid c s' m i) (Some "truncate")) es (ea ++ xs) →
     Q (MkSt (set_fenced (mid c s' m i) (Some "truncate")) fs' w) (Err (ErrBatchFailed cause (Some rb)))) →
  wp (batch_fail (size (active c)) inserted before cause) (MkSt (mid c s m i) fs w) Q.
Proof.
  intros Hc Hf B Hm Hr Hxs Hok Hbad. unfold batch_fail. apply wp_bind.
  unfold try_, wp at 1.
  assert (Hroll : wp (rollbackBatchLocked (size (active c)) inserted before) (MkSt (mid c s m i) fs w)
    (λ st r, (r = Ok tt ∧ ∃ s' m' i' fs', st = MkSt (mid c s' m' i') fs' w ∧ cinv_at (mid c s' m' i') es ea ∧
                entries i' = entries (index c)) ∨
             (∃ s' fs' rb, r = Err rb ∧ st = MkSt (set_fenced (mid c s' m i) (Some "truncate")) fs' w ∧
                cinv_at (set_fenced (mid c s' m i) (Some "truncate")) es (ea ++ xs)))).
  { unfold rollbackBatchLocked. apply wp_on_active. intros s' fs' r E. cbn [coll io wall] in *.
    apply (rollback_start c es ea xs) in E; [|done..]. destruct r as [u|e].
    - apply wp_bind. unfold observe_poison. apply wp_ret.
      apply wp_index_delete_all, wp_index_restore. apply wp_get. cbn [coll io wall].
      set (i' := foldl restore_one _ _).
      assert (He : entries i' = entries (index c)) by (by apply restorable_entries).
      assert (Hc' : ∀ m', cinv_at (mid c s' m' i') es ea).
      { intros m'. rewrite <- (app_nil_r ea). apply mid_cinv; [done|done| |constructor].
        intros _. rewrite app_nil_r. split; [|by apply restore_expire].
        rewrite He, (ca_index _ _ _ Hc Hf). unfold clog. simpl. by rewrite (bs_path _ _ _ _ E). }
      apply (wp_sidx_rebuild_all _ _ (es ++ [ea])).
      + change (holds_all (all_segments (mid c s' m i')) (es ++ [ea])).
        apply cinv_holds_all; [apply Hc'|apply E].
      + intros m'. left. split; [done|]. exists s', m', i', fs'. split_and!; [done|apply Hc'|done].
    - destruct E as (-> & Hs' & Hp'). apply wp_bind. unfold observe_poison, fence, wp, modify, throw. simpl.
      rewrite Hf. right. exists s', fs', (ErrRollback ErrSegmentPoisoned). split_and!; [done|done|].
      by apply mid_cinv_fenced. }
  unfold wp in Hroll. destruct (rollbackBatchLocked _ _ _ _) as [st r]. cbn [fst snd] in *.
  destruct Hroll as [(-> & s' & m' & i' & fs' & -> & H1 & H2)|(s' & fs' & rb & -> & -> & H1)].
  - by apply Hok.
  - by apply Hbad.
Qed.

(** After a poisoned append the rollback can only report. *)
Lemma wp_batch_fail_poisoned {A} c n inserted before cause fs w (Q : St → res cerr A → Prop) :
  poisoned (active c) = true → sealed (active c) = false → is_Some (fenced c) →
  (∀ rb, Q (MkSt c fs w) (Err (ErrBatchFailed cause (Some rb)))) →
  wp (batch_fail n inserted before cause) (MkSt c fs w) Q.
Proof.
  intros Hp Hs [why Hf] HQ.
  assert (Hroll : rollbackBatchLocked n inserted before (MkSt c fs w) =
                  (MkSt c fs w, Err (ErrRollback ErrSegmentPoisoned))).
  { unfold rollbackBatchLocked, bind, on_active, rollback, rollbackLocked. cbn [coll io wall].
    rewrite Hs, Hp, set_active_same. unfold observe_poison, fence, modify, throw. cbn [coll io wall]. by rewrite Hf. }
  unfold batch_fail, wp, bind, try_. rewrite Hroll. apply HQ.
Qed.

(** ** One line of a batch *)

Lemma wp_append_active {B} c ea xs s m i e (k : res seg_err nat → M B) fs w Q :
  fenced c = None → batch_seg c ea xs s → plain_readable e →
  (∀ s1 fs1, batch_seg c ea (xs ++ [(size s, stored e)]) s1 →
     wp (k (Ok (size s))) (MkSt (mid c s1 m i) fs1 w) Q) →
  (∀ s1 fs1 err, batch_seg c ea xs s1 → wp (k (Err err)) (MkSt (mid c s1 m i) fs1 w) Q) →
  (∀ s1 fs1, seg_inv s1 (ea ++ xs) → poisoned s1 = true → sealed s1 = false → path s1 = path (active c) →
     wp (k (Err ErrSegmentPoisoned)) (MkSt (set_fenced (mid c s1 m i) (Some "truncate")) fs1 w) Q) →
  wp (bind (append_active e) k) (MkSt (mid c s m i) fs w) Q.
Proof.
  intros Hf HB He Hok Herr Hpois. apply wp_bind. unfold append_active. apply wp_on_active.
  intros s1 fs1 r E. cbn [coll io wall] in *. change (active (mid c s m i)) with s in E.
  change (set_active (mid c s m i) s1) with (mid c s1 m i).
  destruct HB as [B1 B2 B3 B4 B5 B6 B7].
  pose proof (Append_step _ _ _ _ _ _ _ B1 E) as Hs. destruct r as [o|err].
  - destruct Hs as (-> & H1 & H2 & H3 & H4 & H5). apply wp_bind. unfold observe_poison. do 2 apply wp_ret.
    apply append_entry_Ok in E as (b & _ & _ & _ & _ & _ & Es); [|done|by apply B1].
    apply Hok. split; try done.
    + rewrite app_assoc. by apply H5.
    + congruence.
    + rewrite Es. simpl. lia.
    + rewrite Es. simpl. rewrite take_app_le; [done|]. pose proof (si_le _ _ B1). lia.
  - assert (Hcase : err = ErrSegmentPoisoned ∨ err ≠ ErrSegmentPoisoned) by (destruct err; auto).
    destruct Hcase as [->|Hne].
    + apply wp_bind. unfold observe_poison, fence, wp, modify. simpl. rewrite Hf. apply Hpois.
      * by eapply undone_inv.
      * exact (append_entry_poisons s e fs s1 fs1 B2 E).
      * by rewrite (un_sealed _ _ Hs).
      * by rewrite (un_path _ _ Hs).
    + pose proof (append_entry_unpoisoned _ _ _ _ _ _ B2 E Hne) as Hp1.
      assert (Hgo : wp (k (Err err)) (MkSt (mid c s1 m i) fs1 w) Q).
      { apply Herr. destruct (un_clean _ _ Hs Hp1) as [Hdisk _]. split.
        - by eapply undone_inv.
        - done.
        - by rewrite (un_sealed _ _ Hs).
        - by rewrite (un_file _ _ Hs).
        - by rewrite (un_path _ _ Hs).
        - by rewrite (un_size _ _ Hs).
        - by rewrite Hdisk. }
      apply wp_bind. unfold observe_poison. destruct err; try (do 2 apply wp_ret; exact Hgo). done.
Qed.

(** The state of a batch on [c] that has appended [xs]; the ids outside [T] are
    as they were. *)
Record batch_at (c : Collection) (es : list (list located)) (ea xs : list located) (T : list Z)
    (s : Segment) (i : Index) : Prop := {
  ba_seg : batch_seg c ea xs s;
  ba_index : entries i = replay (cdecisions c) ∅ (clog c es (ea ++ xs));
  ba_expire : mayExpire_ok i;
  ba_range : Forall (λ x : located, (ID x.2.1 ≤ idSeq c)%Z ∧ in_i64 (ExpiresAt x.2.1)) xs;
  ba_other : ∀ id, id ∉ T → entries i !! id = entries (index c) !! id
}.

Lemma clog_batch c es ea xs x : clog c es (ea ++ xs ++ [x]) = clog c es (ea ++ xs) ++ [(path (active c), x)].
Proof. unfold clog, seg_log. by rewrite app_assoc, (map_app (pair (path (active c))) (ea ++ xs)), app_assoc. Qed.

Lemma clog_path c s es l : path s = path (active c) → clog (set_active c s) es l = clog c es l.
Proof. intros H. unfold clog. simpl. by rewrite H. Qed.

Lemma batch_at_step c es ea xs T T' s i e s1 i1 :
  batch_at c es ea xs T s i → batch_seg c ea (xs ++ [(size s, stored e)]) s1 → plain_readable e →
  (ID e ≤ idSeq c)%Z → ID e ∈ T' → T ⊆ T' →
  entries i1 = applyOne (entries i) (path (active c)) (size s) e → mayExpire_ok i1 →
  batch_at c es ea (xs ++ [(size s, stored e)]) T' s1 i1.
Proof.
  intros [A1 A2 A3 A4 A5] B [Hwf _] Hid HT Hsub He Hm. split; try done.
  - rewrite clog_batch, replay_snoc. simpl. by rewrite <- A2.
  - apply Forall_app. split; [done|]. apply Forall_singleton. split; [done|apply Hwf].
  - intros id Hn. rewrite He, applyOne_lookup_ne by (intros <-; done). apply A5. set_solver.
Qed.

Lemma batch_at_start c es ea : cinv_at c es ea → fenced c = None → batch_at c es ea [] [] (active c) (index c).
Proof.
  intros Hc Hf. split; try done.
  - by eapply batch_seg_start.
  - rewrite app_nil_r. by apply Hc.
  - by apply Hc.
Qed.

Lemma batch_at_cinv c es ea xs T s m i :
  cinv_at c es ea → batch_at c es ea xs T s i → cinv_at (mid c s m i) es (ea ++ xs).
Proof.
  intros Hc [A1 A2 A3 A4 A5]. apply mid_cinv; try done. intros _.
  rewrite (clog_path c s) by apply A1. by split.
Qed.

(** A batch of [n] lines that failed: nothing of it is left, or the collection is
    fenced and the log holds lines of the batch. *)
Definition batch_failed {A} (c : Collection) (L : list line) (n : nat) (w : list Z)
    (st' : St) (r : res cerr A) : Prop :=
  wall st' = w ∧
  ∃ cause rb s m i, r = Err (ErrBatchFailed cause rb) ∧
    ((coll st' = mid c s m i ∧ rb = None ∧ cinv (coll st') L ∧ entries i = entries (index c)) ∨
     (∃ why L', coll st' = set_fenced (mid c s m i) (Some why) ∧ length L' ≤ n ∧ cinv (coll st') (L ++ L'))).

Lemma batch_failed_err {A B} c L n w st' (r : res cerr A) :
  batch_failed c L n w st' r → ∃ e, r = Err e ∧ batch_failed c L n w st' (@Err cerr B e).
Proof.
  intros (Hw & cause & rb & s & m & i & -> & H). eexists. split; [done|]. split; [done|].
  by exists cause, rb, s, m, i.
Qed.

Lemma length_lines (xs : list located) : length (map snd xs) = length xs.
Proof. apply List.length_map. Qed.

Lemma cinv_lines c es ea xs L :
  L = map snd (concat es ++ ea) → cinv_at c es (ea ++ xs) → cinv c (L ++ map snd xs).
Proof. intros -> H. exists es, (ea ++ xs). split; [done|]. by rewrite app_assoc, !map_app. Qed.

(** Every failure of a step in a batch ends in [batch_failed]. *)
Lemma wp_batch_abort {A} c es ea xs T s m i inserted before cause L n fs w :
  cinv_at c es ea → fenced c = None → L = map snd (concat es ++ ea) →
  batch_at c es ea xs T s i → restorable c i inserted before → length xs ≤ n →
  wp (batch_fail (A := A) (size (active c)) inserted before cause) (MkSt (mid c s m i) fs w)
     (batch_failed c L n w).
Proof.
  intros Hc Hf HL [A1 A2 A3 A4 A5] Hr Hn. apply (wp_batch_fail c es ea xs); try done.
  - intros s' m' i' fs' Hc' He. split; [done|]. exists cause, None, s', m', i'. split; [done|]. left.
    split_and!; [done|done| |done]. by exists es, ea.
  - intros s' fs' rb Hc'. split; [done|]. exists cause, (Some rb), s', m, i. split; [done|]. right.
    exists "truncate", (map snd xs). split_and!; [done| |by eapply cinv_lines]. by rewrite length_lines.
Qed.

Lemma wp_batch_poisoned {A} c es ea xs s m i sz inserted before cause L n fs w :
  cinv_at c es ea → L = map snd (concat es ++ ea) → length xs ≤ n →
  Forall (λ x : located, (ID x.2.1 ≤ idSeq c)%Z ∧ in_i64 (ExpiresAt x.2.1)) xs →
  seg_inv s (ea ++ xs) → poisoned s = true → sealed s = false → path s = path (active c) →
  wp (batch_fail (A := A) sz inserted before cause)
     (MkSt (set_fenced (mid c s m i) (Some "truncate")) fs w) (batch_failed c L n w).
Proof.
  intros Hc HL Hn Hxs Hs Hp Hse Hpath. apply wp_batch_fail_poisoned; [done|done|by eexists|].
  intros rb. split; [done|]. exists cause, (Some rb), s, m, i. split; [done|]. right.
  exists "truncate", (map snd xs). split_and!; [done|by rewrite length_lines|].
  eapply cinv_lines; [done|]. by apply mid_cinv_fenced.
Qed.

(** ** The append loop of [InsertMany] *)

(** An entry the batch may append: an insert of an id the index does not have. *)
Definition batch_entry (c : Collection) (exp : Z) (e : Entry) : Prop :=
  plain_readable e ∧ Op e = OpInsert ∧ Rev e = 1%Z ∧ ExpiresAt e = exp ∧
  (ID e ≤ idSeq c)%Z ∧ entries (index c) !! ID e = None.

Definition batch_ids (l : list (Entry * vdata)) : list Z := map (λ x, ID x.1) l.
Definition batch_lines (l : list (Entry * vdata)) : list line := map (λ x, stored x.1) l.

(** The batch is in the log and in the index. *)
Definition batch_done (c : Collection) (es : list (list located)) (ea : list located) (T : list Z)
    (lines : list line) (w : list Z) (st' : St) : Prop :=
  wall st' = w ∧ ∃ s m i xs, coll st' = mid c s m i ∧ batch_at c es ea xs T s i ∧ map snd xs = lines.

Lemma restorable_inserted c es ea xs placed s i :
  batch_at c es ea xs placed s i → Forall (λ id, entries (index c) !! id = None) placed →
  restorable c i placed ∅.
Proof.
  intros A Hn id. rewrite lookup_empty. rewrite Forall_forall in Hn. case_decide; [by apply Hn|].
  by apply (ba_other _ _ _ _ _ _ _ A).
Qed.

Lemma index_set_fresh c es ea xs T s i e exp :
  batch_at c es ea xs T s i → batch_entry c exp e → ID e ∉ T →
  entries (Set_ i (ID e) (MkIE (path (active c)) (size s) 1 exp (Epoch e))) =
  applyOne (entries i) (path (active c)) (size s) e.
Proof.
  intros A (_ & Hop & Hrev & Hexp & _ & Hn) HT. unfold applyOne, next_rev. simpl.
  rewrite decide_True by (by left). rewrite (ba_other _ _ _ _ _ _ _ A) by done. rewrite Hn, Hrev, Hexp. done.
Qed.

Lemma append_batch_spec c es ea L exp w l :
  cinv_at c es ea → fenced c = None → L = map snd (concat es ++ ea) →
  ∀ placed xs s m i fs lines,
    batch_at c es ea xs placed s i → Forall (λ x, batch_entry c exp x.1) l →
    NoDup (placed ++ batch_ids l) → Forall (λ id, entries (index c) !! id = None) placed →
    lines = map snd xs ++ batch_lines l →
    wp (append_batch (size (active c)) exp placed l) (MkSt (mid c s m i) fs w)
       (λ st' r, (r = Ok tt ∧ batch_done c es ea (placed ++ batch_ids l) lines w st') ∨
                 batch_failed c L (length lines) w st' r).
Proof.
  intros Hc Hf HL. induction l as [|[e d] l IH]; intros placed xs s m i fs lines A Hl Hnd Hpl ->; cbn [append_batch].
  { apply wp_ret. left. split; [done|]. split; [done|]. exists s, m, i, xs. cbn. by rewrite !app_nil_r. }
  apply Forall_cons in Hl as [He Hl]. cbn [fst] in He. pose proof He as (Hrd & _ & _ & _ & Hid & Hn).
  assert (HT : ID e ∉ placed).
  { apply NoDup_app in Hnd as (_ & Hd & _). intros Hin. apply (Hd _ Hin). by left. }
  apply (wp_append_active c ea xs); [done|apply A|done|..].
  - intros s1 fs1 B. apply wp_modify. apply wp_modify. cbn [coll io wall].
    set (i1 := Set_ i (ID e) (MkIE (path s1) (size s) 1 exp (Epoch e))).
    set (m1 := map_imap (λ k s, Some (match d !! k with Some v => add s v (ID e) | None => s end)) m).
    replace (placed ++ batch_ids ((e, d) :: l)) with ((placed ++ [ID e]) ++ batch_ids l)
      by (by rewrite <- app_assoc).
    replace (map snd xs ++ batch_lines ((e, d) :: l)) with (map snd (xs ++ [(size s, stored e)]) ++ batch_lines l)
      by (by rewrite map_app, <- app_assoc).
    eapply (IH (placed ++ [ID e]) (xs ++ [(size s, stored e)]) s1 m1 i1 fs1); [|done| | |done].
    + apply (batch_at_step c es ea xs placed _ s i e); try done; [set_solver|set_solver| |].
      * unfold i1. rewrite (bs_path _ _ _ _ B). by eapply index_set_fresh.
      * apply mayExpire_ok_Set, A.
    + by rewrite <- app_assoc.
    + apply Forall_app. split; [done|]. by apply Forall_singleton.
  - intros s1 fs1 err B. eapply wp_mono.
    + apply (wp_batch_abort c es ea xs placed s1 m i placed ∅ err L
        (length (map snd xs ++ batch_lines ((e, d) :: l)))); try done.
      * by destruct A; split.
      * eapply restorable_inserted; done.
      * rewrite length_app, length_lines. lia.
    + intros st' r H. by right.
  - intros s1 fs1 H1 H2 H3 H4. eapply wp_mono; [|intros st' r H; right; exact H].
    apply (wp_batch_poisoned c es ea xs s1 m i _ _ _ _ L); try done; [|apply A]. rewrite length_app, length_lines. lia.
Qed.

(** ** The steps around the loop *)

Lemma quiet_emit_all evs : quiet (emit_all evs).
Proof.
  induction evs as [|ev evs IH]; [apply quiet_ret|]. cbn [emit_all]. apply quiet_bind; [apply quiet_emit|done].
Qed.

Lemma wp_publish_all {B} es (k : unit → M B) st Q :
  (∀ b, wp (k tt) (MkSt (set_broker (coll st) b) (io st) (wall st)) Q) → wp (bind (publish_all es) k) st Q.
Proof.
  revert st. induction es as [|e es IH]; intros st H; cbn [publish_all].
  - apply wp_bind, wp_ret. specialize (H (broker (coll st))). by destruct st as [[] ? ?].
  - apply wp_bind. unfold publishCommit. apply wp_modify. rewrite publish_fed.
    specialize (IH (MkSt (set_broker (coll st) (fed (coll st) e)) (io st) (wall st)) H).
    unfold wp, bind in IH |- *. by destruct (publish_all es _) as [? []].
Qed.

Lemma wp_syncActive {B} (k : res seg_err unit → M B) st Q :
  (∀ fs r, wp (k r) (MkSt (coll st) fs (wall st)) Q) → wp (bind syncActiveLocked k) st Q.
Proof.
  intros H. apply wp_bind. unfold syncActiveLocked. apply wp_get. case_decide.
  - unfold sync_active, wp at 1, on_active. destruct (Sync (active (coll st)) (io st)) as [fs r]. cbn [fst snd].
    rewrite set_active_same. apply H.
  - apply wp_ret. destruct st. apply H.
Qed.

Lemma tx_check_indexes_err c n op cl l e :
  tx_check_indexes c n op cl l = Err e → e ≠ ErrWriteOutcomeUnknown.
Proof.
  revert cl. induction l as [|[f s] l IH]; intros cl; [done|]. cbn [tx_check_indexes tx_check_one].
  intros H He. subst e. unfold tx_check_one in H.
  repeat (dest_match_in H; cbn [res_bind] in H; try done); by eapply IH.
Qed.

Lemma tx_check_ops_err c n cl ops e : tx_check_ops c n cl ops = Err e → e ≠ ErrWriteOutcomeUnknown.
Proof.
  revert cl. induction ops as [|op ops IH]; intros cl; [done|]. cbn [tx_check_ops]. case_decide; [apply IH|].
  destruct (tx_check_indexes _ _ _ _ _) as [cl'|e'] eqn:E; cbn [res_bind]; [apply IH|].
  intros [= <-]. by eapply tx_check_indexes_err.
Qed.

Lemma wp_txCheckUnique {B} ops (k : unit → M B) st Q :
  world st →
  (∀ st' e, world st' → frame (coll st) (coll st') → e ≠ ErrWriteOutcomeUnknown → Q st' (Err e)) →
  (∀ st', world st' → frame (coll st) (coll st') → wp (k tt) st' Q) →
  wp (bind (txCheckUnique ops) k) st Q.
Proof.
  intros Hw Herr Hok. apply wp_bind. unfold txCheckUnique. apply wp_now; [done|].
  intros st1 n Hw1 F _ _ _. apply wp_get. destruct (tx_check_ops _ _ _ _) as [cl|e] eqn:E.
  - apply wp_ret. by apply Hok.
  - apply wp_throw. apply Herr; [done|done|]. by eapply tx_check_ops_err.
Qed.

(** ** InsertMany *)

(** An entry built for the record [d]. *)
Definition built (c : Collection) (ts : time) (exp : Z) (x : Entry * vdata) : Prop :=
  plain_readable x.1 ∧ Op x.1 = OpInsert ∧ Rev x.1 = 1%Z ∧ ExpiresAt x.1 = exp ∧ Ts x.1 = ts ∧
  ∃ d', Data x.1 = Some d' ∧ sealed_as c x.2 d' (Epoch x.1).

Lemma built_frame c c' ts exp x : frame c c' → built c' ts exp x → built c ts exp x.
Proof.
  intros F (H1 & H2 & H3 & H4 & H5 & d' & H6 & H7). split_and!; try done.
  exists d'. split; [done|]. by eapply sealed_as_frame.
Qed.

Lemma build_batch_spec n exp records st :
  world st → (0 ≤ n < two63)%Z → in_i64 exp → enc_good (coll st) → Forall good_data records →
  (0 ≤ idSeq (coll st))%Z → (idSeq (coll st) + Z.of_nat (length records) < two64)%Z →
  wp (build_batch records (time_of_nanos n) exp) st
    (λ st' r, world st' ∧ frame (coll st) (coll st') ∧
       match r with
       | Err e => e = ErrCrypto
       | Ok (l, _) =>
           map snd l = records ∧ batch_ids l = seqZ (idSeq (coll st) + 1) (Z.of_nat (length records)) ∧
           (idSeq (coll st) + Z.of_nat (length records) ≤ idSeq (coll st'))%Z ∧
           Forall (built (coll st) (time_of_nanos n) exp) l
       end).
Proof.
  intros Hw Hn Hexp He Hd H0 Hroom. revert st Hw He H0 Hroom.
  induction Hd as [|d records Hd _ IH]; intros st Hw He H0 Hroom; cbn [build_batch].
  { apply wp_ret. split; [done|]. split; [apply frame_refl|]. simpl. split_and!; [done|done|lia|constructor]. }
  cbn [length] in Hroom.
  apply wp_next_id; [done|done|lia|]. intros st1 Hw1 F1 Eid.
  apply wp_seal; [done|]. intros d' ep Hs.
  assert (He1 : enc_good (coll st1)) by (unfold enc_good; by rewrite (fr_enc _ _ F1)).
  destruct (sealed_as_good _ _ _ _ He1 Hd Hs) as [Hd' Hep]. apply wp_get. apply wp_bind.
  eapply wp_mono; [apply (IH st1); [done|done|lia|lia]|].
  intros st2 r (Hw2 & F2 & Hr). pose proof (frame_trans _ _ _ F1 F2) as F.
  destruct r as [[l b]|e]; [|by split_and!].
  destruct Hr as (Hmap & Hids & Hle & Hall). apply wp_ret. split; [done|]. split; [done|].
  split_and!; [by simpl; rewrite Hmap| |simpl; lia|].
  - unfold batch_ids in *. cbn [map length]. rewrite Nat2Z.inj_succ. rewrite seqZ_cons by lia.
    rewrite Hids, Eid. cbn [fst ID]. f_equal. f_equal; lia.
  - apply Forall_cons. split.
    + unfold built. cbn [fst snd Op Rev ExpiresAt Ts Data Epoch]. split_and!; try done.
      * apply entry_readable; try done; unfold in_u64; lia || (unfold two64; lia).
      * exists d'. split; [done|]. exact (sealed_as_frame _ _ _ _ _ F1 Hs).
    + eapply List.Forall_impl; [|exact Hall]. intros x. by apply built_frame.
Qed.

(** A batch of [n] lines that was refused or undone, or that fenced. *)
Definition batch_undone (c : Collection) (L : list line) (n : nat) (c' : Collection) : Prop :=
  (cinv c' L ∧ fenced c' = fenced c ∧ entries (index c') = entries (index c)) ∨
  (fenced c = None ∧ is_Some (fenced c') ∧ ∃ L', length L' ≤ n ∧ cinv c' (L ++ L')).

(** The outcome of a batch insert on the collection [c] of lines [L]. *)
Definition batch_contract (c : Collection) (L : list line) (records : list vdata) (c' : Collection)
    (r : res cerr batchResult) : Prop :=
  match r with
  | Ok br =>
      fenced c = None ∧
      ∃ es, cinv c' (L ++ map stored es) ∧ br_ids br = map ID es ∧
        Forall2 (λ e d, Op e = OpInsert ∧ Rev e = 1%Z ∧ Ts e = br_ts br ∧
                        ∃ d', Data e = Some d' ∧ sealed_as c d d' (Epoch e)) es records
  | Err _ => batch_undone c L (length records) c'
  end.

Definition batch_room (c : Collection) (n : nat) : Prop :=
  (idSeq c + Z.of_nat n < two64 ∧ segSeq c + 1 < two64)%Z.

Lemma mid_same c : mid c (active c) (sidxMap c) (index c) = c.
Proof. by destruct c. Qed.

Lemma refused_batch c c' L n :
  frame c c' → cinv c L → batch_undone c L n c'.
Proof.
  intros F Hc. left. split_and!; [by eapply cinv_frame|apply F|by rewrite (fr_index _ _ F)].
Qed.

Lemma batch_failed_undone {A} c c1 L n w st' (r : res cerr A) :
  frame c c1 → fenced c = None → batch_failed c1 L n w st' r →
  wall st' = w ∧ clockFloor (coll st') = clockFloor c1 ∧ batch_undone c L n (coll st').
Proof.
  intros F Hf (Hw & cause & rb & s & m & i & -> & H).
  destruct H as [(Hst & -> & Hc & He)|(why & L' & Hst & Hn & Hc)]; rewrite Hst in *; (split_and!; [done|done|]).
  - left. split_and!; [done|apply F|]. simpl. by rewrite He, (fr_index _ _ F).
  - right. split_and!; [done|by eexists|]. exists L'. split; [lia|done].
Qed.

Lemma Forall2_built c ts exp l ids records br :
  Forall (built c ts exp) l → map snd l = records → br = MkBatch ids ts (br_post br) →
  Forall2 (λ e d, Op e = OpInsert ∧ Rev e = 1%Z ∧ Ts e = br_ts br ∧
             ∃ d', Data e = Some d' ∧ sealed_as c d d' (Epoch e)) (map fst l) records.
Proof.
  intros Hl <- ->. induction Hl as [|[e d] l (_ & H2 & H3 & _ & H5 & H6) _ IH]; [constructor|].
  cbn [map fst snd]. constructor; [|done]. by split_and!.
Qed.

Lemma insert_many_spec n exp records st L :
  world st → cinv (coll st) L → batch_room (coll st) (length records) → enc_good (coll st) →
  Forall good_data records → (0 ≤ n < two63)%Z → in_i64 exp →
  wp (insert_many_legacy records (time_of_nanos n) exp) st
     (λ st' r, world st' ∧ batch_contract (coll st) L records (coll st') r).
Proof.
  intros Hw Hc [Hr1 Hr2] He Hd Hn Hexp. unfold insert_many_legacy. set (c := coll st) in *.
  assert (H0 : (0 ≤ idSeq c)%Z) by (destruct Hc as (es & ea & Hc & _); apply Hc).
  apply wp_bind. eapply wp_mono; [by apply build_batch_spec|].
  intros st1 r (Hw1 & F1 & Hb). fold c in F1.
  assert (Href : ∀ st' e, world st' → frame c (coll st') →
    world st' ∧ batch_contract c L records (coll st') (Err e)).
  { intros st' e Hw' F. split; [done|]. by eapply refused_batch. }
  destruct r as [[l b]|e]; [|by apply Href]. destruct Hb as (Hmap & Hids & Hle & Hall). fold c in Hids, Hle, Hall.
  apply wp_checkFenced; [by intros _; apply Href|]. intros Hf1. apply wp_get.
  assert (Hf : fenced c = None) by (by rewrite <- (fr_fenced _ _ F1)).
  apply wp_bind. unfold checkQuotaLocked. apply wp_get.
  destruct (quota_exceeded _ _ _); [by apply Href|]. apply wp_ret.
  apply wp_txCheckUnique; [done|intros st2 e Hw2 F2 _; apply Href; [done|by eapply frame_trans]|].
  intros st2 Hw2 F2. pose proof (frame_trans _ _ _ F1 F2) as F. rewrite (fr_active _ _ F1).
  set (c2 := coll st2) in *.
  destruct (cinv_frame c c2 L F Hc) as (es & ea & Hc2 & HL).
  assert (Hf2 : fenced c2 = None) by (by rewrite (fr_fenced _ _ F)).
  rewrite <- (fr_active _ _ F).
  apply wp_bind. replace st2 with (MkSt (mid c2 (active c2) (sidxMap c2) (index c2)) (io st2) (wall st2))
    by (rewrite mid_same; by destruct st2).
  assert (Hlen : length (batch_lines l) = length records) by (unfold batch_lines; rewrite <- Hmap, !List.length_map; done).
  assert (Hworld : ∀ st', wall st' = wall st2 → clockFloor (coll st') = clockFloor c2 → world st').
  { intros st' H1 H2. by eapply (world_same st2). }
  eapply wp_mono.
  { apply (append_batch_spec c2 es ea L exp (wall st2) l Hc2 Hf2 HL [] [] _ _ _ _ (batch_lines l)).
    - by apply batch_at_start.
    - apply Forall_forall. intros x Hx. rewrite Forall_forall in Hall.
      destruct (Hall x Hx) as (B1 & B2 & B3 & B4 & _).
      assert (Hin : ID x.1 ∈ batch_ids l) by (apply list_elem_of_fmap; eauto).
      rewrite Hids, elem_of_seqZ in Hin. pose proof (fr_idSeq _ _ F2).
      split_and!; try done; [lia|]. rewrite (fr_index _ _ F). apply (cinv_fresh_id c L); [done|done|lia].
    - simpl. rewrite Hids. apply NoDup_seqZ.
    - constructor.
    - done. }
  intros st3 r Hst3. destruct Hst3 as [[-> (Hw3 & s & m & i & xs & Est & A & Hxs)]|Hfail].
  2:{ destruct r as [u|e]; [by destruct Hfail as (_ & ? & ? & ? & ? & ? & [=] & _)|].
      destruct (batch_failed_undone c c2 L _ _ _ _ F Hf Hfail) as (H1 & H2 & H3).
      split; [by apply Hworld|]. unfold batch_contract. rewrite <- Hlen. exact H3. }
  pose proof (batch_at_cinv c2 es ea xs _ s m i Hc2 A) as Hc3. rewrite <- Est in Hc3.
  apply wp_syncActive. intros fs4 synced. rewrite Est. destruct synced as [u|err].
  2:{ eapply wp_mono.
      - apply (wp_batch_abort c2 es ea xs (batch_ids l) s m i (map (λ x, ID x.1) l) ∅ err L (length (batch_lines l))); try done.
        + apply (restorable_inserted c2 es ea xs (batch_ids l) s i A).
          apply Forall_forall. intros id Hin. rewrite Hids, elem_of_seqZ in Hin.
          rewrite (fr_index _ _ F). apply (cinv_fresh_id c L); [done|done|lia].
        + rewrite <- Hxs. by rewrite length_lines.
      - intros st' r Hfail. rewrite Hw3 in Hfail.
        destruct (batch_failed_err (B := unit) _ _ _ _ _ _ Hfail) as (e & -> & _).
        destruct (batch_failed_undone c c2 L _ _ _ _ F Hf Hfail) as (H1 & H2 & H3).
        split; [by apply Hworld|]. unfold batch_contract. rewrite <- Hlen. exact H3. }
  apply wp_publish_all. intros br. apply wp_get. cbn [coll io wall].
  assert (Hc4 : cinv (set_broker (mid c2 s m i) br) (L ++ batch_lines l)).
  { apply cinv_broker. rewrite <- Hxs. eapply cinv_lines; [done|]. by rewrite <- Est. }
  apply wp_quiet; [apply quiet_emit_all|by apply Hworld|]. intros st5 _ Hw5 F5. cbn [coll] in F5.
  apply (wp_rotate_post _ _ _ (L ++ batch_lines l)); [done|by eapply cinv_frame| |].
  { rewrite (fr_segSeq _ _ F5). simpl. by rewrite (fr_segSeq _ _ F). }
  intros st6 post Hw6 T Hc6 _ _. apply wp_ret. split; [done|]. split; [done|].
  exists (map fst l). split_and!.
  - by rewrite map_map.
  - by rewrite map_map.
  - by eapply Forall2_built.
Qed.

(** ** CommitTx *)

Definition op_name (k : txOpKind) : string :=
  match k with txOpInsert => OpInsert | txOpUpdate => OpUpdate | txOpDelete => OpDelete end.

(** A staged operation, sealed, that the commit loop may apply to [c]. *)
Definition tx_item_ok (c : Collection) (x : txOp * option vdata) : Prop :=
  in_u64 (to_id x.1) ∧ (to_id x.1 ≤ idSeq c)%Z ∧ time_wf (to_ts x.1) ∧
  match to_kind x.1 with
  | txOpInsert => entries (index c) !! to_id x.1 = None ∧ ∃ d, x.2 = Some d ∧ good_data d
  | txOpUpdate => ∃ d, x.2 = Some d ∧ good_data d
  | txOpDelete => True
  end.

(** Inserts come with ids no earlier operation of the commit has used. *)
Fixpoint fresh_inserts (T : list Z) (ops : list txOp) : Prop :=
  match ops with
  | [] => True
  | op :: ops' => (to_kind op = txOpInsert → to_id op ∉ T) ∧ fresh_inserts (T ++ [to_id op]) ops'
  end.

(** The revision and the deadline of each live record. *)
Definition rev_exp (i : Index) : gmap Z (Z * Z) := (λ ie, (ie_Rev ie, ie_ExpiresAt ie)) <$> entries i.

(** [tx_entry] depends on the revisions and deadlines only. *)
Definition view_entry (v : gmap Z (Z * Z)) (exp epoch : Z) (op : txOp) (sealed : option vdata) : Entry :=
  match to_kind op with
  | txOpInsert => MkEntry (to_id op) OpInsert (to_ts op) 1 sealed epoch exp None
  | txOpUpdate =>
      let '(rev, ex) := match v !! to_id op with Some (rev, ex) => (u64 (rev + 1), ex) | None => (1, 0)%Z end in
      MkEntry (to_id op) OpUpdate (to_ts op) rev sealed epoch ex None
  | txOpDelete => NewDelete (to_ts op) (to_id op)
  end.

(** What an operation that wrote [e] does to them. *)
Definition tx_after (v : gmap Z (Z * Z)) (op : txOp) (e : Entry) : gmap Z (Z * Z) :=
  match to_kind op with
  | txOpDelete => delete (to_id op) v
  | _ => <[to_id op := (Rev e, ExpiresAt e)]> v
  end.

Fixpoint view_entries (v : gmap Z (Z * Z)) (exp epoch : Z) (l : list (txOp * option vdata)) : list Entry :=
  match l with
  | [] => []
  | (op, sealed) :: l' =>
      let e := view_entry v exp epoch op sealed in e :: view_entries (tx_after v op e) exp epoch l'
  end.

Lemma view_entries_length v exp epoch l : length (view_entries v exp epoch l) = length l.
Proof. revert v. induction l as [|[op sd] l IH]; intros v; [done|]. cbn. by rewrite IH. Qed.

Lemma tx_entry_view c exp epoch op sd : tx_entry c exp epoch op sd = view_entry (rev_exp (index c)) exp epoch op sd.
Proof.
  unfold tx_entry, view_entry, rev_exp, Get. destruct (to_kind op); [done| |done]. rewrite lookup_fmap.
  by destruct (entries (index c) !! to_id op).
Qed.

Lemma tx_entry_matches c exp epoch op sd (e := tx_entry c exp epoch op sd) :
  ID e = to_id op ∧ Op e = op_name (to_kind op) ∧ Ts e = to_ts op.
Proof.
  subst e. unfold tx_entry. destruct (to_kind op); [done| |done]. by destruct (Get (index c) (to_id op)).
Qed.

Lemma tx_entry_readable c L exp epoch x :
  cinv c L → fenced c = None → in_i64 exp → in_u64 epoch →
  in_u64 (to_id x.1) → time_wf (to_ts x.1) →
  (to_kind x.1 ≠ txOpDelete → ∃ d, x.2 = Some d ∧ good_data d) →
  plain_readable (tx_entry c exp epoch x.1 x.2).
Proof.
  intros Hc Hf Hexp Hep Hid Hts Hd.
  assert (Hone : in_u64 1) by (unfold in_u64, two64; lia).
  assert (Hzu : in_u64 0) by (unfold in_u64, two64; lia).
  assert (Hzi : in_i64 0) by (unfold in_i64, two63; lia).
  assert (Hgen : ∀ op rev ex, to_kind x.1 ≠ txOpDelete → str_utf8 op → in_u64 rev → in_i64 ex →
    plain_readable (MkEntry (to_id x.1) op (to_ts x.1) rev x.2 epoch ex None)).
  { intros op rev ex Hk Hop Hrev Hex. destruct (Hd Hk) as (d & -> & [Hwf Hne]).
    split; [by split|simpl; congruence]. }
  unfold tx_entry. destruct (to_kind x.1) eqn:Ek.
  - by apply Hgen.
  - destruct (Get (index c) (to_id x.1)) as [cur|] eqn:Eg; [|by apply Hgen].
    apply Hgen; [done|done|apply u64_range|]. exact (cinv_exp_range c L _ cur Hc Hf Eg).
  - split; [|done]. by split.
Qed.

(** The effect of an operation on the index, and on the invariant of the batch. *)
Definition tx_index (op : txOp) (e : Entry) (p : string) (o : nat) (i : Index) : Index :=
  match to_kind op with
  | txOpDelete => Index.Delete i (to_id op)
  | _ => Set_ i (to_id op) (MkIE p o (Rev e) (ExpiresAt e) (Epoch e))
  end.

Lemma tx_index_applyOne c es ea xs T s m i exp epoch x :
  batch_at c es ea xs T s i → tx_item_ok c x → (to_kind x.1 = txOpInsert → to_id x.1 ∉ T) →
  let e := tx_entry (mid c s m i) exp epoch x.1 x.2 in
  entries (tx_index x.1 e (path (active c)) (size s) i) = applyOne (entries i) (path (active c)) (size s) e.
Proof.
  intros A (_ & _ & _ & Hk) HT e. unfold e, tx_index, tx_entry, applyOne. destruct (to_kind x.1) eqn:Ek.
  - rewrite decide_True by (by left). simpl. unfold next_rev. simpl.
    destruct Hk as [Hn _]. rewrite (ba_other _ _ _ _ _ _ _ A) by auto. by rewrite Hn.
  - change (Get (index (mid c s m i)) (to_id x.1)) with (entries i !! to_id x.1).
    destruct (entries i !! to_id x.1) as [cur|] eqn:Eg.
    + rewrite decide_True by (by right). simpl. rewrite (next_rev_exact _ _ cur); done.
    + rewrite decide_True by (by right). simpl. unfold next_rev. simpl. by rewrite Eg.
  - done.
Qed.

Lemma tx_index_view op e p o i : rev_exp (tx_index op e p o i) = tx_after (rev_exp i) op e.
Proof.
  unfold rev_exp, tx_index, tx_after. destruct (to_kind op); simpl; [by rewrite fmap_insert..|by rewrite fmap_delete].
Qed.

Lemma tx_index_expire op e p o i : mayExpire_ok i → mayExpire_ok (tx_index op e p o i).
Proof.
  intros H. unfold tx_index. destruct (to_kind op); [by apply mayExpire_ok_Set..|by apply mayExpire_ok_Delete].
Qed.

Lemma wp_tx_apply {B} op e o (k : unit → M B) st Q :
  (∀ m, wp (k tt) (MkSt (set_sidxMap (set_index (coll st)
        (tx_index op e (path (active (coll st))) o (index (coll st)))) m) (io st) (wall st)) Q) →
  wp (bind (tx_apply op e o) k) st Q.
Proof.
  intros H. apply wp_bind. unfold tx_apply, tx_index in *.
  destruct (to_kind op); apply wp_modify; apply H.
Qed.

(** What the saved entries restore. *)
Lemma path_nonempty c L id ie :
  cinv c L → fenced c = None → Get (index c) id = Some ie → SegmentPath ie ≠ "".
Proof.
  intros Hc Hf Hg Hp. pose proof (cinv_lookup c L id Hc Hf) as H.
  destruct (records _ L !! id) as [[e rev]|]; [|congruence].
  destruct H as (loc & seg & Hg' & _ & _ & _ & _ & Hseg & _). rewrite Hg in Hg'. injection Hg' as <-.
  rewrite Hp in Hseg. destruct Hc as (es & ea & Hc & _).
  destruct (ca_nums _ _ _ Hc) as (nums & Hpaths & _ & _).
  assert (Hin : "" ∈ map path (all_segments c)).
  { unfold segmentByPathLocked in Hseg. unfold all_segments. rewrite map_app. apply elem_of_app.
    destruct (filter (λ s, path s = "") (sealedSegs c)) as [|s l] eqn:Efi.
    - right. case_decide as Ep; [|done]. simpl. rewrite Ep. by left.
    - left. assert (Hs : s ∈ filter (λ s, path s = "") (sealedSegs c)) by (rewrite Efi; by left).
      apply list_elem_of_filter in Hs as [Hs1 Hs2]. rewrite <- Hs1. apply list_elem_of_fmap. eauto. }
  rewrite Hpaths in Hin. apply list_elem_of_fmap in Hin as (n & Hn & _).
  apply (f_equal b_of_s) in Hn. unfold segmentPath in Hn. rewrite b_of_s_of_b in Hn.
  apply (f_equal length) in Hn. rewrite !length_app in Hn. simpl in Hn. lia.
Qed.

Lemma tx_before_lookup c ops id :
  tx_before c ops !! id =
  if decide (id ∈ map to_id ops) then Some (default zero_IndexEntry (Get (index c) id)) else None.
Proof.
  unfold tx_before.
  assert (Hgen : ∀ (m0 : gmap Z IndexEntry),
    (∀ i e, m0 !! i = Some e → e = default zero_IndexEntry (Get (index c) i)) →
    foldl (λ m op, match m !! to_id op with
                   | Some _ => m
                   | None => <[to_id op := default zero_IndexEntry (Get (index c) (to_id op))]> m
                   end) m0 ops !! id =
    if decide (id ∈ map to_id ops) then Some (default zero_IndexEntry (Get (index c) id)) else m0 !! id).
  { induction ops as [|op ops IH]; intros m0 Hm0; [by rewrite decide_False by apply not_elem_of_nil|].
    cbn [foldl map]. rewrite IH.
    - destruct (decide (id ∈ map to_id ops)) as [Hin|Hin]; [by rewrite decide_True by (by right)|].
      destruct (decide (id = to_id op)) as [->|Hne].
      + rewrite decide_True by (by left). destruct (m0 !! to_id op) as [e|] eqn:E; [by rewrite E, (Hm0 _ _ E)|].
        by rewrite lookup_insert_eq.
      + rewrite decide_False by (rewrite elem_of_cons; naive_solver).
        destruct (m0 !! to_id op); [done|]. by rewrite lookup_insert_ne.
    - intros i e Hi. destruct (m0 !! to_id op) eqn:E; [by apply Hm0|].
      destruct (decide (i = to_id op)) as [->|Hne]; [rewrite lookup_insert_eq in Hi; by simplify_eq|].
      rewrite lookup_insert_ne in Hi by done. by apply Hm0. }
  rewrite Hgen; [by rewrite lookup_empty|]. intros i e Hi. by rewrite lookup_empty in Hi.
Qed.

Lemma restorable_tx c c0 L es ea xs T s i ops :
  cinv c L → fenced c = None → index c0 = index c → batch_at c es ea xs T s i → T ⊆ map to_id ops →
  restorable c i [] (tx_before c0 ops).
Proof.
  intros Hc Hf Hi A HT id. rewrite tx_before_lookup, Hi. case_decide as Hin.
  - unfold restored. destruct (Get (index c) id) as [ie|] eqn:Eg; simpl.
    + rewrite decide_False by (by eapply path_nonempty). by unfold Get in Eg.
    + by unfold Get in Eg.
  - rewrite decide_False by apply not_elem_of_nil. apply (ba_other _ _ _ _ _ _ _ A). set_solver.
Qed.

Lemma tx_loop_spec c c0 es ea L exp epoch w allops n l :
  cinv_at c es ea → fenced c = None → L = map snd (concat es ++ ea) → index c0 = index c →
  in_i64 exp → in_u64 epoch →
  ∀ T xs s m i fs,
    batch_at c es ea xs T s i → Forall (tx_item_ok c) l → fresh_inserts T (map fst l) →
    T ++ map to_id (map fst l) ⊆ map to_id allops → length xs + length l ≤ n →
    wp (tx_loop (size (active c)) (tx_before c0 allops) exp epoch l) (MkSt (mid c s m i) fs w)
       (λ st' r, (∃ es', r = Ok es' ∧ es' = view_entries (rev_exp i) exp epoch l ∧
                    batch_done c es ea (T ++ map to_id (map fst l)) (map snd xs ++ map stored es') w st') ∨
                 batch_failed c L n w st' r).
Proof.
  intros Hc Hf HL Hi0 Hexp Hep. assert (Hcv : cinv c L) by (by exists es, ea).
  induction l as [|x l IH]; intros T xs s m i fs A Hl Hfr Hsub Hn; cbn [tx_loop].
  { apply wp_ret. left. exists []. split_and!; [done|done|]. split; [done|].
    exists s, m, i, xs. cbn. by rewrite !app_nil_r. }
  destruct x as [op sd]. apply Forall_cons in Hl as [Hx Hl]. cbn [map fst] in *. destruct Hfr as [Hins Hfr].
  assert (HsubT : T ⊆ map to_id allops) by set_solver.
  assert (Hrest := λ s, restorable_tx c c0 L es ea xs T s i allops Hcv Hf Hi0).
  pose proof (batch_at_cinv c es ea xs T s m i Hc A) as Hmid.
  apply wp_get. cbn [coll]. set (e := tx_entry (mid c s m i) exp epoch op sd).
  assert (Hrd : plain_readable e).
  { apply (tx_entry_readable _ (map snd (concat es ++ ea ++ xs)) exp epoch (op, sd)); try done.
    - by exists es, (ea ++ xs).
    - apply Hx.
    - apply Hx.
    - destruct Hx as (_ & _ & _ & Hk). cbn [fst snd] in *. destruct (to_kind op); [by destruct Hk| |]; done. }
  destruct (tx_entry_matches (mid c s m i) exp epoch op sd) as (Hid & Hop & Hts). fold e in Hid, Hop, Hts.
  apply (wp_append_active c ea xs); [done|apply A|done|..].
  - intros s1 fs1 Hb. apply wp_tx_apply. intros m1. cbn [coll io wall].
    set (i1 := tx_index op e (path s1) (size s) i). apply wp_bind.
    assert (A1 : batch_at c es ea (xs ++ [(size s, stored e)]) (T ++ [to_id op]) s1 i1).
    { apply (batch_at_step c es ea xs T _ s i e); try done.
      - rewrite Hid. apply Hx.
      - rewrite Hid. set_solver.
      - set_solver.
      - unfold i1. rewrite (bs_path _ _ _ _ Hb). by apply (tx_index_applyOne c es ea xs T s m i exp epoch (op, sd)).
      - by apply tx_index_expire, A. }
    eapply wp_mono.
    { apply (IH (T ++ [to_id op]) (xs ++ [(size s, stored e)]) s1 m1 i1 fs1); try done.
      - rewrite <- app_assoc. exact Hsub.
      - rewrite length_app. cbn [length] in *. lia. }
    intros st' r [(es' & -> & Hm & Hdone)|Hfail].
    + apply wp_ret. left. exists (e :: es'). split_and!; [done| |].
      { cbn [view_entries]. rewrite <- (tx_entry_view (mid c s m i)). fold e. by rewrite Hm, <- (tx_index_view op e (path s1) (size s) i). }
      cbn [map]. rewrite <- app_assoc in Hdone. rewrite map_app, <- app_assoc in Hdone. exact Hdone.
    + apply (batch_failed_err (B := list Entry)) in Hfail as (e' & -> & Hfail). by right.
  - intros s1 fs1 err Hb. assert (A1 : batch_at c es ea xs T s1 i) by (by destruct A; split).
    eapply wp_mono; [|intros st' r H; right; exact H].
    apply (wp_batch_abort c es ea xs T s1 m i [] _ err L n); try done; [by apply (Hrest s1)|lia].
  - intros s1 fs1 H1 H2 H3 H4. eapply wp_mono; [|intros st' r H; right; exact H].
    apply (wp_batch_poisoned c es ea xs s1 m i _ _ _ _ L n); try done; [lia|apply A].
Qed.

(** The operations a transaction manager hands over. *)
Definition tx_op_ok (c : Collection) (op : txOp) : Prop :=
  in_u64 (to_id op) ∧ time_wf (to_ts op) ∧
  match to_kind op with
  | txOpInsert => (to_id op ≤ idSeq c)%Z ∧ entries (index c) !! to_id op = None ∧ good_data (to_data op)
  | txOpUpdate => good_data (to_data op) ∧ ∀ k, kept_key c (to_id op) (to_data op) = Some k → str_utf8 k
  | txOpDelete => True
  end.

Definition tx_ops_ok (c : Collection) (ops : list txOp) : Prop :=
  Forall (tx_op_ok c) ops ∧ fresh_inserts [] ops.

(** The line of a staged operation: its id, op and timestamp; for an insert the first
    revision, the deadline [exp] and the data given; for an update the revision after
    the current one, the current deadline and the data given with the record's key
    kept; the data as the collection seals them. *)
Definition tx_written (c : Collection) (exp : Z) (v : gmap Z (Z * Z)) (op : txOp) (e : Entry) : Prop :=
  ID e = to_id op ∧ Op e = op_name (to_kind op) ∧ Ts e = to_ts op ∧
  match to_kind op with
  | txOpInsert => Rev e = 1%Z ∧ ExpiresAt e = exp ∧ ∃ d, Data e = Some d ∧ sealed_as c (to_data op) d (Epoch e)
  | txOpUpdate =>
      (Rev e, ExpiresAt e) = match v !! to_id op with Some (rev, ex) => (u64 (rev + 1), ex) | None => (1, 0)%Z end ∧
      ∃ d, Data e = Some d ∧ sealed_as c (stamp_opt (kept_key c (to_id op) (to_data op)) (to_data op)) d (Epoch e)
  | txOpDelete => Data e = None
  end.

(** The lines of a transaction, each on the revisions the ones before it left. *)
Fixpoint tx_lines (c : Collection) (exp : Z) (v : gmap Z (Z * Z)) (ops : list txOp) (es : list Entry) : Prop :=
  match ops, es with
  | [], [] => True
  | op :: ops', e :: es' => tx_written c exp v op e ∧ tx_lines c exp (tx_after v op e) ops' es'
  | _, _ => False
  end.

(** The outcome of a commit. *)
Definition tx_contract {A} (c : Collection) (L : list line) (ops : list txOp) (c' : Collection)
    (r : res cerr A) : Prop :=
  match r with
  | Ok _ => fenced c = None ∧ ∃ exp es, fresh_deadline c None (clockFloor c') exp ∧
              cinv c' (L ++ map stored es) ∧ tx_lines c exp (rev_exp (index c)) ops es
  | Err _ => batch_undone c L (length ops) c'
  end.

Lemma preserve_id c ops : map to_id (preserve_ops c ops) = map to_id ops.
Proof. unfold preserve_ops. rewrite map_map. apply map_ext. intros op. by case_decide. Qed.

Lemma preserve_fresh c T ops : fresh_inserts T ops → fresh_inserts T (preserve_ops c ops).
Proof.
  revert T. induction ops as [|op ops IH]; intros T; [done|]. cbn [fresh_inserts preserve_ops map].
  intros [H1 H2]. split; case_decide; simpl; [done|done|by apply IH..].
Qed.

Lemma tx_lines_frame c c2 exp v ops es : frame c c2 → tx_lines c2 exp v ops es → tx_lines c exp v ops es.
Proof.
  intros F. revert v es. induction ops as [|op ops IH]; intros v [|e es]; try done. cbn [tx_lines].
  intros [(H1 & H2 & H3 & H4) Hr]. split; [|by apply IH]. split_and!; [done..|].
  destruct (to_kind op); [destruct H4 as (? & ? & d & ? & Hs)|destruct H4 as (? & d & ? & Hs)|done].
  - split_and!; [done..|]. exists d. split; [done|]. by eapply sealed_as_frame.
  - split; [done|]. exists d. split; [done|]. rewrite (kept_key_frame _ _ _ _ F) in Hs. by eapply sealed_as_frame.
Qed.

Lemma sealed_lines c exp ops l :
  seal_ops (enc c) (preserve_ops c ops) = Ok l →
  ∀ v, tx_lines c exp v ops (view_entries v exp (match enc c with Some en => enc_epoch en | None => 0%Z end) l).
Proof.
  set (epoch := match enc c with Some en => _ | None => _ end). revert l. induction ops as [|op ops IH]; intros l H v.
  { injection H as <-. done. }
  cbn [preserve_ops map seal_ops] in H. fold (preserve_ops c ops) in H.
  set (op' := if decide (to_kind op = txOpUpdate) then _ else _) in H.
  assert (to_kind op' = to_kind op ∧ to_id op' = to_id op ∧ to_ts op' = to_ts op) as (K1 & K2 & K3)
    by (unfold op'; destruct (decide (to_kind op = txOpUpdate)); repeat split).
  destruct (if decide (to_kind op' = txOpDelete) then _ else _) as [sd|] eqn:Es; [|done]. cbn [res_bind] in H.
  destruct (seal_ops (enc c) (preserve_ops c ops)) as [l'|] eqn:El; [|done]. cbn [res_bind] in H. injection H as <-.
  assert (Hsd : to_kind op ≠ txOpDelete → ∃ d, sd = Some d ∧ sealed_as c (to_data op') d epoch).
  { intros Hk. rewrite decide_False in Es by congruence. unfold sealed_as, epoch. destruct (enc c) as [en|]; [|injection Es as <-; eauto].
    destruct (enc_encrypt en (to_data op')) as [d|]; [|done]. injection Es as <-. eauto. }
  cbn [view_entries tx_lines]. split.
  2:{ replace (tx_after v op' _) with (tx_after v op (view_entry v exp epoch op' sd)) by (unfold tx_after; by rewrite K1, K2).
      by apply IH. }
  unfold tx_written, view_entry. rewrite K1, K2, K3. unfold op' in Hsd. destruct (to_kind op) eqn:Ek.
  - rewrite decide_False in Hsd by done. split_and!; try reflexivity. by apply Hsd.
  - rewrite decide_True in Hsd by done. destruct (Hsd ltac:(done)) as (d & -> & Hs). cbn [to_data] in Hs. rewrite preserve_kept in Hs.
    destruct (v !! to_id op) as [[rev ex]|]; split_and!; try done; by exists d.
  - done.
Qed.

Lemma seal_ops_spec c ops l :
  enc_good c → seal_ops (enc c) ops = Ok l →
  map fst l = ops ∧
  Forall (λ x, to_kind x.1 ≠ txOpDelete → good_data (to_data x.1) → ∃ d, x.2 = Some d ∧ good_data d) l.
Proof.
  intros He. revert l. induction ops as [|op ops IH]; intros l H; cbn [seal_ops] in H; [by injection H as <-|].
  destruct (if decide (to_kind op = txOpDelete) then _ else _) as [sd|] eqn:Es; [|done]. cbn [res_bind] in H.
  destruct (seal_ops (enc c) ops) as [l'|]; [|done]. cbn [res_bind] in H. injection H as <-.
  destruct (IH l' eq_refl) as [<- Hall]. split; [done|]. apply Forall_cons. split; [|done].
  cbn [fst snd]. intros Hk Hd. rewrite decide_False in Es by done.
  destruct (enc c) as [en|] eqn:Een; [|injection Es as <-; eauto].
  destruct (enc_encrypt en (to_data op)) as [d'|] eqn:Ed; [|done]. injection Es as <-.
  destruct (He en Een) as [_ Hg]. eauto.
Qed.

Lemma missing_target_none c ops op :
  missing_target c ops = None → op ∈ ops → to_kind op ≠ txOpInsert → is_Some (Get (index c) (to_id op)).
Proof.
  intros Hm Hin Hk. unfold missing_target in Hm. destruct (Get (index c) (to_id op)) eqn:Eg; [by eexists|].
  exfalso. assert (Hx : to_id op ∈ omap (λ op, if decide (to_kind op ≠ txOpInsert ∧ Get (index c) (to_id op) = None)
                    then Some (to_id op) else None) ops).
  { apply list_elem_of_omap. exists op. split; [done|]. by rewrite decide_True. }
  destruct (omap _ ops); [by apply not_elem_of_nil in Hx|done].
Qed.

Lemma tx_items_ok c c2 L ops l :
  cinv c L → fenced c = None → frame c c2 → enc_good c → tx_ops_ok c ops → missing_target c ops = None →
  seal_ops (enc c2) (preserve_ops c2 ops) = Ok l → Forall (tx_item_ok c2) l.
Proof.
  intros Hc Hf F He [Hops _] Hmiss Hseal.
  assert (He2 : enc_good c2) by (unfold enc_good; by rewrite (fr_enc _ _ F)).
  destruct (seal_ops_spec c2 _ _ He2 Hseal) as [Hfst Hall].
  apply Forall_forall. intros [op sd] Hin. rewrite Forall_forall in Hall. specialize (Hall _ Hin). cbn [fst snd] in Hall.
  assert (Hop : op ∈ preserve_ops c2 ops) by (rewrite <- Hfst; apply list_elem_of_fmap; by exists (op, sd)).
  apply list_elem_of_fmap in Hop as (op0 & Heq & Hin0). rewrite Forall_forall in Hops.
  destruct (Hops _ Hin0) as (H1 & H2 & H3). unfold tx_item_ok. cbn [fst snd].
  assert (Hsame : to_id op = to_id op0 ∧ to_kind op = to_kind op0 ∧ to_ts op = to_ts op0)
    by (rewrite Heq; by case_decide).
  destruct Hsame as (E1 & E2 & E3). rewrite E1, E2, E3 in *. pose proof (fr_idSeq _ _ F).
  assert (Hknown : to_kind op0 ≠ txOpInsert → (to_id op0 ≤ idSeq c2)%Z).
  { intros Hk. destruct (missing_target_none c ops op0 Hmiss Hin0 Hk) as [ie Hie].
    pose proof (cinv_known_id c L _ ie Hc Hf Hie). lia. }
  assert (Hd : to_kind op0 ≠ txOpDelete → good_data (to_data op)).
  { intros Hk. rewrite Heq. destruct (to_kind op0) eqn:Ek; [rewrite decide_False by congruence; apply H3| |done].
    rewrite decide_True by done. simpl. rewrite preserve_kept, (kept_key_frame _ _ _ _ F). destruct H3 as [Hg Hkey].
    destruct (kept_key c (to_id op0) (to_data op0)) as [k|]; [|done]. by apply stampKey_good; [apply Hkey|]. }
  split_and!; [done| |done|]; destruct (to_kind op0) eqn:Ek; try (by apply Hknown).
  - destruct H3 as (? & _). lia.
  - rewrite (fr_index _ _ F). split; [apply H3|]. apply Hall; [done|by apply Hd].
  - apply Hall; [done|by apply Hd].
  - done.
Qed.

Lemma commit_tx_spec ops st L :
  world st → cinv (coll st) L → (segSeq (coll st) + 1 < two64)%Z → enc_good (coll st) →
  tx_ops_ok (coll st) ops →
  wp (commit_tx_legacy ops) st (λ st' r, world st' ∧ tx_contract (coll st) L ops (coll st') r).
Proof.
  intros Hw Hc Hroom He Hops. unfold commit_tx_legacy. set (c := coll st) in *.
  assert (Href : ∀ st' e, world st' → frame c (coll st') →
    world st' ∧ @tx_contract (option cerr) c L ops (coll st') (Err e)).
  { intros st' e Hw' F. split; [done|]. by apply refused_batch. }
  apply wp_checkFenced; [intros _; apply Href; [done|apply frame_refl]|]. intros Hf. fold c in Hf. apply wp_get.
  apply wp_now; [done|]. intros st1 n Hw1 F1 _ Hcl Hn. fold c in F1 |- *.
  assert (Hcn : (clockFloor c ≤ n)%Z) by (rewrite <- Hcl; apply F1).
  destruct (missing_target c ops) eqn:Hmiss; [by apply Href|].
  apply wp_txCheckUnique; [done|intros st2 e Hw2 F2 _; apply Href; [done|by eapply frame_trans]|].
  intros st2 Hw2 F2. pose proof (frame_trans _ _ _ F1 F2) as F. apply wp_get. set (c2 := coll st2) in *.
  set (exp := resolveInsertExpiryAt c2 None n).
  apply wp_bind. unfold tx_quota. apply wp_get.
  assert (Hq : ∀ (Q : St → res cerr unit → Prop), Q st2 (Ok tt) → Q st2 (Err ErrResourceExhausted) →
    wp (if quotaEnabled (coll st2) && (0 <? tx_new_records (preserve_ops c2 ops))%Z
        then checkQuotaLocked (tx_new_records (preserve_ops c2 ops)) (tx_new_bytes (coll st2) exp (preserve_ops c2 ops))
        else ret tt) st2 Q).
  { intros Q H1 H2. destruct (_ && _); [|exact H1]. unfold checkQuotaLocked. apply wp_get.
    by destruct (quota_exceeded _ _ _). }
  apply Hq; [|by apply Href].
  destruct (seal_ops (enc c2) (preserve_ops c2 ops)) as [l|e] eqn:Es; [|by apply Href].
  set (epoch := match enc c2 with Some en => enc_epoch en | None => 0%Z end).
  destruct (cinv_frame c c2 L F Hc) as (es & ea & Hc2 & HL).
  assert (Hf2 : fenced c2 = None) by (by rewrite (fr_fenced _ _ F)).
  assert (He2 : enc_good c2) by (unfold enc_good; by rewrite (fr_enc _ _ F)).
  assert (Hepoch : in_u64 epoch).
  { unfold epoch. destruct (enc c2) as [en|] eqn:Een; [by destruct (He2 en Een)|]. unfold in_u64, two64. lia. }
  assert (Hexp : in_i64 exp) by (by apply resolve_range).
  assert (Hworld : ∀ st', wall st' = wall st2 → clockFloor (coll st') = clockFloor c2 → world st').
  { intros st' H1 H2. by eapply (world_same st2). }
  destruct (seal_ops_spec c2 _ _ He2 Es) as [Hfst _].
  assert (Hlen : length l = length ops).
  { rewrite <- (List.length_map fst), Hfst. unfold preserve_ops. by rewrite List.length_map. }
  rewrite <- (fr_active _ _ F). apply wp_bind.
  replace st2 with (MkSt (mid c2 (active c2) (sidxMap c2) (index c2)) (io st2) (wall st2))
    by (rewrite mid_same; by destruct st2).
  eapply wp_mono.
  { apply (tx_loop_spec c2 c es ea L exp epoch (wall st2) ops (length ops) l Hc2 Hf2 HL) with (T := []) (xs := []).
    - by rewrite (fr_index _ _ F).
    - done.
    - done.
    - by apply batch_at_start.
    - eapply (tx_items_ok c c2 L); done.
    - rewrite Hfst. apply preserve_fresh, Hops.
    - rewrite Hfst, preserve_id. set_solver.
    - simpl. lia. }
  intros st3 r [(es' & -> & Hm & Hw3 & s & m & i & xs & Est & A & Hxs)|Hfail].
  2:{ destruct (batch_failed_err (B := unit) _ _ _ _ _ _ Hfail) as (e & -> & _).
      destruct (batch_failed_undone c c2 L _ _ _ _ F Hf Hfail) as (H1 & H2 & H3).
      split; [|done]. by apply Hworld. }
  simpl in Hxs. apply wp_syncActive. intros fs4 synced. rewrite Est. destruct synced as [u|err].
  2:{ eapply wp_mono.
      - apply (wp_batch_abort c2 es ea xs ([] ++ map to_id (map fst l)) s m i [] (tx_before c ops) err L (length ops)); try done.
        + eapply (restorable_tx c2 c L); try done; [by apply (cinv_frame c)|by rewrite (fr_index _ _ F)|].
          rewrite Hfst, preserve_id. set_solver.
        + rewrite <- length_lines, Hxs, List.length_map.
          rewrite Hm, view_entries_length. lia.
      - intros st' r Hfail. rewrite Hw3 in Hfail.
        destruct (batch_failed_err (B := unit) _ _ _ _ _ _ Hfail) as (e & -> & _).
        destruct (batch_failed_undone c c2 L _ _ _ _ F Hf Hfail) as (H1 & H2 & H3).
        split; [|done]. by apply Hworld. }
  apply wp_publish_all. intros br. apply wp_get. cbn [coll io wall].
  assert (Hc4 : cinv (set_broker (mid c2 s m i) br) (L ++ map stored es')).
  { apply cinv_broker. rewrite <- Hxs. eapply cinv_lines; [done|]. by eapply batch_at_cinv. }
  apply wp_quiet; [apply quiet_emit_all|by apply Hworld|]. intros st5 _ Hw5 F5. cbn [coll] in F5.
  assert (Hend : ∀ st6 (metaOK : bool), world st6 → cinv (coll st6) (L ++ map stored es') → segSeq (coll st6) = segSeq c → (n ≤ clockFloor (coll st6))%Z →
    wp (rot <- rotate_post (needRotate (set_broker (mid c2 s m i) br)) ;;
        ret (if metaOK then rot else Some ErrPersist)) st6
       (λ st' r, world st' ∧ tx_contract c L ops (coll st') r)).
  { intros st6 metaOK Hw6 Hc6 Hs6 Hn6. apply (wp_rotate_post _ _ _ (L ++ map stored es')); [done|done|by rewrite Hs6|].
    intros st7 post Hw7 T7 Hc7 _ _. apply wp_ret. split; [done|]. split; [done|].
    exists exp, es'. split; [|split; [done|]].
    - exists n. split; [|by apply resolve_frame]. split; [done|].
      pose proof (lt_clock _ _ T7). lia.
    - rewrite Hm. apply (tx_lines_frame c c2); [done|].
      rewrite <- (fr_index _ _ F). by apply sealed_lines. }
  pose proof (cinv_frame _ _ _ F5 Hc4) as Hc5.
  assert (Hs5 : segSeq (coll st5) = segSeq c) by (rewrite (fr_segSeq _ _ F5); simpl; by rewrite (fr_segSeq _ _ F)).
  assert (Hn5 : (n ≤ clockFloor (coll st5))%Z).
  { pose proof (fr_clock _ _ F5). pose proof (fr_clock _ _ F2). simpl in *. lia. }
  destruct (0 <? max_insert_id _)%Z.
  - apply wp_writeMeta. intros fs6 v b. apply Hend; [by eapply world_same|by apply cinv_meta|done|done].
  - apply wp_bind, wp_ret. by apply (Hend st5 true).
Qed.
