(* ===== verification/BatchThm.v ===== *)
(** * Properties of batches and transactions *)
From Stdlib Require Import Ascii Lia ZArith.
From stdpp Require Import prelude gmap strings sorting.
From S2P Require Import Prelude GoNum Json Value Filter GoTime Store Wire Codec Segment Index SecondaryIndex Collection Keyed Batch CollInv CollStep CollOps CollThm BatchInv.

Lemma InsertMany_spec `{AtomicBatch} records explicit st L :
  world st → cinv (coll st) L → batch_room (coll st) (length records) → enc_good (coll st) →
  Forall good_data records → deadline_ok explicit → records ≠ [] →
  routeBatch (coll st) (length records) = Ok batchRouteLegacy →
  wp (InsertMany records explicit) st (λ st' r, world st' ∧ batch_contract (coll st) L records (coll st') r).
Proof.
  intros Hw Hc Hroom He Hd Hx Hne Hroute.
  assert (Href : ∀ st' e, world st' → frame (coll st) (coll st') →
    world st' ∧ batch_contract (coll st) L records (coll st') (Err e)).
  { intros st' e Hw' F. split; [done|]. by apply refused_batch. }
  unfold InsertMany. destruct records as [|d0 records]; [done|]. set (rs := d0 :: records) in *.
  apply wp_checkFenced; [intros _; apply Href; [done|apply frame_refl]|]. intros Hf.
  apply wp_guard; intros _; [apply Href; [done|apply frame_refl]|].
  apply wp_now; [done|]. intros st1 n Hw1 F Eid _ Hn. apply wp_get.
  assert (Hr1 : routeBatch (coll st1) (length rs) = routeBatch (coll st) (length rs)).
  { unfold routeBatch. by rewrite (fr_db _ _ F), (fr_cfg _ _ F). }
  rewrite Hr1, Hroute. eapply wp_mono.
  - apply (insert_many_spec n (resolveInsertExpiryAt (coll st1) explicit n) rs st1 L); try done.
    + by eapply cinv_frame.
    + destruct Hroom as [H1 H2]. split; [by rewrite Eid|by rewrite (fr_segSeq _ _ F)].
    + by eapply enc_good_frame.
    + by apply resolve_range.
  - intros st' r [Hw' Hct]. split; [done|]. pose proof (fr_fenced _ _ F) as Ef.
    destruct r as [br|e]; cbn [batch_contract] in *.
    + destruct Hct as (Hf1 & es & H1 & H2 & H3). split; [congruence|]. exists es. split_and!; [done|done|].
      eapply Forall2_impl; [exact H3|]. intros e d (G1 & G2 & G3 & d' & G4 & G5). split_and!; try done.
      exists d'. split; [done|]. by eapply sealed_as_frame.
    + unfold batch_undone in *. by rewrite Ef, (fr_index _ _ F) in Hct.
Qed.

(** Claim C6: a batch insert on the direct route is all or nothing, for every
    outcome of the file calls: when it succeeds the log holds one insert for
    every record, in order, with the ids it returns; when it fails the log and
    the primary index are what they were, unless the rollback itself failed and
    the collection is fenced. *)
Theorem insert_many_atomic (atomic : AtomicBatch) records explicit st L st' r :
  world st → cinv (coll st) L → batch_room (coll st) (length records) → enc_good (coll st) →
  Forall good_data records → deadline_ok explicit → records ≠ [] →
  routeBatch (coll st) (length records) = Ok batchRouteLegacy →
  InsertMany records explicit st = (st', r) →
  batch_contract (coll st) L records (coll st') r.
Proof.
  intros Hw Hc Hroom He Hd Hx Hne Hroute Hrun.
  exact (proj2 (wp_run _ _ _ _ _ (InsertMany_spec records explicit st L Hw Hc Hroom He Hd Hx Hne Hroute) Hrun)).
Qed.

(** Claim C5: a transaction commit on the direct route (one that routing does
    not hand to the cross-collection commit) is all or nothing, for every outcome
    of the file calls.  When it succeeds the log has gained exactly one line for
    each staged operation, in order: its id, op and timestamp, its data as the
    collection seals them (an update with the record's reserved key kept), and the
    revision and deadline that follow from the records and the operations before
    it.  When it is refused or fails the log has gained nothing and the primary
    index is what it was, unless the rollback failed and the collection is fenced.
    (The staged operations are those of a transaction manager: inserts with ids it
    drew, no second insert of an id, timestamps of the calendar, non-empty data
    with strings in UTF-8, whose sealed form is such data too.) *)
Theorem commit_tx_atomic (atomic : AtomicBatch) ops st L st' r :
  world st → cinv (coll st) L → (segSeq (coll st) + 1 < two64)%Z → enc_good (coll st) →
  tx_ops_ok (coll st) ops → ops ≠ [] → routeBatch (coll st) (length ops) = Ok batchRouteLegacy →
  CommitTx ops st = (st', r) → tx_contract (coll st) L ops (coll st') r.
Proof.
  intros Hw Hc Hroom He Hops Hne Hroute Hrun. unfold CommitTx in Hrun. destruct ops as [|op0 ops0]; [done|].
  unfold bind, get_coll in Hrun. rewrite Hroute in Hrun.
  exact (proj2 (wp_run _ _ _ _ _ (commit_tx_spec (op0 :: ops0) st L Hw Hc Hroom He Hops) Hrun)).
Qed.

(** routing never splits a batch silently: a batch of two or more is
    written line by line only on a collection of a database without a
    transaction journal, or on a stand-alone one whose configuration allows it;
    otherwise it is one atomic transaction, or refused. *)
Theorem route_batch_sound c n :
  2 ≤ n →
  match routeBatch c n with
  | Ok batchRouteLegacy => db c = Some false ∨ (db c = None ∧ AllowNonAtomicBatch (cfg c) = true)
  | Ok batchRouteAtomic => db c = Some true
  | Err e => e = ErrBatchNotAtomic ∧ db c = None ∧ AllowNonAtomicBatch (cfg c) = false
  end.
Proof.
  intros Hn. unfold routeBatch. destruct (Nat.ltb_spec n 2); [lia|]. simpl.
  destruct (db c) as [[]|]; [done|by left|]. destruct (AllowNonAtomicBatch (cfg c)); auto.
Qed.

(** ** Witnesses *)

(** The second line of the batch fails to write; the rollback succeeds. *)
Lemma insert_many_atomic_witness :
  ∃ st' e, @InsertMany (λ _ _, ret None) [sample_data; sample_data] None (sample_st [FOk; FFail 7] [5; 3]%Z) =
    (st', Err e) ∧ batch_undone sample_coll [] 2 (coll st').
Proof.
  assert (Hok : is_ok (@InsertMany (λ _ _, ret None) [sample_data; sample_data] None
    (sample_st [FOk; FFail 7] [5; 3]%Z)).2 = false) by (vm_compute; reflexivity).
  assert (Hroom : batch_room sample_coll 2) by (split; apply Z.ltb_lt; reflexivity).
  assert (Hg : Forall good_data [sample_data; sample_data])
    by (apply Forall_cons; split; [exact sample_good|apply Forall_singleton; exact sample_good]).
  assert (Hne : [sample_data; sample_data] ≠ []) by discriminate.
  assert (Hrt : routeBatch sample_coll 2 = Ok batchRouteLegacy) by (vm_compute; reflexivity).
  pose proof (insert_many_atomic (λ _ _, ret None) [sample_data; sample_data] None
    (sample_st [FOk; FFail 7] [5; 3]%Z) []) as T.
  destruct (@InsertMany (λ _ _, ret None) [sample_data; sample_data] None
    (sample_st [FOk; FFail 7] [5; 3]%Z)) as [st' r].
  cbn [snd] in Hok. destruct r as [br|e]; [discriminate Hok|].
  exists st', e. split; [reflexivity|].
  exact (T st' (Err e) (sample_world [FOk; FFail 7]) sample_cinv Hroom sample_enc Hg I Hne Hrt eq_refl).
Defined.

Definition sample_tx : list txOp := [MkTxOp txOpInsert 0 sample_data (time_of_nanos 7)].

Lemma sample_tx_ok : tx_ops_ok sample_coll sample_tx.
Proof.
  split; [|split; [intros _; apply not_elem_of_nil|exact I]]. apply Forall_singleton. split_and!.
  - split; apply Z.leb_le || apply Z.ltb_lt; reflexivity.
  - apply time_of_nanos_wf. split; apply Z.leb_le || apply Z.ltb_lt; reflexivity.
  - split_and!; [apply Z.leb_le; reflexivity|reflexivity|exact sample_good].
Qed.

Lemma commit_tx_atomic_witness :
  ∃ st' x, @CommitTx (λ _ _, ret None) sample_tx (sample_st [] [5; 3]%Z) = (st', Ok x) ∧
    ∃ exp es, cinv (coll st') ([] ++ map stored es) ∧ tx_lines sample_coll exp ∅ sample_tx es.
Proof.
  assert (Hok : is_ok (@CommitTx (λ _ _, ret None) sample_tx (sample_st [] [5; 3]%Z)).2 = true)
    by (vm_compute; reflexivity).
  assert (Hroom : (segSeq sample_coll + 1 < two64)%Z) by (apply Z.ltb_lt; reflexivity).
  assert (Hne : sample_tx ≠ []) by discriminate.
  assert (Hrt : routeBatch sample_coll 1 = Ok batchRouteLegacy) by (vm_compute; reflexivity).
  pose proof (commit_tx_atomic (λ _ _, ret None) sample_tx (sample_st [] [5; 3]%Z) []) as T.
  destruct (@CommitTx (λ _ _, ret None) sample_tx (sample_st [] [5; 3]%Z)) as [st' r].
  cbn [snd] in Hok. destruct r as [x|e]; [|discriminate Hok].
  exists st', x. split; [reflexivity|].
  destruct (T st' (Ok x) (sample_world []) sample_cinv Hroom sample_enc sample_tx_ok Hne Hrt eq_refl)
    as (_ & exp & es & _ & Hc & Hl).
  exists exp, es. exact (conj Hc Hl).
Defined.

Lemma route_batch_sound_witness : db sample_coll = None ∧ AllowNonAtomicBatch (cfg sample_coll) = true.
Proof.
  destruct (route_batch_sound sample_coll 2 (le_n 2)) as [H|H]; [discriminate H|exact H].
Defined.
