(* ===== verification/Compactor.v ===== *)
(** * Compaction: [engine/compactor.go]

    A pass replays the sealed segments, keeps the latest entry of every id and
    the evidence of transactions, writes them to new files and swaps these in
    under the collection lock.  The pass runs beside writers until the swap, so
    it is two steps here: [compact_prepare] over the sealed segments it
    snapshots, and [compact_swap] on the state reached meanwhile.

    Renaming a file over a segment changes the bytes that the segment's readers
    see at once, before the list of segments is replaced. *)
From Stdlib Require Import Ascii Lia ZArith SpecFloat.
From stdpp Require Import prelude gmap strings sorting.
From S2P Require Import Prelude GoNum Json Value Filter GoTime Store Wire Codec Segment Index SecondaryIndex Collection Keyed Batch.

(** ** File steps

    A computation over the outcomes of the file calls that stops at the first
    error. *)

Definition IO (A : Type) : Type := list fault → list fault * res seg_err A.

Definition io_ret {A} (a : A) : IO A := λ fs, (fs, Ok a).
Definition io_err {A} (e : seg_err) : IO A := λ fs, (fs, Err e).
Definition io_bind {A B} (m : IO A) (k : A → IO B) : IO B :=
  λ fs, let '(fs', r) := m fs in
        match r with
        | Ok a => k a fs'
        | Err e => (fs', Err e)
        end.
Notation "x <~ m ;; k" := (io_bind m (λ x, k))
  (at level 100, m at next level, right associativity) : scriva_scope.

(** A call that only succeeds or fails. *)
Definition io_step : IO unit :=
  λ fs, let '(f, fs') := next_fault fs in (fs', if f_ok f then Ok tt else Err ErrIO).

(** An operation of a segment; the segment is lost when it fails. *)
Definition io_seg {A} (f : list fault → Segment * list fault * res seg_err A) : IO Segment :=
  λ fs, let '(s, fs', r) := f fs in
        (fs', match r with Ok _ => Ok s | Err e => Err e end).

Definition io_open (p : string) : IO Segment :=
  λ fs, let '(_, fs', r) := openActiveSegment p [] fs in (fs', r).

Definition lift_io {A} (m : IO A) : M (res seg_err A) :=
  λ st, let '(fs, r) := m (io st) in (MkSt (coll st) fs (wall st), Ok r).

(** ** Resolving *)

Record compactEntry : Type := MkCE { ce_entry : Entry; ce_tx : option TxStamp }.

(** The variables of the scan of [resolveCompactEntries]. *)
Record resolver : Type := MkRes {
  latest : gmap Z Entry;
  evidence : list compactEntry;
  hasEvidence : gset Z
}.

Definition undecided (ds : option decisions) (tx : TxStamp) : bool :=
  match ds with
  | None => true
  | Some m => bool_decide (default "" (m !! st_t tx) = "")
  end.

Definition resolve_one (ds : option decisions) (r : resolver) (e : Entry) (tx : option TxStamp) : resolver :=
  match tx with
  | None => MkRes (<[ID e := e]> (latest r)) (evidence r) (hasEvidence r)
  | Some t =>
      if decide (st_t t = "") then MkRes (<[ID e := e]> (latest r)) (evidence r) (hasEvidence r)
      else if entryVisible tx ds then
        MkRes (delete (ID e) (latest r)) (evidence r ++ [MkCE e tx]) ({[ID e]} ∪ hasEvidence r)
      else if undecided ds t then
        MkRes (latest r) (evidence r ++ [MkCE e tx]) ({[ID e]} ∪ hasEvidence r)
      else r
  end.

Fixpoint resolve_segs (ds : option decisions) (r : resolver) (segs : list Segment) : res seg_err resolver :=
  match segs with
  | [] => Ok r
  | s :: segs' =>
      let '(l, err) := ScanStampedFromOffset s 0 in
      let r' := foldl (λ r x, resolve_one ds r x.2.1 x.2.2) r l in
      match err with
      | Some e => Err e
      | None => resolve_segs ds r' segs'
      end
  end.

Definition survives (r : resolver) (n : Z) (e : Entry) : bool :=
  bool_decide (ID e ∈ hasEvidence r) || negb (bool_decide (Op e = OpDelete) || expired (ExpiresAt e) n).

Definition id_less (a b : Entry) : bool := (ID a <? ID b)%Z.

Definition resolved (r : resolver) (n : Z) : list compactEntry :=
  evidence r ++
  map (λ e, MkCE e None) (ssort id_less (filter (λ e, survives r n e = true) (map_to_list (latest r)).*2)).

Definition resolveCompactEntries (segs : list Segment) (ds : option decisions) (n : Z)
    : res seg_err (list compactEntry) :=
  let* r := resolve_segs ds (MkRes ∅ [] ∅) segs in Ok (resolved r n).

(** ** Migration to the current encryption policy *)

Definition migrationPendingIn (c : Collection) (segs : list Segment) : bool :=
  match enc c with
  | None => false
  | Some en =>
      existsb (λ kv, negb (ie_Epoch kv.2 =? enc_epoch en)%Z && bool_decide (SegmentPath kv.2 ∈ map path segs))
        (map_to_list (entries (index c)))
  end.

(** [reencrypt]: open the stored record and seal it again. *)
Definition reencrypt (en : encryptor) (stored : vdata) : option vdata :=
  pt ← enc_materialize en stored []; enc_encrypt en pt.

Definition reencrypt_one (en : encryptor) (ce : compactEntry) : option compactEntry :=
  let e := ce_entry ce in
  match ce_tx ce with
  | Some _ => Some ce
  | None =>
      if decide (Op e = OpDelete ∨ Epoch e = enc_epoch en) then Some ce
      else
        d ← reencrypt en (default ∅ (Data e));
        Some (MkCE (MkEntry (ID e) (Op e) (Ts e) (Rev e) (Some d) (enc_epoch en) (ExpiresAt e) (CRC e)) None)
  end.

Definition reencryptForMigration (en : option encryptor) (l : list compactEntry) : option (list compactEntry) :=
  match en with
  | None => Some l
  | Some en => mapM (reencrypt_one en) l
  end.

(** ** The dirty ratio *)

(** [float64(n)] and the quotient, in IEEE double precision. *)
Definition float_of_nat (n : nat) : spec_float := binary_normalize 53 1024 (Z.of_nat n) 0 false.

Definition entry_stale (c : Collection) (s : Segment) (e : Entry) : bool :=
  bool_decide (Op e = OpDelete) ||
  match entries (index c) !! ID e with
  | None => true
  | Some loc => negb (bool_decide (SegmentPath loc = path s))
  end.

(** The number of stale entries and of entries; a segment that does not scan is
    left out. *)
Definition stale_total (c : Collection) (segs : list Segment) : nat * nat :=
  foldl (λ acc s, match ScanAll s with
                  | Err _ => acc
                  | Ok es => (acc.1 + length (filter (λ e, entry_stale c s e = true) es), acc.2 + length es)
                  end) (0, 0) segs.

Definition isDirty (c : Collection) (segs : list Segment) : bool :=
  let '(stale, total) := stale_total c segs in
  if decide (total = 0) then false
  else SFltb (CompactDirtyPct (cfg c)) (SFdiv 53 1024 (float_of_nat stale) (float_of_nat total)).

(** ** Writing the output *)

Definition temp_path (d : string) (i : nat) : string :=
  s_of_b (b_of_s d ++ b_of_s "/.compact_" ++ pad6 (Z.of_nat i) ++ b_of_s ".ndjson").

Definition stamp_of (e : Entry) (tx : TxStamp) : stampedEntry :=
  MkStamped (ID e) (Op e) (s_of_b (fmt_time (Ts e))) (Rev e) (Data e) (Epoch e) (ExpiresAt e) tx 0.

Definition append_ce (s : Segment) (ce : compactEntry) : IO Segment :=
  match ce_tx ce with
  | Some tx => io_seg (AppendStamped s (stamp_of (ce_entry ce) tx))
  | None => io_seg (Append s (ce_entry ce))
  end.

Fixpoint append_all (s : Segment) (l : list compactEntry) : IO Segment :=
  match l with
  | [] => io_ret s
  | ce :: l' => s' <~ append_ce s ce ;; append_all s' l'
  end.

(** The loop of [writeCompactEntries]: the segments sealed so far, the current
    one and the number of the next. *)
Fixpoint write_loop (d : string) (maxSize : Z) (maxSegs : nat) (l : list compactEntry)
    (segs : list Segment) (current : Segment) (segIdx : nat) : IO (list Segment) :=
  match l with
  | [] => s <~ io_seg (Seal current) ;; io_ret (segs ++ [s])
  | ce :: l' =>
      if (maxSize <=? Z.of_nat (size current))%Z && ((maxSegs =? 0) || (length segs + 1 <? maxSegs)) then
        s <~ io_seg (Seal current) ;;
        fresh <~ io_open (temp_path d segIdx) ;;
        cur <~ append_ce fresh ce ;;
        write_loop d maxSize maxSegs l' (segs ++ [s]) cur (S segIdx)
      else
        cur <~ append_ce current ce ;;
        write_loop d maxSize maxSegs l' segs cur segIdx
  end.

(** The entries of a scan, as the merge appends them. *)
Definition rewritten (x : located) : compactEntry :=
  MkCE x.2.1 (match x.2.2 with
              | Some t => if decide (st_t t = "") then None else Some t
              | None => None
              end).

Definition merge_one (merged src : Segment) : IO Segment :=
  let '(l, err) := ScanStampedFromOffset src 0 in
  s <~ append_all merged (map rewritten l) ;;
  match err with
  | Some e => io_err e
  | None => io_ret s
  end.

Definition mergeSegments (a b : Segment) : IO Segment :=
  _ <~ io_step ;;
  merged <~ io_open (path a +:+ ".merge") ;;
  merged <~ merge_one merged a ;;
  merged <~ merge_one merged b ;;
  io_seg (Seal merged).

Fixpoint rebalance_loop (minSize maxSize : Z) (segs : list Segment) : IO (list Segment) :=
  match segs with
  | [] => io_ret []
  | s :: tl =>
      match tl with
      | [] => io_ret [s]
      | next :: rest =>
          if (minSize <=? Z.of_nat (size s))%Z then
            r <~ rebalance_loop minSize maxSize tl ;; io_ret (s :: r)
          else if (Z.of_nat (size s) + Z.of_nat (size next) <=? maxSize)%Z then
            merged <~ mergeSegments s next ;;
            r <~ rebalance_loop minSize maxSize rest ;; io_ret (merged :: r)
          else r <~ rebalance_loop minSize maxSize tl ;; io_ret (s :: r)
      end
  end.

Definition rebalance (segs : list Segment) (maxSize : Z) : IO (list Segment) :=
  rebalance_loop (Z.quot maxSize 10) maxSize segs.

Definition writeCompactEntries (d : string) (maxSize : Z) (l : list compactEntry) (maxSegs : nat)
    : IO (list Segment) :=
  match l with
  | [] => io_ret []
  | _ =>
      current <~ io_open (temp_path d 1) ;;
      segs <~ write_loop d maxSize maxSegs l [] current 2 ;;
      rebalance segs maxSize
  end.

(** ** The swap *)

(** A file renamed over the segment [p]: its readers see the new bytes. *)
Definition replace_file (c : Collection) (p : string) (d : bytes) : Collection :=
  set_sealed c (map (λ s, if decide (path s = p) then with_disk s d else s) (sealedSegs c)).

Definition swap_failed {A} (e : cerr) : M A := modify set_swapFailed ;;; throw e.

(** The rename loop; [first] says that nothing was replaced yet.  A failed stat
    of the new file gives it the size 0. *)
Fixpoint rename_loop (first : bool) (l : list (Segment * string)) : M (list Segment) :=
  match l with
  | [] => ret []
  | (temp, final) :: l' =>
      ok <- io_call ;;
      if negb ok then
        if first then
          cleared <- io_call ;;
          if negb cleared then swap_failed (ErrCompact ErrIO)
          else io_call ;;; throw (ErrCompact ErrIO)
        else swap_failed (ErrCompact ErrIO)
      else
        modify (λ c, replace_file c final (disk temp)) ;;;
        statOK <- io_call ;;
        r <- rename_loop false l' ;;
        ret (openSealedSegment final (disk temp) (if statOK then length (disk temp) else 0) :: r)
  end.

(** Every secondary index rebuilt from the new segments. *)
Fixpoint compact_sidx (fields : list string) : M unit :=
  match fields with
  | [] => ret tt
  | f :: fields' =>
      c <- get_coll ;;
      match sidxMap c !! f with
      | None => compact_sidx fields'
      | Some s =>
          match rebuild s (all_segments c) (cdecisions c) with
          | Err e => swap_failed (ErrScan e)
          | Ok s' => modify (λ c, set_sidxMap c (<[f := s']> (sidxMap c))) ;;; compact_sidx fields'
          end
      end
  end.

(** The files of the secondary indexes, one write each. *)
Fixpoint persist_each (fields : list string) : M unit :=
  match fields with
  | [] => ret tt
  | _ :: fields' => persistSecondary ;;; persist_each fields'
  end.

(** The indexes are rebuilt from the segments. *)
Definition compact_reindex : M unit :=
  c <- get_coll ;;
  match Rebuild (index c) (all_segments c) (cdecisions c) with
  | Err e => swap_failed (ErrScan e)
  | Ok idx =>
      modify (λ c, set_index c idx) ;;;
      snapOK <- io_call ;;
      if negb snapOK then swap_failed (ErrCompact ErrIO)
      else
        c <- get_coll ;;
        compact_sidx (map_to_list (sidxMap c)).*1
  end.

(** The new index files, then the intent is retired. *)
Definition compact_retire : M unit :=
  persisted <- io_call ;;
  guard_err (negb persisted) ErrPersist ;;;
  c <- get_coll ;;
  persist_each (map_to_list (sidxMap c)).*1 ;;;
  cleared <- io_call ;;
  guard_err (negb cleared) (ErrCompact ErrIO).

Definition compact_swap (toCompact temps : list Segment) : M unit :=
  written <- io_call ;;
  if negb written then
    cleared <- io_call ;;
    if negb cleared then throw (ErrCompact ErrIO)
    else io_call ;;; throw (ErrCompact ErrIO)
  else
    newSegs <- rename_loop true (zip temps (map path toCompact)) ;;
    dirOK <- io_call ;;
    if negb dirOK then swap_failed (ErrCompact ErrIO)
    else
      modify (λ c, set_sealed c (newSegs ++ drop (length toCompact) (sealedSegs c))) ;;;
      compact_reindex ;;;
      compact_retire.

(** ** The pass *)

(** The steps before the swap, over the sealed segments as they stand: the
    segments to replace and the files that replace them, or [None] when there is
    nothing to do.  [lease] says whether no scan holds the layout. *)
Definition compact_prepare (force lease : bool) : M (option (list Segment * list Segment)) :=
  c <- get_coll ;;
  if closeDone c then ret None
  else
    guard_err (swapFailed c) ErrSwapIncomplete ;;;
    let toCompact := sealedSegs c in
    if bool_decide (toCompact = []) then ret None
    else if negb force && negb (isDirty c toCompact) && negb (migrationPendingIn c toCompact) then ret None
    else if negb lease then guard_err force ErrCompactionDeferred ;;; ret None
    else
      n <- now ;;
      n <- (if (n =? 0)%Z then wall_now else ret n) ;;
      match resolveCompactEntries toCompact (cdecisions c) n with
      | Err e => throw (ErrCompact e)
      | Ok l =>
          match reencryptForMigration (enc c) l with
          | None => throw ErrCrypto
          | Some l =>
              discarded <- io_call ;;
              guard_err (negb discarded) (ErrCompact ErrIO) ;;;
              r <- lift_io (writeCompactEntries (dir c) (SegmentMaxSize (cfg c)) l (length toCompact)) ;;
              match r with
              | Err e => io_call ;;; throw (ErrCompact e)
              | Ok temps =>
                  if length toCompact <? length temps then io_call ;;; throw ErrCompactOverflow
                  else ret (Some (toCompact, temps))
              end
          end
      end.

(** The second lease, then the swap. *)
Definition compact_finish (force lease : bool) (p : option (list Segment * list Segment)) : M unit :=
  match p with
  | None => ret tt
  | Some (toCompact, temps) =>
      if negb lease then io_call ;;; guard_err force ErrCompactionDeferred
      else compact_swap toCompact temps
  end.

Definition compactLocked (force lease1 lease2 : bool) : M unit :=
  p <- compact_prepare force lease1 ;; compact_finish force lease2 p.

Definition compact (force lease1 lease2 : bool) : M unit :=
  checkFenced ;;; compactLocked force lease1 lease2.

(** [CompactNow]; [closed] says that the collection is closed. *)
Definition CompactNow (closed lease1 lease2 : bool) : M unit :=
  checkFenced ;;;
  guard_err closed ErrClosed ;;;
  post <- reapExpired ;;
  match post with
  | Some e => throw e
  | None => compact true lease1 lease2
  end.

Definition MigrateNow (closed lease1 lease2 : bool) : M unit :=
  c <- get_coll ;;
  match enc c with
  | None => ret tt
  | Some _ =>
      checkFenced ;;;
      guard_err closed ErrClosed ;;;
      ok <- (if 0 <? size (active c) then rotateSegment else ret true) ;;
      guard_err (negb ok) ErrRotate ;;;
      post <- reapExpired ;;
      match post with
      | Some e => throw e
      | None => compact true lease1 lease2
      end
  end.
