(* ===== verification/CompactInv.v ===== *)
(** * What compaction keeps

    The lines a compaction pass writes stand for the same records as the lines
    it replaces, for every id that has not expired; the files it writes hold
    exactly those lines. *)
From Stdlib Require Import Ascii Lia ZArith.
From stdpp Require Import prelude gmap strings sorting.
From S2P Require Import Prelude GoNum Json Value Filter GoTime Store Wire Codec Segment Index SecondaryIndex Collection Keyed Batch CollInv CollStep CollOps CollThm Unique Compactor.

(** ** Sublists *)

Lemma Forall_sublist {A} (P : A → Prop) l1 l2 : l1 `sublist_of` l2 → Forall P l2 → Forall P l1.
Proof. intros Hs. rewrite !Forall_forall. intros H x Hx. apply H. by eapply elem_of_sublist. Qed.

Lemma sublist_sorted {A} (R : A → A → Prop) l1 l2 :
  l1 `sublist_of` l2 → StronglySorted R l2 → StronglySorted R l1.
Proof.
  induction 1 as [|x l1 l2 Hs IH|x l1 l2 Hs IH]; intros Hl; [constructor|..]; inversion Hl; subst; [|by apply IH].
  constructor; [by apply IH|]. eapply Forall_sublist; done.
Qed.

Lemma sublist_filter_mono {A} (P : A → Prop) `{∀ x, Decision (P x)} l1 l2 :
  l1 `sublist_of` l2 → filter P l1 `sublist_of` filter P l2.
Proof.
  induction 1 as [|x l1 l2 Hs IH|x l1 l2 Hs IH]; [constructor|..]; rewrite !filter_cons; case_decide;
    by constructor || done.
Qed.

Lemma sublist_map {A B} (f : A → B) l1 l2 : l1 `sublist_of` l2 → map f l1 `sublist_of` map f l2.
Proof. induction 1; by constructor. Qed.

Lemma Forall_fmap_fst (P : Entry → Prop) (l : list line) : Forall (λ x, P x.1) l ↔ Forall P (map fst l).
Proof. induction l as [|x l IH]; [done|]. cbn [map]. by rewrite !Forall_cons, IH. Qed.

Lemma last_map {A B} (f : A → B) l : last (map f l) = f <$> last l.
Proof. induction l as [|x [|y l] IH]; [done|done|exact IH]. Qed.

(** ** Records by their last line *)

Section last.
Context (ds : option decisions).

Definition about (id : Z) (x : line) : Prop := entryVisible x.2 ds = true ∧ ID x.1 = id.

#[global] Instance about_dec id x : Decision (about id x).
Proof. unfold about. apply _. Defined.

(** The operations the engine writes. *)
Definition known (x : line) : Prop := Op x.1 = OpInsert ∨ Op x.1 = OpUpdate ∨ Op x.1 = OpDelete.

Lemma records_last L id :
  Forall known L →
  fst <$> records ds L !! id =
  last (filter (about id) L) ≫= λ x, if decide (Op x.1 = OpDelete) then None else Some x.1.
Proof.
  induction L as [|x L IH] using rev_ind; intros HL; [done|].
  apply Forall_app in HL as [HL Hx]. rewrite Forall_singleton in Hx. specialize (IH HL).
  rewrite records_snoc, filter_app. unfold rec_step.
  destruct (decide (about id x)) as [[Hv Hid]|Hn].
  - rewrite filter_cons_True, filter_nil, last_snoc by done. cbn [mbind option_bind]. rewrite Hv.
    destruct (decide (Op x.1 = OpDelete)) as [Hd|Hd].
    + rewrite decide_False by (rewrite Hd; intros [H|H]; discriminate H). subst id. by rewrite lookup_delete_eq.
    + assert (Hw : Op x.1 = OpInsert ∨ Op x.1 = OpUpdate) by (destruct Hx as [H|[H|H]]; [by left|by right|done]).
      rewrite decide_True by exact Hw. subst id. by rewrite lookup_insert_eq.
  - rewrite filter_cons_False, filter_nil, app_nil_r by done. rewrite <- IH.
    destruct (entryVisible x.2 ds) eqn:Hv; [|done].
    assert (ID x.1 ≠ id) by (intros Hid; by apply Hn).
    repeat case_decide; by rewrite ?lookup_insert_ne, ?lookup_delete_ne.
Qed.

(** The revisions the lines of an id carry, in order. *)
Definition writes_of (id : Z) (L : list line) : list line :=
  filter (λ x, about id x ∧ Op x.1 ≠ OpDelete) L.

(** Every write carries a revision above those before it. *)
Definition revs_ok (L : list line) : Prop :=
  ∀ id, StronglySorted Z.lt (0 :: map (λ x, Rev x.1) (writes_of id L))%Z ∧
        Forall (λ x, Rev x.1 < two64)%Z (writes_of id L).

Lemma writes_of_app id L1 L2 : writes_of id (L1 ++ L2) = writes_of id L1 ++ writes_of id L2.
Proof. apply filter_app. Qed.

Lemma revs_ok_app L1 L2 : revs_ok (L1 ++ L2) → revs_ok L1.
Proof.
  intros H id. destruct (H id) as [H1 H2]. rewrite writes_of_app in *. rewrite map_app in H1.
  rewrite app_comm_cons in H1. apply StronglySorted_app in H1 as (_ & H1 & _).
  apply Forall_app in H2 as [H2 _]. done.
Qed.

Lemma records_write L id e rev : records ds L !! id = Some (e, rev) → ∃ x, x ∈ writes_of id L ∧ x.1 = e.
Proof.
  induction L as [|x L IH] using rev_ind; [done|]. rewrite records_snoc, writes_of_app. unfold rec_step.
  assert (Hl : records ds L !! id = Some (e, rev) → ∃ y, y ∈ writes_of id L ++ writes_of id [x] ∧ y.1 = e).
  { intros (y & Hy & He)%IH. exists y. split; [|done]. apply elem_of_app. by left. }
  destruct (entryVisible x.2 ds) eqn:Hv; [|exact Hl].
  case_decide as Hop.
  - destruct (decide (ID x.1 = id)) as [Hid|Hid].
    + rewrite Hid, lookup_insert_eq. intros [= <- _]. exists x. split; [|done]. apply elem_of_app. right.
      unfold writes_of. rewrite filter_cons_True; [by left|].
      split; [done|]. intros Hd. rewrite Hd in Hop. destruct Hop as [H|H]; discriminate H.
    + by rewrite lookup_insert_ne.
  - case_decide; [|exact Hl]. destruct (decide (ID x.1 = id)) as [<-|Hid]; [by rewrite lookup_delete_eq|].
    by rewrite lookup_delete_ne.
Qed.

Lemma records_rev L id e rev :
  revs_ok L → records ds L !! id = Some (e, rev) → rev = Rev e.
Proof.
  revert id e rev. induction L as [|x L IH] using rev_ind; intros id e rev HL; [done|].
  pose proof (revs_ok_app _ _ HL) as HL1. rewrite records_snoc. unfold rec_step.
  destruct (entryVisible x.2 ds) eqn:Hv; [|by apply IH]. case_decide as Hop.
  - destruct (decide (ID x.1 = id)) as [Hid|Hid]; [|rewrite lookup_insert_ne by done; by apply IH].
    rewrite Hid, lookup_insert_eq. intros [= <- <-].
    assert (Hx : writes_of id [x] = [x]).
    { unfold writes_of. rewrite filter_cons_True; [done|]. split; [done|]. intros Hd. rewrite Hd in Hop.
      destruct Hop as [H|H]; discriminate H. }
    destruct (HL id) as [Hs Hb]. rewrite writes_of_app, Hx, map_app in Hs. rewrite writes_of_app, Hx in Hb.
    apply Forall_app in Hb as [Hb1 Hb2]. rewrite Forall_singleton in Hb2.
    rewrite app_comm_cons in Hs. apply StronglySorted_app in Hs as (Hlt & _ & _).
    assert (Hprev : (0 ≤ match records ds L !! id with Some r => r.2 | None => 0 end < Rev x.1)%Z).
    { destruct (records ds L !! id) as [[e' rev']|] eqn:Er.
      - pose proof (IH _ _ _ HL1 Er) as ->. destruct (records_write _ _ _ _ Er) as (y & Hy & <-). cbn [snd].
        split.
        + destruct (HL1 id) as [Hs1 _]. inversion Hs1 as [|? ? _ Hall]; subst. rewrite Forall_forall in Hall.
          apply Z.lt_le_incl, Hall. apply list_elem_of_fmap. eauto.
        + apply Hlt; [right; apply list_elem_of_fmap; eauto|by left].
      - split; [lia|]. apply Hlt; by left. }
    rewrite u64_id by (unfold in_u64; lia).
    destruct (Z.ltb_spec (match records ds L !! id with Some r => r.2 | None => 0 end + 1) (Rev x.1)); [done|lia].
  - case_decide; [|by apply IH].
    destruct (decide (ID x.1 = id)) as [<-|Hid]; [by rewrite lookup_delete_eq|].
    rewrite lookup_delete_ne by done. by apply IH.
Qed.

(** The entries about an id, in order. *)
Definition history (id : Z) (L : list line) : list Entry := map fst (filter (about id) L).

Lemma history_app id L1 L2 : history id (L1 ++ L2) = history id L1 ++ history id L2.
Proof. unfold history. by rewrite filter_app, map_app. Qed.

Lemma writes_of_history id L :
  map fst (writes_of id L) = filter (λ e, Op e ≠ OpDelete) (history id L).
Proof.
  unfold writes_of, history. induction L as [|x L IH]; [done|].
  destruct (decide (about id x)) as [Ha|Ha].
  - rewrite (filter_cons_True (about id)) by done. cbn [map].
    destruct (decide (Op x.1 = OpDelete)) as [Hd|Hd].
    + rewrite filter_cons_False by naive_solver. rewrite filter_cons_False by naive_solver. exact IH.
    + rewrite filter_cons_True by done. rewrite filter_cons_True by done. cbn [map]. by f_equal.
  - rewrite (filter_cons_False (about id)) by done. rewrite filter_cons_False by naive_solver. exact IH.
Qed.

(** A log whose histories are part of another's keeps the order of revisions. *)
Lemma revs_ok_sublist L L' :
  (∀ id, history id L' `sublist_of` history id L) → revs_ok L → revs_ok L'.
Proof.
  intros Hsub H id. destruct (H id) as [H1 H2].
  assert (Hs : map fst (writes_of id L') `sublist_of` map fst (writes_of id L)).
  { rewrite !writes_of_history. apply sublist_filter_mono, Hsub. }
  split.
  - eapply sublist_sorted; [|exact H1]. constructor.
    rewrite <- !(map_map fst Rev). by apply sublist_map.
  - apply (Forall_fmap_fst (λ e, Rev e < two64)%Z). eapply Forall_sublist; [exact Hs|].
    by apply (Forall_fmap_fst (λ e, Rev e < two64)%Z).
Qed.

(** The last entry about an id decides what the log says of it. *)
Lemma records_history L id :
  Forall known L →
  fst <$> records ds L !! id =
  last (history id L) ≫= λ e, if decide (Op e = OpDelete) then None else Some e.
Proof.
  intros HL. rewrite records_last by done. unfold history. rewrite last_map.
  rewrite option_fmap_bind. reflexivity.
Qed.

End last.

(** ** The resolver *)

Definition out_of (ce : compactEntry) : line := (ce_entry ce, ce_tx ce).

(** The transaction of the line has a decision. *)
Definition decided (ds : option decisions) (x : line) : Prop :=
  match x.2 with Some t => st_t t = "" ∨ undecided ds t = false | None => True end.

Record resolve_inv (ds : option decisions) (L : list line) (r : resolver) : Prop := {
  ri_last id : last (history ds id L) =
    match latest r !! id with
    | Some e => Some e
    | None => last (history ds id (map out_of (evidence r)))
    end;
  ri_id id e : latest r !! id = Some e → ID e = id;
  ri_none id : id ∉ hasEvidence r → history ds id (map out_of (evidence r)) = [];
  ri_sub id : history ds id (map out_of (evidence r)) ++ option_list (latest r !! id)
              `sublist_of` history ds id L;
  ri_seen : Forall (λ ce, entryVisible (ce_tx ce) ds = true ∧ ce_tx ce ≠ None) (evidence r)
}.

Lemma history_snoc ds id L x :
  history ds id (L ++ [x]) = history ds id L ++ (if decide (about ds id x) then [x.1] else []).
Proof.
  rewrite history_app. f_equal. unfold history. case_decide.
  - by rewrite filter_cons_True.
  - by rewrite filter_cons_False.
Qed.

Lemma resolve_plain ds L r e tx :
  entryVisible tx ds = true → resolve_inv ds L r →
  resolve_inv ds (L ++ [(e, tx)]) (MkRes (<[ID e := e]> (latest r)) (evidence r) (hasEvidence r)).
Proof.
  intros Hv [H1 H2 H3 H4 H5]. split; simpl; [| |done| |done]; intros id.
  - rewrite history_snoc. case_decide as Ha.
    + destruct Ha as [_ Ha]. simpl in Ha. subst id. by rewrite last_snoc, lookup_insert_eq.
    + rewrite app_nil_r, lookup_insert_ne; [apply H1|]. intros Hid. apply Ha. by split.
  - intros e'. destruct (decide (ID e = id)) as [<-|Hne]; [rewrite lookup_insert_eq; by intros [= <-]|].
    rewrite lookup_insert_ne by done. apply H2.
  - rewrite history_snoc. case_decide as Ha.
    + destruct Ha as [_ Ha]. simpl in Ha. subst id. rewrite lookup_insert_eq. apply sublist_app; [|done].
      etrans; [|apply H4]. apply sublist_inserts_r. done.
    + rewrite app_nil_r, lookup_insert_ne; [apply H4|]. intros Hid. apply Ha. by split.
Qed.

Lemma resolve_stamped ds L r e tx :
  entryVisible tx ds = true → tx ≠ None → resolve_inv ds L r →
  resolve_inv ds (L ++ [(e, tx)])
    (MkRes (delete (ID e) (latest r)) (evidence r ++ [MkCE e tx]) ({[ID e]} ∪ hasEvidence r)).
Proof.
  intros Hv Hn [H1 H2 H3 H4 H5]. split; simpl.
  - intros id. rewrite map_app. change (map out_of [MkCE e tx]) with [(e, tx)]. rewrite !history_snoc.
    case_decide as Ha.
    + destruct Ha as [_ Ha]. simpl in Ha. subst id. by rewrite lookup_delete_eq, !last_snoc.
    + rewrite !app_nil_r, lookup_delete_ne; [apply H1|]. intros Hid. apply Ha. by split.
  - intros id e' [_ ?]%lookup_delete_Some. by apply H2.
  - intros id Hid. rewrite map_app. change (map out_of [MkCE e tx]) with [(e, tx)]. rewrite history_snoc.
    apply not_elem_of_union in Hid as [Hid1 Hid2]. rewrite not_elem_of_singleton in Hid1.
    rewrite decide_False; [rewrite app_nil_r; by apply H3|]. intros [_ Ha]. simpl in Ha. by symmetry in Ha.
  - intros id. rewrite map_app. change (map out_of [MkCE e tx]) with [(e, tx)]. rewrite !history_snoc. case_decide as Ha.
    + destruct Ha as [_ Ha]. simpl in Ha. subst id. rewrite lookup_delete_eq. cbn [option_list].
      rewrite app_nil_r. apply sublist_app; [|done]. etrans; [|apply H4]. by apply sublist_inserts_r.
    + rewrite !app_nil_r, lookup_delete_ne; [apply H4|]. intros Hid. apply Ha. by split.
  - apply Forall_app. split; [done|]. by apply Forall_singleton.
Qed.

Lemma resolve_skip ds L r x : entryVisible x.2 ds = false → resolve_inv ds L r → resolve_inv ds (L ++ [x]) r.
Proof.
  intros Hv [H1 H2 H3 H4 H5].
  assert (Hh : ∀ id, history ds id (L ++ [x]) = history ds id L).
  { intros id. rewrite history_snoc, decide_False, app_nil_r; [done|]. intros [Ha _]. congruence. }
  split; [|done|done| |done]; intros id; rewrite Hh; auto.
Qed.

Lemma resolve_one_inv ds L r x :
  decided ds x → resolve_inv ds L r → resolve_inv ds (L ++ [x]) (resolve_one ds r x.1 x.2).
Proof.
  destruct x as [e tx]. unfold decided, resolve_one. simpl. intros Hd Hi.
  destruct tx as [t|]; [|by apply resolve_plain].
  case_decide as Ht; [apply resolve_plain; [simpl; by rewrite decide_True|done]|].
  destruct (entryVisible (Some t) ds) eqn:Hv; [by apply resolve_stamped|].
  destruct Hd as [Hd|Hd]; [done|]. rewrite Hd. by apply resolve_skip.
Qed.

Lemma resolve_inv_fold ds L L' r :
  Forall (decided ds) L' → resolve_inv ds L r →
  resolve_inv ds (L ++ L') (foldl (λ r (x : line), resolve_one ds r x.1 x.2) r L').
Proof.
  revert L r. induction L' as [|x L' IH]; intros L r Hd Hi; [by rewrite app_nil_r|].
  apply Forall_cons in Hd as [Hx Hd]. cbn [foldl]. replace (L ++ x :: L') with ((L ++ [x]) ++ L') by (by rewrite <- app_assoc).
  apply IH; [done|]. by apply resolve_one_inv.
Qed.

(** ** The lines of a pass *)

Lemma history_plain ds id l : history ds id (map (λ e, (e, None)) l) = filter (λ e, ID e = id) l.
Proof.
  unfold history. induction l as [|e l IH]; [done|]. cbn [map].
  destruct (decide (ID e = id)) as [He|He].
  - rewrite filter_cons_True by done. rewrite filter_cons_True by done. cbn [map]. by f_equal.
  - rewrite filter_cons_False by (intros [_ H]; by apply He). by rewrite filter_cons_False.
Qed.

(** The values of a map keyed by id. *)
Lemma filter_id_values (m : gmap Z Entry) id :
  (∀ i e, m !! i = Some e → ID e = i) →
  filter (λ e, ID e = id) (map_to_list m).*2 ≡ₚ option_list (m !! id).
Proof.
  induction m as [|i e m Hi IH] using map_ind; intros Hm; [by rewrite map_to_list_empty|].
  rewrite map_to_list_insert by done. cbn [fmap list_fmap].
  assert (He : ID e = i) by (apply Hm; by rewrite lookup_insert_eq).
  assert (IH' : filter (λ e, ID e = id) (map_to_list m).*2 ≡ₚ option_list (m !! id)).
  { apply IH. intros j e' Hj. apply Hm. rewrite lookup_insert_ne; [done|]. congruence. }
  destruct (decide (i = id)) as [->|Hne].
  - rewrite filter_cons_True by done. rewrite lookup_insert_eq, IH', Hi. done.
  - rewrite filter_cons_False by (cbn; congruence). by rewrite lookup_insert_ne.
Qed.

Lemma perm_option_list {A} (l : list A) (o : option A) : l ≡ₚ option_list o → l = option_list o.
Proof.
  destruct o as [a|]; cbn [option_list]; intros H.
  - by apply Permutation_singleton_r in H.
  - by apply Permutation_nil_r in H.
Qed.

Definition survivor (r : resolver) (n id : Z) : option Entry :=
  e ← latest r !! id; if survives r n e then Some e else None.

Lemma resolved_history ds L r n id :
  resolve_inv ds L r →
  history ds id (map out_of (resolved r n)) =
  history ds id (map out_of (evidence r)) ++ option_list (survivor r n id).
Proof.
  intros Hi. unfold resolved. rewrite map_app, history_app, map_map. f_equal.
  change (λ e, out_of (MkCE e None)) with (λ e : Entry, (e, @None TxStamp)). rewrite history_plain.
  apply perm_option_list. rewrite ssort_perm.
  set (vals := (map_to_list (latest r)).*2).
  assert (filter (λ e, ID e = id) (filter (λ e, survives r n e = true) vals) =
          filter (λ e, survives r n e = true) (filter (λ e, ID e = id) vals)) as ->.
  { rewrite !list_filter_filter. apply list_filter_iff. tauto. }
  unfold vals. rewrite filter_id_values by apply (ri_id _ _ _ Hi). unfold survivor.
  destruct (latest r !! id) as [e|]; [|done]. change (option_list (Some e)) with [e].
  cbn [mbind option_bind]. destruct (survives r n e) eqn:E.
  - by rewrite filter_cons_True.
  - rewrite filter_cons_False; [done|]. by rewrite E.
Qed.

(** The history of an id in the output is part of its history, and ends the same
    unless it ended in a tombstone or an expired record. *)
Lemma resolved_keeps ds L r n id :
  resolve_inv ds L r →
  let out := map out_of (resolved r n) in
  history ds id out `sublist_of` history ds id L ∧
  (last (history ds id out) = last (history ds id L) ∨
   history ds id out = [] ∧ ∃ e, last (history ds id L) = Some e ∧
     (Op e = OpDelete ∨ expired (ExpiresAt e) n = true)).
Proof.
  intros Hi out. unfold out. rewrite (resolved_history _ L) by done.
  pose proof (ri_last _ _ _ Hi id) as Hlast. pose proof (ri_sub _ _ _ Hi id) as Hsub.
  unfold survivor. destruct (latest r !! id) as [e|] eqn:El; cbn [mbind option_bind] in *;
    change (option_list (@None Entry)) with (@nil Entry) in *.
  - destruct (survives r n e) eqn:Es;
      [change (option_list (Some e)) with [e] in *|change (option_list (@None Entry)) with (@nil Entry)].
    + split; [done|]. left. by rewrite last_snoc, Hlast.
    + unfold survives in Es. apply orb_false_iff in Es as [Es1 Es2].
      apply bool_decide_eq_false in Es1. rewrite (ri_id _ _ _ Hi _ _ El) in Es1.
      rewrite (ri_none _ _ _ Hi _ Es1) in *. rewrite app_nil_r. split; [apply sublist_nil_l|]. right.
      split; [done|]. exists e. split; [done|]. apply negb_false_iff, orb_true_iff in Es2 as [H|H]; [left|by right].
      by apply bool_decide_eq_true in H.
  - rewrite app_nil_r in *. auto.
Qed.

Lemma known_history ds L e id : Forall known L → e ∈ history ds id L → known (e, None).
Proof.
  intros HL (x & -> & Hx)%list_elem_of_fmap. apply list_elem_of_filter in Hx as [_ Hx].
  rewrite Forall_forall in HL. by apply (HL x).
Qed.

Lemma resolved_known ds L r n : resolve_inv ds L r → Forall known L → Forall known (map out_of (resolved r n)).
Proof.
  intros Hi HL. apply Forall_forall. intros x Hx.
  assert (Hv : entryVisible x.2 ds = true).
  { apply list_elem_of_fmap in Hx as (ce & -> & Hce). unfold resolved in Hce.
    apply elem_of_app in Hce as [Hce|Hce].
    - pose proof (ri_seen _ _ _ Hi) as Hs. rewrite Forall_forall in Hs. by apply Hs in Hce as [? _].
    - by apply list_elem_of_fmap in Hce as (e & -> & _). }
  destruct (resolved_keeps ds L r n (ID x.1) Hi) as [Hsub _].
  apply (known_history ds L x.1 (ID x.1) HL). eapply elem_of_sublist; [|exact Hsub].
  apply list_elem_of_fmap. exists x. split; [done|]. apply list_elem_of_filter. done.
Qed.

Lemma history_tail {A} (h1 h2 r : list A) : r ≠ [] → last (h1 ++ r) = last (h2 ++ r).
Proof.
  intros Hr. destruct r as [|a r _] using rev_ind; [done|]. by rewrite !app_assoc, !last_snoc.
Qed.

(** Two logs that end the same for an id say the same of it. *)
Lemma records_same ds L1 L2 id :
  Forall known L1 → Forall known L2 → revs_ok ds L1 → revs_ok ds L2 →
  last (history ds id L1) = last (history ds id L2) → records ds L1 !! id = records ds L2 !! id.
Proof.
  intros K1 K2 R1 R2 Hl.
  pose proof (records_history ds L1 id K1) as H1. pose proof (records_history ds L2 id K2) as H2.
  rewrite Hl, <- H2 in H1.
  destruct (records ds L1 !! id) as [[e1 v1]|] eqn:E1, (records ds L2 !! id) as [[e2 v2]|] eqn:E2; try done.
  cbn [fmap option_fmap option_map] in H1. injection H1 as He. simpl in He.
  rewrite (records_rev _ _ _ _ _ R1 E1), (records_rev _ _ _ _ _ R2 E2), He. done.
Qed.

Lemma resolved_answer c L R r n n' id :
  let ds := cdecisions c in
  resolve_inv ds L r → Forall known (L ++ R) → revs_ok ds (L ++ R) → (n ≤ n')%Z →
  get_answer c (map out_of (resolved r n) ++ R) id n' = get_answer c (L ++ R) id n'.
Proof.
  intros ds Hi HK HR Hn. pose proof HK as [HKL HKR]%Forall_app.
  assert (HKo : Forall known (map out_of (resolved r n) ++ R)).
  { apply Forall_app. split; [by eapply resolved_known|done]. }
  assert (HRo : revs_ok ds (map out_of (resolved r n) ++ R)).
  { eapply revs_ok_sublist; [|exact HR]. intros i. rewrite !history_app.
    apply sublist_app; [by apply resolved_keeps|done]. }
  destruct (resolved_keeps ds L r n id Hi) as [_ Hlast].
  destruct (decide (history ds id R = [])) as [Hnil|Hne].
  - destruct Hlast as [Hlast|(Hnone & e & Hlast & Hdead)].
    + unfold get_answer. fold ds. rewrite (records_same ds _ (L ++ R)); try done.
      rewrite !history_app, Hnil, !app_nil_r. exact Hlast.
    + pose proof (records_history ds _ id HKo) as H1. pose proof (records_history ds _ id HK) as H2.
      rewrite !history_app, Hnil, ?app_nil_r in H1, H2. rewrite Hnone in H1. rewrite Hlast in H2.
      cbn [last mbind option_bind] in H1, H2. unfold get_answer. fold ds.
      destruct (records ds (map out_of (resolved r n) ++ R) !! id); [done|].
      destruct (records ds (L ++ R) !! id) as [[e' v]|]; [|done]. case_decide; [done|].
      cbn [fmap option_fmap option_map] in H2. injection H2 as He. simpl in He. subst e'.
      destruct Hdead as [Hd|Hd]; [done|]. by rewrite (expired_mono _ n n').
  - unfold get_answer. fold ds. rewrite (records_same ds _ (L ++ R)); try done.
    rewrite !history_app. by apply history_tail.
Qed.
