(* ===== verification/CompactWrite.v ===== *)
(** * The files a compaction pass writes

    Appending the resolved entries, rotating at the size limit and rebalancing:
    for every outcome of the file calls, files that were all written hold
    exactly the entries, in order, in at most as many segments as they replace. *)
From Stdlib Require Import Ascii Lia ZArith.
From stdpp Require Import prelude gmap strings sorting.
From S2P Require Import Prelude GoNum Json Value Filter GoTime Store Wire Codec Segment Index SecondaryIndex Collection Keyed Batch CollInv CollStep Compactor.

(** ** Steps *)

Lemma io_bind_Ok {A B} (m : IO A) (k : A → IO B) fs fs' b :
  io_bind m k fs = (fs', Ok b) → ∃ fs1 a, m fs = (fs1, Ok a) ∧ k a fs1 = (fs', Ok b).
Proof. unfold io_bind. destruct (m fs) as [fs1 [a|e]]; [eauto|done]. Qed.

Lemma io_seg_Ok {A} (f : list fault → Segment * list fault * res seg_err A) fs fs' s :
  io_seg f fs = (fs', Ok s) → ∃ a, f fs = (s, fs', Ok a).
Proof. unfold io_seg. destruct (f fs) as [[s1 fs1] [a|e]]; [|done]. intros [= -> ->]. eauto. Qed.

(** The entries a pass can write and read back. *)
Definition ce_readable (ce : compactEntry) : Prop :=
  match ce_tx ce with
  | None => plain_readable (ce_entry ce)
  | Some tx => st_t tx ≠ "" ∧ time_wf (Ts (ce_entry ce)) ∧ stamped_readable (stamp_of (ce_entry ce) tx)
  end.

(** The line an entry is written as. *)
Definition written_line (ce : compactEntry) : line :=
  match ce_tx ce with
  | None => stored (ce_entry ce)
  | Some tx => lc_decoded (stamp_of (ce_entry ce) tx)
  end.

(** A segment of a pass that holds the lines [l]. *)
Record holding (s : Segment) (ents : list located) : Prop := {
  ho_inv : seg_inv s ents;
  ho_clean : poisoned s = false
}.

Lemma append_ce_spec s ce fs fs' s' ents :
  holding s ents → ce_readable ce → append_ce s ce fs = (fs', Ok s') →
  holding s' (ents ++ [(size s, written_line ce)]).
Proof.
  intros [Hi Hp] Hr. unfold append_ce, ce_readable, written_line in *. destruct (ce_tx ce) as [tx|].
  - intros (a & Ha)%io_seg_Ok. destruct Hr as (_ & _ & Hr).
    apply (append_entry_spec s (stamp_of (ce_entry ce) tx) fs _ _ _ ents Hi) in Ha as (-> & H1 & _ & _ & _ & H2).
    split; [by apply H2|done].
  - intros (a & Ha)%io_seg_Ok.
    apply (append_entry_spec s (ce_entry ce) fs _ _ _ ents Hi) in Ha as (-> & H1 & _ & _ & _ & H2).
    split; [by apply H2|done].
Qed.

Lemma append_all_spec l s fs fs' s' ents :
  holding s ents → Forall ce_readable l → append_all s l fs = (fs', Ok s') →
  ∃ ents', holding s' (ents ++ ents') ∧ map snd ents' = map written_line l.
Proof.
  revert s fs ents. induction l as [|ce l IH]; intros s fs ents Hs Hr.
  - intros [= <- <-]. exists []. by rewrite app_nil_r.
  - apply Forall_cons in Hr as [Hce Hr]. cbn [append_all]. intros (fs1 & s1 & H1 & H2)%io_bind_Ok.
    apply append_ce_spec with (ents := ents) in H1; [|done|done].
    apply (IH _ _ _ H1 Hr) in H2 as (ents' & H2 & H3). rewrite <- app_assoc in H2.
    eexists. split; [exact H2|]. cbn [map app]. by rewrite H3.
Qed.

Lemma seal_spec s fs fs' s' ents :
  holding s ents → io_seg (Seal s) fs = (fs', Ok s') → holding s' ents.
Proof.
  intros [Hi Hp] (a & H)%io_seg_Ok. unfold Seal in H.
  repeat dest_match_in H; simplify_eq; split; try done; by apply with_handle_inv.
Qed.

Lemma open_fresh p fs fs' s : io_open p fs = (fs', Ok s) → holding s [] ∧ size s = 0.
Proof.
  unfold io_open. destruct (openActiveSegment p [] fs) as [[d fs1] [s1|]] eqn:E; [|done]. intros [= <- <-].
  apply open_spec in E as [-> ->]. split; [|done]. split; [|done]. split; [apply le_n|constructor|reflexivity].
Qed.

(** The segments of a list and the lines they hold, in order. *)
Definition holding_lines (segs : list Segment) (l : list line) : Prop :=
  ∃ es, Forall2 holding segs es ∧ map snd (concat es) = l.

Lemma holding_lines_nil : holding_lines [] [].
Proof. by exists []. Qed.

Lemma holding_lines_snoc segs l s ents :
  holding_lines segs l → holding s ents → holding_lines (segs ++ [s]) (l ++ map snd ents).
Proof.
  intros (es & H1 & <-) H2. exists (es ++ [ents]). split.
  - apply Forall2_app; [done|]. by constructor.
  - rewrite concat_app, map_app. simpl. by rewrite app_nil_r.
Qed.

Lemma holding_lines_cons segs l s ents :
  holding_lines segs l → holding s ents → holding_lines (s :: segs) (map snd ents ++ l).
Proof.
  intros (es & H1 & <-) H2. exists (ents :: es). split; [by constructor|]. cbn [concat]. by rewrite map_app.
Qed.

Lemma holding_lines_inv s segs l :
  holding_lines (s :: segs) l → ∃ ents l', holding s ents ∧ holding_lines segs l' ∧ l = map snd ents ++ l'.
Proof.
  intros (es & H1 & <-). inversion H1 as [|? ents ? es' Hs Hr]; subst. exists ents, (map snd (concat es')).
  split_and!; [done|by exists es'|]. cbn [concat]. by rewrite map_app.
Qed.

(** ** The write loop *)

Lemma write_loop_spec d maxSize maxSegs l segs current segIdx fs fs' out L ea :
  holding_lines segs L → holding current ea → Forall ce_readable l →
  (maxSegs = 0 ∨ length segs < maxSegs) →
  write_loop d maxSize maxSegs l segs current segIdx fs = (fs', Ok out) →
  holding_lines out (L ++ map snd ea ++ map written_line l) ∧ (maxSegs = 0 ∨ length out ≤ maxSegs).
Proof.
  revert segs current segIdx fs L ea. induction l as [|ce l IH]; intros segs current segIdx fs L ea Hs Hc Hr Hm.
  - cbn [write_loop]. intros (fs1 & s & H1 & [= <- <-])%io_bind_Ok.
    apply seal_spec with (ents := ea) in H1; [|done]. cbn [map]. rewrite app_nil_r.
    split; [by apply holding_lines_snoc|]. rewrite length_app. simpl. lia.
  - apply Forall_cons in Hr as [Hce Hr]. cbn [write_loop map]. destruct (_ && _) eqn:Hrot.
    + intros (fs1 & s & H1 & (fs2 & fresh & H2 & (fs3 & cur & H3 & H4)%io_bind_Ok)%io_bind_Ok)%io_bind_Ok.
      apply seal_spec with (ents := ea) in H1; [|done]. apply open_fresh in H2 as [H2 _].
      apply append_ce_spec with (ents := []) in H3; [|done|done].
      eapply IH in H4; [|by apply holding_lines_snoc|exact H3|done|].
      * cbn [app map] in H4. by rewrite <- app_assoc in H4.
      * apply andb_true_iff in Hrot as [_ Hrot]. rewrite length_app. simpl.
        apply orb_true_iff in Hrot as [Hz|Hlt]; [left; by apply Nat.eqb_eq|right; by apply Nat.ltb_lt].
    + intros (fs1 & cur & H1 & H2)%io_bind_Ok.
      apply append_ce_spec with (ents := ea) in H1; [|done|done].
      eapply IH in H2; [|done|exact H1|done|done]. rewrite map_app in H2. cbn [map] in H2.
      by rewrite <- app_assoc in H2.
Qed.

(** ** Rebalancing *)

(** A line that a merge copies as it is. *)
Definition stable (x : line) : Prop :=
  ∀ o, ce_readable (rewritten (o, x)) ∧ written_line (rewritten (o, x)) = x.

Lemma stored_stable e : plain_readable e → stable (stored e).
Proof.
  intros [Hwf Hne] o. unfold rewritten, ce_readable, written_line, stored. simpl. split.
  - split; [by apply set_crc_wf|done].
  - by rewrite checksum_set_crc.
Qed.

Lemma written_stable ce : ce_readable ce → stable (written_line ce).
Proof.
  unfold ce_readable, written_line. destruct ce as [e [tx|]]; cbn [ce_tx ce_entry].
  - intros (Ht & Hts & [Hwf Hne]) o. unfold rewritten, ce_readable, written_line. cbn [fst snd lc_decoded stamped_codec].
    cbn [S_Tx stamp_of ce_tx ce_entry]. rewrite decide_False by done.
    unfold entry_of_stamped. cbn [S_Ts stamp_of set_stamped_crc S_ID S_Op S_Rev S_Data S_Epoch S_ExpiresAt S_CRC Ts].
    rewrite b_of_s_of_b, parse_fmt_time by done. cbn [default].
    unfold stamp_of. cbn [ID Op Ts Rev Data Epoch ExpiresAt].
    split; [by split_and!|]. unfold set_stamped_crc. cbn [S_Ts S_ID S_Op S_Rev S_Data S_Epoch S_ExpiresAt S_CRC S_Tx].
    by rewrite b_of_s_of_b, parse_fmt_time.
  - apply stored_stable.
Qed.

Lemma stable_lines ents :
  Forall stable (map snd ents) →
  Forall ce_readable (map rewritten ents) ∧ map written_line (map rewritten ents) = map snd ents.
Proof.
  induction ents as [|[o x] ents IH]; intros H; [done|]. cbn [map] in *. apply Forall_cons in H as [Hx H].
  destruct (IH H) as [H1 H2]. destruct (Hx o) as [H3 H4]. split; [by constructor|]. by f_equal.
Qed.

Lemma merge_one_spec merged src fs fs' s' ents esrc :
  holding merged ents → holding src esrc → Forall stable (map snd esrc) →
  merge_one merged src fs = (fs', Ok s') →
  ∃ ents', holding s' (ents ++ ents') ∧ map snd ents' = map snd esrc.
Proof.
  intros Hm [Hi Hp] Hst. unfold merge_one. rewrite (scan_entries _ _ Hi Hp).
  destruct (stable_lines _ Hst) as [Hr Hw]. intros (fs1 & s & H1 & [= <- <-])%io_bind_Ok.
  apply append_all_spec with (ents := ents) in H1 as (ents' & H1 & H2); [|done|done].
  exists ents'. split; [done|]. by rewrite H2, Hw.
Qed.

Lemma mergeSegments_spec a b fs fs' s ea eb :
  holding a ea → holding b eb → Forall stable (map snd ea) → Forall stable (map snd eb) →
  mergeSegments a b fs = (fs', Ok s) → ∃ ents, holding s ents ∧ map snd ents = map snd ea ++ map snd eb.
Proof.
  intros Ha Hb Hsa Hsb. unfold mergeSegments.
  intros (fs1 & _ & _ & (fs2 & m & H2 & (fs3 & m1 & H3 & (fs4 & m2 & H4 & H5)%io_bind_Ok)%io_bind_Ok)%io_bind_Ok)%io_bind_Ok.
  apply open_fresh in H2 as [H2 _].
  apply (merge_one_spec _ _ _ _ _ _ _ H2 Ha Hsa) in H3 as (e1 & H3 & E1). cbn [app] in H3.
  apply (merge_one_spec _ _ _ _ _ _ _ H3 Hb Hsb) in H4 as (e2 & H4 & E2).
  apply (seal_spec _ _ _ _ _ H4) in H5. exists (e1 ++ e2). split; [done|].
  etrans; [apply map_app|]. exact (f_equal2 app E1 E2).
Qed.

Lemma rebalance_loop_spec minSize maxSize segs fs fs' out L :
  holding_lines segs L → Forall stable L → rebalance_loop minSize maxSize segs fs = (fs', Ok out) →
  holding_lines out L ∧ length out ≤ length segs.
Proof.
  remember (length segs) as k eqn:Hk. revert segs Hk fs fs' out L.
  induction k as [k IH] using lt_wf_ind. intros segs -> fs fs' out L Hs Hst.
  destruct segs as [|s [|next rest]]; cbn [rebalance_loop].
  - intros [= <- <-]. done.
  - intros [= <- <-]. done.
  - assert (Hkeep : ∀ fs out, io_bind (rebalance_loop minSize maxSize (next :: rest)) (λ r, io_ret (s :: r)) fs = (fs', Ok out) →
      holding_lines out L ∧ length out ≤ length (s :: next :: rest)).
    { intros fs0 out0 (fs1 & r & H1 & [= <- <-])%io_bind_Ok.
      apply holding_lines_inv in Hs as (ents & l' & Hse & Hs' & ->). apply Forall_app in Hst as [_ Hst].
      eapply (IH (length (next :: rest))) in H1 as [H1 H2]; [|simpl; lia|done|done|done].
      split; [by apply holding_lines_cons|simpl in *; lia]. }
    destruct (_ <=? _)%Z; [apply Hkeep|]. destruct (_ <=? _)%Z; [|apply Hkeep].
    intros (fs1 & m & H1 & (fs2 & r & H2 & [= <- <-])%io_bind_Ok)%io_bind_Ok.
    apply holding_lines_inv in Hs as (ea & l1 & Ha & Hs & ->).
    apply holding_lines_inv in Hs as (eb & l2 & Hb & Hs & ->).
    apply Forall_app in Hst as [Hsa Hst]. apply Forall_app in Hst as [Hsb Hst].
    apply (mergeSegments_spec _ _ _ _ _ _ _ Ha Hb Hsa Hsb) in H1 as (em & Hm & Em).
    eapply (IH (length rest)) in H2 as [H2 H3]; [|simpl; lia|done|done|done].
    split; [|simpl in *; lia]. rewrite app_assoc, <- Em. by apply holding_lines_cons.
Qed.

(** ** The whole output *)

Lemma writeCompactEntries_spec d maxSize l maxSegs fs fs' out :
  Forall ce_readable l → 0 < maxSegs → writeCompactEntries d maxSize l maxSegs fs = (fs', Ok out) →
  holding_lines out (map written_line l) ∧ length out ≤ maxSegs.
Proof.
  intros Hr Hm. unfold writeCompactEntries. destruct l as [|ce l].
  { intros [= <- <-]. split; [apply holding_lines_nil|simpl; lia]. }
  intros (fs1 & cur & H1 & (fs2 & segs & H2 & H3)%io_bind_Ok)%io_bind_Ok.
  apply open_fresh in H1 as [H1 _].
  eapply write_loop_spec in H2 as [H2 Hlen]; [|apply holding_lines_nil|exact H1|exact Hr|right; simpl; lia].
  cbn [map app] in H2. apply rebalance_loop_spec with (L := map written_line (ce :: l)) in H3 as [H3 H4]; [|done|].
  - split; [done|lia].
  - apply Forall_fmap. eapply List.Forall_impl; [|exact Hr]. intros x. apply written_stable.
Qed.
