(* ===== verification/CompactThm.v ===== *)
(** * Compaction keeps the records

    A pass is run on the segments it snapshots, the writers go on, and the swap
    happens on the state they reached.  For every outcome of the file calls the
    collection then answers every read as before, unless the swap stopped midway
    (and says so). *)
From Stdlib Require Import Ascii Lia ZArith.
From stdpp Require Import prelude gmap strings sorting.
From S2P Require Import Prelude GoNum Json Value Filter GoTime Store Wire Codec Segment Index SecondaryIndex Collection Keyed Batch CollInv CollStep CollOps CollThm Unique BatchInv Compactor CompactInv CompactWrite.

(** ** Lines that read the same *)

Record same_line (c : Collection) (x y : line) : Prop := {
  sl_tx ds : entryVisible x.2 ds = entryVisible y.2 ds;
  sl_id : ID x.1 = ID y.1;
  sl_op : Op x.1 = Op y.1;
  sl_ts : Ts x.1 = Ts y.1;
  sl_rev : Rev x.1 = Rev y.1;
  sl_exp : ExpiresAt x.1 = ExpiresAt y.1;
  sl_data : materialize c (Data x.1) = materialize c (Data y.1)
}.

Lemma same_line_refl c x : same_line c x x.
Proof. done. Qed.

Definition same_rec (c : Collection) (a b : Entry * Z) : Prop :=
  Ts a.1 = Ts b.1 ∧ ExpiresAt a.1 = ExpiresAt b.1 ∧ materialize c (Data a.1) = materialize c (Data b.1) ∧ a.2 = b.2.

Definition same_records (c : Collection) (m1 m2 : gmap Z (Entry * Z)) : Prop :=
  ∀ id, option_Forall2 (same_rec c) (m1 !! id) (m2 !! id).

Lemma same_rec_step c ds m1 m2 x y :
  same_records c m1 m2 → same_line c x y → same_records c (rec_step ds m1 x) (rec_step ds m2 y).
Proof.
  intros Hm [H1 H2 H3 H4 H5 H6 H7]. unfold rec_step. rewrite H1, H2, H3, H5.
  destruct (entryVisible y.2 ds); [|done].
  assert (Hrev : match m1 !! ID y.1 with Some r => r.2 | None => 0%Z end =
                 match m2 !! ID y.1 with Some r => r.2 | None => 0%Z end).
  { specialize (Hm (ID y.1)). destruct Hm as [a b (_ & _ & _ & ->)|]; done. }
  case_decide.
  - rewrite Hrev. intros id. destruct (decide (ID y.1 = id)) as [<-|Hne].
    + rewrite !lookup_insert_eq. constructor. by split_and!.
    + rewrite !lookup_insert_ne by done. apply Hm.
  - case_decide; [|done]. intros id. destruct (decide (ID y.1 = id)) as [<-|Hne].
    + rewrite !lookup_delete_eq. constructor.
    + rewrite !lookup_delete_ne by done. apply Hm.
Qed.

Lemma same_lines_answer c L1 L2 id n :
  Forall2 (same_line c) L1 L2 → get_answer c L1 id n = get_answer c L2 id n.
Proof.
  intros HL.
  assert (H : same_records c (records (cdecisions c) L1) (records (cdecisions c) L2)).
  { unfold records. assert (H0 : same_records c ∅ ∅) by (intros i; rewrite !lookup_empty; constructor).
    revert H0. generalize (∅ : gmap Z (Entry * Z)) at 1 3. generalize (∅ : gmap Z (Entry * Z)).
    induction HL as [|x y L1 L2 Hxy _ IH]; intros m2 m1 Hm; [done|]. cbn [foldl]. apply IH.
    by apply same_rec_step. }
  specialize (H id). unfold get_answer. destruct H as [[e1 v1] [e2 v2] (H1 & H2 & H3 & H4)|]; [|done].
  simpl in *. by rewrite H1, H2, H3, H4.
Qed.

Lemma written_same c ce : ce_readable ce → same_line c (written_line ce) (out_of ce).
Proof.
  unfold ce_readable, written_line, out_of. destruct ce as [e [tx|]]; cbn [ce_tx ce_entry]; [|done].
  intros (_ & Hts & _). split; [reflexivity..| |reflexivity|reflexivity|reflexivity].
  change (default zero_time (parse_time (b_of_s (s_of_b (fmt_time (Ts e))))) = Ts e).
  by rewrite b_of_s_of_b, parse_fmt_time.
Qed.

(** ** Resolving segments *)

Lemma resolve_segs_spec ds segs es r :
  holds_all segs es →
  resolve_segs ds r segs = Ok (foldl (λ r (x : line), resolve_one ds r x.1 x.2) r (map snd (concat es))).
Proof.
  intros H. revert r. induction H as [|s e segs es [Hi Hp] _ IH]; intros r; [done|].
  cbn [resolve_segs concat]. rewrite (scan_entries _ _ Hi Hp), map_app, foldl_app, IH. f_equal. f_equal.
  clear. revert r. induction e as [|x e IH]; intros r; [done|]. cbn [foldl map]. apply IH.
Qed.

Lemma resolve_start ds : resolve_inv ds [] (MkRes ∅ [] ∅).
Proof. by split. Qed.

(** ** What a pass prepares *)

(** The entries of a resolved list come from the log. *)
Lemma resolved_from ds L r n ce :
  resolve_inv ds L r → ce ∈ resolved r n → ∃ x, x ∈ L ∧ x.1 = ce_entry ce.
Proof.
  intros Hi Hce. destruct (resolved_keeps ds L r n (ID (ce_entry ce)) Hi) as [Hsub _].
  assert (Hv : entryVisible (ce_tx ce) ds = true).
  { unfold resolved in Hce. apply elem_of_app in Hce as [Hce|Hce].
    - pose proof (ri_seen _ _ _ Hi) as Hs. rewrite Forall_forall in Hs. by apply Hs in Hce as [? _].
    - by apply list_elem_of_fmap in Hce as (e & -> & _). }
  assert (Hin : ce_entry ce ∈ history ds (ID (ce_entry ce)) L).
  { eapply elem_of_sublist; [|exact Hsub]. apply list_elem_of_fmap. exists (out_of ce). split; [done|].
    apply list_elem_of_filter. split; [done|]. apply list_elem_of_fmap. eauto. }
  apply list_elem_of_fmap in Hin as (x & Hx & Hin). exists x. split; [|done].
  by apply list_elem_of_filter in Hin as [_ ?].
Qed.

(** The encryptor opens what it seals, and seals good data into good data. *)
Definition enc_sound (c : Collection) : Prop :=
  ∀ en, enc c = Some en →
    in_u64 (enc_epoch en) ∧
    ∀ pt d', good_data pt → enc_encrypt en pt = Some d' →
             enc_materialize en d' [] = Some pt ∧ good_data d'.

(** An entry that can be copied, and sealed again if need be. *)
Definition ce_whole (en : option encryptor) (ce : compactEntry) : Prop :=
  ce_readable ce ∧
  (ce_tx ce = None → Op (ce_entry ce) ≠ OpDelete → ∀ e pt, en = Some e →
     enc_materialize e (default ∅ (Data (ce_entry ce))) [] = Some pt → good_data pt).

Lemma reencrypt_spec c l l' :
  enc_sound c → reencryptForMigration (enc c) l = Some l' → Forall (ce_whole (enc c)) l →
  Forall2 (λ ce ce', ce_readable ce' ∧ same_line c (out_of ce') (out_of ce)) l l'.
Proof.
  intros He. unfold reencryptForMigration. destruct (enc c) as [en|] eqn:Een.
  - intros Hm. apply mapM_Some in Hm. induction Hm as [|ce ce' l l' Hone _ IH]; intros Hr; [constructor|].
    apply Forall_cons in Hr as [[Hce Hwhole] Hr]. constructor; [|by apply IH]. clear IH Hr.
    unfold reencrypt_one in Hone. destruct (ce_tx ce) as [tx|] eqn:Etx; [by injection Hone as <-|].
    case_decide as Hd; [by injection Hone as <-|].
    unfold ce_readable in Hce. rewrite Etx in Hce. destruct Hce as [Hwf Hne].
    apply bind_Some in Hone as (d & Hd' & [= <-]). unfold reencrypt in Hd'.
    apply bind_Some in Hd' as (pt & Hpt & Hen). destruct (He en Een) as [Hep Hrt].
    destruct (Hrt pt d (Hwhole eq_refl ltac:(naive_solver) en pt eq_refl Hpt) Hen) as [Hback [Hg1 Hg2]]. split.
    + unfold ce_readable. cbn [ce_tx ce_entry]. split; [|simpl; congruence]. by destruct Hwf; split.
    + split; try done; simpl; [intros ds; by rewrite Etx|].
      unfold materialize. rewrite Een. cbn [default]. by rewrite Hpt.
  - intros [= <-] Hr. apply Forall2_same_length_lookup. split; [done|]. intros i x y Hx Hy.
    rewrite Hx in Hy. injection Hy as <-. split; [|done]. rewrite Forall_forall in Hr. apply Hr.
    by eapply list_elem_of_lookup_2.
Qed.

(** A line a pass can copy. *)
Definition line_readable (en : option encryptor) (x : line) : Prop := ce_whole en (rewritten (0, x)).

Definition res_readable (en : option encryptor) (r : resolver) : Prop :=
  Forall (ce_whole en) (evidence r) ∧ map_Forall (λ _ e, ce_whole en (MkCE e None)) (latest r).

Lemma resolve_one_readable en ds r x :
  line_readable en x → res_readable en r → res_readable en (resolve_one ds r x.1 x.2).
Proof.
  destruct x as [e tx]. intros Hx [H1 H2]. unfold line_readable, rewritten in Hx. cbn [fst snd] in *.
  unfold resolve_one. destruct tx as [t|].
  - case_decide as Ht; [split; [done|by apply map_Forall_insert_2]|].
    destruct (entryVisible (Some t) ds).
    + split; cbn [evidence latest]; [|by apply map_Forall_delete]. apply Forall_app. split; [done|].
      by apply Forall_singleton.
    + destruct (undecided ds t); [|done]. split; cbn [evidence latest]; [|done].
      apply Forall_app. split; [done|]. by apply Forall_singleton.
  - split; [done|]. by apply map_Forall_insert_2.
Qed.

Lemma resolve_readable en ds L r :
  Forall (line_readable en) L → res_readable en r →
  res_readable en (foldl (λ r (x : line), resolve_one ds r x.1 x.2) r L).
Proof.
  revert r. induction L as [|x L IH]; intros r HL Hr; [done|]. apply Forall_cons in HL as [Hx HL].
  cbn [foldl]. apply IH; [done|]. by apply resolve_one_readable.
Qed.

Lemma resolved_readable en r n : res_readable en r → Forall (ce_whole en) (resolved r n).
Proof.
  intros [H1 H2]. unfold resolved. apply Forall_app. split; [done|]. apply Forall_fmap, Forall_forall.
  intros e He. rewrite elem_of_ssort in He. apply list_elem_of_filter in He as [_ He].
  apply list_elem_of_fmap in He as ([i e'] & -> & He%elem_of_map_to_list). exact (H2 _ _ He).
Qed.

(** A log compaction handles: every line can be copied, every transaction is
    decided, and the lines carry their revisions. *)
Record compactable (en : option encryptor) (ds : option decisions) (L : list line) : Prop := {
  cp_known : Forall known L;
  cp_decided : Forall (decided ds) L;
  cp_readable : Forall (line_readable en) L;
  cp_revs : revs_ok ds L
}.

(** [temps] hold the compacted form of the lines [L1]. *)
Definition prepared (c : Collection) (L1 : list line) (temps : list Segment) (n : Z) : Prop :=
  ∃ r out, resolve_inv (cdecisions c) L1 r ∧ holding_lines temps out ∧
    Forall2 (same_line c) out (map out_of (resolved r n)).

Lemma same_line_trans c x y z : same_line c x y → same_line c y z → same_line c x z.
Proof. intros [] []. split; intros; congruence. Qed.

Lemma compact_out_same c l l' :
  Forall2 (λ ce ce', ce_readable ce' ∧ same_line c (out_of ce') (out_of ce)) l l' →
  Forall ce_readable l' ∧ Forall2 (same_line c) (map written_line l') (map out_of l).
Proof.
  induction 1 as [|ce ce' l l' [H1 H2] _ [IH1 IH2]]; [by split; constructor|]. cbn [map]. split; constructor; try done.
  eapply same_line_trans; [by apply written_same|done].
Qed.

Lemma resolve_prepared c segs es n l l' fs fs' temps :
  holds_all segs es → segs ≠ [] → Forall (decided (cdecisions c)) (map snd (concat es)) →
  Forall (line_readable (enc c)) (map snd (concat es)) → enc_sound c →
  resolveCompactEntries segs (cdecisions c) n = Ok l → reencryptForMigration (enc c) l = Some l' →
  writeCompactEntries (dir c) (SegmentMaxSize (cfg c)) l' (length segs) fs = (fs', Ok temps) →
  prepared c (map snd (concat es)) temps n ∧ length temps ≤ length segs.
Proof.
  intros Hh Hne Hd Hr He Hl Hl' Hw. unfold resolveCompactEntries in Hl.
  rewrite (resolve_segs_spec _ _ _ _ Hh) in Hl. cbn [res_bind] in Hl. injection Hl as <-.
  set (L := map snd (concat es)) in *. 
  set (r := foldl (λ r (x : line), resolve_one (cdecisions c) r x.1 x.2) (MkRes ∅ [] ∅) L) in *.
  assert (Hi : resolve_inv (cdecisions c) L r) by (apply (resolve_inv_fold _ []); [done|apply resolve_start]).
  assert (Hrr : Forall (ce_whole (enc c)) (resolved r n)).
  { apply resolved_readable, resolve_readable; [done|]. split; [constructor|apply map_Forall_empty]. }
  apply (reencrypt_spec c _ _ He) in Hl'; [|done]. apply compact_out_same in Hl' as [Hl1 Hl2].
  apply writeCompactEntries_spec in Hw as [Hw1 Hw2]; [|done|destruct segs; [done|simpl; lia]].
  split; [|done]. by exists r, (map written_line l').
Qed.

Lemma lift_io_run {A B} (m : IO A) (k : res seg_err A → M B) st Q :
  (∀ fs r, m (io st) = (fs, r) → wp (k r) (MkSt (coll st) fs (wall st)) Q) → wp (bind (lift_io m) k) st Q.
Proof.
  intros H. apply wp_bind. unfold wp, lift_io. destruct (m (io st)) as [fs r] eqn:E. simpl. by apply H.
Qed.

(** The first half of a pass changes nothing but the clock. *)
Lemma prepare_spec st es ea force lease :
  world st → cinv_at (coll st) es ea → (0 < clockFloor (coll st))%Z → enc_sound (coll st) →
  Forall (decided (cdecisions (coll st))) (map snd (concat es)) → Forall (line_readable (enc (coll st))) (map snd (concat es)) →
  wp (compact_prepare force lease) st (λ st' r, world st' ∧ frame (coll st) (coll st') ∧
    match r with
    | Ok (Some (tc, temps)) => tc = sealedSegs (coll st) ∧ length temps ≤ length tc ∧
        ∃ n, (n ≤ clockFloor (coll st'))%Z ∧ prepared (coll st) (map snd (concat es)) temps n
    | _ => True
    end).
Proof.
  intros Hw Hc Hpos He Hd Hr. unfold compact_prepare. apply wp_get.
  assert (Hrefl : frame (coll st) (coll st)) by apply frame_refl.
  destruct (closeDone (coll st)); [by apply wp_ret|]. apply wp_guard; intros _; [done|].
  case_bool_decide as Hnil; [by apply wp_ret|]. destruct (_ && _); [by apply wp_ret|].
  destruct lease; cbn [negb]; [|apply wp_guard; intros _; [done|by apply wp_ret]].
  apply wp_now; [done|]. intros st1 n Hw1 F1 _ Hcl Hn.
  pose proof (fr_clock _ _ F1) as Hmono. destruct (Z.eqb_spec n 0); [lia|].
  apply wp_bind, wp_ret.
  destruct (resolveCompactEntries _ _ n) as [l|] eqn:El; [|by apply wp_throw].
  destruct (reencryptForMigration _ l) as [l'|] eqn:El'; [|by apply wp_throw].
  apply wp_io. intros fs1 ok. apply wp_guard; intros _; [done|].
  apply lift_io_run. cbn [io coll wall]. intros fs2 r Hwr.
  destruct r as [temps|e]; [|apply wp_io; intros; by apply wp_throw].
  destruct (_ <? _); [apply wp_io; intros; by apply wp_throw|]. apply wp_ret. cbn [coll].
  split_and!; [done|done|done|..].
  - eapply resolve_prepared in Hwr as [_ ?]; try done. apply Hc.
  - exists n. split; [lia|]. eapply resolve_prepared in Hwr as [? _]; try done. apply Hc.
Qed.

(** ** The swap: what stays *)

(** Everything but the sealed segments, the indexes and the failure flag. *)
Record settled (c c' : Collection) : Prop := {
  se_dir : dir c' = dir c;
  se_cfg : cfg c' = cfg c;
  se_active : active c' = active c;
  se_idSeq : idSeq c' = idSeq c;
  se_segSeq : segSeq c' = segSeq c;
  se_fenced : fenced c' = fenced c;
  se_decisions : cdecisions c' = cdecisions c;
  se_clock : clockFloor c' = clockFloor c;
  se_enc : enc c' = enc c
}.

#[local] Instance settled_preorder : PreOrder settled.
Proof. split; [by split|]. intros a b c [] []. split; congruence. Qed.

(** The sealed segments are the same. *)
Definition same_sealed (c c' : Collection) : Prop := sealedSegs c' = sealedSegs c.

#[local] Instance same_sealed_preorder : PreOrder same_sealed.
Proof. split; [done|]. unfold same_sealed. intros a b c. congruence. Qed.

(** A step that keeps the relation [R], and the clock readings to come. *)
Definition keeps (R : Collection → Collection → Prop) {A} (m : M A) : Prop :=
  ∀ st, wp m st (λ st' _, wall st' = wall st ∧ R (coll st) (coll st')).

Section keeps.
Context (R : Collection → Collection → Prop) `{!PreOrder R}.

Lemma keeps_ret {A} (a : A) : keeps R (ret a).
Proof. by intros st. Qed.
Lemma keeps_throw {A} e : keeps R (throw e : M A).
Proof. by intros st. Qed.
Lemma keeps_modify f : (∀ c, R c (f c)) → keeps R (modify f).
Proof. intros H st. by split. Qed.
Lemma keeps_get : keeps R get_coll.
Proof. by intros st. Qed.
Lemma keeps_io : keeps R io_call.
Proof. intros st. unfold wp, io_call. by destruct (next_fault (io st)). Qed.
Lemma keeps_guard b e : keeps R (guard_err b e).
Proof. by destruct b. Qed.

Lemma keeps_bind {A B} (m : M A) (k : A → M B) : keeps R m → (∀ a, keeps R (k a)) → keeps R (bind m k).
Proof.
  intros Hm Hk st. apply wp_bind. eapply wp_mono; [apply Hm|]. intros st1 [a|e] [H1 H2]; [|done].
  eapply wp_mono; [apply Hk|]. intros st2 r [H3 H4]. split; [congruence|by etrans].
Qed.

End keeps.

Create HintDb keeps.
#[local] Hint Resolve keeps_ret keeps_throw keeps_get keeps_io keeps_guard settled_preorder same_sealed_preorder : keeps.
#[local] Hint Extern 4 (keeps _ (modify _)) => apply keeps_modify; done : keeps.
#[local] Hint Extern 5 (keeps _ (bind _ _)) => apply keeps_bind; [|intros|intros] : keeps.
#[local] Hint Extern 6 (keeps _ (if ?b then _ else _)) => destruct b : keeps.
#[local] Hint Extern 6 (keeps _ (match ?r with Ok _ => _ | Err _ => _ end)) => destruct r : keeps.
#[local] Hint Extern 6 (keeps _ (match ?r with Some _ => _ | None => _ end)) => destruct r : keeps.

Lemma settled_rename first l : keeps settled (rename_loop first l).
Proof.
  revert first. induction l as [|[t p] l IH]; intros first; cbn [rename_loop]; unfold swap_failed; auto 20 with keeps.
Qed.

(** What follows the replacement of the list of segments. *)
Lemma keeps_reindex R :
  PreOrder R → (∀ c, R c (set_swapFailed c)) → (∀ c m, R c (set_sidxMap c m)) → (∀ c i, R c (set_index c i)) →
  keeps R (compact_reindex ;;; compact_retire).
Proof.
  intros HP Hs Hm Hi.
  assert (Hsidx : ∀ fields, keeps R (compact_sidx fields)).
  { induction fields as [|f fields IH]; cbn [compact_sidx]; unfold swap_failed; auto 20 with keeps. }
  assert (Hper : ∀ fields, keeps R (persist_each fields)).
  { induction fields as [|f fields IH]; cbn [persist_each]; unfold persistSecondary; auto 20 with keeps. }
  unfold compact_reindex, compact_retire, swap_failed. auto 40 with keeps.
Qed.

Lemma settled_swap tc temps : keeps settled (compact_swap tc temps).
Proof.
  unfold compact_swap, swap_failed.
  assert (keeps settled (compact_reindex ;;; compact_retire)) by (apply keeps_reindex; [apply _|done|done|done]).
  pose proof settled_rename. auto 40 with keeps.
Qed.

(** ** The swap: the new layout *)

Definition new_seg (t : Segment) (p : string) (ok : bool) : Segment :=
  openSealedSegment p (disk t) (if ok then length (disk t) else 0).

Lemma set_sealed_twice c a b : set_sealed (set_sealed c a) b = set_sealed c b.
Proof. done. Qed.

Lemma replace_drop c p d k :
  p ∉ map path (drop k (sealedSegs c)) →
  drop k (sealedSegs (replace_file c p d)) = drop k (sealedSegs c).
Proof.
  intros Hp. unfold replace_file. simpl. rewrite <- fmap_drop.
  induction (drop k (sealedSegs c)) as [|s l IH]; [done|]. cbn [map fmap list_fmap] in *.
  rewrite not_elem_of_cons in Hp. destruct Hp as [Hs Hp]. rewrite decide_False by congruence. f_equal. by apply IH.
Qed.

Lemma rename_loop_spec k l first st (Q : St → res cerr (list Segment) → Prop) :
  Forall (λ tp : Segment * string, tp.2 ∉ map path (drop k (sealedSegs (coll st)))) l →
  (∀ st' e, swapFailed (coll st') = true → Q st' (Err e)) →
  (first = true → ∀ fs e, Q (MkSt (coll st) fs (wall st)) (Err e)) →
  (∀ fs segs' news, drop k segs' = drop k (sealedSegs (coll st)) →
     Forall2 (λ tp s, ∃ ok, s = new_seg tp.1 tp.2 ok) l news →
     Q (MkSt (set_sealed (coll st) segs') fs (wall st)) (Ok news)) →
  wp (rename_loop first l) st Q.
Proof.
  revert first st Q. induction l as [|[t p] l IH]; intros first st Q Hp Hfail Hfirst Hok; cbn [rename_loop].
  - apply wp_ret. specialize (Hok (io st) (sealedSegs (coll st)) [] eq_refl (List.Forall2_nil _)).
    by destruct st as [[] ? ?].
  - apply Forall_cons in Hp as [Hp1 Hp]. apply wp_io. intros fs1 ok1. destruct ok1; cbn [negb].
    + apply wp_modify. apply wp_io. intros fs2 ok2. apply wp_bind. cbn [coll wall].
      pose proof (replace_drop (coll st) p (disk t) k Hp1) as Hd.
      apply IH; cbn [coll wall]; [by rewrite Hd|..].
      * intros st' e Hs. by apply Hfail.
      * done.
      * intros fs3 segs' news Hd' Hn. apply wp_ret. unfold replace_file. rewrite set_sealed_twice.
        apply Hok; [by rewrite Hd'|]. constructor; [by exists ok2|done].
    + destruct first.
      * apply wp_io. intros fs2 cleared. destruct cleared; cbn [negb].
        -- apply wp_io. intros fs3 b. apply wp_throw. by apply Hfirst.
        -- apply wp_modify, wp_throw. by apply Hfail.
      * apply wp_modify, wp_throw. by apply Hfail.
Qed.

(** A file that was given the wrong size. *)
Definition missized (c : Collection) : Prop := Exists (λ s, size s ≠ length (disk s)) (sealedSegs c).

Lemma news_sized l news :
  Forall2 (λ tp s, ∃ ok, s = new_seg tp.1 tp.2 ok) l news →
  Exists (λ s, size s ≠ length (disk s)) news ∨ news = map (λ tp, new_seg tp.1 tp.2 true) l.
Proof.
  induction 1 as [|[t p] s l news [ok ->] _ IH]; [by right|]. cbn [map fst snd]. destruct IH as [IH|IH].
  - left. by apply Exists_cons_tl.
  - destruct ok; [right; by f_equal|].
    destruct (decide (length (disk t) = 0)) as [Hz|Hz].
    + right. f_equal; [|done]. unfold new_seg. by rewrite Hz.
    + left. apply Exists_cons_hd. unfold new_seg. simpl. congruence.
Qed.

Lemma new_seg_holds t p es : holding t es → seg_inv (new_seg t p true) es ∧ poisoned (new_seg t p true) = false.
Proof.
  intros [[Hle Hh Hc] Hp]. split; [|done]. unfold new_seg, openSealedSegment. split; simpl; [done| |done].
  by rewrite <- (Hc Hp).
Qed.

Lemma sublist_map_inv {A B} (f : A → B) l k : k `sublist_of` map f l → ∃ k', k = map f k' ∧ k' `sublist_of` l.
Proof.
  revert k. induction l as [|x l IH]; intros k Hk; cbn [map] in Hk.
  - apply sublist_nil_r in Hk as ->. by exists [].
  - apply sublist_cons_r in Hk as [Hk|(k' & -> & Hk)]; apply IH in Hk as (k'' & -> & Hk).
    + exists k''. split; [done|]. by constructor.
    + exists (x :: k''). split; [done|]. by constructor.
Qed.

Lemma numbered_sublist c c' p p' :
  dir c' = dir c → segSeq c' = segSeq c → p' `sublist_of` p → numbered c p → numbered c' p'.
Proof.
  intros Hd Hs Hsub (nums & -> & H1 & H2). apply sublist_map_inv in Hsub as (nums' & -> & Hsub).
  exists nums'. split_and!.
  - unfold segmentPath. by rewrite Hd.
  - by eapply sublist_sorted.
  - rewrite Hs. by eapply Forall_sublist.
Qed.

Lemma new_paths (temps tc : list Segment) :
  length temps ≤ length tc →
  map path (map (λ tp, new_seg tp.1 tp.2 true) (zip temps (map path tc))) = take (length temps) (map path tc).
Proof.
  revert tc. induction temps as [|t temps IH]; intros tc Hlen; [done|].
  destruct tc as [|s tc]; simpl in *; [lia|]. f_equal. apply IH. lia.
Qed.

Lemma news_hold (temps tc : list Segment) et :
  Forall2 holding temps et → length temps ≤ length tc →
  holds_all (map (λ tp, new_seg tp.1 tp.2 true) (zip temps (map path tc))) et.
Proof.
  intros H. revert tc. induction H as [|t e temps et Ht _ IH]; intros tc Hlen; [constructor|].
  destruct tc as [|s tc]; simpl in Hlen; [lia|]. simpl. constructor; [by apply new_seg_holds|]. apply IH. lia.
Qed.

Lemma full_log_clog c es ea :
  length (sealedSegs c) = length es → full_log (all_segments c) (es ++ [ea]) = clog c es ea.
Proof.
  intros Hlen. unfold full_log, clog, all_segments. rewrite zip_with_app by done.
  rewrite concat_app. f_equal. simpl. by rewrite app_nil_r.
Qed.

Lemma install_cinv c es1 es2 ea tc newer temps et :
  let news := map (λ tp, new_seg tp.1 tp.2 true) (zip temps (map path tc)) in
  let c1 := set_sealed c (news ++ newer) in
  cinv_at c (es1 ++ es2) ea → fenced c = None → sealedSegs c = tc ++ newer → length es1 = length tc →
  Forall2 holding temps et → length temps ≤ length tc → (segSeq c < two64)%Z →
  Forall (λ x : located, (ID x.2.1 ≤ idSeq c)%Z ∧ in_i64 (ExpiresAt x.2.1)) (concat et) →
  ∃ idx, Rebuild (index c) (all_segments c1) (cdecisions c) = Ok idx ∧
    holds_all (all_segments c1) ((et ++ es2) ++ [ea]) ∧ cinv_at (set_index c1 idx) (et ++ es2) ea.
Proof.
  intros news c1 Hc Hf Hs Hl Ht Hle Hq Hids. pose proof (unfenced_clean _ _ _ Hc Hf) as Hp.
  pose proof (ca_sealed _ _ _ Hc) as Hall. rewrite Hs in Hall.
  apply Forall2_app_inv in Hall as [_ H2]; [|done].
  assert (Hnew : holds_all (sealedSegs c1) (et ++ es2)) by (apply Forall2_app; [by apply news_hold|done]).
  assert (Hh : holds_all (all_segments c1) ((et ++ es2) ++ [ea])).
  { apply Forall2_app; [done|]. constructor; [|constructor]. split; [apply Hc|done]. }
  assert (Hn : numbered c1 (map path (all_segments c1))).
  { eapply numbered_sublist; [..|apply (ca_nums _ _ _ Hc)]; [done|done|].
    unfold all_segments. simpl. rewrite Hs, !map_app. unfold news. rewrite new_paths by done.
    apply sublist_app; [|done]. apply sublist_app; [apply sublist_take|done]. }
  pose proof (numbered_sorted c1 _ Hn Hq) as Hsort.
  unfold Rebuild. rewrite Hsort, (rebuild_loop_spec _ _ _ _ Hh). cbn [res_bind]. eexists. split; [done|]. split; [done|].
  rewrite full_log_clog by (by eapply Forall2_length). unfold noteExpiring. cbn [entries mayExpire].
  destruct Hc as [H1 H3 H4 H5 H6 H7 H8 H9 H10]. split; try done.
  - intros _. cbn [index set_index]. by destruct (mayExpire (index c)).
  - intros _. cbn [index set_index]. destruct (mayExpire (index c)) eqn:Em; [done|].
    destruct (mayExpire_ok_noteExpiring (MkIndex (replay (cdecisions c) ∅ (clog c1 (et ++ es2) ea)) false)) as [H|H];
      [done|exact H].
  - rewrite concat_app in *. rewrite <- app_assoc in *. apply Forall_app in H9 as [_ H9].
    apply Forall_app. by split.
Qed.

Lemma wp_compact_sidx {B} fields (k : unit → M B) st ents Q :
  holds_all (all_segments (coll st)) ents →
  (∀ m, wp (k tt) (MkSt (set_sidxMap (coll st) m) (io st) (wall st)) Q) →
  wp (bind (compact_sidx fields) k) st Q.
Proof.
  intros Hh HQ. apply wp_bind. revert st Hh HQ.
  induction fields as [|f fields IH]; intros st Hh HQ; cbn [compact_sidx].
  - apply wp_ret. specialize (HQ (sidxMap (coll st))). rewrite set_sidx_same in HQ. by destruct st.
  - apply wp_get. destruct (sidxMap (coll st) !! f) as [s|]; [|by apply IH].
    destruct (rebuild_ok s _ _ (cdecisions (coll st)) Hh) as [s' ->]. apply wp_modify. apply IH; [done|].
    intros m. exact (HQ m).
Qed.

Lemma wp_bind_ret {A} (m : M A) st Q : wp (bind m ret) st Q → wp m st Q.
Proof. unfold wp, bind, ret. by destruct (m st) as [st' [a|e]]. Qed.

Lemma wp_persist_each {B} fields (k : unit → M B) st (Q : St → res cerr B → Prop) :
  (∀ fs e, Q (MkSt (coll st) fs (wall st)) (Err e)) →
  (∀ fs, wp (k tt) (MkSt (coll st) fs (wall st)) Q) →
  wp (bind (persist_each fields) k) st Q.
Proof.
  intros He Hk. apply wp_bind. revert st He Hk. induction fields as [|f fields IH]; intros st He Hk; cbn [persist_each].
  - apply wp_ret. specialize (Hk (io st)). by destruct st.
  - apply wp_bind. unfold persistSecondary. apply wp_io. intros fs b. destruct b; cbn [negb guard_err].
    + apply wp_ret. by apply IH.
    + apply wp_throw. apply He.
Qed.

(** ** The swap *)

Lemma swap_spec st es1 es2 ea tc newer temps et :
  let c := coll st in
  cinv_at c (es1 ++ es2) ea → fenced c = None → sealedSegs c = tc ++ newer → length es1 = length tc →
  Forall2 holding temps et → length temps ≤ length tc → (segSeq c < two64)%Z →
  Forall (λ x : located, (ID x.2.1 ≤ idSeq c)%Z ∧ in_i64 (ExpiresAt x.2.1)) (concat et) →
  wp (compact_swap tc temps) st (λ st' r,
    swapFailed (coll st') = true ∨ missized (coll st') ∨ (coll st' = c ∧ is_ok r = false) ∨
    cinv_at (coll st') (et ++ es2) ea).
Proof.
  intros c Hc Hf Hs Hl Ht Hle Hq Hids.
  assert (Hdrop : drop (length tc) (sealedSegs c) = newer) by (by rewrite Hs, drop_app_length).
  unfold compact_swap. apply wp_io. intros fs1 b1. destruct b1; cbn [negb]; [|].
  2: { apply wp_io. intros fs2 b2. destruct b2; cbn [negb]; [apply wp_io; intros fs3 b3|]; apply wp_throw; auto. }
  apply wp_bind. apply (rename_loop_spec (length tc)); cbn [coll wall].
  - fold c. rewrite Hdrop. pose proof (numbered_NoDup _ _ (ca_nums _ _ _ Hc)) as Hnd. unfold all_segments in Hnd.
    rewrite Hs, !map_app in Hnd. apply NoDup_app in Hnd as (Hnd & _ & _). apply NoDup_app in Hnd as (_ & Hdis & _).
    apply Forall_forall. intros [t p] Hin. apply elem_of_zip_r in Hin. exact (Hdis _ Hin).
  - auto.
  - auto.
  - intros fs2 segs' news Hd Hn. fold c in Hd |- *. rewrite Hdrop in Hd.
    apply wp_io. intros fs3 b3. destruct b3; cbn [negb]; [|apply wp_modify, wp_throw; by left].
    apply wp_modify. cbn [coll wall io sealedSegs set_sealed]. rewrite Hd, set_sealed_twice.
    destruct (news_sized _ _ Hn) as [Hbad|Hgood].
    + eapply wp_mono.
      * apply (keeps_reindex same_sealed); [apply _|done|done|done].
      * intros st' r [_ Hsame]. right. left. unfold missized. rewrite Hsame. cbn [coll sealedSegs set_sealed].
        apply Exists_app. by left.
    + destruct (install_cinv c es1 es2 ea tc newer temps et Hc Hf Hs Hl Ht Hle Hq Hids) as (idx & Hidx & Hh & Hnew).
      rewrite <- Hgood in *. apply wp_bind. unfold compact_reindex. apply wp_get. cbn [coll index set_sealed cdecisions].
      change (index (set_sealed c (news ++ newer))) with (index c). rewrite Hidx.
      apply wp_modify. apply wp_io. intros fs4 b4. destruct b4; cbn [negb]; [|apply wp_modify, wp_throw; by left].
      apply wp_get. cbn [coll wall].
      assert (Hfin : ∀ m, cinv_at (set_sidxMap (set_index (set_sealed c (news ++ newer)) idx) m) (et ++ es2) ea).
      { intros m. by destruct Hnew; split. }
      eapply wp_mono with (Q := λ st' r, ∃ m fs, st' = MkSt (set_sidxMap (set_index (set_sealed c (news ++ newer)) idx) m) fs (wall st) ∧ r = Ok tt).
      * apply wp_bind_ret. eapply wp_compact_sidx; [exact Hh|]. intros m. apply wp_ret. by eexists _, _.
      * intros st' r (m & fs & -> & ->). unfold compact_retire. apply wp_io. intros fs5 b5.
        apply wp_guard; intros _; [do 3 right; apply Hfin|]. apply wp_get. cbn [coll wall].
        apply wp_persist_each; [intros; do 3 right; apply Hfin|]. intros fs6. apply wp_io. intros fs7 b7.
        destruct b7; do 3 right; apply Hfin.
Qed.

(** ** Compaction and reads *)

Lemma holds_all_unique segs es es' : holds_all segs es → holds_all segs es' → es = es'.
Proof.
  intros H. revert es'. induction H as [|s e segs es [Hi Hp] _ IH]; intros es' H'; inversion H' as [|? e' ? es'' [Hi' _] H'']; subst; [done|].
  f_equal; [|by apply IH].
  pose proof (scan_entries _ _ Hi Hp) as E1. pose proof (scan_entries _ _ Hi' Hp) as E2. congruence.
Qed.

Lemma get_answer_ext c c' L id n :
  cdecisions c' = cdecisions c → enc c' = enc c → get_answer c' L id n = get_answer c L id n.
Proof. intros Hd He. unfold get_answer, materialize. by rewrite Hd, He. Qed.

Lemma same_line_ext c c' x y : enc c' = enc c → same_line c x y → same_line c' x y.
Proof. intros He []. split; try done. unfold materialize in *. by rewrite He. Qed.

Lemma compactable_app en ds L1 L2 : compactable en ds (L1 ++ L2) → compactable en ds L1.
Proof.
  intros [H1 H2 H3 H4]. apply Forall_app in H1 as [? _], H2 as [? _], H3 as [? _].
  split; try done. by eapply revs_ok_app.
Qed.

(** The bounds of the old lines hold for the new ones. *)
Lemma prepared_bounds c L1 n (P : Z → Z → Prop) r out :
  resolve_inv (cdecisions c) L1 r → Forall2 (same_line c) out (map out_of (resolved r n)) →
  Forall (λ x : line, P (ID x.1) (ExpiresAt x.1)) L1 → Forall (λ x : line, P (ID x.1) (ExpiresAt x.1)) out.
Proof.
  intros Hi Hs HL. apply Forall_forall. intros x Hx. apply list_elem_of_lookup in Hx as [i Hx].
  destruct (Forall2_lookup_l _ _ _ _ _ Hs Hx) as (y & Hy & Hxy).
  rewrite list_lookup_fmap in Hy. apply fmap_Some in Hy as (ce & Hce & ->).
  apply list_elem_of_lookup_2 in Hce.
  destruct (resolved_from _ _ _ _ _ Hi Hce) as (z & Hz & Ez).
  rewrite Forall_forall in HL. specialize (HL _ Hz). simpl in HL. rewrite Ez in HL.
  destruct Hxy as [_ -> _ _ _ -> _]. exact HL.
Qed.

(** The log after the swap answers as the log before it. *)
Lemma swapped_answer c L1 R n n' out id :
  compactable (enc c) (cdecisions c) (L1 ++ R) → (n ≤ n')%Z →
  (∃ r, resolve_inv (cdecisions c) L1 r ∧ Forall2 (same_line c) out (map out_of (resolved r n))) →
  get_answer c (out ++ R) id n' = get_answer c (L1 ++ R) id n'.
Proof.
  intros [Hk _ _ Hrev] Hn (r & Hi & Hs).
  rewrite (same_lines_answer c _ (map out_of (resolved r n) ++ R)).
  - by apply resolved_answer.
  - apply Forall2_app; [done|]. apply Forall2_same_length_lookup. split; [done|]. intros i x y Hx Hy.
    rewrite Hx in Hy. by injection Hy as <-.
Qed.

(** Claim C7: compaction is invisible to readers, on a log in which every transaction
    is decided, every line can be read and copied, and the lines carry their
    revisions (no line of the legacy format without one).  A pass prepares its files
    from the sealed segments; writers and rotations go on, while the decisions and
    the encryption stay as they are; the swap then happens on the state they
    reached.  For every outcome of the file calls, unless the swap stopped midway
    (which the collection records) or the size of a new file could not be read, the
    collection afterwards is consistent with its log and every read, at any later
    instant, answers as the collection did before the swap: the same records, with
    the same data, revisions and timestamps. *)
Theorem compaction_preserves_reads st0 L0 st0' force lease tc temps st1 L1 newer st2 r :
  world st0 → cinv (coll st0) L0 → (0 < clockFloor (coll st0))%Z → enc_sound (coll st0) →
  compactable (enc (coll st0)) (cdecisions (coll st0)) L0 →
  compact_prepare force lease st0 = (st0', Ok (Some (tc, temps))) →
  world st1 → cinv (coll st1) L1 → fenced (coll st1) = None → (segSeq (coll st1) < two64)%Z →
  cdecisions (coll st1) = cdecisions (coll st0) → enc (coll st1) = enc (coll st0) →
  (clockFloor (coll st0') ≤ clockFloor (coll st1))%Z → sealedSegs (coll st1) = tc ++ newer →
  compactable (enc (coll st1)) (cdecisions (coll st1)) L1 →
  compact_swap tc temps st1 = (st2, r) → swapFailed (coll st2) = false → ¬ missized (coll st2) →
  ∃ L2, cinv (coll st2) L2 ∧
    ∀ id st3 r3, Get_ id st2 = (st3, r3) → r3 = get_answer (coll st1) L1 id (clockFloor (coll st3)).
Proof.
  intros Hw0 (es0 & ea0 & Hc0 & ->) Hpos He Hcp0 Hprep Hw1 (es & ea & Hc1 & ->) Hf1 Hq Hds Hen Hclk Hseg Hcp1 Hswap Hok Hms.
  rewrite map_app in Hcp0. destruct (compactable_app _ _ _ _ Hcp0) as [_ Hd0 Hr0 _].
  destruct (wp_run _ _ _ _ _ (prepare_spec st0 es0 ea0 force lease Hw0 Hc0 Hpos He Hd0 Hr0) Hprep)
    as (_ & F0 & Htc & Hle & n & Hn & rs & out & Hi & Hhold & Hsame).
  pose proof (ca_sealed _ _ _ Hc1) as Hall. rewrite Hseg in Hall.
  apply Forall2_app_inv_l in Hall as (es1 & es2 & H1 & H2 & ->).
  assert (es0 = es1) as ->.
  { eapply holds_all_unique; [|exact H1]. rewrite Htc. apply Hc0. }
  destruct Hhold as (et & Het & Hout). rewrite <- Hds in Hi.
  assert (Hsame1 : Forall2 (same_line (coll st1)) out (map out_of (resolved rs n))).
  { eapply Forall2_impl; [exact Hsame|]. intros x y. by apply same_line_ext. }
  assert (Hb : Forall (λ x : line, (ID x.1 ≤ idSeq (coll st1))%Z ∧ in_i64 (ExpiresAt x.1)) out).
  { apply (prepared_bounds (coll st1) (map snd (concat es1)) n (λ i t, (i ≤ idSeq (coll st1))%Z ∧ in_i64 t) rs); try done.
    apply Forall_fmap. pose proof (ca_ids _ _ _ Hc1) as Hids. rewrite concat_app, <- app_assoc in Hids.
    by apply Forall_app in Hids as [? _]. }
  assert (Hids : Forall (λ x : located, (ID x.2.1 ≤ idSeq (coll st1))%Z ∧ in_i64 (ExpiresAt x.2.1)) (concat et)).
  { rewrite <- Hout in Hb. by apply Forall_fmap in Hb. }
  pose proof (wp_run _ _ _ _ _ (swap_spec st1 es1 es2 ea tc newer temps et Hc1 Hf1 Hseg (eq_sym (Forall2_length _ _ _ H1)) Het Hle Hq Hids) Hswap) as Hpost.
  destruct (wp_run _ _ _ _ _ (settled_swap tc temps st1) Hswap) as [Hwall Hset].
  assert (Hw2 : world st2).
  { unfold world in *. by rewrite Hwall, (se_clock _ _ Hset). }
  assert (Hread : ∀ L2, cinv (coll st2) L2 →
    (∀ id n', (clockFloor (coll st2) ≤ n')%Z → get_answer (coll st2) L2 id n' = get_answer (coll st1) (map snd (concat (es1 ++ es2) ++ ea)) id n') →
    ∃ L2, cinv (coll st2) L2 ∧ ∀ id st3 r3, Get_ id st2 = (st3, r3) →
      r3 = get_answer (coll st1) (map snd (concat (es1 ++ es2) ++ ea)) id (clockFloor (coll st3))).
  { intros L2 Hc2 Hans. exists L2. split; [done|]. intros id st3 r3 Hget.
    assert (Hf2 : fenced (coll st2) = None) by (by rewrite (se_fenced _ _ Hset)).
    destruct (wp_run _ _ _ _ _ (get_spec st2 L2 id Hw2 Hc2 Hf2) Hget) as (_ & F & _ & ->).
    apply Hans, F. }
  destruct Hpost as [Hbad|[Hbad|[[Hsame' _]|Hnew]]]; [congruence|done|..].
  - apply (Hread (map snd (concat (es1 ++ es2) ++ ea))); [rewrite Hsame'; by exists (es1 ++ es2), ea|].
    intros id n' _. by rewrite Hsame'.
  - apply (Hread (map snd (concat (et ++ es2) ++ ea))); [by exists (et ++ es2), ea|].
    intros id n' Hn'. rewrite (get_answer_ext (coll st1)) by apply Hset.
    rewrite !concat_app, <- !app_assoc, !map_app in *. cbn [app] in *.
    transitivity (get_answer (coll st1) (out ++ map snd (concat es2) ++ map snd ea) id n'); [by rewrite <- Hout|].
    eapply (swapped_answer _ _ _ n); [exact Hcp1| |by exists rs].
    rewrite (se_clock _ _ Hset) in Hn'. lia.
Qed.

(** ** Undecided transactions *)

(** The line of an undecided transaction is written before the plain line it
    follows in the log.  When the transaction is decided later, the compacted
    log says the older value. *)
Lemma undecided_evidence_reordered :
  let plain_e := MkEntry 7 OpInsert zero_time 1 (Some sample_data) 0 0 None in
  let tx := Some (MkStamp "t" 0 1) in
  let staged := MkEntry 7 OpUpdate zero_time 2 (Some sample_data) 0 0 None in
  let L := [(plain_e, None); (staged, tx)] in
  let r := foldl (λ r (x : line), resolve_one (Some ∅) r x.1 x.2) (MkRes ∅ [] ∅) L in
  let later := Some {[ "t" := xtxKindCommit ]} in
  records later L !! 7%Z = Some (staged, 2%Z) ∧
  fst <$> records later (map out_of (resolved r 1)) !! 7%Z = Some plain_e.
Proof. split; vm_compute; reflexivity. Qed.

(** ** Witnesses *)

Definition old_entry : Entry := MkEntry 7 OpInsert (time_of_nanos 1) 1 (Some sample_data) 0 0 None.

Definition old_line : located := (0, stored old_entry).

(** A collection with one sealed line. *)
Definition sealed_coll : Collection :=
  MkColl "d" sample_cfg [one_line "d/seg_000001.ndjson" old_entry]
    (MkSeg "d/seg_000002.ndjson" [] 0 false HOpen false)
    (MkIndex {[ 7%Z := MkIE "d/seg_000001.ndjson" 0 1 0 0 ]} false)
    7 2 None None 1 0 ∅ 0 ∅ None (Some []) 0 None false false.

Definition sealed_st : St := MkSt sealed_coll [] [].

Lemma old_readable : plain_readable old_entry.
Proof.
  split; [|discriminate]. split; cbn [ID Ts Rev Data Epoch ExpiresAt old_entry];
    try (split; apply Z.leb_le || apply Z.ltb_lt; reflexivity).
  - apply time_of_nanos_wf. split; apply Z.leb_le || apply Z.ltb_lt; reflexivity.
  - apply sample_data_wf.
Qed.

Lemma sealed_cinv : cinv sealed_coll [stored old_entry].
Proof.
  exists [[old_line]], []. split; [|reflexivity].
  assert (Hl : seg_inv (one_line "d/seg_000001.ndjson" old_entry) [old_line]).
  { apply one_line_inv; [apply old_readable|]. apply Z.leb_le. vm_compute. reflexivity. }
  split.
  - constructor; [|constructor]. split; [exact Hl|reflexivity].
  - split; [apply le_n|constructor|reflexivity].
  - discriminate.
  - intros _. split; reflexivity.
  - exists [1; 2]%Z. split_and!; [reflexivity| |].
    + constructor; [constructor; constructor|constructor; [lia|constructor]].
    + constructor; [split; apply Z.leb_le; reflexivity|]. constructor; [split; apply Z.leb_le; reflexivity|constructor].
  - reflexivity.
  - intros _ _. apply map_Forall_singleton. reflexivity.
  - constructor; [|constructor]. split; cbn; [lia|]. split; apply Z.leb_le || apply Z.ltb_lt; reflexivity.
  - split; cbn; lia.
Qed.

Lemma sealed_world : world sealed_st.
Proof. split; [cbn; unfold two63; lia|constructor]. Qed.

Lemma sealed_compactable : compactable None None [stored old_entry].
Proof.
  split.
  - constructor; [by left|constructor].
  - constructor; [exact I|constructor].
  - constructor; [|constructor]. split; [apply (written_stable (MkCE old_entry None) old_readable 0)|].
    discriminate.
  - intros id. unfold writes_of. destruct (decide (id = 7%Z)) as [->|Hne].
    + rewrite filter_cons_True by done. split.
      * constructor; [constructor; constructor|]. constructor; [apply Z.ltb_lt; reflexivity|constructor].
      * constructor; [apply Z.ltb_lt; reflexivity|constructor].
    + rewrite filter_cons_False by (intros [[_ H] _]; by apply Hne). split; cbn; [|constructor].
      constructor; constructor.
Qed.

Lemma not_missized c : forallb (λ s, size s =? length (disk s)) (sealedSegs c) = true → ¬ missized c.
Proof.
  unfold missized. rewrite forallb_forall, Exists_exists. intros H (s & Hin & Hs). apply Hs.
  apply Nat.eqb_eq, H. by apply list_elem_of_In.
Qed.

Definition sample_prep : St * res cerr (option (list Segment * list Segment)) := compact_prepare true true sealed_st.
Definition sample_temps : list Segment :=
  match sample_prep.2 with Ok (Some (_, temps)) => temps | _ => [] end.
Definition sample_swap : St * res cerr unit := compact_swap (sealedSegs sealed_coll) sample_temps sealed_st.

Lemma compaction_preserves_reads_witness :
  is_ok sample_swap.2 = true ∧ sealedSegs (coll sample_swap.1) ≠ [] ∧
  ∃ L2, cinv (coll sample_swap.1) L2 ∧
    ∀ id st3 r3, Get_ id sample_swap.1 = (st3, r3) →
      r3 = get_answer sealed_coll [stored old_entry] id (clockFloor (coll st3)).
Proof.
  assert (Hprep : compact_prepare true true sealed_st = (sample_prep.1, Ok (Some (sealedSegs sealed_coll, sample_temps))))
    by (vm_compute; reflexivity).
  assert (Hclk : clockFloor (coll sample_prep.1) = 1%Z) by (vm_compute; reflexivity).
  assert (Hok : is_ok sample_swap.2 = true) by (vm_compute; reflexivity).
  assert (Hsf : swapFailed (coll sample_swap.1) = false) by (vm_compute; reflexivity).
  assert (Hsz : forallb (λ s, size s =? length (disk s)) (sealedSegs (coll sample_swap.1)) = true) by (vm_compute; reflexivity).
  assert (Hne : length (sealedSegs (coll sample_swap.1)) = 1) by (vm_compute; reflexivity).
  pose proof (not_missized _ Hsz) as Hms.
  split; [exact Hok|]. split; [intros Hnil; rewrite Hnil in Hne; discriminate Hne|].
  apply (compaction_preserves_reads sealed_st [stored old_entry] sample_prep.1 true true (sealedSegs sealed_coll)
    sample_temps sealed_st [stored old_entry] [] sample_swap.1 sample_swap.2).
  - apply sealed_world.
  - apply sealed_cinv.
  - cbn; lia.
  - discriminate.
  - apply sealed_compactable.
  - exact Hprep.
  - apply sealed_world.
  - apply sealed_cinv.
  - reflexivity.
  - apply Z.ltb_lt. reflexivity.
  - reflexivity.
  - reflexivity.
  - rewrite Hclk. cbn. lia.
  - reflexivity.
  - apply sealed_compactable.
  - apply surjective_pairing.
  - exact Hsf.
  - exact Hms.
Defined.
