(* ===== verification/Manifest.v ===== *)
(** * The compaction manifest: [engine/compact_manifest.go]

    The swap of a compaction pass and its recovery after a crash, on the files
    of the collection's directory.  The swap is the list of its steps on the
    directory, each atomic; a crash leaves the directory after some prefix of
    them, and so does a crash of the recovery itself.  Paths are clean, as
    [filepath.Join] makes them. *)
From Stdlib Require Import Ascii Lia ZArith.
From stdpp Require Import prelude gmap strings sorting.
From S2P Require Import Prelude GoNum Json Value GoTime Store Wire Codec Segment Index.

(** ** Paths *)

Definition join (d p : string) : string := d +:+ "/" +:+ p.

(** [filepath.Base] and [filepath.Dir]. *)
Definition path_base (p : string) : string :=
  if decide (p = "") then "." else s_of_b (base_name p).

Definition path_dir (p : string) : string :=
  let b := b_of_s p in
  let n := length b - length (base_name p) in
  if decide (n = 0) then "." else s_of_b (take (n - 1) b).

(** ** The manifest *)

Record compactManifest : Type := MkManifest {
  Renames : gmap string string;
  Removals : list string
}.

Definition compactManifestPath (dir : string) : string := join dir "compact.manifest".

Definition manifestPathForDisk (dir p : string) : string :=
  if decide (path_dir p = dir) then path_base p else p.

Definition manifestPathFromDisk (dir p : string) : string :=
  if decide (p = path_base p) then join dir p else p.

Definition map_paths (f : string → string) (m : compactManifest) : compactManifest :=
  MkManifest (list_to_map (map (λ kv, (f kv.1, f kv.2)) (map_to_list (Renames m)))) (map f (Removals m)).

Definition compactManifestForDisk (dir : string) : compactManifest → compactManifest :=
  map_paths (manifestPathForDisk dir).
Definition compactManifestFromDisk (dir : string) : compactManifest → compactManifest :=
  map_paths (manifestPathFromDisk dir).

(** [json.Marshal]: the members of a map are sorted by name. *)
Definition jstr (s : string) : json := JStr (b_of_s s).

Definition manifest_json (m : compactManifest) : json :=
  JObj [(b_of_s "renames", JObj (map (λ kv, (b_of_s kv.1, jstr kv.2))
           (ssort (λ a b, str_ltb a.1 b.1) (map_to_list (Renames m)))));
        (b_of_s "removals", JArr (map jstr (Removals m)))].

(** [json.Unmarshal]: names match in any case, a null leaves the field as it is
    (an element is then the empty string), a later member overrides. *)
Definition dec_str (j : json) : option string :=
  match j with
  | JStr s => Some (s_of_b s)
  | JNull => Some ""
  | _ => None
  end.

Fixpoint dec_renames (m : gmap string string) (l : list (bytes * json)) : option (gmap string string) :=
  match l with
  | [] => Some m
  | (k, j) :: l' => v ← dec_str j; dec_renames (<[s_of_b k := v]> m) l'
  end.

Definition dec_member (m : compactManifest) (kv : bytes * json) : option compactManifest :=
  if decide (map to_lower kv.1 = b_of_s "renames") then
    match kv.2 with
    | JObj l => r ← dec_renames (Renames m) l; Some (MkManifest r (Removals m))
    | JNull => Some (MkManifest ∅ (Removals m))
    | _ => None
    end
  else if decide (map to_lower kv.1 = b_of_s "removals") then
    match kv.2 with
    | JArr l => r ← mapM dec_str l; Some (MkManifest (Renames m) r)
    | JNull => Some (MkManifest (Renames m) [])
    | _ => None
    end
  else Some m.

Fixpoint dec_members (m : compactManifest) (l : list (bytes * json)) : option compactManifest :=
  match l with
  | [] => Some m
  | kv :: l' => m' ← dec_member m kv; dec_members m' l'
  end.

Definition unmarshal_manifest (b : bytes) : option compactManifest :=
  j ← unmarshal b;
  match j with
  | JObj l => dec_members (MkManifest ∅ []) l
  | JNull => Some (MkManifest ∅ [])
  | _ => None
  end.

(** ** The directory *)

Notation Files := (gmap string bytes).

Inductive fs_step : Type :=
| SWrite (p : string) (b : bytes)    (* writeFileAtomic *)
| SRename (src dst : string)
| SRemove (p : string).

(** A rename whose source is gone, or a removal of a missing file, does nothing. *)
Definition do_step (fs : Files) (s : fs_step) : Files :=
  match s with
  | SWrite p b => <[p := b]> fs
  | SRename src dst =>
      match fs !! src with
      | Some d => <[dst := d]> (delete src fs)
      | None => fs
      end
  | SRemove p => delete p fs
  end.

Definition do_steps (fs : Files) (l : list fs_step) : Files := foldl do_step fs l.

(** [filepath.Glob(dir/.compact_STAR)], for a directory whose name has no pattern
    characters. *)
Definition is_temp (dir p : string) : bool :=
  match strip_prefix (b_of_s (join dir ".compact_")) (b_of_s p) with
  | Some r => bool_decide ("/"%char ∉ r)
  | None => false
  end.

Definition temps_of (dir : string) (fs : Files) : list string :=
  filter (λ p, is_temp dir p = true) (map_to_list fs).*1.

Definition discardCompactTemps (dir : string) (fs : Files) : list fs_step := map SRemove (temps_of dir fs).

Definition writeCompactManifest (dir : string) (m : compactManifest) : fs_step :=
  SWrite (compactManifestPath dir) (print (manifest_json (compactManifestForDisk dir m))).

Definition clearCompactManifest (dir : string) : fs_step := SRemove (compactManifestPath dir).

(** The swap of a pass over the segments [olds] with the files [temps]: the
    intent, the renames, the removals of the names that are not reused, and the
    end of the intent. *)
Definition swap_renames (temps olds : list string) : list (string * string) := zip temps olds.

Definition swap_removals (temps olds : list string) : list string :=
  filter (λ p, p ∉ take (length temps) olds) olds.

Definition swap_manifest (temps olds : list string) : compactManifest :=
  MkManifest (list_to_map (swap_renames temps olds)) (swap_removals temps olds).

Definition swap_steps (dir : string) (temps olds : list string) : list fs_step :=
  [writeCompactManifest dir (swap_manifest temps olds)] ++
  map (λ sd, SRename sd.1 sd.2) (swap_renames temps olds) ++
  map SRemove (swap_removals temps olds) ++
  [clearCompactManifest dir].

(** ** Recovery *)

Section recovery.
(** The order in which the renames of a manifest are visited. *)
Context (order : list (string * string) → list (string * string)).

(** The steps of [recoverCompaction], and whether a manifest was found; [None]
    when the manifest cannot be read.  The temporary files are those present at
    the start: those a rename took away meanwhile are no longer there. *)
Definition recoverCompaction (dir : string) (fs : Files) : option (bool * list fs_step) :=
  match fs !! compactManifestPath dir with
  | None => Some (false, discardCompactTemps dir fs)
  | Some b =>
      m ← unmarshal_manifest b;
      let m := compactManifestFromDisk dir m in
      Some (true,
        map (λ sd, SRename sd.1 sd.2) (order (map_to_list (Renames m))) ++
        map SRemove (Removals m) ++
        discardCompactTemps dir fs ++
        [clearCompactManifest dir])
  end.

(** The directory after a recovery that was not interrupted. *)
Definition recovered (dir : string) (fs : Files) : option Files :=
  r ← recoverCompaction dir fs; Some (do_steps fs r.2).

End recovery.
