(* ===== verification/ManifestThm.v ===== *)
(** * The swap of a compaction pass survives a crash at any step *)
From Stdlib Require Import Ascii Lia ZArith.
From stdpp Require Import prelude gmap strings sorting.
From S2P Require Import Prelude GoNum Json Value GoTime Store Wire Codec Segment Index.
From S2P Require Import Collection CollInv Compactor Manifest.

(** ** Paths of the directory *)

(** [p] names a file of [dir] itself. *)
Definition in_dir (dir p : string) : Prop := ∃ n, p = join dir n ∧ n ≠ "" ∧ "/"%char ∉ b_of_s n.

Lemma b_of_s_app a b : b_of_s (a +:+ b) = b_of_s a ++ b_of_s b.
Proof. unfold b_of_s. induction a as [|x a IH]; [done|]. exact (f_equal (cons x) IH). Qed.

Lemma b_of_s_join d n : b_of_s (join d n) = b_of_s d ++ "/"%char :: b_of_s n.
Proof. unfold join. by rewrite !b_of_s_app. Qed.

Lemma base_name_join d n : "/"%char ∉ b_of_s n → base_name (join d n) = b_of_s n.
Proof. intros Hn. unfold base_name. rewrite b_of_s_join. by apply base_loop_slash. Qed.

Lemma path_base_plain n : n ≠ "" → "/"%char ∉ b_of_s n → path_base n = n.
Proof.
  intros Hne Hn. unfold path_base, base_name. rewrite decide_False by done.
  rewrite base_loop_plain by done. simpl. apply s_of_b_of_s.
Qed.

Lemma path_base_join d n : "/"%char ∉ b_of_s n → path_base (join d n) = n.
Proof.
  intros Hn. unfold path_base. rewrite decide_False.
  - rewrite base_name_join by done. apply s_of_b_of_s.
  - intros Heq%(f_equal b_of_s). rewrite b_of_s_join in Heq. by destruct (b_of_s d).
Qed.

Lemma path_dir_join d n : "/"%char ∉ b_of_s n → path_dir (join d n) = d.
Proof.
  intros Hn. unfold path_dir. rewrite base_name_join by done. rewrite b_of_s_join.
  rewrite length_app, length_cons.
  rewrite decide_False by lia.
  replace (_ - 1) with (length (b_of_s d)) by lia. rewrite take_app_length. apply s_of_b_of_s.
Qed.

Lemma disk_path_roundtrip dir p : in_dir dir p → manifestPathFromDisk dir (manifestPathForDisk dir p) = p.
Proof.
  intros (n & -> & Hne & Hn). unfold manifestPathForDisk.
  rewrite path_dir_join, decide_True, path_base_join by done.
  unfold manifestPathFromDisk. by rewrite decide_True by (by rewrite path_base_plain).
Qed.

Lemma join_inj d n m : join d n = join d m → n = m.
Proof.
  intros Heq%(f_equal b_of_s). rewrite !b_of_s_join in Heq. simplify_list_eq.
  by apply b_of_s_inj.
Qed.

Lemma strip_prefix_app p s : strip_prefix p (p ++ s) = Some s.
Proof. induction p as [|c p IH]; [done|]. cbn. by rewrite decide_True. Qed.

Lemma strip_prefix_spec p s r : strip_prefix p s = Some r → s = p ++ r.
Proof.
  revert s. induction p as [|c p IH]; intros s; [intros [= ->]; done|].
  destruct s as [|d s]; [done|]. cbn [strip_prefix app]. case_decide as Hcd; [|done].
  intros H. rewrite Hcd. f_equal. by apply IH.
Qed.

Lemma temp_in_dir dir p : is_temp dir p = true → in_dir dir p.
Proof.
  unfold is_temp. destruct (strip_prefix _ _) as [r|] eqn:E; [|done]. intros Hr%bool_decide_eq_true.
  apply strip_prefix_spec in E. exists (s_of_b (b_of_s ".compact_" ++ r)). split_and!.
  - apply b_of_s_inj. rewrite E.
    rewrite !b_of_s_join, b_of_s_of_b. by rewrite <- app_assoc.
  - intros Heq%(f_equal b_of_s). by rewrite b_of_s_of_b in Heq.
  - rewrite b_of_s_of_b. rewrite elem_of_app. intros [Hin|Hin]; [|done].
    vm_compute in Hin. set_unfold in Hin. naive_solver.
Qed.

Lemma manifest_not_temp dir : is_temp dir (compactManifestPath dir) = false.
Proof.
  unfold is_temp. destruct (strip_prefix _ _) as [r|] eqn:E; [|done].
  apply strip_prefix_spec in E. unfold compactManifestPath in E. rewrite !b_of_s_join, <- app_assoc in E.
  apply (inj (app _)) in E. discriminate E.
Qed.

Lemma temp_path_is_temp dir i : is_temp dir (temp_path dir i) = true.
Proof.
  unfold is_temp, temp_path. rewrite b_of_s_of_b, b_of_s_join.
  change (b_of_s "/.compact_") with ("/"%char :: b_of_s ".compact_").
  rewrite (app_assoc (b_of_s dir)). rewrite strip_prefix_app. apply bool_decide_eq_true.
  rewrite elem_of_app. destruct (pad6_digits (Z.of_nat i)) as (ds & -> & Hall & _). intros [Hin|Hin].
  - apply list_elem_of_fmap in Hin as (d & Heq & Hin). rewrite Forall_forall in Hall.
    by apply (digit_char_not_slash d); [apply Hall|].
  - vm_compute in Hin. set_unfold in Hin. naive_solver.
Qed.

(** ** The manifest read back *)

Lemma dec_renames_spec l m :
  dec_renames m (map (λ kv : string * string, (b_of_s kv.1, jstr kv.2)) l) = Some (foldl (λ m kv, <[kv.1 := kv.2]> m) m l).
Proof.
  revert m. induction l as [|[k v] l IH]; intros m; [done|].
  cbn [map dec_renames fst snd jstr dec_str]. cbn [mbind option_bind]. by rewrite !s_of_b_of_s.
Qed.

Lemma foldl_insert_map (l : list (string * string)) m :
  NoDup l.*1 → foldl (λ m kv, <[kv.1 := kv.2]> m) m l = (list_to_map l : gmap string string) ∪ m.
Proof.
  revert m. induction l as [|[k v] l IH]; intros m Hnd; [symmetry; apply (left_id_L ∅ (∪))|].
  cbn [fmap list_fmap] in Hnd. apply NoDup_cons in Hnd as [Hk Hnd]. cbn [foldl fst snd list_to_map foldr]. cbv [uncurry].
  rewrite IH by done.
  rewrite <- insert_union_r by (by apply not_elem_of_list_to_map_1).
  by rewrite insert_union_l.
Qed.

Lemma mapM_dec_str l : mapM dec_str (map jstr l) = Some l.
Proof. induction l as [|s l IH]; [done|]. cbn. rewrite s_of_b_of_s. cbn. by rewrite IH. Qed.

Lemma manifest_json_ok m : json_ok (manifest_json m) = true.
Proof.
  unfold manifest_json. cbn [json_ok forallb snd]. rewrite !andb_true_r. apply andb_true_iff. split.
  - induction (ssort _ _) as [|kv l IH]; [done|]. exact IH.
  - induction (Removals m) as [|s l IH]; [done|]. exact IH.
Qed.

(** The names of a manifest, as it is on disk, are UTF-8. *)
Definition manifest_utf8 (m : compactManifest) : Prop :=
  map_Forall (λ k v, str_utf8 k ∧ str_utf8 v) (Renames m) ∧ Forall str_utf8 (Removals m).

Lemma manifest_json_utf8 m : manifest_utf8 m → json_utf8 (manifest_json m) = true.
Proof.
  intros [Hr Hl]. unfold manifest_json. change (utf8_valid (b_of_s "renames")) with true.
  cbn [json_utf8 forallb fst snd]. rewrite !andb_true_r. apply andb_true_iff. split.
  - apply forallb_forall. intros x ([k v] & <- & Hin)%in_map_iff. apply list_elem_of_In in Hin.
    rewrite ssort_perm in Hin. apply elem_of_map_to_list, Hr in Hin as [H1 H2].
    cbn [fst snd]. apply andb_true_iff. split; [exact H1|exact H2].
  - cbn [utf8_valid]. apply andb_true_iff. split; [reflexivity|]. apply forallb_forall. intros x (p & <- & Hin)%in_map_iff.
    apply list_elem_of_In in Hin. rewrite Forall_forall in Hl. exact (Hl p Hin).
Qed.

Lemma unmarshal_manifest_print m : manifest_utf8 m → unmarshal_manifest (print (manifest_json m)) = Some m.
Proof.
  intros Hu. unfold unmarshal_manifest. rewrite unmarshal_print by (apply manifest_json_ok || by apply manifest_json_utf8). cbn [mbind option_bind]. clear Hu.
  destruct m as [r l]. unfold manifest_json. cbn [Renames Removals].
  set (srt := ssort _ _).
  assert (Hsrt : srt ≡ₚ map_to_list r) by apply ssort_perm.
  assert (Hr : foldl (λ m kv, <[kv.1 := kv.2]> m) ∅ srt = r).
  { rewrite foldl_insert_map by (rewrite Hsrt; apply NoDup_fst_map_to_list).
    rewrite (right_id_L ∅ (∪)). etrans; [|apply list_to_map_to_list].
    apply list_to_map_proper; [rewrite Hsrt; apply NoDup_fst_map_to_list|done]. }
  assert (H1 : dec_member (MkManifest ∅ []) (b_of_s "renames", JObj (map (λ kv, (b_of_s kv.1, jstr kv.2)) srt)) =
    Some (MkManifest r [])).
  { unfold dec_member. cbn [fst snd]. rewrite decide_True by reflexivity.
    rewrite dec_renames_spec. cbn [mbind option_bind Renames Removals]. by rewrite Hr. }
  assert (H2 : dec_member (MkManifest r []) (b_of_s "removals", JArr (map jstr l)) = Some (MkManifest r l)).
  { unfold dec_member. cbn [fst snd]. rewrite decide_False by discriminate. rewrite decide_True by reflexivity.
    rewrite mapM_dec_str. done. }
  cbn [dec_members]. rewrite H1. cbn [mbind option_bind]. rewrite H2. done.
Qed.

Lemma map_paths_inv f g m :
  map_Forall (λ k v, g (f k) = k ∧ g (f v) = v) (Renames m) → Forall (λ p, g (f p) = p) (Removals m) →
  map_paths g (map_paths f m) = m.
Proof.
  intros Hr Hl. destruct m as [r l]. unfold map_paths. cbn [Renames Removals] in *. f_equal.
  - set (fl := map (λ kv, (f kv.1, f kv.2)) (map_to_list r)).
    assert (Hnd : NoDup fl.*1).
    { unfold fl. rewrite <- list_fmap_compose.
      eapply (NoDup_fmap_1 g). rewrite <- list_fmap_compose.
      erewrite (list_fmap_ext _ fst); [apply NoDup_fst_map_to_list|].
      intros i [k v] Hi. apply list_elem_of_lookup_2, elem_of_map_to_list in Hi. by apply Hr in Hi as [? _]. }
    etrans; [|apply (list_to_map_to_list r)].
    assert (Hp : map (λ kv, (g kv.1, g kv.2)) (map_to_list (list_to_map fl : gmap string string)) ≡ₚ map_to_list r).
    { rewrite map_to_list_to_map by done. unfold fl. rewrite map_map.
      rewrite <- (map_id (map_to_list r)) at 2. erewrite map_ext_in; [done|].
      intros [k v] Hin. apply list_elem_of_In, elem_of_map_to_list, Hr in Hin as [H1 H2]. cbn. by rewrite H1, H2. }
    apply list_to_map_proper; [|done]. rewrite Hp. apply NoDup_fst_map_to_list.
  - rewrite map_map. rewrite <- (map_id l) at 2. apply map_ext_in. intros p Hp.
    apply list_elem_of_In in Hp. by eapply Forall_forall in Hl.
Qed.

(** The manifest that recovery reads is the one the pass wrote. *)
Lemma manifest_read_back dir m :
  map_Forall (λ k v, in_dir dir k ∧ in_dir dir v) (Renames m) → Forall (in_dir dir) (Removals m) →
  manifest_utf8 (compactManifestForDisk dir m) →
  (d ← unmarshal_manifest (print (manifest_json (compactManifestForDisk dir m))); Some (compactManifestFromDisk dir d)) = Some m.
Proof.
  intros Hr Hl Hu. rewrite unmarshal_manifest_print by done. cbn [mbind option_bind]. f_equal. apply map_paths_inv.
  - intros k v Hkv. apply Hr in Hkv as [? ?]. by split; apply disk_path_roundtrip.
  - eapply Forall_impl; [exact Hl|]. intros p. apply disk_path_roundtrip.
Qed.

Lemma disk_path_base dir p : in_dir dir p → manifestPathForDisk dir p = path_base p.
Proof. intros (n & -> & Hne & Hn). unfold manifestPathForDisk. by rewrite path_dir_join, decide_True by done. Qed.

(** The manifest on disk has the names of the files. *)
Lemma manifest_disk_utf8 dir m :
  map_Forall (λ k v, (in_dir dir k ∧ str_utf8 (path_base k)) ∧ (in_dir dir v ∧ str_utf8 (path_base v))) (Renames m) →
  Forall (λ p, in_dir dir p ∧ str_utf8 (path_base p)) (Removals m) → manifest_utf8 (compactManifestForDisk dir m).
Proof.
  intros Hr Hl. split; cbn [compactManifestForDisk map_paths Renames Removals].
  - intros k v Hkv. apply elem_of_list_to_map_2, list_elem_of_fmap in Hkv as ([k0 v0] & [= -> ->] & Hin).
    apply elem_of_map_to_list, Hr in Hin as [[H1 H2] [H3 H4]]. cbn [fst snd]. by rewrite !disk_path_base.
  - apply Forall_map. eapply Forall_impl; [exact Hl|]. intros p [H1 H2]. cbn. by rewrite disk_path_base.
Qed.

(** ** Layouts *)

Record plan_ok (dir : string) (fs : Files) (temps olds : list string) : Prop := {
  pl_fits : length temps ≤ length olds;
  pl_temps : NoDup temps;
  pl_olds : NoDup olds;
  pl_temp : Forall (λ t, is_temp dir t = true ∧ is_Some (fs !! t)) temps;
  pl_old : Forall (λ o, in_dir dir o ∧ is_temp dir o = false ∧ o ≠ compactManifestPath dir) olds;
  pl_idle : fs !! compactManifestPath dir = None;
  pl_names : Forall (λ p, str_utf8 (path_base p)) (temps ++ olds)
}.

(** The directory without the temporary files: the layout before the pass. *)
Definition old_layout (dir : string) (fs : Files) : Files := filter (λ kv, is_temp dir kv.1 = false) fs.

(** The layout after the pass: the first of the replaced segments hold the new
    contents, the other ones are gone, the rest of the directory is as before. *)
Definition new_layout (dir : string) (fs : Files) (temps olds : list string) : Files :=
  list_to_map (zip olds (omap (λ t, fs !! t) temps)) ∪ filter (λ kv, kv.1 ∉ olds) (old_layout dir fs).

(** A recovery that a crash stops after some of its steps. *)
Definition interrupted (dir : string) (fs fs' : Files) : Prop :=
  ∃ order j r, (∀ l, order l ≡ₚ l) ∧ recoverCompaction order dir fs = Some r ∧ fs' = do_steps fs (take j r.2).

Lemma old_layout_lookup dir fs p : old_layout dir fs !! p = if is_temp dir p then None else fs !! p.
Proof.
  unfold old_layout. destruct (is_temp dir p) eqn:E.
  - apply map_lookup_filter_None. right. intros x _ ?. simpl in *. congruence.
  - destruct (fs !! p) eqn:Ep.
    + by apply map_lookup_filter_Some.
    + apply map_lookup_filter_None. by left.
Qed.

Lemma removes_lookup l fs p :
  do_steps fs (map SRemove l) !! p = if decide (p ∈ l) then None else fs !! p.
Proof.
  revert fs. induction l as [|q l IH]; intros fs; [done|]. unfold do_steps in *. cbn [map foldl do_step].
  rewrite IH. destruct (decide (p ∈ l)) as [Hin|Hin].
  - by rewrite decide_True by set_solver.
  - destruct (decide (p = q)) as [->|Hne].
    + rewrite lookup_delete_eq. by rewrite decide_True by set_solver.
    + rewrite lookup_delete_ne by done. by rewrite decide_False by set_solver.
Qed.

Lemma temps_of_spec dir fs p : p ∈ temps_of dir fs ↔ is_temp dir p = true ∧ is_Some (fs !! p).
Proof.
  unfold temps_of. rewrite list_elem_of_filter, list_elem_of_fmap. split.
  - intros (Ht & [q v] & -> & Hin). split; [done|]. apply elem_of_map_to_list in Hin. by exists v.
  - intros (Ht & v & Hv). split; [done|]. exists (p, v). split; [done|]. by apply elem_of_map_to_list.
Qed.

Lemma discard_layout dir fs : do_steps fs (discardCompactTemps dir fs) = old_layout dir fs.
Proof.
  apply map_eq. intros p. unfold discardCompactTemps. rewrite removes_lookup, old_layout_lookup.
  case_decide as Hd.
  - apply temps_of_spec in Hd as [-> _]. done.
  - destruct (is_temp dir p) eqn:E; [|done]. apply eq_None_not_Some. intros Hs. by apply Hd, temps_of_spec.
Qed.

Lemma discard_prefix dir fs j :
  let fs' := do_steps fs (take j (discardCompactTemps dir fs)) in
  fs' !! compactManifestPath dir = fs !! compactManifestPath dir ∧ old_layout dir fs' = old_layout dir fs.
Proof.
  intros fs'. unfold fs', discardCompactTemps. rewrite firstn_map.
  assert (Hsub : ∀ p, p ∈ take j (temps_of dir fs) → is_temp dir p = true).
  { intros p Hp%elem_of_take. destruct Hp as (i & Hi & _).
    apply list_elem_of_lookup_2, temps_of_spec in Hi. apply Hi. }
  split.
  - rewrite removes_lookup. case_decide as Hd; [|done]. apply Hsub in Hd. by rewrite manifest_not_temp in Hd.
  - apply map_eq. intros p. rewrite !old_layout_lookup. destruct (is_temp dir p) eqn:E; [done|].
    rewrite removes_lookup. case_decide as Hd; [|done]. apply Hsub in Hd. congruence.
Qed.

Lemma zip_fst_take {A B} (a : list A) (b : list B) : (zip a b).*1 = take (length b) a.
Proof. revert b. induction a as [|x a IH]; intros [|y b]; cbn; [done..|]. f_equal. apply IH. Qed.

Lemma omap_present {A B} (f : A → option B) l :
  Forall (λ x, is_Some (f x)) l → Forall2 (λ x y, f x = Some y) l (omap f l).
Proof. induction 1 as [|x l [y Hy] _ IH]; [constructor|]. cbn. rewrite Hy. by constructor. Qed.

(** ** The directory in the middle of a swap *)

Section swap.
Context (dir : string) (fs : Files) (temps olds : list string).
Context (Hpl : plan_ok dir fs temps olds).

Local Notation pairs := (swap_renames temps olds).
Local Notation gone := (swap_removals temps olds).
Local Notation manifest := (compactManifestPath dir).

Definition moved (g : Files) (sd : string * string) : Prop := g !! sd.1 = None ∧ g !! sd.2 = fs !! sd.1.

(** Every rename is done or can still be done; what the swap does not name is
    as it was. *)
Definition core (mf : option bytes) (g : Files) : Prop :=
  (∀ sd, sd ∈ pairs → g !! sd.1 = fs !! sd.1 ∨ moved g sd) ∧
  g !! manifest = mf ∧
  (∀ p, is_temp dir p = false → p ∉ olds → p ≠ manifest → g !! p = fs !! p).

Lemma pair_facts sd : sd ∈ pairs →
  is_temp dir sd.1 = true ∧ is_Some (fs !! sd.1) ∧ is_temp dir sd.2 = false ∧ sd.2 ∈ olds ∧
  sd.2 ≠ manifest ∧ sd.2 ∉ gone.
Proof.
  destruct sd as [t o]. intros (i & Hi)%list_elem_of_lookup. unfold swap_renames in Hi.
  apply lookup_zip_Some in Hi as [Ht Ho]. destruct Hpl as [Hf _ _ Htm Hol _].
  eapply Forall_lookup in Htm as [? ?]; [|exact Ht]. eapply Forall_lookup in Hol as (_ & ? & ?); [|exact Ho].
  cbn [fst snd]. split_and!; [done..|by eapply list_elem_of_lookup_2|done|].
  unfold swap_removals. rewrite list_elem_of_filter. intros [Hn _]. apply Hn.
  apply elem_of_take. exists i. split; [done|]. by eapply lookup_lt_Some.
Qed.

Lemma pair_eq sd sd' : sd ∈ pairs → sd' ∈ pairs → sd.1 = sd'.1 ∨ sd.2 = sd'.2 → sd = sd'.
Proof.
  destruct sd as [t o], sd' as [t' o']. intros (i & Hi)%list_elem_of_lookup (j & Hj)%list_elem_of_lookup.
  unfold swap_renames in *. apply lookup_zip_Some in Hi as [Ht Ho]. apply lookup_zip_Some in Hj as [Ht' Ho'].
  destruct Hpl as [_ Hn1 Hn2 _ _ _]. cbn [fst snd]. intros [-> | ->].
  - assert (i = j) as -> by (eapply NoDup_lookup; [exact Hn1|done..]). congruence.
  - assert (i = j) as -> by (eapply NoDup_lookup; [exact Hn2|done..]). congruence.
Qed.

Lemma gone_facts p : p ∈ gone → is_temp dir p = false ∧ p ∈ olds ∧ p ≠ manifest.
Proof.
  unfold swap_removals. rewrite list_elem_of_filter. intros [_ Hin].
  destruct Hpl as [_ _ _ _ Hol _]. eapply Forall_forall in Hol as (_ & ? & ?); [|exact Hin]. done.
Qed.

Lemma rename_core mf g sd :
  core mf g → sd ∈ pairs →
  let g' := do_step g (SRename sd.1 sd.2) in
  core mf g' ∧ moved g' sd ∧ (∀ sd', sd' ∈ pairs → moved g sd' → moved g' sd') ∧
  (∀ p, is_temp dir p = true → g !! p = None → g' !! p = None).
Proof.
  intros (Hc & Hm & Ho) Hin. destruct (pair_facts sd Hin) as (Ht & [d Hd] & Hnt & Hold & Hnm & _).
  cbn [do_step]. destruct (g !! sd.1) as [d'|] eqn:E.
  2: { cbn zeta. split_and!; [done| |naive_solver|done]. destruct (Hc sd Hin) as [Heq|?]; [congruence|done]. }
  assert (Hdd : d' = d). { destruct (Hc sd Hin) as [?|[? _]]; congruence. } subst d'.
  assert (Hsame : ∀ p, p ≠ sd.1 → p ≠ sd.2 → <[sd.2:=d]> (delete sd.1 g) !! p = g !! p).
  { intros p H1 H2. rewrite lookup_insert_ne by done. by apply lookup_delete_ne. }
  assert (Hmv : moved (<[sd.2:=d]> (delete sd.1 g)) sd).
  { split; [|by rewrite lookup_insert_eq, Hd].
    rewrite lookup_insert_ne by congruence. apply lookup_delete_eq. }
  assert (Hoth : ∀ sd', sd' ∈ pairs → sd' ≠ sd →
    <[sd.2:=d]> (delete sd.1 g) !! sd'.1 = g !! sd'.1 ∧ <[sd.2:=d]> (delete sd.1 g) !! sd'.2 = g !! sd'.2).
  { intros sd' Hin' Hne. destruct (pair_facts sd' Hin') as (? & _ & ? & _).
    split; apply Hsame; try congruence; intros Heq; apply Hne, (pair_eq sd' sd); auto. }
  cbn zeta. split_and!.
  - split_and!.
    + intros sd' Hin'. destruct (decide (sd' = sd)) as [->|Hne]; [by right|].
      destruct (Hoth sd' Hin' Hne) as [H1 H2]. unfold moved. rewrite H1, H2. by apply Hc.
    + rewrite Hsame; [done| |congruence]. intros Heq. rewrite <- Heq, manifest_not_temp in Ht. done.
    + intros p ? ? ?. rewrite Hsame; [by apply Ho|congruence|]. intros ->. done.
  - done.
  - intros sd' Hin' Hmv'. destruct (decide (sd' = sd)) as [->|Hne]; [done|].
    destruct (Hoth sd' Hin' Hne) as [H1 H2]. unfold moved. by rewrite H1, H2.
  - intros p Hp Hn. destruct (decide (p = sd.1)) as [->|Hne]; [by apply Hmv|].
    rewrite Hsame; [done|done|congruence].
Qed.

Lemma renames_core mf l g :
  core mf g → (∀ sd, sd ∈ l → sd ∈ pairs) →
  let g' := do_steps g (map (λ sd, SRename sd.1 sd.2) l) in
  core mf g' ∧ (∀ sd, sd ∈ pairs → moved g sd ∨ sd ∈ l → moved g' sd) ∧
  (∀ p, is_temp dir p = true → g !! p = None → g' !! p = None).
Proof.
  revert g. induction l as [|sd l IH]; intros g Hc Hl.
  { cbn zeta. split_and!; [done| |done]. intros sd _ [?|Hin]; [done|]. by apply not_elem_of_nil in Hin. }
  destruct (rename_core mf g sd Hc ltac:(apply Hl; left)) as (Hc1 & Hm1 & Hk1 & Ht1).
  destruct (IH _ Hc1 ltac:(intros; apply Hl; by right)) as (Hc2 & Hm2 & Ht2).
  cbn zeta. split_and!; [exact Hc2| |by eauto].
  intros sd' Hin [Hmv|Hmv]; apply Hm2; [done|by left; apply Hk1|done|].
  apply elem_of_cons in Hmv as [->|?]; [by left|by right].
Qed.

Lemma removes_core mf l g :
  core mf g → (∀ sd, sd ∈ pairs → moved g sd) → (∀ p, p ∈ l → is_temp dir p = true ∨ p ∈ gone) →
  let g' := do_steps g (map SRemove l) in
  core mf g' ∧ (∀ sd, sd ∈ pairs → moved g' sd).
Proof.
  intros (Hc & Hm & Ho) Hmv Hl g'.
  assert (Hmv' : ∀ sd, sd ∈ pairs → moved g' sd).
  { intros sd Hin. destruct (pair_facts sd Hin) as (_ & _ & Hnt & _ & _ & Hng). destruct (Hmv sd Hin) as [H1 H2].
    unfold g'. split; rewrite removes_lookup; case_decide as Hd; try done. apply Hl in Hd as [?|?]; congruence. }
  split; [|done]. split_and!.
  - intros sd Hin. right. by apply Hmv'.
  - unfold g'. rewrite removes_lookup, decide_False; [done|]. intros [Hd|Hd]%Hl.
    + by rewrite manifest_not_temp in Hd.
    + by apply gone_facts in Hd as (_ & _ & ?).
  - intros p Hp Hn Hnm. unfold g'. rewrite removes_lookup, decide_False; [by apply Ho|]. intros [Hd|Hd]%Hl; [congruence|].
    by apply gone_facts in Hd as (_ & ? & _).
Qed.
(** *** The end of a swap *)

Lemma olds_cases p : p ∈ olds → (∃ sd, sd ∈ pairs ∧ sd.2 = p) ∨ p ∈ gone.
Proof.
  intros (i & Hi)%list_elem_of_lookup. destruct (temps !! i) as [t|] eqn:Et.
  - left. exists (t, p). split; [|done]. apply list_elem_of_lookup. exists i.
    apply lookup_zip_Some. done.
  - right. unfold swap_removals. apply list_elem_of_filter. split; [|by eapply list_elem_of_lookup_2].
    intros (j & Hj & Hlt)%elem_of_take. apply lookup_ge_None in Et.
    assert (i = j) by (destruct Hpl as [_ _ Hnd _ _ _]; by eapply (NoDup_lookup olds)). lia.
Qed.

Lemma contents : Forall2 (λ t d, fs !! t = Some d) temps (omap (λ t, fs !! t) temps).
Proof. apply omap_present. eapply Forall_impl; [apply Hpl|]. by intros ? [_ ?]. Qed.

Lemma new_content_None p :
  ¬ (∃ sd, sd ∈ pairs ∧ sd.2 = p) → (list_to_map (zip olds (omap (λ t, fs !! t) temps)) : Files) !! p = None.
Proof.
  intros Hn. apply eq_None_not_Some. intros [d Hd]. apply Hn.
  apply elem_of_list_to_map_2, list_elem_of_lookup in Hd as [i Hi]. apply lookup_zip_Some in Hi as [Ho Hd].
  eapply Forall2_lookup_r in Hd as (t & Ht & _); [|apply contents].
  exists (t, p). split; [|done]. apply list_elem_of_lookup. exists i. by apply lookup_zip_Some.
Qed.

Lemma new_layout_pair sd : sd ∈ pairs → new_layout dir fs temps olds !! sd.2 = fs !! sd.1.
Proof.
  intros Hin. unfold new_layout. destruct (pair_facts sd Hin) as (_ & [d Hd] & _).
  rewrite Hd. apply lookup_union_Some_l. destruct sd as [t o].
  apply list_elem_of_lookup in Hin as [i Hi]. apply lookup_zip_Some in Hi as [Ht Ho].
  pose proof contents as H2.
  eapply Forall2_lookup_l in H2 as (d' & Hd' & Heq); [|exact Ht]. cbn [fst snd] in *.
  assert (d' = d) as -> by congruence.
  apply elem_of_list_to_map_1.
  - rewrite zip_fst_take. eapply sublist_NoDup; [apply (pl_olds _ _ _ _ Hpl)|apply sublist_take].
  - apply list_elem_of_lookup. exists i. by apply lookup_zip_Some.
Qed.

Lemma new_layout_other p :
  ¬ (∃ sd, sd ∈ pairs ∧ sd.2 = p) →
  new_layout dir fs temps olds !! p = if decide (p ∈ olds) then None else old_layout dir fs !! p.
Proof.
  intros Hn. unfold new_layout. rewrite lookup_union, new_content_None by done.
  rewrite (left_id_L None union). case_decide as Hd.
  - apply map_lookup_filter_None. right. intros x _ H. by apply H.
  - destruct (old_layout dir fs !! p) eqn:E.
    + by apply map_lookup_filter_Some.
    + apply map_lookup_filter_None. by left.
Qed.

Lemma swap_finished mf g :
  core mf g → (∀ sd, sd ∈ pairs → moved g sd) → (∀ p, p ∈ gone → g !! p = None) →
  old_layout dir (delete manifest g) = new_layout dir fs temps olds.
Proof.
  intros (_ & _ & Ho) Hmv Hg. apply map_eq. intros p. rewrite old_layout_lookup.
  destruct (decide (p ∈ olds)) as [Hin|Hin].
  - destruct (olds_cases p Hin) as [(sd & Hsd & <-)|Hgo].
    + rewrite new_layout_pair by done. destruct (pair_facts sd Hsd) as (_ & _ & -> & _ & Hm & _).
      rewrite lookup_delete_ne by congruence. by apply Hmv.
    + destruct (gone_facts p Hgo) as (-> & _ & Hm). rewrite lookup_delete_ne by congruence. rewrite Hg by done.
      rewrite new_layout_other, decide_True; [done|done|].
      intros (sd & Hsd & <-). by apply pair_facts in Hsd as (_ & _ & _ & _ & _ & ?).
  - rewrite new_layout_other.
    2: { intros (sd & Hsd & <-). by apply pair_facts in Hsd as (_ & _ & _ & ? & _). }
    rewrite decide_False, old_layout_lookup by done. destruct (is_temp dir p) eqn:E; [done|].
    destruct (decide (p = manifest)) as [->|Hne].
    + rewrite lookup_delete_eq. symmetry. apply Hpl.
    + rewrite lookup_delete_ne by congruence. by apply Ho.
Qed.
(** *** Every prefix of a swap, and of its recovery *)

Local Notation new := (new_layout dir fs temps olds).
Local Notation written := (print (manifest_json (compactManifestForDisk dir (swap_manifest temps olds)))).

(** The swap is under way, or the new layout is in place. *)
Definition under_way (g : Files) : Prop :=
  core (Some written) g ∨ (g !! manifest = None ∧ old_layout dir g = new).

Lemma swap_tail_prefix l rem g j :
  core (Some written) g → l ≡ₚ pairs → gone ⊆ rem → (∀ p, p ∈ rem → is_temp dir p = true ∨ p ∈ gone) →
  under_way (do_steps g (take j (map (λ sd, SRename sd.1 sd.2) l ++ map SRemove rem ++ [clearCompactManifest dir]))).
Proof.
  intros Hc Hl Hg Hrem. unfold do_steps. rewrite !take_app, !foldl_app, !length_map, !firstn_map.
  destruct (renames_core (Some written) (take j l) g Hc) as (Hc1 & Hm1 & _).
  { intros sd (i & Hi & _)%elem_of_take. rewrite <- Hl. by eapply list_elem_of_lookup_2. }
  destruct (decide (j ≤ length l)) as [Hj|Hj].
  { left. replace (j - length l) with 0 by lia. exact Hc1. }
  rewrite (take_ge l) in * by lia.
  assert (Hall : ∀ sd, sd ∈ pairs → moved (do_steps g (map (λ sd, SRename sd.1 sd.2) l)) sd).
  { intros sd Hin. apply Hm1; [done|]. right. by rewrite Hl. }
  destruct (removes_core (Some written) (take (j - length l) rem) _ Hc1 Hall) as (Hc2 & Hm2).
  { intros p (i & Hi & _)%elem_of_take. by eapply Hrem, list_elem_of_lookup_2. }
  destruct (decide (j - length l ≤ length rem)) as [Hj2|Hj2].
  { left. replace (j - length l - length rem) with 0 by lia. exact Hc2. }
  rewrite (take_ge rem) in * by lia. rewrite (take_ge [clearCompactManifest dir]) by (cbn; lia).
  right. split; [apply lookup_delete_eq|]. eapply swap_finished; [exact Hc2|exact Hm2|].
  intros p Hp. rewrite removes_lookup. by rewrite decide_True by (by apply Hg).
Qed.

Lemma swap_under_way k : k ≠ 0 → under_way (do_steps fs (take k (swap_steps dir temps olds))).
Proof.
  intros Hk. destruct k as [|k]; [done|]. unfold swap_steps. cbn [app take]. unfold do_steps. cbn [foldl].
  apply swap_tail_prefix; [|done|done|by right]. split_and!.
  - intros sd Hin. left. apply pair_facts in Hin as (Ht & _). apply lookup_insert_ne.
    intros Heq. by rewrite <- Heq, manifest_not_temp in Ht.
  - apply lookup_insert_eq.
  - intros p _ _ Hne. by apply lookup_insert_ne.
Qed.

Lemma swap_manifest_read :
  (m ← unmarshal_manifest written; Some (compactManifestFromDisk dir m)) = Some (swap_manifest temps olds).
Proof.
  assert (Hren : map_Forall (λ k v, (in_dir dir k ∧ str_utf8 (path_base k)) ∧ (in_dir dir v ∧ str_utf8 (path_base v)))
    (Renames (swap_manifest temps olds))).
  { intros t o Hto. apply elem_of_list_to_map_2 in Hto. pose proof (pl_names _ _ _ _ Hpl) as Hn. rewrite Forall_forall in Hn.
    assert (Hnt : str_utf8 (path_base t)) by (apply Hn, elem_of_app; left; by eapply elem_of_zip_l).
    apply pair_facts in Hto as (Ht & _ & _ & Ho & _). cbn [fst snd] in *.
    assert (Hno : str_utf8 (path_base o)) by (apply Hn, elem_of_app; by right).
    eapply Forall_forall in Ho; [|apply Hpl]. split_and!; [by apply temp_in_dir|done|apply Ho|done]. }
  assert (Hrem : Forall (λ p, in_dir dir p ∧ str_utf8 (path_base p)) (Removals (swap_manifest temps olds))).
  { apply Forall_forall. intros p (_ & Ho & _)%gone_facts. pose proof (pl_names _ _ _ _ Hpl) as Hn. rewrite Forall_forall in Hn.
    split; [|apply Hn, elem_of_app; by right]. eapply Forall_forall in Ho; [|apply Hpl]. apply Ho. }
  apply manifest_read_back; [| |by apply manifest_disk_utf8].
  - intros k v Hkv. apply Hren in Hkv. tauto.
  - eapply Forall_impl; [exact Hrem|]. by intros p [? _].
Qed.

(** What a recovery of a swap under way does. *)
Lemma recovery_steps order g :
  (∀ l, order l ≡ₚ l) → core (Some written) g →
  ∃ l, l ≡ₚ pairs ∧ recoverCompaction order dir g =
    Some (true, map (λ sd, SRename sd.1 sd.2) l ++ map SRemove (gone ++ temps_of dir g) ++ [clearCompactManifest dir]).
Proof.
  intros Hord (_ & Hm & _). unfold recoverCompaction. rewrite Hm. pose proof swap_manifest_read as Hr.
  destruct (unmarshal_manifest written) as [m|]; [|done]. cbn [mbind option_bind] in *. apply (inj Some) in Hr. rewrite Hr.
  exists (order (map_to_list (Renames (swap_manifest temps olds)))). split.
  - rewrite Hord. apply map_to_list_to_map. unfold swap_renames. rewrite fst_zip by apply Hpl. apply Hpl.
  - cbn [swap_manifest Renames Removals]. unfold discardCompactTemps. by rewrite map_app, <- app_assoc.
Qed.

Lemma recovery_rem g p : p ∈ gone ++ temps_of dir g → is_temp dir p = true ∨ p ∈ gone.
Proof. rewrite elem_of_app, temps_of_spec. naive_solver. Qed.

Lemma interrupted_under_way g g' : under_way g → interrupted dir g g' → under_way g'.
Proof.
  intros [Hc|[Hn Hold]] (order & j & r & Hord & Hr & ->).
  - destruct (recovery_steps order g Hord Hc) as (l & Hl & Heq). rewrite Heq in Hr. injection Hr as <-. cbn [snd].
    apply swap_tail_prefix; [done..| |apply recovery_rem]. intros p. set_solver.
  - unfold recoverCompaction in Hr. rewrite Hn in Hr. injection Hr as <-. cbn [snd].
    destruct (discard_prefix dir g j) as [Hm Hl]. right. split; congruence.
Qed.

Lemma recovered_under_way order g :
  (∀ l, order l ≡ₚ l) → under_way g → recovered order dir g = Some new.
Proof.
  intros Hord Hg. unfold recovered. destruct Hg as [Hc|[Hn Hold]].
  - destruct (recovery_steps order g Hord Hc) as (l & Hl & ->). cbn [mbind option_bind snd]. f_equal.
    destruct (renames_core (Some written) l g Hc) as (Hc1 & Hm1 & Ht1); [by intros sd; rewrite Hl|].
    assert (Hall : ∀ sd, sd ∈ pairs → moved (do_steps g (map (λ sd, SRename sd.1 sd.2) l)) sd).
    { intros sd Hin. apply Hm1; [done|]. right. by rewrite Hl. }
    destruct (removes_core (Some written) (gone ++ temps_of dir g) _ Hc1 Hall) as (Hc2 & Hm2); [apply recovery_rem|].
    unfold do_steps in *. rewrite !foldl_app. cbn [foldl clearCompactManifest do_step].
    rewrite <- (swap_finished _ _ Hc2 Hm2).
    + apply map_eq. intros p. rewrite old_layout_lookup. destruct (is_temp dir p) eqn:E; [|done].
      apply lookup_delete_None. right. fold (do_steps g (map (λ sd, SRename sd.1 sd.2) l)).
      rewrite removes_lookup. case_decide as Hd; [done|]. apply Ht1; [done|].
      apply eq_None_not_Some. intros Hs. apply Hd, elem_of_app. right. by apply temps_of_spec.
    + intros p Hp. rewrite removes_lookup, decide_True; [done|]. apply elem_of_app. by left.
  - unfold recoverCompaction. rewrite Hn. cbn [mbind option_bind snd]. by rewrite discard_layout, Hold.
Qed.
End swap.

Lemma interrupted_before dir g g' :
  g !! compactManifestPath dir = None → interrupted dir g g' →
  g' !! compactManifestPath dir = None ∧ old_layout dir g' = old_layout dir g.
Proof.
  intros Hn (order & j & r & _ & Hr & ->). unfold recoverCompaction in Hr. rewrite Hn in Hr. injection Hr as <-.
  destruct (discard_prefix dir g j) as [H1 H2]. cbn [snd]. by rewrite H1.
Qed.

Lemma interrupted_all_before dir g g' :
  rtc (interrupted dir) g g' → g !! compactManifestPath dir = None →
  g' !! compactManifestPath dir = None ∧ old_layout dir g' = old_layout dir g.
Proof.
  induction 1 as [g|g g1 g2 H1 _ IH]; [done|]. intros Hn.
  destruct (interrupted_before dir g g1 Hn H1) as [Hn1 Hl1]. rewrite <- Hl1. by apply IH.
Qed.

(** Claim C8: a crash after any number of the steps of a compaction swap, followed
    by any number of recoveries that are themselves cut short after any of their
    steps, loses nothing: the next recovery that runs to its end succeeds and
    leaves exactly the layout before the pass when not even the manifest was
    written, and exactly the layout after the pass otherwise; in whatever order
    the renames of the manifest are visited. *)
Theorem swap_crash_safe order dir fs temps olds k fs' :
  (∀ l, order l ≡ₚ l) → plan_ok dir fs temps olds →
  rtc (interrupted dir) (do_steps fs (take k (swap_steps dir temps olds))) fs' →
  recovered order dir fs' = Some (if decide (k = 0) then old_layout dir fs else new_layout dir fs temps olds).
Proof.
  intros Hord Hpl. case_decide as Hk.
  - subst k. cbn [take]. change (do_steps fs []) with fs. pose proof (pl_idle _ _ _ _ Hpl) as Hn. intros Hr.
    destruct (interrupted_all_before dir fs fs' Hr Hn) as [Hn' Hl].
    unfold recovered, recoverCompaction. rewrite Hn'. cbn [mbind option_bind snd]. by rewrite discard_layout, Hl.
  - pose proof (swap_under_way dir fs temps olds Hpl k Hk) as Hu. intros Hr.
    apply (recovered_under_way dir fs temps olds Hpl); [done|].
    revert Hu. induction Hr as [g|g g1 g2 H1 _ IH]; [done|]. intros Hu.
    by eapply IH, interrupted_under_way.
Qed.

(** ** A directory in the middle of a pass *)

Definition sample_temps : list string := [temp_path "db/users" 1; temp_path "db/users" 2].
Definition sample_olds : list string := ["db/users/seg_000001.ndjson"; "db/users/seg_000002.ndjson"; "db/users/seg_000003.ndjson"].
Definition sample_files : Files :=
  list_to_map [("db/users/seg_000001.ndjson", b_of_s "1"); ("db/users/seg_000002.ndjson", b_of_s "2");
    ("db/users/seg_000003.ndjson", b_of_s "3"); ("db/users/seg_000004.ndjson", b_of_s "4");
    (temp_path "db/users" 1, b_of_s "A"); (temp_path "db/users" 2, b_of_s "B"); (temp_path "db/users" 3, b_of_s "C")].

Lemma sample_plan : plan_ok "db/users" sample_files sample_temps sample_olds.
Proof.
  assert (H : Forall (λ n, n ≠ "" ∧ "/"%char ∉ b_of_s n) ["seg_000001.ndjson"; "seg_000002.ndjson"; "seg_000003.ndjson"])
    by by apply (bool_decide_unpack _).
  rewrite !Forall_cons in H. destruct H as ([? ?] & [? ?] & [? ?] & _). split.
  - vm_compute. lia.
  - by apply (bool_decide_unpack _).
  - by apply (bool_decide_unpack _).
  - repeat constructor; eexists; reflexivity.
  - unfold sample_olds. rewrite !Forall_cons.
    split_and!; [by eexists|reflexivity|discriminate|by eexists|reflexivity|discriminate|by eexists|reflexivity|discriminate|].
    constructor.
  - reflexivity.
  - apply Forall_forall. intros p Hp. assert (Hu : forallb (λ p, utf8_valid (b_of_s (path_base p))) (sample_temps ++ sample_olds) = true)
      by (vm_compute; reflexivity). rewrite forallb_forall in Hu. by apply Hu, list_elem_of_In.
Qed.

Lemma swap_crash_safe_witness :
  ∃ fs', interrupted "db/users" (do_steps sample_files (take 2 (swap_steps "db/users" sample_temps sample_olds))) fs' ∧
  recovered id "db/users" fs' = Some (new_layout "db/users" sample_files sample_temps sample_olds) ∧
  new_layout "db/users" sample_files sample_temps sample_olds =
    list_to_map [("db/users/seg_000001.ndjson", b_of_s "A"); ("db/users/seg_000002.ndjson", b_of_s "B");
      ("db/users/seg_000004.ndjson", b_of_s "4")].
Proof.
  set (fs := do_steps sample_files (take 2 (swap_steps "db/users" sample_temps sample_olds))).
  assert (Hr : ∃ r, recoverCompaction reverse "db/users" fs = Some r ∧ length r.2 = 6).
  { eexists. split; [vm_compute; reflexivity|reflexivity]. }
  destruct Hr as (r & Hr & _). exists (do_steps fs (take 3 r.2)).
  assert (Hi : interrupted "db/users" fs (do_steps fs (take 3 r.2))).
  { exists reverse, 3, r. split; [apply reverse_Permutation|]. split; [exact Hr|reflexivity]. }
  split; [exact Hi|]. split; [|vm_compute; reflexivity].
  exact (swap_crash_safe id "db/users" sample_files sample_temps sample_olds 2 _ (λ l, reflexivity l) sample_plan
    (rtc_once _ _ Hi)).
Defined.
