(* ===== verification/Base64.v ===== *)
(** * [base64.RawURLEncoding]

    The unpadded URL alphabet of page tokens ([engine/scan.go]) and of
    encryption envelopes ([crypto/envelope.go]).  The decoder skips line breaks
    and ignores the unused low bits of the last character, as Go's does. *)
From Stdlib Require Import Ascii Lia ZArith ZifyN.
From stdpp Require Import prelude strings.
From S2P Require Import Prelude GoNum Json.

Definition alphabet : bytes :=
  b_of_s "ABCDEFGHIJKLMNOPQRSTUVWXYZabcdefghijklmnopqrstuvwxyz0123456789-_".

Definition b64_char (n : N) : ascii := nth (N.to_nat n) alphabet "A"%char.

Fixpoint position (c : ascii) (l : bytes) (i : N) : option N :=
  match l with
  | [] => None
  | d :: l' => if decide (c = d) then Some i else position c l' (N.succ i)
  end.

Definition b64_val (c : ascii) : option N := position c alphabet 0.

Fixpoint b64_encode (s : bytes) : bytes :=
  match s with
  | a :: b :: c :: s' =>
      let v := (N_of_ascii a * 65536 + N_of_ascii b * 256 + N_of_ascii c)%N in
      b64_char (v / 262144) :: b64_char (v / 4096 mod 64) :: b64_char (v / 64 mod 64) :: b64_char (v mod 64) ::
      b64_encode s'
  | [a; b] =>
      let v := (N_of_ascii a * 65536 + N_of_ascii b * 256)%N in
      [b64_char (v / 262144); b64_char (v / 4096 mod 64); b64_char (v / 64 mod 64)]
  | [a] =>
      let v := (N_of_ascii a * 65536)%N in
      [b64_char (v / 262144); b64_char (v / 4096 mod 64)]
  | [] => []
  end.

(** The bytes of a quantum of four, three or two characters. *)
Fixpoint b64_groups (l : list N) : option bytes :=
  match l with
  | s1 :: s2 :: s3 :: s4 :: l' =>
      let v := (s1 * 262144 + s2 * 4096 + s3 * 64 + s4)%N in
      r ← b64_groups l';
      Some (ascii_of_N (v / 65536) :: ascii_of_N (v / 256 mod 256) :: ascii_of_N (v mod 256) :: r)
  | [s1; s2; s3] =>
      let v := (s1 * 262144 + s2 * 4096 + s3 * 64)%N in
      Some [ascii_of_N (v / 65536); ascii_of_N (v / 256 mod 256)]
  | [s1; s2] => Some [ascii_of_N ((s1 * 262144 + s2 * 4096) / 65536)]
  | [_] => None
  | [] => Some []
  end.

Definition is_break (c : ascii) : Prop := c = "010"%char ∨ c = "013"%char.
#[global] Instance is_break_dec c : Decision (is_break c).
Proof. unfold is_break. apply _. Defined.

Definition b64_decode (s : bytes) : option bytes :=
  l ← mapM b64_val (filter (λ c, ¬ is_break c) s); b64_groups l.

(** ** Decoding an encoding *)

Lemma b64_val_char n : (n < 64)%N → b64_val (b64_char n) = Some n.
Proof.
  intros Hn.
  assert (H : forallb (λ k, bool_decide (b64_val (b64_char (N.of_nat k)) = Some (N.of_nat k))) (seq 0 64) = true)
    by (vm_compute; reflexivity).
  rewrite forallb_forall in H. specialize (H (N.to_nat n)). rewrite N2Nat.id in H.
  apply (bool_decide_eq_true_1 _). apply H, in_seq. lia.
Qed.

Lemma b64_char_not_break n : (n < 64)%N → ¬ is_break (b64_char n).
Proof.
  intros Hn [E|E]; pose proof (b64_val_char n Hn) as H; rewrite E in H; vm_compute in H; discriminate.
Qed.

(** The sextets behind an encoding. *)
Fixpoint sextets (s : bytes) : list N :=
  match s with
  | a :: b :: c :: s' =>
      let v := (N_of_ascii a * 65536 + N_of_ascii b * 256 + N_of_ascii c)%N in
      (v / 262144 :: v / 4096 mod 64 :: v / 64 mod 64 :: v mod 64 :: sextets s')%N
  | [a; b] =>
      let v := (N_of_ascii a * 65536 + N_of_ascii b * 256)%N in [v / 262144; v / 4096 mod 64; v / 64 mod 64]%N
  | [a] => let v := (N_of_ascii a * 65536)%N in [v / 262144; v / 4096 mod 64]%N
  | [] => []
  end.

(** Induction on a text three bytes at a time. *)
Lemma three_ind (P : bytes → Prop) :
  P [] → (∀ a, P [a]) → (∀ a b, P [a; b]) → (∀ a b c s, P s → P (a :: b :: c :: s)) → ∀ s, P s.
Proof.
  intros H0 H1 H2 H3. fix IH 1. intros [|a [|b [|c s]]]; [exact H0|exact (H1 a)|exact (H2 a b)|apply H3, IH].
Qed.

Lemma N_ascii_bound a : (N_of_ascii a < 256)%N.
Proof. apply N_ascii_bounded. Qed.

Lemma sextets_bound s : Forall (λ n, n < 64)%N (sextets s).
Proof.
  induction s as [|a|a b|a b c s IH] using three_ind; cbn [sextets]; cbv zeta; repeat constructor; try exact IH;
  pose proof (N_ascii_bound a); try pose proof (N_ascii_bound b); try pose proof (N_ascii_bound c);
  first [apply N.mod_lt; lia | apply N.Div0.div_lt_upper_bound; lia].
Qed.

Lemma b64_encode_sextets s : b64_encode s = map b64_char (sextets s).
Proof. induction s as [|a|a b|a b c s IH] using three_ind; cbn [b64_encode sextets map]; by rewrite ?IH. Qed.

Lemma ascii_of_N_eq n a : n = N_of_ascii a → ascii_of_N n = a.
Proof. intros ->. apply ascii_N_embedding. Qed.

Ltac divlia := zify; Z.to_euclidean_division_equations; lia.

Lemma sextets_join v : (v / 262144 * 262144 + v / 4096 mod 64 * 4096 + v / 64 mod 64 * 64 + v mod 64 = v)%N.
Proof. divlia. Qed.

Lemma b64_groups_sextets s : b64_groups (sextets s) = Some s.
Proof.
  induction s as [|a|a b|a b c s IH] using three_ind; [done|..]; cbn [sextets b64_groups]; cbv zeta;
  pose proof (N_ascii_bound a); try pose proof (N_ascii_bound b); try pose proof (N_ascii_bound c).
  - do 2 f_equal. apply ascii_of_N_eq. divlia.
  - set (v := (N_of_ascii a * 65536 + N_of_ascii b * 256)%N). pose proof (sextets_join v) as Hj.
    replace (v mod 64)%N with 0%N in Hj by (unfold v; divlia). rewrite N.add_0_r in Hj. rewrite Hj. unfold v.
    do 2 f_equal; [|f_equal]; apply ascii_of_N_eq; divlia.
  - rewrite sextets_join, IH. cbn [mbind option_bind].
    do 2 f_equal; [|f_equal; [|f_equal]]; apply ascii_of_N_eq; divlia.
Qed.

Lemma mapM_val_char l : Forall (λ n, n < 64)%N l → mapM b64_val (map b64_char l) = Some l.
Proof.
  induction 1 as [|n l Hn _ IH]; [done|]. cbn [map mapM]. rewrite b64_val_char by done.
  cbn [mbind option_bind]. by rewrite IH.
Qed.

Lemma b64_decode_encode s : b64_decode (b64_encode s) = Some s.
Proof.
  unfold b64_decode. rewrite b64_encode_sextets. pose proof (sextets_bound s) as Hb.
  replace (filter _ _) with (map b64_char (sextets s)).
  - rewrite mapM_val_char by done. apply b64_groups_sextets.
  - symmetry. apply filter_all, Forall_fmap. eapply Forall_impl; [exact Hb|].
    intros n Hn. by apply b64_char_not_break.
Qed.

(** Every character of an encoding is in the alphabet. *)
Lemma b64_encode_alphabet s : Forall (λ c, c ∈ alphabet) (b64_encode s).
Proof.
  rewrite b64_encode_sextets. apply Forall_fmap. eapply Forall_impl; [apply sextets_bound|]. intros n Hn.
  apply list_elem_of_In, nth_In. change (N.to_nat n < 64). cbv beta in Hn. lia.
Qed.

Lemma b64_char_ascii n : in_range 0 127 (b64_char n) = true.
Proof.
  unfold b64_char. assert (H : forallb (in_range 0 127) ("A"%char :: alphabet) = true) by (vm_compute; reflexivity).
  rewrite forallb_forall in H. apply H. destruct (nth_in_or_default (N.to_nat n) alphabet "A"%char) as [Hin| ->]; [by right|by left].
Qed.

Lemma b64_encode_utf8 s : utf8 (b64_encode s).
Proof.
  induction s as [s IH] using (induction_ltof1 _ (@length ascii)). unfold ltof in IH.
  destruct s as [|a [|b [|c s]]]; cbn [b64_encode]; [constructor|..];
    repeat (apply utf8_one; [apply b64_char_ascii|]); try constructor. apply IH. simpl. lia.
Qed.
