(* ===== verification/Encryption.v ===== *)
(** * Encryption at rest: [crypto/envelope.go], [crypto/keyring.go], [engine/encryption.go]

    The envelope of a sealed value, the keyring, and the encryptor that turns a
    record into its stored form and back.  The cipher is a parameter: sealing and
    opening with XChaCha20-Poly1305 ([chacha20poly1305], a third-party package).
    The random nonces are an argument of the operations that draw them, one per
    sealed field. *)
From Stdlib Require Import Ascii Lia ZArith.
From stdpp Require Import prelude gmap strings sorting.
From S2P Require Import Prelude GoNum Json Value Filter GoTime Store SecondaryIndex Collection Base64.

(** ** The envelope *)

Inductive cryptoErr : Type :=
| ErrDecryptFailed
| ErrKeyUnavailable
| ErrReservedPrefix
| ErrReservedSecureData
| ErrBadKeyID
| ErrNewCipher.

Definition KeySize : nat := 32.
Definition NonceSize : nat := 24.

Definition marker : bytes := "000"%char :: b_of_s "scrivaenc".
Definition version : bytes := b_of_s "v1".
Definition colon : ascii := ":"%char.

Definition IsEncrypted (s : bytes) : bool := is_prefix (marker ++ [colon]) s.
Definition HasReservedPrefix (s : bytes) : bool := is_prefix marker s.

Definition validateKeyID (keyID : string) : bool :=
  negb (bool_decide (keyID = "")) && bool_decide (colon ∉ b_of_s keyID).

(** The text before and after the first colon. *)
Fixpoint cut_colon (s : bytes) : option (bytes * bytes) :=
  match s with
  | [] => None
  | c :: s' => if decide (c = colon) then Some ([], s') else
      '(a, b) ← cut_colon s'; Some (c :: a, b)
  end.

(** [strings.SplitN(rest, ":", 3)] and its checks. *)
Definition parse (envelope : bytes) : res cryptoErr (string * bytes) :=
  if negb (IsEncrypted envelope) then Err ErrDecryptFailed
  else
    match cut_colon (drop (length marker + 1) envelope) with
    | None => Err ErrDecryptFailed
    | Some (v, r) =>
        match cut_colon r with
        | None => Err ErrDecryptFailed
        | Some (keyID, enc64) =>
            if decide (v ≠ version) then Err ErrDecryptFailed
            else if decide (keyID = []) then Err ErrDecryptFailed
            else match b64_decode enc64 with
                 | None => Err ErrDecryptFailed
                 | Some payload => Ok (s_of_b keyID, payload)
                 end
        end
    end.

Definition KeyID (envelope : bytes) : res cryptoErr string :=
  match parse envelope with Ok (id, _) => Ok id | Err e => Err e end.

(** ** Key providers *)

(** [KeyProvider]: the key of new writes, and any key by its id. *)
Record KeyProvider : Type := MkProvider {
  Current : option (string * bytes);
  ByID : string → option bytes
}.

Record Keyring : Type := MkKeyring { keys : gmap string bytes; currentID : string }.

Definition Add (k : Keyring) (keyID : string) (key : bytes) : res cryptoErr Keyring :=
  if negb (validateKeyID keyID) then Err ErrBadKeyID
  else if decide (length key ≠ KeySize) then Err ErrNewCipher
  else Ok (MkKeyring (<[keyID := key]> (keys k)) (currentID k)).

Definition NewKeyring (keyID : string) (key : bytes) : res cryptoErr Keyring :=
  match Add (MkKeyring ∅ "") keyID key with
  | Err e => Err e
  | Ok k => Ok (MkKeyring (keys k) keyID)
  end.

Definition SetCurrent (k : Keyring) (keyID : string) : res cryptoErr Keyring :=
  match keys k !! keyID with
  | None => Err ErrKeyUnavailable
  | Some _ => Ok (MkKeyring (keys k) keyID)
  end.

Definition keyring_provider (k : Keyring) : KeyProvider :=
  MkProvider (key ← keys k !! currentID k; Some (currentID k, key)) (λ id, keys k !! id).

(** ** Policies *)

Definition EncryptModeFields : string := "fields".
Definition EncryptModeRecord : string := "record".
Definition secureDataField : string := "secure_data".

Record EncryptionPolicy : Type := MkPolicy {
  Mode : string;
  Fields : list string;
  IndexFields : list string
}.

(** [validate] accepts the policy. *)
Definition validate (p : EncryptionPolicy) : bool :=
  if decide (Mode p = EncryptModeFields) then
    negb (bool_decide (Fields p = [])) &&
    forallb (λ f, negb (bool_decide (f = KeyField)) && negb (bool_decide (f = secureDataField))) (Fields p)
  else if decide (Mode p = EncryptModeRecord) then
    forallb (λ f, negb (bool_decide (f = secureDataField))) (IndexFields p)
  else false.

(** The [encryptor] of the engine. *)
Record policyEncryptor : Type := MkPE {
  collection : string;
  readMode : string;
  writePolicy : EncryptionPolicy;
  provider : KeyProvider;
  fieldSet : gset string;
  indexSet : gset string;
  epoch : Z
}.

Definition newEncryptor (coll rmode : string) (p : EncryptionPolicy) (kp : KeyProvider) (ep : Z) : policyEncryptor :=
  MkPE coll rmode p kp
    (if decide (Mode p = EncryptModeFields) then list_to_set (Fields p) else ∅)
    (if decide (Mode p = EncryptModeRecord) then list_to_set (IndexFields p) else ∅)
    ep.

Definition enabled (e : policyEncryptor) : bool := negb (bool_decide (Mode (writePolicy e) = "")).

Definition aad (e : policyEncryptor) (field : string) : bytes :=
  b_of_s (collection e) ++ ["031"%char] ++ b_of_s field.

Definition isEncryptedField (e : policyEncryptor) (field : string) : bool :=
  if decide (Mode (writePolicy e) = EncryptModeFields) then bool_decide (field ∈ fieldSet e)
  else if decide (Mode (writePolicy e) = EncryptModeRecord) then
    negb (bool_decide (field = KeyField)) && negb (bool_decide (field ∈ indexSet e))
  else false.

(** A record narrowed to some fields ([ProjectData]). *)
Definition ProjectData (data : vdata) (fields : list string) : vdata :=
  match fields with
  | [] => data
  | _ =>
      let out := foldl (λ out f, match data !! f with Some v => <[f := v]> out | None => out end) ∅ fields in
      match data !! KeyField with Some v => <[KeyField := v]> out | None => out end
  end.

Section cipher.
(** [aead.Seal] and [aead.Open]: key, nonce, text, associated data. *)
Context (seal_ : bytes → bytes → bytes → bytes → bytes).
Context (open_ : bytes → bytes → bytes → bytes → option bytes).

Definition Encrypt (key : bytes) (keyID : string) (nonce plaintext ad : bytes) : res cryptoErr bytes :=
  if negb (validateKeyID keyID) then Err ErrBadKeyID
  else if decide (length key ≠ KeySize) then Err ErrNewCipher
  else Ok (marker ++ [colon] ++ version ++ [colon] ++ b_of_s keyID ++ [colon] ++
           b64_encode (nonce ++ seal_ key nonce plaintext ad)).

Definition Decrypt (key envelope ad : bytes) : res cryptoErr bytes :=
  let* p := parse envelope in
  let payload := p.2 in
  if decide (length key ≠ KeySize) then Err ErrDecryptFailed
  else if length payload <? NonceSize then Err ErrDecryptFailed
  else match open_ key (take NonceSize payload) (drop NonceSize payload) ad with
       | None => Err ErrDecryptFailed
       | Some pt => Ok pt
       end.

Definition DecryptWith (p : KeyProvider) (envelope ad : bytes) : res cryptoErr bytes :=
  let* id := KeyID envelope in
  match ByID p id with
  | None => Err ErrKeyUnavailable
  | Some key => Decrypt key envelope ad
  end.

(** *** The check value of a key: [crypto/keycheck.go] *)

Definition keyCheckConstant : bytes := b_of_s "scriva encryption key-check v1".
Definition keyCheckAAD : bytes := b_of_s "scriva:key-check".

Definition MakeKeyCheck (key : bytes) (keyID : string) (nonce : bytes) : res cryptoErr bytes :=
  Encrypt key keyID nonce keyCheckConstant keyCheckAAD.

Definition VerifyKeyCheck (key envelope : bytes) : bool :=
  match Decrypt key envelope keyCheckAAD with
  | Err _ => false
  | Ok pt => bool_decide (pt = keyCheckConstant)
  end.

(** *** Writing *)

Section encryptor.
Context (e : policyEncryptor).

(** [seal]: the value as JSON, in an envelope bound to the field. *)
Definition seal (nonces : string → bytes) (key : bytes) (keyID field : string) (json_text : bytes) : res cryptoErr value :=
  let* env := Encrypt key keyID (nonces field) json_text (aad e field) in Ok (VStr (s_of_b env)).

Definition has_marker (v : value) : bool :=
  match v with VStr s => HasReservedPrefix (b_of_s s) | _ => false end.

(** The fields of the policy sealed one by one over the copy [out]. *)
Fixpoint seal_fields (nonces : string → bytes) (key : bytes) (keyID : string) (data : vdata)
    (fields : list string) (out : vdata) : res cryptoErr vdata :=
  match fields with
  | [] => Ok out
  | f :: fields' =>
      match data !! f with
      | None => seal_fields nonces key keyID data fields' out
      | Some v =>
          let* env := seal nonces key keyID f (print (value_to_json v)) in
          seal_fields nonces key keyID data fields' (<[f := env]> out)
      end
  end.

(** The fields left in the clear in record mode. *)
Definition is_column (f : string) : bool := bool_decide (f = KeyField) || bool_decide (f ∈ indexSet e).

Definition encrypt (nonces : string → bytes) (data : vdata) : res cryptoErr vdata :=
  if existsb (λ kv, has_marker kv.2) (map_to_list data) then Err ErrReservedPrefix
  else if negb (enabled e) then Ok data
  else
    match Current (provider e) with
    | None => Err ErrKeyUnavailable
    | Some (keyID, key) =>
        if decide (Mode (writePolicy e) = EncryptModeFields) then
          seal_fields nonces key keyID data (elements (fieldSet e)) data
        else if decide (Mode (writePolicy e) = EncryptModeRecord) then
          match data !! secureDataField with
          | Some _ => Err ErrReservedSecureData
          | None =>
              let out := filter (λ kv, is_column kv.1 = true) data in
              let rest := filter (λ kv, is_column kv.1 = false) data in
              let* env := seal nonces key keyID secureDataField (print (data_to_json rest)) in
              Ok (<[secureDataField := env]> out)
          end
        else Ok data
    end.

(** *** Reading *)

(** A value is opened when it carries the marker. *)
Definition maybeDecryptValue (field : string) (v : value) : res cryptoErr value :=
  match v with
  | VStr s =>
      if negb (IsEncrypted (b_of_s s)) then Ok v
      else
        let* pt := DecryptWith (provider e) (b_of_s s) (aad e field) in
        match unmarshal pt ≫= value_of_json with
        | Some val => Ok val
        | None => Err ErrDecryptFailed
        end
  | _ => Ok v
  end.

(** A blob that is not an envelope is an empty map. *)
Definition decryptBlob (blob : option value) : res cryptoErr vdata :=
  match blob with
  | Some (VStr s) =>
      if negb (IsEncrypted (b_of_s s)) then Ok ∅
      else
        let* pt := DecryptWith (provider e) (b_of_s s) (aad e secureDataField) in
        match unmarshal pt ≫= dec_data None with
        | Some m => Ok (default ∅ m)
        | None => Err ErrDecryptFailed
        end
  | _ => Ok ∅
  end.

(** The values of the named fields that are present, opened, over [out]. *)
Fixpoint open_fields (stored : vdata) (fields : list string) (out : vdata) : res cryptoErr vdata :=
  match fields with
  | [] => Ok out
  | f :: fields' =>
      match stored !! f with
      | None => open_fields stored fields' out
      | Some v => let* dv := maybeDecryptValue f v in open_fields stored fields' (<[f := dv]> out)
      end
  end.

Definition materializeFields (stored : vdata) (fields : list string) : res cryptoErr vdata :=
  match fields with
  | [] => open_fields stored (map_to_list stored).*1 ∅
  | _ =>
      let* out := open_fields stored fields ∅ in
      Ok (match stored !! KeyField with Some v => <[KeyField := v]> out | None => out end)
  end.

(** The named fields found in the clear, and whether another one is asked for. *)
Definition columns (stored : vdata) (fields : list string) : vdata * bool :=
  foldl (λ acc f,
    if decide (f = KeyField) then acc
    else match stored !! f with
         | Some v => if decide (f = secureDataField) then (acc.1, true) else (<[f := v]> acc.1, acc.2)
         | None => (acc.1, true)
         end) (∅, false) fields.

(** The fields of the blob that are not there yet. *)
Definition from_blob (merged : vdata) (fields : list string) (out : vdata) : vdata :=
  foldl (λ out f,
    if decide (f = KeyField) then out
    else match out !! f with
         | Some _ => out
         | None => match merged !! f with Some v => <[f := v]> out | None => out end
         end) out fields.

Definition materializeRecord (stored : vdata) (fields : list string) : res cryptoErr vdata :=
  match fields with
  | [] =>
      let out := delete secureDataField stored in
      let* merged := decryptBlob (stored !! secureDataField) in
      Ok (merged ∪ out)
  | _ =>
      let '(out, needBlob) := columns stored fields in
      let out := match stored !! KeyField with Some v => <[KeyField := v]> out | None => out end in
      if needBlob then
        let* merged := decryptBlob (stored !! secureDataField) in
        Ok (from_blob merged fields out)
      else Ok out
  end.

Definition materialize (stored : vdata) (fields : list string) : res cryptoErr vdata :=
  if decide (readMode e = EncryptModeRecord) then materializeRecord stored fields
  else materializeFields stored fields.

(** The encryptor as the collection uses it. *)
Definition as_encryptor (nonces : string → bytes) : encryptor :=
  MkEnc (λ d, match encrypt nonces d with Ok d' => Some d' | Err _ => None end)
        (λ d fs, match materialize d fs with Ok d' => Some d' | Err _ => None end)
        (epoch e) (isEncryptedField e).

End encryptor.

(** ** Changing the policy: [engine/encryption_admin.go] *)

Record EncryptionKDF : Type := MkKDF { Algo : string; Salt : string; Params : Z * Z * Z }.

(** The block of meta.json. *)
Record encryptionMeta : Type := MkEncMeta {
  em_Policy : EncryptionPolicy;
  em_ReadMode : string;
  em_Epoch : Z;
  em_KDF : option EncryptionKDF;
  em_KeyCheck : bytes;
  em_CurrentKeyID : string
}.

(** The read mode of a block written before the field existed. *)
Definition meta_readMode (m : encryptionMeta) : string :=
  if decide (em_ReadMode m ≠ "") then em_ReadMode m else Mode (em_Policy m).

(** The state of a collection the policy changes touch; [em_disk] is the block in
    the meta.json on disk, [sentinel] says that the sentinel file exists. *)
Record encAdmin : Type := MkAdmin {
  ad_name : string;
  ad_fenced : bool;
  ad_enc : option policyEncryptor;
  ad_meta : option encryptionMeta;
  keyProvider : option KeyProvider;
  em_disk : option encryptionMeta;
  sentinel : bool
}.

Inductive admin_err : Type :=
| AErrFenced
| AErrPolicy
| AErrModeSwitch
| AErrNoProvider
| AErrNotEncrypted
| AErrCrypto (e : cryptoErr)
| AErrWrongKey
| AErrWrite.

(** Outcomes of the file calls: the sentinel, meta.json, removing the sentinel.  A
    write of meta.json that fails may have replaced the file ([metaLanded]). *)
Record admin_io : Type := MkIO { sentinelOK : bool; metaOK : bool; metaLanded : bool; removeOK : bool }.

(** The override is the refreshed check value and key id. *)
Definition applyEncryptionChange (s : encAdmin) (rmode : string) (p : EncryptionPolicy) (kp : KeyProvider)
    (newEpoch : Z) (override : option (bytes * string)) (w : admin_io) : encAdmin * res admin_err unit :=
  let newEnc := newEncryptor (ad_name s) rmode p kp newEpoch in
  let prev := ad_meta s in
  let sentinelNew := negb (sentinel s) in
  if sentinelNew && negb (sentinelOK w) then (s, Err AErrWrite)
  else
    let m := MkEncMeta p rmode newEpoch (prev ≫= em_KDF)
      (match override, prev with Some (kc, _), _ => kc | None, Some m => em_KeyCheck m | None, None => [] end)
      (match override, prev with Some (_, id), _ => id | None, Some m => em_CurrentKeyID m | None, None => "" end) in
    if negb (metaOK w) then
      let removed := sentinelNew && bool_decide (prev = None) && removeOK w in
      (MkAdmin (ad_name s) (ad_fenced s) (ad_enc s) prev (keyProvider s)
         (if metaLanded w then Some m else em_disk s) (negb removed), Err AErrWrite)
    else
      (MkAdmin (ad_name s) (ad_fenced s) (Some newEnc) (Some m) (keyProvider s) (Some m) true, Ok tt).

(** A fresh check value under the current key. *)
Definition mint (kp : KeyProvider) (nonce : bytes) : res admin_err (bytes * string) :=
  match Current kp with
  | None => Err (AErrCrypto ErrKeyUnavailable)
  | Some (keyID, key) =>
      match MakeKeyCheck key keyID nonce with
      | Err e => Err (AErrCrypto e)
      | Ok kc => Ok (kc, keyID)
      end
  end.

Definition SetEncryptionPolicy (s : encAdmin) (policy : option EncryptionPolicy) (nonce : bytes) (w : admin_io)
    : encAdmin * res admin_err unit :=
  if ad_fenced s then (s, Err AErrFenced)
  else
    match policy with
    | None =>
        match ad_enc s with
        | None => (s, Ok tt)
        | Some cur =>
            if negb (enabled cur) then (s, Ok tt)
            else applyEncryptionChange s (readMode cur) (MkPolicy "" [] []) (provider cur) (u64 (epoch cur + 1)) None w
        end
    | Some p =>
        if negb (validate p) then (s, Err AErrPolicy)
        else
          match ad_enc s with
          | Some cur =>
              if decide (Mode p ≠ readMode cur) then (s, Err AErrModeSwitch)
              else applyEncryptionChange s (readMode cur) p (provider cur) (u64 (epoch cur + 1)) None w
          | None =>
              match keyProvider s with
              | None => (s, Err AErrNoProvider)
              | Some kp =>
                  match mint kp nonce with
                  | Err e => (s, Err e)
                  | Ok o => applyEncryptionChange s (Mode p) p kp 1 (Some o) w
                  end
              end
          end
    end.

Definition RotateKey (s : encAdmin) (nonce : bytes) (w : admin_io) : encAdmin * res admin_err unit :=
  if ad_fenced s then (s, Err AErrFenced)
  else
    match ad_enc s with
    | None => (s, Err AErrNotEncrypted)
    | Some cur =>
        match mint (provider cur) nonce with
        | Err e => (s, Err e)
        | Ok o => applyEncryptionChange s (readMode cur) (writePolicy cur) (provider cur) (u64 (epoch cur + 1)) (Some o) w
        end
    end.

(** [initEncryption]: a collection opened with the block [disk] found in its
    meta.json, the provider [kp] and the policy [want] of its configuration. *)
Definition initEncryption (name : string) (disk : option encryptionMeta) (sent : bool) (kp : option KeyProvider)
    (want : option EncryptionPolicy) (kdf : option EncryptionKDF) (nonce : bytes) (w : admin_io)
    : res admin_err encAdmin :=
  match disk with
  | Some m =>
      match kp with
      | None => Err (AErrCrypto ErrKeyUnavailable)
      | Some kp =>
          match Current kp with
          | None => Err (AErrCrypto ErrKeyUnavailable)
          | Some (_, key) =>
              if negb (VerifyKeyCheck key (em_KeyCheck m)) then Err AErrWrongKey
              else Ok (MkAdmin name false
                     (Some (newEncryptor name (meta_readMode m) (em_Policy m) kp (em_Epoch m)))
                     (Some m) (Some kp) disk (sent || sentinelOK w))
          end
      end
  | None =>
      match want with
      | None => Ok (MkAdmin name false None None kp None sent)
      | Some p =>
          if negb (validate p) then Err AErrPolicy
          else
            match kp with
            | None => Err AErrNoProvider
            | Some kp =>
                match mint kp nonce with
                | Err e => Err e
                | Ok (kc, keyID) =>
                    let m := MkEncMeta p (Mode p) 1 kdf kc keyID in
                    if negb (metaOK w) then Err AErrWrite
                    else if negb (sent || sentinelOK w) then Err AErrWrite
                    else Ok (MkAdmin name false (Some (newEncryptor name (Mode p) p kp 1)) (Some m) (Some kp) (Some m) true)
                end
            end
      end
  end.

End cipher.
