(* ===== verification/EncryptionThm.v ===== *)
(** * Sealed records can be read back, whole or projected, after any change of policy *)
From Stdlib Require Import Ascii Lia ZArith.
From stdpp Require Import prelude gmap strings sorting.
From S2P Require Import Prelude GoNum Json Value Filter GoTime Store SecondaryIndex Collection CollInv CollThm Base64.
From S2P Require Import Compactor CompactThm Encryption.

(** ** Envelopes *)

Lemma cut_colon_app a b : colon ∉ a → cut_colon (a ++ colon :: b) = Some (a, b).
Proof.
  induction a as [|c a IH]; intros Ha.
  - cbn [app cut_colon]. by rewrite decide_True.
  - rewrite not_elem_of_cons in Ha. destruct Ha as [Hc Ha]. cbn [app cut_colon].
    rewrite decide_False by congruence. by rewrite IH.
Qed.

Lemma validateKeyID_true id : validateKeyID id = true → id ≠ "" ∧ colon ∉ b_of_s id.
Proof. unfold validateKeyID. intros [H1%negb_true_iff%bool_decide_eq_false H2%bool_decide_eq_true]%andb_true_iff. done. Qed.

Definition envelope_of (keyID : string) (payload : bytes) : bytes :=
  marker ++ [colon] ++ version ++ [colon] ++ b_of_s keyID ++ [colon] ++ b64_encode payload.

Lemma envelope_encrypted keyID payload : IsEncrypted (envelope_of keyID payload) = true.
Proof. unfold IsEncrypted, envelope_of. rewrite (app_assoc marker). apply is_prefix_app. Qed.

Lemma parse_envelope keyID payload :
  validateKeyID keyID = true → parse (envelope_of keyID payload) = Ok (keyID, payload).
Proof.
  intros [Hne Hnc]%validateKeyID_true. unfold parse. rewrite envelope_encrypted. cbn [negb].
  replace (drop (length marker + 1) (envelope_of keyID payload))
    with (version ++ colon :: (b_of_s keyID ++ colon :: b64_encode payload)) by reflexivity.
  rewrite cut_colon_app by (by apply (bool_decide_unpack _)). rewrite cut_colon_app by done.
  rewrite decide_False by naive_solver. rewrite decide_False.
  - by rewrite b64_decode_encode, s_of_b_of_s.
  - intros Hb. apply Hne. rewrite <- (s_of_b_of_s keyID), Hb. done.
Qed.

(** ** Providers *)

(** The current key is a usable key that the provider can find again. *)
Definition provider_ok (p : KeyProvider) : Prop :=
  ∀ id key, Current p = Some (id, key) → validateKeyID id = true ∧ length key = KeySize ∧ ByID p id = Some key.

(** Every key of [p] is still known to [p']. *)
Definition extends (p' p : KeyProvider) : Prop := ∀ id key, ByID p id = Some key → ByID p' id = Some key.

Definition keyring_ok (k : Keyring) : Prop :=
  map_Forall (λ id key, validateKeyID id = true ∧ length key = KeySize) (keys k).

Lemma keyring_provider_ok k : keyring_ok k → provider_ok (keyring_provider k).
Proof.
  intros Hk id key H. cbn in H. apply bind_Some in H as (key' & Hl & [= <- <-]). by destruct (Hk _ _ Hl).
Qed.

Lemma Add_ok k id key k' :
  keyring_ok k → Add k id key = Ok k' → keyring_ok k' ∧ currentID k' = currentID k ∧ keys k' = <[id := key]> (keys k).
Proof.
  intros Hk. unfold Add. destruct (validateKeyID id) eqn:Ev; [|done]. cbn [negb]. case_decide as Hl; [done|].
  intros [= <-]. split; [|done]. apply map_Forall_insert_2; [|done]. split; [done|]. lia.
Qed.

Lemma SetCurrent_ok k id k' : keyring_ok k → SetCurrent k id = Ok k' → keyring_ok k' ∧ keys k' = keys k ∧ is_Some (Current (keyring_provider k')).
Proof.
  intros Hk. unfold SetCurrent. destruct (keys k !! id) as [key|] eqn:E; [|done]. intros [= <-].
  split_and!; [done|done|]. exists (id, key). cbn. by rewrite E.
Qed.

(** ** Projections *)

(** The values of [data] at the fields [l], over [out]. *)
Definition picked (data : vdata) (l : list string) (out : vdata) : vdata :=
  foldl (λ out f, match data !! f with Some v => <[f := v]> out | None => out end) out l.

Lemma picked_lookup data l out k :
  picked data l out !! k = if decide (k ∈ l) then data !! k ∪ out !! k else out !! k.
Proof.
  revert out. induction l as [|f l IH]; intros out; [done|]. unfold picked in *. cbn [foldl]. rewrite IH.
  destruct (decide (k = f)) as [->|Hne].
  - rewrite (decide_True (P := f ∈ f :: l)) by set_solver.
    destruct (data !! f) as [v|] eqn:E; [|by case_decide; destruct (out !! f)].
    rewrite lookup_insert_eq. by case_decide; [destruct (out !! f)|destruct (out !! f)].
  - assert (Hout : (match data !! f with Some v => <[f := v]> out | None => out end) !! k = out !! k).
    { destruct (data !! f); [by apply lookup_insert_ne|done]. }
    rewrite Hout. destruct (decide (k ∈ l)); [by rewrite decide_True by set_solver|by rewrite decide_False by set_solver].
Qed.

Lemma ProjectData_lookup data fields k :
  ProjectData data fields !! k =
  match fields with [] => data !! k | _ => if decide (k = KeyField ∨ k ∈ fields) then data !! k else None end.
Proof.
  destruct fields as [|f fs]; [done|]. unfold ProjectData. fold (picked data (f :: fs) ∅).
  destruct (decide (k = KeyField)) as [->|Hne].
  - rewrite decide_True by (by left). destruct (data !! KeyField) as [v|] eqn:E; [by rewrite lookup_insert_eq|].
    rewrite picked_lookup, E. by case_decide.
  - assert (Hpk : (match data !! KeyField with Some v => <[KeyField := v]> (picked data (f :: fs) ∅) | None => picked data (f :: fs) ∅ end) !! k
      = picked data (f :: fs) ∅ !! k).
    { destruct (data !! KeyField); [by apply lookup_insert_ne|done]. }
    rewrite Hpk, picked_lookup, lookup_empty. destruct (decide (k ∈ f :: fs)).
    + rewrite decide_True by (by right). by destruct (data !! k).
    + by rewrite decide_False by naive_solver.
Qed.

Section sound.
Context (seal_ : bytes → bytes → bytes → bytes → bytes).
Context (open_ : bytes → bytes → bytes → bytes → option bytes).

(** What the cipher promises: a sealed text opens under its key, nonce and
    associated data. *)
Context (open_seal : ∀ key nonce pt ad,
  length key = KeySize → length nonce = NonceSize → open_ key nonce (seal_ key nonce pt ad) ad = Some pt).

Lemma Encrypt_ok key keyID nonce pt ad :
  validateKeyID keyID = true → length key = KeySize →
  Encrypt seal_ key keyID nonce pt ad = Ok (envelope_of keyID (nonce ++ seal_ key nonce pt ad)).
Proof. intros Hv Hk. unfold Encrypt. rewrite Hv. cbn [negb]. by rewrite decide_False by lia. Qed.

Lemma Decrypt_envelope key keyID nonce pt ad :
  validateKeyID keyID = true → length key = KeySize → length nonce = NonceSize →
  Decrypt open_ key (envelope_of keyID (nonce ++ seal_ key nonce pt ad)) ad = Ok pt.
Proof.
  intros Hv Hk Hn. unfold Decrypt. rewrite parse_envelope by done. cbn [res_bind snd].
  rewrite decide_False by lia. rewrite length_app, Hn.
  replace (NonceSize + _ <? NonceSize) with false by (symmetry; apply Nat.ltb_ge; lia).
  rewrite <- Hn, take_app_length, drop_app_length. by rewrite open_seal.
Qed.

Lemma DecryptWith_envelope p key keyID nonce pt ad :
  validateKeyID keyID = true → length key = KeySize → length nonce = NonceSize → ByID p keyID = Some key →
  DecryptWith open_ p (envelope_of keyID (nonce ++ seal_ key nonce pt ad)) ad = Ok pt.
Proof.
  intros Hv Hk Hn Hb. unfold DecryptWith, KeyID. rewrite parse_envelope by done. cbn [res_bind]. rewrite Hb.
  by apply Decrypt_envelope.
Qed.

(** ** Reading back what was sealed *)

(** The stored form of a field: sealed under the policy, or in the clear. *)
Definition opens_to (e : policyEncryptor) (stored data : vdata) : Prop :=
  ∀ f, match stored !! f with
       | None => data !! f = None
       | Some v => ∃ v0, data !! f = Some v0 ∧ maybeDecryptValue open_ e f v = Ok v0
       end.

Lemma open_fields_spec e stored data l out :
  opens_to e stored data → open_fields open_ e stored l out = Ok (picked data l out).
Proof.
  intros Ho. revert out. induction l as [|f l IH]; intros out; [done|]. cbn [open_fields]. unfold picked. cbn [foldl].
  specialize (Ho f). destruct (stored !! f) as [v|].
  - destruct Ho as (v0 & -> & ->). cbn [res_bind]. apply IH.
  - rewrite Ho. apply IH.
Qed.

Lemma materializeFields_spec e stored data fields :
  opens_to e stored data → stored !! KeyField = data !! KeyField →
  materializeFields open_ e stored fields = Ok (ProjectData data fields).
Proof.
  intros Ho Hk. unfold materializeFields. destruct fields as [|f fs].
  - rewrite (open_fields_spec e stored data) by done. f_equal. apply map_eq. intros k.
    rewrite picked_lookup, lookup_empty. cbn [ProjectData]. case_decide as Hin.
    + by destruct (data !! k).
    + pose proof (Ho k) as Hok. destruct (stored !! k) as [v|] eqn:E; [|done].
      exfalso. apply Hin, list_elem_of_fmap. exists (k, v). split; [done|]. by apply elem_of_map_to_list.
  - rewrite (open_fields_spec e stored data) by done. cbn [res_bind]. by rewrite Hk.
Qed.

(** Values without the marker are left as they are. *)
Lemma unmarked_value e f v : has_marker v = false → maybeDecryptValue open_ e f v = Ok v.
Proof.
  destruct v as [| | |s| |]; try done. cbn [has_marker maybeDecryptValue]. intros Hm.
  assert (IsEncrypted (b_of_s s) = false) as ->; [|done].
  destruct (IsEncrypted (b_of_s s)) eqn:E; [|done]. unfold IsEncrypted, HasReservedPrefix in *.
  assert (Hp : ∀ a b t, is_prefix (a ++ b) t = true → is_prefix a t = true).
  { clear. induction a as [|c a IH]; intros b [|d t]; cbn; try done. intros [? ?]%andb_true_iff.
    apply andb_true_iff. split; [done|]. by eapply IH. }
  by rewrite (Hp _ _ _ E) in Hm.
Qed.

Lemma encrypt_unmarked e nonces d d' f v :
  encrypt seal_ e nonces d = Ok d' → d !! f = Some v → has_marker v = false.
Proof.
  unfold encrypt. destruct (existsb _ _) eqn:E; [done|]. intros _ Hf. destruct (has_marker v) eqn:Em; [|done].
  exfalso. assert (Ht : existsb (λ kv : string * value, has_marker kv.2) (map_to_list d) = true); [|congruence].
  apply existsb_exists. exists (f, v). split; [|done]. by apply list_elem_of_In, elem_of_map_to_list.
Qed.

(** An encryptor made from a valid policy of its mode, or one that no longer
    seals. *)
Definition configured (e : policyEncryptor) : Prop :=
  e = newEncryptor (collection e) (readMode e) (writePolicy e) (provider e) (epoch e) ∧
  (readMode e = EncryptModeFields ∨ readMode e = EncryptModeRecord) ∧
  (Mode (writePolicy e) = "" ∨ (Mode (writePolicy e) = readMode e ∧ validate (writePolicy e) = true)).

(** [e2] reads what [e1] wrote: a later policy, with the keys of the earlier one. *)
Record reads (e2 e1 : policyEncryptor) : Prop := {
  rd_coll : collection e2 = collection e1;
  rd_mode : readMode e2 = readMode e1;
  rd_keys : extends (provider e2) (provider e1)
}.

Lemma reads_refl e : reads e e.
Proof. split; [done|done|]. by intros id key. Qed.

Lemma reads_trans e3 e2 e1 : reads e3 e2 → reads e2 e1 → reads e3 e1.
Proof. intros [? ? H32] [? ? H21]. split; [congruence|congruence|]. intros id key Hk. by apply H32, H21. Qed.

Context (nonces : string → bytes) (nonces_ok : ∀ f, length (nonces f) = NonceSize).

Lemma seal_opens e1 e2 key keyID f t v :
  reads e2 e1 → provider_ok (provider e1) → Current (provider e1) = Some (keyID, key) →
  seal seal_ e1 nonces key keyID f t = Ok v →
  ∃ s, v = VStr s ∧ IsEncrypted (b_of_s s) = true ∧
       DecryptWith open_ (provider e2) (b_of_s s) (aad e2 f) = Ok t.
Proof.
  intros [Hc _ Hx] Hp Hcur. destruct (Hp _ _ Hcur) as (Hv & Hl & Hb). unfold seal.
  rewrite Encrypt_ok by done. cbn [res_bind]. set (env := envelope_of _ _). intros [= <-].
  exists (s_of_b env). split; [done|]. rewrite b_of_s_of_b. unfold env.
  split; [apply envelope_encrypted|]. unfold aad. rewrite Hc. apply DecryptWith_envelope; try done. by apply Hx.
Qed.

Lemma seal_envelope e key keyID f t v :
  seal seal_ e nonces key keyID f t = Ok v → ∃ s, Some v = Some (VStr s) ∧ IsEncrypted (b_of_s s) = true.
Proof.
  unfold seal, Encrypt. destruct (validateKeyID keyID); [|done]. cbn [negb]. case_decide; [done|]. cbn [res_bind].
  fold (envelope_of keyID (nonces f ++ seal_ key (nonces f) t (aad e f))). set (env := envelope_of _ _).
  intros [= <-]. exists (s_of_b env). split; [done|]. rewrite b_of_s_of_b. apply envelope_encrypted.
Qed.

Lemma sealed_value_opens e1 e2 key keyID f v0 v :
  reads e2 e1 → provider_ok (provider e1) → Current (provider e1) = Some (keyID, key) → value_wf v0 →
  seal seal_ e1 nonces key keyID f (print (value_to_json v0)) = Ok v → maybeDecryptValue open_ e2 f v = Ok v0.
Proof.
  intros Hr Hp Hcur Hwf Hs. destruct (seal_opens _ _ _ _ _ _ _ Hr Hp Hcur Hs) as (s & -> & Henc & Hd).
  unfold maybeDecryptValue. rewrite Henc. cbn [negb]. rewrite Hd. cbn [res_bind].
  rewrite unmarshal_print by (by apply value_to_json_ok || apply value_to_json_utf8). cbn [mbind option_bind].
  by rewrite value_json_roundtrip.
Qed.

Lemma seal_fields_spec e1 key keyID data l out d' :
  seal_fields seal_ e1 nonces key keyID data l out = Ok d' →
  ∀ f, (f ∉ l ∨ data !! f = None) ∧ d' !! f = out !! f ∨
       ∃ v0 v, f ∈ l ∧ data !! f = Some v0 ∧ d' !! f = Some v ∧
               seal seal_ e1 nonces key keyID f (print (value_to_json v0)) = Ok v.
Proof.
  clear open_ open_seal nonces_ok. revert out. induction l as [|g l IH]; intros out; cbn [seal_fields].
  { intros [= <-] f. left. split; [left; set_solver|done]. }
  destruct (data !! g) as [v0|] eqn:Eg.
  - destruct (seal _ _ _ _ _ _ _) as [v|] eqn:Es; [|done]. cbn [res_bind]. intros Hrun f.
    destruct (IH _ Hrun f) as [[Hn Hl]|(w0 & w & Hin & ?)]; [|right; exists w0, w; set_solver].
    destruct (decide (f = g)) as [->|Hne].
    + right. exists v0, v. rewrite lookup_insert_eq in Hl. split_and!; [set_solver|done..].
    + left. rewrite lookup_insert_ne in Hl by done. split; [set_solver|done].
  - intros Hrun f. destruct (IH _ Hrun f) as [[Hn Hl]|(w0 & w & Hin & ?)]; [|right; exists w0, w; set_solver].
    left. split; [|done]. destruct (decide (f = g)) as [->|Hne]; [by right|]. set_solver.
Qed.
(** *** Record mode *)

Lemma columns_spec stored fields :
  let r := columns stored fields in
  (∀ k, r.1 !! k = if decide (k ∈ fields ∧ k ≠ KeyField ∧ k ≠ secureDataField) then stored !! k else None) ∧
  (r.2 = false → ∀ k, k ∈ fields → k ≠ KeyField → k ≠ secureDataField ∧ is_Some (stored !! k)).
Proof.
  unfold columns. induction fields as [|f l IH] using rev_ind; [cbn; split; [by intros; rewrite decide_False by set_solver|set_solver]|].
  rewrite foldl_app. cbn [foldl]. destruct IH as [IH1 IH2]. set (acc := foldl _ _ l) in *. cbn zeta.
  destruct (decide (f = KeyField)) as [Hf|Hf].
  { split; [|set_solver]. intros k. rewrite IH1. apply decide_ext. set_solver. }
  assert (Hskip : ∀ k, k ≠ f ∨ k = secureDataField →
    (if decide (k ∈ l ∧ k ≠ KeyField ∧ k ≠ secureDataField) then stored !! k else None) =
    (if decide (k ∈ l ++ [f] ∧ k ≠ KeyField ∧ k ≠ secureDataField) then stored !! k else None)).
  { intros k Hk. apply decide_ext. set_solver. }
  destruct (stored !! f) as [v|] eqn:E; [destruct (decide (f = secureDataField)) as [Hs|Hs]|]; cbn [fst snd].
  - split; [|done]. intros k. rewrite IH1. apply Hskip. destruct (decide (k = f)); subst; auto.
  - split; [|set_solver]. intros k. destruct (decide (k = f)) as [->|Hne].
    + rewrite lookup_insert_eq, decide_True; [done|]. set_solver.
    + rewrite lookup_insert_ne by done. rewrite IH1. by apply Hskip; left.
  - split; [|done]. intros k. rewrite IH1. destruct (decide (k = f)) as [->|Hne]; [|by apply Hskip; left].
    rewrite E. by do 2 case_decide.
Qed.

Lemma from_blob_lookup merged fields out k :
  from_blob merged fields out !! k =
  if decide (k ∈ fields ∧ k ≠ KeyField) then out !! k ∪ merged !! k else out !! k.
Proof.
  revert out. induction fields as [|f l IH]; intros out; [done|]. unfold from_blob in *. cbn [foldl]. rewrite IH.
  destruct (decide (f = KeyField)) as [Hf|Hf].
  { destruct (decide (k ∈ l ∧ _)) as [H|H]; [by rewrite decide_True by set_solver|by rewrite decide_False by set_solver]. }
  destruct (decide (k = f)) as [->|Hne].
  - rewrite (decide_True (P := f ∈ f :: l ∧ _)) by set_solver.
    destruct (out !! f) as [v|] eqn:Eo; [rewrite Eo; by case_decide; destruct (merged !! f)|].
    destruct (merged !! f) as [w|] eqn:Em; [rewrite lookup_insert_eq|rewrite Eo]; by case_decide.
  - assert (Hout : (match out !! f with Some _ => out | None => match merged !! f with Some v => <[f:=v]> out | None => out end end) !! k = out !! k).
    { destruct (out !! f); [done|]. destruct (merged !! f); [by apply lookup_insert_ne|done]. }
    rewrite Hout. destruct (decide (k ∈ l ∧ _)) as [H|H]; [by rewrite decide_True by set_solver|by rewrite decide_False by set_solver].
Qed.

(** A stored record whose columns and blob make up [data]. *)
Record splits (e : policyEncryptor) (stored data : vdata) : Prop := {
  sp_blob : ∃ merged, decryptBlob open_ e (stored !! secureDataField) = Ok merged ∧
    ∀ k, k ≠ secureDataField → data !! k = stored !! k ∪ merged !! k ∧ (is_Some (stored !! k) → merged !! k = None);
  sp_secure : data !! secureDataField = None ∧ ∀ merged, decryptBlob open_ e (stored !! secureDataField) = Ok merged → merged !! secureDataField = None;
  sp_key : stored !! KeyField = data !! KeyField
}.

Lemma materializeRecord_spec e stored data fields :
  splits e stored data → materializeRecord open_ e stored fields = Ok (ProjectData data fields).
Proof.
  intros [(merged & Hb & Hm) [Hs1 Hs2] Hk]. specialize (Hs2 _ Hb). unfold materializeRecord. destruct fields as [|f0 fs].
  - rewrite Hb. cbn [res_bind ProjectData]. f_equal. apply map_eq. intros k. rewrite lookup_union.
    destruct (decide (k = secureDataField)) as [->|Hne]; [by rewrite lookup_delete_eq, Hs1, Hs2|].
    rewrite lookup_delete_ne by done. destruct (Hm k Hne) as [-> Hd].
    destruct (stored !! k) as [v|] eqn:E; [rewrite Hd by eauto; done|]. by destruct (merged !! k).
  - set (fields := f0 :: fs). pose proof (columns_spec stored fields) as [Hc1 Hc2].
    destruct (columns stored fields) as [out needBlob]. cbn [fst snd] in *.
    set (out' := match stored !! KeyField with Some v => <[KeyField:=v]> out | None => out end).
    assert (Hout : ∀ k, out' !! k = if decide (k = KeyField) then data !! KeyField
      else if decide (k ∈ fields ∧ k ≠ secureDataField) then stored !! k else None).
    { intros k. unfold out'. rewrite Hk. case_decide as Hkk.
      - subst k. destruct (data !! KeyField); [by rewrite lookup_insert_eq|]. rewrite Hc1. by rewrite decide_False by naive_solver.
      - destruct (data !! KeyField); [rewrite lookup_insert_ne by done|]; rewrite Hc1; apply decide_ext; naive_solver. }
    assert (Hproj : ∀ k, ProjectData data fields !! k = if decide (k = KeyField ∨ k ∈ fields) then data !! k else None)
      by (intros k; exact (ProjectData_lookup data (f0 :: fs) k)).
    destruct needBlob.
    + rewrite Hb. cbn [res_bind]. f_equal. apply map_eq. intros k. rewrite from_blob_lookup, Hproj, Hout.
      destruct (decide (k = KeyField)) as [->|Hkk]; [by rewrite decide_False, decide_True by naive_solver|].
      destruct (decide (k ∈ fields)) as [Hin|Hin].
      * rewrite decide_True, (decide_True (P := k = KeyField ∨ k ∈ fields)) by auto.
        destruct (decide (k = secureDataField)) as [->|Hsec].
        -- rewrite decide_False by naive_solver. by rewrite Hs1, Hs2.
        -- rewrite decide_True by done. symmetry. by apply Hm.
      * by rewrite !decide_False by naive_solver.
    + f_equal. apply map_eq. intros k. rewrite Hproj, Hout.
      destruct (decide (k = KeyField)) as [->|Hkk]; [by rewrite decide_True by auto|].
      destruct (decide (k ∈ fields)) as [Hin|Hin]; [|by rewrite !decide_False by naive_solver].
      destruct (Hc2 eq_refl k Hin Hkk) as [Hsec Hsome]. rewrite !decide_True by auto.
      destruct (Hm k Hsec) as [-> Hd]. rewrite (Hd Hsome). by destruct (stored !! k).
Qed.
(** *** Every mode *)

Lemma validate_fields p f : validate p = true → Mode p = EncryptModeFields → f ∈ Fields p → f ≠ KeyField ∧ f ≠ secureDataField.
Proof.
  unfold validate. intros Hv Hm Hin. rewrite decide_True in Hv by done. apply andb_true_iff in Hv as [_ Hv].
  rewrite forallb_forall in Hv. apply list_elem_of_In, Hv, andb_true_iff in Hin as [H1 H2].
  apply negb_true_iff, bool_decide_eq_false in H1. by apply negb_true_iff, bool_decide_eq_false in H2.
Qed.

Lemma validate_record p f : validate p = true → Mode p = EncryptModeRecord → f ∈ IndexFields p → f ≠ secureDataField.
Proof.
  unfold validate. intros Hv Hm Hin. rewrite decide_False in Hv by (by rewrite Hm). rewrite decide_True in Hv by done.
  rewrite forallb_forall in Hv. apply list_elem_of_In, Hv in Hin. by apply negb_true_iff, bool_decide_eq_false in Hin.
Qed.

(** The stored form, by the mode of the write policy. *)
Lemma encrypt_cases e d d' :
  configured e → encrypt seal_ e nonces d = Ok d' →
  (Mode (writePolicy e) = "" ∧ d' = d) ∨
  ∃ keyID key, Current (provider e) = Some (keyID, key) ∧ Mode (writePolicy e) = readMode e ∧
    ((readMode e = EncryptModeFields ∧ KeyField ∉ fieldSet e ∧
      seal_fields seal_ e nonces key keyID d (elements (fieldSet e)) d = Ok d') ∨
     (readMode e = EncryptModeRecord ∧ secureDataField ∉ indexSet e ∧ d !! secureDataField = None ∧
      ∃ env, seal seal_ e nonces key keyID secureDataField (print (data_to_json (filter (λ kv, is_column e kv.1 = false) d))) = Ok env ∧
             d' = <[secureDataField := env]> (filter (λ kv, is_column e kv.1 = true) d))).
Proof.
  intros (Hnew & Hrm & Hmode). unfold encrypt. destruct (existsb _ _); [done|]. unfold enabled.
  case_bool_decide as Hz; cbn [negb].
  { intros [= <-]. by left. }
  destruct Hmode as [?|[Hmode Hv]]; [done|]. intros H. right. rewrite Hmode in H.
  destruct (Current (provider e)) as [[keyID key]|]; [|done]. exists keyID, key. split; [done|]. split; [done|].
  destruct Hrm as [Hf|Hr].
  - left. split; [done|]. rewrite decide_True in H by done. split; [|done].
    intros Hin. rewrite Hnew in Hin. cbn in Hin. rewrite decide_True in Hin by congruence.
    apply elem_of_list_to_set in Hin. by apply validate_fields in Hin as [? _]; [|done|congruence].
  - right. split; [done|]. rewrite decide_False in H by (by rewrite Hr). rewrite decide_True in H by done. split.
    { intros Hin. rewrite Hnew in Hin. cbn in Hin. rewrite (decide_True (P := Mode (writePolicy e) = EncryptModeRecord)) in Hin by congruence.
      apply elem_of_list_to_set in Hin. by apply validate_record in Hin; [|done|congruence]. }
    destruct (d !! secureDataField); [done|]. split; [done|].
    destruct (seal _ _ _ _ _ _ _) as [env|] eqn:Es; [|done]. cbn [res_bind] in H. injection H as <-. by exists env.
Qed.

Lemma fields_open e1 e2 keyID key d d' :
  reads e2 e1 → provider_ok (provider e1) → Current (provider e1) = Some (keyID, key) → data_wf d →
  (∀ f v, d !! f = Some v → has_marker v = false) →
  seal_fields seal_ e1 nonces key keyID d (elements (fieldSet e1)) d = Ok d' → opens_to e2 d' d.
Proof.
  intros Hr Hp Hcur Hwf Hm Hs f. pose proof (seal_fields_spec _ _ _ _ _ _ _ Hs f) as [[_ ->]|(v0 & v & _ & Hv0 & -> & Hsv)].
  - destruct (d !! f) as [v|] eqn:E; [|done]. exists v. split; [done|]. by eapply unmarked_value, Hm.
  - exists v0. split; [done|]. eapply sealed_value_opens; [done..| |exact Hsv]. by eapply Hwf.
Qed.

Lemma clear_opens e d : (∀ f v, d !! f = Some v → has_marker v = false) → opens_to e d d.
Proof. intros Hm f. destruct (d !! f) as [v|] eqn:E; [|done]. exists v. split; [done|]. by eapply unmarked_value, Hm. Qed.

Lemma clear_splits e d : d !! secureDataField = None → splits e d d.
Proof.
  intros Hs. split; [|split; [done|]|done].
  - exists ∅. rewrite Hs. split; [done|]. intros k _. rewrite lookup_empty. split; [by destruct (d !! k)|done].
  - intros m. rewrite Hs. by intros [= <-].
Qed.

Lemma filter_lookup (P : string * value → Prop) `{∀ x, Decision (P x)} (m : vdata) k :
  filter P m !! k = v ← m !! k; if decide (P (k, v)) then Some v else None.
Proof.
  destruct (m !! k) as [v|] eqn:E; cbn [mbind option_bind].
  - case_decide; [by apply map_lookup_filter_Some|]. apply map_lookup_filter_None. right. naive_solver.
  - apply map_lookup_filter_None. by left.
Qed.

Lemma record_splits e1 e2 keyID key d env :
  reads e2 e1 → provider_ok (provider e1) → Current (provider e1) = Some (keyID, key) → data_wf d →
  d !! secureDataField = None →
  seal seal_ e1 nonces key keyID secureDataField (print (data_to_json (filter (λ kv, is_column e1 kv.1 = false) d))) = Ok env →
  splits e2 (<[secureDataField := env]> (filter (λ kv, is_column e1 kv.1 = true) d)) d.
Proof.
  intros Hr Hp Hcur Hwf Hsec Hs. destruct (seal_opens _ _ _ _ _ _ _ Hr Hp Hcur Hs) as (s & -> & Henc & Hd).
  set (rest := filter (λ kv, is_column e1 kv.1 = false) d) in *.
  assert (Hrest : data_wf rest) by (intros k v [Hv _]%map_lookup_filter_Some; by eapply Hwf).
  assert (Hblob : decryptBlob open_ e2 (<[secureDataField:=VStr s]> (filter (λ kv, is_column e1 kv.1 = true) d) !! secureDataField) = Ok rest).
  { rewrite lookup_insert_eq. unfold decryptBlob. rewrite Henc. cbn [negb]. rewrite Hd. cbn [res_bind].
    rewrite unmarshal_print by (by apply data_to_json_ok || apply data_to_json_utf8). cbn [mbind option_bind]. by rewrite dec_data_json. }
  split; [| |].
  - exists rest. split; [done|]. intros k Hk. rewrite lookup_insert_ne by done. unfold rest.
    rewrite !filter_lookup. destruct (d !! k) as [v|]; cbn [mbind option_bind fst]; [|split; [done|by intros [? ?]]].
    destruct (is_column e1 k).
    + rewrite decide_True, decide_False by done. done.
    + rewrite decide_False, decide_True by done. split; [done|by intros [? ?]].
  - split; [done|]. intros m. rewrite Hblob. intros [= <-]. unfold rest. rewrite filter_lookup, Hsec. done.
  - rewrite lookup_insert_ne by done. rewrite filter_lookup. destruct (d !! KeyField) as [v|]; [|done]. cbn [mbind option_bind fst].
    rewrite decide_True; [done|]. unfold is_column. by rewrite bool_decide_true.
Qed.

Lemma sealed_opens e1 e2 d d' fields :
  reads e2 e1 → provider_ok (provider e1) → configured e1 → data_wf d →
  (Mode (writePolicy e1) = "" → readMode e1 = EncryptModeRecord → d !! secureDataField = None) →
  encrypt seal_ e1 nonces d = Ok d' →
  materialize open_ e2 d' fields = Ok (ProjectData d fields).
Proof.
  intros Hr Hp Hcf Hwf Hoff He.
  assert (Hu : ∀ f v, d !! f = Some v → has_marker v = false) by (intros; by eapply encrypt_unmarked).
  unfold materialize. rewrite (rd_mode _ _ Hr).
  destruct (encrypt_cases e1 d d' Hcf He) as [[Hz ->]|(keyID & key & Hcur & _ & [(Hf & Hkf & Hs)|(Hrec & Hsi & Hsec & env & Hs & ->)])].
  - case_decide as Hrm; [by apply materializeRecord_spec, clear_splits, Hoff|].
    by apply materializeFields_spec; [apply clear_opens|].
  - rewrite decide_False by (by rewrite Hf). apply materializeFields_spec; [by eapply fields_open|].
    destruct (seal_fields_spec _ _ _ _ _ _ _ Hs KeyField) as [[_ ?]|(v0 & v & Hin & _)]; [done|].
    by apply elem_of_elements in Hin.
  - rewrite decide_True by done. apply materializeRecord_spec. by eapply record_splits.
Qed.

(** Claim C34: what a policy sealed can be read under every later one: whatever the
    write policy has become since (other fields, a rotated key, sealing switched
    off), as long as the keys are still known, reading the stored record gives
    back exactly the record that was written, and reading some of its fields
    gives exactly the projection of it.  (With sealing switched off in record
    mode, a field named [secure_data] is excepted.) *)
Theorem sealed_record_readable e1 e2 d d' fields :
  reads e2 e1 → provider_ok (provider e1) → configured e1 → data_wf d →
  (Mode (writePolicy e1) = "" → readMode e1 = EncryptModeRecord → d !! secureDataField = None) →
  encrypt seal_ e1 nonces d = Ok d' →
  materialize open_ e2 d' fields = Ok (ProjectData d fields).
Proof. apply sealed_opens. Qed.

(** Claim C35: sealing hides the encrypted fields: a field the policy calls
    encrypted is absent from the stored record or holds an envelope, and the rest
    of the stored record does not depend on the encrypted fields at all. *)
Theorem encrypted_fields_hidden e d1 d2 d1' d2' :
  configured e → encrypt seal_ e nonces d1 = Ok d1' → encrypt seal_ e nonces d2 = Ok d2' →
  (∀ f, isEncryptedField e f = false → d1 !! f = d2 !! f) →
  ∀ f, if isEncryptedField e f
       then d1' !! f = None ∨ ∃ s, d1' !! f = Some (VStr s) ∧ IsEncrypted (b_of_s s) = true
       else d1' !! f = d2' !! f.
Proof.
  clear open_ open_seal nonces_ok. intros Hcf H1 H2 Hd f.
  destruct (encrypt_cases e d1 d1' Hcf H1) as [[Hz ->]|(keyID & key & Hcur & Hmode & [(Hf & _ & Hs1)|(Hrec & Hsi & Hsec1 & env1 & Hs1 & ->)])];
  destruct (encrypt_cases e d2 d2' Hcf H2) as [[Hz2 ->]|(keyID2 & key2 & Hcur2 & Hmode2 & [(Hf2 & _ & Hs2)|(Hrec2 & _ & Hsec2 & env2 & Hs2 & ->)])];
  try (rewrite Hmode, ?Hf, ?Hrec in *; discriminate); try (rewrite Hmode2, ?Hf2, ?Hrec2 in *; discriminate); try congruence.
  - assert (isEncryptedField e f = false) as Hn by (unfold isEncryptedField; by rewrite Hz). rewrite Hn. by apply Hd.
  - destruct (isEncryptedField e f) eqn:Ef.
    + destruct (seal_fields_spec _ _ _ _ _ _ _ Hs1 f) as [[Hn Heq]|(v0 & v & _ & _ & -> & Hsv)].
      * left. destruct Hn as [Hn|Hn]; [|congruence]. exfalso. apply Hn, elem_of_elements.
        unfold isEncryptedField in Ef. rewrite decide_True in Ef by congruence. by apply bool_decide_eq_true in Ef.
      * right. by eapply seal_envelope.
    + assert (Hn : f ∉ elements (fieldSet e)).
      { rewrite elem_of_elements. unfold isEncryptedField in Ef. rewrite decide_True in Ef by congruence.
        by apply bool_decide_eq_false in Ef. }
      destruct (seal_fields_spec _ _ _ _ _ _ _ Hs1 f) as [[_ ->]|(v0 & v & ? & _)]; [|done].
      destruct (seal_fields_spec _ _ _ _ _ _ _ Hs2 f) as [[_ ->]|(v0 & v & ? & _)]; [|done]. by apply Hd.
  - assert (Hcol : isEncryptedField e f = negb (is_column e f)).
    { unfold isEncryptedField, is_column. rewrite decide_False by (by rewrite Hmode, Hrec).
      rewrite decide_True by congruence. by rewrite negb_orb. }
    rewrite Hcol. destruct (decide (f = secureDataField)) as [->|Hne].
    + assert (is_column e secureDataField = false) as ->.
      { unfold is_column. by rewrite !bool_decide_false. }
      right. rewrite lookup_insert_eq. eapply seal_envelope in Hs1 as (s & -> & ?). by exists s.
    + rewrite !lookup_insert_ne, !filter_lookup by done. destruct (is_column e f) eqn:Ec; cbn [negb].
      * by rewrite (Hd f) by done.
      * left. destruct (d1 !! f); [|done]. cbn [mbind option_bind fst]. case_decide as Hc; [|done]. simpl in Hc. congruence.
Qed.

(** *** The interface of the collection *)

Lemma seal_wf e key keyID f t v :
  str_utf8 keyID → seal seal_ e nonces key keyID f t = Ok v → value_wf v.
Proof.
  intros Hk. unfold seal, Encrypt. destruct (validateKeyID keyID); [|done]. cbn [negb]. case_decide; [done|]. cbn [res_bind].
  fold (envelope_of keyID (nonces f ++ seal_ key (nonces f) t (aad e f))). intros [= <-].
  change (str_utf8 (s_of_b (envelope_of keyID (nonces f ++ seal_ key (nonces f) t (aad e f))))).
  unfold str_utf8. rewrite b_of_s_of_b. apply utf8_valid_spec. unfold envelope_of.
  repeat first [apply utf8_app|apply utf8_one; [done|]|apply b64_encode_utf8|by apply utf8_valid_spec|constructor].
Qed.

Lemma encrypt_good e d d' : configured e → (∀ id key, Current (provider e) = Some (id, key) → str_utf8 id) → good_data d → encrypt seal_ e nonces d = Ok d' → good_data d'.
Proof.
  intros Hcf Hid [Hwf Hne] He.
  destruct (encrypt_cases e d d' Hcf He) as [[_ ->]|(keyID & key & Hcur & _ & [(_ & _ & Hs)|(_ & _ & _ & env & Hs & ->)])]; [done|..].
  - assert (Hv : ∀ f v, d' !! f = Some v → str_utf8 f ∧ value_wf v).
    { intros f v Hf. destruct (seal_fields_spec _ _ _ _ _ _ _ Hs f) as [[_ Heq]|(v0 & w & _ & Hv0 & Heq & Hsv)].
      - apply Hwf. by rewrite <- Heq.
      - rewrite Heq in Hf. injection Hf as ->. split; [by apply (Hwf f v0)|]. eapply seal_wf; [by eapply Hid|done]. }
    split; [exact Hv|]. intros ->. apply Hne, map_empty. intros f.
    destruct (seal_fields_spec _ _ _ _ _ _ _ Hs f) as [[_ <-]|(v0 & w & _ & _ & Heq & _)]; [done|].
    by rewrite lookup_empty in Heq.
  - split; [|apply insert_non_empty]. apply map_Forall_insert_2.
    + split; [done|]. eapply seal_wf; [by eapply Hid|done].
    + intros k v [Hv _]%map_lookup_filter_Some. by apply Hwf.
Qed.

(** the encryptor of a valid policy keeps every promise the collection
    and the compactor rely on: good records are stored as good records, what was
    stored is read back unchanged, and what was read can be sealed again without
    loss. *)
Theorem encryptor_meets_interface c e :
  enc c = Some (as_encryptor seal_ open_ e nonces) → provider_ok (provider e) → configured e → in_u64 (epoch e) →
  (∀ id key, Current (provider e) = Some (id, key) → str_utf8 id) →
  (Mode (writePolicy e) = "" → readMode e = EncryptModeFields) →
  enc_good c ∧ enc_sound c ∧ ∀ d, good_data d → enc_roundtrip c d.
Proof.
  intros Hc Hp Hcf Hep Hid Hoff.
  assert (Hg : ∀ d d', good_data d → enc_encrypt (as_encryptor seal_ open_ e nonces) d = Some d' → good_data d').
  { intros d d' Hd He. cbn in He. destruct (encrypt _ _ _ _) as [x|] eqn:E; [|done]. injection He as <-.
    by eapply encrypt_good. }
  assert (Hrt : ∀ d d', good_data d → enc_encrypt (as_encryptor seal_ open_ e nonces) d = Some d' →
    enc_materialize (as_encryptor seal_ open_ e nonces) d' [] = Some d).
  { intros d d' [Hd _] He. cbn in He |- *. destruct (encrypt _ _ _ _) as [x|] eqn:E; [|done]. injection He as <-.
    rewrite (sealed_opens e e d x []); [done|apply reads_refl|done..| |done].
    intros Hz%Hoff Hr. rewrite Hr in Hz. discriminate. }
  split_and!.
  - intros en Hen. rewrite Hc in Hen. injection Hen as <-. split; [exact Hep|exact Hg].
  - intros en Hen. rewrite Hc in Hen. injection Hen as <-. split; [exact Hep|]. intros pt d' Hpt He.
    split; [by apply Hrt|by eapply Hg].
  - intros d Hd en d' Hen He. rewrite Hc in Hen. injection Hen as <-. by apply Hrt.
Qed.
(** ** Policy changes *)

(** A block of meta.json that configures an encryptor of read mode [rm]. *)
Definition block_ok (rm : string) (m : encryptionMeta) : Prop :=
  meta_readMode m = rm ∧ (Mode (em_Policy m) = "" ∨ (Mode (em_Policy m) = rm ∧ validate (em_Policy m) = true)).

(** An encrypted collection, in memory and on disk. *)
Definition administered (s : encAdmin) (e : policyEncryptor) : Prop :=
  ad_enc s = Some e ∧ configured e ∧ collection e = ad_name s ∧ ∃ m, em_disk s = Some m ∧ block_ok (readMode e) m.

(** What happens to the encryption of a collection: a policy set or switched off,
    a key rotated, keys added to the provider or another one made current, the
    collection reopened; every call with every outcome of its file operations.  An
    open that is refused (as with a provider whose current key was changed without
    a rotation) is no step: it leaves the directory to the next one. *)
Inductive admin_step : encAdmin → encAdmin → Prop :=
| step_policy s p nonce w s' r : SetEncryptionPolicy seal_ s p nonce w = (s', r) → admin_step s s'
| step_rotate s nonce w s' r : RotateKey seal_ s nonce w = (s', r) → admin_step s s'
| step_keys s e kp : ad_enc s = Some e → extends kp (provider e) →
    admin_step s (MkAdmin (ad_name s) (ad_fenced s)
      (Some (MkPE (collection e) (readMode e) (writePolicy e) kp (fieldSet e) (indexSet e) (epoch e)))
      (ad_meta s) (Some kp) (em_disk s) (sentinel s))
| step_reopen s e kp want kdf nonce w s' : ad_enc s = Some e → extends kp (provider e) →
    initEncryption seal_ open_ (ad_name s) (em_disk s) (sentinel s) (Some kp) want kdf nonce w = Ok s' → admin_step s s'.

Definition valid_change (rm : string) (p : EncryptionPolicy) : Prop :=
  Mode p = "" ∨ (Mode p = rm ∧ validate p = true).

Lemma newEncryptor_configured name rm p kp ep :
  rm = EncryptModeFields ∨ rm = EncryptModeRecord → valid_change rm p → configured (newEncryptor name rm p kp ep).
Proof. intros Hrm Hp. split; [reflexivity|]. by split. Qed.

Lemma apply_change s e p kp ep o w s' r :
  administered s e → valid_change (readMode e) p → extends kp (provider e) →
  applyEncryptionChange s (readMode e) p kp ep o w = (s', r) → ∃ e', administered s' e' ∧ reads e' e.
Proof.
  intros (He & Hcf & Hname & m & Hm & Hb) Hp Hx. unfold applyEncryptionChange.
  set (m' := MkEncMeta _ _ _ _ _ _).
  assert (Hb' : block_ok (readMode e) m').
  { split; [|exact Hp]. unfold meta_readMode. cbn. rewrite decide_True; [done|].
    destruct Hcf as (_ & [Hr|Hr] & _); by rewrite Hr. }
  destruct (_ && _); [intros [= <- <-]; exists e; split; [|apply reads_refl]; unfold administered; by eauto 10|].
  destruct (metaOK w); cbn [negb]; intros [= <- <-].
  - exists (newEncryptor (ad_name s) (readMode e) p kp ep). split; [|split; [done|done|exact Hx]].
    split_and!; [done|apply newEncryptor_configured; [apply Hcf|done]|done|]. by exists m'.
  - exists e. split; [|apply reads_refl]. split_and!; try done. destruct (metaLanded w); eauto.
Qed.

Lemma admin_step_keeps s s' e : administered s e → admin_step s s' → ∃ e', administered s' e' ∧ reads e' e.
Proof.
  intros Ha Hs. pose proof Ha as (He & Hcf & Hname & m & Hm & Hb).
  assert (Hsame : ∃ e', administered s e' ∧ reads e' e) by (exists e; split; [done|apply reads_refl]).
  destruct Hs as [s p nonce w s' r H|s nonce w s' r H|s e0 kp He0 Hx|s e0 kp want kdf nonce w s' He0 Hx H].
  - unfold SetEncryptionPolicy in H. destruct (ad_fenced s); [by simplify_eq|]. rewrite He in H. destruct p as [p|].
    + destruct (validate p) eqn:Ev; cbn [negb] in H; [|by simplify_eq]. case_decide as Hmode; [by simplify_eq|].
      refine (apply_change _ _ _ _ _ _ _ _ _ Ha _ _ H); [by right|by intros ? ?].
    + destruct (enabled e); cbn [negb] in H; [|by simplify_eq].
      refine (apply_change _ _ _ _ _ _ _ _ _ Ha _ _ H); [by left|by intros ? ?].
  - unfold RotateKey in H. destruct (ad_fenced s); [by simplify_eq|]. rewrite He in H.
    destruct (mint seal_ (provider e) nonce); [|by simplify_eq].
    refine (apply_change _ _ _ _ _ _ _ _ _ Ha _ _ H); [apply Hcf|by intros ? ?].
  - assert (e0 = e) as -> by congruence.
    exists (MkPE (collection e) (readMode e) (writePolicy e) kp (fieldSet e) (indexSet e) (epoch e)).
    split; [|split; [reflexivity|reflexivity|exact Hx]].
    split_and!; [done| |done|by exists m].
    destruct Hcf as (Hnew & Hrm & Hmode). split; [|done]. rewrite Hnew. reflexivity.
  - assert (e0 = e) as -> by congruence. unfold initEncryption in H. rewrite Hm in H.
    destruct (Current kp) as [[id key]|]; [|done]. destruct (VerifyKeyCheck _ _ _); [|done]. cbn [negb] in H.
    injection H as <-. destruct Hb as [Hb1 Hb2].
    exists (newEncryptor (ad_name s) (meta_readMode m) (em_Policy m) kp (em_Epoch m)). split.
    + split_and!; [done| |done|]; [|exists m; split; [done|]; split; [done|cbn; by rewrite Hb1]].
      apply newEncryptor_configured; rewrite Hb1; [apply Hcf|done].
    + split; [done|exact Hb1|exact Hx].
Qed.

(** Claim C36: no history of policy changes loses data: whatever is done to the
    encryption of a collection (fields added or removed, sealing switched off and
    on again, keys added and rotated, failed attempts, reopening), every record
    sealed before is still read back exactly, whole or projected, as long as the
    provider keeps the old keys. *)
Theorem policy_history_readable s e s' d d' fields :
  administered s e → rtc admin_step s s' → provider_ok (provider e) → data_wf d →
  (Mode (writePolicy e) = "" → readMode e = EncryptModeRecord → d !! secureDataField = None) →
  encrypt seal_ e nonces d = Ok d' →
  ∃ e', ad_enc s' = Some e' ∧ materialize open_ e' d' fields = Ok (ProjectData d fields).
Proof.
  intros Ha Hrun Hp Hwf Hoff He.
  assert (Hr : ∃ e', administered s' e' ∧ reads e' e).
  { clear Hp Hoff He. assert (∃ e', administered s e' ∧ reads e' e) as H0 by (exists e; split; [done|apply reads_refl]).
    clear Ha. induction Hrun as [s|s s1 s2 H1 _ IH]; [done|]. apply IH.
    destruct H0 as (e1 & Ha & Hr1). destruct (admin_step_keeps _ _ _ Ha H1) as (e2 & Ha2 & Hr2).
    exists e2. split; [done|]. by eapply reads_trans. }
  destruct Hr as (e' & (He' & _) & Hr). exists e'. split; [done|]. apply (sealed_opens e e' d d'); try done.
  by destruct Ha as (_ & ? & _).
Qed.

End sound.

(** ** A collection whose key was rotated *)

(** A cipher that keeps its promise: the text followed by the associated data. *)
Definition toy_seal (key nonce pt ad : bytes) : bytes := pt ++ ad.
Definition toy_open (key nonce ct ad : bytes) : option bytes :=
  let n := length ct - length ad in
  if decide (drop n ct = ad) then Some (take n ct) else None.

Lemma toy_open_seal key nonce pt ad :
  length key = KeySize → length nonce = NonceSize → toy_open key nonce (toy_seal key nonce pt ad) ad = Some pt.
Proof.
  intros _ _. unfold toy_open, toy_seal. rewrite length_app. replace (length pt + length ad - length ad) with (length pt) by lia.
  rewrite drop_app_length, take_app_length. by rewrite decide_True.
Qed.

Definition toy_nonces (f : string) : bytes := replicate NonceSize "n"%char.
Definition key_a : bytes := replicate KeySize "a"%char.
Definition key_b : bytes := replicate KeySize "b"%char.
Definition ring_a : Keyring := MkKeyring {[ "k1" := key_a ]} "k1".
Definition ring_b : Keyring := MkKeyring {[ "k1" := key_a; "k2" := key_b ]} "k2".

Definition enc_before : policyEncryptor :=
  newEncryptor "users" EncryptModeFields (MkPolicy EncryptModeFields ["s"] []) (keyring_provider ring_a) 1.
Definition enc_after : policyEncryptor :=
  newEncryptor "users" EncryptModeFields (MkPolicy EncryptModeFields ["n"; "t"] []) (keyring_provider ring_b) 2.

Definition with_enc (c : Collection) (en : encryptor) : Collection :=
  MkColl (dir c) (cfg c) (sealedSegs c) (active c) (index c) (idSeq c) (segSeq c) (fenced c) (cdecisions c)
    (clockFloor c) (explicitDefaultTTLSecs c) (watchers c) (watcherIDSeq c) (sidxMap c)
    (Some en) (broker c) (metaIDCounter c) (db c) (swapFailed c) (closeDone c).

Lemma ring_a_ok : keyring_ok ring_a.
Proof. apply map_Forall_singleton. split; reflexivity. Qed.

Lemma before_configured : configured enc_before.
Proof. split_and!; [reflexivity|by left|]. right. split; reflexivity. Qed.

Lemma after_reads : reads enc_after enc_before.
Proof.
  split; [reflexivity|reflexivity|]. intros id key Hk. cbn in *. apply lookup_singleton_Some in Hk as [<- <-]. reflexivity.
Qed.

Lemma sealed_record_readable_witness :
  ∃ d', encrypt toy_seal enc_before toy_nonces sample_data = Ok d' ∧
        materialize toy_open enc_after d' ["s"] = Ok (ProjectData sample_data ["s"]).
Proof.
  assert (H : ∃ d', encrypt toy_seal enc_before toy_nonces sample_data = Ok d').
  { eexists. vm_compute. reflexivity. }
  destruct H as (d' & Hd'). exists d'. split; [exact Hd'|].
  refine (sealed_record_readable toy_seal toy_open toy_open_seal toy_nonces (λ f, eq_refl) enc_before enc_after sample_data d' ["s"]
    after_reads (keyring_provider_ok _ ring_a_ok) before_configured sample_data_wf _ Hd').
  discriminate.
Defined.

Lemma encrypted_fields_hidden_witness :
  ∃ d1' d2', encrypt toy_seal enc_before toy_nonces sample_data = Ok d1' ∧
    encrypt toy_seal enc_before toy_nonces (<["s" := VStr "other"]> sample_data) = Ok d2' ∧ d1' !! "n" = d2' !! "n".
Proof.
  assert (H1 : ∃ d', encrypt toy_seal enc_before toy_nonces sample_data = Ok d').
  { eexists. vm_compute. reflexivity. }
  assert (H2 : ∃ d', encrypt toy_seal enc_before toy_nonces (<["s" := VStr "other"]> sample_data) = Ok d').
  { eexists. vm_compute. reflexivity. }
  destruct H1 as (d1' & H1), H2 as (d2' & H2). exists d1', d2'. split; [exact H1|]. split; [exact H2|].
  refine (encrypted_fields_hidden toy_seal toy_nonces enc_before _ _ d1' d2' before_configured H1 H2 _ "n").
  intros f Hf. rewrite lookup_insert_ne; [reflexivity|]. intros <-. discriminate Hf.
Defined.

Lemma policy_history_readable_witness :
  ∃ d' e', encrypt toy_seal enc_before toy_nonces sample_data = Ok d' ∧
    materialize toy_open e' d' ["s"] = Ok (ProjectData sample_data ["s"]) ∧ Mode (writePolicy e') = "".
Proof.
  set (m := MkEncMeta (writePolicy enc_before) EncryptModeFields 1 None [] "k1").
  set (s0 := MkAdmin "users" false (Some enc_before) (Some m) (Some (keyring_provider ring_a)) (Some m) true).
  set (s1 := (SetEncryptionPolicy toy_seal s0 None [] (MkIO true true true true)).1).
  assert (H : ∃ d', encrypt toy_seal enc_before toy_nonces sample_data = Ok d').
  { eexists. vm_compute. reflexivity. }
  destruct H as (d' & Hd').
  assert (Ha : administered s0 enc_before).
  { split; [reflexivity|]. split; [exact before_configured|]. split; [reflexivity|]. exists m. split; [reflexivity|].
    split; [reflexivity|]. right. split; reflexivity. }
  assert (Hs : rtc (admin_step toy_seal toy_open) s0 s1).
  { apply rtc_once. exact (step_policy _ _ s0 None [] (MkIO true true true true) s1 (Ok tt) eq_refl). }
  destruct (policy_history_readable toy_seal toy_open toy_open_seal toy_nonces (λ f, eq_refl) s0 enc_before s1 sample_data d' ["s"]
    Ha Hs (keyring_provider_ok _ ring_a_ok) sample_data_wf ltac:(discriminate) Hd') as (e' & He' & Hm).
  exists d', e'. split; [exact Hd'|]. split; [exact Hm|]. injection He' as <-. reflexivity.
Defined.

Lemma encryptor_meets_interface_witness :
  ∃ c, enc c = Some (as_encryptor toy_seal toy_open enc_before toy_nonces) ∧ enc_sound c.
Proof.
  exists (with_enc sample_coll (as_encryptor toy_seal toy_open enc_before toy_nonces)).
  split; [reflexivity|].
  refine (proj1 (proj2 (encryptor_meets_interface toy_seal toy_open toy_open_seal toy_nonces (λ f, eq_refl)
    (with_enc sample_coll (as_encryptor toy_seal toy_open enc_before toy_nonces)) enc_before
    eq_refl (keyring_provider_ok _ ring_a_ok) before_configured _ _ _))).
  - split; [apply Z.leb_le|apply Z.ltb_lt]; reflexivity.
  - intros id key H. vm_compute in H. injection H as <- _. reflexivity.
  - discriminate.
Defined.

(** ** A field that is lost *)

(** With sealing switched off in record mode, nothing reserves [secure_data]: a
    record with a field of that name is stored, and read back without it. *)
Lemma disabled_record_mode_loses_field :
  let e := newEncryptor "users" EncryptModeRecord (MkPolicy "" [] []) (keyring_provider ring_a) 2 in
  let d : vdata := {[ "a" := VBool true; secureDataField := VStr "mine" ]} in
  encrypt toy_seal e toy_nonces d = Ok d ∧ materialize toy_open e d [] = Ok {[ "a" := VBool true ]}.
Proof. split; vm_compute; reflexivity. Qed.

(** An empty record is stored as its blob; sealing it again once sealing is
    switched off gives an empty record in the clear, which [Store] cannot read
    back. *)
Lemma migrated_empty_record :
  let on := newEncryptor "users" EncryptModeRecord (MkPolicy EncryptModeRecord [] []) (keyring_provider ring_a) 1 in
  let off := newEncryptor "users" EncryptModeRecord (MkPolicy "" [] []) (keyring_provider ring_a) 2 in
  ∃ d', encrypt toy_seal on toy_nonces ∅ = Ok d' ∧ d' ≠ ∅ ∧
        reencrypt (as_encryptor toy_seal toy_open off toy_nonces) d' = Some ∅.
Proof.
  intros on off. assert (H : ∃ d', encrypt toy_seal on toy_nonces ∅ = Ok d' ∧ bool_decide (d' = ∅) = false ∧
        reencrypt (as_encryptor toy_seal toy_open off toy_nonces) d' = Some ∅).
  { eexists. split; [vm_compute; reflexivity|]. split; vm_compute; reflexivity. }
  destruct H as (d' & H1 & H2 & H3). exists d'. split; [done|]. split; [|done]. by apply bool_decide_eq_false in H2.
Qed.

(** The read mode never changes: a policy of the other mode is refused, also
    after sealing was switched off and every record was rewritten. *)
Lemma mode_switch_refused seal_ s e p nonce w :
  ad_fenced s = false → ad_enc s = Some e → validate p = true → Mode p ≠ readMode e →
  SetEncryptionPolicy seal_ s (Some p) nonce w = (s, Err AErrModeSwitch).
Proof. intros Hf He Hv Hm. unfold SetEncryptionPolicy. rewrite Hf, Hv, He. cbn [negb]. by rewrite decide_True. Qed.
