(* ===== verification/Heap.v ===== *)
(** * The bounded top-k buffer of [engine/scan.go] on Go's [container/heap]

    The heap operations are those of the Go library, over a list indexed as the
    slice is.  [topK] keeps the smallest [cap] elements pushed: its heap has the
    largest of them at the root. *)
From Stdlib Require Import Ascii Lia ZArith.
From stdpp Require Import prelude sorting.
From S2P Require Import Prelude.

Section heap.
Context {A : Type} (less : A → A → bool).

(** [topK.Less(i, j)], reversed so that the root is the largest; false on indices
    out of range, which the heap operations never use. *)
Definition heap_less (buf : list A) (i j : nat) : bool :=
  match buf !! j, buf !! i with
  | Some y, Some x => less y x
  | _, _ => false
  end.

Definition swap (buf : list A) (i j : nat) : list A :=
  match buf !! i, buf !! j with
  | Some x, Some y => <[i := y]> (<[j := x]> buf)
  | _, _ => buf
  end.

(** [up(h, j)]; an index halves at every step, so [j] steps are enough. *)
Fixpoint up_loop (fuel : nat) (buf : list A) (j : nat) : list A :=
  match fuel with
  | 0 => buf
  | S fuel' =>
      let i := (j - 1) / 2 in
      if (i =? j) || negb (heap_less buf j i) then buf
      else up_loop fuel' (swap buf i j) i
  end.

Definition up (buf : list A) (j : nat) : list A := up_loop (S j) buf j.

(** [down(h, i0, n)], the index reached with the buffer; an index more than
    doubles at every step, so [n] steps are enough. *)
Fixpoint down_loop (fuel : nat) (buf : list A) (i n : nat) : list A * nat :=
  match fuel with
  | 0 => (buf, i)
  | S fuel' =>
      let j1 := 2 * i + 1 in
      if n <=? j1 then (buf, i)
      else
        let j2 := j1 + 1 in
        let j := if (j2 <? n) && heap_less buf j2 j1 then j2 else j1 in
        if negb (heap_less buf j i) then (buf, i)
        else down_loop fuel' (swap buf i j) j n
  end.

Definition down (buf : list A) (i n : nat) : list A * bool :=
  let '(buf', k) := down_loop (S n) buf i n in (buf', i <? k).

Definition heap_Push (buf : list A) (x : A) : list A := up (buf ++ [x]) (length buf).

Definition heap_Fix (buf : list A) (i : nat) : list A :=
  let '(buf', moved) := down buf i (length buf) in
  if moved then buf' else up buf' i.

(** [topK.push] and [topK.sorted]. *)
Definition topK_push (cap : Z) (buf : list A) (r : A) : list A :=
  if (cap <=? 0)%Z then buf
  else if (Z.of_nat (length buf) <? cap)%Z then heap_Push buf r
  else match buf with
       | [] => buf
       | top :: _ => if less r top then heap_Fix (<[0 := r]> buf) 0 else buf
       end.

Definition topK_sorted (buf : list A) : list A := ssort less buf.

(** ** Rearrangements *)

Lemma swap_length buf i j : length (swap buf i j) = length buf.
Proof. unfold swap. destruct (buf !! i), (buf !! j); try done. by rewrite !length_insert. Qed.

Lemma swap_perm buf i j : swap buf i j ≡ₚ buf.
Proof.
  unfold swap. destruct (buf !! i) as [x|] eqn:Ei; [|done]. destruct (buf !! j) as [y|] eqn:Ej; [|done].
  by apply Permutation_insert_swap.
Qed.

Lemma swap_lookup buf i j x y k :
  buf !! i = Some x → buf !! j = Some y → i ≠ j →
  swap buf i j !! k = if decide (k = i) then Some y else if decide (k = j) then Some x else buf !! k.
Proof.
  intros Hi Hj Hne. unfold swap. rewrite Hi, Hj.
  destruct (decide (k = i)) as [->|Hki].
  - apply list_lookup_insert_eq. rewrite length_insert. by eapply lookup_lt_Some.
  - rewrite list_lookup_insert_ne by done. destruct (decide (k = j)) as [->|Hkj].
    + apply list_lookup_insert_eq. by eapply lookup_lt_Some.
    + by apply list_lookup_insert_ne.
Qed.

Lemma up_loop_perm fuel buf j : up_loop fuel buf j ≡ₚ buf.
Proof.
  revert buf j. induction fuel as [|fuel IH]; intros buf j; [done|]. cbn [up_loop].
  destruct (_ || _); [done|]. by rewrite IH, swap_perm.
Qed.

Lemma down_loop_perm fuel buf i n : (down_loop fuel buf i n).1 ≡ₚ buf.
Proof.
  revert buf i. induction fuel as [|fuel IH]; intros buf i; [done|]. cbn [down_loop]. cbv zeta.
  destruct (_ <=? _); [done|]. destruct (negb _); [done|]. by rewrite IH, swap_perm.
Qed.

Lemma heap_Push_perm buf x : heap_Push buf x ≡ₚ x :: buf.
Proof. unfold heap_Push, up. rewrite up_loop_perm. by rewrite Permutation_app_comm. Qed.

Lemma heap_Fix_perm buf i : heap_Fix buf i ≡ₚ buf.
Proof.
  unfold heap_Fix, down. pose proof (down_loop_perm (S (length buf)) buf i (length buf)) as H.
  destruct (down_loop _ _ _ _) as [buf' k]. cbn [fst] in H. destruct (i <? k); [done|].
  unfold up. by rewrite up_loop_perm.
Qed.

(** ** Order *)

(** [less] orders the elements that satisfy [P]. *)
Context (P : A → Prop).
Context (less_asym : ∀ x y, P x → P y → less x y = true → less y x = false).
Context (less_trans : ∀ x y z, P x → P y → P z → less y x = false → less z y = false → less z x = false).

Local Notation le x y := (less y x = false).

Definition parent (k : nat) : nat := (k - 1) / 2.

Lemma parent_lt k : 0 < k → parent k < k.
Proof. intros H. unfold parent. apply Nat.Div0.div_lt_upper_bound. lia. Qed.

Lemma parent_child k i : 0 < k → parent k = i → k = 2 * i + 1 ∨ k = 2 * i + 2.
Proof.
  intros Hk <-. unfold parent. pose proof (Nat.div_mod (k - 1) 2 ltac:(lia)) as H.
  pose proof (Nat.mod_upper_bound (k - 1) 2 ltac:(lia)). lia.
Qed.

Lemma parent_left i : parent (2 * i + 1) = i.
Proof. unfold parent. replace (2 * i + 1 - 1) with (i * 2) by lia. by rewrite Nat.div_mul by lia. Qed.

Lemma parent_right i : parent (2 * i + 1 + 1) = i.
Proof.
  unfold parent. replace (2 * i + 1 + 1 - 1) with (i * 2 + 1) by lia. rewrite Nat.div_add_l by lia.
  change (1 / 2) with 0. lia.
Qed.

(** The child [k] is not above its parent. *)
Definition in_order (buf : list A) (k : nat) : Prop :=
  ∀ x y, buf !! k = Some x → buf !! parent k = Some y → le x y.

Definition heap_ok (buf : list A) : Prop := ∀ k, 0 < k → in_order buf k.

(** A heap but for the node [j], whose children are not above its parent. *)
Definition heap_but_up (buf : list A) (j : nat) : Prop :=
  (∀ k, 0 < k → k ≠ j → in_order buf k) ∧
  (∀ k x y, 0 < k → 0 < j → parent k = j → buf !! k = Some x → buf !! parent j = Some y → le x y).

(** A heap but for the children of [i], which are not above the parent of [i]. *)
Definition heap_but_down (buf : list A) (i : nat) : Prop :=
  (∀ k, 0 < k → parent k ≠ i → in_order buf k) ∧
  (∀ k x y, 0 < k → 0 < i → parent k = i → buf !! k = Some x → buf !! parent i = Some y → le x y).

Lemma elem_P buf k x : Forall P buf → buf !! k = Some x → P x.
Proof. intros HP H. by eapply Forall_lookup. Qed.

Lemma swap_P buf i j : Forall P buf → Forall P (swap buf i j).
Proof. by rewrite swap_perm. Qed.

Lemma up_step buf j x y :
  Forall P buf → 0 < j → buf !! parent j = Some x → buf !! j = Some y → less x y = true →
  heap_but_up buf j → heap_but_up (swap buf (parent j) j) (parent j).
Proof.
  intros HP Hj Hi Hy Hlt [H1 H2]. pose proof (parent_lt j Hj) as Hpj. set (i := parent j) in *.
  assert (Hxy : le x y) by (apply less_asym; [by eapply elem_P..|done]).
  assert (Hs : ∀ k, swap buf i j !! k = if decide (k = i) then Some y else if decide (k = j) then Some x else buf !! k)
    by (intros k; apply swap_lookup; [done|done|lia]).
  split.
  - intros k Hk Hki a b Ha Hb. rewrite Hs in Ha, Hb. rewrite decide_False in Ha by done.
    pose proof (parent_lt k Hk) as Hpk.
    destruct (decide (k = j)) as [->|Hkj].
    + rewrite decide_True in Hb by done. by simplify_eq.
    + destruct (decide (parent k = i)) as [Hpi|Hpi].
      * simplify_eq. eapply (less_trans a x); [by eapply elem_P..| |done]. eapply (H1 k); [done|done|done|congruence].
      * destruct (decide (parent k = j)) as [Hpj'|Hpj']; [|by eapply (H1 k)].
        simplify_eq. by eapply (H2 k).
  - intros k a b Hk Hi0 Hpk Ha Hb. rewrite Hs in Ha, Hb. pose proof (parent_lt i Hi0) as Hpi. pose proof (parent_lt k Hk).
    rewrite decide_False in Ha by lia. rewrite !decide_False in Hb by lia.
    assert (Hxb : le x b) by (eapply (H1 i); [done|lia|done|done]).
    destruct (decide (k = j)) as [->|Hkj]; [by simplify_eq|].
    eapply (less_trans a x); [by eapply elem_P..| |done]. eapply (H1 k); [done|done|done|congruence].
Qed.

Lemma up_loop_ok fuel buf j :
  Forall P buf → j < fuel → j < length buf → heap_but_up buf j → heap_ok (up_loop fuel buf j).
Proof.
  revert buf j. induction fuel as [|fuel IH]; intros buf j HP Hf Hlen Hb; [lia|]. cbn [up_loop].
  change ((j - 1) / 2) with (parent j). destruct (Nat.eqb_spec (parent j) j) as [Heq|Hne]; cbn [orb].
  { assert (j = 0) as -> by (destruct j; [done|]; pose proof (parent_lt (S j)); lia).
    intros k Hk. apply Hb; lia. }
  assert (Hj : 0 < j) by (destruct j; [done|lia]). pose proof (parent_lt j Hj).
  destruct (lookup_lt_is_Some_2 buf j Hlen) as [y Hy].
  destruct (lookup_lt_is_Some_2 buf (parent j) ltac:(lia)) as [x Hx].
  unfold heap_less. rewrite Hx, Hy. destruct (less x y) eqn:E; cbn [negb].
  - apply IH; [by apply swap_P|lia|rewrite swap_length; lia|]. by eapply up_step.
  - intros k Hk. destruct (decide (k = j)) as [->|Hkj]; [|by apply Hb]. intros a b Ha Hb'. by simplify_eq.
Qed.

Lemma down_step buf i j n x y :
  Forall P buf → n = length buf → 0 < j → parent j = i → buf !! i = Some x → buf !! j = Some y → less x y = true →
  (∀ k z, 0 < k → parent k = i → buf !! k = Some z → le z y) →
  heap_but_down buf i → heap_but_down (swap buf i j) j.
Proof.
  intros HP Hn Hj Hpj Hi Hy Hlt Hmax [H1 H2]. pose proof (parent_lt j Hj) as Hij.
  assert (Hxy : le x y) by (apply less_asym; [by eapply elem_P..|done]).
  assert (Hs : ∀ k, swap buf i j !! k = if decide (k = i) then Some y else if decide (k = j) then Some x else buf !! k)
    by (intros k; apply swap_lookup; [done|done|lia]).
  split.
  - intros k Hk Hpk a b Ha Hb. rewrite Hs in Ha, Hb. pose proof (parent_lt k Hk) as Hpkk.
    rewrite (decide_False (P := parent k = j)) in Hb by done.
    destruct (decide (parent k = i)) as [Hpi|Hpi].
    + simplify_eq. rewrite decide_False in Ha by lia. destruct (decide (k = j)) as [->|Hkj]; [by simplify_eq|].
      by eapply (Hmax k).
    + destruct (decide (k = i)) as [->|Hki].
      * simplify_eq. eapply (H2 j); [done|lia|done|done|done].
      * rewrite (decide_False (P := k = j)) in Ha by (intros ->; done). by eapply (H1 k).
  - intros k a b Hk _ Hpk Ha Hb. rewrite Hs in Ha, Hb. pose proof (parent_lt k Hk).
    rewrite Hpj, decide_True in Hb by done. rewrite !decide_False in Ha by lia. simplify_eq.
    eapply (H1 k); [done|lia|done|congruence].
Qed.
Lemma down_loop_ok fuel buf i :
  Forall P buf → length buf ≤ i + fuel → i < length buf → heap_but_down buf i →
  heap_ok (down_loop fuel buf i (length buf)).1.
Proof.
  revert buf i. induction fuel as [|fuel IH]; intros buf i HP Hf Hlen Hb; [lia|].
  cbn [down_loop]. cbv zeta. destruct (Nat.leb_spec (length buf) (2 * i + 1)) as [Hleaf|Hch].
  { cbn [fst]. intros k Hk. destruct (decide (parent k = i)) as [Hpi|Hpi]; [|by apply Hb]. intros x y Hx _.
    apply lookup_lt_Some in Hx. destruct (parent_child k i Hk Hpi); lia. }
  destruct (lookup_lt_is_Some_2 buf i Hlen) as [x Hx].
  destruct (lookup_lt_is_Some_2 buf (2 * i + 1) Hch) as [y1 Hy1].
  set (j := if (2 * i + 1 + 1 <? length buf) && heap_less buf (2 * i + 1 + 1) (2 * i + 1) then 2 * i + 1 + 1 else 2 * i + 1).
  assert (Hj : (j = 2 * i + 1 ∨ j = 2 * i + 1 + 1) ∧ ∃ y, buf !! j = Some y ∧
    ∀ k z, 0 < k → parent k = i → buf !! k = Some z → le z y).
  { assert (Hrefl : ∀ a, P a → le a a).
    { intros a Ha. destruct (less a a) eqn:E; [|done]. by rewrite (less_asym a a) in E. }
    assert (Hc : ∀ k, 0 < k → parent k = i → k = 2 * i + 1 ∨ k = 2 * i + 1 + 1).
    { intros k Hk Hp. destruct (parent_child k i Hk Hp); [by left|right; lia]. }
    unfold j, heap_less. rewrite Hy1. destruct (Nat.ltb_spec (2 * i + 1 + 1) (length buf)) as [H2|H2]; cbn [andb].
    - destruct (lookup_lt_is_Some_2 buf (2 * i + 1 + 1) H2) as [y2 Hy2]. rewrite Hy2. destruct (less y1 y2) eqn:E.
      + split; [by right|]. exists y2. split; [done|]. intros k z Hk Hp Hz. destruct (Hc k Hk Hp) as [-> | ->]; simplify_eq.
        * apply less_asym; [by eapply elem_P..|done].
        * apply Hrefl. by eapply elem_P.
      + split; [by left|]. exists y1. split; [done|]. intros k z Hk Hp Hz. destruct (Hc k Hk Hp) as [-> | ->]; simplify_eq; [|done].
        apply Hrefl. by eapply elem_P.
    - split; [by left|]. exists y1. split; [done|]. intros k z Hk Hp Hz. destruct (Hc k Hk Hp) as [-> | ->]; simplify_eq.
      + apply Hrefl. by eapply elem_P.
      + apply lookup_lt_Some in Hz. lia. }
  clearbody j. destruct Hj as [Hj (y & Hy & Hmax)].
  assert (Hpj : parent j = i) by (destruct Hj as [-> | ->]; [apply parent_left|apply parent_right]).
  replace (heap_less buf j i) with (less x y) by (unfold heap_less; by rewrite Hx, Hy).
  destruct (less x y) eqn:E; cbn [negb].
  - rewrite <- (swap_length buf i j). apply IH; [by apply swap_P|rewrite swap_length; lia|rewrite swap_length; by eapply lookup_lt_Some|].
    eapply (down_step buf i j); try done. lia.
  - cbn [fst]. intros k Hk. destruct (decide (parent k = i)) as [Hpi|Hpi]; [|by apply Hb]. intros a b Ha Hb'. rewrite Hpi in Hb'. simplify_eq.
    eapply (less_trans a y); [by eapply elem_P..| |done]. by eapply (Hmax k).
Qed.

Lemma heap_Push_ok buf x : Forall P buf → P x → heap_ok buf → heap_ok (heap_Push buf x).
Proof.
  intros HP Hx Hh. unfold heap_Push, up. apply up_loop_ok.
  - apply Forall_app. split; [done|]. by apply Forall_singleton.
  - lia.
  - rewrite length_app. simpl. lia.
  - split.
    + intros k Hk Hne a b Ha Hb. pose proof (parent_lt k Hk).
      assert (Hkl : k < length buf) by (apply lookup_lt_Some in Ha; rewrite length_app in Ha; simpl in Ha; lia).
      rewrite lookup_app_l in Ha, Hb by lia. by eapply (Hh k).
    + intros k a b Hk Hj Hp Ha _. pose proof (parent_lt k Hk). apply lookup_lt_Some in Ha. rewrite length_app in Ha. simpl in Ha. lia.
Qed.

Lemma heap_Fix_ok buf x y rest :
  buf = x :: rest → Forall P buf → P y → heap_ok buf → heap_ok (heap_Fix (<[0 := y]> buf) 0).
Proof.
  intros -> HP Hy Hh. cbn [insert list_insert alter]. set (buf' := y :: rest). unfold heap_Fix, down.
  assert (HP' : Forall P buf') by (apply Forall_cons in HP as [_ HP]; by constructor).
  assert (Hd : heap_but_down buf' 0).
  { split; [|lia]. intros k Hk Hp a b Ha Hb. destruct k as [|k]; [lia|]. destruct (parent (S k)) as [|q] eqn:Eq; [done|].
    apply (Hh (S k)); [lia|done|]. by rewrite Eq. }
  pose proof (down_loop_ok (S (length buf')) buf' 0 HP' ltac:(lia) ltac:(cbn; lia) Hd) as Hok.
  destruct (down_loop _ _ _ _) as [b k]. cbn [fst] in Hok. destruct (0 <? k); [done|]. done.
Qed.

Lemma root_max buf top k x :
  Forall P buf → heap_ok buf → buf !! 0 = Some top → buf !! k = Some x → le x top.
Proof.
  intros HP Hh Ht. revert x. induction k as [k IH] using lt_wf_ind. intros x Hx.
  destruct (decide (k = 0)) as [->|Hk].
  { assert (x = top) as -> by congruence. destruct (less top top) eqn:E; [|done].
    assert (P top) by (by eapply elem_P). by rewrite (less_asym top top) in E. }
  pose proof (parent_lt k ltac:(lia)) as Hp.
  destruct (lookup_lt_is_Some_2 buf (parent k)) as [y Hy]; [apply lookup_lt_Some in Hx; lia|].
  eapply (less_trans x y top); [by eapply elem_P..| |].
  - by eapply (Hh k); [lia|..].
  - by eapply IH.
Qed.

(** ** The buffer keeps the smallest elements *)

(** [buf] holds [cap] of the elements pushed and none of the dropped ones [Y] is
    smaller than one it holds. *)
Record keeps_smallest (cap : nat) (buf pushed Y : list A) : Prop := {
  ks_perm : buf ++ Y ≡ₚ pushed;
  ks_small : ∀ x y, x ∈ buf → y ∈ Y → le x y;
  ks_len : length buf ≤ cap;
  ks_full : Y ≠ [] → length buf = cap;
  ks_heap : heap_ok buf
}.

Lemma topK_push_keeps cap buf pushed Y r :
  0 < cap → Forall P pushed → P r → keeps_smallest cap buf pushed Y →
  ∃ Y', keeps_smallest cap (topK_push (Z.of_nat cap) buf r) (pushed ++ [r]) Y'.
Proof.
  intros Hc HP Hr [Hp Hs Hl Hf Hh]. unfold topK_push. destruct (Z.leb_spec (Z.of_nat cap) 0); [lia|].
  assert (HPb : Forall P buf ∧ Forall P Y) by (apply Forall_app; by rewrite Hp). destruct HPb as [HPb HPY].
  destruct (Z.ltb_spec (Z.of_nat (length buf)) (Z.of_nat cap)) as [Hlt|Hge].
  - assert (Y = []) as -> by (destruct Y; [done|]; specialize (Hf ltac:(done)); lia).
    exists []. split; [| | |done|].
    + rewrite app_nil_r, heap_Push_perm in *. rewrite Hp. by rewrite Permutation_app_comm.
    + intros x y _ Hy. by apply not_elem_of_nil in Hy.
    + rewrite heap_Push_perm. cbn. lia.
    + by apply heap_Push_ok.
  - destruct buf as [|top rest]; [cbn in *; lia|].
    assert (Htop : ∀ x, x ∈ top :: rest → le x top).
    { intros x (k & Hk)%list_elem_of_lookup. by eapply (root_max (top :: rest)). }
    assert (Hrest : ∀ x, x ∈ rest → P x) by (apply Forall_cons in HPb as [_ HPb]; by apply Forall_forall).
    assert (HPt : P top) by (by apply Forall_cons in HPb as [? _]).
    destruct (less r top) eqn:E.
    + pose proof (heap_Fix_perm (<[0 := r]> (top :: rest)) 0) as Hfp. cbn [insert list_insert alter] in Hfp.
      assert (Hrt : le r top) by (by apply less_asym).
      exists (top :: Y). split.
      * cbn [insert list_insert alter]. rewrite Hfp. rewrite <- Hp. cbn [app].
        etrans; [symmetry; apply (Permutation_middle (r :: rest))|]. etrans; [|apply (Permutation_cons_append (top :: rest ++ Y))]. cbn. apply Permutation_swap.
      * cbn [insert list_insert alter]. intros x y Hx Hy. rewrite Hfp in Hx. apply elem_of_cons in Hx, Hy.
        destruct Hx as [->|Hx], Hy as [->|Hy]; [done| | |].
        -- eapply (less_trans r top y); [done|done| |done|by apply Hs; [left|]]. by eapply Forall_forall in Hy.
        -- apply Htop. by right.
        -- apply Hs; [by right|done].
      * rewrite Hfp. cbn in *. lia.
      * intros _. rewrite Hfp. cbn in *. lia.
      * eapply (heap_Fix_ok (top :: rest) top r rest); [done|done|done|done].
    + exists (r :: Y). split; [| |done|intros _; lia|done].
      * rewrite <- Permutation_middle, Hp. by rewrite Permutation_app_comm.
      * intros x y Hx [->|Hy]%elem_of_cons; [|by apply Hs].
        eapply (less_trans x top r); [|done|done|by apply Htop|done]. by eapply Forall_forall in Hx.
Qed.
Lemma keeps_smallest_fold cap l :
  0 < cap → Forall P l → ∃ Y, keeps_smallest cap (foldl (topK_push (Z.of_nat cap)) [] l) l Y.
Proof.
  intros Hc. induction l as [|r l IH] using rev_ind; intros HP.
  - exists []. split; [done| |cbn; lia|done|]; [intros x y Hx; by apply not_elem_of_nil in Hx|].
    intros k _ x y Hx. by destruct k.
  - apply Forall_app in HP as [HP Hr]. rewrite Forall_singleton in Hr. rewrite foldl_app. cbn [foldl].
    destruct (IH HP) as [Y HY]. by eapply topK_push_keeps.
Qed.

(** *** Sorting elements of [P] *)

Lemma ssort_sorted_on l : Forall P l → StronglySorted (not_after less) (ssort less l).
Proof.
  induction 1 as [|x l Hx HP IH]; [constructor|]. cbn [ssort].
  assert (HPs : Forall P (ssort less l)) by (by rewrite ssort_perm). revert IH HPs. generalize (ssort less l). clear l HP.
  induction 1 as [|y l Hl IH Hy]; intros HP; [repeat constructor|]. apply Forall_cons in HP as [HPy HP]. cbn [sinsert].
  destruct (less y x) eqn:E.
  - constructor; [by apply IH|]. rewrite sinsert_perm. constructor; [|done]. by apply less_asym.
  - constructor; [by constructor|]. constructor; [done|]. apply Forall_forall. intros z Hz.
    eapply (less_trans x y z); try done; [by eapply Forall_forall in HP|by eapply Forall_forall in Hy].
Qed.

(** Distinct elements are never tied. *)
Definition no_ties (l : list A) : Prop := ∀ x y, x ∈ l → y ∈ l → less x y = false → less y x = false → x = y.

Lemma ssort_unique_on l1 l2 : Forall P l1 → no_ties l1 → l1 ≡ₚ l2 → ssort less l1 = ssort less l2.
Proof.
  intros HP Ht Hp. apply (sorted_unique less); [|by apply ssort_sorted_on|apply ssort_sorted_on; by rewrite <- Hp|by rewrite !ssort_perm].
  intros x y Hx Hy. rewrite ssort_perm in Hx, Hy. by apply Ht.
Qed.

Lemma ssort_split l X Y :
  Forall P l → no_ties l → X ++ Y ≡ₚ l → (∀ x y, x ∈ X → y ∈ Y → le x y) → ssort less l = ssort less X ++ ssort less Y.
Proof.
  intros HP Ht Hp Hs. assert (HPX : Forall P X ∧ Forall P Y) by (apply Forall_app; by rewrite Hp). destruct HPX as [HPX HPY].
  apply (sorted_unique less).
  - intros x y Hx Hy. rewrite ssort_perm in Hx, Hy. by apply Ht.
  - by apply ssort_sorted_on.
  - apply StronglySorted_app. split_and!; [|by apply ssort_sorted_on..].
    intros x y Hx Hy. rewrite ssort_perm in Hx, Hy. by apply Hs.
  - by rewrite !ssort_perm, Hp.
Qed.

Lemma topK_take cap l :
  0 < cap → Forall P l → no_ties l →
  topK_sorted (foldl (topK_push (Z.of_nat cap)) [] l) = take cap (ssort less l).
Proof.
  intros Hc HP Ht. destruct (keeps_smallest_fold cap l Hc HP) as (Y & [Hp Hs Hl Hf _]).
  set (buf := foldl _ _ _) in *. unfold topK_sorted. rewrite (ssort_split l buf Y) by done.
  destruct (decide (Y = [])) as [->|HY].
  - rewrite app_nil_r, take_ge; [done|]. rewrite ssort_length. lia.
  - rewrite <- (Hf HY), <- (ssort_length less buf). by rewrite take_app_length.
Qed.
End heap.
