(* ===== verification/Scan.v ===== *)
(** * Queries: [engine/scan.go] and [engine/count.go]

    A scan captures a view of the collection (its segments, their ends, the index
    locations and the clock) and then visits the live records that match a
    filter, while writers go on appending.  The visitor is a function from a
    result and its own state to a new state and an optional error that stops the
    scan, as the callbacks of the Go code are.

    The context of a call and the age of its view are checked between reads:
    [checks] lists what these checks will answer, [None] for "go on". *)
From Stdlib Require Import Ascii Lia ZArith.
From stdpp Require Import prelude gmap strings sorting.
From S2P Require Import Prelude GoNum Json Value Filter GoTime Store Wire Codec Segment Index SecondaryIndex Collection Keyed.
From S2P Require Import Base64 Encryption Heap.

(** ** Data *)

Record ScanResult : Type := MkSR { sr_ID : Z; sr_Rev : Z; sr_Data : vdata; sr_Ts : time }.

Record SortField : Type := MkSF { sf_Field : string; sf_Desc : bool }.

Record ScanOptions : Type := MkSO {
  so_Filter : option Filter;
  so_Limit : Z;
  so_Offset : Z;
  so_OrderBy : string;
  so_Descending : bool;
  so_Sort : list SortField;
  so_PageToken : string;
  so_Fields : list string
}.

Record ScanStats : Type := MkStats {
  RowsScanned : nat;
  RowsReturned : nat;
  IndexUsed : bool;
  NextPageToken : string
}.

Definition no_stats : ScanStats := MkStats 0 0 false "".

Inductive scan_err : Type :=
| SErrStop                          (* errStopScan *)
| SErrViewEnd                       (* errViewEnd *)
| SErrContext                       (* the context ended *)
| SErrViewExpired                   (* ErrScanViewExpired *)
| SErrIntegrity (id found : Z)
| SErrSegment (e : seg_err)
| SErrFieldEncrypted (f : string)
| SErrInvalidToken
| SErrCrypto
| SErrCaller (n : Z)                (* an error of the caller's yield *)
| SErrPanic.                        (* a slice expression out of range *)

(** ** The visitor *)

(** What a scan carries along: its statistics, the state of the visitor and the
    answers of the checks to come. *)
Record Walk (S : Type) : Type := MkWalk {
  w_stats : ScanStats;
  w_acc : S;
  w_checks : list (option scan_err)
}.
Arguments MkWalk {S}. Arguments w_stats {S}. Arguments w_acc {S}. Arguments w_checks {S}.

Definition count_row {S} (w : Walk S) : Walk S :=
  let s := w_stats w in
  MkWalk (MkStats (RowsScanned s + 1) (RowsReturned s) (IndexUsed s) (NextPageToken s)) (w_acc w) (w_checks w).

Definition use_index {S} (w : Walk S) : Walk S :=
  let s := w_stats w in
  MkWalk (MkStats (RowsScanned s) (RowsReturned s) true (NextPageToken s)) (w_acc w) (w_checks w).

(** One check. *)
Definition tick {S} (w : Walk S) (k : Walk S → Walk S * option scan_err) : Walk S * option scan_err :=
  match w_checks w with
  | [] => k w
  | r :: rest =>
      let w' := MkWalk (w_stats w) (w_acc w) rest in
      match r with
      | Some e => (w', Some e)
      | None => k w'
      end
  end.

(** ** Views *)

Record scanView : Type := MkView {
  v_now : Z;
  v_segs : list (Segment * nat);        (* with the end captured for each *)
  v_locs : gmap Z IndexEntry
}.

(** [captureViewLocked] at the instant [n]; all locations, or those of [ids]. *)
Definition captureViewLocked (c : Collection) (ids : option (list Z)) (n : Z) : scanView :=
  MkView n (map (λ s, (s, size s)) (all_segments c))
    (match ids with
     | None => entries (index c)
     | Some l => list_to_map (omap (λ id, e ← entries (index c) !! id; Some (id, e)) l)
     end).

(** The segments of a view as they are when the scan reads them. *)
Definition grown (grow : Segment → Segment) (v : scanView) : scanView :=
  MkView (v_now v) (map (λ se, (grow se.1, se.2)) (v_segs v)) (v_locs v).

(** [view.byPath]: a later segment with the same path overrides. *)
Definition byPath (v : scanView) (p : string) : option Segment :=
  last (filter (λ s, path s = p) (map fst (v_segs v))).

(** ** Ordering *)

(** A missing field is the nil value. *)
Definition sort_key (r : ScanResult) (f : string) : value := default VNull (sr_Data r !! f).

Fixpoint sortLess (fields : list SortField) (a b : ScanResult) : bool :=
  match fields with
  | [] => (sr_ID a <? sr_ID b)%Z
  | sf :: fields' =>
      let c := Compare (sort_key a (sf_Field sf)) (sort_key b (sf_Field sf)) in
      let c := if sf_Desc sf then CompOpp c else c in
      match c with
      | Eq => sortLess fields' a b
      | Lt => true
      | Gt => false
      end
  end.

(** ** Page tokens *)

Record pageCursor : Type := MkCursor { cur_Keys : list value; cur_ID : Z }.

Definition cursor_json (k : pageCursor) : json :=
  JObj [(b_of_s "k", JArr (map value_to_json (cur_Keys k))); (b_of_s "i", num_u (cur_ID k))].

Definition encodeCursor (keys : list value) (id : Z) : string :=
  s_of_b (b64_encode (print (cursor_json (MkCursor keys id)))).

(** [json.Unmarshal] into the cursor: names match in any case, null leaves a
    number and empties a list, other members are ignored. *)
Definition dec_cursor_member (k : pageCursor) (kv : bytes * json) : option pageCursor :=
  if decide (map to_lower kv.1 = b_of_s "k") then
    match kv.2 with
    | JArr l => ks ← mapM value_of_json l; Some (MkCursor ks (cur_ID k))
    | JNull => Some (MkCursor [] (cur_ID k))
    | _ => None
    end
  else if decide (map to_lower kv.1 = b_of_s "i") then
    i ← dec_u64 (cur_ID k) kv.2; Some (MkCursor (cur_Keys k) i)
  else Some k.

Fixpoint dec_cursor_members (k : pageCursor) (l : list (bytes * json)) : option pageCursor :=
  match l with
  | [] => Some k
  | kv :: l' => k' ← dec_cursor_member k kv; dec_cursor_members k' l'
  end.

Definition decodeCursor (tok : string) : option pageCursor :=
  b ← b64_decode (b_of_s tok);
  j ← unmarshal b;
  match j with
  | JObj l => dec_cursor_members (MkCursor [] 0) l
  | JNull => Some (MkCursor [] 0)
  | _ => None
  end.

(** The synthetic row a cursor stands for. *)
Definition boundary (k : pageCursor) (fields : list SortField) : ScanResult :=
  MkSR (cur_ID k) 0 (foldl (λ m kv, <[kv.1 := kv.2]> m) ∅ (zip (map sf_Field fields) (cur_Keys k))) zero_time.

(** The rows strictly after the cursor; every row without one. *)
Definition cursorAfter (token : string) (fields : list SortField) : res scan_err (ScanResult → bool) :=
  if decide (token = "") then Ok (λ _, true)
  else
    match decodeCursor token with
    | None => Err SErrInvalidToken
    | Some k =>
        if decide (length (cur_Keys k) ≠ length fields) then Err SErrInvalidToken
        else Ok (sortLess fields (boundary k fields))
    end.

Section scan.
Context (regexp : bytes → bytes → option bool).

(** ** Visiting *)

Section visit.
Context {S : Type} (visit : ScanResult → S → S * option scan_err).

Definition visit_result (r : ScanResult) (w : Walk S) : Walk S * option scan_err :=
  let '(a, e) := visit r (w_acc w) in (MkWalk (w_stats w) a (w_checks w), e).

(** A live record: counted, and handed to the visitor if it matches. *)
Definition examine (f : Filter) (id : Z) (loc : IndexEntry) (e : Entry) (w : Walk S) : Walk S * option scan_err :=
  let data := default ∅ (Data e) in
  let w := count_row w in
  if Match regexp f data then visit_result (MkSR id (ie_Rev loc) data (Ts e)) w else (w, None).

(** The callback of [streamLive] on the entry [e] at [off] of the segment [p]. *)
Definition stream_entry (f : Filter) (v : scanView) (p : string) (end_ : nat) (off : nat) (e : Entry) (w : Walk S)
    : Walk S * option scan_err :=
  if end_ <=? off then (w, Some SErrViewEnd)
  else
    tick w (λ w, tick w (λ w,
      match v_locs v !! ID e with
      | None => (w, None)
      | Some loc =>
          if decide (SegmentPath loc ≠ p ∨ Offset loc ≠ off) then
            match byPath v (SegmentPath loc) with
            | None => (w, Some (SErrIntegrity (ID e) 0))
            | Some target =>
                match ReadAt target (Offset loc) with
                | Err _ => (w, Some (SErrIntegrity (ID e) 0))
                | Ok te => if (ID te =? ID e)%Z then (w, None) else (w, Some (SErrIntegrity (ID e) (ID te)))
                end
            end
          else if decide (Op e = OpDelete) then (w, None)
          else if expired (ie_ExpiresAt loc) (v_now v) then (w, None)
          else examine f (ID e) loc e w
      end)).

Fixpoint stream_entries (f : Filter) (v : scanView) (p : string) (end_ : nat) (l : list (nat * Entry)) (w : Walk S)
    : Walk S * option scan_err :=
  match l with
  | [] => (w, None)
  | (off, e) :: l' =>
      let '(w', r) := stream_entry f v p end_ off e w in
      match r with
      | Some err => (w', Some err)
      | None => stream_entries f v p end_ l' w'
      end
  end.

(** One segment: the entries up to the first error of the callback, then the
    error of the scan itself; the end of the view ends the segment only. *)
Definition stream_segment (f : Filter) (v : scanView) (s : Segment) (end_ : nat) (w : Walk S)
    : Walk S * option scan_err :=
  let '(l, serr) := ScanFrom s in
  let '(w', r) := stream_entries f v (path s) end_ l w in
  match r with
  | Some SErrViewEnd => (w', None)
  | Some err => (w', Some err)
  | None => match serr with Some e => (w', Some (SErrSegment e)) | None => (w', None) end
  end.

Fixpoint streamLive_loop (f : Filter) (v : scanView) (segs : list (Segment * nat)) (w : Walk S)
    : Walk S * option scan_err :=
  match segs with
  | [] => (w, None)
  | (s, end_) :: segs' =>
      tick w (λ w,
        let '(w', r) := stream_segment f v s end_ w in
        match r with
        | Some err => (w', Some err)
        | None => streamLive_loop f v segs' w'
        end)
  end.

Definition streamLive (f : Filter) (v : scanView) (w : Walk S) : Walk S * option scan_err :=
  streamLive_loop f v (v_segs v) w.

(** A candidate of an index; a location that cannot be read is an error. *)
Definition visit_candidate (f : Filter) (v : scanView) (id : Z) (w : Walk S) : Walk S * option scan_err :=
  match v_locs v !! id with
  | None => (w, None)
  | Some loc =>
      if expired (ie_ExpiresAt loc) (v_now v) then (w, None)
      else match readLocated id (Some loc) (byPath v (SegmentPath loc)) (v_now v) with
           | Err (ErrIntegrity i found) => (w, Some (SErrIntegrity i found))
           | Err _ => (w, Some (SErrIntegrity id 0))
           | Ok e => examine f id loc e w
           end
  end.

Fixpoint visit_loop (f : Filter) (v : scanView) (ids : list Z) (w : Walk S) : Walk S * option scan_err :=
  match ids with
  | [] => (w, None)
  | id :: ids' =>
      tick w (λ w, tick w (λ w,
        let '(w', r) := visit_candidate f v id w in
        match r with
        | Some err => (w', Some err)
        | None => visit_loop f v ids' w'
        end))
  end.

Definition visitCandidates (f : Filter) (v : scanView) (ids : list Z) (w : Walk S) : Walk S * option scan_err :=
  visit_loop f v (ssort Z.ltb ids) w.

(** [indexCandidates]: the ids an index names for a predicate on its field. *)
Definition indexCandidates (c : Collection) (f : Filter) : option (list Z) :=
  match f with
  | FieldFilter field op val =>
      match op with
      | OpEq => indexLookupRaw c field (toIndexKey (decode_cmp val))
      | OpGt | OpGte | OpLt | OpLte => indexRangeLookup c field op (decode_cmp val)
      | _ => None
      end
  | _ => None
  end.

(** The first encrypted field a filter mentions. *)
Fixpoint encryptedFilterField (en : encryptor) (f : Filter) : option string :=
  match f with
  | FieldFilter field _ _ => if enc_isEncryptedField en field then Some field else None
  | AndFilter l | OrFilter l =>
      (fix go l := match l with
                   | [] => None
                   | sub :: l' => match encryptedFilterField en sub with Some b => Some b | None => go l' end
                   end) l
  | MatchAll => None
  end.

(** [forEachMatch].  The slot for a view is waited for under the context; the
    segments grow by [grow] between the capture and the reads. *)
Definition forEachMatch (grow : Segment → Segment) (f : Filter) (w : Walk S) : M (Walk S * option scan_err) :=
  c <- get_coll ;;
  match match enc c with Some en => encryptedFilterField en f | None => None end with
  | Some bad => ret (w, Some (SErrFieldEncrypted bad))
  | None =>
      match w_checks w with
      | Some e :: rest => ret (MkWalk (w_stats w) (w_acc w) rest, Some e)
      | _ =>
          let w := MkWalk (w_stats w) (w_acc w) (tail (w_checks w)) in
          n <- now ;;
          c <- get_coll ;;
          match indexCandidates c f with
          | Some ids => ret (visitCandidates f (grown grow (captureViewLocked c (Some ids) n)) ids (use_index w))
          | None => ret (streamLive f (grown grow (captureViewLocked c None n)) w)
          end
      end
  end.

End visit.

(** ** Scans *)

(** [finalizeRecord]: decryption and projection. *)
Definition finalizeRecord (c : Collection) (stored : vdata) (fields : list string) : option vdata :=
  match enc c with
  | None => Some (ProjectData stored fields)
  | Some en => enc_materialize en stored fields
  end.

Section stream.
Context {S : Type} (yield : ScanResult → S → S * option scan_err).

(** The caller's yield behind decryption, projection and the row count. *)
Definition counting (c : Collection) (fields : list string) (r : ScanResult) (acc : S * nat) : (S * nat) * option scan_err :=
  match finalizeRecord c (sr_Data r) fields with
  | None => (acc, Some SErrCrypto)
  | Some out =>
      let '(a, e) := yield (MkSR (sr_ID r) (sr_Rev r) out (sr_Ts r)) acc.1 in
      match e with
      | Some err => ((a, acc.2), Some err)
      | None => ((a, acc.2 + 1), None)
      end
  end.

(** The visitor of [scanUnordered]: skipped, emitted, and the caller's state. *)
Definition unordered_visit (c : Collection) (opts : ScanOptions) (r : ScanResult) (acc : Z * Z * (S * nat))
    : (Z * Z * (S * nat)) * option scan_err :=
  let '(skipped, emitted, a) := acc in
  if (skipped <? so_Offset opts)%Z then ((skipped + 1, emitted, a)%Z, None)
  else
    let '(a', e) := counting c (so_Fields opts) r a in
    match e with
    | Some err => ((skipped, emitted, a'), Some err)
    | None =>
        ((skipped, emitted + 1, a')%Z,
         if (0 <? so_Limit opts)%Z && (so_Limit opts <=? emitted + 1)%Z then Some SErrStop else None)
    end.

Definition set_returned (s : ScanStats) (n : nat) (tok : string) : ScanStats :=
  MkStats (RowsScanned s) n (IndexUsed s) tok.

Definition scanUnordered (grow : Segment → Segment) (f : Filter) (opts : ScanOptions) (a : S)
    (checks : list (option scan_err)) : M (ScanStats * S * option scan_err) :=
  c <- get_coll ;;
  let! (w, err) := forEachMatch (unordered_visit c opts) grow f (MkWalk no_stats (0%Z, 0%Z, (a, 0)) checks) in
  let '(_, _, (a', n)) := w_acc w in
  ret (set_returned (w_stats w) n "", a', match err with Some SErrStop => None | e => e end).

(** The rows of a page handed to the caller. *)
Fixpoint emit_page (c : Collection) (fields : list string) (page : list ScanResult) (acc : S * nat)
    : (S * nat) * option scan_err :=
  match page with
  | [] => (acc, None)
  | r :: page' =>
      let '(acc', e) := counting c fields r acc in
      match e with
      | Some err => (acc', Some err)
      | None => emit_page c fields page' acc'
      end
  end.

(** [page[Offset:]], then the first [Limit] rows. *)
Definition slice_page (opts : ScanOptions) (page : list ScanResult) : option (list ScanResult) :=
  if (so_Offset opts <? Z.of_nat (length page))%Z then
    if (so_Offset opts <? 0)%Z then None
    else
      let page := drop (Z.to_nat (so_Offset opts)) page in
      Some (if (0 <? so_Limit opts)%Z && (so_Limit opts <? Z.of_nat (length page))%Z
            then take (Z.to_nat (so_Limit opts)) page else page)
  else Some [].

(** The token of the page: set when rows are left beyond it. *)
Definition next_token (opts : ScanOptions) (fields : list SortField) (page : list ScanResult) (matched : nat) : string :=
  match last page with
  | Some r =>
      if (0 <? so_Limit opts)%Z && (i64 (so_Offset opts + so_Limit opts) <? Z.of_nat matched)%Z
      then encodeCursor (map (λ sf, sort_key r (sf_Field sf)) fields) (sr_ID r) else ""
  | None => ""
  end.

(** The collectors of [scanOrdered]: the rows seen after the cursor and the buffer. *)
Definition collect (less : ScanResult → ScanResult → bool) (cap : option Z) (after : ScanResult → bool)
    (r : ScanResult) (acc : nat * list ScanResult) : (nat * list ScanResult) * option scan_err :=
  if negb (after r) then (acc, None)
  else ((acc.1 + 1, match cap with
                    | Some k => topK_push less k acc.2 r
                    | None => acc.2 ++ [r]
                    end), None).

Definition scanOrdered (grow : Segment → Segment) (f : Filter) (opts : ScanOptions) (fields : list SortField) (a : S)
    (checks : list (option scan_err)) : M (ScanStats * S * option scan_err) :=
  let less := sortLess fields in
  match cursorAfter (so_PageToken opts) fields with
  | Err e => ret (no_stats, a, Some e)
  | Ok after =>
      let cap := if (0 <? so_Limit opts)%Z then Some (i64 (so_Offset opts + so_Limit opts)) else None in
      let! (w, err) := forEachMatch (collect less cap after) grow f (MkWalk no_stats (0, []) checks) in
      match err with
      | Some e => ret (w_stats w, a, Some e)
      | None =>
          let '(matched, buf) := w_acc w in
          match slice_page opts (ssort less buf) with
          | None => ret (w_stats w, a, Some SErrPanic)
          | Some page =>
              c <- get_coll ;;
              let '((a', n), e) := emit_page c (so_Fields opts) page (a, 0) in
              ret (set_returned (w_stats w) n
                     (match e with None => next_token opts fields page matched | Some _ => "" end), a', e)
          end
      end
  end.

(** The fields a scan sorts by: [Sort], or the older [OrderBy]. *)
Definition sort_fields (opts : ScanOptions) : list SortField :=
  match so_Sort opts with
  | [] => if decide (so_OrderBy opts = "") then [] else [MkSF (so_OrderBy opts) (so_Descending opts)]
  | l => l
  end.

(** The first encrypted field of the ordering ([checkField]). *)
Definition encrypted_sort (en : encryptor) (opts : ScanOptions) : option string :=
  head (filter (λ f, negb (bool_decide (f = "")) && enc_isEncryptedField en f = true)
          (map sf_Field (so_Sort opts) ++ [so_OrderBy opts])).

Definition ScanStream (grow : Segment → Segment) (opts : ScanOptions) (a : S) (checks : list (option scan_err))
    : M (ScanStats * S * option scan_err) :=
  checkFenced ;;;
  c <- get_coll ;;
  let f := default MatchAll (so_Filter opts) in
  match match enc c with Some en => encrypted_sort en opts | None => None end with
  | Some bad => ret (no_stats, a, Some (SErrFieldEncrypted bad))
  | None =>
      let fields := sort_fields opts in
      if bool_decide (fields = []) && bool_decide (so_PageToken opts = "")
      then scanUnordered grow f opts a checks
      else scanOrdered grow f opts fields a checks
  end.

End stream.

(** [Scan]: all matches in natural order. *)
Definition all_rows (f : Filter) : ScanOptions := MkSO (Some f) 0 0 "" false [] "" [].

Definition collect_rows (r : ScanResult) (acc : list ScanResult) : list ScanResult * option scan_err := (acc ++ [r], None).

Definition Scan (grow : Segment → Segment) (f : Filter) (checks : list (option scan_err))
    : M (list ScanResult * option scan_err) :=
  let! (_, rows, e) := ScanStream collect_rows grow (all_rows f) [] checks in
  ret (match e with None => rows | Some _ => [] end, e).

(** ** Counting *)

Definition count_visit (_ : ScanResult) (n : nat) : nat * option scan_err := (n + 1, None).

Definition Count (grow : Segment → Segment) (f : Filter) (checks : list (option scan_err))
    : M (nat * option scan_err) :=
  checkFenced ;;;
  let general :=
    let! (w, e) := forEachMatch count_visit grow f (MkWalk no_stats 0 checks) in
    ret (match e with None => w_acc w | Some _ => 0 end, e) in
  match f with
  | MatchAll =>
      n <- now ;;
      c <- get_coll ;;
      ret (liveCount (index c) n, None)
  | FieldFilter field OpEq val =>
      hit <- indexLookup field (toIndexKey (decode_cmp val)) ;;
      match hit with
      | Some ids => ret (length ids, None)
      | None => general
      end
  | _ => general
  end.

Definition Exists (key : string) : M bool :=
  checkFenced ;;;
  keyConflict ;;;
  hit <- indexLookup KeyField key ;;
  ret (match hit with Some (_ :: _) => true | _ => false end).

End scan.
