(* ===== verification/ScanThm.v ===== *)
(** * Scans return exactly the live records that match *)
From Stdlib Require Import Ascii Lia ZArith.
From stdpp Require Import prelude gmap strings sorting.
From S2P Require Import Prelude GoNum Json Value Filter GoTime Store Wire Codec Segment Index SecondaryIndex Collection Keyed.
From S2P Require Import CollInv CollThm Unique CompactThm Base64 Encryption Heap Scan.

(** ** What a scan should visit *)

Definition result_of (id : Z) (r : Entry * Z) : ScanResult :=
  MkSR id r.2 (default ∅ (Data r.1)) (Ts r.1).

(** Results handed to a visitor one by one, until it stops. *)
Fixpoint feed {S} (visit : ScanResult → S → S * option scan_err) (l : list ScanResult) (a : S) : S * option scan_err :=
  match l with
  | [] => (a, None)
  | r :: l' =>
      let '(a', e) := visit r a in
      match e with
      | Some err => (a', Some err)
      | None => feed visit l' a'
      end
  end.

Lemma feed_app {S} (visit : ScanResult → S → S * option scan_err) l1 l2 a :
  feed visit (l1 ++ l2) a =
  let '(a', e) := feed visit l1 a in match e with Some err => (a', Some err) | None => feed visit l2 a' end.
Proof.
  revert a. induction l1 as [|r l1 IH]; intros a; [done|]. cbn [app feed].
  destruct (visit r a) as [a' [err|]]; [done|]. apply IH.
Qed.

Section scan.
Context (regexp : bytes → bytes → option bool).

(** The records of the log [L] that match [f] and are alive at [n]. *)
Definition matching (f : Filter) (n : Z) (kv : Z * (Entry * Z)) : Prop :=
  expired (ExpiresAt kv.2.1) n = false ∧ Match regexp f (default ∅ (Data kv.2.1)) = true.
#[global] Instance matching_dec f n kv : Decision (matching f n kv).
Proof. unfold matching. apply _. Defined.

Definition matches (ds : option decisions) (L : list line) (f : Filter) (n : Z) : list ScanResult :=
  map (λ kv, result_of kv.1 kv.2) (filter (matching f n) (map_to_list (records ds L))).

Lemma elem_of_matches ds L f n r :
  r ∈ matches ds L f n ↔ ∃ id e, records ds L !! id = Some e ∧ matching f n (id, e) ∧ r = result_of id e.
Proof.
  unfold matches. rewrite list_elem_of_fmap. split.
  - intros ([id e] & -> & [Hm Hin%elem_of_map_to_list]%list_elem_of_filter). by exists id, e.
  - intros (id & e & He & Hm & ->). exists (id, e). split; [done|]. apply list_elem_of_filter.
    split; [done|]. by apply elem_of_map_to_list.
Qed.

Lemma matches_ids ds L f n : NoDup (sr_ID <$> matches ds L f n).
Proof.
  unfold matches. rewrite <- list_fmap_compose.
  assert (Hext : ∀ l : list (Z * (Entry * Z)), (sr_ID ∘ (λ kv, result_of kv.1 kv.2)) <$> l = l.*1) by done.
  rewrite Hext. eapply sublist_NoDup; [apply (NoDup_fst_map_to_list (records ds L))|].
  apply fmap_sublist, sublist_filter.
Qed.

(** ** Calm walks: no check stops the scan *)

Section visit.
Context {S : Type} (visit : ScanResult → S → S * option scan_err).
Context (visit_end : ∀ r a, (visit r a).2 ≠ Some SErrViewEnd).

Definition calm (w : Walk S) : Prop := Forall (λ r, r = None) (w_checks w).

Lemma tick_calm w k (Q : Walk S * option scan_err → Prop) :
  calm w → (∀ w', calm w' → w_acc w' = w_acc w → Q (k w')) → Q (tick w k).
Proof.
  unfold calm, tick. intros Hc Hk. destruct (w_checks w) as [|r rest] eqn:E; [apply Hk; [by rewrite E|done]|].
  apply Forall_cons in Hc as [-> Hc]. by apply Hk.
Qed.

(** The outcome of a step from [w] is that of feeding [l]. *)
Definition fed (l : list ScanResult) (w : Walk S) (o : Walk S * option scan_err) : Prop :=
  calm o.1 ∧ feed visit l (w_acc w) = (w_acc o.1, o.2).

Lemma feed_end l a : (feed visit l a).2 ≠ Some SErrViewEnd.
Proof.
  revert a. induction l as [|r l IH]; intros a; [done|]. cbn [feed]. pose proof (visit_end r a) as H.
  destruct (visit r a) as [a' [err|]]; [done|]. apply IH.
Qed.

Lemma fed_seq l1 l2 w o k (Q : Walk S * option scan_err → Prop) :
  fed l1 w o →
  (∀ w', calm w' → feed visit l1 (w_acc w) = (w_acc w', None) → fed l2 w' (k w')) →
  fed (l1 ++ l2) w (let '(w', r) := o in match r with Some err => (w', Some err) | None => k w' end).
Proof.
  destruct o as [w' r]. intros [Hc Hf] Hk. cbn [fst snd] in *. destruct r as [err|].
  - split; [done|]. rewrite feed_app, Hf. done.
  - destruct (Hk w' Hc Hf) as [Hc2 Hf2]. split; [done|]. by rewrite feed_app, Hf, Hf2.
Qed.

Lemma examine_fed f id loc e w :
  calm w →
  fed (if Match regexp f (default ∅ (Data e)) then [MkSR id (ie_Rev loc) (default ∅ (Data e)) (Ts e)] else []) w
      (examine regexp visit f id loc e w).
Proof.
  intros Hc. unfold examine. destruct (Match _ _ _); [|by split].
  unfold visit_result, fed. cbn [w_acc count_row w_stats w_checks feed].
  destruct (visit _ (w_acc w)) as [a [err|]]; by split.
Qed.

(** ** The full scan *)

(** The result an entry at [off] of [p] stands for, if the view points at it. *)
Definition live_result (f : Filter) (v : scanView) (p : string) (x : nat * Entry) : option ScanResult :=
  match v_locs v !! ID x.2 with
  | None => None
  | Some loc =>
      if decide (SegmentPath loc = p ∧ Offset loc = x.1 ∧ Op x.2 ≠ OpDelete ∧
                 expired (ie_ExpiresAt loc) (v_now v) = false ∧ Match regexp f (default ∅ (Data x.2)) = true)
      then Some (MkSR (ID x.2) (ie_Rev loc) (default ∅ (Data x.2)) (Ts x.2)) else None
  end.

(** Every location of the view leads to an entry of its id. *)
Definition sound_view (v : scanView) : Prop :=
  ∀ id loc, v_locs v !! id = Some loc →
    ∃ s e, byPath v (SegmentPath loc) = Some s ∧ ReadAt s (Offset loc) = Ok e ∧ ID e = id.

Lemma stream_entry_fed f v p end_ off e w :
  sound_view v → calm w → off < end_ →
  fed (option_list (live_result f v p (off, e))) w (stream_entry regexp visit f v p end_ off e w).
Proof.
  intros Hv Hc Hlt. unfold stream_entry. destruct (Nat.leb_spec end_ off); [lia|].
  apply tick_calm; [done|]. intros w1 Hc1 E1. apply tick_calm; [done|]. intros w2 Hc2 E2. rewrite E1 in E2.
  unfold fed. rewrite <- E2. unfold live_result. cbn [fst snd]. destruct (v_locs v !! ID e) as [loc|] eqn:El; [|done].
  case_decide as Hpos.
  - rewrite decide_False by naive_solver. destruct (Hv _ _ El) as (s & te & -> & -> & ->). by rewrite Z.eqb_refl.
  - assert (SegmentPath loc = p ∧ Offset loc = off) as [Hp Ho].
    { destruct (decide (SegmentPath loc = p)), (decide (Offset loc = off)); naive_solver. }
    case_decide as Hd; [by rewrite decide_False by naive_solver|].
    destruct (expired _ _) eqn:Ex; [by rewrite decide_False by naive_solver|].
    pose proof (examine_fed f (ID e) loc e w2 Hc2) as Hf. unfold fed in Hf.
    destruct (Match regexp f (default ∅ (Data e))) eqn:Em.
    + rewrite decide_True by done. exact Hf.
    + rewrite decide_False by naive_solver. exact Hf.
Qed.

Lemma stream_entries_fed f v p end_ l w :
  sound_view v → calm w → Forall (λ x, x.1 < end_) l →
  fed (omap (live_result f v p) l) w (stream_entries regexp visit f v p end_ l w).
Proof.
  intros Hv. revert w. induction l as [|[off e] l IH]; intros w Hc Hl; [by split|].
  apply Forall_cons in Hl as [Hlt Hl]. cbn [stream_entries].
  assert (Hom : omap (live_result f v p) ((off, e) :: l) =
    option_list (live_result f v p (off, e)) ++ omap (live_result f v p) l).
  { cbn [omap list_omap]. by destruct (live_result f v p (off, e)). }
  rewrite Hom. apply (fed_seq _ _ _ _ _ (λ _, True)); [by apply stream_entry_fed|].
  intros w' Hc' _. by apply IH.
Qed.

Lemma stream_entries_end f v p end_ l x more w :
  sound_view v → calm w → Forall (λ x, x.1 < end_) l → end_ ≤ x.1 →
  let o := stream_entries regexp visit f v p end_ (l ++ x :: more) w in
  let o' := stream_entries regexp visit f v p end_ l w in
  o.1 = o'.1 ∧ o.2 = match o'.2 with Some e => Some e | None => Some SErrViewEnd end.
Proof.
  intros Hv. revert w. induction l as [|[off e] l IH]; intros w Hc Hl Hx.
  - destruct x as [off e]. cbn [app stream_entries]. unfold stream_entry.
    replace (end_ <=? off) with true by (symmetry; by apply Nat.leb_le). done.
  - apply Forall_cons in Hl as [Hlt Hl]. cbn [app stream_entries].
    pose proof (stream_entry_fed f v p end_ off e w Hv Hc Hlt) as [Hc1 _].
    destruct (stream_entry _ _ _ _ _ _ _ _ _) as [w' [err|]]; [done|]. by apply IH.
Qed.

(** A segment after writers appended whole lines to it. *)
Definition grows (s s' : Segment) : Prop :=
  path s' = path s ∧ ∃ rest more, disk s' = disk s ++ rest ∧ holds rest (length (disk s)) more.

Lemma grows_refl s : grows s s.
Proof. split; [done|]. exists [], []. rewrite app_nil_r. split; [done|constructor]. Qed.

Definition plain_of (x : located) : nat * Entry := (x.1, x.2.1).

Lemma grown_scan s s' es :
  seg_inv s es → poisoned s = false → grows s s' →
  ∃ more, ScanFrom s' = (map plain_of (es ++ more), None) ∧
          Forall (λ x, x.1 < size s) (map plain_of es) ∧ Forall (λ x, size s ≤ x.1) (map plain_of more).
Proof.
  intros [Hle Hh Hcl] Hp (_ & rest & more & Hd & Hm). exists more. specialize (Hcl Hp).
  rewrite Hcl, take_ge in Hh by done. pose proof (holds_app _ _ _ _ _ Hh Hm) as Happ. split_and!.
  - unfold ScanFrom, ScanStampedFromOffset. rewrite drop_0, Hd. rewrite (holds_scan _ _ _ _ Happ) by lia. done.
  - apply Forall_fmap. eapply Forall_impl; [apply (holds_offsets _ _ _ Hh)|]. intros x Hx. cbn in *. lia.
  - apply Forall_fmap. eapply Forall_impl; [apply (holds_offsets _ _ _ Hm)|]. intros x Hx. cbn in *. lia.
Qed.

Lemma stream_segment_fed f v s s' es w :
  seg_inv s es → poisoned s = false → grows s s' → sound_view v → calm w →
  fed (omap (live_result f v (path s)) (map plain_of es)) w (stream_segment regexp visit f v s' (size s) w).
Proof.
  intros Hi Hp Hg Hv Hc. destruct (grown_scan s s' es Hi Hp Hg) as (more & Hs & Hlt & Hge).
  unfold stream_segment. rewrite Hs, (proj1 Hg), map_app.
  pose proof (stream_entries_fed f v (path s) (size s) (map plain_of es) w Hv Hc Hlt) as [Hc1 Hf1].
  pose proof (feed_end (omap (live_result f v (path s)) (map plain_of es)) (w_acc w)) as Hne. rewrite Hf1 in Hne. cbn [snd] in Hne.
  destruct more as [|x more]; cbn [map].
  - rewrite app_nil_r. destruct (stream_entries _ _ _ _ _ _ _ _) as [w' [[]|]]; cbn [fst snd] in *; try done; by split.
  - cbn [map] in Hge. apply Forall_cons in Hge as [Hx _].
    pose proof (stream_entries_end f v (path s) (size s) (map plain_of es) (plain_of x) (map plain_of more) w Hv Hc Hlt Hx) as [H1 H2].
    destruct (stream_entries _ _ _ _ _ _ (map plain_of es ++ _) _) as [wa ra], (stream_entries _ _ _ _ _ _ (map plain_of es) _) as [wb rb].
    cbn [fst snd] in *. subst wa ra. destruct rb as [[]|]; try done; by split.
Qed.

Definition log_result (f : Filter) (v : scanView) (x : log_entry) : option ScanResult :=
  live_result f v x.1 (plain_of x.2).

Lemma log_result_seg f v p es : omap (log_result f v) (seg_log p es) = omap (live_result f v p) (map plain_of es).
Proof.
  induction es as [|x es IH]; [done|]. cbn. unfold log_result at 1. cbn [fst snd].
  destruct (live_result f v p (plain_of x)); by rewrite <- IH.
Qed.

Lemma streamLive_fed grow f v segs es w :
  holds_all segs es → (∀ s, s ∈ segs → grows s (grow s)) → sound_view v → calm w →
  fed (omap (log_result f v) (full_log segs es)) w
      (streamLive_loop regexp visit f v (map (λ s, (grow s, size s)) segs) w).
Proof.
  intros Hh. revert w. induction Hh as [|s e1 segs es [Hi Hp] Hh IH]; intros w Hg Hv Hc; [by split|].
  cbn [map streamLive_loop]. unfold full_log. cbn [zip_with concat]. rewrite omap_app, log_result_seg.
  apply tick_calm; [done|]. intros w1 Hc1 E1. unfold fed. rewrite <- E1.
  apply (fed_seq _ _ _ _ _ (λ _, True)).
  - apply stream_segment_fed; [done|done|apply Hg; by left|done|done].
  - intros w2 Hc2 _. apply IH; [|done|done]. intros s' Hs'. apply Hg. by right.
Qed.

(** ** The candidates of an index *)

(** What a candidate stands for in a view. *)
Definition candidate_result (f : Filter) (v : scanView) (id : Z) : option ScanResult :=
  loc ← v_locs v !! id;
  if expired (ie_ExpiresAt loc) (v_now v) then None
  else
    s ← byPath v (SegmentPath loc);
    match ReadAt s (Offset loc) with
    | Ok e => if Match regexp f (default ∅ (Data e))
              then Some (MkSR id (ie_Rev loc) (default ∅ (Data e)) (Ts e)) else None
    | Err _ => None
    end.

Lemma visit_candidate_fed f v id w :
  sound_view v → calm w → fed (option_list (candidate_result f v id)) w (visit_candidate regexp visit f v id w).
Proof.
  intros Hv Hc. unfold visit_candidate, candidate_result. destruct (v_locs v !! id) as [loc|] eqn:El; [|by split].
  cbn [mbind option_bind]. destruct (Hv _ _ El) as (s & e & Hs & He & Hid). rewrite Hs.
  unfold readLocated. destruct (expired _ _) eqn:Ex; [by split|]. cbn [mbind option_bind]. rewrite He, Hid, Z.eqb_refl.
  pose proof (examine_fed f id loc e w Hc) as Hf. by destruct (Match _ _ _).
Qed.

Lemma visit_loop_fed f v ids w :
  sound_view v → calm w → fed (omap (candidate_result f v) ids) w (visit_loop regexp visit f v ids w).
Proof.
  intros Hv. revert w. induction ids as [|id ids IH]; intros w Hc; [by split|]. cbn [visit_loop].
  apply tick_calm; [done|]. intros w1 Hc1 E1. apply tick_calm; [done|]. intros w2 Hc2 E2. rewrite E1 in E2.
  assert (Hom : omap (candidate_result f v) (id :: ids) =
    option_list (candidate_result f v id) ++ omap (candidate_result f v) ids).
  { cbn [omap list_omap]. by destruct (candidate_result f v id). }
  rewrite Hom. unfold fed. rewrite <- E2. apply (fed_seq _ _ _ _ _ (λ _, True)); [by apply visit_candidate_fed|].
  intros w' Hc' _. by apply IH.
Qed.
End visit.

(** ** The view of a collection *)

Lemma log_read segs es p off e tx :
  holds_all segs es → (p, (off, (e, tx))) ∈ full_log segs es →
  ∃ s, s ∈ segs ∧ path s = p ∧ ∀ s', grows s s' → ReadAt s' off = Ok e.
Proof.
  intros Hh. induction Hh as [|s e1 segs es [Hi Hp] Hh IH]; intros Hin; [by apply not_elem_of_nil in Hin|].
  unfold full_log in Hin. cbn [zip_with concat] in Hin. apply elem_of_app in Hin as [Hin|Hin].
  - apply list_elem_of_fmap in Hin as ([o x] & [= -> -> <-] & Hin). exists s. split_and!; [by left|done|].
    intros s' (_ & rest & more & Hd & _). destruct Hi as [Hle Hholds Hcl]. rewrite (Hcl Hp), take_ge in Hholds by done.
    destruct (holds_token _ _ _ _ _ rest Hholds Hin) as (_ & _ & l & r & Ht & Hdec). rewrite Nat.sub_0_r in Ht.
    unfold ReadAt, ReadStampedAt. by rewrite Hd, Ht, Hdec.
  - destruct (IH Hin) as (s' & ? & ? & ?). exists s'. split_and!; [by right|done|done].
Qed.

Lemma last_filter_unique (grow : Segment → Segment) segs s :
  NoDup (map path segs) → (∀ s, s ∈ segs → path (grow s) = path s) → s ∈ segs →
  last (filter (λ s', path s' = path s) (map grow segs)) = Some (grow s).
Proof.
  intros Hnd Hg Hin.
  assert (H : filter (λ s', path s' = path s) (map grow segs) = [grow s]); [|by rewrite H].
  induction segs as [|s1 segs IH]; [by apply not_elem_of_nil in Hin|].
  cbn [map] in *. apply NoDup_cons in Hnd as [Hn Hnd].
  assert (Hrest : path s1 = path s → filter (λ s', path s' = path s) (map grow segs) = []).
  { intros Heq. apply filter_none, Forall_fmap, Forall_forall. intros s2 H2 Hp. cbn in Hp.
    rewrite Hg in Hp by (by right). apply Hn. rewrite Heq, <- Hp. apply list_elem_of_fmap. eauto. }
  destruct (decide (path s1 = path s)) as [Heq|Hne].
  - rewrite filter_cons_True by (by rewrite Hg by left). rewrite Hrest by done. f_equal. f_equal.
    apply elem_of_cons in Hin as [->|Hin]; [done|]. exfalso. apply Hn. rewrite Heq. apply list_elem_of_fmap. eauto.
  - rewrite filter_cons_False by (rewrite Hg by left; done). apply IH; [done| |].
    + intros s2 H2. apply Hg. by right.
    + apply elem_of_cons in Hin as [->|Hin]; done.
Qed.

(** The entries that records are made of. *)
Lemma records_op ds L id e rev :
  records ds L !! id = Some (e, rev) → Op e ≠ OpDelete.
Proof.
  revert id e rev. induction L as [|x L IH] using rev_ind; intros id e rev; [done|].
  rewrite records_snoc. unfold rec_step. destruct (entryVisible x.2 ds); [|apply IH].
  case_decide as Hop.
  - destruct (decide (ID x.1 = id)) as [<-|Hne].
    + rewrite lookup_insert_eq. intros [= <- <-] Hd. rewrite Hd in Hop. by destruct Hop.
    + rewrite lookup_insert_ne by done. apply IH.
  - case_decide; [|apply IH]. destruct (decide (ID x.1 = id)) as [<-|Hne].
    + by rewrite lookup_delete_eq.
    + rewrite lookup_delete_ne by done. apply IH.
Qed.

(** *** Positions in the log *)

Lemma NoDup_map_inj {A B} (f : A → B) l x y : NoDup (map f l) → x ∈ l → y ∈ l → f x = f y → x = y.
Proof.
  intros Hnd [i Hi]%list_elem_of_lookup [j Hj]%list_elem_of_lookup Heq.
  assert (i = j) as ->; [|congruence]. eapply (NoDup_lookup (map f l)); [done|by apply list_lookup_fmap_Some; eauto|].
  rewrite Heq. apply list_lookup_fmap_Some. eauto.
Qed.

Definition position (x : log_entry) : string * nat := (x.1, x.2.1).

Lemma full_log_positions segs es :
  holds_all segs es → NoDup (map path segs) → NoDup (map position (full_log segs es)).
Proof.
  intros Hh. induction Hh as [|s e1 segs es [Hi Hp] Hh IH]; intros Hnd; [constructor|].
  cbn [map] in Hnd. apply NoDup_cons in Hnd as [Hn Hnd]. unfold full_log. cbn [zip_with concat].
  rewrite map_app. apply NoDup_app. split_and!; [| |by apply IH].
  - unfold seg_log. rewrite map_map.
    assert (Heq : map (λ x : located, position (path s, x)) e1 = map (pair (path s)) (map fst e1)) by (by rewrite map_map).
    rewrite Heq. apply NoDup_fmap_2; [by intros ? ? [= ->]|]. destruct Hi as [_ Hholds _]. by eapply holds_NoDup.
  - intros [p o] Hin1 Hin2. apply Hn.
    apply list_elem_of_fmap in Hin1 as ([p1 x1] & [= -> _] & Hin1). apply list_elem_of_fmap in Hin1 as (y & [= -> _] & _).
    apply list_elem_of_fmap in Hin2 as ([p2 [o2 [e2 t2]]] & [= -> _] & Hin2).
    destruct (log_read segs es p2 o2 e2 t2 Hh Hin2) as (s' & Hs' & <- & _). apply list_elem_of_fmap. eauto.
Qed.

Lemma NoDup_omap_ids {A} (pos : A → string * nat) (g : A → option ScanResult) l :
  NoDup (map pos l) →
  (∀ x y r r', x ∈ l → y ∈ l → g x = Some r → g y = Some r' → sr_ID r = sr_ID r' → pos x = pos y) →
  NoDup (sr_ID <$> omap g l).
Proof.
  induction l as [|x l IH]; intros Hnd Hg; [constructor|]. cbn [map] in Hnd. apply NoDup_cons in Hnd as [Hn Hnd].
  assert (IH' : NoDup (sr_ID <$> omap g l)).
  { apply IH; [done|]. intros a b r r' Ha Hb. apply Hg; by right. }
  cbn [omap list_omap]. destruct (g x) as [r|] eqn:E; [|done]. cbn [fmap list_fmap]. apply NoDup_cons. split; [|done].
  intros (r' & Hr & Hin)%list_elem_of_fmap. apply list_elem_of_omap in Hin as (y & Hy & Ey).
  apply Hn. rewrite (Hg x y r r'); [apply list_elem_of_fmap; eauto|by left|by right|done..].
Qed.

Section collection.
Context (c : Collection) (es : list (list located)) (ea : list located).
Context (Hc : cinv_at c es ea) (Hf : fenced c = None).
Context (grow : Segment → Segment) (Hgrow : ∀ s, s ∈ all_segments c → grows s (grow s)).

Local Notation L := (map snd (concat es ++ ea)).

Lemma all_holds : holds_all (all_segments c) (es ++ [ea]).
Proof.
  unfold all_segments. apply Forall2_app; [apply Hc|]. constructor; [|constructor]. split; [apply Hc|].
  destruct (poisoned (active c)) eqn:E; [|done]. destruct (ca_poison _ _ _ Hc E). congruence.
Qed.

Lemma all_log : full_log (all_segments c) (es ++ [ea]) = clog c es ea.
Proof. apply full_log_clog. eapply Forall2_length, Hc. Qed.

Lemma index_location id :
  match records (cdecisions c) L !! id with
  | None => entries (index c) !! id = None
  | Some (e, rev) => ∃ p off tx, (p, (off, (e, tx))) ∈ clog c es ea ∧ ID e = id ∧
      entries (index c) !! id = Some (MkIE p off rev (ExpiresAt e) (Epoch e))
  end.
Proof.
  rewrite (ca_index _ _ _ Hc Hf). rewrite <- (clog_lines c) by (eapply Forall2_length, Hc).
  apply replay_records.
Qed.

Lemma byPath_view ids n s :
  s ∈ all_segments c → byPath (grown grow (captureViewLocked c ids n)) (path s) = Some (grow s).
Proof.
  intros Hs. unfold byPath, grown, captureViewLocked. cbn [v_segs]. rewrite !map_map. cbn [fst].
  apply last_filter_unique; [eapply numbered_NoDup, Hc| |done]. intros s' Hs'. by apply Hgrow.
Qed.

(** Where the index leads in a view. *)
Lemma view_read ids n id loc :
  entries (index c) !! id = Some loc →
  ∃ s e rev, byPath (grown grow (captureViewLocked c ids n)) (SegmentPath loc) = Some s ∧
    ReadAt s (Offset loc) = Ok e ∧ ID e = id ∧ records (cdecisions c) L !! id = Some (e, rev) ∧
    loc = MkIE (SegmentPath loc) (Offset loc) rev (ExpiresAt e) (Epoch e).
Proof.
  intros Hl. pose proof (index_location id) as H. destruct (records (cdecisions c) L !! id) as [[e rev]|] eqn:Er; [|congruence].
  destruct H as (p & off & tx & Hin & Hid & Hloc). assert (loc = MkIE p off rev (ExpiresAt e) (Epoch e)) as -> by congruence.
  rewrite <- all_log in Hin. destruct (log_read _ _ _ _ _ _ all_holds Hin) as (s & Hs & <- & Hread).
  exists (grow s), e, rev. cbn. split_and!; [exact (byPath_view ids n s Hs)|by apply Hread; apply Hgrow|done..].
Qed.

Lemma full_view_sound n : sound_view (grown grow (captureViewLocked c None n)).
Proof. intros id loc Hl. destruct (view_read None n id loc Hl) as (s & e & rev & ? & ? & ? & _). eauto. Qed.

(** The full scan visits exactly the matches. *)
Lemma full_scan_matches f n :
  omap (log_result f (grown grow (captureViewLocked c None n))) (clog c es ea) ≡ₚ matches (cdecisions c) L f n.
Proof.
  set (v := grown grow (captureViewLocked c None n)).
  assert (Hpos : NoDup (map position (clog c es ea))).
  { rewrite <- all_log. apply full_log_positions; [apply all_holds|]. eapply numbered_NoDup, Hc. }
  assert (Hat : ∀ x r, x ∈ clog c es ea → log_result f v x = Some r →
    ∃ loc, entries (index c) !! sr_ID r = Some loc ∧ position x = (SegmentPath loc, Offset loc) ∧
           r = MkSR (ID x.2.2.1) (ie_Rev loc) (default ∅ (Data x.2.2.1)) (Ts x.2.2.1) ∧
           expired (ie_ExpiresAt loc) n = false ∧ Match regexp f (default ∅ (Data x.2.2.1)) = true).
  { intros [p [off [e tx]]] r Hin Hr. unfold log_result, live_result in Hr. cbn [fst snd plain_of v_locs v grown captureViewLocked] in Hr.
    destruct (entries (index c) !! ID e) as [loc|] eqn:El; [|done]. case_decide as Hd; [|done]. injection Hr as <-.
    destruct Hd as (<- & <- & _ & ? & ?). exists loc. done. }
  apply NoDup_Permutation.
  - eapply NoDup_fmap_1, (NoDup_omap_ids position); [done|]. intros x y r r' Hx Hy Hr Hr' Hid.
    destruct (Hat x r Hx Hr) as (l1 & H1 & -> & _), (Hat y r' Hy Hr') as (l2 & H2 & -> & _). congruence.
  - eapply NoDup_fmap_1, matches_ids.
  - intros r. rewrite list_elem_of_omap, elem_of_matches. split.
    + intros (x & Hx & Hr). destruct (Hat x r Hx Hr) as (loc & Hl & Hp & -> & Hex & Hm). cbn [sr_ID] in Hl.
      pose proof (index_location (ID x.2.2.1)) as Hi. destruct (records _ L !! ID x.2.2.1) as [[e rev]|] eqn:Er; [|congruence].
      destruct Hi as (p & off & tx & Hin & _ & Hloc). assert (loc = MkIE p off rev (ExpiresAt e) (Epoch e)) as -> by congruence.
      assert (x = (p, (off, (e, tx)))) as ->.
      { eapply (NoDup_map_inj position); [exact Hpos|done|done|]. by rewrite Hp. }
      exists (ID e), (e, rev). cbn in *. done.
    + intros (id & [e rev] & He & [Hex Hm] & ->). pose proof (index_location id) as Hi. rewrite He in Hi.
      destruct Hi as (p & off & tx & Hin & Hid & Hloc). exists (p, (off, (e, tx))). split; [done|].
      unfold log_result, live_result. cbn [fst snd plain_of v_locs v grown captureViewLocked]. rewrite Hid, Hloc.
      rewrite decide_True; [done|]. cbn in *. split_and!; try done. by eapply records_op.
Qed.

Lemma lookup_locations {A} (m : gmap Z A) ids id :
  (list_to_map (omap (λ id, e ← m !! id; Some (id, e)) ids) : gmap Z A) !! id =
  if decide (id ∈ ids) then m !! id else None.
Proof.
  clear Hc Hf Hgrow. induction ids as [|x ids IH]; [rewrite decide_False; [done|apply not_elem_of_nil]|]. cbn [omap list_omap].
  destruct (m !! x) as [e|] eqn:E; cbn [mbind option_bind].
  - cbn [list_to_map foldr uncurry]. destruct (decide (id = x)) as [->|Hne].
    + rewrite decide_True by left. by rewrite lookup_insert_eq.
    + rewrite lookup_insert_ne by done. etrans; [exact IH|]. apply decide_ext. rewrite elem_of_cons. split; [by right|by intros [?|?]].
  - etrans; [exact IH|]. destruct (decide (id = x)) as [->|Hne].
    + rewrite E. by destruct (decide _), (decide _).
    + apply decide_ext. rewrite elem_of_cons. split; [by right|by intros [?|?]].
Qed.

Lemma candidate_locs ids n id loc :
  v_locs (grown grow (captureViewLocked c (Some ids) n)) !! id = Some loc ↔ id ∈ ids ∧ entries (index c) !! id = Some loc.
Proof. cbn [v_locs grown captureViewLocked]. rewrite lookup_locations. case_decide; naive_solver. Qed.

Lemma candidate_view_sound ids n : sound_view (grown grow (captureViewLocked c (Some ids) n)).
Proof.
  intros id loc [_ Hl]%candidate_locs. destruct (view_read (Some ids) n id loc Hl) as (s & e & rev & ? & ? & ? & _). eauto.
Qed.

(** Candidates that miss no match lead to exactly the matches. *)
Lemma candidates_matches f n ids :
  NoDup ids →
  (∀ id e, records (cdecisions c) L !! id = Some e → Match regexp f (default ∅ (Data e.1)) = true → id ∈ ids) →
  omap (candidate_result f (grown grow (captureViewLocked c (Some ids) n))) ids ≡ₚ matches (cdecisions c) L f n.
Proof.
  intros Hnd Hall. set (v := grown grow (captureViewLocked c (Some ids) n)).
  assert (Hat : ∀ id r, candidate_result f v id = Some r → sr_ID r = id).
  { intros id r Hr. unfold candidate_result in Hr. destruct (v_locs v !! id) as [loc|]; [|done]. cbn [mbind option_bind] in Hr.
    destruct (expired _ _); [done|]. destruct (byPath _ _) as [s|]; [|done]. cbn [mbind option_bind] in Hr.
    destruct (ReadAt _ _) as [e|]; [|done]. destruct (Match _ _ _); [|done]. by injection Hr as <-. }
  assert (Hres : ∀ id r, candidate_result f v id = Some r ↔
    id ∈ ids ∧ ∃ e, records (cdecisions c) L !! id = Some e ∧ matching f n (id, e) ∧ r = result_of id e).
  { intros id r. unfold candidate_result. destruct (v_locs v !! id) as [loc|] eqn:El; cbn [mbind option_bind].
    - apply candidate_locs in El as [Hin Hl]. destruct (view_read (Some ids) n id loc Hl) as (s & e & rev & Hs & He & Hid & Hr & Hloc).
      unfold v at 2. rewrite Hs. cbn [mbind option_bind]. rewrite He, Hloc. cbn [ie_ExpiresAt ie_Rev v_now v grown captureViewLocked].
      unfold matching, result_of. rewrite Hr. split.
      + destruct (expired _ _) eqn:Ex; [done|]. destruct (Match _ _ _) eqn:Em; [|done]. intros [= <-].
        split; [done|]. exists (e, rev). done.
      + intros (_ & e' & [= <-] & [Hx Hm] & ->). cbn [fst snd] in *. by rewrite Hx, Hm.
    - split; [done|]. intros (Hin & [e rev] & Hr & _). pose proof (index_location id) as Hi. rewrite Hr in Hi.
      destruct Hi as (p & off & tx & _ & _ & Hi). assert (v_locs v !! id ≠ None); [|done].
      intros Hn. assert (v_locs v !! id = Some (MkIE p off rev (ExpiresAt e) (Epoch e))) by (by apply candidate_locs). congruence. }
  apply NoDup_Permutation.
  - apply (NoDup_fmap_1 sr_ID). clear Hall Hres. clearbody v. induction Hnd as [|id ids' Hn Hnd IH]; [constructor|].
    cbn [omap list_omap]. destruct (candidate_result f v id) as [r|] eqn:E; [|done]. cbn [fmap list_fmap].
    apply NoDup_cons. split; [|done]. intros (r' & Hr & (y & Hy & Ey)%list_elem_of_omap)%list_elem_of_fmap.
    apply Hn. rewrite <- (Hat id r E), Hr, (Hat y r' Ey). done.
  - eapply NoDup_fmap_1, matches_ids.
  - intros r. rewrite list_elem_of_omap, elem_of_matches. split.
    + intros (id & _ & (_ & e & ?)%Hres). eauto.
    + intros (id & e & He & Hm & ->). assert (id ∈ ids) by (eapply Hall; [done|apply Hm]).
      exists id. split; [done|]. apply Hres. split; [done|]. eauto.
Qed.
End collection.
End scan.
