(* ===== verification/QueryThm.v ===== *)
(** * What a query returns

    The scans, ordered pages and counts of [engine/scan.go] and
    [engine/count.go], whichever plan serves them: each is a function of the
    live records that match, as they are at the reading of the clock that the
    query takes. *)
From Stdlib Require Import Ascii Lia ZArith.
From stdpp Require Import prelude gmap strings sorting.
From S2P Require Import Prelude GoNum Json Value Filter GoTime Store Wire Codec Segment Index SecondaryIndex Collection Keyed.
From S2P Require Import CollInv CollStep CollThm Unique CompactThm Base64 Encryption Heap Scan ScanThm.

Section query.
Context (regexp : bytes → bytes → option bool).

(** ** Index candidates *)

(** The filters an index serves as a scan would: the values under [_key] are
    strings, and an equality does not compare two zeros. *)
Definition servable (G : gmap Z vdata) (f : Filter) : Prop :=
  match f with
  | FieldFilter field op val =>
      (op = OpEq → value_wf (decode_cmp val)) ∧
      ∀ id d v, G !! id = Some d → d !! field = Some v →
        (field = KeyField → ∃ k, v = VStr k) ∧ (op = OpEq → is_zero v && is_zero (decode_cmp val) = false)
  | _ => True
  end.

Lemma servable_indexed G field op val id d v :
  servable G (FieldFilter field op val) → G !! id = Some d → d !! field = Some v →
  field_map field G !! id = Some v.
Proof.
  intros [_ Hs] Hd Hv. rewrite field_map_lookup, Hd. cbn [mbind option_bind]. unfold indexed. rewrite Hv. cbn [mbind option_bind].
  case_decide as Hk; [|done]. by destruct (proj1 (Hs _ _ _ Hd Hv) Hk) as [k ->].
Qed.

(** An equality index names exactly the records the filter accepts. *)
Lemma eq_lookup_exact c G field val ids id :
  sidx_ok c G → servable G (FieldFilter field OpEq val) →
  indexLookupRaw c field (toIndexKey (decode_cmp val)) = Some ids →
  id ∈ ids ↔ ∃ d, G !! id = Some d ∧ Match regexp (FieldFilter field OpEq val) d = true.
Proof.
  intros Hok Hs Hl. unfold indexLookupRaw in Hl. destruct (sidxMap c !! field) as [s|] eqn:Es; [|done]. injection Hl as <-.
  destruct (Hok _ _ Es) as [_ Hr]. rewrite (Lookup_elem s _ _ _ Hr).
  assert (Heq : ∀ d v, G !! id = Some d → d !! field = Some v →
    equal v (decode_cmp val) = true ↔ toIndexKey v = toIndexKey (decode_cmp val)).
  { intros d v Hd Hv. apply eq_bucket_iff; [|by apply Hs|by eapply Hs].
    destruct Hr as (_ & _ & Hwf). eapply Hwf, servable_indexed; eauto. }
  cbn [Match]. unfold match_field. split.
  - intros (v & Hv & Hk). rewrite field_map_lookup in Hv. destruct (G !! id) as [d|] eqn:Hd; [|done].
    cbn [mbind option_bind] in Hv. unfold indexed in Hv. destruct (d !! field) as [v'|] eqn:Hv'; [|done]. cbn [mbind option_bind] in Hv.
    assert (v' = v) as -> by (case_decide; [destruct v'|]; congruence).
    exists d. split; [done|]. rewrite Hv'. by apply (Heq d).
  - intros (d & Hd & Hm). destruct (d !! field) as [v|] eqn:Hv; [|done]. exists v.
    split; [by eapply servable_indexed|by apply (Heq d)].
Qed.

Lemma range_match field op val d v :
  d !! field = Some v → is_Some (range_ok op Eq) →
  Match regexp (FieldFilter field op val) d = true ↔ range_ok op (Compare v (decode_cmp val)) = Some true.
Proof.
  intros Hv [b Hop]. cbn [Match]. unfold match_field. rewrite Hv. destruct op; try done; by destruct (Compare _ _).
Qed.

Lemma candidates_complete c G f ids :
  sidx_ok c G → servable G f → indexCandidates c f = Some ids →
  NoDup ids ∧ ∀ id d, G !! id = Some d → Match regexp f d = true → id ∈ ids.
Proof.
  intros Hok Hs Hc. destruct f as [|field op val| |]; try done.
  assert (Hrange : ∀ s, sidxMap c !! field = Some s → LookupRange s op (decode_cmp val) = Some ids → is_Some (range_ok op Eq) →
    NoDup ids ∧ ∀ id d, G !! id = Some d → Match regexp (FieldFilter field op val) d = true → id ∈ ids).
  { intros s Es Hl Hop. destruct (Hok _ _ Es) as [_ Hr]. split; [by eapply LookupRange_NoDup|].
    intros id d Hd Hm. destruct (d !! field) as [v|] eqn:Hv; [|by cbn [Match] in Hm; unfold match_field in Hm; rewrite Hv in Hm].
    eapply LookupRange_elem; [done..|]. exists v. split; [by eapply servable_indexed|]. by eapply range_match. }
  destruct op; try done; cbn [indexCandidates] in Hc.
  - split.
    + unfold indexLookupRaw in Hc. destruct (sidxMap c !! field); [|done]. injection Hc as <-. apply NoDup_elements.
    + intros id d Hd Hm. eapply eq_lookup_exact; eauto.
  - unfold indexRangeLookup in Hc. destruct (sidxMap c !! field) as [s|] eqn:Es; [|done]. by eapply Hrange.
  - unfold indexRangeLookup in Hc. destruct (sidxMap c !! field) as [s|] eqn:Es; [|done]. by eapply Hrange.
  - unfold indexRangeLookup in Hc. destruct (sidxMap c !! field) as [s|] eqn:Es; [|done]. by eapply Hrange.
  - unfold indexRangeLookup in Hc. destruct (sidxMap c !! field) as [s|] eqn:Es; [|done]. by eapply Hrange.
Qed.

(** ** Every plan feeds the visitor the matches *)

Definition searchable (c : Collection) (f : Filter) : Prop :=
  ∀ en, enc c = Some en → encryptedFilterField en f = None.

(** The state a query starts from: the log, an index that follows it, and
    segments to which other writers add only whole lines while it reads. *)
Record query_ready (c : Collection) (L : list line) (f : Filter) (grow : Segment → Segment) : Prop := {
  qr_log : cinv c L;
  qr_open : fenced c = None;
  qr_sidx : sidx_ok c (plain (cdecisions c) L);
  qr_servable : servable (plain (cdecisions c) L) f;
  qr_searchable : searchable c f;
  qr_grow : ∀ s, s ∈ all_segments c → grows s (grow s)
}.

Definition quiet (checks : list (option scan_err)) : Prop := Forall (λ r, r = None) checks.

Lemma frame_segments c c' : frame c c' → all_segments c' = all_segments c.
Proof. intros F. unfold all_segments. by rewrite (fr_sealed _ _ F), (fr_active _ _ F). Qed.

Lemma ready_frame c c' L f grow : frame c c' → query_ready c L f grow → query_ready c' L f grow.
Proof.
  intros F []. split.
  - by eapply cinv_frame.
  - by rewrite (fr_fenced _ _ F).
  - unfold sidx_ok. by rewrite (fr_sidx _ _ F), (fr_decisions _ _ F).
  - by rewrite (fr_decisions _ _ F).
  - unfold searchable. by rewrite (fr_enc _ _ F).
  - by rewrite (frame_segments _ _ F).
Qed.

Section visit.
Context {S : Type} (visit : ScanResult → S → S * option scan_err).
Context (visit_end : ∀ r a, (visit r a).2 ≠ Some SErrViewEnd).

Lemma plan_fed c L f grow n (w : Walk S) :
  query_ready c L f grow → calm w →
  ∃ l, l ≡ₚ matches regexp (cdecisions c) L f n ∧
    fed visit l w
      (match indexCandidates c f with
       | Some ids => visitCandidates regexp visit f (grown grow (captureViewLocked c (Some ids) n)) ids (use_index w)
       | None => streamLive regexp visit f (grown grow (captureViewLocked c None n)) w
       end).
Proof.
  intros [(es & ea & Hc & ->) Hf Hok Hs _ Hg] Hw. destruct (indexCandidates c f) as [ids|] eqn:Ei.
  - destruct (candidates_complete c _ f ids Hok Hs Ei) as [Hnd Hall].
    set (v := grown grow (captureViewLocked c (Some ids) n)).
    exists (omap (candidate_result regexp f v) (ssort Z.ltb ids)). split.
    + rewrite ssort_perm. apply candidates_matches; [done..|]. intros id e He Hm. eapply Hall; [|exact Hm].
      unfold plain. by rewrite lookup_fmap, He.
    + apply (visit_loop_fed regexp visit f v _ (use_index w)); [by eapply candidate_view_sound|done].
  - eexists. split; [by apply full_scan_matches|].
    unfold streamLive. cbn [v_segs grown captureViewLocked]. rewrite map_map. cbn [fst snd].
    rewrite <- (all_log c es ea Hc). apply streamLive_fed; [done|by eapply all_holds|done| |done]. by eapply full_view_sound.
Qed.

Lemma forEachMatch_spec st L f grow (w : Walk S) :
  world st → query_ready (coll st) L f grow → calm w →
  wp (forEachMatch regexp visit grow f w) st (λ st' r,
    world st' ∧ frame (coll st) (coll st') ∧
    ∃ l w' e, r = Ok (w', e) ∧ l ≡ₚ matches regexp (cdecisions (coll st)) L f (clockFloor (coll st')) ∧
      feed visit l (w_acc w) = (w_acc w', e)).
Proof.
  intros Hw Hq Hcalm. unfold forEachMatch. apply wp_get.
  assert (Hsearch : match enc (coll st) with Some en => encryptedFilterField en f | None => None end = None).
  { destruct (enc (coll st)) as [en|] eqn:E; [|done]. by apply (qr_searchable _ _ _ _ Hq). }
  rewrite Hsearch. set (w1 := MkWalk (w_stats w) (w_acc w) (tail (w_checks w))).
  assert (Hw1 : calm w1) by (unfold calm in *; destruct Hcalm; done).
  assert (Hgo : ∀ k, (∀ e rest, w_checks w ≠ Some e :: rest) →
    match w_checks w with Some e :: rest => ret (MkWalk (w_stats w) (w_acc w) rest, Some e) | _ => k end = (k : M (Walk S * option scan_err))).
  { intros k Hn. destruct (w_checks w) as [|[e|] rest] eqn:E; try done. by destruct (Hn e rest). }
  rewrite Hgo; [|intros e rest E; unfold calm in Hcalm; rewrite E in Hcalm; by apply Forall_cons in Hcalm as [? _]].
  apply wp_now; [done|]. intros st' n Hw' F _ Hn _. apply wp_get.
  pose proof (ready_frame _ _ _ _ _ F Hq) as Hq'.
  destruct (plan_fed (coll st') L f grow n w1 Hq' Hw1) as (l & Hp & _ & Hfed).
  rewrite (fr_decisions _ _ F) in Hp. cbn [w_acc w1] in Hfed.
  destruct (indexCandidates (coll st') f) as [ids|]; apply wp_ret; split_and!; try done; subst n;
    (exists l; do 2 eexists; split_and!; [apply f_equal, surjective_pairing|done|exact Hfed]).
Qed.
End visit.

(** ** Unordered scans *)

(** The errors a scan keeps for itself are never a caller's. *)
Definition plain_yield {S} (yield : ScanResult → S → S * option scan_err) : Prop :=
  ∀ r a, (yield r a).2 ≠ Some SErrStop ∧ (yield r a).2 ≠ Some SErrViewEnd.

(** The page of a list of rows: past [Offset], at most [Limit]. *)
Definition limited (n : Z) (l : list ScanResult) : list ScanResult :=
  if (0 <? n)%Z then take (Z.to_nat n) l else l.

Definition page_of (opts : ScanOptions) (l : list ScanResult) : list ScanResult :=
  limited (so_Limit opts) (drop (Z.to_nat (so_Offset opts)) l).

Definition unstopped (e : option scan_err) : option scan_err :=
  match e with Some SErrStop => None | _ => e end.

Section unordered.
Context {S : Type} (yield : ScanResult → S → S * option scan_err) (Hyield : plain_yield yield).

Lemma counting_plain c fields r acc :
  (counting yield c fields r acc).2 ≠ Some SErrStop ∧ (counting yield c fields r acc).2 ≠ Some SErrViewEnd.
Proof.
  unfold counting. destruct (finalizeRecord _ _ _) as [out|]; [|done].
  pose proof (Hyield (MkSR (sr_ID r) (sr_Rev r) out (sr_Ts r)) acc.1) as H.
  by destruct (yield _ _) as [a [e|]].
Qed.

Lemma unordered_visit_end c opts r acc : (unordered_visit yield c opts r acc).2 ≠ Some SErrViewEnd.
Proof.
  destruct acc as [[sk em] a]. unfold unordered_visit. destruct (sk <? _)%Z; [done|].
  pose proof (counting_plain c (so_Fields opts) r a) as [_ H].
  destruct (counting _ _ _ _ _) as [a' [e|]]; [done|]. cbn. by destruct (_ && _).
Qed.

Lemma feed_page c opts l sk em a :
  (0 < so_Limit opts → em < so_Limit opts)%Z →
  let o := feed (unordered_visit yield c opts) l (sk, em, a) in
  let rest := drop (Z.to_nat (so_Offset opts - sk)) l in
  (o.1.2, unstopped o.2) =
  emit_page yield c (so_Fields opts)
    (if (0 <? so_Limit opts)%Z then take (Z.to_nat (so_Limit opts - em)) rest else rest) a.
Proof.
  revert sk em a. induction l as [|r l IH]; intros sk em a Hem; cbn zeta.
  - rewrite drop_nil, take_nil. by destruct (0 <? _)%Z.
  - cbn [feed]. unfold unordered_visit at 1 3. destruct (Z.ltb_spec sk (so_Offset opts)) as [Hsk|Hsk].
    + rewrite (IH (sk + 1)%Z em a Hem). replace (Z.to_nat (so_Offset opts - sk)) with (Datatypes.S (Z.to_nat (so_Offset opts - (sk + 1)))) by lia.
      done.
    + replace (Z.to_nat (so_Offset opts - sk)) with 0 by lia. cbn [drop].
      pose proof (counting_plain c (so_Fields opts) r a) as [Hst _].
      specialize (IH sk (em + 1)%Z). replace (Z.to_nat (so_Offset opts - sk)) with 0 in IH by lia.
      destruct (counting yield c (so_Fields opts) r a) as [a' e] eqn:Ec. cbn [snd] in Hst.
      destruct (Z.ltb_spec 0 (so_Limit opts)) as [Hl|Hl].
      * replace (Z.to_nat (so_Limit opts - em)) with (Datatypes.S (Z.to_nat (so_Limit opts - (em + 1)))) by lia.
        cbn [take emit_page]. rewrite Ec. destruct e as [err|]; [by destruct err|].
        cbn [andb]. destruct (Z.leb_spec (so_Limit opts) (em + 1)) as [Hs|Hs].
        -- replace (Z.to_nat (so_Limit opts - (em + 1))) with 0 by lia. done.
        -- apply IH. lia.
      * cbn [emit_page andb]. rewrite Ec. destruct e as [err|]; [by destruct err|]. apply IH. lia.
Qed.

Lemma scanUnordered_spec st L f grow opts a checks :
  world st → query_ready (coll st) L f grow → quiet checks →
  wp (scanUnordered regexp yield grow f opts a checks) st (λ st' r,
    frame (coll st) (coll st') ∧
    ∃ l stats, l ≡ₚ matches regexp (cdecisions (coll st)) L f (clockFloor (coll st')) ∧
      let o := emit_page yield (coll st) (so_Fields opts) (page_of opts l) (a, 0) in
      r = Ok (stats, o.1.1, o.2) ∧ RowsReturned stats = o.1.2 ∧ NextPageToken stats = "").
Proof.
  intros Hw Hq Hch. unfold scanUnordered. apply wp_get. apply wp_bind. eapply wp_mono.
  - apply (forEachMatch_spec _ (unordered_visit_end (coll st) opts) st L f grow); done.
  - intros st' r (_ & F & l & w & e & -> & Hp & Hfeed). cbn [w_acc] in Hfeed.
    pose proof (feed_page (coll st) opts l 0 0 (a, 0)) as H. cbn zeta in H. rewrite Hfeed in H. cbn [fst snd] in H.
    rewrite !Z.sub_0_r in H. specialize (H (λ x, x)).
    destruct (w_acc w) as [[sk em] [a' n]]. cbn [snd] in H. apply wp_ret. split; [done|]. exists l, (set_returned (w_stats w) n ""). split; [done|].
    unfold page_of, limited. cbn zeta. rewrite <- H. cbn [fst snd]. split_and!; [|done|done]. by destruct e as [[]|].
Qed.
End unordered.

(** ** [Scan] *)

(** A row as a caller sees it: decrypted and projected. *)
Definition finalized (c : Collection) (fields : list string) (r : ScanResult) : option ScanResult :=
  out ← finalizeRecord c (sr_Data r) fields; Some (MkSR (sr_ID r) (sr_Rev r) out (sr_Ts r)).

Lemma emit_collect c fields page acc n :
  let o := emit_page collect_rows c fields page (acc, n) in
  match mapM (finalized c fields) page with
  | Some rows => o = ((acc ++ rows, n + length rows), None)
  | None => o.2 = Some SErrCrypto
  end.
Proof.
  revert acc n. induction page as [|r page IH]; intros acc n; cbn zeta.
  - cbn. by rewrite app_nil_r, Nat.add_0_r.
  - cbn [emit_page mapM].
    assert (Hr : finalized c fields r = out ← finalizeRecord c (sr_Data r) fields; Some (MkSR (sr_ID r) (sr_Rev r) out (sr_Ts r))) by done.
    rewrite Hr. unfold counting. destruct (finalizeRecord _ _ _) as [out|]; [|done].
    cbn [mbind option_bind collect_rows fst snd]. specialize (IH (acc ++ [MkSR (sr_ID r) (sr_Rev r) out (sr_Ts r)]) (n + 1)).
    cbn zeta in IH. destruct (mapM (finalized c fields) page) as [rows|]; cbn [mbind option_bind mret option_ret].
    + rewrite IH. cbn [length]. by rewrite <- app_assoc, <- Nat.add_assoc.
    + done.
Qed.

Lemma no_sort_encrypted c opts :
  sort_fields opts = [] → match enc c with Some en => encrypted_sort en opts | None => None end = None.
Proof.
  unfold sort_fields. destruct (so_Sort opts) eqn:Es; [|done]. case_decide as Ho; [|done]. intros _.
  destruct (enc c); [|done]. unfold encrypted_sort. by rewrite Es, Ho.
Qed.

Lemma unordered_stream_spec {S} (yield : ScanResult → S → S * option scan_err) st L grow opts a checks :
  plain_yield yield → world st → query_ready (coll st) L (default MatchAll (so_Filter opts)) grow → quiet checks →
  sort_fields opts = [] → so_PageToken opts = "" →
  wp (ScanStream regexp yield grow opts a checks) st (λ st' r,
    frame (coll st) (coll st') ∧
    ∃ l stats,
      l ≡ₚ matches regexp (cdecisions (coll st)) L (default MatchAll (so_Filter opts)) (clockFloor (coll st')) ∧
      let o := emit_page yield (coll st) (so_Fields opts) (page_of opts l) (a, 0) in
      r = Ok (stats, o.1.1, o.2) ∧ RowsReturned stats = o.1.2).
Proof.
  intros Hy Hw Hq Hch Hs Ht. unfold ScanStream. apply wp_checkFenced.
  { intros [? H]. by rewrite (qr_open _ _ _ _ Hq) in H. }
  intros _. apply wp_get. rewrite no_sort_encrypted by done. rewrite Hs, Ht.
  rewrite !bool_decide_true by done. cbn [andb].
  eapply wp_mono; [by apply (scanUnordered_spec yield Hy st L)|]. cbn beta.
  intros st2 r2 (? & l & stats & ? & ? & ? & _). eauto 8.
Qed.

(** a scan without an ordering hands its caller, row by row, exactly the
    page of the live matching records that [Offset] and [Limit] describe,
    decrypted and projected, whether it runs over the segments or over an
    index, and whatever is appended to the segments while it reads; it stops at
    the caller's first error and counts what was taken. *)
Theorem unordered_scan_exact {S} (yield : ScanResult → S → S * option scan_err) st L grow opts a checks st' r :
  plain_yield yield → world st → query_ready (coll st) L (default MatchAll (so_Filter opts)) grow → quiet checks →
  sort_fields opts = [] → so_PageToken opts = "" →
  ScanStream regexp yield grow opts a checks st = (st', r) →
  ∃ l stats,
    l ≡ₚ matches regexp (cdecisions (coll st)) L (default MatchAll (so_Filter opts)) (clockFloor (coll st')) ∧
    let o := emit_page yield (coll st) (so_Fields opts) (page_of opts l) (a, 0) in
    r = Ok (stats, o.1.1, o.2) ∧ RowsReturned stats = o.1.2.
Proof. intros Hy Hw Hq Hch Hs Ht Hrun. by apply (wp_run _ _ _ _ _ (unordered_stream_spec yield st L _ _ _ _ Hy Hw Hq Hch Hs Ht) Hrun). Qed.


(** ** Counting *)

Lemma feed_count l n : feed count_visit l n = (n + length l, None).
Proof.
  revert n. induction l as [|r l IH]; intros n; cbn [feed count_visit length]; [by rewrite Nat.add_0_r|].
  rewrite IH. f_equal. lia.
Qed.

Lemma matches_length_ids ds L f n ids :
  NoDup ids →
  (∀ id, id ∈ ids ↔ ∃ e, records ds L !! id = Some e ∧ matching regexp f n (id, e)) →
  length ids = length (matches regexp ds L f n).
Proof.
  intros Hnd Hin. rewrite <- (length_fmap sr_ID (matches regexp ds L f n)). apply Permutation_length, NoDup_Permutation; [done|apply matches_ids|].
  intros id. rewrite Hin, list_elem_of_fmap. split.
  - intros (e & He & Hm). exists (result_of id e). split; [done|]. apply elem_of_matches. eauto.
  - intros (r & -> & (i & e & He & Hm & ->)%elem_of_matches). eauto.
Qed.

(** The deadlines of the index are those of the records. *)
Lemma index_deadline c L id :
  cinv c L → fenced c = None →
  (∀ loc, entries (index c) !! id = Some loc →
     ∃ e, records (cdecisions c) L !! id = Some e ∧ ie_ExpiresAt loc = ExpiresAt e.1) ∧
  (∀ e, records (cdecisions c) L !! id = Some e →
     ∃ loc, entries (index c) !! id = Some loc ∧ ie_ExpiresAt loc = ExpiresAt e.1).
Proof.
  intros (es & ea & Hc & ->) Hf. pose proof (index_location c es ea Hc Hf id) as H.
  destruct (records _ _ !! id) as [[e rev]|].
  - destruct H as (p & off & tx & _ & _ & ->). split.
    + intros loc [= <-]. by exists (e, rev).
    + intros ? [= <-]. eauto.
  - rewrite H. done.
Qed.

Lemma liveCount_length c L n :
  cinv c L → fenced c = None →
  liveCount (index c) n = length (matches regexp (cdecisions c) L MatchAll n).
Proof.
  intros Hc Hf. assert (He : mayExpire_ok (index c)) by (destruct Hc as (es & ea & Hc & _); by apply Hc).
  assert (Hcount : liveCount (index c) n =
    length (filter (λ kv : Z * IndexEntry, expired (ie_ExpiresAt kv.2) n = false) (map_to_list (entries (index c)))).*1).
  { rewrite length_fmap. unfold liveCount. destruct (mayExpire (index c)) eqn:Em; [done|].
    rewrite filter_all; [by rewrite length_map_to_list|]. apply Forall_forall. intros [id loc] Hin%elem_of_map_to_list.
    pose proof (He Em id loc Hin) as H0. cbn in H0 |- *. unfold expired. by rewrite H0. }
  rewrite Hcount. apply matches_length_ids.
  - eapply sublist_NoDup; [apply (NoDup_fst_map_to_list (entries (index c)))|]. apply fmap_sublist, sublist_filter.
  - intros id. destruct (index_deadline c L id Hc Hf) as [H1 H2]. rewrite list_elem_of_fmap. split.
    + intros ([i loc] & -> & [Hx Hin%elem_of_map_to_list]%list_elem_of_filter). cbn [fst snd] in *.
      destruct (H1 loc Hin) as (e & He' & Heq). exists e. split; [done|]. split; [cbn; by rewrite <- Heq|done].
    + intros (e & He' & Hx & _). destruct (H2 e He') as (loc & Hl & Heq). exists (id, loc). split; [done|].
      apply list_elem_of_filter. cbn [snd]. rewrite Heq. split; [done|]. by apply elem_of_map_to_list.
Qed.

Lemma eq_count_length c L field val ids n :
  cinv c L → fenced c = None → sidx_ok c (plain (cdecisions c) L) → servable (plain (cdecisions c) L) (FieldFilter field OpEq val) →
  indexLookupRaw c field (toIndexKey (decode_cmp val)) = Some ids →
  length (liveIDs c ids n) = length (matches regexp (cdecisions c) L (FieldFilter field OpEq val) n).
Proof.
  intros Hc Hf Hok Hs Hl. apply matches_length_ids.
  - unfold liveIDs. apply NoDup_filter. unfold indexLookupRaw in Hl. destruct (sidxMap c !! field); [|done].
    injection Hl as <-. apply NoDup_elements.
  - intros id. destruct (index_deadline c L id Hc Hf) as [H1 H2]. unfold liveIDs. rewrite list_elem_of_filter.
    rewrite (eq_lookup_exact c _ field val ids id Hok Hs Hl). unfold isLive, Get, plain. rewrite lookup_fmap. split.
    + intros [Hlive (d & Hd & Hm)]. destruct (records _ _ !! id) as [e|] eqn:Er; [|done]. injection Hd as <-.
      destruct (H2 e eq_refl) as (loc & Hloc & Heq). rewrite Hloc in Hlive. apply negb_true_iff in Hlive.
      exists e. split; [done|]. split; [cbn; by rewrite <- Heq|done].
    + intros (e & He & Hx & Hm). rewrite He. destruct (H2 e He) as (loc & Hloc & Heq). rewrite Hloc, Heq. cbn in Hx |- *.
      rewrite Hx. split; [done|]. exists (default ∅ (Data e.1)). done.
Qed.

(** [Count] is the number of records [Scan] would return, for every
    filter and by each of its three plans: the size of the index, the live ids
    of an equality bucket, or a streaming count. *)
Theorem count_exact st L grow f checks st' r :
  world st → query_ready (coll st) L f grow → quiet checks → Count regexp grow f checks st = (st', r) →
  r = Ok (length (matches regexp (cdecisions (coll st)) L f (clockFloor (coll st'))), None).
Proof.
  intros Hw Hq Hch Hrun. refine (wp_run _ _ (λ st' r, _) _ _ _ Hrun). unfold Count. apply wp_checkFenced.
  { intros [? H]. by rewrite (qr_open _ _ _ _ Hq) in H. }
  intros Hf.
  assert (Hgen : wp (let! (w, e) := forEachMatch regexp count_visit grow f (MkWalk no_stats 0 checks) in
      ret (match e with None => w_acc w | Some _ => 0 end, e)) st (λ st' r,
    r = Ok (length (matches regexp (cdecisions (coll st)) L f (clockFloor (coll st'))), None))).
  { apply wp_bind. eapply wp_mono; [by apply (forEachMatch_spec count_visit (λ _ _, ltac:(done)) st L)|]. cbn beta.
    intros st2 r2 (_ & _ & l & w & e & -> & Hp & Hfeed). rewrite feed_count in Hfeed. cbn [w_acc] in Hfeed.
    injection Hfeed as <- <-. apply wp_ret. by rewrite Hp. }
  destruct f as [|field op val| |]; try exact Hgen.
  - apply wp_now; [done|]. intros st2 n Hw2 F _ Hn _. apply wp_get. apply wp_ret. subst n.
    pose proof (ready_frame _ _ _ _ _ F Hq) as Hq2. rewrite (liveCount_length (coll st2) L) by apply Hq2. by rewrite (fr_decisions _ _ F).
  - destruct op; try exact Hgen. apply wp_bind. unfold indexLookup. apply wp_get.
    destruct (indexLookupRaw _ _ _) as [ids|] eqn:Ei; [|by apply wp_ret].
    apply wp_now; [done|]. intros st2 n Hw2 F _ Hn _. apply wp_get. apply wp_ret. apply wp_ret. subst n.
    pose proof (ready_frame _ _ _ _ _ F Hq) as Hq2. rewrite (eq_count_length (coll st2) L field val) by (apply Hq2 || (unfold indexLookupRaw; by rewrite (fr_sidx _ _ F))).
    by rewrite (fr_decisions _ _ F).
Qed.

End query.

(** ** Witnesses *)

Definition no_regexp (p s : bytes) : option bool := None.

Definition by_n (op : FilterOp) : Filter := FieldFilter "n" op "42".

Definition still (s : Segment) : Segment := s.

Lemma sealed_ready op : query_ready sealed_coll [stored old_entry] (by_n op) still.
Proof.
  split.
  - apply sealed_cinv.
  - reflexivity.
  - intros f s Hs. cbn in Hs. by rewrite lookup_empty in Hs.
  - split.
    + intros _. assert (H : decode_cmp "42" = VNum (MkF false [4; 2] 2)) by (vm_compute; reflexivity). rewrite H.
      by apply (sample_data_wf "n").
    + intros id d v _ _. split; [discriminate|]. intros _. assert (H : is_zero (decode_cmp "42") = false) by (vm_compute; reflexivity).
      by rewrite H, andb_false_r.
  - discriminate.
  - intros s _. apply grows_refl.
Qed.


Lemma unordered_scan_exact_witness :
  ∃ st' l stats rows,
    ScanStream no_regexp collect_rows still (all_rows (by_n OpGte)) [] [] sealed_st = (st', Ok (stats, rows, None)) ∧
    RowsReturned stats = 1 ∧
    l ≡ₚ matches no_regexp (cdecisions sealed_coll) [stored old_entry] (by_n OpGte) (clockFloor (coll st')).
Proof.
  destruct (ScanStream no_regexp collect_rows still (all_rows (by_n OpGte)) [] [] sealed_st) as [st' r] eqn:E.
  assert (Hy : plain_yield collect_rows) by (intros ? ?; split; discriminate).
  destruct (unordered_scan_exact no_regexp collect_rows sealed_st [stored old_entry] still (all_rows (by_n OpGte)) [] [] st' r
    Hy sealed_world (sealed_ready OpGte)) as (l & stats & Hl & Hr & _); [constructor|reflexivity|reflexivity|exact E|].
  assert (Hv : match (ScanStream no_regexp collect_rows still (all_rows (by_n OpGte)) [] [] sealed_st).2 with
               | Ok (stats, _, None) => RowsReturned stats = 1 | _ => False end) by (vm_compute; reflexivity).
  rewrite E in Hv. cbn [snd] in Hv. destruct r as [[[stats' rows] [e|]]|]; [destruct Hv| |destruct Hv].
  exists st', l, stats', rows. split; [reflexivity|]. split; [exact Hv|exact Hl].
Defined.

Lemma count_exact_witness :
  Count no_regexp still (by_n OpLt) [] sealed_st = (sealed_st, Ok (0, None)) ∧
  length (matches no_regexp (cdecisions sealed_coll) [stored old_entry] (by_n OpLt) 1) = 0.
Proof.
  assert (E : Count no_regexp still (by_n OpLt) [] sealed_st = (sealed_st, Ok (0, None))) by (vm_compute; reflexivity).
  split; [exact E|].
  pose proof (count_exact no_regexp sealed_st _ still (by_n OpLt) [] sealed_st _ sealed_world (sealed_ready OpLt) (List.Forall_nil _) E) as H.
  exact (f_equal (λ r : res cerr (nat * option scan_err), match r with Ok (n, _) => n | Err _ => 0 end) (eq_sym H)).
Defined.
