(* ===== verification/OrderThm.v ===== *)
(** * Ordered scans and page tokens

    The ordering of [sortLess], the bounded buffer of [topK] and the cursor of a
    page token: the pages of an ordered scan are the slices of the sorted list
    of matches, and the tokens tile it. *)
From Stdlib Require Import Ascii Lia ZArith.
From stdpp Require Import prelude gmap strings sorting.
From S2P Require Import Prelude GoNum Json Value Filter GoTime Store Wire Codec Segment Index SecondaryIndex Collection Keyed.
From S2P Require Import CollInv CollStep CollThm Unique CompactThm Base64 Encryption Heap Scan ScanThm QueryThm.

(** ** The ordering *)

(** The comparison under one sort field. *)
Definition field_cmp (sf : SortField) (a b : ScanResult) : comparison :=
  let c := Compare (sort_key a (sf_Field sf)) (sort_key b (sf_Field sf)) in
  if sf_Desc sf then CompOpp c else c.

Lemma sortLess_cons sf fields a b :
  sortLess (sf :: fields) a b =
  match field_cmp sf a b with Eq => sortLess fields a b | Lt => true | Gt => false end.
Proof. done. Qed.

Lemma field_cmp_antisym sf a b : field_cmp sf a b = CompOpp (field_cmp sf b a).
Proof. unfold field_cmp. rewrite Compare_antisym. by destruct (sf_Desc sf), (Compare _ _). Qed.

Lemma sortLess_asym fields a b : sortLess fields a b = true → sortLess fields b a = false.
Proof.
  induction fields as [|sf fields IH]; [cbn; lia|]. rewrite !sortLess_cons, (field_cmp_antisym sf b a).
  by destruct (field_cmp sf a b).
Qed.

(** Rows that are tied have one id. *)
Lemma sortLess_ties fields a b : sortLess fields a b = false → sortLess fields b a = false → sr_ID a = sr_ID b.
Proof.
  induction fields as [|sf fields IH]; [cbn; lia|]. rewrite !sortLess_cons, (field_cmp_antisym sf b a).
  by destruct (field_cmp sf a b).
Qed.

(** Every sort field has values of one kind in the rows [P]. *)
Definition one_kind (fields : list SortField) (P : ScanResult → Prop) : Prop :=
  ∀ sf, sf ∈ fields → homogeneous (λ v, ∃ r, P r ∧ v = sort_key r (sf_Field sf)).

Section kind.
Context (P : ScanResult → Prop) (sf : SortField).
Context (Hk : homogeneous (λ v, ∃ r, P r ∧ v = sort_key r (sf_Field sf))).

Lemma field_cmp_le_lt a b c :
  P a → P b → P c → field_cmp sf a b ≠ Gt → field_cmp sf b c = Lt → field_cmp sf a c = Lt.
Proof.
  intros Ha Hb Hc. unfold field_cmp. set (ka := sort_key a _). set (kb := sort_key b _). set (kc := sort_key c _).
  assert (HP : (∃ r, P r ∧ ka = sort_key r (sf_Field sf)) ∧ (∃ r, P r ∧ kb = sort_key r (sf_Field sf)) ∧
               (∃ r, P r ∧ kc = sort_key r (sf_Field sf))) by (subst ka kb kc; eauto 10).
  clearbody ka kb kc. destruct HP as (Ka & Kb & Kc). destruct (sf_Desc sf); intros H1 H2.
  - pose proof (Compare_lt_trans _ kc kb ka Hk Kc Kb Ka) as Ht.
    rewrite (Compare_antisym kc kb), (Compare_antisym kb ka), H2, (Compare_antisym kc ka) in Ht. by apply Ht.
  - pose proof (Compare_lt_trans _ kb kc ka Hk Kb Kc Ka H2) as Ht.
    rewrite (Compare_antisym kc ka), (Compare_antisym kb ka) in Ht.
    destruct (Compare ka kc); [|done|]; destruct (Compare ka kb); try done; by discriminate Ht.
Qed.

Lemma field_cmp_trans a b c :
  P a → P b → P c → field_cmp sf a b ≠ Gt → field_cmp sf b c ≠ Gt →
  field_cmp sf a c ≠ Gt ∧ (field_cmp sf a c = Eq → field_cmp sf a b = Eq ∧ field_cmp sf b c = Eq).
Proof.
  intros Ha Hb Hc H1 H2. destruct (field_cmp sf b c) eqn:Ebc; [| |done].
  - destruct (field_cmp sf a b) eqn:Eab; [| |done].
    + assert (field_cmp sf a c ≠ Lt ∧ field_cmp sf a c ≠ Gt) as [? ?]; [|by destruct (field_cmp sf a c)].
      split; intros E.
      * pose proof (field_cmp_le_lt b a c Hb Ha Hc) as H. rewrite (field_cmp_antisym sf b a), Eab in H. by rewrite H in Ebc.
      * pose proof (field_cmp_le_lt b c a Hb Hc Ha) as H. rewrite (field_cmp_antisym sf c a), E, Ebc in H.
        rewrite (field_cmp_antisym sf b a), Eab in H. cbn in H. by discriminate H.
    + assert (E : field_cmp sf a c = Lt); [|by rewrite E].
      assert (Hca : field_cmp sf c a = Gt ∨ field_cmp sf c a ≠ Gt) by (destruct (field_cmp sf c a); auto).
      destruct Hca as [Hca|Hca]; [by rewrite field_cmp_antisym, Hca|]. exfalso.
      pose proof (field_cmp_le_lt c a b Hc Ha Hb Hca Eab) as H. rewrite field_cmp_antisym, Ebc in H. done.
  - by rewrite (field_cmp_le_lt a b c).
Qed.
End kind.

Lemma sortLess_trans fields P a b c :
  one_kind fields P → P a → P b → P c →
  sortLess fields b a = false → sortLess fields c b = false → sortLess fields c a = false.
Proof.
  intros Hk Ha Hb Hc. induction fields as [|sf fields IH]; [cbn; lia|].
  assert (Hk' : one_kind fields P) by (intros sf' Hin; apply Hk; by right). specialize (IH Hk').
  pose proof (field_cmp_trans P sf (Hk sf (list_elem_of_here _ _)) a b c Ha Hb Hc) as Htr.
  rewrite !sortLess_cons, (field_cmp_antisym sf b a), (field_cmp_antisym sf c b), (field_cmp_antisym sf c a).
  intros H1 H2. destruct Htr as [Hle Heq]; [by destruct (field_cmp sf a b)|by destruct (field_cmp sf b c)|].
  destruct (field_cmp sf a c); cbn [CompOpp]; [|done|done]. destruct (Heq eq_refl) as [E1 E2]. rewrite E1 in H1. rewrite E2 in H2. by apply IH.
Qed.

Lemma no_ties_ids fields l : NoDup (sr_ID <$> l) → no_ties (sortLess fields) l.
Proof.
  intros Hnd x y Hx Hy H1 H2. apply (NoDup_map_inj sr_ID l); [done..|]. by eapply sortLess_ties.
Qed.

(** ** The buffer *)

Lemma collect_end less cap after r acc : (collect less cap after r acc).2 ≠ Some SErrViewEnd.
Proof. unfold collect. by destruct (after r). Qed.

Lemma feed_collect less cap after l m buf :
  feed (collect less cap after) l (m, buf) =
  ((m + length (filter (λ r, after r = true) l),
    match cap with
    | Some k => foldl (topK_push less k) buf (filter (λ r, after r = true) l)
    | None => buf ++ filter (λ r, after r = true) l
    end), None).
Proof.
  revert m buf. induction l as [|r l IH]; intros m buf.
  - cbn. rewrite Nat.add_0_r. destruct cap; [done|]. by rewrite app_nil_r.
  - cbn [feed]. unfold collect at 1. destruct (after r) eqn:Ea; cbn [negb fst snd].
    + rewrite IH, filter_cons_True by done. cbn [length foldl]. f_equal. f_equal; [lia|].
      destruct cap; [done|]. by rewrite <- app_assoc.
    + rewrite IH, filter_cons_False by (by rewrite Ea). done.
Qed.

(** The options of an ordered scan that does not overflow. *)
Definition page_bounds (opts : ScanOptions) : Prop :=
  (0 ≤ so_Offset opts)%Z ∧ in_i64 (so_Offset opts) ∧ in_i64 (so_Limit opts) ∧ (so_Offset opts + so_Limit opts < two63)%Z.

Definition buffer_cap (opts : ScanOptions) : option Z :=
  if (0 <? so_Limit opts)%Z then Some (i64 (so_Offset opts + so_Limit opts)) else None.

Lemma page_cap opts : page_bounds opts → (0 < so_Limit opts)%Z →
  i64 (so_Offset opts + so_Limit opts) = Z.of_nat (Z.to_nat (so_Offset opts) + Z.to_nat (so_Limit opts)).
Proof. intros (? & ? & ? & ?) ?. rewrite i64_id; [lia|]. unfold in_i64, two63 in *. lia. Qed.

Lemma slice_whole opts s : (0 ≤ so_Offset opts)%Z → slice_page opts s = Some (page_of opts s).
Proof.
  intros Ho. unfold slice_page, page_of, limited. destruct (Z.ltb_spec (so_Offset opts) (Z.of_nat (length s))).
  - destruct (Z.ltb_spec (so_Offset opts) 0); [lia|]. destruct (0 <? so_Limit opts)%Z; cbn [andb]; [|done].
    destruct (Z.ltb_spec (so_Limit opts) (Z.of_nat (length (drop (Z.to_nat (so_Offset opts)) s)))); [done|].
    by rewrite take_ge by lia.
  - rewrite drop_ge by lia. rewrite take_nil. by destruct (0 <? so_Limit opts)%Z.
Qed.

Section sorted.
Context (fields : list SortField) (P : ScanResult → Prop) (Hk : one_kind fields P).
Local Notation less := (sortLess fields).

Lemma sorted_perm l1 l2 : Forall P l1 → NoDup (sr_ID <$> l1) → l1 ≡ₚ l2 → ssort less l1 = ssort less l2.
Proof.
  intros HP Hnd Hp. refine (ssort_unique_on less P _ _ l1 l2 HP (no_ties_ids fields l1 Hnd) Hp).
  - intros x y _ _. apply sortLess_asym.
  - intros x y z. by apply sortLess_trans.
Qed.

Lemma buffer_page opts l :
  page_bounds opts → Forall P l → NoDup (sr_ID <$> l) →
  slice_page opts (ssort less (match buffer_cap opts with
                               | Some k => foldl (topK_push less k) [] l
                               | None => l
                               end)) = Some (page_of opts (ssort less l)).
Proof.
  intros Hb HP Hnd. unfold buffer_cap. destruct (Z.ltb_spec 0 (so_Limit opts)) as [Hl|Hl]; [|by apply slice_whole, Hb].
  rewrite page_cap by done. change (ssort less (foldl ?f ?b l)) with (topK_sorted less (foldl f b l)).
  rewrite (topK_take less P); [|intros x y _ _; apply sortLess_asym|intros x y z; by apply sortLess_trans|lia|done|by apply no_ties_ids].
  rewrite slice_whole by apply Hb. unfold page_of, limited. destruct (Z.ltb_spec 0 (so_Limit opts)); [|lia].
  f_equal. rewrite skipn_firstn_comm, take_take. f_equal. lia.
Qed.
End sorted.

(** ** Page tokens *)

(** The cursor of a row. *)
Definition row_token (fields : list SortField) (r : ScanResult) : string :=
  encodeCursor (map (λ sf, sort_key r (sf_Field sf)) fields) (sr_ID r).

(** A row whose sort keys and id survive JSON. *)
Definition row_ok (fields : list SortField) (r : ScanResult) : Prop :=
  Forall (λ sf, value_wf (sort_key r (sf_Field sf))) fields ∧ in_u64 (sr_ID r).

Lemma dec_member_k k l :
  dec_cursor_member k (b_of_s "k", JArr l) = ks ← mapM value_of_json l; Some (MkCursor ks (cur_ID k)).
Proof. reflexivity. Qed.

Lemma dec_member_i k j :
  dec_cursor_member k (b_of_s "i", j) = i ← dec_u64 (cur_ID k) j; Some (MkCursor (cur_Keys k) i).
Proof. reflexivity. Qed.

Lemma cursor_roundtrip keys id :
  Forall value_wf keys → in_u64 id → decodeCursor (encodeCursor keys id) = Some (MkCursor keys id).
Proof.
  intros Hk Hid. unfold decodeCursor, encodeCursor. rewrite b_of_s_of_b, b64_decode_encode. cbn [mbind option_bind].
  rewrite unmarshal_print.
  - cbn [mbind option_bind]. unfold cursor_json. cbn [dec_cursor_members cur_Keys cur_ID].
    assert (Hmap : mapM value_of_json (map value_to_json keys) = Some keys).
    { clear Hid. induction Hk as [|v keys Hv _ IH]; [done|]. cbn [map mapM]. by rewrite value_json_roundtrip, IH. }
    rewrite dec_member_k, Hmap. cbn [mbind option_bind]. rewrite dec_member_i. cbn [cur_ID cur_Keys]. by rewrite dec_num_u.
  - unfold cursor_json. cbn [json_ok forallb snd cur_Keys cur_ID]. rewrite andb_true_r. apply andb_true_iff. split.
    + apply forallb_forall. intros x (v & <- & Hv)%in_map_iff. apply value_to_json_ok.
      rewrite Forall_forall in Hk. apply Hk. by apply list_elem_of_In.
    + unfold num_u. cbn [json_ok]. apply num_ok_fmt_N.
  - apply (members_utf8_cons "k" (JArr (map value_to_json keys))); [done| |auto with utf8].
    cbn [json_utf8]. apply forallb_forall. intros x (v & <- & Hv)%in_map_iff. apply value_to_json_utf8.
    rewrite Forall_forall in Hk. apply Hk. by apply list_elem_of_In.
Qed.

Lemma foldl_insert_row (r : ScanResult) names m f :
  foldl (λ m kv, <[kv.1 := kv.2]> m) m (zip names (map (sort_key r) names)) !! f =
  if decide (f ∈ names) then Some (sort_key r f) else (m : vdata) !! f.
Proof.
  revert m. induction names as [|x names IH]; intros m; cbn [map zip foldl fst snd].
  - rewrite decide_False; [done|]. apply not_elem_of_nil.
  - change (zip_with pair names (map (sort_key r) names)) with (zip names (map (sort_key r) names)). rewrite IH.
    destruct (decide (f ∈ names)) as [Hin|Hin]; [by rewrite decide_True by (by right)|].
    destruct (decide (f = x)) as [->|Hne].
    + rewrite decide_True by left. by rewrite lookup_insert_eq.
    + rewrite decide_False; [by rewrite lookup_insert_ne|]. by intros [?|?]%elem_of_cons.
Qed.

Lemma sortLess_ext fields a a' b :
  (∀ sf, sf ∈ fields → sort_key a (sf_Field sf) = sort_key a' (sf_Field sf)) → sr_ID a = sr_ID a' →
  sortLess fields a b = sortLess fields a' b.
Proof.
  intros Hs Hid. induction fields as [|sf fields IH]; [cbn; by rewrite Hid|]. cbn [sortLess].
  rewrite Hs by left. rewrite IH; [done|]. intros sf' H. apply Hs. by right.
Qed.

(** The token of a row seeks to the rows after it. *)
Lemma cursorAfter_row fields r :
  row_ok fields r → ∃ after, cursorAfter (row_token fields r) fields = Ok after ∧ ∀ x, after x = sortLess fields r x.
Proof.
  intros [Hv Hid]. unfold cursorAfter. rewrite decide_False.
  - unfold row_token. rewrite cursor_roundtrip by (done || by apply Forall_fmap). cbn [cur_Keys]. rewrite length_map.
    rewrite decide_False by (intros H; by apply H). eexists. split; [done|]. intros x. apply sortLess_ext; [|done].
    intros sf Hsf. unfold sort_key at 1. unfold boundary. cbn [sr_Data cur_Keys].
    rewrite <- (map_map sf_Field (sort_key r) fields). rewrite foldl_insert_row, decide_True; [done|].
    apply list_elem_of_fmap. eauto.
  - unfold row_token. intros E. pose proof (cursor_roundtrip (map (λ sf, sort_key r (sf_Field sf)) fields) (sr_ID r)) as H.
    rewrite E in H. specialize (H ltac:(by apply Forall_fmap) Hid). vm_compute in H. discriminate H.
Qed.

(** ** Pages *)

(** The rows an ordered scan resumed after the row [start] pages through. *)
Definition after_row (fields : list SortField) (start : option ScanResult) (x : ScanResult) : bool :=
  match start with None => true | Some r => sortLess fields r x end.

Definition rows_after (fields : list SortField) (start : option ScanResult) (M : list ScanResult) : list ScanResult :=
  ssort (sortLess fields) (filter (λ x, after_row fields start x = true) M).

Definition start_token (fields : list SortField) (start : option ScanResult) : string :=
  match start with None => "" | Some r => row_token fields r end.

Definition start_ok (fields : list SortField) (start : option ScanResult) : Prop :=
  match start with None => True | Some r => row_ok fields r end.

Lemma cursorAfter_start fields start :
  start_ok fields start →
  ∃ after, cursorAfter (start_token fields start) fields = Ok after ∧ ∀ x, after x = after_row fields start x.
Proof.
  destruct start as [r|]; [apply cursorAfter_row|]. intros _. unfold cursorAfter. rewrite decide_True by done. by eexists.
Qed.

(** The token after a page: that of its last row when rows are left beyond it. *)
Definition token_after (fields : list SortField) (opts : ScanOptions) (rows : list ScanResult) : string :=
  if decide (0 < so_Limit opts ∧ so_Offset opts + so_Limit opts < Z.of_nat (length rows))%Z
  then start_token fields (last (page_of opts rows)) else "".

Lemma next_token_after fields opts rows :
  page_bounds opts → next_token opts fields (page_of opts rows) (length rows) = token_after fields opts rows.
Proof.
  intros Hb. unfold next_token, token_after, start_token, row_token. destruct (last (page_of opts rows)) as [r|].
  - destruct (Z.ltb_spec 0 (so_Limit opts)) as [Hl|Hl]; cbn [andb].
    + rewrite page_cap by done. destruct (Z.ltb_spec (Z.of_nat (Z.to_nat (so_Offset opts) + Z.to_nat (so_Limit opts))) (Z.of_nat (length rows))).
      * rewrite decide_True; [done|]. destruct Hb as [? _]. lia.
      * rewrite decide_False; [done|]. destruct Hb as [? _]. lia.
    + rewrite decide_False; [done|]. lia.
  - by destruct (decide _).
Qed.

Lemma emit_page_enc {S} (yield : ScanResult → S → S * option scan_err) c c' fields page acc :
  enc c' = enc c → emit_page yield c' fields page acc = emit_page yield c fields page acc.
Proof.
  intros E. revert acc. induction page as [|r page IH]; intros acc; [done|]. cbn [emit_page].
  assert (Hc : counting yield c' fields r acc = counting yield c fields r acc) by (unfold counting, finalizeRecord; by rewrite E).
  rewrite Hc. destruct (counting yield c fields r acc) as [acc' [e|]]; [done|]. apply IH.
Qed.

Lemma filter_bool_ext {A} (f g : A → bool) (l : list A) : (∀ x, f x = g x) → filter (λ x, f x = true) l = filter (λ x, g x = true) l.
Proof. intros H. apply list_filter_iff. intros x. by rewrite H. Qed.

Section ordered.
Context (regexp : bytes → bytes → option bool).
Context {S : Type} (yield : ScanResult → S → S * option scan_err).

(** The rows of a log, alive or not. *)
Definition row_of (ds : option decisions) (L : list line) (x : ScanResult) : Prop :=
  ∃ id e, records ds L !! id = Some e ∧ x = result_of id e.

Lemma scanOrdered_spec st L f grow opts fields start a checks :
  world st → query_ready (coll st) L f grow → quiet checks → page_bounds opts →
  one_kind fields (row_of (cdecisions (coll st)) L) → start_ok fields start →
  so_PageToken opts = start_token fields start →
  wp (scanOrdered regexp yield grow f opts fields a checks) st (λ st' r,
    let rows := rows_after fields start (matches regexp (cdecisions (coll st)) L f (clockFloor (coll st'))) in
    let o := emit_page yield (coll st) (so_Fields opts) (page_of opts rows) (a, 0) in
    ∃ stats, r = Ok (stats, o.1.1, o.2) ∧ RowsReturned stats = o.1.2 ∧
      NextPageToken stats = match o.2 with None => token_after fields opts rows | Some _ => "" end).
Proof.
  intros Hw Hq Hch Hb Hk Hst Htok. unfold scanOrdered. rewrite Htok.
  destruct (cursorAfter_start fields start Hst) as (after & -> & Hafter).
  apply wp_bind. eapply wp_mono; [by apply (forEachMatch_spec regexp _ (collect_end _ _ after) st L f grow)|]. cbn beta.
  intros st' r (_ & F & l & w & e & -> & Hp & Hfeed). cbn [w_acc] in Hfeed. rewrite feed_collect in Hfeed.
  injection Hfeed as Hacc <-. rewrite <- Hacc. rewrite (filter_bool_ext _ _ l Hafter). cbn [Nat.add app].
  set (M := matches _ _ _ _ _) in *. set (l' := filter _ l).
  assert (Hp' : l' ≡ₚ filter (λ x, after_row fields start x = true) M) by (subst l'; by rewrite Hp).
  assert (HP : Forall (row_of (cdecisions (coll st)) L) l').
  { apply Forall_forall. intros x [_ Hx]%list_elem_of_filter. rewrite Hp in Hx.
    apply elem_of_matches in Hx as (id & e & He & _ & ->). by exists id, e. }
  assert (Hnd : NoDup (sr_ID <$> l')).
  { eapply sublist_NoDup; [|apply fmap_sublist, sublist_filter]. rewrite Hp. apply matches_ids. }
  pose proof (buffer_page fields _ Hk opts l' Hb HP Hnd) as Hpage. unfold buffer_cap in Hpage.
  assert (Hrows : ssort (sortLess fields) l' = rows_after fields start M) by (by eapply sorted_perm).
  rewrite Hrows in Hpage. cbn zeta.
  assert (Hlen : length l' = length (rows_after fields start M)) by (by rewrite <- Hrows, ssort_length).
  set (rows := rows_after fields start M) in *.
  destruct (emit_page yield (coll st) (so_Fields opts) (page_of opts rows) (a, 0)) as [[a' n] e] eqn:Eo.
  assert (Hend : ∃ stats, Ok (set_returned (w_stats w) n
      (match e with None => next_token opts fields (page_of opts rows) (length l') | Some _ => "" end), a', e) =
      Ok (E := cerr) (stats, a', e) ∧ RowsReturned stats = n ∧
      NextPageToken stats = match e with None => token_after fields opts rows | Some _ => "" end).
  { eexists. split; [done|]. split; [done|]. destruct e; [done|]. rewrite Hlen. by apply next_token_after. }
  destruct (0 <? so_Limit opts)%Z; rewrite Hpage; apply wp_get; rewrite (emit_page_enc _ _ _ _ _ _ (fr_enc _ _ F)), Eo;
    apply wp_ret; fold M rows; rewrite Eo; exact Hend.
Qed.
End ordered.

(** ** Pages tile the rows *)

Lemma filter_iff_elem {A} (P Q : A → Prop) `{∀ x, Decision (P x), ∀ x, Decision (Q x)} (l : list A) :
  (∀ x, x ∈ l → P x ↔ Q x) → filter P l = filter Q l.
Proof.
  induction l as [|x l IH]; intros H1; [done|]. assert (Hl : filter P l = filter Q l) by (apply IH; intros y Hy; apply H1; by right).
  pose proof (H1 x (list_elem_of_here _ _)) as Hx. rewrite !filter_cons, Hl. by destruct (decide (P x)), (decide (Q x)); try tauto.
Qed.

Section tile.
Context (fields : list SortField) (P : ScanResult → Prop) (Hk : one_kind fields P).
Local Notation less := (sortLess fields).

Lemma sortLess_lt_trans a b c : P a → P b → P c → less a b = true → less b c = true → less a c = true.
Proof.
  intros Ha Hb Hc H1 H2. destruct (less a c) eqn:E; [done|].
  pose proof (sortLess_trans fields P b c a Hk Hb Hc Ha (sortLess_asym _ _ _ H2) E) as H. congruence.
Qed.

Lemma rows_sorted l : Forall P l → StronglySorted (not_after less) (ssort less l).
Proof.
  apply ssort_sorted_on; [intros x y _ _; apply sortLess_asym|]. intros x y z. by apply sortLess_trans.
Qed.

(** In a sorted list the rows after a row are those behind it. *)
Lemma filter_behind A r B :
  StronglySorted (not_after less) ((A ++ [r]) ++ B) → NoDup (sr_ID <$> (A ++ [r]) ++ B) →
  filter (λ x, less r x = true) ((A ++ [r]) ++ B) = B.
Proof.
  intros Hs Hnd. rewrite filter_app, filter_none, filter_all; [done| |].
  - apply Forall_forall. intros x Hx. destruct (less r x) eqn:E; [done|]. exfalso.
    assert (Hr : r ∈ A ++ [r]) by (apply elem_of_app; right; by left).
    pose proof (StronglySorted_app_1_elem_of _ _ _ r x Hs Hr Hx) as Hn. unfold not_after in Hn.
    rewrite fmap_app in Hnd. apply NoDup_app in Hnd as (_ & Hnd & _). apply (Hnd (sr_ID r)).
    + apply list_elem_of_fmap. eauto.
    + rewrite (sortLess_ties fields r x E Hn). apply list_elem_of_fmap. eauto.
  - apply Forall_forall. intros x Hx. assert (less r x = false); [|congruence].
    apply StronglySorted_app_1_l in Hs. apply elem_of_app in Hx as [Hx|Hx].
    + apply (StronglySorted_app_1_elem_of _ _ _ x r Hs Hx). by left.
    + apply list_elem_of_singleton in Hx as ->. destruct (less r r) eqn:E; [|done]. by rewrite (sortLess_asym _ _ _ E) in E.
Qed.

Lemma rows_split start M A r B :
  Forall P M → NoDup (sr_ID <$> M) → (∀ r0, start = Some r0 → P r0) →
  rows_after fields start M = (A ++ [r]) ++ B → rows_after fields (Some r) M = B.
Proof.
  intros HP Hnd Hst Hrows. unfold rows_after in *. set (M' := filter _ M) in Hrows.
  assert (HP' : Forall P M') by (apply Forall_forall; intros x [_ Hx]%list_elem_of_filter; rewrite Forall_forall in HP; auto).
  assert (Hs : StronglySorted (not_after less) ((A ++ [r]) ++ B)) by (rewrite <- Hrows; by apply rows_sorted).
  assert (Hnd' : NoDup (sr_ID <$> (A ++ [r]) ++ B)).
  { rewrite <- Hrows, ssort_perm. eapply sublist_NoDup; [exact Hnd|]. apply fmap_sublist, sublist_filter. }
  assert (Hr : r ∈ M').
  { rewrite <- (ssort_perm less M'), Hrows. apply elem_of_app. left. apply elem_of_app. right. by left. }
  apply list_elem_of_filter in Hr as [Har Hr]. rewrite Forall_forall in HP.
  assert (Hsub : filter (λ x, after_row fields (Some r) x = true) M = filter (λ x, less r x = true) M').
  { unfold M'. rewrite list_filter_filter. apply filter_iff_elem. intros x Hx. cbn [after_row]. split; [|by intros [? _]].
    intros Hlt. split; [done|]. destruct start as [r0|]; [|done]. cbn [after_row] in *.
    eapply (sortLess_lt_trans r0 r x); eauto. }
  rewrite Hsub. assert (HB : filter (λ x, less r x = true) (ssort less M') = B) by (rewrite Hrows; by apply filter_behind).
  assert (HsB : StronglySorted (not_after less) B) by (by eapply StronglySorted_app_1_r).
  etrans; [|exact (ssort_fixed less B HsB)].
  eapply sorted_perm; [exact Hk| | |by rewrite <- HB, ssort_perm].
  - apply Forall_forall. intros x [_ Hx]%list_elem_of_filter. rewrite Forall_forall in HP'. auto.
  - eapply sublist_NoDup; [exact Hnd|]. apply fmap_sublist. etrans; apply sublist_filter.
Qed.
End tile.

(** ** Properties *)

(** Claim C25: an ordered scan with a non-negative [Offset], and [Offset] and [Limit]
    whose sum does not overflow, over a collection and a filter as for [Scan], by
    sort fields that are not encrypted and each hold values of one kind, hands its
    caller exactly the [Offset], [Limit] slice of the live matches in the total order
    of the sort fields and the id; started from the token of a row (its keys in
    UTF-8) it takes the rows strictly after that row, and the token it returns is
    that of its last row exactly when rows are left beyond the page.  (Mixed kinds
    and a negative offset do otherwise: [mixed_kinds_pages_differ],
    [negative_offset_panics].) *)
Theorem ordered_scan_exact regexp {S} (yield : ScanResult → S → S * option scan_err) st L grow opts start a checks st' r :
  let f := default MatchAll (so_Filter opts) in let fields := sort_fields opts in
  world st → query_ready (coll st) L f grow → quiet checks → page_bounds opts →
  fields ≠ [] ∨ so_PageToken opts ≠ "" →
  (∀ en, enc (coll st) = Some en → encrypted_sort en opts = None) →
  one_kind fields (row_of (cdecisions (coll st)) L) → start_ok fields start →
  so_PageToken opts = start_token fields start →
  ScanStream regexp yield grow opts a checks st = (st', r) →
  let rows := rows_after fields start (matches regexp (cdecisions (coll st)) L f (clockFloor (coll st'))) in
  let o := emit_page yield (coll st) (so_Fields opts) (page_of opts rows) (a, 0) in
  ∃ stats, r = Ok (stats, o.1.1, o.2) ∧ RowsReturned stats = o.1.2 ∧
    NextPageToken stats = match o.2 with None => token_after fields opts rows | Some _ => "" end.
Proof.
  intros f fields Hw Hq Hch Hb Hord Henc Hk Hst Htok Hrun.
  refine (wp_run _ _ (λ st' r, _) _ _ _ Hrun). unfold ScanStream. apply wp_checkFenced.
  { intros [? H]. by rewrite (qr_open _ _ _ _ Hq) in H. }
  intros _. apply wp_get. fold f fields.
  assert (Hne : match enc (coll st) with Some en => encrypted_sort en opts | None => None end = None)
    by (destruct (enc (coll st)); auto).
  rewrite Hne. assert (Hor : bool_decide (fields = []) && bool_decide (so_PageToken opts = "") = false).
  { apply andb_false_iff. rewrite !bool_decide_eq_false. done. }
  rewrite Hor. by apply scanOrdered_spec.
Qed.

(** Claim C26: when each sort field holds values of one kind and the keys of the last
    row of a page are values JSON carries (strings in UTF-8), following the tokens
    drops no row and repeats none: the rows after a page of [k] rows are the rows the
    token of its last row leads to, so that the pages, one behind the other, are the
    sorted list. *)
Theorem pages_tile fields P M start k r :
  one_kind fields P → Forall P M → NoDup (sr_ID <$> M) → (∀ r0, start = Some r0 → P r0) → row_ok fields r →
  last (take k (rows_after fields start M)) = Some r →
  (∃ after, cursorAfter (row_token fields r) fields = Ok after ∧
     ssort (sortLess fields) (filter (λ x, after x = true) M) = rows_after fields (Some r) M) ∧
  rows_after fields start M = take k (rows_after fields start M) ++ rows_after fields (Some r) M.
Proof.
  intros Hk HP Hnd Hst Hr Hlast. split.
  - destruct (cursorAfter_row fields r Hr) as (after & Ha & Hx). exists after. split; [done|].
    unfold rows_after. by rewrite (filter_bool_ext after (after_row fields (Some r)) M Hx).
  - apply last_Some in Hlast as [A HA]. rewrite (rows_split fields P Hk start M A r (drop k (rows_after fields start M))) by
      (try done; by rewrite <- HA, take_drop). by rewrite take_drop.
Qed.

(** ** Divergences *)

Definition sort_row (id : Z) (v : value) : ScanResult := MkSR id 1 {[ "n" := v ]} zero_time.

(** The bounded buffer and the full sort disagree when the values of the sort
    field are of mixed kinds, because the comparison then has cycles. *)
Lemma mixed_kinds_pages_differ :
  let rows := [sort_row 1 (VNum (MkF false [1] 2)); sort_row 2 (VStr "1x"); sort_row 3 (VNum (MkF false [2] 1))] in
  let less := sortLess [MkSF "n" false] in
  map sr_ID (topK_sorted less (foldl (topK_push less 1) [] rows)) ≠ map sr_ID (take 1 (ssort less rows)).
Proof. vm_compute. discriminate. Qed.

(** An ordered scan with a negative offset panics. *)
Lemma negative_offset_panics opts page :
  (so_Offset opts < 0)%Z → slice_page opts page = None.
Proof.
  intros H. unfold slice_page. destruct (Z.ltb_spec (so_Offset opts) (Z.of_nat (length page))); [|lia].
  by destruct (Z.ltb_spec (so_Offset opts) 0); [|lia].
Qed.

(** ** Witnesses *)

Definition ordered_rows : ScanOptions := MkSO (Some (by_n OpGte)) 1 0 "n" true [] "" [].

Lemma ordered_scan_exact_witness :
  ∃ st' stats rows,
    ScanStream no_regexp collect_rows still ordered_rows [] [] sealed_st = (st', Ok (stats, rows, None)) ∧
    map sr_ID rows = [7%Z] ∧ NextPageToken stats = "".
Proof.
  destruct (ScanStream no_regexp collect_rows still ordered_rows [] [] sealed_st) as [st' r] eqn:E.
  assert (Hv : match (ScanStream no_regexp collect_rows still ordered_rows [] [] sealed_st).2 with
               | Ok (stats, rows, None) => map sr_ID rows = [7%Z] ∧ NextPageToken stats = "" | _ => False end)
    by (vm_compute; split; reflexivity).
  rewrite E in Hv. cbn [snd] in Hv.
  destruct (ordered_scan_exact no_regexp collect_rows sealed_st _ still ordered_rows None [] [] st' r sealed_world
    (sealed_ready OpGte) (List.Forall_nil _)) as (stats & Hr & _).
  - unfold page_bounds, in_i64, two63. cbn. lia.
  - left. discriminate.
  - discriminate.
  - intros sf Hsf. apply list_elem_of_singleton in Hsf as ->. left. intros v (r0 & (id & e & He & ->) & ->).
    assert (Hrec : records (cdecisions sealed_coll) [stored old_entry] = {[ 7%Z := (set_crc old_entry (checksum old_entry), 1%Z) ]})
      by (vm_compute; reflexivity).
    change (records (cdecisions sealed_coll) [stored old_entry] !! id = Some e) in He. rewrite Hrec in He. apply lookup_singleton_Some in He as [<- <-]. vm_compute. reflexivity.
  - exact I.
  - reflexivity.
  - exact E.
  - destruct r as [[[stats' rows] [e|]]|]; [destruct Hv| |destruct Hv].
    exists st', stats', rows. split; [reflexivity|exact Hv].
Defined.

Definition three_rows : list ScanResult :=
  [sort_row 3 (VNum (MkF false [5] 1)); sort_row 1 (VNum (MkF false [7] 1)); sort_row 2 (VNum (MkF false [5] 1))].

Lemma pages_tile_witness :
  map sr_ID (rows_after [MkSF "n" false] None three_rows) = [2; 3; 1]%Z ∧
  rows_after [MkSF "n" false] None three_rows =
  take 2 (rows_after [MkSF "n" false] None three_rows) ++ rows_after [MkSF "n" false] (Some (sort_row 3 (VNum (MkF false [5] 1)))) three_rows.
Proof.
  split; [vm_compute; reflexivity|].
  apply (pages_tile [MkSF "n" false] (λ r, is_num (sort_key r "n") = true) three_rows None 2).
  - intros sf Hsf. apply list_elem_of_singleton in Hsf as ->. left. intros v (r & Hr & ->). exact Hr.
  - repeat (constructor; [reflexivity|]). constructor.
  - repeat (constructor; [vm_compute; set_solver|]). constructor.
  - discriminate.
  - split; [|split; vm_compute; [discriminate|reflexivity]]. constructor; [|constructor].
    apply (num_wf 5); lia.
  - vm_compute. reflexivity.
Defined.
