(* ===== verification/Sha256.v ===== *)
(** * [crypto/sha256] and [encoding/hex]

    The hash of the participant digests of cross-collection transactions
    ([engine/xtx_journal.go]) and its text form. *)
From Stdlib Require Import Ascii Lia ZArith.
From stdpp Require Import prelude strings.
From S2P Require Import Prelude GoNum.

Local Open Scope N_scope.

(** ** SHA-256 *)

Definition w32 (n : N) : N := n mod 4294967296.
Definition add32 (a b : N) : N := w32 (a + b).
Definition rotr (k x : N) : N := N.lor (N.shiftr x k) (w32 (N.shiftl x (32 - k))).

Definition round_constants : list N :=
  [1116352408; 1899447441; 3049323471; 3921009573; 961987163; 1508970993; 2453635748; 2870763221;
   3624381080; 310598401; 607225278; 1426881987; 1925078388; 2162078206; 2614888103; 3248222580;
   3835390401; 4022224774; 264347078; 604807628; 770255983; 1249150122; 1555081692; 1996064986;
   2554220882; 2821834349; 2952996808; 3210313671; 3336571891; 3584528711; 113926993; 338241895;
   666307205; 773529912; 1294757372; 1396182291; 1695183700; 1986661051; 2177026350; 2456956037;
   2730485921; 2820302411; 3259730800; 3345764771; 3516065817; 3600352804; 4094571909; 275423344;
   430227734; 506948616; 659060556; 883997877; 958139571; 1322822218; 1537002063; 1747873779;
   1955562222; 2024104815; 2227730452; 2361852424; 2428436474; 2756734187; 3204031479; 3329325298].

Definition initial_hash : list N :=
  [1779033703; 3144134277; 1013904242; 2773480762; 1359893119; 2600822924; 528734635; 1541459225].

Definition nth_word (l : list N) (i : nat) : N := nth i l 0.

(** Big-endian words and bytes. *)
Definition be_word (a b c d : ascii) : N :=
  N_of_ascii a * 16777216 + N_of_ascii b * 65536 + N_of_ascii c * 256 + N_of_ascii d.

Fixpoint words (b : bytes) : list N :=
  match b with
  | a :: b :: c :: d :: r => be_word a b c d :: words r
  | _ => []
  end.

Definition be_bytes (k : nat) (n : N) : bytes :=
  map (λ i, ascii_of_N ((n / 2 ^ (8 * N.of_nat (k - 1 - i))) mod 256)) (seq 0 k).

(** One bit, zeros, and the length in bits. *)
Definition padded (m : bytes) : bytes :=
  let l := length m in
  m ++ ["128"%char] ++ repeat "000"%char ((119 - l mod 64) mod 64)%nat ++ be_bytes 8 (8 * N.of_nat l).

(** The message schedule: the words so far, the latest first. *)
Fixpoint schedule (n : nat) (w : list N) : list N :=
  match n with
  | O => w
  | S n' =>
      let w' := schedule n' w in
      let x15 := nth_word w' 14 in
      let x2 := nth_word w' 1 in
      let s0 := N.lxor (N.lxor (rotr 7 x15) (rotr 18 x15)) (N.shiftr x15 3) in
      let s1 := N.lxor (N.lxor (rotr 17 x2) (rotr 19 x2)) (N.shiftr x2 10) in
      add32 (add32 (nth_word w' 15) s0) (add32 (nth_word w' 6) s1) :: w'
  end.

Definition round (st : list N) (kw : N * N) : list N :=
  match st with
  | [a; b; c; d; e; f; g; h] =>
      let s1 := N.lxor (N.lxor (rotr 6 e) (rotr 11 e)) (rotr 25 e) in
      let ch := N.lxor (N.land e f) (N.land (N.lxor e 4294967295) g) in
      let t1 := add32 (add32 (add32 h s1) ch) (add32 kw.1 kw.2) in
      let s0 := N.lxor (N.lxor (rotr 2 a) (rotr 13 a)) (rotr 22 a) in
      let maj := N.lxor (N.lxor (N.land a b) (N.land a c)) (N.land b c) in
      [add32 t1 (add32 s0 maj); a; b; c; add32 d t1; e; f; g]
  | _ => st
  end.

Definition compress (st : list N) (block : list N) : list N :=
  zip_with add32 st (foldl round st (zip round_constants (rev (schedule 48 (rev block))))).

Fixpoint compress_all (fuel : nat) (st ws : list N) : list N :=
  match fuel with
  | O => st
  | S fuel' =>
      match ws with
      | [] => st
      | _ => compress_all fuel' (compress st (take 16 ws)) (drop 16 ws)
      end
  end.

Definition sha256 (m : bytes) : bytes :=
  let ws := words (padded m) in
  concat (map (be_bytes 4) (compress_all (length ws) initial_hash ws)).

(** ** Hexadecimal *)

Definition hex_char (n : N) : ascii := ascii_of_N (if n <? 10 then 48 + n else 87 + n).

Definition hex_encode (b : bytes) : bytes :=
  concat (map (λ c, [hex_char (N_of_ascii c / 16); hex_char (N_of_ascii c mod 16)]) b).

Definition hex_val (c : ascii) : option N :=
  let n := N_of_ascii c in
  if (48 <=? n) && (n <=? 57) then Some (n - 48)
  else if (97 <=? n) && (n <=? 102) then Some (n - 87)
  else if (65 <=? n) && (n <=? 70) then Some (n - 55)
  else None.

Fixpoint hex_decode (s : bytes) : option bytes :=
  match s with
  | [] => Some []
  | a :: b :: r => x ← hex_val a; y ← hex_val b; t ← hex_decode r; Some (ascii_of_N (16 * x + y) :: t)
  | _ => None
  end.

(** [%016x]. *)
Definition hex16 (n : N) : bytes :=
  map (λ i, hex_char ((n / 16 ^ N.of_nat (15 - i)) mod 16)) (seq 0 16).

(** [strconv.ParseUint(s, 16, 64)] on lower-case digits. *)
Definition parse_hex (s : bytes) : option N :=
  foldl (λ acc c, a ← acc; v ← hex_val c; Some (16 * a + v)) (Some 0) s.

Definition isLowerHex (s : bytes) : bool :=
  forallb (λ c, let n := N_of_ascii c in (48 <=? n) && (n <=? 57) || (97 <=? n) && (n <=? 102)) s.

(** ** Facts *)

(** The empty message, and the three-letter message of the standard. *)
Lemma sha256_vectors :
  hex_encode (sha256 []) = b_of_s "e3b0c44298fc1c149afbf4c8996fb92427ae41e4649b934ca495991b7852b855" ∧
  hex_encode (sha256 (b_of_s "abc")) = b_of_s "ba7816bf8f01cfea414140de5dae2223b00361a396177a9cb410ff61f20015ad".
Proof. split; vm_compute; reflexivity. Qed.

Lemma round_length st kw : length st = 8%nat → length (round st kw) = 8%nat.
Proof. intros H. do 9 (destruct st as [|? st]; try done). Qed.

Lemma foldl_round_length l st : length st = 8%nat → length (foldl round st l) = 8%nat.
Proof. revert st. induction l as [|kw l IH]; intros st H; [done|]. cbn [foldl]. by apply IH, round_length. Qed.

Lemma compress_all_length fuel st ws : length st = 8%nat → length (compress_all fuel st ws) = 8%nat.
Proof.
  revert st ws. induction fuel as [|fuel IH]; intros st ws H; [done|]. cbn [compress_all]. destruct ws; [done|].
  apply IH. unfold compress. rewrite length_zip_with, foldl_round_length by done. lia.
Qed.

Lemma sha256_length m : length (sha256 m) = 32%nat.
Proof.
  unfold sha256. set (l := compress_all _ _ _). assert (H : length l = 8%nat) by (by apply compress_all_length).
  clearbody l. do 9 (destruct l as [|? l]; try done).
Qed.

Lemma hex_val_char d : d < 16 → hex_val (hex_char d) = Some d.
Proof.
  intros H. assert (Hd : d ∈ map N.of_nat (seq 0 16)).
  { apply list_elem_of_fmap. exists (N.to_nat d). split; [lia|]. apply elem_of_seq. lia. }
  clear H. revert d Hd. apply Forall_forall. by repeat constructor.
Qed.

Lemma hex_decode_encode b : hex_decode (hex_encode b) = Some b.
Proof.
  induction b as [|c b IH]; [done|]. unfold hex_encode in *. cbn [map concat app hex_decode].
  assert (Hc : N_of_ascii c < 256) by apply N_ascii_bounded.
  rewrite !hex_val_char by (try apply N.Div0.div_lt_upper_bound; try apply N.mod_lt; lia).
  cbn [mbind option_bind]. rewrite IH. cbn [mbind option_bind]. f_equal. f_equal.
  rewrite <- N.div_mod by lia. apply ascii_N_embedding.
Qed.

Lemma hex_encode_length b : length (hex_encode b) = (2 * length b)%nat.
Proof. induction b as [|c b IH]; [done|]. unfold hex_encode in *. cbn [map concat app length]. rewrite IH. lia. Qed.

Lemma hex16_length n : length (hex16 n) = 16%nat.
Proof. done. Qed.

(** [k] digits, and the number they stand for. *)
Definition hex_digits (k : nat) (n : N) : bytes :=
  map (λ i, hex_char ((n / 16 ^ N.of_nat (k - 1 - i)) mod 16)) (seq 0 k).

Lemma hex_digits_S k n : hex_digits (S k) n = hex_digits k (n / 16) ++ [hex_char (n mod 16)].
Proof.
  unfold hex_digits. rewrite seq_S, map_app. f_equal.
  - apply map_ext_in. intros i Hi%in_seq. f_equal. f_equal. rewrite N.Div0.div_div. f_equal.
    replace (S k - 1 - i)%nat with (S (k - 1 - i)) by lia. by rewrite Nat2N.inj_succ, N.pow_succ_r'.
  - cbn [map]. replace (S k - 1 - (0 + k))%nat with 0%nat by lia. cbn. by rewrite N.div_1_r.
Qed.

Lemma parse_hex_digits k n : n < 16 ^ N.of_nat k → parse_hex (hex_digits k n) = Some n.
Proof.
  revert n. induction k as [|k IH]; intros n Hn; [cbn in *; f_equal; lia|].
  rewrite hex_digits_S. unfold parse_hex in *. rewrite foldl_app. rewrite Nat2N.inj_succ, N.pow_succ_r' in Hn.
  rewrite IH by (apply N.Div0.div_lt_upper_bound; lia). cbn [foldl mbind option_bind].
  rewrite hex_val_char by (apply N.mod_lt; lia). cbn [mbind option_bind]. f_equal. symmetry. apply N.div_mod. lia.
Qed.

Lemma parse_hex16 n : n < 2 ^ 64 → parse_hex (hex16 n) = Some n.
Proof. apply (parse_hex_digits 16). Qed.

Lemma isLowerHex_char d : d < 16 → isLowerHex [hex_char d] = true.
Proof.
  intros H. assert (Hd : d ∈ map N.of_nat (seq 0 16)).
  { apply list_elem_of_fmap. exists (N.to_nat d). split; [lia|]. apply elem_of_seq. lia. }
  clear H. revert d Hd. apply Forall_forall. by repeat constructor.
Qed.

Lemma isLowerHex_hex16 n : isLowerHex (hex16 n) = true.
Proof.
  unfold isLowerHex, hex16. apply forallb_forall. intros c (i & <- & _)%in_map_iff.
  pose proof (isLowerHex_char ((n / 16 ^ N.of_nat (15 - i)) mod 16)) as H. unfold isLowerHex in H. cbn [forallb] in H.
  rewrite andb_true_r in H. apply H, N.mod_lt. lia.
Qed.

Lemma hex16_inj n m : n < 2 ^ 64 → m < 2 ^ 64 → hex16 n = hex16 m → n = m.
Proof. intros Hn Hm H. apply (f_equal parse_hex) in H. rewrite !parse_hex16 in H by done. congruence. Qed.

(** The digits of a number that was read. *)
Lemma hex_char_val c d : isLowerHex [c] = true → hex_val c = Some d → hex_char d = c ∧ d < 16.
Proof.
  intros Hl Hv. unfold isLowerHex in Hl. cbn [forallb] in Hl. rewrite andb_true_r in Hl. unfold hex_val in Hv.
  rewrite <- (ascii_N_embedding c). set (n := N_of_ascii c) in *. unfold hex_char.
  destruct ((48 <=? n) && (n <=? 57)) eqn:E1; cbn [orb] in Hl.
  - injection Hv as <-. apply andb_true_iff in E1 as [H1%N.leb_le H2%N.leb_le].
    destruct (N.ltb_spec (n - 48) 10); [|lia]. split; [f_equal; lia|lia].
  - rewrite Hl in Hv. injection Hv as <-. apply andb_true_iff in Hl as [H1%N.leb_le H2%N.leb_le].
    destruct (N.ltb_spec (n - 87) 10); [lia|]. split; [f_equal; lia|lia].
Qed.

Lemma hex_digits_parse s n : isLowerHex s = true → parse_hex s = Some n → hex_digits (length s) n = s ∧ n < 16 ^ N.of_nat (length s).
Proof.
  revert n. induction s as [|c s IH] using rev_ind; intros n Hl Hp; [injection Hp as <-; cbn; split; [done|lia]|].
  unfold isLowerHex in Hl. rewrite forallb_app in Hl. apply andb_true_iff in Hl as [Hl Hc].
  unfold parse_hex in Hp. rewrite foldl_app in Hp. cbn [foldl] in Hp.
  destruct (foldl _ _ s) as [a|] eqn:Ea; [|done]. cbn [mbind option_bind] in Hp.
  destruct (hex_val c) as [v|] eqn:Ev; [|done]. cbn [mbind option_bind] in Hp. injection Hp as <-.
  destruct (IH a Hl Ea) as [H1 H2]. destruct (hex_char_val c v Hc Ev) as [H3 H4].
  rewrite length_app, Nat.add_1_r, hex_digits_S, Nat2N.inj_succ, N.pow_succ_r'. split; [|lia].
  assert (Hd : (16 * a + v) / 16 = a) by (rewrite N.mul_comm, N.div_add_l, N.div_small by lia; lia).
  assert (Hm : (16 * a + v) mod 16 = v) by (rewrite N.add_comm, N.mul_comm, N.Div0.mod_add, N.mod_small by lia; done).
  by rewrite Hd, Hm, H1, H3.
Qed.
