(* ===== verification/Journal.v ===== *)
(** * The coordinator journal: [engine/xtx_journal.go]

    The decisions of cross-collection transactions are lines of one file: a
    header, then COMMIT, ABORT and RETIRE records, each with a checksum over its
    canonical JSON.  A line is accepted only when it is exactly what encoding it
    again gives.  The table of decisions is the fold of the records, and every
    operation appends a line and syncs the file before it answers. *)
From Stdlib Require Import Ascii Lia ZArith.
From stdpp Require Import prelude gmap strings sorting.
From S2P Require Import Prelude GoNum Json Value GoTime Store Wire Segment Sha256.

(** ** Constants and limits *)

Definition xtxJournalMagic : string := "SCRIVA-XTX".
Definition xtxJournalVersion : Z := 1.
Definition xtxMaxKeyLen : nat := 128.
Definition xtxEpochHexLen : nat := 16.
Definition xtxSeqHexLen : nat := 16.
Definition xtxKindAbort : string := "abort".
Definition xtxKindRetire : string := "retire".
Definition xtxMaxJournalRecord : Z := 16 * 1024 * 1024.

Definition xtxAbortReasons : list string := ["conflict"; "quota"; "io"; "recovery"; "client"].

Inductive xtx_err : Type :=
| JCorrupt (off : nat)              (* ErrXTxJournalCorrupt *)
| JUnsupported                      (* ErrXTxUnsupported *)
| JConflict (tx : string)           (* ErrXTxDecisionConflict *)
| JDurability (tx : string)         (* ErrXTxDurability *)
| JOutcomeUnknown (tx : string)     (* ErrXTxOutcomeUnknown *)
| JTooLarge                         (* ErrXTxTooLarge *)
| JClosed
| JInvalid                          (* an error of the arguments *)
| JIO.                              (* an error of a file call *)

Record xtxLimits : Type := MkLimits { MaxOps : Z; MaxParticipants : Z; MaxTxBytes : Z }.

Definition defaultXTxLimits : xtxLimits := MkLimits 1000 16 (64 * 1024 * 1024).

Definition limits_validate (l : xtxLimits) (replicationRing : Z) : bool :=
  negb ((MaxOps l <=? 0)%Z || (MaxParticipants l <=? 0)%Z || (MaxTxBytes l <=? 0)%Z) &&
  negb ((0 <? replicationRing)%Z && (replicationRing <? i64 (2 * MaxOps l))%Z).

Definition limits_check (l : xtxLimits) (ops participants nbytes : Z) : res xtx_err unit :=
  if (MaxOps l <? ops)%Z then Err JTooLarge
  else if (MaxParticipants l <? participants)%Z then Err JTooLarge
  else if (MaxTxBytes l <? nbytes)%Z then Err JTooLarge
  else Ok tt.

(** ** Transaction ids *)

Definition formatTxID (epoch : string) (seq : Z) : string :=
  s_of_b (b_of_s epoch ++ "-"%char :: hex16 (Z.to_N seq)).

Definition parseTxID (tx : string) : option (string * Z) :=
  let b := b_of_s tx in
  if decide (xtxMaxTxIDLen < length b ∨ length b ≠ xtxEpochHexLen + 1 + xtxSeqHexLen ∨
             b !! xtxEpochHexLen ≠ Some "-"%char) then None
  else
    let epoch := take xtxEpochHexLen b in
    let seq := drop (xtxEpochHexLen + 1) b in
    if negb (isLowerHex epoch) || negb (isLowerHex seq) then None
    else n ← parse_hex seq; Some (s_of_b epoch, Z.of_N n).

(** ** Digests *)

Record xtxOpRef : Type := MkOpRef { ref_ID : Z; ref_Op : string; ref_Rev : Z }.

Definition op_bytes (i : nat) (o : xtxOpRef) : bytes :=
  le32 (N.of_nat i mod 4294967296) ++ le64 (ref_ID o) ++ b_of_s (ref_Op o) ++ ["000"%char] ++ le64 (ref_Rev o).

Definition partDigest (ops : list xtxOpRef) : string :=
  s_of_b (hex_encode (sha256 (concat (imap op_bytes ops)))).

Record xtxPart : Type := MkPart { p_C : string; p_N : N; p_D : string }.

#[global] Instance xtxPart_eq_dec : EqDecision xtxPart.
Proof. solve_decision. Defined.

(** [hex.DecodeString] to the 32 bytes of a digest. *)
Definition digest_bytes (d : string) : option bytes :=
  b ← hex_decode (b_of_s d); if decide (length b = 32) then Some b else None.

Fixpoint parts_bytes (parts : list xtxPart) : option bytes :=
  match parts with
  | [] => Some []
  | p :: parts' =>
      d ← digest_bytes (p_D p);
      r ← parts_bytes parts';
      Some (b_of_s (p_C p) ++ "000"%char :: le32 (p_N p) ++ d ++ r)
  end.

Definition partsDigest (parts : list xtxPart) : option string :=
  b ← parts_bytes parts; Some (s_of_b (hex_encode (sha256 b))).

Definition part_ok (prev : option string) (p : xtxPart) : bool :=
  negb (bool_decide (p_C p = "")) && negb (p_N p =? 0)%N &&
  match prev with Some c => str_ltb c (p_C p) | None => true end &&
  bool_decide (is_Some (digest_bytes (p_D p))).

Fixpoint parts_ok (prev : option string) (parts : list xtxPart) : bool :=
  match parts with
  | [] => true
  | p :: parts' => part_ok prev p && parts_ok (Some (p_C p)) parts'
  end.

Definition validateParts (parts : list xtxPart) : bool :=
  negb (bool_decide (parts = [])) && parts_ok None parts.

(** ** Records *)

Record xtxHeader : Type := MkHeader {
  h_Magic : string; h_V : Z; h_Epoch : string; h_Gen : Z; h_Created : string; h_CRC : option N
}.

Record xtxRecord : Type := MkRec {
  r_K : string; r_Tx : string; r_Key : string; r_TS : string;
  r_Parts : list xtxPart; r_PD : string; r_Why : string; r_O : string;
  r_RL : Z; r_RT : string; r_RD : string; r_CRC : option N
}.

Definition omit_str (k : string) (s : string) : list (bytes * json) :=
  if decide (s = "") then [] else [member k (JStr (b_of_s s))].

Definition crc_member (c : option N) : list (bytes * json) :=
  match c with None => [] | Some c => [member "crc" (JNum (fmt_N c))] end.

Definition part_json (p : xtxPart) : json :=
  JObj [member "c" (JStr (b_of_s (p_C p))); member "n" (JNum (fmt_N (p_N p))); member "d" (JStr (b_of_s (p_D p)))].

Definition header_members (h : xtxHeader) : list (bytes * json) :=
  [member "magic" (JStr (b_of_s (h_Magic h))); member "v" (num_i (h_V h)); member "epoch" (JStr (b_of_s (h_Epoch h)))] ++
  omit_zero "gen" (h_Gen h) (num_u (h_Gen h)) ++
  [member "created" (JStr (b_of_s (h_Created h)))] ++ crc_member (h_CRC h).

Definition record_members (r : xtxRecord) : list (bytes * json) :=
  [member "k" (JStr (b_of_s (r_K r))); member "tx" (JStr (b_of_s (r_Tx r)));
   member "key" (JStr (b_of_s (r_Key r))); member "ts" (JStr (b_of_s (r_TS r)))] ++
  (match r_Parts r with [] => [] | l => [member "parts" (JArr (map part_json l))] end) ++
  omit_str "pd" (r_PD r) ++ omit_str "why" (r_Why r) ++ omit_str "o" (r_O r) ++
  omit_zero "rl" (r_RL r) (num_u (r_RL r)) ++ omit_str "rt" (r_RT r) ++ omit_str "rd" (r_RD r) ++
  crc_member (r_CRC r).

Definition set_header_crc (h : xtxHeader) (c : option N) : xtxHeader :=
  MkHeader (h_Magic h) (h_V h) (h_Epoch h) (h_Gen h) (h_Created h) c.

Definition set_record_crc (r : xtxRecord) (c : option N) : xtxRecord :=
  MkRec (r_K r) (r_Tx r) (r_Key r) (r_TS r) (r_Parts r) (r_PD r) (r_Why r) (r_O r) (r_RL r) (r_RT r) (r_RD r) c.

(** [json.Marshal] of a header and of a record. *)
Definition marshal_header (h : xtxHeader) : bytes := print (JObj (header_members h)).
Definition marshal_record (r : xtxRecord) : bytes := print (JObj (record_members r)).

(** The line of a header and of a record, without its newline. *)
Definition header_line (h : xtxHeader) : bytes :=
  marshal_header (set_header_crc h (Some (crc32c (marshal_header (set_header_crc h None))))).
Definition record_line (r : xtxRecord) : bytes :=
  marshal_record (set_record_crc r (Some (crc32c (marshal_record (set_record_crc r None))))).

Definition encodeXTxHeader (h : xtxHeader) : bytes := header_line h ++ [newline].
Definition encodeXTxRecord (r : xtxRecord) : bytes := record_line r ++ [newline].

(** ** Strict decoding

    Names match in any case; a name that is no field is an error. *)

(** The members of an object into a struct whose fields [set] writes. *)
Definition strict_fields {R} (set : R → bytes * json → option R) (zero : R) (l : list (bytes * json)) : option R :=
  foldl (λ acc kv, r ← acc; set r kv) (Some zero) l.

Definition set_part_field (p : xtxPart) (kv : bytes * json) : option xtxPart :=
  let k := map to_lower kv.1 in
  let j := kv.2 in
  let '(MkPart c n d) := p in
  if decide (k = b_of_s "c") then v ← dec_string c j; Some (MkPart v n d)
  else if decide (k = b_of_s "n") then v ← dec_u32_field n j; Some (MkPart c v d)
  else if decide (k = b_of_s "d") then v ← dec_string d j; Some (MkPart c n v)
  else None.

Definition dec_part (j : json) : option xtxPart :=
  match j with
  | JNull => Some (MkPart "" 0 "")
  | JObj l => strict_fields set_part_field (MkPart "" 0 "") l
  | _ => None
  end.

Definition dec_parts (j : json) : option (list xtxPart) :=
  match j with
  | JNull => Some []
  | JArr l => mapM dec_part l
  | _ => None
  end.

Definition set_header_field (h : xtxHeader) (kv : bytes * json) : option xtxHeader :=
  let k := map to_lower kv.1 in
  let j := kv.2 in
  let '(MkHeader m v e g c crc) := h in
  if decide (k = b_of_s "magic") then x ← dec_string m j; Some (MkHeader x v e g c crc)
  else if decide (k = b_of_s "v") then x ← dec_i64 v j; Some (MkHeader m x e g c crc)
  else if decide (k = b_of_s "epoch") then x ← dec_string e j; Some (MkHeader m v x g c crc)
  else if decide (k = b_of_s "gen") then x ← dec_u64 g j; Some (MkHeader m v e x c crc)
  else if decide (k = b_of_s "created") then x ← dec_string c j; Some (MkHeader m v e g x crc)
  else if decide (k = b_of_s "crc") then x ← dec_crc j; Some (MkHeader m v e g c x)
  else None.

Definition set_record_field (r : xtxRecord) (kv : bytes * json) : option xtxRecord :=
  let f := map to_lower kv.1 in
  let j := kv.2 in
  let '(MkRec k tx key ts ps pd why o rl rt rd crc) := r in
  if decide (f = b_of_s "k") then x ← dec_string k j; Some (MkRec x tx key ts ps pd why o rl rt rd crc)
  else if decide (f = b_of_s "tx") then x ← dec_string tx j; Some (MkRec k x key ts ps pd why o rl rt rd crc)
  else if decide (f = b_of_s "key") then x ← dec_string key j; Some (MkRec k tx x ts ps pd why o rl rt rd crc)
  else if decide (f = b_of_s "ts") then x ← dec_string ts j; Some (MkRec k tx key x ps pd why o rl rt rd crc)
  else if decide (f = b_of_s "parts") then x ← dec_parts j; Some (MkRec k tx key ts x pd why o rl rt rd crc)
  else if decide (f = b_of_s "pd") then x ← dec_string pd j; Some (MkRec k tx key ts ps x why o rl rt rd crc)
  else if decide (f = b_of_s "why") then x ← dec_string why j; Some (MkRec k tx key ts ps pd x o rl rt rd crc)
  else if decide (f = b_of_s "o") then x ← dec_string o j; Some (MkRec k tx key ts ps pd why x rl rt rd crc)
  else if decide (f = b_of_s "rl") then x ← dec_u64 rl j; Some (MkRec k tx key ts ps pd why o x rt rd crc)
  else if decide (f = b_of_s "rt") then x ← dec_string rt j; Some (MkRec k tx key ts ps pd why o rl x rd crc)
  else if decide (f = b_of_s "rd") then x ← dec_string rd j; Some (MkRec k tx key ts ps pd why o rl rt x crc)
  else if decide (f = b_of_s "crc") then x ← dec_crc j; Some (MkRec k tx key ts ps pd why o rl rt rd x)
  else None.

Definition zero_header : xtxHeader := MkHeader "" 0 "" 0 "" None.
Definition zero_record : xtxRecord := MkRec "" "" "" "" [] "" "" "" 0 "" "" None.

Definition strictUnmarshal {R} (set : R → bytes * json → option R) (zero : R) (line : bytes) : option R :=
  match unmarshal line with
  | Some (JObj l) => strict_fields set zero l
  | Some JNull => Some zero
  | _ => None
  end.

(** The probe of a header: [magic] and [v], other names ignored. *)
Definition probe_header_field (p : string * Z) (kv : bytes * json) : option (string * Z) :=
  let k := map to_lower kv.1 in
  if decide (k = b_of_s "magic") then x ← dec_string p.1 kv.2; Some (x, p.2)
  else if decide (k = b_of_s "v") then x ← dec_i64 p.2 kv.2; Some (p.1, x)
  else Some p.

Definition probe_header (line : bytes) : option (string * Z) :=
  strictUnmarshal probe_header_field ("", 0%Z) line.

Definition decodeXTxHeader (line : bytes) : res xtx_err xtxHeader :=
  match probe_header line with
  | None => Err (JCorrupt 0)
  | Some (magic, v) =>
      if decide (magic ≠ xtxJournalMagic) then Err (JCorrupt 0)
      else if decide (v ≠ xtxJournalVersion) then Err JUnsupported
      else
        match strictUnmarshal set_header_field zero_header line with
        | None => Err (JCorrupt 0)
        | Some h =>
            match h_CRC h with
            | None => Err (JCorrupt 0)
            | Some want =>
                if decide (crc32c (marshal_header (set_header_crc h None)) ≠ want) then Err (JCorrupt 0)
                else if decide (marshal_header h ≠ line) then Err (JCorrupt 0)
                else if decide (length (b_of_s (h_Epoch h)) ≠ xtxEpochHexLen ∨ isLowerHex (b_of_s (h_Epoch h)) = false)
                then Err (JCorrupt 0)
                else if decide (parse_time (b_of_s (h_Created h)) = None) then Err (JCorrupt 0)
                else Ok (set_header_crc h None)
            end
        end
  end.

(** What a COMMIT, an ABORT and a RETIRE record must carry. *)
Definition commit_ok (r : xtxRecord) : bool :=
  bool_decide (r_Why r = "") && bool_decide (r_O r = "") &&
  Bool.eqb (r_RL r =? 0)%Z (bool_decide (r_RT r = "")) && Bool.eqb (r_RL r =? 0)%Z (bool_decide (r_RD r = "")) &&
  ((r_RL r =? 0)%Z ||
   (length (b_of_s (r_RT r)) <=? xtxMaxTxIDLen) && bool_decide (is_Some (digest_bytes (r_RD r)))) &&
  validateParts (r_Parts r) && bool_decide (partsDigest (r_Parts r) = Some (r_PD r)).

Definition no_binding (r : xtxRecord) : bool :=
  (r_RL r =? 0)%Z && bool_decide (r_RT r = "") && bool_decide (r_RD r = "").

Definition abort_ok (r : xtxRecord) : bool :=
  bool_decide (r_Parts r = []) && bool_decide (r_PD r = "") && bool_decide (r_O r = "") && no_binding r &&
  bool_decide (r_Why r ∈ xtxAbortReasons).

Definition retire_ok (r : xtxRecord) : bool :=
  bool_decide (r_Parts r = []) && bool_decide (r_PD r = "") && bool_decide (r_Why r = "") && no_binding r &&
  bool_decide (r_O r = xtxKindCommit ∨ r_O r = xtxKindAbort).

Definition kind_ok (r : xtxRecord) : bool :=
  if decide (r_K r = xtxKindCommit) then commit_ok r
  else if decide (r_K r = xtxKindAbort) then abort_ok r
  else if decide (r_K r = xtxKindRetire) then retire_ok r
  else false.

Definition record_ok (epoch : string) (r : xtxRecord) : bool :=
  match parseTxID (r_Tx r) with Some (e, _) => bool_decide (e = epoch) | None => false end &&
  (length (b_of_s (r_Key r)) <=? xtxMaxKeyLen) &&
  bool_decide (is_Some (parse_time (b_of_s (r_TS r)))) && kind_ok r.

Definition decodeXTxRecord (line : bytes) (epoch : string) (off : nat) : res xtx_err xtxRecord :=
  match strictUnmarshal set_record_field zero_record line with
  | None => Err (JCorrupt off)
  | Some r =>
      match r_CRC r with
      | None => Err (JCorrupt off)
      | Some want =>
          if decide (crc32c (marshal_record (set_record_crc r None)) ≠ want) then Err (JCorrupt off)
          else if decide (marshal_record r ≠ line) then Err (JCorrupt off)
          else
            let r := set_record_crc r None in
            if record_ok epoch r then Ok r else Err (JCorrupt off)
      end
  end.

(** ** The decision table *)

Record xtxDecision : Type := MkDec {
  d_Tx : string; d_Key : string; d_Outcome : string; d_Retired : bool; d_Why : string; d_TS : string;
  d_Parts : list xtxPart; d_PD : string; d_RL : Z; d_RT : string; d_RD : string
}.

Record xtxTable : Type := MkTable {
  byTx : gmap string xtxDecision;
  byKey : gmap string string;
  byLSN : gmap Z string;
  byLead : gmap string string;
  maxSeq : Z
}.

Definition newXTxTable : xtxTable := MkTable ∅ ∅ ∅ ∅ 0.

Definition set_dec (t : xtxTable) (d : xtxDecision) : xtxTable :=
  MkTable (<[d_Tx d := d]> (byTx t)) (byKey t) (byLSN t) (byLead t) (maxSeq t).

Definition set_parts (d : xtxDecision) (ps : list xtxPart) (pd : string) : xtxDecision :=
  MkDec (d_Tx d) (d_Key d) (d_Outcome d) (d_Retired d) (d_Why d) (d_TS d) ps pd (d_RL d) (d_RT d) (d_RD d).
Definition set_binding (d : xtxDecision) (rl : Z) (rt rd : string) : xtxDecision :=
  MkDec (d_Tx d) (d_Key d) (d_Outcome d) (d_Retired d) (d_Why d) (d_TS d) (d_Parts d) (d_PD d) rl rt rd.
Definition set_why (d : xtxDecision) (w : string) : xtxDecision :=
  MkDec (d_Tx d) (d_Key d) (d_Outcome d) (d_Retired d) w (d_TS d) (d_Parts d) (d_PD d) (d_RL d) (d_RT d) (d_RD d).
Definition set_retired (d : xtxDecision) : xtxDecision :=
  MkDec (d_Tx d) (d_Key d) (d_Outcome d) true (d_Why d) (d_TS d) (d_Parts d) (d_PD d) (d_RL d) (d_RT d) (d_RD d).

(** The outcome a record speaks of. *)
Definition rec_outcome (r : xtxRecord) : string := if decide (r_K r = xtxKindRetire) then r_O r else r_K r.

(** The parts of a COMMIT record, then its replication binding.  [Err] is a
    decision conflict, with the table as far as it was changed. *)
Definition apply_parts (t : xtxTable) (d : xtxDecision) (r : xtxRecord) : res xtxTable xtxDecision :=
  if decide (d_Parts d ≠ [] ∨ d_PD d ≠ "") then
    if decide (d_PD d ≠ r_PD r) then Err (set_dec t d) else Ok d
  else Ok (set_parts d (r_Parts r) (r_PD r)).

Definition lsn_taken (t : xtxTable) (r : xtxRecord) : bool :=
  match byLSN t !! r_RL r with Some prev => negb (bool_decide (prev = r_Tx r)) | None => false end.

Definition apply_binding (t : xtxTable) (d : xtxDecision) (r : xtxRecord) : res xtxTable xtxTable :=
  if (r_RL r =? 0)%Z then Ok (set_dec t d)
  else if decide (d_RL d ≠ 0%Z ∧ (d_RL d ≠ r_RL r ∨ d_RT d ≠ r_RT r ∨ d_RD d ≠ r_RD r)) then Err (set_dec t d)
  else if lsn_taken t r then Err (set_dec t d)
  else
    let t := set_dec t (set_binding d (r_RL r) (r_RT r) (r_RD r)) in
    Ok (MkTable (byTx t) (byKey t) (<[r_RL r := r_Tx r]> (byLSN t)) (<[r_RT r := r_Tx r]> (byLead t)) (maxSeq t)).

Definition apply_kind (t : xtxTable) (d : xtxDecision) (r : xtxRecord) : res xtxTable xtxTable :=
  if decide (r_K r = xtxKindCommit) then let* d' := apply_parts t d r in apply_binding t d' r
  else if decide (r_K r = xtxKindAbort) then Ok (set_dec t (if decide (d_Why d = "") then set_why d (r_Why r) else d))
  else if decide (r_K r = xtxKindRetire) then Ok (set_dec t (set_retired d))
  else Ok (set_dec t d).

(** The last transaction of a key, but a committed one is kept. *)
Definition apply_key (t : xtxTable) (r : xtxRecord) : xtxTable :=
  if decide (r_Key r = "") then t
  else
    let keep := match byKey t !! r_Key r with
                | Some prev =>
                    bool_decide (prev ≠ r_Tx r) &&
                    match byTx t !! prev with Some d => bool_decide (d_Outcome d = xtxKindCommit) | None => false end
                | None => false
                end in
    if keep then t
    else MkTable (byTx t) (<[r_Key r := r_Tx r]> (byKey t)) (byLSN t) (byLead t) (maxSeq t).

Definition raise_seq (t : xtxTable) (r : xtxRecord) : xtxTable :=
  let seq := match parseTxID (r_Tx r) with Some (_, s) => s | None => 0%Z end in
  MkTable (byTx t) (byKey t) (byLSN t) (byLead t) (Z.max (maxSeq t) seq).

(** The decision a record continues, or a new one. *)
Definition find_dec (t : xtxTable) (r : xtxRecord) : res xtxTable xtxDecision :=
  match byTx t !! r_Tx r with
  | None => Ok (MkDec (r_Tx r) (r_Key r) (rec_outcome r) false "" (r_TS r) [] "" 0 "" "")
  | Some d =>
      if decide (d_Outcome d ≠ rec_outcome r) then Err t
      else if decide (d_Key d ≠ r_Key r) then Err t
      else Ok d
  end.

Definition apply (t : xtxTable) (r : xtxRecord) : res xtxTable xtxTable :=
  let t := raise_seq t r in
  let* d := find_dec t r in
  let* t' := apply_kind t d r in
  Ok (apply_key t' r).

Fixpoint apply_all (t : xtxTable) (l : list xtxRecord) : res xtxTable xtxTable :=
  match l with
  | [] => Ok t
  | r :: l' => let* t' := apply t r in apply_all t' l'
  end.

(** ** Parsing a journal image *)

Definition headerPrefix : bytes := b_of_s "{" ++ quote (b_of_s "magic") ++ b_of_s ":" ++ quote (b_of_s xtxJournalMagic).

Definition allZero (b : bytes) : bool :=
  forallb (λ c, bool_decide (c = "000"%char)) b && negb (bool_decide (b = [])).

Definition tornHeaderPrefix (b : bytes) : bool :=
  if allZero b then true
  else if length headerPrefix <? length b then is_prefix headerPrefix b
  else bool_decide (b = take (length b) headerPrefix).

Record xtxParsed : Type := MkParsed {
  ps_Header : xtxHeader; ps_Records : list xtxRecord; ps_ValidLen : nat; ps_Torn : bool; ps_Table : xtxTable
}.

(** The record lines from [pos] on: each must be whole, a record and without
    conflict, but for an unterminated or zero-filled last one. *)
Fixpoint parse_records (fuel : nat) (epoch : string) (pos : nat) (rest : bytes) (t : xtxTable) (acc : list xtxRecord)
    : res xtx_err (list xtxRecord * nat * bool * xtxTable) :=
  match fuel with
  | O => Ok (acc, pos, false, t)
  | S fuel' =>
      match rest with
      | [] => Ok (acc, pos, false, t)
      | _ =>
          match split_newline rest with
          | None => Ok (acc, pos, true, t)
          | Some (line, rest') =>
              if (xtxMaxJournalRecord <? Z.of_nat (length line))%Z then Err (JCorrupt pos)
              else if bool_decide (rest' = []) && allZero line then Ok (acc, pos, true, t)
              else
                let* r := decodeXTxRecord line epoch pos in
                match apply t r with
                | Err _ => Err (JConflict (r_Tx r))
                | Ok t' => parse_records fuel' epoch (pos + length line + 1) rest' t' (acc ++ [r])
                end
          end
      end
  end.

(** [None] is a creation that was torn. *)
Definition parseXTxJournal (data : bytes) : res xtx_err (option xtxParsed) :=
  match split_newline data with
  | None => if bool_decide (data = []) || tornHeaderPrefix data then Ok None else Err (JCorrupt 0)
  | Some (line, rest) =>
      let* h := decodeXTxHeader line in
      let* q := parse_records (S (length rest)) (h_Epoch h) (length line + 1) rest newXTxTable [] in
      let '(rs, valid, torn, t) := q in
      Ok (Some (MkParsed h rs valid torn t))
  end.

(** ** The journal *)

(** [j_disk] is the content of the file, [j_synced] how much of it has been
    forced to disk, and [j_shadow] the older file a crash may bring back while
    the rename over it is not durable. *)
Record xtxJournal : Type := MkJournal {
  j_disk : bytes;
  j_synced : nat;
  j_shadow : option bytes;
  j_hdr : xtxHeader;
  j_size : nat;
  nextSeq : Z;
  table : xtxTable;
  j_records : list xtxRecord;
  pending : gmap string string;
  j_poisoned : bool;
  j_closed : bool
}.

Definition with_file (j : xtxJournal) (d : bytes) (sy sz : nat) (p : bool) : xtxJournal :=
  MkJournal d sy (j_shadow j) (j_hdr j) sz (nextSeq j) (table j) (j_records j) (pending j) p (j_closed j).
Definition with_pending (j : xtxJournal) (m : gmap string string) : xtxJournal :=
  MkJournal (j_disk j) (j_synced j) (j_shadow j) (j_hdr j) (j_size j) (nextSeq j) (table j) (j_records j) m (j_poisoned j) (j_closed j).
Definition with_seq (j : xtxJournal) (n : Z) : xtxJournal :=
  MkJournal (j_disk j) (j_synced j) (j_shadow j) (j_hdr j) (j_size j) n (table j) (j_records j) (pending j) (j_poisoned j) (j_closed j).
Definition with_table (j : xtxJournal) (t : xtxTable) (rs : list xtxRecord) : xtxJournal :=
  MkJournal (j_disk j) (j_synced j) (j_shadow j) (j_hdr j) (j_size j) (nextSeq j) t rs (pending j) (j_poisoned j) (j_closed j).

Definition usable (j : xtxJournal) : res xtx_err unit :=
  if j_closed j then Err JClosed else if j_poisoned j then Err (JDurability "") else Ok tt.

(** One whole line; a failed write is truncated away, or poisons the journal. *)
Definition appendLine (j : xtxJournal) (line : bytes) (fs : list fault) : xtxJournal * list fault * res xtx_err unit :=
  let '(ok, d, fs) := file_write HOpen (j_disk j) line fs in
  if ok then (with_file j d (j_synced j) (j_size j + length line) (j_poisoned j), fs, Ok tt)
  else
    let '(tok, d', fs) := file_truncate HOpen d (j_size j) fs in
    (with_file j d' (Nat.min (j_synced j) (length d')) (j_size j) (j_poisoned j || negb tok), fs, Err JIO).

Definition syncLocked (j : xtxJournal) (fs : list fault) : xtxJournal * list fault * res xtx_err unit :=
  let '(ok, fs) := file_sync HOpen fs in
  if ok then (with_file j (j_disk j) (length (j_disk j)) (j_size j) (j_poisoned j), fs, Ok tt)
  else (with_file j (j_disk j) (j_synced j) (j_size j) true, fs, Err JIO).

Definition installLocked (j : xtxJournal) (r : xtxRecord) : xtxJournal * res xtx_err unit :=
  match apply (table j) r with
  | Err t => (with_table j t (j_records j), Err (JConflict (r_Tx r)))
  | Ok t => (with_table j t (j_records j ++ [r]), Ok tt)
  end.

Definition newRecord (kind tx key : string) (now : time) : xtxRecord :=
  MkRec kind tx key (s_of_b (fmt_time now)) [] "" "" "" 0 "" "" None.

Definition allocateTxID (j : xtxJournal) (key : string) : xtxJournal * res xtx_err string :=
  if xtxMaxKeyLen <? String.length key then (j, Err JTooLarge)
  else match usable j with
       | Err e => (j, Err e)
       | Ok _ =>
           let tx := formatTxID (h_Epoch (j_hdr j)) (nextSeq j) in
           (with_pending (with_seq j (u64 (nextSeq j + 1))) (<[tx := key]> (pending j)), Ok tx)
       end.

Record xtxReplBind : Type := MkBind { b_LSN : Z; b_LeadTx : string; b_Digest : string }.

Definition bound_record (r : xtxRecord) (ps : list xtxPart) (pd : string) (b : option xtxReplBind) : xtxRecord :=
  MkRec (r_K r) (r_Tx r) (r_Key r) (r_TS r) ps pd (r_Why r) (r_O r)
    (match b with Some b => b_LSN b | None => r_RL r end)
    (match b with Some b => b_LeadTx b | None => r_RT r end)
    (match b with Some b => b_Digest b | None => r_RD r end) (r_CRC r).

Definition commitPreparedBound (j : xtxJournal) (tx key : string) (parts : list xtxPart) (bind : option xtxReplBind)
    (now : time) (fs : list fault) : xtxJournal * list fault * res xtx_err unit :=
  if xtxMaxKeyLen <? String.length key then (j, fs, Err JTooLarge)
  else if negb (validateParts parts) then (j, fs, Err JInvalid)
  else match partsDigest parts, usable j with
       | None, _ => (j, fs, Err JInvalid)
       | _, Err e => (j, fs, Err e)
       | Some pd, Ok _ =>
           let bad := match bind with
                      | None => None
                      | Some b =>
                          if decide (b_LSN b = 0%Z ∨ b_LeadTx b = "" ∨ b_Digest b = "") then Some JInvalid
                          else match byLSN (table j) !! b_LSN b with Some _ => Some (JConflict tx) | None => None end
                      end in
           match bad with
           | Some e => (j, fs, Err e)
           | None =>
               let r := bound_record (newRecord xtxKindCommit tx key now) parts pd bind in
               let '(j, fs, w) := appendLine j (encodeXTxRecord r) fs in
               match w with
               | Err _ => (with_pending j (delete tx (pending j)), fs, Err (JDurability tx))
               | Ok _ =>
                   let '(j, fs, s) := syncLocked j fs in
                   match s with
                   | Err _ => (j, fs, Err (JOutcomeUnknown tx))
                   | Ok _ =>
                       let '(j, i) := installLocked (with_pending j (delete tx (pending j))) r in
                       (j, fs, i)
                   end
               end
           end
       end.

Definition commitPrepared (j : xtxJournal) (tx key : string) (parts : list xtxPart) (now : time) (fs : list fault)
    : xtxJournal * list fault * res xtx_err unit :=
  commitPreparedBound j tx key parts None now fs.

(** Allocation and decision in one; the id is also in the error, where there is one. *)
Definition commit (j : xtxJournal) (key : string) (parts : list xtxPart) (now : time) (fs : list fault)
    : xtxJournal * list fault * (string * res xtx_err unit) :=
  match allocateTxID j key with
  | (j, Err e) => (j, fs, ("", Err e))
  | (j, Ok tx) => let '(j, fs, w) := commitPrepared j tx key parts now fs in (j, fs, (tx, w))
  end.

(** A decision line: appended, synced, then in the table. *)
Definition append_decision (j : xtxJournal) (r : xtxRecord) (fs : list fault) : xtxJournal * list fault * res xtx_err unit :=
  let '(j, fs, w) := appendLine j (encodeXTxRecord r) fs in
  match w with
  | Err _ => (j, fs, Err (JDurability (r_Tx r)))
  | Ok _ =>
      let '(j, fs, s) := syncLocked j fs in
      match s with
      | Err _ => (j, fs, Err (JOutcomeUnknown (r_Tx r)))
      | Ok _ => let '(j, i) := installLocked j r in (j, fs, i)
      end
  end.

Definition set_r_why (r : xtxRecord) (w : string) : xtxRecord :=
  MkRec (r_K r) (r_Tx r) (r_Key r) (r_TS r) (r_Parts r) (r_PD r) w (r_O r) (r_RL r) (r_RT r) (r_RD r) (r_CRC r).
Definition set_r_o (r : xtxRecord) (o : string) : xtxRecord :=
  MkRec (r_K r) (r_Tx r) (r_Key r) (r_TS r) (r_Parts r) (r_PD r) (r_Why r) o (r_RL r) (r_RT r) (r_RD r) (r_CRC r).

Definition abort (j : xtxJournal) (tx key why : string) (now : time) (fs : list fault)
    : xtxJournal * list fault * res xtx_err unit :=
  if negb (bool_decide (why ∈ xtxAbortReasons)) then (j, fs, Err JInvalid)
  else match usable j with
       | Err e => (j, fs, Err e)
       | Ok _ =>
           if negb (match parseTxID tx with Some (e, _) => bool_decide (e = h_Epoch (j_hdr j)) | None => false end)
           then (j, fs, Err JInvalid)
           else match byTx (table j) !! tx with
                | Some d => (j, fs, if decide (d_Outcome d ≠ xtxKindAbort) then Err (JConflict tx) else Ok tt)
                | None => append_decision j (set_r_why (newRecord xtxKindAbort tx key now) why) fs
                end
       end.

Definition retire (j : xtxJournal) (tx : string) (now : time) (fs : list fault) : xtxJournal * list fault * res xtx_err unit :=
  match usable j with
  | Err e => (j, fs, Err e)
  | Ok _ =>
      match byTx (table j) !! tx with
      | None => (j, fs, Err JInvalid)
      | Some d =>
          if d_Retired d then (j, fs, Ok tt)
          else append_decision j (set_r_o (newRecord xtxKindRetire tx (d_Key d) now) (d_Outcome d)) fs
      end
  end.

(** ** Reading the table *)

Definition decision (j : xtxJournal) (tx : string) : option xtxDecision := byTx (table j) !! tx.

Definition boundDecision (j : xtxJournal) (lsn : Z) (leadTx : string) : option xtxDecision :=
  tx ← match byLSN (table j) !! lsn with Some tx => Some tx | None => byLead (table j) !! leadTx end;
  byTx (table j) !! tx.

Definition maxBoundLSN (j : xtxJournal) : Z :=
  foldr Z.max 0%Z (map_to_list (byLSN (table j))).*1.

Definition dec_tx_ltb (a b : xtxDecision) : bool := str_ltb (d_Tx a) (d_Tx b).

Definition decisions_list (j : xtxJournal) : list xtxDecision :=
  ssort dec_tx_ltb (map_to_list (byTx (table j))).*2.

Definition retainedFor (j : xtxJournal) (collection : string) : list string :=
  ssort str_ltb (filter (λ kv, d_Retired kv.2 = false ∧ d_Outcome kv.2 = xtxKindCommit ∧
                              Exists (λ p, p_C p = collection) (d_Parts kv.2))
                   (map_to_list (byTx (table j)))).*1.

(** What [decisionsMap] hands the readers of segments. *)
Definition dec_text (d : xtxDecision) : string :=
  if d_Retired d then String.append "retire-" (d_Outcome d) else d_Outcome d.

Definition decisionsMap (j : xtxJournal) : decisions := dec_text <$> byTx (table j).

Inductive XTxStatus : Type := XTxUnknown | XTxPending | XTxCommitted | XTxAborted | XTxExpired.

Definition statusOf (d : xtxDecision) : XTxStatus :=
  if decide (d_Outcome d = xtxKindCommit) then XTxCommitted else XTxAborted.

Definition status (j : xtxJournal) (tx : string) : XTxStatus :=
  match byTx (table j) !! tx with
  | Some d => statusOf d
  | None =>
      match pending j !! tx with
      | Some _ => XTxPending
      | None =>
          match parseTxID tx with
          | Some (e, seq) => if bool_decide (e = h_Epoch (j_hdr j)) && (seq <? nextSeq j)%Z then XTxExpired else XTxUnknown
          | None => XTxUnknown
          end
      end
  end.

(** [pick] is the pending transaction of the key that a map iteration meets. *)
Definition statusByKey (pick : list string → option string) (j : xtxJournal) (key : string) : XTxStatus * string :=
  if decide (key = "") then (XTxUnknown, "")
  else match byKey (table j) !! key with
       | Some tx => (match byTx (table j) !! tx with Some d => statusOf d | None => XTxUnknown end, tx)
       | None =>
           match pick (filter (λ kv, kv.2 = key) (map_to_list (pending j))).*1 with
           | Some tx => (XTxPending, tx)
           | None => (XTxUnknown, "")
           end
       end.

Definition observeSeq (j : xtxJournal) (seq : Z) : xtxJournal :=
  if (nextSeq j <=? seq)%Z then with_seq j (u64 (seq + 1)) else j.

(** ** Opening and checkpoints *)

Definition open_parsed (data : bytes) (p : xtxParsed) : xtxJournal :=
  MkJournal data (length data) None (ps_Header p) (ps_ValidLen p) (u64 (maxSeq (ps_Table p) + 1)) (ps_Table p) (ps_Records p) ∅ false false.

(** Creating, writing, syncing, closing and renaming the new file, then syncing
    the directory: was the file replaced, and did it all succeed? *)
Definition writeJournalAtomic (data : bytes) (fs : list fault) : bool * bool * list fault :=
  let '(f1, fs) := next_fault fs in
  if negb (f_ok f1) then (false, false, fs)
  else
    let '(ok, _, fs) := file_write HOpen [] data fs in
    if negb ok then (false, false, fs)
    else
      let '(f2, fs) := next_fault fs in
      if negb (f_ok f2) then (false, false, fs)
      else
        let '(f3, fs) := next_fault fs in
        if negb (f_ok f3) then (false, false, fs)
        else
          let '(f4, fs) := next_fault fs in
          if negb (f_ok f4) then (false, false, fs)
          else let '(f5, fs) := next_fault fs in (true, f_ok f5, fs).

(** The epoch is random bytes, the creation time the clock's. *)
Definition createXTxJournal (epoch : string) (now : time) (fs : list fault)
    : option bytes * list fault * res xtx_err xtxJournal :=
  let hdr := MkHeader xtxJournalMagic xtxJournalVersion epoch 0 (s_of_b (fmt_time now)) None in
  let line := encodeXTxHeader hdr in
  let '(renamed, ok, fs) := writeJournalAtomic line fs in
  let file := if renamed then Some line else None in
  if negb ok then (file, fs, Err JIO)
  else
    let '(f, fs) := next_fault fs in
    if negb (f_ok f) then (file, fs, Err JIO)
    else (file, fs, Ok (MkJournal line (length line) None hdr (length line) 1 newXTxTable [] ∅ false false)).

(** [openXTxJournal] on the content of the file; the file is what is left. *)
Definition openXTxJournal (data : bytes) (epoch : string) (now : time) (fs : list fault)
    : bytes * list fault * res xtx_err xtxJournal :=
  match parseXTxJournal data with
  | Err e => (data, fs, Err e)
  | Ok None =>
      let '(file, fs, r) := createXTxJournal epoch now fs in (default data file, fs, r)
  | Ok (Some p) =>
      let '(f, fs) := next_fault fs in
      if negb (f_ok f) then (data, fs, Err JIO)
      else if ps_Torn p then
        let '(tok, d, fs) := file_truncate HOpen data (ps_ValidLen p) fs in
        if negb tok then (d, fs, Err JIO)
        else
          let '(sok, fs) := file_sync HOpen fs in
          if negb sok then (d, fs, Err JIO) else (d, fs, Ok (open_parsed d p))
      else (data, fs, Ok (open_parsed data p))
  end.

(** The retired transactions that [drop] gives up, but for the newest. *)
Definition dropped (j : xtxJournal) (drop : xtxDecision → bool) : gset string :=
  let hwm := formatTxID (h_Epoch (j_hdr j)) (maxSeq (table j)) in
  dom (filter (λ kv, d_Retired kv.2 = true ∧ kv.1 ≠ hwm ∧ drop kv.2 = true) (byTx (table j))).

Definition next_gen (h : xtxHeader) : xtxHeader :=
  MkHeader (h_Magic h) (h_V h) (h_Epoch h) (u64 (h_Gen h + 1)) (h_Created h) (h_CRC h).

Definition checkpoint (j : xtxJournal) (drop : xtxDecision → bool) (fs : list fault)
    : xtxJournal * list fault * res xtx_err nat :=
  match usable j with
  | Err e => (j, fs, Err e)
  | Ok _ =>
      let gone := dropped j drop in
      if decide (gone = ∅) then (j, fs, Ok 0)
      else
        let kept := filter (λ r, r_Tx r ∉ gone) (j_records j) in
        match apply_all newXTxTable kept with
        | Err _ => (j, fs, Err (JConflict ""))
        | Ok t =>
            let hdr := next_gen (j_hdr j) in
            let buf := encodeXTxHeader hdr ++ concat (map encodeXTxRecord kept) in
            let '(renamed, ok, fs) := writeJournalAtomic buf fs in
            if negb ok then
              (if renamed
               then MkJournal buf (length buf) (Some (j_disk j)) (j_hdr j) (j_size j) (nextSeq j) (table j) (j_records j)
                      (pending j) true (j_closed j)
               else j, fs, Err JIO)
            else
              let '(f, fs) := next_fault fs in
              if negb (f_ok f) then (with_file j buf (length buf) (j_size j) true, fs, Err JIO)
              else
                let '(_, fs) := next_fault fs in
                (MkJournal buf (length buf) None hdr (length buf) (nextSeq j) t kept (pending j) (j_poisoned j) (j_closed j), fs,
                 Ok (base.size gone))
        end
  end.

Definition close (j : xtxJournal) (fs : list fault) : xtxJournal * list fault * res xtx_err unit :=
  if j_closed j then (j, fs, Ok tt)
  else
    let '(f, fs) := next_fault fs in
    (MkJournal (j_disk j) (j_synced j) (j_shadow j) (j_hdr j) (j_size j) (nextSeq j) (table j) (j_records j) (pending j) (j_poisoned j) true,
     fs, if f_ok f then Ok tt else Err JIO).
