(* ===== verification/JournalThm.v ===== *)
(** * The journal keeps its decisions

    Lines round-trip and are canonical; the table is at all times the fold of
    the records in the file; whatever file calls fail and wherever a crash
    cuts, a reopened journal has every acknowledged decision. *)
From Stdlib Require Import Ascii Lia ZArith.
From stdpp Require Import prelude gmap strings sorting.
From S2P Require Import Prelude GoNum Json Value GoTime Store Wire Segment Sha256 Journal.

(** ** Lines *)

Section fields.
Context {R : Type} (set : R → bytes * json → option R).

Lemma sf_app r l1 l2 r1 r2 :
  strict_fields set r l1 = Some r1 → strict_fields set r1 l2 = Some r2 → strict_fields set r (l1 ++ l2) = Some r2.
Proof. unfold strict_fields. rewrite foldl_app. by intros -> . Qed.

Lemma sf_one r kv r' : set r kv = Some r' → strict_fields set r [kv] = Some r'.
Proof. done. Qed.

Lemma sf_cons r kv l r1 r2 :
  set r kv = Some r1 → strict_fields set r1 l = Some r2 → strict_fields set r (kv :: l) = Some r2.
Proof. intros H. apply (sf_app _ [kv]). by apply sf_one. Qed.

Lemma sf_omit_str r k s r' :
  set r (member k (JStr (b_of_s s))) = Some r' → (s = "" → r' = r) → strict_fields set r (omit_str k s) = Some r'.
Proof. intros H H0. unfold omit_str. case_decide; [by rewrite H0|]. by apply sf_one. Qed.

Lemma sf_omit_zero r k z j r' :
  set r (member k j) = Some r' → (z = 0%Z → r' = r) → strict_fields set r (omit_zero k z j) = Some r'.
Proof. intros H H0. unfold omit_zero. destruct (Z.eqb_spec z 0); [by rewrite H0|]. by apply sf_one. Qed.
End fields.

Definition part_wf (p : xtxPart) : Prop := (p_N p < 4294967296)%N.

(** The strings of a record; JSON text holds them exactly when they are UTF-8. *)
Definition part_strings (p : xtxPart) : list string := [p_C p; p_D p].

Definition rec_strings (r : xtxRecord) : list string :=
  [r_K r; r_Tx r; r_Key r; r_TS r; r_PD r; r_Why r; r_O r; r_RT r; r_RD r] ++ concat (map part_strings (r_Parts r)).

Record rec_wf (r : xtxRecord) : Prop := {
  rw_rl : in_u64 (r_RL r);
  rw_parts : Forall part_wf (r_Parts r);
  rw_utf8 : Forall str_utf8 (rec_strings r);
  rw_crc : r_CRC r = None
}.

Lemma dec_str old s : dec_string old (JStr (b_of_s s)) = Some s.
Proof. cbn [dec_string]. by rewrite s_of_b_of_s. Qed.

Lemma dec_part_json p : part_wf p → dec_part (part_json p) = Some p.
Proof.
  intros H. destruct p as [c n d]. unfold dec_part, part_json. cbn [p_C p_N p_D].
  refine (sf_cons set_part_field _ _ _ (MkPart c 0 "") _ _ _); [|refine (sf_cons set_part_field _ _ _ (MkPart c n "") _ _ _)].
  - change ((v ← dec_string "" (JStr (b_of_s c)); Some (MkPart v 0 "")) = Some (MkPart c 0 "")). by rewrite dec_str.
  - change ((v ← dec_u32_field 0 (JNum (fmt_N n)); Some (MkPart c v "")) = Some (MkPart c n "")).
    unfold dec_u32_field. by rewrite dec_u32_fmt.
  - apply (sf_one set_part_field). change ((v ← dec_string "" (JStr (b_of_s d)); Some (MkPart c n v)) = Some (MkPart c n d)). by rewrite dec_str.
Qed.

Lemma dec_parts_json ps : Forall part_wf ps → dec_parts (JArr (map part_json ps)) = Some ps.
Proof. intros H. cbn [dec_parts]. induction H as [|p ps Hp _ IH]; [done|]. cbn [map mapM]. by rewrite dec_part_json, IH. Qed.

(** The members of a record set its fields one by one. *)
Lemma record_fields r : in_u64 (r_RL r) → Forall part_wf (r_Parts r) → (∀ c, r_CRC r = Some c → (c < 4294967296)%N) →
  strict_fields set_record_field zero_record (record_members r) = Some r.
Proof.
  destruct r as [k tx key ts ps pd why o rl rt rd crc]. cbn [r_RL r_Parts r_CRC]. intros Hrl Hps Hcrc.
  unfold record_members. cbn [r_K r_Tx r_Key r_TS r_Parts r_PD r_Why r_O r_RL r_RT r_RD r_CRC].
  eapply sf_app; [|eapply sf_app; [|eapply sf_app; [|eapply sf_app; [|eapply sf_app; [|eapply sf_app; [|eapply sf_app; [|eapply sf_app]]]]]]].
  - eapply (sf_cons _ _ _ _ (MkRec k "" "" "" [] "" "" "" 0 "" "" None)); [cbn; by rewrite s_of_b_of_s|].
    eapply (sf_cons _ _ _ _ (MkRec k tx "" "" [] "" "" "" 0 "" "" None)); [cbn; by rewrite s_of_b_of_s|].
    eapply (sf_cons _ _ _ _ (MkRec k tx key "" [] "" "" "" 0 "" "" None)); [cbn; by rewrite s_of_b_of_s|].
    apply (sf_one _ _ _ (MkRec k tx key ts [] "" "" "" 0 "" "" None)). cbn. by rewrite s_of_b_of_s.
  - instantiate (1 := MkRec k tx key ts ps "" "" "" 0 "" "" None). destruct ps as [|p ps]; [done|]. apply sf_one.
    change ((x ← dec_parts (JArr (map part_json (p :: ps))); Some (MkRec k tx key ts x "" "" "" 0 "" "" None)) =
      Some (MkRec k tx key ts (p :: ps) "" "" "" 0 "" "" None)). by rewrite dec_parts_json.
  - apply (sf_omit_str _ _ _ _ (MkRec k tx key ts ps pd "" "" 0 "" "" None)); [cbn; by rewrite s_of_b_of_s|by intros ->].
  - apply (sf_omit_str _ _ _ _ (MkRec k tx key ts ps pd why "" 0 "" "" None)); [cbn; by rewrite s_of_b_of_s|by intros ->].
  - apply (sf_omit_str _ _ _ _ (MkRec k tx key ts ps pd why o 0 "" "" None)); [cbn; by rewrite s_of_b_of_s|by intros ->].
  - apply (sf_omit_zero _ _ _ _ _ (MkRec k tx key ts ps pd why o rl "" "" None)); [|by intros ->].
    change ((x ← dec_u64 0 (num_u rl); Some (MkRec k tx key ts ps pd why o x "" "" None)) = Some (MkRec k tx key ts ps pd why o rl "" "" None)).
    by rewrite dec_num_u.
  - apply (sf_omit_str _ _ _ _ (MkRec k tx key ts ps pd why o rl rt "" None)); [cbn; by rewrite s_of_b_of_s|by intros ->].
  - apply (sf_omit_str _ _ _ _ (MkRec k tx key ts ps pd why o rl rt rd None)); [cbn; by rewrite s_of_b_of_s|by intros ->].
  - destruct crc as [c|]; [|done]. apply sf_one.
    change ((x ← dec_crc (JNum (fmt_N c)); Some (MkRec k tx key ts ps pd why o rl rt rd x)) = Some (MkRec k tx key ts ps pd why o rl rt rd (Some c))).
    by rewrite dec_crc_fmt by auto.
Qed.

Lemma omit_str_ok k s : forallb (λ kv, json_ok kv.2) (omit_str k s) = true.
Proof. unfold omit_str. by case_decide. Qed.

Lemma crc_member_ok c : forallb (λ kv, json_ok kv.2) (crc_member c) = true.
Proof. destruct c; [|done]. unfold crc_member, member. cbn [forallb snd json_ok]. by rewrite num_ok_fmt_N. Qed.

#[export] Hint Resolve omit_str_ok crc_member_ok : scriva.

Lemma record_json_ok r : json_ok (JObj (record_members r)) = true.
Proof.
  cbn [json_ok]. unfold record_members. rewrite !forallb_app, !andb_true_iff. split_and!; auto with scriva.
  destruct (r_Parts r) as [|p ps]; [done|]. unfold member. cbn [forallb snd json_ok]. rewrite andb_true_r.
  apply forallb_forall. intros x (q & <- & _)%in_map_iff. unfold part_json, member. cbn [json_ok forallb snd]. by rewrite num_ok_fmt_N.
Qed.

Lemma header_json_ok h : json_ok (JObj (header_members h)) = true.
Proof.
  cbn [json_ok]. unfold header_members. rewrite !forallb_app, !andb_true_iff. split_and!; auto with scriva.
  unfold member. cbn [forallb snd]. by rewrite num_i_ok.
Qed.

Lemma omit_str_utf8 k s : str_utf8 k → str_utf8 s → members_utf8 (omit_str k s) = true.
Proof. intros Hk Hs. unfold omit_str. case_decide; [apply members_utf8_nil|]. auto with utf8. Qed.

Lemma crc_member_utf8 c : members_utf8 (crc_member c) = true.
Proof. destruct c; [|apply members_utf8_nil]. unfold crc_member. auto with utf8. Qed.

#[export] Hint Resolve omit_str_utf8 crc_member_utf8 : utf8.

Lemma parts_utf8 ps : Forall str_utf8 (concat (map part_strings ps)) → json_utf8 (JArr (map part_json ps)) = true.
Proof.
  cbn [json_utf8]. induction ps as [|p ps IH]; [done|]. cbn [map concat part_strings app].
  rewrite !Forall_cons. intros (H1 & H2 & H3). cbn [forallb]. rewrite IH, andb_true_r by done.
  unfold part_json. change (members_utf8 [member "c" (JStr (b_of_s (p_C p))); member "n" (JNum (fmt_N (p_N p))); member "d" (JStr (b_of_s (p_D p)))] = true).
  auto with utf8.
Qed.

Lemma record_json_utf8 r : Forall str_utf8 (rec_strings r) → json_utf8 (JObj (record_members r)) = true.
Proof.
  unfold rec_strings. rewrite Forall_app, !Forall_cons. intros ((H1 & H2 & H3 & H4 & H5 & H6 & H7 & H8 & H9 & _) & Hps).
  apply parts_utf8 in Hps. change (members_utf8 (record_members r) = true). unfold record_members.
  repeat apply members_utf8_app; auto with utf8.
  destruct (r_Parts r); [apply members_utf8_nil|]. auto with utf8.
Qed.

Lemma set_record_crc_None r : r_CRC r = None → set_record_crc r None = r.
Proof. destruct r. cbn. by intros ->. Qed.

Lemma set_header_crc_None h : h_CRC h = None → set_header_crc h None = h.
Proof. destruct h. cbn. by intros ->. Qed.

Lemma record_line_unmarshal r : Forall str_utf8 (rec_strings r) → unmarshal (record_line r) =
  Some (JObj (record_members (set_record_crc r (Some (crc32c (marshal_record (set_record_crc r None))))))).
Proof. intros Hu. apply unmarshal_print; [apply record_json_ok|by apply record_json_utf8]. Qed.

Lemma record_line_roundtrip r epoch off :
  rec_wf r → record_ok epoch r = true → decodeXTxRecord (record_line r) epoch off = Ok r.
Proof.
  intros [Hrl Hps Hu Hcrc] Hok. unfold decodeXTxRecord, strictUnmarshal. rewrite record_line_unmarshal by done.
  rewrite record_fields; [|done|done|intros c [= <-]; apply crc32c_lt]. cbn [r_CRC set_record_crc].
  change (set_record_crc (set_record_crc r ?x) None) with (set_record_crc r None).
  rewrite (set_record_crc_None r) by done. rewrite decide_False by (intros H; by apply H).
  rewrite decide_False; [by rewrite Hok|]. intros H. apply H. unfold record_line. by rewrite set_record_crc_None.
Qed.

(** Only the line of a record is read as that record. *)
Lemma decode_canonical line epoch off r :
  decodeXTxRecord line epoch off = Ok r → line = record_line r ∧ record_ok epoch r = true ∧ r_CRC r = None.
Proof.
  unfold decodeXTxRecord. destruct (strictUnmarshal _ _ _) as [r0|]; [|done]. destruct (r_CRC r0) as [want|] eqn:Ec; [|done].
  case_decide as H1; [done|]. case_decide as H2; [done|]. destruct (record_ok _ _) eqn:Ho; [|done]. intros [= <-].
  split_and!; [|done|done]. rewrite <- H2. unfold record_line.
  assert (Hs : ∀ x, set_record_crc (set_record_crc r0 None) x = set_record_crc r0 x) by done.
  rewrite !Hs, H1. f_equal. destruct r0. cbn in Ec. by rewrite Ec.
Qed.

Record header_ok (h : xtxHeader) : Prop := {
  ho_magic : h_Magic h = xtxJournalMagic;
  ho_v : h_V h = xtxJournalVersion;
  ho_epoch : length (b_of_s (h_Epoch h)) = xtxEpochHexLen ∧ isLowerHex (b_of_s (h_Epoch h)) = true;
  ho_gen : in_u64 (h_Gen h);
  ho_created : is_Some (parse_time (b_of_s (h_Created h))) ∧ str_utf8 (h_Created h);
  ho_crc : h_CRC h = None
}.

Lemma lower_hex_utf8 s : isLowerHex s = true → utf8_valid s = true.
Proof.
  intros H. apply utf8_valid_spec, utf8_ascii, Forall_forall. intros c Hc%list_elem_of_In.
  unfold isLowerHex in H. rewrite forallb_forall in H. specialize (H c Hc).
  pose proof (ascii_forall (λ c, negb (isLowerHex [c]) || in_range 0 127 c)) as Hall.
  specialize (Hall ltac:(vm_compute; reflexivity) c). cbn beta in Hall. unfold isLowerHex in Hall. cbn [forallb] in Hall.
  rewrite H in Hall. done.
Qed.

Lemma header_json_utf8 h :
  str_utf8 (h_Magic h) → str_utf8 (h_Epoch h) → str_utf8 (h_Created h) → json_utf8 (JObj (header_members h)) = true.
Proof.
  intros H1 H2 H3. change (members_utf8 (header_members h) = true). unfold header_members.
  repeat apply members_utf8_app; auto 10 with utf8.
Qed.

Lemma header_fields h : in_i64 (h_V h) → in_u64 (h_Gen h) → (∀ c, h_CRC h = Some c → (c < 4294967296)%N) →
  strict_fields set_header_field zero_header (header_members h) = Some h ∧
  strict_fields probe_header_field ("", 0%Z) (header_members h) = Some (h_Magic h, h_V h).
Proof.
  destruct h as [m v e g c crc]. cbn [h_V h_Gen h_CRC h_Magic]. intros Hv Hg Hcrc. unfold header_members.
  cbn [h_Magic h_V h_Epoch h_Gen h_Created h_CRC]. split.
  - eapply sf_app; [|eapply sf_app; [|eapply sf_app]].
    + eapply (sf_cons _ _ _ _ (MkHeader m 0 "" 0 "" None)); [cbn; by rewrite s_of_b_of_s|].
      eapply (sf_cons _ _ _ _ (MkHeader m v "" 0 "" None)).
      * change ((x ← dec_i64 0 (num_i v); Some (MkHeader m x "" 0 "" None)) = Some (MkHeader m v "" 0 "" None)). by rewrite dec_num_i.
      * apply (sf_one _ _ _ (MkHeader m v e 0 "" None)). cbn. by rewrite s_of_b_of_s.
    + apply (sf_omit_zero _ _ _ _ _ (MkHeader m v e g "" None)); [|by intros ->].
      change ((x ← dec_u64 0 (num_u g); Some (MkHeader m v e x "" None)) = Some (MkHeader m v e g "" None)). by rewrite dec_num_u.
    + apply (sf_one _ _ _ (MkHeader m v e g c None)). cbn. by rewrite s_of_b_of_s.
    + destruct crc as [x|]; [|done]. apply sf_one.
      change ((y ← dec_crc (JNum (fmt_N x)); Some (MkHeader m v e g c y)) = Some (MkHeader m v e g c (Some x))). by rewrite dec_crc_fmt by auto.
  - eapply sf_app; [|eapply sf_app; [|eapply sf_app]].
    + eapply (sf_cons _ _ _ _ (m, 0%Z)).
      { change ((x ← dec_string "" (JStr (b_of_s m)); Some (x, 0%Z)) = Some (m, 0%Z)). by rewrite dec_str. }
      eapply (sf_cons _ _ _ _ (m, v)).
      * change ((x ← dec_i64 0 (num_i v); Some (m, x)) = Some (m, v)). by rewrite dec_num_i.
      * by apply (sf_one _ _ _ (m, v)).
    + by apply (sf_omit_zero _ _ _ _ _ (m, v)).
    + by apply (sf_one _ _ _ (m, v)).
    + destruct crc as [x|]; [|done]. by apply sf_one.
Qed.

Lemma header_line_roundtrip h : header_ok h → decodeXTxHeader (header_line h) = Ok h.
Proof.
  intros [Hm Hv [Hl He] Hg [Hc Hcu] Hcrc]. unfold decodeXTxHeader, probe_header, strictUnmarshal, header_line, marshal_header at 1 3.
  rewrite unmarshal_print; [|apply header_json_ok|apply header_json_utf8; [by cbn [set_header_crc h_Magic]; rewrite Hm|by apply lower_hex_utf8|done]].
  set (h' := set_header_crc h _).
  destruct (header_fields h') as [H1 H2].
  { unfold h'. cbn. rewrite Hv. by vm_compute. } { done. } { intros c [= <-]. apply crc32c_lt. }
  rewrite H1, H2. subst h'. cbn [h_Magic h_V h_CRC h_Epoch h_Created set_header_crc].
  rewrite Hm, Hv, !decide_False by (intros H; by apply H). cbn [h_CRC].
  change (set_header_crc (set_header_crc h ?x) None) with (set_header_crc h None).
  rewrite (set_header_crc_None h) by done. rewrite decide_False by (intros [H|H]; [by apply H|congruence]).
  rewrite decide_False; [done|]. destruct Hc as [t Ht]. by rewrite Ht.
Qed.

(** ** The image of a journal *)

Definition lines (rs : list xtxRecord) : bytes := concat (map encodeXTxRecord rs).

Definition image (h : xtxHeader) (rs : list xtxRecord) : bytes := encodeXTxHeader h ++ lines rs.

(** The records a journal of [epoch] may hold. *)
Record rec_good (epoch : string) (r : xtxRecord) : Prop := {
  rg_wf : rec_wf r;
  rg_ok : record_ok epoch r = true;
  rg_fits : (Z.of_nat (length (record_line r)) ≤ xtxMaxJournalRecord)%Z
}.

Lemma record_line_newline r : newline ∉ record_line r.
Proof. apply clean_no_newline, print_clean, record_json_ok. Qed.

Lemma header_line_newline h : newline ∉ header_line h.
Proof. apply clean_no_newline, print_clean, header_json_ok. Qed.

Lemma print_obj_head l : ∃ t, print (JObj l) = "{"%char :: t.
Proof. cbn [print]. by eexists. Qed.

Lemma allZero_record_line r : allZero (record_line r) = false.
Proof.
  unfold record_line. set (r' := set_record_crc r _). unfold marshal_record.
  destruct (print_obj_head (record_members r')) as [t Ht]. by rewrite Ht.
Qed.

Lemma encode_length r : length (encodeXTxRecord r) = length (record_line r) + 1.
Proof. unfold encodeXTxRecord. by rewrite length_app. Qed.

Lemma lines_app rs rs' : lines (rs ++ rs') = lines rs ++ lines rs'.
Proof. unfold lines. by rewrite map_app, concat_app. Qed.

Lemma lines_length rs : length rs ≤ length (lines rs).
Proof.
  induction rs as [|r rs IH]; [done|]. unfold lines in *. cbn [map concat length]. rewrite length_app, encode_length. lia.
Qed.

Lemma split_newline_inv s l r : split_newline s = Some (l, r) → s = l ++ newline :: r ∧ newline ∉ l.
Proof.
  revert l r. induction s as [|c s IH]; intros l r; [done|]. cbn [split_newline]. case_decide as Hc.
  - intros [= <- <-]. subst c. split; [done|]. apply not_elem_of_nil.
  - destruct (split_newline s) as [[l' r']|]; [|done]. intros [= <- <-]. destruct (IH l' r' eq_refl) as [-> Hn].
    split; [done|]. by intros [?|?]%elem_of_cons.
Qed.

Lemma parse_records_lines epoch rs torn fuel pos t t' acc :
  Forall (rec_good epoch) rs → newline ∉ torn → length rs < fuel → apply_all t rs = Ok t' →
  parse_records fuel epoch pos (lines rs ++ torn) t acc =
  Ok (acc ++ rs, pos + length (lines rs), bool_decide (torn ≠ []), t').
Proof.
  intros Hg Ht. revert fuel pos t acc. induction Hg as [|r rs [Hw Ho Hf] _ IH]; intros fuel pos t acc Hfuel Ha.
  - injection Ha as <-. rewrite app_nil_r, Nat.add_0_r. cbn [lines map concat app]. destruct fuel as [|fuel]; [cbn in Hfuel; lia|].
    cbn [parse_records]. destruct torn as [|c torn]; [done|]. destruct (split_newline (c :: torn)) as [[l x]|] eqn:E.
    + exfalso. apply Ht. apply split_newline_inv in E as [E _]. rewrite E. apply elem_of_app. right. by left.
    + by rewrite bool_decide_true.
  - cbn [apply_all] in Ha. destruct (apply t r) as [t1|] eqn:E1; [|done]. cbn [res_bind] in Ha.
    destruct fuel as [|fuel]; [lia|]. cbn [length] in Hfuel.
    assert (Hl : lines (r :: rs) ++ torn = record_line r ++ newline :: (lines rs ++ torn)).
    { unfold lines. cbn [map concat]. unfold encodeXTxRecord. by rewrite <- !app_assoc. }
    rewrite Hl. cbn [parse_records]. destruct (record_line r ++ newline :: lines rs ++ torn) as [|c0 d0] eqn:Ed; [by apply app_nil in Ed as [_ ?]|].
    rewrite <- Ed, split_newline_app by apply record_line_newline.
    destruct (Z.ltb_spec xtxMaxJournalRecord (Z.of_nat (length (record_line r)))); [lia|].
    rewrite allZero_record_line, andb_false_r, record_line_roundtrip by done. cbn [res_bind]. rewrite E1.
    rewrite IH by (done || lia). rewrite <- app_assoc. cbn [app]. f_equal. f_equal. f_equal. f_equal.
    unfold lines. cbn [map concat]. rewrite length_app, encode_length. lia.
Qed.

Lemma parse_image h rs torn t :
  header_ok h → Forall (rec_good (h_Epoch h)) rs → newline ∉ torn → apply_all newXTxTable rs = Ok t →
  parseXTxJournal (image h rs ++ torn) =
  Ok (Some (MkParsed h rs (length (image h rs)) (bool_decide (torn ≠ [])) t)).
Proof.
  intros Hh Hg Ht Ha. unfold parseXTxJournal, image, encodeXTxHeader. rewrite <- !app_assoc. cbn [app].
  rewrite split_newline_app by apply header_line_newline. rewrite header_line_roundtrip by done. cbn [res_bind].
  rewrite (parse_records_lines _ _ _ _ _ _ t) by (done || (pose proof (lines_length rs); rewrite length_app; lia)).
  cbn [res_bind app]. f_equal. f_equal. f_equal. rewrite !length_app. cbn [length]. lia.
Qed.

(** ** The table *)

Lemma apply_all_app t l1 l2 :
  apply_all t (l1 ++ l2) = (let* t' := apply_all t l1 in apply_all t' l2).
Proof.
  revert t. induction l1 as [|r l1 IH]; intros t; [done|]. cbn [app apply_all].
  destruct (apply t r) as [t'|]; [|done]. cbn [res_bind]. apply IH.
Qed.

Lemma apply_all_snoc t l r t1 t2 : apply_all t l = Ok t1 → apply t1 r = Ok t2 → apply_all t (l ++ [r]) = Ok t2.
Proof. intros H1 H2. rewrite apply_all_app, H1. cbn [res_bind apply_all]. by rewrite H2. Qed.

(** Every decision is filed under its own id. *)
Definition filed (t : xtxTable) : Prop := ∀ tx d, byTx t !! tx = Some d → d_Tx d = tx.

Definition rec_seq (r : xtxRecord) : Z := match parseTxID (r_Tx r) with Some (_, s) => s | None => 0%Z end.

(** What one record does to the decision it speaks of. *)
Record decides (r : xtxRecord) (old : option xtxDecision) (d : xtxDecision) : Prop := {
  de_tx : d_Tx d = r_Tx r;
  de_outcome : d_Outcome d = rec_outcome r;
  de_key : d_Key d = r_Key r;
  de_old : ∀ d0, old = Some d0 → d_Outcome d = d_Outcome d0;
  de_retired : d_Retired d = match old with Some d0 => d_Retired d0 | None => false end || bool_decide (r_K r = xtxKindRetire)
}.

Lemma find_dec_decides t r d :
  filed t → find_dec t r = Ok d →
  d_Tx d = r_Tx r ∧ d_Outcome d = rec_outcome r ∧ d_Key d = r_Key r ∧
  (∀ d0, byTx t !! r_Tx r = Some d0 → d = d0) ∧ (byTx t !! r_Tx r = None → d_Retired d = false).
Proof.
  intros Hf. unfold find_dec. destruct (byTx t !! r_Tx r) as [d0|] eqn:E.
  - case_decide as H1; [done|]. case_decide as H2; [done|]. intros [= <-]. split_and!; [by apply Hf|done|done| |done]. congruence.
  - intros [= <-]. done.
Qed.

Lemma apply_key_byTx t r : byTx (apply_key t r) = byTx t.
Proof. unfold apply_key. case_decide; [done|]. by destruct (match byKey t !! r_Key r with Some _ => _ | None => _ end). Qed.

Lemma apply_key_rest t r : byLSN (apply_key t r) = byLSN t ∧ maxSeq (apply_key t r) = maxSeq t.
Proof. unfold apply_key. case_decide; [done|]. by destruct (match byKey t !! r_Key r with Some _ => _ | None => _ end). Qed.

(** The update of the decision, whatever the kind. *)
Lemma apply_kind_spec t d r t' :
  apply_kind t d r = Ok t' →
  ∃ d', byTx t' = <[d_Tx d := d']> (byTx t) ∧ d_Tx d' = d_Tx d ∧ d_Outcome d' = d_Outcome d ∧ d_Key d' = d_Key d ∧
        d_Retired d' = d_Retired d || bool_decide (r_K r = xtxKindRetire) ∧ maxSeq t' = maxSeq t ∧
        byLSN t' = (if bool_decide (r_K r = xtxKindCommit) && negb (r_RL r =? 0)%Z then <[r_RL r := r_Tx r]> (byLSN t) else byLSN t).
Proof.
  unfold apply_kind. case_decide as Hc.
  - rewrite (bool_decide_true (r_K r = xtxKindCommit)) by done. rewrite (bool_decide_false (r_K r = xtxKindRetire)) by (by rewrite Hc).
    rewrite orb_false_r. unfold apply_parts.
    assert (Hb : ∀ d1, d_Tx d1 = d_Tx d → d_Outcome d1 = d_Outcome d → d_Key d1 = d_Key d → d_Retired d1 = d_Retired d →
      apply_binding t d1 r = Ok t' →
      ∃ d', byTx t' = <[d_Tx d := d']> (byTx t) ∧ d_Tx d' = d_Tx d ∧ d_Outcome d' = d_Outcome d ∧ d_Key d' = d_Key d ∧
        d_Retired d' = d_Retired d ∧ maxSeq t' = maxSeq t ∧
        byLSN t' = (if true && negb (r_RL r =? 0)%Z then <[r_RL r := r_Tx r]> (byLSN t) else byLSN t)).
    { intros d1 H1 H2 H3 H4. unfold apply_binding. destruct (r_RL r =? 0)%Z.
      - intros [= <-]. exists d1. cbn. rewrite H1. done.
      - case_decide; [done|]. destruct (lsn_taken t r); [done|]. intros [= <-]. exists (set_binding d1 (r_RL r) (r_RT r) (r_RD r)).
        cbn. rewrite H1. done. }
    destruct (decide _); [case_decide; [done|]; cbn [res_bind]; by apply Hb|]. cbn [res_bind]. by apply Hb.
  - rewrite (bool_decide_false (r_K r = xtxKindCommit)) by done. case_decide as Ha.
    + rewrite (bool_decide_false (r_K r = xtxKindRetire)) by (by rewrite Ha). rewrite orb_false_r.
      intros [= <-]. destruct (decide (d_Why d = "")); eexists; cbn; done.
    + case_decide as Hr.
      * rewrite bool_decide_true, orb_true_r by done. intros [= <-]. eexists; cbn; done.
      * rewrite bool_decide_false, orb_false_r by done. intros [= <-]. eexists; cbn; done.
Qed.

Lemma apply_spec t r t' :
  filed t → apply t r = Ok t' →
  ∃ d, byTx t' = <[r_Tx r := d]> (byTx t) ∧ decides r (byTx t !! r_Tx r) d ∧ filed t' ∧
       maxSeq t' = Z.max (maxSeq t) (rec_seq r) ∧
       byLSN t' = (if bool_decide (r_K r = xtxKindCommit) && negb (r_RL r =? 0)%Z then <[r_RL r := r_Tx r]> (byLSN t) else byLSN t).
Proof.
  intros Hf. unfold apply. set (t0 := raise_seq t r).
  destruct (find_dec t0 r) as [d|] eqn:Ed; [|done]. cbn [res_bind].
  destruct (apply_kind t0 d r) as [t1|] eqn:E1; [|done]. cbn [res_bind]. intros [= <-].
  destruct (find_dec_decides t0 r d Hf Ed) as (Htx & Hout & Hkey & Hold & Hnone).
  destruct (apply_kind_spec t0 d r t1 E1) as (d' & Hby & Htx' & Hout' & Hkey' & Hret & Hmax & Hlsn).
  rewrite apply_key_byTx. destruct (apply_key_rest t1 r) as [-> ->]. exists d'. rewrite Htx in Hby. split_and!.
  - done.
  - split; [congruence..| |].
    + intros d0 H0. rewrite (Hold d0 H0) in *. done.
    + rewrite Hret. f_equal. destruct (byTx t !! r_Tx r) as [d0|] eqn:E0; [by rewrite (Hold d0 E0)|by apply Hnone].
  - intros tx d0. rewrite apply_key_byTx, Hby. destruct (decide (tx = r_Tx r)) as [->|Hne].
    + rewrite lookup_insert_eq. intros [= <-]. congruence.
    + rewrite lookup_insert_ne by done. apply Hf.
  - done.
  - done.
Qed.

Lemma filed_new : filed newXTxTable.
Proof. intros tx d. cbn. by rewrite lookup_empty. Qed.

Lemma apply_all_filed t rs t' : filed t → apply_all t rs = Ok t' → filed t'.
Proof.
  revert t. induction rs as [|r rs IH]; intros t Hf; [by intros [= <-]|]. cbn [apply_all].
  destruct (apply t r) as [t1|] eqn:E; [|done]. destruct (apply_spec t r t1 Hf E) as (_ & _ & _ & Hf1 & _). by apply IH.
Qed.

Lemma apply_fresh t r :
  byTx t !! r_Tx r = None → (r_K r = xtxKindCommit → r_RL r ≠ 0%Z → byLSN t !! r_RL r = None) →
  ∃ t', apply t r = Ok t'.
Proof.
  intros Hn Hlsn. unfold apply, find_dec. cbn [raise_seq byTx]. rewrite Hn. cbn [res_bind]. unfold apply_kind.
  case_decide as Hc; [|case_decide as Ha; [|case_decide as Hr]]; cbn [res_bind]; eauto.
  unfold apply_parts. rewrite decide_False by (intros [H|H]; by apply H). cbn [res_bind]. unfold apply_binding.
  destruct (Z.eqb_spec (r_RL r) 0) as [H0|H0]; [cbn [res_bind]; eauto|].
  rewrite decide_False by (intros [H _]; by apply H). unfold lsn_taken. cbn [raise_seq byLSN]. rewrite Hlsn by done.
  cbn [res_bind]. eauto.
Qed.

Lemma apply_retire t r d :
  byTx t !! r_Tx r = Some d → r_K r = xtxKindRetire → r_O r = d_Outcome d → r_Key r = d_Key d →
  ∃ t', apply t r = Ok t'.
Proof.
  intros Hd Hk Ho Hkey. unfold apply, find_dec, rec_outcome. cbn [raise_seq byTx]. rewrite Hd, (decide_True _ _ Hk), Ho, Hkey.
  rewrite !decide_False by (intros H; by apply H). cbn [res_bind]. unfold apply_kind.
  rewrite decide_False by (by rewrite Hk). rewrite decide_False by (by rewrite Hk). rewrite decide_True by done. cbn [res_bind]. eauto.
Qed.

(** *** Leaving out whole transactions *)

(** [u] is [t] without the transactions of [gone]. *)
Record without (gone : gset string) (t u : xtxTable) : Prop := {
  wo_byTx : byTx u = filter (λ kv, kv.1 ∉ gone) (byTx t);
  wo_byLSN : byLSN u ⊆ byLSN t;
  wo_bound : ∀ l p, byLSN u !! l = Some p → p ∉ gone;
  wo_seq : (maxSeq u ≤ maxSeq t)%Z
}.

Lemma without_lookup gone t u tx : without gone t u → tx ∉ gone → byTx u !! tx = byTx t !! tx.
Proof.
  intros [-> _ _ _] Hn. destruct (byTx t !! tx) as [d|] eqn:E.
  - by apply map_lookup_filter_Some.
  - apply map_lookup_filter_None. by left.
Qed.

Lemma find_dec_agree t u r d :
  byTx u !! r_Tx r = byTx t !! r_Tx r → find_dec t r = Ok d → find_dec u r = Ok d.
Proof.
  intros E. unfold find_dec. rewrite E. destruct (byTx t !! r_Tx r); [|done]. case_decide; [done|]. by case_decide.
Qed.

Lemma apply_kind_agree gone t u d r t' :
  d_Tx d = r_Tx r → r_Tx r ∉ gone → without gone t u → apply_kind t d r = Ok t' →
  ∃ u', apply_kind u d r = Ok u' ∧ without gone t' u'.
Proof.
  intros Htx Hn Hw. assert (Hset : ∀ d1 : xtxDecision, d_Tx d1 = r_Tx r → without gone (set_dec t d1) (set_dec u d1)).
  { intros d1 H1. destruct Hw as [Hb Hl Hg Hs]. split; cbn; [|done|done|done]. rewrite Hb, H1, map_filter_insert_True by done. done. }
  unfold apply_kind. case_decide as Hc; [|case_decide as Ha; [|case_decide as Hr]].
  - assert (Hb : ∀ d1, d_Tx d1 = r_Tx r → apply_binding t d1 r = Ok t' → ∃ u', apply_binding u d1 r = Ok u' ∧ without gone t' u').
    { intros d1 H1. unfold apply_binding. destruct (r_RL r =? 0)%Z; [intros [= <-]; eauto|]. case_decide; [done|].
      destruct (lsn_taken t r) eqn:El; [done|]. intros [= <-].
      assert (Hlu : lsn_taken u r = false).
      { unfold lsn_taken in *. destruct (byLSN u !! r_RL r) as [p|] eqn:Ep; [|done].
        by rewrite (lookup_weaken _ _ _ _ Ep (wo_byLSN _ _ _ Hw)) in El. }
      rewrite Hlu. eexists. split; [done|].
      destruct (Hset (set_binding d1 (r_RL r) (r_RT r) (r_RD r)) H1) as [H2 H3 H4 H5]. split; cbn in *; [done|by apply insert_mono| |done].
      intros l p. destruct (decide (l = r_RL r)) as [->|Hne]; [by rewrite lookup_insert_eq; intros [= <-]|].
      rewrite lookup_insert_ne by done. apply H4. }
    unfold apply_parts. destruct (decide _); [case_decide; [done|]; cbn [res_bind]; by apply Hb|]. cbn [res_bind]. by apply Hb.
  - intros [= <-]. eexists. split; [done|]. apply Hset. by destruct (decide _).
  - intros [= <-]. eexists. split; [done|]. by apply Hset.
  - intros [= <-]. eexists. split; [done|]. by apply Hset.
Qed.

Lemma without_key gone t u r : without gone t u → without gone (apply_key t r) (apply_key u r).
Proof.
  intros []. destruct (apply_key_rest t r) as [E1 E2], (apply_key_rest u r) as [E3 E4].
  split; intros; rewrite ?apply_key_byTx, ?E1, ?E2, ?E3, ?E4 in *; eauto.
Qed.

Lemma apply_kept gone t u r t' :
  filed t → without gone t u → r_Tx r ∉ gone → apply t r = Ok t' → ∃ u', apply u r = Ok u' ∧ without gone t' u'.
Proof.
  intros Hf Hw Hn. unfold apply. set (t0 := raise_seq t r). set (u0 := raise_seq u r).
  assert (Hw0 : without gone t0 u0) by (destruct Hw; split; cbn; [done|done|done|lia]).
  destruct (find_dec t0 r) as [d|] eqn:Ed; [|done]. cbn [res_bind].
  rewrite (find_dec_agree t0 u0 r d (without_lookup _ _ _ _ Hw0 Hn) Ed). cbn [res_bind].
  destruct (apply_kind t0 d r) as [t1|] eqn:E1; [|done]. cbn [res_bind]. intros [= <-].
  destruct (find_dec_decides t0 r d Hf Ed) as (Htx & _).
  destruct (apply_kind_agree gone t0 u0 d r t1 Htx Hn Hw0 E1) as (u1 & -> & Hw1). cbn [res_bind].
  eexists. split; [done|]. by apply without_key.
Qed.

Lemma apply_lsn t r t' p :
  apply t r = Ok t' → r_K r = xtxKindCommit → r_RL r ≠ 0%Z → byLSN t !! r_RL r = Some p → p = r_Tx r.
Proof.
  unfold apply. set (t0 := raise_seq t r). destruct (find_dec t0 r) as [d|]; [|done]. cbn [res_bind].
  destruct (apply_kind t0 d r) as [t1|] eqn:E1; [|done]. intros _ Hk Hrl Hp. unfold apply_kind in E1.
  rewrite decide_True in E1 by done. destruct (apply_parts t0 d r) as [d1|]; [|done]. cbn [res_bind] in E1.
  unfold apply_binding in E1. destruct (Z.eqb_spec (r_RL r) 0); [done|]. case_decide; [done|].
  unfold lsn_taken in E1. cbn [t0 raise_seq byLSN] in E1. rewrite Hp in E1. case_bool_decide; [done|]. done.
Qed.

Lemma apply_left gone t u r t' :
  filed t → without gone t u → r_Tx r ∈ gone → apply t r = Ok t' → without gone t' u.
Proof.
  intros Hf [Hb Hl Hg Hs] Hin Ha. destruct (apply_spec t r t' Hf Ha) as (d & Hby & _ & _ & Hmax & Hlsn). split.
  - rewrite Hb, Hby, map_filter_insert_False by (cbn; tauto). by rewrite map_filter_delete_not by (cbn; tauto).
  - rewrite Hlsn. destruct (_ && _) eqn:Ec; [|done]. apply andb_true_iff in Ec as [Hk%bool_decide_eq_true Hrl].
    apply map_subseteq_spec. intros l p Hp. destruct (decide (l = r_RL r)) as [->|Hne].
    + exfalso. apply (Hg _ _ Hp). rewrite (apply_lsn t r t' p); [done..| |by eapply lookup_weaken].
      apply negb_true_iff, Z.eqb_neq in Hrl. done.
    + rewrite lookup_insert_ne by done. by eapply lookup_weaken.
  - done.
  - lia.
Qed.

Lemma apply_all_without gone t u rs t' :
  filed t → without gone t u → apply_all t rs = Ok t' →
  ∃ u', apply_all u (filter (λ r, r_Tx r ∉ gone) rs) = Ok u' ∧ without gone t' u'.
Proof.
  revert t u. induction rs as [|r rs IH]; intros t u Hf Hw; cbn [apply_all]; [intros [= <-]; eauto|].
  destruct (apply t r) as [t1|] eqn:E; [|done]. cbn [res_bind]. intros Ha.
  assert (Hf1 : filed t1) by (by destruct (apply_spec t r t1 Hf E) as (_ & _ & _ & ? & _)).
  destruct (decide (r_Tx r ∈ gone)) as [Hin|Hn].
  - rewrite filter_cons_False by tauto. apply (IH t1); [done|by apply (apply_left gone t u r t1)|done].
  - rewrite filter_cons_True by done. destruct (apply_kept gone t u r t1 Hf Hw Hn E) as (u1 & E1 & Hw1).
    cbn [apply_all]. rewrite E1. cbn [res_bind]. by apply (IH t1).
Qed.

Lemma without_new gone : without gone newXTxTable newXTxTable.
Proof. split; cbn; [by rewrite map_filter_empty|done| |done]. intros l p. by rewrite lookup_empty. Qed.

(** ** Transaction ids *)

Definition epoch_ok (e : string) : Prop := length (b_of_s e) = xtxEpochHexLen ∧ isLowerHex (b_of_s e) = true.

Lemma parse_format e seq : epoch_ok e → in_u64 seq → parseTxID (formatTxID e seq) = Some (e, seq).
Proof.
  intros [Hl Hh] Hs. unfold parseTxID, formatTxID. rewrite b_of_s_of_b. unfold xtxEpochHexLen, xtxSeqHexLen in *.
  assert (Hlen : length (b_of_s e ++ "-"%char :: hex16 (Z.to_N seq)) = 33) by (rewrite length_app, Hl; done).
  rewrite decide_False.
  - replace (take 16 (b_of_s e ++ _)) with (b_of_s e) by (by rewrite <- Hl, take_app_length).
    replace (drop (16 + 1) (b_of_s e ++ _)) with (hex16 (Z.to_N seq)).
    + rewrite Hh, isLowerHex_hex16. cbn [negb orb]. rewrite parse_hex16 by (unfold in_u64, two64 in Hs; lia).
      cbn [mbind option_bind]. rewrite s_of_b_of_s, Z2N.id by (unfold in_u64 in Hs; lia). done.
    + rewrite drop_app_ge by lia. by rewrite Hl.
  - rewrite Hlen. unfold xtxMaxTxIDLen. intros [H|[H|H]]; [lia|lia|]. apply H. rewrite lookup_app_r by lia. by rewrite Hl.
Qed.

Lemma format_parse tx e seq : parseTxID tx = Some (e, seq) → tx = formatTxID e seq ∧ epoch_ok e ∧ in_u64 seq.
Proof.
  unfold parseTxID. case_decide as Hd; [done|]. destruct (_ || _) eqn:Eh; [done|].
  apply orb_false_iff in Eh as [H1%negb_false_iff H2%negb_false_iff].
  destruct (parse_hex _) as [n|] eqn:Ep; [|done]. cbn [mbind option_bind]. intros [= <- <-].
  assert (Hlen : length (b_of_s tx) = 33) by (unfold xtxEpochHexLen, xtxSeqHexLen in Hd; destruct (decide (length (b_of_s tx) = 33)); [done|tauto]).
  assert (Hdash : b_of_s tx !! 16 = Some "-"%char) by (unfold xtxEpochHexLen in Hd; destruct (decide (b_of_s tx !! 16 = Some "-"%char)); [done|tauto]).
  unfold xtxEpochHexLen in *. apply hex_digits_parse in Ep as [Hd2 Hn]; [|done].
  rewrite length_drop, Hlen in Hd2, Hn. change (33 - (16 + 1)) with 16 in Hd2, Hn.
  split_and!.
  - unfold formatTxID. rewrite b_of_s_of_b, N2Z.id. change (hex16 n) with (hex_digits 16 n). rewrite Hd2.
    rewrite <- (s_of_b_of_s tx) at 1. f_equal. rewrite <- (take_drop_middle (b_of_s tx) 16 "-"%char) at 1 by done. done.
  - unfold epoch_ok. rewrite b_of_s_of_b. split; [|done]. rewrite length_take, Hlen. done.
  - unfold in_u64, two64. change (16 ^ N.of_nat 16)%N with 18446744073709551616%N in Hn. lia.
Qed.

Lemma record_txid epoch r : record_ok epoch r = true → r_Tx r = formatTxID epoch (rec_seq r) ∧ in_u64 (rec_seq r).
Proof.
  unfold record_ok, rec_seq. intros H. destruct (parseTxID (r_Tx r)) as [[e s]|] eqn:E; [|done].
  apply andb_true_iff in H as [[[H%bool_decide_eq_true _]%andb_true_iff _]%andb_true_iff _]. subst e.
  by apply format_parse in E as (? & _ & ?).
Qed.

(** The highest sequence number is that of a decision. *)
Lemma max_decided epoch rs t t' :
  filed t → Forall (rec_good epoch) rs → apply_all t rs = Ok t' →
  (maxSeq t = 0%Z ∨ is_Some (byTx t !! formatTxID epoch (maxSeq t))) →
  maxSeq t' = 0%Z ∨ is_Some (byTx t' !! formatTxID epoch (maxSeq t')).
Proof.
  intros Hf Hg. revert t Hf. induction Hg as [|r rs [_ Ho _] _ IH]; intros t Hf; [by intros [= <-]|]. cbn [apply_all].
  destruct (apply t r) as [t1|] eqn:E; [|done]. cbn [res_bind]. intros Ha Hm.
  destruct (apply_spec t r t1 Hf E) as (d & Hby & _ & Hf1 & Hmax & _). apply (IH t1 Hf1 Ha).
  destruct (record_txid epoch r Ho) as [Htx Hs]. rewrite Hby, Hmax.
  destruct (decide (maxSeq t ≤ rec_seq r)%Z) as [Hle|Hgt].
  - rewrite Z.max_r by done. right. rewrite <- Htx, lookup_insert_eq. eauto.
  - rewrite Z.max_l by lia. destruct Hm as [Hm|Hm]; [by left|]. right. apply lookup_insert_is_Some'. by right.
Qed.

Lemma maxSeq_u64 epoch rs t : Forall (rec_good epoch) rs → apply_all newXTxTable rs = Ok t → in_u64 (maxSeq t).
Proof.
  intros Hg Ha. assert (Hgen : ∀ t0, filed t0 → in_u64 (maxSeq t0) → apply_all t0 rs = Ok t → in_u64 (maxSeq t)).
  { clear Ha. induction Hg as [|r rs [_ Ho _] _ IH]; intros t0 Hf H0; [by intros [= <-]|]. cbn [apply_all].
    destruct (apply t0 r) as [t1|] eqn:E; [|done]. cbn [res_bind]. destruct (apply_spec t0 r t1 Hf E) as (d & _ & _ & Hf1 & Hmax & _).
    apply IH; [done|]. rewrite Hmax. destruct (record_txid epoch r Ho) as [_ Hs]. unfold in_u64 in *. lia. }
  by apply (Hgen newXTxTable filed_new).
Qed.
