(* ===== verification/JournalInv.v ===== *)
(** * The invariant of the coordinator journal

    The file of a journal is the image of its records, but for what the failure
    that poisoned it left behind; every operation keeps it so, and a crash and
    a reopening lose no acknowledged decision. *)
From Stdlib Require Import Ascii Lia ZArith.
From stdpp Require Import prelude gmap strings sorting.
From S2P Require Import Prelude GoNum Json Value GoTime Store Wire Segment Sha256 Journal JournalThm.

(** Projections of an updated journal. *)
Ltac jcbn :=
  cbn [with_file with_pending with_seq with_table j_disk j_synced j_shadow j_hdr j_size nextSeq table j_records pending
       j_poisoned j_closed].

Definition jepoch (j : xtxJournal) : string := h_Epoch (j_hdr j).

Definition hwm (j : xtxJournal) : string := formatTxID (jepoch j) (maxSeq (table j)).

(** The transactions a checkpoint may leave out. *)
Definition droppable (j : xtxJournal) (gone : gset string) : Prop :=
  ∀ tx, tx ∈ gone → tx ≠ hwm j ∧ ∃ d, byTx (table j) !! tx = Some d ∧ d_Retired d = true.

Definition kept (gone : gset string) (rs : list xtxRecord) : list xtxRecord := filter (λ r, r_Tx r ∉ gone) rs.

Section Invariant.

(** The records whose writing has been attempted. *)
Variable attempted : xtxRecord → Prop.

(** A record the journal may be about to write: only a decided transaction is retired. *)
Definition warranted (t : xtxTable) (r : xtxRecord) : Prop :=
  attempted r ∧ (r_K r = xtxKindRetire → is_Some (byTx t !! r_Tx r)).

(** What the file holds: the records; or, after a failure, also the beginning of
    a line, or the result of a checkpoint. *)
Inductive jfile (j : xtxJournal) : Prop :=
| JClean :
    j_poisoned j = false → j_disk j = image (j_hdr j) (j_records j) → j_synced j = length (j_disk j) →
    j_size j = length (j_disk j) → j_shadow j = None → jfile j
| JTorn r k :
    j_poisoned j = true → j_disk j = image (j_hdr j) (j_records j) ++ take k (encodeXTxRecord r) →
    j_synced j = length (image (j_hdr j) (j_records j)) → j_shadow j = None →
    rec_good (jepoch j) r → (rec_seq r < nextSeq j)%Z → (∃ t, apply (table j) r = Ok t) → warranted (table j) r → jfile j
| JReplaced gone :
    j_poisoned j = true → j_disk j = image (next_gen (j_hdr j)) (kept gone (j_records j)) → j_synced j = length (j_disk j) →
    (j_shadow j = None ∨ j_shadow j = Some (image (j_hdr j) (j_records j))) → droppable j gone → jfile j.

Record jinv (j : xtxJournal) : Prop := {
  ji_hdr : header_ok (j_hdr j);
  ji_gen : (h_Gen (j_hdr j) + 1 < two64)%Z;
  ji_recs : Forall (rec_good (jepoch j)) (j_records j);
  ji_table : apply_all newXTxTable (j_records j) = Ok (table j);
  ji_seq : (0 ≤ maxSeq (table j) < nextSeq j ∧ nextSeq j < two64)%Z;
  ji_file : jfile j
}.

(** What a crash may leave of the file. *)
Definition crash_image (j : xtxJournal) (b : bytes) : Prop :=
  (∃ k, j_synced j ≤ k ≤ length (j_disk j) ∧ b = take k (j_disk j)) ∨ j_shadow j = Some b.

(** ** Reopening *)

Lemma open_image h rs torn t epoch now :
  header_ok h → Forall (rec_good (h_Epoch h)) rs → newline ∉ torn → apply_all newXTxTable rs = Ok t →
  openXTxJournal (image h rs ++ torn) epoch now [] =
  (image h rs, [], Ok (MkJournal (image h rs) (length (image h rs)) None h (length (image h rs)) (u64 (maxSeq t + 1)) t rs ∅ false false)).
Proof.
  intros Hh Hg Ht Ha. unfold openXTxJournal. rewrite (parse_image h rs torn t) by done. cbn [next_fault f_ok negb ps_Torn].
  destruct torn as [|c torn].
  - rewrite bool_decide_false by (intros H; by apply H). by rewrite app_nil_r.
  - rewrite bool_decide_true by done. cbn [file_truncate next_fault f_ok ps_ValidLen negb file_sync].
    unfold truncate_bytes. rewrite take_app_length. replace (_ - _) with 0 by (rewrite length_app; lia).
    cbn [replicate]. rewrite app_nil_r. done.
Qed.

(** A journal as it is after opening the records [rs]. *)
Record reopened (h : xtxHeader) (rs : list xtxRecord) (j : xtxJournal) : Prop := {
  ro_hdr : j_hdr j = h;
  ro_recs : j_records j = rs;
  ro_inv : jinv j;
  ro_open : j_poisoned j = false ∧ j_closed j = false ∧ pending j = ∅
}.

Lemma open_reopened h rs torn t epoch now :
  header_ok h → (h_Gen h + 1 < two64)%Z → Forall (rec_good (h_Epoch h)) rs → newline ∉ torn → apply_all newXTxTable rs = Ok t →
  (maxSeq t + 1 < two64)%Z →
  ∃ j, openXTxJournal (image h rs ++ torn) epoch now [] = (image h rs, [], Ok j) ∧ reopened h rs j ∧ table j = t.
Proof.
  intros Hh Hgen Hg Ht Ha Hm. eexists. split; [by apply open_image|]. split; [|done]. split; [done..| |done].
  pose proof (maxSeq_u64 _ _ _ Hg Ha) as Hu. unfold in_u64 in Hu.
  assert (Hseq : u64 (maxSeq t + 1) = (maxSeq t + 1)%Z) by (apply u64_id; unfold in_u64; lia).
  split; cbn; try done; [rewrite Hseq; lia|]. by apply JClean.
Qed.

Lemma torn_no_newline r k : k ≤ length (record_line r) → newline ∉ take k (encodeXTxRecord r).
Proof.
  intros Hk. unfold encodeXTxRecord. rewrite take_app_le by done. intros Hin. apply (record_line_newline r).
  by eapply (sublist_elem_of _ _ _ Hin), sublist_take || (apply elem_of_take in Hin as (i & Hi & _); eapply list_elem_of_lookup_2; exact Hi).
Qed.

Lemma take_image h rs (x : bytes) k :
  length (image h rs) ≤ k → take k (image h rs ++ x) = image h rs ++ take (k - length (image h rs)) x.
Proof. intros H. by rewrite take_app_ge. Qed.

Lemma next_gen_ok h : header_ok h → (h_Gen h + 1 < two64)%Z → header_ok (next_gen h) ∧ h_Gen (next_gen h) = (h_Gen h + 1)%Z.
Proof.
  intros [] Hg. assert (Hu : u64 (h_Gen h + 1) = (h_Gen h + 1)%Z) by (apply u64_id; unfold in_u64 in *; lia).
  split; [|done]. split; cbn; try done. rewrite Hu. unfold in_u64 in *. lia.
Qed.

Lemma kept_good epoch gone rs : Forall (rec_good epoch) rs → Forall (rec_good epoch) (kept gone rs).
Proof. intros H. apply Forall_forall. intros r [_ Hr]%list_elem_of_filter. rewrite Forall_forall in H. auto. Qed.

(** A crash leaves an image of the records, with the one in flight or not, or of
    those a checkpoint kept. *)
Lemma crash_spec j b epoch now :
  jinv j → (h_Gen (j_hdr j) + 2 < two64)%Z → crash_image j b →
  ∃ h rs j' b', openXTxJournal b epoch now [] = (b', [], Ok j') ∧ reopened h rs j' ∧ h_Epoch h = jepoch j ∧
    ((rs = j_records j ∧ table j' = table j) ∨
     (j_poisoned j = true ∧ ∃ r, rs = j_records j ++ [r] ∧ apply (table j) r = Ok (table j') ∧
        warranted (table j) r) ∨
     (j_poisoned j = true ∧ ∃ gone, droppable j gone ∧ without gone (table j) (table j') ∧ rs = kept gone (j_records j))).
Proof.
  intros [Hh Hgen Hr Ha Hs Hf] Hg2 Hb.
  assert (Hsame : ∀ torn, newline ∉ torn → ∃ j', openXTxJournal (image (j_hdr j) (j_records j) ++ torn) epoch now [] =
      (image (j_hdr j) (j_records j), [], Ok j') ∧ reopened (j_hdr j) (j_records j) j' ∧ table j' = table j).
  { intros torn Ht. apply open_reopened; try done. lia. }
  destruct Hf as [Hp Hd Hsy Hsz Hsh|r k Hp Hd Hsy Hsh Hgr Hrs [t Ht] Hatt|gone Hp Hd Hsy Hsh Hdr].
  - assert (b = image (j_hdr j) (j_records j)) as ->.
    { destruct Hb as [(k & Hk & ->)|Hb]; [|congruence]. rewrite take_ge by lia. done. }
    destruct (Hsame [] (not_elem_of_nil _)) as (j' & Ho & Hre & Htab). rewrite app_nil_r in Ho.
    exists (j_hdr j), (j_records j), j', (image (j_hdr j) (j_records j)). split_and!; try done. by left.
  - destruct Hb as [(k' & Hk & ->)|Hb]; [|congruence]. rewrite Hd, take_image, take_take by lia.
    set (n := (k' - length (image (j_hdr j) (j_records j))) `min` k).
    destruct (decide (n ≤ length (record_line r))) as [Hn|Hn].
    + destruct (Hsame _ (torn_no_newline r n Hn)) as (j' & Ho & Hre & Htab).
      exists (j_hdr j), (j_records j), j', (image (j_hdr j) (j_records j)). split_and!; try done. by left.
    + rewrite take_ge by (rewrite encode_length; lia).
      assert (Him : image (j_hdr j) (j_records j) ++ encodeXTxRecord r = image (j_hdr j) (j_records j ++ [r]) ++ []).
      { unfold image. rewrite lines_app, app_nil_r, <- app_assoc. unfold lines. cbn [map concat]. by rewrite app_nil_r. }
      rewrite Him. destruct (apply_spec (table j) r t) as (d & _ & _ & _ & Hmax & _); [by eapply apply_all_filed; [apply filed_new|]|done|].
      destruct (open_reopened (j_hdr j) (j_records j ++ [r]) [] t epoch now) as (j' & Ho & Hre & Htab); try done.
      { apply Forall_app. split; [done|]. by constructor. } { apply not_elem_of_nil. } { by eapply apply_all_snoc. } { lia. }
      exists (j_hdr j), (j_records j ++ [r]), j', (image (j_hdr j) (j_records j ++ [r])). split_and!; try done.
      right. left. split; [done|]. exists r. split_and!; [done|by rewrite Htab|done].
  - destruct (next_gen_ok _ Hh Hgen) as [Hh' Hg'].
    assert (Hshb : b = image (next_gen (j_hdr j)) (kept gone (j_records j)) ∨ b = image (j_hdr j) (j_records j)).
    { destruct Hb as [(k & Hk & ->)|Hb].
      - left. rewrite take_ge by lia. done.
      - right. destruct Hsh; congruence. }
    destruct Hshb as [->| ->].
    + destruct (apply_all_without gone newXTxTable newXTxTable (j_records j) (table j) filed_new (without_new gone) Ha) as (u & Hu & Hw).
      destruct (open_reopened (next_gen (j_hdr j)) (kept gone (j_records j)) [] u epoch now) as (j' & Ho & Hre & Htab); try done.
      { rewrite Hg'. lia. } { by apply kept_good. } { apply not_elem_of_nil. } { destruct Hw. lia. }
      rewrite app_nil_r in Ho. exists (next_gen (j_hdr j)), (kept gone (j_records j)), j', (image (next_gen (j_hdr j)) (kept gone (j_records j))).
      split_and!; try done. right. right. split; [done|]. exists gone. split_and!; [done|by rewrite Htab|done].
    + destruct (Hsame [] (not_elem_of_nil _)) as (j' & Ho & Hre & Htab). rewrite app_nil_r in Ho.
      exists (j_hdr j), (j_records j), j', (image (j_hdr j) (j_records j)). split_and!; try done. by left.
Qed.

(** ** Appending a decision *)

(** The parts of the state that only [install] and [allocate] change. *)
Record same_book (j j' : xtxJournal) : Prop := {
  sb_hdr : j_hdr j' = j_hdr j;
  sb_next : nextSeq j' = nextSeq j;
  sb_closed : j_closed j' = j_closed j
}.

Lemma usable_ok j : usable j = Ok tt → j_poisoned j = false ∧ j_closed j = false.
Proof. unfold usable. destruct (j_closed j), (j_poisoned j); done. Qed.

Lemma usable_Ok j u : usable j = Ok u → j_poisoned j = false ∧ j_closed j = false.
Proof. destruct u. apply usable_ok. Qed.

Lemma clean_file j : jinv j → j_poisoned j = false →
  j_disk j = image (j_hdr j) (j_records j) ∧ j_synced j = length (j_disk j) ∧ j_size j = length (j_disk j) ∧ j_shadow j = None.
Proof. intros [_ _ _ _ _ Hf] Hp. destruct Hf; congruence || done. Qed.

Lemma image_snoc h rs r : image h (rs ++ [r]) = image h rs ++ encodeXTxRecord r.
Proof. unfold image. rewrite lines_app, <- app_assoc. unfold lines. cbn [map concat]. by rewrite app_nil_r. Qed.

(** A line is appended whole, or not at all; or the journal is poisoned. *)
Lemma appendLine_spec j r fs j' fs' w t :
  jinv j → j_poisoned j = false → warranted (table j) r → rec_good (jepoch j) r → (rec_seq r < nextSeq j)%Z → apply (table j) r = Ok t →
  appendLine j (encodeXTxRecord r) fs = (j', fs', w) →
  same_book j j' ∧ pending j' = pending j ∧ table j' = table j ∧ j_records j' = j_records j ∧
  match w with
  | Ok _ => j_poisoned j' = false ∧ j_disk j' = image (j_hdr j) (j_records j ++ [r]) ∧ j_size j' = length (j_disk j') ∧
            j_synced j' = length (image (j_hdr j) (j_records j)) ∧ j_shadow j' = None
  | Err _ => jinv j' ∧ (j_poisoned j' = false → j_disk j' = j_disk j)
  end.
Proof.
  intros Hi Hp Hatt Hg Hs Ha. destruct (clean_file j Hi Hp) as (Hd & Hsy & Hsz & Hsh).
  remember (encodeXTxRecord r) as line eqn:Hline. unfold appendLine, file_write.
  destruct (next_fault fs) as [[|k] fs1].
  - intros [= <- <- <-]. jcbn. split_and!; try done.
    + by rewrite image_snoc, Hd, Hline.
    + rewrite length_app. lia.
    + by rewrite Hsy, Hd.
  - destruct (file_truncate HOpen _ (j_size j) fs1) as [[tok d] fs2] eqn:Et. intros [= <- <- <-]. jcbn. do 4 (split; [done|]).
    cbn [file_truncate] in Et. destruct (next_fault fs1) as [f2 fs3]. destruct (f_ok f2).
    + injection Et as <- <- <-. unfold truncate_bytes.
      assert (Hd' : take (j_size j) (j_disk j ++ take k line) ++
                    replicate (j_size j - length (j_disk j ++ take k line)) "000"%char = j_disk j).
      { rewrite Hsz, take_app_length. replace (_ - _) with 0 by (rewrite length_app; lia). apply app_nil_r. }
      rewrite Hd'. split; [|done]. destruct Hi as [H1 H2 H3 H4 H5 H6]. split; unfold jepoch in *; jcbn; try done. apply JClean; jcbn; try done.
      * by rewrite Hp.
      * lia.
    + injection Et as <- <- <-. split; [|by rewrite orb_true_r]. destruct Hi as [H1 H2 H3 H4 H5 H6]. split; unfold jepoch in *; jcbn; try done.
      apply (JTorn _ r k); unfold jepoch; jcbn; try done.
      * by rewrite orb_true_r.
      * by rewrite Hd, Hline.
      * rewrite length_app, Hsy, Hd. lia.
      * eauto.
Qed.

Lemma append_decision_spec j r fs j' fs' w :
  jinv j → usable j = Ok tt → warranted (table j) r → rec_good (jepoch j) r → (rec_seq r < nextSeq j)%Z → (∃ t, apply (table j) r = Ok t) →
  append_decision j r fs = (j', fs', w) →
  jinv j' ∧ same_book j j' ∧ pending j' = pending j ∧
  match w with
  | Ok _ => j_poisoned j' = false ∧ j_records j' = j_records j ++ [r] ∧ apply (table j) r = Ok (table j')
  | Err (JDurability tx) => tx = r_Tx r ∧ j_records j' = j_records j ∧ table j' = table j ∧
                            (j_poisoned j' = false → j_disk j' = j_disk j)
  | Err (JOutcomeUnknown tx) => tx = r_Tx r ∧ j_records j' = j_records j ∧ table j' = table j ∧ j_poisoned j' = true
  | Err _ => False
  end.
Proof.
  intros Hi [Hp Hcl]%usable_ok Hatt Hg Hs [t Ha]. unfold append_decision.
  destruct (appendLine j (encodeXTxRecord r) fs) as [[j1 fs1] w1] eqn:E1.
  destruct (appendLine_spec _ _ _ _ _ _ _ Hi Hp Hatt Hg Hs Ha E1) as ([B1 B2 B3] & Hpe & Ht1 & Hr1 & H1).
  destruct w1 as [[]|e].
  - destruct H1 as (Hp1 & Hd1 & Hsz1 & Hsy1 & Hsh1). unfold syncLocked, file_sync. destruct (next_fault fs1) as [f2 fs2].
    destruct Hi as [I1 I2 I3 I4 I5 _]. destruct (f_ok f2).
    + unfold installLocked. cbn [with_file table]. rewrite Ht1, Ha. intros [= <- <- <-]. jcbn. rewrite Hr1.
      split_and!; try done. destruct (apply_spec (table j) r t) as (d & _ & _ & _ & Hmax & _); [by eapply apply_all_filed; [apply filed_new|]|done|].
      split; unfold jepoch in *; jcbn; rewrite ?B1, ?B2; try done.
      * apply Forall_app. split; [done|]. by constructor.
      * by eapply apply_all_snoc.
      * destruct (record_txid _ _ (rg_ok _ _ Hg)) as [_ Hu]. unfold in_u64 in Hu. lia.
      * apply JClean; jcbn; rewrite ?B1; done.
    + intros [= <- <- <-]. jcbn. split_and!; try done. split; unfold jepoch in *; jcbn; rewrite ?B1, ?B2, ?Hr1, ?Ht1; try done.
      apply (JTorn _ r (length (encodeXTxRecord r))); unfold jepoch; jcbn; rewrite ?B1, ?B2, ?Hr1, ?Ht1; try done; [|eauto].
      by rewrite firstn_all, <- image_snoc.
  - intros [= <- <- <-]. destruct H1 as [Hi1 Hd1]. done.
Qed.

(** ** The operations *)

(** The transaction id was allocated by this journal. *)
Definition allocated (j : xtxJournal) (tx : string) : Prop :=
  ∃ seq, parseTxID tx = Some (jepoch j, seq) ∧ (seq < nextSeq j)%Z.

(** A record the journal can read back: its line is within the limit of a
    record, and its strings are UTF-8, as JSON text needs them. *)
Definition fits (r : xtxRecord) : Prop :=
  (Z.of_nat (length (record_line r)) ≤ xtxMaxJournalRecord)%Z ∧ Forall str_utf8 (rec_strings r).

Definition bind_ok (b : option xtxReplBind) : Prop :=
  match b with
  | None => True
  | Some b => in_u64 (b_LSN b) ∧ length (b_of_s (b_LeadTx b)) ≤ xtxMaxTxIDLen ∧ is_Some (digest_bytes (b_Digest b))
  end.

Lemma allocated_seq j r : allocated j (r_Tx r) → (rec_seq r < nextSeq j)%Z.
Proof. intros (s & Hp & Hs). unfold rec_seq. by rewrite Hp. Qed.

Lemma key_length key : String.length key = length (b_of_s key).
Proof. induction key as [|c key IH]; [done|]. cbn. by rewrite IH. Qed.

(** A record with an id of the journal, a short key and a clock's timestamp. *)
Lemma record_ok_base j r now :
  allocated j (r_Tx r) → String.length (r_Key r) ≤ xtxMaxKeyLen → time_wf now → r_TS r = s_of_b (fmt_time now) → kind_ok r = true →
  record_ok (jepoch j) r = true.
Proof.
  intros (s & Hp & _) Hk Ht Hts Hkind. unfold record_ok. rewrite Hp, Hkind, Hts, b_of_s_of_b, parse_fmt_time by done.
  rewrite !bool_decide_true by eauto. rewrite key_length in Hk. by rewrite (proj2 (Nat.leb_le _ _) Hk).
Qed.

Definition commit_record (tx key : string) (parts : list xtxPart) (pd : string) (bind : option xtxReplBind) (now : time) : xtxRecord :=
  bound_record (newRecord xtxKindCommit tx key now) parts pd bind.

Lemma commit_record_good j tx key parts pd bind now :
  allocated j tx → String.length key ≤ xtxMaxKeyLen → time_wf now → validateParts parts = true → partsDigest parts = Some pd →
  Forall part_wf parts → bind_ok bind →
  (∀ b, bind = Some b → b_LSN b ≠ 0%Z ∧ b_LeadTx b ≠ "" ∧ b_Digest b ≠ "") →
  fits (commit_record tx key parts pd bind now) → rec_good (jepoch j) (commit_record tx key parts pd bind now).
Proof.
  intros Ha Hk Ht Hv Hpd Hps Hb Hbn [Hf Hu]. split; [|apply (record_ok_base j _ now); try done|done].
  - split; [|done|done|done]. destruct bind as [b|]; [apply Hb|]. by vm_compute.
  - unfold kind_ok. rewrite decide_True by done. unfold commit_ok. cbn [commit_record bound_record newRecord r_Why r_O r_RL r_RT r_RD r_Parts r_PD].
    rewrite Hv, Hpd. rewrite (bool_decide_true (Some pd = Some pd)) by done. destruct bind as [b|]; [|done].
    destruct (Hbn b eq_refl) as (H1 & H2 & H3), Hb as (_ & H4 & H5).
    rewrite (proj2 (Z.eqb_neq _ _) H1), (bool_decide_false (b_LeadTx b = "")), (bool_decide_false (b_Digest b = "")) by done.
    rewrite (proj2 (Nat.leb_le _ _) H4), (bool_decide_true (is_Some _)) by done. done.
Qed.

(** [commitPreparedBound] past its checks is [append_decision]. *)
Definition settle (tx : string) (o : xtxJournal * list fault * res xtx_err unit) : xtxJournal * list fault * res xtx_err unit :=
  let '(j, fs, w) := o in
  (match w with Err (JOutcomeUnknown _) => j | _ => with_pending j (delete tx (pending j)) end, fs, w).

Lemma install_pending j r m :
  installLocked (with_pending j m) r = let '(j', w) := installLocked j r in (with_pending j' m, w).
Proof. unfold installLocked. jcbn. by destruct (apply (table j) r). Qed.

Lemma commit_settles j r fs :
  (let '(j, fs, w) := appendLine j (encodeXTxRecord r) fs in
   match w with
   | Err _ => (with_pending j (delete (r_Tx r) (pending j)), fs, Err (JDurability (r_Tx r)))
   | Ok _ =>
       let '(j, fs, s) := syncLocked j fs in
       match s with
       | Err _ => (j, fs, Err (JOutcomeUnknown (r_Tx r)))
       | Ok _ => let '(j, i) := installLocked (with_pending j (delete (r_Tx r) (pending j))) r in (j, fs, i)
       end
   end) = settle (r_Tx r) (append_decision j r fs).
Proof.
  unfold append_decision, settle. destruct (appendLine _ _ _) as [[j1 fs1] w1]. destruct w1 as [[]|e]; [|done].
  destruct (syncLocked j1 fs1) as [[j2 fs2] w2]. destruct w2 as [[]|e]; [|done].
  rewrite install_pending. unfold installLocked. by destruct (apply (table j2) r).
Qed.

(** The pending map is not part of the invariant. *)
Lemma jinv_pending j m : jinv j → jinv (with_pending j m).
Proof.
  intros [H1 H2 H3 H4 H5 H6]. split; try done. destruct H6; [by apply JClean|by eapply (JTorn _ r k)|by eapply (JReplaced _ gone)].
Qed.

Lemma jinv_seq j n : jinv j → (nextSeq j ≤ n < two64)%Z → jinv (with_seq j n).
Proof.
  intros [H1 H2 H3 H4 H5 H6] Hn. split; try done; [jcbn; lia|].
  destruct H6 as [| |]; [by apply JClean| |by eapply (JReplaced _ gone)]. eapply (JTorn _ r k); try done. jcbn. lia.
Qed.

(** Every decided transaction has an id of the journal, up to the highest. *)
Lemma apply_all_below epoch rs t t' :
  filed t → apply_all t rs = Ok t' → Forall (rec_good epoch) rs →
  (∀ tx d, byTx t !! tx = Some d → ∃ s, parseTxID tx = Some (epoch, s) ∧ (s ≤ maxSeq t)%Z) →
  ∀ tx d, byTx t' !! tx = Some d → ∃ s, parseTxID tx = Some (epoch, s) ∧ (s ≤ maxSeq t')%Z.
Proof.
  revert t. induction rs as [|r rs IH]; intros t Hf; [by intros [= <-]|]. cbn [apply_all].
  destruct (apply t r) as [t1|] eqn:E; [|done]. cbn [res_bind]. intros Ha [Hg Hgs]%Forall_cons Ht.
  destruct (apply_spec t r t1 Hf E) as (d1 & Hby & _ & Hf1 & Hmax & _). apply (IH t1 Hf1 Ha Hgs).
  intros tx d2. rewrite Hby. destruct (decide (tx = r_Tx r)) as [->|Hne].
  - intros _. pose proof (rg_ok _ _ Hg) as Ho. unfold record_ok, rec_seq in *. destruct (parseTxID (r_Tx r)) as [[e s]|]; [|done].
    apply andb_true_iff in Ho as [[[Ho%bool_decide_eq_true _]%andb_true_iff _]%andb_true_iff _]. subst e. exists s. split; [done|lia].
  - rewrite lookup_insert_ne by done. intros H2. destruct (Ht tx d2 H2) as (s & ? & ?). exists s. split; [done|lia].
Qed.

Lemma decided_below j tx d :
  jinv j → byTx (table j) !! tx = Some d → ∃ s, parseTxID tx = Some (jepoch j, s) ∧ (s ≤ maxSeq (table j))%Z.
Proof.
  intros Hi. apply (apply_all_below _ (j_records j) newXTxTable); [apply filed_new|apply Hi|apply Hi|].
  intros tx0 d0. cbn. by rewrite lookup_empty.
Qed.

Lemma allocate_spec j key j' w :
  jinv j → (nextSeq j + 1 < two64)%Z → allocateTxID j key = (j', w) →
  jinv j' ∧ j_records j' = j_records j ∧ table j' = table j ∧ j_hdr j' = j_hdr j ∧ j_poisoned j' = j_poisoned j ∧
  match w with
  | Ok tx => tx = formatTxID (jepoch j) (nextSeq j) ∧ allocated j' tx ∧ byTx (table j) !! tx = None
  | Err _ => j' = j
  end.
Proof.
  intros Hi Hroom. unfold allocateTxID. destruct (_ <? _); [by intros [= <- <-]|]. destruct (usable j) as [u|e] eqn:Eu; [|by intros [= <- <-]].
  intros [= <- <-]. pose proof (ji_seq _ Hi) as Hs. assert (Hu : u64 (nextSeq j + 1) = (nextSeq j + 1)%Z) by (apply u64_id; unfold in_u64; lia).
  assert (He : epoch_ok (jepoch j)) by apply (ho_epoch _ (ji_hdr _ Hi)).
  assert (Hpf : parseTxID (formatTxID (jepoch j) (nextSeq j)) = Some (jepoch j, nextSeq j)) by (apply parse_format; [done|unfold in_u64; lia]).
  split_and!; try done.
  - apply jinv_pending, jinv_seq; [done|]. lia.
  - exists (nextSeq j). split; [done|]. jcbn. rewrite Hu. lia.
  - destruct (byTx (table j) !! formatTxID (jepoch j) (nextSeq j)) as [d|] eqn:Ed; [|done]. exfalso.
    destruct (decided_below j _ _ Hi Ed) as (s & Hps & Hles).
    rewrite Hpf in Hps. injection Hps as <-. lia.
Qed.

Lemma commit_spec j tx key parts bind now fs j' fs' w :
  jinv j → allocated j tx → byTx (table j) !! tx = None → time_wf now → Forall part_wf parts → bind_ok bind →
  (∀ pd, partsDigest parts = Some pd → fits (commit_record tx key parts pd bind now) ∧ attempted (commit_record tx key parts pd bind now)) →
  commitPreparedBound j tx key parts bind now fs = (j', fs', w) →
  jinv j' ∧ same_book j j' ∧
  match w with
  | Ok _ => j_poisoned j' = false ∧ ∃ pd, partsDigest parts = Some pd ∧
      j_records j' = j_records j ++ [commit_record tx key parts pd bind now] ∧
      apply (table j) (commit_record tx key parts pd bind now) = Ok (table j')
  | Err _ => j_records j' = j_records j ∧ table j' = table j
  end ∧
  match w with
  | Ok _ => True
  | Err (JOutcomeUnknown _) => j_poisoned j' = true
  | Err _ => j_poisoned j' = false → j_disk j' = j_disk j
  end.
Proof.
  intros Hi Hal Hun Ht Hps Hb Hfit. unfold commitPreparedBound.
  destruct (Nat.ltb_spec xtxMaxKeyLen (String.length key)) as [Hk|Hk]; [by intros [= <- <- <-]|].
  destruct (validateParts parts) eqn:Ev; cbn [negb]; [|by intros [= <- <- <-]].
  destruct (partsDigest parts) as [pd|] eqn:Epd; [|by intros [= <- <- <-]].
  destruct (usable j) as [[]|e] eqn:Eu.
  2: { intros [= <- <- <-]. unfold usable in Eu. do 3 (split; [done|]).
       destruct (j_closed j); [by injection Eu as <-|]. destruct (j_poisoned j) eqn:Ep; [by injection Eu as <-|done]. }
  destruct (match bind with None => None | Some b => _ end) as [e|] eqn:Ebad.
  { intros [= <- <- <-]. split; [done|]. split; [done|]. split; [done|]. destruct bind as [b|]; [|done].
    case_decide; [by injection Ebad as <-|]. destruct (byLSN _ !! _); [by injection Ebad as <-|done]. }
  rewrite (commit_settles j (bound_record (newRecord xtxKindCommit tx key now) parts pd bind)). fold (commit_record tx key parts pd bind now).
  set (r := commit_record tx key parts pd bind now).
  assert (Hbn : ∀ b, bind = Some b → b_LSN b ≠ 0%Z ∧ b_LeadTx b ≠ "" ∧ b_Digest b ≠ "" ∧ byLSN (table j) !! b_LSN b = None).
  { intros b ->. case_decide as Hd; [done|]. destruct (byLSN _ !! _); [done|]. tauto. }
  assert (Hg : rec_good (jepoch j) r).
  { apply commit_record_good; auto; [|by apply Hfit]. intros b Hb'. destruct (Hbn b Hb') as (? & ? & ? & _). done. }
  assert (Hatt : warranted (table j) r) by (by split; [apply Hfit|]).
  assert (Hap : ∃ t, apply (table j) r = Ok t).
  { apply apply_fresh; [done|]. intros _ Hrl. destruct bind as [b|]; [|done]. by apply (Hbn b). }
  destruct (append_decision j r fs) as [[j1 fs1] w1] eqn:E1.
  destruct (append_decision_spec j r fs j1 fs1 w1 Hi Eu Hatt Hg (allocated_seq j r Hal) Hap E1) as (Hi1 & [B1 B2 B3] & Hpe & H1).
  unfold settle. intros [= <- <- <-]. destruct w1 as [[]|e].
  - destruct H1 as (Hp1 & Hr1 & Ht1). split; [by apply jinv_pending|]. split; [done|]. split; [|done]. split; [done|]. by exists pd.
  - destruct e; try done.
    + destruct H1 as (_ & Hr1 & Ht1 & Hd1). split; [by apply jinv_pending|]. done.
    + destruct H1 as (_ & Hr1 & Ht1 & Hd1). done.
Qed.

(** An operation that found nothing to write, or wrote the decision [r]. *)
Definition wrote (j : xtxJournal) (r : xtxRecord) (j' : xtxJournal) (w : res xtx_err unit) : Prop :=
  match w with
  | Ok _ => j' = j ∨ (j_records j' = j_records j ++ [r] ∧ apply (table j) r = Ok (table j'))
  | Err _ => j_records j' = j_records j ∧ table j' = table j
  end.

Lemma append_decision_wrote j r fs j' fs' w :
  jinv j → usable j = Ok tt → warranted (table j) r → rec_good (jepoch j) r → (rec_seq r < nextSeq j)%Z → (∃ t, apply (table j) r = Ok t) →
  append_decision j r fs = (j', fs', w) → jinv j' ∧ same_book j j' ∧ wrote j r j' w.
Proof.
  intros Hi Hu Hatt Hg Hs Ha E. destruct (append_decision_spec j r fs j' fs' w Hi Hu Hatt Hg Hs Ha E) as (Hi' & Hb & _ & H).
  split; [done|]. split; [done|]. destruct w as [[]|[]]; try done; [right; apply H|destruct H as (_ & ? & ? & _); done..].
Qed.

Definition abort_record (tx key why : string) (now : time) : xtxRecord := set_r_why (newRecord xtxKindAbort tx key now) why.

Lemma abort_spec j tx key why now fs j' fs' w :
  jinv j → allocated j tx → String.length key ≤ xtxMaxKeyLen → time_wf now → fits (abort_record tx key why now) → attempted (abort_record tx key why now) →
  abort j tx key why now fs = (j', fs', w) →
  jinv j' ∧ same_book j j' ∧ wrote j (abort_record tx key why now) j' w ∧
  (is_ok w = true → ∃ d, byTx (table j') !! tx = Some d ∧ d_Outcome d = xtxKindAbort).
Proof.
  intros Hi Hal Hk Ht Hfit Hatt. unfold abort. destruct (bool_decide (why ∈ xtxAbortReasons)) eqn:Ew; cbn [negb]; [|by intros [= <- <- <-]].
  destruct (usable j) as [[]|e] eqn:Eu; [|by intros [= <- <- <-]].
  pose proof Hal as (s & Hp & Hs). rewrite Hp, bool_decide_true by done. cbn [negb].
  destruct (byTx (table j) !! tx) as [d|] eqn:Ed.
  { destruct (decide (d_Outcome d ≠ xtxKindAbort)) as [Ho|Ho].
    - intros [= <- <- <-]. done.
    - intros [= <- <- <-]. do 2 (split; [done|]). split; [by left|]. intros _. exists d. split; [done|]. by apply dec_stable. }
  fold (abort_record tx key why now). set (r := abort_record tx key why now). intros E.
  assert (Hg : rec_good (jepoch j) r).
  { destruct Hfit. split; [split; [by vm_compute|constructor|done|done]| |done]. by apply (record_ok_base j r now). }
  assert (Hwa : warranted (table j) r) by done.
  assert (Hap : ∃ t, apply (table j) r = Ok t) by (by apply apply_fresh).
  destruct (append_decision_wrote j r fs j' fs' w Hi Eu Hwa Hg (allocated_seq j r Hal) Hap E) as (Hi' & Hb & Hwr).
  split; [done|]. split; [done|]. split; [done|]. intros Hok. destruct w as [[]|]; [|done].
  destruct (append_decision_spec j r fs j' fs' _ Hi Eu Hwa Hg (allocated_seq j r Hal) Hap E) as (_ & _ & _ & _ & _ & Ha).
  destruct (apply_spec (table j) r (table j')) as (d & Hby & [D1 D2 D3 D4 D5] & _); [by eapply apply_all_filed; [apply filed_new|apply Hi]|done|].
  exists d. rewrite Hby, lookup_insert_eq. done.
Qed.

Definition retire_record (tx key outcome : string) (now : time) : xtxRecord := set_r_o (newRecord xtxKindRetire tx key now) outcome.

(** Every decision is a commit or an abort, under a key that was checked. *)
Definition dec_ok (d : xtxDecision) : Prop :=
  (d_Outcome d = xtxKindCommit ∨ d_Outcome d = xtxKindAbort) ∧ String.length (d_Key d) ≤ xtxMaxKeyLen.

Lemma record_dec_ok epoch r d old : record_ok epoch r = true → decides r old d → dec_ok d.
Proof.
  intros Ho [_ Hout Hkey _ _]. unfold record_ok in Ho. destruct (parseTxID (r_Tx r)) as [[e s]|]; [|done].
  apply andb_true_iff in Ho as [[[_ Hk]%andb_true_iff _]%andb_true_iff Hkind]. split.
  - rewrite Hout. unfold rec_outcome. unfold kind_ok in Hkind. destruct (decide (r_K r = xtxKindRetire)) as [Hr|Hr].
    + rewrite Hr in Hkind. change (retire_ok r = true) in Hkind. unfold retire_ok in Hkind.
      by apply andb_true_iff in Hkind as [_ H%bool_decide_eq_true].
    + destruct (decide (r_K r = xtxKindCommit)); [by left|]. destruct (decide (r_K r = xtxKindAbort)); [by right|done].
  - rewrite Hkey, key_length. by apply Nat.leb_le.
Qed.

Lemma apply_all_dec_ok epoch rs t t' :
  filed t → Forall (rec_good epoch) rs → apply_all t rs = Ok t' →
  map_Forall (λ _, dec_ok) (byTx t) → map_Forall (λ _, dec_ok) (byTx t').
Proof.
  revert t. induction rs as [|r rs IH]; intros t Hf; [by intros _ [= <-]|]. intros [Hg Hgs]%Forall_cons. cbn [apply_all].
  destruct (apply t r) as [t1|] eqn:E; [|done]. cbn [res_bind]. intros Ha Ht.
  destruct (apply_spec t r t1 Hf E) as (d1 & Hby & Hde & Hf1 & _). apply (IH t1 Hf1 Hgs Ha). rewrite Hby.
  apply map_Forall_insert_2; [|done]. by eapply record_dec_ok; [apply Hg|].
Qed.

Lemma decisions_ok j tx d : jinv j → byTx (table j) !! tx = Some d → dec_ok d.
Proof.
  intros Hi Hd. eapply (apply_all_dec_ok (jepoch j) (j_records j) newXTxTable); [apply filed_new|apply Hi|apply Hi| |exact Hd]. apply map_Forall_empty.
Qed.

Lemma retire_spec j tx now fs j' fs' w :
  jinv j → time_wf now → (∀ d, byTx (table j) !! tx = Some d → fits (retire_record tx (d_Key d) (d_Outcome d) now) ∧
    attempted (retire_record tx (d_Key d) (d_Outcome d) now)) →
  retire j tx now fs = (j', fs', w) →
  jinv j' ∧ same_book j j' ∧
  ((j' = j) ∨ ∃ d, byTx (table j) !! tx = Some d ∧ wrote j (retire_record tx (d_Key d) (d_Outcome d) now) j' w).
Proof.
  intros Hi Ht Hfit. unfold retire. destruct (usable j) as [[]|e] eqn:Eu; [|intros [= <- <- <-]; split; [done|]; split; [done|by left]].
  destruct (byTx (table j) !! tx) as [d|] eqn:Ed; [|intros [= <- <- <-]; split; [done|]; split; [done|by left]].
  destruct (d_Retired d); [intros [= <- <- <-]; split; [done|]; split; [done|by left]|].
  fold (retire_record tx (d_Key d) (d_Outcome d) now). set (r := retire_record _ _ _ _). intros E.
  destruct (decided_below j tx d Hi Ed) as (s & Hp & Hs). destruct (decisions_ok j tx d Hi Ed) as [Hout Hkey].
  assert (Hal : allocated j (r_Tx r)) by (exists s; split; [done|]; pose proof (ji_seq _ Hi); lia).
  assert (Hg : rec_good (jepoch j) r).
  { destruct (Hfit d eq_refl) as [[Hf Hu] _]. split; [split; [by vm_compute|constructor|done|done]| |done]. apply (record_ok_base j r now); try done.
    unfold kind_ok. rewrite !decide_False by done. rewrite decide_True by done. unfold retire_ok.
    cbn [r retire_record set_r_o newRecord r_Parts r_PD r_O r_Why no_binding r_RL r_RT r_RD]. by rewrite (bool_decide_true (_ ∨ _)). }
  assert (Hap : ∃ t, apply (table j) r = Ok t) by (by apply (apply_retire _ _ d)).
  assert (Hatt : warranted (table j) r) by (split; [by apply Hfit|by exists d]).
  destruct (append_decision_wrote j r fs j' fs' w Hi Eu Hatt Hg (allocated_seq j r Hal) Hap E) as (Hi' & Hb & Hwr).
  split; [done|]. split; [done|]. right. by exists d.
Qed.

End Invariant.
