(* ===== verification/JournalOps.v ===== *)
(** * Runs of the coordinator journal

    Checkpoints, the run of any sequence of operations under file faults, and
    what a crash at any point leaves to the next process: the acknowledged
    decisions are all there, and no decision was made up. *)
From Stdlib Require Import Ascii Lia ZArith.
From stdpp Require Import prelude gmap strings sorting.
From S2P Require Import Prelude GoNum Json Value GoTime Store Wire Segment Sha256 Journal JournalThm JournalInv.


(** ** Sequences of operations *)

Inductive jop : Type :=
| OpAllocate (key : string)
| OpCommit (tx key : string) (parts : list xtxPart) (bind : option xtxReplBind) (now : time)
| OpAbort (tx key why : string) (now : time)
| OpRetire (tx : string) (now : time)
| OpCheckpoint (drop : xtxDecision → bool)
| OpObserve (seq : Z)
| OpClose.

(** One operation: the journal after it, the faults left, and did it succeed? *)
Definition exec (j : xtxJournal) (op : jop) (fs : list fault) : xtxJournal * list fault * bool :=
  match op with
  | OpAllocate key => let '(j', w) := allocateTxID j key in (j', fs, is_ok w)
  | OpCommit tx key parts bind now => let '(j', fs', w) := commitPreparedBound j tx key parts bind now fs in (j', fs', is_ok w)
  | OpAbort tx key why now => let '(j', fs', w) := abort j tx key why now fs in (j', fs', is_ok w)
  | OpRetire tx now => let '(j', fs', w) := retire j tx now fs in (j', fs', is_ok w)
  | OpCheckpoint drop => let '(j', fs', w) := checkpoint j drop fs in (j', fs', is_ok w)
  | OpObserve seq => (observeSeq j seq, fs, true)
  | OpClose => let '(j', fs', w) := close j fs in (j', fs', is_ok w)
  end.

(** What the engine calls the operations with: ids the journal allocated, commits
    of undecided transactions, records below the size limit, and counters far
    from the end of their range. *)
Definition op_ok (j : xtxJournal) (op : jop) : Prop :=
  match op with
  | OpAllocate _ => (nextSeq j + 1 < two64)%Z
  | OpCommit tx key parts bind now =>
      allocated j tx ∧ byTx (table j) !! tx = None ∧ time_wf now ∧ Forall part_wf parts ∧ bind_ok bind ∧
      ∀ pd, partsDigest parts = Some pd → fits (commit_record tx key parts pd bind now)
  | OpAbort tx key why now =>
      allocated j tx ∧ String.length key ≤ xtxMaxKeyLen ∧ time_wf now ∧ fits (abort_record tx key why now)
  | OpRetire tx now =>
      time_wf now ∧ ∀ d, byTx (table j) !! tx = Some d → fits (retire_record tx (d_Key d) (d_Outcome d) now)
  | OpCheckpoint _ => (h_Gen (j_hdr j) + 2 < two64)%Z
  | OpObserve seq => (0 ≤ seq ∧ seq + 1 < two64)%Z
  | OpClose => True
  end.

(** The record an operation sets out to write. *)
Definition writes (op : jop) (r : xtxRecord) : Prop :=
  match op with
  | OpCommit tx key parts bind now => ∃ pd, r = commit_record tx key parts pd bind now
  | OpAbort tx key why now => r = abort_record tx key why now
  | OpRetire tx now => ∃ key o, r = retire_record tx key o now
  | _ => False
  end.

(** A run, each operation with its success. *)
Inductive jsteps : xtxJournal → list (jop * bool) → xtxJournal → Prop :=
| jsteps_nil j : jsteps j [] j
| jsteps_cons j op fs j1 fs1 ok l j2 :
    op_ok j op → exec j op fs = (j1, fs1, ok) → jsteps j1 l j2 → jsteps j ((op, ok) :: l) j2.

(** What happened to the table: nothing; one record more, of those in [W]; or
    retired transactions left out. *)
Inductive moves (W : xtxRecord → Prop) (t t' : xtxTable) : Prop :=
| Kept : t' = t → moves W t t'
| Decided r : W r → (r_K r = xtxKindRetire → is_Some (byTx t !! r_Tx r)) → apply t r = Ok t' → moves W t t'
| Left gone :
    (∀ tx, tx ∈ gone → ∃ d, byTx t !! tx = Some d ∧ d_Retired d = true) →
    without gone t t' → maxSeq t' = maxSeq t → moves W t t'.

Section Runs.

Variable attempted : xtxRecord → Prop.
Notation jinv := (jinv attempted).

(** ** Checkpoints *)

Lemma dropped_droppable j drop : droppable j (dropped j drop).
Proof.
  intros tx Hin. unfold dropped in Hin. apply elem_of_dom in Hin as [d Hd].
  apply map_lookup_filter_Some in Hd as (Hd & Hr & Hh & _). split; [done|]. by exists d.
Qed.

(** The newest decision stays, and with it the highest sequence number. *)
Lemma without_max j gone u :
  jinv j → droppable j gone → apply_all newXTxTable (kept gone (j_records j)) = Ok u → without gone (table j) u →
  maxSeq u = maxSeq (table j).
Proof.
  intros Hi Hd Hu Hw. pose proof (ji_seq _ _ Hi) as Hs. pose proof (wo_seq _ _ _ Hw) as Hle.
  pose proof (maxSeq_u64 _ _ _ (kept_good _ gone _ (ji_recs _ _ Hi)) Hu) as Hu64. unfold in_u64 in Hu64.
  destruct (max_decided (jepoch j) (j_records j) newXTxTable (table j)) as [H0|[d Hh]]; [apply filed_new|apply Hi|apply Hi|by left|lia|].
  assert (Hin : byTx u !! hwm j = Some d).
  { rewrite (without_lookup _ _ _ _ Hw); [done|]. intros Hin. by destruct (Hd _ Hin). }
  destruct (apply_all_below (jepoch j) (kept gone (j_records j)) newXTxTable u filed_new Hu) with (tx := hwm j) (d := d) as (s & Hp & Hle2);
    [by apply kept_good, Hi|intros tx0 d0; cbn; by rewrite lookup_empty|done|].
  unfold hwm in Hp. rewrite parse_format in Hp; [|apply (ho_epoch _ (ji_hdr _ _ Hi))|unfold in_u64; lia]. injection Hp as <-. lia.
Qed.

Lemma write_atomic_fail data fs renamed ok fs' : writeJournalAtomic data fs = (renamed, ok, fs') → ok = true → renamed = true.
Proof.
  unfold writeJournalAtomic. destruct (next_fault fs) as [f1 fs1]. destruct (f_ok f1); cbn [negb]; [|by intros [= <- <- <-]].
  destruct (file_write HOpen [] data fs1) as [[ok2 d2] fs2]. destruct ok2; cbn [negb]; [|by intros [= <- <- <-]].
  destruct (next_fault fs2) as [f3 fs3]. destruct (f_ok f3); cbn [negb]; [|by intros [= <- <- <-]].
  destruct (next_fault fs3) as [f4 fs4]. destruct (f_ok f4); cbn [negb]; [|by intros [= <- <- <-]].
  destruct (next_fault fs4) as [f5 fs5]. destruct (f_ok f5); cbn [negb]; [|by intros [= <- <- <-]].
  destruct (next_fault fs5) as [f6 fs6]. by intros [= <- <- <-].
Qed.

(** A checkpoint leaves out retired transactions only, or changes no decision. *)
Lemma checkpoint_spec j drop fs j' fs' w :
  jinv j → (h_Gen (j_hdr j) + 2 < two64)%Z → checkpoint j drop fs = (j', fs', w) →
  jinv j' ∧ jepoch j' = jepoch j ∧ nextSeq j' = nextSeq j ∧ j_closed j' = j_closed j ∧
  ((j_records j' = j_records j ∧ table j' = table j ∧ (is_ok w = true → j' = j)) ∨
   (is_ok w = true ∧ ∃ gone, droppable j gone ∧ without gone (table j) (table j') ∧ j_records j' = kept gone (j_records j) ∧
      maxSeq (table j') = maxSeq (table j))).
Proof.
  intros Hi Hg2. unfold checkpoint. destruct (usable j) as [[]|e] eqn:Eu.
  2: { intros [= <- <- <-]. do 4 (split; [done|]). by left. }
  destruct (usable_ok _ Eu) as [Hp Hcl]. destruct (clean_file _ _ Hi Hp) as (Hd & Hsy & Hsz & Hsh).
  case_decide as He. { intros [= <- <- <-]. do 4 (split; [done|]). by left. }
  pose proof (dropped_droppable j drop) as Hdr. set (gone := dropped j drop) in *.
  pose proof Hi as [I1 I2 I3 I4 I5 I6].
  destruct (apply_all_without gone newXTxTable newXTxTable (j_records j) (table j) filed_new (without_new gone) I4) as (u & Hu & Hw).
  fold (kept gone (j_records j)) in *. rewrite Hu. change (encodeXTxHeader _ ++ _) with (image (next_gen (j_hdr j)) (kept gone (j_records j))).
  remember (image (next_gen (j_hdr j)) (kept gone (j_records j))) as buf eqn:Hbuf.
  destruct (writeJournalAtomic buf fs) as [[renamed ok] fs1] eqn:Ew. destruct ok; cbn [negb].
  - destruct (next_fault fs1) as [f2 fs2]. destruct (f_ok f2); cbn [negb].
    + destruct (next_fault fs2) as [f3 fs3]. intros [= <- <- <-]. destruct (next_gen_ok _ I1 I2) as [Hh' Hg'].
      pose proof (without_max j gone u Hi Hdr Hu Hw) as Hmax.
      split; [|do 3 (split; [done|]); right; split; [done|]; exists gone; done].
      split; jcbn; rewrite ?Hg', ?Hmax; try done; [lia|by apply kept_good|].
      apply JClean; jcbn; done.
    + intros [= <- <- <-]. split; [|do 3 (split; [done|]); by left].
      split; jcbn; try done. apply (JReplaced _ _ gone); jcbn; auto.
  - destruct renamed; intros [= <- <- <-].
    + split; [|do 3 (split; [done|]); by left]. split; jcbn; try done. apply (JReplaced _ _ gone); jcbn; auto. right. by rewrite Hd.
    + do 4 (split; [done|]). by left.
Qed.

Lemma jinv_close j fs j' fs' w : jinv j → close j fs = (j', fs', w) →
  jinv j' ∧ j_hdr j' = j_hdr j ∧ nextSeq j' = nextSeq j ∧ j_records j' = j_records j ∧ table j' = table j.
Proof.
  intros Hi. unfold close. destruct (j_closed j); [by intros [= <- <- <-]|]. destruct (next_fault fs) as [f fs1]. intros [= <- <- <-].
  split; [|done]. destruct Hi as [H1 H2 H3 H4 H5 H6]. split; try done.
  destruct H6; [by apply JClean|by eapply (JTorn _ _ r k)|by eapply (JReplaced _ _ gone)].
Qed.

Lemma observe_spec j seq : jinv j → (0 ≤ seq)%Z → (seq + 1 < two64)%Z →
  jinv (observeSeq j seq) ∧ j_hdr (observeSeq j seq) = j_hdr j ∧ (nextSeq j ≤ nextSeq (observeSeq j seq))%Z ∧
  (seq < nextSeq (observeSeq j seq))%Z ∧
  j_records (observeSeq j seq) = j_records j ∧ table (observeSeq j seq) = table j.
Proof.
  intros Hi H0 Hs. unfold observeSeq. destruct (Z.leb_spec (nextSeq j) seq) as [Hle|Hgt]; [|do 5 (split; [done||lia|]); done].
  assert (Hu : u64 (seq + 1) = (seq + 1)%Z) by (apply u64_id; unfold in_u64; lia).
  rewrite Hu. split; [apply jinv_seq; [done|lia]|]. jcbn. do 3 (split; [done||lia|]). done.
Qed.

(** ** One operation *)

(** The outcome an acknowledged operation leaves. *)
Definition settled (op : jop) (j' : xtxJournal) : Prop :=
  match op with
  | OpCommit tx _ _ _ _ => ∃ d, byTx (table j') !! tx = Some d ∧ d_Outcome d = xtxKindCommit
  | OpAbort tx _ _ _ => ∃ d, byTx (table j') !! tx = Some d ∧ d_Outcome d = xtxKindAbort
  | _ => True
  end.

Lemma table_filed j : jinv j → filed (table j).
Proof. intros Hi. eapply apply_all_filed; [apply filed_new|apply Hi]. Qed.

Lemma exec_spec j op fs j' fs' ok :
  jinv j → op_ok j op → (∀ r, writes op r → attempted r) → exec j op fs = (j', fs', ok) →
  jinv j' ∧ jepoch j' = jepoch j ∧ (nextSeq j ≤ nextSeq j')%Z ∧ moves (writes op) (table j) (table j') ∧ (ok = true → settled op j').
Proof.
  intros Hi Hop Hatt. destruct op as [key|tx key parts bind now|tx key why now|tx now|drop|seq|]; cbn [exec op_ok writes] in *.
  - destruct (allocateTxID j key) as [j1 w] eqn:E. intros [= <- <- <-].
    destruct (allocate_spec _ _ _ _ _ Hi Hop E) as (Hi1 & Hr & Ht & Hh & _ & Hw). split; [done|]. split; [by unfold jepoch; rewrite Hh|].
    split; [|split; [by apply Kept|done]]. destruct w as [tx|]; [|by subst]. revert E. unfold allocateTxID. destruct (_ <? _); [done|].
    destruct (usable j); [|done]. intros [= <- <-]. jcbn. pose proof (ji_seq _ _ Hi). rewrite u64_id by (unfold in_u64; lia). lia.
  - destruct (commitPreparedBound _ _ _ _ _ _ _) as [[j1 fs1] w] eqn:E. intros [= <- <- <-].
    destruct Hop as (Ha & Hu & Ht & Hp & Hb & Hf).
    destruct (commit_spec _ j tx key parts bind now fs j1 fs1 w Hi Ha Hu Ht Hp Hb) as (Hi1 & [B1 B2 B3] & Hw & _); [|done|].
    { intros pd Hpd. split; [by apply Hf|]. apply Hatt. by exists pd. }
    split; [done|]. split; [by unfold jepoch; rewrite B1|]. split; [lia|]. destruct w as [[]|e]; [|split; [apply Kept, Hw|done]].
    destruct Hw as (_ & pd & Hpd & Hrs & Hap).
    split; [by apply (Decided _ _ _ (commit_record tx key parts pd bind now)); [exists pd|..]|]. intros _.
    destruct (apply_spec _ _ _ (table_filed _ Hi) Hap) as (d & Hby & [D1 D2 D3 D4 D5] & _). exists d. rewrite Hby. by rewrite lookup_insert_eq.
  - destruct (abort _ _ _ _ _ _) as [[j1 fs1] w] eqn:E. intros [= <- <- <-]. destruct Hop as (Ha & Hk & Ht & Hf).
    destruct (abort_spec _ j tx key why now fs j1 fs1 w Hi Ha Hk Ht Hf (Hatt _ eq_refl) E) as (Hi1 & [B1 B2 B3] & Hw & Hset).
    split; [done|]. split; [by unfold jepoch; rewrite B1|]. split; [lia|]. split; [|done].
    destruct w as [[]|e]; [|apply Kept, Hw]. destruct Hw as [->|[Hrs Hap]]; [by apply Kept|].
    by apply (Decided _ _ _ (abort_record tx key why now)).
  - destruct (retire _ _ _ _) as [[j1 fs1] w] eqn:E. intros [= <- <- <-]. destruct Hop as [Ht Hf].
    destruct (retire_spec _ j tx now fs j1 fs1 w Hi Ht) as (Hi1 & [B1 B2 B3] & Hw); [|done|].
    { intros d Hd. split; [by apply Hf|]. apply Hatt. eauto. }
    split; [done|]. split; [by unfold jepoch; rewrite B1|]. split; [lia|]. split; [|done].
    destruct Hw as [->|(d & Hd & Hw)]; [by apply Kept|]. destruct w as [[]|e]; [|apply Kept, Hw].
    destruct Hw as [->|[Hrs Hap]]; [by apply Kept|].
    apply (Decided _ _ _ (retire_record tx (d_Key d) (d_Outcome d) now)); [by eexists _, _|by exists d|done].
  - destruct (checkpoint j drop fs) as [[j1 fs1] w] eqn:E. intros [= <- <- <-].
    destruct (checkpoint_spec j drop fs j1 fs1 w Hi Hop E) as (Hi1 & He & Hn & _ & [(_ & Ht & _)|(_ & gone & Hd & Hw & _ & Hmax)]).
    + split; [done|]. split; [done|]. split; [lia|]. split; [by apply Kept|done].
    + split; [done|]. split; [done|]. split; [lia|]. split; [|done].
      apply (Left _ _ _ gone); [|done|done]. intros tx Hin. by apply Hd.
  - intros [= <- <- <-]. destruct Hop as [H0 H1]. destruct (observe_spec j seq Hi H0 H1) as (Hi1 & Hh & Hn & _ & _ & Ht).
    split; [done|]. split; [by unfold jepoch; rewrite Hh|]. split; [done|]. split; [by apply Kept|done].
  - destruct (close j fs) as [[j1 fs1] w] eqn:E. intros [= <- <- <-]. destruct (jinv_close _ _ _ _ _ Hi E) as (Hi1 & Hh & Hn & _ & Ht).
    split; [done|]. split; [by unfold jepoch; rewrite Hh|]. split; [lia|]. split; [by apply Kept|done].
Qed.

(** ** A crash *)

Lemma crash_moves j b epoch now :
  jinv j → (h_Gen (j_hdr j) + 2 < two64)%Z → crash_image j b →
  ∃ j' b', openXTxJournal b epoch now [] = (b', [], Ok j') ∧ jinv j' ∧ jepoch j' = jepoch j ∧
    moves attempted (table j) (table j').
Proof.
  intros Hi Hg Hb. destruct (crash_spec attempted j b epoch now Hi Hg Hb) as (h & rs & j' & b' & Ho & [R1 R2 R3 _] & He & Hc).
  exists j', b'. split; [done|]. split; [done|]. split; [unfold jepoch in *; by rewrite R1|].
  destruct Hc as [[_ Ht]|[(_ & r & _ & Ha & Hwa & Hre)|(_ & gone & Hd & Hw & Hrs)]].
  - by apply Kept.
  - by apply (Decided _ _ _ r).
  - apply (Left _ _ _ gone); [|done|]; [intros tx Hin; by apply Hd|].
    apply (without_max j gone); [done|done| |done]. rewrite <- Hrs, <- R2. apply (ji_table _ _ R3).
Qed.

End Runs.

(** ** What moves preserve *)

Section Moves.
Context {W : xtxRecord → Prop} {t t' : xtxTable} (Hf : filed t) (Hm : moves W t t').

Lemma moves_keeps tx d :
  (∀ r, W r → r_Tx r = tx → r_K r ≠ xtxKindRetire) → byTx t !! tx = Some d → d_Retired d = false →
  ∃ d', byTx t' !! tx = Some d' ∧ d_Outcome d' = d_Outcome d ∧ d_Retired d' = false.
Proof.
  intros Hnr Hd Hr. destruct Hm as [->|r HW _ Ha|gone Hg Hw _]; [eauto| |].
  - destruct (apply_spec _ _ _ Hf Ha) as (d' & Hby & [D1 D2 D3 D4 D5] & _). rewrite Hby. destruct (decide (tx = r_Tx r)) as [->|Hne].
    + rewrite lookup_insert_eq. exists d'. split; [done|]. split; [by apply D4|]. rewrite D5, Hd, Hr. apply bool_decide_eq_false. by apply Hnr.
    + rewrite lookup_insert_ne by done. eauto.
  - exists d. rewrite (without_lookup gone t t'); [done|done|]. intros Hin. destruct (Hg tx Hin) as (d0 & Hd0 & Hr0). congruence.
Qed.

Lemma moves_source tx d :
  byTx t' !! tx = Some d →
  (∃ d0, byTx t !! tx = Some d0 ∧ d_Outcome d0 = d_Outcome d) ∨
  (∃ r, W r ∧ r_Tx r = tx ∧ r_K r ≠ xtxKindRetire ∧ r_K r = d_Outcome d).
Proof.
  intros Hd. destruct Hm as [->|r HW Hre Ha|gone Hg Hw _]; [by left; eauto| |].
  - destruct (apply_spec _ _ _ Hf Ha) as (d' & Hby & [D1 D2 D3 D4 D5] & _). rewrite Hby in Hd. destruct (decide (tx = r_Tx r)) as [->|Hne].
    + rewrite lookup_insert_eq in Hd. injection Hd as <-. destruct (byTx t !! r_Tx r) as [d0|] eqn:E0; [left; exists d0; by rewrite (D4 d0)|].
      right. exists r. unfold rec_outcome in D2. case_decide as Hk; [by destruct (Hre Hk)|]. done.
    + rewrite lookup_insert_ne in Hd by done. left. eauto.
  - left. exists d. split; [|done]. rewrite (wo_byTx _ _ _ Hw) in Hd. by apply map_lookup_filter_Some in Hd as [? _].
Qed.

Lemma moves_max : (maxSeq t ≤ maxSeq t')%Z.
Proof.
  destruct Hm as [->|r HW _ Ha|gone Hg Hw Hmax]; [done| |by rewrite Hmax].
  destruct (apply_spec _ _ _ Hf Ha) as (d' & _ & _ & _ & -> & _). lia.
Qed.

End Moves.
