(* ===== verification/JournalSafe.v ===== *)
(** * What the coordinator journal guarantees

    Any file the journal opens satisfies its invariant, so the guarantees are
    about every journal: an acknowledged decision survives a crash at any later
    point, nothing is decided that was not attempted, and the id of a decided
    transaction is never given out again. *)
From Stdlib Require Import Ascii Lia ZArith.
From stdpp Require Import prelude gmap strings sorting.
From S2P Require Import Prelude GoNum Json Value GoTime Store Wire Segment Sha256 Journal JournalThm JournalInv JournalOps.

(** ** What decoding yields *)

(** Every field is set from a member whose strings are UTF-8, whatever the line. *)
Lemma strict_fields_ind {R} (set : R → bytes * json → option R) (P : R → Prop) zero l r :
  (∀ r kv r', json_utf8 kv.2 = true → P r → set r kv = Some r' → P r') → P zero →
  json_utf8 (JObj l) = true → strict_fields set zero l = Some r → P r.
Proof.
  intros Hs. unfold strict_fields. revert zero. induction l as [|kv l IH]; intros zero Hz; cbn [foldl json_utf8 forallb]; [by intros _ [= <-]|].
  intros [[_ Hkv]%andb_true_iff Hl]%andb_true_iff. cbn [mbind option_bind].
  destruct (set zero kv) as [r1|] eqn:E; [by apply IH; [apply (Hs zero kv)|]|].
  intros H. exfalso. clear -H. induction l as [|kv l IH]; [done|]. by apply IH.
Qed.

Lemma strictUnmarshal_ind {R} (set : R → bytes * json → option R) (P : R → Prop) zero line r :
  (∀ r kv r', json_utf8 kv.2 = true → P r → set r kv = Some r' → P r') → P zero → strictUnmarshal set zero line = Some r → P r.
Proof.
  intros Hs Hz. unfold strictUnmarshal. destruct (unmarshal line) as [j|] eqn:E; [|done]. apply unmarshal_utf8 in E.
  destruct j; try done; [by intros [= <-]|]. by apply strict_fields_ind.
Qed.

Lemma dec_string_utf8 old j s : str_utf8 old → json_utf8 j = true → dec_string old j = Some s → str_utf8 s.
Proof.
  intros Ho Hj. unfold dec_string. destruct j; try done; intros [= <-]; [done|]. unfold str_utf8. by rewrite b_of_s_of_b.
Qed.

Lemma dec_u64_range old j z : in_u64 old → dec_u64 old j = Some z → in_u64 z.
Proof.
  unfold dec_u64. destruct j; try done; [by intros ? [= <-]|]. intros _. destruct (parse_N _) as [n|]; [|done]. cbn [mbind option_bind].
  case_decide; [|done]. intros [= <-]. unfold in_u64. lia.
Qed.

Lemma dec_u32_range old j n : (old < 4294967296)%N → dec_u32_field old j = Some n → (n < 4294967296)%N.
Proof.
  intros Ho. unfold dec_u32_field. destruct j; try done; [by intros [= <-]|]. unfold dec_u32. destruct (parse_N _) as [m|]; [|done].
  cbn [mbind option_bind]. case_decide; [|done]. by intros [= <-].
Qed.

(** Splits a chain of field tests. *)
Ltac field_cases :=
  repeat match goal with
  | |- (if decide ?P then _ else _) = _ → _ => destruct (decide P)
  | |- mbind _ ?m = _ → _ => let E := fresh "E" in destruct m eqn:E; cbn [mbind option_bind]
  end; try done.

(** What holds of a decoded part and of a decoded record. *)
Definition part_read (p : xtxPart) : Prop := part_wf p ∧ Forall str_utf8 (part_strings p).

Definition rec_read (r : xtxRecord) : Prop :=
  in_u64 (r_RL r) ∧ Forall part_read (r_Parts r) ∧
  Forall str_utf8 [r_K r; r_Tx r; r_Key r; r_TS r; r_PD r; r_Why r; r_O r; r_RT r; r_RD r].

Lemma set_part_read p kv p' : json_utf8 kv.2 = true → part_read p → set_part_field p kv = Some p' → part_read p'.
Proof.
  destruct p as [c n d]. unfold part_read, part_wf, part_strings. cbn [p_N p_C p_D]. rewrite !Forall_cons.
  intros Hj (Hn & Hc & Hd & _). unfold set_part_field. cbn zeta.
  field_cases; intros [= <-]; cbn [p_N p_C p_D]; split_and!; try done; eauto using dec_string_utf8, dec_u32_range.
Qed.

Lemma dec_parts_read j ps : json_utf8 j = true → dec_parts j = Some ps → Forall part_read ps.
Proof.
  unfold dec_parts. destruct j; try done; [by intros _ [= <-]|]. cbn [json_utf8]. intros Hu H%mapM_Some.
  induction H as [|x p l ps Hx _ IH]; [done|]. cbn [forallb] in Hu. apply andb_true_iff in Hu as [Hux Hul].
  assert (part_read (MkPart "" 0 "")) as H0 by (split; [unfold part_wf; cbn [p_N]; lia|by repeat constructor]).
  constructor; [|by apply IH]. unfold dec_part in Hx. destruct x; try done; [by injection Hx as <-|].
  by apply (strict_fields_ind set_part_field part_read (MkPart "" 0 "") l0); [apply set_part_read|..].
Qed.

Lemma set_record_read r kv r' : json_utf8 kv.2 = true → rec_read r → set_record_field r kv = Some r' → rec_read r'.
Proof.
  destruct r as [k tx key ts ps pd why o rl rt rd crc]. unfold rec_read. cbn [r_RL r_Parts r_K r_Tx r_Key r_TS r_PD r_Why r_O r_RT r_RD].
  rewrite !Forall_cons. intros Hj (Hrl & Hps & H1 & H2 & H3 & H4 & H5 & H6 & H7 & H8 & H9 & _). unfold set_record_field. cbn zeta.
  field_cases; intros [= <-]; cbn [r_RL r_Parts r_K r_Tx r_Key r_TS r_PD r_Why r_O r_RT r_RD];
    split_and!; try done; eauto using dec_string_utf8, dec_parts_read, dec_u64_range.
Qed.

Lemma rec_read_wf r : rec_read r → rec_wf (set_record_crc r None).
Proof.
  intros (H1 & H2 & H3). split; [done| | |done]; cbn [set_record_crc r_Parts].
  - eapply Forall_impl; [exact H2|]. by intros p [].
  - apply Forall_app. split; [done|]. apply Forall_concat, Forall_map. eapply Forall_impl; [exact H2|]. by intros p [].
Qed.

Lemma decode_good line epoch off r :
  decodeXTxRecord line epoch off = Ok r → (Z.of_nat (length line) ≤ xtxMaxJournalRecord)%Z → rec_good epoch r ∧ line = record_line r.
Proof.
  intros H Hl. destruct (decode_canonical _ _ _ _ H) as (Hline & Hok & Hcrc). split; [|done].
  split; [|done|by rewrite <- Hline]. unfold decodeXTxRecord in H.
  destruct (strictUnmarshal _ _ _) as [r0|] eqn:E; [|done]. destruct (r_CRC r0) as [want|]; [|done].
  case_decide; [done|]. case_decide; [done|]. destruct (record_ok _ _); [|done]. injection H as <-.
  apply rec_read_wf, (strictUnmarshal_ind set_record_field rec_read zero_record line r0); [apply set_record_read| |done].
  split; [unfold in_u64, two64; cbn; lia|]. split; [constructor|by repeat constructor].
Qed.

Lemma dec_i64_range old j z : in_i64 old → dec_i64 old j = Some z → in_i64 z.
Proof.
  unfold dec_i64. destruct j; try done; [by intros ? [= <-]|]. intros _. destruct (parse_Z _) as [n|]; [|done]. cbn [mbind option_bind].
  case_decide; [|done]. by intros [= <-].
Qed.

Definition header_read (h : xtxHeader) : Prop :=
  in_i64 (h_V h) ∧ in_u64 (h_Gen h) ∧ str_utf8 (h_Magic h) ∧ str_utf8 (h_Epoch h) ∧ str_utf8 (h_Created h).

Lemma set_header_read h kv h' : json_utf8 kv.2 = true → header_read h → set_header_field h kv = Some h' → header_read h'.
Proof.
  destruct h as [m v e g c crc]. unfold header_read. cbn [h_V h_Gen h_Magic h_Epoch h_Created].
  intros Hj (H1 & H2 & H3 & H4 & H5). unfold set_header_field. cbn zeta.
  field_cases; intros [= <-]; cbn [h_V h_Gen h_Magic h_Epoch h_Created]; split_and!; try done;
    eauto using dec_string_utf8, dec_i64_range, dec_u64_range.
Qed.

Lemma decode_header line h : decodeXTxHeader line = Ok h → header_ok h ∧ line = header_line h.
Proof.
  unfold decodeXTxHeader. destruct (probe_header line) as [[magic v]|] eqn:Ep; [|done]. case_decide as Hm; [done|]. case_decide as Hv; [done|].
  destruct (strictUnmarshal _ _ _) as [h0|] eqn:E; [|done]. destruct (h_CRC h0) as [want|] eqn:Ec; [|done].
  case_decide as H1; [done|]. case_decide as H2; [done|]. case_decide as H3; [done|]. case_decide as H4; [done|]. intros [= <-].
  destruct (strictUnmarshal_ind set_header_field header_read zero_header line h0) as (Hg1 & Hg2 & Hu1 & Hu2 & Hu3);
    [apply set_header_read|by vm_compute|done|].
  assert (Hp : probe_header line = Some (h_Magic h0, h_V h0)).
  { rewrite <- H2. unfold probe_header, strictUnmarshal, marshal_header.
    rewrite unmarshal_print; [|apply header_json_ok|by apply header_json_utf8].
    apply header_fields; [done|done|]. intros c Hc. rewrite Ec in Hc. injection Hc as <-. rewrite <- H1. apply crc32c_lt. }
  rewrite Ep in Hp. injection Hp as -> ->.
  split; [split; try done; cbn [h_Epoch set_header_crc h_Created]; [|by split; [apply not_eq_None_Some|]]|].
  - split; [destruct (decide (length (b_of_s (h_Epoch h0)) = xtxEpochHexLen)); tauto|]. destruct (isLowerHex _); tauto.
  - rewrite <- H2. unfold header_line. assert (Hs : ∀ x, set_header_crc (set_header_crc h0 None) x = set_header_crc h0 x) by done.
    rewrite !Hs, H1. f_equal. destruct h0. cbn in Ec. by rewrite Ec.
Qed.

(** A parsed file is the image of its records, and a torn end. *)
Lemma parse_records_good fuel epoch pos rest t acc rs valid torn t' :
  length rest < fuel → parse_records fuel epoch pos rest t acc = Ok (rs, valid, torn, t') →
  ∃ new tail, rs = acc ++ new ∧ Forall (rec_good epoch) new ∧ rest = lines new ++ tail ∧ valid = pos + length (lines new) ∧
    apply_all t new = Ok t' ∧ (torn = false → tail = []).
Proof.
  revert pos rest t acc. induction fuel as [|fuel IH]; intros pos rest t acc Hlen; [lia|]. cbn [parse_records].
  assert (Hend : ∀ b, (b = false → rest = []) → Ok (acc, pos, b, t) = Ok (E := xtx_err) (rs, valid, torn, t') →
    ∃ new tail, rs = acc ++ new ∧ Forall (rec_good epoch) new ∧ rest = lines new ++ tail ∧ valid = pos + length (lines new) ∧
    apply_all t new = Ok t' ∧ (torn = false → tail = [])).
  { intros b Hb [= <- <- <- <-]. exists [], rest. rewrite app_nil_r, Nat.add_0_r. done. }
  destruct rest as [|c rest0] eqn:Er; [by apply Hend|]. rewrite <- Er in *.
  destruct (split_newline rest) as [[line rest']|] eqn:Es; [|by apply Hend].
  destruct (Z.ltb_spec xtxMaxJournalRecord (Z.of_nat (length line))) as [Hl|Hl]; [done|].
  destruct (bool_decide _ && _) eqn:Ez; [by apply Hend|]. destruct (decodeXTxRecord line epoch pos) as [r|] eqn:Ed; [|done]. cbn [res_bind].
  destruct (apply t r) as [t1|] eqn:Ea; [|done]. apply split_newline_inv in Es as [Hrest _]. intros Hp.
  destruct (decode_good _ _ _ _ Ed Hl) as [Hg Hline].
  apply IH in Hp as (new & tail & -> & Hgs & -> & -> & Ha & Ht); [|rewrite Hrest, length_app in Hlen; cbn in Hlen; lia].
  exists (r :: new), tail. split_and!; [by rewrite <- app_assoc|by constructor| | |cbn [apply_all]; by rewrite Ea|done].
  - rewrite Hrest, Hline. unfold lines. cbn [map concat]. unfold encodeXTxRecord. by rewrite <- !app_assoc.
  - unfold lines. cbn [map concat]. rewrite length_app, encode_length, <- Hline. lia.
Qed.

Lemma parse_good data p :
  parseXTxJournal data = Ok (Some p) →
  header_ok (ps_Header p) ∧ Forall (rec_good (h_Epoch (ps_Header p))) (ps_Records p) ∧
  apply_all newXTxTable (ps_Records p) = Ok (ps_Table p) ∧ ps_ValidLen p = length (image (ps_Header p) (ps_Records p)) ∧
  ∃ tail, data = image (ps_Header p) (ps_Records p) ++ tail ∧ (ps_Torn p = false → tail = []).
Proof.
  unfold parseXTxJournal. destruct (split_newline data) as [[line rest]|] eqn:Es; [|by destruct (_ || _)].
  destruct (decodeXTxHeader line) as [h|] eqn:Eh; [|done]. cbn [res_bind].
  destruct (parse_records _ _ _ _ _ _) as [[[[rs valid] torn] t]|] eqn:Ep; [|done]. cbn [res_bind]. intros [= <-]. cbn [ps_Header ps_Records ps_Table ps_ValidLen ps_Torn].
  apply split_newline_inv in Es as [-> _]. destruct (decode_header _ _ Eh) as [Hok ->].
  apply parse_records_good in Ep as (new & tail & -> & Hg & -> & -> & Ha & Ht); [|lia]. cbn [app].
  split_and!; try done.
  - unfold image, encodeXTxHeader. rewrite !length_app. cbn [length]. lia.
  - exists tail. split; [|done]. unfold image, encodeXTxHeader. by rewrite <- !app_assoc.
Qed.

(** Every journal that opens satisfies the invariant. *)
Lemma open_jinv P data epoch now fs file fs' j :
  openXTxJournal data epoch now fs = (file, fs', Ok j) → epoch_ok epoch → time_wf now →
  (maxSeq (table j) + 1 < two64)%Z → (h_Gen (j_hdr j) + 1 < two64)%Z → jinv P j.
Proof.
  intros Ho He Ht. unfold openXTxJournal in Ho. destruct (parseXTxJournal data) as [[p|]|] eqn:Ep; [| |done].
  - destruct (parse_good _ _ Ep) as (Hh & Hg & Ha & Hv & tail & Hd & Htail). destruct (next_fault fs) as [f1 fs1].
    destruct (f_ok f1); cbn [negb] in Ho; [|done].
    assert (Hj : j = open_parsed (image (ps_Header p) (ps_Records p)) p).
    { destruct (ps_Torn p).
      - cbn [file_truncate] in Ho. destruct (next_fault fs1) as [f2 fs2]. destruct (f_ok f2); cbn [negb] in Ho; [|done].
        destruct (file_sync HOpen fs2) as [sok fs3]. destruct sok; cbn [negb] in Ho; [|done]. injection Ho as _ _ <-. f_equal.
        unfold truncate_bytes. rewrite Hv, Hd, take_app_length. replace (_ - _) with 0 by (rewrite length_app; lia). apply app_nil_r.
      - injection Ho as _ _ <-. by rewrite Hd, Htail, app_nil_r. }
    subst j. cbn [table open_parsed j_hdr]. intros Hm Hgen. pose proof (maxSeq_u64 _ _ _ Hg Ha) as Hu. unfold in_u64 in Hu.
    split; cbn [open_parsed j_hdr table j_records nextSeq]; try done; [rewrite u64_id by (unfold in_u64; lia); lia|].
    by apply JClean.
  - destruct (createXTxJournal epoch now fs) as [[f1 fs1] r] eqn:Ec. injection Ho as _ _ ->. unfold createXTxJournal in Ec. cbn zeta in Ec.
    remember (MkHeader xtxJournalMagic xtxJournalVersion epoch 0 (s_of_b (fmt_time now)) None) as hdr eqn:Hhdr.
    remember (encodeXTxHeader hdr) as line eqn:Hline.
    destruct (writeJournalAtomic line fs) as [[ren ok] fs2]. destruct ok; cbn [negb] in Ec; [|done].
    destruct (next_fault fs2) as [f3 fs3]. destruct (f_ok f3); cbn [negb] in Ec; [|done]. injection Ec as _ _ <-.
    cbn [table j_hdr]. intros Hm Hgen. split; cbn [j_hdr table j_records nextSeq]; try done.
    + rewrite Hhdr. split; try done; cbn [h_Created]. unfold str_utf8. rewrite b_of_s_of_b, parse_fmt_time by done. split; [done|by apply fmt_time_utf8].
    + apply JClean; try done. cbn [j_disk j_hdr j_records]. unfold image, lines. cbn [map concat]. by rewrite app_nil_r.
Qed.

(** ** Runs *)

Definition attempted_in (l : list (jop * bool)) (r : xtxRecord) : Prop := ∃ op ok, (op, ok) ∈ l ∧ writes op r.

(** The transaction and the outcome an operation decides. *)
Definition decision_of (op : jop) : option (string * string) :=
  match op with
  | OpCommit tx _ _ _ _ => Some (tx, xtxKindCommit)
  | OpAbort tx _ _ _ => Some (tx, xtxKindAbort)
  | _ => None
  end.

(** One change of the decisions by the records of [W]. *)
Definition move (W : xtxRecord → Prop) (t t' : xtxTable) : Prop := filed t ∧ moves W t t'.

Lemma moves_mono (W W' : xtxRecord → Prop) t t' : (∀ r, W r → W' r) → moves W t t' → moves W' t t'.
Proof. intros H [ | r | gone ]; [by apply Kept|by apply (Decided _ _ _ r); auto|by apply (Left _ _ _ gone)]. Qed.

Lemma steps_spec P j l j' :
  jinv P j → (∀ r, attempted_in l r → P r) → jsteps j l j' →
  jinv P j' ∧ jepoch j' = jepoch j ∧ rtc (move P) (table j) (table j') ∧
  ∀ op, (op, true) ∈ l →
    ∃ jm, jinv P jm ∧ jepoch jm = jepoch j ∧ settled op jm ∧ rtc (move P) (table j) (table jm) ∧ rtc (move P) (table jm) (table j').
Proof.
  intros Hi HP Hst. induction Hst as [j|j op fs j1 fs1 ok l j2 Hok Hex Hst IH].
  - split; [done|]. split; [done|]. split; [done|]. intros op Hin. by apply elem_of_nil in Hin.
  - destruct (exec_spec P j op fs j1 fs1 ok Hi Hok) as (Hi1 & He1 & _ & Hm & Hset); [|done|].
    { intros r Hr. apply HP. exists op, ok. split; [by left|done]. }
    assert (Hmv : rtc (move P) (table j) (table j1)).
    { apply rtc_once. split; [by apply (table_filed P)|]. eapply moves_mono; [|exact Hm].
      intros r Hr. apply HP. exists op, ok. split; [by left|done]. }
    destruct IH as (Hi2 & He2 & Hm2 & Hack); [done|intros r (o & k & Hin & Hw); apply HP; exists o, k; split; [by right|done]|].
    split; [done|]. split; [congruence|]. split; [by etrans|]. intros op' [[= -> <-]|Hin]%elem_of_cons.
    + exists j1. split_and!; try done. by apply Hset.
    + destruct (Hack op' Hin) as (jm & H1 & H2 & H3 & H4 & H5). exists jm. split_and!; try done; [congruence|by etrans].
Qed.

Definition unretired (tx : string) (t : xtxTable) : Prop := ∀ d, byTx t !! tx = Some d → d_Retired d = false.

Section Chains.
Context {W : xtxRecord → Prop} {t t' : xtxTable} (Hm : rtc (move W) t t').

Lemma chain_unretired tx :
  (∀ r, W r → r_Tx r = tx → r_K r ≠ xtxKindRetire) → unretired tx t → unretired tx t'.
Proof.
  intros Hnr. induction Hm as [t|t t1 t' [Hf Hs] Hm' IH]; [done|]. intros Hu. apply IH; [done|]. intros d Hd.
  destruct Hs as [->|r HW _ Ha|gone _ Hw _]; [by apply Hu| |].
  - destruct (apply_spec _ _ _ Hf Ha) as (d' & Hby & [D1 D2 D3 D4 D5] & _). rewrite Hby in Hd.
    destruct (decide (tx = r_Tx r)) as [->|Hne]; [|rewrite lookup_insert_ne in Hd by done; by apply Hu].
    rewrite lookup_insert_eq in Hd. injection Hd as <-. rewrite D5, (bool_decide_false _ (Hnr r HW eq_refl)), orb_false_r.
    destruct (byTx t !! r_Tx r) as [d0|] eqn:E; [by apply Hu|done].
  - rewrite (wo_byTx _ _ _ Hw) in Hd. apply map_lookup_filter_Some in Hd as [Hd _]. by apply Hu.
Qed.

Lemma chain_keeps tx d :
  (∀ r, W r → r_Tx r = tx → r_K r ≠ xtxKindRetire) → byTx t !! tx = Some d → d_Retired d = false →
  ∃ d', byTx t' !! tx = Some d' ∧ d_Outcome d' = d_Outcome d ∧ d_Retired d' = false.
Proof.
  intros Hnr. revert d. induction Hm as [t|t t1 t' [Hf Hs] Hm' IH]; intros d Hd Hr; [by exists d|].
  destruct (moves_keeps Hf Hs tx d Hnr Hd Hr) as (d1 & Hd1 & Ho1 & Hr1). destruct (IH Hm' d1 Hd1 Hr1) as (d2 & Hd2 & Ho2 & Hr2).
  exists d2. split; [done|]. split; [congruence|done].
Qed.

Lemma chain_source tx d :
  byTx t' !! tx = Some d →
  (∃ d0, byTx t !! tx = Some d0 ∧ d_Outcome d0 = d_Outcome d) ∨
  (∃ r, W r ∧ r_Tx r = tx ∧ r_K r ≠ xtxKindRetire ∧ r_K r = d_Outcome d).
Proof.
  induction Hm as [t|t t1 t' [Hf Hs] Hm' IH]; [by left; eauto|]. intros Hd.
  destruct (IH Hm' Hd) as [(d0 & Hd0 & Ho0)|Hr]; [|by right].
  destruct (moves_source Hf Hs tx d0 Hd0) as [(d1 & Hd1 & Ho1)|(r & Hr & Ht & Hk & Ho)]; [left; exists d1; split; [done|congruence]|].
  right. exists r. split_and!; try done. congruence.
Qed.

Lemma chain_max : (maxSeq t ≤ maxSeq t')%Z.
Proof. induction Hm as [t|t t1 t' [Hf Hs] Hm' IH]; [done|]. pose proof (moves_max Hf Hs). specialize (IH Hm'). lia. Qed.

End Chains.

(** ** The guarantees *)

(** The process opened the journal as [j] and ran the operations [l], up to [j']. *)
Record history (j : xtxJournal) (l : list (jop * bool)) (j' : xtxJournal) : Prop := {
  hi_open : ∃ data epoch now fs file fs', openXTxJournal data epoch now fs = (file, fs', Ok j) ∧ epoch_ok epoch ∧ time_wf now;
  hi_room : (maxSeq (table j) + 1 < two64)%Z ∧ (h_Gen (j_hdr j) + 1 < two64)%Z ∧ (h_Gen (j_hdr j') + 2 < two64)%Z;
  hi_run : jsteps j l j'
}.

Lemma history_spec j l j' b epoch now :
  history j l j' → crash_image j' b →
  ∃ j3 b', openXTxJournal b epoch now [] = (b', [], Ok j3) ∧ jinv (attempted_in l) j3 ∧ jepoch j3 = jepoch j ∧
    rtc (move (attempted_in l)) (table j) (table j3) ∧
    ∀ op, (op, true) ∈ l →
      ∃ jm, jinv (attempted_in l) jm ∧ jepoch jm = jepoch j ∧ settled op jm ∧
        rtc (move (attempted_in l)) (table j) (table jm) ∧ rtc (move (attempted_in l)) (table jm) (table j3).
Proof.
  intros [(data & ep0 & now0 & fs & file & fs' & Ho & He & Ht) (Hr1 & Hr2 & Hr3) Hst] Hb.
  pose proof (open_jinv (attempted_in l) _ _ _ _ _ _ _ Ho He Ht Hr1 Hr2) as Hi.
  destruct (steps_spec (attempted_in l) j l j' Hi (λ r H, H) Hst) as (Hi2 & He2 & Hm2 & Hack).
  destruct (crash_moves (attempted_in l) j' b epoch now Hi2 Hr3 Hb) as (j3 & b' & Ho3 & Hi3 & He3 & Hm3).
  assert (Hcr : rtc (move (attempted_in l)) (table j') (table j3)) by (apply rtc_once; split; [by eapply table_filed|done]).
  exists j3, b'. split; [done|]. split; [done|]. split; [congruence|]. split; [by etrans|]. intros op Hin.
  destruct (Hack op Hin) as (jm & H1 & H2 & H3 & H4 & H5). exists jm. split_and!; try done. by etrans.
Qed.

Lemma no_retire l tx r : (∀ now ok, (OpRetire tx now, ok) ∉ l) → attempted_in l r → r_Tx r = tx → r_K r ≠ xtxKindRetire.
Proof.
  intros Hn (op & ok & Hin & Hw) Htx. destruct op; cbn in Hw; try done.
  - destruct Hw as (pd & ->). done.
  - subst r. done.
  - destruct Hw as (key & o & ->). cbn in Htx. subst. by destruct (Hn now ok).
Qed.

Lemma settled_decision op j tx o :
  settled op j → decision_of op = Some (tx, o) → ∃ d, byTx (table j) !! tx = Some d ∧ d_Outcome d = o.
Proof. destruct op; try done; cbn; intros H [= <- <-]; done. Qed.

(** Claim C9: an acknowledged decision survives any later crash.  The journal was
    opened from any file and ran any sequence of operations as the engine issues
    them (ids the journal allocated, one commit for an undecided transaction, keys
    and names in UTF-8, records within the size limit, counters below their end),
    with any of their file calls failing; at the end the process crashes, and of
    what was not yet forced to disk any part may be lost.  The next process opens
    what is left without an error, and every commit or abort that had been
    reported as done, and was not retired since, has the reported outcome.  (A key
    that is not UTF-8 is excluded: [bad_key_unreadable] below.) *)
Theorem acknowledged_decisions_survive j l j' b epoch now op tx o :
  history j l j' → crash_image j' b →
  (op, true) ∈ l → decision_of op = Some (tx, o) → unretired tx (table j) → (∀ now ok, (OpRetire tx now, ok) ∉ l) →
  ∃ j3 b' d, openXTxJournal b epoch now [] = (b', [], Ok j3) ∧
    decision j3 tx = Some d ∧ d_Outcome d = o ∧ d_Retired d = false.
Proof.
  intros Hh Hb Hin Hop Hu Hn. destruct (history_spec j l j' b epoch now Hh Hb) as (j3 & b' & Ho & _ & _ & _ & Hack).
  destruct (Hack op Hin) as (jm & _ & _ & Hset & Hm1 & Hm2). destruct (settled_decision _ _ _ _ Hset Hop) as (d & Hd & Hout).
  pose proof (chain_unretired Hm1 tx (λ r, no_retire l tx r Hn) Hu d Hd) as Hr.
  destruct (chain_keeps Hm2 tx d (λ r, no_retire l tx r Hn) Hd Hr) as (d' & Hd' & Ho' & Hr').
  exists j3, b', d'. split; [done|]. split; [done|]. split; [congruence|done].
Qed.

(** Claim C10: no decision is made up.  After any run and crash, what the next
    process reads as decided was decided, with that outcome, when the journal was
    opened, or an operation of the run set out to decide it so: a transaction
    nobody tried to commit is never found committed. *)
Theorem no_decision_invented j l j' b epoch now tx d :
  history j l j' → crash_image j' b →
  (∃ j3 b', openXTxJournal b epoch now [] = (b', [], Ok j3) ∧ decision j3 tx = Some d) →
  (∃ d0, decision j tx = Some d0 ∧ d_Outcome d0 = d_Outcome d) ∨
  ∃ op ok, (op, ok) ∈ l ∧ decision_of op = Some (tx, d_Outcome d).
Proof.
  intros Hh Hb (j3 & b' & Ho & Hd). destruct (history_spec j l j' b epoch now Hh Hb) as (j4 & b4 & Ho4 & _ & _ & Hm & _).
  rewrite Ho in Ho4. injection Ho4 as _ ->. destruct (chain_source Hm tx d Hd) as [?|(r & (op & ok & Hin & Hw) & Htx & Hk & Hout)]; [by left|].
  right. exists op, ok. split; [done|]. destruct op; cbn in Hw; try done.
  - destruct Hw as (pd & ->). by rewrite <- Hout, <- Htx.
  - subst r. by rewrite <- Hout, <- Htx.
  - by destruct Hw as (key0 & o & ->).
Qed.

(** Claim C11: the id of a decided transaction is never given out again, not even
    after the transaction was retired, a checkpoint left it out of the file and
    the process crashed: a checkpoint keeps the newest decision. *)
Theorem txids_never_reissued j l j' b epoch now op tx o key j3 b' j4 tx' :
  history j l j' → crash_image j' b → (op, true) ∈ l → decision_of op = Some (tx, o) →
  openXTxJournal b epoch now [] = (b', [], Ok j3) → allocateTxID j3 key = (j4, Ok tx') → tx' ≠ tx.
Proof.
  intros Hh Hb Hin Hop Ho Hal. destruct (history_spec j l j' b epoch now Hh Hb) as (j5 & b5 & Ho5 & Hi3 & He3 & _ & Hack).
  rewrite Ho in Ho5. injection Ho5 as _ ->. destruct (Hack op Hin) as (jm & Him & Hem & Hset & _ & Hm2).
  destruct (settled_decision _ _ _ _ Hset Hop) as (d & Hd & _). destruct (decided_below _ jm tx d Him Hd) as (s & Hp & Hs).
  pose proof (chain_max Hm2) as Hmax. pose proof (ji_seq _ _ Hi3) as Hseq. unfold allocateTxID in Hal. destruct (_ <? _); [done|].
  destruct (usable j5); [|done]. injection Hal as _ <-. fold (jepoch j5). intros <-.
  rewrite parse_format in Hp; [injection Hp as _ <-; lia|apply (ho_epoch _ (ji_hdr _ _ Hi3))|unfold in_u64; lia].
Qed.

(** the lines of a journal are exactly its records.  A line within the
    size limit is read as a record if and only if the record is well formed and
    the line is the very bytes encoding it gives: every record written is read
    back, and a line that differs in any byte is not that record. *)
Theorem journal_lines_exact line epoch off r :
  (Z.of_nat (length line) ≤ xtxMaxJournalRecord)%Z →
  decodeXTxRecord line epoch off = Ok r ↔ rec_good epoch r ∧ line = record_line r.
Proof.
  intros Hl. split; [intros H; by apply (decode_good _ _ _ _ H)|]. intros [[Hw Ho _] ->]. by apply record_line_roundtrip.
Qed.

(** ** A run with a crash

    A new journal commits one transaction; the line of the abort of another is
    torn, and the truncation fails too. *)
Definition sj_now : time := time_of_nanos 5.
Definition sj_epoch : string := "00000000000000ab".
Definition sj_open : xtxJournal :=
  match openXTxJournal [] sj_epoch sj_now [] with
  | (_, _, Ok j) => j
  | _ => MkJournal [] 0 None zero_header 0 0 newXTxTable [] ∅ true true
  end.
Definition sj_digest : string := partDigest [MkOpRef 1 "insert" 1].
Definition sj_tx1 : string := formatTxID sj_epoch 1.
Definition sj_tx2 : string := formatTxID sj_epoch 2.
Definition sj_commit : jop := OpCommit sj_tx1 "k1" [MkPart "orders" 1 sj_digest] None sj_now.
Definition sj_abort : jop := OpAbort sj_tx2 "" "conflict" sj_now.
Definition sj_1 : xtxJournal := (exec sj_open (OpAllocate "k1") []).1.1.
Definition sj_2 : xtxJournal := (exec sj_1 sj_commit []).1.1.
Definition sj_3 : xtxJournal := (exec sj_2 (OpAllocate "") []).1.1.
Definition sj_4 : xtxJournal := (exec sj_3 sj_abort [FFail 20; FFail 0]).1.1.
Definition sj_ops : list (jop * bool) := [(OpAllocate "k1", true); (sj_commit, true); (OpAllocate "", true); (sj_abort, false)].

Lemma exec_step j op fs ok l j2 :
  op_ok j op → (exec j op fs).2 = ok → jsteps (exec j op fs).1.1 l j2 → jsteps j ((op, ok) :: l) j2.
Proof. intros H E Hs. eapply (jsteps_cons _ _ fs _ (exec j op fs).1.2); [done| |done]. rewrite <- E. by destruct (exec j op fs) as [[??]?]. Qed.

Lemma sj_now_wf : time_wf sj_now.
Proof. by apply time_of_nanos_wf. Qed.

Lemma sj_steps : jsteps sj_open sj_ops sj_4.
Proof.
  apply (exec_step _ _ []); [by vm_compute|by vm_compute|]. fold sj_1.
  apply (exec_step _ _ []); [|by vm_compute|fold sj_2].
  { split; [by exists 1%Z; vm_compute|]. split; [by vm_compute|]. split; [apply sj_now_wf|]. split; [by repeat constructor|]. split; [done|].
    intros pd Hpd. vm_compute in Hpd. injection Hpd as <-. split; [by vm_compute|]. by repeat constructor. }
  apply (exec_step _ _ []); [by vm_compute|by vm_compute|]. fold sj_3.
  apply (exec_step _ _ [FFail 20; FFail 0]); [|by vm_compute|constructor].
  split; [by exists 2%Z; vm_compute|]. split; [by vm_compute; lia|]. split; [apply sj_now_wf|].
  split; [by vm_compute|]. by repeat constructor.
Qed.

Lemma sj_history : history sj_open sj_ops sj_4.
Proof.
  split; [|by vm_compute|apply sj_steps]. eexists [], sj_epoch, sj_now, [], _, _. split; [|split; [by vm_compute|apply sj_now_wf]].
  by vm_compute.
Qed.

Definition sj_crash : bytes := take (j_synced sj_4 + 3) (j_disk sj_4).

Lemma sj_crashed : crash_image sj_4 sj_crash.
Proof. left. exists (j_synced sj_4 + 3). split; [vm_compute; lia|done]. Qed.

Lemma sj_committed : (sj_commit, true) ∈ sj_ops.
Proof. right. left. Qed.

Lemma sj_no_retire tx now ok : (OpRetire tx now, ok) ∉ sj_ops.
Proof. unfold sj_ops, sj_commit, sj_abort. rewrite !not_elem_of_cons. split_and!; [congruence..|apply not_elem_of_nil]. Qed.

Lemma acknowledged_decisions_survive_witness :
  ∃ j3 b' d, openXTxJournal sj_crash sj_epoch sj_now [] = (b', [], Ok j3) ∧
    decision j3 sj_tx1 = Some d ∧ d_Outcome d = "commit" ∧ d_Retired d = false.
Proof.
  apply (acknowledged_decisions_survive sj_open sj_ops sj_4 sj_crash sj_epoch sj_now sj_commit sj_tx1 "commit").
  - exact sj_history.
  - exact sj_crashed.
  - exact sj_committed.
  - reflexivity.
  - intros d Hd. by vm_compute in Hd.
  - intros now0 ok0 H. by apply (sj_no_retire sj_tx1 now0 ok0).
Defined.

Definition sj_reopened : xtxJournal := match openXTxJournal sj_crash sj_epoch sj_now [] with (_, _, Ok j) => j | _ => sj_4 end.

Lemma no_decision_invented_witness :
  ∃ d, decision sj_reopened sj_tx1 = Some d ∧
  ((∃ d0, decision sj_open sj_tx1 = Some d0 ∧ d_Outcome d0 = d_Outcome d) ∨
   ∃ op ok, (op, ok) ∈ sj_ops ∧ decision_of op = Some (sj_tx1, d_Outcome d)).
Proof.
  eexists. split; [vm_compute; reflexivity|].
  eapply (no_decision_invented sj_open sj_ops sj_4 sj_crash sj_epoch sj_now sj_tx1); [exact sj_history|exact sj_crashed|].
  exists sj_reopened, (openXTxJournal sj_crash sj_epoch sj_now []).1.1. split; vm_compute; reflexivity.
Defined.

Lemma txids_never_reissued_witness :
  ∃ tx', (allocateTxID sj_reopened "k2").2 = Ok tx' ∧ tx' ≠ sj_tx1.
Proof.
  exists sj_tx2. split; [vm_compute; reflexivity|].
  apply (txids_never_reissued sj_open sj_ops sj_4 sj_crash sj_epoch sj_now sj_commit sj_tx1 "commit" "k2" sj_reopened
    (openXTxJournal sj_crash sj_epoch sj_now []).1.1 (allocateTxID sj_reopened "k2").1 sj_tx2).
  - exact sj_history.
  - exact sj_crashed.
  - exact sj_committed.
  - reflexivity.
  - vm_compute. reflexivity.
  - vm_compute. reflexivity.
Defined.

Definition sj_record : xtxRecord := abort_record sj_tx2 "" "conflict" sj_now.

Lemma journal_lines_exact_witness :
  decodeXTxRecord (record_line sj_record) sj_epoch 0 = Ok sj_record ↔
  rec_good sj_epoch sj_record ∧ record_line sj_record = record_line sj_record.
Proof. apply (journal_lines_exact (record_line sj_record) sj_epoch 0 sj_record). vm_compute. discriminate. Defined.

(** A key is checked for its length only.  With one that is not UTF-8 the commit
    is acknowledged, the line holds the escape of U+FFFD, which is not what
    encoding the decoded key gives, and the next open refuses the journal. *)
Definition sj_bad : jop := OpCommit sj_tx1 (s_of_b ["255"%char]) [MkPart "orders" 1 sj_digest] None sj_now.

Theorem bad_key_unreadable :
  (exec sj_1 sj_bad []).2 = true ∧
  ∃ off, (openXTxJournal (j_disk (exec sj_1 sj_bad []).1.1) sj_epoch sj_now []).2 = Err (JCorrupt off).
Proof. split; [by vm_compute|]. eexists. vm_compute. reflexivity. Qed.
