(* ===== verification/Salvage.v ===== *)
(** * The tolerant segment scan: [engine/salvage.go]

    Recovery of cross-collection transactions and the offline tools read segment
    files with a scan that goes on after a bad line: every line is an entry, or a
    region of bytes with the reason it was skipped, or such a region followed by
    the entry that starts later on the same line. *)
From Stdlib Require Import Ascii Lia ZArith.
From stdpp Require Import prelude gmap strings sorting.
From S2P Require Import Prelude GoNum Json Value GoTime Store Wire Codec Segment.

Inductive BadRegionReason : Type :=
| BadRegionUndecodableJSON
| BadRegionTornTailLine
| BadRegionGluedLines
| BadRegionOversizedLine
| BadRegionWrongOp.

Record BadRegion : Type := MkBad { br_Offset : nat; br_Length : nat; br_Reason : BadRegionReason }.

Record SalvagedEntry : Type := MkSalvaged {
  sv_Entry : Entry;
  sv_Tx : option TxStamp;
  sv_Offset : nat;
  sv_Length : nat;
  sv_Glued : bool
}.

Record SegmentReport : Type := MkReport {
  rp_Path : string;
  rp_Size : nat;
  rp_Entries : list SalvagedEntry;
  rp_Bad : list BadRegion
}.

Definition add_bad (r : SegmentReport) (b : BadRegion) : SegmentReport :=
  MkReport (rp_Path r) (rp_Size r) (rp_Entries r) (rp_Bad r ++ [b]).
Definition add_entry (r : SegmentReport) (e : SalvagedEntry) : SegmentReport :=
  MkReport (rp_Path r) (rp_Size r) (rp_Entries r ++ [e]) (rp_Bad r).

Definition validSegmentOp (op : string) : bool := bool_decide (op = OpInsert ∨ op = OpUpdate ∨ op = OpDelete).

(** [bytes.LastIndexByte]. *)
Fixpoint last_index (c : ascii) (b : bytes) : option nat :=
  match b with
  | [] => None
  | x :: b' => match last_index c b' with
               | Some i => Some (S i)
               | None => if decide (x = c) then Some 0 else None
               end
  end.

(** The suffixes of the line from its last brace backwards; the position 0 is not
    tried again.  [upto] falls in every round. *)
Fixpoint glued (fuel : nat) (line : bytes) (upto : nat) : option (nat * (Entry * option TxStamp)) :=
  match fuel with
  | O => None
  | S fuel' =>
      match last_index "{"%char (take upto line) with
      | None | Some 0 => None
      | Some start =>
          match decodeSegmentLine (drop start line) with
          | Ok d => if validSegmentOp (Op d.1) then Some (start, d) else glued fuel' line start
          | Err _ => glued fuel' line start
          end
      end
  end.

Definition scanSalvageLine (r : SegmentReport) (line : bytes) (offset physicalLength : nat) (hasNewline : bool) : SegmentReport :=
  if negb hasNewline then add_bad r (MkBad offset physicalLength BadRegionTornTailLine)
  else if (maxScanTokenSize <? Z.of_nat physicalLength)%Z then add_bad r (MkBad offset physicalLength BadRegionOversizedLine)
  else if decide (line = []) then add_bad r (MkBad offset physicalLength BadRegionUndecodableJSON)
  else if negb (utf8_valid line) then add_bad r (MkBad offset physicalLength BadRegionUndecodableJSON)
  else
    match decodeSegmentLine line with
    | Ok d =>
        if validSegmentOp (Op d.1) then add_entry r (MkSalvaged d.1 d.2 offset physicalLength false)
        else add_bad r (MkBad offset physicalLength BadRegionWrongOp)
    | Err _ =>
        match glued (S (length line)) line (length line) with
        | Some (start, d) =>
            add_entry (add_bad r (MkBad offset start BadRegionGluedLines))
              (MkSalvaged d.1 d.2 (offset + start) (physicalLength - start) true)
        | None => add_bad r (MkBad offset physicalLength BadRegionUndecodableJSON)
        end
    end.

(** The lines of the file, one after the other; [fuel] is above their number. *)
Fixpoint salvage_loop (fuel : nat) (r : SegmentReport) (offset : nat) (s : bytes) : SegmentReport :=
  match fuel with
  | O => r
  | S fuel' =>
      match split_newline s with
      | Some (line, rest) =>
          let physicalLength := length line + 1 in
          salvage_loop fuel' (scanSalvageLine r line offset physicalLength true) (offset + physicalLength) rest
      | None => if decide (s = []) then r else scanSalvageLine r s offset (length s) false
      end
  end.

(** [d] is the content of the file; opening, measuring and reading it may fail. *)
Definition scanSegmentTolerantLimit (p : string) (d : bytes) (limit : option nat) (fs : list fault)
    : list fault * res seg_err SegmentReport :=
  let '(f1, fs) := next_fault fs in
  if negb (f_ok f1) then (fs, Err ErrIO)
  else
    let '(f2, fs) := next_fault fs in
    if negb (f_ok f2) then (fs, Err ErrIO)
    else
      let src := match limit with Some n => take n d | None => d end in
      let '(f3, fs) := next_fault fs in
      if negb (f_ok f3) then (fs, Err ErrIO)
      else (fs, Ok (salvage_loop (S (length src)) (MkReport p (length src) [] []) 0 src)).

Definition ScanSegmentTolerant (p : string) (d : bytes) (fs : list fault) : list fault * res seg_err SegmentReport :=
  scanSegmentTolerantLimit p d None fs.

(** ** What the scan finds *)

Lemma split_newline_Some s l r : split_newline s = Some (l, r) → s = l ++ newline :: r ∧ newline ∉ l.
Proof.
  revert l. induction s as [|c s IH]; intros l; [done|]. cbn [split_newline]. case_decide as Hc.
  - intros [= <- <-]. subst c. split; [done|apply not_elem_of_nil].
  - destruct (split_newline s) as [[l1 r1]|]; [|done]. intros [= <- <-]. destruct (IH l1 eq_refl) as [-> Hn].
    split; [done|]. apply not_elem_of_cons. split; [congruence|done].
Qed.

Lemma split_newline_None s : split_newline s = None → newline ∉ s.
Proof.
  induction s as [|c s IH]; [intros _; apply not_elem_of_nil|]. cbn [split_newline]. case_decide as Hc; [done|].
  destruct (split_newline s) as [[l r]|]; [done|]. intros _. apply not_elem_of_cons. split; [congruence|by apply IH].
Qed.

(** [line_at s off l]: the file [s] has the whole line [l] at the offset [off]. *)
Inductive line_at : bytes → nat → bytes → Prop :=
| line_here l rest : newline ∉ l → line_at (l ++ newline :: rest) 0 l
| line_later l rest off l' : newline ∉ l → line_at rest off l' → line_at (l ++ newline :: rest) (length l + 1 + off) l'.

Lemma line_at_cut l rest off l' :
  newline ∉ l → line_at (l ++ newline :: rest) off l' ↔ (off = 0 ∧ l' = l) ∨ (∃ o, off = length l + 1 + o ∧ line_at rest o l').
Proof.
  intros Hn. split.
  - remember (l ++ newline :: rest) as s eqn:He. intros H. destruct H as [l1 r1 H1|l1 r1 o1 l2 H1 H2].
    + pose proof (split_newline_app l1 r1 H1) as E1. rewrite He, split_newline_app in E1 by done. injection E1 as -> ->. by left.
    + pose proof (split_newline_app l1 r1 H1) as E1. rewrite He, split_newline_app in E1 by done. injection E1 as -> ->. right. eauto.
  - intros [[-> ->]|(o & -> & H)]; [by apply line_here|by apply line_later].
Qed.

Lemma line_at_none s off l : newline ∉ s → ¬ line_at s off l.
Proof.
  intros Hn H. apply Hn. destruct H; apply elem_of_app; right; by left.
Qed.

(** The entry of an intact line. *)
Definition intact (s : bytes) (x : SalvagedEntry) : Prop :=
  ∃ l, line_at s (sv_Offset x) l ∧ sv_Length x = length l + 1 ∧ (Z.of_nat (length l) + 1 ≤ maxScanTokenSize)%Z ∧
    l ≠ [] ∧ utf8_valid l = true ∧ decodeSegmentLine l = Ok (sv_Entry x, sv_Tx x) ∧ validSegmentOp (Op (sv_Entry x)) = true.

(** What one line adds, when it is read whole. *)
Lemma scanSalvageLine_entries r l offset x :
  sv_Glued x = false →
  x ∈ rp_Entries (scanSalvageLine r l offset (length l + 1) true) ↔
  x ∈ rp_Entries r ∨
  (sv_Offset x = offset ∧ sv_Length x = length l + 1 ∧ (Z.of_nat (length l) + 1 ≤ maxScanTokenSize)%Z ∧
   l ≠ [] ∧ utf8_valid l = true ∧ decodeSegmentLine l = Ok (sv_Entry x, sv_Tx x) ∧ validSegmentOp (Op (sv_Entry x)) = true).
Proof.
  intros Hg. unfold scanSalvageLine. cbn [negb].
  destruct (Z.ltb_spec maxScanTokenSize (Z.of_nat (length l + 1))) as [Hl|Hl].
  { cbn [add_bad rp_Entries]. split; [by left|]. intros [H|(_ & _ & H & _)]; [done|lia]. }
  case_decide as He. { cbn [add_bad rp_Entries]. split; [by left|]. by intros [H|(_ & _ & _ & H & _)]. }
  destruct (utf8_valid l) eqn:Eu; cbn [negb].
  2: { cbn [add_bad rp_Entries]. split; [by left|]. by intros [H|(_ & _ & _ & _ & H & _)]. }
  destruct (decodeSegmentLine l) as [[e tx]|err] eqn:Ed; cbn [fst snd].
  - destruct (validSegmentOp (Op e)) eqn:Ev.
    + cbn [add_entry rp_Entries]. rewrite elem_of_app, list_elem_of_singleton. destruct x as [e0 tx0 o0 n0 g0]. cbn in *. subst g0. split.
      * intros [H|[= -> -> -> ->]]; [by left|]. right. split_and!; try done. lia.
      * intros [H|(-> & -> & _ & _ & _ & [= <- <-] & _)]; [by left|by right].
    + cbn [add_bad rp_Entries]. split; [by left|]. intros [H|(_ & _ & _ & _ & _ & Hd & H)]; [done|]. injection Hd as Hd1 Hd2. congruence.
  - destruct (glued _ _ _) as [[start d]|].
    + cbn [add_entry add_bad rp_Entries]. rewrite elem_of_app, list_elem_of_singleton. split.
      * intros [H| ->]; [by left|done].
      * by intros [H|(_ & _ & _ & _ & _ & H & _)]; [left|].
    + cbn [add_bad rp_Entries]. split; [by left|]. by intros [H|(_ & _ & _ & _ & _ & H & _)].
Qed.

Lemma salvage_loop_entries fuel r offset s x :
  sv_Glued x = false → length s < fuel →
  x ∈ rp_Entries (salvage_loop fuel r offset s) ↔
  x ∈ rp_Entries r ∨ ∃ o, sv_Offset x = offset + o ∧ intact s (MkSalvaged (sv_Entry x) (sv_Tx x) o (sv_Length x) false).
Proof.
  intros Hg. revert r offset s. induction fuel as [|fuel IH]; intros r offset s Hf; [lia|]. cbn [salvage_loop].
  destruct (split_newline s) as [[l rest]|] eqn:Es.
  - apply split_newline_Some in Es as [-> Hn]. rewrite length_app in Hf. cbn [length] in Hf.
    rewrite IH, scanSalvageLine_entries by (done || lia). unfold intact. cbn [sv_Offset sv_Length sv_Entry sv_Tx]. split.
    + intros [[H|(Ho & H)]|(o & Ho & l' & Hl & H)]; [by left| |].
      * right. exists 0. split; [lia|]. exists l. split; [by apply line_here|done].
      * right. exists (length l + 1 + o). split; [lia|]. exists l'. split; [by apply line_later|done].
    + intros [H|(o & Ho & l' & Hl & H)]; [by left; left|]. apply line_at_cut in Hl as [[-> ->]|(o' & -> & Hl)]; [| |done].
      * left. right. split; [lia|done].
      * right. exists o'. split; [lia|]. eauto.
  - apply split_newline_None in Es. case_decide as Hs.
    + split; [by left|]. intros [H|(o & _ & l' & Hl & _)]; [done|]. by apply line_at_none in Hl.
    + unfold scanSalvageLine. cbn [negb add_bad rp_Entries]. split; [by left|]. intros [H|(o & _ & l' & Hl & _)]; [done|].
      by apply line_at_none in Hl.
Qed.

(** ** Regions *)

Definition regions (r : SegmentReport) : list (nat * nat) :=
  map (λ x, (sv_Offset x, sv_Length x)) (rp_Entries r) ++ map (λ b, (br_Offset b, br_Length b)) (rp_Bad r).

Definition within (k : nat) (ol : nat * nat) : bool := (ol.1 <=? k) && (k <? ol.1 + ol.2).

(** The regions that contain the byte [k]. *)
Definition covered (k : nat) (r : SegmentReport) : nat := length (filter (λ ol, within k ol = true) (regions r)).

Definition one (b : bool) : nat := if b then 1 else 0.

Lemma covered_bad k r b : covered k (add_bad r b) = covered k r + one (within k (br_Offset b, br_Length b)).
Proof.
  unfold covered, regions, add_bad. cbn [rp_Entries rp_Bad]. rewrite map_app, !filter_app, !length_app. cbn [map].
  unfold one. destruct (within k _) eqn:E; [rewrite filter_cons_True by done|rewrite filter_cons_False by congruence]; rewrite filter_nil; cbn; lia.
Qed.

Lemma covered_entry k r x : covered k (add_entry r x) = covered k r + one (within k (sv_Offset x, sv_Length x)).
Proof.
  unfold covered, regions, add_entry. cbn [rp_Entries rp_Bad]. rewrite map_app, !filter_app, !length_app. cbn [map].
  unfold one. destruct (within k _) eqn:E; [rewrite filter_cons_True by done|rewrite filter_cons_False by congruence]; rewrite filter_nil; cbn; lia.
Qed.

Lemma last_index_lt c b i : last_index c b = Some i → i < length b.
Proof.
  revert i. induction b as [|x b IH]; intros i; [done|]. cbn [last_index]. destruct (last_index c b) as [j|].
  - intros [= <-]. specialize (IH j eq_refl). cbn. lia.
  - case_decide; [|done]. intros [= <-]. cbn. lia.
Qed.

Lemma glued_lt fuel line upto start d : glued fuel line upto = Some (start, d) → start < length line.
Proof.
  revert upto. induction fuel as [|fuel IH]; intros upto; [done|]. cbn [glued].
  destruct (last_index _ _) as [[|i]|] eqn:Ei; [done| |done]. apply last_index_lt in Ei. rewrite length_take in Ei.
  destruct (decodeSegmentLine _) as [d0|]; [|apply IH]. destruct (validSegmentOp _); [|apply IH]. intros [= <- <-]. lia.
Qed.

Lemma within_split k o a b : one (within k (o, a)) + one (within k (o + a, b)) = one (within k (o, a + b)).
Proof.
  unfold within, one. cbn [fst snd].
  destruct (Nat.leb_spec o k), (Nat.ltb_spec k (o + a)), (Nat.leb_spec (o + a) k), (Nat.ltb_spec k (o + a + b)), (Nat.ltb_spec k (o + (a + b)));
    cbn; lia.
Qed.

Lemma scanSalvageLine_covered k r l offset n h :
  length l ≤ n → covered k (scanSalvageLine r l offset n h) = covered k r + one (within k (offset, n)).
Proof.
  intros Hn. unfold scanSalvageLine. destruct h; cbn [negb]; [|apply covered_bad]. destruct (_ <? _)%Z; [apply covered_bad|].
  case_decide; [apply covered_bad|]. destruct (utf8_valid l); cbn [negb]; [|apply covered_bad].
  destruct (decodeSegmentLine l) as [d|]; [destruct (validSegmentOp _); [apply covered_entry|apply covered_bad]|].
  destruct (glued _ _ _) as [[start d]|] eqn:Eg; [|apply covered_bad]. apply glued_lt in Eg.
  rewrite covered_entry, covered_bad. cbn [br_Offset br_Length sv_Offset sv_Length].
  pose proof (within_split k offset start (n - start)) as Hs. replace (start + (n - start)) with n in Hs by lia. lia.
Qed.

Lemma salvage_loop_covered k fuel r offset s :
  length s < fuel → covered k (salvage_loop fuel r offset s) = covered k r + one (within k (offset, length s)).
Proof.
  revert r offset s. induction fuel as [|fuel IH]; intros r offset s Hf; [lia|]. cbn [salvage_loop].
  destruct (split_newline s) as [[l rest]|] eqn:Es.
  - apply split_newline_Some in Es as [-> Hn]. rewrite length_app in *. cbn [length] in *.
    rewrite IH, scanSalvageLine_covered by lia.
    pose proof (within_split k offset (length l + 1) (length rest)) as Hs. replace (length l + S (length rest)) with (length l + 1 + length rest) by lia. lia.
  - case_decide as He; [|by apply scanSalvageLine_covered]. subst s. unfold within, one. cbn [fst snd length].
    destruct (Nat.leb_spec offset k), (Nat.ltb_spec k (offset + 0)); cbn; lia.
Qed.

(** the tolerant scan is total and exact on any bytes.  An entry is
    reported as intact if and only if it stands on a whole line of its own that
    decodes (so no damage elsewhere in the file hides it), and every byte of the
    file lies in exactly one of the reported entries and bad regions. *)
Theorem tolerant_scan_exact p d :
  ∃ r, ScanSegmentTolerant p d [] = ([], Ok r) ∧ rp_Size r = length d ∧
    (∀ x, sv_Glued x = false → x ∈ rp_Entries r ↔ intact d x) ∧
    (∀ k, covered k r = if k <? length d then 1 else 0).
Proof.
  eexists. split; [reflexivity|]. split; [|split].
  - assert (Hs : ∀ fuel r off s, rp_Size (salvage_loop fuel r off s) = rp_Size r).
    { assert (Hl : ∀ r l o n h, rp_Size (scanSalvageLine r l o n h) = rp_Size r).
      { intros r l o n h. unfold scanSalvageLine. repeat (case_match; try done). }
      induction fuel as [|fuel IH]; intros r off s; [done|]. cbn [salvage_loop]. destruct (split_newline s) as [[l rest]|]; [by rewrite IH|].
      by case_decide. }
    by rewrite Hs.
  - intros x Hg. rewrite salvage_loop_entries by (done || lia). cbn [rp_Entries]. split.
    + intros [H|(o & Ho & H)]; [by apply elem_of_nil in H|]. destruct x as [e tx o' n g]. cbn in *. subst. done.
    + intros H. right. exists (sv_Offset x). split; [done|]. destruct x. cbn in *. by subst.
  - intros k. rewrite salvage_loop_covered by lia. unfold covered, regions, within, one. cbn [rp_Entries rp_Bad map app length fst snd].
    rewrite filter_nil. done.
Qed.

(** ** Files without damage *)

(** The lines of [d], placed at [off], read as the entries [xs]. *)
Inductive tidy : bytes → nat → list SalvagedEntry → Prop :=
| tidy_nil off : tidy [] off []
| tidy_cons l e tx rest off xs :
    good_line l (e, tx) → (Z.of_nat (length l) + 1 ≤ maxScanTokenSize)%Z → utf8_valid l = true → validSegmentOp (Op e) = true →
    tidy rest (off + length l + 1) xs →
    tidy (l ++ newline :: rest) off (MkSalvaged e tx off (length l + 1) false :: xs).

Definition locate (x : SalvagedEntry) : located := (sv_Offset x, (sv_Entry x, sv_Tx x)).

Lemma tidy_holds d off xs : tidy d off xs → holds d off (map locate xs).
Proof. induction 1; cbn [map]; [constructor|]. by constructor. Qed.

Lemma tidy_app d1 d2 off xs ys :
  tidy d1 off xs → tidy d2 (off + length d1) ys → tidy (d1 ++ d2) off (xs ++ ys).
Proof.
  induction 1 as [off|l e tx rest off xs Hg Hl Hu Hv Ht IH]; intros H2.
  - cbn in *. by rewrite Nat.add_0_r in H2.
  - rewrite <- app_assoc. cbn [app]. apply tidy_cons; [done..|]. apply IH.
    rewrite length_app in H2. cbn [length] in H2. by replace (off + length l + 1 + length rest) with (off + (length l + S (length rest))) by lia.
Qed.

Lemma tidy_salvage fuel r d off xs torn :
  tidy d off xs → newline ∉ torn → length (d ++ torn) < fuel →
  rp_Entries (salvage_loop fuel r off (d ++ torn)) = rp_Entries r ++ xs.
Proof.
  intros H Ht. revert fuel r. induction H as [off|l e tx rest off xs Hg Hl Hu Hv H IH]; intros fuel r Hf; (destruct fuel as [|fuel]; [lia|]).
  - cbn [app salvage_loop]. rewrite app_nil_r. destruct (split_newline torn) as [[l1 r1]|] eqn:Es.
    + exfalso. apply Ht. apply split_newline_Some in Es as [-> _]. apply elem_of_app. right. by left.
    + by case_decide.
  - rewrite <- app_assoc. cbn [app salvage_loop]. rewrite split_newline_app by apply Hg.
    rewrite <- app_assoc in Hf. cbn [app] in Hf. rewrite length_app in Hf. cbn [length] in Hf.
    replace (off + (length l + 1)) with (off + length l + 1) by lia. rewrite IH by lia.
    unfold scanSalvageLine. cbn [negb]. destruct (Z.ltb_spec maxScanTokenSize (Z.of_nat (length l + 1))); [lia|].
    rewrite decide_False by (by eapply good_line_nonempty). rewrite Hu. cbn [negb]. rewrite (gl_decode _ _ Hg). cbn [fst snd].
    rewrite Hv. cbn [add_entry rp_Entries]. by rewrite <- app_assoc.
Qed.


(** A prefix of a tidy file is a tidy file and the beginning of a line. *)
Lemma tidy_take d off xs k :
  tidy d off xs → ∃ d1 torn ys zs, take k d = d1 ++ torn ∧ newline ∉ torn ∧ tidy d1 off ys ∧ xs = ys ++ zs.
Proof.
  intros H. revert k. induction H as [off|l e tx rest off xs Hg Hl Hu Hv H IH]; intros k.
  - exists [], [], [], []. rewrite take_nil. split_and!; [done|apply not_elem_of_nil|constructor|done].
  - destruct (decide (k ≤ length l)) as [Hk|Hk].
    + exists [], (take k l), [], (MkSalvaged e tx off (length l + 1) false :: xs). rewrite take_app_le by done.
      split_and!; [done| |constructor|done]. intros Hin. apply (gl_no_newline _ _ Hg). by eapply elem_of_take in Hin as (i & Hi & _); eapply list_elem_of_lookup_2.
    + destruct (IH (k - length l - 1)) as (d1 & torn & ys & zs & Ht & Hn & Hd & ->).
      exists (l ++ newline :: d1), torn, (MkSalvaged e tx off (length l + 1) false :: ys), zs. split_and!; [|done| |done].
      * rewrite take_app_ge by lia. replace (k - length l) with (S (k - length l - 1)) by lia. cbn [take]. rewrite Ht. by rewrite <- app_assoc.
      * by apply tidy_cons.
Qed.

Lemma tidy_inj d off xs ys : tidy d off xs → tidy d off ys → xs = ys.
Proof.
  intros H1 H2. pose proof (tidy_salvage (S (length (d ++ []))) (MkReport "" 0 [] []) d off xs [] H1 (not_elem_of_nil _) (Nat.lt_succ_diag_r _)) as E1.
  rewrite (tidy_salvage (S (length (d ++ []))) (MkReport "" 0 [] []) d off ys []) in E1; [done|done|apply not_elem_of_nil|lia].
Qed.
