(* ===== verification/Names.v ===== *)
(** * Collection names: [engine/names.go]

    A collection name is used verbatim as the name of a directory below the
    database root. *)
From Stdlib Require Import Ascii Lia ZArith.
From stdpp Require Import prelude gmap strings sorting.
From S2P Require Import Prelude GoNum Json Value GoTime Store Wire.

Inductive name_err : Type := ErrInvalidName | ErrReservedName.

Definition xtxReservedPrefix : string := "xtx.".
Definition maxCollectionNameLen : nat := 64.

Definition reservedExactNames : list string :=
  ["xtx"; "collections"; "replication"; "lock"; "con"; "prn"; "aux"; "nul";
   "com1"; "com2"; "com3"; "com4"; "com5"; "com6"; "com7"; "com8"; "com9";
   "lpt1"; "lpt2"; "lpt3"; "lpt4"; "lpt5"; "lpt6"; "lpt7"; "lpt8"; "lpt9"].

Definition isReservedXTxName (name : string) : bool := is_prefix (b_of_s xtxReservedPrefix) (b_of_s name).

(** [strings.ToLower] on a name of ASCII letters; other bytes make a name invalid
    before its lower case matters, or cannot make a reserved prefix. *)
Definition lower (name : string) : string := s_of_b (map to_lower (b_of_s name)).

Definition is_alnum (c : ascii) : bool :=
  let n := N_of_ascii c in
  ((97 <=? n) && (n <=? 122) || (65 <=? n) && (n <=? 90) || (48 <=? n) && (n <=? 57))%N.

Definition name_char (i : nat) (c : ascii) : bool :=
  is_alnum c || (0 <? i) && (bool_decide (c = "_"%char) || bool_decide (c = "-"%char)).

Definition ValidateCollectionName (name : string) : res name_err unit :=
  if decide (name = "") then Err ErrInvalidName
  else if isReservedXTxName name || isReservedXTxName (lower name) then Err ErrReservedName
  else if maxCollectionNameLen <? String.length name then Err ErrInvalidName
  else if negb (forallb (λ ic, name_char ic.1 ic.2) (imap pair (b_of_s name))) then Err ErrInvalidName
  else if bool_decide (lower name ∈ reservedExactNames) then Err ErrReservedName
  else Ok tt.

Definition validateLegacyName (name : string) : res name_err unit :=
  if decide (name = "" ∨ name = "." ∨ name = "..") then Err ErrInvalidName
  else if isReservedXTxName name then Err ErrReservedName
  else if 255 <? String.length name then Err ErrInvalidName
  else if existsb (λ c, bool_decide (c ∈ ["/"%char; "\"%char; ":"%char; "000"%char])) (b_of_s name) then Err ErrInvalidName
  else Ok tt.

(** ** Containment *)

(** One component of a path, and not a relative one. *)
Definition plain_component (name : string) : Prop :=
  name ≠ "" ∧ name ≠ "." ∧ name ≠ ".." ∧ "/"%char ∉ b_of_s name ∧ "\"%char ∉ b_of_s name ∧
  ":"%char ∉ b_of_s name ∧ "000"%char ∉ b_of_s name ∧ String.length name ≤ 255.

Lemma forallb_imap {A} (P : nat → A → bool) (l : list A) (c : A) :
  forallb (λ ic, P ic.1 ic.2) (imap pair l) = true → c ∈ l → ∃ i, P i c = true.
Proof.
  intros H Hin. apply list_elem_of_lookup in Hin as [i Hi]. exists i. rewrite forallb_forall in H.
  apply (H (i, c)), list_elem_of_In, list_elem_of_lookup. exists i. by rewrite list_lookup_imap, Hi.
Qed.

Lemma dot_string name : (name = "." ∨ name = "..") → "."%char ∈ b_of_s name.
Proof. intros [->| ->]; left. Qed.

(** A new name is a plain component that cannot collide, on a file system that
    folds ASCII case, with the engine's own files. *)
Lemma validate_name_ok name :
  ValidateCollectionName name = Ok tt →
  plain_component name ∧ validateLegacyName name = Ok tt ∧ isReservedXTxName (lower name) = false ∧ lower name ∉ reservedExactNames.
Proof.
  unfold ValidateCollectionName. case_decide as He; [done|]. destruct (_ || _) eqn:Er; [done|].
  apply orb_false_iff in Er as [Er1 Er2]. destruct (Nat.ltb_spec maxCollectionNameLen (String.length name)) as [Hl|Hl]; [done|].
  destruct (forallb _ _) eqn:Ef; cbn [negb]; [|done]. case_bool_decide as Hr; [done|]. intros _.
  assert (Hno : ∀ c, (∀ i, name_char i c = false) → c ∉ b_of_s name).
  { intros c Hc Hin. destruct (forallb_imap name_char _ c Ef Hin) as [i Hi]. by rewrite Hc in Hi. }
  assert (Hbad : ∀ c, c ∈ ["/"%char; "\"%char; ":"%char; "000"%char; "."%char] → c ∉ b_of_s name).
  { intros c Hc. apply Hno. intros i. unfold name_char. rewrite !elem_of_cons, elem_of_nil in Hc.
    destruct Hc as [->|[->|[->|[->|[->|[]]]]]]; cbn; apply andb_false_r. }
  assert (Hdot : ¬ (name = "." ∨ name = "..")) by (intros H%dot_string; revert H; apply Hbad; set_solver).
  unfold maxCollectionNameLen in Hl. split_and!; [split_and!; [done|tauto|tauto|apply Hbad; set_solver..|lia]| |done|done].
  unfold validateLegacyName. rewrite decide_False by tauto. rewrite Er1.
  destruct (Nat.ltb_spec 255 (String.length name)); [lia|].
  destruct (existsb _ _) eqn:Ex; [|done]. apply existsb_exists in Ex as (c & Hc%list_elem_of_In & Hb%bool_decide_eq_true).
  exfalso. revert Hc. apply Hbad. set_solver.
Qed.

(** a collection name cannot reach outside the database root.  Every
    accepted name, old or new, is one plain path component: not empty, not [.] or
    [..], without separators, drive colons or NUL; and a new name is also none of
    the engine's own names in any case. *)
Theorem names_contained name :
  (validateLegacyName name = Ok tt → plain_component name) ∧
  (ValidateCollectionName name = Ok tt →
     plain_component name ∧ validateLegacyName name = Ok tt ∧ isReservedXTxName (lower name) = false ∧ lower name ∉ reservedExactNames).
Proof.
  split; [|apply validate_name_ok]. unfold validateLegacyName. case_decide as He; [done|]. destruct (isReservedXTxName name); [done|].
  destruct (Nat.ltb_spec 255 (String.length name)) as [Hl|Hl]; [done|]. destruct (existsb _ _) eqn:Ex; [done|]. intros _.
  assert (Hbad : ∀ c, c ∈ ["/"%char; "\"%char; ":"%char; "000"%char] → c ∉ b_of_s name).
  { intros c Hc Hin. apply not_true_iff_false in Ex. apply Ex, existsb_exists. exists c. split; [by apply list_elem_of_In|by apply bool_decide_eq_true]. }
  split_and!; try tauto; apply Hbad; set_solver.
Qed.
