(* ===== verification/XTx.v ===== *)
(** * Committing across collections, and its recovery:
    [engine/xtx_prepare.go] and [engine/xtx_recovery.go]

    A transaction appends a stamped run of entries to the active segment of each
    participant, forces every one of them to disk, and then decides in the
    coordinator journal.  When the database opens again, recovery collects the
    runs of every transaction, compares them with the decisions, and refuses to
    open, or cuts dead runs off the active segments and hands the decisions to
    the readers of the segments. *)
From Stdlib Require Import Ascii Lia ZArith.
From stdpp Require Import prelude gmap strings sorting.
From S2P Require Import Prelude GoNum Json Value GoTime Store Wire Codec Segment Index Sha256 Journal Salvage Names.

Inductive xerr : Type :=
| XDurability (tx : string)
| XOutcomeUnknown (tx : string)
| XIncomplete (tx : string)
| XJournalMissing
| XRecoveryRequired
| XReserved
| XUnsupported
| XJournal (e : xtx_err)
| XSeg (e : seg_err)
| XIO.

(** ** Prepare and decide *)

(** One participant's run; the stamp of an entry is set when it is appended. *)
Record xtxRun : Type := MkRun { run_col : string; run_entries : list stampedEntry }.

(** The active segment of a collection, and how much of its file has been forced
    to disk. *)
Record xfile : Type := MkXFile { xf_seg : Segment; xf_synced : nat }.

Definition xf_with (f : xfile) (s : Segment) : xfile := MkXFile s (Nat.min (xf_synced f) (length (disk s))).

Definition u32n (n : nat) : N := (N.of_nat n mod 4294967296)%N.

Definition set_stamp (e : stampedEntry) (tx : TxStamp) : stampedEntry :=
  MkStamped (S_ID e) (S_Op e) (S_Ts e) (S_Rev e) (S_Data e) (S_Epoch e) (S_ExpiresAt e) tx (S_CRC e).

Definition op_ref (e : stampedEntry) : xtxOpRef := MkOpRef (S_ID e) (S_Op e) (S_Rev e).

(** S1 on one participant, from the [i]-th entry on: the offsets. *)
Fixpoint append_run (s : Segment) (txid : string) (n : N) (i : nat) (es : list stampedEntry) (fs : list fault)
    : Segment * list fault * res seg_err (list nat) :=
  match es with
  | [] => (s, fs, Ok [])
  | e :: es' =>
      let '(s, fs, w) := AppendStamped s (set_stamp e (MkStamp txid (u32n i) n)) fs in
      match w with
      | Err err => (s, fs, Err err)
      | Ok off =>
          let '(s, fs, w) := append_run s txid n (S i) es' fs in
          match w with
          | Err err => (s, fs, Err err)
          | Ok offs => (s, fs, Ok (off :: offs))
          end
      end
  end.

Notation actives := (gmap string xfile).

Definition run_part (r : xtxRun) : xtxPart :=
  MkPart (run_col r) (u32n (length (run_entries r))) (partDigest (map op_ref (run_entries r))).

(** S1: the participants, the sizes they had, the offsets of the entries. *)
Fixpoint append_runs (a : actives) (txid : string) (runs : list xtxRun) (starts : gmap string nat)
    (offs : gmap string (list nat)) (fs : list fault)
    : actives * list fault * gmap string nat * res seg_err (gmap string (list nat)) :=
  match runs with
  | [] => (a, fs, starts, Ok offs)
  | r :: runs' =>
      match a !! run_col r with
      | None => (a, fs, starts, Err ErrNilFile)
      | Some f =>
          let starts := <[run_col r := size (xf_seg f)]> starts in
          let '(s, fs, w) := append_run (xf_seg f) txid (u32n (length (run_entries r))) 0 (run_entries r) fs in
          let a := <[run_col r := xf_with f s]> a in
          match w with
          | Err err => (a, fs, starts, Err err)
          | Ok os => append_runs a txid runs' starts (<[run_col r := os]> offs) fs
          end
      end
  end.

(** [rollbackRuns]: errors are ignored, a segment that cannot be cut is poisoned. *)
Fixpoint rollback_runs (a : actives) (starts : gmap string nat) (runs : list xtxRun) (fs : list fault) : actives * list fault :=
  match runs with
  | [] => (a, fs)
  | r :: runs' =>
      match starts !! run_col r, a !! run_col r with
      | Some sz, Some f =>
          let '(s, fs, _) := rollback (xf_seg f) sz fs in
          rollback_runs (<[run_col r := xf_with f s]> a) starts runs' fs
      | _, _ => rollback_runs a starts runs' fs
      end
  end.

(** S2: every participant is forced to disk; the first that fails is poisoned. *)
Fixpoint sync_runs (a : actives) (runs : list xtxRun) (fs : list fault) : actives * list fault * res seg_err unit :=
  match runs with
  | [] => (a, fs, Ok tt)
  | r :: runs' =>
      match a !! run_col r with
      | None => (a, fs, Err ErrNilFile)
      | Some f =>
          let '(fs, w) := Sync (xf_seg f) fs in
          match w with
          | Err err => (<[run_col r := MkXFile (with_poison (xf_seg f)) (xf_synced f)]> a, fs, Err err)
          | Ok _ => sync_runs (<[run_col r := MkXFile (xf_seg f) (length (disk (xf_seg f)))]> a) runs' fs
          end
      end
  end.

(** The rollback of the runs and the advisory abort. *)
Definition undo_runs (j : xtxJournal) (a : actives) (key txid : string) (starts : gmap string nat) (runs : list xtxRun)
    (now : time) (fs : list fault) : xtxJournal * actives * list fault :=
  let '(a, fs) := rollback_runs a starts runs fs in
  let '(j, fs, _) := abort j txid key "io" now fs in
  (j, a, fs).

(** [nowc] and [nowa] are the clock at the commit and at the abort record.  A
    replication broker raises its barrier when the outcome is unknown; that is
    the returned flag. *)
Definition xtxPrepareAndDecide (j : xtxJournal) (a : actives) (key txid : string) (runs : list xtxRun) (bind : option xtxReplBind)
    (nowc nowa : time) (fs : list fault)
    : xtxJournal * actives * list fault * bool * res xerr (gmap string (list nat)) :=
  let '(a, fs, starts, w) := append_runs a txid runs ∅ ∅ fs in
  match w with
  | Err _ =>
      let '(j, a, fs) := undo_runs j a key txid starts runs nowa fs in (j, a, fs, false, Err (XDurability txid))
  | Ok offsets =>
      let '(a, fs, w) := sync_runs a runs fs in
      match w with
      | Err _ =>
          let '(j, a, fs) := undo_runs j a key txid starts runs nowa fs in (j, a, fs, false, Err (XDurability txid))
      | Ok _ =>
          let '(j, fs, w) := commitPreparedBound j txid key (map run_part runs) bind nowc fs in
          match w with
          | Err (JOutcomeUnknown _) => (j, a, fs, bool_decide (bind = None), Err (XOutcomeUnknown txid))
          | Err _ =>
              let '(j, a, fs) := undo_runs j a key txid starts runs nowa fs in (j, a, fs, false, Err (XDurability txid))
          | Ok _ => (j, a, fs, false, Ok offsets)
          end
      end
  end.

(** ** Recovery: what the root directory holds *)

Inductive entry_kind : Type := KDir | KSymlink | KOther.

(** An entry of the root; [re_files] are the segment files of a directory, after
    the recovery of its compaction. *)
Record rootEntry : Type := MkREnt { re_name : string; re_kind : entry_kind; re_files : list (string * bytes) }.

(** Phase 2: the collections; symbolic links and impossible names are skipped. *)
Fixpoint discover (l : list rootEntry) : res xerr (list rootEntry) :=
  match l with
  | [] => Ok []
  | e :: l' =>
      match re_kind e with
      | KSymlink | KOther => discover l'
      | KDir =>
          if isReservedXTxName (re_name e) then Err XReserved
          else if negb (is_ok (validateLegacyName (re_name e))) then discover l'
          else let* r := discover l' in Ok (e :: r)
      end
  end.

Definition entry_ltb (a b : rootEntry) : bool := str_ltb (re_name a) (re_name b).

(** The order of the segment files. *)
Definition file_less (a b : string * bytes) : bool :=
  let na := default 0%Z (segmentNum a.1) in
  let nb := default 0%Z (segmentNum b.1) in
  if (na =? nb)%Z then str_ltb a.1 b.1 else (na <? nb)%Z.

Record colDiscovery : Type := MkCol { cd_name : string; cd_sealed : list Segment; cd_active : Segment }.

Definition cd_all (c : colDiscovery) : list Segment := cd_sealed c ++ [cd_active c].

Definition with_active (c : colDiscovery) (s : Segment) : colDiscovery := MkCol (cd_name c) (cd_sealed c) s.

(** [os.Stat] of each sealed file, then opening the active one. *)
Fixpoint open_sealed (l : list (string * bytes)) (fs : list fault) : list fault * res xerr (list Segment) :=
  match l with
  | [] => (fs, Ok [])
  | (p, d) :: l' =>
      let '(f, fs) := next_fault fs in
      if negb (f_ok f) then (fs, Err XIO)
      else
        let '(fs, r) := open_sealed l' fs in
        (fs, let* segs := r in Ok (openSealedSegment p d (length d) :: segs))
  end.

Definition open_col (e : rootEntry) (fs : list fault) : list fault * res xerr colDiscovery :=
  let files := ssort file_less (re_files e) in
  let '(older, newest) := match last files with
                          | None => ([], ("seg_000001.ndjson", []))
                          | Some f => (take (length files - 1) files, f)
                          end in
  let '(fs, r) := open_sealed older fs in
  match r with
  | Err e => (fs, Err e)
  | Ok sealed =>
      let '(_, fs, w) := openActiveSegment newest.1 newest.2 fs in
      match w with
      | Err e => (fs, Err (XSeg e))
      | Ok s => (fs, Ok (MkCol (re_name e) sealed s))
      end
  end.

Fixpoint open_cols (l : list rootEntry) (fs : list fault) : list fault * res xerr (list colDiscovery) :=
  match l with
  | [] => (fs, Ok [])
  | e :: l' =>
      let '(fs, r) := open_col e fs in
      match r with
      | Err err => (fs, Err err)
      | Ok c => let '(fs, r) := open_cols l' fs in (fs, let* cs := r in Ok (c :: cs))
      end
  end.

(** ** Recovery: evidence *)

Record stampedItem : Type := MkItem {
  it_ref : xtxOpRef; it_stamp : TxStamp; it_off : nat; it_end : nat; it_path : string; it_active : bool
}.

Record runEvidence : Type := MkEv {
  ev_complete : bool; ev_n : N; ev_digest : string; ev_path : string; ev_start : nat; ev_end : nat; ev_tail : bool
}.

(** The stamped entries of a scan. *)
Definition item_of (p : string) (isActive : bool) (x : SalvagedEntry) : option stampedItem :=
  match sv_Tx x with
  | Some tx =>
      if decide (st_t tx = "") then None
      else Some (MkItem (MkOpRef (ID (sv_Entry x)) (Op (sv_Entry x)) (Rev (sv_Entry x))) tx
                   (sv_Offset x) (sv_Offset x + sv_Length x) p isActive)
  | None => None
  end.

Definition stamped_items (p : string) (isActive : bool) (l : list SalvagedEntry) : list stampedItem :=
  omap (item_of p isActive) l.

(** Phase 3 on one collection: the items of its segments in order.  A file that
    cannot be read is passed over. *)
Fixpoint scan_items (segs : list (Segment * bool)) (fs : list fault) : list fault * list stampedItem :=
  match segs with
  | [] => (fs, [])
  | (s, isActive) :: segs' =>
      let '(fs, r) := ScanSegmentTolerant (path s) (disk s) fs in
      let items := match r with Ok rep => stamped_items (path s) isActive (rp_Entries rep) | Err _ => [] end in
      let '(fs, rest) := scan_items segs' fs in
      (fs, items ++ rest)
  end.

Definition col_items (c : colDiscovery) (fs : list fault) : list fault * list stampedItem :=
  scan_items (map (λ s, (s, false)) (cd_sealed c) ++ [(cd_active c, true)]) fs.

(** The items of each transaction, in order. *)
Definition group (l : list stampedItem) : gmap string (list stampedItem) :=
  foldl (λ m it, <[st_t (it_stamp it) := default [] (m !! st_t (it_stamp it)) ++ [it]]> m) ∅ l.

Definition in_place (n : N) (i : nat) (it : stampedItem) : bool :=
  (st_i (it_stamp it) =? u32n i)%N && (st_n (it_stamp it) =? n)%N.

Definition evidence_of (activeSize : nat) (first : stampedItem) (items : list stampedItem) : runEvidence :=
  let n := st_n (it_stamp first) in
  let lst := default first (last items) in
  MkEv ((u32n (length items) =? n)%N && forallb (λ ic, in_place n ic.1 ic.2) (imap pair items))
       (u32n (length items)) (partDigest (map it_ref items)) (it_path first) (it_off first) (it_end lst)
       (it_active first && it_active lst && (activeSize <=? it_end lst)).

Notation evidence := (gmap string (gmap string runEvidence)).

Definition add_run (name : string) (activeSize : nat) (tx : string) (items : list stampedItem) (ev : evidence) : evidence :=
  match items with
  | [] => ev
  | first :: _ => <[tx := <[name := evidence_of activeSize first items]> (default ∅ (ev !! tx))]> ev
  end.

Definition add_col (c : colDiscovery) (items : list stampedItem) (ev : evidence) : evidence :=
  map_fold (add_run (cd_name c) (size (cd_active c))) ev (group items).

(** Phase 3: the evidence, and whether there is any stamped entry. *)
Fixpoint collect_evidence (cs : list colDiscovery) (ev : evidence) (seen : bool) (fs : list fault) : list fault * evidence * bool :=
  match cs with
  | [] => (fs, ev, seen)
  | c :: cs' =>
      let '(fs, items) := col_items c fs in
      collect_evidence cs' (add_col c items ev) (seen || negb (bool_decide (items = []))) fs
  end.

(** ** Recovery: the truth table *)

(** Dead runs at the end of an active segment are cut off; failures are ignored,
    the decision hides the run anyway. *)
Definition cut_dead (cols : gmap string colDiscovery) (runs : list (string * runEvidence)) (fs : list fault)
    : gmap string colDiscovery * list fault :=
  foldl (λ '(cols, fs) '(name, rev),
    if ev_tail rev then
      match cols !! name with
      | Some c =>
          let '(s, fs, _) := rollback (cd_active c) (ev_start rev) fs in
          let '(fs, _) := Sync s fs in
          (<[name := with_active c s]> cols, fs)
      | None => (cols, fs)
      end
    else (cols, fs)) (cols, fs) runs.

Definition runs_of (ev : evidence) (tx : string) : gmap string runEvidence := default ∅ (ev !! tx).

(** Rows 5 to 7 for a committed transaction. *)
Definition run_matches (runs : gmap string runEvidence) (p : xtxPart) : bool :=
  match runs !! p_C p with
  | Some rev => ev_complete rev && (ev_n rev =? p_N p)%N && bool_decide (ev_digest rev = p_D p)
  | None => false
  end.

Definition commit_complete (existing : gset string) (runs : gmap string runEvidence) (d : xtxDecision) : bool :=
  forallb (λ p, bool_decide (p_C p ∈ existing)) (d_Parts d) &&
  forallb (λ kv, existsb (λ p, bool_decide (p_C p = kv.1)) (d_Parts d)) (map_to_list runs) &&
  forallb (run_matches runs) (d_Parts d).

(** The state the loop threads, with the two counters. *)
Record rstate : Type := MkRS { rs_j : option xtxJournal; rs_cols : gmap string colDiscovery; rs_committed : nat; rs_aborted : nat }.

Definition resolve_one (existing : gset string) (ev : evidence) (now : time) (st : rstate) (tx : string) (fs : list fault)
    : rstate * list fault * res xerr unit :=
  let runs := runs_of ev tx in
  match rs_j st ≫= λ j, decision j tx with
  | None =>
      if decide (runs = ∅) then (st, fs, Ok tt)
      else
        let '(cols, fs) := cut_dead (rs_cols st) (map_to_list runs) fs in
        let '(j, fs) := match rs_j st with
                        | None => (None, fs)
                        | Some j => let '(j, fs, _) := abort j tx "" "recovery" now fs in (Some j, fs)
                        end in
        (MkRS j cols (rs_committed st) (S (rs_aborted st)), fs, Ok tt)
  | Some d =>
      if decide (d_Outcome d = xtxKindCommit) then
        if d_Retired d then (st, fs, Ok tt)
        else if commit_complete existing runs d then (MkRS (rs_j st) (rs_cols st) (S (rs_committed st)) (rs_aborted st), fs, Ok tt)
        else (st, fs, Err (XIncomplete tx))
      else if decide (d_Outcome d = xtxKindAbort) then
        if d_Retired d then (st, fs, Ok tt)
        else
          let '(cols, fs) := cut_dead (rs_cols st) (map_to_list runs) fs in
          (MkRS (rs_j st) cols (rs_committed st) (rs_aborted st), fs, Ok tt)
      else (st, fs, Ok tt)
  end.

Fixpoint resolve (existing : gset string) (ev : evidence) (now : time) (st : rstate) (txs : list string) (fs : list fault)
    : rstate * list fault * res xerr unit :=
  match txs with
  | [] => (st, fs, Ok tt)
  | tx :: txs' =>
      let '(st, fs, r) := resolve_one existing ev now st tx fs in
      match r with
      | Err e => (st, fs, Err e)
      | Ok _ => resolve existing ev now st txs' fs
      end
  end.

(** ** Recovery: the whole *)

Inductive damage : Type := xtxJournalHealthy | xtxJournalMissingBeforeOpen | xtxJournalDestructiveLoss.

Definition classifyXTxJournalBeforeOpen (file : option bytes) : damage :=
  match file with
  | None => xtxJournalMissingBeforeOpen
  | Some b => if bool_decide (b = []) || allZero b then xtxJournalDestructiveLoss else xtxJournalHealthy
  end.

(** [gateXTxRoot]: [hasFormat] is what [readXTxFormat] found. *)
Definition gateXTxRoot (hasFormat : bool) (file : option bytes) (epoch : string) (now : time) (fs : list fault)
    : list fault * res xerr (option xtxJournal) :=
  let '(f, fs) := next_fault fs in
  if negb (f_ok f) then (fs, Err XIO)
  else if negb hasFormat then
    match file with Some _ => (fs, Err XUnsupported) | None => (fs, Ok None) end
  else match file with
       | None => (fs, Ok None)
       | Some b =>
           let '(_, fs, r) := openXTxJournal b epoch now fs in
           match r with
           | Err e => (fs, Err (XJournal e))
           | Ok j => (fs, Ok (Some j))
           end
       end.

Definition observe_all (ev : evidence) (j : xtxJournal) : xtxJournal :=
  map_fold (λ tx _ j, match parseTxID tx with Some (_, seq) => observeSeq j seq | None => j end) j ev.

Definition all_txids (j : option xtxJournal) (ev : evidence) : list string :=
  ssort str_ltb (elements (match j with Some j => dom (byTx (table j)) | None => ∅ end ∪ dom ev : gset string)).

(** What the database has after a recovery that succeeded. *)
Record recovered : Type := MkRec2 {
  rec_journal : option xtxJournal;
  rec_cols : gmap string colDiscovery;
  rec_decisions : option decisions;
  rec_committed : nat;
  rec_aborted : nat
}.

Definition recoverCoordinator (hasFormat : bool) (file : option bytes) (root : list rootEntry) (epoch : string) (now : time)
    (fs : list fault) : list fault * res xerr recovered :=
  let state := classifyXTxJournalBeforeOpen file in
  let '(fs, g) := gateXTxRoot hasFormat file epoch now fs in
  match g with
  | Err e => (fs, Err e)
  | Ok xj =>
      let '(f, fs) := next_fault fs in
      if negb (f_ok f) then (fs, Err XIO)
      else match discover root with
           | Err e => (fs, Err e)
           | Ok found =>
               let '(fs, r) := open_cols (ssort entry_ltb found) fs in
               match r with
               | Err e => (fs, Err e)
               | Ok cs =>
                   let '(fs, ev, seen) := collect_evidence cs ∅ false fs in
                   let lost := match xj, state with
                               | None, _ | _, xtxJournalMissingBeforeOpen => Some XJournalMissing
                               | _, xtxJournalDestructiveLoss => Some XRecoveryRequired
                               | _, _ => None
                               end in
                   match (if seen then lost else None) with
                   | Some e => (fs, Err e)
                   | None =>
                       let xj := observe_all ev <$> xj in
                       let cols := list_to_map (map (λ c, (cd_name c, c)) cs) in
                       let '(st, fs, r) := resolve (list_to_set (map cd_name cs)) ev now (MkRS xj cols 0 0) (all_txids xj ev) fs in
                       match r with
                       | Err e => (fs, Err e)
                       | Ok _ =>
                           (fs, Ok (MkRec2 (rs_j st) (rs_cols st)
                              (match rs_j st with
                               | Some j => Some (decisionsMap j)
                               | None => if hasFormat then Some ∅ else None
                               end) (rs_committed st) (rs_aborted st)))
                       end
                   end
               end
           end
  end.
