(* ===== verification/XTxInv.v ===== *)
(** * Recovery of cross-collection transactions: its proof

    The evidence recovery collects is the stamped lines of the logs; on a root
    whose committed transactions have their runs, recovery succeeds, and what it
    cuts off was never visible. *)
From Stdlib Require Import Ascii Lia ZArith.
From stdpp Require Import prelude gmap strings sorting.
From S2P Require Import Prelude GoNum Json Value GoTime Store Wire Codec Segment Index Sha256 Journal JournalThm Salvage Names XTx.

(** ** Logs and their transactions *)

Definition stamp_tx (x : SalvagedEntry) : string := match sv_Tx x with Some tx => st_t tx | None => "" end.

(** The entries of a transaction in a log; [""] is no transaction. *)
Definition tx_items (tx : string) (xs : list SalvagedEntry) : list SalvagedEntry :=
  filter (λ x, stamp_tx x = tx ∧ tx ≠ "") xs.

Definition sv_ref (x : SalvagedEntry) : xtxOpRef := MkOpRef (ID (sv_Entry x)) (Op (sv_Entry x)) (Rev (sv_Entry x)).

(** The log [xs] holds the whole run of [tx] that the participant [p] names. *)
Record complete_run (p : xtxPart) (tx : string) (xs : list SalvagedEntry) : Prop := {
  cr_some : tx_items tx xs ≠ [];
  cr_length : u32n (length (tx_items tx xs)) = p_N p;
  cr_stamps : ∀ i x, tx_items tx xs !! i = Some x → sv_Tx x = Some (MkStamp tx (u32n i) (p_N p));
  cr_digest : partDigest (map sv_ref (tx_items tx xs)) = p_D p
}.

(** Every committed transaction that is not retired has its runs, in its
    participants and nowhere else. *)
Definition coordinated (t : xtxTable) (logs : gmap string (list SalvagedEntry)) : Prop :=
  ∀ tx d, byTx t !! tx = Some d → d_Outcome d = xtxKindCommit → d_Retired d = false →
    (∀ p, p ∈ d_Parts d → ∃ xs, logs !! p_C p = Some xs ∧ complete_run p tx xs) ∧
    (∀ c xs, logs !! c = Some xs → tx_items tx xs ≠ [] → ∃ p, p ∈ d_Parts d ∧ p_C p = c).

(** The lines of one transaction stand together. *)
Definition contiguous (xs : list SalvagedEntry) : Prop :=
  ∀ tx, tx ≠ "" → ∃ pre mid post, xs = pre ++ mid ++ post ∧
    tx_items tx pre = [] ∧ tx_items tx post = [] ∧ Forall (λ x, stamp_tx x = tx) mid.

(** What a reader with the decisions [ds] sees of a log. *)
Definition visible (ds : option decisions) (xs : list SalvagedEntry) : list SalvagedEntry :=
  filter (λ x, entryVisible (sv_Tx x) ds = true) xs.

(** ** From lines to items *)

Definition to_item (p : string) (isActive : bool) (x : SalvagedEntry) : stampedItem :=
  MkItem (sv_ref x) (default zero_stamp (sv_Tx x)) (sv_Offset x) (sv_Offset x + sv_Length x) p isActive.

Lemma tx_items_app tx xs ys : tx_items tx (xs ++ ys) = tx_items tx xs ++ tx_items tx ys.
Proof. apply filter_app. Qed.

Lemma tx_items_all tx xs : tx ≠ "" → Forall (λ x, stamp_tx x = tx) xs → tx_items tx xs = xs.
Proof. intros Hne H. unfold tx_items. apply filter_all. eapply Forall_impl; [exact H|]. intros x Hx. by split. Qed.

Definition of_tx (tx : string) (l : list stampedItem) : list stampedItem := filter (λ it, st_t (it_stamp it) = tx) l.

Lemma of_tx_items tx p b xs : tx ≠ "" → of_tx tx (stamped_items p b xs) = map (to_item p b) (tx_items tx xs).
Proof.
  intros Hne. unfold of_tx, stamped_items, tx_items. induction xs as [|x xs IH]; [done|].
  change (omap (item_of p b) (x :: xs)) with (match item_of p b x with Some it => it :: omap (item_of p b) xs | None => omap (item_of p b) xs end).
  unfold item_of at 1. destruct (sv_Tx x) as [st|] eqn:Ex.
  - destruct (decide (st_t st = "")) as [Ht|Ht].
    + rewrite IH, filter_cons_False; [done|]. unfold stamp_tx. rewrite Ex. intros [H _]. congruence.
    + destruct (decide (st_t st = tx)) as [Heq|Hneq].
      * rewrite filter_cons_True by done. rewrite filter_cons_True by (unfold stamp_tx; by rewrite Ex). cbn [map]. rewrite IH. f_equal.
        unfold to_item. by rewrite Ex.
      * rewrite filter_cons_False by done. rewrite filter_cons_False by (unfold stamp_tx; rewrite Ex; tauto). done.
  - rewrite IH, filter_cons_False; [done|]. unfold stamp_tx. rewrite Ex. intros [H _]. congruence.
Qed.

Lemma items_nonempty p b xs it : it ∈ stamped_items p b xs → st_t (it_stamp it) ≠ "".
Proof.
  unfold stamped_items. intros (x & _ & Hx)%list_elem_of_omap. unfold item_of in Hx. destruct (sv_Tx x) as [st|]; [|done]. case_decide; [done|]. by injection Hx as <-.
Qed.

(** [group] gives each transaction its items, in order. *)
Lemma group_lookup l tx : group l !! tx = if decide (of_tx tx l = []) then None else Some (of_tx tx l).
Proof.
  unfold group, of_tx. induction l as [|it l IH] using rev_ind; [done|].
  rewrite foldl_app, filter_app. cbn [foldl]. destruct (decide (st_t (it_stamp it) = tx)) as [<-|Hne].
  - rewrite lookup_insert_eq, IH, filter_cons_True, filter_nil by done. rewrite (decide_False (P := _ ++ _ = [])).
    + case_decide as He; [by rewrite He|done].
    + intros H. by apply app_nil in H as [_ ?].
  - rewrite lookup_insert_ne, IH by done. rewrite filter_cons_False, filter_nil, app_nil_r by done. done.
Qed.

(** ** Evidence *)

Lemma add_run_lookup name n tx items ev tx' :
  add_run name n tx items ev !! tx' =
  match items with
  | first :: _ => if decide (tx' = tx) then Some (<[name := evidence_of n first items]> (default ∅ (ev !! tx))) else ev !! tx'
  | [] => ev !! tx'
  end.
Proof.
  destruct items as [|first items]; [done|]. unfold add_run. destruct (decide (tx' = tx)) as [->|Hne]; [by rewrite lookup_insert_eq|by rewrite lookup_insert_ne].
Qed.

(** The evidence of the collection [c], whose items are [l], for [tx]. *)
Definition col_evidence (c : colDiscovery) (l : list stampedItem) (tx : string) : option runEvidence :=
  match of_tx tx l with
  | [] => None
  | first :: rest => Some (evidence_of (size (cd_active c)) first (first :: rest))
  end.

Lemma add_col_lookup c l ev tx :
  add_col c l ev !! tx =
  match col_evidence c l tx with
  | Some e => Some (<[cd_name c := e]> (default ∅ (ev !! tx)))
  | None => ev !! tx
  end.
Proof.
  unfold add_col, col_evidence.
  assert (H : ∀ g : gmap string (list stampedItem), map_fold (add_run (cd_name c) (size (cd_active c))) ev g !! tx =
    match g !! tx with
    | Some (first :: rest) => Some (<[cd_name c := evidence_of (size (cd_active c)) first (first :: rest)]> (default ∅ (ev !! tx)))
    | _ => ev !! tx
    end).
  { apply (map_fold_weak_ind (λ m g, m !! tx = match g !! tx with
      | Some (first :: rest) => Some (<[cd_name c := evidence_of (size (cd_active c)) first (first :: rest)]> (default ∅ (ev !! tx)))
      | _ => ev !! tx end)).
    - by rewrite lookup_empty.
    - intros tx' items g m Hg IH. rewrite add_run_lookup. destruct (decide (tx = tx')) as [<-|Hne].
      + rewrite lookup_insert_eq. rewrite Hg in IH. destruct items as [|first rest]; [done|]. by rewrite IH.
      + rewrite lookup_insert_ne by done. by destruct items. }
  rewrite H, group_lookup. case_decide as He; [by rewrite He|]. by destruct (of_tx tx l).
Qed.

Lemma runs_of_add c l ev tx name :
  runs_of (add_col c l ev) tx !! name =
  if decide (name = cd_name c) then match col_evidence c l tx with Some e => Some e | None => runs_of ev tx !! name end
  else runs_of ev tx !! name.
Proof.
  unfold runs_of. rewrite add_col_lookup. destruct (col_evidence c l tx) as [e|]; [|by case_decide]. cbn [default from_option id].
  destruct (decide (name = cd_name c)) as [->|H]; [by rewrite lookup_insert_eq|by rewrite lookup_insert_ne].
Qed.

(** ** Opening without failures *)

Lemma recover_loop_quiet fuel d offset : ∃ r, recover_loop fuel d offset [] = (Ok r, []).
Proof.
  revert offset. induction fuel as [|fuel IH]; intros offset; [by exists None|]. unfold recover_loop. fold recover_loop.
  cbn [next_fault f_ok negb]. destruct (last_newline _) as [i|]; [by exists (Some (offset + i + 1))|]. case_decide; [by exists None|]. apply IH.
Qed.

Lemma open_active_quiet p d xs torn :
  tidy d 0 xs → newline ∉ torn → openActiveSegment p (d ++ torn) [] = (d, [], Ok (MkSeg p d (length d) false HOpen false)).
Proof.
  intros Hd Ht. assert (Hok : ∃ d' s, openActiveSegment p (d ++ torn) [] = (d', [], Ok s)).
  { unfold openActiveSegment, recoverPartialLine. cbn [next_fault f_ok negb]. case_decide; [by eexists _, _|]. case_decide; [by eexists _, _|].
    destruct (recover_loop_quiet (S (length (d ++ torn))) (d ++ torn) (length (d ++ torn) - 512)) as [r ->].
    destruct r; unfold recover_truncate, file_truncate; cbn [next_fault f_ok negb]; by eexists _, _. }
  destruct Hok as (d' & s & Ho). rewrite Ho. apply open_spec in Ho as [-> ->].
  rewrite (holds_valid_size _ _ _ _ (tidy_holds _ _ _ Hd) Ht), take_app_length. done.
Qed.

(** A directory of a collection: the logs [sx] of its sealed segments and [ax]
    of the active one, which may end in a torn line. *)
Record dir_ok (e : rootEntry) (sx : list (list SalvagedEntry)) (ax : list SalvagedEntry) : Prop := {
  do_kind : re_kind e = KDir;
  do_reserved : isReservedXTxName (re_name e) = false;
  do_name : validateLegacyName (re_name e) = Ok tt;
  do_files : ∃ sealed p d torn, ssort file_less (re_files e) = sealed ++ [(p, d ++ torn)] ∧
    Forall2 (λ f xs, tidy f.2 0 xs) sealed sx ∧ tidy d 0 ax ∧ newline ∉ torn
}.

(** A collection as it is after opening. *)
Record col_ok (c : colDiscovery) (sx : list (list SalvagedEntry)) (ax : list SalvagedEntry) : Prop := {
  cl_sealed : Forall2 (λ s xs, tidy (disk s) 0 xs) (cd_sealed c) sx;
  cl_active : tidy (disk (cd_active c)) 0 ax;
  cl_size : size (cd_active c) = length (disk (cd_active c));
  cl_open : sealed (cd_active c) = false ∧ poisoned (cd_active c) = false ∧ file (cd_active c) = HOpen
}.

Lemma open_sealed_quiet l : open_sealed l [] = ([], Ok (map (λ f, openSealedSegment f.1 f.2 (length f.2)) l)).
Proof. induction l as [|[p d] l IH]; [done|]. cbn [open_sealed next_fault f_ok negb]. by rewrite IH. Qed.

Lemma open_col_quiet e sx ax :
  dir_ok e sx ax → ∃ c, open_col e [] = ([], Ok c) ∧ cd_name c = re_name e ∧ col_ok c sx ax.
Proof.
  intros [_ _ _ (sealed & p & d & torn & Hs & Hsx & Hd & Ht)]. unfold open_col. rewrite Hs, last_snoc. cbn [fst snd].
  rewrite length_app. cbn [length]. replace (take _ (sealed ++ _)) with sealed by (symmetry; rewrite take_app_le by lia; apply take_ge; lia).
  rewrite open_sealed_quiet, (open_active_quiet p d ax torn Hd Ht). eexists. split; [done|]. split; [done|]. split; cbn [cd_sealed cd_active disk size]; try done.
  clear -Hsx. induction Hsx; cbn [map]; constructor; done.
Qed.

Lemma open_cols_quiet l :
  Forall (λ e, ∃ sx ax, dir_ok e sx ax) l →
  ∃ cs, open_cols l [] = ([], Ok cs) ∧ Forall2 (λ e c, cd_name c = re_name e ∧ ∀ sx ax, dir_ok e sx ax → col_ok c sx ax) l cs.
Proof.
  induction 1 as [|e l (sx & ax & He) _ (cs & Ho & Hcs)]; [by exists []; split|].
  destruct (open_col_quiet e sx ax He) as (c & Hc & Hn & _). exists (c :: cs). cbn [open_cols]. rewrite Hc, Ho. cbn [res_bind].
  split; [done|]. constructor; [|done]. split; [done|]. intros sx' ax' He'. destruct (open_col_quiet e sx' ax' He') as (c' & Hc' & _ & Hok).
  rewrite Hc in Hc'. by injection Hc' as <-.
Qed.

Lemma discover_quiet l : Forall (λ e, ∃ sx ax, dir_ok e sx ax) l → discover l = Ok l.
Proof.
  induction 1 as [|e l (sx & ax & [Hk Hr Hn _]) _ IH]; [done|]. cbn [discover]. rewrite Hk, Hr, Hn, IH. done.
Qed.

(** ** Scanning without failures *)

Lemma scan_quiet p d xs : tidy d 0 xs → ∃ rep, ScanSegmentTolerant p d [] = ([], Ok rep) ∧ rp_Entries rep = xs.
Proof.
  intros Hd. unfold ScanSegmentTolerant, scanSegmentTolerantLimit. cbn [next_fault f_ok negb]. eexists. split; [done|].
  rewrite <- (app_nil_r d) at 3. rewrite (tidy_salvage _ _ d 0 xs []); [done|done|apply not_elem_of_nil|rewrite app_nil_r; lia].
Qed.

(** The items of a collection. *)
Definition log_items (c : colDiscovery) (sx : list (list SalvagedEntry)) (ax : list SalvagedEntry) : list stampedItem :=
  concat (zip_with (λ s xs, stamped_items (path s) false xs) (cd_sealed c) sx) ++ stamped_items (path (cd_active c)) true ax.

Lemma scan_items_quiet segs xss :
  Forall2 (λ sb xs, tidy (disk sb.1) 0 xs) segs xss →
  scan_items segs [] = ([], concat (zip_with (λ sb xs, stamped_items (path sb.1) sb.2 xs) segs xss)).
Proof.
  induction 1 as [|[s b] xs segs xss Hx _ IH]; [done|]. cbn [scan_items]. cbn [fst] in Hx. destruct (scan_quiet (path s) (disk s) xs Hx) as (rep & -> & Hr).
  rewrite IH, Hr. done.
Qed.

Lemma col_items_quiet c sx ax : col_ok c sx ax → col_items c [] = ([], log_items c sx ax).
Proof.
  intros [Hs Ha _ _]. unfold col_items, log_items. rewrite (scan_items_quiet _ (sx ++ [ax])).
  - f_equal. rewrite zip_with_app by (rewrite length_map; by eapply Forall2_length). rewrite concat_app. cbn [zip_with concat fst snd]. rewrite app_nil_r. f_equal.
    f_equal. clear. revert sx. induction (cd_sealed c) as [|s l IH]; intros [|xs sx]; try done. cbn [map zip_with fst snd]. by rewrite IH.
  - apply Forall2_app; [|by repeat constructor]. apply Forall2_fmap_l. done.
Qed.

(** The items of a transaction are its entries, in order. *)
Lemma log_items_tx c sx ax tx :
  length (cd_sealed c) = length sx → tx ≠ "" →
  map it_ref (of_tx tx (log_items c sx ax)) = map sv_ref (tx_items tx (concat sx ++ ax)) ∧
  map it_stamp (of_tx tx (log_items c sx ax)) = map (λ x, default zero_stamp (sv_Tx x)) (tx_items tx (concat sx ++ ax)).
Proof.
  intros Hl Hne. unfold log_items. rewrite tx_items_app. unfold of_tx. rewrite filter_app.
  fold (of_tx tx (stamped_items (path (cd_active c)) true ax)). rewrite of_tx_items by done. rewrite !map_app, !map_map. cbn [to_item it_ref it_stamp].
  assert (H : map it_ref (of_tx tx (concat (zip_with (λ s xs, stamped_items (path s) false xs) (cd_sealed c) sx))) = map sv_ref (tx_items tx (concat sx)) ∧
    map it_stamp (of_tx tx (concat (zip_with (λ s xs, stamped_items (path s) false xs) (cd_sealed c) sx))) =
    map (λ x, default zero_stamp (sv_Tx x)) (tx_items tx (concat sx))).
  { clear -Hl Hne. revert sx Hl. induction (cd_sealed c) as [|s l IH]; intros [|xs sx] Hl; try done. cbn [zip_with concat]. cbn in Hl.
    destruct (IH sx) as [H1 H2]; [lia|]. unfold of_tx in *. rewrite filter_app, tx_items_app, !map_app.
    fold (of_tx tx (stamped_items (path s) false xs)). rewrite of_tx_items by done. rewrite !map_map. cbn [to_item it_ref it_stamp]. by rewrite H1, H2. }
  destruct H as [H1 H2]. unfold of_tx in H1, H2. by rewrite H1, H2.
Qed.

(** ** The evidence of a root *)

(** A collection with the logs it holds. *)
Definition logged : Type := colDiscovery * list (list SalvagedEntry) * list SalvagedEntry.
Definition lc_col (l : logged) : colDiscovery := l.1.1.
Definition lc_log (l : logged) : list SalvagedEntry := concat l.1.2 ++ l.2.
Definition lc_items (l : logged) : list stampedItem := log_items l.1.1 l.1.2 l.2.
Definition lc_ok (l : logged) : Prop := col_ok l.1.1 l.1.2 l.2.

Definition root_evidence (ls : list logged) (ev : evidence) : evidence :=
  foldl (λ ev l, add_col (lc_col l) (lc_items l) ev) ev ls.

Lemma collect_quiet ls ev seen :
  Forall lc_ok ls →
  collect_evidence (map lc_col ls) ev seen [] = ([], root_evidence ls ev, seen || existsb (λ l, negb (bool_decide (lc_items l = []))) ls).
Proof.
  intros H. revert ev seen. induction H as [|[[c sx] ax] ls Hc _ IH]; intros ev seen; cbn [map collect_evidence]; [by rewrite orb_false_r|].
  unfold lc_ok in Hc. cbn [fst snd] in Hc. unfold lc_col. cbn [fst snd]. rewrite (col_items_quiet c sx ax Hc), IH. cbn [root_evidence foldl existsb].
  by rewrite orb_assoc.
Qed.

Definition lc_evidence (l : logged) (tx : string) : option runEvidence := col_evidence (lc_col l) (lc_items l) tx.

Definition lc_name (l : logged) : string := cd_name (lc_col l).

Lemma root_evidence_other ls ev tx name : name ∉ map lc_name ls → runs_of (root_evidence ls ev) tx !! name = runs_of ev tx !! name.
Proof.
  revert ev. induction ls as [|l ls IH]; intros ev; [done|]. cbn [map root_evidence foldl]. intros [Hne Hn]%not_elem_of_cons.
  fold (root_evidence ls (add_col (lc_col l) (lc_items l) ev)). rewrite IH by done. rewrite runs_of_add, decide_False by done. done.
Qed.

Lemma root_evidence_at ls ev tx l :
  NoDup (map lc_name ls) → l ∈ ls → runs_of ev tx !! lc_name l = None → runs_of (root_evidence ls ev) tx !! lc_name l = lc_evidence l tx.
Proof.
  revert ev. induction ls as [|l' ls IH]; intros ev Hnd Hin Hev; [by apply elem_of_nil in Hin|]. cbn [map] in Hnd. apply NoDup_cons in Hnd as [Hn Hnd].
  cbn [root_evidence foldl]. fold (root_evidence ls (add_col (lc_col l') (lc_items l') ev)). apply elem_of_cons in Hin as [->|Hin].
  - rewrite root_evidence_other by done. rewrite runs_of_add, decide_True by done. unfold lc_evidence. by destruct (col_evidence _ _ _).
  - assert (Hne : lc_name l ≠ lc_name l') by (intros He; apply Hn; rewrite <- He; by apply (list_elem_of_fmap_2 lc_name)).
    rewrite IH; [done|done|done|]. rewrite runs_of_add, decide_False by done. done.
Qed.

Lemma root_runs ls tx name e :
  NoDup (map lc_name ls) → runs_of (root_evidence ls ∅) tx !! name = Some e ↔ ∃ l, l ∈ ls ∧ lc_name l = name ∧ lc_evidence l tx = Some e.
Proof.
  intros Hnd. assert (H0 : ∀ n, runs_of ∅ tx !! n = None) by (intros n; unfold runs_of; rewrite lookup_empty; apply lookup_empty). split.
  - intros H. destruct (decide (name ∈ map lc_name ls)) as [Hin|Hn]; [|rewrite root_evidence_other, H0 in H by done; done].
    apply list_elem_of_fmap in Hin as (l & -> & Hl). exists l. rewrite root_evidence_at in H by done. done.
  - intros (l & Hl & <- & He). by rewrite root_evidence_at.
Qed.

(** The evidence of a log, by its entries. *)
Lemma lc_evidence_none l tx : lc_ok l → tx ≠ "" → lc_evidence l tx = None ↔ tx_items tx (lc_log l) = [].
Proof.
  destruct l as [[c sx] ax]. intros [Hs _ _ _] Hne. unfold lc_evidence, col_evidence, lc_items, lc_log. cbn [fst snd].
  destruct (log_items_tx c sx ax tx (Forall2_length _ _ _ Hs) Hne) as [H1 _]. apply (f_equal length) in H1. rewrite !length_map in H1.
  destruct (of_tx tx (log_items c sx ax)); split; try done; intros H; [by apply nil_length_inv|rewrite H in H1; done].
Qed.

Lemma items_have_tx c sx ax it : it ∈ log_items c sx ax → st_t (it_stamp it) ≠ "".
Proof.
  unfold log_items. intros [H|H]%elem_of_app; [|by eapply items_nonempty]. apply list_elem_of_In, in_concat in H as (l & Hin & Hl).
  apply list_elem_of_In, elem_of_zip_with in Hin as (s & xs & -> & _). apply list_elem_of_In in Hl. by eapply items_nonempty.
Qed.

Lemma lc_evidence_empty l : lc_evidence l "" = None.
Proof.
  unfold lc_evidence, col_evidence. destruct (of_tx "" (lc_items l)) as [|it its] eqn:E; [done|]. exfalso.
  assert (Hin : it ∈ of_tx "" (lc_items l)) by (rewrite E; left). apply list_elem_of_filter in Hin as [He Hin]. by apply items_have_tx in Hin.
Qed.

Lemma lookup_map_inv {A B} (f : A → B) l i y : map f l !! i = Some y → ∃ x, l !! i = Some x ∧ y = f x.
Proof. rewrite list_lookup_fmap. destruct (l !! i); [|done]. intros [= <-]. eauto. Qed.

Lemma complete_evidence l tx p :
  lc_ok l → tx ≠ "" → complete_run p tx (lc_log l) →
  ∃ e, lc_evidence l tx = Some e ∧ ev_complete e = true ∧ ev_n e = p_N p ∧ ev_digest e = p_D p.
Proof.
  destruct l as [[c sx] ax]. intros [Hs _ _ _] Hne [C1 C2 C3 C4]. unfold lc_evidence, col_evidence, lc_items, lc_log in *. cbn [fst snd] in *.
  destruct (log_items_tx c sx ax tx (Forall2_length _ _ _ Hs) Hne) as [H1 H2].
  destruct (of_tx tx (log_items c sx ax)) as [|first rest] eqn:E.
  { cbn [map] in H1. symmetry in H1. apply map_eq_nil in H1. done. }
  assert (Hlen : length (first :: rest) = length (tx_items tx (concat sx ++ ax))) by (apply (f_equal length) in H1; by rewrite !length_map in H1).
  assert (Hst : ∀ i it, (first :: rest) !! i = Some it → it_stamp it = MkStamp tx (u32n i) (p_N p)).
  { intros i it Hi. assert (Hm : map it_stamp (first :: rest) !! i = Some (it_stamp it)) by (by rewrite list_lookup_fmap, Hi).
    rewrite H2 in Hm. apply lookup_map_inv in Hm as (x & Hx & ->). by rewrite (C3 i x Hx). }
  eexists. split; [done|]. unfold evidence_of. cbn [ev_complete ev_n ev_digest]. rewrite Hlen, H1, C2.
  assert (Hf : st_n (it_stamp first) = p_N p) by (by rewrite (Hst 0 first)). rewrite Hf. split; [|done].
  rewrite N.eqb_refl. cbn [andb]. apply forallb_forall. intros [i it] Hin. apply list_elem_of_In, list_elem_of_lookup in Hin as (k & Hk).
  rewrite list_lookup_imap in Hk. destruct ((first :: rest) !! k) as [it'|] eqn:Ek; [|done]. cbn in Hk. injection Hk as <- <-.
  unfold in_place. cbn [fst snd]. rewrite (Hst k it' Ek). cbn [st_i st_n]. by rewrite !N.eqb_refl.
Qed.

(** ** Dead runs at the end of a segment *)

Lemma tidy_split d off xs ys :
  tidy d off (xs ++ ys) → ∃ d1 d2, d = d1 ++ d2 ∧ tidy d1 off xs ∧ tidy d2 (off + length d1) ys.
Proof.
  revert d off. induction xs as [|x xs IH]; intros d off H.
  - exists [], d. cbn. rewrite Nat.add_0_r. split_and!; [done|constructor|done].
  - inversion H as [|l e tx rest off' xs' Hg Hl Hu Hv Ht]; subst. apply IH in Ht as (d1 & d2 & -> & H1 & H2).
    exists (l ++ newline :: d1), d2. split_and!; [by rewrite <- app_assoc|by apply tidy_cons|].
    rewrite length_app. cbn [length]. by replace (off + (length l + S (length d1))) with (off + length l + 1 + length d1) by lia.
Qed.

Lemma tidy_head d off x xs : tidy d off (x :: xs) → sv_Offset x = off ∧ 0 < sv_Length x ∧ sv_Offset x + sv_Length x ≤ off + length d.
Proof.
  intros H. inversion H as [|l e tx rest off' xs' Hg Hl Hu Hv Ht]; subst. cbn [sv_Offset sv_Length]. rewrite length_app. cbn [length]. lia.
Qed.

(** Only the last entry reaches the end of the file. *)
Lemma tidy_last d xs x ys : tidy d 0 (xs ++ x :: ys) → length d ≤ sv_Offset x + sv_Length x → ys = [].
Proof.
  intros H Hle. change (x :: ys) with ([x] ++ ys) in H. rewrite app_assoc in H. apply tidy_split in H as (d1 & d2 & -> & H1 & H2).
  apply tidy_split in H1 as (d3 & d4 & -> & _ & H4). apply tidy_head in H4 as (Ho & _ & Hl). destruct ys as [|y ys]; [done|].
  apply tidy_head in H2 as (Hy & Hp & Hy2). rewrite !length_app in *. lia.
Qed.

Lemma of_tx_log l tx :
  tx ≠ "" → of_tx tx (lc_items l) =
    of_tx tx (concat (zip_with (λ s xs, stamped_items (path s) false xs) (cd_sealed (lc_col l)) l.1.2)) ++
    map (to_item (path (cd_active (lc_col l))) true) (tx_items tx l.2).
Proof.
  intros Hne. unfold lc_items, log_items, of_tx. rewrite filter_app. f_equal. by apply of_tx_items.
Qed.

Lemma sealed_item_inactive ss (sx : list (list SalvagedEntry)) it :
  it ∈ concat (zip_with (λ s xs, stamped_items (path s) false xs) ss sx) → it_active it = false.
Proof.
  intros (l & Hin & Hl)%list_elem_of_In%in_concat. apply list_elem_of_In, elem_of_zip_with in Hin as (s & xs & -> & _).
  apply list_elem_of_In in Hl. unfold stamped_items in Hl. apply list_elem_of_omap in Hl as (x & _ & Hx). unfold item_of in Hx.
  destruct (sv_Tx x); [|done]. case_decide; [done|]. by injection Hx as <-.
Qed.

(** The run of a transaction whose evidence is at the tail is the end of the log. *)
Lemma tail_run l tx e :
  lc_ok l → contiguous l.2 → lc_evidence l tx = Some e → ev_tail e = true →
  ∃ pre mid, l.2 = pre ++ mid ∧ mid ≠ [] ∧ Forall (λ x, stamp_tx x = tx) mid ∧
    ev_start e ≤ length (disk (cd_active (lc_col l))) ∧ tidy (take (ev_start e) (disk (cd_active (lc_col l)))) 0 pre.
Proof.
  intros Hok Hct He Ht. assert (Hne : tx ≠ "") by (intros ->; by rewrite lc_evidence_empty in He).
  unfold lc_evidence, col_evidence in He. destruct (of_tx tx (lc_items l)) as [|first rest] eqn:E; [done|]. injection He as <-.
  unfold evidence_of in Ht |- *. cbn [ev_tail ev_start] in *. apply andb_true_iff in Ht as [[Ha Hla]%andb_true_iff Hend%Nat.leb_le].
  rewrite of_tx_log in E by done.
  set (sl := of_tx tx (concat _)) in E.
  assert (Hsl : sl = []).
  { destruct sl as [|it sl'] eqn:Es; [done|]. injection E as -> _. exfalso.
    assert (Hin : first ∈ sl) by (rewrite Es; left). apply list_elem_of_filter in Hin as [_ Hin]. apply sealed_item_inactive in Hin. congruence. }
  rewrite Hsl in E. cbn [app] in E. destruct (Hct tx Hne) as (pre & mid & post & Hax & Hpre & Hpost & Hmid).
  assert (Hits : tx_items tx l.2 = mid) by (rewrite Hax, !tx_items_app, Hpre, Hpost, app_nil_r; by apply tx_items_all).
  rewrite Hits in E. destruct mid as [|x mid']; [done|]. cbn [map] in E. injection E as <- <-.
  destruct Hok as [_ Htd Hsz _]. rewrite Hax in Htd.
  assert (Hpo : post = []).
  { destruct (exists_last (l := x :: mid')) as (mid0 & y & Hy); [done|].
    assert (Hl : default (to_item (path (cd_active (lc_col l))) true x) (last (to_item (path (cd_active (lc_col l))) true x :: map (to_item (path (cd_active (lc_col l))) true) mid')) =
      to_item (path (cd_active (lc_col l))) true y).
    { change (_ :: map ?f mid') with (map f (x :: mid')). rewrite Hy, map_app. cbn [map]. by rewrite last_snoc. }
    rewrite Hl in Hend. cbn [to_item it_end] in Hend. apply (tidy_last (disk (cd_active (lc_col l))) (pre ++ mid0) y).
    - rewrite <- app_assoc. cbn [app]. change (y :: post) with ([y] ++ post). rewrite (app_assoc mid0), <- Hy. done.
    - unfold lc_col in *. lia. }
  subst post. rewrite app_nil_r in Hax, Htd. exists pre, (x :: mid'). split_and!; try done.
  - apply tidy_split in Htd as (d1 & d2 & Hd & H1 & H2). apply tidy_head in H2 as (Ho & _ & _). cbn [to_item it_off]. rewrite Ho.
    unfold lc_col in *. rewrite Hd, length_app. lia.
  - apply tidy_split in Htd as (d1 & d2 & Hd & H1 & H2). apply tidy_head in H2 as (Ho & _ & _). cbn [to_item it_off]. rewrite Ho.
    unfold lc_col in *. rewrite Hd. cbn [Nat.add]. by rewrite take_app_length.
Qed.

Lemma tail_unique l tx1 tx2 e1 e2 :
  lc_ok l → contiguous l.2 → lc_evidence l tx1 = Some e1 → lc_evidence l tx2 = Some e2 →
  ev_tail e1 = true → ev_tail e2 = true → tx1 = tx2.
Proof.
  intros Hok Hct H1 H2 T1 T2. destruct (tail_run l tx1 e1 Hok Hct H1 T1) as (p1 & m1 & E1 & N1 & F1 & _).
  destruct (tail_run l tx2 e2 Hok Hct H2 T2) as (p2 & m2 & E2 & N2 & F2 & _).
  destruct (exists_last N1) as (m1' & x & ->). destruct (exists_last N2) as (m2' & y & ->).
  rewrite E1, !app_assoc in E2. apply app_inj_tail in E2 as [_ <-]. rewrite Forall_app in F1, F2. destruct F1 as [_ F1], F2 as [_ F2].
  apply Forall_cons in F1 as [<- _]. apply Forall_cons in F2 as [<- _]. done.
Qed.

(** ** Cutting *)

Definition cut_col (c : colDiscovery) (n : nat) : colDiscovery :=
  with_active c (with_size (with_disk (cd_active c) (take n (disk (cd_active c)))) n).

Definition cuttable (c : colDiscovery) (n : nat) : Prop :=
  sealed (cd_active c) = false ∧ poisoned (cd_active c) = false ∧ file (cd_active c) = HOpen ∧ n ≤ length (disk (cd_active c)).

Lemma rollback_quiet s n :
  sealed s = false → poisoned s = false → file s = HOpen → n ≤ length (disk s) →
  rollback s n [] = (with_size (with_disk s (take n (disk s))) n, [], Ok tt).
Proof.
  intros Hs Hp Hf Hn. unfold rollback, rollbackLocked. rewrite Hs, Hp. unfold file_truncate. rewrite Hf. cbn [next_fault f_ok].
  by rewrite truncate_bytes_le.
Qed.

Lemma cut_dead_spec runs cols :
  NoDup runs.*1 → (∀ name e, (name, e) ∈ runs → ev_tail e = true → ∃ c, cols !! name = Some c ∧ cuttable c (ev_start e)) →
  ∃ cols', cut_dead cols runs [] = (cols', []) ∧
    (∀ name, name ∉ runs.*1 → cols' !! name = cols !! name) ∧
    (∀ name e c, (name, e) ∈ runs → cols !! name = Some c → cols' !! name = Some (if ev_tail e then cut_col c (ev_start e) else c)).
Proof.
  unfold cut_dead. revert cols. induction runs as [|[name e] runs IH]; intros cols Hnd Hc.
  { exists cols. split_and!; [done|done|]. intros ? ? ? Hin. by apply elem_of_nil in Hin. }
  cbn [fmap list_fmap fst] in Hnd. apply NoDup_cons in Hnd as [Hn Hnd]. cbn [foldl].
  assert (Hstep : ∃ cols1, (if ev_tail e
      then match cols !! name with
           | Some c => let '(s, fs, _) := rollback (cd_active c) (ev_start e) [] in let '(fs, _) := Sync s fs in (<[name := with_active c s]> cols, fs)
           | None => (cols, [])
           end
      else (cols, [])) = (cols1, []) ∧ (∀ n, n ≠ name → cols1 !! n = cols !! n) ∧
      ∀ c, cols !! name = Some c → cols1 !! name = Some (if ev_tail e then cut_col c (ev_start e) else c)).
  { destruct (ev_tail e) eqn:Et; [|by exists cols; split_and!]. destruct (Hc name e) as (c & Hcn & Hs & Hp & Hf & Hle); [left|done|].
    rewrite Hcn, rollback_quiet by done. unfold Sync. cbn [with_size with_disk sealed file]. rewrite Hs, Hf. cbn [file_sync next_fault f_ok].
    eexists. split; [done|]. split; [intros n Hne; by rewrite lookup_insert_ne|]. intros c' [= <-]. by rewrite lookup_insert_eq. }
  destruct Hstep as (cols1 & Hs & Hoth & Hat).
  rewrite Hs. destruct (IH cols1 Hnd) as (cols' & Hr & Ho' & Ha').
  { intros n e' Hin Ht. destruct (Hc n e') as (c & Hcn & Hcut); [by right|done|]. exists c. rewrite Hoth; [done|].
    intros ->. apply Hn. by apply (list_elem_of_fmap_2 fst) in Hin. }
  exists cols'. split; [done|]. split.
  - intros n [Hne Hni]%not_elem_of_cons. by rewrite Ho', Hoth.
  - intros n e' c [[= -> ->]|Hin]%elem_of_cons Hcn.
    + rewrite Ho' by done. by apply Hat.
    + apply (Ha' n e' c Hin). rewrite Hoth; [done|]. intros ->. apply Hn. by apply (list_elem_of_fmap_2 fst) in Hin.
Qed.

(** An abort without failures: the transaction is aborted, or the id is none of
    this journal's and nothing happens. *)
Lemma abort_quiet j tx now :
  usable j = Ok tt → filed (table j) → byTx (table j) !! tx = None →
  ∃ j' w, abort j tx "" "recovery" now [] = (j', [], w) ∧ usable j' = Ok tt ∧ filed (table j') ∧
    (table j' = table j ∨ ∃ d, d_Outcome d = xtxKindAbort ∧ byTx (table j') = <[tx := d]> (byTx (table j))).
Proof.
  intros Hu Hf Hn. unfold abort. rewrite Hu. cbn [negb]. change (bool_decide ("recovery" ∈ xtxAbortReasons)) with true. cbn [negb].
  destruct (match parseTxID tx with Some (e, _) => bool_decide (e = h_Epoch (j_hdr j)) | None => false end); cbn [negb].
  2: { exists j, (Err JInvalid). split_and!; try done. by left. }
  rewrite Hn. set (r := set_r_why (newRecord xtxKindAbort tx "" now) "recovery").
  destruct (apply_fresh (table j) r Hn) as [t Ht]; [done|].
  destruct (apply_spec (table j) r t Hf Ht) as (d & Hby & [D1 D2 D3 D4 D5] & Hf' & _).
  unfold append_decision, appendLine, file_write. cbn [next_fault]. unfold syncLocked, file_sync. cbn [next_fault f_ok]. unfold installLocked.
  cbn [with_file table]. rewrite Ht. eexists _, _. split; [reflexivity|]. split_and!; [|done|].
  - revert Hu. unfold usable. cbn [with_table with_file j_closed j_poisoned]. done.
  - right. exists d. done.
Qed.

(** ** The truth table *)

Definition dead (t : xtxTable) (tx : string) : Prop := ∀ d, byTx t !! tx = Some d → d_Outcome d ≠ xtxKindCommit.

Record rinv (ls : list logged) (t0 : xtxTable) (done : list string) (st : rstate) : Prop := {
  ri_j : ∃ j, rs_j st = Some j ∧ usable j = Ok tt ∧ filed (table j) ∧
    (∀ tx, tx ∉ done → byTx (table j) !! tx = byTx t0 !! tx) ∧
    (∀ tx d, byTx t0 !! tx = Some d → byTx (table j) !! tx = Some d) ∧
    (∀ tx d, byTx (table j) !! tx = Some d → byTx t0 !! tx = None → d_Outcome d = xtxKindAbort);
  ri_cols : ∀ l, l ∈ ls → rs_cols st !! lc_name l = Some (lc_col l) ∨
    ∃ tx e, tx ∈ done ∧ dead t0 tx ∧ lc_evidence l tx = Some e ∧ ev_tail e = true ∧
      rs_cols st !! lc_name l = Some (cut_col (lc_col l) (ev_start e))
}.

(** The collections and their logs. *)
Definition logs_of (ls : list logged) : gmap string (list SalvagedEntry) := list_to_map (map (λ l, (lc_name l, lc_log l)) ls).

Lemma logs_of_Some ls name xs :
  NoDup (map lc_name ls) → logs_of ls !! name = Some xs ↔ ∃ l, l ∈ ls ∧ lc_name l = name ∧ lc_log l = xs.
Proof.
  intros Hnd. unfold logs_of. rewrite <- elem_of_list_to_map.
  - rewrite list_elem_of_fmap. split; [intros (l & [= -> ->] & Hl); eauto|intros (l & Hl & <- & <-); eauto].
  - by rewrite <- list_fmap_compose.
Qed.

Lemma commit_complete_ok ls t tx d :
  Forall lc_ok ls → NoDup (map lc_name ls) → coordinated t (logs_of ls) →
  tx ≠ "" → byTx t !! tx = Some d → d_Outcome d = xtxKindCommit → d_Retired d = false →
  commit_complete (list_to_set (map lc_name ls)) (runs_of (root_evidence ls ∅) tx) d = true.
Proof.
  intros Hok Hnd Hco Hne Hd Ho Hr. destruct (Hco tx d Hd Ho Hr) as [Hp Hf]. rewrite Forall_forall in Hok. unfold commit_complete.
  rewrite !andb_true_iff, !forallb_forall. split_and!.
  - intros p Hin%list_elem_of_In. apply bool_decide_eq_true. destruct (Hp p Hin) as (xs & Hx & _).
    apply logs_of_Some in Hx as (l & Hl & <- & _); [|done]. apply elem_of_list_to_set. by apply (list_elem_of_fmap_2 lc_name).
  - intros [name e] Hin%list_elem_of_In%elem_of_map_to_list. apply root_runs in Hin as (l & Hl & <- & He); [|done]. cbn [fst].
    destruct (Hf (lc_name l) (lc_log l)) as (p & Hin & Hpc); [apply logs_of_Some; eauto| |].
    + intros Hnone. apply lc_evidence_none in Hnone; [|by apply Hok|done]. congruence.
    + apply existsb_exists. exists p. split; [by apply list_elem_of_In|by apply bool_decide_eq_true].
  - intros p Hin%list_elem_of_In. destruct (Hp p Hin) as (xs & Hx & Hc). apply logs_of_Some in Hx as (l & Hl & Hn & <-); [|done].
    destruct (complete_evidence l tx p (Hok l Hl) Hne Hc) as (e & He & H1 & H2 & H3). unfold run_matches.
    assert (Hrun : runs_of (root_evidence ls ∅) tx !! p_C p = Some e) by (apply root_runs; eauto).
    rewrite Hrun, H1, H2, H3, N.eqb_refl. by rewrite bool_decide_true.
Qed.

Section Resolve.
Context (ls : list logged) (t0 : xtxTable) (now : time).
Hypothesis Hok : Forall lc_ok ls.
Hypothesis Hnames : NoDup (map lc_name ls).
Hypothesis Hct : ∀ l, l ∈ ls → contiguous l.2.
Hypothesis Hco : coordinated t0 (logs_of ls).
Hypothesis Hstamp : byTx t0 !! "" = None.

Notation ev := (root_evidence ls ∅).

Lemma still_whole done st tx l e :
  rinv ls t0 done st → tx ∉ done → l ∈ ls → lc_evidence l tx = Some e → ev_tail e = true → rs_cols st !! lc_name l = Some (lc_col l).
Proof.
  intros [_ Hc] Hn Hl He Ht. destruct (Hc l Hl) as [H|(tx' & e' & Hd & _ & He' & Ht' & _)]; [done|]. exfalso. apply Hn.
  assert (Hlok : lc_ok l) by (rewrite Forall_forall in Hok; by apply Hok).
  by rewrite (tail_unique l tx tx' e e' Hlok (Hct l Hl) He He' Ht Ht').
Qed.

Lemma cut_rinv done st tx :
  rinv ls t0 done st → tx ∉ done → dead t0 tx →
  ∃ cols', cut_dead (rs_cols st) (map_to_list (runs_of ev tx)) [] = (cols', []) ∧
    ∀ l, l ∈ ls → cols' !! lc_name l = Some (lc_col l) ∨
      ∃ tx' e, tx' ∈ tx :: done ∧ dead t0 tx' ∧ lc_evidence l tx' = Some e ∧ ev_tail e = true ∧
        cols' !! lc_name l = Some (cut_col (lc_col l) (ev_start e)).
Proof.
  intros Hi Hn Hdead. pose proof Hok as Hok'. rewrite Forall_forall in Hok'.
  destruct (cut_dead_spec (map_to_list (runs_of ev tx)) (rs_cols st)) as (cols' & Hcut & Hoth & Hat).
  - apply NoDup_fst_map_to_list.
  - intros name e Hin%elem_of_map_to_list Ht. apply root_runs in Hin as (l & Hl & <- & He); [|done]. exists (lc_col l).
    split; [by apply (still_whole done st tx l e)|]. destruct (tail_run l tx e (Hok' l Hl) (Hct l Hl) He Ht) as (_ & _ & _ & _ & _ & Hle & _).
    destruct (Hok' l Hl) as [_ _ _ (H1 & H2 & H3)]. by split_and!.
  - exists cols'. split; [done|]. intros l Hl. destruct (lc_evidence l tx) as [e|] eqn:He.
    + assert (Hin : (lc_name l, e) ∈ map_to_list (runs_of ev tx)) by (apply elem_of_map_to_list, root_runs; eauto).
      destruct (ev_tail e) eqn:Ht.
      * right. exists tx, e. split_and!; [left|done|done|done|]. rewrite (Hat _ _ (lc_col l) Hin); [by rewrite Ht|by apply (still_whole done st tx l e)].
      * destruct Hi as [_ Hc]. destruct (Hc l Hl) as [H|(tx' & e' & Hd & Hde & He' & Ht' & H)].
        -- left. by rewrite (Hat _ _ _ Hin H), Ht.
        -- right. exists tx', e'. split_and!; [by right|done..|]. by rewrite (Hat _ _ _ Hin H), Ht.
    + assert (Hni : lc_name l ∉ (map_to_list (runs_of ev tx)).*1).
      { intros Hm. apply list_elem_of_fmap in Hm as ([n e] & Hname & Hin). cbn in Hname. subst n. apply elem_of_map_to_list, root_runs in Hin as (l' & Hl' & Hn' & He'); [|done].
        assert (l' = l) as ->; [|congruence]. clear -Hnames Hl Hl' Hn'. apply list_elem_of_lookup in Hl as [i Hi], Hl' as [k Hk].
        assert (i = k) as ->; [|congruence]. eapply NoDup_lookup; [exact Hnames|by rewrite list_lookup_fmap, Hi|by rewrite list_lookup_fmap, Hk; cbn; rewrite Hn']. }
      rewrite (Hoth _ Hni). destruct Hi as [_ Hc]. destruct (Hc l Hl) as [H|(tx' & e' & Hd & H)]; [by left|]. right. exists tx', e'. split; [by right|done].
Qed.

Lemma rinv_more done st tx : rinv ls t0 done st → rinv ls t0 (tx :: done) st.
Proof.
  intros [(j & H1 & H2 & H3 & H4 & H5 & H6) Hc]. split.
  - exists j. split_and!; try done. intros tx' [_ Hn]%not_elem_of_cons. by apply H4.
  - intros l Hl. destruct (Hc l Hl) as [H|(tx' & e & Hd & H)]; [by left|]. right. exists tx', e. split; [by right|done].
Qed.

Lemma resolve_one_ok done st tx :
  rinv ls t0 done st → tx ∉ done →
  ∃ st', resolve_one (list_to_set (map lc_name ls)) ev now st tx [] = (st', [], Ok tt) ∧ rinv ls t0 (tx :: done) st'.
Proof.
  intros Hi Hn. pose proof Hi as [(j & Hj & Hu & Hf & Hnd & Hkeep & Hnew) Hc]. unfold resolve_one. rewrite Hj. cbn [mbind option_bind].
  unfold decision. rewrite (Hnd tx Hn). destruct (byTx t0 !! tx) as [d|] eqn:Ed.
  - case_decide as Ho.
    + destruct (d_Retired d) eqn:Er; [exists st; split; [done|by apply rinv_more]|].
      rewrite (commit_complete_ok ls t0 tx d) by (done || congruence). eexists. split; [done|].
      destruct (rinv_more done st tx Hi) as [Hj' Hc']. split; [|done]. cbn [rs_j]. rewrite <- Hj. done.
    + case_decide as Ha; [|exists st; split; [done|by apply rinv_more]].
      destruct (d_Retired d) eqn:Er; [exists st; split; [done|by apply rinv_more]|].
      destruct (cut_rinv done st tx Hi Hn) as (cols' & Hcut & Hcols); [unfold dead; congruence|].
      rewrite Hcut. eexists. split; [done|]. destruct (rinv_more done st tx Hi) as [Hj' _]. split; [|done]. cbn [rs_j]. rewrite <- Hj. done.
  - case_decide as Hr; [exists st; split; [done|by apply rinv_more]|].
    destruct (cut_rinv done st tx Hi Hn) as (cols' & Hcut & Hcols); [unfold dead; congruence|]. rewrite Hcut.
    assert (Hnone : byTx (table j) !! tx = None) by (by rewrite (Hnd tx Hn)).
    destruct (abort_quiet j tx now Hu Hf Hnone) as (j' & w & Hab & Hu' & Hf' & Ht'). rewrite Hab. eexists. split; [done|]. split; [|done]. cbn [rs_j].
    exists j'. destruct Ht' as [Ht'|(d & Hout & Hby)].
    + rewrite Ht'. split_and!; try done. intros tx' [_ Hn']%not_elem_of_cons. by apply Hnd.
    + split_and!; try done.
      * intros tx' [Hne Hn']%not_elem_of_cons. rewrite Hby, lookup_insert_ne by done. by apply Hnd.
      * intros tx' d' Hd'. rewrite Hby, lookup_insert_ne; [by apply Hkeep|congruence].
      * intros tx' d'. rewrite Hby. destruct (decide (tx' = tx)) as [->|Hne]; [rewrite lookup_insert_eq; by intros [= <-] _|].
        rewrite lookup_insert_ne by done. apply Hnew.
Qed.

Lemma resolve_ok txs done st :
  rinv ls t0 done st → NoDup (txs ++ done) →
  ∃ st', resolve (list_to_set (map lc_name ls)) ev now st txs [] = (st', [], Ok tt) ∧ rinv ls t0 (rev txs ++ done) st'.
Proof.
  revert done st. induction txs as [|tx txs IH]; intros done st Hi Hnd; [by exists st|]. cbn [app] in Hnd. apply NoDup_cons in Hnd as [Hn Hnd].
  destruct (resolve_one_ok done st tx Hi) as (st1 & H1 & Hi1); [intros H; apply Hn, elem_of_app; by right|].
  cbn [resolve]. rewrite H1. destruct (IH (tx :: done) st1 Hi1) as (st2 & H2 & Hi2).
  - rewrite <- Permutation_middle. by apply NoDup_cons.
  - exists st2. split; [done|]. cbn [rev]. by rewrite <- app_assoc.
Qed.

End Resolve.
