(* ===== verification/XTxRecover.v ===== *)
(** * Recovery of cross-collection transactions: its theorem *)
From Stdlib Require Import Ascii Lia ZArith.
From stdpp Require Import prelude gmap strings sorting.
From S2P Require Import Prelude GoNum Json Value GoTime Store Wire Codec Segment Index Sha256 Journal JournalThm JournalInv JournalSafe Salvage Names XTx XTxInv.

(** ** The journal recovery opens *)

Lemma open_facts fb epoch now fs fb' fs' j :
  openXTxJournal fb epoch now fs = (fb', fs', Ok j) → usable j = Ok tt ∧ filed (table j) ∧ byTx (table j) !! "" = None ∧
    ∀ tx d, byTx (table j) !! tx = Some d → d_Outcome d = xtxKindCommit ∨ d_Outcome d = xtxKindAbort.
Proof.
  unfold openXTxJournal. destruct (parseXTxJournal fb) as [[p|]|] eqn:Ep; [| |done].
  - destruct (parse_good _ _ Ep) as (_ & Hg & Ha & _). intros Ho.
    assert (Hj : ∃ d, j = open_parsed d p).
    { destruct (next_fault fs) as [f1 fs1]. destruct (f_ok f1); cbn [negb] in Ho; [|done]. destruct (ps_Torn p); [|injection Ho as _ _ <-; eauto].
      destruct (file_truncate HOpen fb (ps_ValidLen p) fs1) as [[tok d] fs2]. destruct tok; cbn [negb] in Ho; [|done].
      destruct (file_sync HOpen fs2) as [sok fs3]. destruct sok; cbn [negb] in Ho; [|done]. injection Ho as _ _ <-. eauto. }
    destruct Hj as [d ->]. cbn [open_parsed table]. split_and!; [done|by eapply apply_all_filed; [apply filed_new|]| |].
    2: { intros tx d0 Hd0. eapply (apply_all_dec_ok _ _ newXTxTable); [apply filed_new|exact Hg|exact Ha|apply map_Forall_empty|exact Hd0]. }
    destruct (byTx (ps_Table p) !! "") as [d0|] eqn:E; [|done]. exfalso.
    destruct (apply_all_below _ _ newXTxTable _ filed_new Ha Hg) with (tx := "") (d := d0) as (s & Hp & _); [|done|done].
    intros tx0 d1. cbn. by rewrite lookup_empty.
  - destruct (createXTxJournal epoch now fs) as [[f1 fs1] r] eqn:Ec. intros [= _ _ ->]. unfold createXTxJournal in Ec. cbn zeta in Ec.
    remember (MkHeader xtxJournalMagic xtxJournalVersion epoch 0 (s_of_b (fmt_time now)) None) as hdr eqn:Hhdr.
    remember (encodeXTxHeader hdr) as line eqn:Hline.
    destruct (writeJournalAtomic line fs) as [[ren ok] fs2]. destruct ok; cbn [negb] in Ec; [|done].
    destruct (next_fault fs2) as [f3 fs3]. destruct (f_ok f3); cbn [negb] in Ec; [|done]. injection Ec as _ _ <-.
    split_and!; [done|apply filed_new|done|]. intros tx d. cbn [table newXTxTable byTx]. by rewrite lookup_empty.
Qed.

(** Raising the sequence numbers changes no decision. *)
Lemma observe_all_table ev j : table (observe_all ev j) = table j ∧ usable (observe_all ev j) = usable j.
Proof.
  unfold observe_all. apply (map_fold_weak_ind (λ j' _, table j' = table j ∧ usable j' = usable j)); [done|].
  intros tx r m j' _ [H1 H2]. destruct (parseTxID tx) as [[e s]|]; [|done]. unfold observeSeq. destruct (_ <=? _)%Z; [|done].
  cbn [with_seq table]. split; [done|]. revert H2. unfold usable. done.
Qed.

(** ** The theorem *)

(** A directory with the logs of its segments. *)
Definition logged_dir : Type := rootEntry * list (list SalvagedEntry) * list SalvagedEntry.
Definition ld_entry (x : logged_dir) : rootEntry := x.1.1.
Definition ld_name (x : logged_dir) : string := re_name x.1.1.
Definition ld_log (x : logged_dir) : list SalvagedEntry := concat x.1.2 ++ x.2.
Definition ld_ok (x : logged_dir) : Prop := dir_ok x.1.1 x.1.2 x.2.

Definition dir_logs (R : list logged_dir) : gmap string (list SalvagedEntry) := list_to_map (map (λ x, (ld_name x, ld_log x)) R).

(** A root on which recovery succeeds: the lines of its files are whole but for a
    torn last one, the lines of a transaction stand together in the active
    segments, and the committed transactions have their runs. *)
Record root_ok (t : xtxTable) (R : list logged_dir) : Prop := {
  ro_dirs : Forall ld_ok R;
  ro_names : NoDup (map ld_name R);
  ro_runs : ∀ x, x ∈ R → contiguous x.2;
  ro_coord : coordinated t (dir_logs R)
}.

Lemma open_logged R :
  Forall ld_ok R →
  ∃ ls, open_cols (map ld_entry R) [] = ([], Ok (map lc_col ls)) ∧ Forall lc_ok ls ∧
    Forall2 (λ x l, lc_name l = ld_name x ∧ l.1.2 = x.1.2 ∧ l.2 = x.2) R ls.
Proof.
  induction 1 as [|[[e sx] ax] R Hx _ (ls & Ho & Hok & Hf)]; [by exists []; split_and!|].
  destruct (open_col_quiet e sx ax Hx) as (c & Hc & Hn & Hcok). exists ((c, sx, ax) :: ls). cbn [map open_cols]. unfold ld_entry at 1. cbn [fst].
  rewrite Hc, Ho. cbn [res_bind]. split_and!; [done|by constructor|]. constructor; [|done]. done.
Qed.

Lemma contiguous_tail_invisible (ds : decisions) tx xs :
  (∀ v, ds !! tx = Some v → v ≠ xtxKindCommit ∧ v ≠ "retire-commit") → tx ≠ "" → Forall (λ x, stamp_tx x = tx) xs → visible (Some ds) xs = [].
Proof.
  intros Hd Hne H. unfold visible. apply filter_none. eapply Forall_impl; [exact H|]. intros x Hx. unfold stamp_tx in Hx. destruct (sv_Tx x) as [st|]; [|congruence].
  cbn [entryVisible]. rewrite decide_False by congruence. rewrite Hx. destruct (ds !! tx) as [v|] eqn:E; cbn [default from_option id].
  - destruct (Hd v eq_refl) as [H1 H2]. rewrite bool_decide_false; [done|]. tauto.
  - rewrite bool_decide_false; [done|]. by intros [?|?].
Qed.

(** Whether the readers see a transaction, from its decision. *)
Lemma text_visible d :
  (d_Outcome d = xtxKindCommit ∨ d_Outcome d = xtxKindAbort) →
  (dec_text d = xtxKindCommit ∨ dec_text d = "retire-commit") ↔ d_Outcome d = xtxKindCommit.
Proof.
  unfold dec_text. intros [H|H]; rewrite H; destruct (d_Retired d); split; try done; try (by left); try (by right); by intros [?|?].
Qed.

Lemma dm_lookup t tx : (dec_text <$> byTx t : decisions) !! tx = dec_text <$> byTx t !! tx.
Proof. apply lookup_fmap. Qed.

(** Two tables that agree but for aborted transactions show the same entries. *)
Lemma visible_agree (t t' : xtxTable) xs :
  (∀ tx d, byTx t !! tx = Some d → byTx t' !! tx = Some d) →
  (∀ tx d, byTx t' !! tx = Some d → byTx t !! tx = None → d_Outcome d = xtxKindAbort) →
  visible (Some (dec_text <$> byTx t')) xs = visible (Some (dec_text <$> byTx t)) xs.
Proof.
  intros H1 H2. unfold visible. apply list_filter_iff. intros x. destruct (sv_Tx x) as [st|]; [|done]. cbn [entryVisible]. case_decide; [done|].
  rewrite !dm_lookup. destruct (byTx t !! st_t st) as [d|] eqn:E.
  - by rewrite (H1 _ _ E).
  - destruct (byTx t' !! st_t st) as [d|] eqn:E'; [|done]. cbn [fmap option_fmap option_map default from_option id].
    pose proof (H2 _ _ E' E) as Ho. rewrite !bool_decide_eq_true. rewrite text_visible by (by right). rewrite Ho. split; [done|]. by intros [?|?].
Qed.

Lemma healthy_not_lost (j : xtxJournal) (b : bool) :
  (if b then match Some j, xtxJournalHealthy with
             | None, _ | _, xtxJournalMissingBeforeOpen => Some XJournalMissing
             | _, xtxJournalDestructiveLoss => Some XRecoveryRequired
             | _, _ => None
             end else None) = None.
Proof. by destruct b. Qed.

Lemma map_ld_names R ls : Forall2 (λ x l, lc_name l = ld_name x ∧ l.1.2 = x.1.2 ∧ l.2 = x.2) R ls → map lc_name ls = map ld_name R.
Proof. induction 1 as [|x l R ls [Hn _] _ IH]; [done|]. cbn [map]. by rewrite Hn, IH. Qed.

Lemma logs_agree R ls : Forall2 (λ x l, lc_name l = ld_name x ∧ l.1.2 = x.1.2 ∧ l.2 = x.2) R ls → logs_of ls = dir_logs R.
Proof.
  unfold logs_of, dir_logs. intros H. f_equal. induction H as [|x l R ls (Hn & H1 & H2) _ IH]; [done|]. cbn [map]. rewrite Hn, IH.
  unfold lc_log, ld_log. by rewrite H1, H2.
Qed.

Lemma dir_logs_perm R R' : NoDup (map ld_name R) → R ≡ₚ R' → dir_logs R = dir_logs R'.
Proof.
  intros Hnd Hp. unfold dir_logs. apply list_to_map_proper; [by rewrite <- list_fmap_compose|]. by rewrite Hp.
Qed.

Lemma all_txids_NoDup j ev : NoDup (all_txids j ev).
Proof. unfold all_txids. rewrite ssort_perm. apply NoDup_elements. Qed.

(** Recovery on such a root. *)
Lemma recover_ok fb epoch now fb' j R :
  openXTxJournal fb epoch now [] = (fb', [], Ok j) → classifyXTxJournalBeforeOpen (Some fb) = xtxJournalHealthy → root_ok (table j) R →
  ∃ r jf, recoverCoordinator true (Some fb) (map ld_entry R) epoch now [] = ([], Ok r) ∧
    rec_journal r = Some jf ∧ rec_decisions r = Some (decisionsMap jf) ∧ usable jf = Ok tt ∧
    (∀ tx d, decision j tx = Some d → decision jf tx = Some d) ∧
    (∀ tx d, decision jf tx = Some d → decision j tx = None → d_Outcome d = xtxKindAbort) ∧
    ∀ x, x ∈ R → ∃ c ax, rec_cols r !! ld_name x = Some c ∧ col_ok c x.1.2 ax ∧ ax `prefix_of` x.2 ∧
      visible (rec_decisions r) (concat x.1.2 ++ ax) = visible (Some (decisionsMap j)) (ld_log x).
Proof.
  intros Ho Hh [Rd Rn Rr Rc]. destruct (open_facts _ _ _ _ _ _ _ Ho) as (Hu & Hf & Hemp & Hout).
  set (R' := ssort (λ x y, entry_ltb (ld_entry x) (ld_entry y)) R). assert (HP : R' ≡ₚ R) by apply ssort_perm.
  assert (Rd' : Forall ld_ok R') by (by rewrite HP). assert (Rn' : NoDup (map ld_name R')) by (by rewrite HP).
  destruct (open_logged R' Rd') as (ls & Hol & Hls & HR).
  pose proof (map_ld_names _ _ HR) as Hnm.
  assert (Hnd : NoDup (map lc_name ls)) by (by rewrite Hnm).
  assert (Hct : ∀ l, l ∈ ls → contiguous l.2).
  { intros l Hl. apply list_elem_of_lookup in Hl as [i Hi]. destruct (Forall2_lookup_r _ _ _ _ _ HR Hi) as (x & Hx & _ & _ & ->). apply Rr.
    rewrite <- HP. by eapply list_elem_of_lookup_2. }
  assert (Hco : coordinated (table j) (logs_of ls)) by (by rewrite (logs_agree _ _ HR), (dir_logs_perm R' R)).
  set (ev := root_evidence ls ∅). destruct (observe_all_table ev j) as [Htab Hus].
  assert (Hinit : rinv ls (table j) [] (MkRS (Some (observe_all ev j)) (list_to_map (map (λ c, (cd_name c, c)) (map lc_col ls))) 0 0)).
  { split; cbn [rs_j rs_cols].
    - exists (observe_all ev j). rewrite Htab, Hus. split_and!; try done. intros tx d H1 H2. congruence.
    - intros l Hl. left. apply elem_of_list_to_map_1.
      + rewrite map_map. rewrite <- list_fmap_compose. exact Hnd.
      + rewrite map_map. by apply (list_elem_of_fmap_2 (λ l, (cd_name (lc_col l), lc_col l))). }
  destruct (resolve_ok ls (table j) now Hls Hnd Hct Hco Hemp (all_txids (Some (observe_all ev j)) ev) [] _ Hinit) as (st & Hres & [Hj Hcols]).
  { rewrite app_nil_r. apply all_txids_NoDup. }
  destruct Hj as (jf & Hjf & Huf & _ & _ & Hkeep & Hnew).
  eexists _, jf. split.
  { unfold recoverCoordinator, gateXTxRoot. rewrite Hh. cbn [next_fault f_ok negb]. rewrite Ho. cbn [next_fault f_ok negb].
    rewrite discover_quiet by (apply Forall_fmap; eapply Forall_impl; [exact Rd|]; intros [[e sx] ax] Hx; by exists sx, ax).
    rewrite ssort_map. fold R'. rewrite Hol, (collect_quiet ls ∅ false Hls). rewrite (healthy_not_lost j). cbn [fmap option_fmap option_map]. fold ev.
    change (map cd_name (map lc_col ls)) with (map cd_name (map lc_col ls)). rewrite (map_map lc_col cd_name). fold (map lc_name ls).
    change (map (λ x, cd_name (lc_col x)) ls) with (map lc_name ls). unfold ev in *. rewrite Hres. reflexivity. }
  cbn [rec_journal rec_decisions rec_cols]. rewrite Hjf. split; [done|]. split; [done|]. split; [done|]. split; [exact Hkeep|]. split; [exact Hnew|].
  intros x Hx. rewrite <- HP in Hx. apply list_elem_of_lookup in Hx as [i Hi]. destruct (Forall2_lookup_l _ _ _ _ _ HR Hi) as (l & Hl & Hln & Hl1 & Hl2).
  apply list_elem_of_lookup_2 in Hl. assert (Hlok : lc_ok l) by (rewrite Forall_forall in Hls; by apply Hls).
  assert (Hvis : ∀ xs, visible (Some (decisionsMap jf)) xs = visible (Some (decisionsMap j)) xs) by (intros xs; by apply visible_agree).
  unfold ld_log. rewrite <- Hl1, <- Hl2, <- Hln.
  destruct (Hcols l Hl) as [Hc|(tx & e & _ & Hdead & He & Ht & Hc)].
  - exists (lc_col l), l.2. split_and!; [done|done|done|]. apply Hvis.
  - destruct (tail_run l tx e Hlok (Hct l Hl) He Ht) as (pre & mid & Hax & Hne & Hmid & Hle & Htd). exists (cut_col (lc_col l) (ev_start e)), pre.
    split_and!; [done| |rewrite Hax; by apply prefix_app_r|].
    + destruct Hlok as [K1 K2 K3 (K4 & K5 & K6)]. split; [done|done| |done]. cbn [cut_col with_active cd_active with_size with_disk size disk].
      rewrite length_take. unfold lc_col in *. lia.
    + rewrite Hvis, Hax, app_assoc. unfold visible. rewrite (filter_app _ (_ ++ pre)). fold (visible (Some (decisionsMap j)) mid).
      rewrite (contiguous_tail_invisible (decisionsMap j) tx mid); [by rewrite app_nil_r| |by intros ->; rewrite lc_evidence_empty in He|done].
      intros v Hv. unfold decisionsMap in Hv. rewrite dm_lookup in Hv. destruct (byTx (table j) !! tx) as [d|] eqn:Ed; [|done].
      injection Hv as <-. pose proof (Hdead d Ed) as Hno. pose proof (text_visible d (Hout tx d Ed)). tauto.
Qed.

(** Claim C15: recovery resolves every transaction.  Given a healthy journal and a
    root in which the committed transactions have their runs, whatever else the
    active segments hold (undecided or aborted runs, a torn last line), recovery
    succeeds and no longer refuses the database: every decision of the journal is
    kept, the decisions it adds are aborts, and it may cut dead runs off the active
    segments, but what the readers of each collection see is exactly what the
    journal it found made visible. *)
Theorem recovery_resolves fb epoch now fb' j R :
  openXTxJournal fb epoch now [] = (fb', [], Ok j) → classifyXTxJournalBeforeOpen (Some fb) = xtxJournalHealthy → root_ok (table j) R →
  ∃ r jf, recoverCoordinator true (Some fb) (map ld_entry R) epoch now [] = ([], Ok r) ∧
    rec_journal r = Some jf ∧ rec_decisions r = Some (decisionsMap jf) ∧ usable jf = Ok tt ∧
    (∀ tx d, decision j tx = Some d → decision jf tx = Some d) ∧
    (∀ tx d, decision jf tx = Some d → decision j tx = None → d_Outcome d = xtxKindAbort) ∧
    ∀ x, x ∈ R → ∃ c ax, rec_cols r !! ld_name x = Some c ∧ col_ok c x.1.2 ax ∧ ax `prefix_of` x.2 ∧
      visible (rec_decisions r) (concat x.1.2 ++ ax) = visible (Some (decisionsMap j)) (ld_log x).
Proof. exact (recover_ok fb epoch now fb' j R). Qed.
