(* ===== verification/XTxPrep.v ===== *)
(** * Preparing a cross-collection transaction: the participants' files *)
From Stdlib Require Import Ascii Lia ZArith.
From stdpp Require Import prelude gmap strings sorting.
From S2P Require Import Prelude GoNum Json Value GoTime Store Wire Codec Segment Index Sha256 Journal Salvage XTx XTxInv.

(** The active segment of a participant: the entries [sx] lie in the part that
    has been forced to disk, the entries [ux] may not; a poisoned segment may end
    in a torn line. *)
Record act (f : xfile) (sx ux : list SalvagedEntry) : Prop := {
  at_file : ∃ d1 d2 torn, disk (xf_seg f) = d1 ++ d2 ++ torn ∧ tidy d1 0 sx ∧ tidy d2 (length d1) ux ∧ newline ∉ torn ∧
    length d1 ≤ xf_synced f ∧ (poisoned (xf_seg f) = false → torn = []);
  at_synced : xf_synced f ≤ length (disk (xf_seg f));
  at_size : poisoned (xf_seg f) = false → size (xf_seg f) = length (disk (xf_seg f));
  at_open : sealed (xf_seg f) = false ∧ file (xf_seg f) = HOpen
}.

(** What a crash leaves: at least the entries below the synced length. *)
Lemma act_crash f sx ux k :
  act f sx ux → xf_synced f ≤ k →
  ∃ d torn ys, take k (disk (xf_seg f)) = d ++ torn ∧ newline ∉ torn ∧ tidy d 0 (sx ++ ys) ∧ ys `prefix_of` ux.
Proof.
  intros [(d1 & d2 & torn & Hd & H1 & H2 & Ht & Hs & _) _ _ _] Hk. rewrite Hd, take_app_ge by lia.
  destruct (decide (k - length d1 ≤ length d2)) as [Hle|Hgt].
  - rewrite take_app_le by done. destruct (tidy_take d2 (length d1) ux (k - length d1) H2) as (d3 & t3 & ys & zs & E3 & Hn3 & H3 & ->).
    exists (d1 ++ d3), t3, ys. rewrite E3, app_assoc. split_and!; [done|done|by apply tidy_app|by apply prefix_app_r].
  - rewrite take_app_ge by lia. exists (d1 ++ d2), (take (k - length d1 - length d2) torn), ux.
    rewrite app_assoc. split_and!; [done|by apply no_newline_take|by apply tidy_app|done].
Qed.

(** One line of the run. *)
Definition payload (x : SalvagedEntry) : Entry * option TxStamp := (sv_Entry x, sv_Tx x).

Record entry_good (e : stampedEntry) : Prop := {
  eg_readable : stamped_readable e;
  eg_op : validSegmentOp (S_Op e) = true
}.

Lemma decoded_op e : Op (lc_decoded e).1 = S_Op e.
Proof. done. Qed.

(** The bytes of a good line. *)
Lemma stamped_tidy e b off :
  entry_good e → encodeStamped e = Ok b → (Z.of_nat (length b) ≤ maxScanTokenSize)%Z →
  ∃ x, tidy b off [x] ∧ payload x = lc_decoded e.
Proof.
  intros [Hr Ho] He Hl. destruct (stamped_line_good e b Hr He) as (l & -> & Hg). rewrite length_app in Hl. cbn [length] in Hl.
  eexists. split; [apply tidy_cons; [exact Hg|lia|apply Hg|done|apply tidy_nil]|]. done.
Qed.

Definition tx_of (e : stampedEntry) : string := st_t (S_Tx e).

Lemma payload_stamp x e : payload x = lc_decoded e → sv_Tx x = Some (S_Tx e) ∧ stamp_tx x = tx_of e.
Proof. intros H. injection H as _ H. unfold stamp_tx. by rewrite H. Qed.

(** An append of a stamped entry: the entry is there; or nothing is, unless the
    segment was poisoned. *)
Lemma append_act f sx ux e fs s fs' w :
  act f sx ux → entry_good e → AppendStamped (xf_seg f) e fs = (s, fs', w) →
  ∃ ext, act (MkXFile s (xf_synced f)) sx (ux ++ ext) ∧ Forall (λ x, payload x = lc_decoded e) ext ∧ length ext ≤ 1 ∧ path s = path (xf_seg f) ∧
    (is_ok w = true → length ext = 1 ∧ poisoned s = false).
Proof.
  intros Hact Hg Ha. pose proof Hact as [(d1 & d2 & torn & Hd & H1 & H2 & Ht & Hs & Hpt) Hsy Hsz [Hse Hop]].
  unfold AppendStamped, append_entry in Ha. cbn [lc_encode stamped_codec] in Ha.
  assert (Hsame : act (MkXFile (xf_seg f) (xf_synced f)) sx ux) by (by destruct f).
  rewrite Hse in Ha.
  destruct (encodeStamped e) as [b|] eqn:Eb; [|injection Ha as <- <- <-; exists []; rewrite app_nil_r; split_and!; done || cbn; lia].
  destruct (Z.ltb_spec maxScanTokenSize (Z.of_nat (length b))) as [Hl|Hl]; [injection Ha as <- <- <-; exists []; rewrite app_nil_r; split_and!; done || cbn; lia|].
  destruct (poisoned (xf_seg f)) eqn:Ep; [injection Ha as <- <- <-; exists []; rewrite app_nil_r; split_and!; done || cbn; lia|].
  specialize (Hpt eq_refl). specialize (Hsz eq_refl). subst torn. rewrite app_nil_r in Hd.
  destruct (stamped_tidy e b (length d1 + length d2) Hg Eb Hl) as (x & Hx & Hpx).
  assert (Hgrow : ∀ s2, disk s2 = disk (xf_seg f) ++ b → (poisoned s2 = false → size s2 = length (disk s2)) →
    sealed s2 = false → file s2 = HOpen → act (MkXFile s2 (xf_synced f)) sx (ux ++ [x])).
  { intros s2 Hd2 Hsz2 Hse2 Hop2. split; cbn [xf_seg xf_synced]; [|rewrite Hd2, length_app; lia|done|done]. exists d1, (d2 ++ b), []. rewrite app_nil_r.
    split_and!; [by rewrite Hd2, Hd, app_assoc|done|by apply tidy_app|apply not_elem_of_nil| |done].
    rewrite Hd2, Hd, !length_app in *. lia. }
  rewrite Hop in Ha. cbn [file_write] in Ha. destruct (next_fault fs) as [[|k] fs1].
  { injection Ha as <- <- <-. exists [x]. split_and!; [|by repeat constructor|done|done|done].
    apply Hgrow; cbn [with_size with_disk disk size]; [done|rewrite length_app; lia|done|done]. }
  unfold rollbackLocked in Ha. cbn [with_disk poisoned file disk] in Ha. rewrite Ep, Hop in Ha. cbn [file_truncate] in Ha.
  destruct (next_fault fs1) as [f2 fs2]. destruct (f_ok f2); injection Ha as <- <- <-.
  - exists []. rewrite app_nil_r. split_and!; [|done|cbn; lia|done|done].
    assert (Ht2 : truncate_bytes (disk (xf_seg f) ++ take k b) (size (xf_seg f)) = disk (xf_seg f))
      by (rewrite truncate_bytes_le by (rewrite length_app; lia); rewrite Hsz; apply take_app_length).
    rewrite Ht2. split; cbn [with_size with_disk xf_seg xf_synced disk size]; [|lia|done|done].
    exists d1, d2, []. rewrite app_nil_r. split_and!; [done|done|done|done| |done]. rewrite Hd, length_app in *. lia.
  - destruct (decide (length b ≤ k)) as [Hk|Hk].
    + exists [x]. split_and!; [|by repeat constructor|done|done|done]. apply Hgrow; [|done|done|done].
      cbn [with_poison with_disk disk]. by rewrite take_ge.
    + exists []. rewrite app_nil_r. split_and!; [|done|cbn; lia|done|done].
      split; cbn [xf_seg xf_synced with_poison with_disk disk poisoned]; [|rewrite length_app; lia|done|done].
      exists d1, d2, (take k b). split_and!; [by rewrite Hd, <- app_assoc|done|done| | |done].
      * destruct (stamped_line_good e b (eg_readable _ Hg) Eb) as (l & -> & Hgl). rewrite length_app in Hk. cbn [length] in Hk.
        rewrite take_app_le by lia. apply no_newline_take, (gl_no_newline _ _ Hgl).
      * rewrite Hd, !length_app in *. lia.
Qed.

Lemma xf_with_synced f s sx ux : act (MkXFile s (xf_synced f)) sx ux → xf_with f s = MkXFile s (xf_synced f).
Proof. intros [_ Hsy _ _]. cbn [xf_seg xf_synced] in Hsy. unfold xf_with. by rewrite Nat.min_l. Qed.

(** The payloads of a run from its [k]-th entry on. *)
Definition stamped_at (txid : string) (n : N) (k : nat) (e : stampedEntry) : stampedEntry := set_stamp e (MkStamp txid (u32n k) n).

Fixpoint run_payloads (txid : string) (n : N) (k : nat) (es : list stampedEntry) : list (Entry * option TxStamp) :=
  match es with
  | [] => []
  | e :: es' => lc_decoded (stamped_at txid n k e) :: run_payloads txid n (S k) es'
  end.

Fixpoint entries_good (txid : string) (n : N) (k : nat) (es : list stampedEntry) : Prop :=
  match es with
  | [] => True
  | e :: es' => entry_good (stamped_at txid n k e) ∧ entries_good txid n (S k) es'
  end.

Lemma append_run_act txid n es : ∀ f k sx ux fs s fs' w,
  act f sx ux → entries_good txid n k es → append_run (xf_seg f) txid n k es fs = (s, fs', w) →
  ∃ ext, act (MkXFile s (xf_synced f)) sx (ux ++ ext) ∧ map payload ext `prefix_of` run_payloads txid n k es ∧ path s = path (xf_seg f) ∧
    (is_ok w = true → map payload ext = run_payloads txid n k es ∧ (es ≠ [] → poisoned s = false)).
Proof.
  induction es as [|e es IH]; intros f k sx ux fs s fs' w Hact Hg; cbn [append_run].
  { intros [= <- <- <-]. exists []. rewrite app_nil_r. destruct f as [s0 sy]. cbn [xf_seg xf_synced]. done. }
  destruct Hg as [Hg Hgs]. destruct (AppendStamped (xf_seg f) _ fs) as [[s1 fs1] w1] eqn:E1.
  destruct (append_act f sx ux _ fs s1 fs1 w1 Hact Hg E1) as (ext1 & Hact1 & Hext1 & Hle1 & Hp1 & Hok1).
  destruct w1 as [o|err].
  - destruct (Hok1 eq_refl) as [Hl Hp]. destruct ext1 as [|x [|? ?]]; try done. apply Forall_cons in Hext1 as [Hx _].
    destruct (append_run s1 txid n (S k) es fs1) as [[s2 fs2] w2] eqn:E2.
    destruct (IH (MkXFile s1 (xf_synced f)) (S k) sx (ux ++ [x]) fs1 s2 fs2 w2 Hact1 Hgs E2) as (ext2 & Hact2 & Hpx & Hp2 & Hok2).
    rewrite <- app_assoc in Hact2. cbn [app xf_synced xf_seg] in *.
    assert (Hgo : ∃ ext, act (MkXFile s2 (xf_synced f)) sx (ux ++ ext) ∧ map payload ext `prefix_of` run_payloads txid n k (e :: es) ∧
        path s2 = path (xf_seg f) ∧ (is_ok w2 = true → map payload ext = run_payloads txid n k (e :: es) ∧ (e :: es ≠ [] → poisoned s2 = false))).
    { exists (x :: ext2). cbn [map run_payloads]. rewrite Hx. split_and!; [done|by apply prefix_cons|congruence|].
      intros Hw. destruct (Hok2 Hw) as [-> Hps]. split; [done|]. intros _. destruct es; [|by apply Hps].
      cbn [append_run] in E2. by injection E2 as <- _ _. }
    destruct w2; intros [= <- <- <-]; done.
  - intros [= <- <- <-]. exists ext1. split_and!; [done| |done|done].
    destruct ext1 as [|x [|? ?]]; [apply prefix_nil| |cbn in Hle1; lia]. apply Forall_cons in Hext1 as [Hx _]. cbn [map run_payloads]. rewrite Hx.
    by eexists.
Qed.

(** ** What the steps do to a participant *)

(** The log of an active segment when the transaction begins: its file, the
    entries known to be on disk, and the others. *)
Record base : Type := MkBase { bs_path : string; bs_sx : list SalvagedEntry; bs_ux : list SalvagedEntry }.

Definition bs_log (w : base) : list SalvagedEntry := bs_sx w ++ bs_ux w.

(** The segment holds the log of [w] and perhaps some of the run of [tx]. *)
Definition grown (tx : string) (w : base) (f : xfile) : Prop :=
  ∃ sx ux ext, act f sx ux ∧ sx ++ ux = bs_log w ++ ext ∧ Forall (λ x, stamp_tx x = tx) ext ∧ bs_sx w `prefix_of` sx ∧
    path (xf_seg f) = bs_path w.

Definition log_len (xs : list SalvagedEntry) : nat := sum_list_with sv_Length xs.

Lemma tidy_len d off xs : tidy d off xs → length d = log_len xs.
Proof. induction 1 as [off|l e tx rest off xs Hg Hl Hu Hv H IH]; [done|]. unfold log_len in *. rewrite length_app. cbn [sum_list_with sv_Length length]. lia. Qed.

Lemma act_tidy f sx ux : act f sx ux → ∃ torn, tidy (take (log_len (sx ++ ux)) (disk (xf_seg f))) 0 (sx ++ ux) ∧
  disk (xf_seg f) = take (log_len (sx ++ ux)) (disk (xf_seg f)) ++ torn ∧ (poisoned (xf_seg f) = false → torn = []).
Proof.
  intros [(d1 & d2 & torn & Hd & H1 & H2 & Ht & Hs & Hp) _ _ _]. exists torn. assert (H12 : tidy (d1 ++ d2) 0 (sx ++ ux)) by (by apply tidy_app).
  rewrite <- (tidy_len _ _ _ H12), Hd, app_assoc, take_app_length. done.
Qed.

Lemma act_len f sx ux : act f sx ux → poisoned (xf_seg f) = false → size (xf_seg f) = log_len (sx ++ ux).
Proof.
  intros Ha Hp. destruct (act_tidy f sx ux Ha) as (torn & Ht & Hd & Ht0). rewrite (at_size _ _ _ Ha Hp).
  rewrite Ht0, app_nil_r in Hd by done. rewrite <- (tidy_len _ _ _ Ht). by rewrite <- Hd.
Qed.

(** Cutting the file behind a part of its entries. *)
Lemma act_cut f sx ux ys zs s :
  act f sx ux → poisoned (xf_seg f) = false → sx ++ ux = ys ++ zs → disk s = take (log_len ys) (disk (xf_seg f)) → size s = log_len ys →
  sealed s = false → file s = HOpen →
  ∃ sx' ux', act (xf_with f s) sx' ux' ∧ sx' ++ ux' = ys ∧ (sx' = ys ∨ sx' = sx).
Proof.
  intros Ha Hp Hyz Hd Hsz Hse Hop. destruct (act_tidy f sx ux Ha) as (torn & Ht & Hdf & Ht0). rewrite Ht0, app_nil_r in Hdf by done. rewrite <- Hdf, Hyz in Ht.
  destruct (tidy_split _ _ _ _ Ht) as (da & db & Hab & Hda & Hdb). pose proof (tidy_len _ _ _ Hda) as Hla.
  assert (Hds : disk s = da) by (by rewrite Hd, Hab, <- Hla, take_app_length).
  destruct Ha as [(d1 & d2 & torn' & Hd12 & H1 & H2 & _ & Hs & Hp') Hsy _ _]. rewrite (Hp' Hp), app_nil_r in Hd12. clear Hp' torn'.
  assert (Hgo : ∀ sx' ux' da1 da2, da = da1 ++ da2 → tidy da1 0 sx' → tidy da2 (length da1) ux' → length da1 ≤ length d1 → act (xf_with f s) sx' ux').
  { intros sx' ux' da1 da2 -> T1 T2 Hl. split; cbn [xf_with xf_seg xf_synced]; [|lia|intros _; rewrite Hds; lia|done].
    exists da1, da2, []. rewrite app_nil_r, Hds, length_app. split_and!; [done|done|done|apply not_elem_of_nil|lia|done]. }
  apply app_eq_inv in Hyz as [(k & -> & ->)|(k & -> & ->)].
  - apply tidy_split in H1 as (e1 & e2 & -> & T1 & _). exists ys, []. rewrite app_nil_r. split_and!; [|done|by left].
    apply (Hgo _ _ da []); [by rewrite app_nil_r|done|constructor|]. rewrite Hla, <- (tidy_len _ _ _ T1), length_app. lia.
  - apply tidy_split in H2 as (e1 & e2 & -> & T1 & _). exists sx, k. split_and!; [|done|by right].
    apply (Hgo _ _ d1 e1); [|done|done|done].
    assert (T2 : tidy (d1 ++ e1) 0 (sx ++ k)) by (by apply tidy_app). apply (f_equal (take (length da))) in Hab.
    rewrite take_app_length in Hab. rewrite <- Hab, Hd12, Hla, <- (tidy_len _ _ _ T2), app_assoc, take_app_length. done.
Qed.

Lemma grown_start tx w f : act f (bs_sx w) (bs_ux w) → path (xf_seg f) = bs_path w → grown tx w f.
Proof. intros Ha Hp. exists (bs_sx w), (bs_ux w), []. rewrite app_nil_r. by split_and!. Qed.

Lemma run_payloads_tx txid n es : ∀ k ext,
  map payload ext `prefix_of` run_payloads txid n k es → Forall (λ x, stamp_tx x = txid) ext.
Proof.
  induction es as [|e es IH]; intros k [|x ext]; cbn [map run_payloads]; intros Hpre; [constructor|by apply prefix_nil_inv in Hpre|constructor|constructor].
  - apply prefix_cons_inv_1 in Hpre as Hx. by apply payload_stamp in Hx as [_ ->].
  - apply prefix_cons_inv_2 in Hpre. by eapply IH.
Qed.

Lemma grown_rollback tx w f n fs s fs' r :
  grown tx w f → (poisoned (xf_seg f) = false → n = log_len (bs_log w)) → rollback (xf_seg f) n fs = (s, fs', r) → grown tx w (xf_with f s).
Proof.
  intros (sx & ux & ext & Ha & Hl & Hext & Hpre & Hpath) Hn Hr. pose proof Ha as [_ Hsy _ [Hse Hop]].
  assert (Hsame : ∀ s2, disk s2 = disk (xf_seg f) → poisoned s2 = true → sealed s2 = false → file s2 = HOpen → path s2 = bs_path w →
    grown tx w (xf_with f s2)).
  { intros s2 Hd2 Hp2 Hse2 Hop2 Hpa2. exists sx, ux, ext. split_and!; try done. unfold xf_with. rewrite Hd2, Nat.min_l by done.
    destruct Ha as [(d1 & d2 & torn & Hd & H1 & H2 & Ht & Hs & _) _ _ _]. split; cbn [xf_seg xf_synced]; [|by rewrite Hd2|congruence|done].
    exists d1, d2, torn. rewrite Hd2. split_and!; try done. congruence. }
  unfold rollback, rollbackLocked in Hr. rewrite Hse in Hr. destruct (poisoned (xf_seg f)) eqn:Ep; [injection Hr as <- <- <-; by apply Hsame|].
  specialize (Hn eq_refl). subst n. rewrite Hop in Hr. cbn [file_truncate] in Hr. destruct (next_fault fs) as [f1 fs1].
  destruct (f_ok f1); injection Hr as <- <- <-; [|by apply Hsame]. rewrite truncate_bytes_le.
  2: { rewrite <- (at_size _ _ _ Ha Ep), (act_len _ _ _ Ha Ep), Hl. unfold log_len. rewrite sum_list_with_app. lia. }
  set (s2 := with_size (with_disk (xf_seg f) (take (log_len (bs_log w)) (disk (xf_seg f)))) (log_len (bs_log w))).
  destruct (act_cut f sx ux (bs_log w) ext s2 Ha Ep Hl eq_refl eq_refl Hse Hop) as (sx' & ux' & Ha' & Hl' & Hsx).
  exists sx', ux', []. rewrite app_nil_r. split_and!; [exact Ha'|done|done| |done]. destruct Hsx as [->| ->]; [|done]. by eexists.
Qed.

Lemma act_sync f sx ux : act f sx ux → act (MkXFile (xf_seg f) (length (disk (xf_seg f)))) (sx ++ ux) [].
Proof.
  intros [(d1 & d2 & torn & Hd & H1 & H2 & Ht & Hs & Hp) _ Hsz Hop]. split; cbn [xf_seg xf_synced]; [|done|done|done].
  exists (d1 ++ d2), [], torn. split_and!; [by rewrite Hd, <- app_assoc|by apply tidy_app|constructor|done| |done]. rewrite Hd, !length_app. lia.
Qed.

Lemma act_poison f sx ux : act f sx ux → act (MkXFile (with_poison (xf_seg f)) (xf_synced f)) sx ux.
Proof.
  intros [(d1 & d2 & torn & Hd & H1 & H2 & Ht & Hs & Hp) Hsy Hsz Hop]. split; cbn [xf_seg xf_synced with_poison disk]; [|done|done|done].
  exists d1, d2, torn. by split_and!.
Qed.

Lemma append_run_poison txid n es s k fs s' fs' w :
  append_run s txid n k es fs = (s', fs', w) → poisoned s' = false → poisoned s = false.
Proof.
  intros H Hp. destruct (poisoned s) eqn:Ep; [|done]. destruct es as [|e es]; cbn [append_run] in H; [by injection H as <- _ _; rewrite Ep in Hp|].
  destruct (append_entry_poisoned s (set_stamp e (MkStamp txid (u32n k) n)) fs Ep) as (err & E). unfold AppendStamped in H. rewrite E in H.
  injection H as <- _ _. by rewrite Ep in Hp.
Qed.

(** ** The steps on all participants *)

Section Participants.
Context (W : gmap string base) (txid : string).

Definition fine (a : actives) : Prop := ∀ name f, a !! name = Some f → ∃ w, W !! name = Some w ∧ grown txid w f.

Definition starts_ok (a : actives) (starts : gmap string nat) : Prop :=
  ∀ name n f w, starts !! name = Some n → a !! name = Some f → W !! name = Some w → poisoned (xf_seg f) = false → n = log_len (bs_log w).

(** A participant the transaction has not touched, and one that has the run. *)
Definition untouched (a : actives) (name : string) : Prop :=
  ∀ f, a !! name = Some f → ∃ w, W !! name = Some w ∧ act f (bs_sx w) (bs_ux w) ∧ path (xf_seg f) = bs_path w.

Definition payloads (r : xtxRun) : list (Entry * option TxStamp) := run_payloads txid (u32n (length (run_entries r))) 0 (run_entries r).

Definition appended (a : actives) (r : xtxRun) : Prop :=
  ∃ f w ext, a !! run_col r = Some f ∧ W !! run_col r = Some w ∧ act f (bs_sx w) (bs_ux w ++ ext) ∧ map payload ext = payloads r ∧
    path (xf_seg f) = bs_path w.

Definition run_good (r : xtxRun) : Prop :=
  run_entries r ≠ [] ∧ entries_good txid (u32n (length (run_entries r))) 0 (run_entries r).

Lemma fine_insert a name f w : fine a → W !! name = Some w → grown txid w f → fine (<[name := f]> a).
Proof.
  intros Hf Hw Hg name' f'. destruct (decide (name' = name)) as [->|Hne].
  - rewrite lookup_insert_eq. intros [= <-]. eauto.
  - rewrite lookup_insert_ne by done. apply Hf.
Qed.

Lemma append_runs_spec runs : ∀ a starts offs fs a' fs' starts' w,
  fine a → starts_ok a starts → NoDup (map run_col runs) → Forall run_good runs → (∀ r, r ∈ runs → untouched a (run_col r)) →
  append_runs a txid runs starts offs fs = (a', fs', starts', w) →
  fine a' ∧ starts_ok a' starts' ∧ dom a' = dom a ∧ (∀ name, name ∉ map run_col runs → a' !! name = a !! name) ∧
  (is_ok w = true → ∀ r, r ∈ runs → appended a' r).
Proof.
  induction runs as [|r runs IH]; intros a starts offs fs a' fs' starts' w Hf Hs Hnd Hg Hun; cbn [append_runs].
  { intros [= <- <- <- <-]. split_and!; try done. intros _ r Hr. by apply elem_of_nil in Hr. }
  cbn [map] in Hnd. apply NoDup_cons in Hnd as [Hnin Hnd]. apply Forall_cons in Hg as [[Hne Hgr] Hg].
  destruct (a !! run_col r) as [f|] eqn:Ef; [|by intros [= <- <- <- <-]].
  destruct (Hun r (list_elem_of_here _ _) f Ef) as (b & Hb & Hact & Hpa).
  destruct (append_run (xf_seg f) txid _ 0 (run_entries r) fs) as [[s fs1] w1] eqn:E1.
  destruct (append_run_act txid _ _ f 0 _ _ fs s fs1 w1 Hact Hgr E1) as (ext & Hact1 & Hpx & Hp1 & Hok1).
  rewrite (xf_with_synced f s _ _ Hact1). set (f1 := MkXFile s (xf_synced f)) in *. set (a1 := <[run_col r := f1]> a).
  assert (Hf1 : fine a1).
  { apply (fine_insert _ _ _ b); [done|done|]. exists (bs_sx b), (bs_ux b ++ ext), ext. unfold bs_log. rewrite app_assoc.
    split_and!; [done|done|by eapply run_payloads_tx|done|by rewrite <- Hpa]. }
  assert (Hs1 : starts_ok a1 (<[run_col r := size (xf_seg f)]> starts)).
  { intros name n f' w'. unfold a1. destruct (decide (name = run_col r)) as [->|Hn].
    - rewrite !lookup_insert_eq. intros [= <-] [= <-] Hw' Hp'. replace w' with b by congruence. apply (act_len f); [done|].
      by eapply append_run_poison.
    - rewrite !lookup_insert_ne by done. apply Hs. }
  assert (Hdom : dom a1 = dom a) by (unfold a1; rewrite dom_insert_L; assert (run_col r ∈ dom a) by (by eapply elem_of_dom_2); set_solver).
  assert (Hother : ∀ name, name ∉ map run_col (r :: runs) → a1 !! name = a !! name).
  { intros name Hn. unfold a1. rewrite lookup_insert_ne; [done|]. intros <-. apply Hn. left. }
  destruct w1 as [os|err].
  - destruct (Hok1 eq_refl) as [Hall _]. intros E2.
    assert (Hun1 : ∀ r', r' ∈ runs → untouched a1 (run_col r')).
    { intros r' Hr' f'. unfold a1. rewrite lookup_insert_ne by (intros Heq; apply Hnin; rewrite Heq; by apply (list_elem_of_fmap_2 run_col)).
      apply Hun. by right. }
    destruct (IH a1 _ _ _ _ _ _ _ Hf1 Hs1 Hnd Hg Hun1 E2) as (H1 & H2 & H3 & H4 & H5).
    split_and!; [done|done|congruence| |].
    + intros name Hn. rewrite H4; [by apply Hother|]. intros Hin. apply Hn. by right.
    + intros Hw r' [->|Hr']%elem_of_cons; [|by apply H5]. exists f1, b, ext. rewrite (H4 _ Hnin). unfold a1. rewrite lookup_insert_eq.
      split_and!; try done. by rewrite <- Hpa.
  - intros [= <- <- <- <-]. by split_and!.
Qed.

Lemma sync_runs_spec runs : ∀ a starts fs a' fs' w,
  fine a → starts_ok a starts → sync_runs a runs fs = (a', fs', w) →
  fine a' ∧ starts_ok a' starts ∧ dom a' = dom a ∧ (∀ name, name ∉ map run_col runs → a' !! name = a !! name).
Proof.
  induction runs as [|r runs IH]; intros a starts fs a' fs' w Hf Hs; cbn [sync_runs]; [by intros [= <- <- <-]|].
  destruct (a !! run_col r) as [f|] eqn:Ef; [|by intros [= <- <- <-]]. destruct (Sync (xf_seg f) fs) as [fs1 w1].
  destruct (Hf _ _ Ef) as (b & Hb & (sx & ux & ext & Ha & Hl & Hext & Hpre & Hpath)).
  assert (Hgo : ∀ f1, grown txid b f1 → (poisoned (xf_seg f1) = false → poisoned (xf_seg f) = false) →
    fine (<[run_col r := f1]> a) ∧ starts_ok (<[run_col r := f1]> a) starts ∧ dom (<[run_col r := f1]> a) = dom a ∧
    ∀ name, name ∉ map run_col (r :: runs) → <[run_col r := f1]> a !! name = a !! name).
  { intros f1 Hg1 Hp1. split_and!.
    - by eapply fine_insert.
    - intros name n f' w'. destruct (decide (name = run_col r)) as [->|Hn]; [|rewrite lookup_insert_ne by done; apply Hs].
      rewrite lookup_insert_eq. intros Hn [= <-] Hw Hp. eapply Hs; eauto.
    - rewrite dom_insert_L. assert (run_col r ∈ dom a) by (by eapply elem_of_dom_2). set_solver.
    - intros name Hn. rewrite lookup_insert_ne; [done|]. intros <-. apply Hn. left. }
  destruct w1 as [u|err].
  - intros E2. destruct (Hgo (MkXFile (xf_seg f) (length (disk (xf_seg f))))) as (G1 & G2 & G3 & G4); [|done|].
    { exists (sx ++ ux), [], ext. rewrite app_nil_r. split_and!; [by apply act_sync|done|done|by apply prefix_app_r|done]. }
    destruct (IH _ _ _ _ _ _ G1 G2 E2) as (H1 & H2 & H3 & H4). split_and!; [done|done|congruence|].
    intros name Hn. rewrite H4; [by apply G4|]. intros Hin. apply Hn. by right.
  - intros [= <- <- <-]. apply Hgo; [|done]. exists sx, ux, ext. split_and!; [by apply act_poison|done|done|done|done].
Qed.

(** After a complete S1 and S2 every participant has its run on disk. *)
Definition prepared (a : actives) (r : xtxRun) : Prop :=
  ∃ f w ext, a !! run_col r = Some f ∧ W !! run_col r = Some w ∧ act f (bs_log w ++ ext) [] ∧ map payload ext = payloads r ∧
    path (xf_seg f) = bs_path w.

Lemma sync_runs_ok runs : ∀ a fs a' fs',
  NoDup (map run_col runs) → (∀ r, r ∈ runs → appended a r) → sync_runs a runs fs = (a', fs', Ok tt) → ∀ r, r ∈ runs → prepared a' r.
Proof.
  induction runs as [|r runs IH]; intros a fs a' fs' Hnd Hap; [by intros _ r Hr; apply elem_of_nil in Hr|].
  cbn [sync_runs map] in *. apply NoDup_cons in Hnd as [Hnin Hnd].
  destruct (Hap r (list_elem_of_here _ _)) as (f & b & ext & Ef & Hb & Hact & Hpl & Hpa). rewrite Ef.
  destruct (Sync (xf_seg f) fs) as [fs1 [u|err]]; [|done]. intros E2 r' Hr'.
  set (f1 := MkXFile (xf_seg f) (length (disk (xf_seg f)))) in *. set (a1 := <[run_col r := f1]> a) in *.
  apply elem_of_cons in Hr' as [->|Hr'].
  - exists f1, b, ext. assert (Hl : a' !! run_col r = Some f1).
    { clear -E2 Hnin. revert E2. assert (H1 : a1 !! run_col r = Some f1) by apply lookup_insert_eq. revert H1. generalize a1. clear a1. revert fs1.
      induction runs as [|r2 runs IH2]; intros fs1 a1 H1; cbn [sync_runs]; [by intros [= <- _]|].
      destruct (a1 !! run_col r2) as [f2|]; [|done]. destruct (Sync _ _) as [fs2 [u|]]; [|done].
      apply IH2; [intros H; apply Hnin; by right|]. rewrite lookup_insert_ne; [done|]. intros Heq. apply Hnin. rewrite <- Heq. left. }
    split_and!; try done. unfold bs_log. rewrite <- app_assoc. by apply act_sync in Hact.
  - eapply IH; [done| |exact E2|done]. intros r2 Hr2. destruct (Hap r2 (list_elem_of_further _ _ _ Hr2)) as (f2 & b2 & ext2 & Ef2 & ?).
    exists f2, b2, ext2. unfold a1. rewrite lookup_insert_ne; [done|]. intros Heq. apply Hnin. rewrite Heq. by apply (list_elem_of_fmap_2 run_col).
Qed.

Lemma rollback_runs_spec starts runs : ∀ a fs a' fs',
  fine a → starts_ok a starts → rollback_runs a starts runs fs = (a', fs') → fine a' ∧ dom a' = dom a.
Proof.
  induction runs as [|r runs IH]; intros a fs a' fs' Hf Hs; cbn [rollback_runs]; [by intros [= <- <-]|].
  destruct (starts !! run_col r) as [n|] eqn:En; [|by apply IH]. destruct (a !! run_col r) as [f|] eqn:Ef; [|by apply IH].
  destruct (rollback (xf_seg f) n fs) as [[s fs1] w] eqn:Er. intros E2. destruct (Hf _ _ Ef) as (b & Hb & Hg).
  assert (Hg1 : grown txid b (xf_with f s)) by (eapply grown_rollback; [done| |exact Er]; intros Hp; by eapply Hs).
  destruct (IH (<[run_col r := xf_with f s]> a) fs1 a' fs') as [H1 H2]; [by eapply fine_insert| |done|].
  - intros name m f' w'. destruct (decide (name = run_col r)) as [->|Hn]; [|rewrite lookup_insert_ne by done; apply Hs].
    rewrite lookup_insert_eq. intros Hm [= <-] Hw Hp. cbn [xf_with xf_seg] in Hp. rewrite En in Hm. injection Hm as <-.
    eapply Hs; [done|exact Ef|done|]. unfold rollback, rollbackLocked in Er. destruct (sealed (xf_seg f)); [by injection Er as <- _ _|].
    destruct (poisoned (xf_seg f)) eqn:Ep; [|done]. injection Er as <- _ _. congruence.
  - split; [done|]. rewrite H2, dom_insert_L. assert (run_col r ∈ dom a) by (by eapply elem_of_dom_2). set_solver.
Qed.

End Participants.
