(* ===== verification/XTxAtomic.v ===== *)
(** * Atomicity of a cross-collection commit *)
From Stdlib Require Import Ascii Lia ZArith.
From stdpp Require Import prelude gmap strings sorting.
From S2P Require Import Prelude GoNum Json Value GoTime Store Wire Codec Segment Index Sha256 Journal JournalThm JournalInv JournalOps JournalSafe Salvage Names XTx XTxInv XTxRecover XTxPrep.

(** ** The journal is not mistaken for a lost one *)

Lemma image_first h rs : ∃ d, image h rs = "{"%char :: d.
Proof. unfold image, encodeXTxHeader, header_line. eexists. rewrite <- !app_assoc. cbn. reflexivity. Qed.

Lemma crash_healthy P j b : jinv P j → crash_image j b → classifyXTxJournalBeforeOpen (Some b) = xtxJournalHealthy.
Proof.
  intros Hi Hc. assert (Hb : ∃ h rs x, b = image h rs ++ x).
  { destruct (ji_file _ _ Hi) as [_ Hd Hsy _ Hsh|r k _ Hd Hsy Hsh _ _ _ _|gone _ Hd Hsy Hsh _];
      destruct Hc as [(n & Hn & ->)|Hb]; try congruence.
    - exists (j_hdr j), (j_records j), []. by rewrite take_ge, app_nil_r by lia.
    - exists (j_hdr j), (j_records j), (take (n - length (image (j_hdr j) (j_records j))) (take k (encodeXTxRecord r))).
      rewrite Hd. by apply take_app_ge; lia.
    - exists (next_gen (j_hdr j)), (kept gone (j_records j)), []. by rewrite take_ge, app_nil_r by lia.
    - exists (j_hdr j), (j_records j), []. rewrite app_nil_r. destruct Hsh; congruence. }
  destruct Hb as (h & rs & x & ->). destruct (image_first h rs) as (d & ->). reflexivity.
Qed.

(** The next process opens what the crash left of the journal. *)
Definition reopens (b : bytes) (epoch : string) (now : time) (j3 : xtxJournal) : Prop :=
  (∃ b', openXTxJournal b epoch now [] = (b', [], Ok j3)) ∧ classifyXTxJournalBeforeOpen (Some b) = xtxJournalHealthy.

(** ** The decision after a crash *)

Section Decision.
Context (txid key : string) (parts : list xtxPart) (bind : option xtxReplBind) (nowc nowa : time).

Definition the_commit (r : xtxRecord) : Prop := ∃ pd, r = commit_record txid key parts pd bind nowc.
Definition the_abort (r : xtxRecord) : Prop := r = abort_record txid key "io" nowa.

(** The other decisions are those of [t]; some retired ones may have been left out. *)
Definition others_of (t t' : xtxTable) : Prop := ∀ tx d, tx ≠ txid → byTx t' !! tx = Some d → byTx t !! tx = Some d.

Definition committed_with (t : xtxTable) : Prop :=
  ∃ d, byTx t !! txid = Some d ∧ d_Outcome d = xtxKindCommit ∧ d_Retired d = false ∧ d_Parts d = parts.

Definition uncommitted (t : xtxTable) : Prop := ∀ d, byTx t !! txid = Some d → d_Outcome d ≠ xtxKindCommit.

Lemma apply_commit t pd t' :
  filed t → byTx t !! txid = None → apply t (commit_record txid key parts pd bind nowc) = Ok t' → others_of t t' ∧ committed_with t'.
Proof.
  intros Hf Hn Ha. destruct (apply_spec _ _ _ Hf Ha) as (d & Hby & [D1 D2 D3 D4 D5] & _). cbn [commit_record bound_record newRecord r_Tx] in *.
  split.
  - intros tx d' Hne. by rewrite Hby, lookup_insert_ne.
  - exists d. rewrite Hby, lookup_insert_eq. split_and!; [done|done|by rewrite D5, Hn|]. unfold apply in Ha.
    unfold find_dec in Ha. cbn [raise_seq byTx] in Ha. cbn [commit_record bound_record newRecord r_Tx] in Ha. rewrite Hn in Ha. cbn [res_bind] in Ha.
    unfold apply_kind in Ha. rewrite decide_True in Ha by done. unfold apply_parts in Ha. cbn [d_Parts d_PD] in Ha.
    rewrite decide_False in Ha by (by intros [?|?]). cbn [res_bind] in Ha.
    destruct (apply_binding _ _ _) as [t1|] eqn:Eb in Ha; [|done]. cbn [res_bind] in Ha. injection Ha as <-. rewrite apply_key_byTx in Hby.
    apply (f_equal (.!! txid)) in Hby. rewrite lookup_insert_eq in Hby. unfold apply_binding in Eb. destruct (_ =? 0)%Z.
    + injection Eb as <-. cbn [set_dec byTx set_parts d_Tx] in Hby. rewrite lookup_insert_eq in Hby. by injection Hby as <-.
    + destruct (decide _) in Eb; [done|]. destruct (lsn_taken _ _); [done|]. injection Eb as <-.
      cbn [set_dec byTx set_binding set_parts d_Tx] in Hby. rewrite lookup_insert_eq in Hby. by injection Hby as <-.
Qed.

Lemma moves_others (P : xtxRecord → Prop) t t' : (∀ r, P r → r_Tx r = txid) → filed t → moves P t t' → others_of t t'.
Proof.
  intros HP Hf [->|r Hr _ Ha|gone Hg Hw _] tx d Hne; [done| |].
  - destruct (apply_spec _ _ _ Hf Ha) as (d1 & Hby & _). rewrite Hby, (HP r Hr), lookup_insert_ne by done. done.
  - rewrite (wo_byTx _ _ _ Hw). intros H. by apply map_lookup_filter_Some in H as [? _].
Qed.

Lemma moves_commit t t' :
  filed t → byTx t !! txid = None → moves the_commit t t' → others_of t t' ∧ (committed_with t' ∨ uncommitted t').
Proof.
  intros Hf Hn Hm. split; [apply (moves_others the_commit); [by intros r (pd & ->)|done|done]|].
  destruct Hm as [->|r (pd & ->) _ Ha|gone Hg Hw _].
  - right. intros d. congruence.
  - left. by destruct (apply_commit t pd t' Hf Hn Ha).
  - right. intros d. rewrite (wo_byTx _ _ _ Hw). intros [H _]%map_lookup_filter_Some. congruence.
Qed.

Lemma moves_abort t t' : rtc (move the_abort) t t' → byTx t !! txid = None → others_of t t' ∧ uncommitted t'.
Proof.
  intros Hm Hn. split.
  - clear Hn. induction Hm as [t|t t1 t' [Hf Hs] Hm IH]; [by intros tx d|]. intros tx d Hne Hd.
    apply (moves_others the_abort t t1); [by intros r ->|done|done|done|]. by apply IH.
  - intros d Hd. destruct (chain_source Hm txid d Hd) as [(d0 & Hd0 & _)|(r & -> & _ & _ & Hk)]; [congruence|]. by rewrite <- Hk.
Qed.

(** The journal a transaction starts with: open, and the id is new. *)
Record ready (j : xtxJournal) : Prop := {
  rd_inv : jinv (λ _, False) j;
  rd_usable : usable j = Ok tt;
  rd_alloc : allocated j txid;
  rd_new : byTx (table j) !! txid = None;
  rd_key : String.length key ≤ xtxMaxKeyLen;
  rd_times : time_wf nowc ∧ time_wf nowa;
  rd_parts : Forall part_wf parts;
  rd_bind : bind_ok bind;
  rd_fits : ∀ pd, partsDigest parts = Some pd → fits (commit_record txid key parts pd bind nowc);
  rd_fits_abort : fits (abort_record txid key "io" nowa);
  rd_gen : (h_Gen (j_hdr j) + 2 < two64)%Z
}.

(** While a journal is not poisoned, nothing is being attempted. *)
Lemma jinv_any (P Q : xtxRecord → Prop) j : jinv P j → j_poisoned j = false → jinv Q j.
Proof. intros [H1 H2 H3 H4 H5 H6] Hp. split; try done. destruct H6; [by apply JClean|congruence..]. Qed.

(** The advisory abort, and the crash after it. *)
Lemma abort_crash j j0 fs j' fs' w b epoch now :
  ready j0 → jinv the_abort j → table j = table j0 → same_book j0 j → abort j txid key "io" nowa fs = (j', fs', w) → crash_image j' b →
  ∃ j3, reopens b epoch now j3 ∧ others_of (table j0) (table j3) ∧ uncommitted (table j3).
Proof.
  intros [R1 R2 R3 R4 R5 [R6 R7] R8 R9 R10 R11 R12] Hi Ht [B1 B2 B3] Ha Hc.
  assert (Hal : allocated j txid) by (destruct R3 as (s & Hs1 & Hs2); exists s; unfold jepoch; by rewrite B1, B2).
  destruct (abort_spec the_abort j txid key "io" nowa fs j' fs' w Hi Hal R5 R7 R11 eq_refl Ha) as (Hi' & [B1' _ _] & Hw & _).
  assert (Hm1 : rtc (move the_abort) (table j) (table j')).
  { apply rtc_once. split; [by eapply table_filed|]. destruct w as [u|e]; [|apply Kept, Hw]. destruct Hw as [->|[_ Hap]]; [by apply Kept|].
    by apply (Decided _ _ _ (abort_record txid key "io" nowa)). }
  destruct (crash_moves the_abort j' b epoch now Hi') as (j3 & b' & Ho & _ & _ & Hm2); [by rewrite B1', B1|done|].
  exists j3. split; [by split; [eexists|eapply crash_healthy]|]. rewrite <- Ht. apply moves_abort; [|by rewrite Ht]. etrans; [exact Hm1|]. apply rtc_once. split; [by eapply table_filed|done].
Qed.

(** After a failed commit the journal may be left with the line of the commit:
    the abort is refused, and a crash decides. *)
Lemma unknown_crash j j0 b epoch now :
  ready j0 → jinv the_commit j → table j = table j0 → j_hdr j = j_hdr j0 → crash_image j b →
  ∃ j3, reopens b epoch now j3 ∧ others_of (table j0) (table j3) ∧ (committed_with (table j3) ∨ uncommitted (table j3)).
Proof.
  intros Hr Hi Ht Hh Hc. destruct (crash_moves the_commit j b epoch now Hi) as (j3 & b' & Ho & _ & _ & Hm); [rewrite Hh; apply Hr|done|].
  exists j3. split; [by split; [eexists|eapply crash_healthy]|]. rewrite <- Ht. apply moves_commit; [by eapply table_filed|by rewrite Ht; apply Hr|done].
Qed.

Lemma abort_unusable j fs : usable j ≠ Ok tt → ∃ e, abort j txid key "io" nowa fs = (j, fs, Err e).
Proof. intros H. unfold abort. cbn [negb]. rewrite bool_decide_true by (by vm_compute; repeat constructor). cbn [negb]. destruct (usable j) as [[]|e]; [done|eauto]. Qed.

End Decision.

(** ** The steps of the protocol *)

Section Protocol.
Context (W : gmap string base) (txid key : string) (runs : list xtxRun) (bind : option xtxReplBind) (nowc nowa : time).
Notation parts := (map run_part runs).
Notation ready := (ready txid key parts bind nowc nowa).

Definition all_prepared (a a' : actives) : Prop :=
  (∀ r, r ∈ runs → prepared W txid a' r) ∧ ∀ name, name ∉ map run_col runs → a' !! name = a !! name.

Lemma undo_spec j0 j a starts fs j' a' fs' :
  ready j0 → jinv (the_abort txid key nowa) j → table j = table j0 → same_book j0 j →
  fine W txid a → starts_ok W a starts → undo_runs j a key txid starts runs nowa fs = (j', a', fs') →
  fine W txid a' ∧ dom a' = dom a ∧
  ∀ b epoch now, crash_image j' b → ∃ j3, reopens b epoch now j3 ∧
    others_of txid (table j0) (table j3) ∧ uncommitted txid (table j3).
Proof.
  intros Hr Hi Ht Hb Hf Hs. unfold undo_runs. destruct (rollback_runs a starts runs fs) as [a1 fs1] eqn:E1.
  destruct (abort j txid key "io" nowa fs1) as [[j1 fs2] w] eqn:E2. intros [= <- <- <-].
  destruct (rollback_runs_spec W txid starts runs a fs a1 fs1 Hf Hs E1) as [H1 H2]. split_and!; [done|done|].
  intros b epoch now Hc. by eapply abort_crash.
Qed.

Lemma same_book_refl j : same_book j j.
Proof. done. Qed.

Lemma decide_spec j a fs j' a' fs' bar r :
  ready j → (∀ name, untouched W a name) → NoDup (map run_col runs) → Forall (run_good txid) runs →
  xtxPrepareAndDecide j a key txid runs bind nowc nowa fs = (j', a', fs', bar, r) →
  fine W txid a' ∧ dom a' = dom a ∧
  ∀ b epoch now, crash_image j' b → ∃ j3, reopens b epoch now j3 ∧ others_of txid (table j) (table j3) ∧
    (uncommitted txid (table j3) ∧ is_ok r = false ∨
     committed_with txid parts (table j3) ∧ r ≠ Err (XDurability txid) ∧ all_prepared a a' ∨
     committed_with txid parts (table j3) ∧ r = Err (XDurability txid) ∧ j_poisoned j' = true).
Proof.
  intros Hr Hun Hnd Hg. unfold xtxPrepareAndDecide.
  assert (Hf0 : fine W txid a) by (intros name f Hf; destruct (Hun name f Hf) as (w & Hw & Ha & Hp); exists w; split; [done|by apply grown_start]).
  assert (Hp0 : j_poisoned j = false) by apply (usable_ok _ (rd_usable _ _ _ _ _ _ _ Hr)).
  assert (Hia : jinv (the_abort txid key nowa) j) by (eapply jinv_any; [apply Hr|done]).
  destruct (append_runs a txid runs ∅ ∅ fs) as [[[a1 fs1] starts] w1] eqn:E1.
  destruct (append_runs_spec W txid runs a ∅ ∅ fs a1 fs1 starts w1 Hf0) as (Hf1 & Hs1 & Hd1 & Ho1 & Hok1); try done.
  assert (Hundo : ∀ j1 a2 fs2, jinv (the_abort txid key nowa) j1 → table j1 = table j → same_book j j1 →
    fine W txid a2 → starts_ok W a2 starts → dom a2 = dom a →
    (let '(j, a, fs) := undo_runs j1 a2 key txid starts runs nowa fs2 in (j, a, fs, false, Err (XDurability txid))) = (j', a', fs', bar, r) →
    fine W txid a' ∧ dom a' = dom a ∧
    ∀ b epoch now, crash_image j' b → ∃ j3, reopens b epoch now j3 ∧ others_of txid (table j) (table j3) ∧
      (uncommitted txid (table j3) ∧ is_ok r = false ∨
       committed_with txid parts (table j3) ∧ r ≠ Err (XDurability txid) ∧ all_prepared a a' ∨
       committed_with txid parts (table j3) ∧ r = Err (XDurability txid) ∧ j_poisoned j' = true)).
  { intros j1 a2 fs2 Hi1 Ht1 Hb1 Hf2 Hs2 Hd2. destruct (undo_runs j1 a2 key txid starts runs nowa fs2) as [[j4 a4] fs4] eqn:Eu. intros [= <- <- <- <- <-].
    destruct (undo_spec j j1 a2 starts fs2 j4 a4 fs4 Hr Hi1 Ht1 Hb1 Hf2 Hs2 Eu) as (H1 & H2 & H3). split_and!; [done|congruence|].
    intros b epoch now Hc. destruct (H3 b epoch now Hc) as (j3 & Ho & Hoth & Hunc). exists j3. split_and!; [done|done|]. by left. }
  destruct w1 as [offs|err]; [|by apply (Hundo j a1 fs1)].
  specialize (Hok1 eq_refl). destruct (sync_runs a1 runs fs1) as [[a2 fs2] w2] eqn:E2.
  destruct (sync_runs_spec W txid runs a1 starts fs1 a2 fs2 w2 Hf1 Hs1 E2) as (Hf2 & Hs2 & Hd2 & Ho2).
  destruct w2 as [[]|err]; [|apply (Hundo j a2 fs2); try done; congruence].
  assert (Hall : all_prepared a a2).
  { split; [by eapply sync_runs_ok|]. intros name Hn. by rewrite Ho2, Ho1. }
  destruct (commitPreparedBound j txid key parts bind nowc fs2) as [[j1 fs3] w3] eqn:E3.
  destruct (commit_spec (the_commit txid key parts bind nowc) j txid key parts bind nowc fs2 j1 fs3 w3) as (Hi1 & Hb1 & Hw3 & Hpz);
    [by eapply jinv_any; [apply Hr|]|apply Hr|apply Hr|apply (rd_times _ _ _ _ _ _ _ Hr)|apply Hr|apply Hr| |done|].
  { intros pd Hpd. split; [by apply Hr|by exists pd]. }
  destruct w3 as [[]|e].
  - intros [= <- <- <- <- <-]. destruct Hw3 as (Hp1 & pd & _ & _ & Hap). split_and!; [done|congruence|]. intros b epoch now Hc.
    destruct (crash_spec _ j1 b epoch now Hi1) as (h & rs & j3 & b' & Ho & _ & _ & Hcs); [rewrite (sb_hdr _ _ Hb1); apply Hr|done|].
    destruct Hcs as [[_ Ht3]|[(Hp & _)|(Hp & _)]]; [|congruence..].
    destruct (apply_commit txid key parts bind nowc (table j) pd (table j1)) as [Hoth Hcom]; [by eapply table_filed, Hr|apply Hr|done|].
    exists j3. rewrite Ht3. split_and!; [by split; [eexists|eapply crash_healthy]|done|]. right. left. done.
  - destruct Hw3 as [_ Ht1].
    assert (Hcase : (∃ tx, e = JOutcomeUnknown tx) ∨ (∀ tx, e ≠ JOutcomeUnknown tx)) by (destruct e; (left; eauto; fail) || (right; done)).
    destruct Hcase as [(tx & ->)|Hne].
    + intros [= <- <- <- <- <-]. split_and!; [done|congruence|]. intros b epoch now Hc.
      destruct (unknown_crash txid key parts bind nowc nowa j1 j b epoch now Hr Hi1 Ht1 (sb_hdr _ _ Hb1) Hc) as (j3 & Ho & Hoth & Hcs).
      exists j3. split_and!; [done|done|]. destruct Hcs; [right; left; done|by left].
    + intros Hret. assert (Hret' : (let '(j, a, fs) := undo_runs j1 a2 key txid starts runs nowa fs3 in (j, a, fs, false, Err (XDurability txid))) = (j', a', fs', bar, r))
        by (destruct e; try exact Hret; by destruct (Hne tx)). clear Hret. destruct (j_poisoned j1) eqn:Ep.
      * unfold undo_runs in Hret'. destruct (rollback_runs a2 starts runs fs3) as [a4 fs4] eqn:E4.
        destruct (abort_unusable txid key nowa j1 fs4) as (e' & Eab); [intros Hu%usable_ok; destruct Hu; congruence|]. rewrite Eab in Hret'.
        injection Hret' as <- <- <- <- <-. destruct (rollback_runs_spec W txid starts runs a2 fs3 a4 fs4 Hf2 Hs2 E4) as [H1 H2].
        split_and!; [done|congruence|]. intros b epoch now Hc.
        destruct (unknown_crash txid key parts bind nowc nowa j1 j b epoch now Hr Hi1 Ht1 (sb_hdr _ _ Hb1) Hc) as (j3 & Ho & Hoth & Hcs).
        exists j3. split_and!; [done|done|]. destruct Hcs; [right; right; done|by left].
      * apply (Hundo j1 a2 fs3); try done; [by eapply jinv_any|congruence].
Qed.

End Protocol.
