(* ===== verification/XTxCommit.v ===== *)
(** * A cross-collection commit, a crash and recovery *)
From Stdlib Require Import Ascii Lia ZArith.
From stdpp Require Import prelude gmap strings sorting.
From S2P Require Import Prelude GoNum Json Value GoTime Store Wire Codec Segment Index Sha256 Journal JournalThm JournalInv JournalOps JournalSafe Salvage Names XTx XTxInv XTxRecover XTxPrep XTxAtomic.

(** ** Logs that grow *)

Lemma contiguous_prefix xs ys : contiguous (xs ++ ys) → contiguous xs.
Proof.
  intros H tx Hne. destruct (H tx Hne) as (pre & mid & post & He & Hp & Hq & Hm).
  apply app_eq_inv in He as [(k & -> & He)|(k & Hk & _)].
  2: { subst pre. exists xs, [], []. rewrite tx_items_app in Hp. apply app_eq_nil in Hp as [Hp _]. by rewrite app_nil_r; split_and!. }
  apply app_eq_inv in He as [(l & -> & _)|(l & -> & ->)].
  - exists pre, k, []. rewrite app_nil_r. apply Forall_app in Hm as [Hm _]. by split_and!.
  - exists pre, mid, l. rewrite tx_items_app in Hq. apply app_eq_nil in Hq as [Hq _]. by split_and!.
Qed.

Lemma tx_items_other tx tx' xs : tx ≠ tx' → Forall (λ x, stamp_tx x = tx') xs → tx_items tx xs = [].
Proof. intros Hne H. unfold tx_items. apply filter_none. eapply Forall_impl; [exact H|]. intros x Hx [? _]. congruence. Qed.

Lemma contiguous_run tx xs ext : contiguous xs → tx_items tx xs = [] → Forall (λ x, stamp_tx x = tx) ext → contiguous (xs ++ ext).
Proof.
  intros H Hn He tx' Hne. destruct (decide (tx' = tx)) as [->|Hd].
  - exists xs, ext, []. by rewrite app_nil_r; split_and!.
  - destruct (H tx' Hne) as (pre & mid & post & -> & Hp & Hq & Hm). exists pre, mid, (post ++ ext). rewrite <- !app_assoc.
    split_and!; [done|done| |done]. rewrite tx_items_app, Hq. by apply (tx_items_other tx' tx).
Qed.

(** ** The database around a transaction *)

(** A collection: its sealed segments with their logs, and the log of the active
    segment. *)
Record xcol : Type := MkXCol {
  xc_name : string; xc_sealed : list (string * bytes); xc_sx : list (list SalvagedEntry); xc_base : base
}.

Definition xc_bases (C : list xcol) : gmap string base := list_to_map (map (λ c, (xc_name c, xc_base c)) C).

(** The part of its log that is known to be on disk. *)
Definition xc_log (c : xcol) : list SalvagedEntry := concat (xc_sx c) ++ bs_sx (xc_base c).

Definition xc_logs (C : list xcol) : gmap string (list SalvagedEntry) := list_to_map (map (λ c, (xc_name c, xc_log c)) C).

Record xcol_ok (t : xtxTable) (txid : string) (a : actives) (c : xcol) : Prop := {
  xo_name : isReservedXTxName (xc_name c) = false ∧ validateLegacyName (xc_name c) = Ok tt;
  xo_sealed : Forall2 (λ f xs, tidy f.2 0 xs) (xc_sealed c) (xc_sx c);
  xo_active : ∃ f, a !! xc_name c = Some f ∧ act f (bs_sx (xc_base c)) (bs_ux (xc_base c)) ∧ path (xf_seg f) = bs_path (xc_base c);
  xo_order : ∀ b, ssort file_less (xc_sealed c ++ [(bs_path (xc_base c), b)]) = xc_sealed c ++ [(bs_path (xc_base c), b)];
  xo_runs : contiguous (bs_log (xc_base c));
  xo_fresh : tx_items txid (concat (xc_sx c) ++ bs_log (xc_base c)) = [];
  xo_durable : ∀ tx d, byTx t !! tx = Some d → d_Outcome d = xtxKindCommit → d_Retired d = false → tx_items tx (bs_ux (xc_base c)) = []
}.

(** The committed transactions have their runs on disk, and [txid] is new. *)
Record world_ok (t : xtxTable) (txid : string) (C : list xcol) (a : actives) : Prop := {
  wk_names : NoDup (map xc_name C);
  wk_cols : Forall (xcol_ok t txid a) C;
  wk_actives : ∀ name, is_Some (a !! name) → name ∈ map xc_name C;
  wk_coord : coordinated t (xc_logs C)
}.

(** What a crash leaves of a collection: of its active file at least what was
    forced to disk. *)
Definition crashed_col (a : actives) (c : xcol) (e : rootEntry) : Prop :=
  ∃ f k, a !! xc_name c = Some f ∧ xf_synced f ≤ k ∧
    e = MkREnt (xc_name c) KDir (xc_sealed c ++ [(path (xf_seg f), take k (disk (xf_seg f)))]).

Section World.
Context (t : xtxTable) (txid : string) (C : list xcol) (a : actives) (Hw : world_ok t txid C a) (Hne : txid ≠ "").

Lemma bases_lookup c : c ∈ C → xc_bases C !! xc_name c = Some (xc_base c).
Proof.
  intros Hc. apply elem_of_list_to_map_1.
  - rewrite <- list_fmap_compose. apply (wk_names _ _ _ _ Hw).
  - by apply (list_elem_of_fmap_2 (λ c, (xc_name c, xc_base c))).
Qed.

Lemma logs_lookup name xs : xc_logs C !! name = Some xs ↔ ∃ c, c ∈ C ∧ name = xc_name c ∧ xs = xc_log c.
Proof.
  unfold xc_logs. rewrite <- elem_of_list_to_map by (rewrite <- list_fmap_compose; apply (wk_names _ _ _ _ Hw)).
  rewrite list_elem_of_fmap. split.
  - intros (c & [= -> ->] & Hc). eauto.
  - intros (c & Hc & -> & ->). exists c. done.
Qed.

Lemma world_untouched name : untouched (xc_bases C) a name.
Proof.
  intros f Hf. assert (Hin : name ∈ map xc_name C) by (apply (wk_actives _ _ _ _ Hw); eauto).
  apply list_elem_of_fmap in Hin as (c & -> & Hc). exists (xc_base c). split; [by apply bases_lookup|].
  pose proof (wk_cols _ _ _ _ Hw) as Hcs. rewrite Forall_forall in Hcs. destruct (xo_active _ _ _ _ (Hcs c Hc)) as (f' & Hf' & H). congruence.
Qed.

(** What the transaction may have left of its run: [ys] follows the entries that
    were on disk. *)
Definition left_log (c : xcol) (ys : list SalvagedEntry) : Prop :=
  ∃ ext, ys `prefix_of` bs_ux (xc_base c) ++ ext ∧ Forall (λ x, stamp_tx x = txid) ext.

Lemma world_col c : c ∈ C → xcol_ok t txid a c.
Proof. pose proof (wk_cols _ _ _ _ Hw) as Hcs. rewrite Forall_forall in Hcs. apply Hcs. Qed.

(** The directory a crash leaves, with its log. *)
Lemma crashed_act c f zs ux k :
  c ∈ C → act f (bs_sx (xc_base c) ++ zs) ux → path (xf_seg f) = bs_path (xc_base c) → xf_synced f ≤ k →
  ∃ ys, ys `prefix_of` ux ∧
    dir_ok (MkREnt (xc_name c) KDir (xc_sealed c ++ [(path (xf_seg f), take k (disk (xf_seg f)))])) (xc_sx c) (bs_sx (xc_base c) ++ zs ++ ys).
Proof.
  intros Hc Hact Hpath Hk. destruct (world_col c Hc) as [[N1 N2] O2 O3 O4 O5 O6 O7].
  destruct (act_crash f _ ux k Hact Hk) as (d & torn & ys & Hd & Ht & Htd & Hys). exists ys. split; [done|].
  rewrite <- app_assoc in Htd. split; cbn [re_kind re_name re_files]; [done|done|done|]. exists (xc_sealed c), (path (xf_seg f)), d, torn.
  rewrite Hd, Hpath. split_and!; [apply O4|done|done|done].
Qed.

Lemma crashed_dir a' c e :
  c ∈ C → fine (xc_bases C) txid a' → crashed_col a' c e →
  ∃ ys, left_log c ys ∧ dir_ok e (xc_sx c) (bs_sx (xc_base c) ++ ys) ∧ re_name e = xc_name c.
Proof.
  intros Hc Hf (f & k & Hfa & Hk & ->). destruct (Hf _ _ Hfa) as (w & Hwb & (sx & ux & ext & Hact & Hl & Hext & [zs ->] & Hpath)).
  rewrite (bases_lookup c Hc) in Hwb. injection Hwb as <-. destruct (crashed_act c f zs ux k Hc Hact Hpath Hk) as (ys & Hys & Hd).
  exists (zs ++ ys). split_and!; [|done|done]. exists ext. split; [|done]. unfold bs_log in Hl. rewrite <- !app_assoc in Hl.
  apply app_inv_head in Hl. rewrite <- Hl. by apply prefix_app.
Qed.

(** The run of each participant. *)
Definition run_map (runs : list xtxRun) : gmap string (list (Entry * option TxStamp)) := list_to_map (map (λ r, (run_col r, payloads txid r)) runs).
Definition run_of (runs : list xtxRun) (name : string) : list (Entry * option TxStamp) := default [] (run_map runs !! name).

Lemma run_of_at runs r : NoDup (map run_col runs) → r ∈ runs → run_of runs (run_col r) = payloads txid r.
Proof.
  intros Hnd Hr. unfold run_of, run_map. rewrite (elem_of_list_to_map_1 _ _ (payloads txid r)); [done| |].
  - by rewrite <- list_fmap_compose.
  - by apply (list_elem_of_fmap_2 (λ r, (run_col r, payloads txid r))).
Qed.

Lemma run_of_none runs name : name ∉ map run_col runs → run_of runs name = [].
Proof. intros Hn. unfold run_of, run_map. rewrite not_elem_of_list_to_map_1; [done|]. by rewrite <- list_fmap_compose. Qed.

Lemma prefix_items tx xs ys : xs `prefix_of` ys → tx_items tx ys = [] → tx_items tx xs = [].
Proof. intros [zs ->]. rewrite tx_items_app. by intros [? _]%app_eq_nil. Qed.

Lemma fresh_ux c : c ∈ C → tx_items txid (bs_ux (xc_base c)) = [].
Proof.
  intros Hc. pose proof (xo_fresh _ _ _ _ (world_col c Hc)) as H. unfold bs_log in H. rewrite !tx_items_app in H.
  by apply app_eq_nil in H as [_ [_ H]%app_eq_nil].
Qed.

(** With everything prepared, a crash leaves every run whole. *)
Lemma crashed_prepared runs a' c e :
  c ∈ C → NoDup (map run_col runs) → all_prepared (xc_bases C) txid runs a a' → crashed_col a' c e →
  ∃ ys, left_log c ys ∧ map payload (tx_items txid ys) = run_of runs (xc_name c) ∧
    dir_ok e (xc_sx c) (bs_sx (xc_base c) ++ ys) ∧ re_name e = xc_name c.
Proof.
  intros Hc Hnd [Hp Hu] (f & k & Hfa & Hk & ->). destruct (decide (xc_name c ∈ map run_col runs)) as [Hin|Hn].
  - apply list_elem_of_fmap in Hin as (r & Hcr & Hr). destruct (Hp r Hr) as (f' & w & ext & Hf' & Hwb & Hact & Hpl & Hpath).
    rewrite <- Hcr in Hf', Hwb. rewrite (bases_lookup c Hc) in Hwb. injection Hwb as <-. rewrite Hfa in Hf'. injection Hf' as <-.
    unfold bs_log in Hact. rewrite <- app_assoc in Hact. destruct (crashed_act c f _ _ k Hc Hact Hpath Hk) as (ys & Hys & Hd).
    apply prefix_nil_inv in Hys as ->. rewrite app_nil_r in Hd.
    assert (Hext : Forall (λ x, stamp_tx x = txid) ext) by (apply (run_payloads_tx txid (u32n (length (run_entries r))) (run_entries r) 0); by rewrite Hpl).
    exists (bs_ux (xc_base c) ++ ext). split_and!; [by exists ext| |done|done].
    rewrite Hcr, run_of_at by done. rewrite tx_items_app, (fresh_ux c Hc). cbn [app]. by rewrite tx_items_all.
  - destruct (world_untouched (xc_name c) f) as (w & Hwb & Hact & Hpath); [by rewrite <- Hu|].
    rewrite (bases_lookup c Hc) in Hwb. injection Hwb as <-. rewrite <- (app_nil_r (bs_sx _)) in Hact.
    destruct (crashed_act c f _ _ k Hc Hact Hpath Hk) as (ys & Hys & Hd). cbn [app] in Hd. exists ys. split_and!; [| |done|done].
    + exists []. by rewrite app_nil_r.
    + rewrite run_of_none by done. by rewrite (prefix_items txid _ _ Hys (fresh_ux c Hc)).
Qed.

Lemma left_items c ys tx : tx ≠ txid → left_log c ys → tx_items tx (bs_ux (xc_base c)) = [] → tx_items tx ys = [].
Proof.
  intros Hd (ext & [zs Hz] & He) Hu. assert (H : tx_items tx (ys ++ zs) = []) by (rewrite <- Hz, tx_items_app, Hu; by apply (tx_items_other tx txid)).
  rewrite tx_items_app in H. by apply app_eq_nil in H as [? _].
Qed.

Lemma left_contiguous c ys : c ∈ C → left_log c ys → contiguous (bs_sx (xc_base c) ++ ys).
Proof.
  intros Hc (ext & [zs Hz] & He). destruct (world_col c Hc) as [_ _ _ _ O5 O6 _].
  rewrite tx_items_app in O6. apply app_eq_nil in O6 as [_ O6].
  pose proof (contiguous_run txid _ ext O5 O6 He) as H. unfold bs_log in H. rewrite <- app_assoc, Hz, app_assoc in H. by eapply contiguous_prefix.
Qed.

(** ** The root after the crash *)

Record left_dir (runs : list xtxRun) (keep : bool) (c : xcol) (x : logged_dir) : Prop := {
  lf_name : ld_name x = xc_name c;
  lf_sealed : x.1.2 = xc_sx c;
  lf_ok : ld_ok x;
  lf_log : ∃ ys, x.2 = bs_sx (xc_base c) ++ ys ∧ left_log c ys ∧
    (keep = true → map payload (tx_items txid ys) = run_of runs (xc_name c))
}.

Lemma left_dirs runs keep C' root a' :
  (∀ c e, c ∈ C' → crashed_col a' c e → ∃ ys, left_log c ys ∧ (keep = true → map payload (tx_items txid ys) = run_of runs (xc_name c)) ∧
    dir_ok e (xc_sx c) (bs_sx (xc_base c) ++ ys) ∧ re_name e = xc_name c) →
  Forall2 (crashed_col a') C' root → ∃ R, map ld_entry R = root ∧ Forall2 (left_dir runs keep) C' R.
Proof.
  intros H HF. induction HF as [|c e C' root He _ IH]; [by exists []|].
  destruct IH as (R & <- & HR); [intros c' e' Hc'; apply H; by right|]. destruct (H c e (list_elem_of_here _ _) He) as (ys & Hl & Hk & Hd & Hn).
  exists ((e, xc_sx c, bs_sx (xc_base c) ++ ys) :: R). split; [done|]. constructor; [|done]. split; [done|done|done|]. by exists ys.
Qed.

Lemma left_items_log runs keep c x tx :
  c ∈ C → left_dir runs keep c x → tx ≠ txid → tx_items tx (bs_ux (xc_base c)) = [] → tx_items tx (ld_log x) = tx_items tx (xc_log c).
Proof.
  intros Hc [_ H2 _ (ys & H4 & Hl & _)] Hd Hu. unfold ld_log, xc_log. rewrite H2, H4, !tx_items_app, (left_items c ys tx Hd Hl Hu). by rewrite app_nil_r.
Qed.

Lemma left_items_run runs c x : c ∈ C → left_dir runs true c x → map payload (tx_items txid (ld_log x)) = run_of runs (xc_name c).
Proof.
  intros Hc [_ H2 _ (ys & H4 & _ & Hk)]. rewrite <- (Hk eq_refl). pose proof (xo_fresh _ _ _ _ (world_col c Hc)) as Hf. unfold bs_log in Hf.
  unfold ld_log. rewrite H2, H4. rewrite !tx_items_app in *. apply app_eq_nil in Hf as [-> [-> _]%app_eq_nil]. done.
Qed.

Lemma complete_same p tx xs ys : tx_items tx xs = tx_items tx ys → complete_run p tx xs → complete_run p tx ys.
Proof. intros E [H1 H2 H3 H4]. rewrite E in *. done. Qed.

Lemma dirs_lookup R name xs :
  NoDup (map ld_name R) → dir_logs R !! name = Some xs ↔ ∃ x, x ∈ R ∧ name = ld_name x ∧ xs = ld_log x.
Proof.
  intros Hnd. unfold dir_logs. rewrite <- elem_of_list_to_map by (by rewrite <- list_fmap_compose). rewrite list_elem_of_fmap. split.
  - intros (x & [= -> ->] & Hx). eauto.
  - intros (x & Hx & -> & ->). by exists x.
Qed.

Lemma run_payloads_lookup n es : ∀ k i, run_payloads txid n k es !! i = (λ e, lc_decoded (stamped_at txid n (k + i) e)) <$> es !! i.
Proof.
  induction es as [|e es IH]; intros k [|i]; cbn [run_payloads lookup list_lookup]; [done|done|by rewrite Nat.add_0_r|].
  fold (list_lookup (A := stampedEntry)). change (run_payloads txid n (S k) es !! i = (λ e, lc_decoded (stamped_at txid n (k + S i) e)) <$> es !! i).
  rewrite IH. by replace (S k + i) with (k + S i) by lia.
Qed.

Lemma run_complete r xs : run_good txid r → map payload (tx_items txid xs) = payloads txid r → complete_run (run_part r) txid xs.
Proof.
  intros [Hn _] Hp. assert (Hlen : length (tx_items txid xs) = length (run_entries r)).
  { rewrite <- (length_map payload), Hp. unfold payloads. generalize 0. generalize (u32n (length (run_entries r))). intros n. clear Hn Hp.
    induction (run_entries r) as [|e es IH]; intros k; [done|]. cbn [run_payloads length]. by rewrite IH. }
  assert (Hat : ∀ i x, tx_items txid xs !! i = Some x → ∃ e, run_entries r !! i = Some e ∧
    payload x = lc_decoded (stamped_at txid (u32n (length (run_entries r))) i e)).
  { intros i x Hx. assert (Hm : map payload (tx_items txid xs) !! i = Some (payload x)) by (by rewrite list_lookup_fmap, Hx).
    rewrite Hp in Hm. unfold payloads in Hm. rewrite run_payloads_lookup in Hm. apply fmap_Some in Hm as (e & He & ->). eauto. }
  split.
  - intros E. rewrite E in Hlen. by destruct (run_entries r).
  - cbn [run_part p_N]. by rewrite Hlen.
  - intros i x Hx. destruct (Hat i x Hx) as (e & _ & Hpx). by apply payload_stamp in Hpx as [-> _].
  - cbn [run_part p_D]. f_equal. apply list_eq. intros i. rewrite !list_lookup_fmap. destruct (tx_items txid xs !! i) as [x|] eqn:Ex.
    + destruct (Hat i x Ex) as (e & -> & Hpx). cbn [fmap option_fmap option_map]. f_equal. injection Hpx as Hx _. unfold sv_ref. by rewrite Hx.
    + apply lookup_ge_None in Ex. rewrite Hlen in Ex. apply lookup_ge_None in Ex. by rewrite Ex.
Qed.

(** Recovery succeeds on such a root. *)
Lemma left_root_ok runs (keep : bool) R t3 :
  Forall2 (left_dir runs keep) C R → NoDup (map run_col runs) → Forall (run_good txid) runs → others_of txid t t3 →
  (if keep then committed_with txid (map run_part runs) t3 ∧ ∀ r, r ∈ runs → run_col r ∈ map xc_name C else uncommitted txid t3) →
  root_ok t3 R.
Proof.
  intros HR Hnd Hg Hoth Hdec.
  assert (Hnames : map ld_name R = map xc_name C) by (clear -HR; induction HR as [|c x C R Hx _ IH]; [done|]; cbn [map]; by rewrite (lf_name _ _ _ _ Hx), IH).
  assert (HndR : NoDup (map ld_name R)) by (rewrite Hnames; apply Hw).
  assert (Hto : ∀ x, x ∈ R → ∃ c, c ∈ C ∧ left_dir runs keep c x).
  { intros x Hx. apply list_elem_of_lookup in Hx as [i Hi]. destruct (Forall2_lookup_r _ _ _ _ _ HR Hi) as (c & Hc & Hl).
    exists c. split; [by eapply list_elem_of_lookup_2|done]. }
  assert (Hfrom : ∀ c, c ∈ C → ∃ x, x ∈ R ∧ left_dir runs keep c x).
  { intros c Hc. apply list_elem_of_lookup in Hc as [i Hi]. destruct (Forall2_lookup_l _ _ _ _ _ HR Hi) as (x & Hx & Hl).
    exists x. split; [by eapply list_elem_of_lookup_2|done]. }
  split; [apply Forall_forall; intros x Hx; destruct (Hto x Hx) as (c & _ & Hl); apply Hl|done| |].
  - intros x Hx. destruct (Hto x Hx) as (c & Hc & [_ _ _ (ys & -> & Hl & _)]). by apply left_contiguous.
  - intros tx d Hd Ho Hr. destruct (decide (tx = txid)) as [->|Hd'].
    + destruct keep; [|by destruct (Hdec d Hd)]. destruct Hdec as [(d' & Hd' & _ & _ & Hps) Hex]. replace d' with d in * by congruence. rewrite Hps. split.
      * intros p (r & -> & Hr2)%list_elem_of_fmap. cbn [run_part p_C]. pose proof (Hex r Hr2) as Hin.
        apply list_elem_of_fmap in Hin as (c & Hcr & Hc). destruct (Hfrom c Hc) as (x & Hx & Hl). exists (ld_log x).
        split; [apply dirs_lookup; [done|]; exists x; split_and!; [done| |done]; by rewrite (lf_name _ _ _ _ Hl)|].
        rewrite Forall_forall in Hg. apply run_complete; [by apply Hg|]. rewrite (left_items_run runs c x Hc Hl), <- Hcr. by apply run_of_at.
      * intros name xs Hxs Hne2. apply dirs_lookup in Hxs as (x & Hx & -> & ->); [|done]. destruct (Hto x Hx) as (c & Hc & Hl).
        pose proof (left_items_run runs c x Hc Hl) as Hit. rewrite (lf_name _ _ _ _ Hl). destruct (decide (xc_name c ∈ map run_col runs)) as [Hin|Hn].
        -- apply list_elem_of_fmap in Hin as (r & -> & Hr2). exists (run_part r). split; [by apply (list_elem_of_fmap_2 run_part)|done].
        -- rewrite run_of_none in Hit by done. by apply fmap_nil_inv in Hit.
    + apply Hoth in Hd as Hd0; [|done]. destruct (wk_coord _ _ _ _ Hw tx d Hd0 Ho Hr) as [Hc1 Hc2].
      assert (Hsame : ∀ c x, c ∈ C → left_dir runs keep c x → tx_items tx (ld_log x) = tx_items tx (xc_log c)).
      { intros c x Hc Hl. apply (left_items_log runs keep); try done. by eapply (xo_durable _ _ _ _ (world_col c Hc)). }
      split.
      * intros p Hp. destruct (Hc1 p Hp) as (xs & Hxs & Hcr). apply logs_lookup in Hxs as (c & Hc & Hpc & ->).
        destruct (Hfrom c Hc) as (x & Hx & Hl). exists (ld_log x).
        split; [apply dirs_lookup; [done|]; exists x; split_and!; [done| |done]; by rewrite Hpc, (lf_name _ _ _ _ Hl)|].
        eapply complete_same; [|exact Hcr]. symmetry. by apply Hsame.
      * intros name xs Hxs Hne2. apply dirs_lookup in Hxs as (x & Hx & -> & ->); [|done]. destruct (Hto x Hx) as (c & Hc & Hl).
        rewrite (lf_name _ _ _ _ Hl). apply (Hc2 (xc_name c) (xc_log c)); [apply logs_lookup; eauto|]. by rewrite <- (Hsame c x Hc Hl).
Qed.

End World.

(** ** What the readers see of the transaction *)

(** The entries of [txid] that readers see in a collection after recovery. *)
Definition shown (rc : recovered) (txid : string) (c : xcol) (pl : list (Entry * option TxStamp)) : Prop :=
  ∃ col ax, rec_cols rc !! xc_name c = Some col ∧ col_ok col (xc_sx c) ax ∧
    map payload (tx_items txid (visible (rec_decisions rc) (concat (xc_sx c) ++ ax))) = pl.

Lemma visible_items ds txid xs : tx_items txid (visible ds xs) = visible ds (tx_items txid xs).
Proof. unfold tx_items, visible. rewrite !list_filter_filter. apply list_filter_iff. tauto. Qed.

Lemma visible_committed (t : xtxTable) txid xs :
  (∃ d, byTx t !! txid = Some d ∧ d_Outcome d = xtxKindCommit) → Forall (λ x, stamp_tx x = txid) xs →
  visible (Some (dec_text <$> byTx t)) xs = xs.
Proof.
  intros (d & Hd & Ho) H. unfold visible. apply filter_all. eapply Forall_impl; [exact H|]. intros x Hx. unfold stamp_tx in Hx.
  destruct (sv_Tx x) as [st|]; [|done]. cbn [entryVisible]. case_decide; [done|]. rewrite dm_lookup, Hx, Hd. cbn [fmap option_fmap option_map default from_option id].
  apply bool_decide_eq_true. rewrite text_visible; [done|by left].
Qed.

Lemma items_stamped txid xs : Forall (λ x, stamp_tx x = txid) (tx_items txid xs).
Proof. apply Forall_forall. intros x [[? _] _]%list_elem_of_filter. done. Qed.

Lemma alloc_nonempty j tx : allocated j tx → tx ≠ "".
Proof. intros (s & Hs & _) ->. done. Qed.

(** What recovery shows of the transaction. *)
Lemma recovered_shows t j3 R b epoch now b' C a runs txid (keep : bool) :
  world_ok t txid C a → txid ≠ "" →
  openXTxJournal b epoch now [] = (b', [], Ok j3) → classifyXTxJournalBeforeOpen (Some b) = xtxJournalHealthy → root_ok (table j3) R →
  Forall2 (left_dir txid runs keep) C R →
  (if keep then ∃ d, byTx (table j3) !! txid = Some d ∧ d_Outcome d = xtxKindCommit else uncommitted txid (table j3)) →
  ∃ rc, recoverCoordinator true (Some b) (map ld_entry R) epoch now [] = ([], Ok rc) ∧
    ∀ c, c ∈ C → shown rc txid c (if keep then run_of txid runs (xc_name c) else []).
Proof.
  intros Hw Hne Ho Hh Hro HR Hdec. destruct (recover_ok b epoch now b' j3 R Ho Hh Hro) as (rc & jf & Hrec & _ & _ & _ & _ & _ & Hcols).
  exists rc. split; [done|]. intros c Hc. apply list_elem_of_lookup in Hc as Hi. destruct Hi as [i Hi].
  destruct (Forall2_lookup_l _ _ _ _ _ HR Hi) as (x & Hx & Hl). destruct (Hcols x (list_elem_of_lookup_2 _ _ _ Hx)) as (col & ax & Hcol & Hok & _ & Hvis).
  exists col, ax. rewrite (lf_name _ _ _ _ _ Hl) in Hcol. rewrite (lf_sealed _ _ _ _ _ Hl) in Hok, Hvis. split_and!; [done|done|].
  rewrite Hvis, visible_items. destruct keep.
  - unfold decisionsMap. rewrite (visible_committed _ txid) by (done || apply items_stamped). by eapply left_items_run.
  - rewrite (contiguous_tail_invisible (decisionsMap j3) txid); [done| |done|apply items_stamped].
    intros v Hv. unfold decisionsMap in Hv. rewrite dm_lookup in Hv. destruct (byTx (table j3) !! txid) as [d|] eqn:Ed; [|done].
    injection Hv as <-. destruct (open_facts _ _ _ _ _ _ _ Ho) as (_ & _ & _ & Hout). pose proof (Hdec d Ed). pose proof (text_visible d (Hout txid d Ed)). tauto.
Qed.

(** Claim C12: a transaction over several collections is atomic.  The journal is open
    and usable and the id is new in it; the participants' files are readable line by
    line, the runs of each earlier transaction are contiguous, and those of the
    committed and unretired ones are there and forced to disk; the records and the
    key of the transaction are readable (strings in UTF-8, within the size limits).
    Then any of the file calls of the commit protocol fail, in the participants or in
    the journal, and the process crashes, losing any part of what was not forced to
    disk.  The next process opens the journal, recovery succeeds, and in every
    collection the readers see the whole run of the transaction, or in none of them
    anything of it: the whole when the commit had been reported, and nothing when it
    had been reported as failed.  The only other case is a double fault: the write of
    the COMMIT line was reported as failed although all of it reached the file, and
    cutting it off failed too. *)
Theorem commit_atomic j a key txid runs bind nowc nowa fs j' a' fs' bar r C b root epoch now :
  ready txid key (map run_part runs) bind nowc nowa j → world_ok (table j) txid C a →
  NoDup (map run_col runs) → Forall (run_good txid) runs →
  xtxPrepareAndDecide j a key txid runs bind nowc nowa fs = (j', a', fs', bar, r) →
  crash_image j' b → Forall2 (crashed_col a') C root →
  (∃ j3 b' d, openXTxJournal b epoch now [] = (b', [], Ok j3) ∧ decision j3 txid = Some d ∧ d_Outcome d = xtxKindCommit ∧
     r = Err (XDurability txid) ∧ j_poisoned j' = true) ∨
  ∃ rc (keep : bool), recoverCoordinator true (Some b) root epoch now [] = ([], Ok rc) ∧
    (∀ c, c ∈ C → shown rc txid c (if keep then run_of txid runs (xc_name c) else [])) ∧
    (is_ok r = true → keep = true) ∧ (r = Err (XDurability txid) → keep = false).
Proof.
  intros Hr Hw Hnd Hg He Hc Hroot. pose proof (alloc_nonempty _ _ (rd_alloc _ _ _ _ _ _ _ Hr)) as Hne.
  destruct (decide_spec (xc_bases C) txid key runs bind nowc nowa j a fs j' a' fs' bar r Hr) as (Hf & Hdom & Hcr); [by eapply world_untouched|done|done|done|].
  destruct (Hcr b epoch now Hc) as (j3 & [(b' & Ho) Hhealth] & Hoth & Hcase). destruct Hcase as [[Hun Hres]|[(Hcom & Hres & Hall)|(Hcom & Hres & Hpz)]].
  3: { left. destruct Hcom as (d & Hd & Hoc & _). by exists j3, b', d. }
  - right. destruct (left_dirs txid runs false C root a') as (R & <- & HR).
    { intros c e Hcc Hce. destruct (crashed_dir (table j) txid C a Hw a' c e Hcc Hf Hce) as (ys & H1 & H2 & H3). by exists ys. } { done. }
    assert (Hro : root_ok (table j3) R) by (by eapply left_root_ok).
    destruct (recovered_shows _ j3 R b epoch now b' C a runs txid false Hw Hne Ho Hhealth Hro HR Hun) as (rc & Hrec & Hsh).
    exists rc, false. split_and!; [done|done|by destruct r|done].
  - right. destruct (left_dirs txid runs true C root a') as (R & <- & HR).
    { intros c e Hcc Hce. destruct (crashed_prepared (table j) txid C a Hw Hne runs a' c e Hcc Hnd Hall Hce) as (ys & H1 & H2 & H3 & H4). by exists ys. } { done. }
    assert (Hro : root_ok (table j3) R).
    { eapply left_root_ok; try done. cbn. split; [done|]. intros r0 Hr0. destruct Hall as [Hp _]. destruct (Hp r0 Hr0) as (f & w & ext & _ & Hwb & _).
      apply elem_of_list_to_map_2 in Hwb. apply list_elem_of_fmap in Hwb as (c & [= -> _] & Hcc). by apply (list_elem_of_fmap_2 xc_name). }
    assert (Hcd : ∃ d, byTx (table j3) !! txid = Some d ∧ d_Outcome d = xtxKindCommit) by (destruct Hcom as (d & Hd & Hoc & _); by exists d).
    destruct (recovered_shows _ j3 R b epoch now b' C a runs txid true Hw Hne Ho Hhealth Hro HR Hcd) as (rc & Hrec & Hsh).
    exists rc, true. by split_and!.
Qed.
