(* ===== verification/XTxSample.v ===== *)
(** * A cross-collection commit, evaluated

    Two collections, one entry each: the commit, the crash and the recovery, and
    the double fault that recovery refuses. *)
From Stdlib Require Import Ascii Lia ZArith.
From stdpp Require Import prelude gmap strings sorting.
From S2P Require Import Prelude GoNum Json Value GoTime Store Wire Codec Segment Index Sha256 Journal JournalThm JournalInv JournalOps JournalSafe Salvage Names XTx XTxInv XTxRecover XTxPrep XTxAtomic XTxCommit.

Definition sx_seg : Segment := fresh_segment.
Definition sx_actives : actives := <["orders" := MkXFile sx_seg 0]> (<["stock" := MkXFile sx_seg 0]> ∅).
Definition sx_runs : list xtxRun := [MkRun "orders" [sample_stamped]; MkRun "stock" [sample_stamped]].
Definition sx_base : base := MkBase (path sx_seg) [] [].
Definition sx_cols : list xcol := [MkXCol "orders" [] [] sx_base; MkXCol "stock" [] [] sx_base].

Lemma sx_opened : ∃ f fs, openXTxJournal [] sj_epoch sj_now [] = (f, fs, Ok sj_open).
Proof. eexists _, _. vm_compute. reflexivity. Qed.

Lemma sx_jinv : jinv (λ _, False) sj_1.
Proof.
  assert (H1 : epoch_ok sj_epoch) by (by vm_compute).
  assert (H2 : (maxSeq (table sj_open) + 1 < two64)%Z) by (by vm_compute).
  assert (H3 : (h_Gen (j_hdr sj_open) + 1 < two64)%Z) by (by vm_compute).
  assert (H4 : (nextSeq sj_open + 1 < two64)%Z) by (by vm_compute).
  assert (Hi : jinv (λ _, False) sj_open).
  { destruct sx_opened as (f & fs & Ho). exact (open_jinv _ _ _ _ _ _ _ _ Ho H1 sj_now_wf H2 H3). }
  pose proof (allocate_spec _ sj_open "k1" _ _ Hi H4 (surjective_pairing (allocateTxID sj_open "k1"))) as (H & _).
  unfold sj_1. cbn [exec]. by rewrite (surjective_pairing (allocateTxID sj_open "k1")).
Qed.

Lemma sx_ready : ready sj_tx1 "k1" (map run_part sx_runs) None sj_now sj_now sj_1.
Proof.
  split; [apply sx_jinv|by vm_compute|by exists 1%Z; vm_compute|by vm_compute|by vm_compute; lia|split; apply sj_now_wf| |done| | |by vm_compute].
  - by repeat constructor.
  - intros pd Hpd. vm_compute in Hpd. injection Hpd as <-. split; [by vm_compute|]. by repeat constructor.
  - split; [by vm_compute|]. by repeat constructor.
Qed.

Lemma sx_good : Forall (run_good sj_tx1) sx_runs.
Proof.
  assert (Hg : entry_good (stamped_at sj_tx1 1 0 sample_stamped)).
  { split; [|done]. split; [|discriminate]. destruct sample_stamped_wf. by split. }
  constructor; [by split; [|split]|]. constructor; [by split; [|split]|constructor].
Qed.

Lemma sx_act : act (MkXFile sx_seg 0) [] [].
Proof. split; [|cbn; lia|done|done]. exists [], [], []. split_and!; [done|constructor|constructor|apply not_elem_of_nil|cbn; lia|done]. Qed.

Lemma sx_world : world_ok (table sj_1) sj_tx1 sx_cols sx_actives.
Proof.
  split.
  - apply (NoDup_cons_2 "orders" ["stock"]); [by intros [?|?%elem_of_nil]%elem_of_cons|apply NoDup_singleton].
  - assert (Hc : ∀ name, isReservedXTxName name = false → validateLegacyName name = Ok tt → sx_actives !! name = Some (MkXFile sx_seg 0) →
      xcol_ok (table sj_1) sj_tx1 sx_actives (MkXCol name [] [] sx_base)).
    { intros name H1 H2 H3. split; cbn [xc_name xc_sealed xc_sx xc_base sx_base bs_sx bs_ux bs_path].
      - done.
      - constructor.
      - exists (MkXFile sx_seg 0). split_and!; [done|apply sx_act|done].
      - done.
      - intros tx _. by exists [], [], [].
      - done.
      - done. }
    constructor; [apply Hc; by vm_compute|]. constructor; [apply Hc; by vm_compute|constructor].
  - intros name [f Hf]. unfold sx_actives in Hf. cbn [sx_cols map xc_name]. destruct (decide (name = "orders")) as [->|H1]; [left|].
    rewrite lookup_insert_ne in Hf by done. destruct (decide (name = "stock")) as [->|H2]; [right; left|].
    rewrite lookup_insert_ne, lookup_empty in Hf by done. done.
  - intros tx d Hd. replace (byTx (table sj_1)) with (∅ : gmap string xtxDecision) in Hd by (vm_compute; reflexivity). by rewrite lookup_empty in Hd.
Qed.

(** The journal cannot force the COMMIT line to disk. *)
Definition sx_faults : list fault := [FOk; FOk; FOk; FOk; FOk; FFail 0].
Definition sx_result := xtxPrepareAndDecide sj_1 sx_actives "k1" sj_tx1 sx_runs None sj_now sj_now sx_faults.
Definition sx_journal : xtxJournal := sx_result.1.1.1.1.
Definition sx_after : actives := sx_result.1.1.1.2.

Definition sx_entry (name : string) : rootEntry :=
  MkREnt name KDir [(path sx_seg, match sx_after !! name with Some f => disk (xf_seg f) | None => [] end)].
Definition sx_root : list rootEntry := [sx_entry "orders"; sx_entry "stock"].

Lemma commit_atomic_witness :
  sx_result.2 = Err (XOutcomeUnknown sj_tx1) ∧
  ((∃ j3 b' d, openXTxJournal (j_disk sx_journal) sj_epoch sj_now [] = (b', [], Ok j3) ∧ decision j3 sj_tx1 = Some d ∧ d_Outcome d = "commit" ∧
     sx_result.2 = Err (XDurability sj_tx1) ∧ j_poisoned sx_journal = true) ∨
   ∃ rc (keep : bool), recoverCoordinator true (Some (j_disk sx_journal)) sx_root sj_epoch sj_now [] = ([], Ok rc) ∧
     (∀ c, c ∈ sx_cols → shown rc sj_tx1 c (if keep then run_of sj_tx1 sx_runs (xc_name c) else [])) ∧
     (is_ok sx_result.2 = true → keep = true) ∧ (sx_result.2 = Err (XDurability sj_tx1) → keep = false)).
Proof.
  split; [vm_compute; reflexivity|].
  refine (commit_atomic sj_1 sx_actives "k1" sj_tx1 sx_runs None sj_now sj_now sx_faults sx_journal sx_after sx_result.1.1.2 sx_result.1.2 sx_result.2
    sx_cols (j_disk sx_journal) sx_root sj_epoch sj_now sx_ready sx_world _ sx_good _ _ _).
  - apply (NoDup_cons_2 "orders" ["stock"]); [by intros [?|?%elem_of_nil]%elem_of_cons|apply NoDup_singleton].
  - unfold sx_journal, sx_after. fold sx_result. by destruct sx_result as [[[[??]?]?]?].
  - left. exists (length (j_disk sx_journal)). split; [vm_compute; lia|by rewrite take_ge].
  - assert (Hc : ∀ name f, sx_after !! name = Some f → path (xf_seg f) = path sx_seg → xf_synced f ≤ length (disk (xf_seg f)) →
      crashed_col sx_after (MkXCol name [] [] sx_base) (sx_entry name)).
    { intros name f Hf Hp Hs. exists f, (length (disk (xf_seg f))). split_and!; [done|done|]. unfold sx_entry. rewrite Hf, Hp, take_ge by done. done. }
    constructor; [|constructor; [|constructor]]; (eapply Hc; [vm_compute; reflexivity|vm_compute; reflexivity|vm_compute; lia]).
Defined.

(** ** The double fault

    Both runs are on disk; the write of the COMMIT line reports an error although
    the whole line reached the file, and the truncation fails.  The call reports
    that the transaction failed and cuts the runs off; the journal, opened again,
    holds the commit, and recovery refuses to open the database. *)
Definition dx_faults : list fault := [FOk; FOk; FOk; FOk; FFail 4096; FFail 0].
Definition dx_result := xtxPrepareAndDecide sj_1 sx_actives "k1" sj_tx1 sx_runs None sj_now sj_now dx_faults.
Definition dx_journal : xtxJournal := dx_result.1.1.1.1.
Definition dx_root : list rootEntry :=
  map (λ name, MkREnt name KDir [(path sx_seg, match dx_result.1.1.1.2 !! name with Some f => disk (xf_seg f) | None => [] end)]) ["orders"; "stock"].

Lemma failed_commit_blocks_open :
  dx_result.2 = Err (XDurability sj_tx1) ∧ j_poisoned dx_journal = true ∧
  recoverCoordinator true (Some (j_disk dx_journal)) dx_root sj_epoch sj_now [] = ([], Err (XIncomplete sj_tx1)).
Proof. vm_compute. done. Qed.

(** ** A dead run

    The process died between the two appends: one participant has its run, the
    journal has no decision. *)
Definition rx_seg : Segment := (append_run sx_seg sj_tx1 1 0 [sample_stamped] []).1.1.
Definition rx_entry : rootEntry := MkREnt "orders" KDir [(path rx_seg, disk rx_seg)].

Lemma act_dir name f ux :
  act f [] ux → poisoned (xf_seg f) = false → isReservedXTxName name = false → validateLegacyName name = Ok tt →
  dir_ok (MkREnt name KDir [(path (xf_seg f), disk (xf_seg f))]) [] ux.
Proof.
  intros Hact Hp H1 H2. destruct (act_tidy _ _ _ Hact) as (torn & Ht & Hd & Htn). cbn [app] in *. rewrite (Htn Hp), app_nil_r in Hd. rewrite <- Hd in Ht.
  split; [done|done|done|]. exists [], (path (xf_seg f)), (disk (xf_seg f)), []. rewrite app_nil_r. split_and!; [done|constructor|done|apply not_elem_of_nil].
Qed.

Lemma rx_log : ∃ ext, ext ≠ [] ∧ dir_ok rx_entry [] ext ∧ contiguous ext.
Proof.
  assert (Hpo : poisoned rx_seg = false) by (vm_compute; reflexivity). pose proof sx_good as Hg. apply Forall_cons in Hg as [[_ Hg] _].
  pose proof (surjective_pairing (append_run sx_seg sj_tx1 1 0 [sample_stamped] [])) as E. rewrite (surjective_pairing (append_run _ _ _ _ _ _).1) in E.
  destruct (append_run_act sj_tx1 1 [sample_stamped] (MkXFile sx_seg 0) 0 [] [] [] _ _ _ sx_act Hg E) as (ext & Hact & _ & _ & Hok).
  clear E. destruct Hok as [Hpl _]; [vm_compute; reflexivity|]. exists ext. split; [intros ->; discriminate Hpl|]. split.
  - apply (act_dir "orders" (MkXFile rx_seg 0)); [exact Hact|exact Hpo|vm_compute; reflexivity|vm_compute; reflexivity].
  - apply (contiguous_run sj_tx1 [] ext); [intros tx _; exists [], [], []; repeat split; constructor|reflexivity|].
    apply (run_payloads_tx sj_tx1 1 [sample_stamped] 0). rewrite Hpl. reflexivity.
Qed.

Lemma recovery_resolves_witness :
  ∃ ext, ext ≠ [] ∧ ∃ r jf, recoverCoordinator true (Some (j_disk sj_open)) [rx_entry] sj_epoch sj_now [] = ([], Ok r) ∧
    rec_journal r = Some jf ∧ rec_decisions r = Some (decisionsMap jf) ∧ usable jf = Ok tt ∧
    (∀ tx d, decision sj_open tx = Some d → decision jf tx = Some d) ∧
    (∀ tx d, decision jf tx = Some d → decision sj_open tx = None → d_Outcome d = xtxKindAbort) ∧
    ∀ x, x ∈ [(rx_entry, [], ext)] → ∃ c ax, rec_cols r !! ld_name x = Some c ∧ col_ok c x.1.2 ax ∧ ax `prefix_of` x.2 ∧
      visible (rec_decisions r) (concat x.1.2 ++ ax) = visible (Some (decisionsMap sj_open)) (ld_log x).
Proof.
  destruct rx_log as (ext & Hne & Hd & Hc). exists ext. split; [exact Hne|].
  apply (recovery_resolves (j_disk sj_open) sj_epoch sj_now (j_disk sj_open) sj_open [(rx_entry, [], ext)]).
  - vm_compute. reflexivity.
  - vm_compute. reflexivity.
  - split.
    + by constructor.
    + apply NoDup_singleton.
    + intros x [->|Hx%elem_of_nil]%elem_of_cons; done.
    + intros tx d H. replace (byTx (table sj_open)) with (∅ : gmap string xtxDecision) in H by (vm_compute; reflexivity). by rewrite lookup_empty in H.
Defined.
