(* ===== verification/XSpec.v ===== *)
(** * The repository's own specification of transaction recovery:
    [internal/xtxspec]

    The package is a second, pure statement of the decision rules, the recovery
    truth table and the checklist of crash points, which no production code
    imports.  Here it is the abstract specification that the recovery of
    [engine/xtx_recovery.go] is proved to refine. *)
From Stdlib Require Import Ascii Lia ZArith.
From stdpp Require Import prelude gmap strings sorting.
From S2P Require Import Prelude GoNum Json Value GoTime Store Wire Codec Segment Index Sha256 Journal JournalThm JournalInv Salvage Names XTx.

(** ** Decisions: [journal.go] *)

Inductive dec : Type := DecNone | DecCommit | DecAbort | DecRetireCommit | DecRetireAbort.

#[global] Instance dec_eq_dec : EqDecision dec.
Proof. solve_decision. Defined.

(** The order of the constants, by which a retirement supersedes a decision. *)
Definition dec_rank (d : dec) : nat :=
  match d with DecNone => 0 | DecCommit => 1 | DecAbort => 2 | DecRetireCommit => 3 | DecRetireAbort => 4 end.

Definition commits (d : dec) : bool := bool_decide (d = DecCommit ∨ d = DecRetireCommit).

Inductive spec_err : Type := ErrJournalCorrupt | ErrDecisionConflict (tx : string).

Definition record_dec (k o : string) : option dec :=
  if decide (k = xtxKindCommit) then Some DecCommit
  else if decide (k = xtxKindAbort) then Some DecAbort
  else if decide (k = xtxKindRetire ∧ o = xtxKindCommit) then Some DecRetireCommit
  else if decide (k = xtxKindRetire ∧ o = xtxKindAbort) then Some DecRetireAbort
  else None.

(** [Journal.Decisions] over the records, from the map [out]. *)
Fixpoint fold_decisions (out : gmap string dec) (rs : list xtxRecord) : res spec_err (gmap string dec) :=
  match rs with
  | [] => Ok out
  | r :: rs' =>
      match record_dec (r_K r) (r_O r) with
      | None => Err ErrJournalCorrupt
      | Some d =>
          match out !! r_Tx r with
          | None => fold_decisions (<[r_Tx r := d]> out) rs'
          | Some prev =>
              if negb (eqb (commits prev) (commits d)) then Err (ErrDecisionConflict (r_Tx r))
              else fold_decisions (if dec_rank prev <? dec_rank d then <[r_Tx r := d]> out else out) rs'
          end
      end
  end.

Definition Decisions (rs : list xtxRecord) : res spec_err (gmap string dec) := fold_decisions ∅ rs.

(** ** Digests: [wire.go] *)

Definition run_op_bytes (i : nat) (o : xtxOpRef) : bytes :=
  le32 (u32n i) ++ le64 (ref_ID o) ++ b_of_s (ref_Op o) ++ ["000"%char] ++ le64 (ref_Rev o).

Definition ParticipantDigest (run : list xtxOpRef) : string := s_of_b (hex_encode (sha256 (concat (imap run_op_bytes run)))).

(** Over the text of the digests, where the engine takes their bytes. *)
Definition SetDigest (parts : list xtxPart) : string :=
  s_of_b (hex_encode (sha256 (concat (map (λ p, b_of_s (p_C p) ++ ["000"%char] ++ le32 (p_N p) ++ b_of_s (p_D p)) parts)))).

(** ** The truth table: [recovery.go] *)

Inductive outcome : Type := OutNothing | OutAborted | OutCommitted | OutRefuse.

#[global] Instance outcome_eq_dec : EqDecision outcome.
Proof. solve_decision. Defined.

Definition CodeNone : string := "".
Definition CodeParticipantMissing : string := "xtx-participant-missing".
Definition CodeDigestMismatch : string := "xtx-digest-mismatch".
Definition CodeMissingCollection : string := "xtx-missing-collection".
Definition CodeForeignRun : string := "xtx-foreign-run".
Definition CodeDecisionConflict : string := "xtx-decision-conflict".
Definition CodeJournalMissing : string := "xtx-journal-missing".
Definition CodeUndecidedRun : string := "xtx-undecided-run".

Record Run : Type := MkSpecRun { rn_Complete : bool; rn_N : N; rn_Digest : string; rn_Destamped : bool }.

Record Input : Type := MkInput {
  in_Decision : dec;
  in_Parts : list xtxPart;
  in_Evidence : gmap string Run;
  in_Existing : gset string;
  in_JournalMissing : bool;
  in_Conflict : bool;
  in_TornJournalTail : bool
}.

Record Result : Type := MkResult { rt_Row : nat; rt_Outcome : outcome; rt_Code : string; rt_Action : string }.

(** The last loop: row 5 at the first participant that fails, else row 3 or 4. *)
Fixpoint check_parts (evidence : gmap string Run) (row : nat) (parts : list xtxPart) : Result :=
  match parts with
  | [] => MkResult row OutCommitted CodeNone "entries visible; indexes tail-replayed"
  | p :: parts' =>
      let missing := MkResult 5 OutRefuse CodeParticipantMissing "ErrXTxIncomplete; never commit a subset" in
      match evidence !! p_C p with
      | None => missing
      | Some ev =>
          if rn_Destamped ev then check_parts evidence 4 parts'
          else if negb (rn_Complete ev) || negb (rn_N ev =? p_N p)%N then missing
          else if decide (rn_Digest ev ≠ p_D p) then MkResult 5 OutRefuse CodeDigestMismatch "ErrXTxIncomplete; never commit a subset"
          else check_parts evidence row parts'
      end
  end.

Definition Resolve (i : Input) : Result :=
  let some_evidence := negb (bool_decide (in_Evidence i = ∅)) in
  if in_Conflict i then MkResult 11 OutRefuse CodeDecisionConflict "refuse open"
  else if in_JournalMissing i && some_evidence then
    MkResult 12 OutRefuse CodeJournalMissing "refuse open; operator repair --xtx-presume-abort"
  else match in_Decision i with
       | DecNone =>
           if negb some_evidence then MkResult 1 OutNothing CodeNone ""
           else MkResult (if in_TornJournalTail i then 13 else 2) OutAborted CodeUndecidedRun
                  "truncate tail runs; append ABORT{why:recovery}; fsync"
       | DecAbort => MkResult 8 OutAborted CodeNone "skip entries; truncate if still tail"
       | DecRetireAbort => MkResult 10 OutAborted CodeNone "skip; drop at next compaction"
       | DecRetireCommit => MkResult 9 OutCommitted CodeNone "entries visible; no digest check"
       | DecCommit =>
           if negb (forallb (λ kv, existsb (λ p, bool_decide (p_C p = kv.1)) (in_Parts i)) (map_to_list (in_Evidence i))) then
             MkResult 7 OutRefuse CodeForeignRun "ErrXTxIncomplete; refuse open"
           else if negb (forallb (λ p, bool_decide (p_C p ∈ in_Existing i)) (in_Parts i)) then
             MkResult 6 OutRefuse CodeMissingCollection "refuse open"
           else check_parts (in_Evidence i) 3 (in_Parts i)
       end.

Definition EntryVisible (txid : string) (ds : gmap string dec) : bool := commits (default DecNone (ds !! txid)).

(** ** The checklist of crash points: [boundaries.go] *)

Inductive kind : Type := KindWrite | KindFsync | KindRename | KindCreate.

(** A state of the disk after a crash, and the verdict it must get. *)
Record CrashState : Type := MkState { cs_Label : string; cs_In : Input; cs_Want : Result; cs_MayHaveAck : bool }.

Record Boundary : Type := MkBoundary {
  bd_ID : string; bd_Design : string; bd_Step : string; bd_Kind : kind; bd_Target : string; bd_What : string; bd_States : list CrashState
}.

Definition runA : list xtxOpRef := [MkOpRef 1 "insert" 1; MkOpRef 2 "update" 2].
Definition runB : list xtxOpRef := [MkOpRef 7 "delete" 4].
Definition ScenarioParts : list xtxPart := [MkPart "orders" 2 (ParticipantDigest runA); MkPart "stock" 1 (ParticipantDigest runB)].
Definition existing : gset string := {["orders"; "stock"]}.
Definition fullA : Run := MkSpecRun true 2 (ParticipantDigest runA) false.
Definition fullB : Run := MkSpecRun true 1 (ParticipantDigest runB) false.
Definition tornA : Run := MkSpecRun false 1 "partial" false.

Definition undecided (ev : gmap string Run) : Input := MkInput DecNone [] ev existing false false false.
Definition committed (ev : gmap string Run) : Input := MkInput DecCommit ScenarioParts ev existing false false false.

Definition st (label : string) (i : Input) (row : nat) (out : outcome) (ack : bool) : CrashState :=
  let code := if (row =? 2) || (row =? 13) then CodeUndecidedRun else CodeNone in
  MkState label i (MkResult row out code "") ack.

Definition Boundaries : list Boundary :=
  [MkBoundary "F1" "§6.3.5" "F1" KindCreate "xtx.format"
     "create + write xtx.format"
     [st "absent or torn: gate not yet durable, no stamped bytes exist" (undecided ∅) 1 OutNothing false];
   MkBoundary "F2" "§6.3.5" "F2" KindFsync "xtx.format"
     "fsync xtx.format file"
     [st "file may be empty/torn; still no stamped bytes" (undecided ∅) 1 OutNothing false];
   MkBoundary "F3" "§6.3.4" "F3" KindFsync "<root>"
     "fsync root dir after xtx.format create"
     [st "format entry may vanish; no stamped bytes exist yet" (undecided ∅) 1 OutNothing false];
   MkBoundary "J1" "§4.1" "J1" KindCreate "xtx.journal"
     "create + write journal header"
     [st "header torn: rewritten at open; no runs yet" (undecided ∅) 1 OutNothing false];
   MkBoundary "J2" "§6.3.4" "J2" KindFsync "<root>"
     "fsync file + root dir after journal create"
     [st "journal may vanish before any run was appended" (undecided ∅) 1 OutNothing false];
   MkBoundary "S1a" "§6.2 S1" "S1" KindWrite "participant[k] segment"
     "append of one stamped line torn mid-line"
     [st "first participant's run torn" (undecided (list_to_map [("orders", tornA)])) 2 OutAborted false;
      st "a complete, b torn" (undecided (list_to_map [("orders", fullA); ("stock", (MkSpecRun false 0 "" false))])) 2 OutAborted false];
   MkBoundary "S1b" "§6.2 S1" "S1" KindWrite "participant[k] segment"
     "run k complete, run k+1 not started"
     [st "only orders has a complete run" (undecided (list_to_map [("orders", fullA)])) 2 OutAborted false];
   MkBoundary "S1c" "§6.2 S1" "S1" KindWrite "all segments"
     "all runs appended, none fsynced (page cache lost or kept)"
     [st "every run survived but no decision" (undecided (list_to_map [("orders", fullA); ("stock", fullB)])) 2 OutAborted false;
      st "nothing survived" (undecided ∅) 1 OutNothing false];
   MkBoundary "S2a" "§6.2 S2" "S2" KindFsync "participant[k] segment"
     "crash inside the k-th fsync (some runs durable)"
     [st "orders durable, stock lost" (undecided (list_to_map [("orders", fullA)])) 2 OutAborted false];
   MkBoundary "S2b" "§6.3.3" "S2" KindFsync "participant[k] segment"
     "fsync returns error (process survives)"
     [st "segment poisoned, XTx aborted; restart sees undecided runs" (undecided (list_to_map [("orders", fullA); ("stock", fullB)])) 2 OutAborted false];
   MkBoundary "S2c" "§6.2 S2" "S2" KindFsync "participant dir"
     "directory fsync for a segment created in this XTx"
     [st "new segment name may be lost, run with it" (undecided (list_to_map [("orders", fullA)])) 2 OutAborted false];
   MkBoundary "S3a" "§4.3" "S3" KindWrite "xtx.journal"
     "COMMIT line torn (no newline / zero fill)"
     [st "journal tail torn ⇒ truncated, runs complete, no decision" (MkInput DecNone [] (list_to_map [("orders", fullA); ("stock", fullB)]) existing false false true) 13 OutAborted false];
   MkBoundary "S3b" "§6.2 S3" "S3" KindWrite "xtx.journal"
     "COMMIT line whole in page cache, not fsynced"
     [st "record lost" (undecided (list_to_map [("orders", fullA); ("stock", fullB)])) 2 OutAborted false;
      st "record survived" (committed (list_to_map [("orders", fullA); ("stock", fullB)])) 3 OutCommitted false];
   MkBoundary "S4a" "§6.3.3" "S4" KindFsync "xtx.journal"
     "journal fsync returns error"
     [st "outcome unknown to the process: record lost" (undecided (list_to_map [("orders", fullA); ("stock", fullB)])) 2 OutAborted false;
      st "outcome unknown to the process: record durable" (committed (list_to_map [("orders", fullA); ("stock", fullB)])) 3 OutCommitted false];
   MkBoundary "S4b" "§6.2 S4" "S4" KindFsync "xtx.journal"
     "COMMIT durable, indexes not yet updated"
     [st "committed, tail-replayed at open" (committed (list_to_map [("orders", fullA); ("stock", fullB)])) 3 OutCommitted true];
   MkBoundary "S5" "§6.2 S5" "S5" KindWrite "in-memory indexes"
     "crash while applying runs to indexes"
     [st "committed; indexes rebuilt from segments + journal" (committed (list_to_map [("orders", fullA); ("stock", fullB)])) 3 OutCommitted true];
   MkBoundary "S7" "§6.2 S7" "S7" KindWrite "client connection"
     "crash after COMMIT fsync, before/after ack bytes"
     [st "client may or may not have the ack; tx is committed" (committed (list_to_map [("orders", fullA); ("stock", fullB)])) 3 OutCommitted true];
   MkBoundary "A1" "§4.2" "A1" KindWrite "xtx.journal"
     "advisory ABORT append (lost or kept)"
     [st "ABORT lost ⇒ presumed abort" (undecided (list_to_map [("orders", fullA)])) 2 OutAborted false;
      st "ABORT durable" (MkInput DecAbort [] (list_to_map [("orders", fullA)]) existing false false false) 8 OutAborted false];
   MkBoundary "R1" "§4.4.2" "R1" KindWrite "xtx.journal"
     "RETIRE append torn"
     [st "torn ⇒ truncated; COMMIT still authoritative" (committed (list_to_map [("orders", fullA); ("stock", fullB)])) 3 OutCommitted true];
   MkBoundary "R2" "§4.4.2" "R2" KindFsync "xtx.journal"
     "RETIRE fsync"
     [st "retired; no evidence needed" (MkInput DecRetireCommit [] ∅ existing false false false) 9 OutCommitted true;
      st "not retired; evidence still required" (committed (list_to_map [("orders", fullA); ("stock", fullB)])) 3 OutCommitted true];
   MkBoundary "R3" "§4.4.3" "R3" KindRename "participant segments"
     "compaction swap that de-stamps retired entries"
     [st "old or new segments whole (existing compact.manifest recovery); de-stamped part ok" (MkInput DecCommit ScenarioParts (list_to_map [("orders", (MkSpecRun false 0 "" true)); ("stock", fullB)]) existing false false false) 4 OutCommitted true];
   MkBoundary "G1" "§4.5" "G1" KindWrite "xtx.journal.tmp"
     "write rewritten journal"
     [st "tmp deleted at open; old journal intact" (committed (list_to_map [("orders", fullA); ("stock", fullB)])) 3 OutCommitted true];
   MkBoundary "G2" "§4.5" "G2" KindFsync "xtx.journal.tmp"
     "fsync tmp journal"
     [st "tmp deleted at open; old journal intact" (committed (list_to_map [("orders", fullA); ("stock", fullB)])) 3 OutCommitted true];
   MkBoundary "G3" "§4.5" "G3" KindRename "xtx.journal"
     "rename tmp over journal"
     [st "old or new journal whole, never mixed" (committed (list_to_map [("orders", fullA); ("stock", fullB)])) 3 OutCommitted true];
   MkBoundary "G4" "§4.5" "G4" KindFsync "<root>"
     "fsync root dir after rename"
     [st "rename may revert to the old whole journal" (committed (list_to_map [("orders", fullA); ("stock", fullB)])) 3 OutCommitted true];
   MkBoundary "H1" "§7.2 r12" "H1" KindWrite "xtx.journal"
     "journal file lost while stamped runs exist"
     [MkState "lost journal is never presumed abort" (MkInput DecNone [] (list_to_map [("orders", fullA)]) existing true false false) (MkResult 12 OutRefuse CodeJournalMissing "") false];
   MkBoundary "H2" "§7.2 r5" "H2" KindWrite "participant segment"
     "COMMIT durable but one run lost"
     [MkState "never commit a subset, never abort a decided tx" (committed (list_to_map [("orders", fullA)])) (MkResult 5 OutRefuse CodeParticipantMissing "") false]].
