(* ===== verification/XSpecThm.v ===== *)
(** * The engine's recovery follows the specification's truth table *)
From Stdlib Require Import Ascii Lia ZArith.
From stdpp Require Import prelude gmap strings sorting.
From S2P Require Import Prelude GoNum Json Value GoTime Store Wire Codec Segment Index Sha256 Journal JournalThm JournalInv JournalOps JournalSafe Salvage Names XTx XTxInv XTxRecover XTxPrep XTxAtomic XTxCommit XTxSample XSpec.

(** ** The checklist *)

Definition state_holds (s : CrashState) : bool :=
  let got := Resolve (cs_In s) in
  (rt_Row got =? rt_Row (cs_Want s)) && bool_decide (rt_Outcome got = rt_Outcome (cs_Want s)) && bool_decide (rt_Code got = rt_Code (cs_Want s)) &&
  (negb (cs_MayHaveAck s) || bool_decide (rt_Outcome got = OutCommitted)).

(** the specification is consistent with its own checklist.  Every crash
    state of every write, fsync and rename of the protocol gets the row, the
    outcome and the code listed for it, and a state in which a client may have
    been told that the transaction is committed resolves to committed. *)
Theorem checklist_holds : forallb (λ b, forallb state_holds (bd_States b)) Boundaries = true.
Proof. vm_compute. reflexivity. Qed.

(** ** From the engine's state to the table's input *)

Definition dec_of (d : option xtxDecision) : dec :=
  match d with
  | None => DecNone
  | Some d =>
      if decide (d_Outcome d = xtxKindCommit) then (if d_Retired d then DecRetireCommit else DecCommit)
      else if d_Retired d then DecRetireAbort else DecAbort
  end.

Definition spec_run (e : runEvidence) : Run := MkSpecRun (ev_complete e) (ev_n e) (ev_digest e) false.

Definition tx_decision (j : option xtxJournal) (tx : string) : option xtxDecision := j ≫= λ j, decision j tx.

(** The input of the truth table for one transaction.  Three of its inputs stay
    false: a torn journal tail, which only turns row 2 into row 13 with the same
    outcome; runs rewritten as plain entries, which recovery does not tell apart
    from missing ones; and a conflict of decisions, with which the journal does not
    open. *)
Definition spec_input (existing : gset string) (ev : evidence) (j : option xtxJournal) (tx : string) : Input :=
  MkInput (dec_of (tx_decision j tx)) (match tx_decision j tx with Some d => d_Parts d | None => [] end)
    (spec_run <$> runs_of ev tx) existing false false false.

Definition verdict (existing : gset string) (ev : evidence) (j : option xtxJournal) (tx : string) : Result := Resolve (spec_input existing ev j tx).

(** What opening a journal establishes. *)
Record settled_journal (j : option xtxJournal) : Prop := {
  sj_filed : ∀ j0, j = Some j0 → filed (table j0);
  sj_outcome : ∀ tx d, tx_decision j tx = Some d → d_Outcome d = xtxKindCommit ∨ d_Outcome d = xtxKindAbort
}.

(** ** The rows *)

Lemma fmap_empty_iff {A B} (f : A → B) (m : gmap string A) : f <$> m = ∅ ↔ m = ∅.
Proof. split; [apply fmap_empty_inv|by intros ->; rewrite fmap_empty]. Qed.

Lemma check_parts_spec runs parts :
  check_parts (spec_run <$> runs) 3 parts =
    (if forallb (run_matches runs) parts then MkResult 3 OutCommitted CodeNone "entries visible; indexes tail-replayed" else check_parts (spec_run <$> runs) 3 parts) ∧
  (forallb (run_matches runs) parts = false → rt_Outcome (check_parts (spec_run <$> runs) 3 parts) = OutRefuse ∧ rt_Row (check_parts (spec_run <$> runs) 3 parts) = 5).
Proof.
  induction parts as [|p parts [IH1 IH2]]; [done|]. cbn [check_parts forallb]. unfold run_matches at 1 3. rewrite lookup_fmap.
  destruct (runs !! p_C p) as [e|]; cbn [fmap option_fmap option_map]; [|done].
  cbn [spec_run rn_Destamped rn_Complete rn_N rn_Digest]. destruct (ev_complete e); cbn [andb negb orb]; [|done].
  destruct (ev_n e =? p_N p)%N; cbn [andb negb]; [|done].
  destruct (decide (ev_digest e ≠ p_D p)) as [Hd|Hd].
  - rewrite bool_decide_false by done. cbn [andb]. done.
  - rewrite bool_decide_true by (by apply dec_stable). cbn [andb]. split; [|exact IH2]. destruct (forallb _ parts); [exact IH1|done].
Qed.

Lemma foreign_fmap (runs : gmap string runEvidence) (f : string * Run → bool) :
  forallb f (map_to_list (spec_run <$> runs)) = forallb (λ kv, f (kv.1, spec_run kv.2)) (map_to_list runs).
Proof. rewrite map_to_list_fmap. induction (map_to_list runs) as [|[k v] l IH]; [done|]. cbn. by rewrite IH. Qed.

(** Rows 3, 5, 6 and 7. *)
Lemma commit_row existing ev j tx d :
  tx_decision j tx = Some d → d_Outcome d = xtxKindCommit → d_Retired d = false →
  if commit_complete existing (runs_of ev tx) d
  then rt_Outcome (verdict existing ev j tx) = OutCommitted ∧ rt_Row (verdict existing ev j tx) = 3
  else rt_Outcome (verdict existing ev j tx) = OutRefuse ∧ rt_Row (verdict existing ev j tx) ∉ [2; 3].
Proof.
  intros Hd Ho Hr. unfold verdict, spec_input, Resolve. rewrite Hd. cbn [in_Conflict in_JournalMissing in_Decision in_Parts in_Evidence in_Existing andb dec_of].
  rewrite decide_True, Hr by done. rewrite foreign_fmap. cbn [fst]. unfold commit_complete.
  destruct (forallb (λ p, bool_decide (p_C p ∈ existing)) (d_Parts d)); cbn [andb negb].
  - destruct (forallb _ (map_to_list _)); cbn [andb negb]; [|split; [done|by rewrite !not_elem_of_cons; split_and!; try apply not_elem_of_nil]].
    destruct (check_parts_spec (runs_of ev tx) (d_Parts d)) as [H1 H2]. destruct (forallb (run_matches _) _); [by rewrite H1|].
    destruct (H2 eq_refl) as [-> ->]. split; [done|]. by rewrite !not_elem_of_cons; split_and!; try apply not_elem_of_nil.
  - destruct (forallb _ (map_to_list _)); cbn [negb]; (split; [done|]); by rewrite !not_elem_of_cons; split_and!; try apply not_elem_of_nil.
Qed.

(** ** One transaction *)

(** An abort decides its own transaction only. *)
Lemma abort_own j tx now fs j' fs' w :
  filed (table j) → byTx (table j) !! tx = None → abort j tx "" "recovery" now fs = (j', fs', w) →
  filed (table j') ∧ (∀ tx', tx' ≠ tx → byTx (table j') !! tx' = byTx (table j) !! tx') ∧
  ∀ d, byTx (table j') !! tx = Some d → d_Outcome d = xtxKindAbort.
Proof.
  intros Hf Hn. unfold abort. destruct (negb (bool_decide _)); [intros [= <- <- <-]; split_and!; [done|done|congruence]|].
  destruct (usable j); [|intros [= <- <- <-]; split_and!; [done|done|congruence]].
  destruct (negb _); [intros [= <- <- <-]; split_and!; [done|done|congruence]|]. rewrite Hn. unfold append_decision.
  set (r := set_r_why (newRecord xtxKindAbort tx "" now) "recovery").
  generalize (encodeXTxRecord r). intros line. destruct (appendLine j line fs) as [[j1 fs1] w1] eqn:E1.
  assert (Ht1 : table j1 = table j).
  { unfold appendLine in E1. destruct (file_write HOpen (j_disk j) line fs) as [[ok d] fs2]. destruct ok; [by injection E1 as <- _ _|].
    destruct (file_truncate HOpen d (j_size j) fs2) as [[tok d'] fs3]. by injection E1 as <- _ _. }
  destruct w1 as [u|e]; [|intros [= <- <- <-]; rewrite Ht1; split_and!; [done|done|congruence]].
  destruct (syncLocked j1 fs1) as [[j2 fs2] w2] eqn:E2.
  assert (Ht2 : table j2 = table j).
  { unfold syncLocked in E2. destruct (file_sync HOpen fs1) as [ok fs3]. destruct ok; by injection E2 as <- _ _. }
  destruct w2 as [u2|e]; [|intros [= <- <- <-]; rewrite Ht2; split_and!; [done|done|congruence]].
  unfold installLocked. rewrite Ht2. destruct (apply_fresh (table j) r) as [t Ht]; [done|done|]. rewrite Ht. intros [= <- <- <-].
  destruct (apply_spec _ _ _ Hf Ht) as (d & Hby & [D1 D2 D3 D4 D5] & Hf' & _). cbn [with_table table]. split_and!; [done| |].
  - intros tx' Hne. rewrite Hby, lookup_insert_ne; [done|]. intros <-. by apply Hne.
  - intros d0. rewrite Hby. change (r_Tx r) with tx. rewrite lookup_insert_eq. by intros [= <-].
Qed.

(** The decisions of the other transactions stay, and readers see the transaction
    exactly when the table says it is committed. *)
Record resolved (existing : gset string) (ev : evidence) (tx : string) (st0 st' : rstate) (w : res xerr unit) : Prop := {
  rv_refuse : rt_Outcome (verdict existing ev (rs_j st0) tx) = OutRefuse → w = Err (XIncomplete tx);
  rv_ok : rt_Outcome (verdict existing ev (rs_j st0) tx) ≠ OutRefuse → w = Ok tt;
  rv_committed : rs_committed st' = rs_committed st0 + (if rt_Row (verdict existing ev (rs_j st0) tx) =? 3 then 1 else 0);
  rv_aborted : rs_aborted st' = rs_aborted st0 + (if rt_Row (verdict existing ev (rs_j st0) tx) =? 2 then 1 else 0);
  rv_settled : settled_journal (rs_j st');
  rv_others : ∀ tx', tx' ≠ tx → tx_decision (rs_j st') tx' = tx_decision (rs_j st0) tx';
  rv_visible : w = Ok tt → commits (dec_of (tx_decision (rs_j st') tx)) = bool_decide (rt_Outcome (verdict existing ev (rs_j st0) tx) = OutCommitted)
}.

Lemma resolve_one_refines existing ev now st0 tx fs st' fs' w :
  settled_journal (rs_j st0) → resolve_one existing ev now st0 tx fs = (st', fs', w) → resolved existing ev tx st0 st' w.
Proof.
  intros Hs. unfold resolve_one. fold (tx_decision (rs_j st0) tx). destruct (tx_decision (rs_j st0) tx) as [d|] eqn:Ed.
  - destruct (sj_outcome _ Hs tx d Ed) as [Ho|Ho].
    + rewrite decide_True by done. destruct (d_Retired d) eqn:Er.
      * intros [= <- <- <-].
        assert (Hv : verdict existing ev (rs_j st0) tx = MkResult 9 OutCommitted CodeNone "entries visible; no digest check").
        { unfold verdict, spec_input, Resolve. rewrite Ed. cbn [in_Conflict in_JournalMissing in_Decision andb dec_of]. by rewrite decide_True, Er by done. }
        split; rewrite ?Hv; try done; try (cbn; lia). intros _. rewrite Ed. unfold dec_of. by rewrite decide_True, Er.
      * pose proof (commit_row existing ev _ tx d Ed Ho Er) as Hrow. destruct (commit_complete existing (runs_of ev tx) d).
        -- destruct Hrow as [H1 H2]. intros [= <- <- <-]. split; rewrite ?H1, ?H2; cbn [rs_committed rs_aborted rs_j]; try done; try (cbn; lia).
           intros _. rewrite Ed. unfold dec_of. by rewrite decide_True, Er.
        -- destruct Hrow as [H1 H2]. intros [= <- <- <-]. rewrite !not_elem_of_cons in H2. destruct H2 as (H2 & H3 & _).
           apply Nat.eqb_neq in H2, H3. split; rewrite ?H1, ?H2, ?H3; try done; lia.
    + assert (Hnc : d_Outcome d ≠ xtxKindCommit) by (by rewrite Ho). rewrite decide_False by done. rewrite decide_True by done.
      assert (Hv : rt_Outcome (verdict existing ev (rs_j st0) tx) = OutAborted ∧ rt_Row (verdict existing ev (rs_j st0) tx) ≠ 2 ∧ rt_Row (verdict existing ev (rs_j st0) tx) ≠ 3).
      { unfold verdict, spec_input, Resolve. rewrite Ed. cbn [in_Conflict in_JournalMissing in_Decision andb dec_of]. rewrite decide_False by done. by destruct (d_Retired d). }
      destruct Hv as (H1 & H2%Nat.eqb_neq & H3%Nat.eqb_neq).
      assert (Hgo : ∀ cols, resolved existing ev tx st0 (MkRS (rs_j st0) cols (rs_committed st0) (rs_aborted st0)) (Ok tt)).
      { intros cols. split; rewrite ?H1, ?H2, ?H3; cbn [rs_committed rs_aborted rs_j]; try done; try lia.
        intros _. rewrite Ed. unfold dec_of. rewrite decide_False by done. by destruct (d_Retired d). }
      destruct (d_Retired d); [intros [= <- <- <-]; destruct st0; apply Hgo|]. destruct (cut_dead _ _ _) as [cols fs1]. intros [= <- <- <-]. apply Hgo.
  - assert (Hv : verdict existing ev (rs_j st0) tx = if decide (runs_of ev tx = ∅) then MkResult 1 OutNothing CodeNone "" else
      MkResult 2 OutAborted CodeUndecidedRun "truncate tail runs; append ABORT{why:recovery}; fsync").
    { unfold verdict, spec_input, Resolve. rewrite Ed. cbn [in_Conflict in_JournalMissing in_Decision in_Evidence in_TornJournalTail andb dec_of].
      destruct (decide (runs_of ev tx = ∅)) as [->|Hne]; [by rewrite fmap_empty|]. rewrite bool_decide_false by (by rewrite fmap_empty_iff). done. }
    destruct (decide (runs_of ev tx = ∅)) as [He|He].
    + intros [= <- <- <-]. split; rewrite ?Hv; try done; try (cbn; lia). intros _. by rewrite Ed.
    + destruct (cut_dead _ _ _) as [cols fs1]. destruct (rs_j st0) as [j|] eqn:Ej.
      * destruct (abort j tx "" "recovery" now fs1) as [[j1 fs2] w1] eqn:Ea. intros [= <- <- <-].
        destruct (abort_own j tx now fs1 j1 fs2 w1 (sj_filed _ Hs j eq_refl) Ed Ea) as (Hf & Hoth & Hab).
        split; cbn [rs_committed rs_aborted rs_j]; rewrite ?Ej, ?Hv; try done; try (cbn; lia).
        -- split; [by intros j0 [= <-]|]. intros tx' d Hd. destruct (decide (tx' = tx)) as [->|Hne]; [right; by apply Hab|].
           apply (sj_outcome _ Hs tx'). cbn [tx_decision mbind option_bind] in *. unfold decision in *. by rewrite <- Hoth.
        -- intros _. cbn [tx_decision mbind option_bind]. unfold decision. destruct (byTx (table j1) !! tx) as [d|] eqn:Ed1; [|done].
           unfold dec_of. rewrite decide_False by (rewrite (Hab d eq_refl); done). by destruct (d_Retired d).
      * intros [= <- <- <-]. split; cbn [rs_committed rs_aborted rs_j]; rewrite ?Ej, ?Hv; try done; cbn; lia.
Qed.

(** ** All of them *)

Definition in_row (existing : gset string) (ev : evidence) (j : option xtxJournal) (n : nat) (txs : list string) : nat :=
  length (filter (λ tx, rt_Row (verdict existing ev j tx) = n) txs).

Lemma in_row_cons existing ev j n tx txs :
  in_row existing ev j n (tx :: txs) = (if rt_Row (verdict existing ev j tx) =? n then 1 else 0) + in_row existing ev j n txs.
Proof. unfold in_row. rewrite filter_cons. destruct (Nat.eqb_spec (rt_Row (verdict existing ev j tx)) n); case_decide; done. Qed.

Lemma verdict_same existing ev j j' tx : tx_decision j' tx = tx_decision j tx → verdict existing ev j' tx = verdict existing ev j tx.
Proof. intros H. unfold verdict, spec_input. by rewrite H. Qed.

Lemma in_row_same existing ev j j' n txs : (∀ tx, tx ∈ txs → tx_decision j' tx = tx_decision j tx) → in_row existing ev j' n txs = in_row existing ev j n txs.
Proof.
  intros H. induction txs as [|tx txs IH]; [done|]. rewrite !in_row_cons, IH by (intros tx' Ht; apply H; by right).
  by rewrite (verdict_same _ _ j j') by (apply H; left).
Qed.

(** The whole resolution, against the verdicts of the state it began with. *)
Record follows (existing : gset string) (ev : evidence) (txs : list string) (st0 st' : rstate) (w : res xerr unit) : Prop := {
  fo_ok : w = Ok tt ↔ ∀ tx, tx ∈ txs → rt_Outcome (verdict existing ev (rs_j st0) tx) ≠ OutRefuse;
  fo_err : ∀ e, w = Err e → ∃ tx, tx ∈ txs ∧ e = XIncomplete tx ∧ rt_Outcome (verdict existing ev (rs_j st0) tx) = OutRefuse;
  fo_committed : w = Ok tt → rs_committed st' = rs_committed st0 + in_row existing ev (rs_j st0) 3 txs;
  fo_aborted : w = Ok tt → rs_aborted st' = rs_aborted st0 + in_row existing ev (rs_j st0) 2 txs;
  fo_visible : w = Ok tt → ∀ tx, tx ∈ txs →
    commits (dec_of (tx_decision (rs_j st') tx)) = bool_decide (rt_Outcome (verdict existing ev (rs_j st0) tx) = OutCommitted);
  fo_others : ∀ tx, tx ∉ txs → tx_decision (rs_j st') tx = tx_decision (rs_j st0) tx;
  fo_settled : settled_journal (rs_j st')
}.

Lemma resolve_follows existing ev now txs : ∀ st0 fs st' fs' w,
  settled_journal (rs_j st0) → NoDup txs → resolve existing ev now st0 txs fs = (st', fs', w) → follows existing ev txs st0 st' w.
Proof.
  induction txs as [|tx txs IH]; intros st0 fs st' fs' w Hs Hnd; cbn [resolve].
  { intros [= <- <- <-]. split; unfold in_row; rewrite ?filter_nil; cbn [length]; [|done|lia|lia| |done|done].
    - split; [|done]. by intros _ tx Ht%elem_of_nil.
    - by intros _ tx Ht%elem_of_nil. }
  apply NoDup_cons in Hnd as [Hnin Hnd]. destruct (resolve_one existing ev now st0 tx fs) as [[st1 fs1] w1] eqn:E1.
  destruct (resolve_one_refines _ _ _ _ _ _ _ _ _ Hs E1) as [R1 R2 R3 R4 R5 R6 R7]. destruct w1 as [[]|e].
  - intros E2. destruct (IH st1 fs1 st' fs' w R5 Hnd E2) as [F1 F2 F3 F4 F5 F6 F7].
    assert (Hne : rt_Outcome (verdict existing ev (rs_j st0) tx) ≠ OutRefuse) by (intros H; by apply R1 in H).
    assert (Hsame : ∀ tx', tx' ∈ txs → tx_decision (rs_j st1) tx' = tx_decision (rs_j st0) tx') by (intros tx' Ht; apply R6; by intros ->).
    assert (Hv : ∀ tx', tx' ∈ txs → verdict existing ev (rs_j st1) tx' = verdict existing ev (rs_j st0) tx') by (intros tx' Ht; by apply verdict_same, Hsame).
    split; [| | | | | |done].
    + rewrite F1. split.
      * intros H tx' [->|Ht]%elem_of_cons; [done|]. rewrite <- (Hv tx' Ht). by apply H.
      * intros H tx' Ht. rewrite (Hv tx' Ht). apply H. by right.
    + intros e He. destruct (F2 e He) as (tx' & Ht & -> & Hr). exists tx'. rewrite (Hv tx' Ht) in Hr. split_and!; [by right|done|done].
    + intros Hw. rewrite (F3 Hw), R3, in_row_cons, (in_row_same _ _ (rs_j st0) (rs_j st1)) by done. lia.
    + intros Hw. rewrite (F4 Hw), R4, in_row_cons, (in_row_same _ _ (rs_j st0) (rs_j st1)) by done. lia.
    + intros Hw tx' [->|Ht]%elem_of_cons; [rewrite (F6 tx Hnin); by apply R7|]. rewrite <- (Hv tx' Ht). by apply F5.
    + intros tx' Ht. apply not_elem_of_cons in Ht as [H1 H2]. rewrite (F6 tx' H2). by apply R6.
  - intros [= <- <- <-]. assert (Hr : rt_Outcome (verdict existing ev (rs_j st0) tx) = OutRefuse).
    { destruct (decide (rt_Outcome (verdict existing ev (rs_j st0) tx) = OutRefuse)) as [|Hne]; [done|]. by apply R2 in Hne. }
    apply R1 in Hr as He. injection He as ->. split; try done.
    + split; [done|]. intros H. exfalso. apply (H tx); [left|done].
    + intros e [= <-]. exists tx. split_and!; [left|done|done].
    + intros tx' Ht. apply not_elem_of_cons in Ht as [H1 H2]. by apply R6.
Qed.

(** ** Recovery as a whole *)

(** The phases before the decisions: the journal [j], the collections [cs] and the
    evidence [ev] recovery goes on with. *)
Record surveyed (file : bytes) (root : list rootEntry) (epoch : string) (now : time) (fs : list fault)
    (j : xtxJournal) (cs : list colDiscovery) (ev : evidence) : Prop := {
  sv_healthy : classifyXTxJournalBeforeOpen (Some file) = xtxJournalHealthy;
  sv_phases : ∃ fs1 fs2 found fs3 seen fs4, gateXTxRoot true (Some file) epoch now fs = (fs1, Ok (Some j)) ∧ next_fault fs1 = (FOk, fs2) ∧
    discover root = Ok found ∧ open_cols (ssort entry_ltb found) fs2 = (fs3, Ok cs) ∧ collect_evidence cs ∅ false fs3 = (fs4, ev, seen)
}.

(** The visible outcome of a decided transaction, in the engine's words. *)
Lemma commits_visible j tx i n :
  (∀ d, decision j tx = Some d → d_Outcome d = xtxKindCommit ∨ d_Outcome d = xtxKindAbort) → tx ≠ "" →
  entryVisible (Some (MkStamp tx i n)) (Some (decisionsMap j)) = commits (dec_of (decision j tx)).
Proof.
  intros Ho Hne. unfold entryVisible, decisionsMap, commits. cbn [st_t]. rewrite decide_False by done. rewrite dm_lookup. fold (decision j tx).
  destruct (decision j tx) as [d|] eqn:E; cbn [fmap option_fmap option_map default from_option id]; [|done].
  apply eq_true_iff_eq. rewrite !bool_decide_eq_true, (text_visible d (Ho d eq_refl)). unfold dec_of.
  destruct (decide (d_Outcome d = xtxKindCommit)); destruct (d_Retired d); naive_solver.
Qed.

(** Claim C16: the recovery of cross-collection transactions refines the truth table
    of the specification package.  For any directory and any faults, once the
    healthy journal, the collections and the evidence are read, recovery opens the
    database if and only if the table refuses no transaction, and otherwise fails
    with a transaction the table refuses; when it opens, the transactions it counts
    as recovered and as presumed aborted are those of row 3 and of row 2, and
    readers see the entries of a transaction if and only if the table's outcome is
    committed. *)
Theorem recovery_refines_truth_table file root epoch now fs j cs ev fs' w :
  surveyed file root epoch now fs j cs ev →
  recoverCoordinator true (Some file) root epoch now fs = (fs', w) →
  let existing := list_to_set (map cd_name cs) in
  let txs := all_txids (Some (observe_all ev j)) ev in
  let v := verdict existing ev (Some j) in
  (is_ok w = true ↔ ∀ tx, tx ∈ txs → rt_Outcome (v tx) ≠ OutRefuse) ∧
  (∀ e, w = Err e → ∃ tx, tx ∈ txs ∧ e = XIncomplete tx ∧ rt_Outcome (v tx) = OutRefuse) ∧
  (∀ rc, w = Ok rc → rec_committed rc = in_row existing ev (Some j) 3 txs ∧ rec_aborted rc = in_row existing ev (Some j) 2 txs ∧
     ∀ tx i n, tx ∈ txs → tx ≠ "" → entryVisible (Some (MkStamp tx i n)) (rec_decisions rc) = bool_decide (rt_Outcome (v tx) = OutCommitted)).
Proof.
  intros [Hh (fs1 & fs2 & found & fs3 & seen & fs4 & Hg & Hn & Hd & Ho & Hc)] Hret existing txs v.
  unfold recoverCoordinator in Hret. rewrite Hh, Hg, Hn in Hret. cbn [f_ok negb] in Hret.
  rewrite Hd, Ho, Hc, (healthy_not_lost j) in Hret. cbn [fmap option_fmap option_map] in Hret. destruct (observe_all_table ev j) as [Htab _].
  destruct (resolve _ ev now _ _ fs4) as [[st' fs5] w5] eqn:E.
  assert (Hopen : ∃ b' fs0, openXTxJournal file epoch now (next_fault fs).2 = (b', fs0, Ok j)).
  { unfold gateXTxRoot in Hg. destruct (next_fault fs) as [f fs0]. destruct (f_ok f); [|done]. cbn [negb] in Hg.
    destruct (openXTxJournal file epoch now fs0) as [[b' fs9] [j0|e]] eqn:Eo; [|done]. injection Hg as <- <-. cbn [snd]. eauto. }
  destruct Hopen as (b' & fs0 & Hopen). destruct (open_facts _ _ _ _ _ _ _ Hopen) as (_ & Hf & _ & Hout).
  assert (Hdec : ∀ tx, tx_decision (Some (observe_all ev j)) tx = tx_decision (Some j) tx).
  { intros tx. unfold tx_decision. cbn [mbind option_bind]. unfold decision. by rewrite Htab. }
  assert (Hs : settled_journal (Some (observe_all ev j))).
  { split; [intros j0 [= <-]; by rewrite Htab|]. intros tx d Hd0. rewrite Hdec in Hd0. by apply (Hout tx). }
  pose proof (resolve_follows _ ev now _ (MkRS (Some (observe_all ev j)) _ 0 0) fs4 st' fs5 w5 Hs (all_txids_NoDup _ _) E) as [F1 F2 F3 F4 F5 F6 F7].
  cbn [rs_j rs_committed rs_aborted] in F1, F2, F3, F4, F5, F6, F7.
  assert (Hv : ∀ existing tx, verdict existing ev (Some (observe_all ev j)) tx = verdict existing ev (Some j) tx) by (intros ex tx; by apply verdict_same).
  unfold v. destruct w5 as [[]|e].
  - injection Hret as <- <-. split_and!.
    + split; [|done]. intros _ tx Ht. rewrite <- Hv. by apply F1.
    + done.
    + intros rc [= <-]. cbn [rec_committed rec_aborted rec_decisions]. rewrite (F3 eq_refl), (F4 eq_refl).
      rewrite !(in_row_same existing ev (Some j) (Some (observe_all ev j))) by done. split_and!; [done|done|]. intros tx i n Ht Hne.
      rewrite <- Hv. unfold existing. rewrite <- (F5 eq_refl tx Ht). destruct (rs_j st') as [jf|] eqn:Ej.
      * rewrite commits_visible; [done| |done]. intros d Hd0. by apply (sj_outcome _ F7 tx).
      * unfold entryVisible. cbn [st_t]. rewrite decide_False by done. done.
  - injection Hret as <- <-. split_and!; [|intros e0 [= <-]; destruct (F2 e eq_refl) as (tx & H1 & H2 & H3); exists tx; by rewrite Hv in H3|done].
    split; [done|]. intros H. destruct (F2 e eq_refl) as (tx & Ht & _ & Hr). rewrite Hv in Hr. by destruct (H tx Ht).
Qed.

(** ** Decisions and digests *)

Lemma participant_digest_agrees run : ParticipantDigest run = partDigest run.
Proof. reflexivity. Qed.

(** The digest of the whole participant list is not the engine's: a COMMIT line the
    engine writes does not have the digest the specification asks for. *)
Lemma set_digest_differs : partsDigest ScenarioParts ≠ Some (SetDigest ScenarioParts).
Proof. vm_compute. discriminate. Qed.

(** What a good record says in the specification's words. *)
Lemma record_dec_good epoch r :
  rec_good epoch r → record_dec (r_K r) (r_O r) = Some (dec_of (Some (MkDec (r_Tx r) (r_Key r) (rec_outcome r) (bool_decide (r_K r = xtxKindRetire)) "" "" [] "" 0 "" ""))) ∧
    (rec_outcome r = xtxKindCommit ∨ rec_outcome r = xtxKindAbort).
Proof.
  intros [_ Ho _]. unfold record_ok in Ho. apply andb_true_iff in Ho as [_ Hk]. unfold kind_ok in Hk. unfold record_dec, rec_outcome, dec_of. cbn [d_Outcome d_Retired].
  destruct (decide (r_K r = xtxKindCommit)) as [->|Hc]; [split; [done|by left]|].
  destruct (decide (r_K r = xtxKindAbort)) as [->|Ha]; [split; [done|by right]|].
  destruct (decide (r_K r = xtxKindRetire)) as [Hr|Hr]; [|done]. rewrite Hr. unfold retire_ok in Hk.
  apply andb_true_iff in Hk as [_ [->| ->]%bool_decide_eq_true]; (split; [done|]); [by left|by right].
Qed.

Definition dec_form (c r : bool) : dec :=
  if c then (if r then DecRetireCommit else DecCommit) else if r then DecRetireAbort else DecAbort.

Lemma dec_of_form d : dec_of (Some d) = dec_form (bool_decide (d_Outcome d = xtxKindCommit)) (d_Retired d).
Proof. unfold dec_of, dec_form. destruct (decide (d_Outcome d = xtxKindCommit)); [by rewrite bool_decide_true|by rewrite bool_decide_false]. Qed.

Lemma dec_form_step c r0 r1 :
  eqb (commits (dec_form c r0)) (commits (dec_form c r1)) = true ∧
  (dec_rank (dec_form c r0) <? dec_rank (dec_form c r1) = true → dec_form c r1 = dec_form c (r0 || r1)) ∧
  (dec_rank (dec_form c r0) <? dec_rank (dec_form c r1) = false → dec_form c r0 = dec_form c (r0 || r1)).
Proof. by destruct c, r0, r1. Qed.

Definition same_decisions (out : gmap string dec) (t : xtxTable) : Prop := ∀ tx, out !! tx = (λ d, dec_of (Some d)) <$> byTx t !! tx.

Lemma fold_agrees epoch rs : ∀ t t' out,
  filed t → Forall (rec_good epoch) rs → (∀ tx d, byTx t !! tx = Some d → d_Outcome d = xtxKindCommit ∨ d_Outcome d = xtxKindAbort) →
  apply_all t rs = Ok t' → same_decisions out t → ∃ m, fold_decisions out rs = Ok m ∧ same_decisions m t'.
Proof.
  induction rs as [|r rs IH]; intros t t' out Hf Hg Hout; [intros [= <-]; eauto|]. cbn [apply_all fold_decisions].
  apply Forall_cons in Hg as [Hg Hgs]. destruct (apply t r) as [t1|] eqn:Ea; [|done]. cbn [res_bind]. intros Hall Hsame.
  destruct (apply_spec t r t1 Hf Ea) as (d & Hby & [D1 D2 D3 D4 D5] & Hf1 & _). destruct (record_dec_good epoch r Hg) as [-> Hro].
  assert (Hout1 : ∀ tx d0, byTx t1 !! tx = Some d0 → d_Outcome d0 = xtxKindCommit ∨ d_Outcome d0 = xtxKindAbort).
  { intros tx d0. rewrite Hby. destruct (decide (tx = r_Tx r)) as [->|Hne]; [rewrite lookup_insert_eq; intros [= <-]; by rewrite D2|].
    rewrite lookup_insert_ne by done. apply Hout. }
  assert (Hnext : ∀ o, o !! r_Tx r = Some (dec_of (Some d)) → (∀ tx, tx ≠ r_Tx r → o !! tx = out !! tx) →
    ∃ m, fold_decisions o rs = Ok m ∧ same_decisions m t').
  { intros o H1 H2. apply (IH t1 t' o Hf1 Hgs Hout1 Hall). intros tx. rewrite Hby. destruct (decide (tx = r_Tx r)) as [->|Hne].
    - by rewrite lookup_insert_eq, H1.
    - rewrite lookup_insert_ne by done. rewrite H2 by done. apply Hsame. }
  rewrite (Hsame (r_Tx r)). destruct (byTx t !! r_Tx r) as [d0|] eqn:E0; cbn [fmap option_fmap option_map].
  - pose proof (D4 d0 eq_refl) as Heq. rewrite !dec_of_form. cbn [d_Outcome d_Retired]. rewrite <- Heq, D2.
    rewrite dec_of_form, D2, D5 in Hnext.
    destruct (dec_form_step (bool_decide (rec_outcome r = xtxKindCommit)) (d_Retired d0) (bool_decide (r_K r = xtxKindRetire))) as (-> & S1 & S2).
    cbn [negb]. destruct (_ <? _).
    + apply Hnext; [by rewrite lookup_insert_eq, S1|intros; by rewrite lookup_insert_ne].
    + apply Hnext; [|done]. rewrite (Hsame (r_Tx r)), E0. cbn [fmap option_fmap option_map]. by rewrite dec_of_form, <- Heq, D2, <- S2.
  - apply Hnext; [rewrite lookup_insert_eq; unfold dec_of; cbn [d_Outcome d_Retired]; by rewrite D2, D5|intros; by rewrite lookup_insert_ne].
Qed.

(** on every journal the engine accepts, the specification's rules for
    repeated, retired and conflicting records agree with the engine's decision
    table: there is no conflict, and each transaction has the same decision. *)
Theorem decisions_refine_spec data p :
  parseXTxJournal data = Ok (Some p) →
  ∃ m, Decisions (ps_Records p) = Ok m ∧ ∀ tx, default DecNone (m !! tx) = dec_of (byTx (ps_Table p) !! tx).
Proof.
  intros Hp. destruct (parse_good _ _ Hp) as (_ & Hg & Ha & _).
  destruct (fold_agrees _ _ newXTxTable (ps_Table p) ∅ filed_new Hg) as (m & Hm & Hs); [by intros tx d; cbn; rewrite lookup_empty|done| |].
  - intros tx. cbn. by rewrite !lookup_empty.
  - exists m. split; [done|]. intros tx. rewrite (Hs tx). by destruct (byTx (ps_Table p) !! tx).
Qed.

(** ** The sample commit *)

(** The journal and the evidence of the sample commit whose last sync failed. *)
Definition vx_file : bytes := j_disk sx_journal.
Definition survey (file : bytes) (root : list rootEntry) (epoch : string) (now : time) : option (xtxJournal * list colDiscovery * evidence) :=
  match gateXTxRoot true (Some file) epoch now [] with
  | (fs, Ok (Some j)) =>
      match discover root with
      | Ok found =>
          match open_cols (ssort entry_ltb found) fs with
          | (fs, Ok cs) => Some (j, cs, (collect_evidence cs ∅ false fs).1.2)
          | _ => None
          end
      | _ => None
      end
  | _ => None
  end.

Definition vx_survey : xtxJournal * list colDiscovery * evidence := default (sj_1, [], ∅) (survey vx_file sx_root sj_epoch sj_now).

Lemma recovery_refines_truth_table_witness :
  let j := vx_survey.1.1 in let cs := vx_survey.1.2 in let ev := vx_survey.2 in
  let w := (recoverCoordinator true (Some vx_file) sx_root sj_epoch sj_now []).2 in
  is_ok w = true ∧ rt_Row (verdict (list_to_set (map cd_name cs)) ev (Some j) sj_tx1) = 3 ∧
  (is_ok w = true ↔ ∀ tx, tx ∈ all_txids (Some (observe_all ev j)) ev → rt_Outcome (verdict (list_to_set (map cd_name cs)) ev (Some j) tx) ≠ OutRefuse).
Proof.
  intros j cs ev w. split; [vm_compute; reflexivity|]. split; [vm_compute; reflexivity|].
  apply (recovery_refines_truth_table vx_file sx_root sj_epoch sj_now [] j cs ev
    (recoverCoordinator true (Some vx_file) sx_root sj_epoch sj_now []).1 w).
  - split; [vm_compute; reflexivity|]. exists [], [], sx_root, [], true, []. split; [vm_compute; reflexivity|]. split; [vm_compute; reflexivity|]. split; [vm_compute; reflexivity|].
    split; vm_compute; reflexivity.
  - unfold w. apply surjective_pairing.
Defined.

Definition parsed_or (p0 : xtxParsed) (r : res xtx_err (option xtxParsed)) : xtxParsed := match r with Ok (Some p) => p | _ => p0 end.
Definition vx_parsed : xtxParsed := parsed_or (MkParsed zero_header [] 0 false newXTxTable) (parseXTxJournal vx_file).

Lemma decisions_refine_spec_witness :
  ∃ m, Decisions (ps_Records vx_parsed) = Ok m ∧ ∀ tx, default DecNone (m !! tx) = dec_of (byTx (ps_Table vx_parsed) !! tx).
Proof. apply (decisions_refine_spec vx_file vx_parsed). vm_compute. reflexivity. Defined.
