(* ===== verification/Format.v ===== *)
(** * The format file of a database root: [engine/xtx_format.go]

    [xtx.format] says which reader a root with cross-collection transactions
    needs; it is made durable before the journal is created. *)
From Stdlib Require Import Ascii Lia ZArith.
From stdpp Require Import prelude gmap strings sorting.
From S2P Require Import Prelude GoNum Json Value GoTime Store Wire Segment Sha256 Journal JournalThm JournalInv JournalOps JournalSafe.

Definition xtxFormatName : string := "scriva-xtx".
Definition xtxReaderLevel : Z := 1.
Definition xtxKnownFeatures : list string := ["journal"; "stamped-v2"].

(** [Features] is a slice: [None] is nil. *)
Record xtxFormat : Type := MkFormat {
  f_Format : string; f_MinReader : Z; f_Features : option (list string); f_CreatedBy : string; f_CRC : option N
}.

Definition set_format_crc (f : xtxFormat) (c : option N) : xtxFormat :=
  MkFormat (f_Format f) (f_MinReader f) (f_Features f) (f_CreatedBy f) c.

Definition features_json (l : option (list string)) : json :=
  match l with None => JNull | Some l => JArr (map (λ s, JStr (b_of_s s)) l) end.

Definition format_members (f : xtxFormat) : list (bytes * json) :=
  [member "format" (JStr (b_of_s (f_Format f))); member "min_reader" (num_i (f_MinReader f));
   member "features" (features_json (f_Features f)); member "created_by" (JStr (b_of_s (f_CreatedBy f)))] ++ crc_member (f_CRC f).

Definition marshal_format (f : xtxFormat) : bytes := print (JObj (format_members f)).

Definition format_line (f : xtxFormat) : bytes :=
  marshal_format (set_format_crc f (Some (crc32c (marshal_format (set_format_crc f None))))).

Definition encodeXTxFormat (f : xtxFormat) : bytes := format_line f ++ [newline].

(** ** Decoding *)

Inductive fmt_err : Type := FCorrupt | FTooNew | FUnsupported | FIO.

Definition dec_features (j : json) : option (option (list string)) :=
  match j with
  | JNull => Some None
  | JArr l => v ← mapM (dec_string "") l; Some (Some v)
  | _ => None
  end.

Definition set_format_field (f : xtxFormat) (kv : bytes * json) : option xtxFormat :=
  let k := map to_lower kv.1 in
  let j := kv.2 in
  let '(MkFormat n m fe c crc) := f in
  if decide (k = b_of_s "format") then x ← dec_string n j; Some (MkFormat x m fe c crc)
  else if decide (k = b_of_s "min_reader") then x ← dec_i64 m j; Some (MkFormat n x fe c crc)
  else if decide (k = b_of_s "features") then x ← dec_features j; Some (MkFormat n m x c crc)
  else if decide (k = b_of_s "created_by") then x ← dec_string c j; Some (MkFormat n m fe x crc)
  else if decide (k = b_of_s "crc") then x ← dec_crc j; Some (MkFormat n m fe c x)
  else None.

Definition zero_format : xtxFormat := MkFormat "" 0 None "" None.

(** The probe: [min_reader] as a pointer, other names ignored. *)
Definition probe_format_field (p : option Z) (kv : bytes * json) : option (option Z) :=
  if decide (map to_lower kv.1 = b_of_s "min_reader")
  then match kv.2 with JNull => Some None | j => x ← dec_i64 0 j; Some (Some x) end
  else Some p.

Definition drop_newline (b : bytes) : bytes :=
  match last b with Some c => if decide (c = newline) then removelast b else b | None => b end.

Definition decodeXTxFormat (data : bytes) : res fmt_err xtxFormat :=
  match strictUnmarshal probe_format_field None data with
  | None | Some None => Err FCorrupt
  | Some (Some minReader) =>
      if (xtxReaderLevel <? minReader)%Z then Err FTooNew
      else
        let line := drop_newline data in
        match strictUnmarshal set_format_field zero_format line with
        | None => Err FCorrupt
        | Some f =>
            match f_CRC f with
            | None => Err FCorrupt
            | Some want =>
                if decide (crc32c (marshal_format (set_format_crc f None)) ≠ want) then Err FCorrupt
                else if decide (marshal_format f ≠ line) then Err FCorrupt
                else
                  let f := set_format_crc f None in
                  if decide (f_Format f ≠ xtxFormatName ∨ (f_MinReader f < 1)%Z) then Err FUnsupported
                  else if negb (forallb (λ ft, bool_decide (ft ∈ xtxKnownFeatures)) (default [] (f_Features f))) then Err FUnsupported
                  else Ok f
            end
        end
  end.

(** [None] is a root without the file. *)
Definition readXTxFormat (file : option bytes) (fs : list fault) : list fault * res fmt_err (option xtxFormat) :=
  match file with
  | None => (fs, Ok None)
  | Some b =>
      let '(f, fs) := next_fault fs in
      (fs, if f_ok f then let* x := decodeXTxFormat b in Ok (Some x) else Err FIO)
  end.

Definition new_format (createdBy : string) : xtxFormat := MkFormat xtxFormatName 1 (Some ["journal"; "stamped-v2"]) createdBy None.

(** The file afterwards, and whether it is durable. *)
Definition ensureXTxFormat (file : option bytes) (createdBy : string) (fs : list fault) : option bytes * list fault * res fmt_err unit :=
  let '(fs, r) := readXTxFormat file fs in
  match r with
  | Err e => (file, fs, Err e)
  | Ok (Some _) => (file, fs, Ok tt)
  | Ok None =>
      let b := encodeXTxFormat (new_format createdBy) in
      let '(renamed, ok, fs) := writeJournalAtomic b fs in
      (if renamed then Some b else file, fs, if ok then Ok tt else Err FIO)
  end.

(** First use: the format file, then the journal.  The result is the files and the
    journal. *)
Definition openOrCreateXTxJournal (fmt file : option bytes) (createdBy epoch : string) (now : time) (fs : list fault)
    : option bytes * option bytes * list fault * res (fmt_err + xtx_err) xtxJournal :=
  let '(fmt, fs, r) := ensureXTxFormat fmt createdBy fs in
  match r with
  | Err e => (fmt, file, fs, Err (inl e))
  | Ok _ =>
      match file with
      | None =>
          let '(file, fs, w) := createXTxJournal epoch now fs in
          (fmt, file, fs, match w with Ok j => Ok j | Err e => Err (inr e) end)
      | Some b =>
          let '(b, fs, w) := openXTxJournal b epoch now fs in
          (fmt, Some b, fs, match w with Ok j => Ok j | Err e => Err (inr e) end)
      end
  end.

(** ** The file is read as it was written *)

Record fmt_good (f : xtxFormat) : Prop := {
  fg_name : f_Format f = xtxFormatName;
  fg_level : f_MinReader f = 1%Z;
  fg_features : Forall (.∈ xtxKnownFeatures) (default [] (f_Features f));
  fg_created : str_utf8 (f_CreatedBy f);
  fg_crc : f_CRC f = None
}.

Lemma features_roundtrip l : dec_features (features_json l) = Some l.
Proof.
  destruct l as [l|]; [|done]. cbn [features_json dec_features]. assert (H : mapM (dec_string "") (map (λ s, JStr (b_of_s s)) l) = Some l).
  { induction l as [|s l IH]; [done|]. cbn [map mapM]. by rewrite dec_str, IH. }
  by rewrite H.
Qed.

Lemma format_json_ok f : json_ok (JObj (format_members f)) = true.
Proof.
  cbn [json_ok]. unfold format_members. rewrite forallb_app, andb_true_iff. split; [|auto with scriva].
  unfold member. cbn [forallb snd]. rewrite num_i_ok. cbn [andb]. destruct (f_Features f) as [l|]; [|done]. cbn [features_json json_ok].
  rewrite andb_true_r. apply forallb_forall. intros x (q & <- & _)%in_map_iff. done.
Qed.

(** The strings of a format are UTF-8: so are those of any decoded one. *)
Definition format_read (f : xtxFormat) : Prop :=
  str_utf8 (f_Format f) ∧ Forall str_utf8 (default [] (f_Features f)) ∧ str_utf8 (f_CreatedBy f).

Lemma format_json_utf8 f : format_read f → json_utf8 (JObj (format_members f)) = true.
Proof.
  intros (H1 & H2 & H3). change (members_utf8 (format_members f) = true). unfold format_members.
  apply members_utf8_app; [|apply crc_member_utf8]. repeat apply members_utf8_cons; auto with utf8.
  destruct (f_Features f) as [l|]; [|done]. cbn [default features_json json_utf8] in *.
  apply forallb_forall. intros x (q & <- & Hq%list_elem_of_In)%in_map_iff. rewrite Forall_forall in H2. by apply H2.
Qed.

Lemma set_format_read f kv f' : json_utf8 kv.2 = true → format_read f → set_format_field f kv = Some f' → format_read f'.
Proof.
  destruct f as [n m fe c crc]. unfold format_read. cbn [f_Format f_Features f_CreatedBy]. intros Hj (H1 & H2 & H3).
  unfold set_format_field. cbn zeta. field_cases; intros [= <-]; cbn [f_Format f_Features f_CreatedBy]; split_and!; eauto using dec_string_utf8.
  rename select (dec_features _ = Some _) into E. unfold dec_features in E. destruct (kv.2) as [| | | |l|]; try done; [by injection E as <-|]. cbn [json_utf8] in Hj.
  destruct (mapM (dec_string "") l) as [v|] eqn:Em; [|done]. injection E as <-. cbn [default]. apply mapM_Some in Em.
  induction Em as [|x y l v Hx _ IH]; [done|]. cbn [forallb] in Hj. apply andb_true_iff in Hj as [Hj1 Hj2].
  constructor; [by apply (dec_string_utf8 "" x)|by apply IH].
Qed.

Lemma fmt_good_read f : fmt_good f → format_read f.
Proof.
  intros [Hn _ Hf Hu _]. split; [by rewrite Hn|]. split; [|done]. eapply Forall_impl; [exact Hf|]. intros x Hx.
  unfold xtxKnownFeatures in Hx. by repeat (apply elem_of_cons in Hx as [->|Hx]; [done|]); apply elem_of_nil in Hx.
Qed.

Lemma format_fields f : in_i64 (f_MinReader f) → (∀ c, f_CRC f = Some c → (c < 4294967296)%N) →
  strict_fields set_format_field zero_format (format_members f) = Some f ∧
  strict_fields probe_format_field None (format_members f) = Some (Some (f_MinReader f)).
Proof.
  destruct f as [n m fe c crc]. cbn [f_MinReader f_CRC]. intros Hm Hcrc. unfold format_members.
  cbn [f_Format f_MinReader f_Features f_CreatedBy f_CRC]. split.
  - eapply sf_app.
    + eapply (sf_cons _ _ _ _ (MkFormat n 0 None "" None)); [cbn; by rewrite s_of_b_of_s|].
      eapply (sf_cons _ _ _ _ (MkFormat n m None "" None)).
      { change ((x ← dec_i64 0 (num_i m); Some (MkFormat n x None "" None)) = Some (MkFormat n m None "" None)). by rewrite dec_num_i. }
      eapply (sf_cons _ _ _ _ (MkFormat n m fe "" None)).
      { change ((x ← dec_features (features_json fe); Some (MkFormat n m x "" None)) = Some (MkFormat n m fe "" None)). by rewrite features_roundtrip. }
      apply (sf_one _ _ _ (MkFormat n m fe c None)). cbn. by rewrite s_of_b_of_s.
    + destruct crc as [x|]; [|done]. apply sf_one.
      change ((y ← dec_crc (JNum (fmt_N x)); Some (MkFormat n m fe c y)) = Some (MkFormat n m fe c (Some x))). by rewrite dec_crc_fmt by auto.
  - eapply (sf_app _ _ _ _ (Some m)).
    + eapply (sf_cons _ _ _ _ None); [done|]. eapply (sf_cons _ _ _ _ (Some m)); [|done].
      change (match num_i m with JNull => Some None | j => x ← dec_i64 0 j; Some (Some x) end = Some (Some m)).
      unfold num_i at 1. by rewrite (dec_num_i 0 m Hm : dec_i64 0 (JNum (fmt_Z m)) = Some m).
    + by destruct crc.
Qed.

Lemma drop_newline_snoc l : drop_newline (l ++ [newline]) = l.
Proof. unfold drop_newline. rewrite last_snoc, decide_True by done. apply removelast_last. Qed.

Lemma drop_newline_inv b : b = drop_newline b ∨ b = drop_newline b ++ [newline].
Proof.
  unfold drop_newline. destruct (last b) as [c|] eqn:E; [|by left]. case_decide as Hc; [|by left]. subst c. right.
  apply last_Some in E as [l ->]. by rewrite removelast_last.
Qed.

Lemma format_line_last f : drop_newline (format_line f) = format_line f.
Proof.
  unfold drop_newline. destruct (last (format_line f)) as [c|] eqn:E; [|done]. case_decide as Hc; [|done]. subst c. exfalso.
  assert (Hno : newline ∉ format_line f) by apply clean_no_newline, print_clean, format_json_ok. apply Hno. apply last_Some in E as [l ->].
  apply elem_of_app. right. left.
Qed.

Lemma set_format_crc_None f : f_CRC f = None → set_format_crc f None = f.
Proof. destruct f. cbn. by intros ->. Qed.

(** What the decoder does on the line of a format, with or without its newline. *)
Lemma decode_line f data :
  fmt_good f → data = format_line f ∨ data = encodeXTxFormat f → decodeXTxFormat data = Ok f.
Proof.
  intros Hg Hd. pose proof (fmt_good_read f Hg) as Hr. destruct Hg as [Hn Hm Hf _ Hc]. set (f' := set_format_crc f (Some (crc32c (marshal_format (set_format_crc f None))))).
  assert (Hu : unmarshal data = Some (JObj (format_members f'))).
  { destruct Hd as [->| ->]; [apply unmarshal_print|apply unmarshal_print_newline]; (apply format_json_ok || by apply format_json_utf8). }
  assert (Hu' : unmarshal (format_line f) = Some (JObj (format_members f')))
    by (apply unmarshal_print; [apply format_json_ok|by apply format_json_utf8]).
  assert (Hl : drop_newline data = format_line f) by (destruct Hd as [->| ->]; [apply format_line_last|apply drop_newline_snoc]).
  destruct (format_fields f') as [H1 H2]; [cbn; rewrite Hm; by vm_compute|intros c [= <-]; apply crc32c_lt|].
  unfold decodeXTxFormat, strictUnmarshal. rewrite Hu, Hl, Hu', H1, H2. cbn [f_MinReader f' set_format_crc f_CRC]. rewrite Hm. cbn [Z.ltb].
  change (xtxReaderLevel <? 1)%Z with false. cbn iota. change (set_format_crc f' None) with (set_format_crc f None).
  rewrite (set_format_crc_None f Hc). rewrite decide_False by (intros H; by apply H). rewrite decide_False.
  2: { intros H. apply H. unfold f', format_line. by rewrite (set_format_crc_None f Hc). }
  rewrite decide_False by (intros [H|H]; [done|lia]). rewrite (proj2 (forallb_forall _ _)); [done|].
  intros x Hx. apply bool_decide_eq_true. rewrite Forall_forall in Hf. by apply Hf, list_elem_of_In.
Qed.

(** The probe reads [min_reader] from the line. *)
Lemma probe_members f m : strict_fields probe_format_field None (format_members f) = Some (Some m) → m = f_MinReader f.
Proof.
  assert (H : strict_fields probe_format_field None (format_members f) = (x ← dec_i64 0 (num_i (f_MinReader f)); Some (Some x))).
  { unfold format_members, strict_fields, num_i. destruct (f_CRC f); cbn -[dec_i64 fmt_Z fmt_N];
      change (probe_format_field None (member "format" (JStr (b_of_s (f_Format f))))) with (Some (@None Z)); cbn [mbind option_bind];
      change (probe_format_field None (member "min_reader" (JNum (fmt_Z (f_MinReader f))))) with
        (dec_i64 0 (JNum (fmt_Z (f_MinReader f))) ≫= λ x, Some (Some x)); by destruct (dec_i64 0 (JNum (fmt_Z (f_MinReader f)))). }
  rewrite H. unfold dec_i64, num_i. rewrite parse_fmt_Z. cbn [mbind option_bind]. case_decide; [|done]. by intros [= <-].
Qed.

Lemma decode_format_inv data f :
  decodeXTxFormat data = Ok f → fmt_good f ∧ (data = format_line f ∨ data = encodeXTxFormat f).
Proof.
  unfold decodeXTxFormat. destruct (strictUnmarshal probe_format_field None data) as [[m|]|] eqn:Ep; [|done|done].
  destruct (Z.ltb_spec xtxReaderLevel m) as [Hm|Hm]; [done|]. destruct (strictUnmarshal set_format_field zero_format (drop_newline data)) as [f0|] eqn:Eu; [|done].
  destruct (f_CRC f0) as [want|] eqn:Ec; [|done]. case_decide as H1; [done|]. case_decide as H2; [done|].
  cbn zeta. case_decide as H3; [done|]. destruct (forallb _ _) eqn:E4; cbn [negb]; [|done]. intros [= <-].
  assert (Hline : format_line (set_format_crc f0 None) = drop_newline data).
  { unfold format_line. assert (Hs : ∀ x, set_format_crc (set_format_crc f0 None) x = set_format_crc f0 x) by done.
    rewrite !Hs, H1, <- H2. f_equal.
    destruct f0. cbn in Ec. by rewrite Ec. }
  assert (Hr : format_read f0) by (by apply (strictUnmarshal_ind set_format_field format_read zero_format (drop_newline data) f0 set_format_read)).
  split.
  - cbn [set_format_crc f_Format f_MinReader f_Features] in *.
    assert (H5 : f_Format f0 = xtxFormatName) by (apply dec_stable; tauto). assert (H6 : ¬ (f_MinReader f0 < 1)%Z) by tauto. clear H3.
    split; cbn [set_format_crc f_Format f_MinReader f_Features f_CreatedBy f_CRC]; [done| | |apply Hr|done].
    + assert (Hmr : m = f_MinReader f0); [|unfold xtxReaderLevel in Hm; lia]. apply (probe_members f0).
      unfold strictUnmarshal in Ep. destruct (drop_newline_inv data) as [Hd|Hd]; rewrite Hd, <- H2 in Ep; unfold marshal_format in Ep.
      * by rewrite unmarshal_print in Ep by (apply format_json_ok || by apply format_json_utf8).
      * by rewrite unmarshal_print_newline in Ep by (apply format_json_ok || by apply format_json_utf8).
    + apply Forall_forall. intros x Hx%list_elem_of_In. rewrite forallb_forall in E4. by apply E4, bool_decide_eq_true in Hx.
  - unfold encodeXTxFormat. rewrite Hline. apply drop_newline_inv.
Qed.

(** the format file is read back exactly.  A file is accepted if and only
    if it is the bytes that encoding an acceptable format gives, with or without
    the final newline: any other byte sequence is refused. *)
Theorem format_file_exact data f :
  decodeXTxFormat data = Ok f ↔ fmt_good f ∧ (data = format_line f ∨ data = encodeXTxFormat f).
Proof. split; [apply decode_format_inv|]. intros [Hg Hd]. by eapply decode_line. Qed.

(** ** First use *)

Lemma new_format_good createdBy : str_utf8 createdBy → fmt_good (new_format createdBy).
Proof. intros Hu. split; [done|done| |done|done]. repeat constructor; set_solver. Qed.

(** a journal never exists without its format file.  Whatever file calls
    fail while a root is used for transactions for the first time, if there is a
    journal file afterwards, then a format file the next start accepts is there
    too and was made durable first, so the version gate never finds a journal
    without a format. *)
Theorem format_before_journal fmt createdBy epoch now fs fmt' file' fs' w :
  str_utf8 createdBy → openOrCreateXTxJournal fmt None createdBy epoch now fs = (fmt', file', fs', w) → is_Some file' →
  (∃ b f, fmt' = Some b ∧ decodeXTxFormat b = Ok f) ∧ ∃ fs1, ensureXTxFormat fmt createdBy fs = (fmt', fs1, Ok tt).
Proof.
  intros Hcr. unfold openOrCreateXTxJournal. destruct (ensureXTxFormat fmt createdBy fs) as [[fmt1 fs1] r] eqn:Ee. destruct r as [[]|e].
  2: { intros [= <- <- <- <-] [? H]. done. }
  destruct (createXTxJournal epoch now fs1) as [[f1 fs2] w1]. intros [= <- <- <- <-] _. split; [|by exists fs1].
  unfold ensureXTxFormat in Ee. destruct (readXTxFormat fmt fs) as [fs0 rr] eqn:Er. destruct rr as [[f|]|e]; [| |done].
  - injection Ee as <- _. unfold readXTxFormat in Er. destruct fmt as [b|]; [|done]. destruct (next_fault fs) as [f0 fs9]. injection Er as _ Er.
    destruct (f_ok f0); [|done]. destruct (decodeXTxFormat b) as [f'|] eqn:Ed; [|done]. eauto.
  - remember (encodeXTxFormat (new_format createdBy)) as b eqn:Hb. destruct (writeJournalAtomic b fs0) as [[renamed ok] fs3] eqn:Ew.
    destruct ok; [|done]. injection Ee as <- _. rewrite (write_atomic_fail b fs0 renamed true fs3 Ew eq_refl).
    exists b, (new_format createdBy). split; [done|]. apply (decode_line (new_format createdBy)); [by apply new_format_good|]. by right.
Qed.


(** The directory sync after the rename of the format file fails: no journal is
    created; without faults both files are there. *)
Lemma first_use_sync_fails :
  let r := openOrCreateXTxJournal None None "v1.4.0" "00000000000000ab" (time_of_nanos 5) [FOk; FOk; FOk; FOk; FOk; FFail 0] in
  r.1.1.2 = None ∧ r.2 = Err (inl FIO) ∧ is_Some r.1.1.1.
Proof. vm_compute. eauto. Qed.

Definition ff_run := openOrCreateXTxJournal None None "v1.4.0" "00000000000000ab" (time_of_nanos 5) [].

Lemma format_before_journal_witness :
  (∃ b f, ff_run.1.1.1 = Some b ∧ decodeXTxFormat b = Ok f) ∧ ∃ fs1, ensureXTxFormat None "v1.4.0" [] = (ff_run.1.1.1, fs1, Ok tt).
Proof.
  apply (format_before_journal None "v1.4.0" "00000000000000ab" (time_of_nanos 5) [] ff_run.1.1.1 ff_run.1.1.2 ff_run.1.2 ff_run.2).
  - reflexivity.
  - unfold ff_run. by destruct (openOrCreateXTxJournal _ _ _ _ _ _) as [[[??]?]?].
  - vm_compute. eauto.
Defined.
