(* ===== verification/UnixTime.v ===== *)
(** * Unix readings of a timestamp

    [t.Unix()] and [t.Nanosecond()] of a timestamp, and [time.Unix(sec, nsec).UTC()],
    which the replication envelope uses to ship a timestamp as two integers.
    Days are counted from the first day of year 0 of the Gregorian calendar. *)
From Stdlib Require Import Ascii Lia ZArith.
From stdpp Require Import prelude gmap strings sorting.
From S2P Require Import Prelude GoNum Json GoTime.

(** The days before the first day of year [y]. *)
Definition days_before (y : nat) : Z :=
  let z := Z.of_nat y in (365 * z + (z + 3) / 4 - (z + 99) / 100 + (z + 399) / 400)%Z.

(** The days before the first day of month [m] of a year, [k] months after January. *)
Fixpoint month_start (k y : nat) : Z :=
  match k with 0 => 0%Z | S k' => (month_start k' y + Z.of_nat (days_in k y))%Z end.

Definition day_number (y m d : nat) : Z :=
  (days_before y + month_start (m - 1) y + Z.of_nat d - 1)%Z.

Definition epoch_day : Z := 719528.

Definition Unix (t : time) : Z :=
  ((day_number (tm_year t) (tm_month t) (tm_day t) - epoch_day) * 86400 +
   Z.of_nat (tm_hour t) * 3600 + Z.of_nat (tm_min t) * 60 + Z.of_nat (tm_sec t) - tm_off t * 60)%Z.

(** The value of up to nine digits after the point. *)
Fixpoint frac_value (k : nat) (ds : list nat) : Z :=
  match k, ds with
  | S k', d :: ds' => (Z.of_nat d * 10 ^ Z.of_nat k' + frac_value k' ds')%Z
  | _, _ => 0%Z
  end.

Definition Nanosecond (t : time) : Z := frac_value 9 (tm_frac t).

Definition giga : Z := 1000000000.

(** [time.Unix(sec, nsec).UTC()]: the nanoseconds are normalised first.  [None] is a
    year that the timestamps of this development do not have (before 0 or after 9999). *)
Definition time_of_unix (sec nsec : Z) : option time :=
  let sec := (sec + nsec / giga)%Z in
  let nsec := (nsec mod giga)%Z in
  let days := (sec / 86400 + epoch_day)%Z in
  let s := (sec mod 86400)%Z in
  if bool_decide (0 ≤ days < days_before (100 * 100))%Z then
    let '(y, d) := find_year (100 * 100 + 100) 0 days in
    let '(m, d) := find_month 11 y 1 d in
    Some (MkTime y m (Z.to_nat d + 1) (Z.to_nat (s / 3600)) (Z.to_nat (s / 60 mod 60)) (Z.to_nat (s mod 60))
            (strip_trailing (nano_digits nsec)) 0)
  else None.

(** ** The calendar *)

Lemma days_before_S y : days_before (S y) = (days_before y + year_days y)%Z.
Proof.
  unfold days_before, year_days, leap. rewrite Nat2Z.inj_succ.
  assert (H4 : Z.of_nat (y mod 4) = (Z.of_nat y mod 4)%Z) by apply (Nat2Z.inj_mod y 4).
  assert (H100 : Z.of_nat (y mod 100) = (Z.of_nat y mod 100)%Z) by apply (Nat2Z.inj_mod y 100).
  assert (H400 : Z.of_nat (y mod 400) = (Z.of_nat y mod 400)%Z) by apply (Nat2Z.inj_mod y 400).
  set (z := Z.of_nat y) in *.
  case_bool_decide as Hl.
  - assert (z mod 4 = 0 ∧ (z mod 100 ≠ 0 ∨ z mod 400 = 0))%Z by lia. Z.div_mod_to_equations. lia.
  - assert (¬ (z mod 4 = 0 ∧ (z mod 100 ≠ 0 ∨ z mod 400 = 0)))%Z by lia. Z.div_mod_to_equations. lia.
Qed.

Lemma find_year_days fuel y d : (0 ≤ d)%Z →
  let r := find_year fuel y d in (days_before r.1 + r.2 = days_before y + d)%Z ∧ (0 ≤ r.2)%Z.
Proof.
  revert y d. induction fuel as [|fuel IH]; intros y d Hd; cbn [find_year]; [done|].
  destruct (Z.ltb_spec d (year_days y)); [done|].
  destruct (IH (S y) (d - year_days y)%Z) as [H1 H2]; [lia|]. rewrite days_before_S in H1. split; [lia|done].
Qed.

Lemma find_month_start fuel y m d :
  let r := find_month fuel y (S m) d in (month_start (r.1 - 1) y + r.2 = month_start m y + d)%Z.
Proof.
  revert m d. induction fuel as [|fuel IH]; intros m d; cbn [find_month].
  { cbn [fst snd]. by rewrite Nat.sub_succ, Nat.sub_0_r. }
  destruct (Z.ltb_spec d (Z.of_nat (days_in (S m) y))); cbn [fst snd].
  { by rewrite Nat.sub_succ, Nat.sub_0_r. }
  specialize (IH (S m) (d - Z.of_nat (days_in (S m) y))%Z). cbn [month_start] in IH. rewrite IH. lia.
Qed.

Lemma days_before_mono a b : a ≤ b → (days_before a ≤ days_before b)%Z.
Proof.
  induction 1 as [|b _ IH]; [done|]. rewrite days_before_S. pose proof (year_days_bounds b). lia.
Qed.

(** ** Digits of the nanoseconds *)

Lemma frac_value_strip k ds : frac_value k (strip_trailing ds) = frac_value k ds.
Proof.
  revert k. induction ds as [|d ds IH]; intros k; [done|]. cbn [strip_trailing].
  destruct (strip_trailing ds) as [|d' ds'] eqn:E.
  - destruct k as [|k]; [by destruct d|]. specialize (IH k). destruct d; cbn [frac_value]; rewrite <- IH; by destruct k.
  - destruct k as [|k]; [done|]. cbn [frac_value]. by rewrite IH.
Qed.

Lemma frac_value_nano n : (0 ≤ n < giga)%Z → frac_value 9 (nano_digits n) = n.
Proof.
  unfold giga, nano_digits. intros Hn. cbn [seq map frac_value Nat.sub].
  rewrite !Z2Nat.id by (apply Z.mod_pos_bound; lia).
  change (10 ^ Z.of_nat 8)%Z with 100000000%Z. change (10 ^ Z.of_nat 7)%Z with 10000000%Z.
  change (10 ^ Z.of_nat 6)%Z with 1000000%Z. change (10 ^ Z.of_nat 5)%Z with 100000%Z.
  change (10 ^ Z.of_nat 4)%Z with 10000%Z. change (10 ^ Z.of_nat 3)%Z with 1000%Z.
  change (10 ^ Z.of_nat 2)%Z with 100%Z. change (10 ^ Z.of_nat 1)%Z with 10%Z.
  change (10 ^ Z.of_nat 0)%Z with 1%Z. Z.div_mod_to_equations. lia.
Qed.

Lemma frac_value_bound k ds : Forall (λ d, d < 10) ds → (0 ≤ frac_value k ds < 10 ^ Z.of_nat k)%Z.
Proof.
  intros H. revert k. induction H as [|d ds Hd _ IH]; intros k.
  { assert (0 < 10 ^ Z.of_nat k)%Z by (apply Z.pow_pos_nonneg; lia). destruct k; cbn [frac_value]; lia. }
  destruct k as [|k]; [done|]. cbn [frac_value]. specialize (IH k). rewrite Nat2Z.inj_succ, Z.pow_succ_r by lia. nia.
Qed.

Lemma Nanosecond_bound t : time_wf t → (0 ≤ Nanosecond t < giga)%Z.
Proof. intros (_ & _ & _ & _ & _ & _ & H & _). exact (frac_value_bound 9 _ H). Qed.

(** ** The two readings determine the instant *)

Lemma time_of_unix_spec sec nsec t :
  time_of_unix sec nsec = Some t →
  time_wf t ∧ Unix t = (sec + nsec / giga)%Z ∧ Nanosecond t = (nsec mod giga)%Z ∧ tm_off t = 0%Z.
Proof.
  unfold time_of_unix. set (s0 := (sec + nsec / giga)%Z). case_bool_decide as Hd; [|done].
  set (days := (s0 / 86400 + epoch_day)%Z) in *.
  assert (Hy : (0 ≤ days < 365 * Z.of_nat (100 * 100 + 100))%Z).
  { split; [lia|]. eapply Z.lt_trans; [apply Hd|]. by vm_compute. }
  pose proof (find_year_spec _ 0 days Hy) as [H1 H2]. destruct (find_year_days (100 * 100 + 100) 0 days) as [H3 H4]; [lia|].
  destruct (find_year (100 * 100 + 100) 0 days) as [y d]. cbn [fst snd] in *.
  change (days_before 0) with 0%Z in H3.
  assert (Hyy : y < 100 * 100).
  { destruct (decide (y < 100 * 100)) as [|Hn]; [done|]. assert (100 * 100 ≤ y) as Hle by lia.
    apply days_before_mono in Hle. lia. }
  destruct (find_month_spec y d H1) as [H5 H6]. pose proof (find_month_start 11 y 0 d) as H7.
  destruct (find_month 11 y 1 d) as [m d']. cbn [fst snd] in *. change (month_start 0 y) with 0%Z in H7.
  intros Ht%Some_inj. subst t. pose proof (Z.mod_pos_bound s0 86400 ltac:(lia)) as Hs.
  pose proof (Z.mod_pos_bound nsec giga ltac:(done)) as Hn.
  pose proof (strip_trailing_spec (nano_digits (nsec mod giga))) as (Hl & Hz & HP).
  assert (H24 : (0 ≤ s0 mod 86400 / 3600 < 24)%Z) by (split; [apply Z.div_pos; lia|apply Z.div_lt_upper_bound; lia]).
  pose proof (Z.mod_pos_bound (s0 mod 86400 / 60) 60 ltac:(lia)).
  pose proof (Z.mod_pos_bound (s0 mod 86400) 60 ltac:(lia)).
  specialize (HP _ (nano_digits_lt _)). change (length (nano_digits (nsec mod giga))) with 9 in Hl.
  assert (Hv : frac_value 9 (strip_trailing (nano_digits (nsec mod giga))) = (nsec mod giga)%Z)
    by (rewrite frac_value_strip; by apply frac_value_nano).
  revert Hl Hz HP Hv. generalize (strip_trailing (nano_digits (nsec mod giga))). intros ds Hl Hz HP Hv.
  unfold time_wf, Unix, Nanosecond, day_number.
  cbn [tm_year tm_month tm_day tm_hour tm_min tm_sec tm_frac tm_off]. split_and!; try done; try lia.
  rewrite !Z2Nat.id by lia. rewrite Nat2Z.inj_add, Z2Nat.id by lia. subst days.
  replace (days_before y + month_start (m - 1) y + (d' + Z.of_nat 1) - 1 - epoch_day)%Z with (s0 / 86400)%Z by lia.
  clearbody s0. clear -s0. Z.div_mod_to_equations. lia.
Qed.

Lemma month_start_bound k y : k ≤ 11 → (0 ≤ month_start k y ∧ month_start k y + Z.of_nat (days_in (S k) y) ≤ year_days y)%Z.
Proof.
  intros Hk. do 12 (destruct k as [|k]; [unfold year_days; cbn [month_start]; unfold days_in; destruct (leap y); vm_compute; split; discriminate|]). lia.
Qed.

(** The instant of a timestamp of years 0001 to 9998 is one [time.Unix] gives back,
    whatever its zone. *)
Lemma time_of_unix_total t :
  time_wf t → 1 ≤ tm_year t → tm_year t < 100 * 100 - 1 →
  is_Some (time_of_unix (Unix t) (Nanosecond t)).
Proof.
  intros Hwf H1 H2. unfold time_of_unix. pose proof (Nanosecond_bound t Hwf) as Hn.
  rewrite (Z.div_small _ _ Hn), Z.add_0_r. rewrite bool_decide_eq_true_2.
  - destruct (find_year _ _ _) as [y d]. destruct (find_month _ _ _ _) as [m d']. eauto.
  - destruct Hwf as (Hy & Hm & Hd & Hh & Hmi & Hs & _ & _ & _ & Ho).
    unfold Unix, day_number. destruct (month_start_bound (tm_month t - 1) (tm_year t)) as [B1 B2]; [lia|].
    replace (S (tm_month t - 1)) with (tm_month t) in B2 by lia.
    assert (Hlo : (days_before 1 ≤ days_before (tm_year t))%Z) by (apply days_before_mono; lia).
    assert (Hhi : (days_before (S (tm_year t)) ≤ days_before (100 * 100 - 1))%Z) by (apply days_before_mono; lia).
    rewrite days_before_S in Hhi. change (days_before 1) with 366%Z in Hlo.
    assert (E : days_before (100 * 100) = (days_before (100 * 100 - 1) + 365)%Z) by (vm_compute; reflexivity).
    rewrite E. clear E. set (D := days_before (100 * 100 - 1)) in *. clearbody D. set (B := days_before (tm_year t)) in *. clearbody B.
    set (M := month_start _ _) in *. clearbody M. set (Y := year_days _) in *. clearbody Y.
    Z.div_mod_to_equations. lia.
Qed.

(** Examples: the epoch, the zero [time.Time] and a time of another zone. *)
Example unix_epoch : Unix (MkTime 1970 1 1 0 0 0 [] 0) = 0%Z ∧ Unix zero_time = (-62135596800)%Z.
Proof. split; vm_compute; reflexivity. Qed.
Example unix_zone :
  let t := MkTime 2024 2 29 23 59 59 [5] (-330) in
  time_of_unix (Unix t) (Nanosecond t) = Some (MkTime 2024 3 1 5 29 59 [5] 0).
Proof. vm_compute. reflexivity. Qed.
