(* ===== verification/Envelope.v ===== *)
(** * The replication envelope: [engine/replication_envelope.go]

    A cross-collection transaction is shipped to followers as one record that
    carries its operations in commit order and the SHA-256 digest of their
    canonical encoding.  This file holds the record, its sealing and its check,
    and the byte encoding with its decoder. *)
From Stdlib Require Import Ascii Lia ZArith.
From stdpp Require Import prelude gmap strings sorting.
From S2P Require Import Prelude GoNum Json Value GoTime UnixTime Store Wire Segment Sha256 Journal.

Definition DefaultMaxEnvelopeBytes : Z := 33554432.
Definition envelopeVersion : Z := 2.

Inductive env_err : Type :=
| ErrEnvelopeInvalid
| ErrEnvelopeDigest
| ErrYear.           (* a timestamp outside the years 0 to 9999 *)

(** [eo_dataJSON] caches the canonical JSON of the data. *)
Record TxEnvelopeOp : Type := MkEnvOp {
  eo_Collection : string; eo_Entry : Entry; eo_dataJSON : option bytes
}.

Record TxEnvelope : Type := MkEnv {
  env_TxID : string; env_Key : string; env_Ops : list TxEnvelopeOp; env_Digest : bytes
}.

Definition with_data (e : Entry) (m : option vdata) : Entry :=
  MkEntry (ID e) (Op e) (Ts e) (Rev e) m (Epoch e) (ExpiresAt e) (CRC e).

(** ** Sealing *)

(** [json.Unmarshal(raw, &norm)] into a nil [map[string]any]. *)
Definition unmarshal_map (raw : bytes) : option (option vdata) :=
  match unmarshal raw with Some j => dec_data None j | None => None end.

Definition marshal_map (m : option vdata) : bytes :=
  match m with None => print JNull | Some m => print (data_to_json m) end.

Definition canonicalData (data : option vdata) : res env_err (option vdata * option bytes) :=
  match data with
  | None => Ok (None, None)
  | Some _ =>
      match unmarshal_map (marshal_map data) with
      | None => Err ErrEnvelopeInvalid
      | Some norm => Ok (norm, Some (marshal_map norm))
      end
  end.

Definition opt_len (b : option bytes) : Z := Z.of_nat (length (default [] b)).

(** The size is an [int64] sum. *)
Fixpoint prepareEnvelopeOps (ops : list TxEnvelopeOp) (size : Z) : res env_err (list TxEnvelopeOp * Z) :=
  match ops with
  | [] => Ok ([], size)
  | op :: ops =>
      let* nc := canonicalData (Data (eo_Entry op)) in
      let op' := MkEnvOp (eo_Collection op) (with_data (eo_Entry op) nc.1) nc.2 in
      let size := i64 (size + (opt_len nc.2 + Z.of_nat (String.length (eo_Collection op)) + 64)) in
      let* r := prepareEnvelopeOps ops size in
      Ok (op' :: r.1, r.2)
  end.

Definition known_op (op : string) : bool := bool_decide (op = OpInsert ∨ op = OpUpdate ∨ op = OpDelete).

(** The first loop of [validate]: the fields of each operation and the order;
    [last] is the collection of the operation before, if any. *)
Fixpoint validate_order (last : option string) (ops : list TxEnvelopeOp) : bool :=
  match ops with
  | [] => true
  | op :: ops =>
      if decide (eo_Collection op = "") then false
      else if negb (known_op (Op (eo_Entry op))) then false
      else if match last with Some l => str_ltb (eo_Collection op) l | None => false end then false
      else validate_order (Some (eo_Collection op)) ops
  end.

(** The second loop: a collection seen before must be the one just seen. *)
Fixpoint validate_contiguous (first : bool) (seen : gset string) (prev : string) (ops : list TxEnvelopeOp) : bool :=
  match ops with
  | [] => true
  | op :: ops =>
      let c := eo_Collection op in
      if negb first && bool_decide (c ≠ prev) && bool_decide (c ∈ seen) then false
      else validate_contiguous false ({[ c ]} ∪ seen) c ops
  end.

Definition validate (e : TxEnvelope) : res env_err unit :=
  if decide (env_TxID e = "") then Err ErrEnvelopeInvalid
  else if decide (env_Ops e = []) then Err ErrEnvelopeInvalid
  else if negb (validate_order None (env_Ops e)) then Err ErrEnvelopeInvalid
  else if negb (validate_contiguous true ∅ "" (env_Ops e)) then Err ErrEnvelopeInvalid
  else Ok tt.

(** ** The digest *)

(** [binary.LittleEndian.PutUint32] of a value truncated to 32 bits. *)
Definition u32le (z : Z) : bytes :=
  map (λ k, ascii_of_N (Z.to_N (((z mod 4294967296) / 2 ^ (8 * Z.of_nat k)) mod 256))) (seq 0 4).

Definition lp (b : bytes) : bytes := u32le (Z.of_nat (length b)) ++ b.
Definition lps (s : string) : bytes := lp (b_of_s s).

Definition domain_tag : bytes := b_of_s "SCRIVA-XTX-ENV" ++ ["000"%char].

Definition data_part (useCache : bool) (op : TxEnvelopeOp) : bytes :=
  match Data (eo_Entry op) with
  | None => "000"%char :: lp []
  | Some m =>
      let dj := if useCache then eo_dataJSON op else None in
      "001"%char :: lp (match dj with Some b => b | None => marshal_map (Some m) end)
  end.

Definition op_part (useCache : bool) (i : nat) (op : TxEnvelopeOp) : bytes :=
  let en := eo_Entry op in
  u32le (Z.of_nat i) ++ lps (eo_Collection op) ++ lps (Op en) ++ le64 (ID en) ++ le64 (Rev en) ++
  le64 (ExpiresAt en) ++ le64 (Unix (Ts en)) ++ u32le (Nanosecond (Ts en)) ++ le64 (Epoch en) ++
  data_part useCache op.

Fixpoint op_parts (useCache : bool) (i : nat) (ops : list TxEnvelopeOp) : bytes :=
  match ops with [] => [] | op :: ops => op_part useCache i op ++ op_parts useCache (S i) ops end.

Definition digest_input (useCache : bool) (e : TxEnvelope) : bytes :=
  domain_tag ++ u32le envelopeVersion ++ lps (env_TxID e) ++ lps (env_Key e) ++
  u32le (Z.of_nat (length (env_Ops e))) ++ op_parts useCache 0 (env_Ops e).

Definition computeDigest (useCache : bool) (e : TxEnvelope) : bytes := sha256 (digest_input useCache e).

Definition zero_digest : bytes := replicate 32 "000"%char.

Definition sealEnvelope (txid key : string) (prepared : list TxEnvelopeOp) : res env_err TxEnvelope :=
  let env := MkEnv txid key prepared zero_digest in
  let* _ := validate env in
  Ok (MkEnv txid key prepared (computeDigest true env)).

Definition NewTxEnvelope (txid key : string) (ops : list TxEnvelopeOp) : res env_err TxEnvelope :=
  let* p := prepareEnvelopeOps ops 0 in
  sealEnvelope txid key p.1.

Definition Verify (e : TxEnvelope) : res env_err unit :=
  let* _ := validate e in
  if decide (computeDigest false e = env_Digest e) then Ok tt else Err ErrEnvelopeDigest.

Definition Weight (e : TxEnvelope) : nat := length (env_Ops e).

(** [Participants]: [out] is the list built so far, its last element first. *)
Fixpoint participants_loop (out : list (string * nat)) (ops : list TxEnvelopeOp) : list (string * nat) :=
  match ops with
  | [] => rev out
  | op :: ops =>
      match out with
      | (c, n) :: out' =>
          if decide (c = eo_Collection op) then participants_loop ((c, S n) :: out') ops
          else participants_loop ((eo_Collection op, 1) :: out) ops
      | [] => participants_loop [(eo_Collection op, 1)] ops
      end
  end.

Definition Participants (e : TxEnvelope) : list (string * nat) := participants_loop [] (env_Ops e).

(** ** The byte encoding *)

Record envelopeOpJSON : Type := MkOpJSON {
  oj_Collection : string; oj_Op : string; oj_ID : Z; oj_Rev : Z; oj_Data : option vdata; oj_HasData : bool;
  oj_ExpiresAt : Z; oj_TsSec : Z; oj_TsNsec : Z; oj_Epoch : Z
}.

Record envelopeJSON : Type := MkEnvJSON {
  ej_V : Z; ej_TxID : string; ej_Key : string; ej_Ops : list envelopeOpJSON; ej_Digest : string
}.

Definition omit_false (k : string) (b : bool) : list (bytes * json) := if b then [member k (JBool b)] else [].

Definition op_members (o : envelopeOpJSON) : list (bytes * json) :=
  [member "c" (JStr (b_of_s (oj_Collection o))); member "op" (JStr (b_of_s (oj_Op o))); member "id" (num_u (oj_ID o))] ++
  omit_zero "rev" (oj_Rev o) (num_u (oj_Rev o)) ++ omit_empty (oj_Data o) ++ omit_false "has_data" (oj_HasData o) ++
  omit_zero "exp" (oj_ExpiresAt o) (num_i (oj_ExpiresAt o)) ++
  [member "ts_s" (num_i (oj_TsSec o)); member "ts_n" (num_i (oj_TsNsec o))] ++
  omit_zero "epoch" (oj_Epoch o) (num_u (oj_Epoch o)).

(** A nil slice is written as [null]. *)
Definition ops_json (l : list envelopeOpJSON) : json :=
  match l with [] => JNull | _ => JArr (map (λ o, JObj (op_members o)) l) end.

Definition envelope_members (j : envelopeJSON) : list (bytes * json) :=
  [member "v" (num_i (ej_V j)); member "tx" (JStr (b_of_s (ej_TxID j)))] ++ omit_str "key" (ej_Key j) ++
  [member "ops" (ops_json (ej_Ops j)); member "digest" (JStr (b_of_s (ej_Digest j)))].

(** [int32(ts.Nanosecond())] is below 2^31 for every timestamp. *)
Definition op_json_of (op : TxEnvelopeOp) : envelopeOpJSON :=
  let en := eo_Entry op in
  MkOpJSON (eo_Collection op) (Op en) (ID en) (Rev en) (Data en)
    (match Data en with None => false | Some _ => true end) (ExpiresAt en) (Unix (Ts en)) (Nanosecond (Ts en)) (Epoch en).

Definition envelope_json_of (e : TxEnvelope) : envelopeJSON :=
  MkEnvJSON envelopeVersion (env_TxID e) (env_Key e) (map op_json_of (env_Ops e)) (s_of_b (hex_encode (env_Digest e))).

Definition MarshalBinary (e : TxEnvelope) : bytes := print (JObj (envelope_members (envelope_json_of e))).

(** ** Decoding: unknown names are ignored *)

Definition dec_bool (old : bool) (j : json) : option bool :=
  match j with JNull => Some old | JBool b => Some b | _ => None end.

Definition dec_i32 (old : Z) (j : json) : option Z :=
  match j with
  | JNull => Some old
  | JNum lit => z ← parse_Z lit; if decide (- 2147483648 ≤ z < 2147483648)%Z then Some z else None
  | _ => None
  end.

Definition set_op_field (o : envelopeOpJSON) (kv : bytes * json) : option envelopeOpJSON :=
  let k := map to_lower kv.1 in
  let j := kv.2 in
  let '(MkOpJSON c op id rev data has exp s n ep) := o in
  if decide (k = b_of_s "c") then v ← dec_string c j; Some (MkOpJSON v op id rev data has exp s n ep)
  else if decide (k = b_of_s "op") then v ← dec_string op j; Some (MkOpJSON c v id rev data has exp s n ep)
  else if decide (k = b_of_s "id") then v ← dec_u64 id j; Some (MkOpJSON c op v rev data has exp s n ep)
  else if decide (k = b_of_s "rev") then v ← dec_u64 rev j; Some (MkOpJSON c op id v data has exp s n ep)
  else if decide (k = b_of_s "data") then v ← dec_data data j; Some (MkOpJSON c op id rev v has exp s n ep)
  else if decide (k = b_of_s "has_data") then v ← dec_bool has j; Some (MkOpJSON c op id rev data v exp s n ep)
  else if decide (k = b_of_s "exp") then v ← dec_i64 exp j; Some (MkOpJSON c op id rev data has v s n ep)
  else if decide (k = b_of_s "ts_s") then v ← dec_i64 s j; Some (MkOpJSON c op id rev data has exp v n ep)
  else if decide (k = b_of_s "ts_n") then v ← dec_i32 n j; Some (MkOpJSON c op id rev data has exp s v ep)
  else if decide (k = b_of_s "epoch") then v ← dec_u64 ep j; Some (MkOpJSON c op id rev data has exp s n v)
  else Some o.

Definition zero_op_json : envelopeOpJSON := MkOpJSON "" "" 0 0 None false 0 0 0 0.

(** An element of the array is decoded over the element that was there. *)
Definition dec_op (old : envelopeOpJSON) (j : json) : option envelopeOpJSON :=
  match j with JNull => Some old | JObj l => strict_fields set_op_field old l | _ => None end.

Fixpoint dec_op_list (old : list envelopeOpJSON) (l : list json) : option (list envelopeOpJSON) :=
  match l with
  | [] => Some []
  | j :: l =>
      o ← dec_op (default zero_op_json (head old)) j;
      r ← dec_op_list (tail old) l;
      Some (o :: r)
  end.

Definition dec_ops (old : list envelopeOpJSON) (j : json) : option (list envelopeOpJSON) :=
  match j with JNull => Some [] | JArr l => dec_op_list old l | _ => None end.

Definition set_env_field (e : envelopeJSON) (kv : bytes * json) : option envelopeJSON :=
  let k := map to_lower kv.1 in
  let j := kv.2 in
  let '(MkEnvJSON v tx key ops d) := e in
  if decide (k = b_of_s "v") then x ← dec_i64 v j; Some (MkEnvJSON x tx key ops d)
  else if decide (k = b_of_s "tx") then x ← dec_string tx j; Some (MkEnvJSON v x key ops d)
  else if decide (k = b_of_s "key") then x ← dec_string key j; Some (MkEnvJSON v tx x ops d)
  else if decide (k = b_of_s "ops") then x ← dec_ops ops j; Some (MkEnvJSON v tx key x d)
  else if decide (k = b_of_s "digest") then x ← dec_string d j; Some (MkEnvJSON v tx key ops x)
  else Some e.

Definition zero_env_json : envelopeJSON := MkEnvJSON 0 "" "" [] "".

(** [json.NewDecoder(r).Decode]: the first value; what follows it is not read. *)
Definition decode_first (b : bytes) : option json := fst <$> parse_value (S (length b)) b.

Definition decode_envelope (b : bytes) : option envelopeJSON :=
  match decode_first b with
  | Some (JObj l) => strict_fields set_env_field zero_env_json l
  | Some JNull => Some zero_env_json
  | _ => None
  end.

Definition op_of_json (o : envelopeOpJSON) : option TxEnvelopeOp :=
  t ← time_of_unix (oj_TsSec o) (oj_TsNsec o);
  let data := match oj_Data o with None => if oj_HasData o then Some ∅ else None | d => d end in
  Some (MkEnvOp (oj_Collection o)
          (MkEntry (oj_ID o) (oj_Op o) t (oj_Rev o) data (oj_Epoch o) (oj_ExpiresAt o) None) None).

Definition UnmarshalTxEnvelope (b : bytes) : res env_err TxEnvelope :=
  match decode_envelope b with
  | None => Err ErrEnvelopeInvalid
  | Some j =>
      if decide (ej_V j ≠ envelopeVersion) then Err ErrEnvelopeInvalid
      else
        match hex_decode (b_of_s (ej_Digest j)) with
        | None => Err ErrEnvelopeInvalid
        | Some raw =>
            if decide (length raw ≠ 32) then Err ErrEnvelopeInvalid
            else
              match mapM op_of_json (ej_Ops j) with
              | None => Err ErrYear
              | Some ops =>
                  let env := MkEnv (ej_TxID j) (ej_Key j) ops raw in
                  let* _ := Verify env in
                  Ok env
              end
        end
  end.
