(* ===== verification/EnvelopeThm.v ===== *)
(** * The envelope: order, digest and byte encoding

    What [validate] accepts, that a sealed envelope verifies, that the digest's
    input determines the contents, and that the byte encoding is read back. *)
From Stdlib Require Import Ascii Lia ZArith.
From stdpp Require Import prelude gmap strings sorting.
From S2P Require Import Prelude GoNum Json Value GoTime UnixTime Store Wire Segment Sha256 Journal JournalThm Envelope.

(** ** What [validate] accepts *)

Definition op_known (op : TxEnvelopeOp) : Prop := eo_Collection op ≠ "" ∧ known_op (Op (eo_Entry op)) = true.

Definition canonical_order (ops : list TxEnvelopeOp) : Prop :=
  StronglySorted (λ a b, str_ltb b a = false) (map eo_Collection ops).

Lemma str_le_trans a b c : str_ltb b a = false → str_ltb c b = false → str_ltb c a = false.
Proof.
  intros H1 H2. destruct (str_ltb c a) eqn:E; [|done].
  destruct (str_ltb a b) eqn:E2; [by rewrite (str_ltb_trans _ _ _ E E2) in H2|].
  by rewrite <- (str_ltb_total _ _ E2 H1), E in H2.
Qed.

Lemma validate_order_spec last ops :
  validate_order last ops = true ↔
  Forall op_known ops ∧ canonical_order ops ∧
  match last with Some l => Forall (λ op, str_ltb (eo_Collection op) l = false) ops | None => True end.
Proof.
  revert last. induction ops as [|op ops IH]; intros last; cbn [validate_order].
  { split; [|done]. intros _. split_and!; [done|constructor|by destruct last]. }
  unfold canonical_order in *. cbn [map]. rewrite Forall_cons. unfold op_known at 1.
  case_decide as Hc; [split; [done|by intros (((Hn & _) & _) & _)]|].
  destruct (known_op (Op (eo_Entry op))) eqn:Hk; cbn [negb]; [|split; [done|by intros (((_ & Hn) & _) & _)]].
  destruct (match last with Some l => str_ltb (eo_Collection op) l | None => false end) eqn:El.
  { split; [done|]. intros (_ & _ & Hl). destruct last as [l|]; [|done]. apply Forall_cons in Hl as [Hl _]. congruence. }
  rewrite IH. split.
  - intros (H1 & H2 & H3). split; [done|]. split.
    + constructor; [done|]. by apply Forall_map.
    + destruct last as [l|]; [|done]. constructor; [done|]. eapply Forall_impl; [exact H3|]. intros x Hx. by eapply str_le_trans.
  - intros ((_ & H1) & H2 & _). apply StronglySorted_inv in H2 as [H2 H3]. split_and!; [done|done|]. by apply Forall_map in H3.
Qed.

(** In canonical order the second loop of [validate] finds nothing. *)
Lemma validate_contiguous_sorted first seen prev ops :
  canonical_order ops → (first = true → seen = ∅) →
  (∀ s, s ∈ seen → str_ltb prev s = false) →
  (first = false → Forall (λ op, str_ltb (eo_Collection op) prev = false) ops) →
  validate_contiguous first seen prev ops = true.
Proof.
  unfold canonical_order. revert first seen prev. induction ops as [|op ops IH]; intros first seen prev Hs H1 H2 H3; [done|].
  cbn [validate_contiguous]. cbn [map] in Hs. apply StronglySorted_inv in Hs as [Hs Hh]. apply Forall_map in Hh.
  destruct (negb first && bool_decide (eo_Collection op ≠ prev) && bool_decide (eo_Collection op ∈ seen)) eqn:E.
  - apply andb_true_iff in E as [[E1 E2%bool_decide_eq_true]%andb_true_iff E3%bool_decide_eq_true]. destruct first; [done|].
    exfalso. apply E2. specialize (H3 eq_refl). apply Forall_cons in H3 as [H3 _]. by apply str_ltb_total; auto.
  - apply IH; [done|done| |done]. intros s [->%elem_of_singleton|Hin]%elem_of_union; [apply str_ltb_irrefl|].
    destruct first; [by rewrite H1 in Hin|]. specialize (H3 eq_refl). apply Forall_cons in H3 as [H3 _]. eapply str_le_trans; [by apply H2|done].
Qed.

Lemma validate_spec e :
  validate e = Ok tt ↔ env_TxID e ≠ "" ∧ env_Ops e ≠ [] ∧ Forall op_known (env_Ops e) ∧ canonical_order (env_Ops e).
Proof.
  unfold validate. case_decide as H1; [by split; [|intros (? & _)]|]. case_decide as H2; [by split; [|intros (_ & ? & _)]|].
  destruct (validate_order None (env_Ops e)) eqn:E; cbn [negb].
  - apply validate_order_spec in E as (H3 & H4 & _). rewrite validate_contiguous_sorted; [done|done|done|set_solver|done].
  - split; [done|]. intros (_ & _ & H3 & H4). assert (validate_order None (env_Ops e) = true) by by apply validate_order_spec. congruence.
Qed.

(** ** Participants *)

Definition expand (ps : list (string * nat)) : list string := mjoin (map (λ p, replicate p.2 p.1) ps).

Lemma expand_app a b : expand (a ++ b) = expand a ++ expand b.
Proof. unfold expand. by rewrite map_app, join_app. Qed.

Lemma expand_one p : expand [p] = replicate p.2 p.1.
Proof. unfold expand. cbn. apply app_nil_r. Qed.

Lemma participants_loop_spec out ops :
  expand (participants_loop out ops) = expand (rev out) ++ map eo_Collection ops.
Proof.
  revert out. induction ops as [|op ops IH]; intros out; cbn [participants_loop map]; [by rewrite app_nil_r|].
  destruct out as [|[c n] out].
  - by rewrite IH.
  - case_decide as Hc; rewrite IH; cbn [rev]; rewrite !expand_app, !expand_one; cbn [fst snd].
    + subst c. rewrite replicate_S_end, <- !app_assoc. done.
    + by rewrite <- !app_assoc.
Qed.

Definition counts_pos (ps : list (string * nat)) : Prop := Forall (λ p, 1 ≤ p.2) ps.

Lemma participants_loop_names out ops :
  counts_pos out → StronglySorted (λ a b, str_ltb a b = true) (rev out).*1 →
  canonical_order ops → Forall (λ op, match out with [] => True | p :: _ => str_ltb (eo_Collection op) p.1 = false end) ops →
  StronglySorted (λ a b, str_ltb a b = true) (participants_loop out ops).*1 ∧ counts_pos (participants_loop out ops).
Proof.
  revert out. unfold canonical_order. induction ops as [|op ops IH]; intros out Hp Hs Ho Hf; cbn [participants_loop].
  { split; [done|]. by apply Forall_rev. }
  cbn [map] in Ho. apply StronglySorted_inv in Ho as [Ho Hh]. apply Forall_map in Hh.
  destruct out as [|[c n] out]; [apply IH; [by repeat constructor|by repeat constructor|done|done]|].
  apply Forall_cons in Hf as [Hf _]. cbn [fst] in Hf. apply Forall_cons in Hp as [Hp1 Hp]. cbn in Hp1.
  case_decide as Hc.
  - subst c. apply IH; [constructor; [cbn; lia|done]| |done|done]. cbn [rev] in *. by rewrite fmap_app in *.
  - apply IH; [by repeat constructor| |done|done]. cbn [rev] in *. rewrite !fmap_app in *. cbn [fmap list_fmap fst] in *.
    assert (Hlt : str_ltb c (eo_Collection op) = true).
    { destruct (str_ltb c (eo_Collection op)) eqn:E; [done|]. exfalso. by apply Hc, str_ltb_total. }
    apply StronglySorted_app_2; [|done|by repeat constructor]. intros a b Ha ->%list_elem_of_singleton.
    apply elem_of_app in Ha as [Ha| ->%list_elem_of_singleton]; [|done].
    eapply str_ltb_trans; [|exact Hlt]. apply StronglySorted_app in Hs as [Hs _]. apply Hs; [done|by left].
Qed.

(** the participants of a valid envelope are its collections, each once, in
    ascending byte order, and spelling each name as often as its count gives back the
    collections of the operations in order: the runs a follower prepares cover every
    operation exactly once. *)
Theorem participants_exact e :
  validate e = Ok tt →
  expand (Participants e) = map eo_Collection (env_Ops e) ∧
  StronglySorted (λ a b, str_ltb a b = true) (Participants e).*1 ∧
  Forall (λ p, 1 ≤ p.2) (Participants e).
Proof.
  intros (_ & _ & _ & Ho)%validate_spec. unfold Participants. rewrite participants_loop_spec. split; [done|].
  apply participants_loop_names; [constructor|constructor|done|]. by apply Forall_forall.
Qed.

(** ** The digest *)

Lemma validate_digest txid key ops d d' : validate (MkEnv txid key ops d) = validate (MkEnv txid key ops d').
Proof. done. Qed.

Lemma prepare_cached ops size r : prepareEnvelopeOps ops size = Ok r →
  Forall (λ op, eo_dataJSON op = match Data (eo_Entry op) with None => None | m => Some (marshal_map m) end ∨
                eo_dataJSON op = Some (marshal_map (Data (eo_Entry op)))) r.1.
Proof.
  revert size r. induction ops as [|op ops IH]; intros size r; cbn [prepareEnvelopeOps].
  { intros [= <-]. constructor. }
  destruct (canonicalData (Data (eo_Entry op))) as [[norm canon]|] eqn:E; [|done]. cbn [res_bind fst snd].
  destruct (prepareEnvelopeOps ops _) as [r'|] eqn:Er; [|done]. cbn [res_bind]. intros [= <-]. cbn [fst].
  constructor; [|by eapply IH]. cbn [eo_dataJSON eo_Entry Data with_data]. unfold canonicalData in E.
  destruct (Data (eo_Entry op)) as [m|]; [|by simplify_eq; left].
  destruct (unmarshal_map _) as [n|]; [|done]. injection E as <- <-. by right.
Qed.

(** The cached JSON is the JSON of the data, so both ways give the same digest. *)
Lemma op_parts_cache i ops :
  Forall (λ op, eo_dataJSON op = match Data (eo_Entry op) with None => None | m => Some (marshal_map m) end ∨
                eo_dataJSON op = Some (marshal_map (Data (eo_Entry op)))) ops →
  op_parts true i ops = op_parts false i ops.
Proof.
  intros H. revert i. induction H as [|op ops Hop _ IH]; intros i; [done|]. cbn [op_parts]. rewrite IH. f_equal.
  unfold op_part, data_part. do 9 f_equal. destruct (Data (eo_Entry op)) as [m|]; [|done].
  by destruct Hop as [->| ->].
Qed.

Lemma seal_inv txid key ops env : sealEnvelope txid key ops = Ok env →
  validate env = Ok tt ∧ env = MkEnv txid key ops (computeDigest true env).
Proof.
  unfold sealEnvelope. destruct (validate _) as [[]|] eqn:E; [|done]. cbn [res_bind]. intros [= <-]. by rewrite <- E.
Qed.

(** an envelope the leader seals passes the check every follower makes
    before applying it. *)
Theorem sealed_envelope_verifies txid key ops env :
  NewTxEnvelope txid key ops = Ok env → Verify env = Ok tt.
Proof.
  unfold NewTxEnvelope. destruct (prepareEnvelopeOps ops 0) as [r|] eqn:Er; [|done]. cbn [res_bind].
  intros [Hv He]%seal_inv. unfold Verify. rewrite Hv. cbn [res_bind]. rewrite decide_True; [done|].
  apply prepare_cached in Er. rewrite He. cbn [env_Digest]. unfold computeDigest, digest_input. rewrite He. cbn [env_Ops].
  by rewrite op_parts_cache.
Qed.

(** *** Reading the input of the digest back *)

Fixpoint le_val (b : bytes) : Z :=
  match b with [] => 0%Z | c :: b => (Z.of_N (N_of_ascii c) + 256 * le_val b)%Z end.

Lemma byte_val z : Z.of_N (N_of_ascii (ascii_of_N (Z.to_N (z mod 256)))) = (z mod 256)%Z.
Proof. pose proof (Z.mod_pos_bound z 256 ltac:(lia)). rewrite N_ascii_embedding; lia. Qed.

Lemma u32le_val z : le_val (u32le z) = (z mod 4294967296)%Z.
Proof.
  unfold u32le. cbn [seq map le_val]. rewrite !byte_val.
  change (2 ^ (8 * Z.of_nat 0))%Z with 1%Z. change (2 ^ (8 * Z.of_nat 1))%Z with 256%Z.
  change (2 ^ (8 * Z.of_nat 2))%Z with 65536%Z. change (2 ^ (8 * Z.of_nat 3))%Z with 16777216%Z.
  Z.div_mod_to_equations. lia.
Qed.

Lemma le64_val z : le_val (le64 z) = u64 z.
Proof.
  unfold le64. pose proof (u64_range z) as Hr. unfold in_u64, two64 in Hr. set (w := u64 z) in *. clearbody w.
  cbn [seq map le_val]. rewrite !byte_val.
  change (2 ^ (8 * Z.of_nat 0))%Z with 1%Z. change (2 ^ (8 * Z.of_nat 1))%Z with 256%Z.
  change (2 ^ (8 * Z.of_nat 2))%Z with 65536%Z. change (2 ^ (8 * Z.of_nat 3))%Z with 16777216%Z.
  change (2 ^ (8 * Z.of_nat 4))%Z with 4294967296%Z. change (2 ^ (8 * Z.of_nat 5))%Z with 1099511627776%Z.
  change (2 ^ (8 * Z.of_nat 6))%Z with 281474976710656%Z. change (2 ^ (8 * Z.of_nat 7))%Z with 72057594037927936%Z.
  Z.div_mod_to_equations. lia.
Qed.

(** Two encodings of the same length in front of something. *)
Lemma app_same_length {A} (a b x y : list A) : length a = length b → a ++ x = b ++ y → a = b ∧ x = y.
Proof. intros H E. by apply app_inj_1 in E. Qed.

Lemma u32le_app a b x y : u32le a ++ x = u32le b ++ y → (a mod 4294967296 = b mod 4294967296)%Z ∧ x = y.
Proof. intros [H1 H2]%app_same_length; [|done]. split; [|done]. by rewrite <- !u32le_val, H1. Qed.

Lemma le64_app a b x y : le64 a ++ x = le64 b ++ y → u64 a = u64 b ∧ x = y.
Proof. intros [H1 H2]%app_same_length; [|done]. split; [|done]. by rewrite <- !le64_val, H1. Qed.

Definition short (b : bytes) : Prop := (Z.of_nat (length b) < 4294967296)%Z.

Lemma lp_app a b x y : short a → short b → lp a ++ x = lp b ++ y → a = b ∧ x = y.
Proof.
  unfold lp, short. intros Ha Hb. rewrite <- !app_assoc. intros [H1 H2]%u32le_app.
  rewrite !Z.mod_small in H1 by lia. apply app_same_length in H2; [done|lia].
Qed.

Lemma lps_app a b x y : short (b_of_s a) → short (b_of_s b) → lps a ++ x = lps b ++ y → a = b ∧ x = y.
Proof. intros Ha Hb H. apply lp_app in H as [H1 H2]; [|done|done]. split; [by apply b_of_s_inj|done]. Qed.

Lemma u64_inj_i64 a b : in_i64 a → in_i64 b → u64 a = u64 b → a = b.
Proof. unfold in_i64, u64, two64, two63. intros Ha Hb H. Z.div_mod_to_equations. lia. Qed.

(** *** The contents *)

Record op_wf (op : TxEnvelopeOp) : Prop := {
  ow_entry : entry_wf (eo_Entry op);
  ow_name : short (b_of_s (eo_Collection op));
  ow_op : short (b_of_s (Op (eo_Entry op)));
  ow_data : short (marshal_map (Data (eo_Entry op)))
}.

Record env_wf (e : TxEnvelope) : Prop := {
  ew_tx : short (b_of_s (env_TxID e));
  ew_key : short (b_of_s (env_Key e));
  ew_len : (Z.of_nat (length (env_Ops e)) < 4294967296)%Z;
  ew_ops : Forall op_wf (env_Ops e)
}.

(** Equal but for the zone of the timestamp, the cached bytes and the checksum of the line. *)
Definition same_op (a b : TxEnvelopeOp) : Prop :=
  let x := eo_Entry a in let y := eo_Entry b in
  eo_Collection a = eo_Collection b ∧ Op x = Op y ∧ ID x = ID y ∧ Rev x = Rev y ∧ ExpiresAt x = ExpiresAt y ∧
  Unix (Ts x) = Unix (Ts y) ∧ Nanosecond (Ts x) = Nanosecond (Ts y) ∧ Epoch x = Epoch y ∧ Data x = Data y.

Definition same_contents (a b : TxEnvelope) : Prop :=
  env_TxID a = env_TxID b ∧ env_Key a = env_Key b ∧ Forall2 same_op (env_Ops a) (env_Ops b).

Lemma unmarshal_marshal_map m : data_wf m → unmarshal_map (marshal_map (Some m)) = Some (Some m).
Proof.
  intros H. unfold unmarshal_map. cbn [marshal_map]. rewrite unmarshal_print by (by apply data_to_json_ok || apply data_to_json_utf8). by apply dec_data_json.
Qed.

Lemma marshal_map_inj a b : data_wf a → data_wf b → marshal_map (Some a) = marshal_map (Some b) → a = b.
Proof.
  intros Ha Hb H. apply unmarshal_marshal_map in Ha, Hb. rewrite H in Ha. congruence.
Qed.

Lemma Unix_range t : time_wf t → in_i64 (Unix t).
Proof.
  intros (Hy & Hm & Hd & Hh & Hmi & Hs & _ & _ & _ & Ho). unfold in_i64, two63, Unix, day_number, epoch_day.
  destruct (month_start_bound (tm_month t - 1) (tm_year t)) as [B1 B2]; [lia|].
  pose proof (year_days_bounds (tm_year t)). assert (Hlo : (days_before 0 ≤ days_before (tm_year t))%Z) by (apply days_before_mono; lia).
  assert (Hhi : (days_before (tm_year t) ≤ days_before (100 * 100))%Z) by (apply days_before_mono; lia).
  change (days_before 0) with 0%Z in Hlo. assert (E : days_before (100 * 100) = 3652425%Z) by (vm_compute; reflexivity). rewrite E in Hhi.
  assert (Z.of_nat (tm_day t) ≤ 31)%Z.
  { assert (days_in (tm_month t) (tm_year t) ≤ 31) by (unfold days_in; repeat case_decide; try destruct (leap _); lia). lia. }
  lia.
Qed.

Lemma op_part_app i a b x y : op_wf a → op_wf b →
  op_part false i a ++ x = op_part false i b ++ y → same_op a b ∧ x = y.
Proof.
  intros [[Wi Wt Wr Wd We Wx] Hn Ho Hd] [[Wi' Wt' Wr' Wd' We' Wx'] Hn' Ho' Hd']. unfold op_part. rewrite <- !app_assoc.
  intros [_ H]%u32le_app. apply lps_app in H as [E1 H]; [|done|done]. apply lps_app in H as [E2 H]; [|done|done].
  apply le64_app in H as [E3 H]. apply le64_app in H as [E4 H]. apply le64_app in H as [E5 H]. apply le64_app in H as [E6 H].
  apply u32le_app in H as [E7 H]. apply le64_app in H as [E8 H].
  rewrite !u64_id in E3, E4, E8 by done. apply u64_inj_i64 in E5; [|done|done]. apply u64_inj_i64 in E6; [|by apply Unix_range..].
  pose proof (Nanosecond_bound _ Wt) as Nb. pose proof (Nanosecond_bound _ Wt') as Nb'. unfold giga in *.
  rewrite !Z.mod_small in E7 by lia.
  assert (Ed : Data (eo_Entry a) = Data (eo_Entry b) ∧ x = y).
  { unfold data_part in H. destruct (Data (eo_Entry a)) as [m|], (Data (eo_Entry b)) as [m'|]; cbn [app] in H; try done.
    - apply (f_equal tail) in H. cbn [tail] in H. apply lp_app in H as [H1 H2]; [|done|done]. apply marshal_map_inj in H1; [|done|done]. by subst.
    - apply (f_equal tail) in H. cbn [tail] in H. by apply lp_app in H as [_ H]. }
  destruct Ed as [Ed Exy]. by split; [split_and!|].
Qed.

Lemma op_parts_inj i a b : Forall op_wf a → Forall op_wf b → length a = length b →
  op_parts false i a = op_parts false i b → Forall2 same_op a b.
Proof.
  intros Ha. revert i b. induction Ha as [|x a Hx _ IH]; intros i [|y b] Hb Hl; try done.
  apply Forall_cons in Hb as [Hy Hb]. cbn [op_parts]. intros H. apply op_part_app in H as [H1 H2]; [|done|done].
  constructor; [done|]. eapply IH; [done|by injection Hl|exact H2].
Qed.

Lemma digest_input_inj a b : env_wf a → env_wf b → digest_input false a = digest_input false b → same_contents a b.
Proof.
  intros [A1 A2 A3 A4] [B1 B2 B3 B4]. unfold digest_input. intros [_ H]%app_same_length; [|done].
  apply u32le_app in H as [_ H]. apply lps_app in H as [E1 H]; [|done|done]. apply lps_app in H as [E2 H]; [|done|done].
  apply u32le_app in H as [E3 H]. rewrite !Z.mod_small in E3 by lia. split_and!; [done|done|].
  eapply op_parts_inj; [done|done|lia|exact H].
Qed.

(** Claim C22: two envelopes that both verify and carry the same digest have the same
    transaction id, key and operations, in the same order and field by field, unless
    they exhibit a SHA-256 collision: no field of a sealed envelope can be altered,
    moved to a neighbouring field, dropped or reordered behind the digest.  The
    fields are in the range of their Go types, below 4 GiB, and the strings of the
    data are UTF-8, as JSON text needs them. *)
Theorem digest_binds_contents a b :
  env_wf a → env_wf b → Verify a = Ok tt → Verify b = Ok tt → env_Digest a = env_Digest b →
  same_contents a b ∨ (digest_input false a ≠ digest_input false b ∧ sha256 (digest_input false a) = sha256 (digest_input false b)).
Proof.
  intros Wa Wb. unfold Verify. destruct (validate a) as [[]|]; [|done]. destruct (validate b) as [[]|]; [|done]. cbn [res_bind].
  case_decide as Ha; [|done]. case_decide as Hb; [|done]. intros _ _ Hd. unfold computeDigest in *.
  destruct (decide (digest_input false a = digest_input false b)) as [E|E]; [left|right; split; [done|congruence]].
  by apply digest_input_inj.
Qed.

(** ** The byte encoding is read back *)

Lemma omit_false_ok k b : forallb (λ kv, json_ok kv.2) (omit_false k b) = true.
Proof. by destruct b. Qed.
#[export] Hint Resolve omit_false_ok : scriva.

Lemma op_members_ok o : match oj_Data o with None => True | Some m => data_wf m end → json_ok (JObj (op_members o)) = true.
Proof.
  intros H. cbn [json_ok]. unfold op_members. rewrite !forallb_app, !andb_true_iff. split_and!; auto with scriva;
    unfold member; cbn [forallb snd json_ok]; by rewrite ?num_u_ok, ?num_i_ok.
Qed.

Lemma envelope_members_ok j :
  Forall (λ o, match oj_Data o with None => True | Some m => data_wf m end) (ej_Ops j) → json_ok (JObj (envelope_members j)) = true.
Proof.
  intros H. cbn [json_ok]. unfold envelope_members. rewrite !forallb_app, !andb_true_iff.
  split_and!; auto with scriva; unfold member; cbn [forallb snd]; [by rewrite num_i_ok|].
  cbn [json_ok andb]. rewrite andb_true_r. destruct (ej_Ops j) as [|o l]; [done|]. unfold ops_json. cbn [json_ok].
  apply forallb_forall. intros x (q & <- & Hq)%in_map_iff. apply op_members_ok. rewrite Forall_forall in H. by apply H, list_elem_of_In.
Qed.

Record op_json_wf (o : envelopeOpJSON) : Prop := {
  jw_id : in_u64 (oj_ID o); jw_rev : in_u64 (oj_Rev o); jw_epoch : in_u64 (oj_Epoch o); jw_exp : in_i64 (oj_ExpiresAt o);
  jw_sec : in_i64 (oj_TsSec o); jw_nsec : (0 ≤ oj_TsNsec o < giga)%Z;
  jw_data : match oj_Data o with None => True | Some m => data_wf m end
}.

Lemma dec_i32_num old z : (0 ≤ z < giga)%Z → dec_i32 old (num_i z) = Some z.
Proof.
  unfold giga. intros H. unfold dec_i32, num_i. rewrite parse_fmt_Z. cbn [mbind option_bind]. by rewrite decide_True by lia.
Qed.

(** An empty map is left out of the line. *)
Definition omitted (d : option vdata) : option vdata := match d with Some m => if decide (m = ∅) then None else Some m | None => None end.

Lemma op_fields o : op_json_wf o →
  strict_fields set_op_field zero_op_json (op_members o) =
  Some (MkOpJSON (oj_Collection o) (oj_Op o) (oj_ID o) (oj_Rev o) (omitted (oj_Data o)) (oj_HasData o)
          (oj_ExpiresAt o) (oj_TsSec o) (oj_TsNsec o) (oj_Epoch o)).
Proof.
  destruct o as [c op id rev data has exp s n ep]. intros [H1 H2 H3 H4 H5 H6 H7]. cbn in H1, H2, H3, H4, H5, H6, H7.
  unfold op_members. cbn [oj_Collection oj_Op oj_ID oj_Rev oj_Data oj_HasData oj_ExpiresAt oj_TsSec oj_TsNsec oj_Epoch].
  eapply sf_app; [|eapply sf_app; [|eapply sf_app; [|eapply sf_app; [|eapply sf_app; [|eapply sf_app]]]]].
  - eapply (sf_cons _ _ _ _ (MkOpJSON c "" 0 0 None false 0 0 0 0)); [cbn; by rewrite s_of_b_of_s|].
    eapply (sf_cons _ _ _ _ (MkOpJSON c op 0 0 None false 0 0 0 0)); [cbn; by rewrite s_of_b_of_s|].
    apply (sf_one _ _ _ (MkOpJSON c op id 0 None false 0 0 0 0)).
    change ((v ← dec_u64 0 (num_u id); Some (MkOpJSON c op v 0 None false 0 0 0 0)) = Some (MkOpJSON c op id 0 None false 0 0 0 0)). by rewrite dec_num_u.
  - apply (sf_omit_zero _ _ _ _ _ (MkOpJSON c op id rev None false 0 0 0 0)); [|by intros ->].
    change ((v ← dec_u64 0 (num_u rev); Some (MkOpJSON c op id v None false 0 0 0 0)) = Some (MkOpJSON c op id rev None false 0 0 0 0)). by rewrite dec_num_u.
  - instantiate (1 := MkOpJSON c op id rev (omitted data) false 0 0 0 0). destruct data as [m|]; [|done]. cbn [omit_empty omitted].
    case_decide; [done|]. apply sf_one.
    change ((v ← dec_data None (data_to_json m); Some (MkOpJSON c op id rev v false 0 0 0 0)) = Some (MkOpJSON c op id rev (Some m) false 0 0 0 0)).
    by rewrite dec_data_json.
  - instantiate (1 := MkOpJSON c op id rev (omitted data) has 0 0 0 0). by destruct has.
  - apply (sf_omit_zero _ _ _ _ _ (MkOpJSON c op id rev (omitted data) has exp 0 0 0)); [|by intros ->].
    change ((v ← dec_i64 0 (num_i exp); Some (MkOpJSON c op id rev (omitted data) has v 0 0 0)) = Some (MkOpJSON c op id rev (omitted data) has exp 0 0 0)).
    by rewrite dec_num_i.
  - eapply (sf_cons _ _ _ _ (MkOpJSON c op id rev (omitted data) has exp s 0 0)).
    { change ((v ← dec_i64 0 (num_i s); Some (MkOpJSON c op id rev (omitted data) has exp v 0 0)) = Some (MkOpJSON c op id rev (omitted data) has exp s 0 0)).
      by rewrite dec_num_i. }
    apply (sf_one _ _ _ (MkOpJSON c op id rev (omitted data) has exp s n 0)).
    change ((v ← dec_i32 0 (num_i n); Some (MkOpJSON c op id rev (omitted data) has exp s v 0)) = Some (MkOpJSON c op id rev (omitted data) has exp s n 0)).
    by rewrite dec_i32_num.
  - apply sf_omit_zero; [|by intros ->].
    change ((v ← dec_u64 0 (num_u ep); Some (MkOpJSON c op id rev (omitted data) has exp s n v)) = Some (MkOpJSON c op id rev (omitted data) has exp s n ep)).
    by rewrite dec_num_u.
Qed.

Definition omit_op (o : envelopeOpJSON) : envelopeOpJSON :=
  MkOpJSON (oj_Collection o) (oj_Op o) (oj_ID o) (oj_Rev o) (omitted (oj_Data o)) (oj_HasData o)
    (oj_ExpiresAt o) (oj_TsSec o) (oj_TsNsec o) (oj_Epoch o).

Lemma dec_ops_json l : Forall op_json_wf l → dec_ops [] (ops_json l) = Some (map omit_op l).
Proof.
  intros H. destruct l as [|o0 l0]; [done|]. unfold ops_json. set (l := o0 :: l0) in *. clearbody l. cbn [dec_ops].
  induction H as [|o l Ho _ IH]; [done|]. cbn [map dec_op_list head tail default dec_op].
  rewrite op_fields by done. cbn [mbind option_bind]. by rewrite IH.
Qed.

Lemma env_fields j : in_i64 (ej_V j) → Forall op_json_wf (ej_Ops j) →
  strict_fields set_env_field zero_env_json (envelope_members j) =
  Some (MkEnvJSON (ej_V j) (ej_TxID j) (ej_Key j) (map omit_op (ej_Ops j)) (ej_Digest j)).
Proof.
  destruct j as [v tx key ops d]. cbn [ej_V ej_TxID ej_Key ej_Ops ej_Digest]. intros Hv Ho. unfold envelope_members.
  cbn [ej_V ej_TxID ej_Key ej_Ops ej_Digest]. eapply sf_app; [|eapply sf_app].
  - eapply (sf_cons _ _ _ _ (MkEnvJSON v "" "" [] "")).
    { change ((x ← dec_i64 0 (num_i v); Some (MkEnvJSON x "" "" [] "")) = Some (MkEnvJSON v "" "" [] "")). by rewrite dec_num_i. }
    apply (sf_one _ _ _ (MkEnvJSON v tx "" [] "")). cbn. by rewrite s_of_b_of_s.
  - apply (sf_omit_str _ _ _ _ (MkEnvJSON v tx key [] "")); [cbn; by rewrite s_of_b_of_s|by intros ->].
  - eapply (sf_cons _ _ _ _ (MkEnvJSON v tx key (map omit_op ops) "")).
    { change ((x ← dec_ops [] (ops_json ops); Some (MkEnvJSON v tx key x "")) = Some (MkEnvJSON v tx key (map omit_op ops) "")). by rewrite dec_ops_json. }
    apply sf_one. cbn. by rewrite s_of_b_of_s.
Qed.

Lemma hex_encode_lower b : isLowerHex (hex_encode b) = true.
Proof.
  induction b as [|c b IH]; [done|]. unfold hex_encode in *. cbn [map concat]. unfold isLowerHex in *. rewrite forallb_app, IH, andb_true_r.
  pose proof (ascii_forall (λ c, isLowerHex (hex_encode [c]))) as H. unfold hex_encode, isLowerHex in H. cbn [map concat] in H.
  specialize (H ltac:(vm_compute; reflexivity) c). cbn beta in H. by rewrite app_nil_r in H.
Qed.

Lemma omit_false_utf8 k b : str_utf8 k → members_utf8 (omit_false k b) = true.
Proof. intros Hk. destruct b; [|done]. by apply members_utf8_cons. Qed.

Definition op_json_utf8 (o : envelopeOpJSON) : Prop :=
  str_utf8 (oj_Collection o) ∧ str_utf8 (oj_Op o) ∧ match oj_Data o with None => True | Some m => data_wf m end.

Lemma op_members_utf8 o : op_json_utf8 o → json_utf8 (JObj (op_members o)) = true.
Proof.
  intros (H1 & H2 & H3). change (members_utf8 (op_members o) = true). unfold op_members.
  repeat apply members_utf8_app; auto using omit_false_utf8 with utf8.
Qed.

Lemma envelope_members_utf8 j :
  str_utf8 (ej_TxID j) → str_utf8 (ej_Key j) → str_utf8 (ej_Digest j) → Forall op_json_utf8 (ej_Ops j) →
  json_utf8 (JObj (envelope_members j)) = true.
Proof.
  intros H1 H2 H3 Hops. change (members_utf8 (envelope_members j) = true). unfold envelope_members.
  assert (json_utf8 (ops_json (ej_Ops j)) = true) as Ho.
  { destruct (ej_Ops j) as [|o l]; [done|]. unfold ops_json. cbn [json_utf8]. apply forallb_forall.
    intros x (q & <- & Hq)%in_map_iff. apply op_members_utf8. rewrite Forall_forall in Hops. by apply Hops, list_elem_of_In. }
  repeat apply members_utf8_app; auto 10 with utf8.
Qed.

Lemma decode_first_print j : json_ok j = true → json_utf8 j = true → decode_first (print j) = Some j.
Proof.
  intros Hok Hu. unfold decode_first. pose proof (jsize_length j Hok) as Hs.
  pose proof (parse_print j Hok Hu (S (length (print j))) [] ltac:(lia) I) as H. rewrite app_nil_r in H. by rewrite H.
Qed.

(** The timestamps whose instant is in the years 0001 to 9998 in every zone. *)
Definition year_ok (op : TxEnvelopeOp) : Prop := 1 ≤ tm_year (Ts (eo_Entry op)) < 100 * 100 - 1.

Lemma op_roundtrip op : op_wf op → year_ok op →
  ∃ op', op_of_json (omit_op (op_json_of op)) = Some op' ∧ same_op op op'.
Proof.
  intros [[_ Wt _ _ _ _] _ _ _] [Hy1 Hy2]. unfold op_of_json, omit_op, op_json_of.
  cbn [oj_Collection oj_Op oj_ID oj_Rev oj_Data oj_HasData oj_ExpiresAt oj_TsSec oj_TsNsec oj_Epoch].
  destruct (time_of_unix_total _ Wt Hy1 Hy2) as [t Ht]. rewrite Ht. cbn [mbind option_bind]. eexists. split; [done|].
  apply time_of_unix_spec in Ht as (_ & H1 & H2 & _). pose proof (Nanosecond_bound _ Wt) as Hn.
  rewrite Z.div_small, Z.add_0_r in H1 by done. rewrite Z.mod_small in H2 by done.
  unfold same_op. cbn [eo_Collection eo_Entry Op ID Rev ExpiresAt Ts Epoch Data]. split_and!; try done.
  destruct (Data (eo_Entry op)) as [m|]; [|done]. cbn [omitted]. by case_decide as Hm; [subst m|].
Qed.

Lemma same_op_part i a b : same_op a b → op_part false i a = op_part false i b.
Proof.
  intros (H1 & H2 & H3 & H4 & H5 & H6 & H7 & H8 & H9). unfold op_part, data_part. by rewrite H1, H2, H3, H4, H5, H6, H7, H8, H9.
Qed.

Lemma same_contents_input a b : same_contents a b → digest_input false a = digest_input false b.
Proof.
  intros (H1 & H2 & H3). unfold digest_input. rewrite H1, H2, (Forall2_length _ _ _ H3). do 5 f_equal. generalize 0.
  induction H3 as [|x y la lb Hxy _ IH]; intros i; [done|]. cbn [op_parts]. by rewrite (same_op_part _ _ _ Hxy), IH.
Qed.

Lemma same_contents_valid a b : same_contents a b → validate a = Ok tt → validate b = Ok tt.
Proof.
  intros (H1 & H2 & H3) (V1 & V2 & V3 & V4)%validate_spec. apply validate_spec. rewrite <- H1. split_and!; [done|..].
  - intros E. rewrite E in H3. by apply Forall2_nil_inv_r in H3.
  - clear -H3 V3. induction H3 as [|x y la lb Hxy _ IH]; [constructor|]. apply Forall_cons in V3 as [Vx V3].
    constructor; [|by apply IH]. destruct Hxy as (E1 & E2 & _). unfold op_known in *. by rewrite <- E1, <- E2.
  - unfold canonical_order in *. replace (map eo_Collection (env_Ops b)) with (map eo_Collection (env_Ops a)); [done|].
    clear -H3. induction H3 as [|x y la lb Hxy _ IH]; [done|]. cbn [map]. by rewrite IH, (proj1 Hxy).
Qed.

Lemma op_json_of_wf op : op_wf op → op_json_wf (op_json_of op).
Proof. intros [[Wi Wt Wr Wd We Wx] _ _ _]. split; try done; [by apply Unix_range|by apply Nanosecond_bound]. Qed.

(** The names of an envelope are UTF-8. *)
Definition env_utf8 (e : TxEnvelope) : Prop :=
  str_utf8 (env_TxID e) ∧ str_utf8 (env_Key e) ∧ Forall (λ op, str_utf8 (eo_Collection op)) (env_Ops e).

(** the bytes of a verified envelope decode to an envelope with the same
    transaction id, key, digest and operations (the timestamps in UTC), and the
    decoder's own check of the digest passes. *)
Theorem envelope_bytes_roundtrip e :
  env_wf e → env_utf8 e → Forall year_ok (env_Ops e) → Verify e = Ok tt →
  ∃ e', UnmarshalTxEnvelope (MarshalBinary e) = Ok e' ∧ same_contents e e' ∧ env_Digest e' = env_Digest e.
Proof.
  intros W (Hu1 & Hu2 & Hu3) Hy HV. unfold Verify in HV. destruct (validate e) as [[]|] eqn:Ev; [|done]. cbn [res_bind] in HV.
  case_decide as Hd; [|done]. clear HV.
  assert (Hops : ∃ ops, mapM op_of_json (map omit_op (map op_json_of (env_Ops e))) = Some ops ∧ Forall2 same_op (env_Ops e) ops).
  { destruct W as [_ _ _ W]. clear -W Hy. induction W as [|op l Hop _ IH]; [by exists []|].
    apply Forall_cons in Hy as [Hy1 Hy]. destruct (IH Hy) as (ops & E & F). destruct (op_roundtrip op Hop Hy1) as (op' & E' & F').
    exists (op' :: ops). cbn [map mapM]. rewrite E'. cbn [mbind option_bind]. rewrite E. by split; [|constructor]. }
  destruct Hops as (ops & Eo & Fo).
  assert (Ho : Forall op_json_wf (map op_json_of (env_Ops e))).
  { apply Forall_map. destruct W as [_ _ _ W]. eapply Forall_impl; [exact W|]. apply op_json_of_wf. }
  set (e' := MkEnv (env_TxID e) (env_Key e) ops (env_Digest e)).
  assert (Hs : same_contents e e') by done.
  exists e'. split; [|done]. unfold UnmarshalTxEnvelope, decode_envelope, MarshalBinary.
  rewrite decode_first_print.
  2: { apply envelope_members_ok. cbn [envelope_json_of ej_Ops]. eapply Forall_impl; [exact Ho|]. by intros o [_ _ _ _ _ _ ?]. }
  2: { apply envelope_members_utf8; [done|done|unfold str_utf8; cbn [envelope_json_of ej_Digest]; rewrite b_of_s_of_b; apply lower_hex_utf8, hex_encode_lower|].
       cbn [envelope_json_of ej_Ops]. apply Forall_map. apply Forall_forall. intros op Hop. rewrite Forall_forall in Hu3.
       split; [by apply Hu3|]. pose proof (ew_ops _ W) as Wo. rewrite Forall_forall in Wo. by destruct (ow_entry _ (Wo op Hop)). }
  rewrite env_fields; [|by vm_compute|done]. cbn [envelope_json_of ej_V ej_Digest ej_Ops ej_TxID ej_Key].
  rewrite decide_False by (intros H; by apply H). rewrite b_of_s_of_b, hex_decode_encode.
  rewrite decide_False by (rewrite <- Hd; unfold computeDigest; rewrite sha256_length; intros H; by apply H).
  rewrite Eo. fold e'. unfold Verify. rewrite (same_contents_valid _ _ Hs Ev). cbn [res_bind].
  rewrite decide_True; [done|]. unfold computeDigest in *. rewrite <- (same_contents_input _ _ Hs). exact Hd.
Qed.

(** ** Examples *)

Definition sample_ops : list TxEnvelopeOp :=
  [MkEnvOp "accounts" sample_entry None; MkEnvOp "accounts" (NewDelete (MkTime 2024 2 29 23 59 59 [5] (-330)) 9) None;
   MkEnvOp "ledger" (NewInsert (MkTime 2024 1 1 0 0 0 [] 0) 4 (Some ∅)) None].

Definition sample_env : TxEnvelope :=
  MkEnv "e1-0001" "k" sample_ops (computeDigest false (MkEnv "e1-0001" "k" sample_ops [])).

(** The same operations with the timestamps of the first two in UTC. *)
Definition sample_ops_utc : list TxEnvelopeOp :=
  [MkEnvOp "accounts" (MkEntry 7 OpInsert (MkTime 2024 2 29 18 29 58 [1; 2; 5] 0) 1 (Some sample_data) 0 (-5) None) None;
   MkEnvOp "accounts" (NewDelete (MkTime 2024 3 1 5 29 59 [5] 0) 9) None;
   MkEnvOp "ledger" (NewInsert (MkTime 2024 1 1 0 0 0 [] 0) 4 (Some ∅)) None].

Definition sample_env_utc : TxEnvelope := MkEnv "e1-0001" "k" sample_ops_utc (env_Digest sample_env).

Lemma op_wf_intro c e : entry_wf e → (Z.of_nat (length (b_of_s c)) <? 4294967296)%Z = true →
  (Z.of_nat (length (b_of_s (Op e))) <? 4294967296)%Z = true → (Z.of_nat (length (marshal_map (Data e))) <? 4294967296)%Z = true →
  op_wf (MkEnvOp c e None).
Proof. intros H1 H2%Z.ltb_lt H3%Z.ltb_lt H4%Z.ltb_lt. by split. Qed.

Ltac sample_entry_ok :=
  split; [by vm_compute|unfold time_wf; simpl; split_and!; try (vm_compute; lia); try done; by forall_lia|by vm_compute| |by vm_compute|by vm_compute|by vm_compute];
  cbn; first [exact I|apply sample_data_wf|apply map_Forall_empty].

Lemma sample_env_wf : env_wf sample_env.
Proof.
  split; [by vm_compute|by vm_compute|by vm_compute|]. repeat apply Forall_cons_2; [..|constructor];
    (apply op_wf_intro; [|vm_compute; reflexivity..]); sample_entry_ok.
Qed.

Lemma sample_env_utc_wf : env_wf sample_env_utc.
Proof.
  split; [by vm_compute|by vm_compute|by vm_compute|]. repeat apply Forall_cons_2; [..|constructor];
    (apply op_wf_intro; [|vm_compute; reflexivity..]); sample_entry_ok.
Qed.

Lemma digest_binds_contents_witness :
  same_contents sample_env sample_env_utc ∨
  (digest_input false sample_env ≠ digest_input false sample_env_utc ∧
   sha256 (digest_input false sample_env) = sha256 (digest_input false sample_env_utc)).
Proof.
  apply (digest_binds_contents sample_env sample_env_utc); [apply sample_env_wf|apply sample_env_utc_wf|vm_compute; reflexivity..].
Defined.

Lemma envelope_bytes_roundtrip_witness :
  ∃ e', UnmarshalTxEnvelope (MarshalBinary sample_env) = Ok e' ∧ same_contents sample_env e' ∧ env_Digest e' = env_Digest sample_env.
Proof.
  apply (envelope_bytes_roundtrip sample_env); [apply sample_env_wf|split; [done|split; [done|by repeat constructor]]| |vm_compute; reflexivity].
  repeat apply Forall_cons_2; [unfold year_ok; cbn [eo_Entry Ts sample_entry NewDelete NewInsert tm_year]; lia..|constructor].
Defined.

Lemma sealed_envelope_verifies_witness :
  ∃ env, NewTxEnvelope "e1-0001" "k" sample_ops = Ok env ∧ Verify env = Ok tt.
Proof.
  destruct (NewTxEnvelope "e1-0001" "k" sample_ops) as [env|] eqn:E; [|vm_compute in E; discriminate E].
  exists env. split; [reflexivity|]. exact (sealed_envelope_verifies _ _ _ _ E).
Defined.

Lemma participants_exact_witness :
  Participants sample_env = [("accounts", 2); ("ledger", 1)] ∧
  expand (Participants sample_env) = map eo_Collection (env_Ops sample_env).
Proof.
  split; [vm_compute; reflexivity|]. apply (participants_exact sample_env). vm_compute. reflexivity.
Defined.
