(* ===== verification/Replication.v ===== *)
(** * The replication feed: [engine/replication.go]

    The leader's broker gives every committed entry (or transaction envelope) the
    next sequence number, keeps the recent ones in a ring for followers that
    reconnect, and fans them out to subscribers.  The node keeps the watermarks
    of both roles in [replication.json], and a follower can be promoted. *)
From Stdlib Require Import Ascii Lia ZArith.
From stdpp Require Import prelude gmap strings sorting.
From S2P Require Import Prelude GoNum Json Value GoTime Store Wire Segment Sha256 Journal JournalThm Envelope.

Definition DefaultReplicationRingSize : nat := 8192.
Definition lsnReserveBlock : Z := 4096.

Record ReplicationEntry : Type := MkRE {
  re_LSN : Z; re_Collection : string; re_Entry : Entry; re_Tx : option TxEnvelope
}.

Definition zero_re : ReplicationEntry := MkRE 0 "" zero_entry None.

Definition IsTx (r : ReplicationEntry) : bool := match re_Tx r with Some _ => true | None => false end.

Definition re_Weight (r : ReplicationEntry) : Z :=
  match re_Tx r with Some env => Z.of_nat (Weight env) | None => 1 end.

Definition set_LSN (r : ReplicationEntry) (lsn : Z) : ReplicationEntry :=
  MkRE lsn (re_Collection r) (re_Entry r) (re_Tx r).

(** A subscriber: the records buffered in its channel, oldest first, and whether
    its [dead] channel is closed. *)
Record replSub : Type := MkSub {
  rs_id : Z; rs_followerID : string; rs_ch : list ReplicationEntry; rs_dead : bool;
  rs_connectedAt : time; rs_sent : Z; rs_queued : Z
}.

Record replicationBroker : Type := MkBroker {
  b_lsn : Z; b_ring : list ReplicationEntry; b_cap : nat; b_head : nat; b_size : nat; b_weight : Z;
  b_subBuf : nat; b_subs : gmap Z replSub; b_subSeq : Z; b_reserved : Z
}.

Definition newReplicationBroker (ringSize subBuf : Z) : replicationBroker :=
  let ringSize := if (ringSize <=? 0)%Z then DefaultReplicationRingSize else Z.to_nat ringSize in
  let subBuf := if (subBuf <=? 0)%Z then ringSize else Z.to_nat subBuf in
  MkBroker 0 (replicate ringSize zero_re) ringSize 0 0 0 subBuf ∅ 0 0.

Definition kill (s : replSub) : replSub :=
  MkSub (rs_id s) (rs_followerID s) (rs_ch s) true (rs_connectedAt s) (rs_sent s) (rs_queued s).

Definition with_subs (b : replicationBroker) (subs : gmap Z replSub) : replicationBroker :=
  MkBroker (b_lsn b) (b_ring b) (b_cap b) (b_head b) (b_size b) (b_weight b) (b_subBuf b) subs (b_subSeq b) (b_reserved b).

Definition with_lsn (b : replicationBroker) (lsn : Z) : replicationBroker :=
  MkBroker lsn (b_ring b) (b_cap b) (b_head b) (b_size b) (b_weight b) (b_subBuf b) (b_subs b) (b_subSeq b) (b_reserved b).

Definition with_reserved (b : replicationBroker) (r : Z) : replicationBroker :=
  MkBroker (b_lsn b) (b_ring b) (b_cap b) (b_head b) (b_size b) (b_weight b) (b_subBuf b) (b_subs b) (b_subSeq b) r.

Definition with_ring (b : replicationBroker) (ring : list ReplicationEntry) (head size : nat) (weight : Z) : replicationBroker :=
  MkBroker (b_lsn b) ring (b_cap b) head size weight (b_subBuf b) (b_subs b) (b_subSeq b) (b_reserved b).

Definition ring_at (b : replicationBroker) (i : nat) : ReplicationEntry := nth ((b_head b + i) mod b_cap b) (b_ring b) zero_re.

Definition oldest (b : replicationBroker) : Z :=
  if decide (b_size b = 0) then u64 (b_lsn b + 1) else re_LSN (ring_at b 0).

(** [reserveLocked]: the second result is the argument of the call of [reserveFn], if
    one is made. *)
Definition reserveLocked (b : replicationBroker) (lsn : Z) : replicationBroker * option Z :=
  if (lsn <=? b_reserved b)%Z then (b, None)
  else let high := u64 (lsn + lsnReserveBlock) in (with_reserved b high, Some high).

(** The guard and the body of the eviction loop. *)
Definition must_evict (b : replicationBroker) (w : Z) : bool :=
  (0 <? b_size b) && ((b_cap b <=? b_size b) || (Z.of_nat (b_cap b) <? b_weight b + w)%Z).

Definition evict_one (b : replicationBroker) : replicationBroker :=
  with_ring b (<[b_head b := zero_re]> (b_ring b)) ((b_head b + 1) mod b_cap b) (b_size b - 1)
    (b_weight b - re_Weight (ring_at b 0)).

Fixpoint evict (fuel : nat) (b : replicationBroker) (w : Z) : replicationBroker :=
  match fuel with
  | 0 => b
  | S fuel => if must_evict b w then evict fuel (evict_one b) w else b
  end.

Definition push (b : replicationBroker) (rec : ReplicationEntry) : replicationBroker :=
  with_ring b (<[(b_head b + b_size b) mod b_cap b := rec]> (b_ring b)) (b_head b) (b_size b + 1)
    (b_weight b + re_Weight rec).

(** The body of the fan-out loop: the channel holds [subBuf] records. *)
Definition deliver (subBuf : nat) (rec : ReplicationEntry) (s : replSub) : replSub :=
  let w := re_Weight rec in
  if rs_dead s then s
  else if (0 <? rs_queued s)%Z && (Z.of_nat subBuf <? rs_queued s + w)%Z then kill s
  else if length (rs_ch s) <? subBuf then
    MkSub (rs_id s) (rs_followerID s) (rs_ch s ++ [rec]) (rs_dead s) (rs_connectedAt s) (rs_sent s) (rs_queued s + w)
  else kill s.

Definition appendLocked (b : replicationBroker) (rec : ReplicationEntry) : replicationBroker * option Z * ReplicationEntry :=
  let b := with_lsn b (u64 (b_lsn b + 1)) in
  let rec := set_LSN rec (b_lsn b) in
  let '(b, persist) := reserveLocked b (b_lsn b) in
  let b := push (evict (b_size b) b (re_Weight rec)) rec in
  (with_subs b (deliver (b_subBuf b) rec <$> b_subs b), persist, rec).

Definition publish (b : replicationBroker) (collection : string) (e : Entry) : replicationBroker * option Z * ReplicationEntry :=
  appendLocked b (MkRE 0 collection e None).

Definition publishTx (b : replicationBroker) (env : TxEnvelope) : replicationBroker * option Z * ReplicationEntry :=
  appendLocked b (MkRE 0 "" zero_entry (Some env)).

Definition reserveNext (b : replicationBroker) : replicationBroker * option Z := reserveLocked b (u64 (b_lsn b + 1)).

Definition resyncBarrier (b : replicationBroker) : replicationBroker * option Z :=
  let b := with_lsn b (u64 (b_lsn b + 1)) in
  let '(b, persist) := reserveLocked b (b_lsn b) in
  let b := with_ring b (map (λ _, zero_re) (b_ring b)) 0 0 0 in
  (with_subs b (kill <$> b_subs b), persist).

Definition backlog (b : replicationBroker) (fromLSN : Z) : list ReplicationEntry :=
  filter (λ re, (fromLSN < re_LSN re)%Z) (map (ring_at b) (seq 0 (b_size b))).

Definition subscribe (b : replicationBroker) (fromLSN : Z) (followerID : string) (now : time)
    : option (replicationBroker * Z * list ReplicationEntry) :=
  if (u64 (fromLSN + 1) <? oldest b)%Z then None
  else
    let id := u64 (b_subSeq b + 1) in
    let sub := MkSub id followerID [] false now fromLSN 0 in
    Some (MkBroker (b_lsn b) (b_ring b) (b_cap b) (b_head b) (b_size b) (b_weight b) (b_subBuf b)
            (<[id := sub]> (b_subs b)) id (b_reserved b), id, backlog b fromLSN).

Definition unsubscribe (b : replicationBroker) (id : Z) : replicationBroker := with_subs b (delete id (b_subs b)).

Definition setLSN (b : replicationBroker) (lsn : Z) : replicationBroker :=
  if (b_lsn b <? lsn)%Z then with_lsn b lsn else b.

Record FollowerStatusData : Type := MkFollowerStatus { fs_FollowerID : string; fs_AckedLSN : Z; fs_Lag : Z; fs_ConnectedAt : time }.

Definition status (b : replicationBroker) : Z * list FollowerStatusData :=
  (b_lsn b, map (λ s : Z * replSub,
     let sent := rs_sent s.2 in
     MkFollowerStatus (rs_followerID s.2) sent (if (sent <? b_lsn b)%Z then u64 (b_lsn b - sent) else 0) (rs_connectedAt s.2))
     (map_to_list (b_subs b))).

(** The server's side of a stream: receiving from the channel, releasing the weight
    of a record, noting the last record sent. *)
Definition on_sub (b : replicationBroker) (id : Z) (f : replSub → replSub) : replicationBroker :=
  with_subs b (alter f id (b_subs b)).

Definition recv (b : replicationBroker) (id : Z) : option (ReplicationEntry * replicationBroker) :=
  match b_subs b !! id with
  | Some s =>
      match rs_ch s with
      | re :: ch =>
          Some (re, on_sub b id (λ s, MkSub (rs_id s) (rs_followerID s) ch (rs_dead s) (rs_connectedAt s) (rs_sent s) (rs_queued s)))
      | [] => None
      end
  | None => None
  end.

Definition Consumed (b : replicationBroker) (id : Z) (re : ReplicationEntry) : replicationBroker :=
  on_sub b id (λ s, MkSub (rs_id s) (rs_followerID s) (rs_ch s) (rs_dead s) (rs_connectedAt s) (rs_sent s) (rs_queued s - re_Weight re)).

Definition NoteSent (b : replicationBroker) (id lsn : Z) : replicationBroker :=
  on_sub b id (λ s, MkSub (rs_id s) (rs_followerID s) (rs_ch s) (rs_dead s) (rs_connectedAt s) lsn (rs_queued s)).

(** ** The node *)

Inductive Role : Type := RoleLeader | RoleFollower.
#[global] Instance Role_eq_dec : EqDecision Role.
Proof. solve_decision. Defined.

Record replState : Type := MkReplState { st_LeaderLSN : Z; st_AppliedLSN : Z }.

Definition replState_members (st : replState) : list (bytes * json) :=
  [member "leader_lsn" (num_u (st_LeaderLSN st)); member "applied_lsn" (num_u (st_AppliedLSN st))].

Definition set_replState_field (st : replState) (kv : bytes * json) : option replState :=
  let k := map to_lower kv.1 in
  let '(MkReplState l a) := st in
  if decide (k = b_of_s "leader_lsn") then v ← dec_u64 l kv.2; Some (MkReplState v a)
  else if decide (k = b_of_s "applied_lsn") then v ← dec_u64 a kv.2; Some (MkReplState l v)
  else Some st.

(** A missing, unreadable or damaged file: [None]. *)
Definition loadReplState (file : option bytes) : option replState :=
  data ← file; strictUnmarshal set_replState_field (MkReplState 0 0) data.

(** The node: its watermark file and the faults of its next writes included. *)
Record node : Type := MkNode {
  n_broker : option replicationBroker; n_appliedLSN : Z; n_lastLeaderLSN : Z; n_role : Role; n_promoted : bool;
  n_file : option bytes; n_faults : list fault
}.

Definition with_broker (n : node) (b : replicationBroker) : node :=
  MkNode (Some b) (n_appliedLSN n) (n_lastLeaderLSN n) (n_role n) (n_promoted n) (n_file n) (n_faults n).

(** [writeFileAtomic] on the watermark file. *)
Definition writeFileAtomic (n : node) (data : bytes) : node * bool :=
  let '(renamed, ok, fs) := writeJournalAtomic data (n_faults n) in
  (MkNode (n_broker n) (n_appliedLSN n) (n_lastLeaderLSN n) (n_role n) (n_promoted n)
     (if renamed then Some data else n_file n) fs, ok).

Definition persistLeaderLSN (n : node) (leaderLSN : Z) : node * bool :=
  writeFileAtomic n (print (JObj (replState_members (MkReplState leaderLSN (n_appliedLSN n))))).

Definition CurrentLSN (n : node) : Z := match n_broker n with Some b => b_lsn b | None => 0 end.

Definition persistReplState (n : node) : node * bool := persistLeaderLSN n (CurrentLSN n).

(** [reserveFn]: the error of the write is dropped. *)
Definition reserve_write (n : node) (high : option Z) : node :=
  match high with Some h => (persistLeaderLSN n h).1 | None => n end.

(** [Open]: the role is the configuration's. *)
Definition initReplication (role : Role) (ringSize : Z) (file : option bytes) (fs : list fault) : node :=
  let st := default (MkReplState 0 0) (loadReplState file) in
  let b := if (0 <? ringSize)%Z
           then Some (with_reserved (setLSN (newReplicationBroker ringSize 0) (st_LeaderLSN st)) (st_LeaderLSN st))
           else None in
  MkNode b (st_AppliedLSN st) 0 role false file fs.

(** The part of [Close] that concerns the watermarks. *)
Definition close_watermarks (n : node) : node :=
  if match n_broker n with Some _ => true | None => (0 <? n_appliedLSN n)%Z end then (persistReplState n).1 else n.

Definition SetAppliedLSN (n : node) (lsn : Z) : node * bool :=
  if (lsn <=? n_appliedLSN n)%Z then (n, true)
  else persistReplState (MkNode (n_broker n) lsn (n_lastLeaderLSN n) (n_role n) (n_promoted n) (n_file n) (n_faults n)).

(** The compare-and-swap loop of [NoteLeaderLSN] advances the value to the maximum. *)
Definition NoteLeaderLSN (n : node) (lsn : Z) : node :=
  MkNode (n_broker n) (n_appliedLSN n) (if (lsn <=? n_lastLeaderLSN n)%Z then n_lastLeaderLSN n else lsn)
    (n_role n) (n_promoted n) (n_file n) (n_faults n).

Definition ReplicationLag (n : node) : Z :=
  if (n_appliedLSN n <? n_lastLeaderLSN n)%Z then u64 (n_lastLeaderLSN n - n_appliedLSN n) else 0.

Inductive promote_err : Type := ErrNotFollower | ErrReplicaLagExceeded.

Record PromoteResult : Type := MkPromoteResult { pr_Role : Role; pr_LSN : Z; pr_Lag : Z }.

(** The first half of [Promote] flips the role, the second reseeds the counter and
    writes the watermarks. *)
Definition promote_flip (n : node) : node :=
  MkNode (n_broker n) (n_appliedLSN n) (n_lastLeaderLSN n) RoleLeader true (n_file n) (n_faults n).

Definition promote_reseed (n : node) (applied : Z) : node * Z :=
  match n_broker n with
  | None => (n, applied)
  | Some b => let b := setLSN b applied in (with_broker n b, if (applied <? b_lsn b)%Z then b_lsn b else applied)
  end.

Definition Promote (n : node) (maxLag : Z) (force : bool) : node * res promote_err PromoteResult :=
  if decide (n_role n ≠ RoleFollower) then (n, Err ErrNotFollower)
  else
    let lag := ReplicationLag n in
    if negb force && (maxLag <? lag)%Z then (n, Err ErrReplicaLagExceeded)
    else
      let '(n, lsn) := promote_reseed (promote_flip n) (n_appliedLSN n) in
      ((persistReplState n).1, Ok (MkPromoteResult RoleLeader lsn lag)).

(** ** Operations of the broker on a node; a node without one does nothing *)

Definition node_append (n : node) (f : replicationBroker → replicationBroker * option Z * ReplicationEntry)
    : node * option ReplicationEntry :=
  match n_broker n with
  | None => (n, None)
  | Some b => let '(b, high, rec) := f b in (reserve_write (with_broker n b) high, Some rec)
  end.

(** [publishCommit] of a collection. *)
Definition node_publish (n : node) (collection : string) (e : Entry) : node * option ReplicationEntry :=
  node_append n (λ b, publish b collection e).

Definition node_publishTx (n : node) (env : TxEnvelope) : node * option ReplicationEntry :=
  node_append n (λ b, publishTx b env).

Definition node_reserveNext (n : node) : node :=
  match n_broker n with
  | None => n
  | Some b => let '(b, high) := reserveNext b in reserve_write (with_broker n b) high
  end.

Definition node_resyncBarrier (n : node) : node :=
  match n_broker n with
  | None => n
  | Some b => let '(b, high) := resyncBarrier b in reserve_write (with_broker n b) high
  end.

Definition SubscribeReplication (n : node) (fromLSN : Z) (followerID : string) (now : time) : option (node * Z * list ReplicationEntry) :=
  match n_broker n with
  | None => None
  | Some b =>
      match subscribe b fromLSN followerID now with
      | None => None
      | Some (b, id, back) => Some (with_broker n b, id, back)
      end
  end.
