(* ===== verification/ReplicationThm.v ===== *)
(** * The ring and the feed of the replication broker

    The ring as the list of its records, the eviction loop, and the system of a
    leader with its subscribers: what every follower is handed, and that no
    sequence number is given twice across crashes and restarts. *)
From Stdlib Require Import Ascii Lia ZArith.
From stdpp Require Import prelude gmap strings sorting.
From S2P Require Import Prelude GoNum Json Value GoTime Store Wire Segment Sha256 Journal JournalThm Envelope Replication.

(** ** The ring *)

Definition records (b : replicationBroker) : list ReplicationEntry := map (ring_at b) (seq 0 (b_size b)).

Definition weights (l : list ReplicationEntry) : Z := foldr (λ r a, (re_Weight r + a)%Z) 0%Z l.

Record ring_ok (b : replicationBroker) : Prop := {
  ro_cap : 0 < b_cap b;
  ro_len : length (b_ring b) = b_cap b;
  ro_head : b_head b < b_cap b;
  ro_size : b_size b ≤ b_cap b;
  ro_weight : b_weight b = weights (records b)
}.

Lemma weights_app a b : weights (a ++ b) = (weights a + weights b)%Z.
Proof. induction a as [|x a IH]; cbn; [done|]. unfold weights in *. rewrite IH. lia. Qed.

Lemma re_Weight_nonneg r : (0 ≤ re_Weight r)%Z.
Proof. unfold re_Weight. destruct (re_Tx r); lia. Qed.

(** Positions of the ring, one turn at most. *)
Lemma wrap_mod h i c : h < c → i ≤ c → (h + i) mod c = if decide (h + i < c) then h + i else h + i - c.
Proof.
  intros Hh Hi. case_decide as H; [by apply Nat.mod_small|].
  replace (h + i) with (h + i - c + 1 * c) at 1 by lia. rewrite Nat.Div0.mod_add. apply Nat.mod_small. lia.
Qed.

Lemma nth_insert_ne (l : list ReplicationEntry) i j x : i ≠ j → nth j (<[i:=x]> l) zero_re = nth j l zero_re.
Proof. intros H. rewrite !nth_lookup. by rewrite list_lookup_insert_ne. Qed.

Lemma nth_insert_eq (l : list ReplicationEntry) i x : i < length l → nth i (<[i:=x]> l) zero_re = x.
Proof. intros H. rewrite nth_lookup, list_lookup_insert_eq by done. done. Qed.

Lemma records_cons b : 0 < b_size b → records b = ring_at b 0 :: map (λ i, ring_at b (S i)) (seq 0 (b_size b - 1)).
Proof.
  intros H. unfold records. destruct (b_size b) as [|n]; [lia|]. cbn [seq map]. rewrite Nat.sub_succ, Nat.sub_0_r.
  by rewrite <- seq_shift, map_map.
Qed.

Lemma evict_one_records b : ring_ok b → 0 < b_size b → records b = ring_at b 0 :: records (evict_one b).
Proof.
  intros [Hc Hl Hh Hs _] H. rewrite records_cons by done. f_equal. unfold records. cbn [evict_one with_ring b_size].
  apply map_ext_in. intros i Hi%in_seq. unfold ring_at. cbn [evict_one with_ring b_head b_cap b_ring].
  replace (b_head b + S i) with (b_head b + 1 + i) by lia. rewrite <- (Nat.Div0.add_mod_idemp_l (b_head b + 1)).
  rewrite nth_insert_ne; [done|]. rewrite Nat.Div0.add_mod_idemp_l, <- Nat.add_assoc, wrap_mod by lia. case_decide; lia.
Qed.

Lemma evict_one_ok b : ring_ok b → 0 < b_size b → ring_ok (evict_one b).
Proof.
  intros Hr H. pose proof (evict_one_records b Hr H) as E. destruct Hr as [Hc Hl Hh Hs Hw].
  split; cbn [evict_one with_ring b_cap b_ring b_head b_size b_weight]; [done|by rewrite length_insert|apply Nat.mod_upper_bound; lia|lia|].
  rewrite Hw, E. cbn. lia.
Qed.

(** The loop stops because every turn drops a record: with as many turns as there
    are records its guard is false at the end. *)
Lemma evict_spec fuel b w : ring_ok b → b_size b ≤ fuel →
  ring_ok (evict fuel b w) ∧ (∃ k, records (evict fuel b w) = drop k (records b)) ∧ must_evict (evict fuel b w) w = false.
Proof.
  revert b. induction fuel as [|fuel IH]; intros b Hr Hs; cbn [evict].
  { split; [done|]. split; [by exists 0|]. unfold must_evict. replace (b_size b) with 0 by lia. done. }
  destruct (must_evict b w) eqn:E; [|split; [done|split; [by exists 0|done]]].
  assert (Hp : 0 < b_size b). { unfold must_evict in E. apply andb_true_iff in E as [E _]. by apply Nat.ltb_lt. }
  destruct (IH (evict_one b)) as (H1 & [k H2] & H3); [by apply evict_one_ok|cbn; lia|].
  split; [done|]. split; [|done]. exists (S k). by rewrite H2, (evict_one_records b Hr Hp).
Qed.

Lemma push_ok b r : ring_ok b → b_size b < b_cap b → ring_ok (push b r) ∧ records (push b r) = records b ++ [r].
Proof.
  intros [Hc Hl Hh Hs Hw] Hlt.
  assert (Hrec : records (push b r) = records b ++ [r]).
  { unfold records. cbn [push with_ring b_size]. rewrite Nat.add_1_r, seq_S, map_app. cbn [map Nat.add]. f_equal.
    - apply map_ext_in. intros i Hi%in_seq. unfold ring_at. cbn [push with_ring b_head b_cap b_ring]. apply nth_insert_ne.
      rewrite !wrap_mod by lia. repeat case_decide; lia.
    - unfold ring_at. cbn [push with_ring b_head b_cap b_ring]. f_equal. apply nth_insert_eq. rewrite Hl. apply Nat.mod_upper_bound. lia. }
  split; [|done]. split; cbn [push with_ring b_cap b_ring b_head b_size b_weight]; [done|by rewrite length_insert|done|lia|].
  rewrite Hrec, weights_app, Hw. cbn. lia.
Qed.

Lemma evict_fields fuel b w :
  let b' := evict fuel b w in
  b_lsn b' = b_lsn b ∧ b_cap b' = b_cap b ∧ b_subBuf b' = b_subBuf b ∧ b_subs b' = b_subs b ∧
  b_subSeq b' = b_subSeq b ∧ b_reserved b' = b_reserved b.
Proof. revert b. induction fuel as [|fuel IH]; intros b; cbn [evict]; [done|]. destruct (must_evict b w); [|done]. apply (IH (evict_one b)). Qed.

(** What one publication does: the next number, the reservation, the ring and the fan-out. *)
Record appended (b : replicationBroker) (rec : ReplicationEntry) (b' : replicationBroker) (high : option Z) (r : ReplicationEntry) : Prop := {
  ap_rec : r = set_LSN rec (u64 (b_lsn b + 1));
  ap_lsn : b_lsn b' = u64 (b_lsn b + 1);
  ap_ring : ring_ok b';
  ap_records : ∃ k, records b' = drop k (records b) ++ [r];
  ap_weight : (b_weight b' ≤ Z.of_nat (b_cap b'))%Z ∨ records b' = [r];
  ap_reserved : if (b_lsn b' <=? b_reserved b)%Z then b_reserved b' = b_reserved b ∧ high = None
                else b_reserved b' = u64 (b_lsn b' + lsnReserveBlock) ∧ high = Some (b_reserved b');
  ap_subs : b_subs b' = deliver (b_subBuf b) r <$> b_subs b;
  ap_same : b_cap b' = b_cap b ∧ b_subBuf b' = b_subBuf b ∧ b_subSeq b' = b_subSeq b
}.

Lemma appendLocked_spec b rec : ring_ok b → appended b rec (appendLocked b rec).1.1 (appendLocked b rec).1.2 (appendLocked b rec).2.
Proof.
  intros Hr. unfold appendLocked. set (b1 := with_lsn b (u64 (b_lsn b + 1))). set (r := set_LSN rec (b_lsn b1)).
  destruct (reserveLocked b1 (b_lsn b1)) as [b2 high] eqn:Er.
  assert (H2 : b2 = with_reserved b1 (b_reserved b2) ∧
    if (b_lsn b1 <=? b_reserved b)%Z then b_reserved b2 = b_reserved b ∧ high = None
    else b_reserved b2 = u64 (b_lsn b1 + lsnReserveBlock) ∧ high = Some (b_reserved b2)).
  { unfold reserveLocked in Er. cbn [b1 with_lsn b_reserved b_lsn] in *. destruct (Z.leb_spec (u64 (b_lsn b + 1)) (b_reserved b)); by injection Er as <- <-. }
  destruct H2 as [E2 Hres].
  assert (Hr2 : ring_ok b2) by (rewrite E2; destruct Hr; by split).
  assert (Hrec2 : records b2 = records b) by by rewrite E2.
  destruct (evict_spec (b_size b2) b2 (re_Weight r) Hr2) as (H3 & [k H4] & H5); [done|].
  destruct (evict_fields (b_size b2) b2 (re_Weight r)) as (F1 & F2 & F3 & F4 & F5 & F6). set (b3 := evict (b_size b2) b2 (re_Weight r)) in *.
  assert (Hlt : b_size b3 < b_cap b3).
  { unfold must_evict in H5. destruct (Nat.ltb_spec 0 (b_size b3)); [|destruct H3; lia]. cbn [andb] in H5. apply orb_false_iff in H5 as [H5 _].
    by apply Nat.leb_gt in H5. }
  destruct (push_ok b3 r H3 Hlt) as [H6 H7]. cbn [fst snd].
  assert (Hl2 : b_lsn b2 = u64 (b_lsn b + 1)) by by rewrite E2.
  split; cbn [with_subs push with_ring b_lsn b_cap b_subBuf b_subs b_subSeq b_reserved].
  - done.
  - by rewrite F1, Hl2.
  - destruct H6. by split.
  - exists k. change (records (push b3 r) = drop k (records b) ++ [r]). by rewrite H7, H4, Hrec2.
  - change (b_weight (push b3 r) ≤ Z.of_nat (b_cap b3) ∨ records (push b3 r) = [r])%Z. rewrite H7. unfold must_evict in H5.
    destruct (Nat.ltb_spec 0 (b_size b3)) as [Hs|Hs].
    + cbn [andb] in H5. apply orb_false_iff in H5 as [_ H5]. apply Z.ltb_ge in H5. by left.
    + right. unfold records at 1. by replace (b_size b3) with 0 by lia.
  - rewrite F1, F6, Hl2. exact Hres.
  - rewrite F3, F4, E2. done.
  - rewrite F2, F3, F5, E2. done.
Qed.

(** Claim C21: publishing ends — the eviction loop, run for as many turns as the ring
    has records, has left its guard false — and leaves a well-formed ring that holds
    the new record last and at most its capacity of entries, unless the record alone
    is heavier than the ring and is then kept alone. *)
Theorem publish_terminates_bounded b rec :
  ring_ok b →
  let b1 := with_lsn b (u64 (b_lsn b + 1)) in
  let b2 := (reserveLocked b1 (b_lsn b1)).1 in
  let b' := (appendLocked b rec).1.1 in
  must_evict (evict (b_size b2) b2 (re_Weight rec)) (re_Weight rec) = false ∧
  ring_ok b' ∧ last (records b') = Some (appendLocked b rec).2 ∧ b_size b' ≤ b_cap b' ∧
  ((weights (records b') ≤ Z.of_nat (b_cap b'))%Z ∨ records b' = [(appendLocked b rec).2]).
Proof.
  intros Hr b1 b2 b'. destruct (appendLocked_spec b rec Hr) as [H1 H2 H3 [k H4] H5 H6 H7 H8]. fold b' in H2, H3, H4, H5, H6, H7, H8 |- *.
  split.
  - assert (Hr2 : ring_ok b2).
    { clear -Hr. subst b2. unfold reserveLocked. destruct (b_lsn b1 <=? b_reserved b1)%Z; subst b1; destruct Hr; split; done. }
    by destruct (evict_spec (b_size b2) b2 (re_Weight rec) Hr2) as (_ & _ & ?).
  - rewrite <- (ro_weight _ H3). split; [done|]. split; [by rewrite H4, last_snoc|]. split; [apply H3|done].
Qed.
