(* ===== verification/ReplFeed.v ===== *)
(** * A leader, its subscribers and its restarts

    The system of one node over its whole life: publications, barriers,
    subscriptions and their draining, the follower's watermark, the three steps of
    a promotion, clean and unclean restarts.  [s_hist] is every record ever
    published, in order; [s_fols] is what each stream has been handed; [s_stage] is
    how far a promotion has come.  The watermark writes of these runs succeed. *)
From Stdlib Require Import Ascii Lia ZArith.
From stdpp Require Import prelude gmap strings sorting.
From S2P Require Import Prelude GoNum Json Value GoTime Store Wire Segment Sha256 Journal JournalThm Envelope Replication ReplicationThm.

(** A stream: where it resumed, the leader's number at that time, the records handed
    to the server so far (the backlog first), and those whose weight is not yet
    released. *)
Record stream : Type := MkStream { g_from : Z; g_at : Z; g_got : list ReplicationEntry; g_unacked : list ReplicationEntry }.

(** [Promote] flips the role, installs the applied number it had read, and writes
    the watermarks; other calls run between these steps. *)
Inductive stage : Type := Settled | Flipped (applied : Z) | Reseeded.

Record sys : Type := MkSys { s_node : node; s_hist : list ReplicationEntry; s_fols : gmap Z stream; s_stage : stage }.

Inductive rop : Type :=
| RPublish (c : string) (e : Entry)
| RPublishTx (env : TxEnvelope)
| RReserveNext
| RBarrier
| RSubscribe (from : Z) (fid : string) (now : time)
| RUnsubscribe (id : Z)
| RRecv (id : Z)
| RConsumed (id : Z)
| RSent (id lsn : Z)
| RSetApplied (lsn : Z)
| RNoteLeader (lsn : Z)
| RPromote (maxLag : Z) (force : bool)
| RReseed
| RPersist
| RRestart (clean : bool) (role : Role).

Definition on_broker (s : sys) (f : replicationBroker → replicationBroker) : sys :=
  match n_broker (s_node s) with
  | Some b => MkSys (with_broker (s_node s) (f b)) (s_hist s) (s_fols s) (s_stage s)
  | None => s
  end.

Definition published (s : sys) (r : node * option ReplicationEntry) : sys :=
  MkSys r.1 (s_hist s ++ option_list r.2) (s_fols s) (s_stage s).

Definition with_node (s : sys) (n : node) : sys := MkSys n (s_hist s) (s_fols s) (s_stage s).
Definition with_stage (s : sys) (st : stage) : sys := MkSys (s_node s) (s_hist s) (s_fols s) st.

(** Writes reach a leader only (the server's read-only guard). *)
Definition leads (s : sys) : bool := bool_decide (n_role (s_node s) = RoleLeader).

Definition exec (ring : Z) (s : sys) (op : rop) : sys :=
  let n := s_node s in
  match op with
  | RPublish c e => if leads s then published s (node_publish n c e) else s
  | RPublishTx env => if leads s then published s (node_publishTx n env) else s
  | RReserveNext => if leads s then with_node s (node_reserveNext n) else s
  | RBarrier => if leads s then with_node s (node_resyncBarrier n) else s
  | RSubscribe from fid now =>
      match SubscribeReplication n from fid now with
      | Some (n', id, back) => MkSys n' (s_hist s) (<[id := MkStream from (CurrentLSN n) back []]> (s_fols s)) (s_stage s)
      | None => s
      end
  | RUnsubscribe id =>
      let s := on_broker s (λ b, unsubscribe b id) in MkSys (s_node s) (s_hist s) (delete id (s_fols s)) (s_stage s)
  | RRecv id =>
      match n_broker n with
      | Some b =>
          match recv b id with
          | Some (re, b) =>
              MkSys (with_broker n b) (s_hist s)
                (alter (λ f, MkStream (g_from f) (g_at f) (g_got f ++ [re]) (g_unacked f ++ [re])) id (s_fols s)) (s_stage s)
          | None => s
          end
      | None => s
      end
  | RConsumed id =>
      match s_fols s !! id with
      | Some (MkStream from at_ got (re :: u)) =>
          let s := on_broker s (λ b, Consumed b id re) in
          MkSys (s_node s) (s_hist s) (<[id := MkStream from at_ got u]> (s_fols s)) (s_stage s)
      | _ => s
      end
  | RSent id lsn => on_broker s (λ b, NoteSent b id lsn)
  | RSetApplied lsn => with_node s (SetAppliedLSN n lsn).1
  | RNoteLeader lsn => with_node s (NoteLeaderLSN n lsn)
  | RPromote maxLag force =>
      if decide (n_role n ≠ RoleFollower) then s
      else if negb force && (maxLag <? ReplicationLag n)%Z then s
      else with_stage (with_node s (promote_flip n)) (Flipped (n_appliedLSN n))
  | RReseed => match s_stage s with Flipped a => with_stage (with_node s (promote_reseed n a).1) Reseeded | _ => s end
  | RPersist => match s_stage s with Reseeded => with_stage (with_node s (persistReplState n).1) Settled | _ => s end
  | RRestart clean role =>
      let n := if clean then close_watermarks n else n in
      MkSys (initReplication role ring (n_file n) (n_faults n)) (s_hist s) ∅ Settled
  end.

(** The counters are far from the end of their range, numbers from the wire are
    64-bit numbers, and a sealed envelope has operations. *)
Definition room (s : sys) : Prop :=
  (CurrentLSN (s_node s) + lsnReserveBlock + 2 < two64)%Z ∧
  match n_broker (s_node s) with Some b => (b_subSeq b + 1 < two64)%Z | None => True end.

Definition rop_ok (op : rop) : Prop :=
  match op with
  | RSubscribe from _ _ => (0 ≤ from ∧ from + 1 < two64)%Z
  | RSetApplied lsn => in_u64 lsn
  | RPublishTx env => 0 < Weight env
  | _ => True
  end.

(** The order the numbering relies on and nothing enforces: no record is numbered
    while a promotion is under way, and the applied watermark moves on a follower
    only.  [ReplSample] shows what happens without it. *)
Definition orderly (s : sys) (op : rop) : Prop :=
  match op with
  | RPublish _ _ | RPublishTx _ | RReserveNext | RBarrier => s_stage s = Settled
  | RSetApplied _ => n_role (s_node s) = RoleFollower
  | _ => True
  end.

Inductive reach (ring : Z) : sys → Prop :=
| reach_init role : reach ring (MkSys (initReplication role ring None []) [] ∅ Settled)
| reach_step s op : reach ring s → room s → rop_ok op → orderly s op → reach ring (exec ring s op).

(** The three steps, one after the other, are [Promote]. *)
Lemma promotion_steps ring s maxLag force : s_stage s = Settled →
  exec ring (exec ring (exec ring s (RPromote maxLag force)) RReseed) RPersist = with_node s (Promote (s_node s) maxLag force).1.
Proof.
  intros Hs. destruct s as [n h f st]. cbn in Hs. subst st. cbn [exec s_node]. unfold Promote.
  case_decide; [done|]. destruct (negb force && _)%Z; [done|]. cbn [exec s_node s_stage with_stage with_node].
  by destruct (promote_reseed (promote_flip n) (n_appliedLSN n)) as [n1 lsn].
Qed.

(** ** The watermark file *)

Lemma load_stored st : in_u64 (st_LeaderLSN st) → in_u64 (st_AppliedLSN st) →
  loadReplState (Some (print (JObj (replState_members st)))) = Some st.
Proof.
  destruct st as [l a]. cbn [st_LeaderLSN st_AppliedLSN]. intros Hl Ha. unfold loadReplState. cbn [mbind option_bind].
  unfold strictUnmarshal. rewrite unmarshal_print.
  2: { unfold replState_members, member. cbn [json_ok forallb snd]. by rewrite !num_u_ok. }
  2: { done. }
  unfold replState_members. cbn [st_LeaderLSN st_AppliedLSN].
  eapply (sf_cons _ _ _ _ (MkReplState l 0)).
  { change ((v ← dec_u64 0 (num_u l); Some (MkReplState v 0)) = Some (MkReplState l 0)). by rewrite dec_num_u. }
  apply sf_one. change ((v ← dec_u64 0 (num_u a); Some (MkReplState l v)) = Some (MkReplState l a)). by rewrite dec_num_u.
Qed.

Definition durable (n : node) : replState := default (MkReplState 0 0) (loadReplState (n_file n)).

(** A write of the watermarks that succeeds. *)
Lemma persist_spec n lsn : n_faults n = [] → in_u64 lsn → in_u64 (n_appliedLSN n) →
  let n' := (persistLeaderLSN n lsn).1 in
  durable n' = MkReplState lsn (n_appliedLSN n) ∧ n_faults n' = [] ∧ n_broker n' = n_broker n ∧
  n_appliedLSN n' = n_appliedLSN n ∧ n_role n' = n_role n ∧ n_lastLeaderLSN n' = n_lastLeaderLSN n.
Proof.
  intros Hf Hl Ha. unfold persistLeaderLSN, writeFileAtomic. rewrite Hf.
  set (data := print (JObj (replState_members (MkReplState lsn (n_appliedLSN n))))).
  change (writeJournalAtomic data []) with (true, true, @nil fault). cbn [fst n_faults n_broker n_appliedLSN n_role n_lastLeaderLSN].
  split; [|done]. unfold durable. cbn [n_file]. subst data. by rewrite load_stored.
Qed.

(** ** The invariant *)

Definition ascending (l : list ReplicationEntry) : Prop := StronglySorted (λ a b, (re_LSN a < re_LSN b)%Z) l.

Definition up_to (l : list ReplicationEntry) (z : Z) : Prop := Forall (λ r, (re_LSN r ≤ z)%Z) l.

(** What the stream should have been handed: the older records after its resume
    point, then everything published since it subscribed. *)
Definition feed (hist : list ReplicationEntry) (f : stream) (l : list ReplicationEntry) : Prop :=
  ∃ h1 h2, hist = h1 ++ h2 ∧ up_to h1 (g_at f) ∧ Forall (λ r, (g_at f < re_LSN r)%Z) h2 ∧
           l = filter (λ r, (g_from f < re_LSN r)%Z) h1 ++ h2.

Record stream_ok (b : replicationBroker) (hist : list ReplicationEntry) (id : Z) (f : stream) (s : replSub) : Prop := {
  so_id : (id ≤ b_subSeq b)%Z;
  so_at : (g_at f ≤ b_lsn b)%Z;
  so_len : length (rs_ch s) ≤ b_subBuf b;
  so_pos : Forall (λ r, (0 < re_Weight r)%Z) (rs_ch s ++ g_unacked f);
  so_queued : rs_queued s = (weights (rs_ch s) + weights (g_unacked f))%Z;
  so_bound : (rs_queued s ≤ Z.of_nat (b_subBuf b))%Z ∨ length (rs_ch s ++ g_unacked f) ≤ 1;
  so_feed : ∃ l, feed hist f l ∧ (g_got f ++ rs_ch s) `prefix_of` l ∧ (rs_dead s = false → g_got f ++ rs_ch s = l)
}.

Record sys_ok (s : sys) (b : replicationBroker) : Prop := {
  sk_broker : n_broker (s_node s) = Some b;
  sk_ring : ring_ok b;
  sk_faults : n_faults (s_node s) = [];
  sk_lsn : in_u64 (b_lsn b);
  sk_seq : (0 ≤ b_subSeq b)%Z;
  sk_applied : in_u64 (n_appliedLSN (s_node s));
  sk_asc : ascending (s_hist s);
  sk_hist : up_to (s_hist s) (b_lsn b);
  sk_suffix : ∃ k, records b = drop k (s_hist s);
  sk_durable : up_to (s_hist s) (st_LeaderLSN (durable (s_node s))) ∧ (b_reserved b ≤ st_LeaderLSN (durable (s_node s)))%Z;
  sk_near : (st_LeaderLSN (durable (s_node s)) ≤ b_lsn b + lsnReserveBlock + 1)%Z;
  sk_durable64 : in_u64 (st_LeaderLSN (durable (s_node s))) ∧ in_u64 (st_AppliedLSN (durable (s_node s)));
  sk_follower : n_role (s_node s) = RoleFollower ∨ s_stage s ≠ Settled → (b_reserved b ≤ b_lsn b)%Z;
  sk_stage : match s_stage s with Flipped a => in_u64 a | _ => True end;
  sk_fols : map_relation (λ id f s', stream_ok b (s_hist s) id f s') (λ _ _, False) (λ _ _, False) (s_fols s) (b_subs b)
}.

Lemma weights_nonneg l : (0 ≤ weights l)%Z.
Proof. induction l as [|r l IH]; [done|]. cbn. pose proof (re_Weight_nonneg r). unfold weights in IH. lia. Qed.

Lemma weights_zero l : Forall (λ r, (0 < re_Weight r)%Z) l → weights l = 0%Z → l = [].
Proof. intros [|r l' H _]; [done|]. cbn. pose proof (weights_nonneg l'). unfold weights in *. lia. Qed.

Lemma feed_snoc hist f l r : feed hist f l → (g_at f < re_LSN r)%Z → feed (hist ++ [r]) f (l ++ [r]).
Proof.
  intros (h1 & h2 & -> & H1 & H2 & ->) Hr. exists h1, (h2 ++ [r]). split_and!; [by rewrite app_assoc|done| |by rewrite app_assoc].
  apply Forall_app. split; [done|by repeat constructor].
Qed.

(** A publication keeps every stream right: the record is appended to it, or it is cut. *)
Lemma stream_append b b' hist id f s r :
  stream_ok b hist id f s → (b_lsn b ≤ b_lsn b')%Z → (b_lsn b < re_LSN r)%Z → b_subSeq b' = b_subSeq b → b_subBuf b' = b_subBuf b →
  (0 < re_Weight r)%Z →
  stream_ok b' (hist ++ [r]) id f (deliver (b_subBuf b) r s).
Proof.
  intros [H1 H2 H3 Hp H4 H5 (l & Hf & Hpre & Hd)] Hl Hr Hq Hb Hw.
  assert (Hf' : feed (hist ++ [r]) f (l ++ [r])) by (apply feed_snoc; [done|lia]).
  assert (Hk : stream_ok b' (hist ++ [r]) id f (kill s)).
  { split; cbn [kill rs_ch rs_dead rs_queued]; rewrite ?Hq, ?Hb; try done; [lia|]. exists (l ++ [r]). split; [done|]. split; [|done].
    by apply prefix_app_r. }
  unfold deliver. destruct (rs_dead s) eqn:Ed.
  { split; rewrite ?Hq, ?Hb; try done; [lia|]. exists (l ++ [r]). split; [done|]. split; [by apply prefix_app_r|]. by rewrite Ed. }
  destruct ((0 <? rs_queued s)%Z && (Z.of_nat (b_subBuf b) <? rs_queued s + re_Weight r)%Z) eqn:E1; [done|].
  destruct (Nat.ltb_spec (length (rs_ch s)) (b_subBuf b)) as [Hlt|]; [|done].
  assert (Hcase : rs_queued s = 0%Z ∨ (rs_queued s + re_Weight r ≤ Z.of_nat (b_subBuf b))%Z).
  { apply andb_false_iff in E1 as [E1|E1]; [left|right; by apply Z.ltb_ge]. apply Z.ltb_ge in E1.
    pose proof (weights_nonneg (rs_ch s)). pose proof (weights_nonneg (g_unacked f)). lia. }
  split; cbn [rs_ch rs_dead rs_queued]; rewrite ?Hq, ?Hb.
  - done.
  - lia.
  - rewrite length_app. cbn. lia.
  - apply Forall_app in Hp as [Hp1 Hp2]. rewrite !Forall_app. split; [split|]; [done|by repeat constructor|done].
  - rewrite weights_app. cbn. lia.
  - destruct Hcase as [Hz|Hle]; [right|by left]. rewrite H4 in Hz. rewrite <- weights_app in Hz. apply weights_zero in Hz; [|done].
    apply app_nil in Hz as [-> ->]. cbn. lia.
  - exists (l ++ [r]). split; [done|]. rewrite app_assoc, Hd by done. done.
Qed.

(** Steps that leave the history and the subscribers alone. *)
Lemma stream_mono b b' hist id f s :
  stream_ok b hist id f s → (b_lsn b ≤ b_lsn b')%Z → (b_subSeq b ≤ b_subSeq b')%Z → b_subBuf b' = b_subBuf b → stream_ok b' hist id f s.
Proof. intros [H1 H2 H3 Hp H4 H5 H6] Hl Hq Hb. split; rewrite ?Hb; try done; lia. Qed.

Lemma reserve_write_spec n high : n_faults n = [] → in_u64 (n_appliedLSN n) → (∀ h, high = Some h → in_u64 h) →
  let n' := reserve_write n high in
  durable n' = match high with Some h => MkReplState h (n_appliedLSN n) | None => durable n end ∧
  n_faults n' = [] ∧ n_broker n' = n_broker n ∧ n_appliedLSN n' = n_appliedLSN n ∧ n_role n' = n_role n.
Proof.
  intros Hf Ha Hh. destruct high as [h|]; [|done]. cbn [reserve_write].
  by destruct (persist_spec n h Hf (Hh h eq_refl) Ha) as (H1 & H2 & H3 & H4 & H5 & _).
Qed.

Lemma up_to_mono l a b : up_to l a → (a ≤ b)%Z → up_to l b.
Proof. intros H Hab. eapply Forall_impl; [exact H|]. cbn. lia. Qed.

Lemma ascending_snoc l r z : ascending l → up_to l z → (z < re_LSN r)%Z → ascending (l ++ [r]).
Proof.
  intros H1 H2 Hz. apply StronglySorted_app_2; [|done|by repeat constructor]. intros a c Ha ->%list_elem_of_singleton.
  unfold up_to in H2. rewrite Forall_forall in H2. specialize (H2 a Ha). lia.
Qed.

Section steps.
Context (s : sys) (b : replicationBroker).
Hypothesis Hok : sys_ok s b.
Hypothesis Hroom : room s.

Lemma room_lsn : u64 (b_lsn b + 1) = (b_lsn b + 1)%Z ∧ u64 (b_lsn b + 1 + lsnReserveBlock) = (b_lsn b + 1 + lsnReserveBlock)%Z ∧
  u64 (b_subSeq b + 1) = (b_subSeq b + 1)%Z ∧ in_u64 (b_lsn b + 1) ∧ in_u64 (b_lsn b + 1 + lsnReserveBlock).
Proof.
  destruct Hroom as [H1 H2]. unfold CurrentLSN in H1. rewrite (sk_broker _ _ Hok) in H1, H2. pose proof (sk_lsn _ _ Hok) as H3.
  pose proof (sk_seq _ _ Hok) as H4. unfold in_u64, lsnReserveBlock in *. rewrite !u64_id by (unfold in_u64; lia). lia.
Qed.

Lemma append_ok rec : (0 < re_Weight rec)%Z → n_role (s_node s) = RoleLeader → s_stage s = Settled →
  sys_ok (published s (node_append (s_node s) (λ b, appendLocked b rec))) (appendLocked b rec).1.1.
Proof.
  intros Hw Hrole Hst. destruct room_lsn as (E1 & E2 & _ & R1 & R2). unfold node_append. rewrite (sk_broker _ _ Hok).
  destruct (appendLocked_spec b rec (sk_ring _ _ Hok)) as [H1 H2 H3 [k H4] _ H6 H7 (H8 & H9 & H10)].
  destruct (appendLocked b rec) as [[b' high] r]. cbn [fst snd] in *. rewrite E1 in H1, H2. rewrite H2, E2 in H6.
  set (n1 := with_broker (s_node s) b').
  destruct (reserve_write_spec n1 high) as (D & F & B & A & Ro).
  { apply Hok. } { apply Hok. } { intros h ->. destruct (_ <=? _)%Z; [by destruct H6|]. destruct H6 as [H6 H6']. injection H6' as ->. by rewrite H6. }
  assert (Hr : re_LSN r = (b_lsn b + 1)%Z) by by rewrite H1.
  destruct (sk_durable _ _ Hok) as [D1 D2]. destruct (sk_durable64 _ _ Hok) as [D3 D4].
  assert (HD : (b_lsn b + 1 ≤ st_LeaderLSN (durable (reserve_write n1 high)))%Z ∧ up_to (s_hist s) (st_LeaderLSN (durable (reserve_write n1 high))) ∧
    (b_reserved b' ≤ st_LeaderLSN (durable (reserve_write n1 high)))%Z ∧ in_u64 (st_LeaderLSN (durable (reserve_write n1 high))) ∧
    in_u64 (st_AppliedLSN (durable (reserve_write n1 high)))).
  { rewrite D. destruct (Z.leb_spec (b_lsn b + 1) (b_reserved b)) as [Hle|Hgt]; destruct H6 as [H6 ->].
    - change (durable n1) with (durable (s_node s)). rewrite H6. split_and!; try done; lia.
    - cbn [st_LeaderLSN st_AppliedLSN]. rewrite H6. unfold lsnReserveBlock in *. split_and!; try done; try apply R2; try lia; [|apply Hok].
      eapply up_to_mono; [apply Hok|]. lia. }
  destruct HD as (HD1 & HD2 & HD3 & HD4 & HD5).
  split; cbn [published s_node s_hist s_fols s_stage fst snd option_list]; rewrite ?H2, ?Hst.
  - exact B.
  - done.
  - done.
  - done.
  - rewrite H10. apply Hok.
  - rewrite A. apply Hok.
  - eapply ascending_snoc; [apply Hok|apply Hok|]. lia.
  - apply Forall_app. split; [eapply up_to_mono; [apply Hok|lia]|]. repeat constructor. lia.
  - destruct (sk_suffix _ _ Hok) as [k0 Hk0]. rewrite H4, Hk0, drop_drop.
    exists (length (s_hist s) `min` (k0 + k)). destruct (decide (k0 + k ≤ length (s_hist s))) as [Hle|Hle].
    + rewrite Nat.min_r by lia. by rewrite drop_app_le by lia.
    + rewrite Nat.min_l, drop_ge by lia. by rewrite drop_app_length.
  - split; [|done]. apply Forall_app. split; [done|]. repeat constructor. lia.
  - pose proof (sk_near _ _ Hok) as Hn. rewrite D. destruct (Z.leb_spec (b_lsn b + 1) (b_reserved b)); destruct H6 as [H6 ->];
      [change (durable n1) with (durable (s_node s)); lia|cbn; lia].
  - done.
  - rewrite Ro. cbn [n1 with_broker n_role]. intros [?|?]; congruence.
  - done.
  - rewrite H7. intros id. rewrite lookup_fmap. pose proof (sk_fols _ _ Hok id) as Hid.
    destruct (s_fols s !! id) as [f|], (b_subs b !! id) as [su|]; cbn in *; try done.
    apply stream_append with (b := b); try done; try lia. by rewrite H1.
Qed.

(** A step that writes the watermark for the next number and keeps the history. *)
Lemma reserve_step b1 lsn : n_role (s_node s) = RoleLeader → s_stage s = Settled → ring_ok b1 → (∃ k, records b1 = drop k (s_hist s)) →
  (b_lsn b1 = b_lsn b ∨ b_lsn b1 = b_lsn b + 1)%Z → lsn = (b_lsn b + 1)%Z → b_reserved b1 = b_reserved b → b_subSeq b1 = b_subSeq b →
  map_relation (λ id f s', stream_ok b1 (s_hist s) id f s') (λ _ _, False) (λ _ _, False) (s_fols s) (b_subs b1) →
  let r := reserveLocked b1 lsn in
  sys_ok (with_node s (reserve_write (with_broker (s_node s) r.1) r.2)) r.1.
Proof.
  intros Hrole Hst Hring Hsuf Hlsn -> Hres Hseq Hfols. destruct room_lsn as (E1 & E2 & _ & R1 & R2).
  destruct (sk_durable _ _ Hok) as [D1 D2]. destruct (sk_durable64 _ _ Hok) as [D3 D4]. unfold reserveLocked.
  assert (HL : in_u64 (b_lsn b1) ∧ (b_lsn b ≤ b_lsn b1)%Z).
  { pose proof (sk_lsn _ _ Hok). unfold in_u64 in *. lia. }
  destruct HL as [HL1 HL2].
  rewrite Hres. destruct (Z.leb_spec (b_lsn b + 1) (b_reserved b)) as [Hle|Hgt]; cbn [fst snd].
  - cbn [reserve_write]. split; cbn [with_node s_node s_hist s_fols with_broker n_broker n_faults n_appliedLSN n_role]; try done; try apply Hok.
    + rewrite Hseq. apply Hok.
    + eapply up_to_mono; [apply Hok|done].
    + change (durable (with_broker (s_node s) b1)) with (durable (s_node s)). by rewrite Hres.
    + pose proof (sk_near _ _ Hok) as Hn. change (durable (with_broker (s_node s) b1)) with (durable (s_node s)). lia.
    + intros [?|Hn]; [congruence|]. by destruct Hn.
  - rewrite E2. set (b2 := with_reserved b1 (b_lsn b + 1 + lsnReserveBlock)). set (n1 := with_broker (s_node s) b2).
    destruct (reserve_write_spec n1 (Some (b_lsn b + 1 + lsnReserveBlock)%Z)) as (D & F & B & A & Ro).
    { apply Hok. } { apply Hok. } { by intros h [= <-]. }
    split; cbn [with_node s_node s_hist s_fols].
    + exact B.
    + destruct Hring. by split.
    + done.
    + done.
    + cbn. rewrite Hseq. apply Hok.
    + rewrite A. apply Hok.
    + apply Hok.
    + eapply up_to_mono; [apply Hok|done].
    + done.
    + rewrite D. cbn [st_LeaderLSN]. split; [|done]. eapply up_to_mono; [exact (sk_hist _ _ Hok)|]. unfold lsnReserveBlock. lia.
    + rewrite D. cbn. lia.
    + rewrite D. cbn [st_LeaderLSN st_AppliedLSN]. split; [done|apply Hok].
    + rewrite Ro. cbn. rewrite Hst. intros [?|?]; congruence.
    + exact (sk_stage _ _ Hok).
    + intros id. specialize (Hfols id). destruct (s_fols s !! id) as [f|], (b_subs b1 !! id) as [su|] eqn:Eid; cbn in *; rewrite ?Eid; try done; cbn.
      eapply stream_mono; [exact Hfols|done|done|done].
Qed.

Lemma fols_mono b1 : (b_lsn b ≤ b_lsn b1)%Z → b_subSeq b1 = b_subSeq b → b_subBuf b1 = b_subBuf b → b_subs b1 = b_subs b →
  map_relation (λ id f s', stream_ok b1 (s_hist s) id f s') (λ _ _, False) (λ _ _, False) (s_fols s) (b_subs b1).
Proof.
  intros H1 H2 H3 H4 id. rewrite H4. pose proof (sk_fols _ _ Hok id) as Hid.
  destruct (s_fols s !! id) as [f|], (b_subs b !! id) as [su|]; cbn in *; try done. eapply stream_mono; [exact Hid|done|lia|done].
Qed.

Lemma reserveNext_ok : n_role (s_node s) = RoleLeader → s_stage s = Settled →
  sys_ok (with_node s (node_reserveNext (s_node s))) (reserveNext b).1.
Proof.
  intros Hrole Hst. destruct room_lsn as (E1 & _ & _). unfold node_reserveNext. rewrite (sk_broker _ _ Hok). unfold reserveNext. rewrite E1.
  pose proof (reserve_step b (b_lsn b + 1)%Z Hrole Hst (sk_ring _ _ Hok) (sk_suffix _ _ Hok)) as H.
  destruct (reserveLocked b (b_lsn b + 1)) as [b' high]. cbn [fst snd] in *. apply H; try done; [by left|apply Hok].
Qed.

Lemma barrier_ok : n_role (s_node s) = RoleLeader → s_stage s = Settled → sys_ok (with_node s (node_resyncBarrier (s_node s))) (resyncBarrier b).1.
Proof.
  intros Hrole Hst. destruct room_lsn as (E1 & _ & _). unfold node_resyncBarrier. rewrite (sk_broker _ _ Hok). unfold resyncBarrier. rewrite E1.
  set (b1 := with_lsn b (b_lsn b + 1)). set (e := λ b' : replicationBroker, with_subs (with_ring b' (map (λ _, zero_re) (b_ring b')) 0 0 0) (kill <$> b_subs b')).
  pose proof (reserve_step (e b1) (b_lsn b + 1)%Z Hrole Hst) as H.
  assert (Hc : reserveLocked (e b1) (b_lsn b + 1) = let r := reserveLocked b1 (b_lsn b + 1) in (e r.1, r.2)).
  { unfold reserveLocked. change (b_reserved (e b1)) with (b_reserved b1). by destruct (_ <=? _)%Z. }
  rewrite Hc in H. change (b_lsn b1) with (b_lsn b + 1)%Z. destruct (reserveLocked b1 (b_lsn b + 1)) as [b' high]. cbn [fst snd] in *.
  apply H; try done; [..|by right|].
  - destruct (sk_ring _ _ Hok) as [R1 R2 R3 R4 R5]. split; cbn; [done|by rewrite length_map|done|lia|done].
  - exists (length (s_hist s)). by rewrite drop_all.
  - intros id. assert (Hs : b_subs (e b1) !! id = kill <$> b_subs b !! id) by apply lookup_fmap. rewrite Hs. clear Hs.
    pose proof (sk_fols _ _ Hok id) as Hid. destruct (s_fols s !! id) as [f|], (b_subs b !! id) as [su|]; cbn in *; try done.
    destruct Hid as [H1 H2 H3 Hp H4 H5 (l & Hf & Hpre & Hd)]. split; cbn; try done; [lia|]. by exists l.
Qed.

(** Steps of the streams: the ring, the numbers and the file stay. *)
Lemma subs_step subs seq fols : (b_subSeq b ≤ seq)%Z →
  let b1 := MkBroker (b_lsn b) (b_ring b) (b_cap b) (b_head b) (b_size b) (b_weight b) (b_subBuf b) subs seq (b_reserved b) in
  map_relation (λ id f s', stream_ok b1 (s_hist s) id f s') (λ _ _, False) (λ _ _, False) fols subs →
  sys_ok (MkSys (with_broker (s_node s) b1) (s_hist s) fols (s_stage s)) b1.
Proof.
  intros Hseq b1 Hf. split; cbn [s_node s_hist s_fols s_stage with_broker n_broker n_faults n_appliedLSN n_role]; try apply Hok; try done.
  - destruct (sk_ring _ _ Hok). by split.
  - cbn. pose proof (sk_seq _ _ Hok). lia.
Qed.

(** The records a new stream is given are those of the history after its resume point. *)
Lemma backlog_feed from : (0 ≤ from ∧ from + 1 < two64)%Z → (u64 (from + 1) <? oldest b)%Z = false →
  backlog b from = filter (λ r, (from < re_LSN r)%Z) (s_hist s).
Proof.
  intros [F1 F2] Ho. apply Z.ltb_ge in Ho. rewrite u64_id in Ho by (unfold in_u64; lia). unfold backlog. fold (records b).
  destruct (sk_suffix _ _ Hok) as [k Hk]. pose proof (take_drop k (s_hist s)) as Htd. rewrite <- Hk in Htd. rewrite <- Htd at 1.
  rewrite filter_app.
  assert (Hn : filter (λ r, (from < re_LSN r)%Z) (take k (s_hist s)) = []).
  { apply filter_none, Forall_forall. intros x Hx Hlt.
    assert (Hxo : (re_LSN x < oldest b)%Z).
    { unfold oldest in *. destruct room_lsn as (E1 & _ & _). case_decide as Hs.
      - rewrite E1. pose proof (sk_hist _ _ Hok) as Hh. unfold up_to in Hh. rewrite Forall_forall in Hh.
        assert (Hin : x ∈ s_hist s) by (rewrite <- Htd; apply elem_of_app; by left). specialize (Hh x Hin). lia.
      - pose proof (sk_asc _ _ Hok) as Ha. unfold ascending in Ha. rewrite <- Htd in Ha. apply StronglySorted_app in Ha as [Ha _].
        apply Ha; [done|]. rewrite records_cons by lia. by left. }
    lia. }
  by rewrite Hn.
Qed.

Lemma subscribe_ok from fid now n' id back : (0 ≤ from ∧ from + 1 < two64)%Z →
  SubscribeReplication (s_node s) from fid now = Some (n', id, back) →
  ∃ b', sys_ok (MkSys n' (s_hist s) (<[id := MkStream from (CurrentLSN (s_node s)) back []]> (s_fols s)) (s_stage s)) b'.
Proof.
  intros Hf. unfold SubscribeReplication, CurrentLSN. rewrite (sk_broker _ _ Hok). unfold subscribe.
  destruct (u64 (from + 1) <? oldest b)%Z eqn:Eo; [done|]. intros [= <- <- <-]. eexists. destruct room_lsn as (_ & _ & E3 & _). rewrite E3.
  apply subs_step; [lia|]. set (b1 := MkBroker _ _ _ _ _ _ _ _ _ _). intros j.
  destruct (decide (j = b_subSeq b + 1)%Z) as [->|Hj].
  - rewrite !lookup_insert_eq. cbn. split; cbn; try done; try lia. rewrite app_nil_r.
    exists (backlog b from). split; [|done]. exists (s_hist s), []. rewrite app_nil_r.
    split_and!; [done|apply Hok|done|]. rewrite app_nil_r. by apply backlog_feed.
  - rewrite !lookup_insert_ne by done. pose proof (sk_fols _ _ Hok j) as Hid.
    destruct (s_fols s !! j) as [f|], (b_subs b !! j) as [su|]; cbn in *; try done. eapply stream_mono; [exact Hid|done|cbn; lia|done].
Qed.

(** A step on one stream. *)
Lemma on_stream id fols subs :
  (∀ j, j ≠ id → fols !! j = s_fols s !! j ∧ subs !! j = b_subs b !! j) →
  (∀ b1, b_lsn b1 = b_lsn b → b_subSeq b1 = b_subSeq b → b_subBuf b1 = b_subBuf b →
     option_relation (stream_ok b1 (s_hist s) id) (λ _, False) (λ _, False) (fols !! id) (subs !! id)) →
  sys_ok (MkSys (with_broker (s_node s) (with_subs b subs)) (s_hist s) fols (s_stage s)) (with_subs b subs).
Proof.
  intros H1 H2. apply subs_step; [done|]. intros j. destruct (decide (j = id)) as [->|Hj]; [by apply H2|].
  destruct (H1 j Hj) as [-> ->]. pose proof (sk_fols _ _ Hok j) as Hid.
  destruct (s_fols s !! j) as [f|], (b_subs b !! j) as [su|]; cbn in *; try done. by eapply stream_mono.
Qed.

Lemma unsubscribe_ok ring id : ∃ b', sys_ok (exec ring s (RUnsubscribe id)) b'.
Proof.
  exists (unsubscribe b id). cbn [exec]. unfold on_broker. rewrite (sk_broker _ _ Hok). cbn [s_node s_hist s_fols s_stage].
  apply on_stream with (id := id).
  - intros j Hj. by rewrite !lookup_delete_ne.
  - intros b1 _ _ _. by rewrite !lookup_delete_eq.
Qed.

Lemma recv_ok ring id : ∃ b', sys_ok (exec ring s (RRecv id)) b'.
Proof.
  cbn [exec]. rewrite (sk_broker _ _ Hok). unfold recv. destruct (b_subs b !! id) as [su|] eqn:Es; [|by exists b].
  destruct (rs_ch su) as [|re ch] eqn:Ec; [by exists b|]. eexists. unfold on_sub. apply on_stream with (id := id).
  - intros j Hj. by rewrite !lookup_alter_ne.
  - intros b1 L1 L2 L3. rewrite !lookup_alter_eq, Es. pose proof (sk_fols _ _ Hok id) as Hid. rewrite Es in Hid.
    destruct (s_fols s !! id) as [f|]; cbn in *; [|done]. destruct Hid as [H1 H2 H3 Hp H4 H5 (l & Hf & Hpre & Hd)]. rewrite Ec in *.
    split; cbn; rewrite ?L1, ?L2, ?L3; try done.
    + cbn in H3. lia.
    + cbn in Hp. rewrite app_assoc. apply Forall_cons in Hp as [Hp1 Hp2]. apply Forall_app. split; [done|by repeat constructor].
    + rewrite H4, weights_app. cbn. lia.
    + destruct H5 as [H5|H5]; [by left|right]. cbn in H5. rewrite !length_app in *. cbn. lia.
    + exists l. by rewrite <- app_assoc.
Qed.

Lemma consumed_ok ring id : ∃ b', sys_ok (exec ring s (RConsumed id)) b'.
Proof.
  cbn [exec]. pose proof (sk_fols _ _ Hok id) as Hid. destruct (s_fols s !! id) as [[from at_ got u]|] eqn:Ef; [|by exists b].
  destruct u as [|re u]; [by exists b|]. unfold on_broker. rewrite (sk_broker _ _ Hok). eexists. cbn [s_node s_hist s_fols s_stage]. unfold Consumed, on_sub.
  apply on_stream with (id := id).
  - intros j Hj. by rewrite lookup_insert_ne, lookup_alter_ne.
  - intros b1 L1 L2 L3. rewrite lookup_insert_eq, lookup_alter_eq. destruct (b_subs b !! id) as [su|]; cbn in *; [|done].
    destruct Hid as [H1 H2 H3 Hp H4 H5 (l & Hf & Hpre & Hd)]. cbn in *. split; cbn; rewrite ?L1, ?L2, ?L3; try done.
    + apply Forall_app in Hp as [Hp1 [Hp2 Hp3]%Forall_cons]. by apply Forall_app.
    + unfold weights in *. lia.
    + pose proof (re_Weight_nonneg re). destruct H5 as [H5|H5]; [left; lia|right]. rewrite !length_app in *. cbn in *. lia.
    + exists l. split; [|done]. destruct Hf as (h1 & h2 & Q1 & Q2 & Q3 & Q4). by exists h1, h2.
Qed.

Lemma sent_ok ring id lsn : ∃ b', sys_ok (exec ring s (RSent id lsn)) b'.
Proof.
  cbn [exec]. unfold on_broker. rewrite (sk_broker _ _ Hok). eexists. unfold NoteSent, on_sub. apply on_stream with (id := id).
  - intros j Hj. by rewrite lookup_alter_ne.
  - intros b1 L1 L2 L3. rewrite lookup_alter_eq. pose proof (sk_fols _ _ Hok id) as Hid.
    destruct (s_fols s !! id) as [f|], (b_subs b !! id) as [su|]; cbn in *; try done.
    destruct Hid as [H1 H2 H3 Hp H4 H5 H6]. split; cbn; rewrite ?L1, ?L2, ?L3; done.
Qed.

(** Writing the exact number is safe while nothing is reserved beyond it. *)
Lemma persist_exact n b1 : n_broker n = Some b1 → n_faults n = [] → in_u64 (n_appliedLSN n) → (b_lsn b ≤ b_lsn b1)%Z → in_u64 (b_lsn b1) →
  b1 = with_lsn b (b_lsn b1) → (b_reserved b ≤ b_lsn b1)%Z → sys_ok (with_node s (persistReplState n).1) b1.
Proof.
  intros Hb Hf Ha Hl H64 E Hres. unfold persistReplState, CurrentLSN. rewrite Hb.
  destruct (persist_spec n (b_lsn b1) Hf H64 Ha) as (P1 & P2 & P3 & P4 & P5 & _).
  assert (Hr1 : b_reserved b1 = b_reserved b) by by rewrite E. assert (Hs1 : b_subs b1 = b_subs b) by by rewrite E.
  split; cbn [with_node s_node s_hist s_fols].
  - by rewrite P3.
  - rewrite E. destruct (sk_ring _ _ Hok). by split.
  - done.
  - done.
  - rewrite E. apply Hok.
  - by rewrite P4.
  - apply Hok.
  - eapply up_to_mono; [apply Hok|done].
  - rewrite E. apply Hok.
  - rewrite P1. cbn [st_LeaderLSN]. rewrite Hr1. split; [|done]. eapply up_to_mono; [exact (sk_hist _ _ Hok)|done].
  - rewrite P1. unfold lsnReserveBlock. cbn. lia.
  - rewrite P1. done.
  - by rewrite Hr1.
  - exact (sk_stage _ _ Hok).
  - rewrite Hs1. intros id. pose proof (sk_fols _ _ Hok id) as Hid.
    destruct (s_fols s !! id) as [f|], (b_subs b !! id) as [su|]; cbn in *; try done.
    eapply stream_mono; [exact Hid|done| |]; rewrite E; done.
Qed.

Lemma with_lsn_same : b = with_lsn b (b_lsn b).
Proof. by destruct b. Qed.

Lemma set_applied_ok lsn : in_u64 lsn → n_role (s_node s) = RoleFollower → sys_ok (with_node s (SetAppliedLSN (s_node s) lsn).1) b.
Proof.
  intros Hl Hrole. unfold SetAppliedLSN. destruct (_ <=? _)%Z; [by destruct s|]. pose proof (sk_follower _ _ Hok (or_introl Hrole)).
  apply persist_exact; try done; try apply Hok. apply with_lsn_same.
Qed.

Lemma note_leader_ok lsn : sys_ok (with_node s (NoteLeaderLSN (s_node s) lsn)) b.
Proof. destruct Hok. by split. Qed.

(** The counter of a leader that is being promoted moves up to what it applied. *)
Lemma setLSN_le a : (b_lsn b ≤ b_lsn (setLSN b a))%Z ∧ setLSN b a = with_lsn b (b_lsn (setLSN b a)) ∧
  (in_u64 a → in_u64 (b_lsn (setLSN b a))).
Proof.
  unfold setLSN. destruct (Z.ltb_spec (b_lsn b) a) as [Hlt|Hge]; cbn; [split_and!; [lia|done|done]|].
  split_and!; [done|apply with_lsn_same|intros _; apply Hok].
Qed.

Lemma promote_ok ring maxLag force : sys_ok (exec ring s (RPromote maxLag force)) b.
Proof.
  cbn [exec]. case_decide as Hrole; [done|]. destruct (negb force && _)%Z; [done|].
  pose proof (sk_follower _ _ Hok (or_introl Hrole)) as HR. destruct Hok.
  split; cbn [with_stage with_node s_node s_hist s_fols s_stage promote_flip]; try done.
Qed.

Lemma reseed_ok ring : ∃ b', sys_ok (exec ring s RReseed) b'.
Proof.
  cbn [exec]. destruct (s_stage s) as [|a|] eqn:Est; [by exists b| |by exists b]. exists (setLSN b a).
  pose proof (sk_stage _ _ Hok) as Ha. rewrite Est in Ha. destruct (setLSN_le a) as (L1 & L2 & L3). specialize (L3 Ha).
  pose proof (sk_follower _ _ Hok ltac:(right; by rewrite Est)) as HR. unfold promote_reseed. rewrite (sk_broker _ _ Hok). cbn [fst].
  set (b1 := setLSN b a) in *. assert (Hr1 : b_reserved b1 = b_reserved b) by by rewrite L2. assert (Hs1 : b_subs b1 = b_subs b) by by rewrite L2.
  split; cbn [with_stage with_node s_node s_hist s_fols s_stage with_broker n_broker n_faults n_appliedLSN n_role]; try done; try apply Hok.
  - rewrite L2. destruct (sk_ring _ _ Hok). by split.
  - rewrite L2. apply Hok.
  - eapply up_to_mono; [apply Hok|done].
  - rewrite L2. apply Hok.
  - rewrite Hr1. apply Hok.
  - pose proof (sk_near _ _ Hok) as Hn. change (durable (with_broker (s_node s) b1)) with (durable (s_node s)). lia.
  - intros _. rewrite Hr1. lia.
  - apply fols_mono; try done; by rewrite L2.
Qed.

Lemma persist_ok ring : ∃ b', sys_ok (exec ring s RPersist) b'.
Proof.
  cbn [exec]. destruct (s_stage s) as [|a|] eqn:Est; [by exists b|by exists b|]. exists b.
  pose proof (sk_follower _ _ Hok ltac:(right; by rewrite Est)) as HR.
  assert (H : sys_ok (with_node s (persistReplState (s_node s)).1) b).
  { apply persist_exact; try done; try apply Hok. apply with_lsn_same. }
  destruct H. split; cbn [with_stage with_node s_node s_hist s_fols s_stage] in *; done.
Qed.

End steps.

(** A restart with a ring: the counter resumes from the durable watermark. *)
Lemma init_ok ring role file hist : (0 < ring)%Z → ascending hist →
  let st := default (MkReplState 0 0) (loadReplState file) in
  up_to hist (st_LeaderLSN st) → in_u64 (st_LeaderLSN st) → in_u64 (st_AppliedLSN st) →
  ∃ b', sys_ok (MkSys (initReplication role ring file []) hist ∅ Settled) b'.
Proof.
  intros Hring Ha st Hu H1 H2. unfold initReplication. fold st. rewrite (proj2 (Z.ltb_lt 0 ring) Hring).
  set (b0 := newReplicationBroker ring 0).
  assert (HL : b_lsn (setLSN b0 (st_LeaderLSN st)) = st_LeaderLSN st).
  { unfold setLSN, b0, newReplicationBroker. cbn [b_lsn with_lsn]. destruct (Z.ltb_spec 0 (st_LeaderLSN st)); [done|]. unfold in_u64 in H1. cbn. lia. }
  assert (Hb0 : setLSN b0 (st_LeaderLSN st) = with_lsn b0 (st_LeaderLSN st)) by (rewrite <- HL at 2; unfold setLSN; by destruct (_ <? _)%Z).
  rewrite Hb0. eexists. split; cbn [s_node s_hist s_fols n_broker n_faults n_appliedLSN n_role with_reserved with_lsn b_lsn b_subSeq b_reserved b_subs]; try done.
  - unfold b0, newReplicationBroker. destruct (Z.leb_spec ring 0); [lia|]. split; cbn; [lia|by rewrite length_replicate|lia|lia|done].
  - exists (length hist). by rewrite drop_all.
  - change (st_LeaderLSN st ≤ st_LeaderLSN st + lsnReserveBlock + 1)%Z. unfold lsnReserveBlock. lia.
Qed.

Lemma exec_ok ring s b op : (0 < ring)%Z → sys_ok s b → room s → rop_ok op → orderly s op → ∃ b', sys_ok (exec ring s op) b'.
Proof.
  intros Hring Hok Hroom Hop Hord.
  assert (Hlead : leads s = true → n_role (s_node s) = RoleLeader) by (unfold leads; apply bool_decide_eq_true).
  destruct op as [c e|env| | |from fid now|id|id|id|id lsn|lsn|lsn|maxLag force| | |clean role].
  - cbn [exec]. destruct (leads s); [|by exists b]. eexists. by apply (append_ok s b Hok Hroom (MkRE 0 c e None)); auto.
  - cbn [exec]. destruct (leads s); [|by exists b]. eexists.
    apply (append_ok s b Hok Hroom (MkRE 0 "" zero_entry (Some env))); [cbn in *; lia|auto..].
  - cbn [exec]. destruct (leads s); [|by exists b]. eexists. by apply reserveNext_ok; auto.
  - cbn [exec]. destruct (leads s); [|by exists b]. eexists. by apply barrier_ok; auto.
  - cbn [exec]. destruct (SubscribeReplication _ _ _ _) as [[[n' id] back]|] eqn:E; [|by exists b]. by eapply subscribe_ok.
  - by eapply unsubscribe_ok.
  - by eapply recv_ok.
  - by eapply consumed_ok.
  - by eapply sent_ok.
  - exists b. by apply set_applied_ok.
  - exists b. by apply note_leader_ok.
  - exists b. by apply promote_ok.
  - by eapply reseed_ok.
  - by eapply persist_ok.
  - cbn [exec]. set (n := if clean then close_watermarks (s_node s) else s_node s).
    assert (Hn : n_faults n = [] ∧ up_to (s_hist s) (st_LeaderLSN (durable n)) ∧ in_u64 (st_LeaderLSN (durable n)) ∧ in_u64 (st_AppliedLSN (durable n))).
    { subst n. destruct clean; [|destruct Hok; naive_solver]. unfold close_watermarks, persistReplState, CurrentLSN. rewrite (sk_broker _ _ Hok).
      destruct (persist_spec (s_node s) (b_lsn b)) as (P1 & P2 & _); [apply Hok..|]. rewrite P1, P2. cbn. split_and!; [done|apply Hok..]. }
    destruct Hn as (-> & H1 & H2 & H3). by eapply init_ok; try done; apply Hok.
Qed.

Lemma reach_ok ring s : (0 < ring)%Z → reach ring s → ∃ b, sys_ok s b.
Proof.
  intros Hring. induction 1 as [role|s op _ [b IH] Hroom Hop Hord]; [|by eapply exec_ok].
  apply init_ok; try done; [constructor|by vm_compute..].
Qed.

(** ** What followers and restarts see *)

(** Claim C18: in every state reachable from an empty data directory by any sequence of
    publications, barriers, subscriptions, receptions, promotions, clean restarts and
    crashes, the records handed to a stream followed by those still in its buffer are,
    in order, a prefix of the published records after its resume point, and exactly
    those records while the stream has not been cut: no record is skipped, repeated or
    reordered, and a transaction is there whole or not at all.  The stream resumed at a
    number the leader had reached ([g_from ≤ g_at]; subscribing does not check it), and
    the runs are orderly: watermark writes succeed, no record is numbered between the
    flip of a promotion and its watermark write, and the applied watermark moves on a
    follower only. *)
Theorem feed_exact ring s b id f su :
  (0 < ring)%Z → reach ring s → n_broker (s_node s) = Some b → s_fols s !! id = Some f → b_subs b !! id = Some su →
  (g_from f ≤ g_at f)%Z →
  let want := filter (λ r, (g_from f < re_LSN r)%Z) (s_hist s) in
  (g_got f ++ rs_ch su) `prefix_of` want ∧ (rs_dead su = false → g_got f ++ rs_ch su = want).
Proof.
  intros Hring Hr Hb Hf Hs Hle want. destruct (reach_ok ring s Hring Hr) as [b0 Hok]. pose proof (sk_broker _ _ Hok) as E. rewrite Hb in E.
  injection E as <-. pose proof (sk_fols _ _ Hok id) as Hid. rewrite Hf, Hs in Hid. cbn in Hid.
  destruct (so_feed _ _ _ _ _ Hid) as (l & (h1 & h2 & E1 & H1 & H2 & ->) & Hpre & Hd).
  assert (Hw : want = filter (λ r, (g_from f < re_LSN r)%Z) h1 ++ h2).
  { subst want. rewrite E1, filter_app. f_equal. apply filter_all. eapply Forall_impl; [exact H2|]. cbn. lia. }
  by rewrite Hw.
Qed.

(** Claim C19: sequence numbers strictly increase over the whole life of a data
    directory — through crashes at any point, clean restarts and promotions, crashes
    inside a promotion included — as long as the watermark writes succeed, replication
    stays enabled, no record is numbered between the flip of a promotion and its
    watermark write, and the applied watermark moves on a follower only: no number a
    follower may have seen is given to a second record.  (The last two conditions are
    not enforced by the code: [late_apply_reissues], [promotion_window_reissues].) *)
Theorem lsn_never_reissued ring s :
  (0 < ring)%Z → reach ring s → StronglySorted (λ a b, (re_LSN a < re_LSN b)%Z) (s_hist s).
Proof. intros Hring Hr. destruct (reach_ok ring s Hring Hr) as [b Hok]. apply (sk_asc _ _ Hok). Qed.

(** Claim C23: in every state of such a run, the memory held for one subscriber is
    bounded: its buffer has at most [subBuf] records, and their weight together with
    what the server has received but not released is at most [subBuf] entries, unless
    it is one record alone. *)
Theorem subscriber_bounded ring s b id f su :
  (0 < ring)%Z → reach ring s → n_broker (s_node s) = Some b → s_fols s !! id = Some f → b_subs b !! id = Some su →
  length (rs_ch su) ≤ b_subBuf b ∧
  ((weights (rs_ch su ++ g_unacked f) ≤ Z.of_nat (b_subBuf b))%Z ∨ length (rs_ch su ++ g_unacked f) ≤ 1).
Proof.
  intros Hring Hr Hb Hf Hs. destruct (reach_ok ring s Hring Hr) as [b0 Hok]. pose proof (sk_broker _ _ Hok) as E. rewrite Hb in E.
  injection E as <-. pose proof (sk_fols _ _ Hok id) as Hid. rewrite Hf, Hs in Hid. cbn in Hid.
  rewrite weights_app, <- (so_queued _ _ _ _ _ Hid). split; apply Hid.
Qed.

(** The calls of the streams leave the watermark file alone. *)
Definition streams_only (op : rop) : bool :=
  match op with
  | RSubscribe _ _ _ | RUnsubscribe _ | RRecv _ | RConsumed _ | RSent _ _ | RNoteLeader _ => true
  | _ => false
  end.

Lemma on_broker_file s f : n_file (s_node (on_broker s f)) = n_file (s_node s) ∧ n_faults (s_node (on_broker s f)) = n_faults (s_node s).
Proof. unfold on_broker. by destruct (n_broker (s_node s)). Qed.

Lemma streams_only_file ring ops s : forallb streams_only ops = true →
  let s' := foldl (exec ring) s ops in
  n_file (s_node s') = n_file (s_node s) ∧ n_faults (s_node s') = n_faults (s_node s).
Proof.
  revert s. induction ops as [|op ops IH]; intros s; [done|]. cbn [forallb foldl]. intros [Hop Hops]%andb_true_iff.
  destruct (IH (exec ring s op) Hops) as [-> ->]. clear IH. destruct op as [| | | |from fid now|id|id|id|id lsn| |lsn| | | |]; try done; cbn [exec].
  - unfold SubscribeReplication. destruct (n_broker (s_node s)) as [b|]; [|done]. by destruct (subscribe b from fid now) as [[[??]?]|].
  - apply on_broker_file.
  - destruct (n_broker (s_node s)) as [b|]; [|done]. by destruct (recv b id) as [[??]|].
  - destruct (s_fols s !! id) as [[? ? ? [|re u]]|]; [done| |done]. apply on_broker_file.
  - apply on_broker_file.
Qed.

(** Claim C20: a transaction that reserved its number and whose process then died before
    publishing it — whatever it had made durable, and whatever the streams did in
    between — is not skipped by any follower, provided no other record was published
    after the reservation: after the restart no follower that was caught up (or behind)
    is allowed to resume, so each of them fetches a snapshot, which contains the
    transaction.  (With a publication in between the reserved number can be handed out
    before the crash: [reserved_number_taken_skips].) *)
Theorem unpublished_commit_forces_resync ring s ops role from fid now :
  (0 < ring)%Z → reach ring s → room s → n_role (s_node s) = RoleLeader → s_stage s = Settled →
  (0 ≤ from ≤ CurrentLSN (s_node s))%Z → forallb streams_only ops = true →
  let s' := exec ring (foldl (exec ring) (exec ring s RReserveNext) ops) (RRestart false role) in
  SubscribeReplication (s_node s') from fid now = None.
Proof.
  intros Hring Hr Hroom Hlead Hset Hfrom Hops s'. destruct (reach_ok ring s Hring Hr) as [b Hok].
  assert (El : leads s = true) by (unfold leads; by rewrite bool_decide_eq_true_2).
  pose proof (reserveNext_ok s b Hok Hroom Hlead Hset) as Hok1. destruct (room_lsn s b Hok Hroom) as (E1 & E2 & _ & R1 & R2).
  subst s'. set (s1 := exec ring s RReserveNext) in *. assert (Es : s1 = with_node s (node_reserveNext (s_node s))) by (subst s1; cbn [exec]; by rewrite El).
  rewrite <- Es in Hok1. destruct (streams_only_file ring ops s1 Hops) as [Ff Fq]. cbn [exec s_node]. rewrite Ff, Fq.
  assert (HR : (b_lsn b + 1 ≤ b_reserved (reserveNext b).1)%Z).
  { unfold reserveNext, reserveLocked. rewrite E1. destruct (Z.leb_spec (b_lsn b + 1) (b_reserved b)); cbn; [done|]. rewrite E2. unfold lsnReserveBlock. lia. }
  destruct (sk_durable _ _ Hok1) as [_ HD]. destruct (sk_durable64 _ _ Hok1) as [HD64 _]. rewrite (sk_faults _ _ Hok1).
  unfold initReplication. change (default (MkReplState 0 0) (loadReplState (n_file (s_node s1)))) with (durable (s_node s1)).
  set (L := st_LeaderLSN (durable (s_node s1))) in *. rewrite (proj2 (Z.ltb_lt 0 ring) Hring). cbn [SubscribeReplication n_broker].
  unfold CurrentLSN in Hfrom. rewrite (sk_broker _ _ Hok) in Hfrom. unfold in_u64 in *.
  assert (HL : setLSN (newReplicationBroker ring 0) L = with_lsn (newReplicationBroker ring 0) L).
  { unfold setLSN. cbn [newReplicationBroker b_lsn]. destruct (Z.ltb_spec 0 L); [done|lia]. }
  unfold SubscribeReplication. cbn [n_broker]. rewrite HL. unfold subscribe, oldest. cbn [with_reserved with_lsn b_size b_lsn newReplicationBroker].
  rewrite decide_True by done. rewrite (proj2 (Z.ltb_lt _ _)); [done|]. rewrite (u64_id (from + 1)) by (unfold in_u64; lia).
  destruct Hroom as [Hroom _]. unfold CurrentLSN in Hroom. rewrite (sk_broker _ _ Hok) in Hroom.
  assert (HLn : b_lsn (reserveNext b).1 = b_lsn b) by (unfold reserveNext, reserveLocked; by destruct (_ <=? _)%Z).
  pose proof (sk_near _ _ Hok1) as Hn. fold L in Hn. rewrite HLn in Hn. rewrite u64_id by (unfold in_u64; lia). lia.
Qed.
