(* ===== verification/ReplSample.v ===== *)
(** * Runs of the replication feed

    Concrete runs: a leader with two streams, one of them cut, a crash between the
    reservation and the publication of a transaction, and four runs in which a
    sequence number is given twice or a follower is left behind. *)
From Stdlib Require Import Ascii Lia ZArith.
From stdpp Require Import prelude gmap strings sorting.
From S2P Require Import Prelude GoNum Json Value GoTime Store Wire Segment Sha256 Journal JournalThm Envelope EnvelopeThm Replication ReplicationThm ReplFeed.

Definition run (ring : Z) (ops : list rop) (s : sys) : sys := foldl (exec ring) s ops.

Definition start (role : Role) (ring : Z) : sys := MkSys (initReplication role ring None []) [] ∅ Settled.

Definition ins (id : Z) : Entry := NewInsert zero_time id (Some ∅).

(** The side conditions of a run, checked at each step. *)
Definition room_b (s : sys) : bool :=
  (CurrentLSN (s_node s) + lsnReserveBlock + 2 <? two64)%Z &&
  match n_broker (s_node s) with Some b => (b_subSeq b + 1 <? two64)%Z | None => true end.

Definition rop_b (op : rop) : bool :=
  match op with
  | RSubscribe from _ _ => (0 <=? from)%Z && (from + 1 <? two64)%Z
  | RSetApplied lsn => (0 <=? lsn)%Z && (lsn <? two64)%Z
  | RPublishTx env => 0 <? Weight env
  | _ => true
  end.

#[global] Instance stage_eq_dec : EqDecision stage.
Proof. solve_decision. Defined.

#[global] Instance orderly_dec s op : Decision (orderly s op).
Proof. destruct op; cbn; apply _. Defined.

Fixpoint run_b (ring : Z) (ops : list rop) (s : sys) : bool :=
  match ops with [] => true | op :: ops => room_b s && rop_b op && bool_decide (orderly s op) && run_b ring ops (exec ring s op) end.

Lemma run_reach ring ops s : reach ring s → run_b ring ops s = true → reach ring (run ring ops s).
Proof.
  revert s. induction ops as [|op ops IH]; intros s Hs Hb; [done|]. cbn [run_b] in Hb.
  apply andb_true_iff in Hb as [[[Hr Ho]%andb_true_iff Hord%bool_decide_eq_true]%andb_true_iff Hb]. apply (IH (exec ring s op)); [|done]. constructor; [done|..].
  - apply andb_true_iff in Hr as [H1%Z.ltb_lt H2]. split; [done|]. destruct (n_broker (s_node s)); [by apply Z.ltb_lt|done].
  - destruct op; try done; cbn [rop_b] in Ho.
    + by apply Nat.ltb_lt in Ho.
    + apply andb_true_iff in Ho as [H1%Z.leb_le H2%Z.ltb_lt]. done.
    + apply andb_true_iff in Ho as [H1%Z.leb_le H2%Z.ltb_lt]. done.
  - done.
Qed.

(** A ring of three entries: two entries, a stream from the start, a transaction of
    three operations (which empties the ring), a second stream that reads at once. *)
Definition sample_run : list rop :=
  [RPublish "c" (ins 1); RSubscribe 0 "f1" zero_time; RPublish "c" (ins 2); RPublishTx sample_env; RSubscribe 2 "f2" zero_time;
   RPublish "d" (ins 3); RRecv 2; RConsumed 2; RRestart false RoleLeader; RPublish "c" (ins 4); RSubscribe 4097 "f1" zero_time;
   RPublish "c" (ins 5); RRecv 1; RConsumed 1; RPublishTx sample_env].

Definition sample_sys : sys := run 3 sample_run (start RoleLeader 3).

Lemma sample_reach : reach 3 sample_sys.
Proof. apply run_reach; [constructor|]. vm_compute. reflexivity. Qed.

(** The numbers of this run jump over the reserved block at the crash. *)
Lemma lsn_never_reissued_witness :
  map re_LSN (s_hist sample_sys) = [1; 2; 3; 4; 4098; 4099; 4100]%Z ∧ StronglySorted (λ a b, (re_LSN a < re_LSN b)%Z) (s_hist sample_sys).
Proof. split; [vm_compute; reflexivity|]. apply (lsn_never_reissued 3); [done|apply sample_reach]. Defined.

Definition sample_broker : replicationBroker := default (newReplicationBroker 3 0) (n_broker (s_node sample_sys)).
Definition sample_stream : stream := default (MkStream 0 0 [] []) (s_fols sample_sys !! 1%Z).
Definition sample_sub : replSub := default (MkSub 0 "" [] false zero_time 0 0) (b_subs sample_broker !! 1%Z).

Lemma sample_broker_eq : n_broker (s_node sample_sys) = Some sample_broker.
Proof. vm_compute. reflexivity. Qed.
Lemma sample_stream_eq : s_fols sample_sys !! 1%Z = Some sample_stream.
Proof. vm_compute. reflexivity. Qed.
Lemma sample_sub_eq : b_subs sample_broker !! 1%Z = Some sample_sub.
Proof. vm_compute. reflexivity. Qed.

(** The stream resumed at 4097; it got the backlog and one record, and the transaction
    waits in its buffer. *)
Lemma feed_exact_witness :
  map re_LSN (g_got sample_stream ++ rs_ch sample_sub) = [4098; 4099; 4100]%Z ∧
  (rs_dead sample_sub = false →
   g_got sample_stream ++ rs_ch sample_sub = filter (λ r, (g_from sample_stream < re_LSN r)%Z) (s_hist sample_sys)).
Proof.
  split; [vm_compute; reflexivity|].
  apply (feed_exact 3 sample_sys sample_broker 1 sample_stream sample_sub eq_refl sample_reach sample_broker_eq sample_stream_eq sample_sub_eq).
  vm_compute. discriminate.
Defined.

Lemma subscriber_bounded_witness :
  length (rs_ch sample_sub) ≤ b_subBuf sample_broker ∧
  ((weights (rs_ch sample_sub ++ g_unacked sample_stream) ≤ Z.of_nat (b_subBuf sample_broker))%Z ∨
   length (rs_ch sample_sub ++ g_unacked sample_stream) ≤ 1).
Proof.
  apply (subscriber_bounded 3 sample_sys sample_broker 1 sample_stream sample_sub eq_refl sample_reach sample_broker_eq sample_stream_eq sample_sub_eq).
Defined.

(** The transaction of the next number commits and the process dies: the follower that
    had everything is sent for a snapshot. *)
Lemma unpublished_commit_forces_resync_witness :
  let s' := exec 3 (foldl (exec 3) (exec 3 sample_sys RReserveNext) [RRecv 1; RConsumed 1]) (RRestart false RoleLeader) in
  SubscribeReplication (s_node s') 4100 "f1" zero_time = None.
Proof.
  apply (unpublished_commit_forces_resync 3 sample_sys [RRecv 1; RConsumed 1] RoleLeader 4100 "f1" zero_time eq_refl sample_reach);
    [|vm_compute; reflexivity|vm_compute; reflexivity| |reflexivity].
  - split; vm_compute; [reflexivity|reflexivity].
  - split; vm_compute; discriminate.
Defined.

(** A follower with a ring is promoted by the three steps, and publishes. *)
Definition promoted_run : list rop :=
  [RSetApplied 10; RNoteLeader 10; RPromote 0 false; RReseed; RPersist; RPublish "c" (ins 1); RRestart false RoleLeader; RPublish "c" (ins 2)].

Lemma promoted_reach : reach 3 (run 3 promoted_run (start RoleFollower 3)) ∧
  map re_LSN (s_hist (run 3 promoted_run (start RoleFollower 3))) = [11; 4108]%Z.
Proof. split; [apply run_reach; [constructor|]|]; vm_compute; reflexivity. Qed.

Lemma publish_terminates_bounded_witness :
  let b' := (appendLocked sample_broker (MkRE 0 "c" (ins 6) None)).1.1 in
  ring_ok b' ∧ map re_LSN (records b') = [4101]%Z ∧
  last (records b') = Some (appendLocked sample_broker (MkRE 0 "c" (ins 6) None)).2.
Proof.
  destruct (reach_ok 3 sample_sys eq_refl sample_reach) as [b Hok]. pose proof (sk_broker _ _ Hok) as E.
  rewrite sample_broker_eq in E. apply Some_inj in E. subst b.
  destruct (publish_terminates_bounded sample_broker (MkRE 0 "c" (ins 6) None) (sk_ring _ _ Hok)) as (_ & H1 & H2 & _).
  split; [exact H1|]. split; [vm_compute; reflexivity|exact H2].
Defined.

(** ** A reserved number that another collection takes

    A leader has given 4096 numbers and reserved up to 4097.  A transaction reserves
    its number, which needs no write; another collection publishes 4097, the
    transaction's COMMIT becomes durable, and the process dies before [publishTx].
    The restart restores 4097, and the follower that has 4097 resumes: it never
    learns of the transaction. *)
Definition many (k : nat) (n : node) : node := Nat.iter k (λ n, (node_publish n "c" (ins 1)).1) n.

Lemma reserved_number_taken_skips :
  let n := many 4096 (initReplication RoleLeader 3 None []) in
  CurrentLSN n = 4096%Z ∧
  let n := node_reserveNext n in
  let n := (node_publish n "d" (ins 2)).1 in
  CurrentLSN n = 4097%Z ∧
  let crashed := initReplication RoleLeader 3 (n_file n) [] in
  is_Some (SubscribeReplication crashed 4097 "f" zero_time).
Proof. vm_compute. eauto. Qed.

(** ** Numbers given twice *)

Definition published_lsn (r : node * option ReplicationEntry) : option Z := re_LSN <$> r.2.

(** A follower at 10 with its own ring is promoted while its apply loop is inside the
    record 11; the loop's [SetAppliedLSN] then lowers the watermark the new leader had
    reserved, and after a crash 12 is given to a second record. *)
Lemma late_apply_reissues :
  let n := (SetAppliedLSN (initReplication RoleFollower 3 None []) 10).1 in
  let n := (Promote n 0 true).1 in
  let n := (node_publish n "c" (ins 1)).1 in
  let n := (SetAppliedLSN n 11).1 in
  published_lsn (node_publish n "c" (ins 2)) = Some 12%Z ∧
  let crashed := initReplication RoleLeader 3 (n_file (node_publish n "c" (ins 2)).1) [] in
  published_lsn (node_publish crashed "c" (ins 3)) = Some 12%Z.
Proof. vm_compute. split; reflexivity. Qed.

(** A write between the flip of the role and the reseeding of the counter gets a
    number the old leader gave. *)
Lemma promotion_window_reissues :
  let n := (SetAppliedLSN (initReplication RoleFollower 3 None []) 10).1 in
  n_role (promote_flip n) = RoleLeader ∧
  published_lsn (node_publish (promote_flip n) "c" (ins 1)) = Some 1%Z.
Proof. vm_compute. split; reflexivity. Qed.

(** A follower without a ring is promoted, and restarted later with one: the new
    leader starts again at 1, below the numbers it replicated. *)
Lemma promotion_without_ring_reissues :
  let n := (SetAppliedLSN (initReplication RoleFollower 0 None []) 10).1 in
  let '(n, r) := Promote n 0 true in
  r = Ok (MkPromoteResult RoleLeader 10 0) ∧
  let n := initReplication RoleLeader 3 (n_file (close_watermarks n)) [] in
  n_appliedLSN n = 10%Z ∧ published_lsn (node_publish n "c" (ins 1)) = Some 1%Z.
Proof. vm_compute. split; [reflexivity|]. split; reflexivity. Qed.

(** A damaged watermark file is read as an empty one: the leader starts again at 1, and
    a follower at 5 is allowed to resume although every number it will be sent is one
    it takes for already applied. *)
Lemma damaged_watermark_restarts n0 :
  n0 = initReplication RoleLeader 3 (Some (b_of_s "{")) [] →
  published_lsn (node_publish n0 "c" (ins 1)) = Some 1%Z ∧ is_Some (SubscribeReplication n0 5 "f" zero_time).
Proof. intros ->. split; [vm_compute; reflexivity|]. vm_compute. eauto. Qed.
