(* ===== verification/ReplApply.v ===== *)
(** * Applying a replicated entry: [applyEntry] of [engine/replication.go]

    The follower writes an entry of the feed verbatim, keeping the leader's id and
    revision, and skips one whose effect is already present. *)
From Stdlib Require Import Ascii Lia ZArith.
From stdpp Require Import prelude gmap strings sorting.
From S2P Require Import Prelude GoNum Json Value Filter GoTime Store Wire Codec Segment Index SecondaryIndex Collection Keyed CollInv CollStep CollOps CollThm Envelope.

(** ** The operations *)

(** The string key of the data, if it has one. *)
Definition string_key (e : Entry) : option string :=
  match default ∅ (Data e) !! KeyField with Some (VStr k) => Some k | _ => None end.

(** [replKeyConflictLocked]: [touched] is the ids the same apply rewrites. *)
Definition replKeyConflictLocked (e : Entry) (touched : gset Z) : M unit :=
  if decide (Op e = OpDelete) then ret tt
  else
    match string_key e with
    | None => ret tt
    | Some key =>
        ids <- indexLookup KeyField key ;;
        match ids with
        | None => ret tt
        | Some ids =>
            match filter (λ id, id ≠ ID e ∧ id ∉ touched) ids with
            | [] => ret tt
            | id :: _ => throw (ErrKeyIndexConflict key [id; ID e])
            end
        end
    end.

(** The effect of the entry is already present. *)
Definition already_applied (cur : option IndexEntry) (e : Entry) : bool :=
  if decide (Op e = OpDelete) then match cur with None => true | Some _ => false end
  else match cur with Some ie => (Rev e <=? ie_Rev ie)%Z | None => false end.

Definition bump_idSeq (id : Z) : M unit :=
  modify (λ c, if (id <=? idSeq c)%Z then c else set_idSeq c id).

(** Publishing the entry in the indexes; [cur] is the record it replaces. *)
Definition apply_indexes (e : Entry) (cur : option IndexEntry) (offset : nat) : M unit :=
  if decide (Op e = OpDelete) then index_delete (ID e) ;;; sidxRemoveEntry (ID e)
  else index_set (ID e) offset (Rev e) (ExpiresAt e) (Epoch e) ;;;
       match cur with
       | Some _ => sidxUpdateEntry (ID e) (default ∅ (Data e))
       | None => sidxIndexEntry (ID e) (default ∅ (Data e))
       end.

Definition apply_event (e : Entry) : WatchEvent :=
  if decide (Op e = OpDelete) then MkEvent OpDelete (ID e) None (Ts e) else MkEvent (Op e) (ID e) (Data e) (Ts e).

Definition applyEntry (e : Entry) : M (option cerr) :=
  guard_err (negb (known_op (Op e))) (ErrUnknownOp (Op e)) ;;;
  checkFenced ;;;
  (if bool_decide (is_Some (default ∅ (Data e) !! KeyField)) then ensureKeyIndex else ret tt) ;;;
  c <- get_coll ;;
  let cur := Get (index c) (ID e) in
  if already_applied cur e then ret None
  else
    replKeyConflictLocked e ∅ ;;;
    offset <- appendLocked "apply" e ;;
    syncCommitLocked "apply" ;;;
    apply_indexes e cur offset ;;;
    bump_idSeq (ID e) ;;;
    c <- get_coll ;;
    afterCommit (apply_event e) (needRotate c).

(** ** Steps before the append *)

(** Nothing but the secondary indexes, the clock and the watchers changed. *)
Definition framex (c c' : Collection) : Prop := frame c (set_sidxMap c' (sidxMap c)).

Lemma framex_refl c : framex c c.
Proof. by split. Qed.

Lemma framex_frame c c1 c2 : framex c c1 → frame c1 c2 → framex c c2.
Proof. intros [] []. split; cbn in *; congruence || lia. Qed.

Lemma framex_cinv c c' L : framex c c' → cinv c L → cinv c' L.
Proof.
  intros F Hc. apply (cinv_frame _ _ _ F) in Hc. apply (cinv_sidx _ (sidxMap c')) in Hc. by destruct c'.
Qed.

Lemma framex_later c c' : framex c c' → later c c'.
Proof. intros []. split; cbn in *; try done; try lia. Qed.

Lemma wp_persistSecondary st Q :
  (∀ fs, Q (MkSt (coll st) fs (wall st)) (Ok tt)) → (∀ fs, Q (MkSt (coll st) fs (wall st)) (Err ErrPersist)) → wp persistSecondary st Q.
Proof.
  intros H1 H2. unfold persistSecondary. apply wp_bind. unfold io_call, wp at 1. destruct (next_fault (io st)) as [f fs]. cbn [fst snd].
  destruct (f_ok f); [apply H1|apply H2].
Qed.

Lemma wp_ensureKey st L Q : world st → cinv (coll st) L → fenced (coll st) = None →
  (∀ st' r, world st' → framex (coll st) (coll st') → r = Ok tt ∨ (∃ err, r = Err err ∧ err ≠ ErrWriteOutcomeUnknown) → Q st' r) →
  wp ensureKeyIndex st Q.
Proof.
  intros Hw Hc Hf HQ. unfold ensureKeyIndex, EnsureUniqueIndex, ensureIndex. apply wp_get.
  apply wp_guard; [intros _; apply HQ; [done|apply framex_refl|eauto]|]. intros _.
  apply wp_checkFenced; [intros [x Hx]; congruence|]. intros _.
  destruct (sidxMap (coll st) !! KeyField) as [sx|]; [apply wp_ret, HQ; [done|apply framex_refl|by left]|].
  destruct (rebuild _ _ _) as [s|err]; [|apply wp_throw, HQ; [done|apply framex_refl|eauto]].
  apply wp_modify. apply wp_persistSecondary; intros fs; (apply HQ; [done|by split|eauto]).
Qed.

Lemma wp_keyConflict st e touched Q : world st →
  (∀ st' r, world st' → frame (coll st) (coll st') → r = Ok tt ∨ (∃ err, r = Err err ∧ err ≠ ErrWriteOutcomeUnknown) → Q st' r) →
  wp (replKeyConflictLocked e touched) st Q.
Proof.
  intros Hw HQ. unfold replKeyConflictLocked.
  assert (H0 : Q st (Ok tt)) by (apply HQ; [done|apply frame_refl|by left]).
  case_decide; [done|]. destruct (string_key e) as [key|]; [|done]. apply wp_bind. unfold indexLookup. apply wp_get.
  destruct (indexLookupRaw (coll st) KeyField key) as [ids|]; [|done].
  apply wp_now; [done|]. intros st1 n Hw1 F _ _ _. apply wp_get. apply wp_ret.
  destruct (filter _ _) as [|id l]; (apply HQ; [done|done|]); [by left|right; eauto].
Qed.

(** ** Revisions *)

Lemma records_rev_nonneg ds L id r : records ds L !! id = Some r → (0 ≤ r.2)%Z.
Proof.
  revert id r. induction L as [|x L IH] using rev_ind; intros id r; [done|]. rewrite records_snoc. unfold rec_step.
  destruct (entryVisible x.2 ds); [|apply IH]. case_decide; [|case_decide; [|apply IH]].
  - destruct (decide (ID x.1 = id)) as [<-|Hne]; [|rewrite lookup_insert_ne by done; apply IH].
    rewrite lookup_insert_eq. intros [= <-]. cbn [snd]. set (v := u64 _). pose proof (u64_range v) as Hr.
    assert (0 ≤ v)%Z by apply u64_range. destruct (Z.ltb_spec v (Rev x.1)); lia.
  - destruct (decide (ID x.1 = id)) as [<-|Hne]; [by rewrite lookup_delete_eq|]. rewrite lookup_delete_ne by done. apply IH.
Qed.

Lemma index_rev_nonneg c L id ie : cinv c L → fenced c = None → Get (index c) id = Some ie → (0 ≤ ie_Rev ie)%Z.
Proof.
  intros Hc Hf Hg. pose proof (cinv_lookup c L id Hc Hf) as H. destruct (records (cdecisions c) L !! id) as [[e rev]|] eqn:Er.
  - destruct H as (loc & seg & H1 & H2 & _). rewrite Hg in H1. injection H1 as ->. rewrite H2. exact (records_rev_nonneg _ _ _ _ Er).
  - congruence.
Qed.

(** A newer revision than the record's is taken over as it is. *)
Lemma next_rev_verbatim (m : gmap Z IndexEntry) e : in_u64 (Rev e) → (1 ≤ Rev e)%Z →
  match m !! ID e with Some ie => (0 ≤ ie_Rev ie < Rev e)%Z | None => True end → next_rev m e = Rev e.
Proof.
  unfold next_rev, in_u64. intros H1 H2 H. destruct (m !! ID e) as [ie|].
  - rewrite u64_id by (unfold in_u64; lia). destruct (Z.ltb_spec (ie_Rev ie + 1) (Rev e)); lia.
  - change (u64 (0 + 1)) with 1%Z. destruct (Z.ltb_spec 1 (Rev e)); lia.
Qed.

(** ** The commit *)

Definition applied_index (e : Entry) (idx : Index) (p : string) (o : nat) : Index :=
  if decide (Op e = OpDelete) then Index.Delete idx (ID e) else Set_ idx (ID e) (MkIE p o (Rev e) (ExpiresAt e) (Epoch e)).

Lemma wp_apply_indexes {B} e cur o (k : unit → M B) st Q :
  (∀ sx, wp (k tt) (MkSt (set_sidxMap (set_index (coll st) (applied_index e (index (coll st)) (path (active (coll st))) o)) sx) (io st) (wall st)) Q) →
  wp (bind (apply_indexes e cur o) k) st Q.
Proof.
  intros H. unfold apply_indexes, applied_index in *. apply wp_bind. case_decide.
  - unfold index_delete, sidxRemoveEntry. apply wp_modify. apply H.
  - unfold index_set. apply wp_modify. destruct cur; apply H.
Qed.

Lemma bump_eq c id : (if (id <=? idSeq c)%Z then c else set_idSeq c id) = set_idSeq c (Z.max (idSeq c) id).
Proof.
  destruct (Z.leb_spec id (idSeq c)); [rewrite Z.max_l by lia|rewrite Z.max_r by lia; done]. by destruct c.
Qed.

Lemma cinv_at_bump c es ea v : cinv_at c es ea → (idSeq c ≤ v)%Z → cinv_at (set_idSeq c v) es ea.
Proof.
  intros [] Hv. split; try done; cbn; [|lia]. eapply Forall_impl; [done|]. cbn. intros x [H1 H2]. split; [lia|done].
Qed.

Lemma appended_bump c ea e s1 v : appended c ea e s1 → appended (set_idSeq c v) ea e s1.
Proof. intros []. by split. Qed.

Lemma applied_index_spec e idx p o L c : cinv c L → fenced c = None → idx = index c → known_op (Op e) = true → in_u64 (Rev e) →
  (Op e ≠ OpDelete → (1 ≤ Rev e)%Z) → already_applied (Get idx (ID e)) e = false →
  entries (applied_index e idx p o) = applyOne (entries idx) p o e.
Proof.
  intros Hc Hf -> Hk Hr H1 Ha. unfold applied_index, applyOne, already_applied in *. unfold known_op in Hk. apply bool_decide_eq_true in Hk.
  case_decide as Hd.
  - rewrite decide_False by (rewrite Hd; intros [?|?]; done). done.
  - rewrite decide_True by naive_solver. cbn [entries Set_]. rewrite next_rev_verbatim; [done|done|by apply H1|].
    destruct (entries (index c) !! ID e) as [ie|] eqn:E; [|done]. unfold Get in Ha. rewrite E in Ha. apply Z.leb_gt in Ha.
    split; [by eapply index_rev_nonneg|done].
Qed.

Lemma mayExpire_applied e idx p o : mayExpire_ok idx → mayExpire_ok (applied_index e idx p o).
Proof. intros H. unfold applied_index. case_decide; [by apply mayExpire_ok_Delete|by apply mayExpire_ok_Set]. Qed.

(** What the end of an apply leaves: the entry in the log, or nothing, or an outcome
    that is unknown and fences the collection.  The follower's own feed is untouched. *)
Definition apply_outcome {A} (c : Collection) (L : list line) (e : Entry) (c' : Collection) (r : res cerr A) : Prop :=
  later c c' ∧ broker c' = broker c ∧
  match r with
  | Ok _ => cinv c' (L ++ [stored e])
  | Err ErrWriteOutcomeUnknown =>
      is_Some (fenced c') ∧ (cinv c' L ∨ cinv (set_idSeq c' (Z.max (idSeq c') (ID e))) (L ++ [stored e]))
  | Err _ => cinv c' L ∧ fenced c' = fenced c
  end.

Lemma wp_apply_tail e cur st L :
  world st → cinv (coll st) L → fenced (coll st) = None → (segSeq (coll st) + 1 < two64)%Z → plain_readable e →
  known_op (Op e) = true → (Op e ≠ OpDelete → (1 ≤ Rev e)%Z) → already_applied (Get (index (coll st)) (ID e)) e = false →
  wp (offset <- appendLocked "apply" e ;; syncCommitLocked "apply" ;;; apply_indexes e cur offset ;;; bump_idSeq (ID e) ;;;
      c <- get_coll ;; afterCommit (apply_event e) (needRotate c)) st
     (λ st' r, world st' ∧ apply_outcome (coll st) L e (coll st') r).
Proof.
  destruct st as [c fs0 w0]. cbn [coll io wall]. intros Hw Hcv Hf Hroom He Hk H1 Ha. pose proof Hcv as (es & ea & Hc & HL).
  assert (Hsame : ∀ st', wall st' = w0 → clockFloor (coll st') = clockFloor c → world st') by (intros st' E1 E2; by eapply world_same).
  assert (HL' : ∀ o, map snd (concat es ++ ea ++ [(o, stored e)]) = L ++ [stored e])
    by (intros o; rewrite HL, app_assoc, (map_app snd (concat es ++ ea)); done).
  assert (Hrev : in_u64 (Rev e)) by apply He.
  apply (wp_appendLocked _ _ _ _ es ea); [done|done|done|..]; cbn [coll wall].
  - intros s1 fs1 Ap. apply wp_syncCommit; [done|..]; cbn [coll wall].
    + intros fs2. apply wp_apply_indexes. cbn [coll io wall]. intros sx. apply wp_modify. apply wp_get. cbn [coll io wall]. rewrite bump_eq.
      set (c3 := set_idSeq _ _).
      assert (Hc3 : cinv c3 (L ++ [stored e])).
      { exists es, (ea ++ [(size (active c), stored e)]). split; [|by rewrite HL'].
        pose proof (cinv_commit (set_idSeq c (Z.max (idSeq c) (ID e))) es ea e s1
          (applied_index e (index c) (path (active c)) (size (active c)))) as Hcommit.
        assert (Hci : cinv_at (set_index (set_active (set_idSeq c (Z.max (idSeq c) (ID e))) s1)
          (applied_index e (index c) (path (active c)) (size (active c)))) es (ea ++ [(size (active c), stored e)])).
        { apply Hcommit; try done.
          - apply cinv_at_bump; [done|lia].
          - by apply appended_bump.
          - cbn. lia.
          - by eapply applied_index_spec.
          - apply mayExpire_applied. by apply (ca_expire _ _ _ Hc). }
        assert (E3 : c3 = set_sidxMap (set_index (set_active (set_idSeq c (Z.max (idSeq c) (ID e))) s1)
          (applied_index e (index c) (path s1) (size (active c)))) sx) by done.
        rewrite E3, (ap_path _ _ _ _ Ap). destruct Hci. by split. }
      assert (Hcase := wp_afterCommit (A := option cerr) (apply_event e) (needRotate c3) (λ p, p) (MkSt c3 fs2 w0) (L ++ [stored e])
        (λ st' r, world st' ∧ apply_outcome c L e (coll st') r)).
      unfold wp, bind, ret in Hcase |- *. cbn [coll] in Hcase.
      destruct (afterCommit (apply_event e) (needRotate c3) (MkSt c3 fs2 w0)) as [st' r]. cbn [fst snd] in *.
      assert (Hfin : world st' ∧ apply_outcome c L e (coll st') (match r with Ok a => Ok a | Err e0 => Err e0 end)).
      { destruct r; (apply Hcase; [by apply Hsame|done|done|]); intros st2 post Hw2 T Hc2 Hb _; (split; [done|]);
          (split; [|split; [exact Hb|done]]); (apply (later_trans_rot _ c3); [|done|exact T]); split; cbn; try done; try lia. }
      by destruct r.
    + intros fs2. split; [by apply Hsame|]. split; [split; cbn; try done; try lia; intros [? ?]; congruence|]. split; [done|].
      split; [by eexists|]. right. exists es, (ea ++ [(size (active c), stored e)]). split; [|by rewrite HL'].
      pose proof (cinv_append_fenced (set_idSeq c (Z.max (idSeq c) (ID e))) es ea e s1 "apply") as Hx.
      apply Hx; [apply cinv_at_bump; [done|lia]|by apply appended_bump|cbn; lia|done].
  - intros s1 fs1 err U Hp. split; [by apply Hsame|]. split; [split; cbn; done || lia|]. split; [done|].
    split; [|done]. exists es, ea. split; [by apply cinv_undone|done].
  - intros s1 fs1 why U. split; [by apply Hsame|]. split; [split; cbn; try done; try lia; intros [? ?]; congruence|]. split; [done|].
    split; [by eexists|]. left. exists es, ea. split; [by apply cinv_undone_fenced|done].
Qed.

(** ** The contract of an apply *)

Definition apply_contract (c : Collection) (L : list line) (e : Entry) (c' : Collection) (r : res cerr (option cerr)) : Prop :=
  later c c' ∧ broker c' = broker c ∧
  match r with
  | Ok _ => fenced c = None ∧ cinv c' (if already_applied (Get (index c) (ID e)) e then L else L ++ [stored e])
  | Err ErrWriteOutcomeUnknown =>
      fenced c = None ∧ is_Some (fenced c') ∧
      (cinv c' L ∨ cinv (set_idSeq c' (Z.max (idSeq c') (ID e))) (L ++ [stored e]))
  | Err _ => cinv c' L ∧ fenced c' = fenced c
  end.

(** An entry of the feed: a line the log can hold, with a revision. *)
Definition shippable (e : Entry) : Prop := plain_readable e ∧ (Op e ≠ OpDelete → (1 ≤ Rev e)%Z).

Lemma refused_contract c L e c' err : framex c c' → cinv c L → err ≠ ErrWriteOutcomeUnknown → apply_contract c L e c' (Err err).
Proof.
  intros F Hc Hne. split; [by apply framex_later|]. split; [apply F|].
  assert (H : cinv c' L ∧ fenced c' = fenced c) by (split; [by eapply framex_cinv|apply F]).
  by destruct err.
Qed.

Lemma apply_entry_spec st L e :
  world st → cinv (coll st) L → (segSeq (coll st) + 1 < two64)%Z → shippable e →
  wp (applyEntry e) st (λ st' r, world st' ∧ apply_contract (coll st) L e (coll st') r).
Proof.
  intros Hw Hc Hroom [He H1]. unfold applyEntry. pose proof (refused_contract (coll st) L e) as Href.
  apply wp_guard. { intros _. split; [done|]. by apply Href; [apply framex_refl|..]. }
  intros Hk. apply negb_false_iff in Hk.
  apply wp_checkFenced. { intros _. split; [done|]. by apply Href; [apply framex_refl|..]. }
  intros Hf. apply wp_bind.
  assert (Hnext : ∀ st1, world st1 → framex (coll st) (coll st1) →
    wp (c <- get_coll ;; let cur := Get (index c) (ID e) in
        if already_applied cur e then ret None
        else replKeyConflictLocked e ∅ ;;; offset <- appendLocked "apply" e ;; syncCommitLocked "apply" ;;;
             apply_indexes e cur offset ;;; bump_idSeq (ID e) ;;; c <- get_coll ;; afterCommit (apply_event e) (needRotate c)) st1
       (λ st' r, world st' ∧ apply_contract (coll st) L e (coll st') r)).
  { intros st1 Hw1 F. apply wp_get. cbv zeta. rewrite (fr_index _ _ F : index (coll st1) = index (coll st)).
    destruct (already_applied (Get (index (coll st)) (ID e)) e) eqn:Ea.
    { apply wp_ret. split; [done|]. split; [by apply framex_later|]. split; [apply F|]. rewrite Ea. split; [done|]. by eapply framex_cinv. }
    apply wp_bind. apply wp_keyConflict; [done|]. intros st2 r Hw2 F2 [->|(err & -> & Hne)].
    2: { split; [done|]. apply Href; [|done|done]. by eapply framex_frame. }
    pose proof (framex_frame _ _ _ F F2) as F3.
    eapply wp_mono; [apply (wp_apply_tail e _ st2 L); try done|].
    - by eapply framex_cinv.
    - by rewrite (fr_fenced _ _ F3 : fenced (coll st2) = fenced (coll st)).
    - by rewrite (fr_segSeq _ _ F3 : segSeq (coll st2) = segSeq (coll st)).
    - by rewrite (fr_index _ _ F3 : index (coll st2) = index (coll st)).
    - intros st' r (Hw' & T & Hb & Hr). split; [done|].
      assert (Hf2 : fenced (coll st2) = fenced (coll st)) by apply F3.
      split; [apply (later_trans_rot _ (coll st2)); [by apply framex_later|apply F3|done]|]. split; [by rewrite Hb, (fr_broker _ _ F3 : broker (coll st2) = broker (coll st))|].
      destruct r as [post|err]; [by rewrite Ea|]. destruct err; try (destruct Hr as [Hr1 Hr2]; split; [done|congruence]).
      by split. }
  case_bool_decide.
  - apply (wp_ensureKey st L); [done|done|done|]. intros st1 r Hw1 F [->|(err & -> & Hne)]; [by apply Hnext|].
    split; [done|]. by apply Href.
  - apply wp_ret. apply Hnext; [done|apply framex_refl].
Qed.

(** ** The records a feed stands for *)

(** The effect of an entry on the records, as the follower applies it. *)
Definition rep_step (m : gmap Z (Entry * Z)) (e : Entry) : gmap Z (Entry * Z) :=
  if decide (Op e = OpDelete) then delete (ID e) m
  else match m !! ID e with
       | Some r => if (Rev e <=? r.2)%Z then m else <[ID e := ((stored e).1, Rev e)]> m
       | None => <[ID e := ((stored e).1, Rev e)]> m
       end.

Lemma rep_step_records ds L e c : cinv c L → fenced c = None → cdecisions c = ds → shippable e → known_op (Op e) = true →
  records ds (if already_applied (Get (index c) (ID e)) e then L else L ++ [stored e]) = rep_step (records ds L) e.
Proof.
  intros Hc Hf Hds [[Hwf _] H1] Hk. pose proof (cinv_lookup c L (ID e) Hc Hf) as Hl. rewrite Hds in Hl.
  unfold already_applied, rep_step. unfold known_op in Hk. apply bool_decide_eq_true in Hk.
  assert (Hrec : Op e ≠ OpDelete → match records ds L !! ID e with Some r => (r.2 < Rev e)%Z | None => True end →
    records ds (L ++ [stored e]) = <[ID e := ((stored e).1, Rev e)]> (records ds L)).
  { intros Hd Hr. rewrite records_snoc. unfold rec_step, stored. cbn [fst snd set_crc ID Op Rev entryVisible].
    rewrite decide_True by naive_solver. f_equal. f_equal. pose proof (wf_rev _ Hwf) as Hu. unfold in_u64 in Hu. specialize (H1 Hd).
    destruct (records ds L !! ID e) as [[e0 rev]|] eqn:Er; cbn [snd] in *.
    - pose proof (records_rev_nonneg _ _ _ _ Er) as Hn. cbn in Hn. rewrite u64_id by (unfold in_u64; lia). destruct (Z.ltb_spec (rev + 1) (Rev e)); lia.
    - change (u64 (0 + 1)) with 1%Z. destruct (Z.ltb_spec 1 (Rev e)); lia. }
  case_decide as Hd.
  - assert (Hdel : records ds (L ++ [stored e]) = delete (ID e) (records ds L)).
    { rewrite records_snoc. unfold rec_step, stored. cbn [fst snd set_crc ID Op entryVisible].
      rewrite decide_False by (rewrite Hd; by intros [?|?]). by rewrite decide_True. }
    destruct (records ds L !! ID e) as [[e0 rev]|] eqn:Er; [destruct Hl as (loc & seg & -> & _); exact Hdel|].
    rewrite Hl. by rewrite delete_id.
  - destruct (records ds L !! ID e) as [[e0 rev]|] eqn:Er.
    + destruct Hl as (loc & seg & -> & Hrev & _). rewrite Hrev. cbn [snd]. destruct (Z.leb_spec (Rev e) rev); [done|]. by apply Hrec.
    + rewrite Hl. by apply Hrec.
Qed.
