(* ===== verification/ReplConverge.v ===== *)
(** * A follower holds the leader's records

    The feed a collection publishes is its log; applying it — again, from an
    earlier point, over a snapshot taken meanwhile — leaves the follower with the
    leader's records. *)
From Stdlib Require Import Ascii Lia ZArith.
From stdpp Require Import prelude gmap strings sorting.
From S2P Require Import Prelude GoNum Json Value Filter GoTime Store Wire Codec Segment Index SecondaryIndex Collection Keyed CollInv CollStep CollOps CollThm Envelope ReplApply.

(** ** The history of one record *)

Definition no_delete (l : list Entry) : Prop := Forall (λ e, Op e ≠ OpDelete) l.
Definition rev_sorted (l : list Entry) : Prop := StronglySorted (λ a b, (Rev a < Rev b)%Z) l.

(** Writes with increasing revisions, then perhaps one delete. *)
Definition id_history (l : list Entry) : Prop :=
  ∃ us ds, l = us ++ ds ∧ no_delete us ∧ rev_sorted us ∧ (ds = [] ∨ ∃ d, ds = [d] ∧ Op d = OpDelete).

Definition of_id (id : Z) (l : list Entry) : list Entry := filter (λ e, ID e = id) l.

(** The log of a leader: no id is written again after its delete. *)
Definition leader_log (l : list Entry) : Prop := ∀ id, id_history (of_id id l).

(** The effect of an entry on the record of its id. *)
Definition one_step (o : option (Entry * Z)) (e : Entry) : option (Entry * Z) :=
  if decide (Op e = OpDelete) then None
  else match o with
       | Some r => if (Rev e <=? r.2)%Z then o else Some ((stored e).1, Rev e)
       | None => Some ((stored e).1, Rev e)
       end.

Lemma rep_step_lookup m e id : rep_step m e !! id = if decide (ID e = id) then one_step (m !! id) e else m !! id.
Proof.
  unfold rep_step, one_step. case_decide as Hd.
  - case_decide as Hi; [subst id; by rewrite lookup_delete_eq|by rewrite lookup_delete_ne].
  - case_decide as Hi.
    + subst id. destruct (m !! ID e) as [r|] eqn:E; [destruct (_ <=? _)%Z|]; by rewrite ?E, ?lookup_insert_eq.
    + destruct (m !! ID e) as [r|] eqn:E; [destruct (_ <=? _)%Z|]; by rewrite ?lookup_insert_ne.
Qed.

Lemma rep_steps_lookup l m id : foldl rep_step m l !! id = foldl one_step (m !! id) (of_id id l).
Proof.
  revert m. induction l as [|e l IH]; intros m; [done|]. cbn [foldl]. rewrite IH, rep_step_lookup. unfold of_id. cbn [filter list_filter].
  case_decide; done.
Qed.

Lemma steps_write us : no_delete us → rev_sorted us → ∀ e, foldl one_step None (us ++ [e]) =
  if decide (Op e = OpDelete) then None else
  match last us with Some u => one_step (Some ((stored u).1, Rev u)) e | None => Some ((stored e).1, Rev e) end.
Proof.
  induction us as [|u us IH] using rev_ind; intros Hn Hs e; [cbn [app foldl]; unfold one_step; case_decide; done|].
  unfold no_delete in Hn. apply Forall_app in Hn as [Hn1 Hn2]. apply Forall_cons in Hn2 as [Hn2 _].
  apply StronglySorted_app in Hs as (Hlt & Hs & _).
  rewrite foldl_app, IH by done. rewrite last_snoc, (decide_False (P := Op u = OpDelete)) by done. cbn [foldl].
  assert (Hu : match last us with Some u0 => one_step (Some ((stored u0).1, Rev u0)) u | None => Some ((stored u).1, Rev u) end = Some ((stored u).1, Rev u)).
  { destruct (last us) as [u0|] eqn:El; [|done]. unfold one_step. rewrite decide_False by done. cbn [snd].
    assert (Rev u0 < Rev u)%Z by (apply Hlt; [by apply last_Some_elem_of|by left]). destruct (Z.leb_spec (Rev u) (Rev u0)); [lia|done]. }
  rewrite Hu. unfold one_step at 1. case_decide; [done|]. unfold one_step. by rewrite decide_False.
Qed.

(** The record at the end of its history. *)
Definition id_final (us ds : list Entry) : option (Entry * Z) :=
  match ds, last us with [], Some u => Some ((stored u).1, Rev u) | _, _ => None end.

Lemma steps_final us ds : no_delete us → rev_sorted us → ds = [] ∨ (∃ d, ds = [d] ∧ Op d = OpDelete) →
  foldl one_step None (us ++ ds) = id_final us ds.
Proof.
  intros Hn Hs [->|(d & -> & Hd)].
  - rewrite app_nil_r. destruct us as [|u us _] using rev_ind; [done|]. unfold id_final. rewrite last_snoc.
    unfold no_delete in Hn. apply Forall_app in Hn as [Hn1 Hn2]. apply Forall_cons in Hn2 as [Hn2 _].
    apply StronglySorted_app in Hs as (Hlt & Hs & _).
    rewrite steps_write by done. rewrite decide_False by done. destruct (last us) as [u0|] eqn:El; [|done].
    unfold one_step. rewrite decide_False by done. cbn [snd].
    assert (Rev u0 < Rev u)%Z by (apply Hlt; [by apply last_Some_elem_of|by left]). destruct (Z.leb_spec (Rev u) (Rev u0)); [lia|done].
  - rewrite steps_write by done. rewrite decide_True by done. by destruct us.
Qed.

(** Applying the end of the history once more changes nothing. *)
Lemma steps_again l1 l2 : id_history (l1 ++ l2) → foldl one_step (foldl one_step None (l1 ++ l2)) l2 = foldl one_step None (l1 ++ l2).
Proof.
  intros (us & ds & E & Hn & Hs & Hd). rewrite E, steps_final by done. destruct Hd as [->|(d & -> & Hd)].
  - rewrite app_nil_r in E. subst us. apply Forall_app in Hn as [_ Hn2]. unfold id_final.
    destruct (last (l1 ++ l2)) as [u|] eqn:El.
    2: { apply last_None in El. apply app_nil in El as [-> ->]. done. }
    assert (Hle : Forall (λ e, (Rev e ≤ Rev u)%Z) l2).
    { apply Forall_forall. intros e He. apply last_Some in El as [l El]. rewrite El in Hs.
      assert (Hin : e ∈ l ++ [u]) by (rewrite <- El; apply elem_of_app; by right).
      apply elem_of_app in Hin as [Hin| ->%list_elem_of_singleton]; [|lia].
      apply StronglySorted_app in Hs as (Hlt & _). specialize (Hlt e u Hin ltac:(by left)). cbn in Hlt. lia. }
    clear -Hn2 Hle. induction l2 as [|e l2 IH]; [done|]. apply Forall_cons in Hn2 as [Hne Hn2]. apply Forall_cons in Hle as [He Hle].
    cbn [foldl]. unfold one_step at 2. rewrite decide_False by done. cbn [snd]. rewrite (proj2 (Z.leb_le _ _)) by done. by apply IH.
  - change (id_final us [d]) with (@None (Entry * Z)). destruct l2 as [|e l2 _] using rev_ind; [done|].
    rewrite app_assoc in E. apply app_inj_2 in E as [_ E]; [|done]. injection E as ->. rewrite foldl_app. cbn [foldl].
    unfold one_step. by rewrite decide_True.
Qed.

(** A follower whose state already has the end of the feed. *)
Lemma overlap_harmless l1 l2 : leader_log (l1 ++ l2) → foldl rep_step (foldl rep_step ∅ (l1 ++ l2)) l2 = foldl rep_step ∅ (l1 ++ l2).
Proof.
  intros Hl. apply map_eq. intros id. rewrite !rep_steps_lookup, lookup_empty. specialize (Hl id). unfold of_id in *. rewrite filter_app in *.
  by apply steps_again.
Qed.

Lemma leader_log_prefix l1 l2 : leader_log (l1 ++ l2) → leader_log l1.
Proof.
  intros Hl id. destruct (Hl id) as (us & ds & E & Hn & Hs & Hd). unfold of_id in *. rewrite filter_app in E.
  destruct Hd as [->|(d & -> & Hd)].
  - rewrite app_nil_r in E. exists (filter (λ e, ID e = id) l1), []. rewrite <- E in Hn, Hs. apply Forall_app in Hn as [Hn _].
    apply StronglySorted_app in Hs as (_ & Hs & _). split_and!; [by rewrite app_nil_r|done|done|by left].
  - destruct (filter (λ e, ID e = id) l2) as [|x r _] using rev_ind.
    + rewrite app_nil_r in E. rewrite E. exists us, [d]. split_and!; try done. right. by exists d.
    + rewrite app_assoc in E. apply app_inj_2 in E as [E _]; [|done]. exists (filter (λ e, ID e = id) l1), []. rewrite <- E in Hn, Hs.
      apply Forall_app in Hn as [Hn _]. apply StronglySorted_app in Hs as (_ & Hs & _). split_and!; [by rewrite app_nil_r|done|done|by left].
Qed.

(** ** The follower's runs *)

Fixpoint apply_all (es : list Entry) (st : St) : St * list (res cerr (option cerr)) :=
  match es with
  | [] => (st, [])
  | e :: es' =>
      let '(st1, r) := applyEntry e st in
      let '(st2, rs) := apply_all es' st1 in
      (st2, r :: rs)
  end.

Definition ops_known (l : list Entry) : Prop := Forall (λ e, shippable e ∧ known_op (Op e) = true) l.

Lemma apply_all_records es : ∀ st L st' rs,
  world st → cinv (coll st) L → (segSeq (coll st) + Z.of_nat (length es) < two64)%Z → ops_known es →
  apply_all es st = (st', rs) → Forall is_ok rs →
  ∃ L', cinv (coll st') L' ∧ cdecisions (coll st') = cdecisions (coll st) ∧ broker (coll st') = broker (coll st) ∧
    records (cdecisions (coll st)) L' = foldl rep_step (records (cdecisions (coll st)) L) es.
Proof.
  induction es as [|e es IH]; intros st L st' rs Hw Hc Hroom Hk; cbn [apply_all].
  { intros [= <- <-] _. by exists L. }
  destruct (applyEntry e st) as [st1 r] eqn:E1. destruct (apply_all es st1) as [st2 rs2] eqn:E2. intros [= <- <-] Hok.
  apply Forall_cons in Hok as [Hr Hok]. apply Forall_cons in Hk as [[Hs Hke] Hk]. cbn [length] in Hroom.
  destruct (wp_run _ _ _ _ _ (apply_entry_spec st L e Hw Hc ltac:(lia) Hs) E1) as (Hw1 & T & Hb & Hres).
  destruct r as [post|]; [|done]. destruct Hres as [Hf Hc1].
  destruct (IH st1 _ st2 rs2 Hw1 Hc1) as (L' & H1 & H2 & H3 & H4); [pose proof (lt_segSeq _ _ T); lia|done|done|done|].
  exists L'. rewrite (lt_decisions _ _ T) in H2, H4. split; [done|]. split; [done|]. split; [congruence|].
  rewrite H4. cbn [foldl]. by rewrite (rep_step_records _ L e (coll st)).
Qed.

(** ** The leader's feed *)

(** The state of one record against its history: absent, written [length h] times, or deleted. *)
Definition id_state (h : list Entry) (o : option (Entry * Z)) : Prop :=
  id_history h ∧
  match o with
  | Some r => no_delete h ∧ h ≠ [] ∧ r.2 = Z.of_nat (length h) ∧ Forall (λ e, (Rev e ≤ r.2)%Z) h
  | None => h = [] ∨ ∃ us d, h = us ++ [d] ∧ Op d = OpDelete
  end.

Record feed_inv (c : Collection) (fd : list Entry) : Prop := {
  fi_broker : broker c = Some fd;
  fi_log : cinv c (map stored fd);
  fi_known : ops_known fd;
  fi_records : records (cdecisions c) (map stored fd) = foldl rep_step ∅ fd;
  fi_ids : ∀ id, id_state (of_id id fd) (records (cdecisions c) (map stored fd) !! id)
}.

Lemma of_id_snoc id l e : of_id id (l ++ [e]) = if decide (ID e = id) then of_id id l ++ [e] else of_id id l.
Proof.
  unfold of_id. rewrite filter_app. case_decide as H; [by rewrite filter_cons_True|]. by rewrite filter_cons_False, app_nil_r.
Qed.

Lemma logged_ids c L e : cinv c L → e ∈ L → (ID e.1 ≤ idSeq c)%Z.
Proof.
  intros (es & ea & Hc & ->) (x & -> & Hx)%list_elem_of_fmap. pose proof (ca_ids _ _ _ Hc) as H. rewrite Forall_forall in H. by apply H.
Qed.

(** The entry of a write on a leader: the record's next revision, or its delete. *)
Definition next_entry (o : option (Entry * Z)) (e : Entry) : Prop :=
  match o with
  | None => Op e = OpInsert ∧ Rev e = 1%Z
  | Some r => (Op e = OpUpdate ∧ Rev e = (r.2 + 1)%Z) ∨ Op e = OpDelete
  end.

Lemma id_state_next h o e : id_state h o → next_entry o e → (o = None → h = []) →
  id_state (h ++ [e]) (one_step o e).
Proof.
  intros [Hh Hs] Hn Hnone. destruct o as [r|]; cbn [next_entry] in Hn.
  - destruct Hs as (H1 & H2 & H3 & H4).
    assert (Hsort : rev_sorted h).
    { destruct Hh as (us & ds & -> & _ & Hus & [->|(d & -> & Hd)]); [by rewrite app_nil_r|].
      apply Forall_app in H1 as [_ [H1 _]%Forall_cons]. done. }
    destruct Hn as [[Hop Hrev]|Hop]; unfold one_step.
    + rewrite decide_False by (rewrite Hop; done). destruct (Z.leb_spec (Rev e) r.2); [lia|]. split.
      * exists (h ++ [e]), []. rewrite app_nil_r. split_and!; [done| | |by left].
        -- apply Forall_app. split; [done|]. repeat constructor. by rewrite Hop.
        -- apply StronglySorted_app_2; [|done|by repeat constructor]. intros a b Ha ->%list_elem_of_singleton.
           rewrite Forall_forall in H4. specialize (H4 a Ha). cbn in H4. lia.
      * cbn [snd]. split_and!.
        -- apply Forall_app. split; [done|]. repeat constructor. by rewrite Hop.
        -- by destruct h.
        -- rewrite length_app. cbn. lia.
        -- apply Forall_app. split; [|by repeat constructor]. eapply Forall_impl; [exact H4|]. cbn. lia.
    + rewrite decide_True by done. split; [|right; by exists h, e]. exists h, [e]. split_and!; try done. right. by exists e.
  - destruct Hn as [Hop Hrev]. rewrite (Hnone eq_refl). unfold one_step. rewrite decide_False by (rewrite Hop; done). cbn [app]. split.
    + exists [e], []. split_and!; [done|repeat constructor; by rewrite Hop|by repeat constructor|by left].
    + cbn [snd]. split_and!; [repeat constructor; by rewrite Hop|done|done|]. repeat constructor. lia.
Qed.

(** One more acknowledged write. *)
Lemma feed_inv_snoc c c' fd e :
  feed_inv c fd → fenced c = None → cdecisions c' = cdecisions c → cinv c' (map stored fd ++ [stored e]) → broker c' = Some (fd ++ [e]) →
  shippable e → known_op (Op e) = true → next_entry (records (cdecisions c) (map stored fd) !! ID e) e →
  (records (cdecisions c) (map stored fd) !! ID e = None → of_id (ID e) fd = []) →
  feed_inv c' (fd ++ [e]).
Proof.
  intros [F1 F2 F3 F4 F5] Hf Hds Hc Hb Hs Hk Hn Hfresh.
  assert (Hal : already_applied (Get (index c) (ID e)) e = false).
  { pose proof (cinv_lookup c _ (ID e) F2 Hf) as Hl. unfold already_applied. destruct (records _ _ !! ID e) as [[e0 rev]|]; cbn [next_entry snd] in *.
    - destruct Hl as (loc & seg & -> & Hrev & _). destruct Hn as [[Hop Hr]|Hop]; [rewrite decide_False by (by rewrite Hop)|by rewrite decide_True].
      apply Z.leb_gt. lia.
    - rewrite Hl. destruct Hn as [Hop _]. by rewrite decide_False by (by rewrite Hop). }
  assert (Hrec : records (cdecisions c) (map stored (fd ++ [e])) = rep_step (records (cdecisions c) (map stored fd)) e).
  { rewrite <- (rep_step_records (cdecisions c) (map stored fd) e c) by done. by rewrite Hal, map_app. }
  split.
  - done.
  - by rewrite map_app.
  - apply Forall_app. split; [done|]. by constructor; [|constructor].
  - rewrite Hds, Hrec, F4, foldl_app. done.
  - intros id. rewrite Hds, Hrec, rep_step_lookup, of_id_snoc. specialize (F5 id). case_decide as Hid; [|done]. subst id.
    by apply id_state_next.
Qed.

(** What a write on a leader publishes. *)
Lemma wentry_next c fd o now e :
  feed_inv c fd → fenced c = None → enc_good c → wop_ok o → room c → (0 ≤ clockFloor c)%Z → (now < two63)%Z →
  (Z.of_nat (length fd) + 1 < two64)%Z → wentry c o now e →
  shippable e ∧ known_op (Op e) = true ∧ next_entry (records (cdecisions c) (map stored fd) !! ID e) e ∧
  (records (cdecisions c) (map stored fd) !! ID e = None → of_id (ID e) fd = []).
Proof.
  intros [F1 F2 F3 F4 F5] Hf Henc Ho [Hr1 Hr2] Hcl Hnow Hlen Hwe.
  assert (Hup : ∀ id cur, Get (index c) id = Some cur → ∃ r, records (cdecisions c) (map stored fd) !! id = Some r ∧ r.2 = ie_Rev cur ∧
    (0 ≤ r.2)%Z ∧ (r.2 + 1 < two64)%Z).
  { intros id cur Hg. pose proof (cinv_lookup c _ id F2 Hf) as Hl. specialize (F5 id). destruct (records _ _ !! id) as [[e0 rev]|] eqn:Er; [|congruence].
    destruct Hl as (loc & seg & Hg' & Hrev & _). rewrite Hg in Hg'. injection Hg' as <-. exists (e0, rev). cbn [snd]. split_and!; try done.
    - exact (records_rev_nonneg _ _ _ _ Er).
    - destruct F5 as (_ & _ & _ & Hrv & _). cbn [snd] in Hrv. rewrite Hrv.
      assert (length (of_id id fd) ≤ length fd) by apply length_filter. lia. }
  assert (Hts : ∀ n, (clockFloor c ≤ n ≤ now)%Z → (0 ≤ n < two63)%Z) by (intros n Hn; lia).
  assert (Hupd : ∀ id d f, in_u64 id → good_data d → (∀ x, in_i64 x → in_i64 (f x)) → updated c id d f now e →
    shippable e ∧ known_op (Op e) = true ∧ next_entry (records (cdecisions c) (map stored fd) !! ID e) e ∧
    (records (cdecisions c) (map stored fd) !! ID e = None → of_id (ID e) fd = [])).
  { intros id d f Hid Hd Hfx (cur & d' & Hg & Hi & Hop & Hrev & Hexp & Hdat & Hsd & _ & n & Hn & Ht).
    destruct (Hup id cur Hg) as (r & Er & Hr & Hr0 & Hrb). rewrite Hi, Er. rewrite u64_id in Hrev by (unfold in_u64; lia).
    destruct (sealed_as_good c d d' (Epoch e) Henc Hd Hsd) as [Hg' Hep].
    pose proof (cinv_exp_range c _ id cur F2 Hf Hg) as Hx.
    destruct (stamp_opt_good c id d d' Hr2 Hg') as [Hw1 Hw2].
    split_and!; [|unfold known_op; rewrite Hop; by apply bool_decide_eq_true_2; right; left| |done].
    - split; [|intros _; lia]. split; [|rewrite Hdat; congruence].
      split; [by rewrite Hi|rewrite Ht; by apply time_of_nanos_wf, Hts|unfold in_u64; lia|by rewrite Hdat|done|rewrite Hexp; by apply Hfx|by rewrite Hop].
    - left. split; [done|lia]. }
  destruct o as [d ex|id d|id d ex|id]; cbn [wentry wop_ok] in *.
  - destruct Ho as [Hd Hx]. destruct Hwe as (exp & (n0 & _ & Hexp) & [Hi Hop Hrev Hex (n & Hn & Ht) (d' & Hdat & Hsd)] & _ & _).
    destruct (sealed_as_good c d d' (Epoch e) Henc Hd Hsd) as [[Hg1 Hg2] Hep].
    destruct F2 as (es & ea & Hca & HL). pose proof (ca_seq _ _ _ Hca) as [Hsq _].
    assert (Hnone : records (cdecisions c) (map stored fd) !! ID e = None).
    { assert (Hc : cinv c (map stored fd)) by by exists es, ea. pose proof (cinv_lookup c _ (ID e) Hc Hf) as Hl.
      destruct (records _ _ !! ID e) as [[e0 rev]|]; [|done]. destruct Hl as (loc & seg & Hg & _).
      pose proof (cinv_known_id c _ _ _ Hc Hf Hg). rewrite Hi in *. lia. }
    rewrite Hnone. split_and!; [|unfold known_op; rewrite Hop; by apply bool_decide_eq_true_2; left|by split|].
    + split; [|intros _; lia]. split; [|rewrite Hdat; congruence].
      split; [rewrite Hi; unfold in_u64; lia|rewrite Ht; by apply time_of_nanos_wf, Hts|rewrite Hrev; by vm_compute|by rewrite Hdat|done| |by rewrite Hop].
      rewrite Hex, Hexp. by apply resolve_range.
    + intros _. apply filter_none, Forall_forall. intros x Hx' Hid.
      assert (Hc : cinv c (map stored fd)) by by exists es, ea.
      assert (Hin : stored x ∈ map stored fd) by (apply list_elem_of_fmap; by exists x).
      pose proof (logged_ids c _ _ Hc Hin) as Hle. cbn in Hle. rewrite Hid, Hi in Hle. lia.
  - destruct Ho as [Hid Hd]. by apply (Hupd id d (λ old, old)).
  - destruct Ho as (Hid & Hd & Hx). destruct Hwe as (exp & (n0 & _ & Hexp) & Hwe). apply (Hupd id d (λ _, exp)); try done.
    intros _ _. rewrite Hexp. by apply resolve_range.
  - destruct Hwe as ([cur Hg] & _ & n & Hn & ->). destruct (Hup id cur Hg) as (r & Er & _). cbn [ID NewDelete]. rewrite Er.
    split_and!; [|done|by right|done]. split; [|done]. by apply delete_readable; [apply Hts|].
Qed.

Lemma fenced_stays os : ∀ st L st' rs, world st → cinv (coll st) L → enc_good (coll st) → wruns_room os st → Forall wop_ok os →
  wruns os st = (st', rs) → fenced (coll st') = None → fenced (coll st) = None.
Proof.
  intros st L st' rs Hw Hc He Hr Ho Hrun Hf. destruct (wruns_lines _ _ _ _ _ Hw Hc He Hr Ho Hrun) as (_ & H & _).
  destruct (fenced (coll st)) as [x|]; [|done]. destruct H as [[y Hy] _]; [by exists x|congruence].
Qed.

Lemma leader_feed os : ∀ st fd st' rs,
  world st → feed_inv (coll st) fd → enc_good (coll st) → wruns_room os st → Forall wop_ok os →
  (Z.of_nat (length fd + length os) < two64)%Z → wruns os st = (st', rs) → fenced (coll st') = None →
  ∃ fd', feed_inv (coll st') (fd ++ fd') ∧ cdecisions (coll st') = cdecisions (coll st).
Proof.
  induction os as [|o os IH]; intros st fd st' rs Hw Hi He Hroom Ho Hlen Hrun Hf.
  { injection Hrun as <- <-. exists []. by rewrite app_nil_r. }
  pose proof (fenced_stays _ _ _ _ _ Hw (fi_log _ _ Hi) He Hroom Ho Hrun Hf) as Hf0. cbn [wruns] in Hrun.
  destruct (wrun o st) as [st1 r] eqn:E1. destruct (wruns os st1) as [st2 rs2] eqn:E2. injection Hrun as <- <-.
  apply Forall_cons in Ho as [Ho Hos]. cbn [wruns_room length] in *. rewrite E1 in Hroom. destruct Hroom as [Hr Hroom].
  destruct (wp_run _ _ _ _ _ (wrun_spec st _ o Hw (fi_log _ _ Hi) Hr He Ho) E1) as (Hw1 & [T H] & _).
  assert (Hnext : ∀ fd1, feed_inv (coll st1) (fd ++ fd1) → length fd1 ≤ 1 →
    ∃ fd', feed_inv (coll st2) (fd ++ fd') ∧ cdecisions (coll st2) = cdecisions (coll st)).
  { intros fd1 Hi1 Hl1. destruct (IH st1 (fd ++ fd1) st2 rs2) as (fd2 & H1 & H2); try done.
    - by eapply later_enc_good.
    - rewrite length_app. lia.
    - exists (fd1 ++ fd2). rewrite app_assoc. split; [done|]. by rewrite H2, (lt_decisions _ _ T). }
  assert (Hsame : cinv (coll st1) (map stored fd) → broker (coll st1) = broker (coll st) → feed_inv (coll st1) fd).
  { intros Hc Hb. destruct Hi as [F1 F2 F3 F4 F5]. split; rewrite ?(lt_decisions _ _ T); try done. by rewrite Hb. }
  destruct r as [cm|err].
  - destruct H as (_ & e & Hwe & Hc1 & Hb1 & _). apply (Hnext [e]); [|done].
    destruct (wentry_next (coll st) fd o (clockFloor (coll st1)) e) as (W1 & W2 & W3 & W4); try done; [apply Hw|apply Hw1|lia|].
    eapply feed_inv_snoc; try done; [apply T|]. rewrite Hb1. unfold fed. by rewrite (fi_broker _ _ Hi).
  - assert (Hu : err = ErrWriteOutcomeUnknown ∨ err ≠ ErrWriteOutcomeUnknown) by (destruct err; auto).
    destruct Hu as [->|Hne].
    + destruct H as (_ & [x Hx] & _ & H).
      assert (Hf1 : fenced (coll st1) = None).
      { destruct H as [Hc|(e & _ & Hc)]; exact (fenced_stays os st1 _ st2 rs2 Hw1 Hc (later_enc_good _ _ T He) Hroom Hos E2 Hf). }
      congruence.
    + assert (Hc : cinv (coll st1) (map stored fd) ∧ broker (coll st1) = broker (coll st)).
      { destruct err; try done; destruct H as (H1 & _ & _ & _ & H5); done. }
      apply (Hnext []); [|cbn; lia]. rewrite app_nil_r. destruct Hc. by apply Hsame.
Qed.

Lemma feed_inv_empty c : cinv c [] → broker c = Some [] → feed_inv c [].
Proof.
  intros Hc Hb. split; try done; [constructor|]. intros id. split; [|by left].
  exists [], []. split_and!; [done|constructor|constructor|by left].
Qed.

Lemma feed_leader_log c fd : feed_inv c fd → leader_log fd.
Proof. intros Hi id. apply (fi_ids _ _ Hi id). Qed.

(** Claim C17: a follower converges to its leader.  Let a leader run any sequence of
    inserts, updates and deletes on a collection that was empty when replication
    started, with any failures short of fencing it.  A follower that holds the leader's
    records as of any point of the feed (from an online snapshot, say) and then applies
    the feed from that point or any earlier one holds exactly the leader's records: the
    same ids, entries and revisions.  Redelivered entries, and deletes and writes that
    the snapshot already had, change nothing. *)
Theorem replica_converges os st st' rs :
  world st → cinv (coll st) [] → broker (coll st) = Some [] → enc_good (coll st) → wruns_room os st → Forall wop_ok os →
  (Z.of_nat (length os) < two64)%Z → wruns os st = (st', rs) → fenced (coll st') = None →
  ∃ fd L', broker (coll st') = Some fd ∧ cinv (coll st') L' ∧
    ∀ stf Lf stf' rsf j k,
      world stf → cinv (coll stf) Lf → (segSeq (coll stf) + Z.of_nat (length fd) < two64)%Z →
      j ≤ k → records (cdecisions (coll stf)) Lf = foldl rep_step ∅ (take k fd) →
      apply_all (drop j fd) stf = (stf', rsf) → Forall is_ok rsf →
      ∃ Lf', cinv (coll stf') Lf' ∧ records (cdecisions (coll stf)) Lf' = records (cdecisions (coll st')) L'.
Proof.
  intros Hw Hc Hb He Hr Ho Hlen Hrun Hf.
  destruct (leader_feed os st [] st' rs Hw (feed_inv_empty _ Hc Hb) He Hr Ho) as (fd & Hi & Hds); try done. cbn [app] in Hi.
  exists fd, (map stored fd). split; [apply Hi|]. split; [apply Hi|]. intros stf Lf stf' rsf j k Hwf Hcf Hsq Hjk Hst Happ Hok.
  assert (Hk : ops_known (drop j fd)) by (apply Forall_drop, Hi).
  assert (Hsq' : (segSeq (coll stf) + Z.of_nat (length (drop j fd)) < two64)%Z) by (rewrite length_drop; lia).
  destruct (apply_all_records _ _ _ _ _ Hwf Hcf Hsq' Hk Happ Hok) as (Lf' & H1 & _ & _ & H2).
  exists Lf'. split; [done|]. rewrite H2, Hst, (fi_records _ _ Hi).
  assert (E : drop j fd = drop j (take k fd) ++ drop k fd).
  { rewrite <- (take_drop k fd) at 1. destruct (decide (k ≤ length fd)) as [Hle|Hle].
    - rewrite drop_app_le by (rewrite length_take; lia). done.
    - rewrite (drop_ge fd k), !app_nil_r by lia. done. }
  rewrite E, foldl_app. assert (Hl : leader_log (take j (take k fd) ++ drop j (take k fd))).
  { rewrite take_drop. apply (leader_log_prefix _ (drop k fd)). rewrite take_drop. by eapply feed_leader_log. }
  pose proof (overlap_harmless _ _ Hl) as Hov. rewrite take_drop in Hov. rewrite Hov, <- foldl_app, take_drop. done.
Qed.

(** the outcome contract of applying a replicated entry, for every outcome of
    the file calls.  When it succeeds the entry is the last line of the log, under the
    leader's id and revision, or the log is unchanged because the effect was already
    there; any other error but an unknown outcome leaves the log as it was and the
    collection usable; an unknown outcome fences it, and the log holds the old lines, or
    those and the entry.  The follower's own replication feed is never written. *)
Theorem replicated_apply_contract st L e st' r :
  world st → cinv (coll st) L → (segSeq (coll st) + 1 < two64)%Z → shippable e → applyEntry e st = (st', r) →
  apply_contract (coll st) L e (coll st') r.
Proof. intros Hw Hc Hr He Hrun. by destruct (wp_run _ _ _ _ _ (apply_entry_spec st L e Hw Hc Hr He) Hrun) as (_ & H). Qed.

(** ** Examples *)

Definition sample_writes : list wop :=
  [WInsert sample_data None; WInsert sample_data None; WUpdate 1 sample_data; WDelete 2; WInsert sample_data None].

Definition leader_end : St := (wruns sample_writes (sample_st [] [5; 3]%Z)).1.
Definition sample_feed : list Entry := default [] (broker (coll leader_end)).
Lemma leader_end_broker : broker (coll leader_end) = Some sample_feed.
Proof. vm_compute. reflexivity. Qed.

Lemma sample_writes_ok : Forall wop_ok sample_writes.
Proof. unfold sample_writes. repeat apply Forall_cons_2; [split; [apply sample_good|done]..| | | |constructor]; cbn [wop_ok].
  - split; [by vm_compute|apply sample_good].
  - by vm_compute.
  - split; [apply sample_good|done].
Qed.

Lemma sample_writes_room : wruns_room sample_writes (sample_st [] [5; 3]%Z).
Proof. unfold sample_writes. cbn [wruns_room]. repeat (split; [apply room_checked; vm_compute; reflexivity|]). exact I. Qed.

(** Two records inserted, one updated, one deleted, a third inserted: a fresh follower
    that applies the five entries has the two records that are left. *)
Lemma replica_converges_witness :
  ∃ L' Lf', cinv (coll leader_end) L' ∧ cinv (coll (apply_all sample_feed (sample_st [] [5; 3]%Z)).1) Lf' ∧
    records None Lf' = records None L'.
Proof.
  destruct (wruns sample_writes (sample_st [] [5; 3]%Z)) as [st' rs] eqn:E.
  assert (Est : st' = leader_end) by (unfold leader_end; rewrite E; reflexivity).
  assert (Hf : fenced (coll st') = None) by (rewrite Est; vm_compute; reflexivity).
  destruct (replica_converges sample_writes (sample_st [] [5; 3]%Z) st' rs (sample_world _) sample_cinv eq_refl sample_enc
    sample_writes_room sample_writes_ok eq_refl E Hf) as (fd & L' & Hb & Hc & Hall).
  rewrite Est, leader_end_broker in Hb. apply Some_inj in Hb. rewrite Est in Hc. subst fd.
  destruct (apply_all sample_feed (sample_st [] [5; 3]%Z)) as [stf' rsf] eqn:Ef.
  assert (Hok : Forall is_ok rsf).
  { assert (Er : rsf = (apply_all sample_feed (sample_st [] [5; 3]%Z)).2) by (rewrite Ef; reflexivity).
    rewrite Er. clear. vm_compute. repeat constructor. }
  destruct (Hall (sample_st [] [5; 3]%Z) [] stf' rsf 0 0 (sample_world _) sample_cinv) as (Lf' & H1 & H2);
    [vm_compute; reflexivity|apply le_n|reflexivity|exact Ef|exact Hok|].
  exists L', Lf'. split; [exact Hc|]. split; [exact H1|]. rewrite Est in H2. exact H2.
Defined.

(** The write of the line fails after three bytes; the rollback succeeds. *)
Lemma replicated_apply_contract_witness :
  ∃ st' err, applyEntry sample_entry (sample_st [FFail 3; FOk] [5; 3]%Z) = (st', Err err) ∧ cinv (coll st') [].
Proof.
  destruct (applyEntry sample_entry (sample_st [FFail 3; FOk] [5; 3]%Z)) as [st' r] eqn:E.
  assert (Hs : shippable sample_entry).
  { split; [split; [apply sample_entry_wf|apply sample_data_nonempty]|]. intros _. vm_compute. discriminate. }
  pose proof (replicated_apply_contract _ [] sample_entry _ _ (sample_world _) sample_cinv eq_refl Hs E) as (_ & _ & H).
  assert (Hr : (applyEntry sample_entry (sample_st [FFail 3; FOk] [5; 3]%Z)).2 = Err (ErrAppend ErrIO)) by (vm_compute; reflexivity).
  rewrite E in Hr. cbn [snd] in Hr. rewrite Hr in H |- *. exists st', (ErrAppend ErrIO). split; [reflexivity|]. exact (proj1 H).
Defined.
