(* ===== verification/IndexFile.v ===== *)
(** * The persisted primary index: [engine/index.go]

    index.json: the entries of the index with, for every segment, how many bytes
    of it they describe and the SHA-256 of those bytes.  Taking a snapshot,
    writing it, and loading it back.  Paths are clean and absolute, as
    [filepath.Join] makes them from the collection's directory; the directory may
    differ between writing and loading. *)
From Stdlib Require Import Ascii Lia ZArith.
From stdpp Require Import prelude gmap strings sorting.
From S2P Require Import Prelude GoNum Json Value GoTime Store Wire Codec Segment Index Manifest Sha256 Journal.

Definition indexFormatV2 : Z := 2.

(** What an index file says of one segment. *)
Record SegmentCoverage : Type := MkCov {
  cov_Segment : string;
  cov_Size : Z;
  cov_Checksum : string;
  cov_Tail : string;
  cov_XTxApplied : list string;
  cov_XTxEpoch : string
}.

#[global] Instance SegmentCoverage_eq_dec : EqDecision SegmentCoverage.
Proof. solve_decision. Defined.

(** A nil map of entries is [None]. *)
Record indexFile : Type := MkIFile {
  if_Version : Z;
  if_Entries : option (gmap Z IndexEntry);
  if_Coverage : list SegmentCoverage;
  if_Checksum : string
}.

Record IndexSnapshot : Type := MkSnap { sn_entries : gmap Z IndexEntry; sn_coverage : list SegmentCoverage }.

(** ** Paths *)

Definition is_abs (p : string) : bool := match b_of_s p with c :: _ => bool_decide (c = "/"%char) | [] => false end.

Definition dotdot (b : bytes) : bool := bool_decide (take 2 b = ["."; "."]%char).

(** [filepath.Rel] of a path below [dir] is the rest of it; of any other path it
    starts with two dots. *)
Definition relSegmentPath (dir p : string) : string :=
  if negb (is_abs p) then p
  else if decide (p = dir) then "."
  else match strip_prefix (b_of_s (dir +:+ "/")) (b_of_s p) with
       | Some r => if dotdot r then path_base p else s_of_b r
       | None => path_base p
       end.

Definition resolveSegmentPath (dir p : string) : string := join dir (if is_abs p then path_base p else p).

(** ** Encoding *)

Definition ie_members (e : IndexEntry) : list (bytes * json) :=
  [member "segment" (jstr (SegmentPath e)); member "offset" (num_i (Z.of_nat (Offset e)))] ++
  omit_zero "rev" (ie_Rev e) (num_u (ie_Rev e)) ++ omit_zero "expires_at" (ie_ExpiresAt e) (num_i (ie_ExpiresAt e)) ++
  omit_zero "epoch" (ie_Epoch e) (num_u (ie_Epoch e)).

Definition id_key (id : Z) : string := s_of_b (fmt_N (Z.to_N id)).

(** The members of a map are sorted by name, here the decimal form of the id. *)
Definition entries_json (m : gmap Z IndexEntry) : json :=
  JObj (map (λ kv, member kv.1 (JObj (ie_members kv.2)))
    (ssort (λ a b, str_ltb a.1 b.1) (map (λ kv, (id_key kv.1, kv.2)) (map_to_list m)))).

Definition omit_strs (k : string) (l : list string) : list (bytes * json) :=
  match l with [] => [] | _ => [member k (JArr (map jstr l))] end.

Definition cov_members (c : SegmentCoverage) : list (bytes * json) :=
  [member "segment" (jstr (cov_Segment c)); member "size" (num_i (cov_Size c)); member "checksum" (jstr (cov_Checksum c))] ++
  omit_str "tail" (cov_Tail c) ++ omit_strs "xtx_applied" (cov_XTxApplied c) ++ omit_str "xtx_epoch" (cov_XTxEpoch c).

Definition opt_entries_json (m : option (gmap Z IndexEntry)) : json := match m with Some m => entries_json m | None => JNull end.

(** [indexPayload]. *)
Definition payload_members (m : option (gmap Z IndexEntry)) (cov : list SegmentCoverage) : list (bytes * json) :=
  [member "version" (num_i indexFormatV2); member "entries" (opt_entries_json m);
   member "coverage" (JArr (map (λ c, JObj (cov_members c)) cov))].

Definition index_payload (m : option (gmap Z IndexEntry)) (cov : list SegmentCoverage) : bytes :=
  print (JObj (payload_members m cov)).

Definition checksumKey : bytes := b_of_s "," ++ quote (b_of_s "checksum") ++ b_of_s ":".

Definition with_path (f : string → string) (e : IndexEntry) : IndexEntry :=
  MkIE (f (SegmentPath e)) (Offset e) (ie_Rev e) (ie_ExpiresAt e) (ie_Epoch e).

(** The bytes [Persist] hands to [writeFileAtomic] for the directory [dir]. *)
Definition Persist (dir : string) (s : IndexSnapshot) : bytes :=
  let payload := index_payload (Some (with_path (relSegmentPath dir) <$> sn_entries s)) (sn_coverage s) in
  take (length payload - 1) payload ++ checksumKey ++ quote (hex_encode (sha256 payload)) ++ b_of_s "}".

(** ** Decoding *)

(** [strconv.ParseUint(k, 10, 64)]. *)
Definition parse_id (k : bytes) : option Z :=
  n ← parse_N k; if (Z.of_N n <? two64)%Z then Some (Z.of_N n) else None.

(** Offsets are positions in a file: a negative one is not represented, and a file
    that has one does not load. *)
Definition dec_offset (old : nat) (j : json) : option nat :=
  z ← dec_i64 (Z.of_nat old) j; if (z <? 0)%Z then None else Some (Z.to_nat z).

Definition set_ie_field (e : IndexEntry) (kv : bytes * json) : option IndexEntry :=
  let k := map to_lower kv.1 in
  let j := kv.2 in
  let '(MkIE p o r x ep) := e in
  if decide (k = b_of_s "segment") then v ← dec_string p j; Some (MkIE v o r x ep)
  else if decide (k = b_of_s "offset") then v ← dec_offset o j; Some (MkIE p v r x ep)
  else if decide (k = b_of_s "rev") then v ← dec_u64 r j; Some (MkIE p o v x ep)
  else if decide (k = b_of_s "expires_at") then v ← dec_i64 x j; Some (MkIE p o r v ep)
  else if decide (k = b_of_s "epoch") then v ← dec_u64 ep j; Some (MkIE p o r x v)
  else Some e.

Definition dec_ie (j : json) : option IndexEntry :=
  match j with JNull => Some zero_IndexEntry | JObj l => strict_fields set_ie_field zero_IndexEntry l | _ => None end.

Definition set_entry (m : gmap Z IndexEntry) (kv : bytes * json) : option (gmap Z IndexEntry) :=
  id ← parse_id kv.1; e ← dec_ie kv.2; Some (<[id := e]> m).

Definition dec_entries (old : option (gmap Z IndexEntry)) (j : json) : option (option (gmap Z IndexEntry)) :=
  match j with
  | JNull => Some None
  | JObj l => m ← strict_fields set_entry (default ∅ old) l; Some (Some m)
  | _ => None
  end.

(** An element of an array is decoded over the element that was there. *)
Fixpoint dec_list {R} (dec : R → json → option R) (zero : R) (old : list R) (l : list json) : option (list R) :=
  match l with
  | [] => Some []
  | j :: l => x ← dec (default zero (head old)) j; r ← dec_list dec zero (tail old) l; Some (x :: r)
  end.

Definition dec_array {R} (dec : R → json → option R) (zero : R) (old : list R) (j : json) : option (list R) :=
  match j with JNull => Some [] | JArr l => dec_list dec zero old l | _ => None end.

Definition set_cov_field (c : SegmentCoverage) (kv : bytes * json) : option SegmentCoverage :=
  let k := map to_lower kv.1 in
  let j := kv.2 in
  let '(MkCov s n h t a e) := c in
  if decide (k = b_of_s "segment") then v ← dec_string s j; Some (MkCov v n h t a e)
  else if decide (k = b_of_s "size") then v ← dec_i64 n j; Some (MkCov s v h t a e)
  else if decide (k = b_of_s "checksum") then v ← dec_string h j; Some (MkCov s n v t a e)
  else if decide (k = b_of_s "tail") then v ← dec_string t j; Some (MkCov s n h v a e)
  else if decide (k = b_of_s "xtx_applied") then v ← dec_array dec_string "" a j; Some (MkCov s n h t v e)
  else if decide (k = b_of_s "xtx_epoch") then v ← dec_string e j; Some (MkCov s n h t a v)
  else Some c.

Definition zero_cov : SegmentCoverage := MkCov "" 0 "" "" [] "".

Definition dec_cov (old : SegmentCoverage) (j : json) : option SegmentCoverage :=
  match j with JNull => Some old | JObj l => strict_fields set_cov_field old l | _ => None end.

Definition set_file_field (f : indexFile) (kv : bytes * json) : option indexFile :=
  let k := map to_lower kv.1 in
  let j := kv.2 in
  let '(MkIFile v m c h) := f in
  if decide (k = b_of_s "version") then x ← dec_i64 v j; Some (MkIFile x m c h)
  else if decide (k = b_of_s "entries") then x ← dec_entries m j; Some (MkIFile v x c h)
  else if decide (k = b_of_s "coverage") then x ← dec_array dec_cov zero_cov c j; Some (MkIFile v m x h)
  else if decide (k = b_of_s "checksum") then x ← dec_string h j; Some (MkIFile v m c x)
  else Some f.

Definition zero_file : indexFile := MkIFile 0 None [] "".

Definition unmarshal_index (b : bytes) : option indexFile :=
  match unmarshal b with
  | Some (JObj l) => strict_fields set_file_field zero_file l
  | Some JNull => Some zero_file
  | _ => None
  end.

(** [bytes.HasSuffix], with what comes before. *)
Definition strip_suffix (b suffix : bytes) : option bytes :=
  let n := length b - length suffix in
  if decide (length suffix ≤ length b ∧ drop n b = suffix) then Some (take n b) else None.

Definition rawChecksumOK (b : bytes) (want : string) : bool :=
  if decide (want = "") then false
  else match strip_suffix b (checksumKey ++ [dquote] ++ b_of_s want ++ [dquote] ++ b_of_s "}") with
       | None => false
       | Some body => bool_decide (s_of_b (hex_encode (sha256 (body ++ b_of_s "}"))) = want)
       end.

(** The index after [install], with the coverage it keeps. *)
Record loaded : Type := MkLoaded { ld_index : Index; ld_coverage : list SegmentCoverage; ld_known : bool }.

Definition install (dir : string) (idx : Index) (f : indexFile) : loaded :=
  MkLoaded (noteExpiring (MkIndex (with_path (resolveSegmentPath dir) <$> default ∅ (if_Entries f)) (mayExpire idx)))
    (if_Coverage f) (bool_decide (if_Version f = indexFormatV2)).

Inductive load_err : Type := LoadRead | LoadUnmarshal | ErrIndexStale.

(** [Load] of the file's content; [None] is a file that cannot be read. *)
Definition Load (dir : string) (idx : Index) (content : option bytes) : res load_err loaded :=
  match content with
  | None => Err LoadRead
  | Some b =>
      match unmarshal_index b with
      | None => Err LoadUnmarshal
      | Some f =>
          if bool_decide (if_Version f = indexFormatV2) && rawChecksumOK b (if_Checksum f) then Ok (install dir idx f)
          else
            let payload := if decide (if_Version f = 0%Z) then Some (print (opt_entries_json (if_Entries f)))
                           else if decide (if_Version f = indexFormatV2) then Some (index_payload (if_Entries f) (if_Coverage f))
                           else None in
            match payload with
            | None => Err ErrIndexStale
            | Some p => if decide (s_of_b (hex_encode (sha256 p)) = if_Checksum f) then Ok (install dir idx f)
                        else Err ErrIndexStale
            end
      end
  end.

(** ** Snapshots *)

(** [prefixChecksum] of a file's content. *)
Definition prefixChecksum (d : bytes) (size : Z) : option string :=
  if (size <? 0)%Z || (Z.of_nat (length d) <? size)%Z then None
  else Some (s_of_b (hex_encode (sha256 (take (Z.to_nat size) d)))).

(** The transaction of a visible stamped entry. *)
Definition applied_tx (ds : option decisions) (tx : option TxStamp) : option string :=
  match tx with
  | None => None
  | Some t => if decide (st_t t = "") then None else if entryVisible tx ds then Some (st_t t) else None
  end.

(** The entries of a scan from the start that begin below [n]: the callback stops
    the scan at the first that does not. *)
Fixpoint below (n : Z) (l : list located) : list located :=
  match l with
  | [] => []
  | x :: l => if (n <=? Z.of_nat x.1)%Z then [] else x :: below n l
  end.

(** [txids], each once, in the order of their first entry. *)
Fixpoint once (seen : list string) (l : list string) : list string :=
  match l with
  | [] => []
  | t :: l => if decide (t ∈ seen) then once seen l else t :: once (t :: seen) l
  end.

Definition captureCoverage (seg : Segment) (ds : option decisions) (epoch : string) (fs : list fault)
    : list fault * option SegmentCoverage :=
  let '(f, fs) := next_fault fs in
  if negb (f_ok f) then (fs, None)
  else
    let size := Z.of_nat (size seg) in
    (fs, sum ← prefixChecksum (disk seg) size;
         let txids := once [] (omap (λ x : located, applied_tx ds x.2.2) (below size (ScanStampedFromOffset seg 0).1)) in
         Some (match txids with
               | [] => MkCov (path_base (path seg)) size sum "" [] ""
               | _ => MkCov (path_base (path seg)) size sum "" (ssort str_ltb txids) epoch
               end)).

Notation cov_cache := (gmap string SegmentCoverage).

(** The coverage of every segment; the boolean marks the sealed ones, which are
    looked up in the cache when there is one. *)
Fixpoint capture_all (segs : list (Segment * bool)) (cache : option cov_cache) (ds : option decisions) (epoch : string)
    (fs : list fault) : list fault * option (list SegmentCoverage * option cov_cache) :=
  match segs with
  | [] => (fs, Some ([], cache))
  | (seg, sl) :: segs =>
      let hit := if sl then m ← cache; c ← m !! path seg; if decide (cov_Size c = Z.of_nat (size seg)) then Some c else None
                 else None in
      match hit with
      | Some c =>
          let '(fs, r) := capture_all segs cache ds epoch fs in
          (fs, p ← r; Some (c :: p.1, p.2))
      | None =>
          let '(fs, w) := captureCoverage seg ds epoch fs in
          match w with
          | None => (fs, None)
          | Some c =>
              let cache := if sl then <[path seg := c]> <$> cache else cache in
              let '(fs, r) := capture_all segs cache ds epoch fs in
              (fs, p ← r; Some (c :: p.1, p.2))
          end
      end
  end.

Definition snapshotCached (idx : Index) (segs : list (Segment * bool)) (cache : option cov_cache) (ds : option decisions)
    (epoch : string) (fs : list fault) : list fault * option (IndexSnapshot * option cov_cache) :=
  let '(fs, r) := capture_all segs cache ds epoch fs in
  (fs, p ← r; Some (MkSnap (entries idx) (ssort (λ a b, str_ltb (cov_Segment a) (cov_Segment b)) p.1), p.2)).

(** The segments end with the active one. *)
Fixpoint mark_sealed (segs : list Segment) : list (Segment * bool) :=
  match segs with
  | [] => []
  | [s] => [(s, false)]
  | s :: segs => (s, true) :: mark_sealed segs
  end.

Definition Snapshot (idx : Index) (segs : list Segment) (ds : option decisions) (epoch : string) (fs : list fault)
    : list fault * option IndexSnapshot :=
  let '(fs, r) := snapshotCached idx (mark_sealed segs) None ds epoch fs in (fs, fst <$> r).
