(* ===== verification/IndexFileThm.v ===== *)
(** * The index file: written and loaded back

    [Load] of what [Persist] wrote gives the same entries, with the paths of
    their segments moved to the directory they are loaded from, and the same
    coverage. *)
From Stdlib Require Import Ascii Lia ZArith.
From stdpp Require Import prelude gmap strings sorting.
From S2P Require Import Prelude GoNum Json Value GoTime Store Wire Codec Segment Index Manifest Sha256 Journal JournalThm IndexFile.

Record ie_wf (e : IndexEntry) : Prop := {
  iw_offset : (Z.of_nat (Offset e) < two63)%Z;
  iw_rev : in_u64 (ie_Rev e);
  iw_exp : in_i64 (ie_ExpiresAt e);
  iw_epoch : in_u64 (ie_Epoch e)
}.

Definition entries_wf (m : gmap Z IndexEntry) : Prop := map_Forall (λ id e, in_u64 id ∧ ie_wf e) m.

Definition cov_wf (c : SegmentCoverage) : Prop := in_i64 (cov_Size c).

(** ** Numbers and lists *)

Lemma parse_id_key id : in_u64 id → parse_id (b_of_s (id_key id)) = Some id.
Proof.
  intros [H1 H2]. unfold parse_id, id_key. rewrite b_of_s_of_b, parse_fmt_N. cbn [mbind option_bind].
  rewrite Z2N.id by lia. by destruct (Z.ltb_spec id two64); [|lia].
Qed.

Lemma id_key_inj a b : in_u64 a → in_u64 b → id_key a = id_key b → a = b.
Proof. intros Ha Hb E. pose proof (parse_id_key a Ha) as H. rewrite E, parse_id_key in H by done. by injection H. Qed.

Lemma dec_offset_num old o : (Z.of_nat o < two63)%Z → dec_offset old (num_i (Z.of_nat o)) = Some o.
Proof.
  intros H. unfold dec_offset. rewrite dec_num_i by (unfold in_i64, two63 in *; lia). cbn [mbind option_bind].
  destruct (Z.ltb_spec (Z.of_nat o) 0); [lia|]. by rewrite Nat2Z.id.
Qed.

Lemma dec_list_json {R} (dec : R → json → option R) (zero : R) (enc : R → json) l :
  Forall (λ x, dec zero (enc x) = Some x) l → dec_array dec zero [] (JArr (map enc l)) = Some l.
Proof.
  intros H. cbn [dec_array]. induction H as [|x l Hx _ IH]; [done|]. cbn [map dec_list head tail default].
  rewrite Hx. cbn [mbind option_bind]. by rewrite IH.
Qed.

(** ** Records *)

Ltac str_field := cbn; by rewrite s_of_b_of_s.
Ltac num_field lem := cbn -[dec_u64 dec_i64 dec_offset num_u num_i]; by rewrite lem.

Lemma ie_fields e : ie_wf e → dec_ie (JObj (ie_members e)) = Some e.
Proof.
  destruct e as [p o r x ep]. intros [H1 H2 H3 H4]. cbn in H1, H2, H3, H4. cbn [dec_ie]. unfold ie_members.
  cbn [SegmentPath Offset ie_Rev ie_ExpiresAt ie_Epoch]. eapply sf_app; [|eapply sf_app; [|eapply sf_app]].
  - eapply (sf_cons _ _ _ _ (MkIE p 0 0 0 0)); [str_field|]. apply (sf_one _ _ _ (MkIE p o 0 0 0)).
    change ((v ← dec_offset 0 (num_i (Z.of_nat o)); Some (MkIE p v 0 0 0)) = Some (MkIE p o 0 0 0)). by rewrite dec_offset_num.
  - apply (sf_omit_zero _ _ _ _ _ (MkIE p o r 0 0)); [|by intros ->].
    change ((v ← dec_u64 0 (num_u r); Some (MkIE p o v 0 0)) = Some (MkIE p o r 0 0)). by rewrite dec_num_u.
  - apply (sf_omit_zero _ _ _ _ _ (MkIE p o r x 0)); [|by intros ->].
    change ((v ← dec_i64 0 (num_i x); Some (MkIE p o r v 0)) = Some (MkIE p o r x 0)). by rewrite dec_num_i.
  - apply sf_omit_zero; [|by intros ->].
    change ((v ← dec_u64 0 (num_u ep); Some (MkIE p o r x v)) = Some (MkIE p o r x ep)). by rewrite dec_num_u.
Qed.

Lemma cov_fields c : cov_wf c → dec_cov zero_cov (JObj (cov_members c)) = Some c.
Proof.
  destruct c as [s n h t a e]. intros Hn. cbn [dec_cov]. unfold cov_members, cov_wf in *.
  cbn [cov_Segment cov_Size cov_Checksum cov_Tail cov_XTxApplied cov_XTxEpoch] in *.
  eapply sf_app; [|eapply sf_app; [|eapply sf_app]].
  - eapply (sf_cons _ _ _ _ (MkCov s 0 "" "" [] "")); [str_field|].
    eapply (sf_cons _ _ _ _ (MkCov s n "" "" [] "")).
    { change ((v ← dec_i64 0 (num_i n); Some (MkCov s v "" "" [] "")) = Some (MkCov s n "" "" [] "")). by rewrite dec_num_i. }
    apply (sf_one _ _ _ (MkCov s n h "" [] "")). str_field.
  - apply (sf_omit_str _ _ _ _ (MkCov s n h t [] "")); [str_field|by intros ->].
  - instantiate (1 := MkCov s n h t a ""). destruct a as [|x a]; [done|]. apply sf_one.
    change ((v ← dec_array dec_string "" [] (JArr (map jstr (x :: a))); Some (MkCov s n h t v "")) = Some (MkCov s n h t (x :: a) "")).
    rewrite dec_list_json; [done|]. apply Forall_forall. intros y _. apply dec_str.
  - apply sf_omit_str; [str_field|by intros ->].
Qed.

(** The members of a map of entries are read back in any order. *)
Lemma entries_fields l m :
  Forall (λ kv : string * IndexEntry, ∃ id, in_u64 id ∧ kv.1 = id_key id ∧ ie_wf kv.2) l →
  strict_fields set_entry m (map (λ kv : string * IndexEntry, member kv.1 (JObj (ie_members kv.2))) l) =
  Some (foldl (λ m (kv : string * IndexEntry), <[default 0%Z (parse_id (b_of_s kv.1)) := kv.2]> m) m l).
Proof.
  intros H. revert m. induction H as [|[k e] l (id & Hid & Hk & He) _ IH]; intros m; [done|]. cbn [map foldl].
  eapply sf_cons; [|apply IH]. cbn [fst snd] in Hk, He. subst k. unfold set_entry, member. cbn [fst snd].
  rewrite parse_id_key by done. cbn [mbind option_bind]. by rewrite ie_fields.
Qed.

Lemma foldl_inserts `{Countable K} {A} (l : list (K * A)) (m : gmap K A) k : NoDup l.*1 →
  foldl (λ m (kv : K * A), <[kv.1 := kv.2]> m) m l !! k = match (list_to_map l : gmap K A) !! k with Some x => Some x | None => m !! k end.
Proof.
  revert m. induction l as [|[k' x] l IH]; intros m Hnd; [done|]. cbn [foldl list_to_map foldr fst snd uncurry].
  cbn [fmap list_fmap] in Hnd. apply NoDup_cons in Hnd as [Hn Hnd]. rewrite IH by done.
  destruct (decide (k' = k)) as [->|Hne].
  - cbn [fst] in Hn. rewrite not_elem_of_list_to_map_1 by done. by rewrite !lookup_insert_eq.
  - by rewrite !lookup_insert_ne by done.
Qed.

Lemma dec_entries_json m : entries_wf m → dec_entries None (entries_json m) = Some (Some m).
Proof.
  intros Hw. unfold dec_entries, entries_json. cbn [default].
  set (l := ssort _ _). assert (Hp : l ≡ₚ map (λ kv : Z * IndexEntry, (id_key kv.1, kv.2)) (map_to_list m)) by apply ssort_perm.
  assert (Hall : Forall (λ kv : string * IndexEntry, ∃ id, in_u64 id ∧ kv.1 = id_key id ∧ ie_wf kv.2) l).
  { rewrite Hp. apply Forall_map, Forall_forall. intros [id e] Hin%elem_of_map_to_list. destruct (Hw _ _ Hin). by exists id. }
  rewrite entries_fields by done. cbn [mbind option_bind]. do 2 f_equal.
  set (f := λ kv : string * IndexEntry, (default 0%Z (parse_id (b_of_s kv.1)), kv.2)).
  replace (foldl _ ∅ l) with (foldl (λ (m : gmap Z IndexEntry) (kv : Z * IndexEntry), <[kv.1 := kv.2]> m) ∅ (map f l)).
  2: { generalize (∅ : gmap Z IndexEntry). clear. induction l as [|x l IH]; intros m0; [done|]. cbn [map foldl]. apply IH. }
  assert (Hf : map f l ≡ₚ map_to_list m).
  { rewrite Hp, map_map. rewrite (List.map_ext_in _ id); [by rewrite map_id|]. intros [id e] Hin.
    apply list_elem_of_In, elem_of_map_to_list in Hin. destruct (Hw _ _ Hin) as [Hid _]. unfold f. cbn [fst snd].
    by rewrite parse_id_key. }
  assert (Hnd : NoDup (map f l).*1) by (rewrite Hf; apply NoDup_fst_map_to_list).
  apply map_eq. intros k. rewrite foldl_inserts by done. rewrite (list_to_map_proper _ _ Hnd Hf), list_to_map_to_list.
  by destruct (m !! k).
Qed.

(** ** The file *)

(** The strings the file holds: the paths of the segments, their digests, the ids
    of transactions.  JSON text holds them exactly when they are UTF-8. *)
Definition cov_utf8 (c : SegmentCoverage) : Prop :=
  Forall str_utf8 (cov_Segment c :: cov_Checksum c :: cov_Tail c :: cov_XTxEpoch c :: cov_XTxApplied c).

Definition paths_utf8 (m : gmap Z IndexEntry) : Prop := map_Forall (λ _ e, str_utf8 (SegmentPath e)) m.

Definition snap_utf8 (dir : string) (s : IndexSnapshot) : Prop :=
  paths_utf8 (with_path (relSegmentPath dir) <$> sn_entries s) ∧ Forall cov_utf8 (sn_coverage s).

#[global] Instance str_utf8_dec s : Decision (str_utf8 s).
Proof. unfold str_utf8. apply _. Defined.

#[global] Instance cov_utf8_dec c : Decision (cov_utf8 c).
Proof. unfold cov_utf8. apply _. Defined.

#[global] Instance snap_utf8_dec dir s : Decision (snap_utf8 dir s).
Proof. unfold snap_utf8, paths_utf8. apply _. Defined.

Lemma with_path_wf f m : entries_wf m → entries_wf (with_path f <$> m).
Proof.
  intros H id e He. rewrite lookup_fmap in He. destruct (m !! id) as [e'|] eqn:E; [|done]. injection He as <-.
  by destruct (H _ _ E) as [? []].
Qed.

Lemma ie_members_ok e : forallb (λ kv : bytes * json, json_ok kv.2) (ie_members e) = true.
Proof.
  unfold ie_members, omit_zero. rewrite !forallb_app. cbn [forallb snd member].
  rewrite num_i_ok. repeat case_match; cbn [forallb snd member]; by rewrite ?num_u_ok, ?num_i_ok.
Qed.

Lemma jstrs_ok l : forallb json_ok (map jstr l) = true.
Proof. by induction l. Qed.

Lemma cov_members_ok c : forallb (λ kv : bytes * json, json_ok kv.2) (cov_members c) = true.
Proof.
  unfold cov_members, omit_str, omit_strs. rewrite !forallb_app. cbn [forallb snd member]. rewrite num_i_ok.
  repeat case_decide; destruct (cov_XTxApplied c) as [|x l]; cbn -[map]; by rewrite ?jstrs_ok.
Qed.

Lemma payload_ok m cov : json_ok (JObj (payload_members (Some m) cov)) = true.
Proof.
  cbn [json_ok payload_members forallb snd member opt_entries_json]. rewrite num_i_ok. cbn [andb]. apply andb_true_iff. split.
  - unfold entries_json. cbn [json_ok]. apply forallb_forall. intros kv Hin. apply in_map_iff in Hin as (x & <- & _).
    cbn [snd member json_ok]. apply ie_members_ok.
  - cbn [andb]. rewrite andb_true_r. apply forallb_forall. intros j Hin. apply in_map_iff in Hin as (x & <- & _).
    cbn [json_ok]. apply cov_members_ok.
Qed.

Lemma jstrs_utf8 l : Forall str_utf8 l → json_utf8 (JArr (map jstr l)) = true.
Proof. cbn [json_utf8]. induction 1 as [|x l Hx _ IH]; [done|]. cbn [map forallb]. rewrite IH, andb_true_r. exact Hx. Qed.

Lemma id_key_utf8 id : str_utf8 (id_key id).
Proof. unfold str_utf8, id_key. rewrite b_of_s_of_b. apply utf8_valid_spec, num_utf8, num_ok_fmt_N. Qed.

Lemma ie_members_utf8 e : str_utf8 (SegmentPath e) → json_utf8 (JObj (ie_members e)) = true.
Proof.
  intros H. change (members_utf8 (ie_members e) = true). unfold ie_members. repeat apply members_utf8_app; auto with utf8.
Qed.

Lemma cov_members_utf8 c : cov_utf8 c → json_utf8 (JObj (cov_members c)) = true.
Proof.
  unfold cov_utf8. rewrite !Forall_cons. intros (H1 & H2 & H3 & H4 & H5). change (members_utf8 (cov_members c) = true).
  unfold cov_members. assert (members_utf8 (omit_strs "xtx_applied" (cov_XTxApplied c)) = true) as Ha.
  { apply jstrs_utf8 in H5. unfold omit_strs. destruct (cov_XTxApplied c); [done|]. auto with utf8. }
  repeat apply members_utf8_app; auto 10 with utf8.
Qed.

Lemma covs_utf8 l : Forall cov_utf8 l → json_utf8 (JArr (map (λ c, JObj (cov_members c)) l)) = true.
Proof.
  cbn [json_utf8]. induction 1 as [|c l Hc _ IH]; [done|]. cbn [map forallb]. rewrite IH, andb_true_r. by apply cov_members_utf8.
Qed.

Lemma entries_utf8 m : paths_utf8 m → json_utf8 (entries_json m) = true.
Proof.
  intros Hm. unfold entries_json. cbn [json_utf8]. apply forallb_forall. intros kv (x & <- & Hx%list_elem_of_In)%in_map_iff.
  rewrite ssort_perm in Hx. apply list_elem_of_fmap in Hx as ([id e] & -> & Hin%elem_of_map_to_list).
  cbn [fst snd member]. apply andb_true_iff. split; [apply id_key_utf8|]. apply ie_members_utf8. by apply (Hm id).
Qed.

Lemma payload_utf8 m cov : paths_utf8 m → Forall cov_utf8 cov → members_utf8 (payload_members (Some m) cov) = true.
Proof.
  intros Hm Hc. unfold payload_members. cbn [opt_entries_json]. apply entries_utf8 in Hm. apply covs_utf8 in Hc. auto with utf8.
Qed.

(** The file is the payload with one more member. *)
Definition file_members (m : gmap Z IndexEntry) (cov : list SegmentCoverage) : list (bytes * json) :=
  payload_members (Some m) cov ++ [member "checksum" (JStr (hex_encode (sha256 (index_payload (Some m) cov))))].

Definition rel_entries (dir : string) (s : IndexSnapshot) : gmap Z IndexEntry := with_path (relSegmentPath dir) <$> sn_entries s.

(** Hexadecimal digits are not escaped. *)
Definition plain_char (c : ascii) : Prop := esc_char c = [c] ∧ in_range 0 127 c = true.

Lemma quote_body_plain s : Forall plain_char s → quote_body s = s.
Proof.
  induction 1 as [|c t [Hc Hn] Ht IH]; [done|]. pose proof (quote_body_rune [c] t (rune_one c Hn)) as H.
  cbn [app esc_rune] in H. by rewrite H, Hc, IH.
Qed.

Lemma hex_char_plain d : (d < 16)%N → plain_char (hex_char d).
Proof.
  intros H. assert (d ∈ map N.of_nat (seq 0 16)) as Hin.
  { apply list_elem_of_fmap. exists (N.to_nat d). split; [by rewrite N2Nat.id|]. apply elem_of_seq. lia. }
  clear H. revert d Hin. apply Forall_forall. repeat (constructor; [by split|]). constructor.
Qed.

Lemma hex_quote_body b : quote_body (hex_encode b) = hex_encode b.
Proof.
  apply quote_body_plain. unfold hex_encode. induction b as [|c b IH]; [constructor|]. cbn [flat_map concat map].
  apply Forall_app. split; [|done]. assert (Hc : (N_of_ascii c < 256)%N) by apply N_ascii_bounded.
  apply Forall_cons. split; [|apply Forall_singleton]; apply hex_char_plain; [apply N.Div0.div_lt_upper_bound|apply N.mod_lt]; lia.
Qed.

Lemma hex_encode_utf8 b : utf8_valid (hex_encode b) = true.
Proof.
  apply utf8_valid_spec, utf8_ascii. unfold hex_encode. induction b as [|c b IH]; [constructor|]. cbn [concat map].
  apply Forall_app. split; [|done]. assert (Hc : (N_of_ascii c < 256)%N) by apply N_ascii_bounded.
  apply Forall_cons. split; [|apply Forall_singleton]; apply hex_char_plain; [apply N.Div0.div_lt_upper_bound|apply N.mod_lt]; lia.
Qed.

Lemma payload_split m cov : ∃ x, index_payload m cov = "{"%char :: x ++ b_of_s "}".
Proof. unfold index_payload. cbn [print]. eexists. reflexivity. Qed.

Lemma persist_body dir s :
  let p := index_payload (Some (rel_entries dir s)) (sn_coverage s) in
  Persist dir s = take (length p - 1) p ++ checksumKey ++ [dquote] ++ hex_encode (sha256 p) ++ [dquote] ++ b_of_s "}" ∧
  take (length p - 1) p ++ b_of_s "}" = p.
Proof.
  intros p. split.
  - unfold Persist. fold (rel_entries dir s). fold p. unfold quote. rewrite hex_quote_body. cbn [app]. by rewrite <- !app_assoc.
  - unfold p. destruct (payload_split (Some (rel_entries dir s)) (sn_coverage s)) as [x ->].
    rewrite app_comm_cons, take_app_length'; [done|]. rewrite length_app. cbn. lia.
Qed.

Lemma sep_by_snoc sep (l : list bytes) x : l ≠ [] → sep_by sep (l ++ [x]) = sep_by sep l ++ sep :: x.
Proof.
  induction l as [|a l IH]; [done|]. intros _. destruct l as [|b l]; [done|].
  change (sep_by sep ((a :: b :: l) ++ [x])) with (a ++ sep :: sep_by sep ((b :: l) ++ [x])). rewrite IH by done.
  change (sep_by sep (a :: b :: l)) with (a ++ sep :: sep_by sep (b :: l)). by rewrite <- app_assoc.
Qed.

Lemma persist_print dir s : Persist dir s = print (JObj (file_members (rel_entries dir s) (sn_coverage s))).
Proof.
  unfold Persist. fold (rel_entries dir s). set (p := index_payload _ _).
  assert (Hp : take (length p - 1) p = "{"%char :: sep_by ","%char (map print_member (payload_members (Some (rel_entries dir s)) (sn_coverage s)))).
  { destruct (persist_body dir s) as [_ H]. fold p in H. set (q := take _ p) in *. unfold p, index_payload in H. cbn [print] in H.
    change (b_of_s "}") with ["}"%char] in H. rewrite app_comm_cons in H. by apply app_inj_tail in H as [H _]. }
  rewrite Hp. unfold file_members. fold p. clearbody p. cbn [print]. rewrite map_app. cbn [map]. rewrite sep_by_snoc by done.
  cbn [fst snd member print]. unfold checksumKey. rewrite <- !app_assoc. cbn [app]. by rewrite <- !app_assoc.
Qed.

Lemma file_fields m cov : entries_wf m → Forall cov_wf cov →
  strict_fields set_file_field zero_file (file_members m cov) =
  Some (MkIFile indexFormatV2 (Some m) cov (s_of_b (hex_encode (sha256 (index_payload (Some m) cov))))).
Proof.
  intros Hm Hc. unfold file_members. set (h := hex_encode _). clearbody h. eapply sf_app.
  - eapply (sf_cons _ _ _ _ (MkIFile indexFormatV2 None [] "")); [done|].
    eapply (sf_cons _ _ _ _ (MkIFile indexFormatV2 (Some m) [] "")).
    { change ((x ← dec_entries None (entries_json m); Some (MkIFile indexFormatV2 x [] "")) = Some (MkIFile indexFormatV2 (Some m) [] "")).
      by rewrite dec_entries_json. }
    apply (sf_one _ _ _ (MkIFile indexFormatV2 (Some m) cov "")).
    change ((x ← dec_array dec_cov zero_cov [] (JArr (map (λ c, JObj (cov_members c)) cov)); Some (MkIFile indexFormatV2 (Some m) x "")) =
      Some (MkIFile indexFormatV2 (Some m) cov "")).
    rewrite dec_list_json; [done|]. eapply Forall_impl; [exact Hc|]. apply cov_fields.
  - by apply sf_one.
Qed.

Lemma strip_suffix_app a b : strip_suffix (a ++ b) b = Some a.
Proof.
  unfold strip_suffix. rewrite length_app, Nat.add_sub, drop_app_length, take_app_length. rewrite decide_True; [done|]. split; [lia|done].
Qed.

(** what [Persist] writes is accepted by [Load], which restores the
    entries with their segments placed in the directory of the file, the coverage,
    and the knowledge that it is complete. *)
Theorem load_persist dir0 dir idx s : entries_wf (sn_entries s) → Forall cov_wf (sn_coverage s) → snap_utf8 dir0 s →
  Load dir idx (Some (Persist dir0 s)) =
  Ok (MkLoaded (noteExpiring (MkIndex (with_path (resolveSegmentPath dir ∘ relSegmentPath dir0) <$> sn_entries s) (mayExpire idx)))
        (sn_coverage s) true).
Proof.
  intros Hm Hc [Hu1 Hu2]. unfold Load, unmarshal_index. rewrite persist_print.
  assert (Hok : json_ok (JObj (file_members (rel_entries dir0 s) (sn_coverage s))) = true).
  { pose proof (payload_ok (rel_entries dir0 s) (sn_coverage s)) as H. unfold file_members. cbn [json_ok] in *.
    rewrite forallb_app, H. done. }
  assert (Hu : json_utf8 (JObj (file_members (rel_entries dir0 s) (sn_coverage s))) = true).
  { change (members_utf8 (file_members (rel_entries dir0 s) (sn_coverage s)) = true). unfold file_members.
    apply members_utf8_app; [by apply payload_utf8|]. apply members_utf8_cons; [done|apply hex_encode_utf8|done]. }
  rewrite unmarshal_print by done. rewrite file_fields by (by try apply with_path_wf). cbn [if_Version if_Checksum].
  rewrite bool_decide_eq_true_2 by done. cbn [andb]. rewrite <- persist_print.
  assert (rawChecksumOK (Persist dir0 s) (s_of_b (hex_encode (sha256 (index_payload (Some (rel_entries dir0 s)) (sn_coverage s))))) = true) as ->.
  { destruct (persist_body dir0 s) as [H1 H2]. set (p := index_payload _ _) in *. unfold rawChecksumOK.
    rewrite decide_False.
    2: { intros E. apply (f_equal b_of_s), (f_equal length) in E. rewrite b_of_s_of_b, hex_encode_length, sha256_length in E. done. }
    rewrite b_of_s_of_b, H1, strip_suffix_app. rewrite H2. by apply bool_decide_eq_true_2. }
  unfold install. cbn [if_Entries if_Coverage from_option id if_Version]. unfold rel_entries. by rewrite <- map_fmap_compose.
Qed.
