(* ===== verification/IndexRecover.v ===== *)
(** * Index recovery at open: [engine/index_recovery.go]

    The persisted index is trusted as far as its coverage proves, and brought
    current by replaying the bytes appended since; otherwise the index is rebuilt
    from every segment.  The integrity gate in front of a rebuild
    ([engine/integrity_policy.go]) is an interface: it refuses, or says whether
    damaged regions are to be skipped. *)
From Stdlib Require Import Ascii Lia ZArith.
From stdpp Require Import prelude gmap strings sorting.
From S2P Require Import Prelude GoNum Json Value GoTime Store Wire Codec Segment Index Manifest Sha256 Journal Salvage IndexFile.

Definition spotCheckRandom : nat := 64.
Definition spotCheckNewest : nat := 16.

Inductive recover_err : Type :=
| ErrOpenIntegrity
| ErrRebuild (e : seg_err)
| ErrSalvage.

(** [integrityGate], once per open. *)
Class IntegrityGate := integrityGate : list Segment → res recover_err bool.

(** ** The checksums computed during one open *)

Notation coverageMemo := (gmap (string * Z) string).

Definition memo_sum (m : coverageMemo) (seg : Segment) (size : Z) (fs : list fault) : coverageMemo * list fault * option string :=
  match m !! (path seg, size) with
  | Some s => (m, fs, Some s)
  | None =>
      let '(f, fs) := next_fault fs in
      if negb (f_ok f) then (m, fs, None)
      else match prefixChecksum (disk seg) size with
           | None => (m, fs, None)
           | Some s => (<[(path seg, size) := s]> m, fs, Some s)
           end
  end.

Definition matches (m : coverageMemo) (seg : Segment) (cv : SegmentCoverage) (fs : list fault) : coverageMemo * list fault * bool :=
  if decide (cov_Checksum cv = "") then (m, fs, false)
  else
    let '(m, fs, s) := memo_sum m seg (cov_Size cv) fs in
    (m, fs, match s with Some s => bool_decide (s = cov_Checksum cv) | None => false end).

(** ** The plan *)

Record replayStep : Type := MkStep { rs_seg : Segment; rs_from : nat }.

(** A committed stamped entry below [size]. *)
Definition hasCommittedStamped (seg : Segment) (size : Z) (ds : option decisions) : bool :=
  match ds with
  | None => false
  | Some d =>
      if decide (d = ∅) then false
      else existsb (λ x : located, match applied_tx ds x.2.2 with Some _ => true | None => false end)
             (below size (ScanStampedFromOffset seg 0).1)
  end.

(** [byName]: the last segment of a name. *)
Definition by_name (all : list Segment) (name : string) : option Segment :=
  last (filter (λ s, path_base (path s) = name) all).

(** The first loop: the newest covered segment, with its number and covered size. *)
Fixpoint plan_newest (all : list Segment) (covered : list string) (newest : Z * option (Segment * Z)) (cov : list SegmentCoverage)
    : option (Z * option (Segment * Z)) :=
  match cov with
  | [] => Some newest
  | cv :: cov =>
      seg ← by_name all (cov_Segment cv);
      if decide (cov_Segment cv ∈ covered) then None
      else
        n ← segmentNum (cov_Segment cv);
        if (Z.of_nat (size seg) <? cov_Size cv)%Z then None
        else plan_newest all (cov_Segment cv :: covered)
               (if (newest.1 <=? n)%Z then (n, Some (seg, cov_Size cv)) else newest) cov
  end.

(** The transactions applied within the covered bytes are still committed, and no
    other is when none is listed. *)
Definition decisions_agree (seg : Segment) (cv : SegmentCoverage) (ds : option decisions) (epoch : string) : bool :=
  match cov_XTxApplied cv with
  | [] => match ds with None => true | Some _ => negb (hasCommittedStamped seg (cov_Size cv) ds) end
  | txs =>
      match ds with
      | None => false
      | Some d =>
          forallb (λ tx, let o := default "" (d !! tx) in bool_decide (o = xtxKindCommit ∨ o = "retire-commit")) txs &&
          negb (bool_decide (epoch ≠ "" ∧ cov_XTxEpoch cv ≠ "" ∧ cov_XTxEpoch cv ≠ epoch))
      end
  end.

(** The second loop. *)
Fixpoint plan_verify (all : list Segment) (newest : option Segment) (ds : option decisions) (epoch : string)
    (m : coverageMemo) (cov : list SegmentCoverage) (fs : list fault) : coverageMemo * list fault * bool :=
  match cov with
  | [] => (m, fs, true)
  | cv :: cov =>
      match by_name all (cov_Segment cv) with
      | None => (m, fs, false)
      | Some seg =>
          if negb (decisions_agree seg cv ds epoch) then (m, fs, false)
          else if (cov_Size cv <? Z.of_nat (size seg))%Z && negb (bool_decide (Some (path seg) = (path <$> newest))) then (m, fs, false)
          else
            let '(m, fs, ok) := matches m seg cv fs in
            if ok then plan_verify all newest ds epoch m cov fs else (m, fs, false)
      end
  end.

(** The last loop: segments that are not covered. *)
Fixpoint plan_rest (covered : list string) (maxCovered : Z) (all : list Segment) : option (list replayStep) :=
  match all with
  | [] => Some []
  | s :: all =>
      let name := path_base (path s) in
      if decide (name ∈ covered) then plan_rest covered maxCovered all
      else
        n ← segmentNum name;
        if (n <=? maxCovered)%Z then None
        else
          plan ← plan_rest covered maxCovered all;
          Some (if (0 <? size s)%nat then MkStep s 0 :: plan else plan)
  end.

Definition planReplayFor (all : list Segment) (known : bool) (cov : list SegmentCoverage) (nEntries : nat) (m : coverageMemo)
    (ds : option decisions) (epoch : string) (fs : list fault) : coverageMemo * list fault * option (list replayStep) :=
  if negb known then (m, fs, None)
  else if bool_decide (cov = []) && (0 <? nEntries) then (m, fs, None)
  else
    match plan_newest all [] (0%Z, None) cov with
    | None => (m, fs, None)
    | Some (maxCovered, newest) =>
        let '(m, fs, ok) := plan_verify all (fst <$> newest) ds epoch m cov fs in
        if negb ok then (m, fs, None)
        else
          (m, fs,
           rest ← plan_rest (map cov_Segment cov) maxCovered all;
           Some (match newest with
                 | Some (s, n) => if (n <? Z.of_nat (size s))%Z then MkStep s (Z.to_nat n) :: rest else rest
                 | None => rest
                 end))
    end.

(** ** The spot check *)

(** [off] is the start of a line whose record has the id. *)
Definition recordStartsWithID (seg : Segment) (off : nat) (id : Z) (fs : list fault) : list fault * bool :=
  if size seg <=? off then (fs, false)
  else
    let '(fs, boundary) :=
      if decide (off = 0) then (fs, true)
      else let '(f, fs) := next_fault fs in (fs, f_ok f && bool_decide (disk seg !! (off - 1) = Some newline)) in
    (fs, boundary && match ReadAt seg off with Ok e => (ID e =? id)%Z | Err _ => false end).

(** The ids looked at: the newest, and those the random numbers choose. *)
Definition spot_sample (idx : Index) (rand : list nat) : list Z :=
  let ids := ssort (λ a b, (b <? a)%Z) (map_to_list (entries idx)).*1 in
  let rest := drop spotCheckNewest ids in
  take spotCheckNewest ids ++
  match rest with [] => [] | _ => map (λ r, nth (r mod length rest) rest 0%Z) (take spotCheckRandom rand) end.

Fixpoint spot_loop (all : list Segment) (idx : Index) (ids : list Z) (fs : list fault) : list fault * bool :=
  match ids with
  | [] => (fs, true)
  | id :: ids =>
      match Get idx id with
      | None => spot_loop all idx ids fs
      | Some e =>
          match last (filter (λ s, path s = SegmentPath e) all) with
          | None => (fs, false)
          | Some seg =>
              let '(fs, ok) := recordStartsWithID seg (Offset e) id fs in
              if ok then spot_loop all idx ids fs else (fs, false)
          end
      end
  end.

Definition spotCheck (all : list Segment) (idx : Index) (rand : list nat) (fs : list fault) : list fault * bool :=
  spot_loop all idx (remove_dups (spot_sample idx rand)) fs.

(** ** Recovery *)

Section recovery.
Context `{IntegrityGate}.

(** [rebuildTolerant]: the intact lines of damaged segments. *)
Fixpoint salvage_all (m : gmap Z IndexEntry) (segs : list Segment) (ds : option decisions) (fs : list fault)
    : list fault * option (gmap Z IndexEntry) :=
  match segs with
  | [] => (fs, Some m)
  | s :: segs =>
      let '(fs, r) := scanSegmentTolerantLimit (path s) (disk s) (Some (size s)) fs in
      match r with
      | Err _ => (fs, None)
      | Ok rep =>
          salvage_all (foldl (λ m x, if entryVisible (sv_Tx x) ds then applyOne m (path s) (sv_Offset x) (sv_Entry x) else m) m
                         (rp_Entries rep)) segs ds fs
      end
  end.

Definition rebuildTolerant (idx : Index) (segs : list Segment) (ds : option decisions) (fs : list fault)
    : list fault * res recover_err Index :=
  let '(fs, r) := salvage_all ∅ (sortSegments segs) ds fs in
  (fs, match r with Some m => Ok (MkIndex m (mayExpire idx)) | None => Err ErrSalvage end).

(** A rebuild behind the gate: the new index differs from the file. *)
Definition recover_rebuild (idx : Index) (all : list Segment) (ds : option decisions) (fs : list fault)
    : list fault * res recover_err (Index * bool) :=
  match integrityGate all with
  | Err e => (fs, Err e)
  | Ok true =>
      let '(fs, r) := rebuildTolerant idx all ds fs in (fs, let* i := r in Ok (i, true))
  | Ok false =>
      (fs, match Rebuild idx all ds with Ok i => Ok (i, true) | Err e => Err (ErrRebuild e) end)
  end.

Fixpoint run_plan (m : gmap Z IndexEntry) (ds : option decisions) (plan : list replayStep) : option (gmap Z IndexEntry) :=
  match plan with
  | [] => Some m
  | st :: plan =>
      match applyEntries m (rs_seg st) (rs_from st) ds with
      | (m, None) => run_plan m ds plan
      | (_, Some _) => None
      end
  end.

Definition seg_sizes (all : list Segment) : gmap string nat :=
  foldl (λ m s, <[path s := size s]> m) ∅ all.

Definition recoverIndex (dir : string) (idx : Index) (all : list Segment) (file : option bytes) (forceRebuild : bool)
    (ds : option decisions) (epoch : string) (m : coverageMemo) (rand : list nat) (fs : list fault)
    : coverageMemo * list fault * res recover_err (Index * bool) :=
  let rebuild idx m fs := let '(fs, r) := recover_rebuild idx all ds fs in (m, fs, r) in
  if forceRebuild then rebuild idx m fs
  else
    match Load dir idx file with
    | Err _ => rebuild idx m fs
    | Ok l =>
        let idx := ld_index l in
        let '(m, fs, p) := planReplayFor all (ld_known l) (ld_coverage l) (Len idx) m ds epoch fs in
        match p with
        | None => rebuild idx m fs
        | Some plan =>
            match run_plan (entries idx) ds plan with
            | None => rebuild idx m fs
            | Some ents =>
                let idx := if decide (plan = []) then idx else noteExpiring (MkIndex ents (mayExpire idx)) in
                if negb (segmentsValid idx (seg_sizes all)) then rebuild idx m fs
                else
                  let '(fs, ok) := spotCheck all idx rand fs in
                  if negb ok then rebuild idx m fs
                  else (m, fs, Ok (idx, bool_decide (plan ≠ [])))
            end
        end
    end.
End recovery.
