(* ===== verification/IndexRecoverThm.v ===== *)
(** * Index recovery gives the index of the log

    An index brought current from a persisted snapshot is the one a rebuild of
    every segment gives: for any snapshot of an index that agreed with its
    segments, whatever happened to the segments since, wherever the directory is
    now, and whichever file calls fail. *)
From Stdlib Require Import Ascii Lia ZArith.
From stdpp Require Import prelude gmap strings sorting.
From S2P Require Import Prelude GoNum Json Value GoTime Filter Store Wire Codec Segment Index SecondaryIndex Collection Keyed CollInv Manifest ManifestThm Sha256 Journal JournalThm Salvage IndexFile IndexFileThm IndexRecover.

(** ** Segment names *)

Definition seg_name (n : Z) : string := s_of_b (seg_base n).
Definition seg_path (dir : string) (n : Z) : string := join dir (seg_name n).

Lemma seg_name_plain n : "/"%char ∉ b_of_s (seg_name n).
Proof. unfold seg_name. rewrite b_of_s_of_b. apply seg_base_no_slash. Qed.

Lemma seg_path_base dir n : path_base (seg_path dir n) = seg_name n.
Proof. apply path_base_join, seg_name_plain. Qed.

Lemma segmentNum_name n : (0 ≤ n < two64)%Z → segmentNum (seg_name n) = Some n.
Proof.
  intros Hn. apply segmentNum_base; [done|]. unfold base_name. rewrite base_loop_plain by apply seg_name_plain.
  cbn [rev app]. unfold seg_name. by rewrite b_of_s_of_b.
Qed.

Lemma segmentNum_seg_path dir n : (0 ≤ n < two64)%Z → segmentNum (seg_path dir n) = Some n.
Proof.
  intros Hn. apply segmentNum_base; [done|]. unfold seg_path. rewrite base_name_join by apply seg_name_plain.
  unfold seg_name. by rewrite b_of_s_of_b.
Qed.

Lemma seg_name_inj n m : (0 ≤ n < two64)%Z → (0 ≤ m < two64)%Z → seg_name n = seg_name m → n = m.
Proof. intros Hn Hm E. pose proof (segmentNum_name n Hn) as H. rewrite E, segmentNum_name in H by done. by injection H. Qed.

Lemma strip_prefix_app_eq p s : strip_prefix p (p ++ s) = Some s.
Proof. induction p as [|c p IH]; [done|]. cbn [app strip_prefix]. by rewrite decide_True. Qed.

(** A segment's path in the file is its name; loaded, it is in the new directory. *)
Lemma moved_path dir0 dir n : is_abs dir0 = true →
  (resolveSegmentPath dir ∘ relSegmentPath dir0) (seg_path dir0 n) = seg_path dir n.
Proof.
  intros Habs. unfold compose, relSegmentPath, seg_path.
  assert (is_abs (join dir0 (seg_name n)) = true) as ->.
  { unfold is_abs in *. rewrite b_of_s_join. by destruct (b_of_s dir0). }
  cbn [negb]. rewrite decide_False.
  2: { intros E. apply (f_equal b_of_s), (f_equal length) in E. rewrite b_of_s_join, length_app in E. cbn [length] in E. lia. }
  rewrite b_of_s_join.
  assert (b_of_s (dir0 +:+ "/") = b_of_s dir0 ++ ["/"%char]) as -> by apply b_of_s_app.
  change ("/"%char :: b_of_s (seg_name n)) with (["/"%char] ++ b_of_s (seg_name n)). rewrite app_assoc, strip_prefix_app_eq.
  assert (dotdot (b_of_s (seg_name n)) = false) as ->.
  { unfold seg_name. rewrite b_of_s_of_b. unfold dotdot, seg_base. by apply bool_decide_eq_false_2. }
  rewrite s_of_b_of_s. unfold resolveSegmentPath.
  assert (is_abs (seg_name n) = false) as ->; [|done].
  unfold is_abs, seg_name. rewrite b_of_s_of_b. unfold seg_base. cbn [b_of_s String.list_ascii_of_string app]. by apply bool_decide_eq_false_2.
Qed.

(** ** Prefixes of a file *)

Lemma holds_prefix d1 d2 off e1 e : holds d1 off e1 → holds (d1 ++ d2) off e →
  ∃ e2, e = e1 ++ e2 ∧ holds d2 (off + length d1) e2.
Proof.
  intros H1. revert e. induction H1 as [off|l x rest off ents Hg Hlen Hh IH]; intros e H.
  - exists e. by rewrite Nat.add_0_r.
  - rewrite <- app_assoc in H. cbn [app] in H. inversion H as [|l' x' rest' off' ents' Hg' Hlen' Hh' E1 E2]; subst.
    { by destruct l. }
    assert (l' = l ∧ rest' = rest ++ d2) as [-> ->].
    { pose proof (split_newline_app l (rest ++ d2) ltac:(apply Hg)) as S1. rewrite <- E1 in S1.
      rewrite split_newline_app in S1 by apply Hg'. by injection S1. }
    destruct (IH _ Hh') as (e2 & -> & H2). exists e2. split.
    + cbn [app]. do 2 f_equal. pose proof (gl_decode _ _ Hg) as D1. rewrite (gl_decode _ _ Hg') in D1. by injection D1.
    + rewrite length_app. cbn [length]. by replace (off + (length l + S (length rest))) with (off + length l + 1 + length rest) by lia.
Qed.

Lemma holds_empty off e : holds [] off e → e = [].
Proof. intros H. inversion H as [|l]; subst; [done|by destruct l]. Qed.

(** The current segment [s], holding [e], starts with the bytes of [s0], which held [e0]. *)
Lemma seg_grew s0 e0 s e :
  seg_inv s0 e0 → poisoned s0 = false → seg_inv s e → poisoned s = false → take (size s0) (disk s) = disk s0 →
  size s0 ≤ size s ∧ ∃ t, e = e0 ++ t ∧ holds (drop (size s0) (disk s)) (size s0) t ∧ (size s = size s0 → t = []).
Proof.
  intros [_ H0 C0] P0 [_ H C] P E. specialize (C0 P0). specialize (C P).
  rewrite C0, take_ge in H0 by done. rewrite C, take_ge in H by done.
  rewrite <- (take_drop (size s0) (disk s)), E in H.
  assert (size s0 ≤ size s) as Hle.
  { rewrite C, C0, <- E, length_take. lia. }
  split; [done|]. destruct (holds_prefix _ _ _ _ _ H0 H) as (t & -> & Ht). exists t. split; [done|].
  rewrite Nat.add_0_l, <- C0 in Ht. split; [done|]. intros Es. rewrite drop_ge in Ht by lia. by apply holds_empty in Ht.
Qed.

Lemma below_holds n d off e : holds d off e → (Z.of_nat (off + length d) ≤ n)%Z → below n e = e.
Proof.
  intros H Hn. pose proof (holds_offsets _ _ _ H) as Ho. clear H. induction e as [|x e IH]; [done|].
  apply Forall_cons in Ho as [Hx Ho]. cbn [below]. destruct (Z.leb_spec n (Z.of_nat x.1)); [lia|]. by rewrite IH.
Qed.

Lemma below_app n e t : below n e = e → Forall (λ x : located, (n ≤ Z.of_nat x.1)%Z) t → below n (e ++ t) = e.
Proof.
  intros H Ht. induction e as [|x e IH]; cbn [app below].
  - destruct Ht as [|x t Hx _]; [done|]. cbn [below]. by destruct (Z.leb_spec n (Z.of_nat x.1)); [|lia].
  - cbn [below] in H. destruct (n <=? Z.of_nat x.1)%Z; [done|]. injection H as H. by rewrite IH.
Qed.

(** The entries of [s] below the covered size are those the snapshot saw. *)
Lemma below_covered s0 e0 s e :
  seg_inv s0 e0 → poisoned s0 = false → seg_inv s e → poisoned s = false → take (size s0) (disk s) = disk s0 →
  below (Z.of_nat (size s0)) (ScanStampedFromOffset s 0).1 = e0.
Proof.
  intros I0 P0 I P E. rewrite (scan_entries _ _ I P). cbn [fst]. destruct (seg_grew _ _ _ _ I0 P0 I P E) as (_ & t & -> & Ht & _).
  destruct I0 as [_ H0 C0]. specialize (C0 P0). rewrite C0, take_ge in H0 by done. apply below_app.
  - eapply below_holds; [exact H0|]. lia.
  - eapply Forall_impl; [exact (holds_offsets _ _ _ Ht)|]. cbn. intros x [? _]. lia.
Qed.

(** ** What a snapshot records *)

Definition hexsum (d : bytes) : string := s_of_b (hex_encode (sha256 d)).

(** The coverage [c] describes the segment [s], which holds [e], under the decisions [ds]. *)
Record cov_honest (ds : option decisions) (s : Segment) (e : list located) (c : SegmentCoverage) : Prop := {
  ch_name : cov_Segment c = path_base (path s);
  ch_size : cov_Size c = Z.of_nat (size s);
  ch_sum : cov_Checksum c = hexsum (disk s);
  ch_txs : ∀ t, t ∈ cov_XTxApplied c ↔ ∃ x, x ∈ e ∧ applied_tx ds x.2.2 = Some t
}.

Lemma elem_of_once t l : ∀ seen, t ∈ once seen l ↔ t ∈ l ∧ t ∉ seen.
Proof.
  induction l as [|x l IH]; intros seen; cbn [once]; [set_solver|].
  case_decide as H; rewrite ?elem_of_cons, ?IH, ?elem_of_cons; destruct (decide (t = x)); set_solver.
Qed.

Lemma prefixChecksum_whole d : prefixChecksum d (Z.of_nat (length d)) = Some (hexsum d).
Proof.
  unfold prefixChecksum. destruct (Z.ltb_spec (Z.of_nat (length d)) 0); [lia|]. rewrite Z.ltb_irrefl. cbn [orb].
  by rewrite Nat2Z.id, take_ge.
Qed.

Lemma captureCoverage_spec s e ds epoch fs fs' c :
  seg_inv s e → poisoned s = false → captureCoverage s ds epoch fs = (fs', Some c) → cov_honest ds s e c.
Proof.
  intros I P. unfold captureCoverage. destruct (next_fault fs) as [f fs1]. destruct (f_ok f); cbn [negb]; [|done].
  pose proof (below_covered s e s e I P I P) as Hb. destruct I as [_ _ C]. specialize (C P).
  rewrite Hb by (by rewrite C, take_ge). rewrite C, prefixChecksum_whole. cbn [mbind option_bind].
  assert (Ht : ∀ t, t ∈ once [] (omap (λ x : located, applied_tx ds x.2.2) e) ↔ ∃ x, x ∈ e ∧ applied_tx ds x.2.2 = Some t).
  { intros t. rewrite elem_of_once, list_elem_of_omap. set_solver. }
  destruct (once [] _) as [|x l] eqn:Eo; intros [= _ <-]; split; cbn [cov_Segment cov_Size cov_Checksum cov_XTxApplied]; rewrite ?C; try done.
  intros t. rewrite <- Ht. exact (elem_of_ssort str_ltb t (x :: l)).
Qed.

(** The cache holds nothing wrong about the segments. *)
Definition cache_ok (ds : option decisions) (cache : option cov_cache) (segs : list Segment) (ents : list (list located)) : Prop :=
  ∀ m, cache = Some m → Forall2 (λ s e, ∀ c, m !! path s = Some c → cov_Size c = Z.of_nat (size s) → cov_honest ds s e c) segs ents.

Lemma capture_all_spec ds epoch segs ents : ∀ (marks : list bool) cache fs fs' cov cache',
  holds_all segs ents → NoDup (map path segs) → cache_ok ds cache segs ents →
  capture_all (zip segs marks) cache ds epoch fs = (fs', Some (cov, cache')) → length marks = length segs →
  length cov = length segs ∧ Forall2 (λ (se : Segment * list located) c, cov_honest ds se.1 se.2 c) (zip segs ents) cov.
Proof.
  intros marks cache fs fs' cov cache' Hh. revert marks cache fs fs' cov cache'.
  induction Hh as [|s e segs ents [I P] _ IH]; intros [|sl marks] cache fs fs' cov cache' Hnd Hc Hrun Hl; try done.
  { cbn in Hrun. injection Hrun as _ <- _. by split; [|constructor]. }
  cbn [map] in Hnd. apply NoDup_cons in Hnd as [Hn Hnd]. injection Hl as Hl.
  assert (Hrest : ∀ cache1, cache_ok ds cache1 segs ents → ∀ c fs1 r,
    capture_all (zip segs marks) cache1 ds epoch fs1 = (fs', r) → (p ← r; Some (c :: p.1, p.2)) = Some (cov, cache') → cov_honest ds s e c →
    length cov = S (length segs) ∧ Forall2 (λ (se : Segment * list located) c, cov_honest ds se.1 se.2 c) ((s, e) :: zip segs ents) cov).
  { intros cache1 Hc1 c fs1 r Hr Heq Hh. destruct r as [[cov1 cache2]|]; [|done]. cbn in Heq. injection Heq as <- _.
    destruct (IH _ _ _ _ _ _ Hnd Hc1 Hr Hl) as [HL HF]. split; [cbn; by rewrite HL|]. by constructor. }
  cbn [zip zip_with] in Hrun |- *. cbn [capture_all] in Hrun.
  assert (Hc' : cache_ok ds cache segs ents).
  { intros m Hm. by apply Hc, Forall2_cons_1 in Hm as [_ Hm]. }
  destruct (if sl then _ else _) as [c|] eqn:Ehit.
  - destruct (capture_all _ _ _ _ _) as [fs2 r] eqn:Er. injection Hrun as -> Hr. eapply Hrest; [exact Hc'|exact Er|exact Hr|].
    destruct sl; [|done]. destruct cache as [m|]; [|done]. cbn in Ehit. destruct (m !! path s) as [c0|] eqn:Em; [|done]. cbn in Ehit.
    case_decide as Hs; [|done]. injection Ehit as ->. specialize (Hc m eq_refl). apply Forall2_cons_1 in Hc as [Hc _]. by apply Hc.
  - destruct (captureCoverage s ds epoch fs) as [fs1 [c|]] eqn:Ec; [|done]. destruct (capture_all _ _ _ _ fs1) as [fs2 r] eqn:Er.
    injection Hrun as -> Hr. eapply Hrest; [|exact Er|exact Hr|by eapply captureCoverage_spec].
    destruct sl; [|done]. intros m Hm. destruct cache as [m0|]; [|done]. injection Hm as <-. specialize (Hc' m0 eq_refl).
    clear -Hn Hc'. induction Hc' as [|s' e' segs ents H _ IH]; [constructor|]. cbn [map] in Hn. apply not_elem_of_cons in Hn as [Hn1 Hn].
    constructor; [|by apply IH]. by rewrite lookup_insert_ne.
Qed.

(** The snapshot of an index, with a cache of the sealed segments or without. *)
Lemma snapshot_spec idx ds epoch segs ents marks cache fs fs' snap cache' :
  holds_all segs ents → NoDup (map path segs) → cache_ok ds cache segs ents → length marks = length segs →
  snapshotCached idx (zip segs marks) cache ds epoch fs = (fs', Some (snap, cache')) →
  sn_entries snap = entries idx ∧
  ∃ cov, sn_coverage snap ≡ₚ cov ∧ Forall2 (λ (se : Segment * list located) c, cov_honest ds se.1 se.2 c) (zip segs ents) cov.
Proof.
  intros Hh Hnd Hc Hl. unfold snapshotCached. destruct (capture_all _ _ _ _ _) as [fs1 r] eqn:Er. intros [= -> Hr].
  destruct r as [[cov cache1]|]; [|done]. cbn in Hr. injection Hr as <- _. cbn [sn_entries sn_coverage]. split; [done|].
  exists cov. split; [apply ssort_perm|]. by eapply capture_all_spec.
Qed.

(** ** What the plan has checked *)

Section plan.
Context (all : list Segment).
Hypothesis Hnd : NoDup (map path all).

Definition memo_ok (m : coverageMemo) : Prop :=
  ∀ s n h, s ∈ all → m !! (path s, n) = Some h → prefixChecksum (disk s) n = Some h.

Lemma same_path s s' : s ∈ all → s' ∈ all → path s = path s' → s = s'.
Proof.
  intros Hs Hs' E. apply list_elem_of_lookup in Hs as [i Hi], Hs' as [j Hj].
  assert (i = j); [|congruence]. eapply NoDup_lookup; [exact Hnd|..]; rewrite list_lookup_fmap; [by rewrite Hi|].
  rewrite Hj. cbn. by rewrite E.
Qed.

Lemma by_name_elem name s : by_name all name = Some s → s ∈ all ∧ path_base (path s) = name.
Proof. unfold by_name. intros H%last_Some_elem_of. by apply list_elem_of_filter in H as [? ?]. Qed.

Lemma matches_spec m s cv fs m' fs' ok : memo_ok m → s ∈ all → matches m s cv fs = (m', fs', ok) →
  memo_ok m' ∧ (ok = true → prefixChecksum (disk s) (cov_Size cv) = Some (cov_Checksum cv)).
Proof.
  intros Hm Hs. unfold matches, memo_sum. case_decide; [by intros [= <- <- <-]|].
  destruct (m !! (path s, cov_Size cv)) as [h|] eqn:Em.
  { intros [= <- <- <-]. split; [done|]. intros ->%bool_decide_eq_true. by apply Hm. }
  destruct (next_fault fs) as [f fs1]. destruct (f_ok f); cbn [negb]; [|by intros [= <- <- <-]].
  destruct (prefixChecksum (disk s) (cov_Size cv)) as [h|] eqn:Ep; [|by intros [= <- <- <-]].
  intros [= <- <- <-]. split; [|by intros ->%bool_decide_eq_true]. intros s' n' h' Hs' Hl.
  destruct (decide ((path s, cov_Size cv) = (path s', n'))) as [[= Hp <-]|Hne].
  - rewrite Hp, lookup_insert_eq in Hl. injection Hl as <-. by rewrite <- (same_path s s' Hs Hs' Hp).
  - rewrite lookup_insert_ne in Hl by done. by eapply Hm.
Qed.

(** A covered segment, as the second loop leaves it. *)
Definition cov_checked (newest : option Segment) (ds : option decisions) (epoch : string) (cv : SegmentCoverage) : Prop :=
  ∃ s, by_name all (cov_Segment cv) = Some s ∧ decisions_agree s cv ds epoch = true ∧
       ((cov_Size cv < Z.of_nat (size s))%Z → Some (path s) = path <$> newest) ∧
       prefixChecksum (disk s) (cov_Size cv) = Some (cov_Checksum cv).

Lemma plan_verify_spec newest ds epoch cov : ∀ m fs m' fs' ok,
  memo_ok m → plan_verify all newest ds epoch m cov fs = (m', fs', ok) →
  memo_ok m' ∧ (ok = true → Forall (cov_checked newest ds epoch) cov).
Proof.
  induction cov as [|cv cov IH]; intros m fs m' fs' ok Hm; cbn [plan_verify]; [by intros [= <- <- <-]|].
  destruct (by_name all (cov_Segment cv)) as [s|] eqn:Eb; [|by intros [= <- <- <-]].
  destruct (decisions_agree s cv ds epoch) eqn:Ed; cbn [negb]; [|by intros [= <- <- <-]].
  destruct (_ && _) eqn:Eg; [by intros [= <- <- <-]|].
  destruct (matches m s cv fs) as [[m1 fs1] ok1] eqn:Em. destruct (by_name_elem _ _ Eb) as [Hs _].
  destruct (matches_spec _ _ _ _ _ _ _ Hm Hs Em) as [Hm1 Hok1]. destruct ok1; [|by intros [= <- <- <-]].
  intros Hrun. destruct (IH _ _ _ _ _ Hm1 Hrun) as [Hm' Hok]. split; [done|]. intros ->. constructor; [|by apply Hok].
  exists s. split_and!; [done|done| |by apply Hok1]. intros Hlt. apply andb_false_iff in Eg as [Eg|Eg].
  - apply Z.ltb_ge in Eg. lia.
  - apply negb_false_iff, bool_decide_eq_true in Eg. done.
Qed.

(** The newest covered segment. *)
Definition newest_ok (cov : list SegmentCoverage) (nw : Z * option (Segment * Z)) : Prop :=
  match nw.2 with
  | None => nw.1 = 0%Z
  | Some (s, n) => ∃ cv, cv ∈ cov ∧ by_name all (cov_Segment cv) = Some s ∧ segmentNum (cov_Segment cv) = Some nw.1 ∧ n = cov_Size cv
  end.

Definition newest_above (nw : Z * option (Segment * Z)) (cv : SegmentCoverage) : Prop :=
  ∃ k, segmentNum (cov_Segment cv) = Some k ∧ (k ≤ nw.1)%Z ∧ is_Some nw.2.

Lemma segmentNum_nonneg p n : segmentNum p = Some n → (0 ≤ n)%Z.
Proof.
  unfold segmentNum. repeat case_match; try done. intros [= <-]. lia.
Qed.

Lemma plan_newest_spec cov : ∀ covered nw nw' done_,
  plan_newest all covered nw cov = Some nw' → newest_ok done_ nw →
  Forall (newest_above nw) done_ →
  newest_ok (done_ ++ cov) nw' ∧ Forall (newest_above nw') (done_ ++ cov).
Proof.
  induction cov as [|cv cov IH]; intros covered nw nw' dn Hrun Hok Hall; cbn [plan_newest] in Hrun.
  { injection Hrun as <-. by rewrite app_nil_r. }
  destruct (by_name all (cov_Segment cv)) as [s|] eqn:Eb; [|done]. cbn [mbind option_bind] in Hrun.
  case_decide; [done|]. destruct (segmentNum (cov_Segment cv)) as [n|] eqn:En; [|done]. cbn [mbind option_bind] in Hrun.
  destruct (Z.ltb_spec (Z.of_nat (size s)) (cov_Size cv)); [done|].
  rewrite (assoc (++) dn [cv] cov). apply (IH _ _ _ _ Hrun).
  - destruct (Z.leb_spec nw.1 n).
    + exists cv. split_and!; try done. apply elem_of_app. right. by left.
    + unfold newest_ok in *. destruct nw as [mx [[s1 n1]|]]; [|done]. destruct Hok as (cv1 & Hin & Hok).
      exists cv1. split; [apply elem_of_app; by left|done].
  - apply Forall_app. split.
    + eapply Forall_impl; [exact Hall|]. intros c (k & Hk & Hle & Hs). exists k. split; [done|].
      destruct (Z.leb_spec nw.1 n); cbn; [split; [lia|eauto]|done].
    + apply Forall_singleton. exists n. split; [done|]. destruct (Z.leb_spec nw.1 n); cbn; [split; [lia|eauto]|].
      split; [lia|]. unfold newest_ok in Hok. destruct (nw.2); [done|]. pose proof (segmentNum_nonneg _ _ En). lia.
Qed.

(** The segments that are not covered are newer, and those that hold anything are replayed. *)
Lemma plan_rest_spec covered mx segs plan : plan_rest covered mx segs = Some plan →
  Forall (λ s, path_base (path s) ∉ covered → ∃ n, segmentNum (path_base (path s)) = Some n ∧ (mx < n)%Z) segs ∧
  plan = map (λ s, MkStep s 0) (filter (λ s, path_base (path s) ∉ covered ∧ 0 < size s) segs).
Proof.
  revert plan. induction segs as [|s segs IH]; intros plan; cbn [plan_rest]; [by intros [= <-]|].
  case_decide as Hc.
  - intros [Hall ->]%IH. split; [by constructor|]. by rewrite filter_cons_False by (by intros [? _]).
  - destruct (segmentNum _) as [n|] eqn:En; [|done]. cbn [mbind option_bind]. destruct (Z.leb_spec n mx); [done|].
    destruct (plan_rest covered mx segs) as [p|] eqn:Ep; [|done]. cbn [mbind option_bind]. intros [= <-].
    destruct (IH _ eq_refl) as [Hall ->]. split; [constructor; [intros _; by exists n|done]|].
    destruct (Nat.ltb_spec 0 (size s)).
    + by rewrite filter_cons_True by done.
    + rewrite filter_cons_False by (intros [_ ?]; lia). done.
Qed.
End plan.

(** ** Replay under another directory and other decisions *)

Definition moved (f : string → string) (log : list log_entry) : list log_entry := map (λ x, (f x.1, x.2)) log.

Lemma with_path_applyOne f m p off e : with_path f <$> applyOne m p off e = applyOne (with_path f <$> m) (f p) off e.
Proof.
  unfold applyOne. case_decide.
  - rewrite fmap_insert. f_equal. unfold with_path, next_rev. cbn. rewrite lookup_fmap. by destruct (m !! ID e).
  - case_decide; [apply fmap_delete|done].
Qed.

Lemma replay_moved f ds log : ∀ m, with_path f <$> replay ds m log = replay ds (with_path f <$> m) (moved f log).
Proof.
  induction log as [|[p [o [e tx]]] log IH]; intros m; [done|]. unfold replay in *. cbn [foldl moved map fst snd]. rewrite IH.
  f_equal. destruct (entryVisible tx ds); [apply with_path_applyOne|done].
Qed.

Lemma replay_agree ds ds' log m :
  Forall (λ x : log_entry, entryVisible x.2.2.2 ds' = entryVisible x.2.2.2 ds) log → replay ds' m log = replay ds m log.
Proof.
  intros H. revert m. induction H as [|[p [o [e tx]]] log Hx _ IH]; intros m; [done|]. unfold replay in *. cbn [foldl fst snd] in *.
  by rewrite Hx.
Qed.

Lemma moved_app f a b : moved f (a ++ b) = moved f a ++ moved f b.
Proof. apply map_app. Qed.

Lemma moved_full_log f segs0 segs ents :
  Forall2 (λ s0 s, path s = f (path s0)) segs0 segs → moved f (full_log segs0 ents) = full_log segs ents.
Proof.
  intros H. revert ents. induction H as [|s0 s segs0 segs Hp _ IH]; intros [|e ents]; try done.
  unfold full_log in *. cbn [zip_with concat]. rewrite moved_app, IH, Hp. f_equal. unfold moved, seg_log. by rewrite map_map.
Qed.

Lemma full_log_app a b ea eb : length a = length ea → full_log (a ++ b) (ea ++ eb) = full_log a ea ++ full_log b eb.
Proof. intros H. unfold full_log. by rewrite zip_with_app, concat_app. Qed.

(** ** Numbered segments of a directory *)

Lemma filter_agree {X} (P Q : X → Prop) `{∀ x, Decision (P x), ∀ x, Decision (Q x)} l :
  Forall (λ x, P x ↔ Q x) l → filter P l = filter Q l.
Proof.
  induction 1 as [|x l Hx _ IH]; [done|]. destruct (decide (P x)).
  - rewrite !filter_cons_True by tauto. by rewrite IH.
  - rewrite !filter_cons_False by tauto. done.
Qed.

Lemma NoDup_snoc_ne {X} (l : list X) x : NoDup (l ++ [x]) → x ∉ l.
Proof. intros (_ & H & _)%NoDup_app Hin. apply (H x Hin). by left. Qed.

Record numbered_in (dir : string) (segs : list Segment) (nums : list Z) : Prop := {
  ni_paths : map path segs = map (seg_path dir) nums;
  ni_sorted : StronglySorted Z.lt nums;
  ni_range : Forall (λ n, 0 ≤ n < two64)%Z nums
}.

Lemma seg_path_inj dir n m : (0 ≤ n < two64)%Z → (0 ≤ m < two64)%Z → seg_path dir n = seg_path dir m → n = m.
Proof. intros Hn Hm E. apply seg_name_inj; [done|done|]. by rewrite <- !(seg_path_base dir), E. Qed.

Lemma numbered_lookup dir segs nums i s : numbered_in dir segs nums → segs !! i = Some s →
  ∃ n, nums !! i = Some n ∧ path s = seg_path dir n ∧ (0 ≤ n < two64)%Z.
Proof.
  intros [Hp _ Hr] Hi. apply (f_equal (lookup i)) in Hp. rewrite !list_lookup_fmap, Hi in Hp. cbn in Hp.
  destruct (nums !! i) as [n|] eqn:En; [|done]. injection Hp as Hp. exists n. split_and!; [done|done|..];
    rewrite Forall_lookup in Hr; by eapply Hr.
Qed.

Lemma numbered_elem dir segs nums s : numbered_in dir segs nums → s ∈ segs → ∃ n, n ∈ nums ∧ path s = seg_path dir n ∧ (0 ≤ n < two64)%Z.
Proof.
  intros Hn [i Hi]%list_elem_of_lookup. destruct (numbered_lookup _ _ _ _ _ Hn Hi) as (n & Hl & ? & ?). exists n.
  split; [by eapply list_elem_of_lookup_2|done].
Qed.

Lemma numbered_paths_NoDup dir segs nums : numbered_in dir segs nums → NoDup (map path segs).
Proof.
  intros [-> Hs Hr]. apply NoDup_alt. intros i j p Hi Hj. rewrite list_lookup_fmap in Hi, Hj.
  destruct (nums !! i) as [a|] eqn:Ea; [|done]. destruct (nums !! j) as [b|] eqn:Eb; [|done]. cbn in Hi, Hj.
  rewrite Forall_lookup in Hr. assert (a = b) as -> by (apply (seg_path_inj dir); [eauto|eauto|congruence]).
  eapply NoDup_lookup; [by apply sorted_lt_NoDup|done|done].
Qed.

Lemma numbered_in_sorted dir segs nums : numbered_in dir segs nums → sortSegments segs = segs.
Proof.
  intros [Hp Hs Hr]. apply ssort_fixed. revert nums Hp Hs Hr.
  induction segs as [|s segs IH]; intros [|n nums] Hp Hs Hr; try done; [constructor|].
  cbn [map] in Hp. injection Hp as Hp1 Hp2. apply Forall_cons in Hr as [Hn Hr]. apply StronglySorted_inv in Hs as [Hs Hlt].
  constructor; [by eapply IH|]. apply Forall_forall. intros s' Hin.
  assert (path s' ∈ map (seg_path dir) nums) as Hin' by (rewrite <- Hp2; apply list_elem_of_fmap; eauto).
  apply list_elem_of_fmap in Hin' as (k & Hk & Hin'). rewrite Forall_forall in Hlt, Hr. specialize (Hlt _ Hin'). specialize (Hr _ Hin').
  unfold not_after, seg_less. rewrite Hp1, Hk, !segmentNum_seg_path by lia. destruct (Z.eqb_spec k n); [lia|]. apply Z.ltb_ge. lia.
Qed.

(** An increasing list that contains another, and else only larger numbers, extends it. *)
Lemma sorted_extends nums0 nums : StronglySorted Z.lt nums0 → StronglySorted Z.lt nums →
  (∀ n, n ∈ nums0 → n ∈ nums) → (∀ n k, n ∈ nums → n ∉ nums0 → k ∈ nums0 → (k < n)%Z) →
  ∃ newer, nums = nums0 ++ newer.
Proof.
  revert nums. induction nums0 as [|a nums0 IH]; intros nums H0 H Hin Hgt; [by exists nums|].
  destruct nums as [|b nums]; [by destruct (not_elem_of_nil a (Hin a ltac:(by left)))|].
  apply StronglySorted_inv in H0 as [H0 Ha], H as [H Hb]. rewrite Forall_forall in Ha, Hb.
  assert (b = a) as ->.
  { assert (a ∈ b :: nums) as [->|Hab]%elem_of_cons by (apply Hin; by left); [done|]. specialize (Hb _ Hab).
    assert (b ∉ a :: nums0) as Hnb. { intros [->|Hbb]%elem_of_cons; [lia|]. specialize (Ha _ Hbb). lia. }
    specialize (Hgt b a ltac:(by left) Hnb ltac:(by left)). lia. }
  destruct (IH nums H0 H) as [newer ->]; [| |by exists newer].
  - intros n Hn. assert (n ∈ a :: nums) as [->|?]%elem_of_cons by (apply Hin; by right); [|done]. specialize (Ha _ Hn). lia.
  - intros n k Hn Hn0 Hk. apply Hgt; [by right| |by right]. intros [->|?]%elem_of_cons; [|done]. specialize (Hb _ Hn). lia.
Qed.

(** ** Decisions *)

Definition visible_tx (ds : option decisions) (x : located) : Prop := entryVisible x.2.2 ds = true.

(** No transaction of a segment with applied transactions was committed after the
    snapshot. *)
Definition no_late_commit (ds0 ds : option decisions) (e : list located) : Prop :=
  (∃ y, y ∈ e ∧ is_Some (applied_tx ds0 y.2.2)) → ∀ x, x ∈ e → visible_tx ds x → visible_tx ds0 x.

Lemma applied_tx_Some ds t : st_t t ≠ "" → applied_tx ds (Some t) = if entryVisible (Some t) ds then Some (st_t t) else None.
Proof. intros H. unfold applied_tx. by rewrite decide_False. Qed.

Lemma stamped_visible ds t : st_t t ≠ "" →
  entryVisible (Some t) ds = match ds with
                             | None => false
                             | Some d => bool_decide (default "" (d !! st_t t) = xtxKindCommit ∨ default "" (d !! st_t t) = "retire-commit")
                             end.
Proof. intros H. unfold entryVisible. by rewrite decide_False. Qed.

Lemma agree_visible s0 e0 s c ds0 ds epoch :
  cov_honest ds0 s0 e0 c → decisions_agree s c ds epoch = true →
  below (Z.of_nat (size s0)) (ScanStampedFromOffset s 0).1 = e0 → no_late_commit ds0 ds e0 →
  Forall (λ x : located, entryVisible x.2.2 ds = entryVisible x.2.2 ds0) e0.
Proof.
  intros [_ Hsz _ Htx] Hag Hb Hlate. apply Forall_forall. intros [o [e tx]] Hin. cbn [fst snd].
  destruct tx as [t|]; [|done]. destruct (decide (st_t t = "")) as [E|E]; [unfold entryVisible; by rewrite !(decide_True (P := st_t t = ""))|].
  unfold decisions_agree in Hag. destruct (cov_XTxApplied c) as [|t1 l] eqn:Ea.
  - assert (entryVisible (Some t) ds0 = false) as ->.
    { apply not_true_is_false. intros Hv. apply (not_elem_of_nil (st_t t)), Htx. eexists. split; [exact Hin|].
      cbn [snd]. by rewrite applied_tx_Some, Hv. }
    destruct ds as [d|]; [|by rewrite stamped_visible]. apply negb_true_iff in Hag. unfold hasCommittedStamped in Hag.
    case_decide as Hd.
    { rewrite stamped_visible by done. assert (d !! st_t t = None) as -> by (rewrite Hd; exact (lookup_empty (M := gmap string) (st_t t))).
      by apply bool_decide_eq_false_2; intros [?|?]. } rewrite Hsz, Hb in Hag.
    apply not_true_is_false. intros Hv. apply not_true_iff_false in Hag. apply Hag, existsb_exists. eexists.
    split; [apply list_elem_of_In; exact Hin|]. cbn [snd]. by rewrite applied_tx_Some, Hv.
  - destruct ds as [d|]; [|done]. apply andb_true_iff in Hag as [Hag _]. rewrite forallb_forall in Hag.
    destruct (entryVisible (Some t) ds0) eqn:Hv.
    + rewrite stamped_visible by done. apply Hag. apply list_elem_of_In. apply Htx. eexists. split; [exact Hin|].
      cbn [snd]. by rewrite applied_tx_Some, Hv.
    + apply not_true_is_false. intros Hv'. assert (t1 ∈ t1 :: l) as (y & Hy & Hay)%Htx by (by left).
      assert (visible_tx ds0 (o, (e, Some t))) as Hc; [|change (entryVisible (Some t) ds0 = true) in Hc; congruence].
      apply Hlate; [by exists y; rewrite Hay|done|done].
Qed.

(** ** The plan covers what the snapshot does not *)

Section covered.
Context (dir0 dir epoch : string) (ds0 ds : option decisions).
Context (segs0 all : list Segment) (es0 es : list (list located)) (nums0 nums : list Z).
Hypothesis Habs : is_abs dir0 = true.
Hypothesis Hn0 : numbered_in dir0 segs0 nums0.
Hypothesis Hh0 : holds_all segs0 es0.
Hypothesis Hn : numbered_in dir all nums.
Hypothesis Hh : holds_all all es.
Hypothesis Hsha : ∀ s0 s, s0 ∈ segs0 → s ∈ all →
  sha256 (take (size s0) (disk s)) = sha256 (disk s0) → take (size s0) (disk s) = disk s0.
Hypothesis Hlate : Forall (no_late_commit ds0 ds) es0.

(** What became of a covered segment. *)
Record kept_seg (newest : option Segment) (s0 : Segment) (e0 : list located) (s : Segment) (e : list located) : Prop := {
  ks_grew : ∃ t, e = e0 ++ t ∧ holds (drop (size s0) (disk s)) (size s0) t ∧ (size s = size s0 → t = []);
  ks_size : size s0 ≤ size s;
  ks_newest : size s0 < size s → Some (path s) = path <$> newest;
  ks_visible : Forall (λ x : located, entryVisible x.2.2 ds = entryVisible x.2.2 ds0) e0
}.

Lemma hexsum_inj a b : hexsum a = hexsum b → sha256 a = sha256 b.
Proof.
  unfold hexsum. intros E. apply (f_equal b_of_s) in E. rewrite !b_of_s_of_b in E.
  apply (f_equal hex_decode) in E. rewrite !hex_decode_encode in E. by injection E.
Qed.

Lemma all_NoDup : NoDup (map path all).
Proof. by eapply numbered_paths_NoDup. Qed.

Lemma kept newest cov s0 e0 n i :
  Forall2 (λ (se : Segment * list located) c, cov_honest ds0 se.1 se.2 c) (zip segs0 es0) cov →
  Forall (cov_checked all newest ds epoch) cov →
  segs0 !! i = Some s0 → es0 !! i = Some e0 → nums0 !! i = Some n →
  n ∈ nums ∧ ∀ k s e, all !! k = Some s → es !! k = Some e → path s = seg_path dir n → kept_seg newest s0 e0 s e.
Proof.
  intros Hc Hck Hs Hes Hni.
  assert (Hz : zip segs0 es0 !! i = Some (s0, e0)) by (rewrite lookup_zip_with, Hs; cbn; by rewrite Hes).
  destruct (Forall2_lookup_l _ _ _ _ _ Hc Hz) as (c & Hci & Hhon). cbn [fst snd] in Hhon.
  rewrite Forall_lookup in Hck. destruct (Hck _ _ Hci) as (s & Hb & Hag & Hnw & Hsum).
  destruct (numbered_lookup _ _ _ _ _ Hn0 Hs) as (n' & Hn' & Hp0 & Hr0). rewrite Hni in Hn'. injection Hn' as <-.
  destruct (by_name_elem _ _ _ Hb) as [Hsin Hbase]. destruct (numbered_elem _ _ _ _ Hn Hsin) as (k & Hk & Hp & Hr).
  pose proof Hhon as [Hname Hsize Hcs Htx]. rewrite Hname, Hp, Hp0, !seg_path_base in Hbase. apply seg_name_inj in Hbase as ->; [|done|done].
  split; [done|]. intros j s' e Hj He Hp'. assert (s' = s) as ->.
  { apply (same_path all all_NoDup); [by eapply list_elem_of_lookup_2|done|congruence]. }
  destruct (Forall2_lookup_lr _ _ _ _ _ _ Hh Hj He) as [I P].
  destruct (Forall2_lookup_lr _ _ _ _ _ _ Hh0 Hs Hes) as [I0 P0].
  rewrite Hsize, Hcs in Hsum. unfold prefixChecksum in Hsum. destruct (_ || _); [done|]. rewrite Nat2Z.id in Hsum. injection Hsum as Hsum.
  assert (Hpre : take (size s0) (disk s) = disk s0).
  { apply Hsha; [by eapply list_elem_of_lookup_2|done|]. by apply hexsum_inj. }
  destruct (seg_grew _ _ _ _ I0 P0 I P Hpre) as [Hle Hgr]. split; [done|done| |].
  - intros Hlt. apply Hnw. lia.
  - eapply agree_visible; [exact Hhon|exact Hag|by eapply below_covered|]. rewrite Forall_lookup in Hlate. by eapply Hlate.
Qed.

(** The entries each step of a plan replays. *)
Definition steps_read (plan : list replayStep) (ls : list (list located)) : Prop :=
  Forall2 (λ st l, ScanStampedFromOffset (rs_seg st) (rs_from st) = (l, None)) plan ls.
Definition steps_log (plan : list replayStep) (ls : list (list located)) : list log_entry :=
  concat (zip_with (λ st l, seg_log (path (rs_seg st)) l) plan ls).

Lemma rest_steps B esB : holds_all B esB → ∃ ls,
  steps_read (map (λ s, MkStep s 0) (filter (λ s, 0 < size s) B)) ls ∧
  steps_log (map (λ s, MkStep s 0) (filter (λ s, 0 < size s) B)) ls = full_log B esB.
Proof.
  intros H. induction H as [|s e B esB [I P] _ (ls & H1 & H2)]; [exists []; split; [constructor|done]|].
  destruct (decide (0 < size s)) as [Hs|Hs].
  - exists (e :: ls). rewrite filter_cons_True by done. cbn [map]. split; [constructor; [by apply scan_entries|done]|].
    unfold steps_log, full_log in *. cbn [zip_with concat rs_seg]. by rewrite H2.
  - exists ls. rewrite filter_cons_False by done. split; [done|]. rewrite H2. unfold full_log. cbn [zip_with concat].
    destruct I as [_ Hd _]. replace (size s) with 0 in Hd by lia. rewrite take_0 in Hd. apply holds_empty in Hd as ->. done.
Qed.

Lemma full_log_Forall (P : located → Prop) A ents : Forall (Forall P) ents → Forall (λ x : log_entry, P x.2) (full_log A ents).
Proof.
  intros H. revert A. induction H as [|e ents He _ IH]; intros [|s A]; try (by constructor). unfold full_log. cbn [zip_with concat].
  apply Forall_app. split; [|apply IH]. unfold seg_log. apply Forall_map. exact He.
Qed.

Notation mv := (resolveSegmentPath dir ∘ relSegmentPath dir0).

Section planned.
Context (cov : list SegmentCoverage) (mx : Z) (newest : option (Segment * Z)) (rest : list replayStep).
Hypothesis Hcov : Forall2 (λ (se : Segment * list located) c, cov_honest ds0 se.1 se.2 c) (zip segs0 es0) cov.
Hypothesis Hck : Forall (cov_checked all (fst <$> newest) ds epoch) cov.
Hypothesis Hnw : newest_ok all cov (mx, newest).
Hypothesis Hab : Forall (newest_above (mx, newest)) cov.
Hypothesis Hrest : ∀ name, name ∈ map cov_Segment cov ↔ name ∈ map seg_name nums0.

Lemma len0 : length segs0 = length es0 ∧ length segs0 = length nums0.
Proof.
  split; [by eapply Forall2_length|]. destruct Hn0 as [Hp _ _]. apply (f_equal length) in Hp. by rewrite !length_map in Hp.
Qed.

Lemma at_index i n : nums0 !! i = Some n → ∃ s0 e0 c, segs0 !! i = Some s0 ∧ es0 !! i = Some e0 ∧ cov !! i = Some c ∧ cov_honest ds0 s0 e0 c ∧
  cov_Segment c = seg_name n ∧ (0 ≤ n < two64)%Z.
Proof.
  intros Hi. destruct len0 as [L1 L2]. pose proof (lookup_lt_Some _ _ _ Hi) as Hlt.
  destruct (lookup_lt_is_Some_2 segs0 i ltac:(lia)) as [s0 Hs]. destruct (lookup_lt_is_Some_2 es0 i ltac:(lia)) as [e0 He].
  assert (Hz : zip segs0 es0 !! i = Some (s0, e0)) by (rewrite lookup_zip_with, Hs; cbn; by rewrite He).
  destruct (Forall2_lookup_l _ _ _ _ _ Hcov Hz) as (c & Hci & Hhon). exists s0, e0, c. split_and!; try done.
  - destruct Hhon as [-> _ _ _]. cbn [fst]. destruct (numbered_lookup _ _ _ _ _ Hn0 Hs) as (n' & Hn' & -> & _).
    rewrite Hi in Hn'. injection Hn' as <-. apply seg_path_base.
  - destruct Hn0 as [_ _ Hr]. rewrite Forall_lookup in Hr. by apply (Hr i).
  - destruct Hn0 as [_ _ Hr]. rewrite Forall_lookup in Hr. by apply (Hr i).
Qed.

Lemma max_above n : n ∈ nums0 → (n ≤ mx)%Z.
Proof.
  intros [i Hi]%list_elem_of_lookup. destruct (at_index _ _ Hi) as (s0 & e0 & c & _ & _ & Hc & _ & Hname & Hr).
  rewrite Forall_lookup in Hab. destruct (Hab _ _ Hc) as (k & Hk & Hle & _). rewrite Hname, segmentNum_name in Hk by done.
  by injection Hk as ->.
Qed.

Lemma extends :
  Forall (λ s, path_base (path s) ∉ map cov_Segment cov → ∃ n, segmentNum (path_base (path s)) = Some n ∧ (mx < n)%Z) all →
  ∃ newer, nums = nums0 ++ newer.
Proof.
  intros Hall. pose proof Hn as [Hp Hs Hr]. apply sorted_extends; [apply Hn0|done|..].
  - intros n [i Hi]%list_elem_of_lookup. destruct (at_index _ _ Hi) as (s0 & e0 & c & H1 & H2 & _).
    by destruct (kept _ _ _ _ _ _ Hcov Hck H1 H2 Hi).
  - intros n k Hin Hnot Hk. apply (Z.le_lt_trans _ mx); [by apply max_above|].
    assert (seg_path dir n ∈ map path all) as (s & Hps & Hsin)%list_elem_of_fmap by (rewrite Hp; apply list_elem_of_fmap; eauto).
    rewrite Forall_forall in Hall. rewrite Forall_forall in Hr. destruct (Hall s Hsin) as (k' & Hk' & Hlt).
    + rewrite Hrest, <- Hps, seg_path_base. intros (n' & Heq & Hin')%list_elem_of_fmap.
      apply seg_name_inj in Heq as ->; [done|by apply Hr|]. destruct Hn0 as [_ _ Hr0]. rewrite Forall_forall in Hr0. by apply Hr0.
    + rewrite <- Hps, seg_path_base, segmentNum_name in Hk' by (by apply Hr). injection Hk' as <-. done.
Qed.

(** The segments at hand, split at the covered ones. *)
Lemma split_all newer : nums = nums0 ++ newer → ∃ A B esA esB,
  all = A ++ B ∧ es = esA ++ esB ∧ length A = length segs0 ∧ length esA = length segs0 ∧ holds_all A esA ∧ holds_all B esB ∧
  map path A = map (seg_path dir) nums0 ∧ map path B = map (seg_path dir) newer.
Proof.
  intros E. pose proof Hn as [Hp _ _]. destruct len0 as [L1 L2].
  assert (length all = length nums) as La by (apply (f_equal length) in Hp; by rewrite !length_map in Hp).
  pose proof (Forall2_length _ _ _ Hh) as Le. rewrite E, length_app in La.
  exists (take (length nums0) all), (drop (length nums0) all), (take (length nums0) es), (drop (length nums0) es).
  rewrite !take_drop. rewrite !length_take. split_and!; try done; try lia.
  - by apply Forall2_take.
  - by apply Forall2_drop.
  - rewrite <- firstn_map, Hp, E, map_app. apply take_app_length'. by rewrite length_map.
  - rewrite <- skipn_map, Hp, E, map_app. apply drop_app_length'. by rewrite length_map.
Qed.

Lemma moved_paths A : map path A = map (seg_path dir) nums0 → Forall2 (λ s0 s, path s = mv (path s0)) segs0 A.
Proof.
  intros Hp. apply Forall2_same_length_lookup. split.
  - apply (f_equal length) in Hp. rewrite !length_map in Hp. destruct len0. lia.
  - intros i s0 s H1 H2. destruct (numbered_lookup _ _ _ _ _ Hn0 H1) as (n & Hi & -> & _). rewrite moved_path by done.
    apply (f_equal (lookup i)) in Hp. rewrite !list_lookup_fmap, H2, Hi in Hp. by injection Hp.
Qed.

(** All but the newest are as they were. *)
Lemma kept_at A B esA esB i s0 e0 s e : all = A ++ B → es = esA ++ esB → map path A = map (seg_path dir) nums0 →
  segs0 !! i = Some s0 → es0 !! i = Some e0 → A !! i = Some s → esA !! i = Some e → kept_seg (fst <$> newest) s0 e0 s e.
Proof.
  intros EA EE Hp H1 H2 H3 H4. destruct (numbered_lookup _ _ _ _ _ Hn0 H1) as (n & Hi & _ & _).
  destruct (kept _ _ _ _ _ _ Hcov Hck H1 H2 Hi) as [_ K]. apply (K i).
  - rewrite EA. by apply lookup_app_l_Some.
  - rewrite EE. by apply lookup_app_l_Some.
  - apply (f_equal (lookup i)) in Hp. rewrite !list_lookup_fmap, H3, Hi in Hp. by injection Hp.
Qed.

Lemma kept_agree A B esA esB : all = A ++ B → es = esA ++ esB → map path A = map (seg_path dir) nums0 →
  length A = length segs0 → length esA = length segs0 →
  Forall (λ x : log_entry, entryVisible x.2.2.2 ds = entryVisible x.2.2.2 ds0) (full_log A es0).
Proof.
  intros EA EE Hp L1 L2. apply (full_log_Forall (λ x : located, entryVisible x.2.2 ds = entryVisible x.2.2 ds0)).
  apply Forall_lookup. intros i e0 Hi. pose proof (lookup_lt_Some _ _ _ Hi) as Hlt. destruct len0 as [L3 L4].
  destruct (lookup_lt_is_Some_2 segs0 i ltac:(lia)) as [s0 Hs0]. destruct (lookup_lt_is_Some_2 A i ltac:(lia)) as [s Hs].
  destruct (lookup_lt_is_Some_2 esA i ltac:(lia)) as [e He].
  by destruct (kept_at _ _ _ _ _ _ _ _ _ EA EE Hp Hs0 Hi Hs He).
Qed.

(** The newest covered segment is the last. *)
Lemma newest_last nums1 nl : nums0 = nums1 ++ [nl] → ∃ sn sz, newest = Some (sn, sz) ∧ path sn = seg_path dir nl ∧ sn ∈ all ∧
  ∃ s0, last segs0 = Some s0 ∧ sz = Z.of_nat (size s0).
Proof.
  intros E. assert (Hil : nums0 !! length nums1 = Some nl) by (rewrite E; apply list_lookup_middle; done).
  destruct (at_index _ _ Hil) as (s0 & e0 & c & H1 & _ & H3 & H4 & H5 & Hr). pose proof Hab as Hab'. rewrite Forall_lookup in Hab'.
  destruct (Hab' _ _ H3) as (k & _ & _ & [[sn sz] Hsome]). cbn in Hsome. exists sn, sz. pose proof Hnw as Hnw'. unfold newest_ok in Hnw'. cbn [snd] in Hnw'. rewrite Hsome in Hnw'.
  destruct Hnw' as (cv & Hin & Hb & Hnum & ->). cbn [fst] in Hnum.
  apply list_elem_of_lookup in Hin as [j Hj].
  assert (∃ n, nums0 !! j = Some n) as [n Hjn].
  { apply lookup_lt_is_Some_2. apply lookup_lt_Some in Hj. rewrite <- (Forall2_length _ _ _ Hcov), length_zip_with in Hj. destruct len0. lia. }
  destruct (at_index _ _ Hjn) as (s0' & e0' & c' & H1' & _ & H3' & H4' & H5' & Hr'). rewrite Hj in H3'. injection H3' as <-.
  rewrite H5', segmentNum_name in Hnum by done. injection Hnum as Hmx.
  assert (n = nl) as ->.
  { apply Z.le_antisymm.
    - assert (n ∈ nums1 ++ [nl]) as [Hin| ->%list_elem_of_singleton]%elem_of_app by (rewrite <- E; by eapply list_elem_of_lookup_2); [|done].
      destruct Hn0 as [_ Hs _]. rewrite E in Hs. apply StronglySorted_app in Hs as (Hs & _). specialize (Hs n nl Hin ltac:(by left)). lia.
    - rewrite Hmx. apply max_above. rewrite E. apply elem_of_app. right. by left. }
  assert (j = length nums1) as ->.
  { eapply NoDup_lookup; [|exact Hjn|exact Hil]. apply sorted_lt_NoDup, Hn0. }
  rewrite H1 in H1'. injection H1' as <-. destruct (by_name_elem _ _ _ Hb) as [Hin Hbase].
  destruct (numbered_elem _ _ _ _ Hn Hin) as (n' & _ & Hp & Hrn). rewrite Hp, seg_path_base, H5' in Hbase.
  apply seg_name_inj in Hbase as ->; [|done|done]. split_and!; try done. exists s0. split; [|by destruct H4'].
  rewrite last_lookup. destruct len0 as [_ L]. by rewrite L, E, length_app, Nat.add_1_r.
Qed.

Lemma steps_cons st l plan ls : ScanStampedFromOffset (rs_seg st) (rs_from st) = (l, None) → steps_read plan ls →
  steps_read (st :: plan) (l :: ls) ∧ steps_log (st :: plan) (l :: ls) = seg_log (path (rs_seg st)) l ++ steps_log plan ls.
Proof. intros H1 H2. split; [by constructor|done]. Qed.

Lemma snoc_cases {X} (l : list X) : l = [] ∨ ∃ l' x, l = l' ++ [x].
Proof. destruct l as [|x l' _] using rev_ind; [by left|right; eauto]. Qed.

(** Only the newest covered segment grew. *)
Lemma grown_log A B esA esB : all = A ++ B → es = esA ++ esB → map path A = map (seg_path dir) nums0 → length A = length segs0 →
  length esA = length segs0 → ∀ plan ls, steps_read plan ls →
  let plan' := match newest with Some (s, n) => if (n <? Z.of_nat (size s))%Z then MkStep s (Z.to_nat n) :: plan else plan | None => plan end in
  ∃ ls', steps_read plan' ls' ∧ full_log A esA ++ steps_log plan ls = full_log A es0 ++ steps_log plan' ls'.
Proof.
  intros EA EE Hp L1 L2 plan ls Hr. cbv zeta. destruct len0 as [L3 L4].
  destruct (snoc_cases nums0) as [En|(nums1 & nl & En)].
  { rewrite En in L4. assert (segs0 = []) as E0 by (by apply nil_length_inv). rewrite E0 in *. apply nil_length_inv in L1 as ->.
    exists ls. assert (newest = None) as ->; [|done]. pose proof Hnw as Hnw'. unfold newest_ok in Hnw'. cbn [snd] in Hnw'.
    destruct newest as [[s n]|]; [|done]. destruct Hnw' as (cv & Hin & _).
    pose proof Hcov as HF. apply Forall2_nil_inv_l in HF. rewrite HF in Hin. by apply not_elem_of_nil in Hin. }
  destruct (newest_last nums1 nl En) as (sn & sz & Enw & Hpn & Hsn & s0 & Hlast & ->). rewrite Enw.
  apply last_Some in Hlast as [segs1 Es0].
  assert (Hlen : length segs1 = length nums1) by (rewrite Es0, En, !length_app in L4; cbn in L4; lia).
  destruct (snoc_cases es0) as [Ee0|(es1 & e0 & Ee0)]; [rewrite Es0, Ee0, length_app in L3; cbn in L3; lia|].
  destruct (snoc_cases A) as [->|(A1 & s & ->)]; [rewrite Es0, length_app in L1; cbn in L1; lia|].
  destruct (snoc_cases esA) as [->|(esA1 & e & ->)]; [rewrite Es0, length_app in L2; cbn in L2; lia|].
  rewrite Ee0 in L3. rewrite Es0, !length_app in L1, L2, L3. cbn in L1, L2, L3.
  assert (Hps : path s = seg_path dir nl).
  { rewrite En, !map_app in Hp. by apply app_inj_tail in Hp as [_ Hp]. }
  assert (sn = s) as ->.
  { apply (same_path all all_NoDup); [done| |congruence]. rewrite EA. apply elem_of_app. left. apply elem_of_app. right. by left. }
  assert (esA1 = es1) as ->.
  { apply list_eq_same_length with (length es1); [done|lia|]. intros i x y Hi Hx Hy.
    assert (Hk : ∃ a b, segs1 !! i = Some a ∧ A1 !! i = Some b ∧ kept_seg (fst <$> newest) a y b x).
    { destruct (lookup_lt_is_Some_2 segs1 i ltac:(lia)) as [a Ha]. destruct (lookup_lt_is_Some_2 A1 i ltac:(lia)) as [b Hb].
      exists a, b. split_and!; [done|done|]. eapply (kept_at _ _ _ _ i _ _ _ _ EA EE Hp); rewrite ?Es0, ?Ee0; by apply lookup_app_l_Some. }
    destruct Hk as (a & b & Ha & Hb & [(t & -> & _ & Ht) Hle Hnew _]). rewrite Ht; [by rewrite app_nil_r|].
    apply Nat.le_antisymm; [|done]. apply Nat.nlt_ge. intros Hlt. specialize (Hnew Hlt). rewrite Enw in Hnew. cbn in Hnew. injection Hnew as Hnew.
    apply (NoDup_snoc_ne (map path A1) (path s)).
    - replace (map path A1 ++ [path s]) with (map path (A1 ++ [s])) by (by rewrite map_app). rewrite Hp. apply NoDup_fmap_2_strong.
      + intros n1 n2 H1 H2 E. destruct Hn0 as [_ _ Hr0]. rewrite Forall_forall in Hr0. apply (seg_path_inj dir); auto.
      + apply sorted_lt_NoDup, Hn0.
    - rewrite <- Hnew. apply list_elem_of_fmap. exists b. split; [done|]. by eapply list_elem_of_lookup_2. }
  assert (Hk : kept_seg (fst <$> newest) s0 e0 s e).
  { eapply (kept_at _ _ _ _ (length segs1) _ _ _ _ EA EE Hp); rewrite ?Es0, ?Ee0; apply list_lookup_middle; lia. }
  destruct Hk as [(t & -> & Hh1 & Ht) Hle _ _]. rewrite Ee0, !full_log_app by lia.
  unfold full_log at 2 4. cbn [zip_with concat]. rewrite !app_nil_r. unfold seg_log at 1. rewrite map_app. fold (seg_log (path s) e0) (seg_log (path s) t).
  destruct (Z.ltb_spec (Z.of_nat (size s0)) (Z.of_nat (size s))).
  - exists (t :: ls). destruct (steps_cons (MkStep s (size s0)) t plan ls) as [S1 S2]; [|done|].
    { cbn [rs_seg rs_from]. unfold ScanStampedFromOffset. apply holds_scan; [done|lia]. }
    rewrite Nat2Z.id. split; [done|]. rewrite S2. cbn [rs_seg]. by rewrite <- !app_assoc.
  - exists ls. split; [done|]. rewrite Ht by lia. cbn [seg_log map]. by rewrite app_nil_r.
Qed.
End planned.

(** The plan replays exactly the entries the snapshot does not describe, in order. *)
Lemma plan_tail cov' cov nEntries m fs m' fs' p :
  cov' ≡ₚ cov → Forall2 (λ (se : Segment * list located) c, cov_honest ds0 se.1 se.2 c) (zip segs0 es0) cov → memo_ok all m →
  planReplayFor all true cov' nEntries m ds epoch fs = (m', fs', p) →
  memo_ok all m' ∧
  ∀ plan, p = Some plan → ∃ ls, steps_read plan ls ∧ full_log all es = moved mv (full_log segs0 es0) ++ steps_log plan ls ∧
    Forall (λ x : log_entry, entryVisible x.2.2.2 ds = entryVisible x.2.2.2 ds0) (moved mv (full_log segs0 es0)).
Proof.
  intros Hperm Hcov Hm. unfold planReplayFor. cbn [negb]. destruct (_ && _); [by intros [= <- <- <-]|].
  destruct (plan_newest all [] (0%Z, None) cov') as [[mx newest]|] eqn:Enw; [|by intros [= <- <- <-]].
  destruct (plan_verify all (fst <$> newest) ds epoch m cov' fs) as [[m1 fs1] ok] eqn:Ev.
  destruct (plan_verify_spec all all_NoDup _ _ _ _ _ _ _ _ _ Hm Ev) as [Hm1 Hck].
  destruct ok; cbn [negb]; [|by intros [= <- <- <-]]. intros [= <- <- Hp]. split; [done|]. intros plan ->.
  destruct (plan_rest (map cov_Segment cov') mx all) as [rest|] eqn:Er; [|done]. cbn [mbind option_bind] in Hp.
  apply plan_rest_spec in Er as [Hall ->]. injection Hp as <-.
  destruct (plan_newest_spec all cov' [] (0%Z, None) (mx, newest) [] Enw eq_refl ltac:(constructor)) as [Hnw Hab]. cbn [app] in Hnw, Hab.
  specialize (Hck eq_refl). rewrite Hperm in Hck, Hab.
  assert (Hnw' : newest_ok all cov (mx, newest)).
  { unfold newest_ok in *. cbn [snd] in *. destruct newest as [[s n]|]; [|done]. destruct Hnw as (cv & Hin & H). exists cv. by rewrite <- Hperm. }
  assert (Hnames : ∀ name, name ∈ map cov_Segment cov ↔ name ∈ map seg_name nums0).
  { intros name. assert (map cov_Segment cov = map seg_name nums0) as ->; [|done]. apply list_eq_same_length with (length nums0).
    - by rewrite length_map.
    - rewrite length_map, <- (Forall2_length _ _ _ Hcov), length_zip_with. destruct len0. lia.
    - intros i x y Hi Hx Hy. rewrite list_lookup_fmap in Hx. rewrite list_lookup_fmap in Hy. destruct (nums0 !! i) as [n|] eqn:En; [|done].
      destruct (at_index cov Hcov _ _ En) as (s0 & e0 & c & _ & _ & Hc & _ & Hname & _). rewrite Hc in Hx. injection Hx as <-. injection Hy as <-. done. }
  assert (Hnames' : ∀ name, name ∈ map cov_Segment cov' ↔ name ∈ map cov_Segment cov) by (intros name; by rewrite Hperm).
  destruct (extends cov mx newest Hcov Hck Hab Hnames) as [newer Enum].
  { eapply Forall_impl; [exact Hall|]. intros s. cbn beta. by rewrite Hnames'. }
  destruct (split_all newer Enum) as (A & B & esA & esB & EA & EE & L1 & L2 & HA & HB & HpA & HpB).
  assert (Hfilter : filter (λ s, path_base (path s) ∉ map cov_Segment cov' ∧ 0 < size s) all = filter (λ s, 0 < size s) B).
  { rewrite EA, filter_app, filter_none.
    - cbn [app]. apply filter_agree, Forall_forall. intros s Hin. split; [by intros [_ ?]|]. intros Hs. split; [|done].
      rewrite Hnames', Hnames. assert (path s ∈ map (seg_path dir) newer) as (n & Hps & Hin')%list_elem_of_fmap by (rewrite <- HpB; apply list_elem_of_fmap; eauto).
      rewrite Hps, seg_path_base. intros (n' & Heq & Hn')%list_elem_of_fmap. destruct Hn as [_ Hs1 Hr]. rewrite Enum in Hs1, Hr.
      rewrite Forall_app in Hr. destruct Hr as [Hr1 Hr2]. rewrite Forall_forall in Hr1. rewrite Forall_forall in Hr2.
      apply seg_name_inj in Heq as ->; [|by apply Hr2|by apply Hr1]. apply StronglySorted_app in Hs1 as (Hs1 & _).
      specialize (Hs1 _ _ Hn' Hin'). lia.
    - apply Forall_forall. intros s Hin [Hc _]. apply Hc. rewrite Hnames', Hnames.
      assert (path s ∈ map (seg_path dir) nums0) as (n & Hps & Hin')%list_elem_of_fmap by (rewrite <- HpA; apply list_elem_of_fmap; eauto).
      rewrite Hps, seg_path_base. apply list_elem_of_fmap. eauto. }
  rewrite Hfilter. destruct (rest_steps B esB HB) as (ls & Hls & Hlog).
  destruct (grown_log cov mx newest Hcov Hck Hnw' Hab A B esA esB EA EE HpA L1 L2 _ ls Hls) as (ls' & Hr' & Hlog'). cbv zeta in Hr', Hlog'.
  exists ls'. split; [done|]. rewrite (moved_full_log mv segs0 A es0) by (by apply moved_paths). split.
  - rewrite EA, EE, full_log_app by lia. by rewrite <- Hlog.
  - by eapply kept_agree.
Qed.
End covered.

Lemma run_plan_spec ds plan ls m : steps_read plan ls → run_plan m ds plan = Some (replay ds m (steps_log plan ls)).
Proof.
  intros H. revert m. induction H as [|st l plan ls Hst _ IH]; intros m; [done|]. cbn [run_plan]. unfold applyEntries. rewrite Hst, IH.
  unfold steps_log. cbn [zip_with concat]. by rewrite replay_app, replay_seg_log.
Qed.

(** ** The theorem *)

(** [file] is a snapshot, taken under the decisions [ds0], of an index that agreed
    with the segments [segs0] in [dir0]; its names are UTF-8. *)
Record honest_file (dir0 : string) (ds0 : option decisions) (segs0 : list Segment) (es0 : list (list located)) (file : bytes) : Prop := {
  hf_abs : is_abs dir0 = true;
  hf_nums : ∃ nums0, numbered_in dir0 segs0 nums0;
  hf_holds : holds_all segs0 es0;
  hf_sizes : Forall (λ s, Z.of_nat (size s) < two63)%Z segs0;
  hf_snap : ∃ idx0 marks cache epoch fs fs' snap cache',
    entries idx0 = replay ds0 ∅ (full_log segs0 es0) ∧ entries_wf (entries idx0) ∧
    length marks = length segs0 ∧ cache_ok ds0 cache segs0 es0 ∧
    snapshotCached idx0 (zip segs0 marks) cache ds0 epoch fs = (fs', Some (snap, cache')) ∧ snap_utf8 dir0 snap ∧ file = Persist dir0 snap
}.

(** The bytes at hand do not collide with the ones that were covered. *)
Definition no_collision (segs0 all : list Segment) : Prop :=
  ∀ s0 s, s0 ∈ segs0 → s ∈ all → sha256 (take (size s0) (disk s)) = sha256 (disk s0) → take (size s0) (disk s) = disk s0.

Lemma honest_cov dir0 ds0 segs0 es0 file dir idx : honest_file dir0 ds0 segs0 es0 file → ∃ cov' cov,
  cov' ≡ₚ cov ∧ Forall2 (λ (se : Segment * list located) c, cov_honest ds0 se.1 se.2 c) (zip segs0 es0) cov ∧
  Load dir idx (Some file) = Ok (MkLoaded (noteExpiring (MkIndex
     (replay ds0 ∅ (moved (resolveSegmentPath dir ∘ relSegmentPath dir0) (full_log segs0 es0))) (mayExpire idx))) cov' true).
Proof.
  intros [Habs [nums0 Hn0] Hh0 Hsz (idx0 & marks & cache & epoch & fs & fs' & snap & cache' & He & Hw & Hl & Hc & Hs & Hu & ->)].
  destruct (snapshot_spec _ _ _ _ _ _ _ _ _ _ _ Hh0 (numbered_paths_NoDup _ _ _ Hn0) Hc Hl Hs) as (Hse & cov & Hperm & Hcov).
  exists (sn_coverage snap), cov. split_and!; [done|done|]. rewrite load_persist.
  - do 4 f_equal. rewrite Hse, He. by rewrite replay_moved, fmap_empty.
  - by rewrite Hse.
  - rewrite Hperm. apply Forall_forall. intros c [i Hi]%list_elem_of_lookup.
    destruct (Forall2_lookup_r _ _ _ _ _ Hcov Hi) as ([s0 e0] & Hz & Hhon). cbn [fst snd] in Hhon. unfold cov_wf. rewrite (ch_size _ _ _ _ Hhon).
    rewrite lookup_zip_with in Hz. destruct (segs0 !! i) as [s|] eqn:Ei; [|done]. cbn in Hz. destruct (es0 !! i); [|done]. injection Hz as -> ->.
    rewrite Forall_lookup in Hsz. specialize (Hsz _ _ Ei). unfold in_i64, two63 in *. lia.
  - done.
Qed.

Lemma noteExpiring_ok idx : mayExpire_ok (noteExpiring idx).
Proof.
  destruct (mayExpire_ok_noteExpiring idx) as [H|H]; [|done]. unfold noteExpiring. rewrite H. unfold mayExpire_ok. by rewrite H.
Qed.

Lemma noteExpiring_entries idx : entries (noteExpiring idx) = entries idx.
Proof. unfold noteExpiring. by destruct (mayExpire idx). Qed.

Lemma rebuild_spec `{IntegrityGate} idx dir all es nums ds fs fs' r :
  numbered_in dir all nums → holds_all all es → integrityGate all ≠ Ok true →
  recover_rebuild idx all ds fs = (fs', r) →
  match r with
  | Ok (idx', changed) => entries idx' = replay ds ∅ (full_log all es) ∧ mayExpire_ok idx' ∧ changed = true
  | Err e => integrityGate all = Err e
  end.
Proof.
  intros Hn Hh Hg. unfold recover_rebuild. destruct (integrityGate all) as [[]|e] eqn:Eg; [done| |by intros [= <- <-]].
  intros [= <- <-]. unfold Rebuild. rewrite (numbered_in_sorted _ _ _ Hn), (rebuild_loop_spec _ _ _ _ Hh). cbn [res_bind].
  rewrite noteExpiring_entries. split_and!; [done|apply noteExpiring_ok|done].
Qed.


(** ** Index recovery, evaluated

    A snapshot, an append, a move of the directory and the recovery; the commit
    that recovery misses; the deadlines a tolerant rebuild forgets. *)

#[local] Instance open_gate : IntegrityGate := λ _, Ok false.

Definition at_path (p : string) (s : Segment) : Segment := MkSeg p (disk s) (size s) (sealed s) (file s) (poisoned s).

Definition ir_s1 : Segment := (Append (at_path "/a/seg_000001.ndjson" fresh_segment) sample_entry []).1.1.
Definition ir_s2 : Segment := at_path "/b/seg_000001.ndjson" (Append ir_s1 sample_entry []).1.1.
Definition ir_x (o : nat) : located := (o, (set_crc sample_entry (checksum sample_entry), None)).
Definition ir_idx : Index := MkIndex (replay None ∅ (full_log [ir_s1] [[ir_x 0]])) false.
Definition ir_snap : option IndexSnapshot := (Snapshot ir_idx [ir_s1] None "" []).2.
Definition ir_file : bytes := match ir_snap with Some s => Persist "/a" s | None => [] end.

Lemma at_path_inv p s e : seg_inv s e → seg_inv (at_path p s) e.
Proof. by intros []. Qed.

Lemma append_sample s e : seg_inv s e → file s = HOpen → sealed s = false → poisoned s = false →
  is_ok (Append s sample_entry []).2 = true →
  seg_inv (Append s sample_entry []).1.1 (e ++ [ir_x (size s)]) ∧ poisoned (Append s sample_entry []).1.1 = false.
Proof.
  intros Hi _ _ _ Hok. pose proof (Append_step s sample_entry [] (Append s sample_entry []).1.1 (Append s sample_entry []).1.2
    (Append s sample_entry []).2 e Hi ltac:(by destruct (Append s sample_entry []) as [[? ?] ?])) as H.
  destruct (Append s sample_entry []).2 as [o|]; [|done]. destruct H as (-> & Hp & _ & _ & _ & H). split; [|done].
  apply H, sample_readable.
Qed.

Lemma ir_inv1 : seg_inv ir_s1 [ir_x 0] ∧ poisoned ir_s1 = false.
Proof. apply (append_sample (at_path "/a/seg_000001.ndjson" fresh_segment) []); [apply at_path_inv, fresh_inv|done|done|done|by vm_compute]. Qed.

Lemma ir_inv2 : seg_inv ir_s2 [ir_x 0; ir_x (size ir_s1)] ∧ poisoned ir_s2 = false.
Proof.
  destruct ir_inv1 as [H1 H2]. destruct (append_sample ir_s1 [ir_x 0] H1) as [H3 H4]; [by vm_compute|by vm_compute|done|by vm_compute|].
  split; [by apply at_path_inv|done].
Qed.

Lemma ir_numbered1 : numbered_in "/a" [ir_s1] [1%Z].
Proof. split; [by vm_compute|repeat constructor|repeat constructor; done]. Qed.

Lemma ir_numbered2 : numbered_in "/b" [ir_s2] [1%Z].
Proof. split; [by vm_compute|repeat constructor|repeat constructor; done]. Qed.

Lemma ir_entries_wf : entries_wf (entries ir_idx).
Proof.
  assert (entries ir_idx = {[ ID sample_entry := MkIE "/a/seg_000001.ndjson" 0 (next_rev ∅ sample_entry) (ExpiresAt sample_entry) (Epoch sample_entry) ]}) as ->
    by (vm_compute; reflexivity).
  intros id e [<- <-]%lookup_singleton_Some. split; [by vm_compute|]. by split; vm_compute.
Qed.

Lemma ir_honest : honest_file "/a" None [ir_s1] [[ir_x 0]] ir_file.
Proof.
  split; [done|by exists [1%Z]; apply ir_numbered1|by constructor; [apply ir_inv1|]|by repeat constructor; vm_compute|].
  destruct (snapshotCached ir_idx (zip [ir_s1] [false]) None None "" []) as [fs' r] eqn:E.
  assert (Hu : match r with Some (s, _) => bool_decide (snap_utf8 "/a" s) | None => false end = true).
  { replace r with (snapshotCached ir_idx (zip [ir_s1] [false]) None None "" []).2 by (by rewrite E). vm_compute. reflexivity. }
  destruct r as [[snap c]|]; [|done]. apply bool_decide_eq_true in Hu.
  exists ir_idx, [false], None, "", [], fs', snap, c. split_and!; [done|apply ir_entries_wf|done|done|exact E|done|].
  unfold ir_file, ir_snap, Snapshot. cbn [mark_sealed]. cbn [zip zip_with] in E. by rewrite E.
Qed.

Lemma ir_holds2 : holds_all [ir_s2] [[ir_x 0; ir_x (size ir_s1)]].
Proof. constructor; [apply ir_inv2|constructor]. Qed.

Lemma ir_memo all : memo_ok all ∅.
Proof. intros s n h _ Hl. by rewrite lookup_empty in Hl. Qed.

Lemma ir_origin : no_collision [ir_s1] [ir_s2] ∧ Forall (no_late_commit None None) [[ir_x 0]].
Proof.
  split.
  - intros s0 s ->%list_elem_of_singleton ->%list_elem_of_singleton _. vm_compute. reflexivity.
  - constructor; [|constructor]. intros (y & Hin & [? Hy]). apply list_elem_of_singleton in Hin. subst y. discriminate Hy.
Qed.

Lemma ir_gate : integrityGate [ir_s2] ≠ Ok true.
Proof. discriminate. Qed.

Definition ir_run := recoverIndex "/b" newIndex [ir_s2] (Some ir_file) false None "" ∅ [] [].

Lemma ir_replayed : match ir_run.2 with Ok (_, c) => c | Err _ => false end = true.
Proof. vm_compute. reflexivity. Qed.

Lemma ir_file_honest l : Load "/b" newIndex (Some ir_file) = Ok l → ∃ b dir0 ds0 segs0 es0, Some ir_file = Some b ∧
  honest_file dir0 ds0 segs0 es0 b ∧ no_collision segs0 [ir_s2] ∧ Forall (no_late_commit ds0 None) es0.
Proof. intros _. exists ir_file, "/a", None, [ir_s1], [[ir_x 0]]. split; [reflexivity|]. split; [exact ir_honest|exact ir_origin]. Qed.


(** ** A commit decided after the snapshot *)

Definition stamp_as (tx : string) (id : Z) : stampedEntry :=
  MkStamped id (S_Op sample_stamped) (S_Ts sample_stamped) 1 (S_Data sample_stamped) 0 0 (MkStamp tx 0 1) (S_CRC sample_stamped).

(** One segment with a line of two transactions each. *)
Definition lc_seg : Segment :=
  (AppendStamped (AppendStamped (at_path "/a/seg_000001.ndjson" fresh_segment) (stamp_as "A" 1) []).1.1 (stamp_as "B" 2) []).1.1.

Definition lc_before : decisions := {["A" := xtxKindCommit]}.
Definition lc_after : decisions := <["B" := xtxKindCommit]> lc_before.

Definition lc_rebuilt (ds : decisions) : Index := match Rebuild newIndex [lc_seg] (Some ds) with Ok i => i | Err _ => newIndex end.

Definition lc_file : option bytes := Persist "/a" <$> (Snapshot (lc_rebuilt lc_before) [lc_seg] (Some lc_before) "e" []).2.

Definition lc_recovered : Index :=
  match (recoverIndex "/a" newIndex [lc_seg] lc_file false (Some lc_after) "e" ∅ [] []).2 with Ok (i, _) => i | Err _ => newIndex end.

(** The outcome of transaction B was not known when the index was persisted, so its
    line is covered and not applied.  After a restart B is committed; the coverage
    lists A, so the covered bytes are not looked at again, and the recovered index
    misses the record of B that a rebuild finds. *)
Lemma late_commit_missed :
  is_Some (Get (lc_rebuilt lc_after) 2) ∧ Get lc_recovered 2 = None ∧ is_Some (Get lc_recovered 1).
Proof. vm_compute. split; [eexists; reflexivity|]. split; [reflexivity|eexists; reflexivity]. Qed.

(** ** Deadlines after a tolerant rebuild *)

Definition td_entry : Entry :=
  MkEntry 1 OpInsert (Ts sample_entry) 1 (Data sample_entry) 0 5 None.

Definition td_seg : Segment := (Append (at_path "/a/seg_000001.ndjson" fresh_segment) td_entry []).1.1.

Definition td_index : Index := match (rebuildTolerant newIndex [td_seg] None []).2 with Ok i => i | Err _ => newIndex end.

(** The record expired at 5 is in the rebuilt index, whose expiry flag is not set: at
    time 10 it is counted as live, while after a plain rebuild it is not. *)
Lemma tolerant_rebuild_forgets_deadlines :
  liveCount td_index 10 = 1 ∧ mayExpire td_index = false ∧
  match Rebuild newIndex [td_seg] None with Ok i => liveCount i 10 = 0 | Err _ => False end.
Proof. vm_compute. done. Qed.
