(* ===== verification/SidxFile.v ===== *)
(** * Secondary index files and their recovery: [engine/secondary_index.go], [engine/index_recovery.go]

    sidx_<field>.json: the buckets of a secondary index with the coverage of the
    segments they describe.  Writing it, loading it back, and bringing the loaded
    index current at open, with the tolerant form of the rebuild. *)
From Stdlib Require Import Ascii Lia ZArith.
From stdpp Require Import prelude gmap strings sorting.
From S2P Require Import Prelude GoNum Json Value Filter GoTime Store Wire Codec Segment Index SecondaryIndex Manifest Sha256 Journal UnixTime Envelope Salvage IndexFile IndexRecover.

Definition sidxFormatV2 : Z := 2.

(** ** Kinds by name *)

Definition kind_String (k : indexKind) : string :=
  match k with indexNumeric => "numeric" | indexString => "string" | indexMixed => "mixed" | indexEmpty => "" end.

Definition parseIndexKind (s : string) : indexKind :=
  if decide (s = "numeric") then indexNumeric
  else if decide (s = "string") then indexString
  else if decide (s = "mixed") then indexMixed
  else indexEmpty.

(** ** Snapshots *)

(** The ids of a bucket are written in the order a map iteration yields them. *)
Record sidxSnapshot : Type := MkSxSnap {
  ss_field : string;
  ss_kind : string;
  ss_unique : bool;
  ss_buckets : gmap string (list Z)
}.

Definition snapshot (s : SecondaryIndex) : sidxSnapshot :=
  MkSxSnap (field s) (kind_String (kind s)) (unique s) (elements <$> buckets s).

(** A nil map of buckets and a nil slice of ids are [None]. *)
Notation id_buckets := (gmap string (option (list Z))).

Record sidxFile : Type := MkSxFile {
  sx_Field : string;
  sx_Unique : bool;
  sx_Kind : string;
  sx_Version : Z;
  sx_Buckets : option id_buckets;
  sx_Coverage : list SegmentCoverage;
  sx_Checksum : string
}.

(** ** Encoding *)

Definition ids_json (l : option (list Z)) : json := match l with Some l => JArr (map num_u l) | None => JNull end.

Definition buckets_json (b : option id_buckets) : json :=
  match b with
  | None => JNull
  | Some b => JObj (map (λ kv, member kv.1 (ids_json kv.2)) (ssort (λ x y, str_ltb x.1 y.1) (map_to_list b)))
  end.

Definition covs_json (cov : list SegmentCoverage) : json := JArr (map (λ c, JObj (cov_members c)) cov).

(** [sidxPayload]. *)
Definition sidx_payload (b : option id_buckets) (cov : list SegmentCoverage) : bytes :=
  print (JObj [member "version" (num_i sidxFormatV2); member "buckets" (buckets_json b); member "coverage" (covs_json cov)]).

(** What the checksum covers. *)
Definition checked_bytes (v2 : bool) (b : option id_buckets) (cov : list SegmentCoverage) : bytes :=
  if v2 then sidx_payload b cov else print (buckets_json b).

Definition sidx_members (f : sidxFile) : list (bytes * json) :=
  [member "field" (jstr (sx_Field f))] ++
  (if sx_Unique f then [member "unique" (JBool true)] else []) ++
  omit_str "kind" (sx_Kind f) ++
  omit_zero "version" (sx_Version f) (num_i (sx_Version f)) ++
  [member "buckets" (buckets_json (sx_Buckets f))] ++
  (match sx_Coverage f with [] => [] | l => [member "coverage" (covs_json l)] end) ++
  [member "checksum" (jstr (sx_Checksum f))].

(** The bytes [write] hands to [writeFileAtomic]. *)
Definition sidx_write (sn : sidxSnapshot) (cov : list SegmentCoverage) (v2 : bool) : bytes :=
  let b := Some (Some <$> ss_buckets sn) in
  print (JObj (sidx_members
    (MkSxFile (ss_field sn) (ss_unique sn) (ss_kind sn) (if v2 then sidxFormatV2 else 0) b (if v2 then cov else [])
       (s_of_b (hex_encode (sha256 (checked_bytes v2 b cov))))))).

(** ** Decoding *)

(** A map element is decoded into a fresh value. *)
Definition dec_ids (j : json) : option (option (list Z)) :=
  match j with
  | JNull => Some None
  | JArr l => ids ← dec_list dec_u64 0%Z [] l; Some (Some ids)
  | _ => None
  end.

Definition set_bucket (b : id_buckets) (kv : bytes * json) : option id_buckets :=
  ids ← dec_ids kv.2; Some (<[s_of_b kv.1 := ids]> b).

Definition dec_buckets (old : option id_buckets) (j : json) : option (option id_buckets) :=
  match j with
  | JNull => Some None
  | JObj l => b ← strict_fields set_bucket (default ∅ old) l; Some (Some b)
  | _ => None
  end.

Definition set_sidx_field (f : sidxFile) (kv : bytes * json) : option sidxFile :=
  let k := map to_lower kv.1 in
  let j := kv.2 in
  let '(MkSxFile fl u kd v b c h) := f in
  if decide (k = b_of_s "field") then x ← dec_string fl j; Some (MkSxFile x u kd v b c h)
  else if decide (k = b_of_s "unique") then x ← dec_bool u j; Some (MkSxFile fl x kd v b c h)
  else if decide (k = b_of_s "kind") then x ← dec_string kd j; Some (MkSxFile fl u x v b c h)
  else if decide (k = b_of_s "version") then x ← dec_i64 v j; Some (MkSxFile fl u kd x b c h)
  else if decide (k = b_of_s "buckets") then x ← dec_buckets b j; Some (MkSxFile fl u kd v x c h)
  else if decide (k = b_of_s "coverage") then x ← dec_array dec_cov zero_cov c j; Some (MkSxFile fl u kd v b x h)
  else if decide (k = b_of_s "checksum") then x ← dec_string h j; Some (MkSxFile fl u kd v b c x)
  else Some f.

Definition zero_sidxFile : sidxFile := MkSxFile "" false "" 0 None [] "".

Definition unmarshal_sidx (b : bytes) : option sidxFile :=
  match unmarshal b with
  | Some (JObj l) => strict_fields set_sidx_field zero_sidxFile l
  | Some JNull => Some zero_sidxFile
  | _ => None
  end.

(** ** Loading *)

(** [strconv.ParseFloat] is taken on decimal texts within the range of float64; its
    spellings of infinities, NaN and hexadecimal floats are read as strings here. *)
Definition inferKind (b : gmap string (gset Z)) : indexKind :=
  if forallb (λ kv, bool_decide (is_Some (parse_float (b_of_s kv.1)))) (map_to_list b) then indexNumeric else indexString.

Definition fresh_buckets (b : option id_buckets) : gmap string (gset Z) :=
  (λ ids, list_to_set (default [] ids)) <$> default ∅ b.

(** [freshRev]: an id listed in several buckets keeps one of them. *)
Definition fresh_reverse (b : option id_buckets) : gmap Z string :=
  foldl (λ m kv, foldl (λ m id, <[id := kv.1]> m) m (default [] kv.2)) ∅ (map_to_list (default ∅ b)).

(** The index after a successful load, with the coverage it keeps. *)
Definition sidx_install (s : SecondaryIndex) (f : sidxFile) : SecondaryIndex :=
  let fresh := fresh_buckets (sx_Buckets f) in
  let k0 := parseIndexKind (sx_Kind f) in
  let k := if decide (k0 = indexEmpty ∧ fresh ≠ ∅) then inferKind fresh else k0 in
  MkSidx (field s) (sx_Unique f) fresh (fresh_reverse (sx_Buckets f)) (dupsOf fresh) k (buildSorted fresh k).

Definition with_unique (s : SecondaryIndex) (u : bool) : SecondaryIndex :=
  MkSidx (field s) u (buckets s) (reverse s) (dups s) (kind s) (sorted s).

(** [SecondaryIndex.Load].  The unique flag is restored from a file that parses even when
    its checksum does not match. *)
Definition sidx_Load (s : SecondaryIndex) (content : option bytes)
    : SecondaryIndex * res load_err (list SegmentCoverage * bool) :=
  match content with
  | None => (s, Err LoadRead)
  | Some b =>
      match unmarshal_sidx b with
      | None => (s, Err LoadUnmarshal)
      | Some f =>
          let v2 := bool_decide (sx_Version f = sidxFormatV2) in
          if decide (s_of_b (hex_encode (sha256 (checked_bytes v2 (sx_Buckets f) (sx_Coverage f)))) = sx_Checksum f)
          then (sidx_install s f, Ok (sx_Coverage f, v2))
          else (with_unique s (sx_Unique f), Err ErrIndexStale)
      end
  end.

(** ** Rebuilding *)

(** [scanEntries]: strict, or skipping the damaged regions. *)
Definition scan_entries_mode (seg : Segment) (tolerant : bool) (ds : option decisions) (fs : list fault)
    : list fault * res seg_err (list Entry) :=
  if negb tolerant then (fs, scanEntries seg ds)
  else
    let '(fs, r) := scanSegmentTolerantLimit (path seg) (disk seg) (Some (size seg)) fs in
    (fs, let* rep := r in Ok (map sv_Entry (filter (λ x, entryVisible (sv_Tx x) ds = true) (rp_Entries rep)))).

Fixpoint latest_mode (m : gmap Z (option vdata)) (segs : list Segment) (tolerant : bool) (ds : option decisions)
    (fs : list fault) : list fault * res seg_err (gmap Z (option vdata)) :=
  match segs with
  | [] => (fs, Ok m)
  | seg :: segs =>
      let '(fs, r) := scan_entries_mode seg tolerant ds fs in
      match r with
      | Err e => (fs, Err e)
      | Ok l => latest_mode (foldl latest_step m l) segs tolerant ds fs
      end
  end.

(** [rebuild] with its tolerance. *)
Definition rebuild_mode (s : SecondaryIndex) (segs : list Segment) (tolerant : bool) (ds : option decisions) (fs : list fault)
    : list fault * res seg_err SecondaryIndex :=
  let '(fs, r) := latest_mode ∅ segs tolerant ds fs in
  (fs, let* latest := r in
       let '(fresh, freshRev, k) := foldl (fresh_step s) (∅, ∅, indexEmpty) (map_to_list latest) in
       Ok (MkSidx (field s) (unique s) fresh freshRev (dupsOf fresh) k (buildSorted fresh k))).

(** ** Recovery *)

Fixpoint replay_plan (s : SecondaryIndex) (ds : option decisions) (plan : list replayStep) : SecondaryIndex * bool :=
  match plan with
  | [] => (s, true)
  | st :: plan =>
      match replay_segment s (rs_seg st) (rs_from st) ds with
      | (s, None) => replay_plan s ds plan
      | (s, Some _) => (s, false)
      end
  end.

(** The index, and whether it differs from the file. *)
Definition recoverSecondary (s : SecondaryIndex) (file : option bytes) (all : list Segment) (force tolerant : bool)
    (ds : option decisions) (epoch : string) (m : coverageMemo) (fs : list fault)
    : coverageMemo * list fault * res seg_err (SecondaryIndex * bool) :=
  let rebuild s m fs :=
    let '(fs, r) := rebuild_mode s all tolerant ds fs in (m, fs, let* s := r in Ok (s, true)) in
  if force then rebuild s m fs
  else
    match sidx_Load s file with
    | (s, Err _) => rebuild s m fs
    | (s, Ok (cov, known)) =>
        let '(m, fs, p) := planReplayFor all known cov (base.size (buckets s)) m ds epoch fs in
        match p with
        | None => rebuild s m fs
        | Some plan =>
            let '(s, ok) := replay_plan s ds plan in
            if ok then (m, fs, Ok (s, bool_decide (plan ≠ []))) else rebuild s m fs
        end
    end.

(** The coverage of every segment, in their order. *)
Fixpoint capture_each (segs : list Segment) (ds : option decisions) (epoch : string) (fs : list fault)
    : list fault * option (list SegmentCoverage) :=
  match segs with
  | [] => (fs, Some [])
  | seg :: segs =>
      let '(fs, w) := captureCoverage seg ds epoch fs in
      match w with
      | None => (fs, None)
      | Some c => let '(fs, r) := capture_each segs ds epoch fs in (fs, l ← r; Some (c :: l))
      end
  end.

(** The bytes [persistSecondary] writes. *)
Definition persist_sidx (s : SecondaryIndex) (segs : list Segment) (ds : option decisions) (epoch : string) (fs : list fault)
    : list fault * option bytes :=
  let '(fs, r) := capture_each segs ds epoch fs in (fs, cov ← r; Some (sidx_write (snapshot s) cov true)).
