(* ===== verification/SidxFileThm.v ===== *)
(** * Secondary index files: written, loaded, recovered

    A file that [write] produced loads back as the same index, and recovery at
    open gives the index of the records in the log. *)
From Stdlib Require Import Ascii Lia ZArith.
From stdpp Require Import prelude gmap strings sorting.
From S2P Require Import Prelude GoNum Json Value Filter GoTime Store Wire Codec Segment Index SecondaryIndex Collection Keyed CollInv CollStep CollOps CollThm Unique Manifest Sha256 Journal JournalThm UnixTime Envelope Salvage IndexFile IndexFileThm IndexRecover IndexRecoverThm SidxFile.

(** ** Indexes built at once *)

Definition buckets_ok (b : gmap string (gset Z)) (m : gmap Z value) : Prop :=
  (∀ key id, id ∈ default ∅ (b !! key) ↔ ∃ v, m !! id = Some v ∧ toIndexKey v = key) ∧ (∀ key x, b !! key = Some x → x ≠ ∅).

Lemma dupsOf_elem b key : key ∈ dupsOf b ↔ 1 < base.size (default ∅ (b !! key)).
Proof.
  unfold dupsOf. rewrite elem_of_dom. unfold is_Some. setoid_rewrite map_lookup_filter_Some. cbn [fst snd]. split.
  - intros (x & -> & H). done.
  - destruct (b !! key) as [x|]; [eauto|]. cbn. rewrite size_empty. lia.
Qed.

Lemma built_repr f u b m k :
  buckets_ok b m → SecondaryIndex.kind_ok k m → map_Forall (λ _ v, value_wf v) m →
  sidx_repr (MkSidx f u b (toIndexKey <$> m) (dupsOf b) k (buildSorted b k)) m.
Proof.
  intros [Hb Hne] Hk Hw. split; [|done]. constructor; [exact Hb|exact Hne|apply dupsOf_elem|done|done].
Qed.

(** ** The latest records of a log *)

(** The data of each id, [None] once it was deleted. *)
Definition latest_of (ds : option decisions) (m : gmap Z (option vdata)) (L : list line) : gmap Z (option vdata) :=
  foldl latest_step m (map fst (filter (λ x : line, entryVisible x.2 ds = true) L)).

Lemma latest_of_app ds m a b : latest_of ds m (a ++ b) = latest_of ds (latest_of ds m a) b.
Proof. unfold latest_of. by rewrite filter_app, map_app, foldl_app. Qed.

Lemma latest_plain ds L : omap id (latest_of ds ∅ L) = plain ds L.
Proof.
  induction L as [|[e tx] L IH] using rev_ind; [apply map_eq; intros i; unfold plain; by rewrite lookup_omap, lookup_fmap|].
  rewrite latest_of_app. unfold latest_of at 1. rewrite filter_cons, filter_nil. cbn [fst snd].
  unfold plain in *. rewrite records_snoc. unfold rec_step. cbn [fst snd]. destruct (entryVisible tx ds) eqn:Ev.
  2: { rewrite decide_False by congruence. cbn [map foldl]. exact IH. }
  rewrite decide_True by done. cbn [map foldl fst]. unfold latest_step. case_decide.
  - rewrite (omap_insert_Some _ _ _ _ (default ∅ (Data e))) by done. by rewrite IH, fmap_insert.
  - case_decide; [|done]. rewrite omap_insert_None by done. by rewrite IH, fmap_delete.
Qed.

Lemma visible_entries ds (l : list located) :
  map (λ x : located, x.2.1) (filter (λ x : located, entryVisible x.2.2 ds = true) l) =
  map fst (filter (λ x : line, entryVisible x.2 ds = true) (map snd l)).
Proof.
  induction l as [|[o [e tx]] l IH]; [done|]. cbn [map]. rewrite !filter_cons. cbn [fst snd]. case_decide; cbn [map]; by rewrite IH.
Qed.

Lemma latest_mode_spec segs es m ds fs : holds_all segs es →
  latest_mode m segs false ds fs = (fs, Ok (latest_of ds m (map snd (concat es)))).
Proof.
  intros H. revert m. induction H as [|s e segs es [Hi Hp] _ IH]; intros m; [done|]. cbn [latest_mode].
  unfold scan_entries_mode. cbn [negb]. unfold scanEntries. rewrite (scan_entries _ _ Hi Hp). rewrite IH. cbn [concat]. rewrite map_app, latest_of_app.
  do 2 f_equal. unfold latest_of at 2. by rewrite visible_entries.
Qed.

(** ** The bucket loop *)

Lemma fresh_fold s l :
  NoDup l.*1 → Forall (λ kv : Z * option vdata, data_wf (default ∅ kv.2)) l →
  let '(b, r, k) := foldl (fresh_step s) (∅, ∅, indexEmpty) l in
  let m := field_map (field s) (omap id (list_to_map l : gmap Z (option vdata))) in
  buckets_ok b m ∧ r = toIndexKey <$> m ∧ SecondaryIndex.kind_ok k m ∧ map_Forall (λ _ v, value_wf v) m.
Proof.
  induction l as [|[i d] l IH] using rev_ind; intros Hnd Hw.
  - cbn. unfold field_map. rewrite !omap_empty, fmap_empty. split_and!; [|done|done|apply map_Forall_empty].
    split; [|by intros key x; rewrite lookup_empty]. intros key id. rewrite lookup_empty. setoid_rewrite lookup_empty. set_solver.
  - rewrite fmap_app in Hnd. apply NoDup_app in Hnd as (Hnd & Hni & _). rewrite Forall_app in Hw. destruct Hw as [Hw Hwd].
    rewrite Forall_singleton in Hwd. cbn [snd] in Hwd. specialize (IH Hnd Hw).
    assert (Hi : i ∉ l.*1) by (intros H; by apply (Hni _ H), list_elem_of_singleton).
    rewrite foldl_app. destruct (foldl (fresh_step s) _ l) as [[b r] k]. cbn zeta in IH. destruct IH as ([Hb Hne] & Hr & Hk & Hv).
    assert (list_to_map (l ++ [(i, d)]) = <[i := d]> (list_to_map l : gmap Z (option vdata))) as ->.
    { rewrite list_to_map_app. cbn. rewrite insert_empty. symmetry. apply insert_union_singleton_r. by apply not_elem_of_list_to_map_1. }
    set (G := omap id (list_to_map l : gmap Z (option vdata))) in *.
    assert (HG : G !! i = None) by (unfold G; by rewrite lookup_omap, not_elem_of_list_to_map_1).
    assert (Hm : field_map (field s) G !! i = None) by (by rewrite field_map_lookup, HG).
    cbn [foldl]. unfold fresh_step. cbn [fst snd]. destruct d as [d|].
    2: { rewrite omap_insert_None, delete_id by done. split_and!; done. }
    rewrite (omap_insert_Some _ _ _ _ d) by done. fold G. rewrite field_map_insert. cbn [default id] in Hwd.
    destruct (d !! field s) as [v|] eqn:Ev.
    2: { unfold indexed. rewrite Ev. cbn. rewrite delete_id by done. split_and!; done. }
    rewrite (indexed_accepts s (field s) d v eq_refl Ev). destruct (accepts s v).
    2: { rewrite delete_id by done. split_and!; done. }
    split_and!.
    + split.
      * intros key j. destruct (decide (key = toIndexKey v)) as [->|Hk'].
        -- rewrite lookup_insert_eq. cbn [default id]. rewrite elem_of_union, elem_of_singleton, Hb. destruct (decide (j = i)) as [->|Hj].
           ++ rewrite lookup_insert_eq. split; [eauto|by left].
           ++ rewrite lookup_insert_ne by done. set_solver.
        -- rewrite lookup_insert_ne, Hb by done. destruct (decide (j = i)) as [->|Hj].
           ++ rewrite lookup_insert_eq, Hm. split; [by intros (? & ? & _)|]. intros (w & [= <-] & Hw'). done.
           ++ by rewrite lookup_insert_ne by done.
      * intros key x. destruct (decide (key = toIndexKey v)) as [->|Hk'].
        -- rewrite lookup_insert_eq. intros [= <-]. set_solver.
        -- rewrite lookup_insert_ne by done. apply Hne.
    + by rewrite Hr, fmap_insert.
    + by apply mergeKind_ok.
    + apply map_Forall_insert_2; [by eapply Hwd|done].
Qed.

Definition lines_wf (L : list line) : Prop := Forall (λ x : line, data_wf (default ∅ (Data x.1))) L.

Lemma latest_wf ds L : lines_wf L → Forall (λ kv : Z * option vdata, data_wf (default ∅ kv.2)) (map_to_list (latest_of ds ∅ L)).
Proof.
  intros HL. apply Forall_forall. intros [i d] Hin%elem_of_map_to_list. cbn [snd].
  enough (map_Forall (λ _ d, data_wf (default ∅ d)) (latest_of ds ∅ L)) as H by exact (H _ _ Hin). clear i d Hin. revert HL.
  unfold lines_wf. induction L as [|[e tx] L IH] using rev_ind; [intros _; apply map_Forall_empty|]. intros HL.
  rewrite Forall_app in HL. destruct HL as [HL He]. rewrite Forall_singleton in He. cbn [fst] in He. specialize (IH HL).
  rewrite latest_of_app. unfold latest_of at 1. rewrite filter_cons, filter_nil. case_decide; [|done]. cbn [map foldl fst].
  unfold latest_step. repeat case_decide; [by apply map_Forall_insert_2| |done]. apply map_Forall_insert_2; [apply map_Forall_empty|done].
Qed.

(** A rebuild gives the index of the records. *)
Lemma rebuild_mode_spec s segs es ds fs :
  holds_all segs es → lines_wf (map snd (concat es)) →
  ∃ s', rebuild_mode s segs false ds fs = (fs, Ok s') ∧ field s' = field s ∧ unique s' = unique s ∧
    sidx_repr s' (field_map (field s) (plain ds (map snd (concat es)))).
Proof.
  intros Hh Hw. unfold rebuild_mode. rewrite (latest_mode_spec _ _ _ _ _ Hh). cbn [res_bind].
  set (latest := latest_of _ _ _). pose proof (fresh_fold s (map_to_list latest) (NoDup_fst_map_to_list _) (latest_wf ds _ Hw)) as H.
  destruct (foldl (fresh_step s) _ _) as [[b r] k]. rewrite list_to_map_to_list in H. cbn zeta in H. destruct H as (Hb & -> & Hk & Hv).
  eexists. split; [done|]. split_and!; [done|done|]. rewrite <- latest_plain. fold latest. by apply built_repr.
Qed.

(** ** The file *)

Definition ids_wf (b : gmap string (list Z)) : Prop := map_Forall (λ _ l, Forall in_u64 l) b.

Lemma dec_ids_json l : Forall in_u64 l → dec_ids (ids_json (Some l)) = Some (Some l).
Proof.
  intros H. assert (dec_array dec_u64 0%Z [] (JArr (map num_u l)) = Some l) as E.
  { apply dec_list_json. eapply Forall_impl; [exact H|]. intros x Hx. by apply dec_num_u. }
  cbn [dec_ids ids_json dec_array] in *. by rewrite E.
Qed.

Lemma bucket_fields l b :
  Forall (λ kv : string * option (list Z), ∃ ids, kv.2 = Some ids ∧ Forall in_u64 ids) l →
  strict_fields set_bucket b (map (λ kv : string * option (list Z), member kv.1 (ids_json kv.2)) l) =
  Some (foldl (λ (m : id_buckets) (kv : string * option (list Z)), <[kv.1 := kv.2]> m) b l).
Proof.
  intros H. revert b. induction H as [|[k o] l (ids & E & Hids) _ IH]; intros b; [done|]. cbn [snd] in E. subst o.
  cbn [map foldl fst snd]. eapply sf_cons; [|apply IH]. unfold set_bucket, member. cbn [fst snd]. rewrite dec_ids_json by done.
  cbn [mbind option_bind]. by rewrite s_of_b_of_s.
Qed.

Lemma dec_buckets_json (b : gmap string (list Z)) : ids_wf b →
  dec_buckets None (buckets_json (Some (Some <$> b))) = Some (Some (Some <$> b)).
Proof.
  intros Hw. unfold dec_buckets, buckets_json. cbn [default]. set (l := ssort _ _).
  assert (Hp : l ≡ₚ map_to_list (Some <$> b)) by apply ssort_perm.
  rewrite bucket_fields.
  2: { rewrite Hp. apply Forall_forall. intros [k o] Hin%elem_of_map_to_list. rewrite lookup_fmap in Hin.
       destruct (b !! k) as [ids|] eqn:E; [|done]. injection Hin as <-. exists ids. split; [done|]. by eapply Hw. }
  cbn [mbind option_bind]. do 2 f_equal. assert (Hnd : NoDup l.*1) by (rewrite Hp; apply NoDup_fst_map_to_list).
  apply map_eq. intros k. rewrite foldl_inserts by done. rewrite (list_to_map_proper _ _ Hnd Hp), list_to_map_to_list.
  by destruct ((Some <$> b) !! k).
Qed.

Lemma sidx_fields f u kd v (b : gmap string (list Z)) cov h : in_i64 v → ids_wf b → Forall cov_wf cov →
  let file := MkSxFile f u kd v (Some (Some <$> b)) cov h in
  strict_fields set_sidx_field zero_sidxFile (sidx_members file) = Some file.
Proof.
  intros Hv Hb Hc file. unfold file, sidx_members. cbn [sx_Field sx_Unique sx_Kind sx_Version sx_Buckets sx_Coverage sx_Checksum].
  eapply sf_app; [|eapply sf_app; [|eapply sf_app; [|eapply sf_app; [|eapply sf_app; [|eapply sf_app]]]]].
  - apply (sf_one _ _ _ (MkSxFile f false "" 0 None [] "")). str_field.
  - instantiate (1 := MkSxFile f u "" 0 None [] ""). destruct u; [by apply sf_one|done].
  - apply (sf_omit_str _ _ _ _ (MkSxFile f u kd 0 None [] "")); [str_field|by intros ->].
  - apply (sf_omit_zero _ _ _ _ _ (MkSxFile f u kd v None [] "")); [|by intros ->].
    change ((x ← dec_i64 0 (num_i v); Some (MkSxFile f u kd x None [] "")) = Some (MkSxFile f u kd v None [] "")). by rewrite dec_num_i.
  - apply (sf_one _ _ _ (MkSxFile f u kd v (Some (Some <$> b)) [] "")).
    change ((x ← dec_buckets None (buckets_json (Some (Some <$> b))); Some (MkSxFile f u kd v x [] "")) = Some (MkSxFile f u kd v (Some (Some <$> b)) [] "")).
    by rewrite dec_buckets_json.
  - instantiate (1 := MkSxFile f u kd v (Some (Some <$> b)) cov ""). destruct cov as [|c cov]; [done|]. apply sf_one.
    change ((x ← dec_array dec_cov zero_cov [] (JArr (map (λ c, JObj (cov_members c)) (c :: cov))); Some (MkSxFile f u kd v (Some (Some <$> b)) x "")) =
      Some (MkSxFile f u kd v (Some (Some <$> b)) (c :: cov) "")).
    rewrite dec_list_json; [done|]. eapply Forall_impl; [exact Hc|]. apply cov_fields.
  - apply sf_one. str_field.
Qed.

Lemma sidx_members_ok f : json_ok (JObj (sidx_members f)) = true.
Proof.
  cbn [json_ok]. unfold sidx_members, omit_str, omit_zero. rewrite !forallb_app. cbn [forallb snd member].
  repeat (apply andb_true_iff; split); try done.
  - by destruct (sx_Unique f).
  - by case_decide.
  - case_match; [done|]. cbn [forallb snd member]. by rewrite num_i_ok.
  - unfold buckets_json. destruct (sx_Buckets f) as [b|]; [|done]. cbn [json_ok]. apply forallb_forall. intros kv Hin.
    apply in_map_iff in Hin as ([k o] & <- & _). cbn [snd member ids_json]. destruct o as [l|]; [|done]. cbn [json_ok].
    apply forallb_forall. intros j Hj. apply in_map_iff in Hj as (z & <- & _). apply num_u_ok.
  - destruct (sx_Coverage f) as [|c l]; [done|]. cbn [forallb snd member]. rewrite andb_true_r. cbn [covs_json json_ok].
    apply forallb_forall. intros j Hin. apply in_map_iff in Hin as (x & <- & _). cbn [json_ok]. apply cov_members_ok.
Qed.

(** The strings of the file: the field, the names of the buckets and the coverage. *)
Definition sidx_utf8 (sn : sidxSnapshot) (cov : list SegmentCoverage) : Prop :=
  str_utf8 (ss_field sn) ∧ map_Forall (λ k _, str_utf8 k) (ss_buckets sn) ∧ Forall cov_utf8 cov.

#[global] Instance sidx_utf8_dec sn cov : Decision (sidx_utf8 sn cov).
Proof. unfold sidx_utf8. apply _. Defined.

Lemma sidx_members_utf8 f u kd v (b : gmap string (list Z)) cov h :
  str_utf8 f → str_utf8 kd → str_utf8 h → map_Forall (λ k _, str_utf8 k) b → Forall cov_utf8 cov →
  json_utf8 (JObj (sidx_members (MkSxFile f u kd v (Some (Some <$> b)) cov h))) = true.
Proof.
  intros Hf Hk Hh Hb Hc. change (members_utf8 (sidx_members (MkSxFile f u kd v (Some (Some <$> b)) cov h)) = true). unfold sidx_members.
  cbn [sx_Field sx_Unique sx_Kind sx_Version sx_Buckets sx_Coverage sx_Checksum].
  assert (json_utf8 (buckets_json (Some (Some <$> b))) = true) as Hbk.
  { unfold buckets_json. cbn [json_utf8]. apply forallb_forall. intros kv (x & <- & Hx%list_elem_of_In)%in_map_iff.
    rewrite ssort_perm in Hx. destruct x as [k o]. apply elem_of_map_to_list in Hx. rewrite lookup_fmap in Hx.
    destruct (b !! k) as [ids|] eqn:E; [|done]. injection Hx as <-. cbn [fst snd member ids_json]. apply andb_true_iff. split; [exact (Hb k ids E)|].
    cbn [json_utf8]. apply forallb_forall. by intros j (z & <- & _)%in_map_iff. }
  apply covs_utf8 in Hc. assert (members_utf8 (match cov with [] => [] | l => [member "coverage" (covs_json l)] end) = true) as Hcv.
  { destruct cov; [done|]. by apply members_utf8_cons. }
  repeat apply members_utf8_app; auto with utf8; [by destruct u|by destruct cov].
Qed.

(** [sn] is a snapshot of [s], the ids of each bucket in some order. *)
Record snap_of (s : SecondaryIndex) (sn : sidxSnapshot) : Prop := {
  so_field : ss_field sn = field s;
  so_kind : ss_kind sn = kind_String (kind s);
  so_unique : ss_unique sn = unique s;
  so_buckets : list_to_set <$> ss_buckets sn = buckets s
}.

Lemma snapshot_snap_of s : snap_of s (snapshot s).
Proof.
  constructor; [done..|]. cbn. rewrite <- map_fmap_compose. apply map_eq. intros k. rewrite lookup_fmap.
  destruct (buckets s !! k) as [x|]; [|done]. cbn. f_equal. apply list_to_set_elements_L.
Qed.

Lemma parse_kind_String k : parseIndexKind (kind_String k) = k.
Proof. by destruct k. Qed.

Lemma reverse_fold_Some (l : list (string * option (list Z))) m id k :
  foldl (λ m (kv : string * option (list Z)), foldl (λ (m : gmap Z string) id, <[id := kv.1]> m) m (default [] kv.2)) m l !! id = Some k →
  m !! id = Some k ∨ ∃ ids, (k, ids) ∈ l ∧ id ∈ default [] ids.
Proof.
  revert m. induction l as [|[k' o] l IH]; intros m; [by left|]. cbn [foldl fst snd]. intros [H|(ids & H & Hi)]%IH.
  2: { right. exists ids. split; [by right|done]. }
  assert (Hin : ∀ (ids : list Z) (m : gmap Z string), foldl (λ (m : gmap Z string) id, <[id := k']> m) m ids !! id = Some k →
    m !! id = Some k ∨ (k = k' ∧ id ∈ ids)).
  { clear. induction ids as [|i ids IH]; intros m; [by left|]. cbn [foldl]. intros [H|[-> H]]%IH; [|right; split; [done|by right]].
    destruct (decide (i = id)) as [->|Hne]; [rewrite lookup_insert_eq in H; injection H as ->; right; split; [done|by left]|].
    rewrite lookup_insert_ne in H by done. by left. }
  apply Hin in H as [H|[-> H]]; [by left|]. right. exists o. split; [by left|done].
Qed.

Lemma reverse_fold_is (l : list (string * option (list Z))) m id :
  (is_Some (m !! id) ∨ ∃ k ids, (k, ids) ∈ l ∧ id ∈ default [] ids) →
  is_Some (foldl (λ m (kv : string * option (list Z)), foldl (λ (m : gmap Z string) id, <[id := kv.1]> m) m (default [] kv.2)) m l !! id).
Proof.
  revert m. induction l as [|[k' o] l IH]; intros m H; cbn [foldl fst snd].
  - destruct H as [H|(k & ids & H & _)]; [done|by apply elem_of_nil in H].
  - apply IH. assert (Hin : ∀ (ids : list Z) (m : gmap Z string), is_Some (m !! id) ∨ id ∈ ids → is_Some (foldl (λ (m : gmap Z string) id, <[id := k']> m) m ids !! id)).
    { clear. induction ids as [|i ids IH]; intros m [H|H]; cbn [foldl]; [done|by apply elem_of_nil in H|apply IH..].
      - left. destruct (decide (i = id)) as [->|Hne]; [rewrite lookup_insert_eq; eauto|by rewrite lookup_insert_ne].
      - apply elem_of_cons in H as [->|H]; [left; rewrite lookup_insert_eq; eauto|by right]. }
    destruct H as [H|(k & ids & [[= -> ->]|H]%elem_of_cons & Hi)]; [left; apply Hin; by left|left; apply Hin; by right|right; eauto].
Qed.

Lemma fresh_buckets_snap s sn : snap_of s sn → fresh_buckets (Some (Some <$> ss_buckets sn)) = buckets s.
Proof.
  intros H. rewrite <- (so_buckets _ _ H). unfold fresh_buckets. apply map_eq. intros k.
  cbn [from_option id]. rewrite !lookup_fmap. by destruct (ss_buckets sn !! k).
Qed.

Lemma fresh_reverse_snap s sn m : snap_of s sn → sidx_repr s m → fresh_reverse (Some (Some <$> ss_buckets sn)) = toIndexKey <$> m.
Proof.
  intros Hs [Hc _]. assert (Hb : ∀ k ids, (k, Some ids) ∈ map_to_list (Some <$> ss_buckets sn) ↔ ss_buckets sn !! k = Some ids).
  { intros k ids. rewrite elem_of_map_to_list, lookup_fmap. destruct (ss_buckets sn !! k); cbn; split; by intros [= ->]. }
  assert (Hm : ∀ k id, (∃ ids, ss_buckets sn !! k = Some ids ∧ id ∈ ids) ↔ ∃ v, m !! id = Some v ∧ toIndexKey v = k).
  { intros k id. rewrite <- (sc_bucket _ _ Hc). unfold bucket. rewrite <- (so_buckets _ _ Hs), lookup_fmap.
    destruct (ss_buckets sn !! k) as [ids|]; cbn.
    - rewrite elem_of_list_to_set. split; [by intros (? & [= <-] & ?)|eauto].
    - split; [by intros (? & ? & _)|set_solver]. }
  assert (Hsome : ∀ k o, (k, o) ∈ map_to_list (Some <$> ss_buckets sn) → ∃ ids, o = Some ids ∧ ss_buckets sn !! k = Some ids).
  { intros k o H%elem_of_map_to_list. rewrite lookup_fmap in H. destruct (ss_buckets sn !! k) as [ids|]; [|done]. injection H as <-. eauto. }
  unfold fresh_reverse. cbn [default]. apply map_eq. intros id. rewrite lookup_fmap.
  destruct (foldl _ ∅ _ !! id) as [k|] eqn:E.
  - apply reverse_fold_Some in E as [E|(o & Hin & Hid)]; [by rewrite lookup_empty in E|].
    apply Hsome in Hin as (ids & -> & Hk). cbn [default] in Hid. destruct (proj1 (Hm k id)) as (v & -> & <-); [eauto|done].
  - destruct (m !! id) as [v|] eqn:Ev; [|done]. destruct (proj2 (Hm (toIndexKey v) id)) as (ids & Hk & Hid); [eauto|].
    exfalso. apply eq_None_not_Some in E. apply E, reverse_fold_is. right. exists (toIndexKey v), (Some ids). by rewrite Hb.
Qed.

(** what [write] puts in a version 2 file is accepted by [Load], which restores an
    index with the same meaning, its unique flag and its coverage. *)
Theorem sidx_load_write s0 s sn m cov : field s = field s0 → snap_of s0 sn → sidx_repr s0 m → ids_wf (ss_buckets sn) → Forall cov_wf cov →
  sidx_utf8 sn cov → ∃ s', sidx_Load s (Some (sidx_write sn cov true)) = (s', Ok (cov, true)) ∧ field s' = field s ∧ unique s' = unique s0 ∧ sidx_repr s' m.
Proof.
  intros Hf Hs Hr Hi Hc (Hu1 & Hu2 & Hu3). unfold sidx_Load, sidx_write, unmarshal_sidx. rewrite unmarshal_print; [|apply sidx_members_ok|].
  2: { apply sidx_members_utf8; try done; [by rewrite (so_kind _ _ Hs); destruct (kind s0)|]. unfold str_utf8. rewrite b_of_s_of_b. apply hex_encode_utf8. }
  rewrite sidx_fields by done. cbn [sx_Version sx_Buckets sx_Coverage sx_Checksum]. rewrite bool_decide_eq_true_2, decide_True by done.
  eexists. split; [done|]. unfold sidx_install. cbn [sx_Kind sx_Buckets sx_Unique field unique].
  rewrite (fresh_buckets_snap _ _ Hs), (fresh_reverse_snap _ _ _ Hs Hr), (so_kind _ _ Hs), parse_kind_String, (so_unique _ _ Hs).
  split_and!; [done|done|]. destruct Hr as [Hcore [Hrev Hw]].
  rewrite decide_False.
  - apply built_repr; [|apply Hcore|done]. split; [apply (sc_bucket _ _ Hcore)|apply (sc_nonempty _ _ Hcore)].
  - intros [Hk Hne]. apply Hne. apply map_eq. intros k. rewrite lookup_empty. apply eq_None_not_Some. intros [x Hx].
    apply (sc_nonempty _ _ Hcore) in Hx as Hx'. apply set_choose_L in Hx' as [id Hid].
    assert (id ∈ bucket s0 k) as Hb by (unfold bucket; by rewrite Hx). apply (sc_bucket _ _ Hcore) in Hb as (v & Hv & _).
    pose proof (sc_kind _ _ Hcore) as Hkind. rewrite Hk in Hkind. cbn in Hkind. subst m. by rewrite lookup_empty in Hv.
Qed.

(** ** Replay *)

Lemma plain_snoc ds L e tx : plain ds (L ++ [(e, tx)]) =
  if entryVisible tx ds then
    if decide (Op e = OpInsert ∨ Op e = OpUpdate) then <[ID e := default ∅ (Data e)]> (plain ds L)
    else if decide (Op e = OpDelete) then delete (ID e) (plain ds L) else plain ds L
  else plain ds L.
Proof.
  unfold plain. rewrite records_snoc. unfold rec_step. cbn [fst snd]. destruct (entryVisible tx ds); [|done].
  case_decide; [by rewrite fmap_insert|]. case_decide; [by rewrite fmap_delete|done].
Qed.

(** An index that follows the log [L]. *)
Definition follows (u : bool) (f : string) (ds : option decisions) (L : list line) (s : SecondaryIndex) : Prop :=
  field s = f ∧ unique s = u ∧ sidx_repr s (field_map f (plain ds L)).

Lemma replay_one_follows u f ds L s e tx : follows u f ds L s → data_wf (default ∅ (Data e)) →
  follows u f ds (L ++ [(e, tx)]) (if entryVisible tx ds then replay_one s e else s).
Proof.
  intros (Hf & Hu & Hr) Hw. unfold follows. rewrite plain_snoc. destruct (entryVisible tx ds); [|done]. unfold replay_one. case_decide.
  - destruct (sidx_update_ok f s _ (ID e) _ Hf Hr Hw) as [H1 H2]. unfold sidx_update in H1, H2. rewrite Hf.
    destruct (default ∅ (Data e) !! f) as [v|].
    + split_and!; [done| |done]. by rewrite (proj2 (update_same_field s (ID e) v)).
    + split_and!; [done| |done]. by rewrite (proj2 (remove_same_field s (ID e))).
  - case_decide; [|done]. destruct (sidx_delete_ok f s _ (ID e) Hf Hr) as [H1 H2]. unfold sidx_delete in H1, H2.
    split_and!; [done| |done]. by rewrite (proj2 (remove_same_field s (ID e))).
Qed.

Lemma replay_lines_follows u f ds (l : list located) : ∀ L s, follows u f ds L s → lines_wf (map snd l) →
  follows u f ds (L ++ map snd l) (foldl (λ s (x : located), if entryVisible x.2.2 ds then replay_one s x.2.1 else s) s l).
Proof.
  induction l as [|[o [e tx]] l IH]; intros L s Hs Hw; cbn [map foldl fst snd]; [by rewrite app_nil_r|].
  apply Forall_cons in Hw as [He Hw]. cbn [fst snd] in He. rewrite cons_middle, app_assoc. apply IH; [|done]. by apply replay_one_follows.
Qed.

Definition log_lines (log : list log_entry) : list line := map (λ x : log_entry, x.2.2) log.

Lemma replay_plan_follows u f ds plan ls : steps_read plan ls → ∀ L s, follows u f ds L s → lines_wf (log_lines (steps_log plan ls)) →
  ∃ s', replay_plan s ds plan = (s', true) ∧ follows u f ds (L ++ log_lines (steps_log plan ls)) s'.
Proof.
  unfold log_lines. induction 1 as [|st l plan ls Hst Hr IH]; intros L s Hs Hw.
  - exists s. split; [done|]. by rewrite app_nil_r.
  - assert (E : map (λ x : log_entry, x.2.2) (steps_log (st :: plan) (l :: ls)) = map snd l ++ map (λ x : log_entry, x.2.2) (steps_log plan ls)).
    { unfold steps_log. cbn [zip_with concat]. rewrite map_app. f_equal. unfold seg_log. by rewrite map_map. }
    rewrite E in Hw |- *. apply Forall_app in Hw as [H1 H2]. cbn [replay_plan]. unfold replay_segment. rewrite Hst.
    pose proof (replay_lines_follows u f ds l L s Hs H1) as Hs1. destruct (IH _ _ Hs1 H2) as (s' & E' & Hs'). exists s'. split; [exact E'|]. by rewrite app_assoc.
Qed.

Lemma plain_agree ds ds' L : Forall (λ x : line, entryVisible x.2 ds = entryVisible x.2 ds') L → plain ds L = plain ds' L.
Proof.
  induction L as [|[e tx] L IH] using rev_ind; [done|]. intros [H1 H2]%Forall_app. rewrite Forall_singleton in H2. cbn [snd] in H2.
  rewrite !plain_snoc, H2. by rewrite IH.
Qed.

Lemma full_log_lines segs es : length segs = length es → log_lines (full_log segs es) = map snd (concat es).
Proof.
  unfold log_lines, full_log. revert es. induction segs as [|s segs IH]; intros [|e es] Hl; try done. cbn [zip_with concat].
  rewrite !map_app, IH by (cbn in Hl; lia). f_equal. unfold seg_log. by rewrite map_map.
Qed.

(** ** Recovery *)

(** [file] is a version 2 file of an index on [f] that followed the segments
    [segs0] of [dir0] under the decisions [ds0], and covers them; its names are
    UTF-8. *)
Record honest_sidx (dir0 : string) (ds0 : option decisions) (segs0 : list Segment) (es0 : list (list located)) (f : string)
    (u : bool) (file : bytes) : Prop := {
  hx_abs : is_abs dir0 = true;
  hx_nums : ∃ nums0, numbered_in dir0 segs0 nums0;
  hx_holds : holds_all segs0 es0;
  hx_sizes : Forall (λ s, Z.of_nat (size s) < two63)%Z segs0;
  hx_file : ∃ s0 sn cov' cov, follows u f ds0 (map snd (concat es0)) s0 ∧ snap_of s0 sn ∧ ids_wf (ss_buckets sn) ∧
    cov' ≡ₚ cov ∧ Forall2 (λ (se : Segment * list located) c, cov_honest ds0 se.1 se.2 c) (zip segs0 es0) cov ∧
    sidx_utf8 sn cov' ∧ file = sidx_write sn cov' true
}.

Lemma cov_honest_wf ds0 segs0 es0 cov : Forall (λ s, Z.of_nat (size s) < two63)%Z segs0 →
  Forall2 (λ (se : Segment * list located) c, cov_honest ds0 se.1 se.2 c) (zip segs0 es0) cov → Forall cov_wf cov.
Proof.
  intros Hsz Hcov. apply Forall_forall. intros c [i Hi]%list_elem_of_lookup.
  destruct (Forall2_lookup_r _ _ _ _ _ Hcov Hi) as ([s0 e0] & Hz & Hhon). cbn [fst snd] in Hhon. unfold cov_wf. rewrite (ch_size _ _ _ _ Hhon).
  rewrite lookup_zip_with in Hz. destruct (segs0 !! i) as [s|] eqn:Ei; [|done]. cbn in Hz. destruct (es0 !! i); [|done]. injection Hz as -> ->.
  rewrite Forall_lookup in Hsz. specialize (Hsz _ _ Ei). unfold in_i64, two63 in *. lia.
Qed.

Lemma capture_each_spec segs es ds epoch fs fs' cov : holds_all segs es → capture_each segs ds epoch fs = (fs', Some cov) →
  Forall2 (λ (se : Segment * list located) c, cov_honest ds se.1 se.2 c) (zip segs es) cov.
Proof.
  intros H. revert fs fs' cov. induction H as [|s e segs es [Hi Hp] _ IH]; intros fs fs' cov; cbn [capture_each].
  - intros [= _ <-]. constructor.
  - destruct (captureCoverage s ds epoch fs) as [fs1 w] eqn:Ec. destruct w as [c|]; [|done].
    destruct (capture_each segs ds epoch fs1) as [fs2 r] eqn:Er. destruct r as [l|]; [|done]. intros [= _ <-]. constructor; [|by eapply IH].
    by eapply captureCoverage_spec.
Qed.

(** What [persistSecondary] writes is such a file. *)
Lemma persist_sidx_honest dir0 nums0 ds0 segs0 es0 u s0 epoch fs fs' b :
  is_abs dir0 = true → numbered_in dir0 segs0 nums0 → holds_all segs0 es0 → Forall (λ s, Z.of_nat (size s) < two63)%Z segs0 →
  follows u (field s0) ds0 (map snd (concat es0)) s0 → ids_wf (elements <$> buckets s0) →
  (∀ cov, (capture_each segs0 ds0 epoch fs).2 = Some cov → sidx_utf8 (snapshot s0) cov) →
  persist_sidx s0 segs0 ds0 epoch fs = (fs', Some b) → honest_sidx dir0 ds0 segs0 es0 (field s0) u b.
Proof.
  intros Ha Hn Hh Hsz Hf Hi Hu. unfold persist_sidx. destruct (capture_each segs0 ds0 epoch fs) as [fs1 r] eqn:Ec. destruct r as [cov|]; [|done].
  intros [= _ <-]. constructor; [done|eauto|done|done|]. exists s0, (snapshot s0), cov, cov.
  split_and!; [done|apply snapshot_snap_of|done|done|by eapply capture_each_spec|by apply Hu|done].
Qed.

