(* ===== verification/SidxSample.v ===== *)
(** * Secondary index recovery, evaluated *)
From Stdlib Require Import Ascii Lia ZArith.
From stdpp Require Import prelude gmap strings sorting.
From S2P Require Import Prelude GoNum Json Value Filter GoTime Store Wire Codec Segment Index SecondaryIndex Collection Keyed CollInv CollStep CollOps CollThm Unique Manifest Sha256 Journal JournalThm UnixTime Envelope Salvage IndexFile IndexFileThm IndexRecover IndexRecoverThm SidxFile SidxFileThm.

Definition ss_index : SecondaryIndex :=
  match (rebuild_mode (newSecondaryIndex "n" true) [ir_s1] false None []).2 with Ok s => s | Err _ => newSecondaryIndex "n" true end.

Definition ss_file : option bytes := (persist_sidx ss_index [ir_s1] None "" []).2.

Lemma ss_lines_wf o o' : lines_wf (map snd (concat [[ir_x o; ir_x o']])).
Proof. apply Forall_cons_2; [apply sample_readable|]. apply Forall_cons_2; [apply sample_readable|constructor]. Qed.

Lemma ss_follows : follows true "n" None (map snd (concat [[ir_x 0]])) ss_index.
Proof.
  assert (Hh : holds_all [ir_s1] [[ir_x 0]]) by (constructor; [apply ir_inv1|constructor]).
  assert (Hw : lines_wf (map snd (concat [[ir_x 0]]))) by (apply Forall_cons_2; [apply sample_readable|constructor]).
  destruct (rebuild_mode_spec (newSecondaryIndex "n" true) [ir_s1] _ None [] Hh Hw) as (s' & E & Hf & Hu & Hr).
  unfold ss_index. rewrite E. cbn [snd]. split; [exact Hf|]. split; [exact Hu|exact Hr].
Qed.

Lemma ss_ids_wf : ids_wf (elements <$> buckets ss_index).
Proof.
  assert (elements <$> buckets ss_index = {[ "42" := [ID sample_entry] ]}) as -> by (vm_compute; reflexivity).
  intros k l [<- <-]%lookup_singleton_Some. repeat constructor; by vm_compute.
Qed.

Lemma ss_utf8 cov : (capture_each [ir_s1] None "" []).2 = Some cov → sidx_utf8 (snapshot ss_index) cov.
Proof.
  intros E. assert (H : match (capture_each [ir_s1] None "" []).2 with Some c => bool_decide (sidx_utf8 (snapshot ss_index) c) | None => true end = true)
    by (vm_compute; reflexivity).
  rewrite E in H. by apply bool_decide_eq_true in H.
Qed.

Lemma ss_honest b : ss_file = Some b → honest_sidx "/a" None [ir_s1] [[ir_x 0]] "n" true b.
Proof.
  intros E. destruct (persist_sidx ss_index [ir_s1] None "" []) as [fs' r] eqn:Ep. unfold ss_file in E. rewrite Ep in E. cbn [snd] in E. subst r.
  exact (persist_sidx_honest "/a" [1%Z] None [ir_s1] [[ir_x 0]] true ss_index "" [] fs' b eq_refl ir_numbered1
    ltac:(constructor; [apply ir_inv1|constructor]) ltac:(repeat constructor; vm_compute; reflexivity) ss_follows ss_ids_wf ss_utf8 Ep).
Qed.

Definition ss_run := recoverSecondary (newSecondaryIndex "n" false) ss_file [ir_s2] false false None "" ∅ [].

Lemma ss_replayed : match ss_run.2 with Ok (s, c) => c && unique s && bool_decide (Lookup s "42" = [ID sample_entry]) | Err _ => false end = true.
Proof. vm_compute. reflexivity. Qed.

Lemma ss_file_honest s1 cov known : sidx_Load (newSecondaryIndex "n" false) ss_file = (s1, Ok (cov, known)) →
  ∃ b dir0 ds0 segs0 es0 u, ss_file = Some b ∧ honest_sidx dir0 ds0 segs0 es0 "n" u b ∧ no_collision segs0 [ir_s2] ∧ Forall (no_late_commit ds0 None) es0.
Proof.
  intros _. destruct ss_file as [b|] eqn:E; [|vm_compute in E; discriminate E].
  exists b, "/a", None, [ir_s1], [[ir_x 0]], true. split; [reflexivity|]. split; [apply ss_honest, E|exact ir_origin].
Qed.

