(* ===== verification/Verify.v ===== *)
(** * Verification: [engine/verify.go], [engine/verify_checks.go], [engine/integrity_policy.go]

    The read-only check of a collection: every segment is scanned tolerantly, the
    history of its lines is replayed and compared with the primary index, the
    secondary indexes and the coverage of their files, and what does not agree is
    reported as findings with a severity.  The integrity gate of an open is the
    full check of the segments under a policy.

    Texts of messages are left out of the findings, and the context of a check is
    one that is not cancelled (a cancelled one ends the check with its error and
    changes nothing). *)
From Stdlib Require Import Ascii Lia ZArith.
From stdpp Require Import prelude gmap strings sorting.
From S2P Require Import Prelude GoNum Json Value Filter GoTime Store Wire Codec Segment Index SecondaryIndex Collection Keyed Compactor Manifest Sha256 Journal Salvage IndexFile IndexRecover SidxFile.

(** ** Findings *)

Inductive Severity : Type := SeverityInfo | SeverityRepairableIndex | SeverityDataCorruption | SeverityConflict.

Definition rank (s : Severity) : nat :=
  match s with SeverityInfo => 1 | SeverityRepairableIndex => 2 | SeverityDataCorruption => 3 | SeverityConflict => 4 end.

(** Codes of findings are their texts. *)
Definition CodeSegmentTornTail : string := "segment-torn-tail".
Definition CodeSegmentBadRegion : string := "segment-bad-region".
Definition CodeSegmentGluedLine : string := "segment-glued-line".
Definition CodeSegmentUnreadable : string := "segment-unreadable".
Definition CodeOrphanSegmentFile : string := "orphan-segment-file".
Definition CodeLeftoverTempFile : string := "leftover-temp-file".
Definition CodeManifestPending : string := "compaction-manifest-pending".
Definition CodeManifestCorrupt : string := "compaction-manifest-corrupt".
Definition CodeMetaMissing : string := "meta-missing".
Definition CodeMetaUnreadable : string := "meta-unreadable".
Definition CodeEncryptionMetaLost : string := "encryption-meta-lost".
Definition CodeIDCounterBehind : string := "idcounter-behind".
Definition CodeRecordExpiredLive : string := "record-expired-live".
Definition CodeDuplicateIdentical : string := "duplicate-record-identical".
Definition CodeConflictDuplicateID : string := "conflict-duplicate-id".
Definition CodeConflictIDReuse : string := "conflict-id-reuse-after-delete".
Definition CodeConflictWriteAfter : string := "conflict-write-after-delete".
Definition CodeConflictRevision : string := "conflict-revision-regression".
Definition CodeIndexMissing : string := "index-missing".
Definition CodeIndexUnreadable : string := "index-unreadable".
Definition CodeIndexSpotCheckFailed : string := "index-spotcheck-failed".
Definition CodeIndexMissingRecord : string := "index-missing-record".
Definition CodeIndexStaleRecord : string := "index-stale-record".
Definition CodeIndexWrongRecord : string := "index-wrong-record".
Definition CodeIndexDanglingOffset : string := "index-dangling-offset".
Definition CodeIndexDanglingEntry : string := "index-dangling-entry".
Definition CodeIndexResurrected : string := "index-resurrected-delete".
Definition CodeSidxUnreadable : string := "sidx-unreadable".
Definition CodeSidxMissingEntry : string := "sidx-missing-entry".
Definition CodeSidxExtraEntry : string := "sidx-extra-entry".
Definition CodeSidxWrongBucket : string := "sidx-wrong-bucket".
Definition CodeSidxUniqueViolation : string := "sidx-unique-violation".
Definition CodeKeyDuplicate : string := "key-duplicate".

Record Location : Type := MkLoc { loc_Segment : string; loc_Offset : nat; loc_ID : Z; loc_Field : string }.

Definition no_loc : Location := MkLoc "" 0 0 "".
Definition seg_loc (s : string) : Location := MkLoc s 0 0 "".
Definition field_loc (f : string) : Location := MkLoc "" 0 0 f.
Definition with_segment (l : Location) (s : string) : Location := MkLoc s (loc_Offset l) (loc_ID l) (loc_Field l).
Definition with_offset (l : Location) (o : nat) : Location := MkLoc (loc_Segment l) o (loc_ID l) (loc_Field l).

Record Finding : Type := MkFinding { fd_Severity : Severity; fd_Code : string; fd_Collection : string; fd_Location : Location }.

(** Findings with a cap per code. *)
Record findingSink : Type := MkSink {
  fk_collection : string;
  fk_max : nat;
  fk_counts : gmap string nat;
  fk_truncated : gmap string nat;
  fk_out : list Finding
}.

Definition newFindingSink (collection : string) (max : nat) : findingSink := MkSink collection max ∅ ∅ [].

Definition sink_add (k : findingSink) (sev : Severity) (code : string) (loc : Location) : findingSink :=
  let n := S (default 0 (fk_counts k !! code)) in
  let counts := <[code := n]> (fk_counts k) in
  if fk_max k <? n then
    MkSink (fk_collection k) (fk_max k) counts (<[code := S (default 0 (fk_truncated k !! code))]> (fk_truncated k)) (fk_out k)
  else MkSink (fk_collection k) (fk_max k) counts (fk_truncated k) (fk_out k ++ [MkFinding sev code (fk_collection k) loc]).

(** ** Options and input *)

Definition VerifyQuick : string := "quick".
Definition VerifyFull : string := "full".
Definition DefaultMaxFindingsPerCode : Z := 1000.

(** The clock is in nanoseconds since the epoch; a zero time is [None]. *)
Record VerifyOptions : Type := MkOpts {
  vo_Mode : string;
  vo_Collections : list string;
  vo_MaxFindingsPerCode : Z;
  vo_Now : option Z
}.

Definition normalized (now : Z) (o : VerifyOptions) : VerifyOptions :=
  MkOpts (if decide (vo_Mode o = "") then VerifyFull else vo_Mode o) (vo_Collections o)
    (if (vo_MaxFindingsPerCode o <=? 0)%Z then DefaultMaxFindingsPerCode else vo_MaxFindingsPerCode o)
    (Some (default now (vo_Now o))).

Definition wants (o : VerifyOptions) (name : string) : bool :=
  match vo_Collections o with [] => true | l => bool_decide (name ∈ l) end.

Record vseg : Type := MkVseg { vs_seg : Segment; vs_path : string; vs_name : string; vs_num : Z; vs_size : nat }.

Definition vseg_of (s : Segment) : vseg := MkVseg s (path s) (path_base (path s)) (default 0%Z (segmentNum (path s))) (size s).

Record sidxView : Type := MkView {
  vw_field : string;
  vw_unique : bool;
  vw_buckets : gmap string (gset Z);
  vw_cov : list SegmentCoverage;
  vw_covKnown : bool
}.

Record verifyInput : Type := MkInput {
  in_name : string;
  in_dir : string;
  in_opts : VerifyOptions;
  in_persisted : bool;
  in_segs : list vseg;
  in_hasIndex : bool;
  in_index : gmap Z IndexEntry;
  in_indexCov : list SegmentCoverage;
  in_indexCovKnown : bool;
  in_sidx : list sidxView;
  in_idCounter : Z;
  in_idCounterKnown : bool;
  in_idCounterLive : bool
}.

Record VerifyStats : Type := MkStats {
  vt_Segments : nat;
  vt_SegmentBytes : nat;
  vt_Entries : nat;
  vt_LiveRecords : nat;
  vt_BadRegions : nat;
  vt_IndexEntries : nat;
  vt_SecondaryIndexes : nat
}.

Record CollectionReport : Type := MkCReport {
  cr_Name : string;
  cr_Mode : string;
  cr_Stats : VerifyStats;
  cr_Findings : list Finding;
  cr_Truncated : gmap string nat
}.

Definition report (i : verifyInput) (st : VerifyStats) (k : findingSink) : CollectionReport :=
  MkCReport (in_name i) (vo_Mode (in_opts i)) st (fk_out k) (fk_truncated k).

(** ** Bytes *)

Definition reportBadRegion (k : findingSink) (s : vseg) (newest : bool) (br : BadRegion) : findingSink :=
  let loc := MkLoc (vs_name s) (br_Offset br) 0 "" in
  match br_Reason br with
  | BadRegionTornTailLine =>
      if newest && (br_Offset br + br_Length br =? vs_size s)
      then sink_add k SeverityInfo CodeSegmentTornTail loc
      else sink_add k SeverityDataCorruption CodeSegmentTornTail loc
  | BadRegionGluedLines => sink_add k SeverityDataCorruption CodeSegmentGluedLine loc
  | _ => sink_add k SeverityDataCorruption CodeSegmentBadRegion loc
  end.

(** ** History *)

Definition fnv_offset : N := 14695981039346656037.
Definition fnv_prime : N := 1099511628211.

(** [fnv.New64a]. *)
Definition fnv64a (b : bytes) : N :=
  foldl (λ h c, (N.lxor h (N_of_ascii c) * fnv_prime) mod 2 ^ 64)%N fnv_offset b.

Definition dataHash (d : option vdata) : N :=
  fnv64a (match d with None => b_of_s "null" | Some m => print (data_to_json m) end).

Record truthRec : Type := MkTruth {
  tr_seg : string;
  tr_off : nat;
  tr_rev : Z;
  tr_lastRev : Z;
  tr_exp : Z;
  tr_epoch : Z;
  tr_hash : N;
  tr_live : bool;
  tr_deleted : bool;
  tr_keys : gmap string string
}.

Definition zero_truth : truthRec := MkTruth "" 0 0 0 0 0 0 false false ∅.
Definition deleted_truth : truthRec := MkTruth "" 0 0 0 0 0 0 false true ∅.

Record truthBuilder : Type := MkTB {
  tb_truth : gmap Z truthRec;
  tb_at : gmap (string * nat) Z;
  tb_maxID : Z;
  tb_fields : list string
}.

Definition newTruthBuilder (i : verifyInput) : truthBuilder := MkTB ∅ ∅ 0 (map vw_field (in_sidx i)).

(** A write that one writer appending in order does not explain. *)
Definition checkHistory (k : findingSink) (loc : Location) (prev : truthRec) (e : Entry) (h : N) : findingSink :=
  if tr_deleted prev then
    if decide (Op e = OpInsert) then sink_add k SeverityConflict CodeConflictIDReuse loc
    else sink_add k SeverityConflict CodeConflictWriteAfter loc
  else if decide (Op e = OpInsert) then
    if (Rev e =? tr_lastRev prev)%Z && (h =? tr_hash prev)%N then sink_add k SeverityInfo CodeDuplicateIdentical loc
    else sink_add k SeverityConflict CodeConflictDuplicateID loc
  else if (0 <? Rev e)%Z && (0 <? tr_lastRev prev)%Z && (Rev e <? tr_lastRev prev)%Z then
    sink_add k SeverityConflict CodeConflictRevision loc
  else if (0 <? Rev e)%Z && (Rev e =? tr_lastRev prev)%Z then
    if (h =? tr_hash prev)%N then sink_add k SeverityInfo CodeDuplicateIdentical loc
    else sink_add k SeverityConflict CodeConflictRevision loc
  else k.

Definition isStringValue (v : value) : bool := match v with VStr _ => true | _ => false end.

(** The bucket keys of a record. *)
Definition truth_keys (fields : list string) (d : vdata) : gmap string string :=
  foldl (λ m f, match d !! f with
                | Some v => if negb (bool_decide (f = KeyField)) || isStringValue v then <[f := toIndexKey v]> m else m
                | None => m
                end) ∅ fields.

Definition fold_entry (name : string) (tk : truthBuilder * findingSink) (x : SalvagedEntry) : truthBuilder * findingSink :=
  let '(tb, k) := tk in
  let e := sv_Entry x in
  let at_ := <[(name, sv_Offset x) := ID e]> (tb_at tb) in
  let maxID := Z.max (tb_maxID tb) (ID e) in
  let loc := MkLoc name (sv_Offset x) (ID e) "" in
  if decide (Op e = OpInsert ∨ Op e = OpUpdate) then
    let h := dataHash (Data e) in
    let k := match tb_truth tb !! ID e with Some rec => checkHistory k loc rec e h | None => k end in
    let rec := default zero_truth (tb_truth tb !! ID e) in
    let rev := u64 (tr_rev rec + 1) in
    let rev := if (rev <? Rev e)%Z then Rev e else rev in
    let rec := MkTruth name (sv_Offset x) rev (Rev e) (ExpiresAt e) (Epoch e) h true false
                 (truth_keys (tb_fields tb) (default ∅ (Data e))) in
    (MkTB (<[ID e := rec]> (tb_truth tb)) at_ maxID (tb_fields tb), k)
  else if decide (Op e = OpDelete) then
    (MkTB (<[ID e := deleted_truth]> (tb_truth tb)) at_ maxID (tb_fields tb), k)
  else (MkTB (tb_truth tb) at_ maxID (tb_fields tb), k).

(** ** The indexes against the history *)

Definition sortedMapIDs {A} (m : gmap Z A) : list Z := ssort Z.ltb (map_to_list m).*1.

Definition compare_entry (truth : gmap Z truthRec) (at_ : gmap (string * nat) Z) (id : Z) (ie : IndexEntry) (k : findingSink) : findingSink :=
  let base := path_base (SegmentPath ie) in
  let loc := MkLoc base (Offset ie) id "" in
  match truth !! id with
  | None =>
      match at_ !! (base, Offset ie) with
      | Some _ => sink_add k SeverityRepairableIndex CodeIndexWrongRecord loc
      | None => sink_add k SeverityRepairableIndex CodeIndexDanglingEntry loc
      end
  | Some t =>
      if tr_deleted t then sink_add k SeverityRepairableIndex CodeIndexResurrected loc
      else if negb (bool_decide (tr_seg t = base)) || negb (tr_off t =? Offset ie) then
        match at_ !! (base, Offset ie) with
        | Some got => if negb (got =? id)%Z then sink_add k SeverityRepairableIndex CodeIndexWrongRecord loc
                      else sink_add k SeverityRepairableIndex CodeIndexStaleRecord loc
        | None => sink_add k SeverityRepairableIndex CodeIndexDanglingOffset loc
        end
      else if negb (ie_Rev ie =? tr_rev t)%Z || negb (ie_ExpiresAt ie =? tr_exp t)%Z || negb (ie_Epoch ie =? tr_epoch t)%Z then
        sink_add k SeverityRepairableIndex CodeIndexStaleRecord loc
      else k
  end.

Definition truth_loc (id : Z) (t : truthRec) : Location := MkLoc (tr_seg t) (tr_off t) id "".

Definition compareIndex (i : verifyInput) (truth : gmap Z truthRec) (at_ : gmap (string * nat) Z) (k : findingSink) : findingSink :=
  let now := default 0%Z (vo_Now (in_opts i)) in
  let k :=
    if in_hasIndex i then
      let k := foldl (λ k id, match in_index i !! id with Some ie => compare_entry truth at_ id ie k | None => k end) k
                 (sortedMapIDs (in_index i)) in
      foldl (λ k id, match truth !! id with
                     | Some t => if tr_live t && bool_decide (in_index i !! id = None)
                                 then sink_add k SeverityRepairableIndex CodeIndexMissingRecord (truth_loc id t) else k
                     | None => k
                     end) k (sortedMapIDs truth)
    else k in
  foldl (λ k id, match truth !! id with
                 | Some t => if tr_live t && (0 <? tr_exp t)%Z && (tr_exp t <=? now)%Z
                             then sink_add k SeverityInfo CodeRecordExpiredLive (truth_loc id t) else k
                 | None => k
                 end) k (sortedMapIDs truth).

(** The bucket keys that list the id, sorted. *)
Definition member_keys (b : gmap string (gset Z)) (id : Z) : list string :=
  ssort str_ltb (filter (λ key, id ∈ default ∅ (b !! key)) (map_to_list b).*1).

Definition all_ids (b : gmap string (gset Z)) (truth : gmap Z truthRec) : gset Z :=
  ⋃ (map_to_list b).*2 ∪ dom (filter (λ kv, tr_live kv.2 = true) truth).

Definition compare_member (f : string) (b : gmap string (gset Z)) (truth : gmap Z truthRec) (k : findingSink) (id : Z) : findingSink :=
  let loc := MkLoc "" 0 id f in
  let tk := t ← truth !! id; if tr_live t then tr_keys t !! f else None in
  match tk, member_keys b id with
  | Some _, [] => sink_add k SeverityRepairableIndex CodeSidxMissingEntry loc
  | None, _ :: _ => sink_add k SeverityRepairableIndex CodeSidxExtraEntry loc
  | Some key, l => if decide (l = [key]) then k else sink_add k SeverityRepairableIndex CodeSidxWrongBucket loc
  | None, [] => k
  end.

Definition reportUnique (k : findingSink) (f : string) (byKey : gmap string (list Z)) : findingSink :=
  let keys := ssort str_ltb (map_to_list (filter (λ kv, 1 < length kv.2) byKey)).*1 in
  foldl (λ k key,
    let ids := ssort Z.ltb (default [] (byKey !! key)) in
    let loc := MkLoc "" 0 (default 0%Z (head ids)) f in
    if decide (f = KeyField) then sink_add k SeverityConflict CodeKeyDuplicate loc
    else sink_add k SeverityConflict CodeSidxUniqueViolation loc) k keys.

(** The live ids of each value of the field. *)
Definition truth_by_key (f : string) (truth : gmap Z truthRec) : gmap string (list Z) :=
  foldl (λ m id, match (t ← truth !! id; if tr_live t then tr_keys t !! f else None) with
                 | Some key => <[key := default [] (m !! key) ++ [id]]> m
                 | None => m
                 end) ∅ (sortedMapIDs truth).

Definition compare_view (truth : gmap Z truthRec) (k : findingSink) (v : sidxView) : findingSink :=
  let k := foldl (compare_member (vw_field v) (vw_buckets v) truth) k (ssort Z.ltb (elements (all_ids (vw_buckets v) truth))) in
  if vw_unique v then reportUnique k (vw_field v) (truth_by_key (vw_field v) truth) else k.

Definition compareSidx (i : verifyInput) (truth : gmap Z truthRec) (k : findingSink) : findingSink :=
  foldl (compare_view truth) k (in_sidx i).

Definition uniqueFromBuckets (k : findingSink) (v : sidxView) : findingSink :=
  if vw_unique v then reportUnique k (vw_field v) (elements <$> vw_buckets v) else k.

(** ** Samples and coverage *)

(** The ids of the quick check: the newest, and others evenly spaced. *)
Definition quick_sample (ids : list Z) : list Z :=
  let n := length ids in
  let rest := n - spotCheckNewest in
  let step := Nat.max 1 (rest / spotCheckRandom) in
  drop rest ids ++ omap (λ i, if i <? rest then ids !! i else None) (map (λ j, j * step) (seq 0 rest)).

Definition name_seg (segs : list vseg) (name : string) : option vseg := last (filter (λ s, vs_name s = name) segs).

Definition spotCheckIndex (i : verifyInput) (k : findingSink) (fs : list fault) : list fault * findingSink :=
  if negb (in_hasIndex i) || bool_decide (in_index i = ∅) then (fs, k)
  else
    foldl (λ a id,
      match in_index i !! id with
      | None => a
      | Some ie =>
          let base := path_base (SegmentPath ie) in
          let '(fs, ok) := match name_seg (in_segs i) base with
                           | None => (a.1, false)
                           | Some s => recordStartsWithID (vs_seg s) (Offset ie) id a.1
                           end in
          (fs, if ok then a.2 else sink_add a.2 SeverityRepairableIndex CodeIndexSpotCheckFailed (MkLoc base (Offset ie) id ""))
      end) (fs, k) (ssort Z.ltb (remove_dups (quick_sample (sortedMapIDs (in_index i))))).

(** [coverageMatches]: without a memo. *)
Definition coverageMatches (s : Segment) (cv : SegmentCoverage) (fs : list fault) : list fault * bool :=
  let '(_, fs, ok) := matches ∅ s cv fs in (fs, ok).

(** The newest covered segment so far: its number, name and covered size. *)
Record cov_state : Type := MkCS {
  cs_fs : list fault;
  cs_sink : findingSink;
  cs_covered : list string;
  cs_max : Z;
  cs_last : string * Z;
  cs_bad : bool
}.

Section coverage.
Context (kind : string) (base : Location) (segs : list vseg).

Let code (suffix : string) : string := kind +:+ "-" +:+ suffix.

Definition cov_step (a : cov_state) (cv : SegmentCoverage) : cov_state :=
  let loc := with_segment base (cov_Segment cv) in
  let flag suffix := MkCS (cs_fs a) (sink_add (cs_sink a) SeverityRepairableIndex (code suffix) loc) (cs_covered a) (cs_max a) (cs_last a) true in
  match name_seg segs (cov_Segment cv) with
  | None => flag "coverage-segment-missing"
  | Some s =>
      if decide (cov_Segment cv ∈ cs_covered a) then flag "coverage-mismatch"
      else
        let '(fs, k, bad) :=
          if (Z.of_nat (vs_size s) <? cov_Size cv)%Z
          then (cs_fs a, sink_add (cs_sink a) SeverityRepairableIndex (code "coverage-mismatch") loc, true)
          else let '(fs, ok) := coverageMatches (vs_seg s) cv (cs_fs a) in
               if ok then (fs, cs_sink a, cs_bad a)
               else (fs, sink_add (cs_sink a) SeverityRepairableIndex (code "coverage-mismatch") loc, true) in
        if (cs_max a <=? vs_num s)%Z
        then MkCS fs k (cov_Segment cv :: cs_covered a) (vs_num s) (cov_Segment cv, cov_Size cv) bad
        else MkCS fs k (cov_Segment cv :: cs_covered a) (cs_max a) (cs_last a) bad
  end.

(** A covered segment that is not the newest and grew. *)
Definition grown_step (lastName : string) (kb : findingSink * bool) (cv : SegmentCoverage) : findingSink * bool :=
  match name_seg segs (cov_Segment cv) with
  | None => kb
  | Some s =>
      if decide (vs_name s = lastName) then kb
      else if (cov_Size cv <? Z.of_nat (vs_size s))%Z
      then (sink_add kb.1 SeverityRepairableIndex (code "coverage-mismatch") (with_segment base (cov_Segment cv)), true)
      else kb
  end.

Definition tail_step (covered : list string) (maxCovered : Z) (k : findingSink) (s : vseg) : findingSink :=
  if decide (vs_name s ∈ covered) then k
  else
    let loc := with_segment base (vs_name s) in
    if (maxCovered <? vs_num s)%Z then
      if 0 <? vs_size s then sink_add k SeverityRepairableIndex (code "stale-tail") loc else k
    else sink_add k SeverityRepairableIndex (code "segment-unlisted") loc.

Definition checkCoverage (k : findingSink) (cov : list SegmentCoverage) (known : bool) (nEntries : nat) (fs : list fault)
    : list fault * findingSink :=
  if negb known then (fs, sink_add k SeverityRepairableIndex (code "coverage-unknown") base)
  else if bool_decide (cov = []) && (0 <? nEntries) then (fs, sink_add k SeverityRepairableIndex (code "coverage-mismatch") base)
  else
    let a := foldl cov_step (MkCS fs k [] 0 ("", 0%Z) false) cov in
    let '(lastName, lastSize) := cs_last a in
    let '(k, bad) := foldl (grown_step lastName) (cs_sink a, cs_bad a) cov in
    if bad then (cs_fs a, k)
    else
      let k := match name_seg segs lastName with
               | Some s => if (lastSize <? Z.of_nat (vs_size s))%Z
                           then sink_add k SeverityRepairableIndex (code "stale-tail") (with_offset (with_segment base lastName) (Z.to_nat lastSize))
                           else k
               | None => k
               end in
      (cs_fs a, foldl (tail_step (cs_covered a) (cs_max a)) k segs).
End coverage.

(** ** A verification pass *)

Record scan_state : Type := MkScan {
  sc_fs : list fault;
  sc_sink : findingSink;
  sc_tb : truthBuilder;
  sc_entries : nat;
  sc_bad : nat;
  sc_activeMax : Z
}.

(** One segment; in the full check its entries are folded into the history. *)
Definition scan_segment (full newest : bool) (a : scan_state) (s : vseg) : scan_state :=
  let '(fs, r) := scanSegmentTolerantLimit (vs_path s) (disk (vs_seg s)) (Some (vs_size s)) (sc_fs a) in
  match r with
  | Err _ => MkScan fs (sink_add (sc_sink a) SeverityDataCorruption CodeSegmentUnreadable (seg_loc (vs_name s))) (sc_tb a)
               (sc_entries a) (sc_bad a) (sc_activeMax a)
  | Ok rep =>
      let k := foldl (λ k br, reportBadRegion k s newest br) (sc_sink a) (rp_Bad rep) in
      let activeMax := if newest then foldl (λ m x, Z.max m (ID (sv_Entry x))) (sc_activeMax a) (rp_Entries rep) else sc_activeMax a in
      let '(tb, k) := if full then foldl (fold_entry (vs_name s)) (sc_tb a, k) (rp_Entries rep) else (sc_tb a, k) in
      MkScan fs k tb (if full then sc_entries a + length (rp_Entries rep) else sc_entries a) (sc_bad a + length (rp_Bad rep)) activeMax
  end.

(** The segments in order; the last is the newest. *)
Fixpoint scan_all (a : scan_state) (segs : list vseg) : scan_state :=
  match segs with
  | [] => a
  | [s] => scan_segment true true a s
  | s :: segs => scan_all (scan_segment true false a s) segs
  end.

Definition runChecks (i : verifyInput) (k : findingSink) (fs : list fault) : list fault * findingSink * VerifyStats :=
  let full := bool_decide (vo_Mode (in_opts i) = VerifyFull) in
  let '(fs, k) :=
    if in_persisted i then
      let '(fs, k) := if in_hasIndex i
        then checkCoverage "index" no_loc (in_segs i) k (in_indexCov i) (in_indexCovKnown i) (base.size (in_index i)) fs else (fs, k) in
      foldl (λ a v, checkCoverage "sidx" (field_loc (vw_field v)) (in_segs i) a.2 (vw_cov v) (vw_covKnown v) (base.size (vw_buckets v)) a.1)
        (fs, k) (in_sidx i)
    else (fs, k) in
  let a := MkScan fs k (newTruthBuilder i) 0 0 0 in
  let a := if full then scan_all a (in_segs i)
           else if in_persisted i then match last (in_segs i) with Some s => scan_segment false true a s | None => a end
           else a in
  let truth := tb_truth (sc_tb a) in
  let '(fs, k, live, maxObserved) :=
    if full then
      (sc_fs a, compareSidx i truth (compareIndex i truth (tb_at (sc_tb a)) (sc_sink a)),
       base.size (filter (λ kv, tr_live kv.2 = true) truth), tb_maxID (sc_tb a))
    else
      let '(fs, k) := spotCheckIndex i (sc_sink a) (sc_fs a) in
      (fs, foldl uniqueFromBuckets k (in_sidx i), 0, foldl Z.max 0%Z (map_to_list (in_index i)).*1) in
  let k :=
    if in_idCounterKnown i then
      let eff := if negb (in_idCounterLive i) && (in_idCounter i <? sc_activeMax a)%Z then sc_activeMax a else in_idCounter i in
      if (eff <? maxObserved)%Z then sink_add k SeverityRepairableIndex CodeIDCounterBehind no_loc else k
    else k in
  (fs, k, MkStats (length (in_segs i)) (foldr (λ s n, vs_size s + n) 0 (in_segs i)) (sc_entries a) live (sc_bad a)
            (base.size (in_index i)) (length (in_sidx i))).

(** ** The directory *)

(** One entry of the listing, sorted by name: whether it is a directory, and the
    content of the file ([None]: its size cannot be read). *)
Record dirEntry : Type := MkDirEntry { de_name : string; de_dir : bool; de_file : option bytes }.

Definition has_prefix (p s : string) : bool := match strip_prefix (b_of_s p) (b_of_s s) with Some _ => true | None => false end.
Definition has_suffix (p s : string) : bool := match strip_suffix (b_of_s s) (b_of_s p) with Some _ => true | None => false end.

Record dir_state : Type := MkDir { ds_sink : findingSink; ds_segs : list vseg; ds_disk : gmap string bytes }.

Definition dir_add (a : dir_state) (sev : Severity) (code : string) (name : string) : dir_state :=
  MkDir (sink_add (ds_sink a) sev code (seg_loc name)) (ds_segs a) (ds_disk a).

Definition file_seg (dir name final : string) (b : bytes) : vseg :=
  MkVseg (openSealedSegment (join dir name) b (length b)) (join dir name) final (default 0%Z (segmentNum final)) (length b).

Definition dir_step (dir : string) (held : list vseg) (pending : gmap string string) (online : bool) (a : dir_state) (e : dirEntry) : dir_state :=
  let name := de_name e in
  if de_dir e then a
  else if has_prefix "seg_" name && has_suffix ".ndjson" name then
    let n := segmentNum name in
    let a := match n with None => dir_add a SeverityInfo CodeOrphanSegmentFile name | Some _ => a end in
    if online then
      let heldMax := foldl (λ m s, Z.max m (vs_num s)) 0%Z held in
      match n with
      | Some n => if bool_decide (name ∉ map vs_name held) && (n <=? heldMax)%Z then dir_add a SeverityInfo CodeOrphanSegmentFile name else a
      | None => a
      end
    else match de_file e with
         | None => dir_add a SeverityDataCorruption CodeSegmentUnreadable name
         | Some b => MkDir (ds_sink a) (ds_segs a ++ [file_seg dir name name b]) (ds_disk a)
         end
  else if has_prefix "seg_" name then dir_add a SeverityInfo CodeOrphanSegmentFile name
  else if has_prefix ".compact_" name then
    match pending !! name with
    | Some _ => match de_file e with
                | Some b => MkDir (ds_sink a) (ds_segs a) (<[name := b]> (ds_disk a))
                | None => a
                end
    | None => dir_add a SeverityInfo CodeLeftoverTempFile name
    end
  else if has_suffix ".tmp" name && negb online then dir_add a SeverityInfo CodeLeftoverTempFile name
  else a.

(** The segments an interrupted swap will leave: renamed temporary files stand in
    for their final segments, removed ones are dropped. *)
Definition applyManifestView (dir : string) (segs : list vseg) (pending : gmap string string) (removed : list string)
    (onDisk : gmap string bytes) : list vseg :=
  let replaced := foldl (λ (m : gmap string vseg) kv,
    match onDisk !! kv.1 with Some b => <[kv.2 := file_seg dir kv.1 kv.2 b]> m | None => m end) ∅ (map_to_list pending) in
  let '(replaced, out) := foldl (λ ro s,
    if decide (vs_name s ∈ removed) then ro
    else match ro.1 !! vs_name s with
         | Some r => (delete (vs_name s) ro.1, ro.2 ++ [r])
         | None => (ro.1, ro.2 ++ [s])
         end) (replaced, []) segs in
  out ++ (map_to_list replaced).*2.

Definition vseg_less (a b : vseg) : bool :=
  if (vs_num a =? vs_num b)%Z then str_ltb (vs_name a) (vs_name b) else (vs_num a <? vs_num b)%Z.

(** [listDirFindings]: the listing ([None]: it fails), and the manifest file. *)
Definition listDirFindings (dir : string) (listing : option (list dirEntry)) (manifestFile : option bytes) (segs : list vseg)
    (k : findingSink) (online : bool) : findingSink * list vseg :=
  match listing with
  | None => (sink_add k SeverityDataCorruption CodeSegmentUnreadable no_loc, segs)
  | Some entries =>
      let '(k, manifest) :=
        match manifestFile with
        | None => (k, None)
        | Some b => match unmarshal_manifest b with
                    | None => (sink_add k SeverityDataCorruption CodeManifestCorrupt no_loc, None)
                    | Some m => (sink_add k SeverityRepairableIndex CodeManifestPending no_loc, Some m)
                    end
        end in
      let pending := match manifest with
        | Some m => foldl (λ (p : gmap string string) kv, <[path_base kv.1 := path_base kv.2]> p) ∅ (map_to_list (Renames m))
        | None => ∅
        end in
      let removed := match manifest with Some m => map path_base (Removals m) | None => [] end in
      let a := foldl (dir_step dir segs pending online) (MkDir k segs ∅) entries in
      let out := match manifest with
                 | Some _ => if online then ds_segs a else applyManifestView dir (ds_segs a) pending removed (ds_disk a)
                 | None => ds_segs a
                 end in
      (ds_sink a, ssort vseg_less out)
  end.

(** ** Persisted state *)

(** What [loadMeta] returned: the id counter and whether there is an encryption
    block; no file; a file that cannot be read or parsed. *)
Inductive meta_load : Type := MetaOK (counter : Z) (encrypted : bool) | MetaMissing | MetaBad.

(** A file at its path: its content, absent, or unreadable. *)
Inductive file_load : Type := FileOK (b : bytes) | FileMissing | FileBad.

Definition file_content (f : file_load) : option bytes := match f with FileOK b => Some b | _ => None end.

Record persisted : Type := MkPersisted {
  ps_index : file_load;
  ps_sidx : list (string * option bytes);     (* by field, in the order of the file names *)
  ps_meta : meta_load;
  ps_sentinel : bool
}.

Definition load_view (a : findingSink * list sidxView) (fb : string * option bytes) : findingSink * list sidxView :=
  match sidx_Load (newSecondaryIndex fb.1 false) fb.2 with
  | (_, Err _) => (sink_add a.1 SeverityRepairableIndex CodeSidxUnreadable (field_loc fb.1), a.2)
  | (s, Ok (cov, known)) => (a.1, a.2 ++ [MkView fb.1 (unique s) (buckets s) cov known])
  end.

Definition loadPersisted (name dir : string) (opts : VerifyOptions) (segs : list vseg) (p : persisted) (k : findingSink)
    : findingSink * verifyInput :=
  let total := foldr (λ s n, vs_size s + n) 0 segs in
  let '(k, hasIndex, idx, cov, known) :=
    match Load dir newIndex (file_content (ps_index p)) with
    | Ok l => (k, true, entries (ld_index l), ld_coverage l, ld_known l)
    | Err _ =>
        match ps_index p with
        | FileMissing => (if 0 <? total then sink_add k SeverityRepairableIndex CodeIndexMissing no_loc else k, false, ∅, [], false)
        | _ => (sink_add k SeverityRepairableIndex CodeIndexUnreadable no_loc, false, ∅, [], false)
        end
    end in
  let '(k, views) := foldl load_view (k, []) (ps_sidx p) in
  let '(k, counter, counterKnown) :=
    match ps_meta p with
    | MetaOK n encrypted =>
        (if negb encrypted && ps_sentinel p then sink_add k SeverityDataCorruption CodeEncryptionMetaLost no_loc else k, n, true)
    | m =>
        if ps_sentinel p then (sink_add k SeverityDataCorruption CodeEncryptionMetaLost no_loc, 0%Z, false)
        else match m with
             | MetaMissing => (sink_add k SeverityInfo CodeMetaMissing no_loc, 0%Z, false)
             | _ => (sink_add k SeverityRepairableIndex CodeMetaUnreadable no_loc, 0%Z, false)
             end
    end in
  (k, MkInput name dir opts true segs hasIndex idx cov known views counter counterKnown false).

(** ** Entry points *)

Inductive verify_err : Type := ErrVerifyClosed.

(** The check of an open collection against its own memory. *)
Definition verifyOnline (name : string) (c : Collection) (opts : VerifyOptions) (listing : option (list dirEntry))
    (manifestFile : option bytes) (fs : list fault) : list fault * res verify_err CollectionReport :=
  if closeDone c then (fs, Err ErrVerifyClosed)
  else
    let segs := map vseg_of (all_segments c) in
    let views := map (λ fs, MkView fs.1 (unique fs.2) (buckets fs.2) [] false) (ssort (λ a b, str_ltb a.1 b.1) (map_to_list (sidxMap c))) in
    let k := newFindingSink name (Z.to_nat (vo_MaxFindingsPerCode opts)) in
    let '(k, segs) := listDirFindings (dir c) listing manifestFile segs k true in
    let i := MkInput name (dir c) opts false segs true (entries (index c)) [] false views (idSeq c) true true in
    let '(fs, k, st) := runChecks i k fs in
    (fs, Ok (report i st k)).

(** The check of a directory that is not open. *)
Definition verifyOffline (dir name : string) (opts : VerifyOptions) (listing : option (list dirEntry)) (manifestFile : option bytes)
    (p : persisted) (fs : list fault) : list fault * CollectionReport :=
  let k := newFindingSink name (Z.to_nat (vo_MaxFindingsPerCode opts)) in
  let '(k, segs) := listDirFindings dir listing manifestFile [] k false in
  let '(k, i) := loadPersisted name dir opts segs p k in
  let '(fs, k, st) := runChecks i k fs in
  (fs, report i st k).

(** ** The integrity gate *)

Inductive IntegrityPolicy : Type := PolicyFail | PolicyReport | PolicyRebuildIndexOnly.

Definition blockingFindings (rep : CollectionReport) : bool :=
  existsb (λ f, rank SeverityDataCorruption <=? rank (fd_Severity f)) (cr_Findings rep).

(** What the gate keeps for the rest of the open. *)
Record gate_state : Type := MkGate {
  gt_ran : bool;
  gt_failed : option CollectionReport;
  gt_tolerant : bool;
  gt_report : option CollectionReport
}.

Definition gate_input (name dir : string) (now : Z) (all : list Segment) : verifyInput :=
  MkInput name dir (normalized now (MkOpts VerifyFull [] 0 None)) false (map vseg_of all) false ∅ [] false [] 0 false false.

(** [integrityGate]: the answer is whether rebuilds skip damaged regions, or the
    report on which the open is refused. *)
Definition gate (policy : IntegrityPolicy) (name dir : string) (now : Z) (g : gate_state) (all : list Segment) (fs : list fault)
    : gate_state * list fault * res CollectionReport bool :=
  if gt_ran g then
    (g, fs, match gt_failed g with Some rep => Err rep | None => Ok (gt_tolerant g) end)
  else
    let i := gate_input name dir now all in
    let '(fs, k, st) := runChecks i (newFindingSink name (Z.to_nat (vo_MaxFindingsPerCode (in_opts i)))) fs in
    let rep := report i st k in
    if blockingFindings rep then
      match policy with
      | PolicyReport => (MkGate true None true (Some rep), fs, Ok true)
      | _ => (MkGate true (Some rep) (gt_tolerant g) (Some rep), fs, Err rep)
      end
    else (MkGate true None (gt_tolerant g) (Some rep), fs, Ok (gt_tolerant g)).
