(* ===== verification/VerifyThm.v ===== *)
(** * What the integrity gate decides

    The full check of the segments finds nothing that blocks an open exactly when
    every line reads back and the history of every id is that of one writer. *)
From Stdlib Require Import Ascii Lia ZArith.
From stdpp Require Import prelude gmap strings sorting.
From S2P Require Import Prelude GoNum Json Value Filter GoTime Store Wire Codec Segment Index SecondaryIndex Collection Keyed Compactor Manifest Sha256 Journal Salvage IndexFile IndexRecover SidxFile Verify.

(** ** Findings as they are added *)

Definition addition : Type := Severity * string * Location.
Definition a_sev (a : addition) : Severity := a.1.1.
Definition a_code (a : addition) : string := a.1.2.

Definition adds (k : findingSink) (l : list addition) : findingSink := foldl (λ k a, sink_add k a.1.1 a.1.2 a.2) k l.

Definition finding_of (c : string) (a : addition) : Finding := MkFinding a.1.1 a.1.2 c a.2.

Definition count_code (c : string) (l : list addition) : nat := length (filter (λ a, a_code a = c) l).

Definition blocks (s : Severity) : bool := rank SeverityDataCorruption <=? rank s.

Lemma adds_app k a b : adds k (a ++ b) = adds (adds k a) b.
Proof. apply foldl_app. Qed.

Lemma adds_cons k a l : adds k (a :: l) = adds (sink_add k a.1.1 a.1.2 a.2) l.
Proof. done. Qed.

Lemma count_code_app c a b : count_code c (a ++ b) = count_code c a + count_code c b.
Proof. unfold count_code. by rewrite filter_app, length_app. Qed.

Lemma sink_add_same k sev code loc : fk_collection (sink_add k sev code loc) = fk_collection k ∧ fk_max (sink_add k sev code loc) = fk_max k.
Proof. unfold sink_add. by case_match. Qed.

Lemma adds_same k l : fk_collection (adds k l) = fk_collection k ∧ fk_max (adds k l) = fk_max k.
Proof.
  revert k. induction l as [|a l IH]; intros k; [done|]. rewrite adds_cons. destruct (IH (sink_add k a.1.1 a.1.2 a.2)) as [-> ->]. apply sink_add_same.
Qed.

Lemma adds_counts name max l c : default 0 (fk_counts (adds (newFindingSink name max) l) !! c) = count_code c l.
Proof.
  induction l as [|a l IH] using rev_ind; [done|]. rewrite adds_app, count_code_app. cbn [adds foldl].
  set (k := adds _ l) in *. assert (E : fk_counts (sink_add k a.1.1 a.1.2 a.2) = <[a.1.2 := S (default 0 (fk_counts k !! a.1.2))]> (fk_counts k))
    by (unfold sink_add; by case_match). rewrite E. unfold count_code at 2. rewrite filter_cons, filter_nil. unfold a_code.
  destruct (decide (a.1.2 = c)) as [<-|Hne].
  - rewrite lookup_insert_eq. cbn [from_option id length]. rewrite IH. lia.
  - rewrite lookup_insert_ne by done. rewrite IH. cbn [length]. lia.
Qed.

(** The findings kept: of each code, the first ones up to the cap. *)
Lemma adds_kept name max p a s : count_code (a_code a) p < max →
  finding_of name a ∈ fk_out (adds (newFindingSink name max) (p ++ a :: s)).
Proof.
  intros Hc. rewrite adds_app, adds_cons. set (k := adds _ p).
  assert (Hmono : ∀ l k0, fk_out k0 ⊆ fk_out (adds k0 l)).
  { clear. induction l as [|b l IH]; intros k0; [done|]. rewrite adds_cons. etrans; [|apply IH]. unfold sink_add. case_match; cbn [fk_out]; set_solver. }
  apply Hmono. destruct (adds_same (newFindingSink name max) p) as [E1 E2]. fold k in E1, E2. cbn in E1, E2.
  unfold sink_add. rewrite E2, E1. unfold k at 1. rewrite adds_counts. unfold a_code in Hc.
  destruct (Nat.ltb_spec max (S (count_code a.1.2 p))); [lia|]. cbn [fk_out]. apply elem_of_app. right. by apply list_elem_of_singleton.
Qed.

Lemma adds_only name max l f : f ∈ fk_out (adds (newFindingSink name max) l) → ∃ a, a ∈ l ∧ f = finding_of name a.
Proof.
  induction l as [|a l IH] using rev_ind; [intros H; by apply elem_of_nil in H|]. rewrite adds_app. cbn [adds foldl]. fold (adds (newFindingSink name max) l).
  destruct (adds_same (newFindingSink name max) l) as [E _]. cbn in E. unfold sink_add. case_match; cbn [fk_out].
  - intros (b & Hb & ->)%IH. exists b. split; [|done]. apply elem_of_app. by left.
  - rewrite E. intros [(b & Hb & ->)%IH| ->%list_elem_of_singleton]%elem_of_app.
    + exists b. split; [|done]. apply elem_of_app. by left.
    + exists a. split; [|done]. apply elem_of_app. right. by left.
Qed.

(** A blocking finding is never lost to the cap, when the milder ones of its code
    stay below it. *)
Lemma blocking_kept name max l :
  (∀ a, a ∈ l → blocks (a_sev a) = true → length (filter (λ b, a_code b = a_code a ∧ blocks (a_sev b) = false) l) < max) →
  existsb (λ f, blocks (fd_Severity f)) (fk_out (adds (newFindingSink name max) l)) = true ↔ ∃ a, a ∈ l ∧ blocks (a_sev a) = true.
Proof.
  intros Hmild. split.
  - intros (f & Hin & Hb)%existsb_exists. apply list_elem_of_In in Hin. apply adds_only in Hin as (a & Ha & ->). eauto.
  - intros (a0 & Ha0 & Hb0).
    assert (∃ p a s, l = p ++ a :: s ∧ blocks (a_sev a) = true ∧ Forall (λ b, blocks (a_sev b) = false) p) as (p & a & s & -> & Hb & Hp).
    { clear Hmild. induction l as [|b l IH]; [by apply elem_of_nil in Ha0|]. destruct (blocks (a_sev b)) eqn:E.
      - exists [], b, l. split_and!; [done|done|constructor].
      - apply elem_of_cons in Ha0 as [-> |Ha0]; [congruence|]. destruct (IH Ha0) as (p & a & s & -> & H1 & H2). exists (b :: p), a, s.
        split_and!; [done|done|by constructor]. }
    apply existsb_exists. exists (finding_of name a). split; [|done]. apply list_elem_of_In, adds_kept.
    eapply Nat.le_lt_trans; [|apply (Hmild a); [apply elem_of_app; right; by left|done]].
    unfold count_code. rewrite filter_app, length_app. apply Nat.le_trans with (length (filter (λ b, a_code b = a_code a ∧ blocks (a_sev b) = false) p)); [|lia].
    clear -Hp. induction Hp as [|b p Hb _ IH]; [done|]. rewrite !filter_cons. repeat case_decide; cbn [length]; try lia. exfalso. tauto.
Qed.

(** ** Files of whole lines *)

(** The lines of [d], placed at [off], read as the entries [xs]. *)
Inductive whole : bytes → nat → list SalvagedEntry → Prop :=
| whole_nil off : whole [] off []
| whole_cons l e tx rest off xs :
    newline ∉ l → l ≠ [] → (Z.of_nat (length l) + 1 ≤ maxScanTokenSize)%Z → utf8_valid l = true →
    decodeSegmentLine l = Ok (e, tx) → validSegmentOp (Op e) = true → whole rest (off + length l + 1) xs →
    whole (l ++ newline :: rest) off (MkSalvaged e tx off (length l + 1) false :: xs).

Lemma tidy_whole d off xs : tidy d off xs → whole d off xs.
Proof.
  induction 1 as [|l e tx rest off xs Hg Hl Hu Hv _ IH]; [constructor|].
  constructor; try done; [apply Hg|by eapply good_line_nonempty|apply Hg].
Qed.

Definition torn_bad (off : nat) (torn : bytes) : list BadRegion :=
  if decide (torn = []) then [] else [MkBad off (length torn) BadRegionTornTailLine].

Lemma whole_scan fuel r d off xs torn :
  whole d off xs → newline ∉ torn → length (d ++ torn) < fuel →
  rp_Entries (salvage_loop fuel r off (d ++ torn)) = rp_Entries r ++ xs ∧
  rp_Bad (salvage_loop fuel r off (d ++ torn)) = rp_Bad r ++ torn_bad (off + length d) torn.
Proof.
  intros H Ht. revert fuel r. induction H as [off|l e tx rest off xs Hn Hl Hs Hu Hd Hv H IH]; intros fuel r Hf; (destruct fuel as [|fuel]; [lia|]).
  - cbn [app salvage_loop length]. rewrite Nat.add_0_r. destruct (split_newline torn) as [[l1 r1]|] eqn:Es.
    + exfalso. apply Ht. apply split_newline_Some in Es as [-> _]. apply elem_of_app. right. by left.
    + unfold torn_bad. case_decide; [by rewrite !app_nil_r|]. unfold scanSalvageLine. cbn [negb add_bad rp_Entries rp_Bad]. by rewrite app_nil_r.
  - rewrite <- app_assoc. cbn [app salvage_loop]. rewrite split_newline_app by done.
    rewrite <- app_assoc in Hf. cbn [app] in Hf. rewrite length_app in Hf. cbn [length] in Hf.
    replace (off + (length l + 1)) with (off + length l + 1) by lia.
    destruct (IH fuel (scanSalvageLine r l off (length l + 1) true) ltac:(lia)) as [-> ->].
    unfold scanSalvageLine. cbn [negb]. destruct (Z.ltb_spec maxScanTokenSize (Z.of_nat (length l + 1))); [lia|].
    rewrite decide_False by done. rewrite Hu. cbn [negb]. rewrite Hd. cbn [fst snd]. rewrite Hv. cbn [add_entry rp_Entries rp_Bad].
    rewrite <- app_assoc. split; [done|]. do 2 f_equal. rewrite length_app. cbn [length]. lia.
Qed.

Definition is_torn (b : BadRegion) : bool := match br_Reason b with BadRegionTornTailLine => true | _ => false end.

(** One line that ends in a newline: a whole line, or a bad region that is not a
    torn tail. *)
Lemma scan_line_cases r l off :
  (∃ e tx, l ≠ [] ∧ (Z.of_nat (length l) + 1 ≤ maxScanTokenSize)%Z ∧ utf8_valid l = true ∧ decodeSegmentLine l = Ok (e, tx) ∧
     validSegmentOp (Op e) = true ∧ scanSalvageLine r l off (length l + 1) true = add_entry r (MkSalvaged e tx off (length l + 1) false)) ∨
  (∃ b ents, is_torn b = false ∧ rp_Bad (scanSalvageLine r l off (length l + 1) true) = rp_Bad r ++ [b] ∧
     rp_Entries (scanSalvageLine r l off (length l + 1) true) = rp_Entries r ++ ents).
Proof.
  unfold scanSalvageLine. cbn [negb]. destruct (Z.ltb_spec maxScanTokenSize (Z.of_nat (length l + 1))).
  { right. eexists _, []. cbn. split; [|split; [reflexivity|by rewrite app_nil_r]]; done. }
  case_decide; [right; eexists _, []; cbn; split; [|split; [reflexivity|by rewrite app_nil_r]]; done|].
  destruct (utf8_valid l) eqn:Eu; cbn [negb]; [|right; eexists _, []; cbn; split; [|split; [reflexivity|by rewrite app_nil_r]]; done].
  destruct (decodeSegmentLine l) as [[e tx]|err] eqn:Ed; cbn [fst snd].
  - destruct (validSegmentOp (Op e)) eqn:Ev; [|right; eexists _, []; cbn; split; [|split; [reflexivity|by rewrite app_nil_r]]; done].
    left. exists e, tx. split_and!; [done|lia|done|done|done|done].
  - right. destruct (glued _ _ _) as [[start d]|]; [eexists _, [_]; split; [|split; reflexivity]; done|]. eexists _, []. cbn. split; [|split; [reflexivity|by rewrite app_nil_r]]; done.
Qed.

Lemma scan_whole fuel r off s : length s < fuel →
  ∃ bads xs, rp_Bad (salvage_loop fuel r off s) = rp_Bad r ++ bads ∧ rp_Entries (salvage_loop fuel r off s) = rp_Entries r ++ xs ∧
    length (filter (λ b, is_torn b = true) bads) ≤ 1 ∧
    (Forall (λ b, is_torn b = true) bads → ∃ d torn, s = d ++ torn ∧ newline ∉ torn ∧ whole d off xs ∧ bads = torn_bad (off + length d) torn).
Proof.
  revert r off s. induction fuel as [|fuel IH]; intros r off s Hf; [lia|]. cbn [salvage_loop].
  destruct (split_newline s) as [[l rest]|] eqn:Es.
  - apply split_newline_Some in Es as [-> Hn]. rewrite length_app in Hf. cbn [length] in Hf.
    destruct (IH (scanSalvageLine r l off (length l + 1) true) (off + (length l + 1)) rest ltac:(lia)) as (bads & xs & Hb & Hx & Hc & Hw).
    destruct (scan_line_cases r l off) as [(e & tx & H1 & H2 & H3 & H4 & H5 & E)|(b & ents & H1 & H2 & H3)].
    + rewrite E in Hb, Hx. cbn [add_entry rp_Bad rp_Entries] in Hb, Hx. rewrite <- app_assoc in Hx. rewrite E.
      exists bads, (MkSalvaged e tx off (length l + 1) false :: xs). split_and!; [exact Hb|exact Hx|done|].
      intros Hall. destruct (Hw Hall) as (d & torn & -> & Ht & Hd & ->). exists (l ++ newline :: d), torn. split_and!; [by rewrite <- app_assoc|done| |].
      * constructor; try done. by replace (off + length l + 1) with (off + (length l + 1)) by lia.
      * f_equal. rewrite length_app. cbn [length]. lia.
    + rewrite H2 in Hb. rewrite H3 in Hx. rewrite <- app_assoc in Hb, Hx. exists ([b] ++ bads), (ents ++ xs). split_and!; [done|done| |].
      * cbn [app]. rewrite filter_cons. rewrite decide_False by (by rewrite H1). done.
      * intros Hall. cbn [app] in Hall. apply Forall_cons in Hall as [Hall _]. congruence.
  - apply split_newline_None in Es. case_decide as Hs.
    + subst s. exists [], []. rewrite !app_nil_r. split_and!; [done|done|cbn; lia|]. intros _. exists [], []. split_and!; [done|done|constructor|done].
    + unfold scanSalvageLine. cbn [negb add_bad rp_Bad rp_Entries]. eexists [_], []. rewrite app_nil_r. split_and!; [done|done| |].
      * rewrite filter_cons, filter_nil. case_decide; cbn; lia.
      * intros _. exists [], s. split_and!; [done|done|constructor|]. unfold torn_bad. rewrite decide_False by done. by rewrite Nat.add_0_r.
Qed.

(** ** Histories of one writer *)

Definition is_write (e : Entry) : Prop := Op e = OpInsert ∨ Op e = OpUpdate.

#[global] Instance is_write_dec e : Decision (is_write e).
Proof. unfold is_write. apply _. Defined.

(** The last line of an id. *)
Definition last_line (L : list Entry) (id : Z) : option Entry := last (filter (λ e, ID e = id ∧ validSegmentOp (Op e) = true) L).

(** [e] may follow [p] in the history of an id: the id was not deleted; an insert
    repeats its line; an update does not go back in revisions, and repeats its
    content when it repeats its revision. *)
Definition may_follow (p e : Entry) : Prop :=
  Op p ≠ OpDelete ∧
  if decide (Op e = OpInsert) then Rev e = Rev p ∧ dataHash (Data e) = dataHash (Data p)
  else (0 < Rev e → (0 < Rev p → Rev p ≤ Rev e) ∧ (Rev e = Rev p → dataHash (Data e) = dataHash (Data p)))%Z.

#[global] Instance may_follow_dec p e : Decision (may_follow p e).
Proof. unfold may_follow. case_decide; apply _. Defined.

Definition one_writer (L : list Entry) : Prop :=
  ∀ L1 e L2, L = L1 ++ e :: L2 → is_write e → ∀ p, last_line L1 (ID e) = Some p → may_follow p e.

Lemma one_writer_snoc L e : one_writer (L ++ [e]) ↔ one_writer L ∧ (is_write e → ∀ p, last_line L (ID e) = Some p → may_follow p e).
Proof.
  split.
  - intros H. split; [|by apply (H L e [])]. intros L1 x L2 -> Hx. apply (H L1 x (L2 ++ [e])); [|done]. by rewrite <- app_assoc.
  - intros [H He] L1 x L2 E Hx. destruct L2 as [|y L2' _] using rev_ind.
    + apply app_inj_tail in E as [-> ->]. by apply He.
    + rewrite app_comm_cons, app_assoc in E. apply app_inj_tail in E as [-> ->]. by apply (H L1 x L2').
Qed.

Lemma last_line_snoc L e id : last_line (L ++ [e]) id = if decide (ID e = id ∧ validSegmentOp (Op e) = true) then Some e else last_line L id.
Proof. unfold last_line. rewrite filter_app, filter_cons, filter_nil. case_decide; [by rewrite last_snoc|by rewrite app_nil_r]. Qed.

(** What a history adds. *)
Definition hist_adds (loc : Location) (prev : truthRec) (e : Entry) : list addition :=
  let h := dataHash (Data e) in
  if tr_deleted prev then [(SeverityConflict, if decide (Op e = OpInsert) then CodeConflictIDReuse else CodeConflictWriteAfter, loc)]
  else if decide (Op e = OpInsert) then
    if (Rev e =? tr_lastRev prev)%Z && (h =? tr_hash prev)%N then [(SeverityInfo, CodeDuplicateIdentical, loc)]
    else [(SeverityConflict, CodeConflictDuplicateID, loc)]
  else if (0 <? Rev e)%Z && (0 <? tr_lastRev prev)%Z && (Rev e <? tr_lastRev prev)%Z then [(SeverityConflict, CodeConflictRevision, loc)]
  else if (0 <? Rev e)%Z && (Rev e =? tr_lastRev prev)%Z then
    if (h =? tr_hash prev)%N then [(SeverityInfo, CodeDuplicateIdentical, loc)] else [(SeverityConflict, CodeConflictRevision, loc)]
  else [].

Lemma checkHistory_adds k loc prev e : checkHistory k loc prev e (dataHash (Data e)) = adds k (hist_adds loc prev e).
Proof.
  unfold checkHistory, hist_adds. destruct (tr_deleted prev); [by case_decide|]. case_decide; [by case_match|].
  case_match; [done|]. case_match; [|done]. by case_match.
Qed.

Definition entry_adds (name : string) (tb : truthBuilder) (x : SalvagedEntry) : list addition :=
  let e := sv_Entry x in
  if decide (is_write e) then
    match tb_truth tb !! ID e with Some rec => hist_adds (MkLoc name (sv_Offset x) (ID e) "") rec e | None => [] end
  else [].

Definition tb_step (name : string) (tb : truthBuilder) (x : SalvagedEntry) : truthBuilder :=
  (fold_entry name (tb, newFindingSink "" 0) x).1.

Lemma fold_entry_adds name tb k x : fold_entry name (tb, k) x = (tb_step name tb x, adds k (entry_adds name tb x)).
Proof.
  unfold tb_step, fold_entry, entry_adds. cbn zeta.
  destruct (decide (Op (sv_Entry x) = OpInsert ∨ Op (sv_Entry x) = OpUpdate)) as [Hw|Hw].
  - rewrite (decide_True (P := is_write _)) by done. destruct (tb_truth tb !! ID (sv_Entry x)) as [rec|]; [|done]. by rewrite checkHistory_adds.
  - rewrite (decide_False (P := is_write _)) by done. by case_decide.
Qed.

Fixpoint entries_adds (name : string) (tb : truthBuilder) (xs : list SalvagedEntry) : list addition :=
  match xs with [] => [] | x :: xs => entry_adds name tb x ++ entries_adds name (tb_step name tb x) xs end.

Lemma fold_entries name xs : ∀ tb k, foldl (fold_entry name) (tb, k) xs = (foldl (tb_step name) tb xs, adds k (entries_adds name tb xs)).
Proof.
  induction xs as [|x xs IH]; intros tb k; [done|]. cbn [foldl entries_adds]. by rewrite fold_entry_adds, IH, adds_app.
Qed.

(** The builder remembers the last line of every id. *)
Definition truth_of (L : list Entry) (tb : truthBuilder) : Prop :=
  ∀ id, match last_line L id with
        | None => tb_truth tb !! id = None
        | Some e => ∃ t, tb_truth tb !! id = Some t ∧
            if decide (Op e = OpDelete) then tr_deleted t = true
            else tr_deleted t = false ∧ tr_lastRev t = Rev e ∧ tr_hash t = dataHash (Data e)
        end.

Lemma valid_op_cases e : validSegmentOp (Op e) = true ↔ is_write e ∨ Op e = OpDelete.
Proof. unfold validSegmentOp, is_write. rewrite bool_decide_eq_true. tauto. Qed.

Lemma write_not_delete e : is_write e → Op e ≠ OpDelete.
Proof. intros [H|H]; rewrite H; discriminate. Qed.

Lemma truth_step name L tb x : truth_of L tb → truth_of (L ++ [sv_Entry x]) (tb_step name tb x).
Proof.
  intros H id. set (e := sv_Entry x). rewrite last_line_snoc. unfold tb_step, fold_entry. cbn zeta. fold e.
  destruct (decide (Op e = OpInsert ∨ Op e = OpUpdate)) as [Hw|Hw]; [|destruct (decide (Op e = OpDelete)) as [Hd|Hd]]; cbn [fst tb_truth].
  - case_decide as Hid.
    + destruct Hid as [<- _]. rewrite lookup_insert_eq. eexists. split; [done|]. rewrite decide_False by (by apply write_not_delete). done.
    + rewrite lookup_insert_ne; [apply H|]. intros Heq. apply Hid. split; [done|]. apply valid_op_cases. by left.
  - case_decide as Hid.
    + destruct Hid as [<- _]. rewrite lookup_insert_eq. eexists. split; [done|]. by rewrite decide_True.
    + rewrite lookup_insert_ne; [apply H|]. intros Heq. apply Hid. split; [done|]. apply valid_op_cases. by right.
  - rewrite decide_False; [apply H|]. intros [_ [Hc|Hc]%valid_op_cases]; done.
Qed.

(** A line blocks exactly when it may not follow. *)
Lemma entry_blocks name L tb x : truth_of L tb →
  (∃ a, a ∈ entry_adds name tb x ∧ blocks (a_sev a) = true) ↔
  is_write (sv_Entry x) ∧ ∃ p, last_line L (ID (sv_Entry x)) = Some p ∧ ¬ may_follow p (sv_Entry x).
Proof.
  intros H. unfold entry_adds. cbn zeta. set (e := sv_Entry x). case_decide as Hw; [|split; [by intros (a & Ha%elem_of_nil & _)|by intros [? _]]].
  specialize (H (ID e)). destruct (last_line L (ID e)) as [p|].
  2: { rewrite H. split; [by intros (a & Ha%elem_of_nil & _)|by intros (_ & ? & ? & _)]. }
  destruct H as (t & -> & Ht).
  assert (Hone : ∀ a b : addition, blocks (a_sev b) = true → (∃ a, a ∈ [b] ∧ blocks (a_sev a) = true)).
  { intros _ b Hb. exists b. split; [by left|done]. }
  assert (Hnone : ∀ b : addition, blocks (a_sev b) = false → ¬ ∃ a, a ∈ [b] ∧ blocks (a_sev a) = true).
  { intros b Hb (a & ->%list_elem_of_singleton & Ha). congruence. }
  transitivity (¬ may_follow p e); [|split; [intros; split; [done|eauto]|by intros (_ & ? & [= <-] & ?)]].
  unfold hist_adds, may_follow. case_decide as Hd.
  - rewrite Ht. split; [by intros _ [? _]|]. intros _. by apply (Hone (SeverityInfo, "", no_loc)).
  - destruct Ht as (-> & -> & ->). case_decide as Hi.
    + destruct (Z.eqb_spec (Rev e) (Rev p)), (N.eqb_spec (dataHash (Data e)) (dataHash (Data p))); cbn [andb].
      1: split; [by intros ?%Hnone|by intros []].
      all: split; [by intros _ (_ & ? & ?)|intros _; by apply (Hone (SeverityInfo, "", no_loc))].
    + destruct (Z.ltb_spec 0 (Rev e)); cbn [andb].
      2: { split; [by intros (a & ?%elem_of_nil & _)|]. intros Hn. exfalso. apply Hn. split; [done|lia]. }
      destruct (Z.ltb_spec 0 (Rev p)), (Z.ltb_spec (Rev e) (Rev p)); cbn [andb];
        try (split; [intros _ [_ Hc]; destruct (Hc ltac:(lia)) as [Hc1 _]; specialize (Hc1 ltac:(lia)); lia|intros _; by apply (Hone (SeverityInfo, "", no_loc))]);
        (destruct (Z.eqb_spec (Rev e) (Rev p)); [destruct (N.eqb_spec (dataHash (Data e)) (dataHash (Data p)))|]);
        try lia;
        try (split; [by intros ?%Hnone|intros Hn; exfalso; apply Hn; split; [done|intros _; split; [lia|done]]]);
        try (split; [intros _ [_ Hc]; destruct (Hc ltac:(lia)) as [_ Hc2]; by apply Hc2 in e0|intros _; by apply (Hone (SeverityInfo, "", no_loc))]);
        (split; [by intros (a & ?%elem_of_nil & _)|intros Hn; exfalso; apply Hn; split; [done|intros _; split; [lia|done]]]).
Qed.

Lemma entries_block name xs : ∀ L tb, truth_of L tb → one_writer L →
  (Forall (λ a, blocks (a_sev a) = false) (entries_adds name tb xs) ↔ one_writer (L ++ map sv_Entry xs)) ∧
  truth_of (L ++ map sv_Entry xs) (foldl (tb_step name) tb xs).
Proof.
  induction xs as [|x xs IH]; intros L tb Ht Hw; cbn [map foldl entries_adds].
  { rewrite app_nil_r. split; [|done]. split; [done|constructor]. }
  pose proof (truth_step name L tb x Ht) as Ht1. rewrite cons_middle, app_assoc. rewrite Forall_app.
  assert (Hx : Forall (λ a, blocks (a_sev a) = false) (entry_adds name tb x) ↔ one_writer (L ++ [sv_Entry x])).
  { rewrite one_writer_snoc. pose proof (entry_blocks name L tb x Ht) as Hb. rewrite Forall_forall. split.
    - intros H. split; [done|]. intros Hwr p Hp.
      destruct (decide (may_follow p (sv_Entry x))) as [?|Hn]; [done|]. exfalso. destruct (proj2 Hb) as (a & Ha & Hba); [eauto|]. specialize (H _ Ha). congruence.
    - intros [_ H] a Ha. destruct (blocks (a_sev a)) eqn:E; [|done]. destruct (proj1 Hb) as (Hwr & p & Hp & Hn); [eauto|]. exfalso. auto. }
  split.
  - split.
    + intros [H1 H2]. apply Hx in H1. by apply (IH _ _ Ht1 H1).
    + intros H. assert (H1 : one_writer (L ++ [sv_Entry x])).
      { intros L1 e L2 E. apply (H L1 e (L2 ++ map sv_Entry xs)). by rewrite E, <- app_assoc. }
      split; [by apply Hx|]. by apply (IH _ _ Ht1 H1).
  - clear Hx. revert Ht1. generalize (L ++ [sv_Entry x]) (tb_step name tb x). clear. induction xs as [|y xs IH]; intros L tb H; cbn [map foldl].
    + by rewrite app_nil_r.
    + rewrite cons_middle, app_assoc. apply IH. by apply truth_step.
Qed.

(** ** A pass over the segments *)

Definition seg_report (s : Segment) : SegmentReport :=
  let src := take (size s) (disk s) in salvage_loop (S (length src)) (MkReport (path s) (length src) [] []) 0 src.

Definition bad_add (s : Segment) (newest : bool) (b : BadRegion) : addition :=
  let loc := MkLoc (path_base (path s)) (br_Offset b) 0 "" in
  match br_Reason b with
  | BadRegionTornTailLine =>
      (if newest && (br_Offset b + br_Length b =? size s) then SeverityInfo else SeverityDataCorruption, CodeSegmentTornTail, loc)
  | BadRegionGluedLines => (SeverityDataCorruption, CodeSegmentGluedLine, loc)
  | _ => (SeverityDataCorruption, CodeSegmentBadRegion, loc)
  end.

Lemma bad_adds k s newest bads : foldl (λ k br, reportBadRegion k (vseg_of s) newest br) k bads = adds k (map (bad_add s newest) bads).
Proof.
  revert k. induction bads as [|b bads IH]; intros k; [done|]. cbn [map foldl]. rewrite IH, adds_cons. f_equal.
  unfold reportBadRegion, bad_add. cbn [vseg_of vs_name vs_size]. destruct (br_Reason b); try done. by case_match.
Qed.

Definition seg_adds (newest : bool) (tb : truthBuilder) (s : Segment) : list addition :=
  map (bad_add s newest) (rp_Bad (seg_report s)) ++ entries_adds (path_base (path s)) tb (rp_Entries (seg_report s)).

Definition seg_truth (tb : truthBuilder) (s : Segment) : truthBuilder :=
  foldl (tb_step (path_base (path s))) tb (rp_Entries (seg_report s)).

Fixpoint all_adds (tb : truthBuilder) (segs : list Segment) : list addition :=
  match segs with
  | [] => []
  | [s] => seg_adds true tb s
  | s :: segs => seg_adds false tb s ++ all_adds (seg_truth tb s) segs
  end.

Lemma scan_segment_adds newest a s : sc_fs a = [] →
  ∃ n b m, scan_segment true newest a (vseg_of s) =
    MkScan [] (adds (sc_sink a) (seg_adds newest (sc_tb a) s)) (seg_truth (sc_tb a) s) n b m.
Proof.
  intros Hf. unfold scan_segment. rewrite Hf. cbn [vseg_of vs_path vs_seg vs_size vs_name]. unfold scanSegmentTolerantLimit. cbn [next_fault].
  fold (seg_report s). cbn [negb f_ok]. rewrite bad_adds, fold_entries, <- adds_app. eauto.
Qed.

Lemma scan_all_adds segs : ∀ a, sc_fs a = [] →
  ∃ tb n b m, scan_all a (map vseg_of segs) = MkScan [] (adds (sc_sink a) (all_adds (sc_tb a) segs)) tb n b m.
Proof.
  induction segs as [|s segs IH]; intros a Hf.
  - destruct a. cbn in Hf. subst. cbn. eauto.
  - destruct segs as [|s' segs].
    + destruct (scan_segment_adds true a s Hf) as (n & b & m & E). cbn [map scan_all all_adds]. rewrite E. eauto.
    + destruct (scan_segment_adds false a s Hf) as (n & b & m & E).
      assert (E0 : scan_all a (map vseg_of (s :: s' :: segs)) = scan_all (scan_segment true false a (vseg_of s)) (map vseg_of (s' :: segs))) by done.
      rewrite E0, E.
      destruct (IH (MkScan [] (adds (sc_sink a) (seg_adds false (sc_tb a) s)) (seg_truth (sc_tb a) s) n b m) eq_refl) as (tb & n' & b' & m' & E').
      exists tb, n', b', m'. rewrite E'. cbn [sc_sink sc_tb]. by rewrite <- adds_app.
Qed.

(** ** Segments that read back *)

Definition intact_seg (newest : bool) (s : Segment) (xs : list SalvagedEntry) : Prop :=
  ∃ d torn, take (size s) (disk s) = d ++ torn ∧ newline ∉ torn ∧ whole d 0 xs ∧ (newest = false → torn = []).

(** Every line of every segment reads back, but for a torn tail of the newest. *)
Fixpoint intact_segs (segs : list Segment) (xss : list (list SalvagedEntry)) : Prop :=
  match segs, xss with
  | [], [] => True
  | [s], [xs] => intact_seg true s xs
  | s :: segs, xs :: xss => intact_seg false s xs ∧ intact_segs segs xss
  | _, _ => False
  end.

Lemma seg_bad_clean newest s : size s ≤ length (disk s) →
  Forall (λ a, blocks (a_sev a) = false) (map (bad_add s newest) (rp_Bad (seg_report s))) ↔
  intact_seg newest s (rp_Entries (seg_report s)).
Proof.
  intros Hsz. set (src := take (size s) (disk s)). assert (Hlen : length src = size s) by (unfold src; rewrite length_take; lia).
  destruct (scan_whole (S (length src)) (MkReport (path s) (length src) [] []) 0 src (Nat.lt_succ_diag_r _)) as (bads & xs & Hb & Hx & _ & Hw).
  cbn [rp_Bad rp_Entries app] in Hb, Hx. unfold seg_report. fold src. rewrite Hb, Hx. split.
  - intros H. destruct Hw as (d & torn & E & Ht & Hd & ->).
    + rewrite Forall_map in H. eapply Forall_impl; [exact H|]. intros b. unfold bad_add, is_torn. destruct (br_Reason b); cbn; congruence.
    + exists d, torn. split_and!; [done|done|done|]. intros ->. unfold torn_bad in H. case_decide; [done|].
      cbn in H. by apply Forall_cons in H as [H _].
  - intros (d & torn & E & Ht & Hd & Hn). destruct (whole_scan (S (length src)) (MkReport (path s) (length src) [] []) d 0 xs torn Hd Ht) as [_ Hb'].
    { fold src in E. rewrite <- E. lia. }
    fold src in E. rewrite <- E, Hb in Hb'. cbn [rp_Bad app] in Hb'. rewrite Hb'. unfold torn_bad. case_decide as Hnil; [constructor|].
    destruct newest; [|by specialize (Hn eq_refl)]. constructor; [|constructor]. cbn. rewrite <- Hlen, E, length_app.
    by rewrite Nat.eqb_refl.
Qed.

Lemma intact_seg_entries newest s xs : intact_seg newest s xs → xs = rp_Entries (seg_report s).
Proof.
  intros (d & torn & E & Ht & Hd & _). unfold seg_report. rewrite E.
  destruct (whole_scan (S (length (d ++ torn))) (MkReport (path s) (length (d ++ torn)) [] []) d 0 xs torn Hd Ht) as [-> _]; [lia|done].
Qed.

Lemma all_clean segs : Forall (λ s, size s ≤ length (disk s)) segs → ∀ L tb, truth_of L tb → one_writer L →
  Forall (λ a, blocks (a_sev a) = false) (all_adds tb segs) ↔
  ∃ xss, intact_segs segs xss ∧ one_writer (L ++ map sv_Entry (concat xss)).
Proof.
  induction 1 as [|s segs Hs _ IH]; intros L tb Ht Hw.
  { cbn. split; [|constructor]. intros _. exists []. split; [done|]. by rewrite app_nil_r. }
  destruct (entries_block (path_base (path s)) (rp_Entries (seg_report s)) L tb Ht Hw) as [He Ht1]. fold (seg_truth tb s) in Ht1.
  destruct segs as [|s' segs].
  - cbn [all_adds]. unfold seg_adds. rewrite Forall_app, seg_bad_clean, He by done. split.
    + intros [H1 H2]. exists [rp_Entries (seg_report s)]. cbn. by rewrite app_nil_r.
    + intros (xss & Hi & Ho). destruct xss as [|xs [|? ?]]; [done| |by destruct Hi]. cbn in Hi, Ho. rewrite app_nil_r in Ho.
      pose proof (intact_seg_entries _ _ _ Hi). subst xs. split; [exact Hi|exact Ho].
  - change (all_adds tb (s :: s' :: segs)) with (seg_adds false tb s ++ all_adds (seg_truth tb s) (s' :: segs)).
    rewrite Forall_app. unfold seg_adds. rewrite Forall_app, seg_bad_clean, He by done. split.
    + intros [[H1 H2] H3]. apply (IH _ _ Ht1 H2) in H3 as (xss & Hi & Ho). exists (rp_Entries (seg_report s) :: xss).
      split; [done|]. cbn [concat]. by rewrite map_app, app_assoc.
    + intros (xss & Hi & Ho). destruct xss as [|xs xss]; [done|]. destruct Hi as [Hi Hi']. cbn [concat] in Ho. rewrite map_app, app_assoc in Ho.
      pose proof (intact_seg_entries _ _ _ Hi). subst xs. assert (H2 : one_writer (L ++ map sv_Entry (rp_Entries (seg_report s)))).
      { intros L1 e L2 E. apply (Ho L1 e (L2 ++ map sv_Entry (concat xss))). by rewrite E, <- app_assoc. }
      split; [done|]. apply (IH _ _ Ht1 H2). eauto.
Qed.

(** ** Codes of the gate's findings *)

Definition mild_codes : list string := [CodeSegmentTornTail; CodeDuplicateIdentical; CodeRecordExpiredLive].
Definition hard_codes : list string :=
  [CodeSegmentTornTail; CodeSegmentGluedLine; CodeSegmentBadRegion; CodeConflictIDReuse; CodeConflictWriteAfter; CodeConflictDuplicateID; CodeConflictRevision].

Definition coded (a : addition) : Prop := if blocks (a_sev a) then a_code a ∈ hard_codes else a_code a ∈ mild_codes.

Definition mild_torn (l : list addition) : nat := length (filter (λ a, a_code a = CodeSegmentTornTail ∧ blocks (a_sev a) = false) l).

Lemma mild_torn_app a b : mild_torn (a ++ b) = mild_torn a + mild_torn b.
Proof. unfold mild_torn. by rewrite filter_app, length_app. Qed.

Lemma mild_torn_none l : Forall (λ a, a_code a = CodeSegmentTornTail → blocks (a_sev a) = true) l → mild_torn l = 0.
Proof.
  unfold mild_torn. induction 1 as [|a l H _ IH]; [done|]. rewrite filter_cons. case_decide as Hd; [|done].
  destruct Hd as [H1 H2]. specialize (H H1). congruence.
Qed.

Ltac in_codes := repeat (first [by left | right]).

Lemma hist_adds_coded loc prev e : Forall coded (hist_adds loc prev e) ∧ mild_torn (hist_adds loc prev e) = 0.
Proof.
  unfold hist_adds. repeat (case_match || case_decide); (split; [repeat constructor; unfold coded; cbn; in_codes|done]).
Qed.

Lemma entries_adds_coded name xs : ∀ tb, Forall coded (entries_adds name tb xs) ∧ mild_torn (entries_adds name tb xs) = 0.
Proof.
  induction xs as [|x xs IH]; intros tb; [split; [constructor|done]|]. cbn [entries_adds]. rewrite Forall_app, mild_torn_app.
  destruct (IH (tb_step name tb x)) as [H1 H2]. assert (Forall coded (entry_adds name tb x) ∧ mild_torn (entry_adds name tb x) = 0) as [H3 H4].
  { unfold entry_adds. case_decide; [|split; [constructor|done]]. case_match; [apply hist_adds_coded|split; [constructor|done]]. }
  split; [done|lia].
Qed.

Lemma seg_adds_coded newest tb s : Forall coded (seg_adds newest tb s) ∧ mild_torn (seg_adds newest tb s) ≤ if newest then 1 else 0.
Proof.
  unfold seg_adds. destruct (entries_adds_coded (path_base (path s)) (rp_Entries (seg_report s)) tb) as [H1 H2].
  rewrite Forall_app, mild_torn_app, H2, Nat.add_0_r. split.
  - split; [|done]. apply Forall_map, Forall_forall. intros b _. unfold coded, bad_add. destruct (br_Reason b); [|destruct (newest && (br_Offset b + br_Length b =? size s))|..]; cbn; in_codes.
  - set (src := take (size s) (disk s)).
    destruct (scan_whole (S (length src)) (MkReport (path s) (length src) [] []) 0 src (Nat.lt_succ_diag_r _)) as (bads & xs & Hb & _ & Hc & _).
    cbn [rp_Bad app] in Hb. unfold seg_report. fold src. rewrite Hb. clear Hb. destruct newest.
    + etrans; [|exact Hc]. clear Hc. unfold mild_torn. induction bads as [|b bads IH]; [done|]. cbn [map]. rewrite !filter_cons.
      destruct (decide (is_torn b = true)) as [Ht|Ht]; case_decide as Hd; cbn [length]; try lia.
      destruct Hd as [Hd _]. exfalso. apply Ht. unfold is_torn. revert Hd. unfold bad_add, a_code. by destruct (br_Reason b).
    + rewrite mild_torn_none; [done|]. apply Forall_map, Forall_forall. intros b _. unfold bad_add, a_code. by destruct (br_Reason b).
Qed.

Lemma all_adds_coded segs : ∀ tb, Forall coded (all_adds tb segs) ∧ mild_torn (all_adds tb segs) ≤ 1.
Proof.
  induction segs as [|s segs IH]; intros tb; [split; [constructor|cbn; lia]|]. destruct segs as [|s' segs].
  - cbn [all_adds]. apply (seg_adds_coded true).
  - change (all_adds tb (s :: s' :: segs)) with (seg_adds false tb s ++ all_adds (seg_truth tb s) (s' :: segs)).
    rewrite Forall_app, mild_torn_app. destruct (seg_adds_coded false tb s) as [H1 H2], (IH (seg_truth tb s)) as [H3 H4]. split; [done|lia].
Qed.

(** The clock findings at the end. *)
Lemma expired_adds now (truth : gmap Z truthRec) ids k : ∃ l,
  foldl (λ k id, match truth !! id with
                 | Some t => if tr_live t && (0 <? tr_exp t)%Z && (tr_exp t <=? now)%Z
                             then sink_add k SeverityInfo CodeRecordExpiredLive (truth_loc id t) else k
                 | None => k
                 end) k ids = adds k l ∧ Forall (λ a, a_sev a = SeverityInfo ∧ a_code a = CodeRecordExpiredLive) l.
Proof.
  revert k. induction ids as [|id ids IH]; intros k; cbn [foldl]; [by exists []|].
  destruct (truth !! id) as [t|]; [|apply IH]. case_match; [|apply IH].
  destruct (IH (sink_add k SeverityInfo CodeRecordExpiredLive (truth_loc id t))) as (l & -> & Hl).
  exists ((SeverityInfo, CodeRecordExpiredLive, truth_loc id t) :: l). split; [done|]. by constructor.
Qed.

Lemma same_code_mild l a : Forall coded l → blocks (a_sev a) = true → coded a →
  length (filter (λ b, a_code b = a_code a ∧ blocks (a_sev b) = false) l) ≤ mild_torn l.
Proof.
  intros Hl Hb Ha. unfold coded in Ha. rewrite Hb in Ha. unfold mild_torn. induction Hl as [|b l Hb' _ IH]; [done|]. rewrite !filter_cons.
  case_decide as H1; case_decide as H2; cbn [length]; try lia. exfalso. destruct H1 as [Hc Hn]. apply H2. split; [|done].
  unfold coded in Hb'. rewrite Hn, Hc in Hb'. clear -Ha Hb' Hc. rewrite Hc. unfold mild_codes, hard_codes in *.
  repeat (apply elem_of_cons in Hb' as [Hb'|Hb']; [rewrite Hb' in Ha|]); [done| | |by apply elem_of_nil in Hb'];
  repeat (apply elem_of_cons in Ha as [Ha|Ha]; [discriminate Ha|]); by apply elem_of_nil in Ha.
Qed.

Definition fresh_gate : gate_state := MkGate false None false None.

(** Claim C28: the gate in front of an index rebuild is exact.  With readable files it
    lets the open go on with strict rebuilds if and only if every line of every
    segment reads back (a torn tail of the newest segment aside) and the history of
    every id is that of one writer: no write after a delete, no second insert with
    other content, no revision that goes back.  Otherwise the open is refused with
    the report, or, under the report policy, goes on with the damaged regions
    skipped; a blocking finding is never lost to the cap on findings per code. *)
Theorem gate_exact policy name dir now all : Forall (λ s, size s ≤ length (disk s)) all →
  let r := (gate policy name dir now fresh_gate all []).2 in
  (r = Ok false ↔ ∃ xss, intact_segs all xss ∧ one_writer (map sv_Entry (concat xss))) ∧
  (r ≠ Ok false → match policy with PolicyReport => r = Ok true | _ => ∃ rep, r = Err rep ∧ blockingFindings rep = true end).
Proof.
  intros Hsz r. subst r. unfold gate, fresh_gate. cbn [gt_ran gt_tolerant].
  unfold runChecks, gate_input. cbn [in_opts in_persisted in_segs in_hasIndex in_sidx in_idCounterKnown vo_Mode normalized vo_MaxFindingsPerCode].
  rewrite bool_decide_eq_true_2 by done. set (tb0 := newTruthBuilder _). set (k0 := newFindingSink _ _).
  destruct (scan_all_adds all (MkScan [] k0 tb0 0 0 0) eq_refl) as (tb & n & b & m & E). cbn [sc_sink sc_tb] in E. rewrite E. clear E.
  cbn [sc_fs sc_sink sc_tb]. unfold compareSidx, compareIndex. cbn [in_hasIndex in_sidx foldl].
  match goal with |- context [foldl ?f ?k (sortedMapIDs ?truth)] =>
    match f with context [(tr_exp _ <=? ?n)%Z] => destruct (expired_adds n truth (sortedMapIDs truth) k) as (l & E & Hl) end end.
  rewrite E. clear E. rewrite <- adds_app. cbn [in_idCounterKnown].
  set (L := all_adds tb0 all ++ l). set (rep := report _ _ _).
  assert (Hb : blockingFindings rep = true ↔ ∃ a, a ∈ L ∧ blocks (a_sev a) = true).
  { unfold rep, blockingFindings. cbn [report cr_Findings]. apply (blocking_kept name 1000 L). intros a Ha Hba.
    destruct (all_adds_coded all tb0) as [Hc Hm].
    assert (Hlc : Forall coded l ∧ mild_torn l = 0).
    { split; [|apply mild_torn_none]; (eapply Forall_impl; [exact Hl|]); intros x [H1 H2].
      - unfold coded. rewrite H1, H2. cbn. in_codes.
      - rewrite H2. discriminate. }
    destruct Hlc as [Hlc Hlm]. assert (HL : Forall coded L) by (by apply Forall_app).
    eapply Nat.le_lt_trans; [apply same_code_mild; [done|done|by eapply Forall_forall in HL]|]. unfold L. rewrite mild_torn_app. lia. }
  assert (Hok : blockingFindings rep = false ↔ ∃ xss, intact_segs all xss ∧ one_writer (map sv_Entry (concat xss))).
  { rewrite <- (all_clean all Hsz [] tb0); [|by intros id|by intros [|? ?] ? ? ?]. rewrite Forall_forall.
    split.
    - intros H a Ha. destruct (blocks (a_sev a)) eqn:Ea; [|done]. assert (blockingFindings rep = true); [|congruence]. apply Hb. exists a.
      split; [|done]. apply elem_of_app. by left.
    - intros H. destruct (blockingFindings rep) eqn:Er; [|done]. destruct (proj1 Hb eq_refl) as (a & Ha & Hba).
      apply elem_of_app in Ha as [Ha|Ha]; [rewrite (H _ Ha) in Hba; done|]. eapply Forall_forall in Hl; [|exact Ha]. destruct Hl as [Hl _]. by rewrite Hl in Hba. }
  destruct (blockingFindings rep) eqn:Er.
  - destruct policy; cbn [snd]; (split; [rewrite <- Hok; split; [discriminate|discriminate]|]); intros _; eauto.
  - cbn [snd]. split; [|done]. rewrite <- Hok. done.
Qed.
