(* ===== verification/VerifyIndex.v ===== *)
(** * The check of the primary index is exact

    On segments that read back and hold no transactions, the full check reports a
    difference between index and segments exactly when there is one. *)
From Stdlib Require Import Ascii Lia ZArith.
From stdpp Require Import prelude gmap strings sorting.
From S2P Require Import Prelude GoNum Json Value Filter GoTime Store Wire Codec Segment Index SecondaryIndex Collection Keyed Compactor Manifest Sha256 Journal Salvage IndexFile IndexRecover SidxFile Verify VerifyThm.

(** ** The history as an index *)

Definition as_entry (t : truthRec) : IndexEntry := MkIE (tr_seg t) (tr_off t) (tr_rev t) (tr_exp t) (tr_epoch t).

(** The live records of the history, each with the name of its segment. *)
Definition live_view (truth : gmap Z truthRec) : gmap Z IndexEntry := omap (λ t, if tr_live t then Some (as_entry t) else None) truth.

Definition truth_inv (truth : gmap Z truthRec) : Prop :=
  map_Forall (λ _ t, tr_live t = negb (tr_deleted t) ∧ (tr_live t = false → tr_rev t = 0%Z)) truth.

Lemma live_step name tb x : truth_inv (tb_truth tb) →
  truth_inv (tb_truth (tb_step name tb x)) ∧
  live_view (tb_truth (tb_step name tb x)) = applyOne (live_view (tb_truth tb)) name (sv_Offset x) (sv_Entry x).
Proof.
  intros Hi. unfold tb_step, fold_entry, applyOne. cbn zeta. set (e := sv_Entry x). case_decide; [|case_decide]; cbn [fst tb_truth].
  - split; [by apply map_Forall_insert_2|]. unfold live_view. erewrite omap_insert_Some by done. unfold as_entry. cbn. do 2 f_equal.
    unfold next_rev. rewrite lookup_omap. destruct (tb_truth tb !! ID e) as [t|] eqn:Et; [|done]. cbn [default from_option id mbind option_bind].
    destruct (Hi _ _ Et) as [_ Hz]. destruct (tr_live t); [done|]. by rewrite (Hz eq_refl).
  - split; [by apply map_Forall_insert_2|]. unfold live_view. by rewrite omap_insert_None.
  - done.
Qed.

Lemma live_steps name xs : ∀ tb, truth_inv (tb_truth tb) →
  let tb' := foldl (tb_step name) tb xs in
  truth_inv (tb_truth tb') ∧ live_view (tb_truth tb') = foldl (λ m x, applyOne m name (sv_Offset x) (sv_Entry x)) (live_view (tb_truth tb)) xs.
Proof.
  induction xs as [|x xs IH]; intros tb Hi; [done|]. cbn [foldl]. destruct (live_step name tb x Hi) as [H1 <-]. by apply IH.
Qed.

(** The entries of the segments under the names of their files. *)
Definition named_log (segs : list Segment) (xss : list (list SalvagedEntry)) : list log_entry :=
  concat (zip_with (λ s xs, map (λ x, (path_base (path s), locate x)) xs) segs xss).

Lemma replay_named name xs m : Forall (λ x, sv_Tx x = None) xs →
  replay None m (map (λ x, (name, locate x)) xs) = foldl (λ m x, applyOne m name (sv_Offset x) (sv_Entry x)) m xs.
Proof.
  intros H. revert m. induction H as [|x xs Hx _ IH]; intros m; [done|]. unfold replay in *. cbn [map foldl fst snd locate]. rewrite Hx. cbn [entryVisible].
  apply IH.
Qed.

Lemma intact_cons s segs xss : intact_segs (s :: segs) xss → ∃ newest xs xss', xss = xs :: xss' ∧ intact_seg newest s xs ∧ intact_segs segs xss'.
Proof.
  destruct xss as [|xs xss]; [by destruct segs|]. destruct segs as [|s' segs].
  - destruct xss; [|by intros [_ []]]. intros H. exists true, xs, []. done.
  - intros [H1 H2]. exists false, xs, xss. done.
Qed.

Lemma history_view segs : ∀ xss tb, intact_segs segs xss → Forall (λ x, sv_Tx x = None) (concat xss) → truth_inv (tb_truth tb) →
  let tb' := foldl seg_truth tb segs in
  truth_inv (tb_truth tb') ∧ live_view (tb_truth tb') = replay None (live_view (tb_truth tb)) (named_log segs xss).
Proof.
  induction segs as [|s segs IH]; intros xss tb Hx Htx Hi; [done|]. apply intact_cons in Hx as (newest & xs & xss' & -> & Hs & Hx).
  cbn [concat] in Htx. apply Forall_app in Htx as [Ht1 Ht2]. cbn [foldl].
  destruct (live_steps (path_base (path s)) xs tb Hi) as [H1 H2]. pose proof (intact_seg_entries _ _ _ Hs) as E.
  assert (Hst : seg_truth tb s = foldl (tb_step (path_base (path s))) tb xs) by (unfold seg_truth; by rewrite <- E).
  rewrite Hst. destruct (IH xss' _ Hx Ht2 H1) as [H3 H4]. split; [done|]. rewrite H4, H2. unfold named_log. cbn [zip_with concat].
  rewrite replay_app. f_equal. by rewrite replay_named.
Qed.

(** ** What the comparison adds *)

Definition cmp_adds (truth : gmap Z truthRec) (at_ : gmap (string * nat) Z) (id : Z) (ie : IndexEntry) : list addition :=
  let base := path_base (SegmentPath ie) in
  let loc := MkLoc base (Offset ie) id "" in
  match truth !! id with
  | None => [(SeverityRepairableIndex, match at_ !! (base, Offset ie) with Some _ => CodeIndexWrongRecord | None => CodeIndexDanglingEntry end, loc)]
  | Some t =>
      if tr_deleted t then [(SeverityRepairableIndex, CodeIndexResurrected, loc)]
      else if negb (bool_decide (tr_seg t = base)) || negb (tr_off t =? Offset ie) then
        [(SeverityRepairableIndex, match at_ !! (base, Offset ie) with
                                   | Some got => if negb (got =? id)%Z then CodeIndexWrongRecord else CodeIndexStaleRecord
                                   | None => CodeIndexDanglingOffset
                                   end, loc)]
      else if negb (ie_Rev ie =? tr_rev t)%Z || negb (ie_ExpiresAt ie =? tr_exp t)%Z || negb (ie_Epoch ie =? tr_epoch t)%Z
      then [(SeverityRepairableIndex, CodeIndexStaleRecord, loc)]
      else []
  end.

Lemma compare_entry_adds truth at_ id ie k : compare_entry truth at_ id ie k = adds k (cmp_adds truth at_ id ie).
Proof.
  unfold compare_entry, cmp_adds. cbn zeta. destruct (truth !! id) as [t|]; [|by destruct (at_ !! _)].
  destruct (tr_deleted t); [done|]. destruct (negb (bool_decide _) || _).
  - destruct (at_ !! _) as [got|]; [|done]. by destruct (negb (got =? id)%Z).
  - by destruct (negb (ie_Rev ie =? tr_rev t)%Z || _ || _).
Qed.

(** An entry of the index adds nothing exactly when it is the live record. *)
Lemma cmp_adds_none truth at_ id ie : truth_inv truth → cmp_adds truth at_ id ie = [] ↔ live_view truth !! id = Some (with_path path_base ie).
Proof.
  intros Hi. unfold cmp_adds, live_view, with_path. cbn zeta. rewrite lookup_omap. destruct (truth !! id) as [t|] eqn:Et; [|done].
  cbn [mbind option_bind]. destruct (Hi _ _ Et) as [Hl _]. rewrite Hl. destruct (tr_deleted t); [done|]. cbn [negb]. unfold as_entry.
  destruct (bool_decide_reflect (tr_seg t = path_base (SegmentPath ie))), (Nat.eqb_spec (tr_off t) (Offset ie)),
    (Z.eqb_spec (ie_Rev ie) (tr_rev t)), (Z.eqb_spec (ie_ExpiresAt ie) (tr_exp t)), (Z.eqb_spec (ie_Epoch ie) (tr_epoch t)); cbn [negb orb];
    (split; [try done; try (intros _; congruence)|try done; intros [= ? ? ? ? ?]; congruence]).
Qed.

Lemma foldl_adds {A} (f : findingSink → A → findingSink) (g : A → list addition) (l : list A) k :
  (∀ k x, f k x = adds k (g x)) → foldl f k l = adds k (concat (map g l)).
Proof. intros H. revert k. induction l as [|x l IH]; intros k; [done|]. cbn [foldl map concat]. by rewrite IH, H, adds_app. Qed.

Definition miss_adds (m : gmap Z IndexEntry) (truth : gmap Z truthRec) (id : Z) : list addition :=
  match truth !! id with
  | Some t => if tr_live t && bool_decide (m !! id = None) then [(SeverityRepairableIndex, CodeIndexMissingRecord, truth_loc id t)] else []
  | None => []
  end.

Lemma sortedMapIDs_elem {A} (m : gmap Z A) id : id ∈ sortedMapIDs m ↔ is_Some (m !! id).
Proof.
  unfold sortedMapIDs. rewrite ssort_perm, list_elem_of_fmap. split.
  - intros ([i x] & -> & H%elem_of_map_to_list). eauto.
  - intros [x H]. exists (id, x). split; [done|]. by apply elem_of_map_to_list.
Qed.

Definition repairable (a : addition) : Prop := a_sev a = SeverityRepairableIndex.

Lemma concat_none {A} (g : A → list addition) l : (∀ x, x ∈ l → Forall repairable (g x)) →
  Forall (λ a, ¬ repairable a) (concat (map g l)) ↔ ∀ x, x ∈ l → g x = [].
Proof.
  intros Hg. induction l as [|x l IH]; [split; [by intros _ x H%elem_of_nil|constructor]|]. cbn [map concat]. rewrite Forall_app, IH.
  2: { intros y Hy. apply Hg. by right. }
  assert (Hx : Forall (λ a, ¬ repairable a) (g x) ↔ g x = []).
  { specialize (Hg x (list_elem_of_here _ _)). destruct (g x) as [|a l0]; [split; [done|constructor]|]. split; [|done]. intros H. exfalso.
    apply Forall_cons in H as [H _]. apply Forall_cons in Hg as [Hg _]. done. }
  rewrite Hx. split.
  - intros [H1 H2] y [->|Hy]%elem_of_cons; auto.
  - intros H. split; [apply H; by left|]. intros y Hy. apply H. by right.
Qed.

(** Claim C29: verification of the primary index is sound and complete.  On segments
    whose lines all read back and belong to no transaction, the comparison of an
    index with the history of the segments reports a difference to be repaired if
    and only if the index differs from what a rebuild would give: an entry for an
    id without a live record, a wrong place, revision, deadline or epoch, or a live
    record without an entry. *)
Theorem verify_index_exact i segs xss k :
  intact_segs segs xss → Forall (λ x, sv_Tx x = None) (concat xss) → in_hasIndex i = true →
  let tb := foldl seg_truth (newTruthBuilder i) segs in
  ∃ l, compareIndex i (tb_truth tb) (tb_at tb) k = adds k l ∧
    (Forall (λ a, ¬ repairable a) l ↔ with_path path_base <$> in_index i = replay None ∅ (named_log segs xss)).
Proof.
  intros Hx Htx Hidx tb. destruct (history_view segs xss (newTruthBuilder i) Hx Htx) as [Hi Hv]; [apply map_Forall_empty|]. fold tb in Hi, Hv.
  cbn [newTruthBuilder tb_truth] in Hv. assert (E0 : live_view ∅ = ∅) by apply omap_empty. rewrite E0 in Hv. clear E0.
  unfold compareIndex. rewrite Hidx. cbn zeta.
  set (truth := tb_truth tb) in *. set (at_ := tb_at tb). set (m := in_index i).
  match goal with |- context [foldl ?f ?k (sortedMapIDs truth)] =>
    match f with context [(tr_exp _ <=? ?n)%Z] => destruct (expired_adds n truth (sortedMapIDs truth) k) as (l & -> & Hl) end end.
  rewrite (foldl_adds _ (miss_adds m truth)) by (intros k0 id; unfold miss_adds; fold m; destruct (truth !! id); [|done]; by case_match).
  rewrite (foldl_adds _ (λ id, match m !! id with Some ie => cmp_adds truth at_ id ie | None => [] end)).
  2: { intros k0 id. fold m. destruct (m !! id); [apply compare_entry_adds|done]. }
  rewrite <- !adds_app. eexists. split; [done|]. rewrite !Forall_app, !concat_none.
  2: { intros id _. unfold miss_adds. destruct (truth !! id); [|constructor]. case_match; repeat constructor. }
  2: { intros id _. destruct (m !! id) as [ie|]; [|constructor]. unfold cmp_adds. cbn zeta. repeat case_match; repeat constructor. }
  rewrite <- Hv. split.
  - intros [H1 [H2 _]]. apply map_eq. intros id. rewrite lookup_fmap. destruct (m !! id) as [ie|] eqn:Em; cbn [fmap option_fmap option_map].
    + symmetry. apply (cmp_adds_none truth at_); [done|]. specialize (H1 id). rewrite Em in H1. apply H1, sortedMapIDs_elem. eauto.
    + symmetry. unfold live_view. rewrite lookup_omap. destruct (truth !! id) as [t|] eqn:Et; [|done]. cbn [mbind option_bind].
      specialize (H2 id). unfold miss_adds in H2. rewrite Et, Em in H2. destruct (tr_live t); [|done]. exfalso.
      specialize (H2 ltac:(apply sortedMapIDs_elem; eauto)). by rewrite bool_decide_eq_true_2 in H2.
  - intros E. split; [|split].
    + intros id _. destruct (m !! id) as [ie|] eqn:Em; [|done]. apply cmp_adds_none; [done|]. rewrite <- E, lookup_fmap, Em. done.
    + intros id _. unfold miss_adds. destruct (truth !! id) as [t|] eqn:Et; [|done]. destruct (tr_live t) eqn:Elv; [|done]. cbn [andb].
      rewrite bool_decide_eq_false_2; [done|]. intros Em. assert (Hn : live_view truth !! id = None) by (by rewrite <- E, lookup_fmap, Em).
      unfold live_view in Hn. rewrite lookup_omap, Et in Hn. cbn [mbind option_bind] in Hn. by rewrite Elv in Hn.
    + eapply Forall_impl; [exact Hl|]. intros a [H _]. unfold repairable. rewrite H. discriminate.
Qed.
