(* ===== verification/Auth.v ===== *)
(** * Authentication and authorization: [internal/auth]

    [Key], [keySet] and [buildKeySet] follow [apikey.go], the capability classes
    and the matrix [methodPolicies] follow [policy.go], client certificates
    follow [mtls.go].  A request context is the record [context] of what the
    package reads from it and stores in it; an interceptor either refuses a call
    with an [auth_err] or hands it to the handler with the context it built.

    The specification is the capability model of the comment at the top of
    [policy.go]: [holds] says which capabilities a principal has, [required]
    which ones a call needs.  [authorization_exact] proves that the two checks
    of the interceptors let exactly those calls through. *)
From Stdlib Require Import Ascii Lia ZArith.
From stdpp Require Import prelude gmap strings sorting.
From S2P Require Import Prelude.
From S2P Require Import Value.
From S2P Require Import Sha256.

(** ** Principals *)

Inductive Scope : Type := ScopeRead | ScopeReadWrite.

#[global] Instance Scope_eq_dec : EqDecision Scope.
Proof. solve_decision. Defined.

(** An allow-list of [None] is the nil map: unrestricted. *)
Record principal : Type := MkPrin {
  pr_name : string;
  pr_scope : Scope;
  pr_id : string;
  pr_open : bool;
  pr_collections : option (gset string)
}.

(** The principal of a server with authentication disabled. *)
Definition open_principal : principal := MkPrin "" ScopeRead "" true None.

(** The identity the request context carries. *)
Record Principal : Type := MkPublic {
  P_Name : string;
  P_Scope : Scope;
  P_ID : string;
  P_allow : option (gset string)
}.

Definition zero_Principal : Principal := MkPublic "" ScopeRead "" None.

Definition public (p : principal) : Principal :=
  MkPublic (pr_name p) (pr_scope p) (pr_id p) (pr_collections p).

Definition allows (allow : option (gset string)) (name : string) : bool :=
  match allow with None => true | Some names => bool_decide (name ∈ names) end.

Definition allowsCollection (p : principal) (name : string) : bool := allows (pr_collections p) name.

Definition Restricted (p : Principal) : bool := bool_decide (is_Some (P_allow p)).

Definition AllowsCollection (p : Principal) (name : string) : bool := allows (P_allow p) name.

Definition AllowedCollections (p : Principal) : list string :=
  match P_allow p with None => [] | Some names => ssort str_ltb (elements names) end.

Definition restricted (p : principal) : bool := bool_decide (is_Some (pr_collections p)).

Definition dbCapable (p : principal) : bool := pr_open p || negb (restricted p).

Definition canWrite (p : principal) : bool := pr_open p || bool_decide (pr_scope p = ScopeReadWrite).

(** ** The matrix *)

Inductive Access : Type :=
  | AccessDenied | AccessCollectionRead | AccessCollectionWrite | AccessCreate | AccessDBAdmin
  | AccessDBRead | AccessFiltered | AccessHandleWrite | AccessAuthenticated.

#[global] Instance Access_eq_dec : EqDecision Access.
Proof. solve_decision. Defined.

Definition svc : string := "/scriva.v1.Scriva/".

Definition policy_table : list (string * Access) :=
  [(svc +:+ "CreateCollection", AccessCreate);
   (svc +:+ "DropCollection", AccessDBAdmin);
   (svc +:+ "ListCollections", AccessFiltered);
   (svc +:+ "Insert", AccessCollectionWrite);
   (svc +:+ "InsertMany", AccessCollectionWrite);
   (svc +:+ "Update", AccessCollectionWrite);
   (svc +:+ "Delete", AccessCollectionWrite);
   (svc +:+ "Upsert", AccessCollectionWrite);
   (svc +:+ "UpdateByKey", AccessCollectionWrite);
   (svc +:+ "DeleteByKey", AccessCollectionWrite);
   (svc +:+ "UpdateIfRev", AccessCollectionWrite);
   (svc +:+ "FindById", AccessCollectionRead);
   (svc +:+ "Find", AccessCollectionRead);
   (svc +:+ "FindByKey", AccessCollectionRead);
   (svc +:+ "Aggregate", AccessCollectionRead);
   (svc +:+ "Watch", AccessCollectionRead);
   (svc +:+ "CollectionStats", AccessCollectionRead);
   (svc +:+ "ListIndexes", AccessCollectionRead);
   (svc +:+ "EnsureIndex", AccessCollectionWrite);
   (svc +:+ "DropIndex", AccessCollectionWrite);
   (svc +:+ "Compact", AccessCollectionWrite);
   (svc +:+ "BeginTx", AccessCollectionWrite);
   (svc +:+ "CommitTx", AccessHandleWrite);
   (svc +:+ "RollbackTx", AccessHandleWrite);
   (svc +:+ "BeginXTx", AccessCollectionWrite);
   (svc +:+ "StageXTx", AccessCollectionWrite);
   (svc +:+ "GetXTx", AccessCollectionWrite);
   (svc +:+ "CommitXTx", AccessHandleWrite);
   (svc +:+ "RollbackXTx", AccessHandleWrite);
   (svc +:+ "XTxStatus", AccessAuthenticated);
   (svc +:+ "Snapshot", AccessDBRead);
   (svc +:+ "Replicate", AccessDBRead);
   (svc +:+ "ReplicationStatus", AccessDBRead);
   (svc +:+ "Promote", AccessDBAdmin);
   ("/grpc.health.v1.Health/Check", AccessAuthenticated);
   ("/grpc.health.v1.Health/Watch", AccessAuthenticated);
   ("/grpc.health.v1.Health/List", AccessAuthenticated)].

Definition methodPolicies : gmap string Access := list_to_map policy_table.

Definition PolicyFor (fullMethod : string) : option Access := methodPolicies !! fullMethod.

Definition PolicyMethods : list string := ssort str_ltb (map fst (map_to_list methodPolicies)).

(** An unlisted method is denied. *)
Definition access_of (fullMethod : string) : Access := default AccessDenied (methodPolicies !! fullMethod).

(** The refusals, with the arguments of their messages. *)
Inductive auth_err : Type :=
  | InvalidAPIKey
  | MissingCredential
  | ReadOnlyScope (name fullMethod : string)
  | NeedsUnrestricted (name fullMethod : string)
  | NotPermitted (name fullMethod : string)
  | NotThisCollection (name : string)
  | NotCollection (name coll : string).

Definition authorizeMethod (p : principal) (fullMethod : string) : res auth_err unit :=
  match access_of fullMethod with
  | AccessCollectionRead | AccessFiltered | AccessAuthenticated => Ok tt
  | AccessCollectionWrite | AccessCreate | AccessHandleWrite =>
      if negb (canWrite p) then Err (ReadOnlyScope (pr_name p) fullMethod) else Ok tt
  | AccessDBRead =>
      if negb (dbCapable p) then Err (NeedsUnrestricted (pr_name p) fullMethod) else Ok tt
  | AccessDBAdmin =>
      if negb (canWrite p) then Err (ReadOnlyScope (pr_name p) fullMethod)
      else if negb (dbCapable p) then Err (NeedsUnrestricted (pr_name p) fullMethod) else Ok tt
  | AccessDenied =>
      if negb (pr_open p) && (negb (bool_decide (pr_scope p = ScopeReadWrite)) || negb (dbCapable p))
      then Err (NotPermitted (pr_name p) fullMethod) else Ok tt
  end.

(** ** The collections a request names *)

(** A field of a message, as reflection shows it: a string, a list of strings, or
    a field of another kind. *)
Inductive pfield : Type := FString (s : string) | FStrings (l : list string) | FOther.

(** A request: a protobuf message ([None] when it is not valid, such as a typed
    nil) by its descriptor's fields, or a value of another type with the
    accessors [GetCollections] and [GetCollection] it has. *)
Inductive request : Type :=
  | ProtoMessage (fields : option (gmap string pfield))
  | OtherRequest (getCollections : option (list string)) (getCollection : option string).

Definition collectionFieldNames : list string := ["collection"; "collections"; "name"].

Definition appendName (names : list string) (n : string) : list string :=
  if decide (n = "") then names else names ++ [n].

Definition field_names (fields : gmap string pfield) (names : list string) (fname : string) : list string :=
  match fields !! fname with
  | Some (FString s) => appendName names s
  | Some (FStrings l) => foldl appendName names l
  | Some FOther | None => names
  end.

Definition requestCollections (req : request) : option (list string) :=
  match req with
  | ProtoMessage None => None
  | ProtoMessage (Some fields) => Some (foldl (field_names fields) [] collectionFieldNames)
  | OtherRequest None None => None
  | OtherRequest ms cs =>
      let names := match ms with Some l => foldl appendName [] l | None => [] end in
      Some (match cs with Some n => appendName names n | None => names end)
  end.

Definition collection_class (a : Access) : bool :=
  bool_decide (a = AccessCollectionRead) || bool_decide (a = AccessCollectionWrite) ||
  bool_decide (a = AccessCreate).

Definition authorizeRequest (p : principal) (fullMethod : string) (req : request) : res auth_err unit :=
  if negb (restricted p) || pr_open p then Ok tt
  else match methodPolicies !! fullMethod with
  | None => Ok tt
  | Some access =>
      if negb (collection_class access) then Ok tt
      else match requestCollections req with
      | None => Err (NotThisCollection (pr_name p))
      | Some [] => Err (NotThisCollection (pr_name p))
      | Some names =>
          match list_find (λ n, allowsCollection p n = false) names with
          | Some (_, n) => Err (NotCollection (pr_name p) n)
          | None => Ok tt
          end
      end
  end.

(** ** Client certificates: [mtls.go] *)

(** A certificate by the parts that name it, the URIs and the subject as their
    [String] methods render them. *)
Record cert : Type := MkCert {
  c_Raw : bytes;
  c_CommonName : string;
  c_DNSNames : list string;
  c_EmailAddresses : list string;
  c_URIs : list string;
  c_Subject : string
}.

(** The transport of the peer. *)
Inductive authInfo : Type := TLSInfo (verifiedChains : list (list cert)) | OtherInfo.

Definition certAuthScope : Scope := ScopeReadWrite.

Definition certPrincipalName (c : cert) : string :=
  if decide (c_CommonName c = "") then
    match c_DNSNames c, c_EmailAddresses c, c_URIs c with
    | d :: _, _, _ => d
    | [], e :: _, _ => e
    | [], [], u :: _ => u
    | [], [], [] => c_Subject c
    end
  else c_CommonName c.

(** The first eight bytes of a digest in hexadecimal. *)
Definition short_sum (b : bytes) : string := s_of_b (hex_encode (take 8 (sha256 b))).

Definition principalFromPeerCert (pr : option (option authInfo)) : option Principal :=
  match pr with
  | Some (Some (TLSInfo ((c :: _) :: _))) =>
      Some (MkPublic (certPrincipalName c) certAuthScope ("cert:" +:+ short_sum (c_Raw c)) None)
  | _ => None
  end.

(** ** Keys *)

Record Key : Type := MkKey {
  k_Key : string;
  k_Name : string;
  k_Scope : Scope;
  k_Collections : list string
}.

Record keyEntry : Type := MkKeyEntry { ke_key : string; ke_principal : principal }.

Definition keySet : Type := list keyEntry.

Definition enabled (ks : keySet) : bool := match ks with [] => false | _ => true end.

(** Every entry is compared; a later match replaces an earlier one. *)
Definition lookup_key (ks : keySet) (provided : string) : option principal :=
  foldl (λ found e, if decide (ke_key e = provided) then Some (ke_principal e) else found) None ks.

Definition keyID (key : string) : string := "key:" +:+ short_sum (b_of_s key).

Definition key_principal (k : Key) : principal :=
  MkPrin (if decide (k_Name k = "") then "unnamed" else k_Name k) (k_Scope k) (keyID (k_Key k)) false
    (match k_Collections k with [] => None | l => Some (list_to_set l) end).

Inductive key_err : Type := EmptyKeyValue (name : string) | DuplicateKey (prev name : string).

Fixpoint build_loop (seen : gmap string string) (entries : keySet) (keys : list Key) : res key_err keySet :=
  match keys with
  | [] => Ok entries
  | k :: keys' =>
      if decide (k_Key k = "") then Err (EmptyKeyValue (k_Name k))
      else match seen !! k_Key k with
      | Some prev => Err (DuplicateKey prev (k_Name k))
      | None => build_loop (<[k_Key k := k_Name k]> seen)
                  (entries ++ [MkKeyEntry (k_Key k) (key_principal k)]) keys'
      end
  end.

Definition buildKeySet (keys : list Key) : res key_err keySet := build_loop ∅ [] keys.

Record Authenticator : Type := MkAuth { au_keys : keySet; au_certAuth : bool }.

Definition New (keys : list Key) (certAuth : bool) : res key_err Authenticator :=
  match buildKeySet keys with Err e => Err e | Ok ks => Ok (MkAuth ks certAuth) end.

Definition Reload (a : Authenticator) (keys : list Key) : Authenticator * option key_err :=
  match buildKeySet keys with
  | Err e => (a, Some e)
  | Ok ks => (MkAuth ks (au_certAuth a), None)
  end.

(** ** Interceptors *)

(** What the package reads from a request context and stores in it; the sink is
    the cell of the audit log, present ([Some]) when one was installed. *)
Record context : Type := MkCtx {
  cx_metadata : option (gmap string (list string));
  cx_peer : option (option authInfo);
  cx_principal : option Principal;
  cx_sink : option (option Principal)
}.

Definition metadataKey : string := "x-api-key".

Definition PrincipalFromContext (ctx : context) : option Principal := cx_principal ctx.

Definition withPrincipal (ctx : context) (p : Principal) : context :=
  MkCtx (cx_metadata ctx) (cx_peer ctx) (Some p) (cx_sink ctx).

Definition ContextWithPrincipalSink (ctx : context) : context :=
  MkCtx (cx_metadata ctx) (cx_peer ctx) (cx_principal ctx) (Some None).

Definition depositPrincipal (ctx : context) (p : Principal) : context :=
  MkCtx (cx_metadata ctx) (cx_peer ctx) (cx_principal ctx)
    (match cx_sink ctx with Some _ => Some (Some p) | None => None end).

(** The key a request presents: the first value of the header. *)
Definition presented (ctx : context) : option string :=
  md ← cx_metadata ctx; vals ← md !! metadataKey; head vals.

Definition cert_principal (a : Authenticator) (ctx : context) : option principal :=
  if au_certAuth a then
    cp ← principalFromPeerCert (cx_peer ctx);
    Some (MkPrin (P_Name cp) (P_Scope cp) (P_ID cp) false None)
  else None.

(** The principal behind a request, before its method is looked at. *)
Definition resolve_principal (a : Authenticator) (ctx : context) : res auth_err principal :=
  let by_cert := match cert_principal a ctx with Some p => Ok p | None => Err MissingCredential end in
  if enabled (au_keys a) then
    match presented ctx with
    | Some key => match lookup_key (au_keys a) key with Some p => Ok p | None => Err InvalidAPIKey end
    | None => by_cert
    end
  else by_cert.

Definition authorize (a : Authenticator) (ctx : context) (fullMethod : string)
  : context * res auth_err principal :=
  if negb (enabled (au_keys a)) && negb (au_certAuth a) then (ctx, Ok open_principal)
  else match resolve_principal a ctx with
  | Err e => (ctx, Err e)
  | Ok resolved =>
      let ctx1 := depositPrincipal ctx (public resolved) in
      match authorizeMethod resolved fullMethod with
      | Err e => (ctx1, Err e)
      | Ok _ => (withPrincipal ctx1 (public resolved), Ok resolved)
      end
  end.

(** The unary interceptor: the context after it, and the call that reaches the
    handler. *)
Definition unary (a : Authenticator) (ctx : context) (fullMethod : string) (req : request)
  : context * res auth_err (context * request) :=
  match authorize a ctx fullMethod with
  | (ctx1, Err e) => (ctx1, Err e)
  | (ctx1, Ok p) =>
      match authorizeRequest p fullMethod req with
      | Err e => (ctx1, Err e)
      | Ok _ => (ctx1, Ok (ctx1, req))
      end
  end.

(** A stream handed to a handler, with the messages its client has sent. *)
Record wrappedServerStream : Type := MkStream {
  ws_incoming : list request;
  ws_ctx : context;
  ws_principal : principal;
  ws_method : string;
  ws_checked : bool
}.

Definition stream (a : Authenticator) (ctx : context) (fullMethod : string) (incoming : list request)
  : context * res auth_err wrappedServerStream :=
  match authorize a ctx fullMethod with
  | (ctx1, Err e) => (ctx1, Err e)
  | (ctx1, Ok p) => (ctx1, Ok (MkStream incoming ctx1 p fullMethod false))
  end.

Inductive recv_err : Type := EndOfStream | Refused (e : auth_err).

Definition RecvMsg (w : wrappedServerStream) : wrappedServerStream * res recv_err request :=
  match ws_incoming w with
  | [] => (w, Err EndOfStream)
  | m :: rest =>
      let w1 := MkStream rest (ws_ctx w) (ws_principal w) (ws_method w) true in
      if ws_checked w then (w1, Ok m)
      else match authorizeRequest (ws_principal w) (ws_method w) m with
      | Err e => (w1, Err (Refused e))
      | Ok _ => (w1, Ok m)
      end
  end.

(** ** What the interceptors let through: [internal/auth]

    [holds] and [required] are the capability model that [policy.go] states in
    its opening comment.  [method_exact] and [request_exact] relate the two
    checks of the code to it, [lookup_built] says which principal a key stands
    for, [interceptors_exact] puts them together for a whole call. *)

#[local] Opaque methodPolicies.

(** ** The capability model *)

Inductive capability : Type :=
  | ReadOf (coll : string)
  | WriteOf (coll : string)
  | ScopeWrite
  | DBReadCap
  | DBAdminCap.

(** What a principal holds: per collection of its allow-list, read and, with the
    read-write scope, write; without an allow-list, the database capabilities. *)
Definition holds (p : principal) (c : capability) : Prop :=
  pr_open p = true ∨
  match c with
  | ReadOf n => allowsCollection p n = true
  | WriteOf n => pr_scope p = ScopeReadWrite ∧ allowsCollection p n = true
  | ScopeWrite => pr_scope p = ScopeReadWrite
  | DBReadCap => pr_collections p = None
  | DBAdminCap => pr_scope p = ScopeReadWrite ∧ pr_collections p = None
  end.

(** What a call of the class needs when its request names the collections. *)
Definition required (a : Access) (names : list string) : list capability :=
  match a with
  | AccessCollectionRead => map ReadOf names
  | AccessCollectionWrite | AccessCreate => ScopeWrite :: map WriteOf names
  | AccessHandleWrite => [ScopeWrite]
  | AccessDBRead => [DBReadCap]
  | AccessDBAdmin | AccessDenied => [DBAdminCap]
  | AccessFiltered | AccessAuthenticated => []
  end.

(** The collections a request names, none when it cannot be read. *)
Definition named (req : request) : list string := default [] (requestCollections req).

(** A call is permitted when its principal holds all it needs; one that works on
    collections must name some of them, unless nothing confines its principal. *)
Definition permitted (p : principal) (m : string) (req : request) : Prop :=
  Forall (holds p) (required (access_of m) (named req)) ∧
  (pr_open p = false → pr_collections p ≠ None → collection_class (access_of m) = true → named req ≠ []).

(** ** The checks *)

Lemma canWrite_true p : canWrite p = true ↔ holds p ScopeWrite.
Proof. unfold canWrite, holds. rewrite orb_true_iff, bool_decide_eq_true. done. Qed.

Lemma restricted_true p : restricted p = true ↔ pr_collections p ≠ None.
Proof. unfold restricted. rewrite bool_decide_eq_true. symmetry. apply not_eq_None_Some. Qed.

Lemma restricted_false p : restricted p = false ↔ pr_collections p = None.
Proof. rewrite <- not_true_iff_false, restricted_true. destruct (pr_collections p); naive_solver. Qed.

Lemma dbCapable_true p : dbCapable p = true ↔ holds p DBReadCap.
Proof. unfold dbCapable, holds. rewrite orb_true_iff, negb_true_iff, restricted_false. done. Qed.

Lemma method_exact p m :
  authorizeMethod p m = Ok tt ↔ Forall (holds p) (required (access_of m) []).
Proof.
  unfold authorizeMethod. generalize (access_of m). intros acc.
  destruct acc; simpl; rewrite ?Forall_cons, ?Forall_nil.
  - unfold holds. case_bool_decide as Hs.
    + destruct (pr_open p) eqn:Ho; simpl; [naive_solver|].
      destruct (dbCapable p) eqn:Hd; simpl.
      * apply dbCapable_true in Hd. unfold holds in Hd. naive_solver.
      * assert (¬ holds p DBReadCap) as Hn by (rewrite <- dbCapable_true; congruence).
        unfold holds in Hn. naive_solver.
    + destruct (pr_open p) eqn:Ho; simpl; naive_solver.
  - naive_solver.
  - rewrite <- canWrite_true. destruct (canWrite p); naive_solver.
  - rewrite <- canWrite_true. destruct (canWrite p); naive_solver.
  - assert (holds p DBAdminCap ↔ canWrite p = true ∧ dbCapable p = true) as ->.
    { rewrite canWrite_true, dbCapable_true. unfold holds. naive_solver. }
    destruct (canWrite p), (dbCapable p); naive_solver.
  - rewrite <- dbCapable_true. destruct (dbCapable p); naive_solver.
  - naive_solver.
  - rewrite <- canWrite_true. destruct (canWrite p); naive_solver.
  - naive_solver.
Qed.

Lemma all_allowed p names :
  list_find (λ n, allowsCollection p n = false) names = None ↔
  Forall (λ n, allowsCollection p n = true) names.
Proof.
  rewrite list_find_None. apply Forall_iff. intros n. destruct (allowsCollection p n); naive_solver.
Qed.

Lemma request_exact p m req :
  authorizeRequest p m req = Ok tt ↔
  (pr_open p = false → pr_collections p ≠ None → collection_class (access_of m) = true →
     named req ≠ [] ∧ Forall (λ n, allowsCollection p n = true) (named req)).
Proof.
  unfold authorizeRequest, access_of, named. rewrite <- restricted_true.
  generalize (methodPolicies !! m). intros pol.
  destruct (restricted p); [|naive_solver]. destruct (pr_open p); [naive_solver|]. simpl.
  destruct pol as [a|]; simpl; [|naive_solver].
  destruct (collection_class a); simpl; [|naive_solver].
  destruct (requestCollections req) as [names|]; simpl; [|naive_solver].
  rewrite <- all_allowed. destruct names as [|n names]; [naive_solver|].
  destruct (list_find _ (n :: names)) as [[i x]|]; naive_solver.
Qed.

Lemma unrestricted_allows p n : pr_collections p = None → allowsCollection p n = true.
Proof. unfold allowsCollection. by intros ->. Qed.

(** The two checks together are the capability model. *)
Lemma checks_exact p m req :
  (authorizeMethod p m = Ok tt ∧ authorizeRequest p m req = Ok tt) ↔ permitted p m req.
Proof.
  rewrite method_exact, request_exact. unfold permitted. generalize (access_of m). intros acc.
  assert (∀ n, pr_collections p = None → allowsCollection p n = true) as Hu by apply unrestricted_allows.
  destruct (pr_open p) eqn:Ho.
  { split; intros _; (split; [apply Forall_forall; intros c _; by left|intros Hf; discriminate Hf]). }
  assert (∀ c, holds p c ↔ match c with
    | ReadOf n => allowsCollection p n = true
    | WriteOf n => pr_scope p = ScopeReadWrite ∧ allowsCollection p n = true
    | ScopeWrite => pr_scope p = ScopeReadWrite
    | DBReadCap => pr_collections p = None
    | DBAdminCap => pr_scope p = ScopeReadWrite ∧ pr_collections p = None end) as Hh.
  { intros c. unfold holds. rewrite Ho. naive_solver. }
  destruct acc; simpl; rewrite ?Forall_cons, ?Forall_nil, ?Forall_map, ?Forall_forall;
    try setoid_rewrite Hh; simpl; destruct (pr_collections p); naive_solver.
Qed.

(** ** Keys *)

Lemma build_loop_spec keys seen ks ks' :
  build_loop seen ks keys = Ok ks' →
  ks' = ks ++ map (λ k, MkKeyEntry (k_Key k) (key_principal k)) keys ∧
  NoDup (map k_Key keys) ∧ Forall (λ k, seen !! k_Key k = None ∧ k_Key k ≠ "") keys.
Proof.
  revert seen ks. induction keys as [|k keys IH]; intros seen ks; simpl.
  { intros [= <-]. rewrite app_nil_r. split_and!; [done|constructor|constructor]. }
  destruct (decide _) as [|Hne]; [done|]. destruct (seen !! k_Key k) eqn:Hs; [done|].
  intros (-> & Hnd & Hall)%IH. split_and!.
  - by rewrite <- app_assoc.
  - constructor; [|done]. intros (k' & Hk & Hin)%list_elem_of_fmap.
    rewrite Forall_forall in Hall. destruct (Hall k' Hin) as [Hf _].
    rewrite <- Hk, lookup_insert_eq in Hf. done.
  - constructor; [done|]. eapply Forall_impl; [exact Hall|]. simpl. intros k' [Hf Hk].
    split; [|done]. apply lookup_insert_None in Hf. tauto.
Qed.

Lemma lookup_fold keys key found :
  NoDup (map k_Key keys) →
  foldl (λ found e, if decide (ke_key e = key) then Some (ke_principal e) else found) found
    (map (λ k, MkKeyEntry (k_Key k) (key_principal k)) keys) =
  match list_find (λ k, k_Key k = key) keys with Some (_, k) => Some (key_principal k) | None => found end.
Proof.
  revert found. induction keys as [|k keys IH]; intros found; simpl; [done|].
  intros [Hn Hnd]%NoDup_cons. rewrite IH by done. destruct (decide (k_Key k = key)) as [He|He].
  - simpl. destruct (list_find (λ k0, k_Key k0 = key) keys) as [[i k']|] eqn:Hf; [|done].
    exfalso. apply Hn. apply list_find_Some in Hf as (Hl & Hk & _). apply list_elem_of_fmap.
    exists k'. split; [congruence|]. by apply list_elem_of_lookup_2 in Hl.
  - destruct (list_find (λ k0, k_Key k0 = key) keys) as [[i k']|]; done.
Qed.

(** A key stands for the principal of its one configuration. *)
Lemma lookup_built keys ks k :
  buildKeySet keys = Ok ks → k ∈ keys → lookup_key ks (k_Key k) = Some (key_principal k).
Proof.
  intros (-> & Hnd & _)%build_loop_spec Hin. unfold lookup_key. simpl. rewrite lookup_fold by done.
  destruct (list_find (λ k0, k_Key k0 = k_Key k) keys) as [[i k']|] eqn:Hf.
  - apply list_find_Some in Hf as (Hl & Hk & _). apply list_elem_of_lookup_1 in Hin as [j Hj].
    assert (i = j) as ->; [|congruence].
    eapply (NoDup_lookup (map k_Key keys) i j (k_Key k)); [exact Hnd| |];
      rewrite list_lookup_fmap; [rewrite Hl|rewrite Hj]; simpl; congruence.
  - rewrite list_find_None, Forall_forall in Hf. by destruct (Hf k Hin).
Qed.

Lemma lookup_unknown keys ks key :
  buildKeySet keys = Ok ks → Forall (λ k, k_Key k ≠ key) keys → lookup_key ks key = None.
Proof.
  intros (-> & Hnd & _)%build_loop_spec Hall. unfold lookup_key. simpl. rewrite lookup_fold by done.
  assert (list_find (λ k, k_Key k = key) keys = None) as -> by by apply list_find_None.
  done.
Qed.

Lemma built_enabled keys ks : buildKeySet keys = Ok ks → keys ≠ [] → enabled ks = true.
Proof.
  intros (-> & _ & _)%build_loop_spec. by destruct keys.
Qed.

(** The context a permitted call reaches its handler with. *)
Definition with_identity (ctx : context) (p : principal) : context :=
  withPrincipal (depositPrincipal ctx (public p)) (public p).

Lemma key_resolves keys cert a ctx k :
  New keys cert = Ok a → k ∈ keys → presented ctx = Some (k_Key k) →
  enabled (au_keys a) = true ∧ resolve_principal a ctx = Ok (key_principal k).
Proof.
  unfold New. intros Hn Hin Hp. destruct (buildKeySet keys) as [ks|] eqn:Hb; [|done].
  injection Hn as <-. simpl. assert (enabled ks = true) as He.
  { eapply built_enabled; [exact Hb|]. intros ->. by apply not_elem_of_nil in Hin. }
  split; [done|]. unfold resolve_principal. simpl. rewrite He, Hp.
  by rewrite (lookup_built keys ks k).
Qed.

Lemma unary_resolved a ctx m req p :
  enabled (au_keys a) = true → resolve_principal a ctx = Ok p →
  ∀ out, (unary a ctx m req).2 = Ok out ↔ permitted p m req ∧ out = (with_identity ctx p, req).
Proof.
  intros He Hr out. rewrite <- checks_exact. unfold unary, authorize. rewrite He, Hr. simpl.
  destruct (authorizeMethod p m) as [[]|e]; simpl; [|naive_solver].
  destruct (authorizeRequest p m req) as [[]|e]; simpl; naive_solver.
Qed.

(** A server-streaming call: the handler that [protoc-gen-go-grpc] generates receives
    one message and runs the method with it. *)
Definition server_stream (a : Authenticator) (ctx : context) (m : string) (incoming : list request)
  : res recv_err (context * request) :=
  match (stream a ctx m incoming).2 with
  | Err e => Err (Refused e)
  | Ok w => match (RecvMsg w).2 with Ok r => Ok (ws_ctx w, r) | Err e => Err e end
  end.

(** Both interceptors let the same calls through, with the same context. *)
Lemma stream_as_unary a ctx m req rest :
  server_stream a ctx m (req :: rest) = match (unary a ctx m req).2 with Ok out => Ok out | Err e => Err (Refused e) end.
Proof.
  unfold server_stream, stream, unary. destruct (authorize a ctx m) as [ctx1 [p|e]]; [|done].
  unfold RecvMsg. simpl. by destruct (authorizeRequest p m req) as [[]|e].
Qed.

Lemma stream_resolved a ctx m req rest p :
  enabled (au_keys a) = true → resolve_principal a ctx = Ok p →
  ∀ out, server_stream a ctx m (req :: rest) = Ok out ↔ permitted p m req ∧ out = (with_identity ctx p, req).
Proof.
  intros He Hr out. rewrite <- (unary_resolved a ctx m req p He Hr out), stream_as_unary.
  destruct (unary a ctx m req).2; naive_solver.
Qed.

(** Claim C31: authorization is exactly the capability model, for unary and for
    server-streaming calls.  With keys configured, a call that presents one of them
    reaches its handler if and only if the principal of that key holds every
    capability its method and the collections its request names require (a key with
    an allow-list must name a collection where the method works on one), and then
    the handler sees that principal and the unchanged request; a call with an
    unknown key is refused whatever certificate it has, and without client
    certificates so is a call with no key. *)
Theorem interceptors_exact keys cert a ctx m req rest :
  New keys cert = Ok a → keys ≠ [] →
  (∀ k, k ∈ keys → presented ctx = Some (k_Key k) → ∀ out,
     ((unary a ctx m req).2 = Ok out ↔
      permitted (key_principal k) m req ∧ out = (with_identity ctx (key_principal k), req)) ∧
     (server_stream a ctx m (req :: rest) = Ok out ↔
      permitted (key_principal k) m req ∧ out = (with_identity ctx (key_principal k), req))) ∧
  (∀ key, presented ctx = Some key → Forall (λ k, k_Key k ≠ key) keys →
     (unary a ctx m req).2 = Err InvalidAPIKey ∧ server_stream a ctx m (req :: rest) = Err (Refused InvalidAPIKey)) ∧
  (presented ctx = None → cert = false →
     (unary a ctx m req).2 = Err MissingCredential ∧ server_stream a ctx m (req :: rest) = Err (Refused MissingCredential)).
Proof.
  intros Hn Hne. rewrite !stream_as_unary. split_and!.
  - intros k Hin Hp out. destruct (key_resolves keys cert a ctx k) as [He Hr]; [done..|].
    rewrite <- stream_as_unary with (rest := rest). split; [by apply unary_resolved|by apply stream_resolved].
  - intros key Hp Hall. unfold New in Hn. destruct (buildKeySet keys) as [ks|] eqn:Hb; [|done].
    injection Hn as <-. unfold unary, authorize, resolve_principal. simpl.
    rewrite (built_enabled keys ks), Hp, (lookup_unknown keys ks key) by done. done.
  - intros Hp ->. unfold New in Hn. destruct (buildKeySet keys) as [ks|] eqn:Hb; [|done].
    injection Hn as <-. unfold unary, authorize, resolve_principal, cert_principal. simpl.
    rewrite (built_enabled keys ks), Hp by done. done.
Qed.

(** ** Confinement *)

Lemma key_allows k n : k_Collections k ≠ [] → allowsCollection (key_principal k) n = true → n ∈ k_Collections k.
Proof.
  unfold allowsCollection, key_principal, allows. simpl. intros Hne.
  destruct (k_Collections k) as [|c l] eqn:Hl; [done|]. rewrite bool_decide_eq_true. set_solver.
Qed.

Lemma key_restricted k : k_Collections k ≠ [] → pr_collections (key_principal k) ≠ None.
Proof. unfold key_principal. simpl. by destruct (k_Collections k). Qed.

(** What a key with an allow-list may call. *)
Lemma restricted_permitted k m req :
  k_Collections k ≠ [] → permitted (key_principal k) m req →
  access_of m ∉ [AccessDBRead; AccessDBAdmin; AccessDenied] ∧
  (collection_class (access_of m) = true → named req ≠ [] ∧ named req ⊆ k_Collections k).
Proof.
  intros Hne. unfold permitted. pose proof (key_restricted k Hne) as Hr.
  generalize (access_of m), (named req). intros acc names [Hall Hnames]. rewrite Forall_forall in Hall.
  assert (∀ c, holds (key_principal k) c → c ≠ DBReadCap ∧ c ≠ DBAdminCap) as Hno.
  { intros c [Ho|Hc]; [discriminate Ho|]. split; intros ->; [by apply Hr|by apply Hr, Hc]. }
  assert (∀ n, holds (key_principal k) (ReadOf n) ∨ holds (key_principal k) (WriteOf n) → n ∈ k_Collections k)
    as Hin.
  { intros n [[Ho|H]|[Ho|[_ H]]]; [discriminate Ho| |discriminate Ho|]; by apply key_allows. }
  split.
  - rewrite !elem_of_cons. intros [->|[->|[->|[]%not_elem_of_nil]]];
      destruct (Hno _ (Hall _ (list_elem_of_here _ _))); congruence.
  - intros Hc. split; [by apply Hnames|]. intros n Hn. apply Hin.
    destruct acc; try discriminate Hc; [left|right..]; apply Hall; simpl;
      [|apply list_elem_of_further..]; apply list_elem_of_fmap; eauto.
Qed.

(** A stream delivers its first message only when the principal may send it. *)
Lemma stream_first_checked a ctx m incoming ctx1 w w1 r :
  stream a ctx m incoming = (ctx1, Ok w) → RecvMsg w = (w1, Ok r) →
  authorizeRequest (ws_principal w) m r = Ok tt ∧ authorizeMethod (ws_principal w) m = Ok tt ∨
  (enabled (au_keys a) = false ∧ au_certAuth a = false).
Proof.
  unfold stream. destruct (authorize a ctx m) as [ctx2 [p|e]] eqn:Ha; [|done]. intros [= <- <-].
  unfold RecvMsg. simpl. destruct incoming as [|q rest]; [done|].
  destruct (authorizeRequest p m q) as [[]|] eqn:Hq; [|done]. intros [= <- <-].
  revert Ha. unfold authorize. generalize (resolve_principal a ctx). intros rp.
  destruct (negb (enabled (au_keys a)) && negb (au_certAuth a)) eqn:Hopen.
  { intros _. right. apply andb_true_iff in Hopen as [?%negb_true_iff ?%negb_true_iff]. by split. }
  intros Ha. left. split; [exact Hq|]. destruct rp as [p'|e]; [|discriminate Ha].
  revert Ha. destruct (authorizeMethod p' m) as [[]|] eqn:Hm; [|discriminate].
  intros Ha. injection Ha as _ Hp. rewrite <- Hp. exact Hm.
Qed.
