(* ===== verification/Server.v ===== *)
(** * Transaction handles and names at the server

    [server/handle_owner.go] and the handlers of [server/grpc.go] and
    [server/xtx.go] that use it: a transaction handle may be used only by the
    credential that began it.  The server is the record [GRPCServer] of the
    collections the database has, the transaction manager of [Batch], the owner
    table, and the live cross-collection handles of the engine's registry (by
    their ids; what the engine does with a handle is not part of this file).  A
    call that is refused returns the state it found. *)
From Stdlib Require Import Ascii Lia ZArith.
From stdpp Require Import prelude gmap strings sorting.
From S2P Require Import Prelude.
From S2P Require Import Json.
From S2P Require Import Value.
From S2P Require Import GoTime.
From S2P Require Import Collection.
From S2P Require Import Batch.
From S2P Require Import Names.
From S2P Require Import Auth.
From stdpp Require Import prelude gmap strings sorting pretty.

(** ** The owner table *)

Definition callerID (ctx : context) : string :=
  match PrincipalFromContext ctx with Some p => P_ID p | None => "" end.

Record handleOwners : Type := MkOwners { ho_owner : gmap string string; ho_sweepAt : Z }.

Definition handleOwnersMinSweep : Z := 1024.

Definition newHandleOwners : handleOwners := MkOwners ∅ handleOwnersMinSweep.

Definition bind (h : handleOwners) (id owner : string) (exists_ : string → bool) : handleOwners :=
  let o := <[id := owner]> (ho_owner h) in
  if (Z.of_nat (size o) <? ho_sweepAt h)%Z then MkOwners o (ho_sweepAt h)
  else
    let o' := filter (λ kv, exists_ kv.1 = true) o in
    let at_ := (2 * Z.of_nat (size o'))%Z in
    MkOwners o' (if (at_ <? handleOwnersMinSweep)%Z then handleOwnersMinSweep else at_).

Definition forget (h : handleOwners) (id : string) : handleOwners :=
  MkOwners (delete id (ho_owner h)) (ho_sweepAt h).

(** The refusals of the handlers. *)
Inductive serr : Type :=
  | CollectionRequired
  | NoCollection (name : string)
  | TxNotFound (id : string)
  | HandleRequired
  | HandleNotFound (id : string)
  | ForeignHandle
  | TTLInTx
  | BoundElsewhere (id coll named : string).

Definition check (h : handleOwners) (ctx : context) (id : string) : res serr unit :=
  if decide (default "" (ho_owner h !! id) = callerID ctx) then Ok tt else Err ForeignHandle.

(** ** Handlers *)

Record GRPCServer : Type := MkServer {
  sv_collections : gset string;
  sv_txMgr : TxManager;
  sv_owners : handleOwners;
  sv_xtx : gset string
}.

Definition with_txMgr (s : GRPCServer) (m : TxManager) : GRPCServer :=
  MkServer (sv_collections s) m (sv_owners s) (sv_xtx s).
Definition with_owners (s : GRPCServer) (h : handleOwners) : GRPCServer :=
  MkServer (sv_collections s) (sv_txMgr s) h (sv_xtx s).
Definition with_xtx (s : GRPCServer) (x : gset string) : GRPCServer :=
  MkServer (sv_collections s) (sv_txMgr s) (sv_owners s) x.

(** [newTxID] draws the id, [n] is the clock. *)
Definition BeginTx (s : GRPCServer) (ctx : context) (coll id : string) (n : Z) : GRPCServer * res serr string :=
  if decide (coll = "") then (s, Err CollectionRequired)
  else if decide (coll ∈ sv_collections s) then
    let m := Begin (sv_txMgr s) id coll n in
    let s1 := with_txMgr s m in
    (with_owners s1 (bind (sv_owners s1) id (callerID ctx) (λ k, bool_decide (is_Some (tx_Get m k)))), Ok id)
  else (s, Err (NoCollection coll)).

Definition ownedTx (s : GRPCServer) (ctx : context) (id : string) : res serr Tx :=
  match tx_Get (sv_txMgr s) id with
  | None => Err (TxNotFound id)
  | Some tx => match check (sv_owners s) ctx id with Err e => Err e | Ok _ => Ok tx end
  end.

(** The transaction is taken out of the tables, and its operations go to the
    [CommitTx] of its collection. *)
Definition drop_tx (s : GRPCServer) (id : string) : GRPCServer :=
  let s1 := with_txMgr s (tx_Remove (sv_txMgr s) id) in with_owners s1 (forget (sv_owners s1) id).

Definition CommitTx_rpc (s : GRPCServer) (ctx : context) (id : string)
  : GRPCServer * res serr (string * list txOp) :=
  match ownedTx s ctx id with
  | Err e => (s, Err e)
  | Ok tx =>
      if decide (tx_collection tx ∈ sv_collections s)
      then (drop_tx s id, Ok (tx_collection tx, Snapshot tx))
      else (s, Err (NoCollection (tx_collection tx)))
  end.

Definition RollbackTx_rpc (s : GRPCServer) (ctx : context) (id : string) : GRPCServer * res serr unit :=
  match ownedTx s ctx id with
  | Err e => (s, Err e)
  | Ok _ => (drop_tx s id, Ok tt)
  end.

(** The write a request stages in a transaction. *)
Inductive staged : Type :=
  | StInsert (id : Z) (data : vdata)
  | StUpdate (id : Z) (data : vdata)
  | StDelete (id : Z).

Definition stage_op (w : staged) (n n' : Z) : Tx → Tx :=
  match w with
  | StInsert id data => StageInsert id data n n'
  | StUpdate id data => StageUpdate id data n n'
  | StDelete id => StageDelete id n n'
  end.

(** [Insert], [Update] and [Delete] of a request that carries the header of a
    transaction; the id of an insert is the one [ReserveID] draws. *)
Definition stage_rpc (s : GRPCServer) (ctx : context) (coll txID : string) (ttl : Z) (w : staged) (n n' : Z)
  : GRPCServer * res serr unit :=
  if decide (coll ∈ sv_collections s) then
    if (0 <? ttl)%Z then (s, Err TTLInTx)
    else match ownedTx s ctx txID with
    | Err e => (s, Err e)
    | Ok tx =>
        if decide (tx_collection tx = coll) then
          let m := sv_txMgr s in
          (with_txMgr s (MkTxM (<[txID := stage_op w n n' tx]> (txs m)) (txm_ttl m)), Ok tt)
        else (s, Err (BoundElsewhere txID (tx_collection tx) coll))
    end
  else (s, Err (NoCollection coll)).

(** A cross-collection handle the engine has just begun. *)
Definition BeginXTx_rpc (s : GRPCServer) (ctx : context) (id : string) : GRPCServer * res serr string :=
  let s1 := with_xtx s ({[id]} ∪ sv_xtx s) in
  (with_owners s1 (bind (sv_owners s1) id (callerID ctx) (λ k, bool_decide (k ∈ sv_xtx s1))), Ok id).

(** [StageXTx], [GetXTx], [CommitXTx] and [RollbackXTx] resolve their handle so;
    [XTxStatus] takes any transaction id and looks at no owner. *)
Definition xtxHandle (s : GRPCServer) (ctx : context) (id : string) : res serr unit :=
  if decide (id = "") then Err HandleRequired
  else if decide (id ∈ sv_xtx s) then check (sv_owners s) ctx id
  else Err (HandleNotFound id).

(** [all] are the names [DB.ListCollections] returns, in any order. *)
Definition ListCollections (ctx : context) (all : list string) : list string :=
  let p := default zero_Principal (PrincipalFromContext ctx) in
  ssort str_ltb (filter (λ n, ¬ (isReservedXTxName n = true ∨ AllowsCollection p n = false)) all).

(** ** Runs *)

Inductive call : Type :=
  | CBegin (ctx : context) (coll id : string) (n : Z)
  | CBeginX (ctx : context) (id : string)
  | CStage (ctx : context) (coll id : string) (ttl : Z) (w : staged) (n n' : Z)
  | CCommit (ctx : context) (id : string)
  | CRollback (ctx : context) (id : string)
  | CReap (n : Z)
  | CFinishX (id : string)
  | CCollections (names : gset string).

Definition run_call (s : GRPCServer) (c : call) : GRPCServer :=
  match c with
  | CBegin ctx coll id n => (BeginTx s ctx coll id n).1
  | CBeginX ctx id => (BeginXTx_rpc s ctx id).1
  | CStage ctx coll id ttl w n n' => (stage_rpc s ctx coll id ttl w n n').1
  | CCommit ctx id => (CommitTx_rpc s ctx id).1
  | CRollback ctx id => (RollbackTx_rpc s ctx id).1
  | CReap n => with_txMgr s (tx_reapExpired (sv_txMgr s) n).1
  | CFinishX id => with_xtx s (sv_xtx s ∖ {[id]})
  | CCollections names => MkServer names (sv_txMgr s) (sv_owners s) (sv_xtx s)
  end.

Definition new_server (names : gset string) (ttl : Z) : GRPCServer :=
  MkServer names (NewTxManager ttl) newHandleOwners ∅.

Definition run_calls : GRPCServer → list call → GRPCServer := foldl run_call.

(** Who asked last for the handle a random id was drawn for. *)
Definition begins (id : string) (c : call) : option string :=
  match c with
  | CBegin ctx _ id' _ | CBeginX ctx id' => if decide (id' = id) then Some (callerID ctx) else None
  | _ => None
  end.

Definition beginners (calls : list call) (id : string) : list string := omap (begins id) calls.

(** ** Handles belong to their credential, keys to their collections

    Two invariants over any sequence of calls: [owners_begun], every recorded
    owner asked for its handle, and [live_owned], as long as the table was
    never swept every live handle has its owner recorded.  The second one needs
    its bound: [sweep_forgets_live_handle] is a run in which a sweep takes a
    live cross-collection handle away from its owner. *)

(** ** Recorded owners began their handles *)

Definition owned_by (calls : list call) (h : handleOwners) : Prop :=
  ∀ id o, ho_owner h !! id = Some o → o ∈ beginners calls id.

Lemma beginners_snoc calls c id : beginners (calls ++ [c]) id = beginners calls id ++ option_list (begins id c).
Proof. unfold beginners. rewrite omap_app. simpl. by destruct (begins id c). Qed.

Lemma owned_more calls c h : owned_by calls h → owned_by (calls ++ [c]) h.
Proof. intros H id o Ho. rewrite beginners_snoc. apply elem_of_app. left. by apply H. Qed.

Lemma bind_owner h id owner ex k o :
  ho_owner (bind h id owner ex) !! k = Some o → k = id ∧ o = owner ∨ ho_owner h !! k = Some o.
Proof.
  unfold bind. destruct (_ <? _)%Z; simpl; rewrite ?map_lookup_filter_Some, lookup_insert_Some; naive_solver.
Qed.

Lemma owned_bind calls h id owner ex c :
  begins id c = Some owner → owned_by calls h → owned_by (calls ++ [c]) (bind h id owner ex).
Proof.
  intros Hc H k o [[-> ->]|Ho]%bind_owner.
  - rewrite beginners_snoc, Hc. apply elem_of_app. right. by apply list_elem_of_singleton.
  - by apply (owned_more calls c h H).
Qed.

Lemma owned_forget calls h id : owned_by calls h → owned_by calls (forget h id).
Proof. intros H k o Ho. apply H. simpl in Ho. by apply lookup_delete_Some in Ho as [_ ?]. Qed.

Lemma owners_run calls c s :
  owned_by calls (sv_owners s) → owned_by (calls ++ [c]) (sv_owners (run_call s c)).
Proof.
  intros H. destruct c as [ctx coll id n|ctx id|ctx coll id ttl w n n'|ctx id|ctx id|n|id|names]; simpl.
  - unfold BeginTx. destruct (decide _); [by apply owned_more|].
    destruct (decide _); [|by apply owned_more]. simpl. apply owned_bind; [|done].
    simpl. by rewrite decide_True.
  - apply owned_bind; [|done]. simpl. by rewrite decide_True.
  - unfold stage_rpc. destruct (decide _); [|by apply owned_more].
    destruct (_ <? _)%Z; [by apply owned_more|]. destruct (ownedTx s ctx id); [|by apply owned_more].
    destruct (decide _); by apply owned_more.
  - unfold CommitTx_rpc. destruct (ownedTx s ctx id); [|by apply owned_more].
    destruct (decide _); [|by apply owned_more]. by apply owned_more, owned_forget.
  - unfold RollbackTx_rpc. destruct (ownedTx s ctx id); [|by apply owned_more]. by apply owned_more, owned_forget.
  - by apply owned_more.
  - by apply owned_more.
  - by apply owned_more.
Qed.

Lemma run_snoc s calls c : run_calls s (calls ++ [c]) = run_call (run_calls s calls) c.
Proof. unfold run_calls. by rewrite foldl_app. Qed.

Lemma owners_begun names ttl calls : owned_by calls (sv_owners (run_calls (new_server names ttl) calls)).
Proof.
  induction calls as [|c calls IH] using rev_ind; [by intros id o|].
  rewrite run_snoc. by apply owners_run.
Qed.

Lemma check_foreign calls h ctx id :
  owned_by calls h → callerID ctx ≠ "" → callerID ctx ∉ beginners calls id → check h ctx id = Err ForeignHandle.
Proof.
  intros H Hc Hn. unfold check. rewrite decide_False; [done|]. intros He.
  destruct (ho_owner h !! id) as [o|] eqn:Ho; simpl in He; [|congruence].
  apply Hn. rewrite <- He. by apply H.
Qed.

Lemma ownedTx_foreign calls s ctx id :
  owned_by calls (sv_owners s) → callerID ctx ≠ "" → callerID ctx ∉ beginners calls id →
  ∃ e, ownedTx s ctx id = Err e.
Proof.
  intros H Hc Hn. unfold ownedTx. destruct (tx_Get _ _); [|by eexists].
  rewrite (check_foreign calls) by done. by eexists.
Qed.

(** ** Live handles keep their owner *)

(** The ids handles were begun with. *)
Definition begun_id (c : call) : option string :=
  match c with CBegin _ _ id _ | CBeginX _ id => Some id | _ => None end.

Definition begun_ids (calls : list call) : list string := omap begun_id calls.

(** Live handles are among the begun ones, of one kind, and their owner is one
    of the callers that began them; the table is too small for a sweep. *)
Record live_inv (calls : list call) (s : GRPCServer) : Prop := {
  li_at : ho_sweepAt (sv_owners s) = handleOwnersMinSweep;
  li_dom : dom (ho_owner (sv_owners s)) ⊆ list_to_set (begun_ids calls);
  li_tx : dom (txs (sv_txMgr s)) ⊆ dom (ho_owner (sv_owners s));
  li_x : sv_xtx s ⊆ dom (ho_owner (sv_owners s));
  li_disj : dom (txs (sv_txMgr s)) ## sv_xtx s
}.

Lemma begun_snoc calls c : begun_ids (calls ++ [c]) = begun_ids calls ++ option_list (begun_id c).
Proof. unfold begun_ids. rewrite omap_app. simpl. by destruct (begun_id c). Qed.

Lemma begun_mono calls c : list_to_set (begun_ids calls) ⊆@{gset string} list_to_set (begun_ids (calls ++ [c])).
Proof. rewrite begun_snoc, list_to_set_app_L. set_solver. Qed.

Lemma li_more calls c s : live_inv calls s → live_inv (calls ++ [c]) s.
Proof. intros [H1 H2 H3 H4 H5]. constructor; try done. etrans; [exact H2|]. apply begun_mono. Qed.

Lemma set_of_length (l : list string) : size (list_to_set l : gset string) ≤ length l.
Proof.
  induction l as [|x l IH]; simpl; [done|]. rewrite size_union_alt, size_singleton.
  assert (size ((list_to_set l : gset string) ∖ {[x]}) ≤ size (list_to_set l : gset string)); [|lia].
  apply subseteq_size. set_solver.
Qed.

Lemma bind_small calls s id owner ex :
  live_inv calls s → (Z.of_nat (length (begun_ids calls)) < handleOwnersMinSweep - 1)%Z →
  bind (sv_owners s) id owner ex = MkOwners (<[id := owner]> (ho_owner (sv_owners s))) handleOwnersMinSweep.
Proof.
  intros [H1 H2 _ _ _] Hl. unfold bind. rewrite H1.
  assert (size (<[id := owner]> (ho_owner (sv_owners s))) ≤ S (length (begun_ids calls)))%nat as Hs.
  { rewrite <- size_dom, dom_insert_L, size_union_alt.
    assert (size (dom (ho_owner (sv_owners s)) ∖ {[id]}) ≤ length (begun_ids calls)) as Hle.
    { etrans; [|apply set_of_length]. apply subseteq_size. set_solver. }
    rewrite size_singleton. lia. }
  destruct (_ <? _)%Z eqn:Hlt; [done|]. apply Z.ltb_ge in Hlt. lia.
Qed.

Lemma li_begun calls s id : live_inv calls s → id ∈ dom (ho_owner (sv_owners s)) → id ∈ begun_ids calls.
Proof. intros [_ H _ _ _] Hid. apply H in Hid. by apply elem_of_list_to_set in Hid. Qed.

(** A handle with a new id, of either kind. *)
Lemma li_bind calls c s id owner ex m x :
  live_inv calls s → begun_id c = Some id → id ∉ begun_ids calls →
  (Z.of_nat (length (begun_ids calls)) < handleOwnersMinSweep - 1)%Z →
  dom (txs m) ∪ x = {[id]} ∪ (dom (txs (sv_txMgr s)) ∪ sv_xtx s) → dom (txs m) ## x →
  live_inv (calls ++ [c]) (MkServer (sv_collections s) m (bind (sv_owners s) id owner ex) x).
Proof.
  intros Hi Hc Hid Hl Hdom Hdisj. pose proof Hi as [H1 H2 H3 H4 H5].
  constructor; simpl; rewrite ?(bind_small calls) by done; simpl; rewrite ?dom_insert_L, ?begun_snoc, ?Hc,
    ?list_to_set_app_L; simpl; set_solver.
Qed.

Lemma li_drop calls s id tx :
  live_inv calls s → txs (sv_txMgr s) !! id = Some tx → live_inv calls (drop_tx s id).
Proof.
  intros [H1 H2 H3 H4 H5] Htx. assert (id ∈ dom (txs (sv_txMgr s))) as Hd by by apply elem_of_dom_2 in Htx.
  constructor; simpl; rewrite ?dom_delete_L; set_solver.
Qed.

Lemma owned_live s ctx id tx : ownedTx s ctx id = Ok tx → txs (sv_txMgr s) !! id = Some tx.
Proof.
  unfold ownedTx, tx_Get. destruct (txs (sv_txMgr s) !! id); [|done].
  destruct (check _ _ _); [|done]. by intros [= ->].
Qed.

Lemma live_run calls c s :
  NoDup (begun_ids (calls ++ [c])) →
  (Z.of_nat (length (begun_ids (calls ++ [c]))) < handleOwnersMinSweep)%Z →
  live_inv calls s → live_inv (calls ++ [c]) (run_call s c).
Proof.
  rewrite begun_snoc, length_app. intros (_ & Hnew & _)%NoDup_app Hl H. pose proof H as [H1 H2 H3 H4 H5].
  assert (∀ id, id ∉ begun_ids calls → id ∉ sv_xtx s ∧ id ∉ dom (txs (sv_txMgr s))) as Hfresh.
  { intros id Hid. split; intros Hin; apply Hid, (li_begun calls s id H); set_solver. }
  destruct c as [ctx coll id n|ctx id|ctx coll id ttl w n n'|ctx id|ctx id|n|id|names]; simpl in *.
  - assert (id ∉ begun_ids calls) as Hid by (intros ?; eapply Hnew; [done|by apply list_elem_of_singleton]).
    destruct (Hfresh id Hid). unfold BeginTx. destruct (decide _); [by apply li_more|].
    destruct (decide _); [|by apply li_more]. simpl.
    apply (li_bind calls _ s id); [done|done|done|lia| |]; simpl; rewrite dom_insert_L; set_solver.
  - assert (id ∉ begun_ids calls) as Hid by (intros ?; eapply Hnew; [done|by apply list_elem_of_singleton]).
    destruct (Hfresh id Hid). apply (li_bind calls _ s id); [done|done|done|lia| |]; simpl; set_solver.
  - unfold stage_rpc. destruct (decide _); [|by apply li_more].
    destruct (_ <? _)%Z; [by apply li_more|]. destruct (ownedTx s ctx id) as [tx|] eqn:Ho; [|by apply li_more].
    destruct (decide _); [|by apply li_more]. apply li_more. apply owned_live, elem_of_dom_2 in Ho.
    constructor; simpl; rewrite ?dom_insert_L; set_solver.
  - unfold CommitTx_rpc. destruct (ownedTx s ctx id) as [tx|] eqn:Ho; [|by apply li_more].
    destruct (decide _); [|by apply li_more]. eapply li_more, li_drop; [done|by eapply owned_live].
  - unfold RollbackTx_rpc. destruct (ownedTx s ctx id) as [tx|] eqn:Ho; [|by apply li_more].
    eapply li_more, li_drop; [done|by eapply owned_live].
  - apply li_more. constructor; simpl; try done.
    + etrans; [apply dom_filter_subseteq|done].
    + intros k Hk. apply H5. revert Hk. apply dom_filter_subseteq.
  - apply li_more. constructor; simpl; set_solver.
  - apply li_more. by constructor.
Qed.

Lemma begun_prefix_NoDup calls c : NoDup (begun_ids (calls ++ [c])) → NoDup (begun_ids calls).
Proof. rewrite begun_snoc. by intros [? _]%NoDup_app. Qed.

Lemma live_owned names ttl calls :
  NoDup (begun_ids calls) → (Z.of_nat (length (begun_ids calls)) < handleOwnersMinSweep)%Z →
  live_inv calls (run_calls (new_server names ttl) calls).
Proof.
  induction calls as [|c calls IH] using rev_ind; intros Hnd Hl.
  { constructor; simpl; set_solver. }
  rewrite run_snoc. apply live_run; [done|done|]. apply IH; [by eapply begun_prefix_NoDup|].
  rewrite begun_snoc, length_app in Hl. lia.
Qed.

Lemma begins_id c id o : begins id c = Some o → begun_id c = Some id.
Proof. destruct c; simpl; try done; destruct (decide _); naive_solver. Qed.

Lemma beginners_begun calls id o : o ∈ beginners calls id → id ∈ begun_ids calls.
Proof.
  unfold beginners, begun_ids. rewrite !list_elem_of_omap. intros (c & Hc & Hb).
  exists c. split; [done|]. by eapply begins_id.
Qed.

Lemma beginner_unique calls id o o' :
  NoDup (begun_ids calls) → o ∈ beginners calls id → o' ∈ beginners calls id → o = o'.
Proof.
  induction calls as [|c calls IH] using rev_ind; [by intros _ ?%not_elem_of_nil|].
  intros Hnd. pose proof (begun_prefix_NoDup _ _ Hnd) as Hnd'. rewrite begun_snoc in Hnd.
  apply NoDup_app in Hnd as (_ & Hnew & _). rewrite !beginners_snoc, !elem_of_app.
  assert (∀ a b, a ∈ beginners calls id → b ∈ option_list (begins id c) → False) as Hno.
  { intros a b Ha%beginners_begun Hb. destruct (begins id c) eqn:Hc; [|by apply not_elem_of_nil in Hb].
    apply (Hnew id Ha). rewrite (begins_id c id s Hc). by apply list_elem_of_singleton. }
  intros [H|H] [H'|H']; [by apply IH|by destruct (Hno o o')|by destruct (Hno o' o)|].
  destruct (begins id c); [|by apply not_elem_of_nil in H].
  apply list_elem_of_singleton in H, H'. congruence.
Qed.

Lemma check_owner names ttl calls ctx id :
  let s := run_calls (new_server names ttl) calls in
  NoDup (begun_ids calls) → (Z.of_nat (length (begun_ids calls)) < handleOwnersMinSweep)%Z →
  callerID ctx ∈ beginners calls id → (id ∈ dom (txs (sv_txMgr s)) ∨ id ∈ sv_xtx s) →
  check (sv_owners s) ctx id = Ok tt.
Proof.
  intros s Hnd Hl Hb Hlive. destruct (live_owned names ttl calls Hnd Hl) as [_ _ Htx Hx _].
  assert (is_Some (ho_owner (sv_owners s) !! id)) as [o Ho] by (apply elem_of_dom; set_solver).
  unfold check. rewrite Ho. simpl. rewrite decide_True; [done|].
  eapply beginner_unique; [exact Hnd| |exact Hb]. by eapply owners_begun.
Qed.

(** Claim C33: a transaction handle is used by the credential that began it and by
    nobody else.  After any sequence of calls, an authenticated caller that never
    began the handle is refused when it stages, commits or rolls back a
    single-collection transaction by that id, and when any call of a
    cross-collection transaction (stage, read, commit, roll back) looks the handle
    up, and the refused calls leave the server as it was; a caller that began a live
    handle is let through, as long as fewer handles were begun, with distinct ids,
    than make the owner table sweep itself.  ([XTxStatus], which reports the outcome
    of a transaction to any authenticated caller, looks no handle up.) *)
Theorem handle_ownership names ttl calls ctx id :
  let s := run_calls (new_server names ttl) calls in
  (callerID ctx ≠ "" → callerID ctx ∉ beginners calls id →
     (∃ e, xtxHandle s ctx id = Err e) ∧
     (∃ e, CommitTx_rpc s ctx id = (s, Err e)) ∧
     (∃ e, RollbackTx_rpc s ctx id = (s, Err e)) ∧
     (∀ coll life w n n', ∃ e, stage_rpc s ctx coll id life w n n' = (s, Err e))) ∧
  (NoDup (begun_ids calls) → (Z.of_nat (length (begun_ids calls)) < handleOwnersMinSweep)%Z →
   callerID ctx ∈ beginners calls id →
     (∀ tx, tx_Get (sv_txMgr s) id = Some tx → ownedTx s ctx id = Ok tx) ∧
     (id ≠ "" → id ∈ sv_xtx s → xtxHandle s ctx id = Ok tt)).
Proof.
  intros s. split.
  - intros Hc Hn. pose proof (owners_begun names ttl calls) as Ho.
    destruct (ownedTx_foreign calls s ctx id) as [e He]; [done..|].
    split_and!.
    + unfold xtxHandle. rewrite (check_foreign calls) by done.
      destruct (decide _); [by eexists|]. destruct (decide _); by eexists.
    + unfold CommitTx_rpc. rewrite He. by eexists.
    + unfold RollbackTx_rpc. rewrite He. by eexists.
    + intros coll life w n n'. unfold stage_rpc. rewrite He.
      destruct (decide _); [|by eexists]. destruct (_ <? _)%Z; by eexists.
  - intros Hnd Hl Hb. split.
    + intros tx Htx. unfold ownedTx. rewrite Htx. unfold s. rewrite check_owner; [done|done|done|done|].
      left. unfold tx_Get in Htx. by apply elem_of_dom_2 in Htx.
    + intros Hne Hx. unfold xtxHandle. rewrite decide_False, decide_True by done.
      apply check_owner; [done|done|done|by right].
Qed.

(** ** A key with an allow-list *)

Lemma ListCollections_elem ctx all n :
  n ∈ ListCollections ctx all ↔
  n ∈ all ∧ isReservedXTxName n = false ∧
  AllowsCollection (default zero_Principal (PrincipalFromContext ctx)) n = true.
Proof.
  unfold ListCollections. rewrite elem_of_ssort, list_elem_of_filter.
  destruct (isReservedXTxName n), (AllowsCollection _ n); naive_solver.
Qed.

(** Claim C32: an allow-list confines its key.  A call, unary or server-streaming,
    that presents a key with an allow-list and reaches its handler is not one of the
    whole database and not one the policy does not list; when its method works on
    collections the request names at least one and only collections of the
    allow-list; and a list of collections made for it shows nothing outside the
    allow-list. *)
Theorem restricted_key_confined keys cert a ctx m req rest k ctx' req' all :
  New keys cert = Ok a → k ∈ keys → k_Collections k ≠ [] → presented ctx = Some (k_Key k) →
  (unary a ctx m req).2 = Ok (ctx', req') ∨ server_stream a ctx m (req :: rest) = Ok (ctx', req') →
  req' = req ∧ callerID ctx' = keyID (k_Key k) ∧
  access_of m ∉ [AccessDBRead; AccessDBAdmin; AccessDenied] ∧
  (collection_class (access_of m) = true → named req ≠ [] ∧ named req ⊆ k_Collections k) ∧
  (∀ n, n ∈ ListCollections ctx' all ↔ n ∈ all ∧ isReservedXTxName n = false ∧ n ∈ k_Collections k).
Proof.
  intros Hn Hin Hne Hp Hu. destruct (key_resolves keys cert a ctx k) as [He Hr]; [done..|].
  rewrite (unary_resolved a ctx m req _ He Hr), (stream_resolved a ctx m req rest _ He Hr) in Hu.
  assert (permitted (key_principal k) m req ∧ (ctx', req') = (with_identity ctx (key_principal k), req)) as [Hperm [= -> ->]]
    by (by destruct Hu).
  destruct (restricted_permitted k m req Hne Hperm) as [Hacc Hnames].
  split_and!; [done|done|done|done|]. intros n. rewrite ListCollections_elem.
  assert (AllowsCollection (default zero_Principal (PrincipalFromContext (with_identity ctx (key_principal k)))) n
          = true ↔ n ∈ k_Collections k) as ->; [|done].
  change (allowsCollection (key_principal k) n = true ↔ n ∈ k_Collections k).
  split; [by apply key_allows|]. unfold allowsCollection, key_principal, allows. simpl.
  destruct (k_Collections k); [done|]. rewrite bool_decide_eq_true. set_solver.
Qed.

(** ** Samples *)

Definition sk_reader : Key := MkKey "s3cret" "reader" ScopeRead ["books"; "pens"].
Definition sk_admin : Key := MkKey "r00t" "admin" ScopeReadWrite [].
Definition sk_keys : list Key := [sk_reader; sk_admin].

Definition sk_ctx (key : string) : context :=
  MkCtx (Some {[metadataKey := [key]]}) None None None.

Definition sk_find : request := ProtoMessage (Some {["collection" := FString "books"; "limit" := FOther]}).

Definition sk_auth : Authenticator :=
  match New sk_keys false with Ok a => a | Err _ => MkAuth [] false end.

Lemma sk_built : New sk_keys false = Ok sk_auth.
Proof. vm_compute. reflexivity. Qed.

Lemma sk_permitted m : m = "FindById" ∨ m = "Find" → permitted (key_principal sk_reader) (svc +:+ m) sk_find.
Proof. intros [-> | ->]; apply checks_exact; split; vm_compute; reflexivity. Qed.

(** A unary read and a streamed one. *)
Lemma interceptors_exact_witness :
  (unary sk_auth (sk_ctx "s3cret") (svc +:+ "FindById") sk_find).2 =
    Ok (with_identity (sk_ctx "s3cret") (key_principal sk_reader), sk_find) ∧
  server_stream sk_auth (sk_ctx "s3cret") (svc +:+ "Find") [sk_find] =
    Ok (with_identity (sk_ctx "s3cret") (key_principal sk_reader), sk_find) ∧
  server_stream sk_auth (sk_ctx "guess") (svc +:+ "Find") [sk_find] = Err (Refused InvalidAPIKey).
Proof.
  split; [|split].
  - destruct (interceptors_exact sk_keys false sk_auth (sk_ctx "s3cret") (svc +:+ "FindById") sk_find []) as [H _];
      [exact sk_built|discriminate|].
    apply (H sk_reader); [left|reflexivity|]. split; [apply sk_permitted; left; reflexivity|reflexivity].
  - destruct (interceptors_exact sk_keys false sk_auth (sk_ctx "s3cret") (svc +:+ "Find") sk_find []) as [H _];
      [exact sk_built|discriminate|].
    apply (H sk_reader); [left|reflexivity|]. split; [apply sk_permitted; right; reflexivity|reflexivity].
  - destruct (interceptors_exact sk_keys false sk_auth (sk_ctx "guess") (svc +:+ "Find") sk_find []) as (_ & H & _);
      [exact sk_built|discriminate|].
    apply (H "guess"); [reflexivity|]. repeat constructor; discriminate.
Defined.

Lemma restricted_key_confined_witness :
  named sk_find ⊆ ["books"; "pens"] ∧
  "pens" ∈ ListCollections (with_identity (sk_ctx "s3cret") (key_principal sk_reader)) ["inks"; "pens"].
Proof.
  destruct (restricted_key_confined sk_keys false sk_auth (sk_ctx "s3cret") (svc +:+ "Find") sk_find [] sk_reader
    (with_identity (sk_ctx "s3cret") (key_principal sk_reader)) sk_find ["inks"; "pens"])
    as (_ & _ & _ & H & Hl); [exact sk_built|left|discriminate|reflexivity|right; vm_compute; reflexivity|].
  split; [apply H; vm_compute; reflexivity|]. apply Hl.
  split; [right; left|]. split; [vm_compute; reflexivity|right; left].
Defined.

(** A context as the interceptor leaves it for a key's principal. *)
Definition as_key (key : string) : context := MkCtx None None (Some (MkPublic key ScopeReadWrite key None)) None.

Definition sk_calls : list call :=
  [CBegin (as_key "key:a") "books" "t1" 0; CBeginX (as_key "key:b") "x1";
   CStage (as_key "key:a") "books" "t1" 0 (StDelete 7) 1 2].

Lemma handle_ownership_witness :
  let s := run_calls (new_server {["books"]} 0) sk_calls in
  (∃ e, CommitTx_rpc s (as_key "key:b") "t1" = (s, Err e)) ∧ xtxHandle s (as_key "key:b") "x1" = Ok tt.
Proof.
  split.
  - destruct (handle_ownership {["books"]} 0 sk_calls (as_key "key:b") "t1") as [H _].
    apply H; [discriminate|]. intros Hb. apply list_elem_of_singleton in Hb. discriminate Hb.
  - destruct (handle_ownership {["books"]} 0 sk_calls (as_key "key:b") "x1") as [_ H].
    apply H; [|reflexivity|left|discriminate|].
    + apply (bool_decide_unpack (NoDup (begun_ids sk_calls))). vm_compute. exact I.
    + apply (bool_decide_unpack ("x1" ∈ sv_xtx (run_calls (new_server {["books"]} 0) sk_calls))).
      vm_compute. exact I.
Defined.

(** ** A sweep takes a live handle from its owner *)

(** A caller begins a cross-collection transaction; others begin 1023
    single-collection ones.  The last of these sweeps the table, and since a
    sweep made by [BeginTx] keeps only the handles of the transaction manager,
    the owner of the live cross-collection handle is refused from then on. *)
Definition sk_many : list call :=
  CBeginX (as_key "key:a") "x1" ::
  map (λ i, CBegin (as_key "key:b") "books" (pretty i) 0) (seq 0 1023).

Lemma sweep_forgets_live_handle :
  let s := run_calls (new_server {["books"]} 0) sk_many in
  bool_decide ("x1" ∈ sv_xtx s) = true ∧
  xtxHandle s (as_key "key:a") "x1" = Err ForeignHandle ∧
  xtxHandle (run_calls (new_server {["books"]} 0) (take 1023 sk_many)) (as_key "key:a") "x1" = Ok tt.
Proof. vm_compute. split; [reflexivity|split; reflexivity]. Qed.
