(* ===== verification/XDb.v ===== *)
(** * Committing a transaction over several collections: [engine/xtx_commit.go]

    The database is the record [DB] of what the commit path works on: the
    collections, the coordinator journal, the keys in flight, the results kept
    for replays, the root files, the outcomes of the coming file calls and the
    readings of the clocks.  A commit runs as one step from the moment it holds
    its locks: [d_cancel] says, for each wait for a lock, whether the caller's
    context is found cancelled there.  The runs and the decision are
    [xtxPrepareAndDecide] of [XTx] over the active segments of the
    participants.  With replication on, the published envelopes are
    [d_feed]; the watermark file of the feed is in [Replication]. *)
From Stdlib Require Import Ascii Lia ZArith.
From stdpp Require Import prelude gmap strings sorting.
From S2P Require Import Prelude.
From S2P Require Import Json.
From S2P Require Import Value.
From S2P Require Import GoTime.
From S2P Require Import Store.
From S2P Require Import Wire.
From S2P Require Import Codec.
From S2P Require Import Segment.
From S2P Require Import Index.
From S2P Require Import SecondaryIndex.
From S2P Require Import Collection.
From S2P Require Import Batch.
From S2P Require Import Sha256.
From S2P Require Import Journal.
From S2P Require Import Names.
From S2P Require Import XTx.
From S2P Require Import Format.
From S2P Require Import Envelope.

(** ** Errors *)

Record XTxConflictError : Type := MkConflict {
  ce_Collection : string;
  ce_ID : Z;
  ce_Write : bool;
  ce_ExpectedPresent : bool;
  ce_ExpectedRev : Z;
  ce_ActualPresent : bool;
  ce_ActualRev : Z
}.

(** The sentinels of [xtx_errors.go] the commit path and the handles use, and the
    plain errors of the arguments. *)
Inductive sentinel : Type :=
  | SConflict | STooLarge | SDurability | SOutcomeUnknown | SInProgress | SReadOnly | SCollectionNotFound
  | SCanceled | SNotParticipant | SScanUnsupported | SFinished | SExpired | SHandleNotFound | SDocNotFound
  | SInvalid | SResourceExhausted | SReservedField
  | SName (e : name_err)
  | SJournal (e : fmt_err + xtx_err)
  | SCollection (e : cerr)
  | SEmptyTx | SEmptyName | SUnknownOp.

Record XTxError : Type := MkXErr { xe_Tx : string; xe_Err : sentinel; xe_Conflict : option XTxConflictError }.

Definition xtxErr (tx : string) (e : sentinel) : XTxError := MkXErr tx e None.

Definition xtxCanceled : XTxError := xtxErr "" SCanceled.

(** An error of the journal, by the sentinel it matches. *)
Definition of_journal (tx : string) (e : xtx_err) : XTxError :=
  match e with
  | JTooLarge => xtxErr tx STooLarge
  | JDurability _ => xtxErr tx SDurability
  | JOutcomeUnknown _ => xtxErr tx SOutcomeUnknown
  | _ => xtxErr tx (SJournal (inr e))
  end.

Definition of_prepare (e : xerr) : XTxError :=
  match e with
  | XOutcomeUnknown tx => xtxErr tx SOutcomeUnknown
  | XDurability tx => xtxErr tx SDurability
  | _ => xtxErr "" SDurability
  end.

(** ** Operations and results *)

Record XTxOp : Type := MkXOp {
  xo_Collection : string;
  xo_Op : string;
  xo_ID : Z;
  xo_Data : option vdata;
  xo_ExpectedRev : Z;
  xo_ExpiresAt : Z;
  xo_ts : option time
}.

Record XTxOpResult : Type := MkOpRes { or_Collection : string; or_ID : Z; or_Rev : Z; or_Op : string }.

Record XTxResult : Type := MkXRes {
  xr_TxID : string;
  xr_Ops : list XTxOpResult;
  xr_Replayed : bool;
  xr_postErr : option cerr
}.

Record xtxReadCheck : Type := MkRead {
  rc_Collection : string;
  rc_ID : Z;
  rc_Present : bool;
  rc_Rev : Z;
  rc_Write : bool
}.

(** ** The database *)

Record DB : Type := MkDB {
  d_cols : gmap string Collection;
  d_journal : option xtxJournal;
  d_format : option bytes;              (* xtx.format *)
  d_journalFile : option bytes;         (* xtx.journal, before it is opened *)
  d_epoch : string;                     (* drawn at random for a new journal *)
  d_inFlight : gset string;
  d_results : gmap string XTxResult;
  d_resultOrder : list string;
  d_follower : bool;
  d_feed : option (list TxEnvelope);
  d_cancel : list bool;
  d_io : list fault;
  d_wall : list Z
}.

Section updates.
Context (d : DB).
Definition set_cols (v : gmap string Collection) : DB :=
  MkDB v (d_journal d) (d_format d) (d_journalFile d) (d_epoch d) (d_inFlight d) (d_results d) (d_resultOrder d)
    (d_follower d) (d_feed d) (d_cancel d) (d_io d) (d_wall d).
Definition set_journal (v : option xtxJournal) : DB :=
  MkDB (d_cols d) v (d_format d) (d_journalFile d) (d_epoch d) (d_inFlight d) (d_results d) (d_resultOrder d)
    (d_follower d) (d_feed d) (d_cancel d) (d_io d) (d_wall d).
Definition set_root (fmt file : option bytes) : DB :=
  MkDB (d_cols d) (d_journal d) fmt file (d_epoch d) (d_inFlight d) (d_results d) (d_resultOrder d)
    (d_follower d) (d_feed d) (d_cancel d) (d_io d) (d_wall d).
Definition set_inFlight (v : gset string) : DB :=
  MkDB (d_cols d) (d_journal d) (d_format d) (d_journalFile d) (d_epoch d) v (d_results d) (d_resultOrder d)
    (d_follower d) (d_feed d) (d_cancel d) (d_io d) (d_wall d).
Definition set_results (v : gmap string XTxResult) (o : list string) : DB :=
  MkDB (d_cols d) (d_journal d) (d_format d) (d_journalFile d) (d_epoch d) (d_inFlight d) v o
    (d_follower d) (d_feed d) (d_cancel d) (d_io d) (d_wall d).
Definition set_feed (v : option (list TxEnvelope)) : DB :=
  MkDB (d_cols d) (d_journal d) (d_format d) (d_journalFile d) (d_epoch d) (d_inFlight d) (d_results d)
    (d_resultOrder d) (d_follower d) v (d_cancel d) (d_io d) (d_wall d).
Definition set_cancel (v : list bool) : DB :=
  MkDB (d_cols d) (d_journal d) (d_format d) (d_journalFile d) (d_epoch d) (d_inFlight d) (d_results d)
    (d_resultOrder d) (d_follower d) (d_feed d) v (d_io d) (d_wall d).
Definition set_world (fs : list fault) (w : list Z) : DB :=
  MkDB (d_cols d) (d_journal d) (d_format d) (d_journalFile d) (d_epoch d) (d_inFlight d) (d_results d)
    (d_resultOrder d) (d_follower d) (d_feed d) (d_cancel d) fs w.
End updates.

(** Actions on the database that may fail. *)
Definition X (A : Type) : Type := DB → DB * res XTxError A.

Definition xret {A} (a : A) : X A := λ d, (d, Ok a).
Definition xthrow {A} (e : XTxError) : X A := λ d, (d, Err e).
Definition xbind {A B} (m : X A) (k : A → X B) : X B :=
  λ d, match m d with (d', Ok a) => k a d' | (d', Err e) => (d', Err e) end.
Definition xget : X DB := λ d, (d, Ok d).
Definition xguard (b : bool) (e : XTxError) : X unit := if b then xthrow e else xret tt.

Declare Scope xdb_scope.
Delimit Scope xdb_scope with xdb.
Notation "x <~ m ; k" := (xbind m (λ x, k))
  (at level 100, m at next level, right associativity) : xdb_scope.
Notation "m ;~ k" := (xbind m (λ _, k)) (at level 100, right associativity) : xdb_scope.
Open Scope xdb_scope.

(** An action of a collection, with its outcome. *)
Definition in_col {A} (name : string) (m : M A) : X (res cerr A) :=
  λ d, match d_cols d !! name with
       | None => (d, Err (xtxErr "" SCollectionNotFound))
       | Some c =>
           let '(st, r) := m (MkSt c (d_io d) (d_wall d)) in
           (set_world (set_cols d (<[name := coll st]> (d_cols d))) (io st) (wall st), Ok r)
       end.

Definition read_wall : X Z :=
  λ d, match d_wall d with [] => (d, Ok 0%Z) | t :: w => (set_world d (d_io d) w, Ok t) end.

(** [lockCtx]: the context may be found cancelled while the lock is waited for. *)
Definition lockCtx : X unit :=
  λ d, match d_cancel d with
       | true :: l => (set_cancel d l, Err xtxCanceled)
       | false :: l => (set_cancel d l, Ok tt)
       | [] => (d, Ok tt)
       end.

Fixpoint xeach {A} (f : A → X unit) (l : list A) : X unit :=
  match l with [] => xret tt | a :: l' => f a ;~ xeach f l' end.

(** ** Validation of point reads *)

(** The state of a document at an instant: absent, or its revision. *)
Definition live_rev (c : Collection) (n id : Z) : option Z :=
  match Get (index c) id with
  | Some loc => if expired (ie_ExpiresAt loc) n then None else Some (ie_Rev loc)
  | None => None
  end.

Definition read_conflict (cols : gmap string Collection) (n : Z) (rc : xtxReadCheck) : option XTxConflictError :=
  let st := cols !! rc_Collection rc ≫= λ c, live_rev c n (rc_ID rc) in
  let present := bool_decide (is_Some st) in
  let rev := default 0%Z st in
  if negb (bool_decide (present = rc_Present rc)) || negb (rev =? rc_Rev rc)%Z
  then Some (MkConflict (rc_Collection rc) (rc_ID rc) (rc_Write rc) (rc_Present rc) (rc_Rev rc) present rev)
  else None.

Definition validateXTxReads (cols : gmap string Collection) (reads : list xtxReadCheck) (n : Z) : res XTxError unit :=
  match omap (read_conflict cols n) reads with
  | ce :: _ => Err (MkXErr "" SConflict (Some ce))
  | [] => Ok tt
  end.

(** ** Planning the writes of one participant *)

(** An operation with what is computed for it before anything is written: the
    data with its reserved key, revision, deadline, stored data, the claim
    checked on the unique indexes, the bytes counted against the quota. *)
Record planned : Type := MkPlanned {
  pl_op : XTxOp;
  pl_rev : Z;
  pl_exp : Z;
  pl_sealed : option vdata;
  pl_claim : txOp;
  pl_bytes : Z
}.

Definition with_xo_data (op : XTxOp) (m : option vdata) : XTxOp :=
  MkXOp (xo_Collection op) (xo_Op op) (xo_ID op) m (xo_ExpectedRev op) (xo_ExpiresAt op) (xo_ts op).

Definition seal_data (c : Collection) (m : option vdata) : res XTxError (option vdata) :=
  match enc c, m with
  | Some en, Some data =>
      match enc_encrypt en data with Some sd => Ok (Some sd) | None => Err (xtxErr "" SConflict) end
  | _, _ => Ok m
  end.

(** The current state of a target, or the refusal. *)
Definition target (c : Collection) (n : Z) (op : XTxOp) : res XTxError IndexEntry :=
  match Get (index c) (xo_ID op) with
  | None => Err (xtxErr "" SConflict)
  | Some loc =>
      if expired (ie_ExpiresAt loc) n then Err (xtxErr "" SConflict)
      else if negb (xo_ExpectedRev op =? 0)%Z && negb (ie_Rev loc =? xo_ExpectedRev op)%Z
      then Err (xtxErr "" SConflict)
      else Ok loc
  end.

(** A nil map updated with the reserved key is the map of the key alone. *)
Definition preserved (c : Collection) (op : XTxOp) : option vdata :=
  let kept := preserveReservedLocked c (xo_ID op) (default ∅ (xo_Data op)) in
  match xo_Data op with
  | Some _ => Some kept
  | None => if decide (kept = ∅) then None else Some kept
  end.

(** [t1] is the time of the claim, [t2] the one of the entry measured for the
    quota. *)
Definition plan_op (c : Collection) (n t1 t2 : Z) (op : XTxOp) : res XTxError planned :=
  if decide (xo_Op op = OpInsert) then
    let exp := if (xo_ExpiresAt op =? 0)%Z then resolveInsertExpiryAt c None n else xo_ExpiresAt op in
    let* sealed := seal_data c (xo_Data op) in
    let bytes := if quotaEnabled c && (0 <? MaxBytes (cfg c))%Z
                 then entryQuotaBytes c (MkEntry (xo_ID op) OpInsert (time_of_nanos t2) 1 (xo_Data op) 0 exp None)
                 else 0%Z in
    Ok (MkPlanned op 1 exp sealed
          (MkTxOp txOpInsert (xo_ID op) (default ∅ (xo_Data op)) (time_of_nanos t1)) bytes)
  else if decide (xo_Op op = OpUpdate) then
    let* loc := target c n op in
    let kept := preserved c op in
    let* sealed := seal_data c kept in
    Ok (MkPlanned (with_xo_data op kept) (u64 (ie_Rev loc + 1))
          (if (xo_ExpiresAt op =? 0)%Z then ie_ExpiresAt loc else xo_ExpiresAt op) sealed
          (MkTxOp txOpUpdate (xo_ID op) (default ∅ (xo_Data op)) (time_of_nanos t1)) 0)
  else if decide (xo_Op op = OpDelete) then
    let* loc := target c n op in
    Ok (MkPlanned op (u64 (ie_Rev loc + 1)) 0 None
          (MkTxOp txOpDelete (xo_ID op) ∅ (time_of_nanos t1)) 0)
  else Err (xtxErr "" SUnknownOp).

Fixpoint plan_ops (c : Collection) (n : Z) (ops : list XTxOp) : X (list planned) :=
  match ops with
  | [] => xret []
  | op :: ops' =>
      t1 <~ read_wall ; t2 <~ read_wall ;
      match plan_op c n t1 t2 op with
      | Err e => xthrow e
      | Ok p => l <~ plan_ops c n ops' ; xret (p :: l)
      end
  end.

Definition new_records (pls : list planned) : Z :=
  Z.of_nat (length (filter (λ p, xo_Op (pl_op p) = OpInsert) pls)).

Definition new_bytes (pls : list planned) : Z := foldl (λ b p, i64 (b + pl_bytes p)) 0%Z pls.

Definition plan_col (n : Z) (ops : list XTxOp) (name : string) : X (list planned) :=
  d <~ xget ;
  match d_cols d !! name with
  | None => xthrow (xtxErr "" SCollectionNotFound)
  | Some c =>
      pls <~ plan_ops c n ops ;
      u <~ in_col name (txCheckUnique (map pl_claim pls)) ;
      match u with
      | Err _ => xthrow (xtxErr "" SConflict)
      | Ok _ =>
          if quotaEnabled c && (0 <? new_records pls)%Z then
            q <~ in_col name (checkQuotaLocked (new_records pls) (new_bytes pls)) ;
            match q with Err _ => xthrow (xtxErr "" SResourceExhausted) | Ok _ => xret pls end
          else xret pls
      end
  end.

(** Every participant in turn, in canonical order. *)
Fixpoint plan_all (n : Z) (ops : list XTxOp) (names : list string) : X (list (string * list planned)) :=
  match names with
  | [] => xret []
  | name :: names' =>
      pls <~ plan_col n (filter (λ op, xo_Collection op = name) ops) name ;
      l <~ plan_all n ops names' ;
      xret ((name, pls) :: l)
  end.

(** ** The runs and the decision *)

Definition epoch_of (c : Collection) : Z := match enc c with Some en => enc_epoch en | None => 0%Z end.

Definition col_epoch (d : DB) (name : string) : Z :=
  match d_cols d !! name with Some c => epoch_of c | None => 0%Z end.

Definition run_entry (nowStr : string) (epoch : Z) (p : planned) : stampedEntry :=
  MkStamped (xo_ID (pl_op p)) (xo_Op (pl_op p)) nowStr (pl_rev p) (pl_sealed p) epoch (pl_exp p)
    (MkStamp "" 0 0) 0.

Definition runs_of (d : DB) (nowStr : string) (pls : list (string * list planned)) : list xtxRun :=
  map (λ np, MkRun np.1 (map (run_entry nowStr (col_epoch d np.1)) np.2)) pls.

Definition env_op (ts : time) (name : string) (epoch : Z) (p : planned) : TxEnvelopeOp :=
  MkEnvOp name (MkEntry (xo_ID (pl_op p)) (xo_Op (pl_op p)) ts (pl_rev p) (pl_sealed p) epoch (pl_exp p) None) None.

Definition env_ops (d : DB) (ts : time) (pls : list (string * list planned)) : list TxEnvelopeOp :=
  concat (map (λ np, map (env_op ts np.1 (col_epoch d np.1)) np.2) pls).

(** With replication on, the payload is normalized and measured first. *)
Definition prepare_envelope (ts : time) (pls : list (string * list planned)) : X (option (list TxEnvelopeOp)) :=
  d <~ xget ;
  match d_feed d with
  | None => xret None
  | Some _ =>
      match prepareEnvelopeOps (env_ops d ts pls) 0 with
      | Err _ => xthrow (xtxErr "" SConflict)
      | Ok (eops, sz) =>
          if (DefaultMaxEnvelopeBytes <? sz)%Z then xthrow (xtxErr "" STooLarge) else xret (Some eops)
      end
  end.

(** The envelope under the transaction's id; one that cannot be sealed aborts it. *)
Definition seal_envelope (txid key : string) (eops : option (list TxEnvelopeOp)) : X (option TxEnvelope) :=
  match eops with
  | None => xret None
  | Some eops =>
      match sealEnvelope txid key eops with
      | Ok env => xret (Some env)
      | Err _ =>
          t <~ read_wall ;
          (λ d, match d_journal d with
                | None => (d, Err (xtxErr txid SConflict))
                | Some j =>
                    let '(j, fs, _) := abort j txid key "client" (time_of_nanos t) (d_io d) in
                    (set_world (set_journal d (Some j)) fs (d_wall d), Err (xtxErr txid SConflict))
                end)
      end
  end.

(** The active segments of the participants; what of them has been forced to disk
    does not matter to a running database. *)
Definition actives_of (cols : gmap string Collection) : gmap string xfile :=
  (λ c, MkXFile (active c) 0) <$> cols.

(** The participant whose fsync fails, if the appends went through. *)
Fixpoint sync_victim (a : gmap string xfile) (runs : list xtxRun) (fs : list fault) : option string :=
  match runs with
  | [] => None
  | r :: runs' =>
      match a !! run_col r with
      | None => None
      | Some f => let '(fs, w) := Sync (xf_seg f) fs in
                  match w with Err _ => Some (run_col r) | Ok _ => sync_victim a runs' fs end
      end
  end.

Definition failed_sync (a : gmap string xfile) (txid : string) (runs : list xtxRun) (fs : list fault) : option string :=
  let '(a, fs, _, w) := append_runs a txid runs ∅ ∅ fs in
  match w with Ok _ => sync_victim a runs fs | Err _ => None end.

(** A segment poisoned by a failed truncation fences its collection through the
    poison hook; a failed fsync sets the poison without it. *)
Definition put_active (victim : option string) (a : gmap string xfile) (name : string) (c : Collection) : Collection :=
  match a !! name with
  | None => c
  | Some f =>
      let c1 := set_active c (xf_seg f) in
      if poisoned (xf_seg f) && negb (poisoned (active c)) && negb (bool_decide (victim = Some name)) then
        match fenced c1 with None => set_fenced c1 (Some "truncate") | Some _ => c1 end
      else c1
  end.

Definition prepare_decide (key txid : string) (runs : list xtxRun) : X (gmap string (list nat)) :=
  tc <~ read_wall ; ta <~ read_wall ;
  (λ d, match d_journal d with
        | None => (d, Err (xtxErr "" (SJournal (inr JClosed))))
        | Some j =>
            let a := actives_of (d_cols d) in
            let victim := failed_sync a txid runs (d_io d) in
            let '(j, a, fs, _, r) :=
              xtxPrepareAndDecide j a key txid runs None (time_of_nanos tc) (time_of_nanos ta) (d_io d) in
            (set_world (set_journal (set_cols d (map_imap (λ n c, Some (put_active victim a n c)) (d_cols d))) (Some j))
               fs (d_wall d),
             match r with Ok offs => Ok offs | Err e => Err (of_prepare e) end)
        end).

(** ** Applying and publishing *)

Definition apply_op (epoch : Z) (p : planned) (off : nat) : M unit :=
  let op := pl_op p in
  if decide (xo_Op op = OpInsert) then
    (index_set (xo_ID op) off (pl_rev p) (pl_exp p) epoch ;;; sidxIndexEntry (xo_ID op) (default ∅ (xo_Data op)))%scriva
  else if decide (xo_Op op = OpUpdate) then
    (index_set (xo_ID op) off (pl_rev p) (pl_exp p) epoch ;;; sidxUpdateEntry (xo_ID op) (default ∅ (xo_Data op)))%scriva
  else if decide (xo_Op op = OpDelete) then
    (index_delete (xo_ID op) ;;; sidxRemoveEntry (xo_ID op))%scriva
  else ret tt.

Fixpoint apply_ops (epoch : Z) (pls : list planned) (offs : list nat) : M unit :=
  match pls, offs with
  | p :: pls', off :: offs' => (apply_op epoch p off ;;; apply_ops epoch pls' offs')%scriva
  | _, _ => ret tt
  end.

Definition max_inserted (pls : list planned) : Z :=
  foldl (λ m p, if decide (xo_Op (pl_op p) = OpInsert) then Z.max m (xo_ID (pl_op p)) else m) 0%Z pls.

Definition raise_idSeq (id : Z) : M unit :=
  modify (λ c, if (0 <? id)%Z && (idSeq c <? id)%Z then set_idSeq c id else c).

(** One participant: its indexes, its id counter, whether its segment is full. *)
Definition apply_col (offs : gmap string (list nat)) (np : string * list planned) : X bool :=
  d <~ xget ;
  in_col np.1 (apply_ops (col_epoch d np.1) np.2 (default [] (offs !! np.1))) ;~
  in_col np.1 (raise_idSeq (max_inserted np.2)) ;~
  d <~ xget ;
  xret (match d_cols d !! np.1 with Some c => needRotate c | None => false end).

Fixpoint apply_all (offs : gmap string (list nat)) (pls : list (string * list planned)) : X (list (string * list planned * bool)) :=
  match pls with
  | [] => xret []
  | np :: pls' => due <~ apply_col offs np ; l <~ apply_all offs pls' ; xret ((np, due) :: l)
  end.

Definition op_result (name : string) (p : planned) : XTxOpResult :=
  MkOpRes name (xo_ID (pl_op p)) (pl_rev p) (xo_Op (pl_op p)).

Definition publish_env (env : option TxEnvelope) : X unit :=
  λ d, (match env, d_feed d with Some e, Some l => set_feed d (Some (l ++ [e])) | _, _ => d end, Ok tt).

Definition emit_op (ts : time) (np : string * list planned) (p : planned) : X unit :=
  in_col np.1 (emit (MkEvent (xo_Op (pl_op p)) (xo_ID (pl_op p)) (xo_Data (pl_op p)) ts)) ;~ xret tt.

(** S6 of one participant: rotation, then the id counter. *)
Definition post_col (npd : string * list planned * bool) : X (option cerr) :=
  let '(name, pls, due) := npd in
  r <~ in_col name (rotate_post due) ;
  m <~ (if (0 <? max_inserted pls)%Z then in_col name writeMeta else xret (Ok true)) ;
  xret (match r with
        | Ok (Some e) => Some e
        | _ => match m with Ok true => None | _ => Some ErrPersist end
        end).

Fixpoint post_cols (l : list (string * list planned * bool)) : X (option cerr) :=
  match l with
  | [] => xret None
  | npd :: l' =>
      e <~ post_col npd ; e' <~ post_cols l' ;
      xret (match e with Some _ => e | None => e' end)
  end.

Definition post_commit (ts : time) (l : list (string * list planned * bool)) : X (option cerr) :=
  xeach (λ npd, xeach (emit_op ts npd.1) npd.1.2) l ;~ post_cols l.

(** ** The commit *)

(** The commit instant: the latest clock of the participants. *)
Fixpoint commit_instant (n : Z) (names : list string) : X Z :=
  match names with
  | [] => xret n
  | name :: names' =>
      r <~ in_col name now ;
      commit_instant (match r with Ok t => if (n <? t)%Z then t else n | Err _ => n end) names'
  end.

Definition fenced_any (cols : gmap string Collection) (names : list string) : bool :=
  existsb (λ n, match cols !! n with Some c => is_fenced c | None => false end) names.

Definition poisoned_any (cols : gmap string Collection) (names : list string) : bool :=
  existsb (λ n, match cols !! n with Some c => poisoned (active c) | None => false end) names.

Definition alloc_txid (key : string) : X string :=
  λ d, match d_journal d with
       | None => (d, Err (xtxErr "" (SJournal (inr JClosed))))
       | Some j => let '(j, r) := allocateTxID j key in
                   (set_journal d (Some j),
                    match r with Ok tx => Ok tx | Err e => Err (of_journal "" e) end)
       end.

Definition commitXTxLocked (key : string) (ops : list XTxOp) (reads : list xtxReadCheck) (parts locked : list string)
    : X (XTxResult * (time * list (string * list planned * bool))) :=
  d <~ xget ;
  xguard (fenced_any (d_cols d) locked) (xtxErr "" SDurability) ;~
  n <~ commit_instant 0 parts ;
  d <~ xget ;
  match validateXTxReads (d_cols d) reads n with
  | Err e => xthrow e
  | Ok _ =>
      xguard (poisoned_any (d_cols d) parts) (xtxErr "" SDurability) ;~
      pls <~ plan_all n ops parts ;
      t <~ read_wall ;
      let ts := default (time_of_nanos t) (head ops ≫= xo_ts) in
      let nowStr := s_of_b (fmt_time ts) in
      eops <~ prepare_envelope ts pls ;
      txid <~ alloc_txid key ;
      env <~ seal_envelope txid key eops ;
      d <~ xget ;
      offs <~ prepare_decide key txid (runs_of d nowStr pls) ;
      l <~ apply_all offs pls ;
      publish_env env ;~
      xret (MkXRes txid (concat (map (λ np, map (op_result np.1) np.2) pls)) false None, (ts, l))
  end.

(** ** Admission *)

(** The loop over the operations: the collections named, and a rough size. *)
Fixpoint group_ops (cols : gmap string Collection) (seen : gset (string * Z)) (size_ : Z) (ops : list XTxOp)
    : res XTxError Z :=
  match ops with
  | [] => Ok size_
  | op :: ops' =>
      if decide (xo_Collection op = "") then Err (xtxErr "" SEmptyName)
      else match (match cols !! xo_Collection op with
                  | Some _ => Ok tt
                  | None => ValidateCollectionName (xo_Collection op) end) with
      | Err e => Err (xtxErr "" (SName e))
      | Ok _ =>
          if decide ((xo_Collection op, xo_ID op) ∈ seen) then Err (xtxErr "" SConflict)
          else group_ops cols ({[(xo_Collection op, xo_ID op)]} ∪ seen)
                 (size_ + 128 + Z.of_nat (String.length (xo_Collection op)) +
                  (match xo_Data op with Some _ => 256 | None => 0 end)) ops'
      end
  end.

Definition names_of (l : list string) : list string := ssort str_ltb (remove_dups l).

(** The locks of a commit, in canonical order: the participants and every
    collection that is only read, once per document read in it. *)
Definition lock_names (parts : list string) (reads : list xtxReadCheck) : list string :=
  ssort str_ltb (parts ++ filter (λ n, n ∉ parts) (map rc_Collection reads)).

(** [lockXTxCollections]: every collection must exist, then each lock is waited
    for, with a last look at the context. *)
Definition lockXTxCollections (names : list string) : X unit :=
  d <~ xget ;
  xguard (existsb (λ n, bool_decide (d_cols d !! n = None)) names) (xtxErr "" SCollectionNotFound) ;~
  xeach (λ _, lockCtx) names ;~ lockCtx.

Definition ensureXTxJournal : X unit :=
  t <~ read_wall ;
  (λ d, match d_journal d with
        | Some _ => (d, Ok tt)
        | None =>
            let '(fmt, file, fs, r) :=
              openOrCreateXTxJournal (d_format d) (d_journalFile d) "v1.4.0" (d_epoch d) (time_of_nanos t) (d_io d) in
            let d := set_world (set_root d fmt file) fs (d_wall d) in
            match r with
            | Ok j => (set_journal d (Some j), Ok tt)
            | Err e => (d, Err (xtxErr "" (SJournal e)))
            end
        end).

(** ** Results kept for replays *)

Definition xtxResultCacheSize : nat := 4096.

Definition rememberResult (key : string) (r : XTxResult) : X unit :=
  λ d, (match d_results d !! key with
        | Some _ => set_results d (<[key := r]> (d_results d)) (d_resultOrder d)
        | None =>
            let order := d_resultOrder d ++ [key] in
            if xtxResultCacheSize <? length order then
              set_results d (<[key := r]> (match order with o :: _ => delete o (d_results d) | [] => d_results d end))
                (tail order)
            else set_results d (<[key := r]> (d_results d)) order
        end, Ok tt).

Definition cachedResult (d : DB) (key txid : string) : option XTxResult :=
  match d_results d !! key with
  | Some r => if decide (xr_TxID r = txid) then Some (MkXRes (xr_TxID r) (xr_Ops r) true (xr_postErr r)) else None
  | None => None
  end.

(** The outcome of a key that already committed. *)
Definition replayed (d : DB) (key : string) (ops : list XTxOp) : option XTxResult :=
  match d_journal d with
  | None => None
  | Some j =>
      match statusByKey head j key with
      | (XTxCommitted, prev) =>
          Some (match cachedResult d key prev with
                | Some r => r
                | None => MkXRes prev (map (λ op, MkOpRes (xo_Collection op) (xo_ID op) 1 (xo_Op op)) ops) true None
                end)
      | _ => None
      end
  end.

(** From the journal on: locks, the commit under them, the work after them. *)
Definition commit_locked (key : string) (ops : list XTxOp) (reads : list xtxReadCheck) : X XTxResult :=
  ensureXTxJournal ;~
  lockCtx ;~
  let parts := names_of (map xo_Collection ops) in
  let locked := lock_names parts reads in
  lockXTxCollections locked ;~
  out <~ commitXTxLocked key ops reads parts locked ;
  let '(r, (ts, l)) := out in
  postErr <~ post_commit ts l ;
  let r := MkXRes (xr_TxID r) (xr_Ops r) (xr_Replayed r) postErr in
  (if decide (key = "") then xret tt else rememberResult key r) ;~
  xret r.

Definition end_inFlight {A} (key : string) (m : X A) : X A :=
  λ d, let '(d, r) := m d in (set_inFlight d (d_inFlight d ∖ {[key]}), r).

Definition commit_keyed (key : string) (ops : list XTxOp) (reads : list xtxReadCheck) : X XTxResult :=
  if decide (key = "") then commit_locked key ops reads
  else
    d <~ xget ;
    if decide (key ∈ d_inFlight d) then xthrow (xtxErr "" SInProgress)
    else
      (λ d, (set_inFlight d ({[key]} ∪ d_inFlight d), Ok tt)) ;~
      end_inFlight key
        (d <~ xget ;
         match replayed d key ops with
         | Some r => xret r
         | None => commit_locked key ops reads
         end).

Definition commitXTx (key : string) (ops : list XTxOp) (reads : list xtxReadCheck) : X XTxResult :=
  match ops with
  | [] => xthrow (xtxErr "" SEmptyTx)
  | _ =>
      d <~ xget ;
      xguard (xtxMaxKeyLen <? String.length key) (xtxErr "" STooLarge) ;~
      xguard (d_follower d) (xtxErr "" SReadOnly) ;~
      lockCtx ;~
      match group_ops (d_cols d) ∅ 0 ops with
      | Err e => xthrow e
      | Ok sz =>
          match limits_check defaultXTxLimits (Z.of_nat (length ops))
                  (Z.of_nat (length (names_of (map xo_Collection ops)))) sz with
          | Err e => xthrow (of_journal "" e)
          | Ok _ => commit_keyed key ops reads
          end
      end
  end.

(** [validateXTxReadSet]: the commit of a transaction with no writes. *)
Definition validateXTxReadSet (reads : list xtxReadCheck) : X unit :=
  match reads with
  | [] => xret tt
  | _ =>
      lockCtx ;~
      let names := names_of (map rc_Collection reads) in
      lockXTxCollections names ;~
      n <~ commit_instant 0 names ;
      d <~ xget ;
      match validateXTxReads (d_cols d) reads n with Err e => xthrow e | Ok _ => xret tt end
  end.
