(* ===== verification/XDbThm.v ===== *)
(** * A commit applies all of its writes or none: [engine/xtx_commit.go]

    What a reader of a running database sees of a document is its entry in the
    primary index of its collection; [idx] is that view of the database.  Every
    part of a commit but the last leaves it alone ([quiet]); the last one is
    [apply_all], whose effect on each index entry is [applied_effect].  Up to the
    decision a collection changes only by its clock ([timed]), so that the plan is
    the one of the database the commit started from; the decision leaves the lines
    of the runs in the active segments ([run_written]), and the work after it keeps
    their bytes ([segs_held]), a rotation included.  [instant] is the clock value
    all checks of a commit are made at. *)
From Stdlib Require Import Ascii Lia ZArith.
From stdpp Require Import prelude gmap strings sorting.
From S2P Require Import Prelude.
From S2P Require Import Json.
From S2P Require Import Value.
From S2P Require Import GoTime.
From S2P Require Import Store.
From S2P Require Import Wire.
From S2P Require Import Codec.
From S2P Require Import Segment.
From S2P Require Import Index.
From S2P Require Import SecondaryIndex.
From S2P Require Import Collection.
From S2P Require Import Batch.
From S2P Require Import Journal.
From S2P Require Import Names.
From S2P Require Import XTx.
From S2P Require Import Format.
From S2P Require Import Envelope.
From S2P Require Import XDb.

(** ** Actions of a collection that keep its index *)

Definition keeps {A} (m : M A) : Prop := ∀ st, index (coll (m st).1) = index (coll st).

Lemma index_keeps_ret {A} (a : A) : keeps (ret a). Proof. done. Qed.
Lemma index_keeps_throw {A} e : keeps (A := A) (throw e). Proof. done. Qed.
Lemma index_keeps_get : keeps get_coll. Proof. done. Qed.
Lemma index_keeps_io : keeps io_call.
Proof. intros st. unfold io_call. by destruct (next_fault (io st)). Qed.
Lemma keeps_wall : keeps wall_now.
Proof. intros st. unfold wall_now. by destruct (wall st). Qed.

Lemma index_keeps_modify f : (∀ c, index (f c) = index c) → keeps (modify f).
Proof. intros H st. apply H. Qed.

Lemma index_keeps_bind {A B} (m : M A) (k : A → M B) : keeps m → (∀ a, keeps (k a)) → keeps (Collection.bind m k).
Proof.
  intros Hm Hk st. unfold Collection.bind. specialize (Hm st). destruct (m st) as [st' [a|e]]; simpl in *; [|done].
  by rewrite Hk.
Qed.

Lemma index_keeps_guard b e : keeps (guard_err b e).
Proof. by destruct b. Qed.

Lemma keeps_on_active {A} f : keeps (on_active (A := A) f).
Proof. intros st. unfold on_active. by destruct (f (active (coll st)) (io st)) as [[s fs] r]. Qed.

Lemma keeps_open p b : keeps (open_segment p b).
Proof. intros st. unfold open_segment. by destruct (openActiveSegment p b (io st)) as [[s fs] r]. Qed.

Create HintDb keeps.
#[export] Hint Resolve index_keeps_ret index_keeps_throw index_keeps_get index_keeps_io keeps_wall index_keeps_guard keeps_on_active keeps_open : keeps.

Ltac keeps_step :=
  match goal with
  | |- keeps (Collection.bind _ _) => apply index_keeps_bind; [|intros ?]
  | |- keeps (modify _) => apply index_keeps_modify; intros ?
  | |- keeps (match ?x with _ => _ end) => destruct x
  | |- keeps (let _ := _ in _) => cbv zeta
  | |- _ => solve [auto with keeps]
  | |- index _ = index _ => repeat (match goal with |- context [match ?x with _ => _ end] => destruct x end); reflexivity
  end.
Ltac keeps_solve := repeat keeps_step.

Lemma keeps_now : keeps now. Proof. unfold now. keeps_solve. Qed.
Lemma keeps_fence op : keeps (fence op). Proof. unfold fence. keeps_solve. Qed.
#[export] Hint Resolve keeps_now keeps_fence : keeps.

Lemma keeps_unique ops : keeps (txCheckUnique ops). Proof. unfold txCheckUnique. keeps_solve. Qed.
Lemma keeps_quota a b : keeps (checkQuotaLocked a b). Proof. unfold checkQuotaLocked. keeps_solve. Qed.
Lemma keeps_raise id : keeps (raise_idSeq id). Proof. unfold raise_idSeq. keeps_solve. Qed.
Lemma keeps_meta : keeps writeMeta. Proof. unfold writeMeta. keeps_solve. Qed.
#[export] Hint Resolve keeps_meta : keeps.

Lemma keeps_emit ev : keeps (emit ev).
Proof.
  unfold emit. apply index_keeps_bind; [auto with keeps|]. intros c. generalize (map_to_list (watchers c)). intros ws.
  induction ws as [|[id w] ws IH]; simpl; [auto with keeps|]. keeps_solve.
Qed.

Lemma keeps_rotate due : keeps (rotate_post due).
Proof. unfold rotate_post, rotateSegment. keeps_solve. Qed.
#[export] Hint Resolve keeps_unique keeps_quota keeps_raise keeps_emit keeps_rotate : keeps.

(** ** Actions of the database that keep every index *)

Definition idx (d : DB) : gmap string (gmap Z IndexEntry) := (λ c, entries (index c)) <$> d_cols d.

Definition quiet {A} (m : X A) : Prop := ∀ d, idx (m d).1 = idx d.

Lemma quiet_run {A} (m : X A) d d' r : quiet m → m d = (d', r) → idx d' = idx d.
Proof. intros H Hm. specialize (H d). by rewrite Hm in H. Qed.

Lemma db_quiet_ret {A} (a : A) : quiet (xret a). Proof. done. Qed.
Lemma quiet_throw {A} e : quiet (A := A) (xthrow e). Proof. done. Qed.
Lemma quiet_get : quiet xget. Proof. done. Qed.
Lemma quiet_guard b e : quiet (xguard b e). Proof. by destruct b. Qed.
Lemma quiet_wall : quiet read_wall.
Proof. intros d. unfold read_wall. by destruct (d_wall d). Qed.
Lemma quiet_lock : quiet lockCtx.
Proof. intros d. unfold lockCtx. by destruct (d_cancel d) as [|[] l]. Qed.

Lemma db_quiet_bind {A B} (m : X A) (k : A → X B) : quiet m → (∀ a, quiet (k a)) → quiet (xbind m k).
Proof.
  intros Hm Hk d. unfold xbind. specialize (Hm d). destruct (m d) as [d' [a|e]]; simpl in *; [|done].
  by rewrite Hk.
Qed.

Lemma quiet_in_col {A} name (m : M A) : keeps m → quiet (in_col name m).
Proof.
  intros H d. unfold in_col. destruct (d_cols d !! name) as [c|] eqn:Hc; [|done].
  specialize (H (MkSt c (d_io d) (d_wall d))). destruct (m _) as [st r]. simpl in *. unfold idx. simpl.
  rewrite fmap_insert, H. apply insert_id. by rewrite lookup_fmap, Hc.
Qed.

Create HintDb quiet.
#[export] Hint Resolve db_quiet_ret quiet_throw quiet_get quiet_guard quiet_wall quiet_lock quiet_in_col : quiet.

Ltac quiet_step :=
  match goal with
  | |- quiet (xbind _ _) => apply db_quiet_bind; [|intros ?]
  | |- quiet (match ?x with _ => _ end) => destruct x
  | |- quiet (in_col _ _) => apply quiet_in_col; auto with keeps
  | |- quiet (let _ := _ in _) => cbv zeta
  | |- quiet (let '(_, _) := ?x in _) => destruct x
  | |- _ => solve [auto with quiet]
  end.
Ltac quiet_solve := repeat quiet_step.

Lemma quiet_each {A} (f : A → X unit) l : (∀ a, quiet (f a)) → quiet (xeach f l).
Proof. intros H. induction l; simpl; quiet_solve. Qed.

Lemma quiet_plan_ops c n ops : quiet (plan_ops c n ops).
Proof. induction ops; simpl; quiet_solve. Qed.
#[export] Hint Resolve quiet_plan_ops : quiet.

Lemma quiet_plan_col n ops name : quiet (plan_col n ops name).
Proof. unfold plan_col. quiet_solve. Qed.
#[export] Hint Resolve quiet_plan_col : quiet.

Lemma quiet_plan_all n ops names : quiet (plan_all n ops names).
Proof. induction names; simpl; quiet_solve. Qed.

Lemma quiet_instant n names : quiet (commit_instant n names).
Proof. revert n. induction names; intros n; simpl; quiet_solve. Qed.

Lemma quiet_envelope ts pls : quiet (prepare_envelope ts pls).
Proof. unfold prepare_envelope. quiet_solve. Qed.

Lemma quiet_alloc key : quiet (alloc_txid key).
Proof. intros d. unfold alloc_txid. destruct (d_journal d); [|done]. by destruct (allocateTxID _ _). Qed.

Lemma quiet_seal txid key eops : quiet (seal_envelope txid key eops).
Proof.
  unfold seal_envelope. quiet_solve. intros d. destruct (d_journal d); [|done].
  by destruct (abort _ _ _ _ _ _) as [[j fs] r].
Qed.

Lemma put_active_index v a name c : index (put_active v a name c) = index c.
Proof.
  unfold put_active. destruct (a !! name); [|done]. destruct (_ && _); [|done].
  by destruct (fenced _).
Qed.

Lemma quiet_decide key txid runs : quiet (prepare_decide key txid runs).
Proof.
  unfold prepare_decide. quiet_solve. intros d. destruct (d_journal d) as [j|]; [|done].
  destruct (xtxPrepareAndDecide _ _ _ _ _ _ _ _ _) as [[[[j' a'] fs] b] r]. simpl. unfold idx. simpl.
  apply map_eq. intros n. rewrite !lookup_fmap, map_lookup_imap.
  destruct (d_cols d !! n); simpl; [by rewrite put_active_index|done].
Qed.

Lemma quiet_publish env : quiet (publish_env env).
Proof. intros d. unfold publish_env. by destruct env, (d_feed d). Qed.

Lemma quiet_post_col npd : quiet (post_col npd).
Proof. destruct npd as [[name pls] due]. unfold post_col. quiet_solve. Qed.
#[export] Hint Resolve quiet_post_col : quiet.

Lemma quiet_post ts l : quiet (post_commit ts l).
Proof.
  unfold post_commit. apply db_quiet_bind.
  - apply quiet_each. intros npd. apply quiet_each. intros p. unfold emit_op. quiet_solve.
  - intros _. induction l; simpl; quiet_solve.
Qed.

Lemma quiet_ensure : quiet ensureXTxJournal.
Proof.
  unfold ensureXTxJournal. quiet_solve. intros d. destruct (d_journal d); [done|].
  by destruct (openOrCreateXTxJournal _ _ _ _ _ _) as [[[fmt file] fs] [j|e]].
Qed.

Lemma quiet_locks names : quiet (lockXTxCollections names).
Proof. unfold lockXTxCollections. quiet_solve. apply quiet_each. intros _. quiet_solve. Qed.

Lemma quiet_remember key r : quiet (rememberResult key r).
Proof. intros d. unfold rememberResult. destruct (d_results d !! key); [done|]. by destruct (_ <? _). Qed.
#[export] Hint Resolve quiet_plan_all quiet_instant quiet_envelope quiet_alloc quiet_seal quiet_decide quiet_publish
  quiet_post quiet_ensure quiet_locks quiet_remember : quiet.

(** ** What an action does to each collection *)

(** Every collection stays, and is related to what it was. *)
Definition db_rel (R : relation Collection) (d d' : DB) : Prop :=
  ∀ name, option_Forall2 R (d_cols d !! name) (d_cols d' !! name).

Lemma db_rel_same R `{!Reflexive R} d d' : d_cols d' = d_cols d → db_rel R d d'.
Proof. intros H name. rewrite H. destruct (d_cols d !! name); by constructor. Qed.

Lemma db_rel_trans R `{!Transitive R} d1 d2 d3 : db_rel R d1 d2 → db_rel R d2 d3 → db_rel R d1 d3.
Proof.
  intros H1 H2 name. specialize (H1 name). specialize (H2 name).
  destruct H1; inversion H2; subst; constructor. by etrans.
Qed.

Lemma db_rel_r R d d' name c' : db_rel R d d' → d_cols d' !! name = Some c' → ∃ c, d_cols d !! name = Some c ∧ R c c'.
Proof. intros H Hc. specialize (H name). rewrite Hc in H. inversion H; subst. eauto. Qed.

Lemma db_rel_l R d d' name c : db_rel R d d' → d_cols d !! name = Some c → ∃ c', d_cols d' !! name = Some c' ∧ R c c'.
Proof. intros H Hc. specialize (H name). rewrite Hc in H. inversion H; subst. eauto. Qed.

Section carried.
Context (R : relation Collection) `{!PreOrder R}.

Definition carries {A} (m : M A) : Prop := ∀ st, R (coll st) (coll (m st).1).
Definition spreads {A} (m : X A) : Prop := ∀ d, db_rel R d (m d).1.

Lemma carries_bind {A B} (m : M A) (k : A → M B) : carries m → (∀ a, carries (k a)) → carries (Collection.bind m k).
Proof.
  intros Hm Hk st. unfold Collection.bind. specialize (Hm st). destruct (m st) as [st' [a|e]]; simpl in *; [|done].
  by etrans; [|apply Hk].
Qed.

Lemma carries_same {A} (m : M A) : (∀ st, coll (m st).1 = coll st) → carries m.
Proof. intros H st. by rewrite H. Qed.

Lemma carries_modify f : (∀ c, R c (f c)) → carries (modify f).
Proof. intros H st. apply H. Qed.

Lemma spreads_bind {A B} (m : X A) (k : A → X B) : spreads m → (∀ a, spreads (k a)) → spreads (xbind m k).
Proof.
  intros Hm Hk d. unfold xbind. specialize (Hm d). destruct (m d) as [d' [a|e]]; simpl in *; [|done].
  eapply (db_rel_trans R); [exact Hm|apply Hk].
Qed.

Lemma spreads_same {A} (m : X A) : (∀ d, d_cols (m d).1 = d_cols d) → spreads m.
Proof. intros H d. by apply (db_rel_same R). Qed.

Lemma spreads_in_col {A} name (m : M A) : carries m → spreads (in_col name m).
Proof.
  intros H d. unfold in_col. destruct (d_cols d !! name) as [c|] eqn:Hc; [|by apply (db_rel_same R)].
  specialize (H (MkSt c (d_io d) (d_wall d))). destruct (m _) as [st r]. simpl in *. intros n. simpl.
  destruct (decide (n = name)) as [->|Hne]; [rewrite lookup_insert_eq, Hc; by constructor|].
  rewrite lookup_insert_ne by done. destruct (d_cols d !! n); by constructor.
Qed.

Lemma spreads_each {A} (f : A → X unit) l : (∀ a, spreads (f a)) → spreads (xeach f l).
Proof. intros H. induction l; simpl; [by apply spreads_same|]. apply spreads_bind; [done|by intros _]. Qed.

Lemma spreads_run {A} (m : X A) d d' r : spreads m → m d = (d', r) → db_rel R d d'.
Proof. intros H Hm. specialize (H d). by rewrite Hm in H. Qed.
End carried.
Arguments carries R {A} m : assert.
Arguments spreads R {A} m : assert.

(** Actions that leave the collections, and those that leave the clock readings too. *)
Definition still {A} (m : X A) : Prop := ∀ d, d_cols (m d).1 = d_cols d.
Definition steady {A} (m : X A) : Prop := ∀ d, d_cols (m d).1 = d_cols d ∧ d_wall (m d).1 = d_wall d.

Lemma still_bind {A B} (m : X A) (k : A → X B) : still m → (∀ a, still (k a)) → still (xbind m k).
Proof.
  intros Hm Hk d. unfold xbind. specialize (Hm d). destruct (m d) as [d' [a|e]]; simpl in *; [|done].
  by rewrite Hk.
Qed.
Lemma still_wall : still read_wall.
Proof. intros d. unfold read_wall. by destruct (d_wall d). Qed.

Lemma steady_bind {A B} (m : X A) (k : A → X B) : steady m → (∀ a, steady (k a)) → steady (xbind m k).
Proof.
  intros Hm Hk d. unfold xbind. specialize (Hm d). destruct (m d) as [d' [a|e]]; simpl in *; [|done].
  destruct (Hk a d'), Hm. split; congruence.
Qed.
Lemma steady_lock : steady lockCtx.
Proof. intros d. unfold lockCtx. by destruct (d_cancel d) as [|[] l]. Qed.
Lemma steady_guard b e : steady (xguard b e). Proof. by destruct b. Qed.
Lemma steady_locks names : steady (lockXTxCollections names).
Proof.
  unfold lockXTxCollections. apply steady_bind; [done|]. intros d0. apply steady_bind; [apply steady_guard|]. intros _.
  apply steady_bind; [|intros _; apply steady_lock]. induction names; simpl; [done|].
  apply steady_bind; [apply steady_lock|by intros _].
Qed.
Lemma steady_run {A} (m : X A) d d' r : steady m → m d = (d', r) → d_cols d' = d_cols d ∧ d_wall d' = d_wall d.
Proof. intros H Hm. specialize (H d). by rewrite Hm in H. Qed.

Lemma still_run {A} (m : X A) d d' r : still m → m d = (d', r) → d_cols d' = d_cols d.
Proof. intros H Hm. specialize (H d). by rewrite Hm in H. Qed.

Lemma still_plan_ops c n ops : still (plan_ops c n ops).
Proof.
  induction ops as [|op ops IH]; simpl; [done|]. apply still_bind; [apply still_wall|]. intros t1.
  apply still_bind; [apply still_wall|]. intros t2. destruct (plan_op c n t1 t2 op); [|done].
  apply still_bind; [done|by intros ?].
Qed.

Lemma still_envelope ts pls : still (prepare_envelope ts pls).
Proof.
  unfold prepare_envelope. apply still_bind; [done|]. intros d. destruct (d_feed d); [|done].
  destruct (prepareEnvelopeOps _ _) as [[eops sz]|]; [|done]. by destruct (_ <? _)%Z.
Qed.

Lemma still_alloc key : still (alloc_txid key).
Proof. intros d. unfold alloc_txid. destruct (d_journal d); [|done]. by destruct (allocateTxID _ _). Qed.

Lemma still_seal txid key eops : still (seal_envelope txid key eops).
Proof.
  unfold seal_envelope. destruct eops as [eops|]; [|done]. destruct (sealEnvelope _ _ _); [done|].
  apply still_bind; [apply still_wall|]. intros t d. destruct (d_journal d); [|done].
  by destruct (abort _ _ _ _ _ _) as [[j fs] r].
Qed.

Lemma still_publish env : still (publish_env env).
Proof. intros d. unfold publish_env. by destruct env, (d_feed d). Qed.

Lemma still_remember key r : still (rememberResult key r).
Proof. intros d. unfold rememberResult. destruct (d_results d !! key); [done|]. by destruct (_ <? _). Qed.

(** Opening the journal reads the clock once. *)
Lemma ensure_world d d' r : ensureXTxJournal d = (d', r) → d_cols d' = d_cols d ∧ d_wall d' = tail (d_wall d).
Proof.
  unfold ensureXTxJournal, xbind.
  assert (∃ t d1, read_wall d = (d1, Ok t) ∧ d_cols d1 = d_cols d ∧ d_wall d1 = tail (d_wall d)) as (t & d1 & -> & Hc & Hw).
  { unfold read_wall. destruct (d_wall d) eqn:E; eexists _, _; (split; [reflexivity|]); simpl; by rewrite ?E. }
  destruct (d_journal d1); [by intros [= <- <-]|].
  destruct (openOrCreateXTxJournal _ _ _ _ _ _) as [[[fmt file] fs] [j|e]]; by intros [= <- <-].
Qed.

(** *** The clock only *)

Definition timed (c c' : Collection) : Prop := ∃ t, c' = set_clockFloor c t.

#[export] Instance timed_preorder : PreOrder timed.
Proof.
  split.
  - intros c. exists (clockFloor c). by destruct c.
  - intros c1 c2 c3 [t ->] [u ->]. by exists u.
Qed.

Lemma timed_now : carries timed now.
Proof.
  intros st. unfold now, wall_now, Collection.bind, get_coll, Collection.modify, ret.
  destruct st as [c fs [|t w]]; simpl; (destruct (_ <=? _)%Z; simpl; [done|by eexists]).
Qed.

Lemma timed_unique ops : carries timed (txCheckUnique ops).
Proof.
  unfold txCheckUnique. apply carries_bind; [apply _|apply timed_now|]. intros n.
  apply carries_same; [apply _|]. intros st. unfold Collection.bind, get_coll. by destruct (tx_check_ops _ _ _ _).
Qed.

Lemma timed_quota a b : carries timed (checkQuotaLocked a b).
Proof.
  apply carries_same; [apply _|]. intros st. unfold checkQuotaLocked, Collection.bind, get_coll, guard_err.
  by destruct (quota_exceeded _ _ _).
Qed.

Lemma timed_instant n names : spreads timed (commit_instant n names).
Proof.
  revert n. induction names as [|name names IH]; intros n; simpl; [by apply spreads_same; [apply _|]|].
  apply spreads_bind; [apply _| |done]. apply spreads_in_col; [apply _|apply timed_now].
Qed.

Lemma timed_plan_col n ops name : spreads timed (plan_col n ops name).
Proof.
  unfold plan_col. apply spreads_bind; [apply _|by apply spreads_same; [apply _|]|]. intros d.
  destruct (d_cols d !! name) as [c|]; [|by apply spreads_same; [apply _|]].
  apply spreads_bind; [apply _|apply spreads_same; [apply _|apply still_plan_ops]|]. intros pls.
  apply spreads_bind; [apply _|apply spreads_in_col; [apply _|apply timed_unique]|].
  intros [u|e]; [|by apply spreads_same; [apply _|]].
  destruct (_ && _); [|by apply spreads_same; [apply _|]].
  apply spreads_bind; [apply _|apply spreads_in_col; [apply _|apply timed_quota]|].
  intros [q|e]; by apply spreads_same; [apply _|].
Qed.

Lemma timed_plan_all n ops names : spreads timed (plan_all n ops names).
Proof.
  induction names as [|name names IH]; simpl; [by apply spreads_same; [apply _|]|].
  apply spreads_bind; [apply _|apply timed_plan_col|]. intros pls.
  apply spreads_bind; [apply _|done|]. intros l. by apply spreads_same; [apply _|].
Qed.

(** *** The segments *)

Definition segs (c : Collection) : list Segment := sealedSegs c ++ [active c].

(** A file that ends with a whole line keeps its bytes. *)
Definition segs_held (c c' : Collection) : Prop :=
  ∀ s, s ∈ segs c → last (disk s) = Some newline → ∃ s', s' ∈ segs c' ∧ path s' = path s ∧ disk s' = disk s.

#[export] Instance segs_held_preorder : PreOrder segs_held.
Proof.
  split.
  - intros c s Hs _. eauto.
  - intros c1 c2 c3 H1 H2 s Hs Hl. destruct (H1 s Hs Hl) as (s1 & Hs1 & Hp1 & Hd1).
    destruct (H2 s1 Hs1) as (s2 & Hs2 & Hp2 & Hd2); [by rewrite Hd1|]. exists s2. split_and!; congruence.
Qed.

Lemma held_same c c' : sealedSegs c' = sealedSegs c → active c' = active c → segs_held c c'.
Proof. intros H1 H2 s Hs _. exists s. unfold segs. by rewrite H1, H2. Qed.

(** The active file is replaced by one of the same bytes, or joins the sealed ones. *)
Lemma held_active c c' :
  sealedSegs c' = sealedSegs c →
  (last (disk (active c)) = Some newline → path (active c') = path (active c) ∧ disk (active c') = disk (active c)) →
  segs_held c c'.
Proof.
  intros H1 H2 s [Hs|Hs%list_elem_of_singleton]%elem_of_app Hl.
  - exists s. split; [|done]. unfold segs. rewrite H1. set_solver.
  - subst s. destruct (H2 Hl) as [Hp Hd]. exists (active c'). split; [|done]. unfold segs. set_solver.
Qed.

Lemma held_sealed c c' : sealedSegs c' = sealedSegs c ++ [active c] → segs_held c c'.
Proof. intros H s Hs _. exists s. split; [|done]. unfold segs in *. rewrite H. set_solver. Qed.

Lemma Seal_same s fs s' fs' r : Seal s fs = (s', fs', r) → path s' = path s ∧ disk s' = disk s.
Proof.
  unfold Seal. destruct (sealed s); [by intros [= <- _ _]|].
  destruct (file s); [by intros [= <- _ _]|..]; destruct (file_sync _ fs) as [[] fs1]; simpl;
    try (by intros [= <- _ _]); destruct (next_fault fs1); by intros [= <- _ _].
Qed.

Lemma reopened_same p d fs d' fs' s :
  openActiveSegment p d fs = (d', fs', Ok s) → last d = Some newline → path s = p ∧ disk s = d.
Proof.
  unfold openActiveSegment. destruct (next_fault fs) as [f fs0]. destruct (f_ok f); [|done]. simpl. intros H Hl.
  unfold recoverPartialLine in H. destruct (next_fault fs0) as [f0 fs1]. destruct (f_ok f0); [|done]. simpl in H.
  destruct (decide (d = [])) as [->|]; [done|]. destruct (next_fault fs1) as [f1 fs2]. destruct (f_ok f1); [|done].
  simpl in H. rewrite decide_True in H by done. by injection H as _ _ <-.
Qed.

Lemma held_fence op : carries segs_held (fence op).
Proof. apply carries_modify. intros c. destruct (fenced c); by apply held_same. Qed.

Lemma held_meta : carries segs_held writeMeta.
Proof.
  intros st. unfold writeMeta, io_call, Collection.bind. destruct (next_fault (io st)) as [f fs].
  by destruct (f_ok f); apply held_same.
Qed.

Lemma held_wall : carries segs_held wall_now.
Proof. intros st. unfold wall_now. by destruct (wall st). Qed.

Lemma held_io : carries segs_held io_call.
Proof. intros st. unfold io_call. by destruct (next_fault (io st)). Qed.

Lemma held_emit ev : carries segs_held (emit ev).
Proof.
  unfold emit. apply carries_bind; [apply _|by apply carries_same; [apply _|]|]. intros c.
  generalize (map_to_list (watchers c)). intros ws.
  induction ws as [|[id w] ws IH]; simpl; [by apply carries_same; [apply _|]|].
  apply carries_bind; [apply _| |]; [destruct (overflowed w); [apply held_wall|by apply carries_same; [apply _|]]|].
  intros t. apply carries_bind; [apply _| |by intros _]. apply carries_modify. intros ?. by apply held_same.
Qed.

(** After the active segment is sealed: the new one is opened, or the old one again. *)
Definition rotate_tail (old : Segment) (closeOK : bool) : M bool :=
  (modify (λ c, set_segSeq c (u64 (segSeq c + 1))) ;;;
   c <- get_coll ;;
   opened <- open_segment (segmentPath c (segSeq c)) [] ;;
   match opened with
   | Err _ =>
       reopened <- open_segment (path old) (disk old) ;;
       match reopened with
       | Err _ => fence "rotate" ;;; ret false
       | Ok s => modify (λ c, set_active c s) ;;; ret false
       end
   | Ok s =>
       modify (λ c, set_active (set_sealed c (sealedSegs c ++ [old])) s) ;;;
       c <- get_coll ;;
       dirOK <- (if decide (SyncMode (cfg c) = SyncModeNone) then ret true else io_call) ;;
       if negb dirOK then fence "rotate" ;;; ret false
       else metaOK <- writeMeta ;; ret (closeOK && metaOK)
   end)%scriva.

(** An action after a state is reached keeps what that state holds. *)
Lemma held_then {A} (m : M A) c st : carries segs_held m → segs_held c (coll st) → segs_held c (coll (m st).1).
Proof. intros H Hc. by etrans; [|apply H]. Qed.

Lemma held_tail closeOK st : segs_held (coll st) (coll (rotate_tail (active (coll st)) closeOK st).1).
Proof.
  unfold rotate_tail. destruct st as [c fs w]. unfold Collection.bind at 1, modify at 1. cbn [coll io wall].
  unfold Collection.bind at 1, get_coll at 1. unfold Collection.bind at 1, open_segment at 1. cbn [coll io wall].
  destruct (openActiveSegment _ [] fs) as [[d1 fs1] [s|e]].
  - unfold Collection.bind at 1, modify at 1. cbn [coll io wall]. unfold Collection.bind at 1, get_coll at 1.
    apply held_then; [|by apply held_sealed].
    apply carries_bind; [apply _|destruct (decide _); [by apply carries_same; [apply _|]|apply held_io]|]. intros [].
    + simpl. apply carries_bind; [apply _|apply held_meta|]. intros ok. by apply carries_same; [apply _|].
    + simpl. apply carries_bind; [apply _|apply held_fence|]. intros _. by apply carries_same; [apply _|].
  - unfold Collection.bind at 1, open_segment at 1. cbn [coll io wall].
    destruct (openActiveSegment (path _) _ fs1) as [[d2 fs2] [s|e2]] eqn:Ho.
    + apply held_active; [done|]. intros Hl. by eapply reopened_same in Ho.
    + apply held_then; [|by apply held_same]. apply carries_bind; [apply _|apply held_fence|]. intros _.
      by apply carries_same; [apply _|].
Qed.

Lemma held_rotate due : carries segs_held (rotate_post due).
Proof.
  destruct due; simpl; [|by apply carries_same; [apply _|]]. unfold rotate_post.
  apply carries_bind; [apply _| |intros ok; by apply carries_same; [apply _|]].
  intros [c fs w]. unfold rotateSegment. unfold Collection.bind at 1, get_coll at 1. cbn [coll].
  destruct (is_fenced c); [done|]. unfold Collection.bind at 1, on_active at 1. cbn [coll io wall].
  destruct (Seal (active c) fs) as [[s fs1] r] eqn:Hs. apply Seal_same in Hs as [Hp Hd].
  unfold Collection.bind at 1, get_coll at 1. cbn [coll].
  assert (segs_held c (set_active c s)) as H1 by (by apply held_active).
  assert (∀ st, segs_held c (coll st) → active (coll st) = s →
    segs_held c (coll ((if negb (sealed s) then ret false else rotate_tail s (is_ok r)) st).1)) as Hrest.
  { intros st Hst <-. destruct (negb _); [done|]. etrans; [exact Hst|apply held_tail]. }
  unfold Collection.bind at 1. destruct r as [u|e]; [by apply Hrest|].
  change (sealed (active (set_active c s))) with (sealed s). destruct (sealed s) eqn:Hse; [by apply Hrest|].
  apply Hrest; [|simpl; by destruct (fenced _)]. apply (held_then (fence "seal")); [apply held_fence|done].
Qed.

Lemma held_post_col npd : spreads segs_held (post_col npd).
Proof.
  destruct npd as [[name pls] due]. unfold post_col.
  apply spreads_bind; [apply _|apply spreads_in_col; [apply _|apply held_rotate]|]. intros r.
  apply spreads_bind; [apply _| |intros m; by apply spreads_same; [apply _|]].
  destruct (_ <? _)%Z; [apply spreads_in_col; [apply _|apply held_meta]|by apply spreads_same; [apply _|]].
Qed.

Lemma held_post ts l : spreads segs_held (post_commit ts l).
Proof.
  unfold post_commit. apply spreads_bind; [apply _| |].
  - apply spreads_each; [apply _|]. intros npd. apply spreads_each; [apply _|]. intros p. unfold emit_op.
    apply spreads_bind; [apply _|apply spreads_in_col; [apply _|apply held_emit]|]. intros _.
    by apply spreads_same; [apply _|].
  - intros _. induction l as [|npd l IH]; simpl; [by apply spreads_same; [apply _|]|].
    apply spreads_bind; [apply _|apply held_post_col|]. intros e.
    apply spreads_bind; [apply _|done|]. intros e'. by apply spreads_same; [apply _|].
Qed.

(** A successful action made of two. *)
Lemma xbind_Ok {A B} (m : X A) (k : A → X B) d d' b :
  xbind m k d = (d', Ok b) → ∃ d1 a, m d = (d1, Ok a) ∧ k a d1 = (d', Ok b).
Proof. unfold xbind. destruct (m d) as [d1 [a|e]]; [eauto|done]. Qed.

Lemma xbind_inv {A B} (m : X A) (k : A → X B) d d' r :
  xbind m k d = (d', r) →
  (∃ d1 a, m d = (d1, Ok a) ∧ k a d1 = (d', r)) ∨ (∃ e, m d = (d', Err e) ∧ r = Err e).
Proof. unfold xbind. destruct (m d) as [d1 [a|e]]; [by eauto|]. intros [= <- <-]. eauto. Qed.

(** ** The commit instant *)

Definition floor_of (cols : gmap string Collection) (name : string) : Z :=
  match cols !! name with Some c => clockFloor c | None => 0%Z end.

(** The latest of the clocks of some collections, each the later of its floor and
    of its reading of the wall clock. *)
Fixpoint latest (cols : gmap string Collection) (names : list string) (w : list Z) (n : Z) : Z :=
  match names with
  | [] => n
  | name :: names' => latest cols names' (tail w) (n `max` (floor_of cols name `max` default 0 (head w)))%Z
  end.

Lemma now_latest c fs w : ∃ c', now (MkSt c fs w) = (MkSt c' fs (tail w), Ok (clockFloor c `max` default 0 (head w))%Z).
Proof.
  unfold now, wall_now, Collection.bind, get_coll, Collection.modify, ret.
  destruct w as [|t w]; simpl; (destruct (_ <=? _)%Z eqn:Hl; [apply Z.leb_le in Hl|apply Z.leb_gt in Hl]);
    eexists; simpl; do 2 f_equal; lia.
Qed.

Lemma latest_ext cols cols' names w n :
  (∀ name, name ∈ names → cols' !! name = cols !! name) → latest cols' names w n = latest cols names w n.
Proof.
  revert w n. induction names as [|name names IH]; intros w n H; [done|]. simpl.
  assert (floor_of cols' name = floor_of cols name) as -> by (unfold floor_of; rewrite H; [done|set_solver]).
  apply IH. intros m Hm. apply H. set_solver.
Qed.

Lemma instant_latest n names d d' t :
  NoDup names → commit_instant n names d = (d', Ok t) → t = latest (d_cols d) names (d_wall d) n.
Proof.
  revert n d t. induction names as [|name names IH]; intros n d t; simpl; [by intros _ [= <- <-]|].
  intros [Hn Hnd]%NoDup_cons. unfold xbind, in_col. unfold floor_of. destruct (d_cols d !! name) as [c|] eqn:Hc; [|done].
  destruct (now_latest c (d_io d) (d_wall d)) as [c' ->]. intros H%IH; [|done]. rewrite H. simpl.
  set (m := (clockFloor c `max` default 0 (head (d_wall d)))%Z).
  replace (if (n <? m)%Z then m else n) with (n `max` m)%Z by (destruct (Z.ltb_spec n m); lia).
  apply latest_ext. intros k Hk. rewrite lookup_insert_ne; [done|]. by intros ->.
Qed.

(** ** Offsets and lines *)

Lemma append_run_length s txid n i es fs s' fs' os :
  append_run s txid n i es fs = (s', fs', Ok os) → length os = length es.
Proof.
  revert s i fs os. induction es as [|e es IH]; intros s i fs os; simpl; [by intros [= <- <- <-]|].
  destruct (AppendStamped s _ fs) as [[s1 fs1] [off|err]]; [|done].
  destruct (append_run s1 txid n (S i) es fs1) as [[s2 fs2] [offs|err]] eqn:Hr; [|done].
  intros [= <- <- <-]. simpl. f_equal. by eapply IH.
Qed.

(** The line of an entry is at an offset of a file. *)
Definition line_at (d : bytes) (o : nat) (e : stampedEntry) : Prop :=
  ∃ pre b post, d = pre ++ b ++ post ∧ length pre = o ∧ encodeStamped e = Ok b.

Lemma line_at_app d more o e : line_at d o e → line_at (d ++ more) o e.
Proof. intros (pre & b & post & -> & Hl & He). exists pre, b, (post ++ more). by rewrite <- !app_assoc. Qed.

(** The entries of a run under their stamps. *)
Fixpoint stamped_from (txid : string) (n : N) (i : nat) (es : list stampedEntry) : list stampedEntry :=
  match es with
  | [] => []
  | e :: es' => set_stamp e (MkStamp txid (u32n i) n) :: stamped_from txid n (S i) es'
  end.

Lemma stamped_from_lookup txid n i es j e :
  es !! j = Some e → stamped_from txid n i es !! j = Some (set_stamp e (MkStamp txid (u32n (i + j)) n)).
Proof.
  revert i j. induction es as [|e' es IH]; intros i [|j]; simpl; try done.
  - intros [= ->]. by rewrite Nat.add_0_r.
  - intros H. rewrite (IH (S i) j H). by rewrite Nat.add_succ_r.
Qed.

(** A segment that takes appends: its size in memory is the one of the file. *)
Definition clean (s : Segment) : Prop := poisoned s = false ∧ size s = length (disk s).

Record run_written (s : Segment) (txid : string) (n : N) (i : nat) (es : list stampedEntry) (os : list nat)
    (s' : Segment) : Prop := {
  rw_lines : Forall2 (line_at (disk s')) os (stamped_from txid n i es);
  rw_path : path s' = path s;
  rw_clean : clean s';
  rw_more : ∃ more, disk s' = disk s ++ more;
  rw_last : es ≠ [] ∨ last (disk s) = Some newline → last (disk s') = Some newline
}.

Lemma encodeStamped_last e b : encodeStamped e = Ok b → last b = Some newline.
Proof. intros (sum & _ & _ & _ & _ & ->)%encodeStamped_inv. apply last_snoc. Qed.

Lemma append_run_written s txid n i es fs s' fs' os :
  clean s → append_run s txid n i es fs = (s', fs', Ok os) → run_written s txid n i es os s'.
Proof.
  revert s i fs os. induction es as [|e es IH]; intros s i fs os Hs; simpl.
  { intros [= <- <- <-]. split; [constructor|done|done| |by intros [|]]. exists []. by rewrite app_nil_r. }
  destruct (AppendStamped s _ fs) as [[s1 fs1] [off|err]] eqn:Ha; [|done].
  destruct (append_run s1 txid n (S i) es fs1) as [[s2 fs2] [offs|err]] eqn:Hr; [|done].
  intros [= <- <- <-]. destruct Hs as [Hp Hsz].
  apply append_entry_Ok in Ha as (b & Hb & _ & _ & _ & -> & ->); [|done..]. simpl in Hb.
  apply IH in Hr as [Hl Hpath Hc [more Hm] Hlast]; [|split; [done|simpl; rewrite length_app; lia]].
  simpl in *. split; [| |done| |].
  - simpl. constructor; [|done]. rewrite Hm. apply line_at_app. exists (disk s), b, [].
    by rewrite app_nil_r, Hsz.
  - done.
  - exists (b ++ more). by rewrite app_assoc.
  - intros _. apply Hlast. right. by rewrite last_app, (encodeStamped_last _ _ Hb).
Qed.

Definition offsets_for (offs : gmap string (list nat)) (r : xtxRun) : Prop :=
  ∃ os, offs !! run_col r = Some os ∧ length os = length (run_entries r).

Lemma append_runs_offsets a txid runs st offs fs a' fs' st' offs' :
  NoDup (map run_col runs) → append_runs a txid runs st offs fs = (a', fs', st', Ok offs') →
  Forall (offsets_for offs') runs ∧ (∀ n, n ∉ map run_col runs → offs' !! n = offs !! n).
Proof.
  revert a st offs fs. induction runs as [|r runs IH]; intros a st offs fs; simpl.
  { intros _ [= <- <- <- <-]. split; [constructor|done]. }
  intros [Hr Hnd]%NoDup_cons. destruct (a !! run_col r) as [f|]; [|done].
  destruct (append_run (xf_seg f) _ _ _ _ _) as [[s fs1] [os|err]] eqn:Hos; [|done].
  intros [Hall Hk]%IH; [|done]. split.
  - constructor; [|done]. exists os. rewrite (Hk _ Hr), lookup_insert_eq. split; [done|].
    by eapply append_run_length.
  - intros n Hn. apply not_elem_of_cons in Hn as [Hne Hn]. rewrite Hk by done. by rewrite lookup_insert_ne.
Qed.

(** A run is in the active file of its collection. *)
Definition run_in (txid : string) (r : xtxRun) (s : Segment) (offs : gmap string (list nat)) (s' : Segment) : Prop :=
  ∃ os, offs !! run_col r = Some os ∧
    run_written s txid (u32n (length (run_entries r))) 0 (run_entries r) os s'.

Lemma append_runs_written a txid runs st offs fs a' fs' st' offs' :
  NoDup (map run_col runs) → (∀ r f, r ∈ runs → a !! run_col r = Some f → clean (xf_seg f)) →
  append_runs a txid runs st offs fs = (a', fs', st', Ok offs') →
  (∀ r, r ∈ runs → ∃ f f', a !! run_col r = Some f ∧ a' !! run_col r = Some f' ∧
     run_in txid r (xf_seg f) offs' (xf_seg f')) ∧
  (∀ n, n ∉ map run_col runs → a' !! n = a !! n).
Proof.
  revert a st offs fs. induction runs as [|r runs IH]; intros a st offs fs Hnd Hc Ha.
  { injection Ha as <- <- <- <-. split; [by intros r ?%not_elem_of_nil|done]. }
  pose proof (append_runs_offsets _ _ _ _ _ _ _ _ _ _ Hnd Ha) as [_ Hout]. simpl in Ha.
  apply NoDup_cons in Hnd as [Hr Hnd]. destruct (a !! run_col r) as [f|] eqn:Hf; [|done].
  destruct (append_run (xf_seg f) _ _ _ _ _) as [[s fs1] [os|err]] eqn:Hos; [|done].
  pose proof (append_runs_offsets _ _ _ _ _ _ _ _ _ _ Hnd Ha) as [_ Hk].
  assert (∀ q, q ∈ runs → run_col q ≠ run_col r) as Hne.
  { intros q Hq Heq. apply Hr. rewrite <- Heq. by apply list_elem_of_fmap_2. }
  apply IH in Ha as [Hall Hrest]; [|done|].
  2:{ intros q g Hq. rewrite lookup_insert_ne by (by apply not_eq_sym, Hne). apply Hc. set_solver. }
  split.
  - intros q [->|Hq]%elem_of_cons.
    + exists f, (xf_with f s). rewrite (Hrest _ Hr), lookup_insert_eq. split_and!; [done|done|].
      exists os. rewrite (Hk _ Hr), lookup_insert_eq. split; [done|]. eapply append_run_written; [|exact Hos].
      apply (Hc r); [set_solver|done].
    + destruct (Hall q Hq) as (g & g' & Hg & Hg' & Hin). exists g, g'. split_and!; [|done|done].
      by rewrite lookup_insert_ne in Hg by (by apply not_eq_sym, Hne).
  - intros n [Hn1 Hn2]%not_elem_of_cons. rewrite Hrest by done. by rewrite lookup_insert_ne.
Qed.

Lemma sync_runs_same a runs fs a' fs' : sync_runs a runs fs = (a', fs', Ok tt) →
  ∀ n, xf_seg <$> a' !! n = xf_seg <$> a !! n.
Proof.
  revert a fs. induction runs as [|r runs IH]; intros a fs; simpl; [by intros [= <- <-]|].
  destruct (a !! run_col r) as [f|] eqn:Hf; [|done]. destruct (Sync (xf_seg f) fs) as [fs1 [u|e]]; [|done].
  intros H n. rewrite (IH _ _ H n). destruct (decide (n = run_col r)) as [->|Hne].
  - by rewrite lookup_insert_eq, Hf.
  - by rewrite lookup_insert_ne.
Qed.

Lemma prepare_written j a key txid runs b t1 t2 fs j' a' fs' bb offs :
  NoDup (map run_col runs) →
  xtxPrepareAndDecide j a key txid runs b t1 t2 fs = (j', a', fs', bb, Ok offs) →
  Forall (offsets_for offs) runs ∧
  ((∀ r f, r ∈ runs → a !! run_col r = Some f → clean (xf_seg f)) →
   ∀ r, r ∈ runs → ∃ f f', a !! run_col r = Some f ∧ a' !! run_col r = Some f' ∧
     run_in txid r (xf_seg f) offs (xf_seg f')).
Proof.
  intros Hnd. unfold xtxPrepareAndDecide.
  destruct (append_runs a txid runs ∅ ∅ fs) as [[[a1 fs1] st1] [offs1|e]] eqn:Ha;
    [|by destruct (undo_runs _ _ _ _ _ _ _ _) as [[? ?] ?]].
  destruct (sync_runs a1 runs fs1) as [[a2 fs2] [[]|e]] eqn:Hs;
    [|by destruct (undo_runs _ _ _ _ _ _ _ _) as [[? ?] ?]].
  destruct (commitPreparedBound _ _ _ _ _ _ _) as [[j3 fs3] [u|e]].
  2:{ destruct e; try done; by destruct (undo_runs _ _ _ _ _ _ _ _) as [[? ?] ?]. }
  intros [= <- <- <- <- <-]. split; [by eapply append_runs_offsets|]. intros Hc r Hr.
  eapply append_runs_written in Ha as [Hall _]; [|done..].
  destruct (Hall r Hr) as (f & f' & Hf & Hf' & Hin). pose proof (sync_runs_same _ _ _ _ _ Hs (run_col r)) as Hsame.
  rewrite Hf' in Hsame. destruct (a2 !! run_col r) as [g|] eqn:Hg; [|done]. simpl in Hsame. injection Hsame as Hsame.
  exists f, g. rewrite Hsame. done.
Qed.

(** The decision keeps the indexes and the encryption of every collection. *)
Definition kin (c c' : Collection) : Prop := index c' = index c ∧ enc c' = enc c.

#[export] Instance kin_preorder : PreOrder kin.
Proof. split; [done|]. intros c1 c2 c3 [H1 H2] [H3 H4]. split; congruence. Qed.

Lemma put_active_kin v a name c : kin c (put_active v a name c).
Proof. unfold put_active. destruct (a !! name); [|done]. destruct (_ && _); [|done]. by destruct (fenced _). Qed.

Lemma put_active_active v a name c f : a !! name = Some f → active (put_active v a name c) = xf_seg f.
Proof. unfold put_active. intros ->. destruct (_ && _); [|done]. by destruct (fenced _). Qed.

Lemma decide_written key txid runs d d' offs :
  NoDup (map run_col runs) → prepare_decide key txid runs d = (d', Ok offs) →
  Forall (offsets_for offs) runs ∧ db_rel kin d d' ∧
  ((∀ r c, r ∈ runs → d_cols d !! run_col r = Some c → clean (active c)) →
   ∀ r, r ∈ runs → ∃ c c', d_cols d !! run_col r = Some c ∧ d_cols d' !! run_col r = Some c' ∧
     run_in txid r (active c) offs (active c')).
Proof.
  intros Hnd. unfold prepare_decide. intros (d1 & tc & H1 & (d2 & ta & H2 & H)%xbind_Ok)%xbind_Ok.
  apply (still_run _ _ _ _ still_wall) in H1. apply (still_run _ _ _ _ still_wall) in H2.
  assert (d_cols d2 = d_cols d) as Hd by congruence. clear H1 H2. rewrite <- Hd.
  destruct (d_journal d2) as [j|]; [|done].
  destruct (xtxPrepareAndDecide _ _ _ _ _ _ _ _ _) as [[[[j' a'] fs] b] [o|e]] eqn:Hp; [|done].
  set (vic := failed_sync _ _ _ _) in H. injection H as <- <-.
  apply prepare_written in Hp as [Ho Hw]; [|done]. split_and!; [done| |].
  { intros n. rewrite <- Hd. simpl. rewrite map_lookup_imap. destruct (d_cols d2 !! n); simpl; constructor. apply put_active_kin. }
  intros Hc r Hr. destruct (Hw) with (r := r) as (f & f' & Hf & Hf' & Hin); [|done|].
  { intros q g Hq. unfold actives_of. rewrite lookup_fmap. intros (c & Hcq & ->)%fmap_Some. by apply (Hc q). }
  unfold actives_of in Hf. rewrite lookup_fmap in Hf. apply fmap_Some in Hf as (c & Hcr & ->).
  exists c. eexists. split; [done|]. simpl. rewrite map_lookup_imap, Hcr. split; [reflexivity|].
  by rewrite (put_active_active _ _ _ _ _ Hf').
Qed.

(** ** Planned operations *)

(** The entry of a document, in a view of the indexes. *)
Definition entry_of (v : gmap string (gmap Z IndexEntry)) (k : string * Z) : option IndexEntry :=
  v !! k.1 ≫= λ m, m !! k.2.

(** The state of a document at an instant. *)
Definition state_of (v : gmap string (gmap Z IndexEntry)) (n : Z) (k : string * Z) : option Z :=
  entry_of v k ≫= λ loc, if expired (ie_ExpiresAt loc) n then None else Some (ie_Rev loc).

Definition xkey (op : XTxOp) : string * Z := (xo_Collection op, xo_ID op).

(** An operation may run on a view at an instant: its target is there, at the
    revision the caller expects. *)
Definition op_allowed (v : gmap string (gmap Z IndexEntry)) (n : Z) (op : XTxOp) : Prop :=
  xo_Op op = OpInsert ∨
  (xo_Op op = OpUpdate ∨ xo_Op op = OpDelete) ∧
  ∃ rev, state_of v n (xkey op) = Some rev ∧ (xo_ExpectedRev op = 0%Z ∨ rev = xo_ExpectedRev op).

(** The revision and the index entry after an operation: an insert starts at
    revision 1, an update or a deletion follows the revision, a deleted document
    has no entry. *)
Definition op_effect (v : gmap string (gmap Z IndexEntry)) (op : XTxOp) (rev : Z) (e : option IndexEntry) : Prop :=
  (xo_Op op = OpInsert → rev = 1%Z) ∧
  (xo_Op op ≠ OpInsert → ∃ loc, entry_of v (xkey op) = Some loc ∧ rev = u64 (ie_Rev loc + 1)) ∧
  (xo_Op op = OpDelete → e = None) ∧
  (xo_Op op ≠ OpDelete → ∃ e', e = Some e' ∧ ie_Rev e' = rev).

(** The deadline an operation gives its document: its own, else the default of the
    collection for an insert and the one the document has for an update. *)
Definition deadline (c : Collection) (n : Z) (op : XTxOp) : Z :=
  if decide (xo_Op op = OpDelete) then 0%Z
  else if (xo_ExpiresAt op =? 0)%Z then
    if decide (xo_Op op = OpInsert) then resolveInsertExpiryAt c None n
    else match Get (index c) (xo_ID op) with Some loc => ie_ExpiresAt loc | None => 0%Z end
  else xo_ExpiresAt op.

(** The data an operation leaves: its own, with the reserved key of the document
    kept by an update. *)
Definition stored_data (c : Collection) (op : XTxOp) : option vdata :=
  if decide (xo_Op op = OpInsert) then xo_Data op
  else if decide (xo_Op op = OpUpdate) then preserved c op
  else None.

(** What a planned operation does to its index entry. *)
Definition applied_effect (pth : string) (epoch : Z) (p : planned) (off : nat) (e : option IndexEntry) : Prop :=
  (xo_Op (pl_op p) = OpDelete → e = None) ∧
  (xo_Op (pl_op p) ≠ OpDelete → e = Some (MkIE pth off (pl_rev p) (pl_exp p) epoch)).

(** A plan of an operation is right for a database and an instant. *)
Record planned_for (d : DB) (n : Z) (op : XTxOp) (p : planned) : Prop := {
  pf_key : xkey (pl_op p) = xkey op;
  pf_op : xo_Op (pl_op p) = xo_Op op;
  pf_allowed : op_allowed (idx d) n op;
  pf_effect : ∀ pth epoch off e, applied_effect pth epoch p off e → op_effect (idx d) op (pl_rev p) e;
  pf_stored : ∃ c, d_cols d !! xo_Collection op = Some c ∧
    seal_data c (stored_data c op) = Ok (pl_sealed p) ∧ pl_exp p = deadline c n op
}.

Lemma target_spec v c n op loc :
  v !! xo_Collection op = Some (entries (index c)) → target c n op = Ok loc →
  entry_of v (xkey op) = Some loc ∧ Get (index c) (xo_ID op) = Some loc ∧
  ∃ rev, state_of v n (xkey op) = Some rev ∧ (xo_ExpectedRev op = 0%Z ∨ rev = xo_ExpectedRev op).
Proof.
  intros Hv. unfold target, state_of, entry_of, Get. simpl. rewrite Hv. simpl.
  destruct (entries (index c) !! xo_ID op) as [l|]; [|done].
  destruct (expired (ie_ExpiresAt l) n) eqn:He; [done|]. destruct (_ && _) eqn:Hr; [done|].
  intros [= <-]. split_and!; [done|done|]. exists (ie_Rev l). simpl. rewrite He. split; [done|].
  apply andb_false_iff in Hr as [H|H]; apply negb_false_iff, Z.eqb_eq in H; [by left|by right].
Qed.

Lemma applied_entry pth epoch p off e :
  applied_effect pth epoch p off e → xo_Op (pl_op p) ≠ OpDelete → ∃ e', e = Some e' ∧ ie_Rev e' = pl_rev p.
Proof. intros [_ H] Hd. rewrite (H Hd). by eexists. Qed.

Lemma plan_op_spec d c n t1 t2 op p :
  d_cols d !! xo_Collection op = Some c → plan_op c n t1 t2 op = Ok p → planned_for d n op p.
Proof.
  intros Hc. assert (idx d !! xo_Collection op = Some (entries (index c))) as Hv by (unfold idx; by rewrite lookup_fmap, Hc).
  unfold plan_op. destruct (decide (xo_Op op = OpInsert)) as [Hi|Hi].
  { destruct (seal_data c (xo_Data op)) as [sd|] eqn:Hsd; [|done]. intros [= <-].
    constructor; simpl; [done|done|by left| |].
    - intros pth epoch off e He. split; [done|]. split; [done|]. split; [apply He|]. intros Hnd.
      exact (applied_entry _ _ _ _ _ He Hnd).
    - exists c. unfold stored_data, deadline. rewrite (decide_True _ _ Hi), decide_False by (by rewrite Hi).
      split_and!; [done|done|]. destruct (_ =? _)%Z; [|done]. by rewrite decide_True. }
  destruct (decide (xo_Op op = OpUpdate)) as [Hu|Hu].
  { destruct (target c n op) as [loc|] eqn:Ht; [|done]. apply (target_spec (idx d)) in Ht as (Hloc & Hg & Hst); [|done].
    simpl. destruct (seal_data c (preserved c op)) as [sd|] eqn:Hsd; [|done]. intros [= <-].
    constructor; simpl; [done|done|right; split; [by left|done]| |].
    - intros pth epoch off e He. split; [done|]. split; [by eauto|]. split; [apply He|]. intros Hnd.
      exact (applied_entry _ _ _ _ _ He Hnd).
    - exists c. unfold stored_data, deadline. rewrite (decide_False _ _ Hi), (decide_True _ _ Hu).
      rewrite decide_False by (by rewrite Hu). split_and!; [done|done|].
      destruct (_ =? _)%Z; [|done]. by rewrite (decide_False _ _ Hi), Hg. }
  destruct (decide (xo_Op op = OpDelete)) as [Hd|Hd]; [|done].
  destruct (target c n op) as [loc|] eqn:Ht; [|done]. apply (target_spec (idx d)) in Ht as (Hloc & Hg & Hst); [|done].
  intros [= <-]. constructor; simpl; [done|done|right; split; [by right|done]| |].
  - intros pth epoch off e [He _]. simpl in *. split; [done|]. split; [by eauto|]. split; [done|]. by intros ?.
  - exists c. unfold stored_data, deadline. rewrite (decide_False _ _ Hi), (decide_False _ _ Hu), (decide_True _ _ Hd).
    split_and!; [done| |done]. unfold seal_data. by destruct (enc c).
Qed.

Lemma plan_ops_spec d0 c n ops d d' pls :
  Forall (λ op, d_cols d0 !! xo_Collection op = Some c) ops →
  plan_ops c n ops d = (d', Ok pls) → Forall2 (planned_for d0 n) ops pls.
Proof.
  revert d pls. induction ops as [|op ops IH]; intros d pls Hv; simpl; [by intros [= <- <-]|].
  apply Forall_cons in Hv as [Ho Hv].
  intros (d1 & t1 & _ & (d2 & t2 & _ & H)%xbind_Ok)%xbind_Ok.
  destruct (plan_op c n t1 t2 op) as [p|] eqn:Hp; [|done].
  apply xbind_Ok in H as (d3 & l & Hl & [= <- <-]). constructor; [by eapply plan_op_spec|by eapply IH].
Qed.

(** The plan does not look at the clocks. *)
Lemma plan_ops_timed c c' n ops : timed c c' → plan_ops c' n ops = plan_ops c n ops.
Proof. intros [t ->]. induction ops as [|op ops IH]; [done|]. simpl. by rewrite IH. Qed.

Lemma plan_col_spec d0 n ops name d d' pls :
  db_rel timed d0 d → Forall (λ op, xo_Collection op = name) ops → plan_col n ops name d = (d', Ok pls) →
  is_Some (d_cols d0 !! name) ∧ Forall2 (planned_for d0 n) ops pls.
Proof.
  intros Hd Hn. unfold plan_col. intros (d1 & d2 & [= <- <-] & H)%xbind_Ok.
  destruct (d_cols d !! name) as [c'|] eqn:Hc'; [|done].
  destruct (db_rel_r _ _ _ _ _ Hd Hc') as (c & Hc & Ht).
  split; [by eexists|]. apply xbind_Ok in H as (d1 & l & Hl & H). rewrite (plan_ops_timed _ _ _ _ Ht) in Hl.
  assert (l = pls) as ->.
  { apply xbind_Ok in H as (d2 & [u|] & _ & H); [|done]. destruct (_ && _); [|by injection H].
    apply xbind_Ok in H as (d3 & [q|] & _ & H); [by injection H|done]. }
  eapply plan_ops_spec; [|done]. eapply Forall_impl; [exact Hn|]. simpl. by intros op ->.
Qed.

(** The plan of the whole transaction. *)
Definition all_planned (d : DB) (n : Z) (ops : list XTxOp) (np : string * list planned) : Prop :=
  is_Some (d_cols d !! np.1) ∧ Forall2 (planned_for d n) (filter (λ op, xo_Collection op = np.1) ops) np.2.

Lemma plan_all_spec d0 n ops names d d' pls :
  db_rel timed d0 d → plan_all n ops names d = (d', Ok pls) →
  map fst pls = names ∧ Forall (all_planned d0 n ops) pls.
Proof.
  revert d pls. induction names as [|name names IH]; intros d pls Hd; simpl; [by intros [= <- <-]|].
  intros (d1 & pl & Hpl & (d2 & l & Hl & [= <- <-])%xbind_Ok)%xbind_Ok.
  assert (db_rel timed d d1) as Hd1 by (eapply spreads_run; [|exact Hpl]; apply timed_plan_col).
  eapply plan_col_spec in Hpl; [|exact Hd|apply Forall_forall; intros op Hop; by apply list_elem_of_filter in Hop as [? _]].
  apply IH in Hl as [Hn Hall]; [|by eapply (db_rel_trans timed)]. simpl. split; [by f_equal|]. by constructor.
Qed.

(** ** Applying *)

Definition pid (p : planned) : Z := xo_ID (pl_op p).

(** The operation is one of the three. *)
Definition known (p : planned) : Prop := xo_Op (pl_op p) ∈ [OpInsert; OpUpdate; OpDelete].

Definition ents (st : St) : gmap Z IndexEntry := entries (index (coll st)).

(** Applying changes indexes and counters, neither segments nor keys. *)
Definition same_files (c c' : Collection) : Prop :=
  sealedSegs c' = sealedSegs c ∧ active c' = active c ∧ enc c' = enc c.

#[export] Instance same_files_preorder : PreOrder same_files.
Proof. split; [done|]. intros c1 c2 c3 (? & ? & ?) (? & ? & ?). split_and!; congruence. Qed.

Lemma apply_op_spec epoch p off st :
  known p → ∃ st', apply_op epoch p off st = (st', Ok tt) ∧ same_files (coll st) (coll st') ∧
    applied_effect (path (active (coll st))) epoch p off (ents st' !! pid p) ∧
    (∀ id, id ≠ pid p → ents st' !! id = ents st !! id).
Proof.
  intros Hk. unfold apply_op, known, applied_effect, pid, ents in *.
  destruct (decide (xo_Op (pl_op p) = OpInsert)) as [Hi|Hi].
  { eexists. split; [reflexivity|]. split; [done|]. simpl. rewrite lookup_insert_eq. split; [split|].
    - intros Hd. rewrite Hi in Hd. discriminate Hd.
    - done.
    - intros id Hne. by rewrite lookup_insert_ne. }
  destruct (decide (xo_Op (pl_op p) = OpUpdate)) as [Hu|Hu].
  { eexists. split; [reflexivity|]. split; [done|]. simpl. rewrite lookup_insert_eq. split; [split|].
    - intros Hd. rewrite Hu in Hd. discriminate Hd.
    - done.
    - intros id Hne. by rewrite lookup_insert_ne. }
  destruct (decide (xo_Op (pl_op p) = OpDelete)) as [Hd|Hd]; [|set_solver].
  eexists. split; [reflexivity|]. split; [done|]. simpl. rewrite lookup_delete_eq. split; [split|].
  - done.
  - done.
  - intros id Hne. by rewrite lookup_delete_ne.
Qed.

(** The view of an index before and after its planned operations. *)
Definition planned_effect (pth : string) (epoch : Z) (pls : list planned) (os : list nat) (m m' : gmap Z IndexEntry) : Prop :=
  (∀ i p off, pls !! i = Some p → os !! i = Some off → applied_effect pth epoch p off (m' !! pid p)) ∧
  (∀ id, id ∉ map pid pls → m' !! id = m !! id).

Lemma apply_ops_spec epoch pls offs st :
  Forall known pls → NoDup (map pid pls) → length offs = length pls →
  ∃ st', apply_ops epoch pls offs st = (st', Ok tt) ∧ same_files (coll st) (coll st') ∧
    planned_effect (path (active (coll st))) epoch pls offs (ents st) (ents st').
Proof.
  revert offs st. induction pls as [|p pls IH]; intros offs st Hk Hnd Hl; destruct offs as [|off offs]; try done.
  { exists st. split; [done|]. split; [done|]. split; [by intros [|i]|done]. }
  apply Forall_cons in Hk as [Hp Hk]. apply NoDup_cons in Hnd as [Hn Hnd]. simpl.
  unfold Collection.bind.
  destruct (apply_op_spec epoch p off st Hp) as (st1 & -> & Hs1 & He & Hrest).
  destruct (IH offs st1) as (st2 & -> & Hs2 & Hall & Hrest2); [done|done|by injection Hl|].
  exists st2. split; [done|]. split; [by etrans|]. split.
  - intros [|i] q o; simpl.
    + intros [= <-] [= <-]. by rewrite Hrest2.
    + intros Hq Ho. destruct Hs1 as (_ & <- & _). by eapply Hall.
  - intros id Hid. apply not_elem_of_cons in Hid as [Hne Hid]. rewrite Hrest2 by done. by apply Hrest.
Qed.

Lemma in_col_run {A} name (m : M A) d c :
  d_cols d !! name = Some c → ∃ st r, m (MkSt c (d_io d) (d_wall d)) = (st, r) ∧
    in_col name m d = (set_world (set_cols d (<[name := coll st]> (d_cols d))) (io st) (wall st), Ok r).
Proof. intros Hc. unfold in_col. rewrite Hc. destruct (m _) as [st r]. eauto. Qed.

Lemma idx_Some d name m : idx d !! name = Some m → ∃ c, d_cols d !! name = Some c ∧ entries (index c) = m.
Proof. unfold idx. rewrite lookup_fmap. intros (c & Hc & ->)%fmap_Some. eauto. Qed.

Lemma idx_lookup d name c : d_cols d !! name = Some c → idx d !! name = Some (entries (index c)).
Proof. unfold idx. rewrite lookup_fmap. by intros ->. Qed.

(** One participant after its plan is applied. *)
Definition applied_to (pls : list planned) (os : list nat) (c c' : Collection) : Prop :=
  same_files c c' ∧
  planned_effect (path (active c)) (epoch_of c) pls os (entries (index c)) (entries (index c')).

Lemma apply_col_spec offs name pls c os d :
  Forall known pls → NoDup (map pid pls) → offs !! name = Some os → length os = length pls →
  d_cols d !! name = Some c →
  ∃ d' due c', apply_col offs (name, pls) d = (d', Ok due) ∧ d_cols d' = <[name := c']> (d_cols d) ∧
    applied_to pls os c c'.
Proof.
  intros Hk Hnd Ho Hl Hc. unfold apply_col, xbind, xget. cbn [fst snd]. rewrite Ho. change (default [] (Some os)) with os.
  assert (col_epoch d name = epoch_of c) as -> by (unfold col_epoch; by rewrite Hc).
  destruct (in_col_run name (apply_ops (epoch_of c) pls os) d c Hc) as (st & r & Hr & ->).
  destruct (apply_ops_spec (epoch_of c) pls os (MkSt c (d_io d) (d_wall d))) as (st' & Hr' & Hsame & Heff); [done..|].
  rewrite Hr' in Hr. injection Hr as <- <-.
  set (d1 := set_world _ _ _).
  destruct (in_col_run name (raise_idSeq (max_inserted pls)) d1 (coll st')) as (st2 & r2 & Hr2 & ->).
  { simpl. by rewrite lookup_insert_eq. }
  eexists _, _, (coll st2). split; [reflexivity|]. simpl. split; [by rewrite insert_insert_eq|].
  assert (same_files (coll st') (coll st2) ∧ index (coll st2) = index (coll st')) as [Hs2 Hi2].
  { unfold raise_idSeq, modify in Hr2. injection Hr2 as <- _. simpl. by destruct (_ && _). }
  split; [by etrans|]. by rewrite Hi2.
Qed.

(** The plan of each participant matches the offsets its run was written at. *)
Definition ready (offs : gmap string (list nat)) (d : DB) (np : string * list planned) : Prop :=
  Forall known np.2 ∧ NoDup (map pid np.2) ∧
  (∃ os, offs !! np.1 = Some os ∧ length os = length np.2) ∧ is_Some (d_cols d !! np.1).

Lemma apply_all_spec offs pls d :
  NoDup (map fst pls) → Forall (ready offs d) pls →
  ∃ d' l, apply_all offs pls d = (d', Ok l) ∧ map fst l = pls ∧
    (∀ name ps, (name, ps) ∈ pls → ∃ c c' os, offs !! name = Some os ∧ length os = length ps ∧
       d_cols d !! name = Some c ∧ d_cols d' !! name = Some c' ∧ applied_to ps os c c') ∧
    (∀ name, name ∉ map fst pls → d_cols d' !! name = d_cols d !! name).
Proof.
  revert d. induction pls as [|[name ps] pls IH]; intros d Hnd Hr; simpl.
  { exists d, []. split_and!; [done|done|by intros ? ? ?%not_elem_of_nil|done]. }
  apply NoDup_cons in Hnd as [Hn Hnd]. simpl in Hn.
  apply Forall_cons in Hr as [(Hk & Hid & (os & Hos & Hlen) & c & Hc) Hr]. simpl in *.
  destruct (apply_col_spec offs name ps c os d) as (d1 & due & c' & Hd1 & Hi & He); [done..|].
  unfold xbind. rewrite Hd1.
  assert (∀ q, q ∈ pls → q.1 ≠ name) as Hne by (intros q Hq <-; apply Hn; by apply list_elem_of_fmap_2).
  destruct (IH d1) as (d2 & l & Hd2 & Hfst & Hall & Hrest); [done| |].
  { apply Forall_forall. intros q Hin. rewrite Forall_forall in Hr.
    destruct (Hr _ Hin) as (H1 & H2 & H3 & H4). split_and!; [done..|].
    rewrite Hi, lookup_insert_ne; [done|]. by apply not_eq_sym, Hne. }
  rewrite Hd2. exists d2, ((name, ps, due) :: l). split; [done|]. split; [simpl; by rewrite Hfst|]. split.
  - intros n2 ps2 [[= -> ->]|Hin]%elem_of_cons.
    + exists c, c', os. rewrite (Hrest name Hn), Hi, lookup_insert_eq. done.
    + destruct (Hall n2 ps2 Hin) as (a & b & os2 & Ho2 & Hl2 & Ha & Hb & Heff). exists a, b, os2. split_and!; try done.
      rewrite Hi, lookup_insert_ne in Ha; [done|]. apply not_eq_sym. apply (Hne (n2, ps2) Hin).
  - intros n2 Hn2. apply not_elem_of_cons in Hn2 as [Hne2 Hn2]. rewrite Hrest by done.
    by rewrite Hi, lookup_insert_ne.
Qed.

(** ** The commit under the locks *)

(** A point read still holds. *)
Definition read_holds (v : gmap string (gmap Z IndexEntry)) (n : Z) (rc : xtxReadCheck) : Prop :=
  let st := state_of v n (rc_Collection rc, rc_ID rc) in
  bool_decide (is_Some st) = rc_Present rc ∧ default 0%Z st = rc_Rev rc.

Lemma reads_validated d reads n :
  validateXTxReads (d_cols d) reads n = Ok tt → Forall (read_holds (idx d) n) reads.
Proof.
  unfold validateXTxReads. intros H. apply Forall_forall. intros rc Hrc.
  assert (read_conflict (d_cols d) n rc = None) as Hnone.
  { destruct (omap (read_conflict (d_cols d) n) reads) as [|ce l] eqn:Ho; [|done].
    destruct (read_conflict (d_cols d) n rc) as [ce|] eqn:Hce; [|done]. exfalso.
    assert (ce ∈ omap (read_conflict (d_cols d) n) reads) as Hin by (apply list_elem_of_omap; eauto).
    rewrite Ho in Hin. by apply not_elem_of_nil in Hin. }
  revert Hnone. unfold read_conflict, read_holds, state_of, entry_of, idx, live_rev, Get. simpl.
  rewrite lookup_fmap.
  set (a := d_cols d !! rc_Collection rc ≫= _). set (b := (_ ≫= _)).
  assert (b = a) as ->.
  { unfold a, b. destruct (d_cols d !! rc_Collection rc); simpl; [|done]. by destruct (entries _ !! _). }
  destruct (_ || _) eqn:Hor; [done|]. intros _. apply orb_false_iff in Hor as [H1 H2].
  apply negb_false_iff, bool_decide_eq_true in H1. apply negb_false_iff, Z.eqb_eq in H2. done.
Qed.

(** Where an operation is stored: a segment of its collection holds its line, with
    the sealed data, the revision, the deadline and the transaction's stamp, and
    the index entry of a document that was not deleted is that place. *)
Definition op_stored (d d' : DB) (n : Z) (txid ts : string) (op : XTxOp) (rev : Z) : Prop :=
  ∃ c c' sd s o i k,
    d_cols d !! xo_Collection op = Some c ∧ d_cols d' !! xo_Collection op = Some c' ∧
    seal_data c (stored_data c op) = Ok sd ∧
    s ∈ segs c' ∧ last (disk s) = Some newline ∧
    line_at (disk s) o
      (MkStamped (xo_ID op) (xo_Op op) ts rev sd (epoch_of c) (deadline c n op) (MkStamp txid i k) 0) ∧
    (xo_Op op ≠ OpDelete →
     Get (index c') (xo_ID op) = Some (MkIE (path s) o rev (deadline c n op) (epoch_of c))).

(** The size a collection keeps of its active segment is the one of the file, unless
    the segment refuses appends. *)
Definition sizes_known (d : DB) : Prop :=
  ∀ name c, d_cols d !! name = Some c → poisoned (active c) = false → size (active c) = length (disk (active c)).

(** A committed transaction, against the database before: at the instant every
    read held and every write was allowed, each named document changed as its
    operation says and is stored so, no other one did. *)
Definition committed_effect (d : DB) (ops : list XTxOp) (reads : list xtxReadCheck) (n : Z) (r : XTxResult) (d' : DB) : Prop :=
  Forall (read_holds (idx d) n) reads ∧
  (∃ ts, ∀ op, op ∈ ops → op_allowed (idx d) n op ∧ ∃ rev,
     MkOpRes (xo_Collection op) (xo_ID op) rev (xo_Op op) ∈ xr_Ops r ∧
     op_effect (idx d) op rev (entry_of (idx d') (xkey op)) ∧
     (sizes_known d → op_stored d d' n (xr_TxID r) ts op rev)) ∧
  (∀ k, k ∉ map xkey ops → entry_of (idx d') k = entry_of (idx d) k).

Lemma planned_known d n ops pls : Forall2 (planned_for d n) ops pls → Forall known pls.
Proof.
  induction 1 as [|op p ops pls Hp _ IH]; constructor; [|done]. unfold known. rewrite (pf_op _ _ _ _ Hp).
  destruct (pf_allowed _ _ _ _ Hp) as [->|[[->| ->] _]]; set_solver.
Qed.

Lemma planned_keys d n ops pls : Forall2 (planned_for d n) ops pls → map (λ p, xkey (pl_op p)) pls = map xkey ops.
Proof. induction 1 as [|op p ops pls Hp _ IH]; simpl; [done|]. by rewrite IH, (pf_key _ _ _ _ Hp). Qed.

Lemma filter_same_col name ops :
  map xkey (filter (λ op, xo_Collection op = name) ops) =
  map (pair name) (map xo_ID (filter (λ op, xo_Collection op = name) ops)).
Proof.
  induction ops as [|op ops IH]; [done|]. rewrite filter_cons. destruct (decide _) as [<-|]; simpl; [|done].
  by rewrite IH.
Qed.

Lemma NoDup_filter_keys name ops : NoDup (map xkey ops) → NoDup (map xkey (filter (λ op, xo_Collection op = name) ops)).
Proof.
  induction ops as [|op ops IH]; [done|]. intros [Hn Hnd]%NoDup_cons. rewrite filter_cons.
  destruct (decide _); [|by apply IH]. simpl. constructor; [|by apply IH]. intros (q & Hq & Hin)%list_elem_of_fmap.
  apply Hn. apply list_elem_of_fmap. exists q. split; [done|]. by apply list_elem_of_filter in Hin as [_ ?].
Qed.

Lemma planned_ids d n name ops pls :
  NoDup (map xkey ops) → Forall2 (planned_for d n) (filter (λ op, xo_Collection op = name) ops) pls →
  NoDup (map pid pls) ∧ map pid pls = map xo_ID (filter (λ op, xo_Collection op = name) ops).
Proof.
  intros Hnd H. pose proof (planned_keys _ _ _ _ H) as Hk. pose proof (NoDup_filter_keys name ops Hnd) as Hf.
  assert (map pid pls = map xo_ID (filter (λ op, xo_Collection op = name) ops)) as Hp.
  { apply (f_equal (map snd)) in Hk. rewrite !map_map in Hk. exact Hk. }
  split; [|done]. rewrite Hp. rewrite filter_same_col in Hf. by apply NoDup_fmap_1 in Hf.
Qed.

Lemma runs_cols d s pls : map run_col (runs_of d s pls) = map fst pls.
Proof. unfold runs_of. rewrite map_map. done. Qed.

(** The run of one participant. *)
Definition run_for (d : DB) (ts : string) (np : string * list planned) : xtxRun :=
  MkRun np.1 (map (run_entry ts (col_epoch d np.1)) np.2).

(** The whole commit, from the database [d] it starts from: [d9] is the one the
    decision is taken in, [d11] the one after it, [d12] the one with the plan applied. *)
Section committed.
Context (d d9 d11 d12 : DB) (n : Z) (ops : list XTxOp) (pls : list (string * list planned))
        (offs : gmap string (list nat)) (txid ts : string).
Context (Hnd : NoDup (map xkey ops)) (Hcov : ∀ op, op ∈ ops → xo_Collection op ∈ map fst pls).
Context (Hpl : Forall (all_planned d n ops) pls) (H9 : db_rel timed d d9) (H11 : db_rel kin d9 d11).
Context (Hoffs : Forall (offsets_for offs) (runs_of d9 ts pls)).

Lemma runs_ready : Forall (ready offs d11) pls.
Proof using Hnd Hpl H9 H11 Hoffs.
  apply Forall_forall. intros np Hin. rewrite Forall_forall in Hpl. rewrite Forall_forall in Hoffs.
  destruct (Hpl np Hin) as [[c Hs] Hf]. split; [by eapply planned_known|].
  split; [by eapply planned_ids|]. split.
  - destruct (Hoffs (run_for d9 ts np)) as (os & Hos & Hl); [by apply list_elem_of_fmap_2|].
    exists os. split; [done|]. simpl in Hl. by rewrite length_map in Hl.
  - destruct (db_rel_l _ _ _ _ _ H9 Hs) as (c9 & Hc9 & _). destruct (db_rel_l _ _ _ _ _ H11 Hc9) as (c11 & Hc11 & _).
    by eexists.
Qed.

Context (Happ : ∀ name ps, (name, ps) ∈ pls → ∃ c c' os, offs !! name = Some os ∧ length os = length ps ∧
           d_cols d11 !! name = Some c ∧ d_cols d12 !! name = Some c' ∧ applied_to ps os c c').
Context (Hrest : ∀ name, name ∉ map fst pls → d_cols d12 !! name = d_cols d11 !! name).

(** The place of an operation in the plan, and its effect. *)
Lemma op_planned op :
  op ∈ ops → ∃ ps i p os off c c', (xo_Collection op, ps) ∈ pls ∧ ps !! i = Some p ∧ planned_for d n op p ∧
    offs !! xo_Collection op = Some os ∧ os !! i = Some off ∧
    d_cols d11 !! xo_Collection op = Some c ∧ d_cols d12 !! xo_Collection op = Some c' ∧ same_files c c' ∧
    applied_effect (path (active c)) (epoch_of c) p off (Get (index c') (xo_ID op)).
Proof using Hcov Hpl Happ.
  intros Hop. destruct (proj1 (list_elem_of_fmap _ _ _) (Hcov op Hop)) as ([name ps] & Hname & Hin).
  simpl in Hname. subst name. rewrite Forall_forall in Hpl. destruct (Hpl _ Hin) as [_ Hf]. simpl in Hf.
  assert (op ∈ filter (λ o, xo_Collection o = xo_Collection op) ops) as Hof by (by apply list_elem_of_filter).
  apply list_elem_of_lookup_1 in Hof as [i Hi].
  destruct (Forall2_lookup_l _ _ _ _ _ Hf Hi) as (p & Hp & Hpf).
  destruct (Happ _ _ Hin) as (c & c' & os & Hos & Hlen & Hc & Hc' & Hs & Ha & _).
  destruct (lookup_lt_is_Some_2 os i) as [off Hoff]; [rewrite Hlen; by eapply lookup_lt_Some|].
  exists ps, i, p, os, off, c, c'. split_and!; try done. specialize (Ha i p off Hp Hoff).
  pose proof (pf_key _ _ _ _ Hpf) as Hk. injection Hk as _ Hid. unfold pid in Ha. rewrite Hid in Ha. exact Ha.
Qed.

Lemma rest_kept k : k ∉ map xkey ops → entry_of (idx d12) k = entry_of (idx d) k.
Proof using Hnd Hpl H9 H11 Happ Hrest.
  assert (∀ name, idx d11 !! name = idx d !! name) as Hidx.
  { intros name. unfold idx. rewrite !lookup_fmap. specialize (H9 name). specialize (H11 name).
    destruct H9 as [c c9 Ht|]; inversion H11 as [? ? [Hi _]|]; subst; [|done].
    simpl. rewrite Hi. by destruct Ht as [t ->]. }
  destruct k as [name id]. intros Hk. unfold entry_of. simpl. rewrite <- Hidx.
  destruct (decide (name ∈ map fst pls)) as [Hin|Hin].
  2:{ unfold idx. by rewrite !lookup_fmap, Hrest. }
  apply list_elem_of_fmap in Hin as ([name' ps] & -> & Hin). simpl in *.
  destruct (Happ _ _ Hin) as (c & c' & os & _ & _ & Hc & Hc' & _ & _ & Hr).
  rewrite (idx_lookup _ _ _ Hc), (idx_lookup _ _ _ Hc'). simpl. apply Hr.
  rewrite Forall_forall in Hpl. destruct (Hpl _ Hin) as [_ Hf]. simpl in Hf.
  destruct (planned_ids _ _ _ _ _ Hnd Hf) as [_ ->].
  intros (op & -> & Hof)%list_elem_of_fmap. apply list_elem_of_filter in Hof as [Hcol Hof].
  apply Hk. apply list_elem_of_fmap. exists op. unfold xkey. by rewrite Hcol.
Qed.

Context (Hwr : sizes_known d → ∀ r, r ∈ runs_of d9 ts pls → ∃ c c', d_cols d9 !! run_col r = Some c ∧
           d_cols d11 !! run_col r = Some c' ∧ run_in txid r (active c) offs (active c')).

Lemma planned_stored op ps i p os off c c' :
  sizes_known d → (xo_Collection op, ps) ∈ pls → ps !! i = Some p → planned_for d n op p →
  offs !! xo_Collection op = Some os → os !! i = Some off →
  d_cols d11 !! xo_Collection op = Some c → d_cols d12 !! xo_Collection op = Some c' → same_files c c' →
  applied_effect (path (active c)) (epoch_of c) p off (Get (index c') (xo_ID op)) →
  op_stored d d12 n txid ts op (pl_rev p).
Proof using H9 H11 Hwr.
  intros Hsz Hin Hp Hpf Hos Hoff Hc Hc' (Hse & Hact & Henc) [_ He].
  destruct (pf_stored _ _ _ _ Hpf) as (c0 & Hc0 & Hsd & Hexp).
  destruct (Hwr Hsz (run_for d9 ts (xo_Collection op, ps))) as (c9 & c11 & Hc9 & Hc11 & os' & Hos' & Hrw);
    [by apply list_elem_of_fmap_2|]. simpl in Hc9, Hc11, Hos', Hrw.
  assert (c11 = c) as -> by congruence. assert (os' = os) as -> by congruence.
  destruct (db_rel_r _ _ _ _ _ H9 Hc9) as (c0' & Hc0' & t & Ht). assert (c0' = c0) as -> by congruence.
  destruct (db_rel_r _ _ _ _ _ H11 Hc) as (c9' & Hc9' & _ & Henc9). assert (c9' = c9) as -> by congruence.
  assert (epoch_of c = epoch_of c0) as Hep by (unfold epoch_of; by rewrite Henc9, Ht).
  assert (col_epoch d9 (xo_Collection op) = epoch_of c0) as Hep9 by (unfold col_epoch, epoch_of; by rewrite Hc9, Ht).
  pose proof (pf_key _ _ _ _ Hpf) as Hk. injection Hk as _ Hid. pose proof (pf_op _ _ _ _ Hpf) as Hop.
  destruct Hrw as [Hl Hpath _ _ Hlast]. rewrite Hep9 in Hl, Hlast.
  assert (map (run_entry ts (epoch_of c0)) ps !! i = Some (run_entry ts (epoch_of c0) p)) as Hre by (by rewrite list_lookup_fmap, Hp).
  destruct (Forall2_lookup_l _ _ _ _ _ Hl Hoff) as (e & He' & Hline).
  rewrite (stamped_from_lookup _ _ 0 _ _ _ Hre) in He'. injection He' as <-.
  unfold set_stamp, run_entry in Hline. simpl in Hline. rewrite Hid, Hop, Hexp in Hline.
  exists c0, c', (pl_sealed p), (active c), off. eexists _, _. split_and!; [done|done|done| | |exact Hline|].
  - unfold segs. rewrite Hse, Hact. apply elem_of_app. right. by apply list_elem_of_singleton.
  - apply Hlast. left. intros Hnil. by rewrite Hnil in Hre.
  - intros Hnd'. rewrite <- Hop in Hnd'. rewrite (He Hnd'), Hexp, Hep. done.
Qed.

Lemma plan_effect reads :
  Forall (read_holds (idx d) n) reads →
  committed_effect d ops reads n (MkXRes txid (concat (map (λ np, map (op_result np.1) np.2) pls)) false None) d12.
Proof using All.
  intros Hreads. split; [done|]. split; [|apply rest_kept]. exists ts. intros op Hop.
  destruct (op_planned op Hop) as (ps & i & p & os & off & c & c' & Hin & Hp & Hpf & Hos & Hoff & Hc & Hc' & Hs & Ha).
  pose proof (pf_key _ _ _ _ Hpf) as Hk. injection Hk as _ Hid.
  split; [by apply pf_allowed in Hpf|]. exists (pl_rev p). split_and!.
  - apply list_elem_of_In, in_concat. exists (map (op_result (xo_Collection op)) ps). rewrite <- !list_elem_of_In. split.
    + apply list_elem_of_fmap. by exists (xo_Collection op, ps).
    + apply list_elem_of_fmap. exists p. unfold op_result. rewrite Hid, (pf_op _ _ _ _ Hpf).
      split; [done|]. by eapply list_elem_of_lookup_2.
  - eapply (pf_effect _ _ _ _ Hpf). unfold entry_of, xkey. simpl. rewrite (idx_lookup _ _ _ Hc'). exact Ha.
  - intros Hsz. by eapply planned_stored.
Qed.
End committed.

Ltac quietly H :=
  match type of H with
  | ?m ?d = (?d', _) => let Hq := fresh "Hq" in assert (idx d' = idx d) as Hq by (eapply quiet_run; [|exact H]; auto with quiet)
  end.

(** One step of a commit: it fails and nothing changed, or it goes on. *)
Ltac commit_step H d a Hm :=
  let e := fresh "e" in
  apply xbind_inv in H as [(d & a & Hm & H)|(e & Hm & ->)];
  [quietly Hm|quietly Hm; simpl; congruence].

(** A step that leaves the collections, or only moves their clocks. *)
Lemma timed_step {A} (m : X A) d0 d d' r : db_rel timed d0 d → spreads timed m → m d = (d', r) → db_rel timed d0 d'.
Proof. intros H0 Hm Hr. eapply (db_rel_trans timed); [exact H0|]. by eapply spreads_run. Qed.

Lemma still_step {A} (m : X A) d0 d d' r : db_rel timed d0 d → still m → m d = (d', r) → db_rel timed d0 d'.
Proof. intros H0 Hm. apply timed_step; [done|]. by apply spreads_same; [apply _|]. Qed.

Lemma unpoisoned cols names name c :
  poisoned_any cols names = false → name ∈ names → cols !! name = Some c → poisoned (active c) = false.
Proof.
  intros H Hn Hc. destruct (poisoned (active c)) eqn:Hp; [|done]. exfalso.
  assert (poisoned_any cols names = true) as Ht; [|congruence].
  apply existsb_exists. exists name. rewrite <- list_elem_of_In. by rewrite Hc.
Qed.

Lemma locked_spec key ops reads parts locked d d' r :
  NoDup parts → NoDup (map xkey ops) → (∀ op, op ∈ ops → xo_Collection op ∈ parts) →
  commitXTxLocked key ops reads parts locked d = (d', r) →
  match r with
  | Err _ => idx d' = idx d
  | Ok (res, (_, l)) =>
      xr_Replayed res = false ∧ committed_effect d ops reads (latest (d_cols d) parts (d_wall d) 0) res d' ∧
      Forall (λ npd, is_Some (idx d' !! npd.1.1)) l
  end.
Proof.
  intros Hp Hnd Hcov. unfold commitXTxLocked. intros H.
  commit_step H d0 x0 Hm0. injection Hm0 as <- <-. commit_step H d1 x1 Hm1. commit_step H d2 n Hm2.
  pose proof (steady_run _ _ _ _ (steady_guard _ _) Hm1) as [Hc1 Hw1].
  pose proof (instant_latest _ _ _ _ _ Hp Hm2) as Hn. rewrite Hc1, Hw1 in Hn. subst n.
  set (n := latest _ _ _ _) in *.
  assert (db_rel timed d d2) as T2.
  { eapply timed_step; [|apply timed_instant|exact Hm2]. by apply (db_rel_same timed). }
  commit_step H d3 x3 Hm3. injection Hm3 as <- <-.
  destruct (validateXTxReads (d_cols d2) reads n) as [[]|e] eqn:Hv; [|injection H as <- <-; congruence].
  apply reads_validated in Hv.
  commit_step H d4 x4 Hm4. commit_step H d5 pls Hm5. commit_step H d6 t Hm6. commit_step H d7 eops Hm7.
  commit_step H d8 txid Hm8. commit_step H d9 env Hm9. commit_step H d10 x10 Hm10.
  injection Hm10 as <- <-. commit_step H d11 offs Hm11.
  set (ts := s_of_b _) in Hm11.
  assert (d4 = d2 ∧ poisoned_any (d_cols d2) parts = false) as [-> Hpois].
  { destruct (poisoned_any (d_cols d2) parts); [done|]. by injection Hm4 as <- _. }
  assert (db_rel timed d d9) as T9.
  { eapply still_step; [|apply still_seal|exact Hm9]. eapply still_step; [|apply still_alloc|exact Hm8].
    eapply still_step; [|apply still_envelope|exact Hm7]. eapply still_step; [|apply still_wall|exact Hm6].
    eapply timed_step; [exact T2|apply timed_plan_all|exact Hm5]. }
  eapply plan_all_spec in Hm5 as [Hnames Hpl]; [|exact T2].
  apply decide_written in Hm11 as (Hoffs & K11 & Hwr); [|by rewrite runs_cols, Hnames].
  destruct (apply_all_spec offs pls d11) as (d12 & l & Hl & Hfst & Happ & Hrest).
  { by rewrite Hnames. }
  { by eapply runs_ready. }
  unfold xbind at 1 in H. rewrite Hl in H.
  apply xbind_inv in H as [(d13 & x13 & Hm13 & H)|(e & Hm13 & ->)]; [|discriminate Hm13].
  pose proof (still_run _ _ _ _ (still_publish env) Hm13) as Hc13.
  injection H as <- <-. split; [done|]. split.
  2:{ apply Forall_forall. intros [[name ps] due] Hin. simpl.
      destruct (Happ name ps) as (c & c' & os & _ & _ & _ & Hc' & _).
      { rewrite <- Hfst. apply list_elem_of_fmap. by exists (name, ps, due). }
      unfold idx. rewrite lookup_fmap, Hc13, Hc'. by eexists. }
  eapply (plan_effect d d9 d11 d13 n ops pls offs txid ts); try done.
  - by rewrite Hnames.
  - by rewrite Hc13.
  - by rewrite Hc13.
  - intros Hsz. apply Hwr. intros r c Hr Hc. apply (list_elem_of_fmap_2 run_col) in Hr.
    rewrite runs_cols, Hnames in Hr. destruct (db_rel_r _ _ _ _ _ T9 Hc) as (c0 & Hc0 & u & ->).
    destruct (db_rel_l _ _ _ _ _ T2 Hc0) as (c2 & Hc2 & u2 & ->).
    pose proof (unpoisoned _ _ _ _ Hpois Hr Hc2) as Hpo. simpl in Hpo. split; [done|]. by apply (Hsz _ _ Hc0).
  - replace (idx d) with (idx d2) by congruence. done.
Qed.

(** ** Admission *)

Lemma group_ops_keys cols seen sz ops s :
  group_ops cols seen sz ops = Ok s → NoDup (map xkey ops) ∧ Forall (λ op, xkey op ∉ seen) ops.
Proof.
  revert seen sz. induction ops as [|op ops IH]; intros seen sz; simpl; [intros _; split; constructor|].
  destruct (decide _); [done|]. destruct (match cols !! _ with Some _ => _ | None => _ end); [|done].
  destruct (decide _) as [|Hn]; [done|]. intros [Hnd Hall]%IH. rewrite Forall_forall in Hall. split.
  - constructor; [|done]. intros (q & Hq & Hin)%list_elem_of_fmap. apply (Hall q Hin).
    apply elem_of_union_l, elem_of_singleton. by rewrite <- Hq.
  - constructor; [done|]. apply Forall_forall. intros q Hq Hin. apply (Hall q Hq). by apply elem_of_union_r.
Qed.

Lemma names_of_NoDup l : NoDup (names_of l).
Proof. unfold names_of. rewrite (ssort_perm str_ltb). apply NoDup_remove_dups. Qed.

Lemma elem_of_names_of l n : n ∈ names_of l ↔ n ∈ l.
Proof. unfold names_of. rewrite elem_of_ssort. apply elem_of_remove_dups. Qed.

(** The instant of a commit: the latest clock of the collections it writes to; the
    first reading of the wall clock is the one of the journal. *)
Definition instant (d : DB) (ops : list XTxOp) : Z :=
  latest (d_cols d) (names_of (map xo_Collection ops)) (tail (d_wall d)) 0.

(** What a commit leaves: all of it, or nothing when it failed or was a replay. *)
Definition outcome (d : DB) (ops : list XTxOp) (reads : list xtxReadCheck) (r : res XTxError XTxResult) (d' : DB) : Prop :=
  match r with
  | Err _ => idx d' = idx d
  | Ok res => if xr_Replayed res then idx d' = idx d else committed_effect d ops reads (instant d ops) res d'
  end.

(** The work after the locks keeps the effect. *)
Lemma effect_kept d ops reads n r d1 d2 r' :
  committed_effect d ops reads n r d1 → idx d2 = idx d1 → db_rel segs_held d1 d2 →
  xr_TxID r' = xr_TxID r → xr_Ops r' = xr_Ops r → committed_effect d ops reads n r' d2.
Proof.
  intros (Hr & [ts Hops] & Hrest) Hi Hs Htx Hres. unfold committed_effect. rewrite Hi, Htx, Hres.
  split; [done|]. split; [|done]. exists ts. intros op Hop. destruct (Hops op Hop) as (Ha & rev & Hin & He & Hst).
  split; [done|]. exists rev. split_and!; [done|done|]. intros Hsz.
  destruct (Hst Hsz) as (c & c1 & sd & s & o & i & k & Hc & Hc1 & Hsd & Hseg & Hlast & Hline & Hent).
  destruct (db_rel_l _ _ _ _ _ Hs Hc1) as (c2 & Hc2 & Hheld). destruct (Hheld s Hseg Hlast) as (s2 & Hs2 & Hp & Hd).
  exists c, c2, sd, s2, o, i, k. rewrite Hp, Hd. split_and!; try done. intros Hnd. rewrite <- (Hent Hnd).
  unfold Get. f_equal. pose proof (idx_lookup _ _ _ Hc1) as I1. pose proof (idx_lookup _ _ _ Hc2) as I2. congruence.
Qed.

(** Where the commit starts matters only by the collections and the clock. *)
Lemma effect_from d d0 ops reads n r d' :
  d_cols d0 = d_cols d → committed_effect d0 ops reads n r d' → committed_effect d ops reads n r d'.
Proof. unfold committed_effect, idx, sizes_known, op_stored. by intros ->. Qed.

Lemma in_col_total {A} name (m : M A) d :
  is_Some (idx d !! name) → ∃ d' r, in_col name m d = (d', Ok r).
Proof. intros [x (c & Hc & _)%idx_Some]. destruct (in_col_run name m d c Hc) as (st & r & _ & H). eauto. Qed.

(** A quiet action on existing collections succeeds. *)
Definition sure {A} (v : gmap string (gmap Z IndexEntry)) (m : X A) : Prop :=
  ∀ d, idx d = v → ∃ d' a, m d = (d', Ok a) ∧ idx d' = v.

Lemma sure_ret {A} v (a : A) : sure v (xret a). Proof. intros d. by exists d, a. Qed.

Lemma sure_bind {A B} v (m : X A) (k : A → X B) : sure v m → (∀ a, sure v (k a)) → sure v (xbind m k).
Proof.
  intros Hm Hk d Hd. destruct (Hm d Hd) as (d1 & a & H1 & Hd1). unfold xbind. rewrite H1. by apply Hk.
Qed.

Lemma sure_in_col {A} v name (m : M A) : is_Some (v !! name) → keeps m → sure v (in_col name m).
Proof.
  intros Hn Hm d <-. destruct (in_col_total name m d Hn) as (d' & r & H). exists d', r. split; [done|].
  eapply quiet_run; [|exact H]. by apply quiet_in_col.
Qed.

Lemma sure_each {A} v (f : A → X unit) l : Forall (λ a, sure v (f a)) l → sure v (xeach f l).
Proof. induction 1; simpl; [apply sure_ret|]. apply sure_bind; [done|]. by intros _. Qed.

Lemma post_total v ts l : Forall (λ npd, is_Some (v !! npd.1.1)) l → sure v (post_commit ts l).
Proof.
  intros Hl. unfold post_commit. apply sure_bind.
  - apply sure_each. eapply Forall_impl; [exact Hl|]. intros npd Hn. apply sure_each, Forall_forall. intros p _.
    apply sure_bind; [|intros _; apply sure_ret]. apply sure_in_col; [done|apply keeps_emit].
  - intros _. induction Hl as [|[[name pls] due] l Hn Hl IH]; simpl; [apply sure_ret|].
    apply sure_bind; [|intros e; apply sure_bind; [done|intros e'; apply sure_ret]].
    unfold post_col. apply sure_bind; [apply sure_in_col; [done|apply keeps_rotate]|]. intros r.
    apply sure_bind; [|intros m; apply sure_ret].
    destruct (_ <? _)%Z; [apply sure_in_col; [done|apply keeps_meta]|apply sure_ret].
Qed.

Lemma remember_total v key r : sure v (rememberResult key r).
Proof.
  intros d Hd. exists (rememberResult key r d).1, tt. split; [done|]. rewrite <- Hd. apply quiet_remember.
Qed.

Lemma commit_locked_spec key ops reads d d' r :
  NoDup (map xkey ops) → commit_locked key ops reads d = (d', r) → outcome d ops reads r d'.
Proof.
  intros Hnd. unfold commit_locked. intros H.
  commit_step H d0 x0 Hm0. commit_step H d1 x1 Hm1. commit_step H d2 x2 Hm2.
  apply ensure_world in Hm0 as [C0 W0]. apply (steady_run _ _ _ _ steady_lock) in Hm1 as [C1 W1].
  apply (steady_run _ _ _ _ (steady_locks _)) in Hm2 as [C2 W2].
  assert (d_cols d2 = d_cols d) as Hc by congruence. assert (d_wall d2 = tail (d_wall d)) as Hw by congruence.
  assert (∀ op, op ∈ ops → xo_Collection op ∈ names_of (map xo_Collection ops)) as Hcov.
  { intros op Hop. apply elem_of_names_of, list_elem_of_fmap. eauto. }
  apply xbind_inv in H as [(d3 & [res [ts l]] & Hm3 & H)|(e & Hm3 & ->)];
    (apply locked_spec in Hm3; [|apply names_of_NoDup|done|done]); [|simpl; congruence].
  destruct Hm3 as (Hrep & Heff & Hl). rewrite Hc, Hw in Heff. fold (instant d ops) in Heff.
  destruct (post_total (idx d3) ts l Hl d3) as (d4 & pe & Hp & Hd4); [done|].
  pose proof (spreads_run _ _ _ _ _ (held_post ts l) Hp) as Hheld.
  unfold xbind at 1 in H. rewrite Hp in H. set (out := MkXRes _ _ _ _) in H.
  assert (r = Ok out ∧ d_cols d' = d_cols d4) as [-> Hc4].
  { destruct (decide (key = "")); [by injection H as <- <-|].
    pose proof (still_remember key out d4) as Hs. unfold xbind, rememberResult in *.
    by injection H as <- <-. }
  simpl. rewrite Hrep. apply (effect_from d d2); [done|].
  eapply effect_kept; [exact Heff| | |done|done].
  - rewrite <- Hd4. unfold idx. by rewrite Hc4.
  - intros name. rewrite Hc4. apply Hheld.
Qed.

Lemma commit_keyed_spec key ops reads d d' r :
  NoDup (map xkey ops) → commit_keyed key ops reads d = (d', r) → outcome d ops reads r d'.
Proof.
  intros Hnd. unfold commit_keyed. destruct (decide (key = "")); [by apply commit_locked_spec|].
  unfold xbind, xget. destruct (decide _); [by intros [= <- <-]|]. unfold end_inFlight, xbind, xget.
  set (d1 := set_inFlight d _). intros H. change (outcome d1 ops reads r d'). revert H.
  destruct (replayed d1 key ops) as [res|] eqn:Hr.
  - intros [= <- <-]. simpl. assert (xr_Replayed res = true) as ->; [|done].
    revert Hr. unfold replayed, cachedResult. destruct (d_journal d1); [|done].
    destruct (statusByKey head _ key) as [[] prev]; try done.
    destruct (d_results d1 !! key); [destruct (decide _)|]; by intros [= <-].
  - destruct (commit_locked key ops reads d1) as [d2 r2] eqn:Hc. intros [= <- <-].
    by apply commit_locked_spec in Hc.
Qed.

Lemma commit_outcome key ops reads d d' r :
  commitXTx key ops reads d = (d', r) → outcome d ops reads r d'.
Proof.
  unfold commitXTx. destruct ops as [|op ops]; [by intros [= <- <-]|]. remember (op :: ops) as all eqn:Hall.
  intros H. commit_step H d0 x0 Hm0. injection Hm0 as <- <-.
  commit_step H d1 x1 Hm1. commit_step H d2 x2 Hm2. commit_step H d3 x3 Hm3.
  apply (steady_run _ _ _ _ (steady_guard _ _)) in Hm1 as [C1 W1].
  apply (steady_run _ _ _ _ (steady_guard _ _)) in Hm2 as [C2 W2].
  apply (steady_run _ _ _ _ steady_lock) in Hm3 as [C3 W3].
  assert (d_cols d3 = d_cols d) as Hc by congruence. assert (d_wall d3 = d_wall d) as Hw by congruence.
  assert (idx d3 = idx d) as Hi by congruence.
  destruct (group_ops (d_cols d) ∅ 0 all) as [sz|] eqn:Hg; [|by injection H as <- <-].
  apply group_ops_keys in Hg as [Hnd _].
  destruct (limits_check _ _ _ _); [|by injection H as <- <-].
  apply commit_keyed_spec in H; [|done]. unfold outcome, instant in *. rewrite Hi, Hc, Hw in H.
  destruct r as [res|]; [|done]. destruct (xr_Replayed res); [done|]. by apply (effect_from d d3).
Qed.

(** Claim C14: a transaction over several collections is applied whole or not at
    all, in the running database.  When a commit returns success and is not the
    replay of an earlier one, then at its instant (the latest of the clocks of the
    collections it writes to) every document it had read was present or absent, and
    at the revision, as it had read it, and every document it updates or deletes
    was there, unexpired and at the revision it expects.  Afterwards each document
    it names has the revision of its operation (inserts at 1, updates one further,
    deletions gone), the result lists those revisions, and no other document of any
    collection has changed.  If the sizes kept of the active segments were those of
    the files, a segment of the collection holds, under the stamp of the
    transaction, the line of every operation with its revision, its deadline at
    that instant and its data (sealed, the reserved key of an updated document
    kept), and the index entry of the document is the place of that line.  When it
    fails, or replays, no document of the running database has changed; after
    ErrXTxOutcomeUnknown the next open settles the transaction from the journal. *)
Theorem commit_all_or_nothing key ops reads d d' r :
  commitXTx key ops reads d = (d', r) →
  let v := idx d in let v' := idx d' in let n := instant d ops in
  match r with
  | Err _ => v' = v
  | Ok res =>
      if xr_Replayed res then v' = v
      else Forall (read_holds v n) reads ∧
        (∃ ts, ∀ op, op ∈ ops → op_allowed v n op ∧ ∃ rev,
           MkOpRes (xo_Collection op) (xo_ID op) rev (xo_Op op) ∈ xr_Ops res ∧
           op_effect v op rev (entry_of v' (xkey op)) ∧
           (sizes_known d → op_stored d d' n (xr_TxID res) ts op rev)) ∧
        (∀ k, k ∉ map xkey ops → entry_of v' k = entry_of v k)
  end.
Proof. intros H. by apply commit_outcome in H. Qed.
