(* ===== verification/XHandle.v ===== *)
(** * Transaction handles: [engine/xtx_handle.go]

    A handle buffers writes and remembers what it saw; [Commit] hands both to
    [commitXTx] of [XDb].  Operations of one handle are serialized, and between
    them anything may happen to the database, so each operation takes the
    database it finds and returns the one it leaves.  [n] is the clock
    ([time.Now]) of a call, in nanoseconds.  Timestamps of staged operations and
    the metrics hooks are left out. *)
From Stdlib Require Import Ascii Lia ZArith.
From stdpp Require Import prelude gmap strings sorting.
From S2P Require Import Prelude.
From S2P Require Import Json.
From S2P Require Import Value.
From S2P Require Import GoTime.
From S2P Require Import Store.
From S2P Require Import Index.
From S2P Require Import Collection.
From S2P Require Import Batch.
From S2P Require Import Journal.
From S2P Require Import Names.
From S2P Require Import XDb.

(** ** Handles *)

Inductive xtxState : Type :=
  | xtxActive | xtxCommitting | xtxCommitted | xtxFailed | xtxRolledBack | xtxExpired | xtxOutcomeUnknown | xtxClosed.

#[global] Instance xtxState_eq_dec : EqDecision xtxState.
Proof. solve_decision. Defined.

Notation xtxDocKey := (string * Z)%type.

Record xtxObservation : Type := MkObs { ob_present : bool; ob_rev : Z; ob_write : bool }.

Record XTx : Type := MkXTx {
  h_id : string;
  h_key : string;
  h_participants : list string;
  h_idle : Z;
  h_maxLife : Z;
  h_createdAt : Z;
  h_state : xtxState;
  h_lastUsed : Z;
  h_finishedAt : Z;
  h_writes : gmap xtxDocKey XTxOp;
  h_order : list xtxDocKey;
  h_observed : gmap xtxDocKey xtxObservation;
  h_result : option XTxResult;
  h_err : option XTxError;
  h_txid : string
}.

Section updates.
Context (x : XTx).
Definition set_state (st : xtxState) (used : Z) : XTx :=
  MkXTx (h_id x) (h_key x) (h_participants x) (h_idle x) (h_maxLife x) (h_createdAt x) st used (h_finishedAt x)
    (h_writes x) (h_order x) (h_observed x) (h_result x) (h_err x) (h_txid x).
Definition set_writes (w : gmap xtxDocKey XTxOp) (o : list xtxDocKey) : XTx :=
  MkXTx (h_id x) (h_key x) (h_participants x) (h_idle x) (h_maxLife x) (h_createdAt x) (h_state x) (h_lastUsed x)
    (h_finishedAt x) w o (h_observed x) (h_result x) (h_err x) (h_txid x).
Definition set_observed (k : xtxDocKey) (ob : xtxObservation) : XTx :=
  MkXTx (h_id x) (h_key x) (h_participants x) (h_idle x) (h_maxLife x) (h_createdAt x) (h_state x) (h_lastUsed x)
    (h_finishedAt x) (h_writes x) (h_order x) (<[k := ob]> (h_observed x)) (h_result x) (h_err x) (h_txid x).
Definition set_outcome (r : option XTxResult) (e : option XTxError) (tx : string) : XTx :=
  MkXTx (h_id x) (h_key x) (h_participants x) (h_idle x) (h_maxLife x) (h_createdAt x) (h_state x) (h_lastUsed x)
    (h_finishedAt x) (h_writes x) (h_order x) (h_observed x) r e tx.
(** [finish]: a final state, with everything staged released. *)
Definition finish (st : xtxState) (n : Z) : XTx :=
  MkXTx (h_id x) (h_key x) (h_participants x) (h_idle x) (h_maxLife x) (h_createdAt x) st (h_lastUsed x) n
    ∅ [] ∅ (h_result x) (h_err x) (h_txid x).
End updates.

Definition DefaultXTxIdleTimeout : Z := 60000000000.

Record XTxOptions : Type := MkOpts { o_Key : string; o_IdleTimeout : Z; o_MaxLifetime : Z }.

(** ** States *)

Definition expiredAt (x : XTx) (n : Z) : bool :=
  (0 <? h_idle x)%Z && (h_idle x <? n - h_lastUsed x)%Z ||
  (0 <? h_maxLife x)%Z && (h_maxLife x <? n - h_createdAt x)%Z.

Definition stateErr (x : XTx) : option XTxError :=
  match h_state x with
  | xtxActive => None
  | xtxCommitting => Some (xtxErr (h_txid x) SInProgress)
  | xtxExpired => Some (xtxErr "" SExpired)
  | xtxOutcomeUnknown => Some (default (xtxErr "" SOutcomeUnknown) (h_err x))
  | xtxCommitted => Some (xtxErr (h_txid x) SFinished)
  | xtxRolledBack | xtxClosed => Some (xtxErr "" SFinished)
  | xtxFailed => Some (xtxErr (h_txid x) SFinished)
  end.

(** The handle after its deadline was looked at, and why it cannot be used. *)
Definition usable (x : XTx) (n : Z) : XTx * option XTxError :=
  let x := if bool_decide (h_state x = xtxActive) && expiredAt x n then finish x xtxExpired n else x in
  (x, stateErr x).

(** ** Reading the collections *)

Definition liveRev (id : Z) : M (option Z) :=
  (c <- get_coll ;;
   match Get (index c) id with
   | None => ret None
   | Some loc => n <- now ;; ret (if expired (ie_ExpiresAt loc) n then None else Some (ie_Rev loc))
   end)%scriva.

(** The third attempt that finds the document live and unreadable reports it;
    the clock of a collection never goes back, so a fourth one only finds the
    document gone. *)
Fixpoint get_attempts (fuel attempt : nat) (id : Z) : M (option Record_) :=
  match fuel with
  | O => ret None
  | S fuel' =>
      (l <- liveRev id ;;
       match l with
       | None => ret None
       | Some _ =>
           r <- try_ (Get_ id) ;;
           match r with
           | Ok rec => ret (Some rec)
           | Err e =>
               l' <- liveRev id ;;
               match l' with
               | Some _ => if 2 <=? attempt then throw e else get_attempts fuel' (S attempt) id
               | None => get_attempts fuel' (S attempt) id
               end
           end
       end)%scriva
  end.

Definition getIfPresent (id : Z) : M (option Record_) := get_attempts 4 0 id.

(** An operation on a handle. *)
Definition H (A : Type) : Type := XTx → DB → XTx * DB * res XTxError A.

(** [participant]. *)
Definition participant (x : XTx) (d : DB) (coll : string) : option XTxError :=
  if decide (coll ∈ h_participants x) then
    match d_cols d !! coll with Some _ => None | None => Some (xtxErr "" SCollectionNotFound) end
  else Some (xtxErr "" SNotParticipant).

(** The handle's observation of a stored document, taken the first time. *)
Definition observe (x : XTx) (d : DB) (k : xtxDocKey) : XTx * DB * xtxObservation :=
  match h_observed x !! k with
  | Some ob => (x, d, ob)
  | None =>
      let '(d, r) := in_col k.1 (liveRev k.2) d in
      let ob := match r with
                | Ok (Ok (Some rev)) => MkObs true rev false
                | _ => MkObs false 0 false
                end in
      (set_observed x k ob, d, ob)
  end.

Definition xtxDocNotFound : XTxError := xtxErr "" SDocNotFound.

Definition stageRevConflict (x : XTx) (k : xtxDocKey) (expected : Z) : XTxError :=
  let ob := default (MkObs false 0 false) (h_observed x !! k) in
  MkXErr "" SConflict (Some (MkConflict k.1 k.2 true true expected (ob_present ob) (ob_rev ob))).

(** ** Staging *)

(** The checks of an operation's shape. *)
Definition stage_shape (op : XTxOp) : option XTxError :=
  let reserved := match xo_Data op with Some m => has_key m | None => false end in
  if decide (xo_Op op = OpInsert) then
    if negb (xo_ID op =? 0)%Z || negb (xo_ExpectedRev op =? 0)%Z then Some (xtxErr "" SInvalid)
    else if reserved then Some (xtxErr "" SReservedField) else None
  else if decide (xo_Op op = OpUpdate) then
    if (xo_ID op =? 0)%Z then Some (xtxErr "" SInvalid)
    else if reserved then Some (xtxErr "" SReservedField) else None
  else if decide (xo_Op op = OpDelete) then
    if (xo_ID op =? 0)%Z then Some (xtxErr "" SInvalid) else None
  else Some (xtxErr "" SInvalid).

Definition with_id (op : XTxOp) (id : Z) : XTxOp :=
  MkXOp (xo_Collection op) (xo_Op op) id (xo_Data op) (xo_ExpectedRev op) (xo_ExpiresAt op) (xo_ts op).
Definition with_base (op : XTxOp) (rev : Z) : XTxOp :=
  MkXOp (xo_Collection op) (xo_Op op) (xo_ID op) (xo_Data op) rev (xo_ExpiresAt op) (xo_ts op).

(** A delete carries no data. *)
Definition stage_data (op : XTxOp) : XTxOp :=
  if decide (xo_Op op = OpDelete) then with_xo_data op None else op.

Definition full (x : XTx) : bool := (MaxOps defaultXTxLimits <=? Z.of_nat (size (h_writes x)))%Z.

Definition stage_insert (op : XTxOp) : H Z := λ x d,
  if full x then (x, d, Err (xtxErr "" STooLarge))
  else
    let '(d, r) := in_col (xo_Collection op) ReserveID d in
    match r with
    | Ok (Ok id) =>
        let k := (xo_Collection op, id) in
        (set_writes x (<[k := with_id op id]> (h_writes x)) (h_order x ++ [k]), d, Ok id)
    | _ => (x, d, Err (xtxErr "" SCollectionNotFound))
    end.

(** An operation on a document this handle has already staged: one net operation. *)
Definition stage_fold (op w : XTxOp) (k : xtxDocKey) (x : XTx) : XTx * res XTxError Z :=
  if decide (xo_Op w = OpDelete) then (x, Err xtxDocNotFound)
  else if decide (xo_Op w = OpInsert) then
    if negb (xo_ExpectedRev op =? 0)%Z then (x, Err (xtxErr "" SConflict))
    else if decide (xo_Op op = OpDelete) then
      (set_writes x (delete k (h_writes x)) (h_order x), Ok (xo_ID op))
    else
      let w' := MkXOp (xo_Collection w) (xo_Op w) (xo_ID w) (xo_Data op) (xo_ExpectedRev w)
                  (if (xo_ExpiresAt op =? 0)%Z then xo_ExpiresAt w else xo_ExpiresAt op) (xo_ts w) in
      (set_writes x (<[k := w']> (h_writes x)) (h_order x), Ok (xo_ID op))
  else
    if negb (xo_ExpectedRev op =? 0)%Z && negb (xo_ExpectedRev op =? xo_ExpectedRev w)%Z
    then (x, Err (stageRevConflict x k (xo_ExpectedRev op)))
    else
      let w' := MkXOp (xo_Collection w) (xo_Op op) (xo_ID w) (xo_Data op) (xo_ExpectedRev w)
                  (xo_ExpiresAt op) (xo_ts w) in
      (set_writes x (<[k := w']> (h_writes x)) (h_order x), Ok (xo_ID op)).

(** An operation on a stored document: its revision becomes the base. *)
Definition stage_stored (op : XTxOp) (k : xtxDocKey) : H Z := λ x d,
  let '(x, d, ob) := observe x d k in
  if negb (ob_present ob) then (x, d, Err xtxDocNotFound)
  else if negb (xo_ExpectedRev op =? 0)%Z && negb (xo_ExpectedRev op =? ob_rev ob)%Z
  then (x, d, Err (stageRevConflict x k (xo_ExpectedRev op)))
  else if full x then (x, d, Err (xtxErr "" STooLarge))
  else
    let x := set_observed x k (MkObs (ob_present ob) (ob_rev ob) true) in
    (set_writes x (<[k := with_base op (ob_rev ob)]> (h_writes x)) (h_order x ++ [k]), d, Ok (xo_ID op)).

Definition Stage (op : XTxOp) (n : Z) : H Z := λ x d,
  match participant x d (xo_Collection op) with
  | Some e => (x, d, Err e)
  | None =>
      match stage_shape op with
      | Some e => (x, d, Err e)
      | None =>
          let op := stage_data op in
          let '(x, ue) := usable x n in
          match ue with
          | Some e => (x, d, Err e)
          | None =>
              let x := set_state x (h_state x) n in
              if decide (xo_Op op = OpInsert) then stage_insert op x d
              else
                let k := (xo_Collection op, xo_ID op) in
                match h_writes x !! k with
                | Some w => let '(x, r) := stage_fold op w k x in (x, d, r)
                | None => stage_stored op k x d
                end
          end
      end
  end.

(** ** Point reads *)

Definition zero_rec : Record_ := MkRecord 0 "" 0 zero_time ∅.

Definition h_Get (coll : string) (id n : Z) : H Record_ := λ x d,
  match participant x d coll with
  | Some e => (x, d, Err e)
  | None =>
      let k := (coll, id) in
      let '(x, ue) := usable x n in
      match ue with
      | Some e => (x, d, Err e)
      | None =>
          let x := set_state x (h_state x) n in
          match h_writes x !! k with
          | Some w =>
              if decide (xo_Op w = OpDelete) then (x, d, Err xtxDocNotFound)
              else
                let data := default ∅ (xo_Data w) in
                (x, d, Ok (MkRecord id (key_of data) (xo_ExpectedRev w) zero_time data))
          | None =>
              let '(d, r) := in_col coll (getIfPresent id) d in
              match r with
              | Err e => (x, d, Err e)
              | Ok (Err e) => (x, d, Err (xtxErr "" (SCollection e)))
              | Ok (Ok got) =>
                  let present := bool_decide (is_Some got) in
                  let rev := rec_Rev (default zero_rec got) in
                  let answer := match got with Some rec => Ok rec | None => Err xtxDocNotFound end in
                  match h_observed x !! k with
                  | Some prev =>
                      if negb (bool_decide (ob_present prev = present)) || negb (ob_rev prev =? rev)%Z then
                        (x, d, Err (MkXErr "" SConflict
                           (Some (MkConflict coll id (ob_write prev) (ob_present prev) (ob_rev prev) present rev))))
                      else (x, d, answer)
                  | None => (set_observed x k (MkObs present rev false), d, answer)
                  end
              end
          end
      end
  end.

(** [Scan] and [IndexLookup]. *)
Definition rejectScan (x : XTx) (coll : string) : XTxError :=
  if decide (coll ∈ h_participants x) then xtxErr "" SScanUnsupported else xtxErr "" SNotParticipant.

(** ** Committing *)

Definition commit_ops (x : XTx) : list XTxOp := omap (λ k, h_writes x !! k) (h_order x).

Definition check_less (a b : xtxReadCheck) : bool :=
  if decide (rc_Collection a = rc_Collection b) then (rc_ID a <? rc_ID b)%Z
  else str_ltb (rc_Collection a) (rc_Collection b).

Definition commit_reads (x : XTx) : list xtxReadCheck :=
  ssort check_less
    (map (λ kv, MkRead kv.1.1 kv.1.2 (ob_present kv.2) (ob_rev kv.2) (ob_write kv.2)) (map_to_list (h_observed x))).

(** The commit of what a handle holds. *)
Definition commit_handle (key : string) (ops : list XTxOp) (reads : list xtxReadCheck) : X XTxResult :=
  match ops with
  | [] => (validateXTxReadSet reads ;~ xret (MkXRes "" [] false None))%xdb
  | _ => commitXTx key ops reads
  end.

(** The handle after the outcome [r] of its commit; [n'] is the clock then. *)
Definition settle (x : XTx) (n' : Z) (r : res XTxError XTxResult) : XTx :=
  match r with
  | Ok res => finish (set_outcome x (Some res) (h_err x) (xr_TxID res)) xtxCommitted n'
  | Err e =>
      match xe_Err e with
      | SCanceled | SInProgress => set_state x xtxActive n'
      | SOutcomeUnknown => finish (set_outcome x (h_result x) (Some e) (xe_Tx e)) xtxOutcomeUnknown n'
      | _ => finish (set_outcome x (h_result x) (Some e) (xe_Tx e)) xtxFailed n'
      end
  end.

Definition Commit (n n' : Z) : H XTxResult := λ x d,
  match h_state x, h_result x with
  | xtxCommitted, Some res => (x, d, Ok res)
  | _, _ =>
      let '(x, ue) := usable x n in
      match ue with
      | Some e => (x, d, Err e)
      | None =>
          let x := set_state x xtxCommitting (h_lastUsed x) in
          let '(d, r) := commit_handle (h_key x) (commit_ops x) (commit_reads x) d in
          (settle x n' r, d, r)
      end
  end.

Definition Rollback (n : Z) (x : XTx) : XTx * option XTxError :=
  match h_state x with
  | xtxActive => (finish x xtxRolledBack n, None)
  | xtxFailed | xtxRolledBack | xtxExpired | xtxClosed => (x, None)
  | _ => (x, stateErr x)
  end.

(** ** The registry *)

Record registry : Type := MkReg { rg_handles : gmap string XTx; rg_closed : bool }.

(** [newTxID] draws the id; [dflt] is the idle timeout of the configuration. *)
Definition BeginXTx (id : string) (dflt : Z) (parts : list string) (o : XTxOptions) (n : Z) (rg : registry) (d : DB)
    : registry * res XTxError XTx :=
  match d_cancel d with
  | true :: _ => (rg, Err xtxCanceled)
  | _ =>
      if decide (parts = []) then (rg, Err (xtxErr "" SInvalid))
      else if xtxMaxKeyLen <? String.length (o_Key o) then (rg, Err (xtxErr "" STooLarge))
      else match head (omap (λ name,
                 if decide (name = "") then Some (xtxErr "" SInvalid)
                 else match d_cols d !! name with
                      | Some _ => None
                      | None => match ValidateCollectionName name with
                                | Err e => Some (xtxErr "" (SName e)) | Ok _ => None end
                      end) parts) with
      | Some e => (rg, Err e)
      | None =>
          let names := names_of parts in
          if (MaxParticipants defaultXTxLimits <? Z.of_nat (length names))%Z then (rg, Err (xtxErr "" STooLarge))
          else if existsb (λ name, bool_decide (d_cols d !! name = None)) names
          then (rg, Err (xtxErr "" SCollectionNotFound))
          else
            let idle := if (o_IdleTimeout o =? 0)%Z then
                          (if (dflt =? 0)%Z then DefaultXTxIdleTimeout else dflt)
                        else o_IdleTimeout o in
            let x := MkXTx id (o_Key o) names idle (o_MaxLifetime o) n xtxActive n 0 ∅ [] ∅ None None "" in
            if rg_closed rg then (rg, Err (xtxErr "" SFinished))
            else (MkReg (<[id := x]> (rg_handles rg)) false, Ok x)
      end
  end.

Definition rg_get (rg : registry) (id : string) : option XTx := rg_handles rg !! id.

Definition XTxHandle (rg : registry) (id : string) : res XTxError XTx :=
  match rg_get rg id with Some x => Ok x | None => Err (xtxErr "" SHandleNotFound) end.

(** One handle under the reaper: [None] when it is forgotten. *)
Definition reap_handle (n : Z) (x : XTx) : option XTx :=
  match h_state x with
  | xtxCommitting => Some x
  | xtxActive => Some (if expiredAt x n then finish x xtxExpired n else x)
  | _ =>
      let retain := if (h_idle x <=? 0)%Z then DefaultXTxIdleTimeout else h_idle x in
      if (retain <? n - h_finishedAt x)%Z then None else Some x
  end.

Definition reapXTx (n : Z) (rg : registry) : registry * list string :=
  (MkReg (omap (reap_handle n) (rg_handles rg)) (rg_closed rg),
   (map_to_list (filter (λ kv, h_state kv.2 = xtxActive ∧ expiredAt kv.2 n = true) (rg_handles rg))).*1).

Definition rg_close (n : Z) (rg : registry) : registry :=
  if rg_closed rg then rg
  else MkReg ((λ x, if decide (h_state x = xtxActive) then finish x xtxClosed n else x) <$> rg_handles rg) true.

Definition status_of (x : XTx) : XTxStatus :=
  match h_state x with
  | xtxActive | xtxCommitting | xtxOutcomeUnknown => XTxPending
  | xtxCommitted => XTxCommitted
  | _ => XTxAborted
  end.

Definition status_rank (s : XTxStatus) : nat :=
  match s with XTxCommitted => 3 | XTxPending => 2 | _ => 1 end.

(** The best of the matching handles; the order of the map decides between equals. *)
Definition best_status (found : option (XTxStatus * string)) (x : XTx) : option (XTxStatus * string) :=
  match found with
  | Some (st, _) => if status_rank st <? status_rank (status_of x) then Some (status_of x, h_txid x) else found
  | None => Some (status_of x, h_txid x)
  end.

Definition rg_status (rg : registry) (ref : string) : option (XTxStatus * string) :=
  if decide (ref = "") then None
  else
    let matches_ := match rg_handles rg !! ref with
                    | Some x => [x]
                    | None => filter (λ x, h_key x = ref) (map snd (map_to_list (rg_handles rg)))
                    end in
    foldl best_status None matches_.

(** [DB.XTxStatus]. *)
Definition db_XTxStatus (d : DB) (rg : registry) (ref : string) : XTxStatus * string :=
  match parseTxID ref with
  | Some _ => match d_journal d with None => (XTxUnknown, "") | Some j => (Journal.status j ref, ref) end
  | None =>
      let '(st, tx) := match d_journal d with None => (XTxUnknown, "") | Some j => statusByKey head j ref end in
      match st with
      | XTxCommitted | XTxPending => (st, tx)
      | _ =>
          match rg_status rg ref with
          | Some (hst, htx) =>
              match d_journal d with
              | Some j =>
                  if decide (htx = "") then
                    match st, hst with
                    | XTxUnknown, _ | _, XTxPending | _, XTxCommitted => (hst, htx)
                    | _, _ => (st, tx)
                    end
                  else (Journal.status j htx, htx)
              | None =>
                  match st, hst with
                  | XTxUnknown, _ | _, XTxPending | _, XTxCommitted => (hst, htx)
                  | _, _ => (st, tx)
                  end
              end
          | None => (st, tx)
          end
      end
  end.
