(* ===== verification/XHandleThm.v ===== *)
(** * Transactions by handle are serializable: [engine/xtx_handle.go]

    A run of a handle interleaves its operations with arbitrary changes of the
    database.  [hr_seen] collects what its point reads answered from the store,
    [hr_net] what its staged writes amount to, document by document.  The
    invariant [hinv] says that the handle still knows both: the read set of a
    commit covers [hr_seen], its operations are exactly [hr_net]. *)
From Stdlib Require Import Ascii Lia ZArith.
From stdpp Require Import prelude gmap strings sorting.
From S2P Require Import Prelude.
From S2P Require Import Json.
From S2P Require Import Value.
From S2P Require Import GoTime.
From S2P Require Import Store.
From S2P Require Import Index.
From S2P Require Import Collection.
From S2P Require Import Batch.
From S2P Require Import Journal.
From S2P Require Import Names.
From S2P Require Import XDb.
From S2P Require Import XDbThm.
From S2P Require Import XHandle.
From S2P Require Import Segment.
From S2P Require Import CollThm.

(** ** Runs *)

Inductive hevent : Type :=
  | EGet (coll : string) (id n : Z)
  | EStage (op : XTxOp) (n : Z)
  | EOther (d' : DB).

Record hrun : Type := MkRun {
  hr_x : XTx;
  hr_d : DB;
  hr_seen : list (xtxDocKey * option Z);
  hr_net : gmap xtxDocKey (option (option vdata))
}.

(** What a read of a document that is not staged tells its caller. *)
Definition told (x : XTx) (k : xtxDocKey) (r : res XTxError Record_) : list (xtxDocKey * option Z) :=
  match h_writes x !! k with
  | Some _ => []
  | None =>
      match r with
      | Ok rec => [(k, Some (rec_Rev rec))]
      | Err e => match xe_Err e with SDocNotFound => [(k, None)] | _ => [] end
      end
  end.

(** The document an operation leaves: its data, or none. *)
Definition left_by (op : XTxOp) : option (option vdata) :=
  if decide (xo_Op op = OpDelete) then None else Some (xo_Data op).

Definition hstep (s : hrun) (e : hevent) : hrun :=
  match e with
  | EOther d' => MkRun (hr_x s) d' (hr_seen s) (hr_net s)
  | EGet coll id n =>
      let '(x, d, r) := h_Get coll id n (hr_x s) (hr_d s) in
      MkRun x d (told (hr_x s) (coll, id) r ++ hr_seen s) (hr_net s)
  | EStage op n =>
      let '(x, d, r) := Stage op n (hr_x s) (hr_d s) in
      MkRun x d (hr_seen s)
        (match r with Ok id => <[(xo_Collection op, id) := left_by op]> (hr_net s) | Err _ => hr_net s end)
  end.

Definition hrun_all : hrun → list hevent → hrun := foldl hstep.

(** A handle as [BeginXTx] returns it. *)
Definition fresh_handle (x : XTx) : Prop :=
  h_state x = xtxActive ∧ h_writes x = ∅ ∧ h_order x = [] ∧ h_observed x = ∅.

(** ** The invariant *)

Definition obs_is (ob : xtxObservation) (o : option Z) : Prop :=
  ob_present ob = bool_decide (is_Some o) ∧ ob_rev ob = default 0%Z o.

Definition known_op (op : XTxOp) : Prop := xo_Op op ∈ [OpInsert; OpUpdate; OpDelete].

Record hinv (s : hrun) : Prop := {
  hi_seen : ∀ k o, (k, o) ∈ hr_seen s → ∃ ob, h_observed (hr_x s) !! k = Some ob ∧ obs_is ob o;
  hi_writes : ∀ k w, h_writes (hr_x s) !! k = Some w → xkey w = k ∧ k ∈ h_order (hr_x s) ∧ known_op w;
  hi_left : ∀ k w, h_writes (hr_x s) !! k = Some w → hr_net s !! k = Some (left_by w);
  hi_net : ∀ k m, hr_net s !! k = Some (Some m) → is_Some (h_writes (hr_x s) !! k)
}.

(** A handle that expired commits nothing. *)
Definition hgood (s : hrun) : Prop :=
  h_state (hr_x s) = xtxActive ∧ hinv s ∨ h_state (hr_x s) = xtxExpired.

Lemma usable_cases x n x' :
  usable x n = (x', None) → h_state x = xtxActive ∧ x' = x.
Proof.
  unfold usable. destruct (bool_decide _ && _) eqn:Hb.
  - by intros [=].
  - intros [= <- He]. split; [|done]. unfold stateErr in He. by destruct (h_state x).
Qed.

Lemma usable_refused x n x' e :
  h_state x = xtxActive ∨ h_state x = xtxExpired → usable x n = (x', Some e) → h_state x' = xtxExpired.
Proof.
  unfold usable. intros Hs. destruct (bool_decide _ && _) eqn:Hb; intros [= <- He]; [done|].
  destruct Hs as [Hs|Hs]; [|done]. unfold stateErr in He. by rewrite Hs in He.
Qed.

(** Changing the time of last use, or the database, keeps what the handle knows. *)
Lemma hinv_ext s s' :
  h_observed (hr_x s') = h_observed (hr_x s) → h_writes (hr_x s') = h_writes (hr_x s) →
  h_order (hr_x s') = h_order (hr_x s) → hr_seen s' = hr_seen s → hr_net s' = hr_net s → hinv s → hinv s'.
Proof.
  intros Ho Hw Hr Hs Hn [H1 H2 H3 H4]. constructor.
  - rewrite Hs, Ho. done.
  - rewrite Hw, Hr. done.
  - rewrite Hw, Hn. done.
  - rewrite Hw, Hn. done.
Qed.

(** A document observed for the first time, and told or not. *)
Lemma hinv_observe s x' d' k ob o :
  hinv s → h_observed (hr_x s) !! k = None → obs_is ob o →
  h_observed x' = <[k := ob]> (h_observed (hr_x s)) → h_writes x' = h_writes (hr_x s) →
  h_order x' = h_order (hr_x s) →
  hinv (MkRun x' d' ((k, o) :: hr_seen s) (hr_net s)) ∧ hinv (MkRun x' d' (hr_seen s) (hr_net s)).
Proof.
  intros [H1 H2 H3 H4] Hk Hob Ho Hw Hr.
  assert (∀ k' o', (k', o') ∈ hr_seen s → ∃ ob', h_observed x' !! k' = Some ob' ∧ obs_is ob' o') as Hseen.
  { intros k' o' Hin. destruct (H1 k' o' Hin) as (ob' & Hob' & His). exists ob'. rewrite Ho, lookup_insert_ne; [done|].
    intros ->. congruence. }
  split; constructor; simpl; rewrite ?Hw, ?Hr; try done.
  intros k' o' [[= -> ->]|Hin]%elem_of_cons; [|by apply Hseen].
  exists ob. rewrite Ho, lookup_insert_eq. done.
Qed.

Lemma get_good s coll id n : hgood s → hgood (hstep s (EGet coll id n)).
Proof.
  intros Hg. simpl. unfold h_Get.
  assert (h_state (hr_x s) = xtxActive ∨ h_state (hr_x s) = xtxExpired) as Hst by (destruct Hg; tauto).
  destruct (participant _ _ _) as [e|] eqn:Hp.
  { unfold told. assert (xe_Err e ≠ SDocNotFound) as Hne.
    { unfold participant in Hp. destruct (decide _); [destruct (d_cols _ !! _); [done|]|]; by injection Hp as <-. }
    destruct Hg as [[Ha Hi]|He]; [left|by right]. split; [done|]. eapply hinv_ext; [..|exact Hi]; try done. simpl.
    destruct (h_writes _ !! _); [done|]. by destruct (xe_Err e). }
  destruct (usable (hr_x s) n) as [x' [e|]] eqn:Hu.
  { right. by eapply usable_refused. }
  apply usable_cases in Hu as [Ha ->]. destruct Hg as [[_ Hi]|He]; [|congruence]. left.
  unfold told. simpl. destruct (h_writes (hr_x s) !! (coll, id)) as [w|] eqn:Hw.
  { destruct (decide _); (split; [done|]); (eapply hinv_ext; [..|exact Hi]); done. }
  destruct (in_col coll (getIfPresent id) (hr_d s)) as [d' [[got|e]|e]] eqn:Hin.
  2:{ split; [done|]. eapply hinv_ext; [..|exact Hi]; done. }
  2:{ split; [done|]. eapply hinv_ext; [..|exact Hi]; try done. simpl.
      unfold in_col in Hin. destruct (d_cols (hr_d s) !! coll).
      - by destruct (getIfPresent id _).
      - by injection Hin as <- <-. }
  destruct (h_observed (hr_x s) !! (coll, id)) as [prev|] eqn:Hob.
  - destruct (_ || _) eqn:Hc.
    { split; [done|]. eapply hinv_ext; [..|exact Hi]; done. }
    apply orb_false_iff in Hc as [Hc1 Hc2]. apply negb_false_iff, bool_decide_eq_true in Hc1.
    apply negb_false_iff, Z.eqb_eq in Hc2. split; [by destruct got|]. destruct Hi as [H1 H2 H3 H4].
    assert (∀ o, obs_is prev o → hinv (MkRun (set_state (hr_x s) (h_state (hr_x s)) n) d'
      ((coll, id, o) :: hr_seen s) (hr_net s))) as Hadd.
    { intros o Hpo. constructor; simpl; [|done..]. intros k o' [[= -> ->]|Hk]%elem_of_cons; [eauto|by apply H1]. }
    destruct got as [rec|]; simpl in *; apply Hadd; split; done.
  - destruct got as [rec|]; simpl.
    + split; [done|]. eapply (hinv_observe s _ d' (coll, id) (MkObs true (rec_Rev rec) false)); done.
    + split; [done|]. eapply (hinv_observe s _ d' (coll, id) (MkObs false 0 false)); done.
Qed.

(** ** Staging *)

(** What was observed stays so. *)
Definition obs_kept (o o' : gmap xtxDocKey xtxObservation) : Prop :=
  ∀ k ob, o !! k = Some ob → ∃ ob', o' !! k = Some ob' ∧ ob_present ob' = ob_present ob ∧ ob_rev ob' = ob_rev ob.

Lemma obs_kept_refl o : obs_kept o o. Proof. intros k ob H. eauto. Qed.

Lemma obs_kept_trans o1 o2 o3 : obs_kept o1 o2 → obs_kept o2 o3 → obs_kept o1 o3.
Proof.
  intros H1 H2 k ob Hk. destruct (H1 k ob Hk) as (ob' & Hk' & Hp & Hr).
  destruct (H2 k ob' Hk') as (ob'' & Hk'' & Hp' & Hr'). exists ob''. split_and!; congruence.
Qed.

Lemma obs_kept_insert o k ob :
  match o !! k with Some p => ob_present ob = ob_present p ∧ ob_rev ob = ob_rev p | None => True end →
  obs_kept o (<[k := ob]> o).
Proof.
  intros H k' p Hp. destruct (decide (k' = k)) as [->|Hne].
  - exists ob. rewrite lookup_insert_eq, Hp in *. done.
  - exists p. by rewrite lookup_insert_ne.
Qed.

Lemma seen_kept s x' :
  hinv s → obs_kept (h_observed (hr_x s)) (h_observed x') →
  ∀ k o, (k, o) ∈ hr_seen s → ∃ ob, h_observed x' !! k = Some ob ∧ obs_is ob o.
Proof.
  intros Hi Hk k o Hin. destruct (hi_seen s Hi k o Hin) as (ob & Hob & Hp & Hr).
  destruct (Hk k ob Hob) as (ob' & Hob' & Hp' & Hr'). exists ob'. split; [done|]. split; congruence.
Qed.

(** Nothing staged, possibly more observed. *)
Lemma hinv_kept s x' d' :
  hinv s → obs_kept (h_observed (hr_x s)) (h_observed x') → h_writes x' = h_writes (hr_x s) →
  h_order x' = h_order (hr_x s) → hinv (MkRun x' d' (hr_seen s) (hr_net s)).
Proof.
  intros Hi Hk Hw Hr. pose proof (seen_kept s x' Hi Hk). destruct Hi as [_ H2 H3 H4].
  constructor; simpl; rewrite ?Hw, ?Hr; done.
Qed.

(** A document staged. *)
Lemma hinv_write s x' d' k w v :
  hinv s → obs_kept (h_observed (hr_x s)) (h_observed x') → h_writes x' = <[k := w]> (h_writes (hr_x s)) →
  (∀ k', k' ∈ h_order (hr_x s) → k' ∈ h_order x') → k ∈ h_order x' → xkey w = k → known_op w → left_by w = v →
  hinv (MkRun x' d' (hr_seen s) (<[k := v]> (hr_net s))).
Proof.
  intros Hi Hk Hw Hr Hin Hx Hop Hv. pose proof (seen_kept s x' Hi Hk) as Hs. destruct Hi as [_ H2 H3 H4].
  constructor; simpl; rewrite ?Hw; [done| | |].
  - intros k' w' [[<- <-]|[Hne Hk']]%lookup_insert_Some; [done|]. destruct (H2 k' w' Hk') as (? & ? & ?). auto.
  - intros k' w' [[<- <-]|[Hne Hk']]%lookup_insert_Some; [by rewrite lookup_insert_eq, Hv|].
    rewrite lookup_insert_ne by done. by apply H3.
  - intros k' m [[<- Hm]|[Hne Hk']]%lookup_insert_Some; [rewrite lookup_insert_eq; by eexists|].
    rewrite lookup_insert_ne by done. by eapply H4.
Qed.

(** An insert of this handle withdrawn. *)
Lemma hinv_drop s x' d' k :
  hinv s → h_observed x' = h_observed (hr_x s) → h_writes x' = delete k (h_writes (hr_x s)) →
  h_order x' = h_order (hr_x s) → hinv (MkRun x' d' (hr_seen s) (<[k := None]> (hr_net s))).
Proof.
  intros [H1 H2 H3 H4] Ho Hw Hr. constructor; simpl; rewrite ?Hw, ?Hr, ?Ho; [done| | |].
  - intros k' w' [Hne Hk']%lookup_delete_Some. by apply H2.
  - intros k' w' [Hne Hk']%lookup_delete_Some. rewrite lookup_insert_ne by done. by apply H3.
  - intros k' m [[<- Hm]|[Hne Hk']]%lookup_insert_Some; [done|]. rewrite lookup_delete_ne by done. by eapply H4.
Qed.

Lemma handle_observe_spec x d k x' d' ob :
  observe x d k = (x', d', ob) →
  h_observed x' !! k = Some ob ∧ obs_kept (h_observed x) (h_observed x') ∧
  h_writes x' = h_writes x ∧ h_order x' = h_order x ∧ h_state x' = h_state x.
Proof.
  unfold observe. destruct (h_observed x !! k) as [ob0|] eqn:Ho.
  - intros [= <- <- <-]. split_and!; [done|apply obs_kept_refl|done..].
  - destruct (in_col k.1 (liveRev k.2) d) as [d1 r]. intros [= <- <- <-]. simpl.
    split_and!; [apply lookup_insert_eq| |done..]. apply obs_kept_insert. by rewrite Ho.
Qed.

Lemma shape_known op : stage_shape op = None → known_op op.
Proof.
  unfold stage_shape, known_op. destruct (decide (xo_Op op = OpInsert)) as [->|]; [set_solver|].
  destruct (decide (xo_Op op = OpUpdate)) as [->|]; [set_solver|].
  destruct (decide (xo_Op op = OpDelete)) as [->|]; [set_solver|done].
Qed.

Lemma stage_data_spec op :
  xo_Collection (stage_data op) = xo_Collection op ∧ xo_Op (stage_data op) = xo_Op op ∧
  xo_ID (stage_data op) = xo_ID op ∧ left_by (stage_data op) = left_by op.
Proof.
  unfold stage_data, left_by. destruct (decide (xo_Op op = OpDelete)) as [H|H]; simpl;
    split_and!; try done; [by rewrite decide_True|by rewrite decide_False].
Qed.

(** The three ways an admitted operation is staged; [x] is the handle already
    marked as used. *)
Section staging.
Context (s : hrun) (op : XTxOp) (x : XTx).
Context (Hi : hinv s) (Hact : h_state x = xtxActive).
Context (Hobs : h_observed x = h_observed (hr_x s)) (Hwr : h_writes x = h_writes (hr_x s)).
Context (Hord : h_order x = h_order (hr_x s)) (Hk : known_op op).

Definition after (x' : XTx) (d' : DB) (r : res XTxError Z) : hrun :=
  MkRun x' d' (hr_seen s)
    (match r with Ok id => <[(xo_Collection op, id) := left_by op]> (hr_net s) | Err _ => hr_net s end).

Lemma same_good d' e : h_state x = xtxActive ∧ hinv (after x d' (Err e)).
Proof. split; [done|]. apply hinv_kept; [done|rewrite Hobs; apply obs_kept_refl|done..]. Qed.

Lemma insert_good d x' d' r :
  xo_Op op = OpInsert → stage_insert op x d = (x', d', r) → h_state x' = xtxActive ∧ hinv (after x' d' r).
Proof.
  intros Hins. unfold stage_insert. destruct (full x); [intros [= <- <- <-]; apply same_good|].
  destruct (in_col _ _ d) as [d1 [[id|e]|e]]; [|intros [= <- <- <-]; apply same_good..].
  intros [= <- <- <-]. split; [done|].
  apply (hinv_write s _ d1 (xo_Collection op, id) (with_id op id)); simpl; rewrite ?Hobs, ?Hwr, ?Hord; try done.
  - apply obs_kept_refl.
  - intros k'. rewrite elem_of_app. by left.
  - rewrite elem_of_app. right. by apply list_elem_of_singleton.
Qed.

Lemma fold_good d w x' r :
  xo_Op op ≠ OpInsert → h_writes x !! (xo_Collection op, xo_ID op) = Some w →
  stage_fold op w (xo_Collection op, xo_ID op) x = (x', r) → h_state x' = xtxActive ∧ hinv (after x' d r).
Proof.
  intros Hni Hw. unfold stage_fold. rewrite Hwr in Hw. destruct (hi_writes s Hi _ _ Hw) as (Hkey & Hin & Hkw).
  destruct (decide (xo_Op w = OpDelete)) as [|Hnd]; [intros [= <- <-]; apply same_good|].
  destruct (decide (xo_Op w = OpInsert)) as [Hwi|Hwi].
  - destruct (negb _); [intros [= <- <-]; apply same_good|].
    destruct (decide (xo_Op op = OpDelete)) as [Hd|Hd]; intros [= <- <-]; (split; [done|]); unfold after.
    + unfold left_by. rewrite decide_True by done. apply hinv_drop; simpl; [done|done|by rewrite Hwr|done].
    + eapply hinv_write; [exact Hi|simpl; rewrite Hobs; apply obs_kept_refl|simpl; rewrite Hwr; reflexivity|
        simpl; by rewrite Hord|simpl; by rewrite Hord|exact Hkey|exact Hkw|].
      unfold left_by. simpl. by rewrite !decide_False.
  - destruct (_ && _); [intros [= <- <-]; apply same_good|]. intros [= <- <-]. split; [done|].
    eapply hinv_write; [exact Hi|simpl; rewrite Hobs; apply obs_kept_refl|simpl; rewrite Hwr; reflexivity|
      simpl; by rewrite Hord|simpl; by rewrite Hord|exact Hkey|exact Hk|].
    unfold left_by. simpl. by destruct (decide _).
Qed.

Lemma stored_good d x' d' r :
  stage_stored op (xo_Collection op, xo_ID op) x d = (x', d', r) →
  h_state x' = xtxActive ∧ hinv (after x' d' r).
Proof.
  unfold stage_stored. destruct (observe x d _) as [[x1 d1] ob] eqn:Ho.
  apply handle_observe_spec in Ho as (Hob & Hkept & Hw1 & Ho1 & Hst).
  assert (∀ e, h_state x1 = xtxActive ∧ hinv (after x1 d1 (Err e))) as Hsame.
  { intros e. split; [congruence|]. apply hinv_kept; [done|by rewrite <- Hobs|congruence|congruence]. }
  destruct (negb _); [intros [= <- <- <-]; apply Hsame|]. destruct (_ && _); [intros [= <- <- <-]; apply Hsame|].
  destruct (full x1); [intros [= <- <- <-]; apply Hsame|]. intros [= <- <- <-]. split; [simpl; congruence|].
  eapply (hinv_write s _ d1 (xo_Collection op, xo_ID op) (with_base op (ob_rev ob))); simpl.
  - done.
  - rewrite <- Hobs. eapply obs_kept_trans; [exact Hkept|]. apply obs_kept_insert. by rewrite Hob.
  - by rewrite Hw1, Hwr.
  - intros k'. rewrite Ho1, Hord, elem_of_app. by left.
  - rewrite elem_of_app. right. by apply list_elem_of_singleton.
  - done.
  - done.
  - done.
Qed.

End staging.

Lemma stage_good s op n : hgood s → hgood (hstep s (EStage op n)).
Proof.
  intros Hg. simpl. unfold Stage.
  assert (h_state (hr_x s) = xtxActive ∨ h_state (hr_x s) = xtxExpired) as Hst by (destruct Hg; tauto).
  assert (hgood (MkRun (hr_x s) (hr_d s) (hr_seen s) (hr_net s))) as Hs by (by destruct s).
  destruct (participant _ _ _); [done|]. destruct (stage_shape op) eqn:Hsh; [done|]. clear Hs.
  apply shape_known in Hsh. destruct (stage_data_spec op) as (Hc & Hop & Hid & Hl).
  remember (stage_data op) as op' eqn:Hop'. clear Hop'.
  destruct (usable (hr_x s) n) as [x' [e|]] eqn:Hu; [right; by eapply usable_refused|].
  apply usable_cases in Hu as [Ha ->]. destruct Hg as [[_ Hi]|He]; [|congruence]. left.
  assert (known_op op') as Hk by (unfold known_op in *; by rewrite Hop). rewrite <- Hc, <- Hl.
  set (x := set_state (hr_x s) (h_state (hr_x s)) n).
  destruct (decide (xo_Op op' = OpInsert)) as [Hins|Hins].
  { destruct (stage_insert op' x (hr_d s)) as [[x1 d1] r] eqn:Hsi. by eapply (insert_good s op' x). }
  destruct (h_writes x !! (xo_Collection op', xo_ID op')) as [w|] eqn:Hw.
  - destruct (stage_fold op' w _ x) as [x1 r] eqn:Hf. by eapply (fold_good s op' x).
  - destruct (stage_stored op' _ x (hr_d s)) as [[x1 d1] r] eqn:Hf. by eapply (stored_good s op' x).
Qed.

Lemma run_good s evs : hgood s → hgood (hrun_all s evs).
Proof.
  revert s. induction evs as [|e evs IH]; intros s Hg; [done|]. simpl. apply IH. destruct e.
  - by apply get_good.
  - by apply stage_good.
  - destruct Hg as [[Ha Hi]|He]; [left|by right]. split; [done|]. eapply hinv_ext; [..|exact Hi]; done.
Qed.

Lemma fresh_good x d : fresh_handle x → hgood (MkRun x d [] ∅).
Proof.
  intros (Ha & Hw & Ho & Hb). left. split; [done|]. constructor; simpl.
  - by intros k o ?%not_elem_of_nil.
  - intros k w. by rewrite Hw.
  - intros k w. by rewrite Hw.
  - intros k m. by rewrite lookup_empty.
Qed.

(** ** Committing *)

(** The instant of the commit of a handle: the one of its writes, or the latest clock
    of the collections read when there is none. *)
Definition handle_instant (d : DB) (ops : list XTxOp) (reads : list xtxReadCheck) : Z :=
  match ops with
  | [] => latest (d_cols d) (names_of (map rc_Collection reads)) (d_wall d) 0
  | _ => instant d ops
  end.

Lemma read_set_valid reads d d' u :
  validateXTxReadSet reads d = (d', u) →
  idx d' = idx d ∧ (u = Ok tt → Forall (read_holds (idx d) (handle_instant d [] reads)) reads).
Proof.
  unfold validateXTxReadSet. destruct reads as [|rc reads]; [intros [= <- <-]; split; [done|constructor]|].
  remember (rc :: reads) as all eqn:Hall. clear Hall. intros H.
  apply xbind_inv in H as [(d1 & x1 & Hm1 & H)|(e & Hm1 & ->)]; quietly Hm1; [|by split].
  apply (steady_run _ _ _ _ steady_lock) in Hm1 as [C1 W1].
  apply xbind_inv in H as [(d2 & x2 & Hm2 & H)|(e & Hm2 & ->)]; quietly Hm2; [|split; [congruence|done]].
  apply (steady_run _ _ _ _ (steady_locks _)) in Hm2 as [C2 W2].
  apply xbind_inv in H as [(d3 & n & Hm3 & H)|(e & Hm3 & ->)]; quietly Hm3; [|split; [congruence|done]].
  apply instant_latest in Hm3; [|apply names_of_NoDup]. rewrite C2, C1, W2, W1 in Hm3.
  unfold xbind, xget in H.
  destruct (validateXTxReads (d_cols d3) all n) as [[]|e] eqn:Hv; injection H as <- <-; (split; [congruence|]); [|done].
  intros _. apply reads_validated in Hv. unfold handle_instant. rewrite <- Hm3.
  by replace (idx d) with (idx d3) by congruence.
Qed.

Lemma commit_ops_elem s op : hinv s → op ∈ commit_ops (hr_x s) → h_writes (hr_x s) !! xkey op = Some op.
Proof.
  intros Hi Hin. unfold commit_ops in Hin. apply list_elem_of_omap in Hin as (k & _ & Hk).
  by destruct (hi_writes s Hi k op Hk) as [-> _].
Qed.

Lemma commit_ops_net s k m : hinv s → hr_net s !! k = Some (Some m) → ∃ op, op ∈ commit_ops (hr_x s) ∧ xkey op = k.
Proof.
  intros Hi Hk. destruct (hi_net s Hi k m Hk) as [w Hw]. destruct (hi_writes s Hi k w Hw) as (Hx & Ho & _).
  exists w. split; [|done]. apply list_elem_of_omap. eauto.
Qed.

(** The read set of a commit covers everything the handle told. *)
Lemma seen_holds s v t :
  hinv s → Forall (read_holds v t) (commit_reads (hr_x s)) → ∀ k o, (k, o) ∈ hr_seen s → state_of v t k = o.
Proof.
  intros Hi Hr k o Hin. destruct (hi_seen s Hi k o Hin) as (ob & Hob & Hp & Hv). rewrite Forall_forall in Hr.
  destruct (Hr (MkRead k.1 k.2 (ob_present ob) (ob_rev ob) (ob_write ob))) as [H1 H2].
  { unfold commit_reads. apply elem_of_ssort, list_elem_of_fmap. exists (k, ob). split; [done|].
    by apply elem_of_map_to_list. }
  simpl in *. rewrite <- surjective_pairing in H1, H2. rewrite Hp in H1. rewrite Hv in H2.
  destruct (state_of v t k) as [z|], o as [z'|]; simpl in *; congruence.
Qed.

(** Claim C13: transactions by handle are serializable over point reads and writes,
    a read being known by the presence and the revision it found.  Take any run of
    a handle, its reads and staged writes interleaved with arbitrary changes of the
    database by others, and commit it.  If the commit succeeds and is not a replay,
    then at its instant (the latest clock of the collections it writes to, or reads
    when it writes nothing) every document its reads found in the store is there at
    the revision they answered and every one they found absent is absent, every
    staged target is there at the revision the handle saw, and its net writes (one
    operation per document, with the data staged last) take effect together, on no
    other document; if the sizes kept of the active segments are those of the
    files, each is stored with that data where the index entry points.  A revision
    stands for the data as long as nobody inserts over an id that is there, which
    starts again at revision 1.  If the commit does not succeed, no document of the
    running database has changed. *)
Theorem handle_serializable x0 d0 evs n n' x' d' r :
  fresh_handle x0 →
  let s := hrun_all (MkRun x0 d0 [] ∅) evs in
  let d := hr_d s in
  let ops := commit_ops (hr_x s) in
  let t := handle_instant d ops (commit_reads (hr_x s)) in
  Commit n n' (hr_x s) d = (x', d', r) →
  match r with
  | Err _ => idx d' = idx d
  | Ok res => xr_Replayed res = false →
      (∀ op, op ∈ ops → hr_net s !! xkey op = Some (left_by op)) ∧
      (∀ k m, hr_net s !! k = Some (Some m) → ∃ op, op ∈ ops ∧ xkey op = k) ∧
      (∀ k o, (k, o) ∈ hr_seen s → state_of (idx d) t k = o) ∧
      (∃ ts, ∀ op, op ∈ ops → op_allowed (idx d) t op ∧ ∃ rev,
         op_effect (idx d) op rev (entry_of (idx d') (xkey op)) ∧
         (sizes_known d → op_stored d d' t (xr_TxID res) ts op rev)) ∧
      (∀ k, k ∉ map xkey ops → entry_of (idx d') k = entry_of (idx d) k)
  end.
Proof.
  intros Hf s d ops t H. pose proof (run_good (MkRun x0 d0 [] ∅) evs (fresh_good x0 d0 Hf)) as Hg. fold s in Hg.
  assert (h_state (hr_x s) ≠ xtxCommitted) as Hnc by (destruct Hg as [[-> _]| ->]; done).
  unfold Commit in H.
  assert (match usable (hr_x s) n with
    | (x, Some e) => (x, d, Err e)
    | (x, None) => let '(d, r) := commit_handle (h_key x) (commit_ops x) (commit_reads x) d in
                   (settle (set_state x xtxCommitting (h_lastUsed x)) n' r, d, r) end = (x', d', r)) as H1.
  { rewrite <- H. destruct (h_state (hr_x s)), (h_result (hr_x s)); try done; by destruct (usable _ _) as [? []]. }
  clear H. destruct (usable (hr_x s) n) as [x1 [e|]] eqn:Hu; [by injection H1 as <- <- <-|].
  apply usable_cases in Hu as [Ha ->]. destruct Hg as [[_ Hi]|He]; [|congruence].
  destruct (commit_handle _ _ _ d) as [d1 r1] eqn:Hc. injection H1 as _ <- <-. fold ops in Hc.
  assert (∀ op, op ∈ ops → hr_net s !! xkey op = Some (left_by op)) as Hnet1
    by (intros op Hop; by apply (hi_left s Hi), commit_ops_elem).
  assert (∀ k m, hr_net s !! k = Some (Some m) → ∃ op, op ∈ ops ∧ xkey op = k) as Hnet2
    by (intros k m; by apply commit_ops_net).
  unfold commit_handle in Hc. destruct ops as [|op0 ops0] eqn:Hops.
  - apply xbind_inv in Hc as [(d2 & [] & Hv & [= <- <-])|(e & Hv & ->)]; apply read_set_valid in Hv as [Hd Hv]; [|done].
    intros _. split; [done|]. split; [done|]. split; [apply seen_holds; [done|by apply Hv]|].
    split; [exists ""; by intros op ?%not_elem_of_nil|]. intros k _. by rewrite Hd.
  - apply commit_outcome in Hc. destruct r1 as [res|e]; simpl in Hc; [|done].
    intros Hrep. rewrite Hrep in Hc. destruct Hc as (Hr & [ts Hop] & Hrest).
    split; [done|]. split; [done|]. split; [by apply seen_holds|]. split; [|done].
    exists ts. intros op Hin. destruct (Hop op Hin) as (Hall & rev & _ & Heff). eauto.
Qed.

(** ** The attempts of a point read *)

Lemma now_run st : ∃ st' t, now st = (st', Ok t) ∧
  (clockFloor (coll st) ≤ t)%Z ∧ clockFloor (coll st') = t ∧ index (coll st') = index (coll st).
Proof.
  unfold now, wall_now, Collection.bind, get_coll, Collection.modify, ret. destruct st as [c fs [|t w]]; simpl.
  - destruct (0 <=? clockFloor c)%Z eqn:Hl; simpl; eexists _, _; (split; [reflexivity|]); simpl;
      [done|apply Z.leb_gt in Hl; split_and!; [lia|done|done]].
  - destruct (t <=? clockFloor c)%Z eqn:Hl; simpl; eexists _, _; (split; [reflexivity|]); simpl;
      [done|apply Z.leb_gt in Hl; split_and!; [lia|done|done]].
Qed.

(** A document found gone stays gone: the clock of its collection does not go
    back. *)
Lemma liveRev_gone id st st' : liveRev id st = (st', Ok None) → ∃ st'', liveRev id st' = (st'', Ok None).
Proof.
  assert (∀ e t u, expired e t = true → (t ≤ u)%Z → expired e u = true) as Hmono.
  { intros e t u. unfold expired. rewrite !andb_true_iff, !Z.leb_le. lia. }
  unfold liveRev, Collection.bind, get_coll. destruct (Get (index (coll st)) id) as [loc|] eqn:Hg.
  2:{ intros [= <-]. rewrite Hg. by eexists. }
  destruct (now_run st) as (st1 & t & -> & _ & Hf & Hi). destruct (expired (ie_ExpiresAt loc) t) eqn:He; [|done].
  intros [= <-]. rewrite Hi, Hg. destruct (now_run st1) as (st2 & u & -> & Hle & _).
  rewrite (Hmono _ t u He) by lia. by eexists.
Qed.

(** One attempt, before the rest [K] of them. *)
Definition one_attempt (a : nat) (id : Z) (K : M (option Record_)) : M (option Record_) :=
  (l <- liveRev id ;;
   match l with
   | None => ret None
   | Some _ =>
       r <- try_ (Get_ id) ;;
       match r with
       | Ok rec => ret (Some rec)
       | Err e => l' <- liveRev id ;; match l' with Some _ => if 2 <=? a then throw e else K | None => K end
       end
   end)%scriva.

(** Two ways to go on agree when they agree where the attempt goes on. *)
Lemma one_attempt_ext a id K K' st :
  (∀ st1 st2 l, liveRev id st1 = (st2, Ok l) → l = None ∨ a < 2 → K st2 = K' st2) →
  one_attempt a id K st = one_attempt a id K' st.
Proof.
  intros H. unfold one_attempt, Collection.bind. destruct (liveRev id st) as [st2 [[z|]|e]]; [|done..].
  destruct (try_ (Get_ id) st2) as [st3 [[rec|e]|e]]; [done| |done].
  destruct (liveRev id st3) as [st4 [[z'|]|e']] eqn:Hl; [| |done].
  - destruct (2 <=? a) eqn:Ha; [done|]. apply Nat.leb_gt in Ha. apply (H st3 st4 (Some z')); [done|by right].
  - apply (H st3 st4 None); [done|by left].
Qed.

(** Four attempts are all a point read ever makes. *)
Lemma attempts_enough f id st : get_attempts (4 + f) 0 id st = get_attempts 4 0 id st.
Proof.
  apply (one_attempt_ext 0 id (get_attempts (3 + f) 1 id) (get_attempts 3 1 id)). intros _ st1 _ _ _.
  apply (one_attempt_ext 1 id (get_attempts (2 + f) 2 id) (get_attempts 2 2 id)). intros _ st2 _ _ _.
  apply (one_attempt_ext 2 id (get_attempts (1 + f) 3 id) (get_attempts 1 3 id)). intros st3 st4 l Hl [->|?]; [|lia].
  apply liveRev_gone in Hl as [st5 Hl]. simpl. unfold Collection.bind. by rewrite Hl.
Qed.

(** ** A transaction over two collections, run

    A database with the collections [a] and [b]; a document is inserted in [a],
    a handle reads it, stages an update of it and an insert in [b], and commits.
    The runs serve as instances of the theorems on commits and handles, and
    show what a rejected operation and a doubled read lock do. *)

Definition xs_db : DB :=
  MkDB {["a" := sample_coll; "b" := sample_coll]} None None None "0123456789abcdef" ∅ ∅ [] false None [] [] [5; 3]%Z.

Definition xs_insert : list XTxOp := [MkXOp "a" OpInsert 1 (Some sample_data) 0 0 None].

(** The document of [a] is there. *)
Definition xs_one : DB := (commitXTx "k0" xs_insert [] xs_db).1.

(** ** A one-shot commit *)

Definition xs_update : list XTxOp :=
  [MkXOp "b" OpInsert 4 (Some sample_data) 0 0 None; MkXOp "a" OpUpdate 1 (Some sample_data) 1 0 None].

Definition xs_reads : list xtxReadCheck := [MkRead "a" 1 true 1 true; MkRead "b" 4 false 0 false].

Definition xs_result : XTxResult :=
  MkXRes "0123456789abcdef-0000000000000002"
    [MkOpRes "a" 1 2 OpUpdate; MkOpRes "b" 4 1 OpInsert] false None.

Lemma xs_committed : (commitXTx "k1" xs_update xs_reads xs_one).2 = Ok xs_result.
Proof. vm_compute. reflexivity. Qed.

Definition xs_two : DB := (commitXTx "k1" xs_update xs_reads xs_one).1.

Lemma xs_run : commitXTx "k1" xs_update xs_reads xs_one = (xs_two, Ok xs_result).
Proof. unfold xs_two. rewrite <- xs_committed. apply surjective_pairing. Qed.

Lemma xs_sizes : sizes_known xs_one.
Proof.
  assert (bool_decide (map_Forall (λ _ c, poisoned (active c) = true ∨ size (active c) = length (disk (active c)))
    (d_cols xs_one)) = true) as H%bool_decide_eq_true by (vm_compute; reflexivity).
  intros name c Hc Hp. destruct (map_Forall_lookup_1 _ _ _ _ H Hc); [congruence|done].
Qed.

Lemma commit_all_or_nothing_witness :
  Forall (read_holds (idx xs_one) 3) xs_reads ∧
  entry_of (idx xs_two) ("a", 2%Z) = entry_of (idx xs_one) ("a", 2%Z) ∧
  ∃ ts rev, op_stored xs_one xs_two 3 "0123456789abcdef-0000000000000002" ts
    (MkXOp "a" OpUpdate 1 (Some sample_data) 1 0 None) rev.
Proof.
  pose proof (commit_all_or_nothing "k1" xs_update xs_reads xs_one xs_two (Ok xs_result) xs_run) as H.
  assert (instant xs_one xs_update = 3%Z) as Ht by (vm_compute; reflexivity).
  cbv zeta in H. rewrite Ht in H. destruct H as (Hr & [ts Hops] & Hrest). split; [exact Hr|]. split.
  - apply Hrest. apply (bool_decide_unpack (("a", 2%Z) ∉ map xkey xs_update)). vm_compute. exact I.
  - destruct (Hops (MkXOp "a" OpUpdate 1 (Some sample_data) 1 0 None)) as (_ & rev & _ & _ & Hst).
    { right. left. }
    exists ts, rev. apply Hst. exact xs_sizes.
Defined.

(** ** A handle *)

Definition xs_handle : XTx :=
  MkXTx "h1" "k2" ["a"; "b"] DefaultXTxIdleTimeout 0 100 xtxActive 100 0 ∅ [] ∅ None None "".

Lemma xs_fresh : fresh_handle xs_handle.
Proof. split; [|split; [|split]]; reflexivity. Qed.

Definition xs_events : list hevent :=
  [EGet "a" 1 101; EStage (MkXOp "a" OpUpdate 1 (Some sample_data) 0 0 None) 102;
   EStage (MkXOp "b" OpInsert 0 (Some sample_data) 0 0 None) 103].

Definition xs_s : hrun := hrun_all (MkRun xs_handle xs_one [] ∅) xs_events.

Definition xs_out : XTx * DB * res XTxError XTxResult := Commit 104 105 (hr_x xs_s) (hr_d xs_s).

Lemma xs_out_ok :
  match xs_out.2 with Ok r => negb (xr_Replayed r) | Err _ => false end = true.
Proof. vm_compute. reflexivity. Qed.

Lemma handle_serializable_witness :
  let t := handle_instant (hr_d xs_s) (commit_ops (hr_x xs_s)) (commit_reads (hr_x xs_s)) in
  state_of (idx (hr_d xs_s)) t ("a", 1%Z) = Some 1%Z ∧
  entry_of (idx xs_out.1.2) ("a", 9%Z) = entry_of (idx (hr_d xs_s)) ("a", 9%Z).
Proof.
  pose proof (handle_serializable xs_handle xs_one xs_events 104 105 xs_out.1.1 xs_out.1.2 xs_out.2 xs_fresh) as H.
  cbv zeta in H. fold xs_s in H.
  assert (Commit 104 105 (hr_x xs_s) (hr_d xs_s) = (xs_out.1.1, xs_out.1.2, xs_out.2)) as Hc
    by (fold xs_out; destruct xs_out as [[? ?] ?]; reflexivity).
  specialize (H Hc). clear Hc. pose proof xs_out_ok as Hok.
  destruct xs_out.2 as [res|e]; [|discriminate Hok].
  apply negb_true_iff in Hok. destruct (H Hok) as (_ & _ & Hseen & _ & Hrest).
  split.
  - apply Hseen. apply (bool_decide_unpack ((("a", 1%Z), Some 1%Z) ∈ hr_seen xs_s)). vm_compute. exact I.
  - apply Hrest. apply (bool_decide_unpack (("a", 9%Z) ∉ map xkey (commit_ops (hr_x xs_s)))). vm_compute. exact I.
Defined.

(** ** A rejected operation joins the read set *)

(** The handle stages a write on [a]; an update of a document that is not there is
    rejected; another transaction inserts that document; the commit fails. *)
Definition xs_rejected : hrun :=
  hrun_all (MkRun xs_handle xs_one [] ∅)
    [EStage (MkXOp "a" OpUpdate 1 (Some sample_data) 0 0 None) 101;
     EStage (MkXOp "b" OpUpdate 7 (Some sample_data) 0 0 None) 102].

Definition xs_other : DB :=
  (commitXTx "k3" [MkXOp "b" OpInsert 7 (Some sample_data) 0 0 None] [] (hr_d xs_rejected)).1.

Lemma rejected_stage_conflicts :
  (let first := hrun_all (MkRun xs_handle xs_one [] ∅) [EStage (MkXOp "a" OpUpdate 1 (Some sample_data) 0 0 None) 101] in
   match (Stage (MkXOp "b" OpUpdate 7 (Some sample_data) 0 0 None) 102 (hr_x first) (hr_d first)).2 with
   | Err e => bool_decide (xe_Tx e = "") | Ok _ => false end) = true ∧
  match (Commit 104 105 (hr_x xs_rejected) xs_other).2 with
  | Err (MkXErr _ SConflict (Some ce)) => bool_decide (ce_Collection ce = "b") && (ce_ID ce =? 7)%Z
  | _ => false
  end = true.
Proof. split; vm_compute; reflexivity. Qed.

(** ** An insert over a document that is there *)

(** An insert with the id of an existing document is not refused: the running
    database shows revision 1 again, a rebuild of the index from the same
    segments counts on from the old revision. *)
Definition xs_again : DB := (commitXTx "k4" xs_insert [] xs_two).1.

Definition rebuilt (d : DB) (name : string) (id : Z) : option Z :=
  match d_cols d !! name, d_journal d with
  | Some c, Some j =>
      match Rebuild newIndex (sealedSegs c ++ [active c]) (Some (decisionsMap j)) with
      | Ok i => ie_Rev <$> Get i id
      | Err _ => None
      end
  | _, _ => None
  end.

Lemma insert_over_existing :
  ie_Rev <$> entry_of (idx xs_two) ("a", 1%Z) = Some 2%Z ∧ rebuilt xs_two "a" 1 = Some 2%Z ∧
  ie_Rev <$> entry_of (idx xs_again) ("a", 1%Z) = Some 1%Z ∧ rebuilt xs_again "a" 1 = Some 3%Z.
Proof. split; [|split; [|split]]; vm_compute; reflexivity. Qed.

(** ** A read lock taken twice *)

(** [sync.RWMutex]: a waiting writer keeps new readers out, readers keep writers
    out. *)
Record rwmutex : Type := MkRW { rw_readers : nat; rw_writer : bool; rw_waiting : nat }.

Definition rw_RLock (m : rwmutex) : option rwmutex :=
  if rw_writer m || (0 <? rw_waiting m) then None else Some (MkRW (S (rw_readers m)) false (rw_waiting m)).

Definition rw_Lock (m : rwmutex) : option rwmutex :=
  if rw_writer m || (0 <? rw_readers m) then None else Some (MkRW 0 true (pred (rw_waiting m))).

(** A commit that writes [a] and has read two documents of [b] takes the read lock
    of [b] twice; a writer that starts waiting in between blocks the commit, and
    the commit blocks the writer. *)
Lemma read_lock_twice_deadlocks :
  lock_names ["a"] [MkRead "b" 1 true 1 false; MkRead "b" 2 true 1 false] = ["a"; "b"; "b"] ∧
  ∃ m, rw_RLock (MkRW 0 false 0) = Some m ∧
    let m' := MkRW (rw_readers m) (rw_writer m) 1 in rw_RLock m' = None ∧ rw_Lock m' = None.
Proof. split; [vm_compute; reflexivity|]. eexists. split; [reflexivity|]. split; reflexivity. Qed.
